(* ===== verification/_CoqProject ===== *)
-Q . S2P
Prelude.v
Types.v
Text.v
Order.v
Chars.v
Records.v
Paths.v
Control.v
Cancel.v
JobModel.v
Retry.v
Fair.v
Pressure.v
Scheduler.v
SchedulerSpec.v
Isolated.v
Files.v
Progress.v
Catalog.v
Restore.v
Journal.v
Events.v
Hits.v
Fuzzy.v
Query.v
QueryParse.v
QuerySpec.v
QueryKey.v
FileSystem.v
FileFacts.v
TextFiles.v
Publish.v
OpModel.v
OpTree.v
OpJournal.v
TrashMeta.v
TrashSpec.v
JournalSpec.v
Preserve.v
Copy.v
CopyFrame.v
Relocate.v
Removal.v
Operator.v
Machine.v
CopyCalm.v
CopyBytes.v
CopySpec.v
Replacing.v
CopyPath.v
RemovalSpec.v
MoveFrame.v
Moving.v
OperatorSpec.v
OpWitness.v
Inverted.v
Codec.v
StoreIds.v
StoreIdsSpec.v
Durable.v
Utf8.v
BinarySearch.v
PostingStore.v
PostingStoreSpec.v
PrefixStore.v
SubstringStore.v
FuzzyStore.v
IndexSpec.v
StoreSpec.v
LookupCache.v
ArchiveLookup.v
ArchiveLookupSpec.v
SearchIndex.v
SearchIndexSpec.v
ContentSearch.v
SearchMatch.v
SearchMatchSpec.v
QueryPass.v
QueryPassSpec.v
StoreWitness.v
