(* ===== verification/Prelude.v ===== *)
(** * GFM: a verification development

    GFM is a macOS file manager written in Rust, split into crates under
    [src/crates/].  Nearly all its work (indexing, extraction, thumbnails, file
    operations, repairs) runs as jobs; what it does to the user's files are the
    file operations; what it finds it finds through an index, asked by queries.
    The development models the job engine ([crates/jobs]), the file operations
    ([crates/ops]), the archives of the index ([crates/store]) with the cached
    look-ups in them and the event queue that feeds it ([crates/index]), and the
    search: queries, the index in memory and what it answers ([crates/search]).

    ** The program's parts and how they interact

    The scheduler queues jobs; a drain hands ready jobs to a worker pool, in an
    order set by the fairness planner and under limits set by the scheduling
    pressure; the pool runs tasks under volume limits and dependencies and
    reports outcomes, which the scheduler ingests into its ledgers.  Every job
    holds a cancellation token, a node of a tree.  A retriable task writes each
    attempt to a journal; the payload catalog and the progress store keep what a
    restart needs, and a restore plan joins the two.

    A file operation passes an access gate, has its destination chosen by the
    conflict policy, is written to the operation journal, planned, carried out
    (a copy, a move, a removal, a way into or out of the trash), and written to the
    journal again; the operations of the trash keep a table of what is in it.
    What a crash interrupts is recovered from the journal.

    File events are queued and merged before they are applied to the index.  The
    index in memory keeps the records under their paths and under the words, prefixes,
    grams, tags and kinds of their names and the words of their contents.  A query is
    scanned and parsed to an expression and keyed for a cache.  A pass takes from the
    maps, and from archives within a budget, the records that may match, matches each
    against the expression, gives it a score and keeps the best; a stream makes a
    hot pass without the contents, then a full one.

    The names of the files are indexed in three archives: the ids of the files under
    the prefixes of the words of their names and under three-character grams, and
    words under what deletions leave of them.  An archive is made in memory from file
    records, published by a durable write, opened by mapping the file, and answers
    look-ups from the map; the index asks it through a cache.

    ** Files

    Shared:
    - [Prelude]: machine integers, [Result], stable sorting by a numeric key,
      list lemmas, tactics, the hint databases [gfm], [ctl] and (in [Files])
      [disk].  [Types]: [crates/types/src/lib.rs].  [Text]: what the code uses of
      Rust's strings: splitting, lines, decimal numbers.  [Order]: total orders as
      a class, the stable sort, sets kept sorted.  [Chars]: Unicode characters, with
      the tables as a class.  [Records]: file records and hits.  [Paths]: path text.
    - [Control]: the checked computations.  Nearly every operation exists in a
      [_checked] form that polls a closure; a computation is a function of the
      closure's outcomes, the number of polls made and the state.  [atomic],
      [reads], [infallible], [cooperative], [runs] and [triple] are the properties
      of computations that every component uses.

    The job engine:
    - [Cancel]: [cancel.rs].  The store of tokens: flag, parent, weak links to
      children, number of strong handles.
    - [JobModel]: the data and text forms of [jobs/src/lib.rs].  The class
      [TextEnum] is what line formats ask of an enumeration.
    - [Retry]: [retry.rs].  [Fair]: [fair.rs], with a reference planner.
      [Pressure]: [schedule.rs].
    - [Scheduler], [SchedulerSpec]: [impl Scheduler]: the state and operations with
      what an uninterrupted run computes; the theorems.
    - [Isolated]: [isolated.rs] and [WorkerPool].  The queue under its mutex, and
      the pool as a step relation over a queue, the leases out and the workers
      about to move, waiting or gone.  The source has the same queue twice, for
      tasks and for retriable tasks; the model is generic (class [HasJob]) and the
      definitions [retriable_*] are the second copy.
    - [Files]: the disk and the row stores.  The classes [LineFormat] and
      [RowFormat] are what a store asks of its rows; its theorems are proved once
      and used by [Progress] ([progress.rs]) and [Catalog] ([JobPayloadCatalog]).
    - [Restore]: [restore.rs], a client of both.  [Journal]: [JobJournal], recovery
      states and [execute_retriable_task].

    Index and search:
    - [Events]: [index/src/backpressure.rs].  [Hits]: [hits.rs].  [Fuzzy]:
      [fuzzy.rs] and [terms.rs].
    - [Query]: the data of [query.rs], its filters and [columns.rs]; [QueryParse]:
      scanner and parser; [QuerySpec]: the grammar and its theorems; [QueryKey]:
      [query/cache.rs].
    - [SearchIndex]: the state of [SearchIndex] ([lib.rs]) and what changes it
      ([ingest.rs]); [SearchIndexSpec]: what each map holds ([terms_mirror],
      [content_ok]), kept by every operation, and what follows.
    - [ContentSearch]: phrases and proximities in the positions of the words
      ([content.rs]), with their theorems over histories of the index.
    - [SearchMatch]: whether a record matches ([matchers.rs], [intent.rs]), the sets of
      records that may ([candidates.rs]), points and scores ([ranking.rs], [scoring.rs]).
      [SearchMatchSpec]: what these computations compute, as functions, and the
      expressions whose candidates are complete.
    - [QueryPass]: look-ups within a budget ([lookup.rs]; the class [SearchLookup] is the
      trait), the short ways ([simple.rs]), the general pass, queries and streams
      ([lib.rs]).  [QueryPassSpec]: what they find.

    The archives of the index ([crates/store], [crates/index/src/lookup.rs]):
    - [Inverted]: values under keys, each once and in order.  [Codec]: varints, readers
      of a slice and the checksum footer ([ids.rs], [integrity.rs]).  [StoreIds] and
      [StoreIdsSpec]: lists of file ids in blocks ([ids.rs]).  [Utf8]: texts as bytes.
      [BinarySearch]: [slice::binary_search_by].  [Publish]: what a file that is written
      beside its target and renamed leaves (shared with the trash table).  [Durable]:
      [durable.rs].
    - [PostingStore] and [PostingStoreSpec]: the posting archive, which [prefix.rs],
      [substring.rs] and [fuzzy.rs] each write out.  The record [Store] is what the three
      differ in (magic numbers, valid keys, codec of the values) and the class
      [StoreLaws] what the theorems ask of it; [PrefixStore], [SubstringStore] and
      [FuzzyStore] are the three, with the postings they make of file records.
    - [IndexSpec]: the theorems on archives of postings and of records.  [StoreSpec]:
      those on disk, and what holds of an archive that opens, whatever the file has.
      [StoreWitness]: concrete archives, look-ups, indexes and queries.
    - [LookupCache]: the caches ([LookupCache], [RecordCache], the content caches of
      [session.rs]) and the cache they refine.  [ArchiveLookup] and [ArchiveLookupSpec]:
      [SearchArchiveLookup], three archives behind three caches, used by many threads.

    The file operations, in layers:
    - [FileSystem]: a tree of names over inodes, the calls of [std::fs] on it, and
      the world of a computation: the tree, the number of calls made, a schedule of
      faults and short reads, a clock, a state of the caller.  [FileFacts]: well-formed
      trees, the relation [changes] between a tree and a later one, the calculus
      [ens] of what a computation ensures, and [keeps], the frame of a computation,
      with a rule for every call.  [TextFiles]: files of text, and
      [yields], triples on the tree with both of a computation's branches.
    - [OpModel]: operations, access gate, policies, volumes, progress
      ([operation.rs], [access.rs], [conflict.rs], [volume.rs], [progress.rs],
      [control.rs]).  [OpTree]: what looks at the tree and prepares it ([target.rs],
      [conflict.rs], [locked.rs], [plan.rs], [verify.rs]).  [OpJournal]:
      [journal.rs] and [recovery.rs].  [TrashMeta]: [trashmeta.rs].  [Preserve]:
      [preserve.rs].  [Copy]: [transfer.rs] and [copy.rs].  [Relocate]:
      [relocate.rs].  [Removal]: [removal.rs].  [Operator]: [operator.rs] and
      [context.rs].
    - Their theorems: [CopyFrame] and [MoveFrame] (what is left alone), [CopyCalm],
      [CopyBytes], [CopySpec], [Replacing], [CopyPath] (copies), [Moving] (moves),
      [TrashSpec] and [RemovalSpec] (the trash table, removals), [JournalSpec] and
      [OperatorSpec] (the journal, the operator).
    - [Machine]: one instance of every class of the file operations, on which the
      theorems are tried in [OpWitness].

    ** What the theorems show

    Jobs.  Cancellation reaches exactly the tokens below, and is permanent.  The
    scheduler keeps its invariant under any interleaving of operations, polls and
    token use; each operation has a functional specification on every branch, is
    all or nothing under interruption (the fair drain is not, and a theorem says
    how it fails), and stops at the first failing poll.  The planner's
    order is that of a reference planner; it has every job, within the quotas of its
    rounds, and starves no class.  The pool never
    exceeds a volume's limit, runs a task only after its dependencies, never gets
    stuck and reports every task once.  Stores publish all or nothing whatever
    call fails, and the operations on them refine operations on lists of rows.
    Execution writes exactly the lines of its attempts, and recovery reads them
    back to the right jobs.

    Index and search.  The event queue accounts for every event it is given.  The
    parser parses exactly a grammar and always ends; printing and scanning are
    inverse; the cache key of a query is injective; filters on columns agree with
    filters on records; merged hits are the best of all hits; the bounded edit
    distance is the edit distance.  The maps of the index mirror its records after
    any operations, and keeping it up to date gives what building it anew gives, but for
    paths that two records shared ([path_lost]).
    Phrases and proximities are found exactly where the texts have them.  A query
    answers with records that match, each once, the best first and within the limit,
    whatever the archives and their budgets; on an index with nothing from an archive, for
    expressions of words and filters, no record that has the words is lost, and theorems at
    concrete inputs show queries outside of this that lose records or find too many.  A
    stream is the hits of the hot pass and then, when the index may have deep postings for
    the query, the hits of the full pass that are new or have a higher score; when it has
    none for the query's words the full pass can have hits that the stream has not
    ([stream_loses]).

    Archives.  What was written opens, gives back what was written, and answers as the
    finite map of it; made from file records, the three archives answer exactly for the
    names of the records.  A file that opens is well-formed whatever bytes it has, and a
    look-up never returns a posting of another key.  A file is published whole or not at
    all.  Encoders and decoders of numbers, id lists and checksums are inverse, with their
    bounds.  The caches of the look-ups are caches of the least recently used and cannot
    be seen in an answer, whatever other threads do; two theorems show where they can be
    (a text that looks like the key of a volume; fuzzy terms of a volume past the limit),
    and one a gram that is kept and never found.

    File operations, whatever call fails and whenever they are cancelled or paused.
    A copy that returns [Ok] has copied everything and changed nothing else, one
    that does not leaves what was there, by kind and contents (except what it was told to
    replace), and a destination that may not be replaced is refused.  A move never
    loses the source, and one that returns [Ok] has moved it; two theorems show
    moves that do lose it, outside those hypotheses (source and destination apart, not a
    resumption, not a merge).  A removal removes what it was
    asked to, with its row in the table, and nothing else; the table is the old or
    the new one after any failure.  Nothing is done before the journal says so, the
    journal says how it ended, under every conflict policy, and it survives the operation; what is recovered is
    what the last line of each operation says; a torn line stops all recovery.

    ** Bounds and fuel

    [walk_up] has one step per token below the current one; [cancel] the size of
    the store; the planner one round more than jobs; pruning two laps of the order
    and one ([prune_spec]: more changes nothing); a decimal number of 64 bits twenty
    digits, of 128 bits 39; the backoff sleeps [delay / 5 + 2] chunks ([backoff_spec]);
    the attempts one turn more than the limit; a read loop one turn more than the
    lines; the query parser a depth of six for each token and five; draining events
    one turn more than the limit; a walk of the tree its depth ([tree_depth]), a
    copy or verification of bytes one turn more than the bytes; links are followed
    32 times and siblings tried 100 and 10,000 times, as the code or the system
    does; a varint is ten bytes at most; a binary search its length.  The theorems on archives
    ask for fewer than 2^64 bytes of archive and 2^59 ids under a key (no length
    wraps), those on caches for fewer than 2^64 calls (no generation is used twice).
    Each bound on a loop is shown enough by the theorem that the operation returns the
    specified result.

    ** Abstractions

    A [HashMap] or [HashSet] is a [gmap] or [gset], walked in the order of its
    elements in the [gmap]; where that order could be seen the code sorts.  A [BinaryHeap] is the list of its elements in popping order.
    Search text is a list of characters, and the Unicode tables are a class; a
    [SystemTime] is its nanoseconds, and the clock stands still during a query.  Scores
    are integers without a bound; the counters of the look-ups are one function on their
    names.  The trait [SearchLookup] is its polled, bounded look-ups, over a state of any
    type.  Threads: an operation on a token, and what the
    pool does under its mutex, is one step; finishing a lease and pushing its
    outcome is one step, since outcomes are read only when all workers have
    returned.

    Two models of files.  The stores of the jobs use [Files]: texts under paths of
    a directory and a name.  The file operations use [FileSystem]: names over
    inodes with contents, links and attributes, so that hard links share.  It has no
    devices, sockets or pipes; a path is looked up by its names, so a directory
    reached through a symbolic link is not there, and links are followed only at the
    last name; all volumes share one table of inodes (a rename across volumes is a
    call that fails).  A call can fail by the schedule, with any error but "not
    found" ([honest]: a call does not deny what is there); a read can be short.  A
    buffered writer writes through, and reading a line is one call.  Names that are
    not UTF-8 are left out.  A path read from the journal or the trash table is
    resolved from the root.  [trim] and blank lines look at ASCII spaces.  Cancelling
    and pausing are one closure that is polled; where the source looks only at the
    cancellation a pause goes unseen ([check_cancellation]).

    Code that is not in the repository is a class: the constants of [libc]
    ([Libc]), the calls on attributes ([AttrCalls], laws in [AttrLaws]),
    [fclonefileat] ([Cloning], [CloneLaws]), packages ([Packages]), the process
    ([Process]), the [trash] crate ([TrashCan], [TrashLaws]), the order of a
    directory and fresh attributes ([Platform]), the map of a file ([Mmap]: its bytes, or
    an error).  The laws of the class [Unicode]: what ASCII characters are, a letter or digit
    is not white space, and only a full stop has one in its lower case.

    A posting archive is written to memory and then to the file; what the source's
    buffered writer holds is flushed at the named call.  The look-ups of the other threads
    are a function applied to the cache where the lock is free ([others]), of which the
    theorems ask that it keeps full answers.

    Not modelled: of the store, the readers of a whole file ([read_*_postings_checked]),
    which read again what an open archive has, limits on allocation, and the archives of
    records, columns, the dictionary, metadata and content with their schema, sidecars,
    merge and rebuild; of the search, the shards by volume and the threads that search
    them ([shard.rs]) and the sessions in which a newer query cancels an older one
    ([session.rs]); the time a sleep takes; handles of tokens held by the queue and
    by callers beyond their count being positive; files that are not UTF-8;
    other processes; the text a dropped writer may still flush into a temporary
    file; panics inside a task's closure; the wrap-around of job ids after 2^64
    jobs is written out but excluded by the invariant's hypothesis.  The crates
    listed as not modelled in the manifest are mostly system calls, rendering and
    parsers of third-party formats.

    Some theorems are not among the properties of the manifest, which are limited in
    number: they are stated and proved beside the others and carry the same kind of
    comment. *)
From stdpp Require Export base numbers option strings sorting sets gmap list.

Declare Scope gfm_scope.
Delimit Scope gfm_scope with gfm.

(** The hint databases of the development: [gfm] holds the structural lemmas
    (membership, ordering, permutations); [ctl] holds the lemmas on checked
    computations ([Control.v]). *)
Create HintDb gfm discriminated.
Create HintDb ctl discriminated.

(** ** Machine integers

    Rust's [u64] and (on the 64-bit targets of the program) [usize] are natural
    numbers below [2^64].  Wrap-around is written out where the code can reach
    it. *)
Definition U64 : N := 18446744073709551616.
Definition U128 : N := 340282366920938463463374607431768211456.
Definition u64_ok (n : N) : Prop := (n < U64)%N.
Definition wrapping_add (a b : N) : N := ((a + b) mod U64)%N.
Definition saturating_sub (a b : N) : N := (a - b)%N.
Definition saturating_add (a b : N) : N := N.min (a + b) (U64 - 1).
Definition saturating_mul (a b : N) : N := N.min (a * b) (U64 - 1).

#[export] Instance u64_ok_dec n : Decision (u64_ok n).
Proof. unfold u64_ok. apply _. Defined.

Lemma wrapping_add_small a b : (a + b < U64)%N -> wrapping_add a b = (a + b)%N.
Proof. intros H. unfold wrapping_add. by apply N.mod_small. Qed.

Lemma wrapping_add_ok a b : u64_ok (wrapping_add a b).
Proof. unfold u64_ok, wrapping_add. apply N.mod_upper_bound. done. Qed.

(** ** Tactics *)

(** Decompose conjunctions, disjunctions and existentials of the context. *)
Ltac decompose_ex :=
  repeat match goal with
  | H : _ /\ _ |- _ => destruct H
  | H : exists _, _ |- _ => destruct H
  end.

(** Case analysis on the innermost [match] or [if] of the goal, keeping the
    equation, and closing what computation refutes. *)
Ltac case_split :=
  match goal with
  | |- context [ if decide ?P then _ else _ ] => destruct (decide P)
  | |- context [ match ?x with _ => _ end ] =>
      lazymatch x with context [ match _ with _ => _ end ] => fail | _ => destruct x eqn:? end
  end; simplify_eq/=; try done.

(** ** Rust's [Result] *)
Inductive Result (A E : Type) : Type :=
  | Ok (a : A)
  | Err (e : E).
Arguments Ok {A E} a.
Arguments Err {A E} e.

#[export] Instance Result_eq_dec `{EqDecision A, EqDecision E} : EqDecision (Result A E).
Proof. solve_decision. Defined.

(** The [?] operator: sequencing of fallible computations. *)
Definition result_bind {A B E} (r : Result A E) (k : A -> Result B E) : Result B E :=
  match r with Ok a => k a | Err e => Err e end.
Definition map_err {A E F} (f : E -> F) (r : Result A E) : Result A F :=
  match r with Ok a => Ok a | Err e => Err (f e) end.
Definition ok_or_else {A E} (o : option A) (e : E) : Result A E :=
  match o with Some a => Ok a | None => Err e end.

Notation "'let?' x := r 'in' k" := (result_bind r (fun x => k))
  (at level 10, x name, r at level 100, k at level 200) : gfm_scope.
Open Scope gfm_scope.

Lemma result_bind_ok {A B E} (r : Result A E) (k : A -> Result B E) b :
  result_bind r k = Ok b <-> exists a, r = Ok a /\ k a = Ok b.
Proof. destruct r; simpl; split; intros; simplify_eq; decompose_ex; simplify_eq; eauto. Qed.

(** ** Stable sorting

    [slice::sort_by_key] is a stable sort; on keys of type [N] it is modelled by
    stable insertion. *)
Section SortByKey.
Context {A : Type} (key : A -> N).

Fixpoint insert_by_key (x : A) (l : list A) : list A :=
  match l with
  | [] => [x]
  | y :: l' => if (key x <=? key y)%N then x :: l else y :: insert_by_key x l'
  end.

Definition sort_by_key (l : list A) : list A := foldr insert_by_key [] l.

Definition key_le (x y : A) : Prop := (key x <= key y)%N.

Lemma insert_by_key_perm x l : insert_by_key x l ≡ₚ x :: l.
Proof.
  induction l as [|y l IH]; simpl; [done|].
  case_match; [done|]. rewrite IH. apply Permutation_swap.
Qed.

Lemma sort_by_key_perm l : sort_by_key l ≡ₚ l.
Proof.
  induction l as [|x l IH]; simpl; [done|].
  by rewrite insert_by_key_perm, IH.
Qed.

Lemma insert_by_key_sorted x l :
  StronglySorted key_le l -> StronglySorted key_le (insert_by_key x l).
Proof.
  induction 1 as [|y l Hl IH Hy]; simpl; [by repeat constructor|].
  destruct (N.leb_spec (key x) (key y)) as [Hle|Hlt].
  - constructor; [by constructor|]. constructor; [done|].
    eapply Forall_impl; [exact Hy|]. unfold key_le in *. intros z Hz; simpl in Hz; lia.
  - constructor; [done|]. rewrite insert_by_key_perm.
    constructor; [unfold key_le; lia|done].
Qed.

Lemma sort_by_key_sorted l : StronglySorted key_le (sort_by_key l).
Proof. induction l; simpl; [constructor|]. by apply insert_by_key_sorted. Qed.

Lemma sort_by_key_elem x l : x ∈ sort_by_key l <-> x ∈ l.
Proof. by rewrite sort_by_key_perm. Qed.

Lemma sort_by_key_length l : length (sort_by_key l) = length l.
Proof. by rewrite sort_by_key_perm. Qed.

(** Stability: among elements of one key the order is that of the input. *)
Lemma insert_by_key_stable k x l :
  filter (fun y => key y = k) (insert_by_key x l) =
  filter (fun y => key y = k) (x :: l).
Proof.
  induction l as [|y l IH]; simpl insert_by_key; [done|].
  destruct (N.leb_spec (key x) (key y)) as [Hle|Hlt]; [done|].
  rewrite !filter_cons in *. rewrite IH. repeat case_decide; try done. lia.
Qed.

Lemma sort_by_key_stable k l :
  filter (fun y => key y = k) (sort_by_key l) = filter (fun y => key y = k) l.
Proof.
  induction l as [|x l IH]; [done|].
  simpl sort_by_key. rewrite insert_by_key_stable, !filter_cons, IH. done.
Qed.

(** A sorted list is left as it is. *)
Lemma sort_by_key_id l : StronglySorted key_le l -> sort_by_key l = l.
Proof.
  induction 1 as [|x l Hl IH Hx]; [done|]. simpl. rewrite IH.
  destruct l as [|y l]; [done|]. simpl.
  apply Forall_cons in Hx as [Hx _]. unfold key_le in Hx.
  by rewrite (proj2 (N.leb_le _ _) Hx).
Qed.
End SortByKey.

#[export] Hint Resolve sort_by_key_sorted : gfm.

(** ** Lists *)

Lemma filter_all_id {A} (P : A -> Prop) `{!forall x, Decision (P x)} (l : list A) :
  Forall P l -> filter P l = l.
Proof.
  induction 1 as [|x l Hx _ IH]; [done|]. rewrite filter_cons_True by done. by rewrite IH.
Qed.

Lemma filter_none {A} (P : A -> Prop) `{!forall x, Decision (P x)} (l : list A) :
  (forall x, x ∈ l -> ~ P x) -> filter P l = [].
Proof.
  induction l as [|x l IH]; intros Hn; [done|]. rewrite filter_cons_False by (apply Hn; left).
  apply IH. intros y Hy. apply Hn. by right.
Qed.

Lemma filter_ext_in {A} (P Q : A -> Prop) `{HP : !forall x, Decision (P x)}
    `{HQ : !forall x, Decision (Q x)} (l : list A) :
  (forall x, x ∈ l -> P x <-> Q x) -> filter P l = filter Q l.
Proof.
  induction l as [|x l IH]; intros Hpq; [done|]. rewrite !filter_cons.
  rewrite IH by (intros y Hy; apply Hpq; by right).
  pose proof (Hpq x ltac:(left)). repeat case_decide; tauto.
Qed.

Lemma NoDup_filter_snoc {A} `{EqDecision A} (x : A) (l : list A) :
  NoDup l -> x ∉ l -> NoDup (l ++ [x]).
Proof.
  intros Hl Hx. apply NoDup_app. split; [done|]. split; [|apply NoDup_singleton].
  intros y Hy ->%list_elem_of_singleton. done.
Qed.

Lemma foldl_snoc_map {A B} (f : A -> B) (l : list A) : forall acc,
  foldl (fun acc x => acc ++ [f x]) acc l = acc ++ (f <$> l).
Proof.
  induction l as [|x l IH]; intros acc; simpl; [by rewrite app_nil_r|].
  by rewrite IH, <- app_assoc.
Qed.

Lemma length_filter_app {A} (P : A -> Prop) `{!forall x, Decision (P x)} (l k : list A) :
  length (filter P (l ++ k)) = length (filter P l) + length (filter P k).
Proof. by rewrite filter_app, length_app. Qed.

(** The elements of a [HashSet] in the order of a key: what the code gets by
    collecting the set into a [Vec] and sorting it. *)
Lemma elements_sorted_elem (X : gset N) x :
  x ∈ sort_by_key id (elements X) <-> x ∈ X.
Proof. by rewrite sort_by_key_elem, elem_of_elements. Qed.
