(* ===== verification/Types.v ===== *)
(** * Shared vocabulary ([crates/types/src/lib.rs])

    The identifiers and the error type every crate of the program uses.  A
    [PathBuf] is the string of its (UTF-8) bytes. *)
From S2P Require Import Prelude.

Abbreviation VolumeId := N (only parsing).

(** [FileId]: a volume and a node on it, ordered lexicographically. *)
Record FileId : Type := mkFileId { file_volume : N; file_node : N }.

#[export] Instance FileId_eq_dec : EqDecision FileId.
Proof. solve_decision. Defined.
#[export] Instance FileId_countable : Countable FileId.
Proof.
  apply (inj_countable' (fun f => (file_volume f, file_node f))
           (fun p => mkFileId p.1 p.2)). by intros [].
Defined.

Inductive GfmError : Type :=
  | Io (path message : string)
  | Format (message : string)
  | Cancelled
  | Paused
  | Conflict (path message : string)
  | Permission (path message : string).

#[export] Instance GfmError_eq_dec : EqDecision GfmError.
Proof. solve_decision. Defined.

(** [impl fmt::Display for GfmError]. *)
Definition GfmError_to_string (e : GfmError) : string :=
  match e with
  | Io path message => path +:+ ": " +:+ message
  | Format message => message
  | Cancelled => "operation was cancelled"
  | Paused => "operation was paused"
  | Conflict path message => path +:+ ": " +:+ message
  | Permission path message => path +:+ ": " +:+ message
  end.

(** ** File events

    A [SystemTime] is its number of nanoseconds since the Unix epoch. *)
Abbreviation SystemTime := Z (only parsing).

Inductive FileEventKind : Type :=
  | Create
  | Metadata
  | Modify
  | Remove
  | Rename (from to : string)
  | Rescan
  | OtherEvent.

#[export] Instance FileEventKind_eq_dec : EqDecision FileEventKind.
Proof. solve_decision. Defined.

Record FileEvent : Type := mkEvent {
  event_path : string;
  event_kind : FileEventKind;
  observed_at : SystemTime
}.

#[export] Instance FileEvent_eq_dec : EqDecision FileEvent.
Proof. solve_decision. Defined.
