(* ===== verification/Text.v ===== *)
(** * Text: the standard-library string operations the program uses

    A Rust [String] is modelled by the [string] of its UTF-8 bytes.  Every
    operation of the program that walks the [chars] of a string only tests for
    ASCII characters, whose bytes never occur inside a multi-byte character, so
    walking bytes is the same; [first_char] takes a whole character where one is
    echoed in an error message. *)
From Stdlib Require Import Ascii.
From S2P Require Import Prelude.
#[local] Open Scope string_scope.

Definition TAB : ascii := "009".
Definition LF : ascii := "010".
Definition CR : ascii := "013".
Definition BACKSLASH : ascii := "092".

(** ** Searching *)

Fixpoint starts_with (p s : string) : bool :=
  match p, s with
  | EmptyString, _ => true
  | String a p', String b s' => if decide (a = b) then starts_with p' s' else false
  | String _ _, EmptyString => false
  end.

(** [str::contains] with a string pattern. *)
Fixpoint contains (s needle : string) : bool :=
  starts_with needle s ||
  match s with EmptyString => false | String _ s' => contains s' needle end.

Fixpoint has_char (c : ascii) (s : string) : bool :=
  match s with
  | EmptyString => false
  | String a s' => if decide (a = c) then true else has_char c s'
  end.

Definition lower_char (a : ascii) : ascii :=
  let n := N_of_ascii a in
  if ((65 <=? n) && (n <=? 90))%N then ascii_of_N (n + 32) else a.

Fixpoint to_ascii_lowercase (s : string) : string :=
  match s with
  | EmptyString => EmptyString
  | String a s' => String (lower_char a) (to_ascii_lowercase s')
  end.

(** The first (UTF-8 encoded) character of a string. *)
Definition char_width (a : ascii) : nat :=
  let n := N_of_ascii a in
  if (n <? 192)%N then 1 else if (n <? 224)%N then 2 else if (n <? 240)%N then 3 else 4.

Definition first_char (s : string) : string :=
  match s with
  | EmptyString => EmptyString
  | String a _ => String.substring 0 (char_width a) s
  end.

(** ** Splitting and joining *)

(** [str::split] with a character: always at least one field. *)
Fixpoint split_on (c : ascii) (s : string) : list string :=
  match s with
  | EmptyString => [""]
  | String a s' =>
      if decide (a = c) then "" :: split_on c s'
      else match split_on c s' with
           | [] => [String a ""]
           | f :: fs => String a f :: fs
           end
  end.

(** [[T]::join]. *)
Fixpoint join (sep : string) (l : list string) : string :=
  match l with
  | [] => ""
  | [x] => x
  | x :: l' => x +:+ sep +:+ join sep l'
  end.

(** ** Lines of a file: [BufRead::lines]

    A line ends at a line feed; the line feed, and a carriage return before it,
    are dropped.  A last line without line feed is kept as it is. *)
Fixpoint strip_cr (s : string) : string :=
  match s with
  | EmptyString => EmptyString
  | String a EmptyString => if decide (a = CR) then EmptyString else s
  | String a s' => String a (strip_cr s')
  end.

Fixpoint lines_of_fields (fs : list string) : list string :=
  match fs with
  | [] => []
  | [l] => match l with EmptyString => [] | _ => [l] end
  | l :: fs' => strip_cr l :: lines_of_fields fs'
  end.

Definition lines (s : string) : list string := lines_of_fields (split_on LF s).

Definition newline : string := String LF "".

(** What a writer leaves that appends each line and a line feed. *)
Definition unlines (ls : list string) : string :=
  foldr (fun l acc => l +:+ newline +:+ acc) "" ls.

(** ** Decimal numbers: [u64::to_string] and [str::parse] *)

Definition digit_char (d : N) : ascii := ascii_of_N (48 + d).

Fixpoint dec_go (fuel : nat) (n : N) (acc : string) : string :=
  match fuel with
  | O => acc
  | S fuel' =>
      let acc' := String (digit_char (n mod 10)) acc in
      if (n <? 10)%N then acc' else dec_go fuel' (n / 10) acc'
  end.

(** Twenty digits are enough for a [u64]: [2^64 < 10^20]. *)
Definition u64_to_string (n : N) : string := dec_go 20 n "".
(** Thirty-nine for a [u128]. *)
Definition u128_to_string (n : N) : string := dec_go 39 n "".

Inductive ParseIntError : Type := EmptyInput | InvalidDigit | PosOverflow.

#[export] Instance ParseIntError_eq_dec : EqDecision ParseIntError.
Proof. solve_decision. Defined.

(** [impl Display for ParseIntError]. *)
Definition ParseIntError_to_string (e : ParseIntError) : string :=
  match e with
  | EmptyInput => "cannot parse integer from empty string"
  | InvalidDigit => "invalid digit found in string"
  | PosOverflow => "number too large to fit in target type"
  end.

Definition to_digit (a : ascii) : option N :=
  let n := N_of_ascii a in
  if ((48 <=? n) && (n <=? 57))%N then Some (n - 48)%N else None.

(** [u64::from_str] and [u128::from_str] after the sign: each digit is checked
    before the overflow it may cause. *)
Fixpoint parse_below (max r : N) (s : string) : Result N ParseIntError :=
  match s with
  | EmptyString => Ok r
  | String a s' =>
      match to_digit a with
      | None => Err InvalidDigit
      | Some d =>
          if (r * 10 + d <? max)%N then parse_below max (r * 10 + d) s' else Err PosOverflow
      end
  end.
Abbreviation parse_digits := (parse_below U64).

Definition parse_int (max : N) (s : string) : Result N ParseIntError :=
  match s with
  | EmptyString => Err EmptyInput
  | String a EmptyString =>
      if decide (a = "+"%char \/ a = "-"%char) then Err InvalidDigit else parse_below max 0 s
  | String a s' => if decide (a = "+"%char) then parse_below max 0 s' else parse_below max 0 s
  end.
Definition parse_u64 (s : string) : Result N ParseIntError := parse_int U64 s.
Definition parse_u128 (s : string) : Result N ParseIntError := parse_int U128 s.

(** ** Lemmas *)

Lemma has_char_app c a b : has_char c (a +:+ b) = has_char c a || has_char c b.
Proof. induction a as [|x a IH]; simpl; [done|]. by case_decide. Qed.

Lemma string_app_nil_r (s : string) : s +:+ "" = s.
Proof. induction s as [|x s IH]; [done|]. change (String x (s +:+ "") = String x s). by rewrite IH. Qed.

Lemma string_app_assoc (a b c : string) : (a +:+ b) +:+ c = a +:+ (b +:+ c).
Proof. induction a as [|x a IH]; [done|]. change (String x ((a +:+ b) +:+ c) = String x (a +:+ (b +:+ c))). by rewrite IH. Qed.

Lemma length_append (a b : string) : String.length (a +:+ b) = String.length a + String.length b.
Proof.
  induction a as [|c a IH]; [done|].
  change (S (String.length (a +:+ b)) = S (String.length a + String.length b)). by rewrite IH.
Qed.

Lemma starts_with_app p s : starts_with p (p +:+ s) = true.
Proof. induction p; simpl; [done|]. by rewrite decide_True. Qed.

Lemma split_on_nonempty c s : split_on c s <> [].
Proof. destruct s; simpl; [done|]. case_decide; [done|]. by case_match. Qed.

Lemma split_on_none c s : has_char c s = false -> split_on c s = [s].
Proof.
  induction s as [|a s IH]; simpl; [done|]. intros H. case_decide; [done|].
  by rewrite IH.
Qed.

Lemma split_on_app c a b :
  has_char c a = false -> split_on c (a +:+ String c b) = a :: split_on c b.
Proof.
  induction a as [|x a IH]; intros H; simpl in *.
  - by rewrite decide_True.
  - case_decide; [done|]. by rewrite IH.
Qed.

(** Joining fields without the separator and splitting gives the fields back. *)
Lemma split_on_join c fs :
  fs <> [] -> Forall (fun f => has_char c f = false) fs ->
  split_on c (join (String c "") fs) = fs.
Proof.
  intros Hne Hall. induction Hall as [|f fs Hf Hfs IH]; [done|].
  destruct fs as [|g fs]; [by apply split_on_none|].
  change (split_on c (f +:+ String c (join (String c "") (g :: fs))) = f :: g :: fs).
  by rewrite split_on_app, IH.
Qed.

(** ** Lines round trip *)

Fixpoint ends_with_cr (s : string) : bool :=
  match s with
  | EmptyString => false
  | String a EmptyString => bool_decide (a = CR)
  | String _ s' => ends_with_cr s'
  end.

(** A line a reader gives back as it was written. *)
Definition line_ok (s : string) : Prop := has_char LF s = false /\ has_char CR s = false.

Lemma strip_cr_no_cr s : has_char CR s = false -> strip_cr s = s.
Proof.
  induction s as [|a s IH]; [done|]. cbn [has_char]. case_decide as Ha; [done|]. intros Hcr.
  destruct s as [|b s]; [by cbn; rewrite decide_False|].
  change (String a (strip_cr (String b s)) = String a (String b s)). by rewrite IH.
Qed.

Lemma lines_unlines ls : Forall line_ok ls -> lines (unlines ls) = ls.
Proof.
  intros H. induction H as [|l ls [Hlf Hcr] _ IH]; [done|].
  unfold lines. change (unlines (l :: ls)) with (l +:+ String LF (unlines ls)).
  rewrite split_on_app by done. simpl.
  pose proof (split_on_nonempty LF (unlines ls)) as Hne.
  unfold lines in IH. destruct (split_on LF (unlines ls)); [done|].
  by rewrite strip_cr_no_cr, IH.
Qed.

Lemma unlines_app ls1 ls2 : unlines (ls1 ++ ls2) = unlines ls1 +:+ unlines ls2.
Proof. induction ls1 as [|l ls1 IH]; simpl; [done|]. by rewrite IH, !string_app_assoc. Qed.

(** ** Decimal round trip *)

Lemma digit_cases (P : N -> Prop) :
  P 0%N -> P 1%N -> P 2%N -> P 3%N -> P 4%N -> P 5%N -> P 6%N -> P 7%N -> P 8%N -> P 9%N ->
  forall d, (d < 10)%N -> P d.
Proof.
  intros. assert (d = 0 \/ d = 1 \/ d = 2 \/ d = 3 \/ d = 4 \/ d = 5 \/ d = 6
    \/ d = 7 \/ d = 8 \/ d = 9)%N as Hd by lia.
  by repeat destruct Hd as [->|Hd]; subst.
Qed.

Lemma to_digit_char d : (d < 10)%N -> to_digit (digit_char d) = Some d.
Proof. revert d. apply digit_cases; reflexivity. Qed.

Lemma digit_char_plain d c : (d < 10)%N -> to_digit c = None -> digit_char d <> c.
Proof. intros Hd Hc <-. by rewrite to_digit_char in Hc. Qed.

Lemma dec_go_parse max fuel : forall n acc,
  (n < 10 ^ N.of_nat fuel)%N -> fuel <> 0%nat -> (n < max)%N ->
  parse_below max 0 (dec_go fuel n acc) = parse_below max n acc.
Proof.
  induction fuel as [|fuel IH]; intros n acc Hn Hf Hok; [done|].
  simpl dec_go. destruct (N.ltb_spec n 10) as [Hlt|Hge].
  - rewrite (N.mod_small n 10) by done. cbn [parse_below].
    rewrite to_digit_char by done. rewrite N.mul_0_l, N.add_0_l.
    by rewrite (proj2 (N.ltb_lt _ _) Hok).
  - assert (n / 10 < n)%N by (apply N.div_lt; lia).
    assert (n / 10 < 10 ^ N.of_nat fuel)%N.
    { apply N.Div0.div_lt_upper_bound. rewrite Nat2N.inj_succ, N.pow_succ_r' in Hn. done. }
    rewrite IH; [| done | | lia].
    2:{ intros ->. simpl in *. lia. }
    assert (n mod 10 < 10)%N by (apply N.mod_upper_bound; lia).
    cbn [parse_below]. rewrite to_digit_char by done.
    replace (n / 10 * 10 + n mod 10)%N with n by (pose proof (N.div_mod n 10); lia).
    by rewrite (proj2 (N.ltb_lt _ _) Hok).
Qed.

Lemma dec_go_head fuel : forall n acc, exists d s,
  (d < 10)%N /\ dec_go (S fuel) n acc = String (digit_char d) s.
Proof.
  induction fuel as [|fuel IH]; intros n acc;
    assert (n mod 10 < 10)%N by (apply N.mod_upper_bound; lia).
  { cbn [dec_go]. destruct (n <? 10)%N; eauto. }
  change (dec_go (S (S fuel)) n acc) with
    (let acc' := String (digit_char (n mod 10)) acc in
     if (n <? 10)%N then acc' else dec_go (S fuel) (n / 10) acc').
  cbv zeta. destruct (n <? 10)%N; eauto.
Qed.

Lemma dec_go_plain c fuel : forall n acc,
  to_digit c = None ->
  has_char c acc = false -> has_char c (dec_go fuel n acc) = false.
Proof.
  induction fuel as [|fuel IH]; intros n acc Hc Hacc; [done|]. cbn [dec_go].
  assert (n mod 10 < 10)%N by (apply N.mod_upper_bound; lia).
  pose proof (digit_char_plain (n mod 10) c ltac:(done) Hc).
  destruct (n <? 10)%N; [|apply IH; [done|]]; simpl; by rewrite decide_False.
Qed.

Lemma u64_to_string_plain c n :
  to_digit c = None ->
  has_char c (u64_to_string n) = false.
Proof. intros Hc. by apply dec_go_plain. Qed.

Lemma parse_int_dec max fuel n : (n < 10 ^ N.of_nat (S fuel))%N -> (n < max)%N ->
  parse_int max (dec_go (S fuel) n "") = Ok n.
Proof.
  intros Hn Hok.
  assert (Hd : parse_below max 0 (dec_go (S fuel) n "") = Ok n) by (by rewrite dec_go_parse).
  destruct (dec_go_head fuel n "") as (d & s & Hlt & Heq). rewrite Heq in *.
  assert (digit_char d <> "+"%char) by (apply digit_char_plain; done).
  assert (digit_char d <> "-"%char) by (apply digit_char_plain; done).
  unfold parse_int. destruct s; rewrite decide_False by tauto; done.
Qed.
(** Parsing a printed number gives it back. *)
Lemma parse_u64_to_string n : u64_ok n -> parse_u64 (u64_to_string n) = Ok n.
Proof.
  intros Hok. apply parse_int_dec; [|exact Hok]. unfold u64_ok, U64 in Hok. eapply N.lt_trans; [exact Hok|]. done.
Qed.
Lemma parse_u128_to_string n : (n < U128)%N -> parse_u128 (u128_to_string n) = Ok n.
Proof.
  intros Hok. apply parse_int_dec; [|exact Hok]. unfold U128 in Hok. eapply N.lt_trans; [exact Hok|]. done.
Qed.
Lemma u128_to_string_plain c n : to_digit c = None -> has_char c (u128_to_string n) = false.
Proof. intros Hc. by apply dec_go_plain. Qed.

(** A printed number is not the placeholder of an absent one. *)
Lemma u64_to_string_not_dash n : u64_to_string n <> "-".
Proof.
  intros H. pose proof (u64_to_string_plain "-"%char n eq_refl) as Hp.
  by rewrite H in Hp.
Qed.

Lemma parse_digits_ok s : forall r n, u64_ok r -> parse_digits r s = Ok n -> u64_ok n.
Proof.
  induction s as [|a s IH]; intros r n Hr; simpl; [by intros [= ->]|].
  destruct (to_digit a); [|done]. destruct (N.ltb_spec (r * 10 + n0) U64); [|done].
  by apply IH.
Qed.

(** Whatever parses is a [u64]. *)
Lemma parse_u64_ok s n : parse_u64 s = Ok n -> u64_ok n.
Proof.
  assert (u64_ok 0) by done.
  unfold parse_u64, parse_int. intros Hp. repeat case_match; try done; eapply parse_digits_ok; eauto.
Qed.

#[export] Hint Rewrite has_char_app string_app_nil_r : gfm.
