(* ===== verification/Order.v ===== *)
(** * Orders, stable sorting, and sets kept sorted

    Rust's [Ord] as a class of comparison functions with the laws of a total
    order; [slice::sort], [sort_by] and [dedup]; and what [sort] followed by
    [dedup], or a [BTreeSet], computes: the strictly sorted list of the elements. *)
From S2P Require Import Prelude Types.

Class Ord (A : Type) := cmp : A -> A -> comparison.
#[global] Hint Mode Ord ! : typeclass_instances.

(** The laws of [Ord], as [derive] gives them. *)
Class TotalOrd (A : Type) {O : Ord A} : Prop := {
  cmp_eq (x y : A) : cmp x y = Eq <-> x = y;
  cmp_opp (x y : A) : cmp y x = CompOpp (cmp x y);
  cmp_lt_trans (x y z : A) : cmp x y = Lt -> cmp y z = Lt -> cmp x z = Lt
}.

Definition lt_of {A} `{Ord A} (x y : A) : Prop := cmp x y = Lt.
Definition le_of {A} `{Ord A} (x y : A) : Prop := cmp x y <> Gt.

(** ** Instances *)

#[export] Instance N_ord : Ord N := N.compare.
#[export] Instance N_total : TotalOrd N.
Proof.
  split; unfold cmp, N_ord; intros.
  - apply N.compare_eq_iff.
  - apply N.compare_antisym.
  - rewrite N.compare_lt_iff in *. lia.
Qed.

#[export] Instance Z_ord : Ord Z := Z.compare.
#[export] Instance Z_total : TotalOrd Z.
Proof.
  split; unfold cmp, Z_ord; intros.
  - apply Z.compare_eq_iff.
  - apply Z.compare_antisym.
  - rewrite Z.compare_lt_iff in *. lia.
Qed.

(** [core::cmp::Reverse]. *)
Record Reverse (A : Type) : Type := mkReverse { reversed : A }.
Arguments mkReverse {A} reversed.
Arguments reversed {A} r.
#[export] Instance Reverse_ord `{Ord A} : Ord (Reverse A) := fun x y => cmp (reversed y) (reversed x).
#[export] Instance Reverse_total `{TotalOrd A} : TotalOrd (Reverse A).
Proof.
  split.
  - intros [x] [y]. change (cmp y x = Eq <-> mkReverse x = mkReverse y). rewrite cmp_eq.
    split; [by intros ->|by intros [= ->]].
  - intros [x] [y]. exact (cmp_opp y x).
  - intros [x] [y] [z]. change (cmp y x = Lt -> cmp z y = Lt -> cmp z x = Lt).
    intros H1 H2. by eapply cmp_lt_trans.
Qed.

(** Tuples and structs: lexicographic, in the order of the fields. *)
Definition then_cmp (c d : comparison) : comparison := match c with Eq => d | _ => c end.

#[export] Instance pair_ord `{Ord A, Ord B} : Ord (A * B) :=
  fun x y => then_cmp (cmp x.1 y.1) (cmp x.2 y.2).
#[export] Instance pair_total `{TotalOrd A, TotalOrd B} : TotalOrd (A * B).
Proof.
  split.
  - intros [x1 x2] [y1 y2].
    change (then_cmp (cmp x1 y1) (cmp x2 y2) = Eq <-> (x1, x2) = (y1, y2)).
    pose proof (cmp_eq x1 y1). pose proof (cmp_eq x2 y2).
    destruct (cmp x1 y1); simpl; naive_solver.
  - intros [x1 x2] [y1 y2].
    change (then_cmp (cmp y1 x1) (cmp y2 x2) = CompOpp (then_cmp (cmp x1 y1) (cmp x2 y2))).
    rewrite (cmp_opp x1 y1), (cmp_opp x2 y2). by destruct (cmp x1 y1).
  - intros [x1 x2] [y1 y2] [z1 z2].
    change (then_cmp (cmp x1 y1) (cmp x2 y2) = Lt -> then_cmp (cmp y1 z1) (cmp y2 z2) = Lt ->
      then_cmp (cmp x1 z1) (cmp x2 z2) = Lt).
    destruct (cmp x1 y1) eqn:Exy; [apply cmp_eq in Exy as ->| |done];
    destruct (cmp y1 z1) eqn:Eyz; try done; try (apply cmp_eq in Eyz as ->); simpl.
    + by apply cmp_lt_trans.
    + by rewrite Exy.
    + by rewrite (cmp_lt_trans _ _ _ Exy Eyz).
Qed.

Fixpoint list_cmp `{Ord A} (x y : list A) : comparison :=
  match x, y with
  | [], [] => Eq
  | [], _ :: _ => Lt
  | _ :: _, [] => Gt
  | a :: x', b :: y' => then_cmp (cmp a b) (list_cmp x' y')
  end.
#[export] Instance list_ord `{Ord A} : Ord (list A) := list_cmp.
#[export] Instance list_total `{TotalOrd A} : TotalOrd (list A).
Proof.
  split; unfold cmp, list_ord.
  - intros x. induction x as [|a x IH]; intros [|b y]; simpl; try done.
    specialize (IH y). pose proof (cmp_eq a b). unfold then_cmp.
    destruct (cmp a b); naive_solver.
  - intros x. induction x as [|a x IH]; intros [|b y]; simpl; try done.
    rewrite (cmp_opp a b), IH. unfold then_cmp. by destruct (cmp a b).
  - intros x. induction x as [|a x IH]; intros [|b y] [|c z]; simpl; try done.
    unfold then_cmp.
    destruct (cmp a b) eqn:Eab; [apply cmp_eq in Eab as ->| |done];
    destruct (cmp b c) eqn:Ebc; try done; try (apply cmp_eq in Ebc as ->).
    + apply IH.
    + by rewrite Eab.
    + by rewrite (cmp_lt_trans _ _ _ Eab Ebc).
Qed.

(** A type compared through an injective function of its fields. *)
Definition cmp_via {A B} `{Ord B} (f : A -> B) : Ord A := fun x y => cmp (f x) (f y).
Lemma via_total {A B} `{TotalOrd B} (f : A -> B) `{!Inj (=) (=) f} : @TotalOrd A (cmp_via f).
Proof.
  split.
  - intros x y. change (cmp (f x) (f y) = Eq <-> x = y). rewrite cmp_eq.
    split; [apply (inj f)|by intros ->].
  - intros x y. exact (cmp_opp (f x) (f y)).
  - intros x y z. exact (cmp_lt_trans (f x) (f y) (f z)).
Qed.

#[export] Instance FileId_ord : Ord FileId := cmp_via (fun f => (file_volume f, file_node f)).
#[export] Instance FileId_total : TotalOrd FileId.
Proof. apply via_total. intros [] []. naive_solver. Qed.

(** ** Facts about orders *)
Section Facts.
Context {A : Type} `{TotalOrd A}.
Implicit Types x y z : A.

Lemma cmp_refl x : cmp x x = Eq.
Proof. by apply cmp_eq. Qed.

Lemma cmp_gt_iff x y : cmp x y = Gt <-> cmp y x = Lt.
Proof. rewrite (cmp_opp x y). by destruct (cmp x y). Qed.

Lemma lt_irrefl x : ~ lt_of x x.
Proof. unfold lt_of. by rewrite cmp_refl. Qed.

Lemma lt_le x y : lt_of x y -> le_of x y.
Proof. unfold lt_of, le_of. by intros ->. Qed.

Lemma le_lt_or_eq x y : le_of x y <-> lt_of x y \/ x = y.
Proof. unfold le_of, lt_of. pose proof (cmp_eq x y). destruct (cmp x y); naive_solver. Qed.

#[export] Instance lt_of_trans : Transitive (lt_of (A := A)).
Proof. intros x y z. apply cmp_lt_trans. Qed.

#[export] Instance le_of_trans : Transitive (le_of (A := A)).
Proof. intros x y z. rewrite !le_lt_or_eq. intros [?| ->] [?| ->]; eauto. left. by etrans. Qed.

#[export] Instance le_of_antisymm : AntiSymm (=) (le_of (A := A)).
Proof.
  intros x y. rewrite !le_lt_or_eq. intros [H1|?] [H2|?]; try done.
  destruct (lt_irrefl x). by etrans.
Qed.

Lemma not_lt_le x y : ~ lt_of y x <-> le_of x y.
Proof. unfold lt_of, le_of. by rewrite (cmp_gt_iff x y). Qed.

#[export] Instance lt_of_dec x y : Decision (lt_of x y).
Proof. unfold lt_of. apply _. Defined.
End Facts.

(** ** [slice::sort_by] on a key

    Stable: an element goes after those that are not greater. *)
Section SortBy.
Context {A K : Type} `{TotalOrd K} (key : A -> K).

Fixpoint insert_by (x : A) (l : list A) : list A :=
  match l with
  | [] => [x]
  | y :: l' => match cmp (key x) (key y) with Lt => x :: l | _ => y :: insert_by x l' end
  end.

Definition sort_by (l : list A) : list A := foldl (fun acc x => insert_by x acc) [] l.

Definition key_le_of (x y : A) : Prop := le_of (key x) (key y).

Lemma insert_by_perm x l : insert_by x l ≡ₚ x :: l.
Proof.
  induction l as [|y l IH]; simpl; [done|].
  destruct (cmp (key x) (key y)); [|done|]; rewrite IH; apply Permutation_swap.
Qed.

Lemma foldl_insert_perm l : forall acc, foldl (fun acc x => insert_by x acc) acc l ≡ₚ l ++ acc.
Proof.
  induction l as [|x l IH]; intros acc; simpl; [done|].
  by rewrite IH, insert_by_perm, Permutation_middle.
Qed.

Lemma sort_by_perm l : sort_by l ≡ₚ l.
Proof. unfold sort_by. by rewrite foldl_insert_perm, app_nil_r. Qed.

Lemma sort_by_length l : length (sort_by l) = length l.
Proof. by rewrite sort_by_perm. Qed.

Lemma insert_by_sorted x l :
  StronglySorted key_le_of l -> StronglySorted key_le_of (insert_by x l).
Proof.
  induction 1 as [|y l Hl IH Hy]; simpl; [by repeat constructor|].
  destruct (cmp (key x) (key y)) eqn:E.
  2:{ assert (key_le_of x y) by (unfold key_le_of, le_of; by rewrite E).
      constructor; [by constructor|]. constructor; [done|].
      eapply Forall_impl; [exact Hy|]. intros z Hz. unfold key_le_of in *. by etrans. }
  all: constructor; [done|]; rewrite insert_by_perm; constructor; [|done].
  all: unfold key_le_of, le_of; rewrite (cmp_opp (key x)), E; done.
Qed.

Lemma foldl_insert_sorted l : forall acc, StronglySorted key_le_of acc ->
  StronglySorted key_le_of (foldl (fun acc x => insert_by x acc) acc l).
Proof. induction l; intros acc Hacc; simpl; [done|]. by apply IHl, insert_by_sorted. Qed.

Lemma sort_by_sorted l : StronglySorted key_le_of (sort_by l).
Proof. apply foldl_insert_sorted. constructor. Qed.

(** Among elements of one key the order is that of the input. *)
Lemma insert_by_stable (k : K) `{EqDecision K} x l :
  StronglySorted key_le_of l ->
  filter (fun y => key y = k) (insert_by x l) =
  filter (fun y => key y = k) l ++ filter (fun y => key y = k) [x].
Proof.
  induction 1 as [|y l Hl IH Hy]; [done|]. cbn [insert_by].
  destruct (cmp (key x) (key y)) eqn:E.
  - rewrite !(filter_cons _ y), IH. by destruct (decide (key y = k)).
  - rewrite (filter_cons _ x). destruct (decide (key x = k)) as [Hx|Hx].
    2:{ rewrite (filter_cons_False _ x []) by done. by rewrite app_nil_r. }
    rewrite filter_none.
    2:{ intros z Hz Hzk. rewrite Hx in E. rewrite <- Hzk in E.
        assert (le_of (key y) (key z)) as Hle.
        { apply elem_of_cons in Hz as [->|Hz]; [unfold le_of; by rewrite cmp_refl|].
          rewrite Forall_forall in Hy. by apply Hy. }
        unfold le_of in Hle. by apply Hle, cmp_gt_iff. }
    by rewrite filter_cons_True.
  - rewrite !(filter_cons _ y), IH. by destruct (decide (key y = k)).
Qed.

Lemma foldl_insert_stable (k : K) `{EqDecision K} l : forall acc, StronglySorted key_le_of acc ->
  filter (fun y => key y = k) (foldl (fun acc x => insert_by x acc) acc l) =
  filter (fun y => key y = k) acc ++ filter (fun y => key y = k) l.
Proof.
  induction l as [|x l IH]; intros acc Hacc; simpl; [by rewrite app_nil_r|].
  rewrite IH by by apply insert_by_sorted. rewrite insert_by_stable by done.
  rewrite <- app_assoc. f_equal. rewrite <- filter_app. done.
Qed.

Lemma sort_by_stable (k : K) `{EqDecision K} l :
  filter (fun y => key y = k) (sort_by l) = filter (fun y => key y = k) l.
Proof. apply foldl_insert_stable. constructor. Qed.

(** A sorted list is left as it is. *)
Lemma insert_by_last x l : Forall (fun y => key_le_of y x) l -> insert_by x l = l ++ [x].
Proof.
  induction 1 as [|y l Hy _ IH]; [done|]. simpl. unfold key_le_of, le_of in Hy.
  rewrite (cmp_opp (key y)). destruct (cmp (key y) (key x)); simpl; [by rewrite IH..|done].
Qed.

Lemma foldl_insert_id l : forall acc, StronglySorted key_le_of (acc ++ l) ->
  foldl (fun acc x => insert_by x acc) acc l = acc ++ l.
Proof.
  induction l as [|x l IH]; intros acc Hs; simpl; [by rewrite app_nil_r|].
  rewrite insert_by_last.
  - rewrite IH; rewrite <- app_assoc; done.
  - clear IH. induction acc as [|y acc IH]; [constructor|]. apply StronglySorted_inv in Hs as [Hs Hy].
    constructor; [|by apply IH]. rewrite Forall_forall in Hy. apply Hy. set_solver.
Qed.

Lemma sort_by_id l : StronglySorted key_le_of l -> sort_by l = l.
Proof. apply (foldl_insert_id l []). Qed.

Lemma sort_by_app l k : sort_by (l ++ k) = foldl (fun acc x => insert_by x acc) (sort_by l) k.
Proof. unfold sort_by. by rewrite foldl_app. Qed.

(** Only the first [n] of the sorted prefix matter for the first [n] of all. *)
Lemma insert_by_take n x : forall l, take n (insert_by x l) = take n (insert_by x (take n l)).
Proof.
  induction n as [|n IH]; intros l; [done|]. destruct l as [|y l]; [done|]. simpl.
  destruct (cmp (key x) (key y)); simpl.
  - by rewrite IH.
  - f_equal. destruct n; [done|]. simpl. f_equal. by rewrite take_take, Nat.min_l by lia.
  - by rewrite IH.
Qed.

Lemma foldl_insert_take n l : forall acc acc', take n acc = take n acc' ->
  take n (foldl (fun acc x => insert_by x acc) acc l) =
  take n (foldl (fun acc x => insert_by x acc) acc' l).
Proof.
  induction l as [|x l IH]; intros acc acc' Heq; simpl; [done|].
  apply IH. by rewrite insert_by_take, Heq, <- insert_by_take.
Qed.

Lemma sort_by_take n l k : take n (sort_by (take n (sort_by l) ++ k)) = take n (sort_by (l ++ k)).
Proof.
  rewrite !sort_by_app. rewrite (sort_by_id (take n (sort_by l))).
  - apply foldl_insert_take. by rewrite take_take, Nat.min_id.
  - pose proof (sort_by_sorted l) as Hs. rewrite <- (take_drop n (sort_by l)) in Hs.
    by apply StronglySorted_app_1_l in Hs.
Qed.
End SortBy.

(** ** [sort], [dedup] and [BTreeSet] *)
Section Sets.
Context {A : Type} `{TotalOrd A} `{EqDecision A}.

Definition sort (l : list A) : list A := sort_by id l.

(** [Vec::dedup]: of consecutive equal elements one is kept. *)
Fixpoint dedup (l : list A) : list A :=
  match l with
  | x :: (y :: _) as l' => if decide (x = y) then dedup l' else x :: dedup l'
  | _ => l
  end.

Definition sort_dedup (l : list A) : list A := dedup (sort l).

(** [BTreeSet::insert]. *)
Fixpoint btree_insert (x : A) (l : list A) : list A :=
  match l with
  | [] => [x]
  | y :: l' => match cmp x y with Lt => x :: l | Eq => l | Gt => y :: btree_insert x l' end
  end.

Lemma sort_elem x l : x ∈ sort l <-> x ∈ l.
Proof. unfold sort. by rewrite sort_by_perm. Qed.

Lemma dedup_elem x l : x ∈ dedup l <-> x ∈ l.
Proof.
  induction l as [|y l IH]; [done|]. destruct l as [|z l]; [done|].
  cbn [dedup]. destruct (decide (y = z)) as [->|]; [rewrite IH|rewrite elem_of_cons, IH];
    rewrite !elem_of_cons; tauto.
Qed.

Lemma dedup_sorted l : StronglySorted le_of l -> StronglySorted lt_of (dedup l).
Proof.
  induction 1 as [|y l Hl IH Hy]; [constructor|]. destruct l as [|z l]; [by repeat constructor|].
  cbn [dedup]. destruct (decide (y = z)) as [->|Hne]; [done|]. constructor; [done|].
  apply Forall_forall. intros x Hx. apply (proj1 (dedup_elem x (z :: l))) in Hx.
  assert (lt_of y z) as Hyz.
  { apply Forall_cons in Hy as [[?|?]%le_lt_or_eq _]; done. }
  apply elem_of_cons in Hx as [->|Hx]; [done|].
  apply StronglySorted_inv in Hl as [_ Hz]. rewrite Forall_forall in Hz.
  apply Hz, le_lt_or_eq in Hx as [?| ->]; [by etrans|done].
Qed.

Lemma sort_dedup_elem x l : x ∈ sort_dedup l <-> x ∈ l.
Proof. unfold sort_dedup. by rewrite dedup_elem, sort_elem. Qed.

Lemma sort_dedup_sorted l : StronglySorted lt_of (sort_dedup l).
Proof. apply dedup_sorted. exact (sort_by_sorted id l). Qed.

Lemma btree_insert_elem x y l : y ∈ btree_insert x l <-> y = x \/ y ∈ l.
Proof.
  induction l as [|z l IH]; simpl; [by rewrite list_elem_of_singleton, elem_of_nil; tauto|].
  destruct (cmp x z) eqn:E; [apply cmp_eq in E as <-|..]; rewrite ?elem_of_cons, ?IH; tauto.
Qed.

Lemma btree_insert_sorted x l : StronglySorted lt_of l -> StronglySorted lt_of (btree_insert x l).
Proof.
  induction 1 as [|z l Hl IH Hz]; simpl; [by repeat constructor|].
  destruct (cmp x z) eqn:E.
  - by constructor.
  - constructor; [by constructor|]. constructor; [done|].
    eapply Forall_impl; [exact Hz|]. intros w Hw. by trans z.
  - constructor; [done|]. apply Forall_forall. intros w [->|Hw]%btree_insert_elem.
    + by apply cmp_gt_iff.
    + rewrite Forall_forall in Hz. by apply Hz.
Qed.

Lemma lt_sorted_NoDup (l : list A) : StronglySorted lt_of l -> NoDup l.
Proof.
  induction 1 as [|z l Hl IH Hz]; constructor; [|done]. intros Hin.
  rewrite Forall_forall in Hz. by destruct (lt_irrefl z (Hz _ Hin)).
Qed.

(** A strictly sorted list is determined by its elements. *)
Lemma lt_sorted_unique (l : list A) : forall k,
  StronglySorted lt_of l -> StronglySorted lt_of k -> (forall x, x ∈ l <-> x ∈ k) -> l = k.
Proof.
  induction l as [|x l IH]; intros k Hl Hk Heq.
  { destruct k as [|y k]; [done|]. exfalso. apply (not_elem_of_nil y), Heq. by left. }
  destruct k as [|y k]; [exfalso; apply (not_elem_of_nil x), Heq; by left|].
  apply StronglySorted_inv in Hl as [Hl Hx]. apply StronglySorted_inv in Hk as [Hk Hy].
  rewrite Forall_forall in Hx, Hy.
  assert (x = y) as ->.
  { pose proof (proj1 (Heq x) ltac:(by left)) as [|Hxk]%elem_of_cons; [done|].
    pose proof (proj2 (Heq y) ltac:(by left)) as [|Hyl]%elem_of_cons; [done|].
    destruct (lt_irrefl x). trans y; [by apply Hx|by apply Hy]. }
  f_equal. apply IH; [done..|]. intros z. specialize (Heq z). rewrite !elem_of_cons in Heq.
  split; intros Hz; [destruct (proj1 Heq (or_intror Hz)) as [->|]|destruct (proj2 Heq (or_intror Hz)) as [->|]];
    try done; [destruct (lt_irrefl y); by apply Hx|destruct (lt_irrefl y); by apply Hy].
Qed.
End Sets.

#[export] Hint Resolve sort_by_sorted sort_dedup_sorted btree_insert_sorted : gfm.
