(* ===== verification/Chars.v ===== *)
(** * Characters and strings of them

    The search crate walks the [char]s of its strings, so there a [str] is the
    list of its characters (Unicode scalar values); [String::len] counts UTF-8
    bytes, and the order of strings, that of their bytes, is that of the lists.
    What the code asks of the Unicode tables of the standard library is the class
    [Unicode], with the values the tables have on ASCII. *)
From Stdlib Require Import Ascii.
From S2P Require Import Prelude Types Text Order.

Abbreviation char := N (only parsing).
Abbreviation str := (list N) (only parsing).

(** A literal. *)
Fixpoint lit (s : string) : str :=
  match s with EmptyString => [] | String a s' => N_of_ascii a :: lit s' end.

Definition ch (a : ascii) : char := N_of_ascii a.

Definition is_ascii_digit (c : char) : bool := ((48 <=? c) && (c <=? 57))%N.
Definition is_ascii_upper (c : char) : bool := ((65 <=? c) && (c <=? 90))%N.
Definition is_ascii_lower (c : char) : bool := ((97 <=? c) && (c <=? 122))%N.
Definition ascii_lower (c : char) : char := if is_ascii_upper c then (c + 32)%N else c.
Definition is_ascii_space (c : char) : bool := ((9 <=? c) && (c <=? 13))%N || (c =? 32)%N.
Definition is_ascii_letter (c : char) : bool := is_ascii_upper c || is_ascii_lower c.

(** The tables of the standard library, and their values on ASCII. *)
Class Unicode : Type := {
  to_lowercase : char -> str;
  str_to_lowercase : str -> str;  (* with its rule for a final sigma *)
  is_alphabetic : char -> bool;
  is_alphanumeric : char -> bool;
  is_whitespace : char -> bool;
  lowercase_ascii c : (c < 128)%N -> to_lowercase c = [ascii_lower c];
  str_lowercase_ascii s : Forall (fun c => (c < 128)%N) s -> str_to_lowercase s = ascii_lower <$> s;
  alphabetic_ascii c : (c < 128)%N -> is_alphabetic c = is_ascii_letter c;
  alphanumeric_ascii c : (c < 128)%N -> is_alphanumeric c = is_ascii_letter c || is_ascii_digit c;
  whitespace_ascii c : (c < 128)%N -> is_whitespace c = is_ascii_space c;
  alphanumeric_not_space c : is_alphanumeric c = true -> is_whitespace c = false;
  lowercase_dot c : 46%N ∈ to_lowercase c -> c = 46%N
}.

(** Tables that know ASCII only. *)
Definition ascii_unicode : Unicode.
Proof.
  refine {| to_lowercase c := [ascii_lower c]; str_to_lowercase s := ascii_lower <$> s; is_alphabetic := is_ascii_letter;
    is_alphanumeric c := is_ascii_letter c || is_ascii_digit c; is_whitespace := is_ascii_space |}; try done.
  { intros c Hc. unfold is_ascii_letter, is_ascii_upper, is_ascii_lower, is_ascii_digit, is_ascii_space in *.
    destruct (N.leb_spec 9 c), (N.leb_spec c 13), (N.eqb_spec c 32), (N.leb_spec 65 c), (N.leb_spec c 90), (N.leb_spec 97 c),
      (N.leb_spec c 122), (N.leb_spec 48 c), (N.leb_spec c 57); cbn in *; done || lia. }
  intros c Hc%list_elem_of_singleton. unfold ascii_lower, is_ascii_upper in Hc.
  destruct (N.leb_spec 65 c), (N.leb_spec c 90); cbn in Hc; lia.
Defined.

(** [char::len_utf8] and [str::len]. *)
Definition len_utf8 (c : char) : nat :=
  if (c <? 128)%N then 1 else if (c <? 2048)%N then 2 else if (c <? 65536)%N then 3 else 4.
Definition str_len (s : str) : nat := sum_list (len_utf8 <$> s).

Definition is_ascii (s : str) : Prop := Forall (fun c => (c < 128)%N) s.
#[export] Instance is_ascii_dec s : Decision (is_ascii s).
Proof. unfold is_ascii. apply _. Defined.

(** ** Operations on [str] *)

Fixpoint strip_prefix (p s : str) : option str :=
  match p, s with
  | [], _ => Some s
  | a :: p', b :: s' => if decide (a = b) then strip_prefix p' s' else None
  | _ :: _, [] => None
  end.

Definition has_prefix (p s : str) : bool := bool_decide (is_Some (strip_prefix p s)).

(** [str::contains] with a string pattern. *)
Fixpoint str_contains (s needle : str) : bool :=
  has_prefix needle s || match s with [] => false | _ :: s' => str_contains s' needle end.

Fixpoint trim_start_by (p : char -> bool) (s : str) : str :=
  match s with c :: s' => if p c then trim_start_by p s' else s | [] => [] end.
Definition trim_by (p : char -> bool) (s : str) : str :=
  reverse (trim_start_by p (reverse (trim_start_by p s))).

(** [str::split] with a predicate on characters. *)
Fixpoint split_by (p : char -> bool) (s : str) : list str :=
  match s with
  | [] => [[]]
  | c :: s' =>
      if p c then [] :: split_by p s'
      else match split_by p s' with [] => [[c]] | f :: fs => (c :: f) :: fs end
  end.

(** [str::split_once]. *)
Fixpoint split_once (c : char) (s : str) : option (str * str) :=
  match s with
  | [] => None
  | a :: s' => if decide (a = c) then Some ([], s') else (fun r => (a :: r.1, r.2)) <$> split_once c s'
  end.

Definition str_ascii_lowercase (s : str) : str := ascii_lower <$> s.
Definition eq_ignore_ascii_case (a b : str) : bool :=
  bool_decide (str_ascii_lowercase a = str_ascii_lowercase b).

Definition str_join (sep : str) (l : list str) : str :=
  match l with [] => [] | x :: l' => x ++ concat ((fun y => sep ++ y) <$> l') end.

(** [str::parse] for unsigned integers up to [max] ([.ok()]: no error kinds). *)
Definition char_digit (c : char) : option N := if is_ascii_digit c then Some (c - 48)%N else None.
Fixpoint parse_digits_upto (max r : N) (s : str) : option N :=
  match s with
  | [] => Some r
  | c :: s' =>
      d ← char_digit c ;
      if (r * 10 + d <=? max)%N then parse_digits_upto max (r * 10 + d) s' else None
  end.
Definition parse_unsigned (max : N) (s : str) : option N :=
  match s with
  | [] => None
  | c :: s' =>
      if decide (c = ch "+") then match s' with [] => None | _ => parse_digits_upto max 0 s' end
      else parse_digits_upto max 0 s
  end.
Definition U32_MAX : N := 4294967295.
Definition U64_MAX : N := 18446744073709551615.

(** [i32::from_str]. *)
Definition parse_i32 (s : str) : option Z :=
  match s with
  | c :: d :: s' =>
      if decide (c = ch "-") then (fun n => (- Z.of_N n)%Z) <$> parse_digits_upto 2147483648 0 (d :: s')
      else Z.of_N <$> parse_unsigned 2147483647 s
  | _ => Z.of_N <$> parse_unsigned 2147483647 s
  end.

(** ** Lemmas *)

Lemma len_utf8_pos c : 1 <= len_utf8 c.
Proof. unfold len_utf8. repeat case_match; lia. Qed.

Lemma str_len_app s t : str_len (s ++ t) = str_len s + str_len t.
Proof. unfold str_len. rewrite fmap_app. apply sum_list_with_app. Qed.

Lemma str_len_cons c s : str_len (c :: s) = len_utf8 c + str_len s.
Proof. done. Qed.

Lemma str_len_ge s : length s <= str_len s.
Proof. induction s as [|c s IH]; [done|]. rewrite str_len_cons. pose proof (len_utf8_pos c). simpl. lia. Qed.

Lemma str_len_ascii s : is_ascii s -> str_len s = length s.
Proof.
  induction 1 as [|c s Hc _ IH]; [done|]. rewrite str_len_cons, IH. unfold len_utf8.
  by rewrite (proj2 (N.ltb_lt _ _) Hc).
Qed.

(** Two prefixes of one string of the same length in bytes are the same. *)
Lemma str_prefix_eq a : forall b x y, a ++ x = b ++ y -> str_len a = str_len b -> a = b /\ x = y.
Proof.
  induction a as [|c a IH]; intros [|d b] x y Heq Hlen; simplify_eq/=; [done|..].
  - rewrite str_len_cons in Hlen. pose proof (len_utf8_pos d). unfold str_len in Hlen at 1. simpl in Hlen. lia.
  - rewrite str_len_cons in Hlen. pose proof (len_utf8_pos c). unfold str_len in Hlen at 2. simpl in Hlen. lia.
  - rewrite !str_len_cons in Hlen. destruct (IH b x y) as [-> ->]; [done|lia|done].
Qed.

Lemma strip_prefix_Some p s r : strip_prefix p s = Some r <-> s = p ++ r.
Proof.
  revert s. induction p as [|a p IH]; intros s; simpl; [split; congruence|].
  destruct s as [|b s]; [done|]. case_decide as Hab; [subst; rewrite IH; split; congruence|].
  split; [done|]. congruence.
Qed.

Lemma str_contains_spec s needle : str_contains s needle = true <-> exists a b, s = a ++ needle ++ b.
Proof.
  induction s as [|c s IH].
  - simpl. rewrite orb_false_r. unfold has_prefix. rewrite bool_decide_eq_true. split.
    + intros [r Hr%strip_prefix_Some]. by exists [], r.
    + intros (a & b & Hab). exists []. apply strip_prefix_Some. destruct a, needle, b; done.
  - cbn [str_contains]. rewrite orb_true_iff, IH. unfold has_prefix. rewrite bool_decide_eq_true. split.
    + intros [[r Hr%strip_prefix_Some]|(a & b & ->)]; [by exists [], r|by exists (c :: a), b].
    + intros ([|d a] & b & Hab); simplify_eq/=; [left; exists b; by apply strip_prefix_Some|].
      right. by exists a, b.
Qed.

Lemma split_once_Some c s a b :
  split_once c s = Some (a, b) <-> s = a ++ c :: b /\ c ∉ a.
Proof.
  revert a. induction s as [|d s IH]; intros a; simpl.
  { split; [done|]. intros [H _]. by destruct a. }
  case_decide as Hd.
  - subst. split; [intros [= <- <-]; split; [done|apply not_elem_of_nil]|].
    intros [H Hn]. destruct a as [|e a]; simplify_eq/=; [done|]. destruct Hn. by left.
  - destruct (split_once c s) as [[a' b']|] eqn:E; simpl.
    + split.
      * intros [= <- <-]. destruct (proj1 (IH a') eq_refl) as [-> Hn]. split; [done|].
        by intros [?|?]%elem_of_cons.
      * intros [H Hn]. destruct a as [|e a]; simplify_eq/=.
        assert (Some (a', b') = Some (a, b)) as [= -> ->]; [|done].
        apply IH. split; [done|]. intros Hin. apply Hn. by right.
    + split; [done|]. intros [H Hn]. destruct a as [|e a]; simplify_eq/=.
      assert (None = Some (a, b)); [|done]. apply IH. split; [done|]. intros Hin. apply Hn. by right.
Qed.

(** *** Trimming *)

Lemma trim_start_none p s : Forall (fun c => p c = false) s -> trim_start_by p s = s.
Proof. destruct 1 as [|c s Hc]; [done|]. simpl. by rewrite Hc. Qed.

Lemma trim_none p s : Forall (fun c => p c = false) s -> trim_by p s = s.
Proof.
  intros Hs. unfold trim_by. rewrite (trim_start_none p s) by done.
  rewrite trim_start_none by by apply Forall_reverse. apply reverse_involutive.
Qed.

Lemma trim_start_elem p s c : c ∈ trim_start_by p s -> c ∈ s.
Proof.
  induction s as [|d s IH]; simpl; [done|]. case_match; [|done]. intros ?. right. by apply IH.
Qed.
Lemma trim_elem p s c : c ∈ trim_by p s -> c ∈ s.
Proof.
  unfold trim_by. intros Hc%elem_of_reverse%trim_start_elem%elem_of_reverse%trim_start_elem. done.
Qed.

(** *** Decimal numbers *)

Definition dec (n : N) : str := lit (u64_to_string n).

Lemma lit_app a b : lit (a +:+ b) = lit a ++ lit b.
Proof. induction a as [|c a IH]; [done|]. change (N_of_ascii c :: lit (a +:+ b) = N_of_ascii c :: lit a ++ lit b). by rewrite IH. Qed.

Lemma char_digit_lit a : char_digit (N_of_ascii a) = to_digit a.
Proof. done. Qed.

Lemma parse_digits_ge s : forall r n, parse_digits r s = Ok n -> (r <= n)%N.
Proof.
  induction s as [|a s IH]; intros r n; simpl; [intros [= ->]; lia|].
  destruct (to_digit a) as [d|]; [|done]. case_match; [|done]. intros ?%IH. lia.
Qed.

Lemma parse_digits_upto_lit max s : forall r n,
  parse_digits r s = Ok n -> (n <= max)%N -> parse_digits_upto max r (lit s) = Some n.
Proof.
  induction s as [|a s IH]; intros r n; cbn [parse_below lit parse_digits_upto]; [by intros [= ->]|].
  rewrite char_digit_lit. destruct (to_digit a) as [d|]; [|done]. cbn [mbind option_bind].
  destruct (r * 10 + d <? U64)%N; [|done]. intros Hp Hn.
  pose proof (parse_digits_ge _ _ _ Hp). rewrite (proj2 (N.leb_le _ _)) by lia. by apply IH.
Qed.

Lemma dec_digits n : Forall (fun c => is_ascii_digit c = true) (dec n).
Proof.
  unfold dec, u64_to_string. assert (Forall (fun c => is_ascii_digit c = true) (lit "")) as Hnil by constructor.
  revert Hnil. generalize ""%string. generalize 20. intros fuel. revert n.
  induction fuel as [|fuel IH]; intros m acc Hacc; [done|].
  cbn [dec_go]. assert (Hd : Forall (fun c => is_ascii_digit c = true) (lit (String (digit_char (m mod 10)) acc))).
  { constructor; [|done]. assert (m mod 10 < 10)%N as Hm by (apply N.mod_upper_bound; lia).
    revert Hm. generalize (m mod 10)%N. apply digit_cases; reflexivity. }
  destruct (m <? 10)%N; [done|by apply IH].
Qed.

Lemma dec_nonempty n : dec n <> [].
Proof. unfold dec, u64_to_string. by destruct (dec_go_head 19 n "") as (d & s & _ & ->). Qed.

Lemma dec_value max n : u64_ok n -> (n <= max)%N -> parse_digits_upto max 0 (dec n) = Some n.
Proof.
  intros Hn Hm. apply parse_digits_upto_lit; [|done]. unfold u64_to_string. rewrite dec_go_parse; try done.
  unfold u64_ok, U64 in Hn. eapply N.lt_trans; [exact Hn|]. done.
Qed.

Lemma parse_unsigned_digits max s :
  s <> [] -> Forall (fun c => is_ascii_digit c = true) s -> parse_unsigned max s = parse_digits_upto max 0 s.
Proof.
  intros Hne Hs. destruct Hs as [|c s Hc]; [done|]. unfold parse_unsigned.
  rewrite decide_False; [done|]. by intros ->.
Qed.

Lemma parse_unsigned_dec max n : u64_ok n -> (n <= max)%N -> parse_unsigned max (dec n) = Some n.
Proof.
  intros Hn Hm. rewrite parse_unsigned_digits by (apply dec_nonempty || apply dec_digits). by apply dec_value.
Qed.

Lemma dec_inj a b : u64_ok a -> u64_ok b -> dec a = dec b -> a = b.
Proof.
  intros Ha Hb Hd. pose proof (parse_unsigned_dec U64_MAX a Ha) as H1.
  pose proof (parse_unsigned_dec U64_MAX b Hb) as H2. unfold u64_ok, U64, U64_MAX in *.
  rewrite Hd in H1. rewrite H1 in H2 by lia. specialize (H2 ltac:(lia)). by injection H2.
Qed.

Lemma split_by_none p s : Forall (fun c => p c = false) s -> split_by p s = [s].
Proof. induction 1 as [|c s Hc _ IH]; [done|]. simpl. by rewrite Hc, IH. Qed.

Lemma split_by_app p a c b : Forall (fun c => p c = false) a -> p c = true ->
  split_by p (a ++ c :: b) = a :: split_by p b.
Proof. intros Ha Hc. induction Ha as [|d a Hd _ IH]; simpl; [by rewrite Hc|by rewrite Hd, IH]. Qed.
