(* ===== verification/Records.v ===== *)
(** * File records and search hits ([crates/types/src/lib.rs])

    The part of the shared vocabulary that the search crate works on; strings are
    lists of characters ([Chars]). *)
From S2P Require Import Prelude Types Order Chars.

Inductive FileKind : Type := Directory | File | Symlink | OtherKind.
#[export] Instance FileKind_eq_dec : EqDecision FileKind.
Proof. solve_decision. Defined.

Record FileRecord : Type := mkRecord {
  record_id : FileId;
  record_parent : option FileId;
  record_path : str;
  record_name : str;
  record_kind : FileKind;
  record_len : N;
  record_mode : N;
  record_owner : N;
  record_group : N;
  record_xattrs : N;
  record_created : option SystemTime;
  record_modified : option SystemTime;
  record_changed : option SystemTime;
  record_hidden : bool;
  record_tags : list str;
  record_comment : option str
}.
#[export] Instance FileRecord_eq_dec : EqDecision FileRecord.
Proof. solve_decision. Defined.

Inductive MatchReason : Type :=
  | ExactName | PrefixName | SubstringName | ExtensionMatch | PathComponent | TagMatch | Content | FuzzyName.
#[export] Instance MatchReason_eq_dec : EqDecision MatchReason.
Proof. solve_decision. Defined.

Record SnippetHighlight : Type := mkHighlight { hl_start : nat; hl_end : nat }.
#[export] Instance SnippetHighlight_eq_dec : EqDecision SnippetHighlight.
Proof. solve_decision. Defined.
Record SearchSnippet : Type := mkSnippet { snippet_text : str; highlights : list SnippetHighlight }.
#[export] Instance SearchSnippet_eq_dec : EqDecision SearchSnippet.
Proof. solve_decision. Defined.

Record SearchHit : Type := mkHit {
  hit_record : FileRecord;
  hit_score : Z;
  hit_reason : MatchReason;
  hit_snippet : option SearchSnippet
}.
#[export] Instance SearchHit_eq_dec : EqDecision SearchHit.
Proof. solve_decision. Defined.

(** ** Paths of records

    [Path::components] as their texts: the root is ["/"]. *)
Definition DOT : char := 46%N.
Definition SEPARATOR : char := 47%N.
Definition component_strs (p : str) : list str :=
  let parts := split_by (fun c => (c =? SEPARATOR)%N) p in
  (match p with
   | c :: _ => if decide (c = SEPARATOR) then [[SEPARATOR]]
               else match parts with s :: _ => if decide (s = [DOT]) then [[DOT]] else [] | [] => [] end
   | [] => []
   end) ++ filter (fun s => s <> [] /\ s <> [DOT]) parts.

Definition path_file_name (p : str) : option str :=
  s ← last (component_strs p) ;
  if decide (s = [SEPARATOR] \/ s = [DOT] \/ s = [DOT; DOT]) then None else Some s.

(** The split of a file name at its last dot: what comes before and after. *)
Definition rsplit_dot (name : str) : option (str * str) :=
  (fun r => (reverse r.2, reverse r.1)) <$> split_once DOT (reverse name).

Definition path_extension (p : str) : option str :=
  name ← path_file_name p ;
  r ← rsplit_dot name ;
  if decide (r.1 = []) then None else Some r.2.

(** [FileRecord::extension] and [is_dir]. *)
Definition extension (r : FileRecord) : option str := path_extension (record_path r).
Definition is_dir (r : FileRecord) : bool := bool_decide (record_kind r = Directory).

(** An extension holds no dot. *)
Lemma extension_no_dot r e : extension r = Some e -> DOT ∉ e.
Proof.
  unfold extension, path_extension, rsplit_dot. destruct (path_file_name _) as [name|]; [|done]. simpl.
  destruct (split_once DOT (reverse name)) as [[a b]|] eqn:E; [|done]. simpl.
  case_decide; [done|]. intros [= <-]. apply split_once_Some in E as [_ Hn]. by rewrite elem_of_reverse.
Qed.
