(* ===== verification/Paths.v ===== *)
(** * Paths

    What the program uses of [std::path] on Unix: a path is the string of its
    bytes; equality and lookup go by components, so repeated and trailing
    separators and inner [.] do not matter; [push] of an absolute path replaces
    what was there. *)
From Stdlib Require Import Ascii.
From S2P Require Import Prelude Text.
#[local] Open Scope string_scope.
#[local] Open Scope list_scope.

Definition SLASH : ascii := "047".

Inductive Component : Type :=
  | RootDir
  | CurDir
  | ParentDir
  | Normal (name : string).

#[export] Instance Component_eq_dec : EqDecision Component.
Proof. solve_decision. Defined.

Definition parse_component (s : string) : Component :=
  if decide (s = "..") then ParentDir else Normal s.

Definition is_absolute (p : string) : bool := starts_with "/" p.

(** [Path::components]: a leading [.] of a relative path is kept. *)
Definition components (p : string) : list Component :=
  let parts := split_on SLASH p in
  (if is_absolute p then [RootDir]
   else match parts with s :: _ => if decide (s = ".") then [CurDir] else [] | [] => [] end) ++
  (parse_component <$> filter (fun s => s <> "" /\ s <> ".") parts).

(** [PathBuf == PathBuf]. *)
Definition same_path (p q : string) : Prop := components p = components q.
#[export] Instance same_path_dec p q : Decision (same_path p q).
Proof. unfold same_path. apply _. Defined.
#[export] Instance same_path_equivalence : Equivalence same_path.
Proof. split; unfold same_path; [done|by intros ??|by intros ??? -> ->]. Qed.

Definition ends_with_slash (p : string) : bool :=
  match last (String.list_ascii_of_string p) with Some c => bool_decide (c = SLASH) | None => false end.

(** [PathBuf::push]. *)
Definition push (self p : string) : string :=
  if is_absolute p then p
  else if decide (self = "") then p
  else if ends_with_slash self then self +:+ p
  else self +:+ "/" +:+ p.

Lemma push_absolute self p : is_absolute p = true -> push self p = p.
Proof. intros Hp. unfold push. by rewrite Hp. Qed.
