(* ===== verification/Control.v ===== *)
(** * Checked computations: the [check_control] protocol

    Nearly every operation of the program exists in a [_checked] form that takes
    a closure [check_control: impl FnMut() -> Result<()>] and polls it between
    its steps, so that a cancelled or paused job stops at the next poll.  A
    checked computation is modelled as a state transformer that threads

    - a [Control], the outcome of the [k]-th call of the closure ([None] for
      [Ok(())]; a closure sees nothing of the operation's own state, so the
      sequence of its outcomes is all there is to it), and the number of polls
      made so far;
    - the mutable state [S] the operation works on.  An error returned by [?]
      leaves the state exactly as it was at that point, as Rust does. *)
From S2P Require Import Prelude Types.

Definition Control : Type := nat -> option GfmError.
Definition Res (A : Type) : Type := Result A GfmError.

(** The closure of the infallible wrappers, [|| Ok(())]. *)
Definition never : Control := fun _ => None.

Definition M (S A : Type) : Type := Control -> nat -> S -> Res A * nat * S.

Section Monad.
Context {S : Type}.

Definition mret {A} (a : A) : M S A := fun _ k s => (Ok a, k, s).
Definition mfail {A} (e : GfmError) : M S A := fun _ k s => (Err e, k, s).
Definition mlift {A} (r : Res A) : M S A := fun _ k s => (r, k, s).
Definition mget : M S S := fun _ k s => (Ok s, k, s).
Definition mput (s' : S) : M S unit := fun _ k _ => (Ok tt, k, s').
Definition mmodify (f : S -> S) : M S unit := fun _ k s => (Ok tt, k, f s).
Definition mgets {A} (f : S -> A) : M S A := fun _ k s => (Ok (f s), k, s).

Definition mbind {A B} (m : M S A) (f : A -> M S B) : M S B := fun c k s =>
  match m c k s with
  | (Ok a, k', s') => f a c k' s'
  | (Err e, k', s') => (Err e, k', s')
  end.

(** [check_control()] without the [?]: the outcome is a value. *)
Definition poll : M S (Res unit) := fun c k s =>
  (Ok (match c k with None => Ok tt | Some e => Err e end), Datatypes.S k, s).

(** [check_control()?]. *)
Definition check_control : M S unit := fun c k s =>
  (match c k with None => Ok tt | Some e => Err e end, Datatypes.S k, s).

(** [for x in l { acc = body(acc, x)? }]. *)
Fixpoint mfor {A B} (body : B -> A -> M S B) (acc : B) (l : list A) : M S B :=
  match l with
  | [] => mret acc
  | x :: l' => mbind (body acc x) (fun acc' => mfor body acc' l')
  end.

(** The result of running under closure [c], without the poll count. *)
Definition run {A} (m : M S A) (c : Control) (s : S) : Res A * S :=
  let '(r, _, s') := m c 0 s in (r, s').

(** [f_checked(.., || Ok(())).expect(..)]: [None] is a panic. *)
Definition expect {A} (m : M S A) (s : S) : option (A * S) :=
  match run m never s with
  | (Ok a, s') => Some (a, s')
  | (Err _, _) => None
  end.
End Monad.

Declare Scope ctl_scope.
Delimit Scope ctl_scope with ctl.
Notation "x <- m ; k" := (mbind m (fun x => k))
  (at level 100, m at next level, k at level 200, right associativity) : ctl_scope.
Notation "m ;; k" := (mbind m (fun _ => k))
  (at level 100, k at level 200, right associativity) : ctl_scope.
Open Scope ctl_scope.

(** ** Reading computations

    A computation that never changes the state, whatever the closure says. *)
Definition reads {S A} (m : M S A) : Prop := forall c k s, (m c k s).2 = s.

(** ** Atomic computations

    When it returns an error the state is what it was before the call. *)
Definition atomic {S A} (m : M S A) : Prop :=
  forall c k s e k' s', m c k s = (Err e, k', s') -> s' = s.

(** A computation that cannot return an error. *)
Definition infallible {S A} (m : M S A) : Prop :=
  forall c k s, exists a k' s', m c k s = (Ok a, k', s').

(** ** Runs that are not interrupted *)
Definition runs {S A} (m : M S A) (s : S) (r : Res A) (s' : S) : Prop :=
  forall k, exists k', m never k s = (r, k', s').

(** ** Cooperation

    Under any closure a computation either behaves as if it had never been
    interrupted, having seen only [Ok(())] from its polls, or it returns the
    error of the first poll that failed, and that poll is the last one made. *)
Definition cooperative {S A} (m : M S A) : Prop :=
  forall c k s, let '(r, k', s') := m c k s in
    k <= k' /\
    ((forall j, k <= j < k' -> c j = None) /\ m never k s = (r, k', s') \/
     exists e, r = Err e /\ k < k' /\ c (k' - 1) = Some e /\
       forall j, k <= j < k' - 1 -> c j = None).

(** ** Triples: what a computation leaves, whatever the closure says *)
Definition triple {S A} (P : S -> Prop) (m : M S A) (Q : Res A -> S -> Prop) : Prop :=
  forall c k s, P s -> let '(r, _, s') := m c k s in Q r s'.

Section Lemmas.
Context {S : Type}.
Implicit Types s : S.

Lemma mbind_ok {A B} (m : M S A) (f : A -> M S B) c k s a k' s' :
  m c k s = (Ok a, k', s') -> mbind m f c k s = f a c k' s'.
Proof. unfold mbind. by intros ->. Qed.

Lemma mbind_err {A B} (m : M S A) (f : A -> M S B) c k s e k' s' :
  m c k s = (Err e, k', s') -> mbind m f c k s = (Err e, k', s').
Proof. unfold mbind. by intros ->. Qed.

(** *** [reads] *)
Lemma reads_ret {A} (a : A) : reads (S := S) (mret a).
Proof. done. Qed.
Lemma reads_fail {A} e : reads (S := S) (mfail (A := A) e).
Proof. done. Qed.
Lemma reads_lift {A} (r : Res A) : reads (S := S) (mlift r).
Proof. done. Qed.
Lemma reads_get : reads (S := S) mget.
Proof. done. Qed.
Lemma reads_gets {A} (f : S -> A) : reads (mgets f).
Proof. done. Qed.
Lemma reads_check : reads (S := S) check_control.
Proof. done. Qed.
Lemma reads_poll : reads (S := S) poll.
Proof. done. Qed.
Lemma reads_bind {A B} (m : M S A) (f : A -> M S B) :
  reads m -> (forall a, reads (f a)) -> reads (mbind m f).
Proof.
  intros Hm Hf c k s. unfold mbind. specialize (Hm c k s).
  destruct (m c k s) as [[[a|e] k'] s']; simpl in *; subst; [apply Hf|done].
Qed.
Lemma reads_for {A B} (body : B -> A -> M S B) l : forall acc,
  (forall b x, reads (body b x)) -> reads (mfor body acc l).
Proof.
  induction l as [|x l IH]; intros acc Hb; [apply reads_ret|].
  apply reads_bind; [apply Hb|]. intros; by apply IH.
Qed.

(** *** [atomic] *)
Lemma reads_atomic {A} (m : M S A) : reads m -> atomic m.
Proof. intros Hm c k s e k' s' Heq. specialize (Hm c k s). by rewrite Heq in Hm. Qed.
Lemma infallible_atomic {A} (m : M S A) : infallible m -> atomic m.
Proof. intros Hm c k s e k' s' Heq. destruct (Hm c k s) as (?&?&?&?). congruence. Qed.
Lemma atomic_bind {A B} (m : M S A) (f : A -> M S B) :
  reads m -> (forall a, atomic (f a)) -> atomic (mbind m f).
Proof.
  intros Hm Hf c k s e k' s'. unfold mbind. specialize (Hm c k s).
  destruct (m c k s) as [[[a|e'] k1] s1]; simpl in *; subst; [apply Hf|congruence].
Qed.
Lemma atomic_bind_infallible {A B} (m : M S A) (f : A -> M S B) :
  atomic m -> (forall a, infallible (f a)) -> atomic (mbind m f).
Proof.
  intros Hm Hf c k s e k' s'. unfold mbind.
  destruct (m c k s) as [[[a|e'] k1] s1] eqn:Heq; [|intros [= <- <- <-]; eauto].
  destruct (Hf a c k1 s1) as (?&?&?&?). congruence.
Qed.

(** *** [infallible] *)
Lemma infallible_ret {A} (a : A) : infallible (S := S) (mret a).
Proof. intros c k s. repeat eexists. Qed.
Lemma infallible_put s : infallible (mput s).
Proof. intros c k s'. repeat eexists. Qed.
Lemma infallible_modify (f : S -> S) : infallible (mmodify f).
Proof. intros c k s'. repeat eexists. Qed.
Lemma infallible_bind {A B} (m : M S A) (f : A -> M S B) :
  infallible m -> (forall a, infallible (f a)) -> infallible (mbind m f).
Proof.
  intros Hm Hf c k s. unfold mbind.
  destruct (Hm c k s) as (a & k' & s' & ->). apply Hf.
Qed.

(** *** [runs] *)
Lemma runs_ret {A} (a : A) s : runs (mret a) s (Ok a) s.
Proof. intros k. by exists k. Qed.
Lemma runs_check s : runs check_control s (Ok tt) s.
Proof. intros k. by exists (Datatypes.S k). Qed.
Lemma runs_poll s : runs poll s (Ok (Ok tt)) s.
Proof. intros k. by exists (Datatypes.S k). Qed.
Lemma runs_fail {A} e s : runs (mfail (A := A) e) s (Err e) s.
Proof. intros k. by exists k. Qed.
Lemma runs_lift {A} (r : Res A) s : runs (mlift r) s r s.
Proof. intros k. by exists k. Qed.
Lemma runs_get s : runs mget s (Ok s) s.
Proof. intros k. by exists k. Qed.
Lemma runs_gets {A} (f : S -> A) s : runs (mgets f) s (Ok (f s)) s.
Proof. intros k. by exists k. Qed.
Lemma runs_put s s' : runs (mput s') s (Ok tt) s'.
Proof. intros k. by exists k. Qed.
Lemma runs_modify (f : S -> S) s : runs (mmodify f) s (Ok tt) (f s).
Proof. intros k. by exists k. Qed.
Lemma runs_bind {A B} (m : M S A) (f : A -> M S B) s a s1 r s2 :
  runs m s (Ok a) s1 -> runs (f a) s1 r s2 -> runs (mbind m f) s r s2.
Proof.
  intros Hm Hf k. destruct (Hm k) as [k1 H1]. destruct (Hf k1) as [k2 H2].
  exists k2. unfold mbind. by rewrite H1.
Qed.
Lemma runs_bind_err {A B} (m : M S A) (f : A -> M S B) s e s1 :
  runs m s (Err e) s1 -> runs (mbind m f) s (Err e) s1.
Proof. intros Hm k. destruct (Hm k) as [k1 H1]. exists k1. unfold mbind. by rewrite H1. Qed.

(** A loop whose body has a reference function [step] computes its fold. *)
Lemma runs_for {A B} (body : B -> A -> M S B) (step : B -> A -> B) l : forall acc s,
  (forall b x s0, runs (body b x) s0 (Ok (step b x)) s0) ->
  runs (mfor body acc l) s (Ok (foldl step acc l)) s.
Proof.
  induction l as [|x l IH]; intros acc s Hb; simpl; [apply runs_ret|].
  eapply runs_bind; [apply Hb|]. by apply IH.
Qed.

Lemma runs_run {A} (m : M S A) s r s' : runs m s r s' -> run m never s = (r, s').
Proof. intros H. destruct (H 0) as [k Hk]. unfold run. by rewrite Hk. Qed.
Lemma runs_expect {A} (m : M S A) s a s' : runs m s (Ok a) s' -> expect m s = Some (a, s').
Proof. intros H. unfold expect. by rewrite (runs_run _ _ _ _ H). Qed.
Lemma runs_det {A} (m : M S A) s r1 s1 r2 s2 :
  runs m s r1 s1 -> runs m s r2 s2 -> r1 = r2 /\ s1 = s2.
Proof. intros H1 H2. destruct (H1 0) as [? E1], (H2 0) as [? E2]. naive_solver congruence. Qed.

(** *** [cooperative] *)
Lemma cooperative_ret {A} (a : A) : cooperative (S := S) (mret a).
Proof. intros c k s. simpl. split; [lia|]. left. split; [lia|done]. Qed.
Lemma cooperative_fail {A} e : cooperative (S := S) (mfail (A := A) e).
Proof. intros c k s. simpl. split; [lia|]. left. split; [lia|done]. Qed.
Lemma cooperative_lift {A} (r : Res A) : cooperative (S := S) (mlift r).
Proof. intros c k s. simpl. split; [lia|]. left. split; [lia|done]. Qed.
Lemma cooperative_get : cooperative (S := S) mget.
Proof. intros c k s. simpl. split; [lia|]. left. split; [lia|done]. Qed.
Lemma cooperative_gets {A} (f : S -> A) : cooperative (mgets f).
Proof. intros c k s. simpl. split; [lia|]. left. split; [lia|done]. Qed.
Lemma cooperative_put s : cooperative (mput s).
Proof. intros c k s'. simpl. split; [lia|]. left. split; [lia|done]. Qed.
Lemma cooperative_modify (f : S -> S) : cooperative (mmodify f).
Proof. intros c k s. simpl. split; [lia|]. left. split; [lia|done]. Qed.
Lemma cooperative_check : cooperative (S := S) check_control.
Proof.
  intros c k s. unfold check_control. split; [lia|].
  destruct (c k) as [e|] eqn:Hk.
  - right. exists e. repeat split; [lia| |lia].
    by replace (Datatypes.S k - 1) with k by lia.
  - left. split; [|done]. intros j Hj. by replace j with k by lia.
Qed.

(** A poll whose failure ends the computation with the error of the poll. *)
Lemma cooperative_poll_bind {A} (f : Res unit -> M S A) :
  cooperative (f (Ok tt)) ->
  (forall e c k s, exists s', f (Err e) c k s = (Err e, k, s')) ->
  cooperative (mbind poll f).
Proof.
  intros Hok Herr c k s. unfold mbind, poll.
  destruct (c k) as [e|] eqn:Hk.
  - destruct (Herr e c (Datatypes.S k) s) as [s' ->]. split; [lia|]. right.
    exists e. repeat split; [lia| |lia]. by replace (Datatypes.S k - 1) with k by lia.
  - specialize (Hok c (Datatypes.S k) s).
    destruct (f (Ok tt) c (Datatypes.S k) s) as [[r k'] s'] eqn:Hf.
    destruct Hok as [Hle Hok]. split; [lia|].
    destruct Hok as [[Hn Hr]|(e & -> & ? & Hc & Hn)].
    + left. split; [|done]. intros j Hj. destruct (decide (j = k)) as [->|]; [done|].
      apply Hn. lia.
    + right. exists e. repeat split; [lia|done|]. intros j Hj.
      destruct (decide (j = k)) as [->|]; [done|]. apply Hn. lia.
Qed.

Lemma cooperative_bind {A B} (m : M S A) (f : A -> M S B) :
  cooperative m -> (forall a, cooperative (f a)) -> cooperative (mbind m f).
Proof.
  intros Hm Hf c k s. unfold mbind. specialize (Hm c k s).
  destruct (m c k s) as [[[a|e] k1] s1] eqn:Hm1; destruct Hm as [Hle1 Hm].
  2:{ split; [done|]. destruct Hm as [[Hn Hr]|(e' & [= <-] & Hm)].
      - left. by rewrite Hr.
      - right. by exists e. }
  destruct Hm as [[Hn1 Hr1]|(?&?&?)]; [|done].
  specialize (Hf a c k1 s1). destruct (f a c k1 s1) as [[r k2] s2] eqn:Hf2.
  destruct Hf as [Hle2 Hf]. split; [lia|]. rewrite Hr1.
  destruct Hf as [[Hn2 Hr2]|(e & -> & ? & Hc & Hn2)].
  - left. split; [|done]. intros j Hj. destruct (decide (j < k1)); [apply Hn1|apply Hn2]; lia.
  - right. exists e. repeat split; [lia|done|]. intros j Hj.
    destruct (decide (j < k1)); [apply Hn1|apply Hn2]; lia.
Qed.

Lemma cooperative_for {A B} (body : B -> A -> M S B) l : forall acc,
  (forall b x, cooperative (body b x)) -> cooperative (mfor body acc l).
Proof.
  induction l as [|x l IH]; intros acc Hb; [apply cooperative_ret|].
  apply cooperative_bind; [apply Hb|]. intros; by apply IH.
Qed.

(** A run that is never interrupted, for a run under any closure that returned
    a value: the value is the uninterrupted one. *)
Lemma cooperative_ok {A} (m : M S A) c s a s' :
  cooperative m -> run m c s = (Ok a, s') -> run m never s = (Ok a, s').
Proof.
  intros Hm. unfold run. specialize (Hm c 0 s).
  destruct (m c 0 s) as [[r k'] s1]. intros [= -> ->].
  destruct Hm as [_ [[_ ->]|(?&?&?)]]; done.
Qed.

(** The same, for a step inside a longer run. *)
Lemma cooperative_value {A} (m : M S A) c k s a k' s' r s'' :
  cooperative m -> runs m s r s'' -> m c k s = (Ok a, k', s') -> r = Ok a /\ s'' = s'.
Proof.
  intros Hm Hr Heq. specialize (Hm c k s). rewrite Heq in Hm.
  destruct Hm as [_ [[_ Hn]|(?&?&?)]]; [|done].
  destruct (Hr k) as [k2 Hk2]. rewrite Hn in Hk2. by injection Hk2 as <- _ <-.
Qed.

(** *** [triple] *)
Lemma triple_weaken {A} (P P' : S -> Prop) (m : M S A) (Q Q' : Res A -> S -> Prop) :
  triple P m Q -> (forall s, P' s -> P s) -> (forall r s, Q r s -> Q' r s) -> triple P' m Q'.
Proof.
  intros Hm HP HQ c k s Hs. specialize (Hm c k s (HP s Hs)). destruct (m c k s) as [[r k'] s']. auto.
Qed.
Lemma triple_conj {A} (P : S -> Prop) (m : M S A) (Q1 Q2 : Res A -> S -> Prop) :
  triple P m Q1 -> triple P m Q2 -> triple P m (fun r s => Q1 r s /\ Q2 r s).
Proof.
  intros H1 H2 c k s Hs. specialize (H1 c k s Hs). specialize (H2 c k s Hs).
  by destruct (m c k s) as [[r k'] s'].
Qed.
Lemma triple_bind {A B} (P : S -> Prop) (m : M S A) (f : A -> M S B) (R : Res A -> S -> Prop)
    (Q : Res B -> S -> Prop) :
  triple P m R -> (forall a, triple (R (Ok a)) (f a) Q) ->
  (forall e s, R (Err e) s -> Q (Err e) s) -> triple P (mbind m f) Q.
Proof.
  intros Hm Hf He c k s Hs. specialize (Hm c k s Hs). unfold mbind.
  destruct (m c k s) as [[[a|e] k'] s']; [by apply Hf|by apply He].
Qed.
Lemma triple_ret {A} (P : S -> Prop) (a : A) (Q : Res A -> S -> Prop) :
  (forall s, P s -> Q (Ok a) s) -> triple P (mret a) Q.
Proof. intros H c k s Hs. by apply H. Qed.
Lemma triple_lift {A} (P : S -> Prop) (r : Res A) (Q : Res A -> S -> Prop) :
  (forall s, P s -> Q r s) -> triple P (mlift r) Q.
Proof. intros H c k s Hs. by apply H. Qed.
Lemma triple_fail {A} (P : S -> Prop) e (Q : Res A -> S -> Prop) :
  (forall s, P s -> Q (Err e) s) -> triple P (mfail e) Q.
Proof. intros H c k s Hs. by apply H. Qed.
Lemma triple_check (P : S -> Prop) : triple P check_control (fun _ => P).
Proof. intros c k s Hs. unfold check_control. by destruct (c k). Qed.
Lemma triple_modify (P : S -> Prop) f (Q : Res unit -> S -> Prop) :
  (forall s, P s -> Q (Ok tt) (f s)) -> triple P (mmodify f) Q.
Proof. intros H c k s Hs. by apply H. Qed.
Lemma triple_get (P : S -> Prop) : triple P mget (fun r s => P s /\ r = Ok s).
Proof. intros c k s Hs. done. Qed.
(** Polling first changes nothing. *)
Lemma triple_check_bind {B} (P : S -> Prop) (f : unit -> M S B) (Q : Res B -> S -> Prop) :
  triple P (f tt) Q -> (forall e s, P s -> Q (Err e) s) -> triple P (mbind check_control f) Q.
Proof.
  intros Hf He. eapply triple_bind; [apply triple_check| |auto]. by intros [].
Qed.
Lemma triple_for {A B} (body : B -> A -> M S B) (I : B -> list A -> S -> Prop) (E : GfmError -> S -> Prop) l :
  forall done_ acc,
  (forall b pre x, triple (I b pre) (body b x)
     (fun r s => match r with Ok b' => I b' (pre ++ [x]) s | Err e => E e s end)) ->
  triple (I acc done_) (mfor body acc l)
    (fun r s => match r with Ok b' => I b' (done_ ++ l) s | Err e => E e s end).
Proof.
  induction l as [|x l IH]; intros pre acc Hb; simpl.
  - apply triple_ret. intros s. by rewrite app_nil_r.
  - eapply triple_bind; [apply Hb| |done]. intros b. cbn.
    eapply triple_weaken; [apply (IH (pre ++ [x])); exact Hb|done|].
    intros [b'|e] s; [|done]. by rewrite <- app_assoc.
Qed.
Lemma triple_run {A} (P : S -> Prop) (m : M S A) (Q : Res A -> S -> Prop) c s r s' :
  triple P m Q -> P s -> run m c s = (r, s') -> Q r s'.
Proof.
  intros Hm Hs. unfold run. specialize (Hm c 0 s Hs). destruct (m c 0 s) as [[r' k] s1].
  by intros [= <- <-].
Qed.
End Lemmas.

#[export] Hint Resolve reads_ret reads_fail reads_lift reads_get reads_gets reads_check
  reads_poll reads_bind reads_for : ctl.
#[export] Hint Resolve infallible_ret infallible_put infallible_modify infallible_bind : ctl.
#[export] Hint Resolve cooperative_ret cooperative_fail cooperative_lift cooperative_get
  cooperative_gets cooperative_put cooperative_modify cooperative_check cooperative_bind
  cooperative_for : ctl.

(** [ctl_auto] proves [reads], [infallible] and [cooperative] goals by the
    structure of the computation, splitting on its conditionals. *)
Ltac ctl_step :=
  match goal with
  | |- forall _, _ => intro
  | |- context [ match ?x with _ => _ end ] =>
      lazymatch goal with
      | |- reads (match _ with _ => _ end) => destruct x
      | |- cooperative (match _ with _ => _ end) => destruct x
      | |- infallible (match _ with _ => _ end) => destruct x
      end
  | |- _ => progress (eauto with ctl nocore)
  | |- reads (mbind _ _) => apply reads_bind
  | |- reads (mfor _ _ _) => apply reads_for
  | |- infallible (mbind _ _) => apply infallible_bind
  | |- cooperative (mbind _ _) => apply cooperative_bind
  | |- cooperative (mfor _ _ _) => apply cooperative_for
  end.
Ltac ctl_auto := repeat ctl_step.

(** [runs_step] advances a [runs] goal over a primitive. *)
Ltac runs_step :=
  match goal with
  | |- runs (mbind (mbind _ _) _) _ _ _ => eapply runs_bind; [eapply runs_bind|]
  | |- runs (mbind check_control _) _ _ _ => eapply runs_bind; [apply runs_check|]
  | |- runs (mbind poll _) _ _ _ => eapply runs_bind; [apply runs_poll|]; cbv beta iota
  | |- runs (mbind mget _) _ _ _ => eapply runs_bind; [apply runs_get|]; cbv beta
  | |- runs (mbind (mgets _) _) _ _ _ => eapply runs_bind; [apply runs_gets|]; cbv beta
  | |- runs (mbind (mput _) _) _ _ _ => eapply runs_bind; [apply runs_put|]
  | |- runs (mbind (mmodify _) _) _ _ _ => eapply runs_bind; [apply runs_modify|]; cbv beta
  | |- runs (mbind (mret _) _) _ _ _ => eapply runs_bind; [apply runs_ret|]; cbv beta
  | |- runs check_control _ _ _ => apply runs_check
  | |- runs (mret _) _ _ _ => apply runs_ret
  | |- runs (mput _) _ _ _ => apply runs_put
  | |- runs (mmodify _) _ _ _ => apply runs_modify
  | |- runs (mfail _) _ _ _ => apply runs_fail
  | |- runs (mlift _) _ _ _ => apply runs_lift
  end.
Ltac runs_auto := repeat runs_step.

(** ** Computations of a value

    A computation that reads nothing and writes nothing of the state, and that
    returns [a] unless a poll stops it. *)
Record computes {S A} (m : M S A) (a : A) : Prop := {
  computes_runs s : runs m s (Ok a) s;
  computes_cooperative : cooperative m;
  computes_reads : reads m
}.

Section Computes.
Context {S : Type}.

Lemma computes_ret {A} (a : A) : computes (S := S) (mret a) a.
Proof. split; [intros s; apply runs_ret|apply cooperative_ret|apply reads_ret]. Qed.
Lemma computes_check : computes (S := S) check_control tt.
Proof. split; [intros s; apply runs_check|apply cooperative_check|apply reads_check]. Qed.
Lemma computes_bind {A B} (m : M S A) (f : A -> M S B) a b :
  computes m a -> computes (f a) b -> computes (mbind m f) b.
Proof.
  intros [Hr Hc Hd] [Hr' Hc' Hd']. split; [intros s; eapply runs_bind; done| |].
  - intros c k s. unfold mbind. specialize (Hc c k s) as Hck. destruct (m c k s) as [[r k1] s1] eqn:Hm.
    destruct Hck as [Hle [[Hn Hm1]|(e & -> & Hlt & Hk & Hn)]].
    + destruct (Hr s k) as [k2 Hk2]. rewrite Hm1 in Hk2. injection Hk2 as -> -> ->. specialize (Hc' c k2 s).
      rewrite Hm1. destruct (f a c k2 s) as [[r' k'] s'] eqn:Hf. destruct Hc' as [Hle' [[Hn' Hf']|(e & -> & Hlt' & Hk' & Hn')]].
      * split; [lia|]. left. split; [|done]. intros j Hj. destruct (decide (j < k2)); [apply Hn|apply Hn']; lia.
      * split; [lia|]. right. exists e. repeat split; [lia|done|]. intros j Hj. destruct (decide (j < k2)); [apply Hn|apply Hn']; lia.
    + split; [done|]. right. by exists e.
  - intros c k s. unfold mbind. specialize (Hd c k s) as Hs. destruct (m c k s) as [[[a'|e] k1] s1] eqn:Hm; cbn in *; [|done]. subst s1.
    destruct (cooperative_value m c k s a' k1 s (Ok a) s Hc (Hr s) Hm) as [[= ->] _]. apply Hd'.
Qed.
Lemma computes_for {A B} (body : B -> A -> M S B) (step : B -> A -> B) l : forall acc,
  (forall b x, computes (body b x) (step b x)) -> computes (mfor body acc l) (foldl step acc l).
Proof.
  induction l as [|x l IH]; intros acc Hb; cbn; [apply computes_ret|]. eapply computes_bind; [apply Hb|]. by apply IH.
Qed.
(** What it returned, whatever the closure says. *)
Lemma computes_value {A} (m : M S A) a c k s a' k' s' : computes m a -> m c k s = (Ok a', k', s') -> a' = a /\ s' = s.
Proof. intros [Hr Hc _] Hm. destruct (cooperative_value m c k s a' k' s' (Ok a) s Hc (Hr s) Hm) as [[= ->] ->]. done. Qed.
Lemma computes_run {A} (m : M S A) a s : computes m a -> run m never s = (Ok a, s).
Proof. intros [Hr _ _]. by apply runs_run. Qed.
Lemma computes_expect {A} (m : M S A) a s : computes m a -> expect m s = Some (a, s).
Proof. intros [Hr _ _]. by apply runs_expect. Qed.
End Computes.
#[export] Hint Resolve computes_ret computes_check : ctl.

(** ** What is certain of a value

    [settles]: as [computes], of a computation that may poll on after a failed poll.
    [ensures]: every value it can return has [P].  [completes]: it fails only when a poll
    does. *)
Record settles {S A} (m : M S A) (a : A) : Prop := {
  settles_runs s : runs m s (Ok a) s;
  settles_value c k s r k' s' : m c k s = (r, k', s') -> s' = s /\ forall b, r = Ok b -> b = a
}.
Definition ensures {S A} (m : M S A) (P : A -> Prop) : Prop := forall c k s a k' s', m c k s = (Ok a, k', s') -> P a.
Definition completes {S A} (m : M S A) : Prop := forall k s, exists a k' s', m never k s = (Ok a, k', s').

Section Certain.
Context {S : Type}.
Lemma computes_settles {A} (m : M S A) a : computes m a -> settles m a.
Proof.
  intros Hm. split; [apply Hm|]. intros c k s r k' s' E. destruct r as [b|e].
  - destruct (computes_value m a c k s b k' s' Hm E) as [-> ->]. split; [done|]. by intros ? [= <-].
  - split; [|done]. pose proof (computes_reads _ _ Hm c k s) as Hs. by rewrite E in Hs.
Qed.
Lemma settles_ret {A} (a : A) : settles (S := S) (mret a) a.
Proof. apply computes_settles, computes_ret. Qed.
Lemma settles_check : settles (S := S) check_control tt.
Proof. apply computes_settles, computes_check. Qed.
Lemma settles_bind {A B} (m : M S A) (f : A -> M S B) a b : settles m a -> settles (f a) b -> settles (mbind m f) b.
Proof.
  intros [Hr Hv] [Hr' Hv']. split; [intros s; eapply runs_bind; done|]. intros c k s r k' s'. unfold mbind.
  destruct (m c k s) as [[[a'|e] k1] s1] eqn:Em; destruct (Hv _ _ _ _ _ _ Em) as [-> Ha].
  - rewrite (Ha a' eq_refl). apply Hv'.
  - intros [= <- <- <-]. done.
Qed.
Lemma settles_for {A B} (body : B -> A -> M S B) (step : B -> A -> B) l : forall acc,
  (forall b x, settles (body b x) (step b x)) -> settles (mfor body acc l) (foldl step acc l).
Proof.
  induction l as [|x l IH]; intros acc Hb; cbn; [apply settles_ret|]. eapply settles_bind; [apply Hb|]. by apply IH.
Qed.
Lemma settles_ensures {A} (m : M S A) a (P : A -> Prop) : settles m a -> P a -> ensures m P.
Proof. intros [_ Hv] HP c k s b k' s' E. destruct (Hv _ _ _ _ _ _ E) as [_ Hb]. by rewrite (Hb b eq_refl). Qed.
Lemma settles_succeeds {A} (m : M S A) a : settles m a -> completes m.
Proof. intros [Hr _] k s. destruct (Hr s k) as [k' E]. by exists a, k', s. Qed.

Lemma ensures_ret {A} (a : A) (P : A -> Prop) : P a -> ensures (S := S) (mret a) P.
Proof. intros HP c k s b k' s' [= <- _ _]. done. Qed.
Lemma ensures_bind {A B} (m : M S A) (f : A -> M S B) (P : A -> Prop) (Q : B -> Prop) :
  ensures m P -> (forall a, P a -> ensures (f a) Q) -> ensures (mbind m f) Q.
Proof.
  intros Hm Hf c k s b k' s'. unfold mbind. destruct (m c k s) as [[[a|e] k1] s1] eqn:Em; [|done]. apply Hf. by apply (Hm _ _ _ _ _ _ Em).
Qed.
Lemma ensures_weaken {A} (m : M S A) (P Q : A -> Prop) : ensures m P -> (forall a, P a -> Q a) -> ensures m Q.
Proof. intros Hm HQ c k s a k' s' E. by apply HQ, (Hm _ _ _ _ _ _ E). Qed.
Lemma ensures_true {A} (m : M S A) : ensures m (fun _ => True).
Proof. done. Qed.
Lemma ensures_for {A B} (body : B -> A -> M S B) (I : B -> Prop) l : forall acc,
  I acc -> (forall b x, I b -> ensures (body b x) I) -> ensures (mfor body acc l) I.
Proof.
  induction l as [|x l IH]; intros acc HI Hb; cbn; [by apply ensures_ret|]. eapply ensures_bind; [by apply Hb|]. intros b HI'. by apply IH.
Qed.

Lemma completes_ret {A} (a : A) : completes (S := S) (mret a).
Proof. intros k s. by exists a, k, s. Qed.
Lemma completes_check : completes (S := S) check_control.
Proof. eapply settles_succeeds, settles_check. Qed.
Lemma completes_bind {A B} (m : M S A) (f : A -> M S B) : completes m -> (forall a, completes (f a)) -> completes (mbind m f).
Proof. intros Hm Hf k s. destruct (Hm k s) as (a & k1 & s1 & E). unfold mbind. rewrite E. apply Hf. Qed.
Lemma completes_for {A B} (body : B -> A -> M S B) l : forall acc, (forall b x, completes (body b x)) -> completes (mfor body acc l).
Proof. induction l as [|x l IH]; intros acc Hb; cbn; [apply completes_ret|]. apply completes_bind; [apply Hb|]. intros b. by apply IH. Qed.
End Certain.
#[export] Hint Resolve settles_ret settles_check ensures_ret ensures_true completes_ret completes_check : ctl.
