(* ===== verification/Cancel.v ===== *)
(** * Cancellation tokens ([crates/jobs/src/cancel.rs])

    A [Cancellation] is an [Arc] to a shared cell that holds a flag, a weak
    reference to its parent token and weak references to its children.  The
    store [Tokens] holds the cells under the address they were allocated at; the
    number of [Arc]s that point to a cell ([strong_count]) decides whether a
    [Weak] to it can be upgraded.  [cancel] walks down through the live
    children, [is_cancelled] walks up through the live parents. *)
From S2P Require Import Prelude Types Control.

Definition CHILD_PRUNE_FLOOR : N := 1024.

Record CancellationInner : Type := mkInner {
  cancelled : bool;
  parent : option nat;
  links : list nat;
  next_prune_len : N;
  strong : N
}.

Record Tokens : Type := mkTokens {
  tok_map : gmap nat CancellationInner;
  tok_next : nat
}.

Definition no_tokens : Tokens := mkTokens ∅ 0.

Definition inner (s : Tokens) (t : nat) : option CancellationInner := tok_map s !! t.
Definition set_inner (t : nat) (i : CancellationInner) (s : Tokens) : Tokens :=
  mkTokens (<[t := i]> (tok_map s)) (tok_next s).

(** [strong_count() > 0], that is, [Weak::upgrade] succeeds. *)
Definition live (s : Tokens) (t : nat) : Prop :=
  match inner s t with Some i => (0 < strong i)%N | None => False end.
#[export] Instance live_dec s t : Decision (live s t).
Proof. unfold live. destruct (inner s t); apply _. Defined.

Definition upgrade (s : Tokens) (w : option nat) : option nat :=
  match w with Some p => if decide (live s p) then Some p else None | None => None end.

Definition store_cancelled (t : nat) (s : Tokens) : Tokens :=
  mkTokens (alter (fun i => mkInner true (parent i) (links i) (next_prune_len i) (strong i)) t
    (tok_map s)) (tok_next s).

(** ** [CancellationChildren] *)
Definition reset_prune_threshold (ls : list nat) : N :=
  N.max (saturating_mul (saturating_add (N.of_nat (length ls)) 1) 2) CHILD_PRUNE_FLOOR.

Definition prune_if_needed (s : Tokens) (ls : list nat) (np : N) : list nat * N :=
  if (N.of_nat (length ls) <? np)%N then (ls, np)
  else let ls' := filter (live s) ls in (ls', reset_prune_threshold ls').

(** ** [Cancellation] *)

(** [impl Default for Cancellation]: a root token, held by one [Arc]. *)
Definition new_token (s : Tokens) : nat * Tokens :=
  (tok_next s, mkTokens (<[tok_next s := mkInner false None [] CHILD_PRUNE_FLOOR 1]> (tok_map s))
                 (S (tok_next s))).

(** Cloning and dropping a handle. *)
Definition with_strong (n : N) (i : CancellationInner) : CancellationInner :=
  mkInner (cancelled i) (parent i) (links i) (next_prune_len i) n.
Definition clone_token (t : nat) (s : Tokens) : Tokens :=
  mkTokens (alter (fun i => with_strong (strong i + 1) i) t (tok_map s)) (tok_next s).
Definition drop_token (t : nat) (s : Tokens) : Tokens :=
  mkTokens (alter (fun i => with_strong (strong i - 1) i) t (tok_map s)) (tok_next s).

(** The loop of [is_cancelled]: [Some observed] when a cancelled ancestor is
    found, with the ancestors passed on the way.  A parent is older than its
    children, so the address of the token bounds the walk. *)
Fixpoint walk_up (s : Tokens) (fuel : nat) (current : option nat) (observed : list nat)
    : option (list nat) :=
  match fuel, current with
  | S fuel', Some p =>
      match inner s p with
      | Some i =>
          if cancelled i then Some observed
          else walk_up s fuel' (upgrade s (parent i)) (observed ++ [p])
      | None => None
      end
  | _, _ => None
  end.

Definition is_cancelled (t : nat) (s : Tokens) : bool * Tokens :=
  match inner s t with
  | None => (false, s)
  | Some i =>
      if cancelled i then (true, s)
      else match walk_up s (S t) (upgrade s (parent i)) [] with
           | Some observed =>
               (true, foldl (fun s' p => store_cancelled p s') (store_cancelled t s) observed)
           | None => (false, s)
           end
  end.

(** [check]. *)
Definition check (t : nat) (s : Tokens) : Res unit * Tokens :=
  let '(b, s') := is_cancelled t s in ((if b then Err Cancelled else Ok tt), s').

(** [cancellation_children_to_cancel]. *)
Definition children_to_cancel (t : nat) (s : Tokens) : list nat * Tokens :=
  match inner s t with
  | None => ([], s)
  | Some i =>
      let lv := filter (live s) (links i) in
      (lv, set_inner t (mkInner true (parent i) lv (reset_prune_threshold lv) (strong i)) s)
  end.

(** The work-list loop of [cancel]; the head of the list is the top of the
    [Vec].  [None]: out of fuel. *)
Fixpoint cancel_loop (fuel : nat) (stack : list nat) (s : Tokens) : option Tokens :=
  match stack with
  | [] => Some s
  | x :: rest =>
      match fuel with
      | O => None
      | S fuel' =>
          let '(lv, s') := children_to_cancel x s in
          cancel_loop fuel' (reverse lv ++ rest) s'
      end
  end.

Definition cancel (t : nat) (s : Tokens) : option Tokens :=
  let '(lv, s') := children_to_cancel t s in
  cancel_loop (size (tok_map s)) (reverse lv) s'.

(** [child]. *)
Definition child (t : nat) (s : Tokens) : nat * Tokens :=
  let '(b, s1) := is_cancelled t s in
  let c := tok_next s1 in
  let s2 := mkTokens (<[c := mkInner b (Some t) [] CHILD_PRUNE_FLOOR 1]> (tok_map s1)) (S c) in
  match inner s2 t with
  | None => (c, s2)
  | Some i =>
      let '(ls, np) := prune_if_needed s2 (links i) (next_prune_len i) in
      (c, set_inner t (mkInner (cancelled i) (parent i) (ls ++ [c]) np (strong i)) s2)
  end.

(** ** Views of a store *)
Definition flag (s : Tokens) (t : nat) : bool :=
  match inner s t with Some i => cancelled i | None => false end.
Definition parent_of (s : Tokens) (t : nat) : option nat :=
  match inner s t with Some i => parent i | None => None end.
Definition links_of (s : Tokens) (t : nat) : list nat :=
  match inner s t with Some i => links i | None => [] end.

(** [ancestor s t a]: [a] is [t] or is reached from [t] by upgrading the parent
    references. *)
Inductive ancestor (s : Tokens) : nat -> nat -> Prop :=
  | ancestor_refl t : ancestor s t t
  | ancestor_step t p a :
      parent_of s t = Some p -> live s p -> ancestor s p a -> ancestor s t a.

(** What [is_cancelled] is meant to decide: a cancelled token is on the way up. *)
Definition cancelled_above (s : Tokens) (t : nat) : Prop :=
  exists a, ancestor s t a /\ flag s a = true.

(** The invariant of a store: addresses are allocated in order, a parent is
    older than its children, children lists are duplicate-free, agree with the
    parent references and miss no live child. *)
Record tok_wf (s : Tokens) : Prop := {
  wf_next t : is_Some (inner s t) -> t < tok_next s;
  wf_parent t p : parent_of s t = Some p -> p < t;
  wf_links_nodup t : NoDup (links_of s t);
  wf_links_parent t c : c ∈ links_of s t -> parent_of s c = Some t;
  wf_links_live t c : parent_of s c = Some t -> live s c -> is_Some (inner s t) ->
    c ∈ links_of s t
}.

(** Two stores with the same references: they differ at most in flags and in the
    bookkeeping of dead children. *)
Definition same_shape (s1 s2 : Tokens) : Prop :=
  tok_next s1 = tok_next s2 /\
  forall t, parent_of s1 t = parent_of s2 t /\ (live s1 t <-> live s2 t) /\
            (is_Some (inner s1 t) <-> is_Some (inner s2 t)).

#[export] Instance same_shape_equiv : Equivalence same_shape.
Proof.
  split.
  - intros s. split; [done|]. intros t. by repeat split.
  - intros s1 s2 [Hn H]. split; [done|]. intros t.
    destruct (H t) as (Hp & Hl & Hi). by rewrite Hp, Hl, Hi.
  - intros s1 s2 s3 [Hn H] [Hn' H']. split; [congruence|]. intros t.
    destruct (H t) as (Hp & Hl & Hi), (H' t) as (Hp' & Hl' & Hi').
    by rewrite Hp, Hl, Hi.
Qed.

Lemma ancestor_shape s1 s2 t a : same_shape s1 s2 -> ancestor s1 t a -> ancestor s2 t a.
Proof.
  intros [_ Hs]. induction 1 as [|t p a Hp Hl _ IH]; [constructor|].
  destruct (Hs t) as (Heq & _ & _). destruct (Hs p) as (_ & Hlp & _).
  econstructor; [by rewrite <- Heq|by apply Hlp|done].
Qed.

#[export] Instance ancestor_proper : Proper (same_shape ==> eq ==> eq ==> iff) ancestor.
Proof.
  intros s1 s2 Hs t ? <- a ? <-. split; apply ancestor_shape; [done|by symmetry].
Qed.

Lemma ancestor_trans s t u a : ancestor s t u -> ancestor s u a -> ancestor s t a.
Proof. induction 1; [done|]. intros. econstructor; eauto. Qed.

Lemma ancestor_le s t a : tok_wf s -> ancestor s t a -> a <= t.
Proof.
  intros Hwf. induction 1 as [|t p a Hp _ _ IH]; [done|].
  apply wf_parent in Hp; [lia|done].
Qed.

Lemma ancestor_inv s t a :
  ancestor s t a -> t = a \/ exists p, parent_of s t = Some p /\ live s p /\ ancestor s p a.
Proof. intros H. inversion H; subst; [by left|]. right. eauto. Qed.

(** ** Effects of the primitive steps *)

Lemma live_inner s t : live s t -> is_Some (inner s t).
Proof. unfold live. destruct (inner s t); [by eexists|done]. Qed.

Lemma inner_set_inner s t i u :
  inner (set_inner t i s) u = if decide (t = u) then Some i else inner s u.
Proof. unfold inner, set_inner. simpl. apply lookup_insert. Qed.

Lemma inner_store_cancelled s t u :
  inner (store_cancelled t s) u =
  (fun i => mkInner (if decide (t = u) then true else cancelled i) (parent i) (links i)
     (next_prune_len i) (strong i)) <$> inner s u.
Proof.
  unfold inner, store_cancelled. simpl. rewrite lookup_alter.
  case_decide as Ht; subst.
  - by destruct (tok_map s !! u).
  - by destruct (tok_map s !! u) as [[]|].
Qed.

Lemma store_cancelled_shape t s : same_shape (store_cancelled t s) s.
Proof.
  split; [done|]. intros u. unfold parent_of, live. rewrite inner_store_cancelled.
  destruct (inner s u); simpl; [|done]. split; [done|]. split; [done|].
  split; intros _; by eexists.
Qed.

Lemma store_cancelled_flag t s u :
  flag (store_cancelled t s) u = true <->
  flag s u = true \/ (u = t /\ is_Some (inner s t)).
Proof.
  unfold flag. rewrite inner_store_cancelled. destruct (inner s u) as [i|] eqn:Hu; simpl.
  - case_decide; subst; [|naive_solver]. rewrite Hu. naive_solver.
  - split; [done|]. intros [Hf | [-> Hf] ]; [done|]. rewrite Hu in Hf. by destruct Hf.
Qed.

Lemma store_cancelled_links t s u : links_of (store_cancelled t s) u = links_of s u.
Proof. unfold links_of. rewrite inner_store_cancelled. by destruct (inner s u). Qed.

(** A store of the same shape whose children lists miss no live child and keep
    only listed ones is well formed when the other is. *)
Lemma tok_wf_shape s s' :
  same_shape s' s ->
  (forall t, NoDup (links_of s' t)) ->
  (forall t c, c ∈ links_of s' t -> c ∈ links_of s t) ->
  (forall t c, c ∈ links_of s t -> live s c -> c ∈ links_of s' t) ->
  tok_wf s -> tok_wf s'.
Proof.
  intros [Hn Hs] Hnd Hsub Hkeep Hwf. split.
  - intros t Ht. rewrite Hn. apply (wf_next s Hwf). by apply Hs.
  - intros t p Hp. apply (wf_parent s Hwf). by rewrite <- (proj1 (Hs t)).
  - done.
  - intros t c Hc. rewrite (proj1 (Hs c)). by apply (wf_links_parent s Hwf), Hsub.
  - intros t c Hp Hl Ht. apply Hkeep; [|by apply Hs]. apply (wf_links_live s Hwf).
    + by rewrite <- (proj1 (Hs c)).
    + by apply Hs.
    + by apply Hs.
Qed.

Lemma store_cancelled_wf t s : tok_wf s -> tok_wf (store_cancelled t s).
Proof.
  intros Hwf. eapply tok_wf_shape; eauto using store_cancelled_shape;
    intros; rewrite ?store_cancelled_links in *; auto. by apply wf_links_nodup.
Qed.

Definition store_all (l : list nat) (s : Tokens) : Tokens :=
  foldl (fun s' p => store_cancelled p s') s l.

Lemma store_all_spec l : forall s,
  same_shape (store_all l s) s /\ (tok_wf s -> tok_wf (store_all l s)) /\
  forall u, flag (store_all l s) u = true <->
    flag s u = true \/ (u ∈ l /\ is_Some (inner s u)).
Proof.
  induction l as [|p l IH]; intros s; simpl.
  { split; [done|]. split; [done|]. intros u. set_solver. }
  destruct (IH (store_cancelled p s)) as (Hs & Hw & Hf).
  split; [etrans; [exact Hs|apply store_cancelled_shape]|].
  split; [intros; by apply Hw, store_cancelled_wf|]. intros u.
  change (foldl _ _ _) with (store_all l (store_cancelled p s)).
  rewrite Hf, store_cancelled_flag.
  pose proof (proj2 (store_cancelled_shape p s) u) as (_ & _ & Hi). rewrite Hi.
  rewrite elem_of_cons. naive_solver.
Qed.

Lemma upgrade_some s w p : upgrade s w = Some p <-> w = Some p /\ live s p.
Proof. destruct w; simpl; [|naive_solver]. case_decide; naive_solver. Qed.

(** [walk_up] finds a cancelled ancestor exactly when there is one, and passes
    only tokens that have one above them. *)
Lemma walk_up_some s fuel : forall cur obs res,
  walk_up s fuel cur obs = Some res ->
  exists p, cur = Some p /\ cancelled_above s p /\
    forall x, x ∈ res -> x ∈ obs \/ (cancelled_above s x /\ is_Some (inner s x)).
Proof.
  induction fuel as [|fuel IH]; intros [p|] obs res Hw; try done. simpl in Hw.
  destruct (inner s p) as [i|] eqn:Hp; [|done]. exists p. split; [done|].
  destruct (cancelled i) eqn:Hc.
  - injection Hw as <-. split; [|by left]. exists p. split; [constructor|].
    unfold flag. by rewrite Hp.
  - destruct (IH _ _ _ Hw) as (q & Hq & (a & Ha & Hfa) & Hobs).
    apply upgrade_some in Hq as [Hq Hl].
    assert (cancelled_above s p) as Habove.
    { exists a. split; [|done]. eapply ancestor_step; eauto. unfold parent_of. by rewrite Hp. }
    split; [done|]. intros x Hx. destruct (Hobs x Hx) as [Hx'|]; [|by right].
    apply elem_of_app in Hx' as [ | ->%list_elem_of_singleton]; [by left|].
    right. split; [done|]. by rewrite Hp.
Qed.

Lemma walk_up_none s fuel : tok_wf s -> forall cur obs p,
  cur = Some p -> p < fuel -> live s p -> walk_up s fuel cur obs = None ->
  ~ cancelled_above s p.
Proof.
  intros Hwf. induction fuel as [|fuel IH]; intros cur obs p -> Hlt Hl Hw (a & Ha & Hf); [lia|].
  simpl in Hw. destruct (live_inner _ _ Hl) as [i Hp]. rewrite Hp in Hw.
  destruct (cancelled i) eqn:Hc; [done|].
  apply ancestor_inv in Ha as [<-|(q & Hq & Hlq & Ha)].
  { unfold flag in Hf. rewrite Hp in Hf. congruence. }
  assert (parent i = Some q) as Hpi by (unfold parent_of in Hq; by rewrite Hp in Hq).
  assert (q < p) by (by apply (wf_parent s Hwf)).
  eapply IH; [| |exact Hlq|exact Hw|by exists a]; [|lia].
  rewrite Hpi. simpl. by rewrite decide_True.
Qed.

(** ** [is_cancelled] *)

Lemma is_cancelled_decides s t :
  tok_wf s -> is_Some (inner s t) -> (is_cancelled t s).1 = true <-> cancelled_above s t.
Proof.
  intros Hwf [i Hi]. unfold is_cancelled. rewrite Hi. destruct (cancelled i) eqn:Hc; cbn [fst].
  { split; [|done]. intros _. exists t. split; [constructor|]. unfold flag. by rewrite Hi. }
  assert (parent_of s t = parent i) as Hpar by (unfold parent_of; by rewrite Hi).
  destruct (walk_up s (S t) (upgrade s (parent i)) []) as [obs|] eqn:Hw; cbn [fst].
  - split; [|done]. intros _. destruct (walk_up_some _ _ _ _ _ Hw) as (p & Hp & (a & Ha & Hf) & _).
    apply upgrade_some in Hp as [Hp Hl]. exists a. split; [|done].
    eapply ancestor_step; eauto. by rewrite Hpar.
  - split; [done|]. intros (a & Ha & Hf). exfalso.
    apply ancestor_inv in Ha as [<-|(p & Hp & Hl & Ha)].
    { unfold flag in Hf. rewrite Hi in Hf. congruence. }
    assert (p < t) by (by apply (wf_parent s Hwf)).
    refine (walk_up_none s (S t) Hwf _ _ p _ _ Hl Hw _); [|lia|by exists a].
    apply upgrade_some. split; [congruence|done].
Qed.

(** The flags it caches on the path change no answer. *)
Lemma is_cancelled_effect s t :
  tok_wf s ->
  same_shape (is_cancelled t s).2 s /\ tok_wf (is_cancelled t s).2 /\
  forall u, flag (is_cancelled t s).2 u = true ->
    flag s u = true \/ (cancelled_above s u /\ is_Some (inner s u)).
Proof.
  intros Hwf.
  assert (Hid : same_shape s s /\ tok_wf s /\ forall u, flag s u = true ->
    flag s u = true \/ (cancelled_above s u /\ is_Some (inner s u))).
  { split; [reflexivity|]. split; [done|]. by left. }
  unfold is_cancelled. destruct (inner s t) as [i|] eqn:Hi; [|done].
  destruct (cancelled i) eqn:Hc; [done|].
  destruct (walk_up s (S t) (upgrade s (parent i)) []) as [obs|] eqn:Hw; cbn [snd]; [|done].
  destruct (walk_up_some _ _ _ _ _ Hw) as (p & Hp & (a & Ha & Hfa) & Hobs).
  apply upgrade_some in Hp as [Hp Hl].
  destruct (store_all_spec obs (store_cancelled t s)) as (Hs & Hww & Hf).
  split; [etrans; [exact Hs|apply store_cancelled_shape]|].
  split; [by apply Hww, store_cancelled_wf|]. intros u Hu.
  apply Hf in Hu as [Hu|[Hu _]].
  - apply store_cancelled_flag in Hu as [Hu|[-> Hu]]; [by left|]. right. split; [|done].
    exists a. split; [|done]. eapply ancestor_step; eauto. unfold parent_of. by rewrite Hi.
  - destruct (Hobs u Hu) as [Hu1|Hu1]; [set_solver|by right].
Qed.

Lemma is_cancelled_flag_mono s t u : flag s u = true -> flag (is_cancelled t s).2 u = true.
Proof.
  intros Hu. unfold is_cancelled. destruct (inner s t) as [i|]; [|done].
  destruct (cancelled i); [done|].
  destruct (walk_up _ _ _ _) as [obs|]; cbn [snd]; [|done].
  apply (store_all_spec obs (store_cancelled t s)). left. apply store_cancelled_flag. by left.
Qed.

(** The answers of [is_cancelled] are what [cancelled_above] says, before and
    after a store update that only caches flags of tokens already cancelled
    from above. *)
Lemma cancelled_above_cached s s' u :
  same_shape s' s ->
  (forall x, flag s x = true -> flag s' x = true) ->
  (forall x, flag s' x = true -> flag s x = true \/ cancelled_above s x) ->
  cancelled_above s' u <-> cancelled_above s u.
Proof.
  intros Hs Hmono Hnew. split; intros (a & Ha & Hf).
  - apply (ancestor_shape _ _ _ _ Hs) in Ha.
    destruct (Hnew a Hf) as [?|(b & Hb & Hfb)]; [by exists a|].
    exists b. split; [by eapply ancestor_trans|done].
  - apply (ancestor_shape s s') in Ha; [|by symmetry]. exists a. eauto.
Qed.

(** ** [cancel] *)

Lemma filter_live_elem s (ls : list nat) c : c ∈ filter (live s) ls <-> live s c /\ c ∈ ls.
Proof. apply list_elem_of_filter. Qed.

Lemma set_inner_shape t i i' s :
  inner s t = Some i -> parent i' = parent i -> strong i' = strong i ->
  same_shape (set_inner t i' s) s.
Proof.
  intros Hi Hp Hst. split; [done|]. intros u. unfold parent_of, live.
  rewrite inner_set_inner. case_decide; subst; [|done]. rewrite Hi, Hp, Hst.
  split; [done|]. split; [done|]. split; intros; by eexists.
Qed.

(** One step of the walk: the token is flagged, its list keeps exactly the live
    children, which are returned. *)
Lemma children_to_cancel_spec t s lv s' :
  is_Some (inner s t) -> tok_wf s -> children_to_cancel t s = (lv, s') ->
  same_shape s' s /\ tok_wf s' /\ NoDup lv /\
  (forall c, c ∈ lv <-> live s c /\ c ∈ links_of s t) /\
  (forall u, flag s' u = true <-> flag s u = true \/ u = t).
Proof.
  intros [i Hi] Hwf. unfold children_to_cancel. rewrite Hi. intros [= <- <-].
  assert (Hlk : links_of s t = links i) by (unfold links_of; by rewrite Hi).
  set (i' := mkInner true _ _ _ _).
  assert (Hs : same_shape (set_inner t i' s) s) by (by eapply set_inner_shape).
  assert (Hl : forall u, links_of (set_inner t i' s) u =
     if decide (t = u) then filter (live s) (links i) else links_of s u).
  { intros u. unfold links_of. rewrite inner_set_inner. by case_decide. }
  assert (NoDup (filter (live s) (links i))) as Hnd.
  { apply NoDup_filter. rewrite <- Hlk. by apply wf_links_nodup. }
  split_and!; [done| |done| |].
  - eapply tok_wf_shape; [done| | | |done]; intros u.
    + rewrite Hl. case_decide; [done|by apply wf_links_nodup].
    + intros c. rewrite Hl. case_decide; subst; [|done].
      rewrite filter_live_elem, Hlk. by intros [_ ?].
    + intros c Hc Hlc. rewrite Hl. case_decide; subst; [|done].
      rewrite filter_live_elem, <- Hlk. done.
  - intros c. by rewrite filter_live_elem, Hlk.
  - intros u. unfold flag. rewrite inner_set_inner. case_decide; subst; [|naive_solver].
    rewrite Hi. naive_solver.
Qed.

(** The invariant of the walk from [t]: [V] are the tokens already flagged. *)
Record walk_inv (s0 : Tokens) (t : nat) (V stack : list nat) (s : Tokens) : Prop := {
  wi_shape : same_shape s s0;
  wi_wf : tok_wf s;
  wi_root : t ∈ V;
  wi_below x : x ∈ V ++ stack -> ancestor s0 x t /\ live s0 x;
  wi_nodup : NoDup (V ++ stack);
  wi_parent y : y ∈ V ++ stack -> y <> t -> exists p, parent_of s0 y = Some p /\ p ∈ V;
  wi_closed p c : p ∈ V -> parent_of s0 c = Some p -> live s0 c -> c ∈ V ++ stack;
  wi_flags x : flag s x = true <-> flag s0 x = true \/ x ∈ V
}.

Lemma same_shape_live s1 s2 t : same_shape s1 s2 -> live s1 t <-> live s2 t.
Proof. intros [_ H]. apply H. Qed.
Lemma same_shape_parent s1 s2 t : same_shape s1 s2 -> parent_of s1 t = parent_of s2 t.
Proof. intros [_ H]. apply H. Qed.

Lemma walk_inv_step s0 t V x rest s lv s' :
  tok_wf s0 ->
  walk_inv s0 t V (x :: rest) s -> children_to_cancel x s = (lv, s') ->
  walk_inv s0 t (x :: V) (reverse lv ++ rest) s'.
Proof.
  intros Hwf0 Hinv Hch. destruct Hinv as [Hsh Hwf Hroot Hbelow Hnd Hpar Hcl Hfl].
  destruct (Hbelow x) as [Hax Hlx]; [set_solver|].
  assert (live s x) as Hlsx by (by rewrite (same_shape_live _ _ _ Hsh)).
  destruct (children_to_cancel_spec x s lv s' (live_inner _ _ Hlsx) Hwf Hch)
    as (Hsh' & Hwf' & Hndl & Hlv & Hfl').
  assert (Hlv0 : forall c, c ∈ lv <-> live s0 c /\ parent_of s0 c = Some x).
  { intros c. rewrite Hlv, (same_shape_live _ _ c Hsh), <- (same_shape_parent _ _ c Hsh).
    split; intros [Hl Hp]; (split; [done|]).
    - by apply (wf_links_parent s Hwf).
    - apply (wf_links_live s Hwf); [done| |by apply live_inner].
      by rewrite (same_shape_live _ _ c Hsh). }
  assert (x ∉ V) as HxV.
  { intros HxV. apply NoDup_app in Hnd as (_ & Hd & _). eapply Hd; [exact HxV|set_solver]. }
  assert (Hnew : forall c, c ∈ lv -> c ∉ V ++ x :: rest).
  { intros c Hc Hin. apply Hlv0 in Hc as [Hlc Hpc].
    assert (x < c) by (by apply (wf_parent s0 Hwf0)).
    assert (t <= x) by (by apply (ancestor_le s0)).
    destruct (Hpar c Hin ltac:(lia)) as (p & Hp & HpV). congruence. }
  assert (Hmem : forall y, y ∈ (x :: V) ++ reverse lv ++ rest <-> y ∈ lv \/ y ∈ V ++ x :: rest).
  { intros y. rewrite <- app_comm_cons, !elem_of_cons, !elem_of_app, elem_of_reverse, elem_of_cons.
    tauto. }
  split.
  - by etrans.
  - done.
  - set_solver.
  - intros y Hy. destruct (decide (y ∈ lv)) as [Hyl|Hyl].
    + apply Hlv0 in Hyl as [Hly Hpy]. split; [|done]. by eapply ancestor_step.
    + apply Hbelow. apply Hmem in Hy. tauto.
  - rewrite <- app_comm_cons. apply NoDup_cons. split.
    + rewrite !elem_of_app, elem_of_reverse. intros [?|[?|?]]; [done| |].
      * eapply Hnew; [done|set_solver].
      * apply NoDup_app in Hnd as (_ & _ & Hnd). by apply NoDup_cons in Hnd as [? _].
    + rewrite (reverse_Permutation lv). rewrite app_assoc, (Permutation_app_comm V lv), <- app_assoc.
      apply NoDup_app. split; [done|]. split; [intros c Hc Hc'; eapply Hnew; [exact Hc|set_solver]|].
      rewrite <- Permutation_middle in Hnd. by apply NoDup_cons in Hnd as [_ ?].
  - intros y Hy Hyt. destruct (decide (y ∈ lv)) as [Hyl|Hyl].
    + apply Hlv0 in Hyl as [_ Hpy]. exists x. split; [done|set_solver].
    + destruct (Hpar y) as (p & Hp & HpV); [|done|exists p; set_solver].
      apply Hmem in Hy. tauto.
  - intros p c Hp Hpc Hlc. apply Hmem. apply elem_of_cons in Hp as [->|Hp].
    + left. by apply Hlv0.
    + right. by eapply Hcl.
  - intros u. rewrite Hfl', Hfl, elem_of_cons. tauto.
Qed.

Lemma walk_inv_size s0 t V stack s :
  walk_inv s0 t V stack s -> length (V ++ stack) <= size (tok_map s0).
Proof.
  intros Hinv. rewrite <- (size_dom (D := gset nat)), <- (size_list_to_set (C := gset nat)).
  2:{ apply (wi_nodup _ _ _ _ _ Hinv). }
  apply subseteq_size. intros x Hx%elem_of_list_to_set. apply elem_of_dom.
  apply live_inner. by apply (wi_below _ _ _ _ _ Hinv).
Qed.

(** The walk ends, with every live descendant of [t] flagged. *)
Lemma cancel_loop_spec s0 t fuel : tok_wf s0 -> forall V stack s,
  walk_inv s0 t V stack s -> size (tok_map s0) <= fuel + length V ->
  exists s' V', cancel_loop fuel stack s = Some s' /\ walk_inv s0 t V' [] s'.
Proof.
  intros Hwf0. induction fuel as [|fuel IH]; intros V [|x rest] s Hinv Hf; simpl; eauto.
  - exfalso. pose proof (walk_inv_size _ _ _ _ _ Hinv) as Hsz.
    rewrite length_app in Hsz. simpl in *. lia.
  - destruct (children_to_cancel x s) as [lv s'] eqn:Hch.
    eapply (IH (x :: V)); [by eapply walk_inv_step|simpl; lia].
Qed.

Lemma cancel_walk t s :
  tok_wf s -> live s t -> exists s' V, cancel t s = Some s' /\ walk_inv s t V [] s'.
Proof.
  intros Hwf Hl. unfold cancel. destruct (children_to_cancel t s) as [lv s1] eqn:Hch.
  destruct (children_to_cancel_spec t s lv s1 (live_inner _ _ Hl) Hwf Hch)
    as (Hsh & Hwf1 & Hnd & Hlv & Hfl).
  assert (Hlv0 : forall c, c ∈ lv <-> live s c /\ parent_of s c = Some t).
  { intros c. rewrite Hlv. split; intros [Hlc Hp]; (split; [done|]).
    - by apply (wf_links_parent s Hwf).
    - apply (wf_links_live s Hwf); [done|done|by apply live_inner]. }
  apply (cancel_loop_spec s t _ Hwf [t]); [|simpl; lia].
  assert (Hmem : forall y, y ∈ [t] ++ reverse lv <-> y = t \/ y ∈ lv).
  { intros y. by rewrite elem_of_app, list_elem_of_singleton, elem_of_reverse. }
  split; try done.
  - set_solver.
  - intros x [->|[Hlx Hp]%Hlv0]%Hmem.
    + split; [constructor|done].
    + split; [|done]. eapply ancestor_step; [done|done|constructor].
  - apply NoDup_cons. split; [|by rewrite (reverse_Permutation lv)].
    rewrite elem_of_reverse. intros [_ Hp]%Hlv0. pose proof (wf_parent s Hwf _ _ Hp). lia.
  - intros y [->|[_ Hp]%Hlv0]%Hmem; [done|]. intros _. exists t. set_solver.
  - intros p c ->%list_elem_of_singleton Hp Hlc. apply Hmem. right. by apply Hlv0.
  - intros u. rewrite Hfl. set_solver.
Qed.

(** Everything live below [t] is reached. *)
Lemma walk_inv_complete s0 t V s u :
  walk_inv s0 t V [] s -> live s0 u -> ancestor s0 u t -> u ∈ V.
Proof.
  intros Hinv Hl Ha. revert Hl Hinv.
  induction Ha as [|u p a Hp Hlp _ IH]; intros Hl Hinv; [apply (wi_root _ _ _ _ _ Hinv)|].
  specialize (IH Hlp Hinv). pose proof (wi_closed _ _ _ _ _ Hinv p u IH Hp Hl) as Hin.
  by rewrite app_nil_r in Hin.
Qed.

(** ** Allocation and handles preserve the invariant *)

Lemma fresh_inner s : tok_wf s -> inner s (tok_next s) = None.
Proof.
  intros Hwf. destruct (inner s (tok_next s)) eqn:H; [|done].
  pose proof (wf_next s Hwf (tok_next s) ltac:(by rewrite H)). lia.
Qed.

Lemma parent_of_some s c p : parent_of s c = Some p -> is_Some (inner s c).
Proof. unfold parent_of. by destruct (inner s c). Qed.

Lemma new_token_wf s : tok_wf s -> tok_wf (new_token s).2.
Proof.
  intros Hwf. pose proof (fresh_inner s Hwf) as Hfr.
  assert (Hin : forall u, inner (new_token s).2 u =
    if decide (tok_next s = u) then Some (mkInner false None [] CHILD_PRUNE_FLOOR 1)
    else inner s u) by (intros u; unfold inner; simpl; apply lookup_insert).
  assert (Hp : forall u, parent_of (new_token s).2 u = parent_of s u).
  { intros u. unfold parent_of. rewrite Hin. case_decide; subst; [by rewrite Hfr|done]. }
  assert (Hl : forall u, links_of (new_token s).2 u = links_of s u).
  { intros u. unfold links_of. rewrite Hin. case_decide; subst; [by rewrite Hfr|done]. }
  split.
  - intros u Hu. simpl. destruct (decide (tok_next s = u)); [lia|].
    rewrite Hin, decide_False in Hu by done. pose proof (wf_next s Hwf u Hu). lia.
  - intros u p. rewrite Hp. by apply wf_parent.
  - intros u. rewrite Hl. by apply wf_links_nodup.
  - intros u c. rewrite Hl, Hp. by apply wf_links_parent.
  - intros u c. rewrite Hl, Hp. intros Hpc Hlc Hu. pose proof (parent_of_some _ _ _ Hpc) as Hc.
    assert (u < c) by (by apply (wf_parent s Hwf)). pose proof (wf_next s Hwf c Hc).
    apply (wf_links_live s Hwf); [done| |].
    + unfold live in *. rewrite Hin, decide_False in Hlc by lia. done.
    + rewrite Hin, decide_False in Hu by lia. done.
Qed.

Lemma inner_alter (f : CancellationInner -> CancellationInner) t s u :
  inner (mkTokens (alter f t (tok_map s)) (tok_next s)) u =
  if decide (t = u) then f <$> inner s u else inner s u.
Proof. unfold inner. simpl. rewrite lookup_alter. by case_decide; subst. Qed.

(** Changing one reference count, upwards or downwards from a positive one. *)
Lemma with_strong_wf (f : N -> N) t s :
  (live s t \/ forall n, f n = 0%N \/ (0 < n)%N) -> tok_wf s ->
  tok_wf (mkTokens (alter (fun i => with_strong (f (strong i)) i) t (tok_map s)) (tok_next s)).
Proof.
  intros Hf Hwf.
  assert (Hp : forall u, parent_of (mkTokens (alter (fun i => with_strong (f (strong i)) i) t
    (tok_map s)) (tok_next s)) u = parent_of s u).
  { intros u. unfold parent_of. rewrite inner_alter. case_decide; subst; [|done].
    by destruct (inner s u). }
  assert (Hl : forall u, links_of (mkTokens (alter (fun i => with_strong (f (strong i)) i) t
    (tok_map s)) (tok_next s)) u = links_of s u).
  { intros u. unfold links_of. rewrite inner_alter. case_decide; subst; [|done].
    by destruct (inner s u). }
  assert (Hi : forall u, is_Some (inner (mkTokens (alter (fun i => with_strong (f (strong i)) i) t
    (tok_map s)) (tok_next s)) u) -> is_Some (inner s u)).
  { intros u. rewrite inner_alter. case_decide; subst; [|done]. by rewrite fmap_is_Some. }
  split.
  - intros u Hu%Hi. by apply (wf_next s Hwf).
  - intros u p. rewrite Hp. by apply wf_parent.
  - intros u. rewrite Hl. by apply wf_links_nodup.
  - intros u c. rewrite Hl, Hp. by apply wf_links_parent.
  - intros u c. rewrite Hl, Hp. intros Hpc Hlc Hu%Hi. apply (wf_links_live s Hwf); [done| |done].
    unfold live in *. rewrite inner_alter in Hlc. case_decide; subst; [|done].
    destruct (inner s c) as [i|]; simpl in *; [|done].
    destruct Hf as [Hf|Hf]; [done|]. destruct (Hf (strong i)) as [Hz|]; [|done].
    rewrite Hz in Hlc. lia.
Qed.

Lemma clone_token_wf t s : live s t -> tok_wf s -> tok_wf (clone_token t s).
Proof. intros Hl. apply (with_strong_wf (fun n => n + 1)%N). by left. Qed.

Lemma drop_token_wf t s : tok_wf s -> tok_wf (drop_token t s).
Proof. apply (with_strong_wf (fun n => n - 1)%N). right. lia. Qed.

(** ** [child] *)

Lemma prune_if_needed_spec s ls np :
  let r := prune_if_needed s ls np in
  (NoDup ls -> NoDup r.1) /\ (forall c, c ∈ r.1 -> c ∈ ls) /\
  (forall c, c ∈ ls -> live s c -> c ∈ r.1).
Proof.
  unfold prune_if_needed. destruct (_ <? _)%N; simpl; [by auto|].
  split; [apply NoDup_filter|]. split; intros c; rewrite filter_live_elem; tauto.
Qed.

(** The views of the store [child] leaves. *)
Lemma child_views t s c s' :
  tok_wf s -> live s t -> child t s = (c, s') ->
  let s1 := (is_cancelled t s).2 in
  c = tok_next s /\ tok_next s' = S c /\ t < c /\
  (forall u, is_Some (inner s' u) <-> u = c \/ is_Some (inner s1 u)) /\
  (forall u, parent_of s' u = if decide (u = c) then Some t else parent_of s1 u) /\
  (forall u, live s' u <-> u = c \/ live s1 u) /\
  (forall u, flag s' u = if decide (u = c) then (is_cancelled t s).1 else flag s1 u) /\
  exists ls, (forall u, links_of s' u =
      if decide (u = t) then ls ++ [c] else if decide (u = c) then [] else links_of s1 u) /\
    NoDup ls /\ (forall x, x ∈ ls -> x ∈ links_of s1 t) /\
    (forall x, x ∈ links_of s1 t -> live s1 x -> x ∈ ls).
Proof.
  intros Hwf Hl. unfold child.
  destruct (is_cancelled_effect s t Hwf) as (Hsh & Hwf1 & _).
  destruct (is_cancelled t s) as [b s1]. cbn [fst snd] in *.
  assert (Hnext : tok_next s1 = tok_next s) by apply Hsh.
  apply (same_shape_live _ _ t Hsh) in Hl. destruct (live_inner _ _ Hl) as [i Hi].
  assert (t < tok_next s1) as Hlt by (apply (wf_next s1 Hwf1); by rewrite Hi).
  pose proof (fresh_inner s1 Hwf1) as Hfr.
  set (s2 := mkTokens (<[tok_next s1 := _]> _) _).
  assert (Hin2 : forall u, inner s2 u = if decide (tok_next s1 = u)
      then Some (mkInner b (Some t) [] CHILD_PRUNE_FLOOR 1) else inner s1 u)
    by (intros u; apply lookup_insert).
  rewrite Hin2, decide_False by lia. rewrite Hi.
  destruct (prune_if_needed_spec s2 (links i) (next_prune_len i)) as (Hnd & Hsub & Hkeep).
  destruct (prune_if_needed s2 (links i) (next_prune_len i)) as [ls np]. cbn [fst] in *.
  intros [= <- <-].
  assert (Hlk : links_of s1 t = links i) by (unfold links_of; by rewrite Hi).
  set (it := mkInner (cancelled i) (parent i) (ls ++ [tok_next s1]) np (strong i)).
  assert (Hin : forall u, inner (set_inner t it s2) u =
    if decide (u = t) then Some it else if decide (u = tok_next s1)
      then Some (mkInner b (Some t) [] CHILD_PRUNE_FLOOR 1) else inner s1 u).
  { intros u. rewrite inner_set_inner, Hin2. repeat case_decide; congruence. }
  split_and!; [done|simpl; congruence|done| | | | |].
  - intros u. rewrite Hin. repeat case_decide; subst; rewrite ?Hi, ?is_Some_alt; naive_solver.
  - intros u. unfold parent_of. rewrite Hin. repeat case_decide; subst; try lia; rewrite ?Hi; done.
  - intros u. unfold live. rewrite Hin. unfold live in Hl.
    repeat case_decide; subst; try lia; rewrite ?Hi in *; simpl; naive_solver lia.
  - intros u. unfold flag. rewrite Hin. repeat case_decide; subst; try lia; rewrite ?Hi; done.
  - exists ls. split_and!.
    + intros u. unfold links_of. rewrite Hin. by repeat case_decide.
    + apply Hnd. rewrite <- Hlk. by apply wf_links_nodup.
    + intros x Hx. rewrite Hlk. by apply Hsub.
    + intros x. rewrite Hlk. intros Hx Hlx. apply Hkeep; [done|].
      unfold live. rewrite Hin2. by case_decide.
Qed.

Lemma child_wf t s c s' : tok_wf s -> live s t -> child t s = (c, s') -> tok_wf s'.
Proof.
  intros Hwf Hl Hch.
  destruct (child_views t s c s' Hwf Hl Hch) as
    (Hc & Hnext & Hlt & Hin & Hpar & Hlive & _ & ls & Hlinks & Hnd & Hsub & Hkeep).
  destruct (is_cancelled_effect s t Hwf) as (Hsh & Hwf1 & _).
  revert Hin Hpar Hlive Hlinks Hsub Hkeep Hsh Hwf1. generalize ((is_cancelled t s).2).
  intros s1 Hin Hpar Hlive Hlinks Hsub Hkeep Hsh Hwf1.
  assert (Hn1 : tok_next s1 = c) by (rewrite Hc; apply Hsh).
  pose proof (fresh_inner s1 Hwf1) as Hfr. rewrite Hn1 in Hfr.
  assert (Hold : forall x p, parent_of s1 x = Some p -> x <> c).
  { intros x p Hx ->. apply parent_of_some in Hx. rewrite Hfr in Hx. by destruct Hx. }
  split.
  - intros u [->|Hu]%Hin; [lia|]. pose proof (wf_next s1 Hwf1 u Hu). lia.
  - intros u p. rewrite Hpar. case_decide as Hu; [intros [= <-]; lia|by apply wf_parent].
  - intros u. rewrite Hlinks. repeat case_decide; [|constructor|by apply wf_links_nodup].
    apply NoDup_filter_snoc; [done|]. intros Hx%Hsub%(wf_links_parent s1 Hwf1).
    by apply Hold in Hx.
  - intros u x. rewrite Hlinks, Hpar. case_decide as Hu; subst.
    + rewrite elem_of_app, list_elem_of_singleton. intros [Hx | ->]; [|by rewrite decide_True].
      apply Hsub, (wf_links_parent s1 Hwf1) in Hx. rewrite decide_False; eauto.
    + case_decide; [set_solver|]. intros Hx%(wf_links_parent s1 Hwf1).
      rewrite decide_False; eauto.
  - intros u x. rewrite Hpar, Hlive, Hin, Hlinks. case_decide as Hx.
    + subst x. intros [= <-] _ _. rewrite decide_True by done. set_solver.
    + intros Hp [?|Hlx] Hu; [done|]. pose proof (parent_of_some _ _ _ Hp) as Hsx.
      pose proof (wf_parent s1 Hwf1 _ _ Hp). pose proof (wf_next s1 Hwf1 x Hsx).
      destruct Hu as [->|Hu]; [lia|].
      pose proof (wf_links_live s1 Hwf1 u x Hp Hlx Hu) as Hlk.
      case_decide; subst; [|by rewrite decide_False by lia].
      apply elem_of_app. left. by apply Hkeep.
Qed.

(** ** The life of a store

    Handles are created, cloned and dropped in any order; an operation needs a
    live handle. *)
Inductive token_op : Type :=
  | OpNew
  | OpClone (t : nat)
  | OpDrop (t : nat)
  | OpChild (t : nat)
  | OpIsCancelled (t : nat)
  | OpCancel (t : nat).

Definition token_step (o : token_op) (s : Tokens) : option Tokens :=
  match o with
  | OpNew => Some (new_token s).2
  | OpClone t => if decide (live s t) then Some (clone_token t s) else None
  | OpDrop t => if decide (live s t) then Some (drop_token t s) else None
  | OpChild t => if decide (live s t) then Some (child t s).2 else None
  | OpIsCancelled t => if decide (live s t) then Some (is_cancelled t s).2 else None
  | OpCancel t => if decide (live s t) then cancel t s else None
  end.

Inductive token_steps : Tokens -> Tokens -> Prop :=
  | token_steps_refl s : token_steps s s
  | token_steps_step o s1 s2 s3 :
      token_step o s1 = Some s2 -> token_steps s2 s3 -> token_steps s1 s3.

Lemma no_tokens_wf : tok_wf no_tokens.
Proof.
  split; intros t; unfold parent_of, links_of, inner; simpl; rewrite ?lookup_empty.
  - intros [? ?]; done.
  - done.
  - constructor.
  - set_solver.
  - intros c. by rewrite lookup_empty.
Qed.

Lemma token_step_wf o s s' : tok_wf s -> token_step o s = Some s' -> tok_wf s'.
Proof.
  intros Hwf. destruct o as [|t|t|t|t|t]; simpl; [intros [= <-]; by apply new_token_wf|..];
    case_decide as Hl; try done.
  - intros [= <-]. by apply clone_token_wf.
  - intros [= <-]. by apply drop_token_wf.
  - destruct (child t s) as [c s1] eqn:Hch. intros [= <-]. by eapply child_wf.
  - intros [= <-]. by apply (is_cancelled_effect s t).
  - destruct (cancel_walk t s Hwf Hl) as (s1 & V & -> & Hinv). intros [= <-].
    apply (wi_wf _ _ _ _ _ Hinv).
Qed.

Lemma token_steps_wf s s' : tok_wf s -> token_steps s s' -> tok_wf s'.
Proof. intros Hwf. induction 1; eauto using token_step_wf. Qed.

Lemma with_strong_flag f t s u :
  flag (mkTokens (alter (fun i => with_strong (f i) i) t (tok_map s)) (tok_next s)) u = flag s u.
Proof.
  unfold flag. rewrite inner_alter. case_decide; subst; [|done]. by destruct (inner s u).
Qed.

Lemma token_step_sticky o s s' u :
  tok_wf s -> token_step o s = Some s' -> flag s u = true -> flag s' u = true.
Proof.
  intros Hwf Hst Hf. assert (u <> tok_next s) as Hne.
  { intros ->. unfold flag in Hf. by rewrite fresh_inner in Hf. }
  destruct o as [|t|t|t|t|t]; cbn [token_step] in Hst; try (case_decide as Hl; [|done]).
  - injection Hst as <-. unfold flag, inner. simpl. by rewrite lookup_insert_ne.
  - injection Hst as <-. unfold clone_token. by rewrite with_strong_flag.
  - injection Hst as <-. unfold drop_token. by rewrite with_strong_flag.
  - destruct (child t s) as [c s1] eqn:Hch. injection Hst as <-.
    destruct (child_views t s c s1 Hwf Hl Hch) as (-> & _ & _ & _ & _ & _ & Hfl & _).
    simpl. rewrite Hfl, decide_False by done. by apply is_cancelled_flag_mono.
  - injection Hst as <-. by apply is_cancelled_flag_mono.
  - destruct (cancel_walk t s Hwf Hl) as (s1 & V & Hc & Hinv). rewrite Hc in Hst.
    injection Hst as <-. apply (wi_flags _ _ _ _ _ Hinv). by left.
Qed.

Lemma token_steps_sticky s s' u :
  tok_wf s -> token_steps s s' -> flag s u = true -> flag s' u = true.
Proof.
  intros Hwf Hst. revert Hwf. induction Hst; eauto using token_step_wf, token_step_sticky.
Qed.

(** Ancestors in the store [child] leaves: old tokens keep theirs, the child has
    its own and those of its parent. *)
Lemma child_ancestors t s c s' u a :
  tok_wf s -> live s t -> child t s = (c, s') ->
  ancestor s' u a -> if decide (u = c) then a = c \/ ancestor s t a else ancestor s u a.
Proof.
  intros Hwf Hl Hch Ha.
  destruct (child_views t s c s' Hwf Hl Hch) as (Hc & _ & Hlt & Hin & Hpar & Hlive & _).
  destruct (is_cancelled_effect s t Hwf) as (Hsh & _ & _).
  induction Ha as [u|u p a Hp Hlp Ha IH].
  { case_decide; [by left|constructor]. }
  rewrite Hpar in Hp. apply Hlive in Hlp.
  assert (Hpc : u <> c -> p < c).
  { intros Hne. rewrite decide_False, (same_shape_parent _ _ _ Hsh) in Hp by done.
    pose proof (wf_parent s Hwf _ _ Hp). pose proof (wf_next s Hwf u (parent_of_some _ _ _ Hp)). lia. }
  destruct (decide (u = c)) as [Hu|Hu].
  - injection Hp as <-.
    rewrite decide_False in IH by lia. by right.
  - rewrite decide_False in IH by (specialize (Hpc Hu); lia). destruct Hlp as [->|Hlp]; [lia|].
    econstructor; [by rewrite <- (same_shape_parent _ _ _ Hsh)|by apply (same_shape_live _ _ _ Hsh)|done].
Qed.

(** ** The correctness of the token operations *)

(** [is_cancelled] answers true exactly when the token or one of the
    ancestors it can still reach is cancelled, and the flags it caches on the way
    change no later answer for any token. *)
Theorem is_cancelled_correct (s : Tokens) (t : nat) (Hwf : tok_wf s) (Ht : live s t) :
  ((is_cancelled t s).1 = true <-> cancelled_above s t) /\
  tok_wf (is_cancelled t s).2 /\
  (forall u, cancelled_above (is_cancelled t s).2 u <-> cancelled_above s u).
Proof.
  destruct (is_cancelled_effect s t Hwf) as (Hsh & Hwf' & Hfl).
  split; [by apply is_cancelled_decides, live_inner|]. split; [done|].
  intros u. apply cancelled_above_cached; [done|intros; by apply is_cancelled_flag_mono|].
  intros x Hx. destruct (Hfl x Hx) as [?|[? _]]; auto.
Qed.

(** C28: [cancel] terminates with every token of the store either below the
    cancelled one, and then cancelled, or unchanged: after it a token counts as
    cancelled exactly when it did before or reaches the cancelled token; every
    live descendant carries the flag itself. *)
Theorem cancel_correct (s : Tokens) (t : nat) (Hwf : tok_wf s) (Ht : live s t) :
  exists s', cancel t s = Some s' /\ tok_wf s' /\ same_shape s' s /\
    (forall u, live s u -> ancestor s u t -> flag s' u = true) /\
    (forall u, flag s' u = true -> flag s u = true \/ ancestor s u t) /\
    (forall u, cancelled_above s' u <-> cancelled_above s u \/ ancestor s u t).
Proof.
  destruct (cancel_walk t s Hwf Ht) as (s' & V & Hc & Hinv). exists s'.
  pose proof (wi_shape _ _ _ _ _ Hinv) as Hsh. pose proof (wi_flags _ _ _ _ _ Hinv) as Hfl.
  assert (Hnew : forall u, flag s' u = true -> flag s u = true \/ ancestor s u t).
  { intros u [?|Hu]%Hfl; [by left|right]. apply (wi_below _ _ _ _ _ Hinv). set_solver. }
  split_and!; [done|apply (wi_wf _ _ _ _ _ Hinv)|done| |done|].
  - intros u Hl Ha. apply Hfl. right. by eapply walk_inv_complete.
  - intros u. split.
    + intros (a & Ha & Hf). apply (ancestor_shape _ _ _ _ Hsh) in Ha.
      destruct (Hnew a Hf) as [?|Hat]; [left; by exists a|right; by eapply ancestor_trans].
    + intros [(a & Ha & Hf)|Ha]; [exists a|exists t];
        (split; [apply (ancestor_shape s); [by symmetry|done]|]); apply Hfl; [by left|].
      right. apply (wi_root _ _ _ _ _ Hinv).
Qed.

(** cancellation is permanent: once [cancel] ran, every live descendant stays
    cancelled whatever is created, cloned, dropped or cancelled later, even when
    the tokens between it and the cancelled one are gone. *)
Theorem cancel_permanent (s s1 s2 : Tokens) (t u : nat) :
  token_steps no_tokens s -> live s t -> live s u -> ancestor s u t ->
  cancel t s = Some s1 -> token_steps s1 s2 ->
  (is_cancelled u s2).1 = true.
Proof.
  intros Hr Ht Hu Ha Hc Hst.
  pose proof (token_steps_wf _ _ no_tokens_wf Hr) as Hwf.
  destruct (cancel_walk t s Hwf Ht) as (s1' & V & Hc' & Hinv).
  rewrite Hc in Hc'. injection Hc' as <-.
  assert (Hf : flag s2 u = true).
  { eapply token_steps_sticky; [apply (wi_wf _ _ _ _ _ Hinv)|exact Hst|].
    apply (wi_flags _ _ _ _ _ Hinv). right. by eapply walk_inv_complete. }
  unfold is_cancelled. unfold flag in Hf. destruct (inner s2 u); [|done]. by rewrite Hf.
Qed.

(** [child] adds one live token under its parent, cancelled exactly when the
    parent is at that moment, and changes the answer for no other token. *)
Theorem child_inherits (s s' : Tokens) (t c : nat) :
  tok_wf s -> live s t -> child t s = (c, s') ->
  tok_wf s' /\ live s' c /\ ~ is_Some (inner s c) /\ parent_of s' c = Some t /\
  (cancelled_above s' c <-> cancelled_above s t) /\
  (forall u, u <> c -> cancelled_above s' u <-> cancelled_above s u).
Proof.
  intros Hwf Hl Hch. pose proof (child_wf t s c s' Hwf Hl Hch) as Hwf'.
  destruct (child_views t s c s' Hwf Hl Hch) as (Hc & _ & Hlt & Hin & Hpar & Hlive & Hfl & _).
  destruct (is_cancelled_effect s t Hwf) as (Hsh & _ & Hflc).
  pose proof (fresh_inner s Hwf) as Hfr. rewrite <- Hc in Hfr.
  assert (Hup : forall u a, u <> c -> ancestor s u a -> ancestor s' u a).
  { intros u a Hne Ha. induction Ha as [|u p a Hp Hlp _ IH]; [constructor|].
    assert (p <> c) by (intros ->; apply live_inner in Hlp as [? ?]; congruence).
    econstructor; [|apply Hlive; right; by apply (same_shape_live _ _ _ Hsh)|by apply IH].
    by rewrite Hpar, decide_False, (same_shape_parent _ _ _ Hsh). }
  assert (Hcov : forall u a, u <> c -> ancestor s u a -> a <> c).
  { intros u a Hne Ha. induction Ha as [|u p a Hp Hlp _ IH]; [done|]. apply IH.
    intros ->. apply live_inner in Hlp as [? ?]. congruence. }
  assert (Hold : forall u, u <> c -> cancelled_above s' u <-> cancelled_above s u).
  { intros u Hne. split; intros (a & Ha & Hf).
    - pose proof (child_ancestors t s c s' u a Hwf Hl Hch Ha) as Ha'.
      rewrite decide_False in Ha' by done. rewrite Hfl, decide_False in Hf by eauto.
      destruct (Hflc a Hf) as [?|[(b & Hb & Hfb) _]]; [by exists a|].
      exists b. split; [by eapply ancestor_trans|done].
    - exists a. split; [by apply Hup|]. rewrite Hfl, decide_False by eauto.
      by apply is_cancelled_flag_mono. }
  split_and!; [done|apply Hlive; by left|by rewrite Hfr; intros [? ?]| | |done].
  - by rewrite Hpar, decide_True.
  - rewrite <- (Hold t) by lia. split.
    + intros (a & Ha & Hf). pose proof (child_ancestors t s c s' c a Hwf Hl Hch Ha) as Ha'.
      rewrite decide_True in Ha' by done. destruct Ha' as [->|Ha'].
      * rewrite Hfl, decide_True in Hf by done. apply Hold; [lia|].
        by apply is_cancelled_decides; [|apply live_inner|].
      * exists a. split; [apply Hup; [lia|done]|done].
    + intros (a & Ha & Hf). exists a. split; [|done].
      eapply ancestor_step; [by rewrite Hpar, decide_True| |done].
      apply Hlive. right. by apply (same_shape_live _ _ _ Hsh).
Qed.

(** ** Witnesses: a root token, its child and its grandchild *)
Definition demo_tokens : Tokens :=
  (child 1 (child 0 (new_token no_tokens).2).2).2.

Lemma demo_reachable : token_steps no_tokens demo_tokens.
Proof.
  eapply (token_steps_step OpNew); [reflexivity|].
  eapply (token_steps_step (OpChild 0)); [reflexivity|].
  eapply (token_steps_step (OpChild 1)); [reflexivity|]. constructor.
Qed.

Lemma demo_wf : tok_wf demo_tokens.
Proof. apply (token_steps_wf _ _ no_tokens_wf demo_reachable). Qed.

Lemma demo_live t : t < 3 -> live demo_tokens t.
Proof. intros H. destruct t as [|[|[|t]]]; [reflexivity..|lia]. Qed.

Lemma demo_ancestor : ancestor demo_tokens 2 0.
Proof.
  eapply (ancestor_step _ 2 1); [reflexivity|reflexivity|].
  eapply (ancestor_step _ 1 0); [reflexivity|reflexivity|]. constructor.
Qed.

Lemma is_cancelled_correct_witness :
  live demo_tokens 2 /\
  ((is_cancelled 2 demo_tokens).1 = true <-> cancelled_above demo_tokens 2).
Proof.
  split; [reflexivity|].
  exact (proj1 (is_cancelled_correct demo_tokens 2 demo_wf (demo_live 2 ltac:(lia)))).
Defined.

Lemma cancel_correct_witness :
  exists s', cancel 0 demo_tokens = Some s' /\ flag s' 2 = true.
Proof.
  destruct (cancel_correct demo_tokens 0 demo_wf (demo_live 0 ltac:(lia)))
    as (s' & Hc & _ & _ & Hlive & _).
  exists s'. split; [exact Hc|]. apply Hlive; [apply demo_live; lia|apply demo_ancestor].
Defined.

(** The middle token is dropped after the cancellation. *)
Lemma cancel_permanent_witness :
  exists s1, cancel 0 demo_tokens = Some s1 /\
    (is_cancelled 2 (drop_token 1 s1)).1 = true.
Proof.
  destruct (cancel 0 demo_tokens) as [s1|] eqn:Hc; [|vm_compute in Hc; discriminate].
  exists s1. split; [reflexivity|].
  assert (Hstep : token_step (OpDrop 1) s1 = Some (drop_token 1 s1)).
  { vm_compute in Hc. injection Hc as <-. reflexivity. }
  apply (cancel_permanent demo_tokens s1 (drop_token 1 s1) 0 2 demo_reachable
    (demo_live 0 ltac:(lia)) (demo_live 2 ltac:(lia)) demo_ancestor Hc).
  eapply token_steps_step; [exact Hstep|constructor].
Defined.

Lemma child_inherits_witness :
  let r := child 2 demo_tokens in
  live r.2 r.1 /\ parent_of r.2 r.1 = Some 2.
Proof.
  destruct (child 2 demo_tokens) as [c s'] eqn:Hch.
  destruct (child_inherits demo_tokens s' 2 c demo_wf (demo_live 2 ltac:(lia)) Hch)
    as (_ & Hl & _ & Hp & _).
  split; [exact Hl|exact Hp].
Defined.
