(* ===== verification/JobModel.v ===== *)
(** * Jobs: identifiers, enumerations, records and their text forms

    The data of [crates/jobs/src/lib.rs]: priorities, classes, payload kinds,
    jobs, task outcomes, journal entries and payload records, with the escaped
    tab-separated lines the journal and the payload catalog store. *)
From Stdlib Require Import Ascii.
From S2P Require Import Prelude Types Text.
#[local] Open Scope string_scope.

Abbreviation JobId := N (only parsing).

(** ** Enumerations with a text form

    What the line formats need of an enumeration: its name is read back, and
    contains neither a separator nor a line break. *)
Class TextEnum (A : Type) : Type := {
  as_str : A -> string;
  parse : string -> option A;
  parse_as_str a : parse (as_str a) = Some a;
  as_str_plain c a : c ∈ [TAB; LF; CR] -> has_char c (as_str a) = false
}.

Inductive Priority : Type := Background | Normal | Visible | Interactive.

Definition Priority_as_str (p : Priority) : string :=
  match p with
  | Background => "background"
  | Normal => "normal"
  | Visible => "visible"
  | Interactive => "interactive"
  end.

Definition Priority_parse (value : string) : option Priority :=
  if decide (value = "background") then Some Background
  else if decide (value = "normal") then Some Normal
  else if decide (value = "visible") then Some Visible
  else if decide (value = "interactive") then Some Interactive
  else None.

(** The derived [Ord]: declaration order. *)
Definition Priority_rank (p : Priority) : N :=
  match p with Background => 0 | Normal => 1 | Visible => 2 | Interactive => 3 end.

Inductive JobClass : Type :=
  | ForegroundClass
  | VisibleClass
  | BackgroundClass
  | MaintenanceClass
  | RepairClass.

Definition JobClass_as_str (c : JobClass) : string :=
  match c with
  | ForegroundClass => "foreground"
  | VisibleClass => "visible"
  | BackgroundClass => "background"
  | MaintenanceClass => "maintenance"
  | RepairClass => "repair"
  end.

Definition JobClass_from_priority (p : Priority) : JobClass :=
  match p with
  | Interactive => ForegroundClass
  | Visible => VisibleClass
  | Normal | Background => BackgroundClass
  end.

Definition JobClass_parse (value : string) : option JobClass :=
  if decide (value = "foreground") then Some ForegroundClass
  else if decide (value = "visible") then Some VisibleClass
  else if decide (value = "background") then Some BackgroundClass
  else if decide (value = "maintenance") then Some MaintenanceClass
  else if decide (value = "repair") then Some RepairClass
  else None.

Inductive JobPayloadKind : Type :=
  | OperationKind
  | IndexingKind
  | ExtractionKind
  | ThumbnailKind
  | PreviewKind
  | RepairKind.

Definition JobPayloadKind_as_str (k : JobPayloadKind) : string :=
  match k with
  | OperationKind => "operation"
  | IndexingKind => "indexing"
  | ExtractionKind => "extraction"
  | ThumbnailKind => "thumbnail"
  | PreviewKind => "preview"
  | RepairKind => "repair"
  end.

Definition JobPayloadKind_parse (value : string) : option JobPayloadKind :=
  if decide (value = "operation") then Some OperationKind
  else if decide (value = "indexing") then Some IndexingKind
  else if decide (value = "extraction") then Some ExtractionKind
  else if decide (value = "thumbnail") then Some ThumbnailKind
  else if decide (value = "preview") then Some PreviewKind
  else if decide (value = "repair") then Some RepairKind
  else None.

#[export] Instance Priority_eq_dec : EqDecision Priority.
Proof. solve_decision. Defined.
#[export] Instance JobClass_eq_dec : EqDecision JobClass.
Proof. solve_decision. Defined.
#[export] Instance JobPayloadKind_eq_dec : EqDecision JobPayloadKind.
Proof. solve_decision. Defined.

(** [JOB_CLASS_ORDER] and [class_index] of [fair.rs]; the index also serves as
    the hash key of a class. *)
Definition JOB_CLASS_ORDER : list JobClass :=
  [ForegroundClass; VisibleClass; BackgroundClass; MaintenanceClass; RepairClass].
Definition class_index (c : JobClass) : nat :=
  match c with
  | ForegroundClass => 0
  | VisibleClass => 1
  | BackgroundClass => 2
  | MaintenanceClass => 3
  | RepairClass => 4
  end.

#[export] Instance JobClass_countable : Countable JobClass.
Proof.
  apply (inj_countable class_index (fun n => JOB_CLASS_ORDER !! n)). by intros [].
Defined.

#[export] Instance Priority_countable : Countable Priority.
Proof.
  apply (inj_countable Priority_rank
    (fun n => [Background; Normal; Visible; Interactive] !! N.to_nat n)). by intros [].
Defined.

(** Proves the two laws of an enumeration by running through its constructors. *)
Ltac text_enum :=
  intros; try match goal with H : ?c ∈ _ |- _ => set_unfold in H; destruct_or? H; subst end;
  match goal with a : _ |- _ => by destruct a end.

#[export] Instance Priority_text : TextEnum Priority.
Proof. refine {| as_str := Priority_as_str; parse := Priority_parse |}; text_enum. Defined.
#[export] Instance JobClass_text : TextEnum JobClass.
Proof. refine {| as_str := JobClass_as_str; parse := JobClass_parse |}; text_enum. Defined.
#[export] Instance JobPayloadKind_text : TextEnum JobPayloadKind.
Proof. refine {| as_str := JobPayloadKind_as_str; parse := JobPayloadKind_parse |}; text_enum. Defined.

(** ** Jobs *)

Record Job : Type := mkJob {
  job_id : JobId;
  priority : Priority;
  class : JobClass;
  payload_kind : option JobPayloadKind;
  label : string;
  volume : option VolumeId;
  dependencies : list JobId;
  job_cancel : nat  (** the address of the job's cancellation token *)
}.

#[export] Instance Job_eq_dec : EqDecision Job.
Proof. solve_decision. Defined.

Inductive TaskStatus : Type :=
  | Started
  | Completed
  | CancelledStatus
  | Failed (message : string).

#[export] Instance TaskStatus_eq_dec : EqDecision TaskStatus.
Proof. solve_decision. Defined.

Record TaskOutcome : Type := mkOutcome {
  outcome_id : JobId;
  outcome_label : string;
  outcome_status : TaskStatus
}.

#[export] Instance TaskOutcome_eq_dec : EqDecision TaskOutcome.
Proof. solve_decision. Defined.

Record WorkerReport : Type := mkReport { outcomes : list TaskOutcome }.

Definition is_failed (s : TaskStatus) : Prop :=
  match s with Failed _ => True | _ => False end.
#[export] Instance is_failed_dec s : Decision (is_failed s).
Proof. destruct s; apply _. Defined.

Definition WorkerReport_completed (r : WorkerReport) : nat :=
  length (filter (fun o => outcome_status o = Completed) (outcomes r)).
Definition WorkerReport_cancelled (r : WorkerReport) : nat :=
  length (filter (fun o => outcome_status o = CancelledStatus) (outcomes r)).
Definition WorkerReport_failed (r : WorkerReport) : nat :=
  length (filter (fun o => is_failed (outcome_status o)) (outcomes r)).

Record JournalEntry : Type := mkEntry {
  entry_id : JobId;
  entry_label : string;
  entry_attempt : N;
  entry_status : TaskStatus
}.

#[export] Instance JournalEntry_eq_dec : EqDecision JournalEntry.
Proof. solve_decision. Defined.

Record JobPayloadRecord : Type := mkPayload {
  payload_id : JobId;
  payload_rec_kind : JobPayloadKind;
  payload_label : string;
  payload_path : string;
  payload_volume : option VolumeId;
  payload_summary : string
}.

#[export] Instance JobPayloadRecord_eq_dec : EqDecision JobPayloadRecord.
Proof. solve_decision. Defined.

(** ** Escaping *)

Fixpoint escape (input : string) : string :=
  match input with
  | EmptyString => EmptyString
  | String ch rest =>
      if decide (ch = BACKSLASH) then String BACKSLASH (String BACKSLASH (escape rest))
      else if decide (ch = TAB) then String BACKSLASH (String "t" (escape rest))
      else if decide (ch = LF) then String BACKSLASH (String "n" (escape rest))
      else if decide (ch = CR) then String BACKSLASH (String "r" (escape rest))
      else String ch (escape rest)
  end.

Fixpoint unescape (input : string) : Result string string :=
  match input with
  | EmptyString => Ok EmptyString
  | String ch rest =>
      if decide (ch <> BACKSLASH) then
        let? out := unescape rest in Ok (String ch out)
      else
        match rest with
        | EmptyString => Err "trailing escape"
        | String c rest' =>
            if decide (c = BACKSLASH) then let? out := unescape rest' in Ok (String BACKSLASH out)
            else if decide (c = "t"%char) then let? out := unescape rest' in Ok (String TAB out)
            else if decide (c = "n"%char) then let? out := unescape rest' in Ok (String LF out)
            else if decide (c = "r"%char) then let? out := unescape rest' in Ok (String CR out)
            else Err ("invalid escape `" +:+ String BACKSLASH (first_char rest +:+ "`"))
        end
  end.

(** ** Journal lines *)

Definition encode_status (s : TaskStatus) : string :=
  match s with
  | Started => "started"
  | Completed => "completed"
  | CancelledStatus => "cancelled"
  | Failed message => "failed:" +:+ escape message
  end.

(** [&value[7..]]. *)
Definition drop7 (s : string) : string := String.substring 7 (String.length s - 7) s.

Definition parse_status (value : string) : Result TaskStatus string :=
  if decide (value = "started") then Ok Started
  else if decide (value = "completed") then Ok Completed
  else if decide (value = "cancelled") then Ok CancelledStatus
  else if starts_with "failed:" value then
    let? m := unescape (drop7 value) in Ok (Failed m)
  else Err ("invalid task status `" +:+ value +:+ "`").

(** The line [JobJournal::append_checked] writes. *)
Definition journal_line (e : JournalEntry) : string :=
  join (String TAB "") [u64_to_string (entry_id e); u64_to_string (entry_attempt e);
                        encode_status (entry_status e); escape (entry_label e)].

(** [.parse().map_err(|err| format!("invalid {what} `{}`: {err}", ..))]. *)
Definition parse_field (what value : string) : Result N string :=
  map_err (fun e => "invalid " +:+ what +:+ " `" +:+ value +:+ "`: " +:+ ParseIntError_to_string e)
    (parse_u64 value).

Definition expected_fields (want : string) (parts : list string) : string :=
  "expected " +:+ want +:+ " fields, got " +:+ u64_to_string (N.of_nat (length parts)).

Definition parse_journal_entry (line : string) : Result JournalEntry string :=
  match split_on TAB line with
  | [p0; p1; p2; p3] =>
      let? id := parse_field "job id" p0 in
      let? attempt := parse_field "attempt" p1 in
      let? status := parse_status p2 in
      let? lbl := unescape p3 in
      Ok (mkEntry id lbl attempt status)
  | parts => Err (expected_fields "4" parts)
  end.

(** ** Payload catalog lines *)

Definition format_volume (v : option VolumeId) : string :=
  match v with Some n => u64_to_string n | None => "-" end.

Definition parse_volume (what value : string) : Result (option VolumeId) string :=
  if decide (value = "-") then Ok None
  else let? n := parse_field what value in Ok (Some n).

Definition payload_as_tsv (r : JobPayloadRecord) : string :=
  join (String TAB "") ["payload"; u64_to_string (payload_id r); as_str (payload_rec_kind r);
    escape (payload_label r); escape (payload_path r); format_volume (payload_volume r);
    escape (payload_summary r)].

Definition parse_payload_record (line : string) : Result JobPayloadRecord string :=
  match split_on TAB line with
  | [p0; p1; p2; p3; p4; p5; p6] =>
      if decide (p0 <> "payload") then Err ("expected payload row, got `" +:+ p0 +:+ "`")
      else
        let? id := parse_field "payload job id" p1 in
        let? kind := ok_or_else (parse p2) ("invalid payload kind `" +:+ p2 +:+ "`") in
        let? lbl := unescape p3 in
        let? path := unescape p4 in
        let? vol := parse_volume "payload volume id" p5 in
        let? summary := unescape p6 in
        Ok (mkPayload id kind lbl path vol summary)
  | parts => Err (expected_fields "7" parts)
  end.

(** ** Lemmas on the text forms *)

Lemma unescape_escape s : unescape (escape s) = Ok s.
Proof.
  induction s as [|c s IH]; [done|]. cbn [escape].
  repeat case_decide; subst; cbn [unescape].
  1-4: by vm_compute decide; cbv beta iota; rewrite IH.
  rewrite decide_True by done. by rewrite IH.
Qed.

Lemma escape_plain c s : c ∈ [TAB; LF; CR] -> has_char c (escape s) = false.
Proof.
  intros Hc. induction s as [|a s IH]; [done|]. cbn [escape].
  set_unfold in Hc. repeat case_decide; subst; cbn [has_char]; rewrite ?IH;
    destruct_or? Hc; subst; try done; by rewrite decide_False.
Qed.

Lemma plain_digit c : c ∈ [TAB; LF; CR] -> to_digit c = None.
Proof. intros Hc. set_unfold in Hc. by destruct_or? Hc; subst. Qed.

Lemma u64_field_plain c n : c ∈ [TAB; LF; CR] -> has_char c (u64_to_string n) = false.
Proof. intros. by apply u64_to_string_plain, plain_digit. Qed.

Lemma encode_status_plain c s : c ∈ [TAB; LF; CR] -> has_char c (encode_status s) = false.
Proof.
  intros Hc. assert (Hm : forall m, has_char c (escape m) = false) by auto using escape_plain.
  destruct s; set_unfold in Hc; destruct_or? Hc; subst; try done; apply Hm.
Qed.

Lemma format_volume_plain c v : c ∈ [TAB; LF; CR] -> has_char c (format_volume v) = false.
Proof.
  intros Hc. destruct v; simpl; [by apply u64_field_plain|].
  set_unfold in Hc. by destruct_or? Hc; subst.
Qed.

Lemma parse_field_ok what n : u64_ok n -> parse_field what (u64_to_string n) = Ok n.
Proof. intros H. unfold parse_field. by rewrite parse_u64_to_string. Qed.

Definition volume_ok (v : option VolumeId) : Prop :=
  match v with Some n => u64_ok n | None => True end.

Lemma parse_volume_format what v :
  volume_ok v -> parse_volume what (format_volume v) = Ok v.
Proof.
  destruct v as [n|]; [|done]. intros Hn. unfold parse_volume. simpl.
  rewrite decide_False by apply u64_to_string_not_dash. by rewrite parse_field_ok.
Qed.

Lemma substring_all s : String.substring 0 (String.length s) s = s.
Proof. induction s as [|a s IH]; [done|]. cbn. by rewrite IH. Qed.

Lemma drop7_app s : drop7 ("failed:" +:+ s) = s.
Proof.
  unfold drop7. change (String.length ("failed:" +:+ s)) with (7 + String.length s).
  replace (7 + String.length s - 7) with (String.length s) by lia. exact (substring_all s).
Qed.

Lemma parse_encode_status s : parse_status (encode_status s) = Ok s.
Proof.
  destruct s as [| | |m]; [done..|]. unfold parse_status, encode_status.
  rewrite !decide_False by done. rewrite starts_with_app, drop7_app, unescape_escape. done.
Qed.

(** A joined row has no line break when its fields have none. *)
Lemma join_plain c sep fs :
  has_char c sep = false -> Forall (fun f => has_char c f = false) fs ->
  has_char c (join sep fs) = false.
Proof.
  intros Hs Hf. induction Hf as [|f fs Hf Hfs IH]; [done|].
  destruct fs as [|g fs]; [done|].
  change (join sep (f :: g :: fs)) with (f +:+ sep +:+ join sep (g :: fs)).
  by rewrite !has_char_app, Hf, Hs, IH.
Qed.

Lemma split_on_join_tab fs :
  fs <> [] -> Forall (fun f => has_char TAB f = false) fs ->
  split_on TAB (join (String TAB "") fs) = fs.
Proof. apply split_on_join. Qed.

(** A character the line formats reserve: a separator or a line break. *)
Lemma tab_reserved : TAB ∈ [TAB; LF; CR].
Proof. left. Qed.
Lemma lf_reserved : LF ∈ [TAB; LF; CR].
Proof. right; left. Qed.
Lemma cr_reserved : CR ∈ [TAB; LF; CR].
Proof. right; right; left. Qed.
#[export] Hint Resolve tab_reserved lf_reserved cr_reserved : gfm.

(** Every field of a row is free of reserved characters. *)
Ltac plain_field :=
  first [ reflexivity
        | apply as_str_plain | apply escape_plain | apply u64_field_plain
        | apply encode_status_plain | apply format_volume_plain ];
  first [ apply tab_reserved | apply lf_reserved | apply cr_reserved ].
Ltac plain_fields :=
  repeat (apply Forall_cons_2; [first [reflexivity | plain_field]|]); apply Forall_nil_2.

Lemma journal_line_ok e : line_ok (journal_line e).
Proof. split; apply join_plain; try done; plain_fields. Qed.

Lemma payload_as_tsv_ok r : line_ok (payload_as_tsv r).
Proof. split; apply join_plain; try done; plain_fields. Qed.

Definition entry_ok (e : JournalEntry) : Prop := u64_ok (entry_id e) /\ u64_ok (entry_attempt e).
Definition payload_ok (r : JobPayloadRecord) : Prop :=
  u64_ok (payload_id r) /\ volume_ok (payload_volume r).

Lemma parse_journal_line e : entry_ok e -> parse_journal_entry (journal_line e) = Ok e.
Proof.
  intros [Hid Hat]. unfold parse_journal_entry, journal_line.
  rewrite split_on_join_tab; [|done|plain_fields].
  rewrite !parse_field_ok by done. cbn [result_bind].
  rewrite parse_encode_status, unescape_escape. by destruct e.
Qed.

Lemma parse_payload_as_tsv r : payload_ok r -> parse_payload_record (payload_as_tsv r) = Ok r.
Proof.
  intros [Hid Hv]. unfold parse_payload_record, payload_as_tsv.
  rewrite split_on_join_tab; [|done|plain_fields].
  rewrite decide_False by (intros H; by apply H).
  rewrite parse_field_ok by done. cbn [result_bind].
  rewrite parse_as_str. cbn [ok_or_else result_bind].
  rewrite !unescape_escape, parse_volume_format by done. by destruct r.
Qed.

(** entries of the journal and rows of the payload catalog are read back from
    the lines they are written as, whatever bytes their labels, messages and paths
    hold; a line is never broken by its contents, and two records with the same
    line are the same record. *)
Theorem job_text_roundtrip (e e' : JournalEntry) (r r' : JobPayloadRecord) :
  entry_ok e -> payload_ok r ->
  parse_journal_entry (journal_line e) = Ok e /\ line_ok (journal_line e) /\
  parse_payload_record (payload_as_tsv r) = Ok r /\ line_ok (payload_as_tsv r) /\
  (entry_ok e' -> journal_line e' = journal_line e -> e' = e) /\
  (payload_ok r' -> payload_as_tsv r' = payload_as_tsv r -> r' = r).
Proof.
  intros He Hr. split_and!; auto using parse_journal_line, parse_payload_as_tsv, journal_line_ok, payload_as_tsv_ok.
  - intros He' Heq. pose proof (parse_journal_line e' He') as H'. rewrite Heq, parse_journal_line in H' by done.
    by injection H'.
  - intros Hr' Heq. pose proof (parse_payload_as_tsv r' Hr') as H'. rewrite Heq, parse_payload_as_tsv in H' by done.
    by injection H'.
Qed.

Lemma job_text_roundtrip_witness :
  let e := mkEntry 3 "a	b\c" 2 (Failed "no:thing") in
  let r := mkPayload 4 ThumbnailKind "pic" "/tmp/a	b" (Some 2%N) "sum" in
  parse_journal_entry (journal_line e) = Ok e /\ parse_payload_record (payload_as_tsv r) = Ok r.
Proof.
  cbv zeta.
  destruct (job_text_roundtrip (mkEntry 3 "a	b\c" 2 (Failed "no:thing")) (mkEntry 0 "" 0 Started)
    (mkPayload 4 ThumbnailKind "pic" "/tmp/a	b" (Some 2%N) "sum") (mkPayload 0 RepairKind "" "" None ""))
    as (H1 & _ & H2 & _); [by vm_compute..|]. split; [exact H1|exact H2].
Defined.
