(* ===== verification/Retry.v ===== *)
(** * Retry policy ([crates/jobs/src/retry.rs])

    A failure message is classified by the words it contains; the class and the
    number of attempts decide whether a job is retried and after which delay. *)
From S2P Require Import Prelude Types Text.
#[local] Open Scope string_scope.

Record RetryPolicy : Type := mkRetryPolicy { max_attempts : N }.

(** [impl Default for RetryPolicy]. *)
Definition default_retry_policy : RetryPolicy := mkRetryPolicy 1.

Inductive FailureClass : Type :=
  | Transient
  | PermissionFailure
  | MissingFile
  | CorruptFile
  | OfflineVolume
  | Permanent.

#[export] Instance FailureClass_eq_dec : EqDecision FailureClass.
Proof. solve_decision. Defined.

Definition FailureClass_as_str (c : FailureClass) : string :=
  match c with
  | Transient => "transient"
  | PermissionFailure => "permission"
  | MissingFile => "missing-file"
  | CorruptFile => "corrupt-file"
  | OfflineVolume => "offline-volume"
  | Permanent => "permanent"
  end.

Definition class_retryable (c : FailureClass) : bool :=
  match c with Transient | OfflineVolume => true | _ => false end.

Definition contains_any (message : string) (needles : list string) : bool :=
  existsb (fun needle => contains message needle) needles.

Definition classify (message0 : string) : FailureClass :=
  let message := to_ascii_lowercase message0 in
  if contains_any message
       ["offline"; "not mounted"; "unmounted"; "ejected"; "network is down";
        "network is unreachable"; "device not configured"; "stale file handle"]
  then OfflineVolume
  else if contains_any message ["permission"; "denied"; "not permitted"; "tcc"]
  then PermissionFailure
  else if contains_any message ["missing"; "not found"; "no such file"]
  then MissingFile
  else if contains_any message ["corrupt"; "checksum"; "crc"; "malformed"]
  then CorruptFile
  else if contains_any message
       ["temporary"; "transient"; "timed out"; "timeout"; "busy"; "again";
        "resource temporarily unavailable"; "interrupted system call";
        "source does not exist"]
  then Transient
  else Permanent.

Record RetryDecision : Type := mkRetryDecision {
  decision_class : FailureClass;
  retryable : bool;
  next_delay_ms : N
}.

Definition retry_base_ms (c : FailureClass) : N :=
  match c with
  | Transient => 25
  | OfflineVolume => 250
  | PermissionFailure | MissingFile | CorruptFile | Permanent => 0
  end.

(** [base_ms * 2_u64.pow(exponent)]; the exponent is at most 8, so the machine
    product is the product (see [retry_delay_bounds]). *)
Definition retry_backoff_ms (c : FailureClass) (attempts : N) : N :=
  let base_ms := retry_base_ms c in
  if (base_ms =? 0)%N then 0
  else
    let exponent := N.min (saturating_sub attempts 1) 8 in
    ((base_ms * (2 ^ exponent mod U64)) mod U64)%N.

Definition classify_failure (p : RetryPolicy) (message : string) : FailureClass :=
  classify message.

Definition retry_decision (p : RetryPolicy) (attempts : N) (message : string) : RetryDecision :=
  let c := classify_failure p message in
  let limit := N.max (max_attempts p) 1 in
  let retry := class_retryable c && (attempts <? limit)%N in
  mkRetryDecision c retry (if retry then retry_backoff_ms c attempts else 0).

(** ** Lemmas *)

Lemma lower_char_idem a : lower_char (lower_char a) = lower_char a.
Proof. destruct a as [[] [] [] [] [] [] [] []]; reflexivity. Qed.

Lemma to_ascii_lowercase_idem s :
  to_ascii_lowercase (to_ascii_lowercase s) = to_ascii_lowercase s.
Proof. induction s as [|a s IH]; simpl; [done|]. by rewrite lower_char_idem, IH. Qed.

(** The product of the code does not wrap. *)
Lemma retry_backoff_exact c attempts :
  retry_backoff_ms c attempts = (retry_base_ms c * 2 ^ N.min (attempts - 1) 8)%N.
Proof.
  unfold retry_backoff_ms, saturating_sub.
  assert (N.min (attempts - 1) 8 = 0 \/ N.min (attempts - 1) 8 = 1 \/ N.min (attempts - 1) 8 = 2 \/
          N.min (attempts - 1) 8 = 3 \/ N.min (attempts - 1) 8 = 4 \/ N.min (attempts - 1) 8 = 5 \/
          N.min (attempts - 1) 8 = 6 \/ N.min (attempts - 1) 8 = 7 \/
          N.min (attempts - 1) 8 = 8)%N as He by lia.
  destruct c; try done; by repeat (destruct He as [->|He]; [done|]); rewrite He.
Qed.

(** the delay before the next attempt is positive exactly for the retried
    classes with attempts left, doubles with each failed attempt up to the
    eighth, never exceeds 64 seconds, and never decreases from one attempt to the
    next that is still retried. *)
Theorem retry_delay_bounds (p : RetryPolicy) (m : string) (n : N) :
  (0 < next_delay_ms (retry_decision p n m) <->
     retryable (retry_decision p n m) = true)%N /\
  (retryable (retry_decision p n m) = true <->
     (classify m = Transient \/ classify m = OfflineVolume) /\ n < N.max (max_attempts p) 1)%N /\
  (next_delay_ms (retry_decision p n m) <= 64000)%N /\
  (retryable (retry_decision p (n + 1) m) = true ->
     next_delay_ms (retry_decision p (n + 1) m) =
       if (n =? 0)%N || (9 <=? n)%N then next_delay_ms (retry_decision p n m)
       else (2 * next_delay_ms (retry_decision p n m))%N).
Proof.
  unfold retry_decision, classify_failure. cbn [retryable next_delay_ms].
  set (c := classify m). rewrite !retry_backoff_exact.
  assert (Hpow : forall e, (e <= 8 -> 1 <= 2 ^ e <= 256)%N).
  { intros e He. split; [pose proof (N.pow_nonzero 2 e); lia|].
    change 256%N with (2 ^ 8)%N. by apply N.pow_le_mono_r. }
  pose proof (Hpow (N.min (n - 1) 8) ltac:(lia)) as [Hlo Hhi].
  split_and!.
  - destruct c; simpl; destruct (N.ltb_spec n (N.max (max_attempts p) 1)); simpl; lia.
  - destruct c; simpl; destruct (N.ltb_spec n (N.max (max_attempts p) 1)); simpl;
      naive_solver lia.
  - destruct c; simpl; destruct (N.ltb_spec n (N.max (max_attempts p) 1)); simpl; lia.
  - intros [Hc Hn]%andb_true_iff. rewrite Hc, Hn. apply N.ltb_lt in Hn.
    rewrite (proj2 (N.ltb_lt n (N.max (max_attempts p) 1))) by lia. cbn [andb].
    destruct (N.eqb_spec n 0) as [->|Hn0]; [done|].
    destruct (N.leb_spec 9 n) as [H9|H9]; cbn [orb].
    + by replace (N.min (n + 1 - 1) 8) with (N.min (n - 1) 8) by lia.
    + replace (N.min (n + 1 - 1) 8) with (N.succ (N.min (n - 1) 8)) by lia.
      rewrite N.pow_succ_r'. lia.
Qed.

(** classification ignores the case of the message, and a message naming an
    offline volume is treated as one whatever else it says. *)
Theorem classify_case_insensitive (m : string) :
  classify (to_ascii_lowercase m) = classify m /\
  (contains (to_ascii_lowercase m) "offline" = true -> classify m = OfflineVolume).
Proof.
  split; [unfold classify; by rewrite to_ascii_lowercase_idem|].
  intros H. unfold classify, contains_any. cbn [existsb]. by rewrite H.
Qed.

Lemma retry_delay_bounds_witness :
  next_delay_ms (retry_decision (mkRetryPolicy 5) 3 "device BUSY") = 100%N.
Proof.
  destruct (retry_delay_bounds (mkRetryPolicy 5) "device BUSY" 2) as (_ & _ & _ & H).
  change 3%N with (2 + 1)%N. rewrite H; reflexivity.
Defined.

Lemma classify_case_insensitive_witness : classify "Volume is OFFLINE" = OfflineVolume.
Proof. apply (classify_case_insensitive "Volume is OFFLINE"). reflexivity. Defined.
