(* ===== verification/Fair.v ===== *)
(** * Job fairness ([crates/jobs/src/fair.rs])

    Jobs whose dependencies completed are admitted in rounds: a round takes at
    most the quota of each class, in the order of the classes, and first come
    first served within a class.  The others are reported as blocked with their
    missing and failed dependencies. *)
From S2P Require Import Prelude Types Control JobModel.

Record JobFairnessPolicy : Type := mkFairness { quotas : gmap JobClass N }.

Definition default_fairness : JobFairnessPolicy :=
  mkFairness (list_to_map [(ForegroundClass, 3%N); (VisibleClass, 3%N); (BackgroundClass, 1%N);
                           (MaintenanceClass, 1%N); (RepairClass, 1%N)]).

Definition with_quota (p : JobFairnessPolicy) (c : JobClass) (q : N) : JobFairnessPolicy :=
  mkFairness (<[c := N.max q 1]> (quotas p)).

Definition quota (p : JobFairnessPolicy) (c : JobClass) : N :=
  N.max (default 1%N (quotas p !! c)) 1.

Definition admission_order (p : JobFairnessPolicy) : list JobClass :=
  flat_map (fun c => replicate (N.to_nat (quota p c)) c) JOB_CLASS_ORDER.

Record BlockedJob : Type := mkBlocked {
  blocked_id : JobId;
  blocked_label : string;
  blocked_class : JobClass;
  missing_dependencies : list JobId;
  failed_dependencies : list JobId
}.

Record JobFairnessPlan : Type := mkPlan {
  ready : list Job;
  blocked : list BlockedJob
}.

Definition plan_labels (p : JobFairnessPlan) : list string := label <$> ready p.

Record JobFairnessPlanner : Type := mkPlanner {
  planner_policy : JobFairnessPolicy;
  planner_completed : gset JobId;
  planner_failed : gset JobId
}.

Definition new_planner (p : JobFairnessPolicy) : JobFairnessPlanner := mkPlanner p ∅ ∅.
Definition with_completed (pl : JobFairnessPlanner) (ids : list JobId) : JobFairnessPlanner :=
  mkPlanner (planner_policy pl) (planner_completed pl ∪ list_to_set ids) (planner_failed pl).
Definition with_failed (pl : JobFairnessPlanner) (ids : list JobId) : JobFairnessPlanner :=
  mkPlanner (planner_policy pl) (planner_completed pl) (planner_failed pl ∪ list_to_set ids).

Definition dependencies_satisfied (j : Job) (satisfied : gset JobId) : bool :=
  forallb (fun d => bool_decide (d ∈ satisfied)) (dependencies j).

(** The array [ready_by_class], indexed by [class_index]. *)
Definition push_class (j : Job) (queues : list (list Job)) : list (list Job) :=
  alter (fun q => q ++ [j]) (class_index (class j)) queues.
Definition queue_of (c : JobClass) (queues : list (list Job)) : list Job :=
  default [] (queues !! class_index c).
Definition set_queue (c : JobClass) (q : list Job) (queues : list (list Job)) : list (list Job) :=
  <[class_index c := q]> queues.
Definition no_queues : list (list Job) := replicate (length JOB_CLASS_ORDER) [].

Section Checked.
Context {S : Type}.

(** The first loop of [plan_checked]: jobs are dealt to their class queue or to
    the blocked list. *)
Definition sort_job (pl : JobFairnessPlanner) (acc : list (list Job) * list Job) (j : Job)
    : M S (list (list Job) * list Job) :=
  check_control ;;
  (acc' <- mret (if dependencies_satisfied j (planner_completed pl)
                 then (push_class j acc.1, acc.2) else (acc.1, acc.2 ++ [j])) ;
   check_control ;; mret acc').

(** [for _ in 0..quota(class) { let Some(job) = pop_front() else break; .. }]:
    what is taken, and what stays. *)
Fixpoint take_quota (n : N) (q : list Job) : M S (list Job * list Job) :=
  if (n =? 0)%N then mret ([], q)
  else
    check_control ;;
    match q with
    | [] => mret ([], [])
    | j :: q' => r <- take_quota (n - 1) q' ; mret (j :: r.1, r.2)
    end.

(** One class of a round; the accumulator is (queues, ready, progressed). *)
Definition round_class (p : JobFairnessPolicy) (acc : list (list Job) * list Job * bool)
    (c : JobClass) : M S (list (list Job) * list Job * bool) :=
  check_control ;;
  (r <- take_quota (quota p c) (queue_of c acc.1.1) ;
   mret (set_queue c r.2 acc.1.1, acc.1.2 ++ r.1, acc.2 || negb (bool_decide (r.1 = [])))).

(** The [loop] of rounds: it ends after the first round without progress. *)
Fixpoint rounds_loop (fuel : nat) (p : JobFairnessPolicy) (queues : list (list Job))
    (rdy : list Job) : M S (list (list Job) * list Job) :=
  match fuel with
  | O => mret (queues, rdy)
  | Datatypes.S fuel' =>
      check_control ;;
      (r <- mfor (round_class p) (queues, rdy, false) JOB_CLASS_ORDER ;
       if r.2 then rounds_loop fuel' p r.1.1 r.1.2 else mret (r.1.1, r.1.2))
  end.

(** The dependency report of one blocked job. *)
Definition block_job (pl : JobFairnessPlanner) (j : Job) : BlockedJob :=
  let open := filter (fun d => d ∉ planner_completed pl) (dependencies j) in
  mkBlocked (job_id j) (label j) (class j)
    (filter (fun d => d ∉ planner_failed pl) open)
    (filter (fun d => d ∈ planner_failed pl) open).

Definition report_blocked (pl : JobFairnessPlanner) (acc : list BlockedJob) (j : Job)
    : M S (list BlockedJob) :=
  check_control ;;
  (acc' <- mret (acc ++ [block_job pl j]) ; check_control ;; mret acc').

(** Every round but the last admits a job, so the number of jobs bounds them. *)
Definition plan_checked (pl : JobFairnessPlanner) (jobs : list Job) : M S JobFairnessPlan :=
  qb <- mfor (sort_job pl) (no_queues, []) jobs ;
  qr <- rounds_loop (Datatypes.S (length jobs)) (planner_policy pl) qb.1 [] ;
  bl <- mfor (report_blocked pl) [] qb.2 ;
  mret (mkPlan qr.2 bl).
End Checked.
(** [JobFairnessPlanner::plan]: with a closure that never fails; [None] is a panic. *)
Definition plan (pl : JobFairnessPlanner) (jobs : list Job) : option JobFairnessPlan :=
  fst <$> expect (plan_checked pl jobs) tt.

(** ** The reference: what an uninterrupted plan computes *)

Definition take_n (n : N) (q : list Job) : list Job := take (N.to_nat n) q.

Definition round_step (p : JobFairnessPolicy) (acc : list (list Job) * list Job * bool)
    (c : JobClass) : list (list Job) * list Job * bool :=
  let q := queue_of c acc.1.1 in
  (set_queue c (drop (N.to_nat (quota p c)) q) acc.1.1, acc.1.2 ++ take (N.to_nat (quota p c)) q,
   acc.2 || negb (bool_decide (q = []))).

(** A round as a function of the queues of the classes. *)
Definition round_taken (p : JobFairnessPolicy) (qs : JobClass -> list Job) : list Job :=
  flat_map (fun c => take (N.to_nat (quota p c)) (qs c)) JOB_CLASS_ORDER.
Definition round_rest (p : JobFairnessPolicy) (qs : JobClass -> list Job) (c : JobClass) : list Job :=
  drop (N.to_nat (quota p c)) (qs c).

Fixpoint rounds (fuel : nat) (p : JobFairnessPolicy) (qs : JobClass -> list Job) : list Job :=
  match fuel with
  | O => []
  | S fuel' => round_taken p qs ++ rounds fuel' p (round_rest p qs)
  end.

Definition satisfied_jobs (pl : JobFairnessPlanner) (jobs : list Job) : list Job :=
  filter (fun j => dependencies_satisfied j (planner_completed pl) = true) jobs.
Definition unsatisfied_jobs (pl : JobFairnessPlanner) (jobs : list Job) : list Job :=
  filter (fun j => dependencies_satisfied j (planner_completed pl) = false) jobs.

Definition reference_plan (pl : JobFairnessPlanner) (jobs : list Job) : JobFairnessPlan :=
  mkPlan
    (rounds (length jobs) (planner_policy pl)
       (fun c => filter (fun j => class j = c) (satisfied_jobs pl jobs)))
    (block_job pl <$> unsatisfied_jobs pl jobs).

(** ** The checked plan computes the reference *)

Lemma quota_pos p c : (1 <= quota p c)%N.
Proof. unfold quota. lia. Qed.

Section CheckedRuns.
Context {S : Type}.
Implicit Types s : S.

Lemma take_quota_runs q : forall n s,
  runs (take_quota n q) s (Ok (take (N.to_nat n) q, drop (N.to_nat n) q)) s.
Proof.
  induction q as [|j q IH]; intros n s; cbn [take_quota]; destruct (N.eqb_spec n 0) as [->|Hn];
    try apply runs_ret; runs_step; rewrite ?take_nil, ?drop_nil; [apply runs_ret|].
  eapply runs_bind; [apply IH|].
  replace (N.to_nat n) with (Datatypes.S (N.to_nat (n - 1))) by lia. apply runs_ret.
Qed.

Lemma round_class_runs p acc c s :
  runs (round_class p acc c) s (Ok (round_step p acc c)) s.
Proof.
  unfold round_class, round_step. runs_step. eapply runs_bind; [apply take_quota_runs|].
  cbn [fst snd].
  replace (bool_decide (take (N.to_nat (quota p c)) (queue_of c acc.1.1) = []))
    with (bool_decide (queue_of c acc.1.1 = [])); [apply runs_ret|].
  apply bool_decide_ext. pose proof (quota_pos p c).
  destruct (queue_of c acc.1.1) as [|j q]; [by rewrite take_nil|].
  replace (N.to_nat (quota p c)) with (Datatypes.S (N.to_nat (quota p c - 1))) by lia. done.
Qed.

(** The queue array that holds the queues [qs]. *)
Definition queue_array (qs : JobClass -> list Job) : list (list Job) := qs <$> JOB_CLASS_ORDER.
Definition total (qs : JobClass -> list Job) : nat := length (concat (queue_array qs)).
Definition some_job (qs : JobClass -> list Job) : bool :=
  existsb (fun c => negb (bool_decide (qs c = []))) JOB_CLASS_ORDER.

Lemma round_fold p qs rdy :
  foldl (round_step p) (queue_array qs, rdy, false) JOB_CLASS_ORDER =
  (queue_array (round_rest p qs), rdy ++ round_taken p qs, some_job qs).
Proof.
  unfold queue_array, round_taken, round_rest, some_job, round_step, JOB_CLASS_ORDER.
  cbn. by rewrite !orb_false_r, !app_nil_r, <- !app_assoc, !orb_assoc.
Qed.

Lemma some_job_total qs : some_job qs = true <-> 0 < total qs.
Proof.
  unfold some_job, total, queue_array, JOB_CLASS_ORDER. cbn.
  rewrite !length_app. cbn.
  destruct (qs ForegroundClass), (qs VisibleClass), (qs BackgroundClass),
    (qs MaintenanceClass), (qs RepairClass); cbn; split; try done; lia.
Qed.

Lemma total_rest p qs : 0 < total qs -> total (round_rest p qs) < total qs.
Proof.
  unfold total, queue_array, JOB_CLASS_ORDER, round_rest. cbn.
  rewrite !length_app, !length_drop. cbn.
  pose proof (quota_pos p ForegroundClass). pose proof (quota_pos p VisibleClass).
  pose proof (quota_pos p BackgroundClass). pose proof (quota_pos p MaintenanceClass).
  pose proof (quota_pos p RepairClass). lia.
Qed.

Lemma total_zero qs : total qs = 0 -> forall c, qs c = [].
Proof.
  unfold total, queue_array, JOB_CLASS_ORDER. cbn. rewrite !length_app. cbn.
  intros H c. apply nil_length_inv. destruct c; lia.
Qed.

Lemma rounds_empty m p : forall qs, total qs = 0 -> rounds m p qs = [].
Proof.
  induction m as [|m IH]; intros qs Hz; [done|]. cbn [rounds].
  rewrite IH.
  - unfold round_taken, JOB_CLASS_ORDER. cbn. by rewrite !(total_zero qs Hz), !take_nil.
  - unfold total, queue_array, JOB_CLASS_ORDER, round_rest. cbn.
    by rewrite !(total_zero qs Hz), !drop_nil.
Qed.

Lemma queue_array_empty qs : total qs = 0 -> queue_array qs = no_queues.
Proof. intros Hz. unfold queue_array, JOB_CLASS_ORDER. cbn. by rewrite !(total_zero qs Hz). Qed.

(** Enough fuel drains every queue. *)
Lemma rounds_loop_runs p fuel : forall m qs rdy s,
  total qs < fuel -> total qs <= m ->
  runs (rounds_loop fuel p (queue_array qs) rdy) s (Ok (no_queues, rdy ++ rounds m p qs)) s.
Proof.
  induction fuel as [|fuel IH]; intros m qs rdy s Hf Hm; [lia|].
  cbn [rounds_loop]. runs_step.
  eapply runs_bind; [apply (runs_for _ (round_step p)); intros; apply round_class_runs|].
  rewrite round_fold. cbn [fst snd]. destruct (some_job qs) eqn:Hs.
  - apply some_job_total in Hs. pose proof (total_rest p qs Hs).
    destruct m as [|m]; [lia|]. cbn [rounds]. rewrite app_assoc. apply IH; lia.
  - assert (total qs = 0) as Hz.
    { destruct (decide (total qs = 0)); [done|]. pose proof (proj2 (some_job_total qs)). 
      rewrite Hs in *. specialize (H ltac:(lia)). done. }
    rewrite (rounds_empty m) by done. rewrite app_nil_r.
    assert (round_taken p qs = []) as ->.
    { unfold round_taken, JOB_CLASS_ORDER. cbn. by rewrite !(total_zero qs Hz), !take_nil. }
    rewrite app_nil_r. rewrite queue_array_empty; [apply runs_ret|].
    unfold total, queue_array, JOB_CLASS_ORDER, round_rest. cbn.
    by rewrite !(total_zero qs Hz), !drop_nil.
Qed.
End CheckedRuns.

Definition sort_step (pl : JobFairnessPlanner) (acc : list (list Job) * list Job) (j : Job) :=
  if dependencies_satisfied j (planner_completed pl)
  then (push_class j acc.1, acc.2) else (acc.1, acc.2 ++ [j]).

Definition class_queues (jobs : list Job) (c : JobClass) : list Job :=
  filter (fun j => class j = c) jobs.

Lemma class_queues_snoc l j : push_class j (queue_array (class_queues l)) =
  queue_array (class_queues (l ++ [j])).
Proof.
  unfold queue_array, push_class, class_queues, JOB_CLASS_ORDER. cbn.
  rewrite !filter_app, !filter_cons, !filter_nil.
  destruct (class j) eqn:Hj; cbn; by rewrite ?app_nil_r.
Qed.

Lemma sort_fold pl jobs : forall l b,
  foldl (sort_step pl) (queue_array (class_queues l), b) jobs =
  (queue_array (class_queues (l ++ satisfied_jobs pl jobs)), b ++ unsatisfied_jobs pl jobs).
Proof.
  unfold satisfied_jobs, unsatisfied_jobs.
  induction jobs as [|j jobs IH]; intros l b; [by rewrite !app_nil_r|].
  cbn [foldl]. rewrite !filter_cons. unfold sort_step at 2. cbn [fst snd].
  destruct (dependencies_satisfied j (planner_completed pl)).
  - rewrite (decide_True (P := true = true)), (decide_False (P := true = false)) by done.
    by rewrite class_queues_snoc, IH, <- app_assoc.
  - rewrite (decide_True (P := false = false)), (decide_False (P := false = true)) by done.
    by rewrite IH, <- app_assoc.
Qed.

Lemma class_queues_total l : concat (queue_array (class_queues l)) ≡ₚ l.
Proof.
  unfold queue_array, class_queues, JOB_CLASS_ORDER. cbn. rewrite app_nil_r.
  induction l as [|j l IH]; [done|]. rewrite !filter_cons.
  transitivity (j :: filter (fun x => class x = ForegroundClass) l ++
    filter (fun x => class x = VisibleClass) l ++ filter (fun x => class x = BackgroundClass) l ++
    filter (fun x => class x = MaintenanceClass) l ++ filter (fun x => class x = RepairClass) l);
    [|by rewrite IH].
  destruct (class j); repeat (case_decide; [try done|try done]); cbn; by rewrite <- ?Permutation_middle.
Qed.

Section PlanRuns.
Context {S : Type}.

Lemma plan_checked_runs pl jobs (s : S) : runs (plan_checked pl jobs) s (Ok (reference_plan pl jobs)) s.
Proof.
  unfold plan_checked.
  eapply runs_bind.
  { apply (runs_for _ (sort_step pl)). intros acc j s0. unfold sort_job, sort_step. runs_auto. }
  change (no_queues, []) with (queue_array (class_queues []), @nil Job).
  rewrite sort_fold. cbn [fst snd app].
  assert (total (class_queues (satisfied_jobs pl jobs)) <= length jobs).
  { unfold total. rewrite class_queues_total. apply length_filter. }
  eapply runs_bind; [apply (rounds_loop_runs _ _ (length jobs)); lia|]. cbn [fst snd app].
  eapply runs_bind.
  { apply (runs_for _ (fun acc j => acc ++ [block_job pl j])).
    intros acc j s0. unfold report_blocked. runs_auto. }
  unfold reference_plan.
  rewrite foldl_snoc_map. apply runs_ret.
Qed.

Lemma take_quota_reads q : forall n, reads (S := S) (take_quota n q).
Proof. induction q as [|j q IH]; intros n; cbn [take_quota]; ctl_auto. Qed.
Lemma take_quota_cooperative q : forall n, cooperative (S := S) (take_quota n q).
Proof. induction q as [|j q IH]; intros n; cbn [take_quota]; ctl_auto. Qed.

#[local] Hint Resolve take_quota_reads take_quota_cooperative : ctl.

Lemma rounds_loop_reads fuel p : forall qs rdy, reads (S := S) (rounds_loop fuel p qs rdy).
Proof. induction fuel as [|fuel IH]; intros; cbn [rounds_loop]; unfold round_class; ctl_auto. Qed.
Lemma rounds_loop_cooperative fuel p : forall qs rdy,
  cooperative (S := S) (rounds_loop fuel p qs rdy).
Proof. induction fuel as [|fuel IH]; intros; cbn [rounds_loop]; unfold round_class; ctl_auto. Qed.

#[local] Hint Resolve rounds_loop_reads rounds_loop_cooperative : ctl.

Lemma plan_checked_reads pl jobs : reads (S := S) (plan_checked pl jobs).
Proof. unfold plan_checked, sort_job, report_blocked. ctl_auto. Qed.
Lemma plan_checked_cooperative pl jobs : cooperative (S := S) (plan_checked pl jobs).
Proof. unfold plan_checked, sort_job, report_blocked. ctl_auto. Qed.
End PlanRuns.

#[export] Hint Resolve plan_checked_reads plan_checked_cooperative : ctl.

(** ** What a plan promises *)

(** The queues hold jobs of their own class. *)
Definition classed (qs : JobClass -> list Job) : Prop :=
  forall c, Forall (fun j => class j = c) (qs c).

Lemma class_queues_classed l : classed (class_queues l).
Proof. intros c. apply Forall_forall. intros j Hj. by apply list_elem_of_filter in Hj as [? _]. Qed.

Lemma round_rest_classed p qs : classed qs -> classed (round_rest p qs).
Proof. intros H c. unfold round_rest. apply Forall_drop, H. Qed.

Lemma filter_class_other (l : list Job) c d :
  c <> d -> Forall (fun j => class j = c) l -> filter (fun j => class j = d) l = [].
Proof.
  intros Hne H. induction H as [|j l Hj _ IH]; [done|]. rewrite filter_cons_False by congruence. done.
Qed.

Lemma filter_class_same (l : list Job) c :
  Forall (fun j => class j = c) l -> filter (fun j => class j = c) l = l.
Proof. apply filter_all_id. Qed.

(** What a round takes of one class. *)
Lemma round_taken_class p qs d :
  classed qs -> filter (fun j => class j = d) (round_taken p qs) = take (N.to_nat (quota p d)) (qs d).
Proof.
  intros Hcl. unfold round_taken, JOB_CLASS_ORDER. cbn [flat_map]. rewrite app_nil_r, !filter_app.
  assert (H : forall c, filter (fun j => class j = d) (take (N.to_nat (quota p c)) (qs c)) =
    if decide (c = d) then take (N.to_nat (quota p c)) (qs c) else []).
  { intros c. case_decide as Hc; subst; [apply filter_class_same|apply (filter_class_other _ c); [done|]];
      apply Forall_take, Hcl. }
  rewrite !H. destruct d; repeat (case_decide; [try done|try done]); by rewrite ?app_nil_r.
Qed.

Lemma rounds_class p d m : forall qs,
  classed qs -> total qs <= m -> filter (fun j => class j = d) (rounds m p qs) = qs d.
Proof.
  induction m as [|m IH]; intros qs Hcl Hm.
  { rewrite total_zero by lia. done. }
  cbn [rounds]. rewrite filter_app, round_taken_class by done.
  destruct (decide (total qs = 0)) as [Hz|Hz].
  { rewrite rounds_empty, (total_zero qs Hz); [by rewrite take_nil|].
    unfold total, queue_array, JOB_CLASS_ORDER, round_rest. cbn.
    by rewrite !(total_zero qs Hz), !drop_nil. }
  rewrite IH; [apply take_drop|by apply round_rest_classed|].
  pose proof (total_rest p qs). lia.
Qed.

Definition class_count (c : JobClass) (l : list Job) : nat :=
  length (filter (fun j => class j = c) l).

Lemma class_count_app c l k : class_count c (l ++ k) = class_count c l + class_count c k.
Proof. apply length_filter_app. Qed.

Lemma class_count_take_le c n l : class_count c (take n l) <= class_count c l.
Proof. rewrite <- (take_drop n l) at 2. rewrite class_count_app. lia. Qed.

Lemma class_count_taken p qs d :
  classed qs -> class_count d (round_taken p qs) = Nat.min (N.to_nat (quota p d)) (length (qs d)).
Proof. intros H. unfold class_count. by rewrite round_taken_class, length_take. Qed.

Lemma elem_of_rounds p m : forall qs j, j ∈ rounds m p qs -> exists c, j ∈ qs c.
Proof.
  induction m as [|m IH]; intros qs j; cbn [rounds]; [set_solver|].
  rewrite elem_of_app. intros [Hj|Hj].
  - unfold round_taken, JOB_CLASS_ORDER in Hj. cbn in Hj. rewrite app_nil_r, !elem_of_app in Hj.
    destruct_or! Hj; apply elem_of_take in Hj as (i & Hi & _);
      eexists; by eapply list_elem_of_lookup_2.
  - apply IH in Hj as [c Hj]. exists c. unfold round_rest in Hj.
    apply list_elem_of_lookup in Hj as [i Hi]. rewrite lookup_drop in Hi.
    by eapply list_elem_of_lookup_2.
Qed.

(** The bound behind the fairness theorem: when a job is admitted, each class has
    been served at most once more per full quota of the job's own class. *)
Lemma rounds_fair p d m : forall qs i j,
  classed qs -> rounds m p qs !! i = Some j ->
  class_count d (take i (rounds m p qs)) <=
    (class_count (class j) (take i (rounds m p qs)) / N.to_nat (quota p (class j)) + 1) *
    N.to_nat (quota p d).
Proof.
  induction m as [|m IH]; intros qs i j Hcl Hi; [done|]. cbn [rounds] in *.
  set (tk := round_taken p qs) in *. pose proof (class_count_taken p qs d Hcl) as Hd.
  destruct (decide (i < length tk)) as [Hlt|Hge].
  - rewrite take_app_le by lia.
    pose proof (class_count_take_le d i tk). subst tk. nia.
  - rewrite lookup_app_r in Hi by lia.
    rewrite take_app_ge by lia. rewrite !class_count_app.
    specialize (IH (round_rest p qs) _ j (round_rest_classed p qs Hcl) Hi).
    assert (Hq : class_count (class j) tk = N.to_nat (quota p (class j))).
    { subst tk. rewrite class_count_taken by done.
      destruct (elem_of_rounds p m (round_rest p qs) j) as [c Hc];
        [by eapply list_elem_of_lookup_2|].
      assert (class j = c) as -> by exact (proj1 (Forall_forall (fun j => class j = c) _)
        (round_rest_classed p qs Hcl c) j Hc).
      unfold round_rest in Hc. destruct (drop (N.to_nat (quota p c)) (qs c)) eqn:Hdr; [set_solver|].
      pose proof (length_drop (qs c) (N.to_nat (quota p c))) as Hl. rewrite Hdr in Hl. simpl in Hl. lia. }
    rewrite Hq. pose proof (quota_pos p (class j)).
    replace (N.to_nat (quota p (class j)) + class_count (class j) (take (i - length tk) (rounds m p (round_rest p qs))))
      with (class_count (class j) (take (i - length tk) (rounds m p (round_rest p qs))) + 1 * N.to_nat (quota p (class j))) by lia.
    rewrite Nat.div_add by lia. subst tk. nia.
Qed.

Lemma rounds_perm p m : forall qs,
  total qs <= m -> rounds m p qs ≡ₚ concat (queue_array qs).
Proof.
  induction m as [|m IH]; intros qs Hm.
  { rewrite nil_length_inv with (l := concat (queue_array qs)); [done|]. unfold total in Hm. lia. }
  cbn [rounds]. destruct (decide (total qs = 0)) as [Hz|Hz].
  { rewrite rounds_empty, queue_array_empty by
      (try done; unfold total, queue_array, JOB_CLASS_ORDER, round_rest; cbn;
       by rewrite !(total_zero qs Hz), !drop_nil).
    unfold round_taken, JOB_CLASS_ORDER. cbn. by rewrite !(total_zero qs Hz), !take_nil. }
  pose proof (total_rest p qs). rewrite IH by lia.
  unfold round_taken, round_rest, queue_array, JOB_CLASS_ORDER. cbn. rewrite !app_nil_r.
  rewrite <- (take_drop (N.to_nat (quota p ForegroundClass)) (qs ForegroundClass)) at 3.
  rewrite <- (take_drop (N.to_nat (quota p VisibleClass)) (qs VisibleClass)) at 3.
  rewrite <- (take_drop (N.to_nat (quota p BackgroundClass)) (qs BackgroundClass)) at 3.
  rewrite <- (take_drop (N.to_nat (quota p MaintenanceClass)) (qs MaintenanceClass)) at 3.
  rewrite <- (take_drop (N.to_nat (quota p RepairClass)) (qs RepairClass)) at 3.
  solve_Permutation.
Qed.

(** under any control closure the checked planner changes no state and
    either returns the reference plan or stops with the error of the first
    failing poll; uninterrupted it always returns the plan. *)
Theorem plan_checked_refines {S : Type} (pl : JobFairnessPlanner) (jobs : list Job) :
  cooperative (S := S) (plan_checked pl jobs) /\
  reads (S := S) (plan_checked pl jobs) /\
  (forall s : S, expect (plan_checked pl jobs) s = Some (reference_plan pl jobs, s)).
Proof.
  split; [apply plan_checked_cooperative|]. split; [apply plan_checked_reads|].
  intros s. apply runs_expect, plan_checked_runs.
Qed.

Lemma dependencies_satisfied_spec j (X : gset JobId) :
  dependencies_satisfied j X = true <-> forall d, d ∈ dependencies j -> d ∈ X.
Proof.
  unfold dependencies_satisfied. rewrite forallb_forall. split; intros H d Hd.
  - specialize (H d (proj1 (list_elem_of_In _ _) Hd)). by apply bool_decide_eq_true in H.
  - apply bool_decide_eq_true, H. by apply list_elem_of_In.
Qed.

Lemma unsatisfied_dependency j (X : gset JobId) :
  dependencies_satisfied j X = false -> exists d, d ∈ dependencies j /\ d ∉ X.
Proof.
  unfold dependencies_satisfied. induction (dependencies j) as [|d ds IH]; [done|].
  cbn [forallb]. intros [Hd|Hd]%andb_false_iff.
  - apply bool_decide_eq_false in Hd. exists d. set_solver.
  - destruct (IH Hd) as (e & ? & ?). exists e. set_solver.
Qed.

Lemma blocked_report (pl : JobFairnessPlanner) (jobs : list Job) (b : BlockedJob)
    (Hb : b ∈ blocked (reference_plan pl jobs)) :
  exists j, j ∈ jobs /\ blocked_id b = job_id j /\ blocked_class b = class j /\
    (missing_dependencies b <> [] \/ failed_dependencies b <> []) /\
    (forall d, d ∈ missing_dependencies b <->
       d ∈ dependencies j /\ d ∉ planner_completed pl /\ d ∉ planner_failed pl) /\
    (forall d, d ∈ failed_dependencies b <->
       d ∈ dependencies j /\ d ∉ planner_completed pl /\ d ∈ planner_failed pl).
Proof.
  unfold reference_plan in Hb. cbn [blocked] in Hb.
  apply list_elem_of_fmap in Hb as (j & -> & Hj). apply list_elem_of_filter in Hj as [Hun Hj].
  exists j. unfold block_job. cbn.
  assert (Hm : forall d, d ∈ filter (fun d => d ∉ planner_failed pl)
      (filter (fun d => d ∉ planner_completed pl) (dependencies j)) <->
      d ∈ dependencies j /\ d ∉ planner_completed pl /\ d ∉ planner_failed pl).
  { intros d. rewrite !list_elem_of_filter. tauto. }
  assert (Hf : forall d, d ∈ filter (fun d => d ∈ planner_failed pl)
      (filter (fun d => d ∉ planner_completed pl) (dependencies j)) <->
      d ∈ dependencies j /\ d ∉ planner_completed pl /\ d ∈ planner_failed pl).
  { intros d. rewrite !list_elem_of_filter. tauto. }
  split_and!; try done.
  assert (exists d, d ∈ dependencies j /\ d ∉ planner_completed pl) as (d & Hd & Hnc).
  { by apply unsatisfied_dependency. }
  destruct (decide (d ∈ planner_failed pl)) as [Hdf|Hdf].
  - right. intros Hnil. assert (d ∈ @nil JobId) as Hin by (rewrite <- Hnil; by apply Hf). set_solver.
  - left. intros Hnil. assert (d ∈ @nil JobId) as Hin by (rewrite <- Hnil; by apply Hm). set_solver.
Qed.

(** What a plan must be: exactly the jobs whose dependencies completed, each once, and
    within a class in the order they came; the others reported with their open
    dependencies, in order; and when a job is admitted after [k] jobs of its class, every
    class has been given at most [k / quota + 1] times its quota. *)
Record fair_plan (pl : JobFairnessPlanner) (jobs : list Job) (p : JobFairnessPlan) : Prop := {
  fp_ready : ready p ≡ₚ satisfied_jobs pl jobs;
  fp_order c : filter (fun j => class j = c) (ready p) = filter (fun j => class j = c) (satisfied_jobs pl jobs);
  fp_blocked : blocked_id <$> blocked p = job_id <$> unsatisfied_jobs pl jobs;
  fp_reports b : b ∈ blocked p ->
    exists j, j ∈ jobs /\ blocked_id b = job_id j /\ blocked_class b = class j /\
      (missing_dependencies b <> [] \/ failed_dependencies b <> []) /\
      (forall d, d ∈ missing_dependencies b <->
         d ∈ dependencies j /\ d ∉ planner_completed pl /\ d ∉ planner_failed pl) /\
      (forall d, d ∈ failed_dependencies b <->
         d ∈ dependencies j /\ d ∉ planner_completed pl /\ d ∈ planner_failed pl);
  fp_fair i j d : ready p !! i = Some j ->
    class_count d (take i (ready p)) <=
      (class_count (class j) (take i (ready p)) / N.to_nat (quota (planner_policy pl) (class j)) + 1) *
      N.to_nat (quota (planner_policy pl) d)
}.
Lemma reference_plan_fair pl jobs : fair_plan pl jobs (reference_plan pl jobs).
Proof.
  assert (Ht : total (class_queues (satisfied_jobs pl jobs)) <= length jobs).
  { unfold total. rewrite class_queues_total. apply length_filter. }
  split.
  - unfold reference_plan. cbn [ready]. rewrite rounds_perm by done. apply class_queues_total.
  - intros c. unfold reference_plan. cbn [ready]. rewrite (rounds_class _ c) by (done || apply class_queues_classed). done.
  - unfold reference_plan. cbn [blocked]. by rewrite <- list_fmap_compose.
  - apply blocked_report.
  - intros i j d Hj. apply rounds_fair; [apply class_queues_classed|done].
Qed.

(** C37: the planner is complete and starves no class.  Under any control closure a plan
    that [plan_checked] returns admits exactly the jobs whose dependencies completed, each
    once and within a class in the order they came, and reports every other job with its
    open dependencies, one at least, split into failed and missing; when a job is
    admitted after [k] jobs of its own class, every class has been given at most
    [(k / quota + 1)] times its quota; and [plan], whose closure never fails, always
    returns a plan. *)
Theorem plan_fair {S : Type} (pl : JobFairnessPlanner) (jobs : list Job) :
  ensures (S := S) (plan_checked pl jobs) (fair_plan pl jobs) /\ exists p, plan pl jobs = Some p /\ fair_plan pl jobs p.
Proof.
  assert (Hc : forall St, computes (S := St) (plan_checked pl jobs) (reference_plan pl jobs)).
  { intros St. split; [intros s; apply plan_checked_runs|apply plan_checked_cooperative|apply plan_checked_reads]. }
  split; [eapply settles_ensures; [apply computes_settles, Hc|apply reference_plan_fair]|].
  exists (reference_plan pl jobs). split; [|apply reference_plan_fair]. unfold plan. by rewrite (computes_expect _ _ tt (Hc unit)).
Qed.

(** ** Witnesses *)
Definition demo_job (id : N) (c : JobClass) (deps : list N) : Job :=
  mkJob id Normal c None "job" None deps 0.
Definition demo_planner : JobFairnessPlanner :=
  with_failed (with_completed (new_planner default_fairness) [90%N]) [91%N].
Definition demo_jobs : list Job :=
  [demo_job 1 ForegroundClass []; demo_job 2 ForegroundClass []; demo_job 3 ForegroundClass [90%N];
   demo_job 4 ForegroundClass []; demo_job 5 RepairClass []; demo_job 6 VisibleClass [91%N; 92%N]].

Lemma plan_fair_witness : exists p, plan demo_planner demo_jobs = Some p /\ job_id <$> ready p = [1; 2; 3; 5; 4]%N /\
  class_count ForegroundClass (take 3 (ready p)) <= 3.
Proof.
  destruct (plan_fair (S := unit) demo_planner demo_jobs) as [_ (p & E & Hp)]. exists p. split; [exact E|].
  assert (Er : plan demo_planner demo_jobs = Some (reference_plan demo_planner demo_jobs)) by (vm_compute; reflexivity).
  rewrite E in Er. injection Er as Er. split; [rewrite Er; vm_compute; reflexivity|].
  etransitivity; [apply (fp_fair _ _ _ Hp 3 (demo_job 5 RepairClass []) ForegroundClass); rewrite Er; vm_compute; reflexivity|].
  rewrite Er. apply Nat.leb_le. vm_compute. reflexivity.
Defined.
