(* ===== verification/Pressure.v ===== *)
(** * Scheduling under pressure ([crates/jobs/src/schedule.rs])

    The load of the machine decides whether a job runs, runs throttled or is
    deferred, with how many threads, and with which volume and fairness
    limits. *)
From S2P Require Import Prelude Types JobModel Fair.

Inductive JobIoPressure : Type := IoNominal | IoElevated | IoSaturated.
Inductive JobThermalState : Type := ThermalNominal | ThermalFair | ThermalSerious | ThermalCritical.
Inductive JobBatteryState : Type := AcPower | Battery | LowPower.
Inductive JobUserActivity : Type := Idle | Active.
Inductive SchedulingAction : Type := Run | Throttle | Defer.

Record SchedulingPressure : Type := mkPressure {
  io : JobIoPressure;
  thermal : JobThermalState;
  battery : JobBatteryState;
  user_activity : JobUserActivity
}.

Definition default_pressure : SchedulingPressure := mkPressure IoNominal ThermalNominal AcPower Idle.

Definition SchedulingAction_as_str (a : SchedulingAction) : string :=
  match a with Run => "Run" | Throttle => "Throttle" | Defer => "Defer" end.

(** ** Volume limits *)
Record VolumeConcurrencyPolicy : Type := mkVolumePolicy {
  default_limit : N;
  overrides : gmap VolumeId N
}.

Definition new_volume_policy (limit : N) : VolumeConcurrencyPolicy :=
  mkVolumePolicy (N.max limit 1) ∅.
(** [usize::MAX]. *)
Definition unlimited : VolumeConcurrencyPolicy := new_volume_policy (U64 - 1).
Definition default_volume_policy : VolumeConcurrencyPolicy := new_volume_policy 1.
Definition with_volume_limit (p : VolumeConcurrencyPolicy) (v : VolumeId) (limit : N)
    : VolumeConcurrencyPolicy :=
  mkVolumePolicy (default_limit p) (<[v := N.max limit 1]> (overrides p)).
Definition limit_for (p : VolumeConcurrencyPolicy) (v : VolumeId) : N :=
  default (default_limit p) (overrides p !! v).

(** ** Decisions *)
Record SchedulingDecision : Type := mkDecision {
  action : SchedulingAction;
  worker_threads : N;
  volume_policy : VolumeConcurrencyPolicy;
  fairness_policy : JobFairnessPolicy
}.

Definition action_for (self : SchedulingPressure) (p : Priority) : SchedulingAction :=
  match p with
  | Visible | Interactive => Run
  | _ =>
      if match io self with IoSaturated => true | _ => false end ||
         match thermal self with ThermalCritical => true | _ => false end
      then Defer
      else if match io self with IoElevated => true | _ => false end ||
              match thermal self with ThermalSerious => true | _ => false end ||
              match battery self with Battery | LowPower => true | _ => false end ||
              match user_activity self with Active => true | _ => false end
      then Throttle
      else Run
  end.

Definition should_throttle_latency_work (self : SchedulingPressure) : bool :=
  match io self with IoElevated | IoSaturated => true | _ => false end ||
  match thermal self with ThermalSerious | ThermalCritical => true | _ => false end ||
  match battery self with Battery | LowPower => true | _ => false end ||
  match user_activity self with Active => true | _ => false end.

Definition action_for_payload (self : SchedulingPressure) (p : Priority) (k : JobPayloadKind)
    : SchedulingAction :=
  match p with
  | Interactive => Run
  | Visible =>
      match k with
      | OperationKind | IndexingKind | RepairKind => Run
      | ExtractionKind | ThumbnailKind | PreviewKind =>
          if should_throttle_latency_work self then Throttle else Run
      end
  | _ => action_for self p
  end.

Definition throttle_limit (limit : N) : N := N.max (limit / 2) 1.

Definition throttled_fairness : JobFairnessPolicy :=
  with_quota (with_quota (with_quota (with_quota (with_quota default_fairness
    ForegroundClass 4) VisibleClass 4) BackgroundClass 1) MaintenanceClass 1) RepairClass 1.

Definition fairness_policy_for (a : SchedulingAction) : JobFairnessPolicy :=
  match a with
  | Run => default_fairness
  | Throttle => throttled_fairness
  | Defer => throttled_fairness
  end.

(** The common tail of [decide] and [decide_for_payload]. *)
Definition decision_of (a : SchedulingAction) (base_threads0 base_volume_limit0 : N)
    : SchedulingDecision :=
  let base_threads := N.max base_threads0 1 in
  let base_volume_limit := N.max base_volume_limit0 1 in
  let '(threads, vlimit) :=
    match a with
    | Run => (base_threads, base_volume_limit)
    | Throttle => (throttle_limit base_threads, throttle_limit base_volume_limit)
    | Defer => (0%N, 1%N)
    end in
  mkDecision a threads (new_volume_policy vlimit) (fairness_policy_for a).

Definition decide_action (self : SchedulingPressure) (p : Priority) (base_threads base_volume_limit : N)
    : SchedulingDecision :=
  decision_of (action_for self p) base_threads base_volume_limit.

Definition decide_for_payload (self : SchedulingPressure) (p : Priority) (k : JobPayloadKind)
    (base_threads base_volume_limit : N) : SchedulingDecision :=
  decision_of (action_for_payload self p k) base_threads base_volume_limit.

(** ** Orders of load and of severity *)
Definition action_rank (a : SchedulingAction) : N :=
  match a with Run => 0 | Throttle => 1 | Defer => 2 end.
Definition io_rank (x : JobIoPressure) : N :=
  match x with IoNominal => 0 | IoElevated => 1 | IoSaturated => 2 end.
Definition thermal_rank (x : JobThermalState) : N :=
  match x with ThermalNominal => 0 | ThermalFair => 1 | ThermalSerious => 2 | ThermalCritical => 3 end.
Definition battery_rank (x : JobBatteryState) : N :=
  match x with AcPower => 0 | Battery => 1 | LowPower => 2 end.
Definition activity_rank (x : JobUserActivity) : N := match x with Idle => 0 | Active => 1 end.

(** [lighter a b]: [b] is at least as loaded as [a] in every respect. *)
Definition lighter (a b : SchedulingPressure) : Prop :=
  (io_rank (io a) <= io_rank (io b) /\ thermal_rank (thermal a) <= thermal_rank (thermal b) /\
   battery_rank (battery a) <= battery_rank (battery b) /\
   activity_rank (user_activity a) <= activity_rank (user_activity b))%N.

(** The decision table in terms of the ranks. *)
Lemma action_for_rank a p :
  action_rank (action_for a p) =
  if (2 <=? Priority_rank p)%N then 0%N
  else if ((2 <=? io_rank (io a)) || (3 <=? thermal_rank (thermal a)))%N then 2%N
  else if ((1 <=? io_rank (io a)) || (2 <=? thermal_rank (thermal a)) ||
           (1 <=? battery_rank (battery a)) || (1 <=? activity_rank (user_activity a)))%N then 1%N
  else 0%N.
Proof. by destruct p, a as [[] [] [] []]. Qed.

Lemma latency_rank a :
  should_throttle_latency_work a =
  ((1 <=? io_rank (io a)) || (2 <=? thermal_rank (thermal a)) ||
   (1 <=? battery_rank (battery a)) || (1 <=? activity_rank (user_activity a)))%N.
Proof. by destruct a as [[] [] [] []]. Qed.

(** [leb] is monotone in its second argument. *)
Lemma leb_mono n x y : (x <= y)%N -> (n <=? x)%N = true -> (n <=? y)%N = true.
Proof. rewrite !N.leb_le. lia. Qed.

Lemma latency_mono a b :
  lighter a b -> should_throttle_latency_work a = true -> should_throttle_latency_work b = true.
Proof.
  intros (Hi & Ht & Hb & Hu). rewrite !latency_rank, !orb_true_iff.
  pose proof (leb_mono 1 _ _ Hi). pose proof (leb_mono 2 _ _ Ht).
  pose proof (leb_mono 1 _ _ Hb). pose proof (leb_mono 1 _ _ Hu). tauto.
Qed.

Lemma action_for_mono a b p q :
  lighter a b -> (Priority_rank q <= Priority_rank p)%N ->
  (action_rank (action_for a p) <= action_rank (action_for b q))%N.
Proof.
  intros Hab Hp. pose proof (latency_mono a b Hab) as Hl. destruct Hab as (Hi & Ht & _).
  rewrite !action_for_rank, <- !latency_rank.
  pose proof (leb_mono 2 _ _ Hp) as Hpr. pose proof (leb_mono 2 _ _ Hi) as Hi2.
  pose proof (leb_mono 3 _ _ Ht) as Ht3.
  destruct (2 <=? Priority_rank p)%N; [lia|].
  destruct (2 <=? Priority_rank q)%N; [by specialize (Hpr eq_refl)|].
  destruct (2 <=? io_rank (io a))%N; [rewrite Hi2 by done; simpl; lia|].
  destruct (3 <=? thermal_rank (thermal a))%N;
    [rewrite Ht3 by done; destruct (2 <=? io_rank (io b))%N; cbn; lia|].
  destruct (should_throttle_latency_work a); [rewrite Hl by done|]; simpl; repeat case_match; lia.
Qed.

(** Latency work is throttled exactly when background work would not run. *)
Lemma latency_action a p :
  p = Normal \/ p = Background ->
  should_throttle_latency_work a = negb (bool_decide (action_rank (action_for a p) = 0%N)).
Proof. intros [-> | ->]; by destruct a as [[] [] [] []]. Qed.

Lemma limit_for_pos p v :
  (1 <= default_limit p)%N -> map_Forall (fun _ n => 1 <= n)%N (overrides p) ->
  (1 <= limit_for p v)%N.
Proof.
  intros Hd Ho. unfold limit_for. destruct (overrides p !! v) as [n|] eqn:Hv; simpl; [|done].
  by apply (Ho v).
Qed.

(** a more loaded machine, or a less urgent job, never gets a milder
    decision, for jobs with and without payload. *)
Theorem decisions_monotone (a b : SchedulingPressure) (p q : Priority) (k : JobPayloadKind)
    (Hload : lighter a b) (Hprio : (Priority_rank q <= Priority_rank p)%N) (t v : N) :
  (action_rank (action (decide_action a p t v)) <= action_rank (action (decide_action b q t v)))%N /\
  (action_rank (action (decide_for_payload a p k t v)) <=
   action_rank (action (decide_for_payload b q k t v)))%N.
Proof.
  assert (forall x t v, action (decision_of x t v) = x) as Ha by (by intros []).
  unfold decide_action, decide_for_payload. rewrite !Ha. split; [by apply action_for_mono|].
  pose proof (action_for_mono a b p q Hload Hprio) as Hm.
  pose proof (latency_mono a b Hload) as Hl.
  assert (Hlat : should_throttle_latency_work a = true -> forall q', q' = Normal \/ q' = Background ->
    (1 <= action_rank (action_for b q'))%N).
  { intros Hsa q' Hq'. specialize (Hl Hsa). rewrite (latency_action b q' Hq') in Hl.
    apply negb_true_iff, bool_decide_eq_false in Hl. lia. }
  unfold action_for_payload.
  destruct p, q; simpl in Hprio; try lia; try exact Hm; destruct k; try (simpl; lia);
    destruct (should_throttle_latency_work a); cbn [action_rank]; try lia;
    try (apply Hlat; auto); by rewrite (Hl eq_refl).
Qed.

(** the limits of a decision are usable and within the configured ones: a
    running or throttled job gets between one thread and the base, a deferred one
    none; the volume limit is at least one and at most the base. *)
Theorem decision_limits (self : SchedulingPressure) (p : Priority) (k : JobPayloadKind) (t v : N) :
  let d := decide_for_payload self p k t v in
  (worker_threads d = 0%N <-> action d = Defer) /\
  (worker_threads d <= N.max t 1)%N /\
  (forall vol, 1 <= limit_for (volume_policy d) vol <= N.max v 1)%N /\
  (action d = Throttle -> worker_threads d = N.max (N.max t 1 / 2) 1) /\
  (p = Interactive -> action d = Run /\ worker_threads d = N.max t 1) /\
  (p = Visible -> action d <> Defer).
Proof.
  assert (Hdiv : forall n, (N.max (N.max n 1 / 2) 1 <= N.max n 1)%N).
  { intros n. pose proof (N.Div0.div_le_mono (N.max n 1) (N.max n 1) 2).
    assert (N.max n 1 / 2 <= N.max n 1)%N by (apply N.Div0.div_le_upper_bound; lia). lia. }
  pose proof (Hdiv t). pose proof (Hdiv v).
  unfold decide_for_payload.
  assert (p = Interactive -> action_for_payload self p k = Run) as Hi by (by intros ->).
  assert (p = Visible -> action_for_payload self p k <> Defer) as Hv.
  { intros ->. simpl. destruct k; try done; by destruct (should_throttle_latency_work self). }
  destruct (action_for_payload self p k) eqn:Ha; cbn; unfold throttle_limit;
    (split_and!; [split; intros; (done || lia)|lia|intros; unfold limit_for; simpl; rewrite lookup_empty; simpl; lia
      |done|intros ->; specialize (Hi eq_refl); done|by intros Hp; apply Hv]).
Qed.

Lemma decisions_monotone_witness :
  (action_rank (action (decide_action default_pressure Normal 8 4)) <=
   action_rank (action (decide_action (mkPressure IoSaturated ThermalFair Battery Idle) Background 8 4)))%N.
Proof.
  apply (decisions_monotone default_pressure (mkPressure IoSaturated ThermalFair Battery Idle)
    Normal Background OperationKind).
  - unfold lighter. simpl. lia.
  - simpl. lia.
Defined.
