(* ===== verification/Scheduler.v ===== *)
(** * The job scheduler ([crates/jobs/src/lib.rs], [impl Scheduler])

    A priority queue of jobs, the sets of cancelled, completed and failed job
    ids, and the order in which ids completed and failed, which bounds the
    ledgers.  Operations come in [_checked] forms that poll a control closure
    (see [Control.v]); the state they work on is the scheduler together with the
    store of cancellation tokens, which the jobs handed out share with it.  At the end:
    what an uninterrupted run of each operation computes. *)
From S2P Require Import Prelude Types Text Control Cancel JobModel Fair.
#[local] Open Scope string_scope.
#[local] Open Scope list_scope.

Definition COMPLETED_DEPENDENCY_RETENTION : N := 4096.

(** ** The queue: [BinaryHeap<QueuedJob>]

    A max-heap pops a greatest element and promises nothing else of its order:
    it is modelled by the list of its elements in the order they are popped. *)

(** [impl Ord for QueuedJob]: by priority, then the older job first. *)
Definition QueuedJob_cmp (a b : Job) : comparison :=
  match N.compare (Priority_rank (priority a)) (Priority_rank (priority b)) with
  | Eq => N.compare (job_id b) (job_id a)
  | c => c
  end.

Fixpoint heap_push (j : Job) (q : list Job) : list Job :=
  match q with
  | [] => [j]
  | y :: q' => match QueuedJob_cmp j y with Gt => j :: q | _ => y :: heap_push j q' end
  end.

(** [into_iter().collect()]. *)
Definition heap_collect (l : list Job) : list Job := foldl (fun q j => heap_push j q) [] l.

(** ** State *)
Record Scheduler : Type := mkScheduler {
  next : N;
  queue : list Job;
  cancelled_ids : gset JobId;
  completed : gset JobId;
  completed_order : list JobId;
  failed : gset JobId;
  failed_order : list JobId
}.

Definition new_scheduler : Scheduler := mkScheduler 0 [] ∅ ∅ [] ∅ [].
Definition new_starting_after (id : JobId) : Scheduler := mkScheduler id [] ∅ ∅ [] ∅ [].

Record World : Type := mkWorld { sched : Scheduler; tokens : Tokens }.

Definition with_sched (f : Scheduler -> Scheduler) (w : World) : World :=
  mkWorld (f (sched w)) (tokens w).
Definition set_queue_of (q : list Job) (s : Scheduler) : Scheduler :=
  mkScheduler (next s) q (cancelled_ids s) (completed s) (completed_order s) (failed s) (failed_order s).
Definition set_cancelled_ids (x : gset JobId) (s : Scheduler) : Scheduler :=
  mkScheduler (next s) (queue s) x (completed s) (completed_order s) (failed s) (failed_order s).
Definition set_completed (x : gset JobId) (o : list JobId) (s : Scheduler) : Scheduler :=
  mkScheduler (next s) (queue s) (cancelled_ids s) x o (failed s) (failed_order s).
Definition set_failed (x : gset JobId) (o : list JobId) (s : Scheduler) : Scheduler :=
  mkScheduler (next s) (queue s) (cancelled_ids s) (completed s) (completed_order s) x o.

(** [job.cancel()]: the job holds its token, so the walk ends (see
    [cancel_correct]). *)
Definition cancel_job (j : Job) (ts : Tokens) : Tokens := default ts (cancel (job_cancel j) ts).

(** ** Scheduling *)

(** [AtomicU64::fetch_add] wraps; the id is the old value plus one. *)
Definition schedule_with_options (p : Priority) (c : JobClass) (k : option JobPayloadKind)
    (lbl : string) (v : option VolumeId) (deps : list JobId) (w : World) : Job * World :=
  let s := sched w in
  let id := wrapping_add (next s) 1 in
  let '(t, ts) := new_token (tokens w) in
  let job := mkJob id p c k lbl v deps t in
  (job, mkWorld (mkScheduler (wrapping_add (next s) 1) (heap_push job (queue s)) (cancelled_ids s)
           (completed s) (completed_order s) (failed s) (failed_order s)) ts).

Definition schedule_with_volume (p : Priority) (lbl : string) (v : option VolumeId) :=
  schedule_with_options p (JobClass_from_priority p) None lbl v [].
Definition schedule (p : Priority) (lbl : string) := schedule_with_volume p lbl None.
Definition schedule_in_class (p : Priority) (c : JobClass) (lbl : string) :=
  schedule_with_options p c None lbl None [].
Definition schedule_with_dependencies (p : Priority) (lbl : string) (deps : list JobId) :=
  schedule_with_options p (JobClass_from_priority p) None lbl None deps.
Definition schedule_in_class_with_dependencies (p : Priority) (c : JobClass) (lbl : string)
    (deps : list JobId) := schedule_with_options p c None lbl None deps.
Definition schedule_on_volume (p : Priority) (lbl : string) (v : VolumeId) :=
  schedule_with_volume p lbl (Some v).
Definition schedule_on_volume_in_class (p : Priority) (c : JobClass) (lbl : string) (v : VolumeId) :=
  schedule_with_options p c None lbl (Some v) [].
Definition schedule_on_volume_with_dependencies (p : Priority) (lbl : string) (v : VolumeId)
    (deps : list JobId) := schedule_with_options p (JobClass_from_priority p) None lbl (Some v) deps.
Definition schedule_on_volume_in_class_with_dependencies (p : Priority) (c : JobClass)
    (lbl : string) (v : VolumeId) (deps : list JobId) :=
  schedule_with_options p c None lbl (Some v) deps.
Definition schedule_payload (p : Priority) (k : JobPayloadKind) (lbl : string) :=
  schedule_with_options p (JobClass_from_priority p) (Some k) lbl None [].
Definition schedule_on_volume_payload (p : Priority) (k : JobPayloadKind) (lbl : string)
    (v : VolumeId) := schedule_with_options p (JobClass_from_priority p) (Some k) lbl (Some v) [].
Definition schedule_on_volume_payload_in_class (p : Priority) (c : JobClass) (k : JobPayloadKind)
    (lbl : string) (v : VolumeId) := schedule_with_options p c (Some k) lbl (Some v) [].

(** ** The dependency ledgers *)

(** The ids the queued jobs depend on. *)
Definition referenced_ids (q : list Job) : gset JobId :=
  list_to_set (flat_map dependencies q).

(** The loop of [prune_completed_ledger_parts].  One lap over the order visits
    every id and a second one finds only referenced ones: two laps bound it. *)
Fixpoint prune_loop (fuel : nat) (referenced : gset JobId) (ids : gset JobId)
    (order : list JobId) (rotated : N) : gset JobId * list JobId :=
  match fuel with
  | O => (ids, order)
  | S fuel' =>
      if ((COMPLETED_DEPENDENCY_RETENTION <? N.of_nat (length order)) &&
          (rotated <? N.of_nat (length order)))%N then
        match order with
        | [] => (ids, order)
        | id :: rest =>
            if decide (id ∈ referenced)
            then prune_loop fuel' referenced ids (rest ++ [id]) (rotated + 1)
            else prune_loop fuel' referenced (ids ∖ {[id]}) rest 0
        end
      else (ids, order)
  end.

Definition prune_completed_ledger_parts (q : list Job) (ids : gset JobId) (order : list JobId)
    : gset JobId * list JobId :=
  let order' := filter (fun id => id ∈ ids) order in
  prune_loop (2 * length order' + 1) (referenced_ids q) ids order' 0.

Definition prune_completed_ledger (s : Scheduler) : Scheduler :=
  let '(c, co) := prune_completed_ledger_parts (queue s) (completed s) (completed_order s) in
  let '(f, fo) := prune_completed_ledger_parts (queue s) (failed s) (failed_order s) in
  set_failed f fo (set_completed c co s).

(** ** Completion and cancellation marks *)

Definition cancel_id (id : JobId) (s : Scheduler) : Scheduler :=
  set_cancelled_ids ({[id]} ∪ cancelled_ids s) s.

Definition mark_completed_checked (id : JobId) : M World unit :=
  check_control ;;
  (w <- mget ;
   let s := sched w in
   let was_cancelled := bool_decide (id ∈ cancelled_ids s) in
   let inserted := negb (bool_decide (id ∈ completed s)) in
   mmodify (with_sched (fun s => set_cancelled_ids (cancelled_ids s ∖ {[id]}) s)) ;;
   mmodify (with_sched (fun s => set_completed ({[id]} ∪ completed s)
     (if inserted then completed_order s ++ [id] else completed_order s) s)) ;;
   r <- poll ;
   match r with
   | Err err =>
       mmodify (with_sched (fun s =>
         if inserted then set_completed (completed s ∖ {[id]})
           (filter (fun x => x <> id) (completed_order s)) s else s)) ;;
       mmodify (with_sched (fun s =>
         if was_cancelled then set_cancelled_ids ({[id]} ∪ cancelled_ids s) s else s)) ;;
       mfail err
   | Ok _ => mmodify (with_sched prune_completed_ledger)
   end).

Definition mark_completed (id : JobId) (w : World) : option (unit * World) :=
  expect (mark_completed_checked id) w.

(** A [HashSet] has no order: collected and sorted by id. *)
Definition completed_jobs (s : Scheduler) : list JobId := sort_by_key id (elements (completed s)).

(** ** Worker reports *)

Record SchedulerReportIngestion : Type := mkIngestion {
  ing_completed : list JobId;
  ing_cancelled : list JobId;
  ing_failed : list JobId
}.

Record Staged : Type := mkStaged {
  st_cancelled : gset JobId;
  st_completed : gset JobId;
  st_completed_order : list JobId;
  st_failed : gset JobId;
  st_failed_order : list JobId;
  st_seen : gset JobId;
  st_done : SchedulerReportIngestion
}.

Definition without (id : JobId) (l : list JobId) : list JobId := filter (fun x => x <> id) l.
Definition push_new (id : JobId) (present : gset JobId) (l : list JobId) : list JobId :=
  if decide (id ∈ present) then l else l ++ [id].

(** The [match &outcome.status] of the loop. *)
Definition stage_outcome (o : TaskOutcome) (st : Staged) : Staged :=
  let id := outcome_id o in
  let seen := {[id]} ∪ st_seen st in
  let d := st_done st in
  match outcome_status o with
  | Started => mkStaged (st_cancelled st) (st_completed st) (st_completed_order st) (st_failed st)
                 (st_failed_order st) seen d
  | Completed =>
      mkStaged (st_cancelled st ∖ {[id]}) ({[id]} ∪ st_completed st)
        (push_new id (st_completed st) (st_completed_order st))
        (st_failed st ∖ {[id]}) (without id (st_failed_order st)) seen
        (mkIngestion (ing_completed d ++ [id]) (ing_cancelled d) (ing_failed d))
  | CancelledStatus =>
      mkStaged ({[id]} ∪ st_cancelled st) (st_completed st ∖ {[id]})
        (without id (st_completed_order st)) (st_failed st ∖ {[id]})
        (without id (st_failed_order st)) seen
        (mkIngestion (ing_completed d) (ing_cancelled d ++ [id]) (ing_failed d))
  | Failed _ =>
      mkStaged (st_cancelled st ∖ {[id]}) (st_completed st ∖ {[id]})
        (without id (st_completed_order st)) ({[id]} ∪ st_failed st)
        (push_new id (st_failed st) (st_failed_order st)) seen
        (mkIngestion (ing_completed d) (ing_cancelled d) (ing_failed d ++ [id]))
  end.

Definition duplicate_outcome (id : JobId) : GfmError :=
  Format ("duplicate worker outcome for job " +:+ u64_to_string id).

Definition ingest_outcome (st : Staged) (o : TaskOutcome) : M World Staged :=
  check_control ;;
  (if decide (outcome_status o = Started) then mret st
   else if decide (outcome_id o ∈ st_seen st) then mfail (duplicate_outcome (outcome_id o))
   else st' <- mret (stage_outcome o st) ; check_control ;; mret st').

Definition stage_start (s : Scheduler) : Staged :=
  mkStaged (cancelled_ids s) (completed s) (completed_order s) (failed s) (failed_order s) ∅
    (mkIngestion [] [] []).

Definition sorted_ingestion (d : SchedulerReportIngestion) : SchedulerReportIngestion :=
  mkIngestion (sort_by_key id (ing_completed d)) (sort_by_key id (ing_cancelled d))
    (sort_by_key id (ing_failed d)).

(** The assignments that publish the staged sets, pruned. *)
Definition commit_staged (st : Staged) (s : Scheduler) : Scheduler :=
  let '(c, co) := prune_completed_ledger_parts (queue s) (st_completed st) (st_completed_order st) in
  let '(f, fo) := prune_completed_ledger_parts (queue s) (st_failed st) (st_failed_order st) in
  set_failed f fo (set_completed c co (set_cancelled_ids (st_cancelled st) s)).

Definition apply_worker_report_checked (report : WorkerReport) : M World SchedulerReportIngestion :=
  check_control ;;
  (w <- mget ;
   st <- mfor ingest_outcome (stage_start (sched w)) (outcomes report) ;
   check_control ;;
   mmodify (with_sched (commit_staged st)) ;;
   mret (sorted_ingestion (st_done st))).

Definition apply_worker_report (report : WorkerReport) (w : World)
    : option (SchedulerReportIngestion * World) :=
  expect (apply_worker_report_checked report) w.

(** ** Rebinding and cancelling by volume *)

Definition set_volume (v : VolumeId) (j : Job) : Job :=
  mkJob (job_id j) (priority j) (class j) (payload_kind j) (label j) (Some v) (dependencies j)
    (job_cancel j).

Definition bind_one (id : JobId) (v : VolumeId) (acc : list Job * option Job) (j : Job)
    : M World (list Job * option Job) :=
  check_control ;;
  (acc' <- mret (if decide (job_id j = id)
                 then (acc.1 ++ [set_volume v j], Some (set_volume v j))
                 else (acc.1 ++ [j], acc.2)) ;
   check_control ;; mret acc').

Definition bind_volume_checked (id : JobId) (v : VolumeId) : M World (option Job) :=
  check_control ;;
  (w <- mget ;
   r <- mfor (bind_one id v) ([], None) (queue (sched w)) ;
   check_control ;;
   mmodify (with_sched (set_queue_of (heap_collect r.1))) ;;
   mret r.2).

Definition bind_volume (id : JobId) (v : VolumeId) (w : World) : option (option Job * World) :=
  expect (bind_volume_checked id v) w.

Record CancelledJob : Type := mkCancelledJob {
  cj_id : JobId;
  cj_label : string;
  cj_class : JobClass;
  cj_priority : Priority;
  cj_payload_kind : option JobPayloadKind
}.

Record VolumeCancellationReport : Type := mkVolumeReport {
  vr_volume : VolumeId;
  vr_class : option JobClass;
  vr_payload_kinds : list JobPayloadKind;
  vr_cancelled : list CancelledJob
}.

Definition cancelled_job (j : Job) : CancelledJob :=
  mkCancelledJob (job_id j) (label j) (class j) (priority j) (payload_kind j).

(** The condition that selects the jobs to cancel. *)
Definition cancels_volume_job (v : VolumeId) (c : option JobClass)
    (kinds : option (list JobPayloadKind)) (j : Job) : bool :=
  bool_decide (volume j = Some v) &&
  match c with None => true | Some c => bool_decide (c = class j) end &&
  match kinds with
  | None => true
  | Some ks => match payload_kind j with Some k => bool_decide (k ∈ ks) | None => false end
  end.

Definition select_one (v : VolumeId) (c : option JobClass) (kinds : option (list JobPayloadKind))
    (acc : list Job * list Job) (j : Job) : M World (list Job * list Job) :=
  check_control ;;
  (acc' <- mret (if cancels_volume_job v c kinds j then (acc.1, acc.2 ++ [j])
                 else (acc.1 ++ [j], acc.2)) ;
   check_control ;; mret acc').

(** [for job in &cancelled_jobs { self.cancelled.remove(&job.id); job.cancel(); }]. *)
Definition cancel_jobs (js : list Job) (w : World) : World :=
  foldl (fun w j => mkWorld (set_cancelled_ids (cancelled_ids (sched w) ∖ {[job_id j]}) (sched w))
                      (cancel_job j (tokens w))) w js.

Definition cancel_volume_jobs_checked (v : VolumeId) (c : option JobClass)
    (kinds : option (list JobPayloadKind)) : M World VolumeCancellationReport :=
  check_control ;;
  (w <- mget ;
   r <- mfor (select_one v c kinds) ([], []) (queue (sched w)) ;
   check_control ;;
   mmodify (cancel_jobs r.2) ;;
   mmodify (with_sched (set_queue_of (heap_collect r.1))) ;;
   mret (mkVolumeReport v c (default [] kinds) (sort_by_key cj_id (cancelled_job <$> r.2)))).

Definition cancel_volume_jobs (v : VolumeId) (c : option JobClass) (w : World)
    : option (VolumeCancellationReport * World) :=
  expect (cancel_volume_jobs_checked v c None) w.
Definition cancel_volume_jobs_for_payload_kinds (v : VolumeId) (c : option JobClass)
    (kinds : list JobPayloadKind) (w : World) : option (VolumeCancellationReport * World) :=
  expect (cancel_volume_jobs_checked v c (Some kinds)) w.

(** ** Taking jobs *)

(** [pop_next]: the loop runs down the queue. *)
Fixpoint pop_loop (q : list Job) (w : World) : option Job * World :=
  match q with
  | [] => (None, with_sched (set_queue_of []) w)
  | j :: q' =>
      if decide (job_id j ∈ cancelled_ids (sched w)) then
        pop_loop q' (mkWorld (set_cancelled_ids (cancelled_ids (sched w) ∖ {[job_id j]}) (sched w))
                       (cancel_job j (tokens w)))
      else (Some j, with_sched (set_queue_of q') w)
  end.
Definition pop_next (w : World) : option Job * World := pop_loop (queue (sched w)) w.

Record StagedReadyDrain : Type := mkDrain {
  dr_ready : list Job;
  dr_cancelled : gset JobId;
  dr_cancelled_jobs : list Job
}.

Definition drain_one (ids : gset JobId) (d : StagedReadyDrain) (j : Job) : M World StagedReadyDrain :=
  check_control ;;
  (if decide (job_id j ∈ ids) then mret d
   else if decide (job_id j ∈ dr_cancelled d) then
     mret (mkDrain (dr_ready d) (dr_cancelled d ∖ {[job_id j]}) (dr_cancelled_jobs d ++ [j]))
   else
     d' <- mret (mkDrain (dr_ready d ++ [j]) (dr_cancelled d) (dr_cancelled_jobs d)) ;
     check_control ;; mret d').

Definition stage_ready_drain_checked : M World StagedReadyDrain :=
  check_control ;;
  (w <- mget ;
   d <- mfor (drain_one (completed (sched w))) (mkDrain [] (cancelled_ids (sched w)) [])
          (queue (sched w)) ;
   check_control ;; mret d).

(** [for job in &staged.cancelled_jobs { job.cancel(); }]. *)
Definition cancel_tokens (js : list Job) (w : World) : World :=
  mkWorld (sched w) (foldl (fun ts j => cancel_job j ts) (tokens w) js).

Definition drain_ready_checked : M World (list Job) :=
  d <- stage_ready_drain_checked ;
  check_control ;;
  mmodify (cancel_tokens (dr_cancelled_jobs d)) ;;
  mmodify (with_sched (fun s => set_cancelled_ids (dr_cancelled d) (set_queue_of [] s))) ;;
  mret (dr_ready d).

Definition drain_ready (w : World) : option (list Job * World) := expect drain_ready_checked w.

(** The loop that puts the blocked jobs back. *)
Fixpoint requeue_checked (js : list Job) : M World unit :=
  match js with
  | [] => mret tt
  | j :: js' =>
      check_control ;;
      mmodify (with_sched (fun s => set_queue_of (heap_push j (queue s)) s)) ;;
      requeue_checked js'
  end.

Definition drain_fair_ready_checked (policy : JobFairnessPolicy) (also_completed : list JobId)
    : M World JobFairnessPlan :=
  d <- stage_ready_drain_checked ;
  check_control ;;
  (w <- mget ;
   plan <- plan_checked
     (with_failed
        (with_completed (new_planner policy) (elements (completed (sched w)) ++ also_completed))
        (elements (failed (sched w))))
     (dr_ready d) ;
   let blocked_ids : gset JobId := list_to_set (blocked_id <$> blocked plan) in
   check_control ;;
   mmodify (cancel_tokens (dr_cancelled_jobs d)) ;;
   mmodify (with_sched (fun s =>
     mkScheduler (next s) [] (dr_cancelled d) (completed s ∖ dr_cancelled d) (completed_order s)
       (failed s ∖ dr_cancelled d) (failed_order s))) ;;
   requeue_checked (filter (fun j => job_id j ∈ blocked_ids) (dr_ready d)) ;;
   mmodify (with_sched prune_completed_ledger) ;;
   mret plan).

Definition drain_fair_ready (policy : JobFairnessPolicy) (also_completed : list JobId) (w : World)
    : option (JobFairnessPlan * World) :=
  expect (drain_fair_ready_checked policy also_completed) w.

(** ** Reports *)

Definition TABS : string := String TAB "".

Definition format_job_ids (ids : list JobId) : string :=
  match ids with [] => "-" | _ => join "," (u64_to_string <$> ids) end.

(** [sort_unstable] on names, then [dedup]. *)
Fixpoint insert_name (x : string) (l : list string) : list string :=
  match l with
  | [] => [x]
  | y :: l' => if String.leb x y then x :: l else y :: insert_name x l'
  end.
Fixpoint dedup_names (l : list string) : list string :=
  match l with
  | x :: (y :: _) as l' => if decide (x = y) then dedup_names l' else x :: dedup_names l'
  | _ => l
  end.
Definition format_payload_kinds (kinds : list JobPayloadKind) : string :=
  match kinds with
  | [] => "-"
  | _ => join "," (dedup_names (foldr insert_name [] (as_str <$> kinds)))
  end.

Definition count_str {A} (l : list A) : string := u64_to_string (N.of_nat (length l)).

Definition SchedulerReportIngestion_as_tsv (r : SchedulerReportIngestion) : string :=
  join TABS ["scheduler-ingest"; "completed=" +:+ count_str (ing_completed r);
    "cancelled=" +:+ count_str (ing_cancelled r); "failed=" +:+ count_str (ing_failed r);
    "completed-ids=" +:+ format_job_ids (ing_completed r);
    "cancelled-ids=" +:+ format_job_ids (ing_cancelled r);
    "failed-ids=" +:+ format_job_ids (ing_failed r)].

Definition opt_str {A} `{TextEnum A} (o : option A) : string :=
  match o with Some a => as_str a | None => "-" end.

Definition VolumeCancellationReport_as_tsv (r : VolumeCancellationReport) : string :=
  let header := join TABS ["volume-job-cancellation"; "volume=" +:+ u64_to_string (vr_volume r);
    "class=" +:+ opt_str (vr_class r); "cancelled=" +:+ count_str (vr_cancelled r);
    "payload-kinds=" +:+ format_payload_kinds (vr_payload_kinds r)] in
  match vr_cancelled r with
  | [] => header
  | js =>
      header +:+ newline +:+ join newline
        ((fun j => join TABS ["cancelled-job"; u64_to_string (cj_id j); as_str (cj_class j);
           as_str (cj_priority j); opt_str (cj_payload_kind j); escape (cj_label j)]) <$> js)
  end.

(** ** The queue *)

Definition rank (j : Job) : N := Priority_rank (priority j).

(** [pops_before a b]: [a >= b] in the order of the heap. *)
Definition pops_before (a b : Job) : Prop := QueuedJob_cmp a b <> Lt.

Lemma pops_before_iff a b :
  pops_before a b <-> (rank b < rank a \/ rank a = rank b /\ job_id a <= job_id b)%N.
Proof.
  unfold pops_before, QueuedJob_cmp, rank.
  destruct (N.compare_spec (Priority_rank (priority a)) (Priority_rank (priority b)));
    [destruct (N.compare_spec (job_id b) (job_id a))|..]; split; intros; try done; lia.
Qed.

Lemma cmp_gt a b : QueuedJob_cmp a b = Gt -> pops_before a b.
Proof. unfold pops_before. by intros ->. Qed.
Lemma cmp_not_gt a b : QueuedJob_cmp a b <> Gt -> pops_before b a.
Proof.
  rewrite pops_before_iff. unfold QueuedJob_cmp, rank.
  destruct (N.compare_spec (Priority_rank (priority a)) (Priority_rank (priority b)));
    [destruct (N.compare_spec (job_id b) (job_id a))|..]; intros; try done; lia.
Qed.

#[export] Instance pops_before_preorder : PreOrder pops_before.
Proof.
  split.
  - intros a. apply pops_before_iff. lia.
  - intros a b c. rewrite !pops_before_iff. lia.
Qed.

(** The list is in popping order. *)
Definition heap_ok (q : list Job) : Prop := StronglySorted pops_before q.

Lemma heap_push_perm j q : heap_push j q ≡ₚ j :: q.
Proof.
  induction q as [|y q IH]; simpl; [done|].
  destruct (QueuedJob_cmp j y); try done; rewrite IH; apply Permutation_swap.
Qed.

Lemma heap_push_ok j q : heap_ok q -> heap_ok (heap_push j q).
Proof.
  unfold heap_ok. induction 1 as [|y q Hq IH Hy]; simpl; [by repeat constructor|].
  destruct (QueuedJob_cmp j y) eqn:Hc.
  3:{ apply cmp_gt in Hc. constructor; [by constructor|]. constructor; [done|].
      eapply Forall_impl; [exact Hy|]. intros z Hz. by etrans. }
  all: constructor; [done|]; rewrite heap_push_perm; constructor; [|done];
    apply cmp_not_gt; congruence.
Qed.

Lemma heap_collect_perm_go l : forall q, foldl (fun q j => heap_push j q) q l ≡ₚ l ++ q.
Proof.
  induction l as [|x l IH]; intros q; simpl; [done|].
  rewrite IH, heap_push_perm. by rewrite Permutation_middle.
Qed.
Lemma heap_collect_perm l : heap_collect l ≡ₚ l.
Proof. unfold heap_collect. by rewrite heap_collect_perm_go, app_nil_r. Qed.
Lemma heap_collect_ok l : heap_ok (heap_collect l).
Proof.
  unfold heap_collect. assert (heap_ok []) as H by constructor. revert H. generalize (@nil Job).
  induction l as [|x l IH]; intros q Hq; simpl; [done|]. by apply IH, heap_push_ok.
Qed.

(** The popping order of distinct ids is unique: a heap is determined by its
    elements. *)
Lemma heap_unique q1 q2 :
  heap_ok q1 -> heap_ok q2 -> NoDup (job_id <$> q1) -> q1 ≡ₚ q2 -> q1 = q2.
Proof.
  unfold heap_ok. intros H1. revert q2. induction H1 as [|a q1 Hq1 IH Ha]; intros q2 H2 Hnd Hp.
  { by apply Permutation_nil_l in Hp. }
  destruct H2 as [|b q2 Hq2 Hb]; [by symmetry in Hp; apply Permutation_nil_cons in Hp|].
  assert (a = b) as ->.
  { assert (b ∈ a :: q1) as Hb1 by (rewrite Hp; left).
    assert (a ∈ b :: q2) as Ha2 by (rewrite <- Hp; left).
    apply elem_of_cons in Hb1 as [->|Hb1]; [done|]. apply elem_of_cons in Ha2 as [->|Ha2]; [done|].
    rewrite Forall_forall in Ha. rewrite Forall_forall in Hb.
    pose proof (Ha _ Hb1) as Hab. pose proof (Hb _ Ha2) as Hba.
    rewrite pops_before_iff in Hab, Hba.
    simpl in Hnd. apply NoDup_cons in Hnd as [Hnin _]. exfalso. apply Hnin.
    replace (job_id a) with (job_id b) by lia. by apply list_elem_of_fmap_2. }
  f_equal. apply IH; [done| |by apply Permutation_cons_inv in Hp].
  simpl in Hnd. by apply NoDup_cons in Hnd as [_ ?].
Qed.

Lemma heap_ok_filter (P : Job -> Prop) `{!forall j, Decision (P j)} q :
  heap_ok q -> heap_ok (filter P q).
Proof.
  unfold heap_ok. induction 1 as [|y q Hq IH Hy]; [constructor|]. rewrite filter_cons.
  case_decide; [|done]. constructor; [done|]. apply Forall_forall. intros z Hz.
  apply list_elem_of_filter in Hz as [_ Hz]. by eapply Forall_forall in Hy.
Qed.

(** Rebuilding a heap from some of its elements, in their order, is the list of
    them. *)
Lemma heap_push_last j q : Forall (fun y => QueuedJob_cmp j y <> Gt) q -> heap_push j q = q ++ [j].
Proof.
  induction 1 as [|y q Hy _ IH]; simpl; [done|].
  rewrite IH. by destruct (QueuedJob_cmp j y).
Qed.

#[export] Hint Resolve heap_push_ok heap_collect_ok heap_ok_filter : gfm.

(** ** Ledgers *)

(** The order of a ledger lists exactly the ids of its set, each once. *)
Definition ledger_ok (ids : gset JobId) (order : list JobId) : Prop :=
  NoDup order /\ forall id, id ∈ order <-> id ∈ ids.

(** What pruning keeps and drops. *)
Record pruned (q : list Job) (ids : gset JobId) (order : list JobId)
    (ids' : gset JobId) (order' : list JobId) : Prop := {
  pr_sub : ids' ⊆ ids;
  pr_kept id : id ∈ ids -> id ∉ ids' -> id ∉ referenced_ids q;
  pr_ledger : ledger_ok ids' order';
  pr_order id : id ∈ order' -> id ∈ order
}.

Lemma pruned_refl q ids order : ledger_ok ids order -> pruned q ids order ids order.
Proof. intros H. split; [done|by intros|done|done]. Qed.

Lemma prune_loop_pruned q fuel : forall ids order r,
  ledger_ok ids order ->
  pruned q ids order (prune_loop fuel (referenced_ids q) ids order r).1
    (prune_loop fuel (referenced_ids q) ids order r).2.
Proof.
  induction fuel as [|fuel IH]; intros ids order r Hl; cbn [prune_loop];
    [by apply pruned_refl|].
  destruct (_ && _); [|by apply pruned_refl].
  destruct order as [|i rest]; [by apply pruned_refl|].
  destruct Hl as [Hnd Hin]. apply NoDup_cons in Hnd as [Hi Hnd].
  case_decide as Href.
  - assert (Hl' : ledger_ok ids (rest ++ [i])).
    { split; [by apply NoDup_filter_snoc|]. intros x. rewrite <- Hin. set_solver. }
    destruct (IH ids (rest ++ [i]) (r + 1)%N Hl') as [H1 H2 H3 H4].
    split; [done|done|done|]. intros x Hx%H4. set_solver.
  - assert (Hl' : ledger_ok (ids ∖ {[i]}) rest).
    { split; [done|]. intros x. rewrite elem_of_difference, <- Hin, elem_of_cons, elem_of_singleton.
      split; [|tauto]. intros Hx. split; [by right|]. intros ->. done. }
    destruct (IH (ids ∖ {[i]}) rest 0%N Hl') as [H1 H2 H3 H4].
    split; [set_solver| |done|set_solver].
    intros x Hx Hx'. destruct (decide (x = i)) as [->|]; [done|]. apply H2; [set_solver|done].
Qed.

(** The steps left when [a] is still to be scanned and the referenced ids [b]
    were rotated to the back. *)
Definition prune_measure (a b : list JobId) (r : N) : nat :=
  match a with [] => length b - N.to_nat r | _ => 2 * length a + length b end.

(** Fuel beyond the measure changes nothing: the loop of the code ends. *)
Lemma prune_loop_fuel q fuel : forall fuel' ids a b r,
  (forall id, id ∈ b -> id ∈ referenced_ids q) ->
  prune_measure a b r <= fuel -> prune_measure a b r <= fuel' ->
  prune_loop fuel (referenced_ids q) ids (a ++ b) r =
  prune_loop fuel' (referenced_ids q) ids (a ++ b) r.
Proof.
  assert (Hstop : forall fuel ids b r, length b - N.to_nat r <= 0 ->
    prune_loop fuel (referenced_ids q) ids b r = (ids, b)).
  { intros [|f] ids b r Hz; [done|]. cbn [prune_loop].
    rewrite (proj2 (N.ltb_ge r _)) by lia. by rewrite andb_false_r. }
  induction fuel as [|fuel IH]; intros fuel' ids a b r Hb Hf Hf'.
  { destruct a as [|i a]; simpl in Hf; [|lia]. simpl app. by rewrite !Hstop. }
  destruct fuel' as [|fuel'].
  { destruct a as [|i a]; simpl in Hf'; [|lia]. simpl app. by rewrite !Hstop. }
  cbn [prune_loop]. destruct (_ && _) eqn:Hgo; [|done].
  apply andb_true_iff in Hgo as [_ Hr]. apply N.ltb_lt in Hr.
  destruct a as [|i a]; cbn [app] in *.
  - destruct b as [|i b]; [done|]. rewrite !decide_True by (apply Hb; set_solver).
    apply (IH fuel' ids [] (b ++ [i])); [set_solver|..]; simpl in *; rewrite length_app; simpl; lia.
  - case_decide as Href.
    + rewrite <- app_assoc. apply IH; [set_solver|..];
        destruct a; simpl in *; rewrite ?length_app in *; simpl in *; lia.
    + apply IH; [done|..]; destruct a; simpl in *; lia.
Qed.

(** Afterwards the ledger fits the retention, or everything in it is still
    referenced by a queued job. *)
Lemma prune_loop_fits q fuel : forall ids a b r,
  (forall id, id ∈ b -> id ∈ referenced_ids q) -> length a <= fuel ->
  (r <= N.of_nat (length b))%N ->
  let order' := (prune_loop fuel (referenced_ids q) ids (a ++ b) r).2 in
  (N.of_nat (length order') <= COMPLETED_DEPENDENCY_RETENTION)%N \/
  (forall id, id ∈ order' -> id ∈ referenced_ids q).
Proof.
  assert (Hall : forall fuel ids b r, (forall id, id ∈ b -> id ∈ referenced_ids q) ->
    forall id, id ∈ (prune_loop fuel (referenced_ids q) ids b r).2 -> id ∈ referenced_ids q).
  { intros fuel0. induction fuel0 as [|f IHf]; intros ids b r Hb; [done|]. cbn [prune_loop].
    destruct (_ && _); [|done]. destruct b as [|i b]; [done|].
    rewrite decide_True by (apply Hb; set_solver). apply IHf. set_solver. }
  induction fuel as [|fuel IH]; intros ids a b r Hb Hf Hr.
  { destruct a; simpl in Hf; [|lia]. right. by apply Hall. }
  destruct a as [|i a]; [right; by apply Hall|]. cbn [app prune_loop].
  destruct (N.ltb_spec COMPLETED_DEPENDENCY_RETENTION (N.of_nat (length (i :: a ++ b)))) as [Hlen|Hlen];
    [|by left].
  rewrite (proj2 (N.ltb_lt r _)) by (simpl; rewrite length_app; lia). cbn [andb].
  simpl in Hf. case_decide as Href.
  - rewrite <- app_assoc. apply IH; [set_solver|lia|]. rewrite length_app. simpl. lia.
  - apply IH; [done|lia|lia].
Qed.

Lemma prune_parts_spec q ids order ids' order' :
  NoDup order -> (forall id, id ∈ ids -> id ∈ order) ->
  prune_completed_ledger_parts q ids order = (ids', order') ->
  pruned q ids order ids' order' /\
  ((N.of_nat (length order') <= COMPLETED_DEPENDENCY_RETENTION)%N \/
   (forall id, id ∈ order' -> id ∈ referenced_ids q)).
Proof.
  intros Hnd Hin. unfold prune_completed_ledger_parts.
  set (o := filter (fun id => id ∈ ids) order).
  assert (Ho : ledger_ok ids o).
  { split; [by apply NoDup_filter|]. intros id. unfold o. rewrite list_elem_of_filter. naive_solver. }
  pose proof (prune_loop_pruned q (2 * length o + 1) ids o 0 Ho) as Hp.
  pose proof (prune_loop_fits q (2 * length o + 1) ids o [] 0) as Hfit.
  rewrite app_nil_r in Hfit. intros Heq. rewrite Heq in *. simpl in *.
  split; [|apply Hfit; [set_solver|lia|done]].
  destruct Hp as [H1 H2 H3 H4]. split; try done. intros id Hid%H4.
  unfold o in Hid. by apply list_elem_of_filter in Hid as [_ ?].
Qed.

(** A ledger within the retention is left alone. *)
Lemma prune_parts_id q ids order :
  ledger_ok ids order -> (N.of_nat (length order) <= COMPLETED_DEPENDENCY_RETENTION)%N ->
  prune_completed_ledger_parts q ids order = (ids, order).
Proof.
  intros [Hnd Hin] Hlen. unfold prune_completed_ledger_parts.
  rewrite filter_all_id by (apply Forall_forall; intros x; apply Hin).
  rewrite Nat.add_1_r. cbn [prune_loop].
  by rewrite (proj2 (N.ltb_ge COMPLETED_DEPENDENCY_RETENTION _)) by lia.
Qed.

Lemma without_elem id x l : x ∈ without id l <-> x <> id /\ x ∈ l.
Proof. unfold without. by rewrite list_elem_of_filter. Qed.

Lemma ledger_remove ids order id :
  ledger_ok ids order -> ledger_ok (ids ∖ {[id]}) (without id order).
Proof.
  intros [Hnd Hin]. split; [by apply NoDup_filter|]. intros x.
  rewrite without_elem, Hin. set_solver.
Qed.

Lemma ledger_insert ids order id :
  ledger_ok ids order -> ledger_ok ({[id]} ∪ ids) (push_new id ids order).
Proof.
  intros [Hnd Hin]. unfold push_new. case_decide as Hid.
  - split; [done|]. intros x. rewrite Hin. set_solver.
  - split; [apply NoDup_filter_snoc; [done|by rewrite Hin]|]. intros x.
    rewrite elem_of_app, Hin, list_elem_of_singleton. set_solver.
Qed.

#[export] Hint Resolve ledger_remove ledger_insert : gfm.

(** ** The invariant of a scheduler *)
Record sched_ok (w : World) : Prop := {
  so_heap : heap_ok (queue (sched w));
  so_ids : NoDup (job_id <$> queue (sched w));
  so_fresh j : j ∈ queue (sched w) -> (job_id j <= next (sched w))%N;
  so_completed : ledger_ok (completed (sched w)) (completed_order (sched w));
  so_failed : ledger_ok (failed (sched w)) (failed_order (sched w));
  so_tokens : tok_wf (tokens w);
  so_live j : j ∈ queue (sched w) -> live (tokens w) (job_cancel j)
}.

(** The jobs kept by an operation. *)
Lemma sched_ok_queue q w :
  sched_ok w -> heap_ok q -> NoDup (job_id <$> q) ->
  (forall j, j ∈ q -> exists j0, j0 ∈ queue (sched w) /\ job_id j0 = job_id j /\ job_cancel j0 = job_cancel j) ->
  sched_ok (with_sched (set_queue_of q) w).
Proof.
  intros [H1 H2 H3 H4 H5 H6 H7] Hq Hnd Hsub. split; try done; cbn.
  - intros j Hj. destruct (Hsub j Hj) as (j0 & Hj0 & <- & _). by apply H3.
  - intros j Hj. destruct (Hsub j Hj) as (j0 & Hj0 & _ & <-). by apply H7.
Qed.

Lemma sched_ok_cancelled x w : sched_ok w -> sched_ok (with_sched (set_cancelled_ids x) w).
Proof. intros []. by split. Qed.

Lemma prune_completed_ledger_ok w :
  sched_ok w -> sched_ok (with_sched prune_completed_ledger w).
Proof.
  intros [H1 H2 H3 [Hc1 Hc2] [Hf1 Hf2] H6 H7].
  unfold with_sched, prune_completed_ledger.
  destruct (prune_completed_ledger_parts _ (completed _) _) as [c co] eqn:Hc.
  destruct (prune_completed_ledger_parts _ (failed _) _) as [f fo] eqn:Hf.
  apply prune_parts_spec in Hc as [Hc _]; [|done|intros; by apply Hc2].
  apply prune_parts_spec in Hf as [Hf _]; [|done|intros; by apply Hf2].
  split; try done; cbn; eapply pr_ledger; eauto.
Qed.

(** ** Tokens of cancelled jobs *)

Lemma cancel_job_ok j ts :
  tok_wf ts -> live ts (job_cancel j) ->
  tok_wf (cancel_job j ts) /\ same_shape (cancel_job j ts) ts /\
  flag (cancel_job j ts) (job_cancel j) = true /\
  (forall t, flag ts t = true -> flag (cancel_job j ts) t = true).
Proof.
  intros Hwf Hl. unfold cancel_job.
  destruct (cancel_walk (job_cancel j) ts Hwf Hl) as (ts' & V & -> & Hinv). cbn.
  split; [apply (wi_wf _ _ _ _ _ Hinv)|]. split; [apply (wi_shape _ _ _ _ _ Hinv)|].
  split; [apply (wi_flags _ _ _ _ _ Hinv); right; apply (wi_root _ _ _ _ _ Hinv)|].
  intros t Ht. apply (wi_flags _ _ _ _ _ Hinv). by left.
Qed.

Definition cancel_all (js : list Job) (ts : Tokens) : Tokens :=
  foldl (fun ts j => cancel_job j ts) ts js.

Lemma cancel_all_ok js : forall ts,
  tok_wf ts -> (forall j, j ∈ js -> live ts (job_cancel j)) ->
  tok_wf (cancel_all js ts) /\ same_shape (cancel_all js ts) ts /\
  (forall t, flag ts t = true -> flag (cancel_all js ts) t = true) /\
  (forall j, j ∈ js -> flag (cancel_all js ts) (job_cancel j) = true).
Proof.
  induction js as [|j js IH]; intros ts Hwf Hl; cbn.
  { split_and!; try done. set_solver. }
  destruct (cancel_job_ok j ts Hwf (Hl j ltac:(left))) as (Hwf1 & Hsh1 & Hj & Hmono).
  destruct (IH (cancel_job j ts) Hwf1) as (Hwf2 & Hsh2 & Hm2 & Hj2).
  { intros k Hk. apply (same_shape_live _ _ _ Hsh1), Hl. by right. }
  split_and!; [done|by etrans|auto|]. intros k [->|Hk]%elem_of_cons; auto.
Qed.

Lemma cancel_jobs_eq js : forall w,
  cancel_jobs js w =
  mkWorld (set_cancelled_ids (cancelled_ids (sched w) ∖ list_to_set (job_id <$> js)) (sched w))
    (cancel_all js (tokens w)).
Proof.
  induction js as [|j js IH]; intros w.
  { cbn. rewrite difference_empty_L. by destruct w as [[]]. }
  change (cancel_jobs (j :: js) w) with (cancel_jobs js (mkWorld (set_cancelled_ids
    (cancelled_ids (sched w) ∖ {[job_id j]}) (sched w)) (cancel_job j (tokens w)))).
  rewrite IH. cbn. f_equal.
  unfold set_cancelled_ids. cbn. f_equal. set_solver.
Qed.

(** * The operations of the scheduler, run to their end.

    [Scheduler] gives each operation as a computation that polls the control
    before every bounded unit of work.  Here each is given the closed form of
    its result and of the state it leaves when no poll fails ([runs]), and the
    properties of the scheduler are proved from those forms. *)
(** ** Uninterrupted runs *)

Definition mark_done (id : JobId) (s : Scheduler) : Scheduler :=
  prune_completed_ledger
    (set_completed ({[id]} ∪ completed s) (push_new id (completed s) (completed_order s))
       (set_cancelled_ids (cancelled_ids s ∖ {[id]}) s)).

Lemma mark_completed_runs id w :
  runs (mark_completed_checked id) w (Ok tt) (with_sched (mark_done id) w).
Proof.
  unfold mark_completed_checked. do 5 runs_step. cbv beta iota.
  replace (with_sched (mark_done id) w) with
    (with_sched prune_completed_ledger
      (with_sched (fun s => set_completed ({[id]} ∪ completed s)
         (if negb (bool_decide (id ∈ completed (sched w))) then completed_order s ++ [id]
          else completed_order s) s)
        (with_sched (fun s => set_cancelled_ids (cancelled_ids s ∖ {[id]}) s) w))).
  { apply runs_modify. }
  unfold with_sched, mark_done, push_new. cbn. by case_bool_decide; case_decide.
Qed.

Lemma bind_volume_runs id v w :
  runs (bind_volume_checked id v) w
    (Ok (last (set_volume v <$> filter (fun j => job_id j = id) (queue (sched w)))))
    (with_sched (set_queue_of (heap_collect
      ((fun j => if decide (job_id j = id) then set_volume v j else j) <$> queue (sched w)))) w).
Proof.
  unfold bind_volume_checked. do 2 runs_step.
  eapply runs_bind.
  { apply (runs_for _ (fun acc j => if decide (job_id j = id)
        then (acc.1 ++ [set_volume v j], Some (set_volume v j)) else (acc.1 ++ [j], acc.2))).
    intros acc j s. unfold bind_one. runs_auto. }
  runs_step.
  assert (H : forall l q o, foldl (fun acc j => if decide (job_id j = id)
        then (acc.1 ++ [set_volume v j], Some (set_volume v j)) else (acc.1 ++ [j], acc.2)) (q, o) l =
     (q ++ ((fun j => if decide (job_id j = id) then set_volume v j else j) <$> l),
      match last (set_volume v <$> filter (fun j => job_id j = id) l) with Some x => Some x | None => o end)).
  { induction l as [|j l IH]; intros q o; cbn [foldl]; [by rewrite app_nil_r|].
    rewrite filter_cons. cbn [fst snd]. rewrite fmap_cons.
    case_decide; rewrite IH, <- app_assoc; cbn [app]; [|done]. f_equal.
    rewrite fmap_cons, last_cons. by destruct (last _). }
  rewrite H. cbn [fst snd app]. runs_step.
  replace (match last _ with Some x => Some x | None => None end)
    with (last (set_volume v <$> filter (fun j => job_id j = id) (queue (sched w)))) by (by case_match).
  apply runs_ret.
Qed.

Definition volume_match v c kinds (j : Job) : Prop := cancels_volume_job v c kinds j = true.
#[export] Instance volume_match_dec v c kinds j : Decision (volume_match v c kinds j).
Proof. unfold volume_match. apply _. Defined.

Lemma cancel_volume_jobs_runs v c kinds w :
  let hit := filter (volume_match v c kinds) (queue (sched w)) in
  runs (cancel_volume_jobs_checked v c kinds) w
    (Ok (mkVolumeReport v c (default [] kinds) (sort_by_key cj_id (cancelled_job <$> hit))))
    (with_sched (set_queue_of (heap_collect
       (filter (fun j => ~ volume_match v c kinds j) (queue (sched w))))) (cancel_jobs hit w)).
Proof.
  cbn zeta. unfold cancel_volume_jobs_checked. do 2 runs_step.
  eapply runs_bind.
  { apply (runs_for _ (fun acc j => if cancels_volume_job v c kinds j
        then (acc.1, acc.2 ++ [j]) else (acc.1 ++ [j], acc.2))).
    intros acc j s. unfold select_one. runs_auto. }
  assert (H : forall l a b, foldl (fun acc j => if cancels_volume_job v c kinds j
        then (acc.1, acc.2 ++ [j]) else (acc.1 ++ [j], acc.2)) (a, b) l =
     (a ++ filter (fun j => ~ volume_match v c kinds j) l, b ++ filter (volume_match v c kinds) l)).
  { induction l as [|j l IH]; intros a b; cbn [foldl]; [by rewrite !app_nil_r|].
    rewrite !filter_cons. cbn [fst snd].
    destruct (decide (volume_match v c kinds j)) as [Hm|Hm];
      [rewrite (decide_False (P := ~ _)) by tauto|rewrite (decide_True (P := ~ _)) by done];
      unfold volume_match in Hm; [rewrite Hm|rewrite (not_true_is_false _ Hm)];
      by rewrite IH, <- app_assoc. }
  rewrite H. cbn [fst snd app]. do 3 runs_step. apply runs_ret.
Qed.

(** The scan of a drain: jobs already completed are dropped, cancelled ones are
    set apart and their mark is consumed, the others are ready, in popping order. *)
Definition drain_ready_jobs (s : Scheduler) : list Job :=
  filter (fun j => job_id j ∉ completed s /\ job_id j ∉ cancelled_ids s) (queue s).
Definition drain_cancelled_jobs (s : Scheduler) : list Job :=
  filter (fun j => job_id j ∉ completed s /\ job_id j ∈ cancelled_ids s) (queue s).
Definition drain_left_cancelled (s : Scheduler) : gset JobId :=
  cancelled_ids s ∖ list_to_set (job_id <$> drain_cancelled_jobs s).

Definition drain_step (ids : gset JobId) (d : StagedReadyDrain) (j : Job) : StagedReadyDrain :=
  if decide (job_id j ∈ ids) then d
  else if decide (job_id j ∈ dr_cancelled d) then
    mkDrain (dr_ready d) (dr_cancelled d ∖ {[job_id j]}) (dr_cancelled_jobs d ++ [j])
  else mkDrain (dr_ready d ++ [j]) (dr_cancelled d) (dr_cancelled_jobs d).

Lemma drain_fold ids q : forall r c js,
  NoDup (job_id <$> q) ->
  foldl (drain_step ids) (mkDrain r c js) q =
  mkDrain (r ++ filter (fun j => job_id j ∉ ids /\ job_id j ∉ c) q)
    (c ∖ list_to_set (job_id <$> filter (fun j => job_id j ∉ ids /\ job_id j ∈ c) q))
    (js ++ filter (fun j => job_id j ∉ ids /\ job_id j ∈ c) q).
Proof.
  induction q as [|j q IH]; intros r c js Hnd; cbn [foldl].
  { cbn. by rewrite difference_empty_L, !app_nil_r. }
  rewrite fmap_cons in Hnd. apply NoDup_cons in Hnd as [Hj Hnd].
  assert (Hne : forall k, k ∈ q -> job_id k <> job_id j).
  { intros k Hk Heq. apply Hj. rewrite <- Heq. by apply list_elem_of_fmap_2. }
  rewrite !filter_cons. unfold drain_step at 2. cbn [dr_ready dr_cancelled dr_cancelled_jobs].
  destruct (decide (job_id j ∈ ids)) as [Hi|Hi].
  { rewrite !decide_False by tauto. by apply IH. }
  destruct (decide (job_id j ∈ c)) as [Hc|Hc].
  - rewrite (decide_False (P := _ /\ job_id j ∉ c)), (decide_True (P := _ /\ job_id j ∈ c)) by tauto.
    rewrite IH by done.
    rewrite (filter_ext_in (fun k => job_id k ∉ ids /\ job_id k ∉ c ∖ {[job_id j]})
      (fun k => job_id k ∉ ids /\ job_id k ∉ c)) by (intros k Hk%Hne; set_solver).
    rewrite (filter_ext_in (fun k => job_id k ∉ ids /\ job_id k ∈ c ∖ {[job_id j]})
      (fun k => job_id k ∉ ids /\ job_id k ∈ c)) by (intros k Hk%Hne; set_solver).
    rewrite <- app_assoc. f_equal. cbn. set_solver.
  - rewrite (decide_True (P := _ /\ job_id j ∉ c)), (decide_False (P := _ /\ job_id j ∈ c)) by tauto.
    rewrite IH by done. by rewrite <- app_assoc.
Qed.

Lemma stage_ready_drain_runs w :
  NoDup (job_id <$> queue (sched w)) ->
  runs stage_ready_drain_checked w
    (Ok (mkDrain (drain_ready_jobs (sched w)) (drain_left_cancelled (sched w))
       (drain_cancelled_jobs (sched w)))) w.
Proof.
  intros Hnd. unfold stage_ready_drain_checked. do 2 runs_step.
  eapply runs_bind.
  { apply (runs_for _ (drain_step (completed (sched w)))).
    intros d j s. unfold drain_one, drain_step. runs_step.
    repeat case_decide; runs_auto. }
  rewrite drain_fold by done. runs_step. apply runs_ret.
Qed.

Lemma drain_ready_runs w :
  NoDup (job_id <$> queue (sched w)) ->
  runs drain_ready_checked w (Ok (drain_ready_jobs (sched w)))
    (with_sched (fun s => set_cancelled_ids (drain_left_cancelled (sched w)) (set_queue_of [] s))
       (cancel_tokens (drain_cancelled_jobs (sched w)) w)).
Proof.
  intros Hnd. unfold drain_ready_checked.
  eapply runs_bind; [by apply stage_ready_drain_runs|]. do 3 runs_step. apply runs_ret.
Qed.

(** The plan of a fair drain, and the jobs it puts back. *)
Definition drain_planner (policy : JobFairnessPolicy) (also : list JobId) (s : Scheduler)
    : JobFairnessPlanner :=
  with_failed (with_completed (new_planner policy) (elements (completed s) ++ also))
    (elements (failed s)).
Definition drain_plan (policy : JobFairnessPolicy) (also : list JobId) (s : Scheduler)
    : JobFairnessPlan := reference_plan (drain_planner policy also s) (drain_ready_jobs s).
Definition requeued (p : JobFairnessPlan) (l : list Job) : list Job :=
  filter (fun j => job_id j ∈ (list_to_set (blocked_id <$> blocked p) : gset JobId)) l.
Definition cleared (x : gset JobId) (s : Scheduler) : Scheduler :=
  mkScheduler (next s) [] x (completed s ∖ x) (completed_order s) (failed s ∖ x) (failed_order s).

Lemma requeue_runs js : forall w,
  runs (requeue_checked js) w (Ok tt)
    (with_sched (fun s => set_queue_of (foldl (fun q j => heap_push j q) (queue s) js) s) w).
Proof.
  induction js as [|j js IH]; intros w; cbn [requeue_checked foldl].
  - replace (with_sched _ w) with w by (by destruct w as [[]]). apply runs_ret.
  - do 2 runs_step. apply IH.
Qed.

Lemma drain_fair_runs policy also w :
  NoDup (job_id <$> queue (sched w)) ->
  let s := sched w in
  let p := drain_plan policy also s in
  runs (drain_fair_ready_checked policy also) w (Ok p)
    (with_sched (fun _ => prune_completed_ledger
        (set_queue_of (heap_collect (requeued p (drain_ready_jobs s)))
           (cleared (drain_left_cancelled s) s)))
      (cancel_tokens (drain_cancelled_jobs s) w)).
Proof.
  intros Hnd. cbn zeta. unfold drain_fair_ready_checked.
  eapply runs_bind; [by apply stage_ready_drain_runs|]. do 2 runs_step. cbn [dr_ready dr_cancelled dr_cancelled_jobs].
  eapply runs_bind; [apply plan_checked_runs|]. cbv zeta. do 3 runs_step.
  eapply runs_bind; [apply requeue_runs|]. runs_step. apply runs_ret.
Qed.
