(* ===== verification/SchedulerSpec.v ===== *)
(** The contract of the scheduler.

    What its operations promise: a run that is interrupted stops at the poll that
    failed, and apart from the fair drain changes nothing; the jobs taken are the
    ones the order, the marks and the dependencies select; the ledgers keep what
    queued jobs still reference; and the invariant [sched_ok] holds in every state
    the operations reach. *)
From S2P Require Import Prelude Types Text Control Cancel JobModel Fair Scheduler.
#[local] Open Scope list_scope.

(** ** Polling *)

Lemma ingest_outcome_reads st o : reads (ingest_outcome st o).
Proof. unfold ingest_outcome. ctl_auto. Qed.
Lemma ingest_outcome_cooperative st o : cooperative (ingest_outcome st o).
Proof. unfold ingest_outcome. ctl_auto. Qed.
Lemma bind_one_reads id v acc j : reads (bind_one id v acc j).
Proof. unfold bind_one. ctl_auto. Qed.
Lemma bind_one_cooperative id v acc j : cooperative (bind_one id v acc j).
Proof. unfold bind_one. ctl_auto. Qed.
Lemma select_one_reads v c ks acc j : reads (select_one v c ks acc j).
Proof. unfold select_one. ctl_auto. Qed.
Lemma select_one_cooperative v c ks acc j : cooperative (select_one v c ks acc j).
Proof. unfold select_one. ctl_auto. Qed.
Lemma drain_one_reads ids d j : reads (drain_one ids d j).
Proof. unfold drain_one. ctl_auto. Qed.
Lemma drain_one_cooperative ids d j : cooperative (drain_one ids d j).
Proof. unfold drain_one. ctl_auto. Qed.

#[local] Hint Resolve ingest_outcome_reads ingest_outcome_cooperative bind_one_reads
  bind_one_cooperative select_one_reads select_one_cooperative drain_one_reads
  drain_one_cooperative : ctl.

Lemma stage_ready_drain_reads : reads stage_ready_drain_checked.
Proof. unfold stage_ready_drain_checked. ctl_auto. Qed.
Lemma stage_ready_drain_cooperative : cooperative stage_ready_drain_checked.
Proof. unfold stage_ready_drain_checked. ctl_auto. Qed.
Lemma requeue_cooperative js : cooperative (requeue_checked js).
Proof. induction js; cbn [requeue_checked]; ctl_auto. Qed.

#[local] Hint Resolve stage_ready_drain_reads stage_ready_drain_cooperative requeue_cooperative : ctl.

Lemma mark_completed_cooperative id : cooperative (mark_completed_checked id).
Proof.
  unfold mark_completed_checked. apply cooperative_bind; [apply cooperative_check|]. intros _.
  apply cooperative_bind; [apply cooperative_get|]. intros w. cbv zeta.
  do 2 (apply cooperative_bind; [apply cooperative_modify|]; intros _).
  apply cooperative_poll_bind; [ctl_auto|]. intros. eexists. reflexivity.
Qed.

(** Publishing after the last read cannot fail. *)
Ltac atomic_step :=
  match goal with
  | |- forall _, _ => intro
  | |- atomic (mbind (mmodify _) _) => apply infallible_atomic; ctl_auto
  | |- atomic (mret _) => apply reads_atomic; ctl_auto
  | |- atomic (mbind _ _) => apply atomic_bind; [ctl_auto|]
  end.

Lemma apply_report_atomic r : atomic (apply_worker_report_checked r).
Proof. unfold apply_worker_report_checked. repeat atomic_step. Qed.
Lemma apply_report_cooperative r : cooperative (apply_worker_report_checked r).
Proof. unfold apply_worker_report_checked. ctl_auto. Qed.
Lemma bind_volume_atomic id v : atomic (bind_volume_checked id v).
Proof. unfold bind_volume_checked. repeat atomic_step. Qed.
Lemma bind_volume_cooperative id v : cooperative (bind_volume_checked id v).
Proof. unfold bind_volume_checked. ctl_auto. Qed.
Lemma cancel_volume_atomic v c ks : atomic (cancel_volume_jobs_checked v c ks).
Proof. unfold cancel_volume_jobs_checked. repeat atomic_step. Qed.
Lemma cancel_volume_cooperative v c ks : cooperative (cancel_volume_jobs_checked v c ks).
Proof. unfold cancel_volume_jobs_checked. ctl_auto. Qed.
Lemma drain_ready_atomic : atomic drain_ready_checked.
Proof. unfold drain_ready_checked. repeat atomic_step. Qed.
Lemma drain_ready_cooperative : cooperative drain_ready_checked.
Proof. unfold drain_ready_checked. ctl_auto. Qed.
Lemma drain_fair_cooperative p also : cooperative (drain_fair_ready_checked p also).
Proof. unfold drain_fair_ready_checked. ctl_auto. Qed.

(** the worker report, the volume binding, the volume cancellation and the
    plain drain are all or nothing: whatever poll fails, and on a duplicated
    outcome, the queue, the marks, the ledgers and the tokens are untouched. *)
Theorem scheduler_atomic :
  (forall r, atomic (apply_worker_report_checked r)) /\
  (forall id v, atomic (bind_volume_checked id v)) /\
  (forall v c ks, atomic (cancel_volume_jobs_checked v c ks)) /\
  atomic drain_ready_checked.
Proof.
  split_and!; auto using apply_report_atomic, bind_volume_atomic, cancel_volume_atomic,
    drain_ready_atomic.
Qed.

(** every checked operation of the scheduler stops at the first poll that
    fails, returns that poll's error and polls no more; when no poll fails it does
    what the unchecked wrapper does. *)
Theorem scheduler_cooperative :
  (forall r, cooperative (apply_worker_report_checked r)) /\
  (forall id, cooperative (mark_completed_checked id)) /\
  (forall id v, cooperative (bind_volume_checked id v)) /\
  (forall v c ks, cooperative (cancel_volume_jobs_checked v c ks)) /\
  cooperative drain_ready_checked /\
  (forall p also, cooperative (drain_fair_ready_checked p also)).
Proof.
  split_and!; auto using apply_report_cooperative, mark_completed_cooperative,
    bind_volume_cooperative, cancel_volume_cooperative, drain_ready_cooperative,
    drain_fair_cooperative.
Qed.

Lemma union_present (X : gset JobId) (x : JobId) : x ∈ X -> {[x]} ∪ X = X.
Proof. intros H. apply subseteq_union_1_L. by apply singleton_subseteq_l. Qed.
Lemma union_remove_fresh (X : gset JobId) (x : JobId) : x ∉ X -> ({[x]} ∪ X) ∖ {[x]} = X.
Proof. set_solver. Qed.

Lemma mark_completed_err id c w w' e :
  sched_ok w -> run (mark_completed_checked id) c w = (Err e, w') -> w' = w.
Proof.
  intros Hok. unfold run, mark_completed_checked, mbind, check_control, mget, mmodify, poll, mfail.
  destruct (c 0) as [e0|]; [by intros [= _ <-]|].
  destruct (c 1) as [e1|]; [|done]. intros [= _ <-].
  destruct w as [[n q x cs co f fo] ts]. destruct (so_completed _ Hok) as [_ Hin].
  unfold with_sched, set_completed, set_cancelled_ids in *. cbn in *.
  assert (Hx : forall b : bool, b = bool_decide (id ∈ x) ->
    (if b then {[id]} ∪ x ∖ {[id]} else x ∖ {[id]}) = x).
  { intros b ->. case_bool_decide; [|set_solver]. apply set_eq. intros y.
    destruct (decide (y = id)); set_solver. }
  specialize (Hx _ eq_refl).
  destruct (bool_decide (id ∈ x)) eqn:Hbx; destruct (decide (id ∈ cs)) as [Hc|Hc];
    (rewrite ?(bool_decide_eq_true_2 _ Hc), ?(bool_decide_eq_false_2 _ Hc)); cbn in *;
    rewrite Hx; do 2 f_equal; auto using union_present, union_remove_fresh;
    rewrite filter_app, filter_cons, decide_False, filter_nil, app_nil_r by tauto;
    apply filter_all_id, Forall_forall; intros y Hy%Hin; congruence.
Qed.

(** ** Taking one job *)

(** The cancelled jobs at the front of the queue. *)
Fixpoint skipped (x : gset JobId) (q : list Job) : list Job :=
  match q with
  | [] => []
  | j :: q' => if decide (job_id j ∈ x) then j :: skipped (x ∖ {[job_id j]}) q' else []
  end.

Lemma pop_loop_eq q : forall w,
  pop_loop q w =
  (head (drop (length (skipped (cancelled_ids (sched w)) q)) q),
   with_sched (set_queue_of (tail (drop (length (skipped (cancelled_ids (sched w)) q)) q)))
     (cancel_jobs (skipped (cancelled_ids (sched w)) q) w)).
Proof.
  induction q as [|j q IH]; intros w; cbn [pop_loop skipped]; [done|].
  case_decide; [|done]. by rewrite IH.
Qed.

Lemma skipped_prefix q : forall x, q = skipped x q ++ drop (length (skipped x q)) q.
Proof.
  induction q as [|j q IH]; intros x; cbn [skipped]; [done|].
  case_decide; cbn; [|done]. by rewrite <- IH.
Qed.
Lemma skipped_elem q : forall x j, j ∈ skipped x q -> j ∈ q /\ job_id j ∈ x.
Proof.
  induction q as [|k q IH]; intros x j; cbn [skipped]; [set_solver|].
  case_decide; [|set_solver]. intros [->|Hj]%elem_of_cons; [set_solver|].
  destruct (IH _ _ Hj). set_solver.
Qed.
Lemma skipped_stop q : forall x j, head (drop (length (skipped x q)) q) = Some j ->
  NoDup (job_id <$> q) -> job_id j ∉ x.
Proof.
  induction q as [|k q IH]; intros x j; cbn [skipped]; [done|].
  rewrite fmap_cons, NoDup_cons. case_decide; cbn [length drop]; [|by intros [= <-]].
  intros Hh [Hk Hnd]. pose proof (IH _ _ Hh Hnd) as Hx.
  assert (job_id j ∈ job_id <$> q).
  { apply list_elem_of_fmap_2. rewrite head_lookup, lookup_drop in Hh.
    by eapply list_elem_of_lookup_2. }
  intros Hj. apply Hx. apply elem_of_difference. split; [done|].
  intros Heq%elem_of_singleton. by rewrite Heq in *.
Qed.

(** Jobs of the queue are cancelled one by one: their marks are consumed and
    their tokens set. *)
Lemma sched_ok_cancel_jobs js w :
  sched_ok w -> (forall j, j ∈ js -> j ∈ queue (sched w)) ->
  sched_ok (cancel_jobs js w) /\ same_shape (tokens (cancel_jobs js w)) (tokens w) /\
  forall j, j ∈ js -> flag (tokens (cancel_jobs js w)) (job_cancel j) = true.
Proof.
  intros Hok Hsub. rewrite cancel_jobs_eq.
  destruct (cancel_all_ok js (tokens w) (so_tokens _ Hok)) as (Hwf & Hsh & _ & Hf).
  { intros j Hj. apply (so_live _ Hok). auto. }
  destruct Hok. split_and!; [|done|done]. split; try done; cbn.
  intros j Hj. by apply (same_shape_live _ _ _ Hsh), so_live.
Qed.

Lemma head_tail_drop {A} n (l : list A) x :
  head (drop n l) = Some x -> drop n l = x :: tail (drop n l).
Proof. by destruct (drop n l) as [|y t]; [|intros [= ->]]. Qed.

Lemma pop_next_ok w : sched_ok w -> sched_ok (pop_next w).2.
Proof.
  intros Hok. unfold pop_next. rewrite pop_loop_eq. cbn [snd].
  set (x := cancelled_ids (sched w)). set (q := queue (sched w)). set (g := skipped x q).
  assert (Hq : q = g ++ drop (length g) q) by apply skipped_prefix.
  destruct (sched_ok_cancel_jobs g w Hok) as (Hok' & _).
  { intros j Hj. by apply (skipped_elem q x). }
  pose proof (so_heap _ Hok) as H1. pose proof (so_ids _ Hok) as H2. fold q in H1, H2.
  rewrite Hq in H1, H2. unfold heap_ok in H1. apply StronglySorted_app_1_r in H1.
  rewrite fmap_app in H2. apply NoDup_app in H2 as (_ & _ & H2).
  apply sched_ok_queue; [done|..].
  - unfold heap_ok. destruct (drop _ q); [done|]. by apply StronglySorted_inv in H1 as [? _].
  - destruct (drop _ q); [done|]. rewrite fmap_cons in H2. by apply NoDup_cons in H2 as [_ ?].
  - intros j Hj. exists j. rewrite cancel_jobs_eq. split; [|done]. cbn. fold q. rewrite Hq.
    apply elem_of_app. right. destruct (drop _ q); [done|]. by right.
Qed.

(** [pop_next] returns the greatest queued job that is not cancelled, or none
    when every queued job is; the cancelled jobs it passes over are dropped from
    the queue, their marks are consumed and their tokens set, and the rest of the
    queue is kept. *)
Theorem pop_next_spec (w : World) (Hok : sched_ok w) :
  let '(r, w') := pop_next w in
  let gone := skipped (cancelled_ids (sched w)) (queue (sched w)) in
  sched_ok w' /\
  queue (sched w) = gone ++ option_list r ++ queue (sched w') /\
  cancelled_ids (sched w') = cancelled_ids (sched w) ∖ list_to_set (job_id <$> gone) /\
  (forall j, j ∈ gone -> job_id j ∈ cancelled_ids (sched w) /\
     flag (tokens w') (job_cancel j) = true) /\
  match r with
  | Some j => job_id j ∉ cancelled_ids (sched w) /\
      forall k, k ∈ queue (sched w) -> job_id k ∉ cancelled_ids (sched w) -> pops_before j k
  | None => forall k, k ∈ queue (sched w) -> job_id k ∈ cancelled_ids (sched w)
  end.
Proof.
  pose proof (pop_next_ok w Hok) as Hfin. revert Hfin.
  unfold pop_next. rewrite pop_loop_eq. cbn [snd]. cbn zeta. intros Hfin.
  set (x := cancelled_ids (sched w)). set (q := queue (sched w)).
  set (g := skipped x q). set (rest := drop (length g) q).
  assert (Hq : q = g ++ rest) by apply skipped_prefix.
  assert (Hsub : forall j, j ∈ g -> j ∈ q) by (intros j Hj; by apply (skipped_elem q x)).
  destruct (sched_ok_cancel_jobs g w Hok Hsub) as (Hok' & _ & Hf).
  assert (Hc : queue (sched (cancel_jobs g w)) = q) by by rewrite cancel_jobs_eq.
  assert (Hh : heap_ok rest).
  { pose proof (so_heap _ Hok) as H1. fold q in H1. unfold heap_ok in *. rewrite Hq in H1.
    by apply StronglySorted_app_1_r in H1. }
  assert (Ht : rest = option_list (head rest) ++ tail rest) by by destruct rest.
  split_and!.
  - exact Hfin.
  - cbn. by rewrite <- Ht.
  - cbn. by rewrite cancel_jobs_eq.
  - intros j Hj. split; [by apply (skipped_elem q x)|by apply Hf].
  - destruct (head rest) as [j|] eqn:Hhd.
    + split; [by apply (skipped_stop q x); [|apply (so_ids _ Hok)]|].
      intros k Hk Hkx. rewrite Hq in Hk. apply elem_of_app in Hk as [Hk|Hk].
      { by apply (skipped_elem q x) in Hk as [_ ?]. }
      rewrite Ht in Hk, Hh. cbn in Hk, Hh. apply elem_of_cons in Hk as [->|Hk]; [done|].
      apply StronglySorted_inv in Hh as [_ Hh]. by eapply Forall_forall in Hh.
    + intros k Hk. rewrite Hq, Ht in Hk. cbn in Hk. destruct rest; [|done].
      rewrite app_nil_r in Hk. by apply (skipped_elem q x).
Qed.

(** ** Scheduling *)

Lemma new_token_views ts :
  tok_wf ts -> let '(t, ts') := new_token ts in
  tok_wf ts' /\ live ts' t /\ ~ is_Some (inner ts t) /\
  (forall u, live ts u -> live ts' u) /\ (forall u, flag ts' u = flag ts u).
Proof.
  intros Hwf. pose proof (new_token_wf ts Hwf) as Hwf'. pose proof (fresh_inner ts Hwf) as Hfr.
  cbn in *. split_and!; [done| | | |].
  - unfold live, inner. cbn. by rewrite lookup_insert_eq.
  - rewrite Hfr. by intros [? ?].
  - intros u Hu. destruct (decide (u = tok_next ts)) as [->|Hne].
    + apply live_inner in Hu as [? ?]. congruence.
    + unfold live, inner in *. cbn. by rewrite lookup_insert_ne.
  - intros u. unfold flag, inner in *. cbn. destruct (decide (u = tok_next ts)) as [->|Hne].
    + by rewrite lookup_insert_eq, Hfr.
    + by rewrite lookup_insert_ne.
Qed.

Lemma schedule_ok p c k lbl v deps w :
  sched_ok w -> (next (sched w) + 1 < U64)%N ->
  sched_ok (schedule_with_options p c k lbl v deps w).2.
Proof.
  intros [H1 H2 H3 H4 H5 H6 H7] Hid.
  unfold schedule_with_options, wrapping_add. rewrite N.mod_small by done.
  pose proof (new_token_views (tokens w) H6) as Hnew.
  destruct (new_token (tokens w)) as [t ts]. destruct Hnew as (Hwf & Hl & Hfr & Hold & Hfl).
  split; cbn; try done; [by apply heap_push_ok| | |].
  - rewrite heap_push_perm, fmap_cons. apply NoDup_cons. split; [|done]. cbn.
    intros (j & Hj & Hin)%list_elem_of_fmap. apply H3 in Hin. lia.
  - intros j Hj. rewrite heap_push_perm in Hj. apply elem_of_cons in Hj as [->|Hj]; cbn; [lia|].
    apply H3 in Hj. lia.
  - intros j Hj. rewrite heap_push_perm in Hj. apply elem_of_cons in Hj as [->|Hj]; cbn; auto.
Qed.

(** scheduling queues one job with the data given, an id above every queued
    one and a fresh live token that is not cancelled; the other jobs, the marks
    and the ledgers stay as they were. *)
Theorem schedule_spec (p : Priority) (c : JobClass) (k : option JobPayloadKind) (lbl : string)
    (v : option VolumeId) (deps : list JobId) (w : World)
    (Hok : sched_ok w) (Hid : (next (sched w) + 1 < U64)%N) :
  let '(job, w') := schedule_with_options p c k lbl v deps w in
  sched_ok w' /\
  job = mkJob (next (sched w) + 1) p c k lbl v deps (job_cancel job) /\
  queue (sched w') ≡ₚ job :: queue (sched w) /\
  (forall j, j ∈ queue (sched w) -> job_id j < job_id job)%N /\
  live (tokens w') (job_cancel job) /\ flag (tokens w') (job_cancel job) = false /\
  (forall j, j ∈ queue (sched w) -> job_cancel j <> job_cancel job) /\
  (forall t, flag (tokens w') t = flag (tokens w) t) /\
  next (sched w') = job_id job /\ cancelled_ids (sched w') = cancelled_ids (sched w) /\
  completed (sched w') = completed (sched w) /\ failed (sched w') = failed (sched w).
Proof.
  pose proof (schedule_ok p c k lbl v deps w Hok Hid) as Hok'. revert Hok'.
  destruct Hok as [H1 H2 H3 H4 H5 H6 H7].
  unfold schedule_with_options, wrapping_add. rewrite N.mod_small by done.
  pose proof (new_token_views (tokens w) H6) as Hnew.
  destruct (new_token (tokens w)) as [t ts]. destruct Hnew as (Hwf & Hl & Hfr & Hold & Hfl).
  cbn. intros Hok'. split_and!; try done.
  - apply heap_push_perm.
  - intros j Hj. apply H3 in Hj. lia.
  - rewrite Hfl. unfold flag. destruct (inner (tokens w) t) eqn:Hi; [|done]. by destruct Hfr.
  - intros j Hj Heq. apply H7, live_inner in Hj. by rewrite Heq in Hj.
Qed.

(** ** The ledgers *)

(** pruning a ledger drops only ids that no queued job depends on, leaves an
    order that lists the set exactly once each, and ends within the retention or
    with nothing but referenced ids; a ledger within the retention is untouched;
    the loop ends within the fuel it is given: more of it changes nothing. *)
Theorem prune_spec (q : list Job) (ids : gset JobId) (order : list JobId)
    (Hl : ledger_ok ids order) :
  let '(ids', order') := prune_completed_ledger_parts q ids order in
  ids' ⊆ ids /\ ledger_ok ids' order' /\
  (forall id, id ∈ ids -> id ∉ ids' -> id ∉ referenced_ids q) /\
  ((N.of_nat (length order') <= COMPLETED_DEPENDENCY_RETENTION)%N \/
   forall id, id ∈ ids' -> id ∈ referenced_ids q) /\
  ((N.of_nat (length order) <= COMPLETED_DEPENDENCY_RETENTION)%N -> ids' = ids /\ order' = order) /\
  forall extra, prune_loop (2 * length order + 1 + extra) (referenced_ids q) ids order 0 =
    prune_loop (2 * length order + 1) (referenced_ids q) ids order 0.
Proof.
  destruct (prune_completed_ledger_parts q ids order) as [ids' order'] eqn:Hp.
  pose proof Hl as [Hnd Hin].
  destruct (prune_parts_spec q ids order ids' order' Hnd (fun id => proj2 (Hin id)) Hp)
    as [[H1 H2 H3 H4] H5].
  split_and!; try done.
  - destruct H5 as [H5|H5]; [by left|right]. intros id Hid. apply H5. by apply H3.
  - intros Hlen. rewrite prune_parts_id in Hp by done. by injection Hp as <- <-.
  - intros extra.
    pose proof (prune_loop_fuel q (2 * length order + 1 + extra) (2 * length order + 1)
      ids order [] 0) as H.
    rewrite app_nil_r in H. apply H; [set_solver|..]; destruct order; simpl; lia.
Qed.

(** ** Worker reports *)

(** The outcomes that decide: those that are not just a start. *)
Definition decisive (l : list TaskOutcome) : list TaskOutcome :=
  filter (fun o => outcome_status o <> Started) l.
(** What a report says of a job, if anything. *)
Definition verdict (l : list TaskOutcome) (id : JobId) : option TaskStatus :=
  outcome_status <$> last (filter (fun o => outcome_id o = id) (decisive l)).

Definition now_completed (l : list TaskOutcome) (s : Scheduler) (id : JobId) : Prop :=
  match verdict l id with Some v => v = Completed | None => id ∈ completed s end.
Definition now_failed (l : list TaskOutcome) (s : Scheduler) (id : JobId) : Prop :=
  match verdict l id with Some v => is_failed v | None => id ∈ failed s end.
Definition now_cancelled (l : list TaskOutcome) (s : Scheduler) (id : JobId) : Prop :=
  match verdict l id with Some v => v = CancelledStatus | None => id ∈ cancelled_ids s end.

(** The first outcome for a job already decided. *)
Fixpoint first_duplicate (seen : gset JobId) (l : list TaskOutcome) : option JobId :=
  match l with
  | [] => None
  | o :: l' =>
      if decide (outcome_status o = Started) then first_duplicate seen l'
      else if decide (outcome_id o ∈ seen) then Some (outcome_id o)
      else first_duplicate ({[outcome_id o]} ∪ seen) l'
  end.

Definition ingest_step (st : Staged) (o : TaskOutcome) : Staged :=
  if decide (outcome_status o = Started) then st else stage_outcome o st.

Lemma stage_outcome_seen o st : st_seen (stage_outcome o st) = if decide (outcome_status o = Started)
  then {[outcome_id o]} ∪ st_seen st else {[outcome_id o]} ∪ st_seen st.
Proof. unfold stage_outcome. by destruct (outcome_status o). Qed.

Lemma ingest_runs l : forall st w,
  runs (mfor ingest_outcome st l) w
    (match first_duplicate (st_seen st) l with
     | Some id => Err (duplicate_outcome id)
     | None => Ok (foldl ingest_step st l)
     end) w.
Proof.
  induction l as [|o l IH]; intros st w; cbn [mfor first_duplicate foldl]; [apply runs_ret|].
  assert (Hstep : ingest_step st o = if decide (outcome_status o = Started) then st
    else stage_outcome o st) by done.
  destruct (decide (outcome_status o = Started)) as [Hs|Hs].
  { eapply runs_bind; [|by rewrite Hstep; apply IH].
    unfold ingest_outcome. runs_step. rewrite decide_True by done. apply runs_ret. }
  destruct (decide (outcome_id o ∈ st_seen st)) as [Hin|Hin].
  { apply runs_bind_err. unfold ingest_outcome. runs_step.
    rewrite decide_False, decide_True by done. apply runs_fail. }
  eapply runs_bind.
  { unfold ingest_outcome. runs_step. rewrite !decide_False by done. runs_auto. }
  rewrite Hstep. specialize (IH (stage_outcome o st) w).
  rewrite stage_outcome_seen, decide_False in IH by done. exact IH.
Qed.

Lemma first_duplicate_some l : forall seen id,
  first_duplicate seen l = Some id -> id ∈ outcome_id <$> decisive l /\
  (id ∈ seen \/ ~ NoDup (outcome_id <$> decisive l)).
Proof.
  unfold decisive. induction l as [|o l IH]; intros seen id; cbn [first_duplicate]; [done|].
  rewrite filter_cons. destruct (decide (outcome_status o = Started)) as [Hs|Hs].
  { rewrite (decide_False (P := _ <> Started)) by tauto. apply IH. }
  rewrite (decide_True (P := _ <> Started)) by done. rewrite fmap_cons, NoDup_cons.
  case_decide as Hin; [intros [= <-]; set_solver|].
  intros [Hid Hor]%IH. split; [set_solver|].
  destruct Hor as [[Hx%elem_of_singleton|?]%elem_of_union|?]; [|by left|tauto].
  right. intros [Hn _]. by rewrite Hx in Hid.
Qed.

Lemma first_duplicate_none l : forall seen,
  first_duplicate seen l = None -> NoDup (outcome_id <$> decisive l) /\
  forall id, id ∈ outcome_id <$> decisive l -> id ∉ seen.
Proof.
  unfold decisive. induction l as [|o l IH]; intros seen; cbn [first_duplicate].
  { split; [constructor|set_solver]. }
  rewrite filter_cons. destruct (decide (outcome_status o = Started)) as [Hs|Hs].
  { rewrite (decide_False (P := _ <> Started)) by tauto. apply IH. }
  rewrite (decide_True (P := _ <> Started)) by done. rewrite fmap_cons, NoDup_cons.
  case_decide as Hin; [done|]. intros [Hnd Hdis]%IH.
  split; [split; [intros Hx%Hdis; set_solver|done]|].
  intros id [->|Hid]%elem_of_cons; [done|]. apply Hdis in Hid. set_solver.
Qed.

Lemma verdict_snoc l o id : verdict (l ++ [o]) id =
  if decide (outcome_status o <> Started /\ outcome_id o = id)
  then Some (outcome_status o) else verdict l id.
Proof.
  unfold verdict, decisive. rewrite filter_app, filter_cons, filter_nil.
  destruct (decide (outcome_status o = Started)) as [Hs|Hs].
  { rewrite !decide_False by tauto. by rewrite app_nil_r. }
  rewrite decide_True by done. rewrite filter_app, filter_cons, filter_nil.
  destruct (decide (outcome_id o = id)) as [Hi|Hi].
  { rewrite decide_True by done. by rewrite last_snoc. }
  rewrite decide_False by tauto. by rewrite app_nil_r.
Qed.

(** What the staged sets hold after the outcomes [l]. *)
Record staged_ok (s : Scheduler) (l : list TaskOutcome) (st : Staged) : Prop := {
  sk_completed id : id ∈ st_completed st <-> now_completed l s id;
  sk_failed id : id ∈ st_failed st <-> now_failed l s id;
  sk_cancelled id : id ∈ st_cancelled st <-> now_cancelled l s id;
  sk_ledger_c : ledger_ok (st_completed st) (st_completed_order st);
  sk_ledger_f : ledger_ok (st_failed st) (st_failed_order st);
  sk_done : st_done st = mkIngestion
    (outcome_id <$> filter (fun o => outcome_status o = Completed) l)
    (outcome_id <$> filter (fun o => outcome_status o = CancelledStatus) l)
    (outcome_id <$> filter (fun o => is_failed (outcome_status o)) l)
}.

Lemma ingest_step_ok s l o st : staged_ok s l st -> staged_ok s (l ++ [o]) (ingest_step st o).
Proof.
  intros [H1 H2 H3 H4 H5 H6].
  unfold now_completed, now_failed, now_cancelled in *.
  destruct (decide (outcome_status o = Started)) as [Hs|Hs].
  - unfold ingest_step. rewrite decide_True by done.
    split; unfold now_completed, now_failed, now_cancelled; try done;
      try (intros id; rewrite verdict_snoc, decide_False by tauto; done).
    rewrite !filter_app, !filter_cons, !filter_nil, Hs.
    rewrite !decide_False by (done || tauto). by rewrite !app_nil_r.
  - assert (Hv : forall id, verdict (l ++ [o]) id =
      if decide (outcome_id o = id) then Some (outcome_status o) else verdict l id).
    { intros id. rewrite verdict_snoc. repeat case_decide; tauto. }
    unfold ingest_step. rewrite decide_False by done. unfold stage_outcome.
    destruct (outcome_status o) eqn:Ho; [done|..];
    (split; unfold now_completed, now_failed, now_cancelled; cbn; auto with gfm;
     [intros id; rewrite Hv; destruct (decide (outcome_id o = id)) as [<-|Hne];
        cbn; [set_solver|rewrite <- ?H1, <- ?H2, <- ?H3; set_solver]..|]).
    all: rewrite H6, !filter_app, !filter_cons, !filter_nil, Ho;
      rewrite ?fmap_app, ?app_nil_r; cbn; rewrite ?app_nil_r; try done.
Qed.

Lemma ingest_ok s l st : staged_ok s [] st -> staged_ok s l (foldl ingest_step st l).
Proof.
  intros Hst. induction l as [|o l IH] using rev_ind; [done|].
  rewrite foldl_app. cbn [foldl]. by apply ingest_step_ok.
Qed.

Lemma stage_start_ok w : sched_ok w -> staged_ok (sched w) [] (stage_start (sched w)).
Proof. intros []. by split. Qed.

(** Staged ledgers, pruned and published. *)
Lemma sched_ok_commit st w :
  sched_ok w -> ledger_ok (st_completed st) (st_completed_order st) ->
  ledger_ok (st_failed st) (st_failed_order st) ->
  let s' := commit_staged st (sched w) in
  sched_ok (with_sched (commit_staged st) w) /\ queue s' = queue (sched w) /\
  next s' = next (sched w) /\ cancelled_ids s' = st_cancelled st /\
  completed s' ⊆ st_completed st /\ failed s' ⊆ st_failed st /\
  (forall id, id ∈ st_completed st -> id ∉ completed s' -> id ∉ referenced_ids (queue (sched w))) /\
  (forall id, id ∈ st_failed st -> id ∉ failed s' -> id ∉ referenced_ids (queue (sched w))).
Proof.
  intros [H1 H2 H3 H4 H5 H6 H7] [Hc1 Hc2] [Hf1 Hf2]. cbn zeta. unfold with_sched, commit_staged.
  destruct (prune_completed_ledger_parts _ (st_completed st) _) as [c co] eqn:Hc.
  destruct (prune_completed_ledger_parts _ (st_failed st) _) as [f fo] eqn:Hf.
  apply prune_parts_spec in Hc as [[] _]; [|done|intros; by apply Hc2].
  apply prune_parts_spec in Hf as [[] _]; [|done|intros; by apply Hf2].
  by split_and!.
Qed.

(** ingesting a worker report: when no job has two deciding outcomes, each
    reported job ends completed, cancelled or failed as its outcome says and no
    longer carries the marks of the other two, jobs not reported keep their marks,
    the summary lists the ids by id, and pruning forgets only ids that no queued
    job references.  A second deciding outcome for a job is an error that changes
    nothing. *)
Theorem worker_report_spec (r : WorkerReport) (w : World) (Hok : sched_ok w) :
  let l := outcomes r in
  (NoDup (outcome_id <$> decisive l) ->
   exists w', run (apply_worker_report_checked r) never w =
     (Ok (sorted_ingestion (mkIngestion
        (outcome_id <$> filter (fun o => outcome_status o = Completed) l)
        (outcome_id <$> filter (fun o => outcome_status o = CancelledStatus) l)
        (outcome_id <$> filter (fun o => is_failed (outcome_status o)) l))), w') /\
     sched_ok w' /\ tokens w' = tokens w /\ queue (sched w') = queue (sched w) /\
     (forall id, id ∈ cancelled_ids (sched w') <-> now_cancelled l (sched w) id) /\
     (forall id, id ∈ completed (sched w') -> now_completed l (sched w) id) /\
     (forall id, id ∈ failed (sched w') -> now_failed l (sched w) id) /\
     (forall id, id ∈ referenced_ids (queue (sched w)) ->
        (id ∈ completed (sched w') <-> now_completed l (sched w) id) /\
        (id ∈ failed (sched w') <-> now_failed l (sched w) id))) /\
  (~ NoDup (outcome_id <$> decisive l) ->
   exists id, id ∈ outcome_id <$> decisive l /\
     run (apply_worker_report_checked r) never w = (Err (duplicate_outcome id), w)).
Proof.
  cbn zeta. pose proof (ingest_runs (outcomes r) (stage_start (sched w)) w) as Hruns.
  change (st_seen (stage_start (sched w))) with (∅ : gset JobId) in Hruns.
  split; intros Hnd; destruct (first_duplicate ∅ (outcomes r)) as [d|] eqn:Hd.
  - apply first_duplicate_some in Hd as [_ [Hx|Hx]]; [set_solver|done].
  - set (st := foldl ingest_step (stage_start (sched w)) (outcomes r)) in *.
    assert (Hst : staged_ok (sched w) (outcomes r) st) by (by apply ingest_ok, stage_start_ok).
    destruct Hst as [K1 K2 K3 K4 K5 K6].
    destruct (sched_ok_commit st w Hok K4 K5) as (G1 & G2 & G3 & G4 & G5 & G6 & G7 & G8).
    exists (with_sched (commit_staged st) w). rewrite <- K6.
    split_and!; try done.
    + apply runs_run. unfold apply_worker_report_checked. do 2 runs_step.
      eapply runs_bind; [exact Hruns|]. runs_auto.
    + intros id. rewrite <- K3. cbn. by rewrite G4.
    + intros id Hid. apply K1, G5, Hid.
    + intros id Hid. apply K2, G6, Hid.
    + intros id Hid. rewrite <- K1, <- K2. split; (split; [by apply G5 || by apply G6|]); intros Hin.
      * destruct (decide (id ∈ completed (commit_staged st (sched w)))); [done|]. by destruct (G7 id).
      * destruct (decide (id ∈ failed (commit_staged st (sched w)))); [done|]. by destruct (G8 id).
  - apply first_duplicate_some in Hd as [Hin _]. exists d. split; [done|].
    apply runs_run. unfold apply_worker_report_checked. do 2 runs_step.
    by apply runs_bind_err.
  - by apply first_duplicate_none in Hd as [? _].
Qed.

(** ** Completing, rebinding and cancelling *)

Definition mark_staged (id : JobId) (s : Scheduler) : Staged :=
  mkStaged (cancelled_ids s ∖ {[id]}) ({[id]} ∪ completed s)
    (push_new id (completed s) (completed_order s)) (failed s) (failed_order s) ∅
    (mkIngestion [] [] []).

Lemma mark_done_ok id w : sched_ok w -> sched_ok (with_sched (mark_done id) w).
Proof.
  intros Hok. change (with_sched (mark_done id) w) with
    (with_sched (commit_staged (mark_staged id (sched w))) w).
  apply sched_ok_commit; [done|by apply ledger_insert, Hok|apply Hok].
Qed.

(** marking a job completed records it, consumes its cancellation mark and
    forgets only ids that no queued job references; a job a queued job depends on
    is never forgotten; and a mark that a poll interrupts, before or after the
    sets were changed, is rolled back to the state before the call. *)
Theorem mark_completed_spec (id : JobId) (w : World) (Hok : sched_ok w) :
  exists w', mark_completed id w = Some (tt, w') /\ sched_ok w' /\
    tokens w' = tokens w /\ queue (sched w') = queue (sched w) /\
    cancelled_ids (sched w') = cancelled_ids (sched w) ∖ {[id]} /\
    completed (sched w') ⊆ {[id]} ∪ completed (sched w) /\
    failed (sched w') ⊆ failed (sched w) /\
    (forall d, d ∈ referenced_ids (queue (sched w)) ->
       (d ∈ completed (sched w') <-> d = id \/ d ∈ completed (sched w)) /\
       (d ∈ failed (sched w') <-> d ∈ failed (sched w))) /\
    (forall c w'' e, run (mark_completed_checked id) c w = (Err e, w'') -> w'' = w).
Proof.
  exists (with_sched (mark_done id) w).
  split; [apply runs_expect, mark_completed_runs|].
  set (st := mark_staged id (sched w)).
  assert (Heq : mark_done id (sched w) = commit_staged st (sched w)) by done.
  destruct (sched_ok_commit st w Hok) as (G1 & G2 & G3 & G4 & G5 & G6 & G7 & G8);
    [by apply ledger_insert, Hok|apply Hok|].
  unfold with_sched in *. rewrite Heq. cbn. split_and!; try done.
  2:{ intros c w'' e. by apply mark_completed_err. }
  intros d Hd. split.
  - split; [intros Hx%G5; cbn in Hx; set_solver|]. intros Hx.
    destruct (decide (d ∈ completed (commit_staged st (sched w)))) as [|Hn]; [done|].
    destruct (G7 d); [cbn; set_solver|done..].
  - split; [apply G6|]. intros Hx.
    destruct (decide (d ∈ failed (commit_staged st (sched w)))) as [|Hn]; [done|].
    by destruct (G8 d).
Qed.

Lemma heap_collect_id q : heap_ok q -> NoDup (job_id <$> q) -> heap_collect q = q.
Proof.
  intros Hq Hnd. symmetry. apply heap_unique; [done|apply heap_collect_ok|done|].
  symmetry. apply heap_collect_perm.
Qed.

Lemma NoDup_ids_filter (P : Job -> Prop) `{!forall j, Decision (P j)} q :
  NoDup (job_id <$> q) -> NoDup (job_id <$> filter P q).
Proof.
  induction q as [|j q IH]; [done|]. rewrite fmap_cons, NoDup_cons, filter_cons. intros [Hj Hnd].
  case_decide; [|auto]. rewrite fmap_cons, NoDup_cons. split; [|auto].
  intros (k & Hk & Hin)%list_elem_of_fmap. apply list_elem_of_filter in Hin as [_ Hin].
  apply Hj. rewrite Hk. by apply list_elem_of_fmap_2.
Qed.
#[local] Hint Resolve NoDup_ids_filter : gfm.

(** Jobs changed without touching what the order of the queue looks at. *)
Lemma heap_ok_map (f : Job -> Job) q :
  (forall j, rank (f j) = rank j /\ job_id (f j) = job_id j) -> heap_ok q -> heap_ok (f <$> q).
Proof.
  intros Hf. unfold heap_ok. induction 1 as [|j q _ IH Hj]; [constructor|].
  rewrite fmap_cons. constructor; [done|]. apply Forall_fmap. eapply Forall_impl; [exact Hj|].
  intros k. cbn. rewrite !pops_before_iff. destruct (Hf j) as [-> ->], (Hf k) as [-> ->]. done.
Qed.

Lemma filter_id_unique q j id :
  NoDup (job_id <$> q) -> j ∈ q -> job_id j = id -> filter (fun k => job_id k = id) q = [j].
Proof.
  induction q as [|k q IH]; [set_solver|]. rewrite fmap_cons, NoDup_cons, filter_cons.
  intros [Hk Hnd] [->|Hj]%elem_of_cons Hid.
  - rewrite decide_True by done. f_equal. apply filter_none. intros x Hin Hx.
    apply Hk. rewrite Hid, <- Hx. by apply list_elem_of_fmap_2.
  - rewrite decide_False; [auto|]. intros Hx. apply Hk. rewrite Hx, <- Hid. by apply list_elem_of_fmap_2.
Qed.

Lemma set_volume_fields id v j :
  let k := if decide (job_id j = id) then set_volume v j else j in
  rank k = rank j /\ job_id k = job_id j /\ job_cancel k = job_cancel j.
Proof. cbn zeta. by case_decide. Qed.

Lemma bind_volume_done id v w :
  let q' := (fun j => if decide (job_id j = id) then set_volume v j else j) <$> queue (sched w) in
  sched_ok w ->
  runs (bind_volume_checked id v) w
    (Ok (last (set_volume v <$> filter (fun j => job_id j = id) (queue (sched w)))))
    (with_sched (set_queue_of q') w) /\
  sched_ok (with_sched (set_queue_of q') w).
Proof.
  cbn zeta. intros Hok. pose proof (bind_volume_runs id v w) as Hr.
  set (f := fun j => if decide (job_id j = id) then set_volume v j else j) in *.
  assert (Hids : job_id <$> (f <$> queue (sched w)) = job_id <$> queue (sched w)).
  { rewrite <- list_fmap_compose. apply list_fmap_ext. intros _ j _. apply (set_volume_fields id v). }
  assert (Hh : heap_ok (f <$> queue (sched w))).
  { apply heap_ok_map; [|apply Hok]. intros j. by destruct (set_volume_fields id v j) as (? & ? & _). }
  assert (Hnd : NoDup (job_id <$> (f <$> queue (sched w)))) by (rewrite Hids; apply Hok).
  rewrite (heap_collect_id _ Hh Hnd) in Hr. split; [done|].
  apply sched_ok_queue; try done. intros j (k & -> & Hk)%list_elem_of_fmap.
  exists k. unfold f. by destruct (set_volume_fields id v k) as (_ & -> & ->).
Qed.

(** binding a volume changes the volume of the one queued job with that id,
    returns it as it now is, and keeps the order of the queue and all the rest; it
    returns nothing when no queued job has the id. *)
Theorem bind_volume_spec (id : JobId) (v : VolumeId) (w : World) (Hok : sched_ok w) :
  let q := queue (sched w) in
  let q' := (fun j => if decide (job_id j = id) then set_volume v j else j) <$> q in
  exists r, bind_volume id v w = Some (r, with_sched (set_queue_of q') w) /\
    sched_ok (with_sched (set_queue_of q') w) /\
    (forall j, j ∈ q -> job_id j = id -> r = Some (set_volume v j)) /\
    (id ∉ job_id <$> q -> r = None /\ q' = q).
Proof.
  cbn zeta. destruct (bind_volume_done id v w Hok) as [Hr Hok'].
  eexists. split; [apply runs_expect, Hr|]. split_and!; [done|..].
  - intros j Hj Hid. by rewrite (filter_id_unique _ j id (so_ids _ Hok) Hj Hid).
  - intros Hn. assert (forall j, j ∈ queue (sched w) -> job_id j <> id) as Hne.
    { intros j Hj <-. apply Hn. by apply list_elem_of_fmap_2. }
    split.
    + by rewrite filter_none.
    + rewrite <- (list_fmap_id (queue (sched w))) at 2. apply list_fmap_ext. intros i j Hj.
      rewrite decide_False; [done|]. by eapply Hne, list_elem_of_lookup_2.
Qed.

Lemma cancel_all_only js : forall ts t,
  tok_wf ts -> (forall j, j ∈ js -> live ts (job_cancel j)) ->
  flag (cancel_all js ts) t = true ->
  flag ts t = true \/ exists j, j ∈ js /\ ancestor ts t (job_cancel j).
Proof.
  induction js as [|j js IH]; intros ts t Hwf Hl; cbn; [by left|].
  assert (Hlj : live ts (job_cancel j)) by (apply Hl; left).
  destruct (cancel_job_ok j ts Hwf Hlj) as (Hwf1 & Hsh1 & _ & _).
  intros Ht. destruct (IH (cancel_job j ts) t Hwf1) as [Hf|(k & Hk & Ha)]; [|done| |].
  - intros k Hk. apply (same_shape_live _ _ _ Hsh1), Hl. by right.
  - unfold cancel_job in Hf. destruct (cancel_walk (job_cancel j) ts Hwf Hlj) as (ts' & V & Hc & Hi).
    rewrite Hc in Hf. cbn in Hf.
    destruct (proj1 (wi_flags _ _ _ _ _ Hi t) Hf) as [?|HV]; [by left|right].
    exists j. split; [left|]. apply (wi_below _ _ _ _ _ Hi), elem_of_app. by left.
  - right. exists k. split; [by right|]. by apply (ancestor_shape _ _ _ _ Hsh1).
Qed.

Lemma cancel_volume_done v c kinds w :
  let hit := filter (volume_match v c kinds) (queue (sched w)) in
  let w' := with_sched (set_queue_of (filter (fun j => ~ volume_match v c kinds j) (queue (sched w))))
              (cancel_jobs hit w) in
  sched_ok w ->
  runs (cancel_volume_jobs_checked v c kinds) w
    (Ok (mkVolumeReport v c (default [] kinds) (sort_by_key cj_id (cancelled_job <$> hit)))) w' /\
  sched_ok w'.
Proof.
  cbn zeta. intros Hok. pose proof (cancel_volume_jobs_runs v c kinds w) as Hr. cbn zeta in Hr.
  destruct (sched_ok_cancel_jobs (filter (volume_match v c kinds) (queue (sched w))) w Hok)
    as (Hok' & _).
  { intros j Hj. by apply list_elem_of_filter in Hj as [_ ?]. }
  assert (Hq : heap_ok (filter (fun j => ~ volume_match v c kinds j) (queue (sched w))))
    by (apply heap_ok_filter, Hok).
  assert (Hnd : NoDup (job_id <$> filter (fun j => ~ volume_match v c kinds j) (queue (sched w))))
    by (apply NoDup_ids_filter, Hok).
  rewrite (heap_collect_id _ Hq Hnd) in Hr. split; [exact Hr|].
  apply sched_ok_queue; try done. rewrite cancel_jobs_eq. cbn. intros j Hj. exists j.
  by apply list_elem_of_filter in Hj as [_ ?].
Qed.

(** cancelling the jobs of a volume takes exactly the queued jobs of that
    volume, class and payload kinds out of the queue, consumes their marks, reports
    them by id and cancels their tokens; no token that is not below one of theirs
    becomes cancelled, and the other jobs stay queued. *)
Theorem cancel_volume_jobs_spec (v : VolumeId) (c : option JobClass)
    (kinds : option (list JobPayloadKind)) (w : World) (Hok : sched_ok w) :
  let hit := filter (volume_match v c kinds) (queue (sched w)) in
  exists w', expect (cancel_volume_jobs_checked v c kinds) w =
      Some (mkVolumeReport v c (default [] kinds) (sort_by_key cj_id (cancelled_job <$> hit)), w') /\
    sched_ok w' /\
    queue (sched w') = filter (fun j => ~ volume_match v c kinds j) (queue (sched w)) /\
    cancelled_ids (sched w') = cancelled_ids (sched w) ∖ list_to_set (job_id <$> hit) /\
    completed (sched w') = completed (sched w) /\ failed (sched w') = failed (sched w) /\
    (forall j, j ∈ hit -> flag (tokens w') (job_cancel j) = true) /\
    (forall t, flag (tokens w') t = true -> flag (tokens w) t = true \/
       exists j, j ∈ hit /\ ancestor (tokens w) t (job_cancel j)).
Proof.
  cbn zeta. destruct (cancel_volume_done v c kinds w Hok) as [Hr Hok'].
  set (hit := filter (volume_match v c kinds) (queue (sched w))) in *.
  assert (Hsub : forall j, j ∈ hit -> j ∈ queue (sched w)).
  { intros j Hj. by apply list_elem_of_filter in Hj as [_ ?]. }
  destruct (sched_ok_cancel_jobs hit w Hok Hsub) as (_ & _ & Hf).
  eexists. split; [apply runs_expect, Hr|].
  split_and!; try (rewrite cancel_jobs_eq; done).
  - exact Hok'.
  - exact Hf.
  - intros t. rewrite cancel_jobs_eq. cbn. apply cancel_all_only; [apply Hok|].
    intros j Hj. by apply (so_live _ Hok), Hsub.
Qed.

(** ** Draining *)

Lemma cancel_tokens_ok js w :
  sched_ok w -> (forall j, j ∈ js -> j ∈ queue (sched w)) ->
  sched_ok (cancel_tokens js w) /\
  forall j, j ∈ js -> flag (tokens (cancel_tokens js w)) (job_cancel j) = true.
Proof.
  intros Hok Hsub.
  destruct (cancel_all_ok js (tokens w) (so_tokens _ Hok)) as (Hwf & Hsh & _ & Hf).
  { intros j Hj. apply (so_live _ Hok). auto. }
  split; [|exact Hf]. destruct Hok. split; try done; cbn.
  intros j Hj. by apply (same_shape_live _ _ _ Hsh), so_live.
Qed.

Lemma drain_cancelled_sub s j : j ∈ drain_cancelled_jobs s -> j ∈ queue s.
Proof. intros Hj. by apply list_elem_of_filter in Hj as [_ ?]. Qed.

Lemma drain_ready_ok w :
  sched_ok w ->
  sched_ok (with_sched (fun s => set_cancelled_ids (drain_left_cancelled (sched w)) (set_queue_of [] s))
    (cancel_tokens (drain_cancelled_jobs (sched w)) w)).
Proof.
  intros Hok.
  destruct (cancel_tokens_ok (drain_cancelled_jobs (sched w)) w Hok (drain_cancelled_sub _))
    as (Hok' & _).
  apply (sched_ok_cancelled _ (with_sched (set_queue_of []) _)).
  apply sched_ok_queue; [done|constructor|constructor|]. intros j Hj. by apply elem_of_nil in Hj.
Qed.

(** a plain drain empties the queue and returns, in popping order, the jobs
    that are neither completed nor cancelled; the cancelled ones are cancelled and
    their marks consumed. *)
Theorem drain_ready_spec (w : World) (Hok : sched_ok w) :
  exists w', drain_ready w = Some
      (filter (fun j => job_id j ∉ completed (sched w) /\ job_id j ∉ cancelled_ids (sched w))
         (queue (sched w)), w') /\
    sched_ok w' /\ queue (sched w') = [] /\
    completed (sched w') = completed (sched w) /\ failed (sched w') = failed (sched w) /\
    forall j, j ∈ queue (sched w) -> job_id j ∉ completed (sched w) ->
      job_id j ∈ cancelled_ids (sched w) ->
      flag (tokens w') (job_cancel j) = true /\ job_id j ∉ cancelled_ids (sched w').
Proof.
  eexists. split; [apply runs_expect, drain_ready_runs, Hok|].
  destruct (cancel_tokens_ok (drain_cancelled_jobs (sched w)) w Hok (drain_cancelled_sub _))
    as (Hok' & Hf).
  split_and!; try done; [by apply drain_ready_ok|].
  intros j Hj Hc Hx.
  assert (Hd : j ∈ drain_cancelled_jobs (sched w)) by (by apply list_elem_of_filter).
  split; [by apply Hf|]. cbn. unfold drain_left_cancelled.
  rewrite elem_of_difference, elem_of_list_to_set. intros [_ Hn]. apply Hn.
  by apply list_elem_of_fmap_2.
Qed.

Lemma blocked_ids_plan pl l :
  blocked_id <$> blocked (reference_plan pl l) = job_id <$> unsatisfied_jobs pl l.
Proof. unfold reference_plan. cbn [blocked]. by rewrite <- list_fmap_compose. Qed.

Lemma ready_plan_perm pl l : ready (reference_plan pl l) ≡ₚ satisfied_jobs pl l.
Proof.
  unfold reference_plan. cbn [ready]. rewrite rounds_perm; [apply class_queues_total|].
  unfold total. change (fun c => filter (fun j => class j = c) (satisfied_jobs pl l))
    with (class_queues (satisfied_jobs pl l)).
  rewrite class_queues_total. apply length_filter.
Qed.

(** The blocked ids name the jobs with an open dependency. *)
Lemma requeued_plan pl l :
  NoDup (job_id <$> l) -> requeued (reference_plan pl l) l = unsatisfied_jobs pl l.
Proof.
  intros Hnd. unfold requeued. rewrite blocked_ids_plan.
  unfold unsatisfied_jobs at 2. apply filter_ext_in. intros j Hj.
  rewrite elem_of_list_to_set. split.
  - intros (k & Hid & Hk)%list_elem_of_fmap. apply list_elem_of_filter in Hk as [Hu Hk].
    assert (j = k) as ->; [|done].
    pose proof (filter_id_unique l j _ Hnd Hj eq_refl) as H1.
    pose proof (filter_id_unique l k _ Hnd Hk eq_refl) as H2.
    rewrite Hid in H1. rewrite H1 in H2. by injection H2.
  - intros Hu. apply list_elem_of_fmap_2. by apply list_elem_of_filter.
Qed.

Lemma satisfied_split pl l : satisfied_jobs pl l ++ unsatisfied_jobs pl l ≡ₚ l.
Proof.
  unfold satisfied_jobs, unsatisfied_jobs. induction l as [|j l IH]; [done|].
  rewrite !filter_cons. destruct (dependencies_satisfied j (planner_completed pl)).
  - rewrite (decide_True (P := true = true)), (decide_False (P := true = false)) by done.
    cbn [app]. by rewrite IH.
  - rewrite (decide_True (P := false = false)), (decide_False (P := false = true)) by done.
    by rewrite <- Permutation_middle, IH.
Qed.

Lemma sched_ok_clear x q w :
  sched_ok w -> heap_ok q -> NoDup (job_id <$> q) -> (forall j, j ∈ q -> j ∈ queue (sched w)) ->
  sched_ok (with_sched (fun s => prune_completed_ledger (set_queue_of q (cleared x s))) w).
Proof.
  intros [H1 H2 H3 [Hc1 Hc2] [Hf1 Hf2] H6 H7] Hq Hnd Hsub.
  unfold with_sched, prune_completed_ledger.
  destruct (prune_completed_ledger_parts _ (completed _) _) as [c co] eqn:Hc.
  destruct (prune_completed_ledger_parts _ (failed _) _) as [f fo] eqn:Hf.
  cbn in Hc, Hf.
  apply prune_parts_spec in Hc as [Hc _]; [|done|intros id; rewrite elem_of_difference, <- Hc2; tauto].
  apply prune_parts_spec in Hf as [Hf _]; [|done|intros id; rewrite elem_of_difference, <- Hf2; tauto].
  split; try done; cbn; auto; eapply pr_ledger; eauto.
Qed.

Lemma drain_ready_jobs_ids s :
  NoDup (job_id <$> queue s) -> NoDup (job_id <$> drain_ready_jobs s).
Proof. apply NoDup_ids_filter. Qed.

Lemma drain_parts s :
  drain_ready_jobs s ++ drain_cancelled_jobs s ++ filter (fun j => job_id j ∈ completed s) (queue s)
    ≡ₚ queue s.
Proof.
  unfold drain_ready_jobs, drain_cancelled_jobs. induction (queue s) as [|j q IH]; [done|].
  rewrite !filter_cons.
  destruct (decide (job_id j ∈ completed s)) as [Hc|Hc], (decide (job_id j ∈ cancelled_ids s)) as [Hx|Hx];
    repeat match goal with |- context [decide ?P] =>
      first [rewrite (decide_True (P := P)) by tauto|rewrite (decide_False (P := P)) by tauto] end;
    cbn [app]; rewrite <- ?Permutation_middle, IH; done.
Qed.

(** The state after a fair drain. *)
Definition after_fair (policy : JobFairnessPolicy) (also : list JobId) (w : World) : World :=
  let s := sched w in
  with_sched (fun s => prune_completed_ledger
      (set_queue_of (unsatisfied_jobs (drain_planner policy also s) (drain_ready_jobs s))
         (cleared (drain_left_cancelled s) s)))
    (cancel_tokens (drain_cancelled_jobs s) w).

Lemma drain_fair_after policy also w :
  sched_ok w ->
  runs (drain_fair_ready_checked policy also) w (Ok (drain_plan policy also (sched w)))
    (after_fair policy also w) /\ sched_ok (after_fair policy also w).
Proof.
  intros Hok. pose proof (so_ids _ Hok) as Hids.
  pose proof (drain_ready_jobs_ids _ Hids) as Hnd.
  assert (Hback : heap_collect (requeued (drain_plan policy also (sched w)) (drain_ready_jobs (sched w))) =
    unsatisfied_jobs (drain_planner policy also (sched w)) (drain_ready_jobs (sched w))).
  { unfold drain_plan. rewrite requeued_plan by done. apply heap_collect_id.
    - apply heap_ok_filter, heap_ok_filter, Hok.
    - by apply NoDup_ids_filter. }
  split.
  - pose proof (drain_fair_runs policy also w Hids) as Hr. cbn zeta in Hr.
    rewrite Hback in Hr. exact Hr.
  - destruct (cancel_tokens_ok (drain_cancelled_jobs (sched w)) w Hok (drain_cancelled_sub _)) as [Hok' _].
    apply (sched_ok_clear (drain_left_cancelled (sched w)) _
      (cancel_tokens (drain_cancelled_jobs (sched w)) w)); [done|..].
    + apply heap_ok_filter, heap_ok_filter, Hok.
    + by apply NoDup_ids_filter.
    + intros j Hj. apply list_elem_of_filter in Hj as [_ Hj].
      by apply list_elem_of_filter in Hj as [_ ?].
Qed.

Lemma prune_ledger_queue s : queue (prune_completed_ledger s) = queue s.
Proof.
  unfold prune_completed_ledger.
  by destruct (prune_completed_ledger_parts _ _ _), (prune_completed_ledger_parts _ _ _).
Qed.

(** an uninterrupted fair drain loses no job: every queued job is handed out
    ready, put back blocked, cancelled, or was completed already, and only one of
    these; a job is handed out exactly when it is neither completed nor cancelled
    and its dependencies completed, and the blocked ones stay in popping order. *)
Theorem drain_fair_spec (policy : JobFairnessPolicy) (also : list JobId) (w : World)
    (Hok : sched_ok w) :
  exists p w', drain_fair_ready policy also w = Some (p, w') /\ sched_ok w' /\
    let s := sched w in
    let done_jobs := filter (fun j => job_id j ∈ completed s) (queue s) in
    queue s ≡ₚ ready p ++ queue (sched w') ++ drain_cancelled_jobs s ++ done_jobs /\
    (forall j, j ∈ ready p <-> j ∈ queue s /\ job_id j ∉ completed s /\ job_id j ∉ cancelled_ids s /\
       forall d, d ∈ dependencies j -> d ∈ completed s \/ d ∈ also) /\
    (forall j, j ∈ drain_cancelled_jobs s -> flag (tokens w') (job_cancel j) = true) /\
    blocked_id <$> blocked p = job_id <$> queue (sched w').
Proof.
  destruct (drain_fair_after policy also w Hok) as [Hr Hok'].
  exists (drain_plan policy also (sched w)), (after_fair policy also w).
  split; [by apply runs_expect|]. split; [done|]. cbn zeta.
  assert (Hq : queue (sched (after_fair policy also w)) =
    unsatisfied_jobs (drain_planner policy also (sched w)) (drain_ready_jobs (sched w))).
  { unfold after_fair, with_sched. cbn [sched]. by rewrite prune_ledger_queue. }
  rewrite Hq. unfold drain_plan. split_and!.
  - rewrite ready_plan_perm, app_assoc, satisfied_split. symmetry. apply drain_parts.
  - intros j. rewrite ready_plan_perm. unfold satisfied_jobs, drain_ready_jobs.
    rewrite !list_elem_of_filter, dependencies_satisfied_spec.
    assert (Hd : forall d, d ∈ planner_completed (drain_planner policy also (sched w)) <->
      d ∈ completed (sched w) \/ d ∈ also).
    { intros d. cbn. rewrite list_to_set_app. set_solver. }
    setoid_rewrite Hd. tauto.
  - apply (cancel_tokens_ok (drain_cancelled_jobs (sched w)) w Hok (drain_cancelled_sub _)).
  - apply blocked_ids_plan.
Qed.

Lemma requeue_err js c : forall k w e k' w',
  requeue_checked js c k w = (Err e, k', w') ->
  exists n, n < length js /\
    w' = with_sched (fun s => set_queue_of (foldl (fun q j => heap_push j q) (queue s) (take n js)) s) w.
Proof.
  induction js as [|j js IH]; intros k w e k' w'; cbn [requeue_checked]; [done|].
  unfold mbind at 1, check_control. destruct (c k) as [e0|].
  - intros [= <- <- <-]. exists 0. split; [simpl; lia|]. by destruct w as [[]].
  - cbn [mbind mmodify]. intros (n & Hn & ->)%IH. exists (S n). split; [simpl; lia|]. done.
Qed.

(** when a poll of a fair drain fails, either nothing changed, or the drain had
    already cleared the queue and a last part of the blocked jobs, one at least,
    is neither queued nor handed out. *)
Theorem drain_fair_interrupted (policy : JobFairnessPolicy) (also : list JobId) (c : Control)
    (w w' : World) (e : GfmError) (Hok : sched_ok w)
    (Herr : run (drain_fair_ready_checked policy also) c w = (Err e, w')) :
  w' = w \/
  let back := unsatisfied_jobs (drain_planner policy also (sched w)) (drain_ready_jobs (sched w)) in
  exists n, n < length back /\ queue (sched w') ≡ₚ take n back /\
    tokens w' = tokens (cancel_tokens (drain_cancelled_jobs (sched w)) w).
Proof.
  pose proof (so_ids _ Hok) as Hids. pose proof (drain_ready_jobs_ids _ Hids) as Hnd.
  revert Herr. unfold run, drain_fair_ready_checked. unfold mbind at 1.
  pose proof (stage_ready_drain_reads c 0 w) as Hst.
  destruct (stage_ready_drain_checked c 0 w) as [[[d|e1] k1] w1] eqn:E1; cbn in Hst; subst w1;
    [|intros [= _ <-]; by left].
  destruct (cooperative_value _ _ _ _ _ _ _ _ _ stage_ready_drain_cooperative
    (stage_ready_drain_runs w Hids) E1) as [[= <-] _].
  unfold mbind at 1, check_control at 1. destruct (c k1); [intros [= _ <-]; by left|].
  unfold mbind at 1, mget. cbn [dr_ready dr_cancelled dr_cancelled_jobs]. unfold mbind at 1.
  fold (drain_planner policy also (sched w)).
  set (pl := drain_planner policy also (sched w)). set (l := drain_ready_jobs (sched w)) in *.
  pose proof (plan_checked_reads pl l c (S k1) w) as Hpr.
  destruct (plan_checked pl l c (S k1) w) as [[[p|e2] k2] w2] eqn:E2; cbn in Hpr; subst w2;
    [|intros [= _ <-]; by left].
  destruct (cooperative_value _ _ _ _ _ _ _ _ _ (plan_checked_cooperative pl l)
    (plan_checked_runs pl l w) E2) as [[= <-] _].
  cbv zeta. unfold mbind at 1, check_control at 1. destruct (c k2); [intros [= _ <-]; by left|].
  unfold mbind at 1, mmodify at 1. unfold mbind at 1, mmodify at 1. unfold mbind at 1.
  change (filter _ l) with (requeued (reference_plan pl l) l). rewrite (requeued_plan pl l Hnd).
  destruct (requeue_checked (unsatisfied_jobs pl l) c (S k2) _) as [[[[]|e3] k3] w3] eqn:E3; [done|].
  intros [= _ <-]. right. apply requeue_err in E3 as (n & Hn & ->). exists n.
  split; [done|]. split; [|done]. cbn. by rewrite heap_collect_perm_go, app_nil_r.
Qed.

(** ** The invariant in every reachable state *)

Inductive sched_step : World -> World -> Prop :=
  | StepSchedule p c k lbl v deps w :
      (next (sched w) + 1 < U64)%N ->
      sched_step w (schedule_with_options p c k lbl v deps w).2
  | StepPop w : sched_step w (pop_next w).2
  | StepCancelId id w : sched_step w (with_sched (cancel_id id) w)
  | StepReport r c res w w' :
      run (apply_worker_report_checked r) c w = (res, w') -> sched_step w w'
  | StepMark id c res w w' : run (mark_completed_checked id) c w = (res, w') -> sched_step w w'
  | StepBind id v c res w w' : run (bind_volume_checked id v) c w = (res, w') -> sched_step w w'
  | StepCancelVolume v cl ks c res w w' :
      run (cancel_volume_jobs_checked v cl ks) c w = (res, w') -> sched_step w w'
  | StepDrain c res w w' : run drain_ready_checked c w = (res, w') -> sched_step w w'
  | StepDrainFair p also c plan w w' :
      run (drain_fair_ready_checked p also) c w = (Ok plan, w') -> sched_step w w'
  (** Other holders of tokens act; the queue keeps its own handles. *)
  | StepTokens o w ts :
      token_step o (tokens w) = Some ts ->
      (forall j, j ∈ queue (sched w) -> live ts (job_cancel j)) ->
      sched_step w (mkWorld (sched w) ts).

Inductive sched_steps : World -> World -> Prop :=
  | sched_steps_refl w : sched_steps w w
  | sched_steps_step w1 w2 w3 : sched_step w1 w2 -> sched_steps w2 w3 -> sched_steps w1 w3.

(** An atomic operation under any closure leaves the state it had or the one an
    uninterrupted run leaves. *)
Lemma atomic_run_ok {A} (m : M World A) c w res w' r1 w1 :
  atomic m -> cooperative m -> runs m w r1 w1 -> sched_ok w -> sched_ok w1 ->
  run m c w = (res, w') -> sched_ok w'.
Proof.
  intros Ha Hc Hr Hok Hok1 Heq. destruct res as [a|e].
  - apply (cooperative_ok _ _ _ _ _ Hc) in Heq. rewrite (runs_run _ _ _ _ Hr) in Heq. congruence.
  - unfold run in Heq. destruct (m c 0 w) as [[r k] w2] eqn:Hm. injection Heq as -> ->.
    by rewrite (Ha _ _ _ _ _ _ Hm).
Qed.

Lemma runs_total_report r w :
  sched_ok w -> exists res w', runs (apply_worker_report_checked r) w res w' /\ sched_ok w'.
Proof.
  intros Hok. pose proof (ingest_runs (outcomes r) (stage_start (sched w)) w) as Hr.
  unfold apply_worker_report_checked.
  destruct (first_duplicate _ (outcomes r)) as [d|].
  - do 2 eexists. split; [|exact Hok]. do 2 runs_step. apply runs_bind_err, Hr.
  - do 2 eexists. split; [do 2 runs_step; eapply runs_bind; [exact Hr|]; runs_auto|].
    destruct (ingest_ok (sched w) (outcomes r) _ (stage_start_ok w Hok)).
    by apply sched_ok_commit.
Qed.

Lemma sched_step_ok w w' : sched_ok w -> sched_step w w' -> sched_ok w'.
Proof.
  intros Hok Hst. destruct Hst as [p c k lbl v deps w Hid|w|id w|r c res w w' Heq|id c res w w' Heq
    |id v c res w w' Heq|v cl ks c res w w' Heq|c res w w' Heq|p also c pl w w' Heq|o w ts Hts Hq].
  - by apply schedule_ok.
  - by apply pop_next_ok.
  - by apply sched_ok_cancelled.
  - destruct (runs_total_report r w Hok) as (r1 & w1 & Hr & Hok1).
    exact (atomic_run_ok _ _ _ _ _ _ _ (apply_report_atomic r) (apply_report_cooperative r) Hr Hok
      Hok1 Heq).
  - destruct res as [u|e]; [|by rewrite (mark_completed_err _ _ _ _ _ Hok Heq)].
    apply (cooperative_ok _ _ _ _ _ (mark_completed_cooperative id)) in Heq.
    rewrite (runs_run _ _ _ _ (mark_completed_runs id w)) in Heq. injection Heq as _ <-.
    by apply mark_done_ok.
  - destruct (bind_volume_done id v w Hok) as [Hr Hok1].
    exact (atomic_run_ok _ _ _ _ _ _ _ (bind_volume_atomic id v) (bind_volume_cooperative id v)
      Hr Hok Hok1 Heq).
  - destruct (cancel_volume_done v cl ks w Hok) as [Hr Hok1].
    exact (atomic_run_ok _ _ _ _ _ _ _ (cancel_volume_atomic v cl ks)
      (cancel_volume_cooperative v cl ks) Hr Hok Hok1 Heq).
  - exact (atomic_run_ok _ _ _ _ _ _ _ drain_ready_atomic drain_ready_cooperative
      (drain_ready_runs w (so_ids _ Hok)) Hok (drain_ready_ok w Hok) Heq).
  - destruct (drain_fair_after p also w Hok) as [Hr Hok1].
    apply (cooperative_ok _ _ _ _ _ (drain_fair_cooperative p also)) in Heq.
    rewrite (runs_run _ _ _ _ Hr) in Heq. by injection Heq as _ <-.
  - pose proof (token_step_wf _ _ _ (so_tokens _ Hok) Hts). destruct Hok. by split.
Qed.

Lemma sched_steps_ok w w' : sched_steps w w' -> sched_ok w -> sched_ok w'.
Proof. induction 1; [done|]. eauto using sched_step_ok. Qed.

Lemma fresh_scheduler_ok start ts : tok_wf ts -> sched_ok (mkWorld (new_starting_after start) ts).
Proof. intros Hwf. split; cbn; try done; try constructor; try constructor; set_solver. Qed.

(** C29: from a fresh scheduler, whatever the operations, their order, their
    interruptions and the concurrent use of tokens: the queue stays in popping
    order with distinct ids at most the counter, the ledgers list their sets once
    each, and every queued job holds a live token of a well-formed store.  The one
    exception is a fair drain interrupted while it puts jobs back. *)
Theorem scheduler_invariant (start : JobId) (ts : Tokens) (w : World) :
  tok_wf ts -> sched_steps (mkWorld (new_starting_after start) ts) w -> sched_ok w.
Proof.
  intros Hwf Hst. by apply (sched_steps_ok _ _ Hst), fresh_scheduler_ok.
Qed.

(** ** Witnesses: three queued jobs, the last one blocked on job 9 *)

Definition demo_world : World :=
  (schedule_with_dependencies Normal "c" [9%N]
    (schedule Interactive "b"
      (schedule_on_volume Normal "a" 7 (mkWorld new_scheduler no_tokens)).2).2).2.
Definition fail_at (n : nat) : Control := fun k => if decide (k = n) then Some Cancelled else None.

Lemma demo_steps : sched_steps (mkWorld (new_starting_after 0) no_tokens) demo_world.
Proof.
  do 3 (eapply sched_steps_step; [apply StepSchedule; vm_compute; reflexivity|]).
  apply sched_steps_refl.
Qed.
Lemma demo_ok : sched_ok demo_world.
Proof. exact (sched_steps_ok _ _ demo_steps (fresh_scheduler_ok 0 no_tokens no_tokens_wf)). Qed.

Definition demo_report : WorkerReport :=
  mkReport [mkOutcome 1 "a" Started; mkOutcome 1 "a" Completed; mkOutcome 9 "d" (Failed "x")].

(** the fair drain is not all or nothing: three jobs are queued, the poll before
    the blocked one is put back fails, and then the error is returned with an empty
    queue and no plan. *)
Theorem drain_fair_loses_jobs :
  exists w', run (drain_fair_ready_checked default_fairness []) (fail_at 41) demo_world =
      (Err Cancelled, w') /\
    sched_ok demo_world /\ job_id <$> queue (sched demo_world) = [2; 1; 3]%N /\
    queue (sched w') = [].
Proof.
  eexists. split; [vm_compute; reflexivity|]. split; [apply demo_ok|].
  split; vm_compute; reflexivity.
Qed.

Lemma pop_next_spec_witness :
  (pop_next (with_sched (cancel_id 2) demo_world)).1 = head (tail (queue (sched demo_world))) /\
  sched_ok (pop_next (with_sched (cancel_id 2) demo_world)).2.
Proof.
  split; [vm_compute; reflexivity|].
  pose proof (pop_next_spec (with_sched (cancel_id 2) demo_world)
    (sched_ok_cancelled _ _ demo_ok)) as H.
  destruct (pop_next (with_sched (cancel_id 2) demo_world)) as [r w'].
  exact (proj1 H).
Defined.

Lemma schedule_spec_witness :
  job_id (schedule_with_options Background RepairClass None "d" None [1%N] demo_world).1 = 4%N /\
  sched_ok (schedule_with_options Background RepairClass None "d" None [1%N] demo_world).2.
Proof.
  split; [vm_compute; reflexivity|].
  pose proof (schedule_spec Background RepairClass None "d" None [1%N] demo_world demo_ok eq_refl) as H.
  destruct (schedule_with_options Background RepairClass None "d" None [1%N] demo_world) as [j w'].
  exact (proj1 H).
Defined.

Lemma demo_ledger : ledger_ok {[1%N; 5%N]} [5%N; 1%N].
Proof.
  split; [|set_solver].
  apply NoDup_cons. split; [set_solver|]. apply NoDup_singleton.
Qed.

Lemma prune_spec_witness :
  prune_completed_ledger_parts (queue (sched demo_world)) {[1%N; 5%N]} [5%N; 1%N] =
    ({[1%N; 5%N]}, [5%N; 1%N]).
Proof.
  pose proof (prune_spec (queue (sched demo_world)) {[1%N; 5%N]} [5%N; 1%N] demo_ledger) as H.
  destruct (prune_completed_ledger_parts (queue (sched demo_world)) {[1%N; 5%N]} [5%N; 1%N])
    as [ids o].
  destruct H as (_ & _ & _ & _ & H & _). destruct H as [-> ->]; [|reflexivity].
  vm_compute. discriminate.
Defined.

Lemma worker_report_spec_witness :
  exists w', run (apply_worker_report_checked demo_report) never demo_world =
    (Ok (mkIngestion [1%N] [] [9%N]), w') /\ sched_ok w' /\ 9%N ∈ failed (sched w').
Proof.
  destruct (worker_report_spec demo_report demo_world demo_ok) as [H _].
  destruct H as (w' & Hrun & Hok & _ & _ & _ & _ & _ & Href).
  { apply (bool_decide_unpack _). vm_compute. exact I. }
  exists w'. split; [exact Hrun|]. split; [exact Hok|].
  apply (Href 9%N); [apply (bool_decide_unpack _); vm_compute; exact I|].
  exact I.
Defined.

Lemma mark_completed_spec_witness :
  exists w', mark_completed 9 demo_world = Some (tt, w') /\ 9%N ∈ completed (sched w').
Proof.
  destruct (mark_completed_spec 9 demo_world demo_ok)
    as (w' & Hrun & _ & _ & _ & _ & _ & _ & Href & _).
  exists w'. split; [exact Hrun|].
  apply (Href 9%N); [apply (bool_decide_unpack _); vm_compute; exact I|]. left. reflexivity.
Defined.

Lemma bind_volume_spec_witness :
  exists w' j, bind_volume 2 5 demo_world = Some (Some j, w') /\ volume j = Some 5%N.
Proof.
  destruct (bind_volume_spec 2 5 demo_world demo_ok) as (r & Hrun & _ & Hj & _).
  eexists. exists (set_volume 5 (mkJob 2 Interactive (JobClass_from_priority Interactive) None "b" None [] 1)).
  split; [|reflexivity]. rewrite Hrun. f_equal. f_equal.
  apply Hj; [vm_compute; apply list_elem_of_here|reflexivity].
Defined.

Lemma cancel_volume_jobs_spec_witness :
  exists r w', cancel_volume_jobs 7 None demo_world = Some (r, w') /\
    cj_id <$> vr_cancelled r = [1%N] /\ flag (tokens w') 0 = true.
Proof.
  destruct (cancel_volume_jobs_spec 7 None None demo_world demo_ok)
    as (w' & Hrun & _ & _ & _ & _ & _ & Hf & _).
  eexists. exists w'. split; [exact Hrun|]. split; [vm_compute; reflexivity|].
  apply (Hf (mkJob 1 Normal (JobClass_from_priority Normal) None "a" (Some 7%N) [] 0)).
  vm_compute. apply list_elem_of_here.
Defined.

Lemma drain_ready_spec_witness :
  exists w', drain_ready demo_world = Some (queue (sched demo_world), w') /\ queue (sched w') = [].
Proof.
  destruct (drain_ready_spec demo_world demo_ok) as (w' & Hrun & _ & Hq & _).
  exists w'. split; [|exact Hq]. rewrite Hrun. f_equal.
Defined.

Lemma drain_fair_spec_witness :
  exists p w', drain_fair_ready default_fairness [] demo_world = Some (p, w') /\
    blocked_id <$> blocked p = job_id <$> queue (sched w').
Proof.
  destruct (drain_fair_spec default_fairness [] demo_world demo_ok)
    as (p & w' & Hrun & _ & _ & _ & _ & Hb).
  exists p, w'. split; [exact Hrun|exact Hb].
Defined.

Lemma drain_fair_interrupted_witness :
  let w' := (run (drain_fair_ready_checked default_fairness []) (fail_at 3) demo_world).2 in
  w' = demo_world \/ exists n, n < 3 /\ length (queue (sched w')) = n.
Proof.
  cbv zeta.
  destruct (drain_fair_interrupted default_fairness [] (fail_at 3) demo_world
    (run (drain_fair_ready_checked default_fairness []) (fail_at 3) demo_world).2 Cancelled demo_ok)
    as [H|H].
  - vm_compute. reflexivity.
  - left. exact H.
  - left. vm_compute. reflexivity.
Defined.

Lemma scheduler_invariant_witness : sched_ok demo_world /\ length (queue (sched demo_world)) = 3.
Proof.
  split; [|vm_compute; reflexivity].
  apply (scheduler_invariant 0 no_tokens demo_world no_tokens_wf demo_steps).
Defined.
