(* ===== verification/Isolated.v ===== *)
(** * The isolated task queue ([crates/jobs/src/isolated.rs]) and the worker pool
    that drains it ([WorkerPool::run_isolated_fair] of [crates/jobs/src/lib.rs])

    The queue admits a task when its dependencies completed and its volume has a
    free slot, going round the classes by quota; tasks whose dependencies failed
    or are unknown are failed without running.  [IsolatedTaskQueue] and
    [IsolatedRetriableTaskQueue] are the same code over two task types: the model
    is generic in the task type, and the two queues are its instances.

    A pool is a step relation: each step is what one worker does while it holds
    the mutex of the queue, so every interleaving of the workers is a sequence of
    steps.  What the closure of a task returns is not constrained. *)
From S2P Require Import Prelude Types Text Control JobModel Fair Pressure.
#[local] Open Scope string_scope.
#[local] Open Scope list_scope.

(** ** Tasks *)

(** What the queue needs of a task. *)
Class HasJob (T : Type) : Type := job_of : T -> Job.

(** The closures are the callers': [W] is their type. *)
Record Task (W : Type) : Type := mkTask { task_job : Job; work : option W }.
Record RetriableTask (W : Type) : Type := mkRetriable { retriable_job : Job; retriable_work : W }.
Arguments mkTask {W}.
Arguments mkRetriable {W}.
Definition new_task {W} (j : Job) (w : W) : Task W := mkTask j (Some w).
Definition new_retriable {W} (j : Job) (w : W) : RetriableTask W := mkRetriable j w.

#[export] Instance Task_job W : HasJob (Task W) := task_job W.
#[export] Instance RetriableTask_job W : HasJob (RetriableTask W) := retriable_job W.

(** ** The state under the mutex *)
Record QueueState (T : Type) : Type := mkQ {
  pending : list T;
  active_by_volume : gmap VolumeId N;
  active : gset JobId;
  q_completed : gset JobId;
  q_failed : gset JobId;
  next_admission_class : nat
}.
Arguments mkQ {T}.
Arguments pending {T}.
Arguments active_by_volume {T}.
Arguments active {T}.
Arguments q_completed {T}.
Arguments q_failed {T}.
Arguments next_admission_class {T}.

Definition new_queue {T} (tasks : list T) : QueueState T := mkQ tasks ∅ ∅ ∅ ∅ 0.

Definition format_dependency_ids (ids : list JobId) : string :=
  match ids with [] => "-" | _ => join "," (u64_to_string <$> ids) end.

Definition dependency_block_detail (j : Job) (comp fail : gset JobId) : list JobId * list JobId :=
  let open := filter (fun d => d ∉ comp) (dependencies j) in
  (sort_by_key id (filter (fun d => d ∉ fail) open),
   sort_by_key id (filter (fun d => d ∈ fail) open)).

Definition dependency_failure (missing fail : list JobId) : TaskStatus :=
  Failed ("job dependencies were not satisfied missing=" +:+ format_dependency_ids missing +:+
          " failed=" +:+ format_dependency_ids fail).

Section Queue.
Context {T : Type} `{HasJob T}.
Implicit Types s : QueueState T.

Definition set_pending (l : list T) s : QueueState T :=
  mkQ l (active_by_volume s) (active s) (q_completed s) (q_failed s) (next_admission_class s).
Definition set_cursor (n : nat) s : QueueState T :=
  mkQ (pending s) (active_by_volume s) (active s) (q_completed s) (q_failed s) n.

Definition dependencies_completed s (j : Job) : bool :=
  forallb (fun d => bool_decide (d ∈ q_completed s)) (dependencies j).

Definition admissible_volume s (j : Job) (policy : VolumeConcurrencyPolicy)
    : option (option VolumeId) :=
  match volume j with
  | Some v => if (default 0 (active_by_volume s !! v) <? limit_for policy v)%N
              then Some (Some v) else None
  | None => Some None
  end.

(** The closure of the [find_map]. *)
Definition admission s (c : JobClass) (policy : VolumeConcurrencyPolicy) (t : T)
    : option (option VolumeId) :=
  if negb (bool_decide (class (job_of t) = c)) || negb (dependencies_completed s (job_of t))
  then None else admissible_volume s (job_of t) policy.

(** [iter().enumerate().find_map(..)]. *)
Fixpoint find_admission (f : T -> option (option VolumeId)) (i : nat) (l : list T)
    : option (nat * option VolumeId) :=
  match l with
  | [] => None
  | t :: l' => match f t with Some v => Some (i, v) | None => find_admission f (S i) l' end
  end.

(** The loop over [offset in 0..admission_order.len()]. *)
Fixpoint admit_from (order : list JobClass) (policy : VolumeConcurrencyPolicy) (offsets : list nat) s
    : option (nat * option VolumeId) * QueueState T :=
  match offsets with
  | [] => (None, s)
  | o :: os =>
      let cursor := (next_admission_class s + o) mod length order in
      match order !! cursor with
      | None => (None, s)
      | Some c =>
          match find_admission (admission s c policy) 0 (pending s) with
          | Some a => (Some a, set_cursor ((cursor + 1) mod length order) s)
          | None => admit_from order policy os s
          end
      end
  end.

Definition next_admissible (order : list JobClass) (policy : VolumeConcurrencyPolicy) s
    : option (nat * option VolumeId) * QueueState T :=
  match order with
  | [] => (None, s)
  | _ => admit_from order policy (seq 0 (length order)) s
  end.

(** [iter().position(..)]. *)
Fixpoint position (f : T -> bool) (l : list T) : option nat :=
  match l with
  | [] => None
  | t :: l' => if f t then Some 0 else S <$> position f l'
  end.

Definition known_pending s : gset JobId :=
  list_to_set ((fun t => job_id (job_of t)) <$> pending s) ∪ active s ∪ q_completed s ∪ q_failed s.

Definition hopeless s (t : T) : bool :=
  existsb (fun d => bool_decide (d ∈ q_failed s) || negb (bool_decide (d ∈ known_pending s)))
    (dependencies (job_of t)).
Definition not_satisfied s (t : T) : bool :=
  existsb (fun d => negb (bool_decide (d ∈ q_completed s))) (dependencies (job_of t)).

Definition blocked_index s : option nat :=
  match position (hopeless s) (pending s) with
  | Some i => Some i
  | None => if bool_decide (active s = ∅) then position (not_satisfied s) (pending s) else None
  end.

(** The outer [option] of the result is a panic. *)
Definition remove_dependency_blocked s : option (option TaskOutcome * QueueState T) :=
  match blocked_index s with
  | None => Some (None, s)
  | Some i =>
      match pending s !! i with
      | None => None
      | Some t =>
          let j := job_of t in
          let fail := {[job_id j]} ∪ q_failed s in
          let '(missing, failed_ids) := dependency_block_detail j (q_completed s) fail in
          Some (Some (mkOutcome (job_id j) (label j) (dependency_failure missing failed_ids)),
            mkQ (delete i (pending s)) (active_by_volume s) (active s) (q_completed s) fail
              (next_admission_class s))
      end
  end.

(** ** [next]: one turn of its loop *)
Inductive Turn : Type :=
  | TurnRun (t : T) (v : option VolumeId)
  | TurnBlocked (o : TaskOutcome)
  | TurnNone
  | TurnWait.

Definition next_turn (order : list JobClass) (policy : VolumeConcurrencyPolicy) s
    : option (Turn * QueueState T) :=
  match next_admissible order policy s with
  | (Some (i, v), s1) =>
      match pending s1 !! i with
      | None => None
      | Some t =>
          Some (TurnRun t v,
            mkQ (delete i (pending s1))
              (match v with
               | Some v => <[v := (default 0 (active_by_volume s1 !! v) + 1)%N]> (active_by_volume s1)
               | None => active_by_volume s1
               end)
              ({[job_id (job_of t)]} ∪ active s1) (q_completed s1) (q_failed s1)
              (next_admission_class s1))
      end
  | (None, s1) =>
      match remove_dependency_blocked s1 with
      | None => None
      | Some (Some o, s2) => Some (TurnBlocked o, s2)
      | Some (None, s2) =>
          match pending s2 with [] => Some (TurnNone, s2) | _ => Some (TurnWait, s2) end
      end
  end.

(** ** [release] *)
Definition release (j : Job) (v : option VolumeId) (status : TaskStatus) s : option (QueueState T) :=
  let id := job_id j in
  let act := active s ∖ {[id]} in
  let '(comp, fail) :=
    match status with
    | Completed => ({[id]} ∪ q_completed s, q_failed s ∖ {[id]})
    | Started => (q_completed s, q_failed s)
    | CancelledStatus | Failed _ => (q_completed s ∖ {[id]}, {[id]} ∪ q_failed s)
    end in
  match v with
  | None => Some (mkQ (pending s) (active_by_volume s) act comp fail (next_admission_class s))
  | Some v =>
      match active_by_volume s !! v with
      | None => None
      | Some n =>
          if (n =? 0)%N then None
          else Some (mkQ (pending s)
            (if (n - 1 =? 0)%N then delete v (active_by_volume s)
             else <[v := (n - 1)%N]> (active_by_volume s))
            act comp fail (next_admission_class s))
      end
  end.

(** [TaskLease::finish], and the [Drop] of a lease that was not finished. *)
Definition finish (t : T) (v : option VolumeId) (status : TaskStatus) s : option (Job * QueueState T) :=
  option_map (fun s' => (job_of t, s')) (release (job_of t) v status s).
Definition drop_lease (finished : bool) (t : T) (v : option VolumeId) s : option (QueueState T) :=
  if finished then Some s
  else release (job_of t) v (Failed "worker lease dropped before finish") s.
End Queue.

Arguments Turn T : clear implicits.

(** ** The worker pool *)

(** The status of a task from what its work returned. *)
Definition status_of (r : Res unit) : TaskStatus :=
  match r with
  | Ok _ => Completed
  | Err Cancelled => CancelledStatus
  | Err err => Failed (GfmError_to_string err)
  end.

(** [WorkerPool::new]. *)
Definition pool_threads (threads : nat) : nat := Nat.max threads 1.

Section Pool.
Context {T : Type} `{HasJob T}.
Variable order : list JobClass.
Variable policy : VolumeConcurrencyPolicy.

(** The queue, the leases out, the outcomes so far, and how many workers are
    about to call [next], wait on the condition variable, or have returned. *)
Record Pool : Type := mkPool {
  queue_state : QueueState T;
  leases : list (T * option VolumeId);
  outs : list TaskOutcome;
  idle : nat;
  waiting : nat;
  exited : nat
}.

Definition start_pool (threads : nat) (tasks : list T) : Pool :=
  mkPool (new_queue tasks) [] [] (Nat.min (pool_threads threads) (length tasks)) 0 0.

Inductive pool_step : Pool -> Pool -> Prop :=
  | PoolRun q ls os i wt ex t v q' :
      next_turn order policy q = Some (TurnRun t v, q') ->
      pool_step (mkPool q ls os (S i) wt ex) (mkPool q' (ls ++ [(t, v)]) os i wt ex)
  | PoolBlocked q ls os i wt ex o q' :
      next_turn order policy q = Some (TurnBlocked o, q') ->
      pool_step (mkPool q ls os (S i) wt ex) (mkPool q' ls (os ++ [o]) (S i) wt ex)
  | PoolExit q ls os i wt ex q' :
      next_turn order policy q = Some (TurnNone, q') ->
      pool_step (mkPool q ls os (S i) wt ex) (mkPool q' ls os i wt (S ex))
  | PoolWait q ls os i wt ex q' :
      next_turn order policy q = Some (TurnWait, q') ->
      pool_step (mkPool q ls os (S i) wt ex) (mkPool q' ls os i (S wt) ex)
  (** The work returned [r]; [release] wakes every waiting worker. *)
  | PoolFinish q l1 t v l2 os i wt ex r j q' :
      finish t v (status_of r) q = Some (j, q') ->
      pool_step (mkPool q (l1 ++ (t, v) :: l2) os i wt ex)
        (mkPool q' (l1 ++ l2) (os ++ [mkOutcome (job_id j) (label j) (status_of r)]) (S i + wt) 0 ex).

(** A condition variable may also wake a worker for no reason. *)
Inductive pool_wake : Pool -> Pool -> Prop :=
  | PoolSpurious q ls os i wt ex :
      pool_wake (mkPool q ls os i (S wt) ex) (mkPool q ls os (S i) wt ex).

Inductive pool_steps : Pool -> Pool -> Prop :=
  | pool_steps_refl p : pool_steps p p
  | pool_steps_step p1 p2 p3 :
      pool_step p1 p2 \/ pool_wake p1 p2 -> pool_steps p2 p3 -> pool_steps p1 p3.

(** The report: the outcomes by id. *)
Definition pool_report (p : Pool) : WorkerReport := mkReport (sort_by_key outcome_id (outs p)).
End Pool.

Arguments Pool T : clear implicits.

(** ** The retriable queue: the same code over [RetriableTask]

    Its pool runs [execute_retriable_task] (see [Journal.v]) where the other runs
    the closure; both end a task with a status that is not [Started], and
    [status_of] reaches all of those. *)
Section Retriable.
Context {W : Type}.
Definition retriable_new_queue : list (RetriableTask W) -> QueueState (RetriableTask W) := new_queue.
Definition retriable_dependencies_completed (s : QueueState (RetriableTask W)) (j : Job) : bool :=
  dependencies_completed s j.
Definition retriable_admissible_volume (s : QueueState (RetriableTask W)) (j : Job)
    (policy : VolumeConcurrencyPolicy) : option (option VolumeId) := admissible_volume s j policy.
Definition retriable_next_admissible (order : list JobClass) (policy : VolumeConcurrencyPolicy)
    (s : QueueState (RetriableTask W)) := next_admissible order policy s.
Definition retriable_remove_dependency_blocked (s : QueueState (RetriableTask W)) :=
  remove_dependency_blocked s.
Definition retriable_next (order : list JobClass) (policy : VolumeConcurrencyPolicy)
    (s : QueueState (RetriableTask W)) := next_turn order policy s.
Definition retriable_release (j : Job) (v : option VolumeId) (status : TaskStatus)
    (s : QueueState (RetriableTask W)) := release j v status s.
Definition retriable_finish (t : RetriableTask W) (v : option VolumeId) (status : TaskStatus)
    (s : QueueState (RetriableTask W)) := finish t v status s.
Definition retriable_drop_lease (finished : bool) (t : RetriableTask W) (v : option VolumeId)
    (s : QueueState (RetriableTask W)) := drop_lease finished t v s.
Definition retriable_pool_step (order : list JobClass) (policy : VolumeConcurrencyPolicy)
    : Pool (RetriableTask W) -> Pool (RetriableTask W) -> Prop := pool_step order policy.
End Retriable.

(** ** Scans *)
Section QueueLemmas.
Context {T : Type} `{HasJob T}.
Implicit Types s : QueueState T.

Definition task_id (t : T) : JobId := job_id (job_of t).

Lemma find_admission_some f l : forall i k v,
  find_admission f i l = Some (k, v) ->
  i <= k /\ exists t : T, l !! (k - i) = Some t /\ f t = Some v.
Proof.
  induction l as [|t l IH]; intros i k v; cbn [find_admission]; [done|].
  destruct (f t) as [w|] eqn:Hf.
  - intros [= <- <-]. split; [done|]. exists t. by rewrite Nat.sub_diag.
  - intros (Hle & u & Hu & Hfu)%IH. split; [lia|]. exists u.
    replace (k - i) with (S (k - S i)) by lia. done.
Qed.

Lemma find_admission_first f l : forall i k v n (t : T),
  find_admission f i l = Some (k, v) -> i + n < k -> l !! n = Some t -> f t = None.
Proof.
  induction l as [|u l IH]; intros i k v n t; cbn [find_admission]; [done|].
  destruct (f u) eqn:Hf; [intros [= <- _] ?; lia|]. intros Hk Hn Ht.
  destruct n as [|n]; [by injection Ht as <-|].
  apply (IH (S i) k v n t Hk); [lia|exact Ht].
Qed.

Lemma find_admission_none f l : forall i,
  find_admission f i l = None -> forall t : T, t ∈ l -> f t = None.
Proof.
  induction l as [|t l IH]; intros i; cbn [find_admission]; [set_solver|].
  destruct (f t) eqn:Hf; [done|]. intros Hn u [->|Hu]%elem_of_cons; [done|]. by eapply IH.
Qed.

Lemma position_some f l : forall i, position f l = Some i -> exists t : T, l !! i = Some t /\ f t = true.
Proof.
  induction l as [|t l IH]; intros i; cbn [position]; [done|].
  destruct (f t) eqn:Hf; [intros [= <-]; by exists t|].
  destruct (position f l) as [k|]; [|done]. intros [= <-]. by apply IH.
Qed.

Lemma position_le f l : forall k (t : T),
  l !! k = Some t -> f t = true -> exists i, position f l = Some i /\ i <= k.
Proof.
  induction l as [|u l IH]; intros k t; cbn [position]; [done|]. intros Hk Ht.
  destruct (f u) eqn:Hf; [exists 0; split; [done|lia]|].
  destruct k as [|k]; [injection Hk as ->; congruence|].
  destruct (IH k t Hk Ht) as (i & -> & Hi). exists (S i). split; [done|lia].
Qed.

Lemma position_none f l : position f l = None -> forall t : T, t ∈ l -> f t = false.
Proof.
  induction l as [|t l IH]; cbn [position]; [set_solver|].
  destruct (f t) eqn:Hf; [done|]. destruct (position f l); [done|].
  intros _ u [->|Hu]%elem_of_cons; auto.
Qed.

Lemma deps_completed_spec s j :
  dependencies_completed s j = true <-> forall d, d ∈ dependencies j -> d ∈ q_completed s.
Proof. apply dependencies_satisfied_spec. Qed.

Lemma not_satisfied_spec s t : not_satisfied s t = negb (dependencies_completed s (job_of t)).
Proof.
  unfold not_satisfied, dependencies_completed. induction (dependencies (job_of t)) as [|d ds IH];
    [done|]. cbn. by rewrite IH, negb_andb.
Qed.

Lemma admit_some s c policy t v :
  admission s c policy t = Some v <->
  class (job_of t) = c /\ dependencies_completed s (job_of t) = true /\
  admissible_volume s (job_of t) policy = Some v.
Proof.
  unfold admission. case_bool_decide; destruct (dependencies_completed s (job_of t)); cbn; naive_solver.
Qed.

(** What an admission is: the slot of the order, the class and the task. *)
Lemma admit_from_some order policy os s i v s' :
  admit_from order policy os s = (Some (i, v), s') ->
  exists pre o post c t, os = pre ++ o :: post /\
    order !! ((next_admission_class s + o) mod length order) = Some c /\
    s' = set_cursor (((next_admission_class s + o) mod length order + 1) mod length order) s /\
    pending s !! i = Some t /\ admission s c policy t = Some v /\
    (forall o' c' u, o' ∈ pre -> order !! ((next_admission_class s + o') mod length order) = Some c' ->
       u ∈ pending s -> admission s c' policy u = None) /\
    (forall k u, k < i -> pending s !! k = Some u -> admission s c policy u = None).
Proof.
  revert i v s'. induction os as [|o os IH]; intros i v s'; cbn [admit_from]; [done|].
  destruct (order !! _) as [c|] eqn:Hc; [|done].
  destruct (find_admission (admission s c policy) 0 (pending s)) as [a|] eqn:Hf.
  - intros [= -> <-]. pose proof (fun n u => find_admission_first _ _ _ _ _ n u Hf) as Hfirst.
    apply find_admission_some in Hf as (_ & t & Ht & Ha).
    rewrite Nat.sub_0_r in Ht. exists [], o, os, c, t. split_and!; try done.
    intros o' c' u Ho'. by apply elem_of_nil in Ho'.
  - intros (pre & o1 & post & c1 & t & -> & Hc1 & Hs & Ht & Ha & Hpre & Hfirst)%IH.
    exists (o :: pre), o1, post, c1, t. split_and!; try done.
    intros o' c' u [->|Ho']%elem_of_cons Hc' Hu; [|by eapply Hpre].
    rewrite Hc in Hc'. injection Hc' as <-. by eapply find_admission_none.
Qed.

Lemma admit_from_none order policy os s s' :
  admit_from order policy os s = (None, s') -> order <> [] ->
  s' = s /\ forall o c u, o ∈ os -> order !! ((next_admission_class s + o) mod length order) = Some c ->
    u ∈ pending s -> admission s c policy u = None.
Proof.
  intros Heq Hne. revert Heq. induction os as [|o os IH]; cbn [admit_from].
  { intros [= <-]. split; [done|set_solver]. }
  destruct (order !! _) as [c|] eqn:Hc.
  2:{ apply lookup_ge_None_1 in Hc. destruct order as [|x order]; [done|].
      pose proof (Nat.mod_upper_bound (next_admission_class s + o) (length (x :: order))). simpl in *. lia. }
  destruct (find_admission (admission s c policy) 0 (pending s)) as [a|] eqn:Hf; [done|].
  intros (-> & Hos)%IH. split; [done|]. intros o' c' u [->|Ho']%elem_of_cons Hc' Hu; [|by eapply Hos].
  rewrite Hc in Hc'. injection Hc' as <-. by eapply find_admission_none.
Qed.

(** The offsets reach every slot of the order. *)
Lemma slot_reached (order : list JobClass) n c :
  c ∈ order -> exists o, o ∈ seq 0 (length order) /\ order !! ((n + o) mod length order) = Some c.
Proof.
  intros (k & Hk)%list_elem_of_lookup_1. pose proof (lookup_lt_Some _ _ _ Hk) as Hlt.
  exists ((k + (length order - n mod length order)) mod length order). split.
  - apply elem_of_seq. pose proof (Nat.mod_upper_bound (k + (length order - n mod length order)) (length order)). lia.
  - rewrite <- Hk. f_equal. rewrite Nat.Div0.add_mod_idemp_r.
    rewrite (Nat.div_mod_eq n (length order)) at 1.
    pose proof (Nat.mod_upper_bound n (length order)).
    replace (length order * (n / length order) + n mod length order + (k + (length order - n mod length order)))
      with (k + (n / length order + 1) * length order) by lia.
    rewrite Nat.Div0.mod_add. by apply Nat.mod_small.
Qed.

Lemma next_admissible_none order policy s s' :
  (forall c, c ∈ order) -> next_admissible order policy s = (None, s') ->
  s' = s /\ forall t, t ∈ pending s -> dependencies_completed s (job_of t) = true ->
    admissible_volume s (job_of t) policy = None.
Proof.
  intros Hall Heq. assert (order <> []) as Hne by (intros ->; by apply (not_elem_of_nil ForegroundClass)).
  assert (Hf : admit_from order policy (seq 0 (length order)) s = (None, s')) by by destruct order.
  destruct (admit_from_none _ _ _ _ _ Hf Hne) as [-> Hos]. split; [done|].
  intros t Ht Hd. destruct (slot_reached order (next_admission_class s) (class (job_of t)) (Hall _))
    as (o & Ho & Hc).
  specialize (Hos o _ t Ho Hc Ht). destruct (admissible_volume s (job_of t) policy) as [v|] eqn:Hv; [|done].
  assert (admission s (class (job_of t)) policy t = Some v) by (by apply admit_some). congruence.
Qed.
End QueueLemmas.

(** ** What a turn does *)
Section Turns.
Context {T : Type} `{HasJob T}.
Variable order : list JobClass.
Variable policy : VolumeConcurrencyPolicy.
Hypothesis all_classes : forall c, c ∈ order.
Implicit Types s : QueueState T.

Definition take_volume (v : option VolumeId) (m : gmap VolumeId N) : gmap VolumeId N :=
  match v with Some v => <[v := (default 0 (m !! v) + 1)%N]> m | None => m end.

(** No pending task can start. *)
Definition nothing_admissible s : Prop :=
  forall t, t ∈ pending s -> dependencies_completed s (job_of t) = true ->
    admissible_volume s (job_of t) policy = None.

Definition blocked_outcome s (t : T) : TaskOutcome :=
  let d := dependency_block_detail (job_of t) (q_completed s) ({[task_id t]} ∪ q_failed s) in
  mkOutcome (task_id t) (label (job_of t)) (dependency_failure d.1 d.2).

(** The four turns, and the state each leaves. *)
Inductive turn_spec s : Turn T -> QueueState T -> Prop :=
  | SpecRun i n t v :
      pending s !! i = Some t -> dependencies_completed s (job_of t) = true ->
      admissible_volume s (job_of t) policy = Some v ->
      turn_spec s (TurnRun t v)
        (mkQ (delete i (pending s)) (take_volume v (active_by_volume s))
           ({[task_id t]} ∪ active s) (q_completed s) (q_failed s) n)
  | SpecBlocked i t :
      nothing_admissible s -> blocked_index s = Some i -> pending s !! i = Some t ->
      turn_spec s (TurnBlocked (blocked_outcome s t))
        (mkQ (delete i (pending s)) (active_by_volume s) (active s) (q_completed s)
           ({[task_id t]} ∪ q_failed s) (next_admission_class s))
  | SpecNone : pending s = [] -> turn_spec s TurnNone s
  | SpecWait :
      nothing_admissible s -> blocked_index s = None -> pending s <> [] -> turn_spec s TurnWait s.

Lemma blocked_index_some s i : blocked_index s = Some i ->
  exists t, pending s !! i = Some t /\ (hopeless s t = true \/ active s = ∅ /\ not_satisfied s t = true).
Proof.
  unfold blocked_index. destruct (position (hopeless s) (pending s)) as [k|] eqn:Hp.
  - intros [= <-]. apply position_some in Hp as (t & Ht & Hh). exists t. auto.
  - case_bool_decide; [|done]. intros Hp'. apply position_some in Hp' as (t & Ht & Hh). exists t. auto.
Qed.

(** [next] never panics, and each turn is one of the four. *)
Lemma next_turn_spec s : exists turn s', next_turn order policy s = Some (turn, s') /\ turn_spec s turn s'.
Proof.
  assert (Hne : order <> []) by (intros Hn; rewrite Hn in all_classes; by apply (not_elem_of_nil ForegroundClass)).
  unfold next_turn. destruct (next_admissible order policy s) as [[[i v]|] s1] eqn:Hadm.
  - unfold next_admissible in Hadm. destruct order as [|c0 order'] eqn:Ho; [done|]. rewrite <- Ho in *.
    apply admit_from_some in Hadm as (pre & o & post & c & t & _ & _ & -> & Ht & Ha & _ & _).
    apply admit_some in Ha as (_ & Hd & Hv). cbn [set_cursor pending]. rewrite Ht.
    do 2 eexists. split; [done|]. exact (SpecRun s i _ t v Ht Hd Hv).
  - destruct (next_admissible_none order policy s s1 all_classes Hadm) as [-> Hno].
    unfold remove_dependency_blocked. destruct (blocked_index s) as [i|] eqn:Hb.
    + destruct (blocked_index_some s i Hb) as (t & Ht & _). rewrite Ht.
      destruct (dependency_block_detail _ _ _) as [m f] eqn:Hd.
      do 2 eexists. split; [done|].
      replace (mkOutcome _ _ _) with (blocked_outcome s t).
      * by eapply SpecBlocked.
      * unfold blocked_outcome, task_id. by rewrite Hd.
    + destruct (pending s) as [|t l] eqn:Hp; do 2 eexists; (split; [done|]).
      * by apply SpecNone.
      * apply SpecWait; [|done|by rewrite Hp]. intros u Hu. apply Hno. by rewrite <- Hp.
Qed.

Lemma next_turn_inv s turn s' : next_turn order policy s = Some (turn, s') -> turn_spec s turn s'.
Proof.
  intros Heq. destruct (next_turn_spec s) as (t1 & s1 & Heq1 & Hs). rewrite Heq in Heq1.
  by injection Heq1 as -> ->.
Qed.

(** When nothing runs, a task that cannot start is one whose dependencies are not
    completed: waiting is only for a running task. *)
Lemma wait_needs_active s :
  (forall v, 1 <= limit_for policy v)%N -> turn_spec s TurnWait s ->
  active s <> ∅ \/ exists v n, active_by_volume s !! v = Some n.
Proof.
  intros Hlim Hw. inversion Hw as [| | |Hno Hb Hne]; subst.
  destruct (decide (active s = ∅)) as [He|He]; [right|by left].
  unfold blocked_index in Hb. destruct (position (hopeless s) (pending s)); [done|].
  rewrite bool_decide_eq_true_2 in Hb by done.
  destruct (pending s) as [|t l] eqn:Hp; [done|].
  pose proof (position_none _ _ Hb t ltac:(left)) as Hsat.
  rewrite not_satisfied_spec, negb_false_iff in Hsat.
  specialize (Hno t). rewrite Hp in Hno. specialize (Hno ltac:(left) Hsat).
  unfold admissible_volume in Hno. destruct (volume (job_of t)) as [v|]; [|done].
  destruct (active_by_volume s !! v) as [n|] eqn:Hv; [by exists v, n|]. cbn in Hno.
  rewrite (proj2 (N.ltb_lt _ _)) in Hno; [done|]. specialize (Hlim v). lia.
Qed.
End Turns.

(** ** The invariant of a pool *)
Section PoolInvariant.
Context {T : Type} `{HasJob T}.
Variable order : list JobClass.
Variable policy : VolumeConcurrencyPolicy.
Variable tasks : list T.
Variable workers : nat.
Hypothesis all_classes : forall c, c ∈ order.
Hypothesis limits : forall v, (1 <= limit_for policy v)%N.
Hypothesis distinct : NoDup (task_id <$> tasks).

(** The leases out that hold a slot of volume [v]. *)
Definition vcount (v : VolumeId) (ls : list (T * option VolumeId)) : nat :=
  length (filter (fun l => l.2 = Some v) ls).
#[local] Arguments vcount : simpl never.
Definition lease_ids (ls : list (T * option VolumeId)) : list JobId := (fun l => task_id l.1) <$> ls.

Definition finished_as (p : Pool T) (id : JobId) (good : bool) : Prop :=
  exists o, o ∈ outs p /\ outcome_id o = id /\ bool_decide (outcome_status o = Completed) = good.

Record pool_ok (p : Pool T) : Prop := {
  po_ids : (task_id <$> pending (queue_state p)) ++ lease_ids (leases p) ++ (outcome_id <$> outs p)
             ≡ₚ task_id <$> tasks;
  po_pending t : t ∈ pending (queue_state p) -> t ∈ tasks;
  po_leases t v : (t, v) ∈ leases p -> t ∈ tasks /\ v = volume (job_of t);
  po_active id : id ∈ active (queue_state p) <-> id ∈ lease_ids (leases p);
  po_volumes v : default 0%N (active_by_volume (queue_state p) !! v) = N.of_nat (vcount v (leases p)) /\
                 active_by_volume (queue_state p) !! v <> Some 0%N;
  po_limit v : (N.of_nat (vcount v (leases p)) <= limit_for policy v)%N;
  po_completed id : id ∈ q_completed (queue_state p) <-> finished_as p id true;
  po_failed id : id ∈ q_failed (queue_state p) <-> finished_as p id false;
  po_status o : o ∈ outs p -> outcome_status o <> Started;
  po_deps t d : t ∈ tasks -> task_id t ∈ lease_ids (leases p) \/ finished_as p (task_id t) true ->
    d ∈ dependencies (job_of t) -> finished_as p d true;
  po_workers : idle p + waiting p + exited p + length (leases p) = workers;
  po_waiting : 0 < waiting p -> leases p <> [];
  po_exited : 0 < exited p -> pending (queue_state p) = []
}.

Lemma pool_nodup p : pool_ok p ->
  NoDup ((task_id <$> pending (queue_state p)) ++ lease_ids (leases p) ++ (outcome_id <$> outs p)).
Proof. intros Hok. rewrite (po_ids _ Hok). exact distinct. Qed.

Lemma finished_once p id : pool_ok p -> finished_as p id true -> finished_as p id false -> False.
Proof.
  intros Hok (o1 & Ho1 & Hi1 & H1) (o2 & Ho2 & Hi2 & H2).
  pose proof (pool_nodup p Hok) as Hnd. apply NoDup_app in Hnd as (_ & _ & Hnd).
  apply NoDup_app in Hnd as (_ & _ & Hnd).
  assert (o1 = o2) as ->; [|congruence].
  revert Hnd Ho1 Ho2 Hi1 Hi2. clear. induction (outs p) as [|o os IH]; [set_solver|].
  rewrite fmap_cons, NoDup_cons. intros [Hn Hnd] [->|H1]%elem_of_cons [->|H2]%elem_of_cons Hi1 Hi2;
    [done| | |auto]; exfalso; apply Hn.
  - rewrite Hi1, <- Hi2. by apply list_elem_of_fmap_2.
  - rewrite Hi2, <- Hi1. by apply list_elem_of_fmap_2.
Qed.

Lemma start_ok threads :
  workers = Nat.min (pool_threads threads) (length tasks) -> pool_ok (start_pool threads tasks).
Proof.
  intros Hw. split; cbn; try done; try (intros; unfold finished_as; cbn; set_solver).
  - by rewrite app_nil_r.
  - intros v. specialize (limits v). unfold vcount. simpl. lia.
  - unfold pool_threads in *. lia.
  - lia.
  - lia.
Qed.

(** *** Views of the parts the steps change *)
Lemma vcount_app v l k : vcount v (l ++ k) = vcount v l + vcount v k.
Proof. apply length_filter_app. Qed.
Lemma vcount_one v t w : vcount v [(t, w)] = if decide (w = Some v) then 1 else 0.
Proof. unfold vcount. rewrite filter_cons, filter_nil. cbn. by case_decide. Qed.
Lemma lease_ids_app l k : lease_ids (l ++ k) = lease_ids l ++ lease_ids k.
Proof. apply fmap_app. Qed.

Lemma delete_perm {A} (l : list A) i x : l !! i = Some x -> x :: delete i l ≡ₚ l.
Proof. intros Hx. symmetry. by apply delete_Permutation. Qed.
Lemma elem_of_delete {A} (l : list A) i x y : l !! i = Some x -> y ∈ delete i l -> y ∈ l.
Proof. intros Hx Hy. rewrite <- (delete_perm l i x Hx). by right. Qed.

Lemma ids_delete (l : list T) i t :
  l !! i = Some t -> task_id <$> l ≡ₚ task_id t :: (task_id <$> delete i l).
Proof. intros Ht. rewrite <- fmap_cons. apply fmap_Permutation. symmetry. by apply delete_perm. Qed.

Lemma finished_snoc q ls os i wt ex q' ls' i' wt' ex' o id good :
  finished_as (mkPool q' ls' (os ++ [o]) i' wt' ex') id good <->
  finished_as (mkPool q ls os i wt ex) id good \/
  outcome_id o = id /\ bool_decide (outcome_status o = Completed) = good.
Proof.
  unfold finished_as. cbn. setoid_rewrite elem_of_app. setoid_rewrite list_elem_of_singleton.
  naive_solver.
Qed.
Lemma task_unique t u : t ∈ tasks -> u ∈ tasks -> task_id t = task_id u -> t = u.
Proof.
  clear -distinct. revert distinct. induction tasks as [|x l IH]; [set_solver|].
  rewrite fmap_cons, NoDup_cons. intros [Hx Hnd] [->|Ht]%elem_of_cons [->|Hu]%elem_of_cons Heq;
    [done| | |auto]; exfalso; apply Hx; [rewrite Heq|rewrite <- Heq]; by apply list_elem_of_fmap_2.
Qed.

Lemma out_not_lease p id o : pool_ok p -> id ∈ lease_ids (leases p) -> o ∈ outs p -> outcome_id o <> id.
Proof.
  intros Hok Hid Ho <-. pose proof (pool_nodup p Hok) as Hnd.
  apply NoDup_app in Hnd as (_ & _ & Hnd). apply NoDup_app in Hnd as (_ & Hdis & _).
  apply (Hdis _ Hid). by apply list_elem_of_fmap_2.
Qed.

Lemma admissible_some (s : QueueState T) j v :
  admissible_volume s j policy = Some v ->
  v = volume j /\ forall w, v = Some w -> (default 0 (active_by_volume s !! w) < limit_for policy w)%N.
Proof.
  unfold admissible_volume. destruct (volume j) as [w|]; [|naive_solver].
  destruct (N.ltb_spec (default 0 (active_by_volume s !! w))%N (limit_for policy w)); naive_solver.
Qed.

Lemma take_volume_lookup v (m : gmap VolumeId N) w :
  default 0%N (take_volume v m !! w) = (default 0 (m !! w) + (if decide (v = Some w) then 1 else 0))%N /\
  (m !! w <> Some 0%N -> take_volume v m !! w <> Some 0%N).
Proof.
  destruct v as [v|]; cbn [take_volume].
  - destruct (decide (v = w)) as [->|Hne].
    + rewrite lookup_insert_eq, decide_True by done. cbn. split; [done|]. intros _ [= Hx]. lia.
    + rewrite lookup_insert_ne, decide_False by naive_solver. split; [lia|done].
  - rewrite decide_False by done. split; [lia|done].
Qed.

Lemma run_ok q ls os i wt ex t v q' :
  pool_ok (mkPool q ls os (S i) wt ex) -> turn_spec policy q (TurnRun t v) q' ->
  pool_ok (mkPool q' (ls ++ [(t, v)]) os i wt ex).
Proof.
  intros Hok Hspec. inversion Hspec as [k n t' v' Hk Hd Hv| | |]; subst.
  pose proof (list_elem_of_lookup_2 _ _ _ Hk) as Hin.
  apply admissible_some in Hv as [Hv Hlim]. pose proof (po_pending _ Hok t Hin) as Htask.
  split; cbn.
  - rewrite <- (po_ids _ Hok). cbn. rewrite (ids_delete _ _ _ Hk), lease_ids_app. cbn.
    solve_Permutation.
  - intros u Hu. apply (po_pending _ Hok). by eapply elem_of_delete.
  - intros u w [Hu|Hu%list_elem_of_singleton]%elem_of_app; [by apply (po_leases _ Hok)|].
    by injection Hu as -> ->.
  - intros id. rewrite lease_ids_app, elem_of_union, elem_of_app, (po_active _ Hok id). cbn. set_solver.
  - intros w. destruct (take_volume_lookup v (active_by_volume q) w) as [-> Hz].
    destruct (po_volumes _ Hok w) as [Hw Hw0]. cbn in Hw, Hw0. rewrite Hw, vcount_app, vcount_one.
    split; [case_decide; lia|by apply Hz].
  - intros w. rewrite vcount_app, vcount_one. pose proof (po_limit _ Hok w) as Hl. cbn in Hl.
    case_decide as Hvw; [|lia]. specialize (Hlim w Hvw). destruct (po_volumes _ Hok w) as [Hw _].
    cbn in Hw. lia.
  - intros id. apply (po_completed _ Hok).
  - intros id. apply (po_failed _ Hok).
  - apply (po_status _ Hok).
  - intros u d Hu Hor Hdep. rewrite lease_ids_app, elem_of_app in Hor.
    destruct Hor as [[Hl|Hl]|Hf]; [by apply (po_deps _ Hok u d Hu); [left|]| |by apply (po_deps _ Hok u d Hu); [right|]].
    cbn in Hl. apply list_elem_of_singleton in Hl. assert (u = t) as -> by by apply task_unique.
    apply (po_completed _ Hok), deps_completed_spec with (j := job_of t); done.
  - pose proof (po_workers _ Hok) as Hw. cbn in Hw. rewrite length_app. simpl. lia.
  - intros _ Hnil. by destruct ls.
  - intros Hex. pose proof (po_exited _ Hok Hex) as Hnil. cbn in Hnil. by rewrite Hnil in Hk.
Qed.

Lemma blocked_ok q ls os i wt ex o q' :
  pool_ok (mkPool q ls os (S i) wt ex) -> turn_spec policy q (TurnBlocked o) q' ->
  pool_ok (mkPool q' ls (os ++ [o]) (S i) wt ex).
Proof.
  intros Hok Hspec. inversion Hspec as [|k t Hno Hb Hk| |]; subst.
  pose proof (list_elem_of_lookup_2 _ _ _ Hk) as Hin.
  set (o := blocked_outcome q t) in *. assert (Hid : outcome_id o = task_id t) by done.
  assert (Hst : bool_decide (outcome_status o = Completed) = false) by by apply bool_decide_eq_false.
  assert (Hns : outcome_status o <> Started) by done. clearbody o.
  set (q' := mkQ _ _ _ _ _ _) in *.
  assert (Hfin : forall id good, finished_as (mkPool q' ls (os ++ [o]) (S i) wt ex) id good <->
    finished_as (mkPool q ls os (S i) wt ex) id good \/ task_id t = id /\ good = false).
  { intros id good. rewrite (finished_snoc q ls os (S i) wt ex), Hid, Hst. naive_solver. }
  split; cbn.
  - rewrite <- (po_ids _ Hok). cbn. rewrite (ids_delete _ _ _ Hk), !fmap_app. cbn. rewrite Hid.
    solve_Permutation.
  - intros u Hu. apply (po_pending _ Hok). by eapply elem_of_delete.
  - apply (po_leases _ Hok).
  - apply (po_active _ Hok).
  - apply (po_volumes _ Hok).
  - apply (po_limit _ Hok).
  - intros id. rewrite Hfin, (po_completed _ Hok id). naive_solver.
  - intros id. rewrite Hfin, elem_of_union, (po_failed _ Hok id), elem_of_singleton. naive_solver.
  - intros o' [Ho'| ->%list_elem_of_singleton]%elem_of_app; [by apply (po_status _ Hok)|done].
  - intros u d Hu Hor Hdep. rewrite Hfin in *. left. apply (po_deps _ Hok u d Hu); [|done].
    destruct Hor as [?|[?|[? ?]]]; [by left|by right|done].
  - apply (po_workers _ Hok).
  - apply (po_waiting _ Hok).
  - intros Hex. pose proof (po_exited _ Hok Hex) as Hnil. cbn in Hnil. by rewrite Hnil in Hk.
Qed.

Lemma wait_ok q ls os i wt ex q' :
  pool_ok (mkPool q ls os (S i) wt ex) -> turn_spec policy q TurnWait q' ->
  pool_ok (mkPool q' ls os i (S wt) ex).
Proof.
  intros Hok Hspec.
  assert (q' = q) as -> by by inversion Hspec.
  assert (Hne : ls <> []).
  { destruct (wait_needs_active policy q limits Hspec) as [Ha|(v & n & Hv)]; intros ->.
    - apply Ha. apply set_eq. intros id. rewrite (po_active _ Hok id). cbn. set_solver.
    - destruct (po_volumes _ Hok v) as [Hw Hz]. cbn in Hw, Hz. rewrite Hv in Hw, Hz. cbn in Hw.
      by rewrite Hw in Hz. }
  destruct Hok. split; cbn in *; try done. lia.
Qed.

Lemma exit_ok q ls os i wt ex q' :
  pool_ok (mkPool q ls os (S i) wt ex) -> turn_spec policy q TurnNone q' ->
  pool_ok (mkPool q' ls os i wt (S ex)).
Proof.
  intros Hok Hspec. inversion Hspec; subst. destruct Hok. split; cbn in *; try done. lia.
Qed.

Lemma wake_ok q ls os i wt ex :
  pool_ok (mkPool q ls os i (S wt) ex) -> pool_ok (mkPool q ls os (S i) wt ex).
Proof.
  intros Hok. destruct Hok as [? ? ? ? ? ? ? ? ? ? ? Hw ?]. split; cbn in *; try done; [lia|].
  intros _. apply Hw. lia.
Qed.

(** [release] of a lease that is out never panics. *)
Definition released_volume (v : option VolumeId) (m m' : gmap VolumeId N) : Prop :=
  forall w, default 0%N (m' !! w) = (default 0 (m !! w) - (if decide (v = Some w) then 1 else 0))%N /\
    m' !! w <> Some 0%N.

Lemma release_runs p l1 t v l2 status :
  pool_ok p -> leases p = l1 ++ (t, v) :: l2 ->
  exists m', released_volume v (active_by_volume (queue_state p)) m' /\
    let q := queue_state p in let id := task_id t in
    release (job_of t) v status q = Some (mkQ (pending q) m' (active q ∖ {[id]})
      (match status with
       | Completed => {[id]} ∪ q_completed q | Started => q_completed q | _ => q_completed q ∖ {[id]} end)
      (match status with
       | Completed => q_failed q ∖ {[id]} | Started => q_failed q | _ => {[id]} ∪ q_failed q end)
      (next_admission_class q)).
Proof.
  intros Hok Hl. pose proof (po_volumes _ Hok) as Hv. cbn zeta. unfold release.
  destruct v as [v|].
  - destruct (Hv v) as [Hn Hz]. rewrite Hl, vcount_app in Hn.
    change ((t, Some v) :: l2) with ([(t, Some v)] ++ l2) in Hn.
    rewrite vcount_app, vcount_one, decide_True in Hn by done.
    destruct (active_by_volume (queue_state p) !! v) as [n|] eqn:Hnv; cbn in Hn; [|lia].
    exists (if (n - 1 =? 0)%N then delete v (active_by_volume (queue_state p))
      else <[v := (n - 1)%N]> (active_by_volume (queue_state p))).
    split.
    + intros w. destruct (Hv w) as [_ Hw0]. destruct (N.eqb_spec (n - 1) 0) as [He|He];
        (destruct (decide (v = w)) as [<-|Hne];
          [rewrite decide_True by done|rewrite decide_False by naive_solver]).
      * rewrite lookup_delete_eq, Hnv. cbn. split; [lia|done].
      * rewrite lookup_delete_ne by done. split; [lia|done].
      * rewrite lookup_insert_eq, Hnv. cbn. split; [lia|]. by intros [= ?].
      * rewrite lookup_insert_ne by done. split; [lia|done].
    + destruct (N.eqb_spec n 0) as [->|_]; [done|]. by destruct status.
  - exists (active_by_volume (queue_state p)). split.
    + intros w. rewrite decide_False by done. destruct (Hv w). split; [lia|done].
    + by destruct status.
Qed.

Lemma status_of_not_started r : status_of r <> Started.
Proof. destruct r as [|[]]; done. Qed.

Lemma finish_ok q l1 t v l2 os i wt ex r j q' :
  pool_ok (mkPool q (l1 ++ (t, v) :: l2) os i wt ex) -> finish t v (status_of r) q = Some (j, q') ->
  pool_ok (mkPool q' (l1 ++ l2) (os ++ [mkOutcome (job_id j) (label j) (status_of r)])
    (S i + wt) 0 ex).
Proof.
  intros Hok Hfin. destruct (release_runs _ l1 t v l2 (status_of r) Hok eq_refl) as (m' & Hm & Hr).
  cbn zeta in Hr. cbn [queue_state] in Hr. unfold finish in Hfin. rewrite Hr in Hfin. cbn in Hfin.
  injection Hfin as <- <-. fold (task_id t).
  pose proof (status_of_not_started r) as Hns. set (st := status_of r) in *. clearbody st.
  set (o := mkOutcome (task_id t) (label (job_of t)) st).
  set (good := bool_decide (st = Completed)).
  set (p := mkPool q (l1 ++ (t, v) :: l2) os i wt ex) in *.
  set (p' := mkPool _ _ _ _ _ _).
  assert (Hsplit : forall A (l k : list A) x, l ++ x :: k ≡ₚ x :: l ++ k)
    by (intros; symmetry; apply Permutation_middle).
  assert (Hin : (t, v) ∈ leases p) by (cbn; rewrite elem_of_app; right; left).
  destruct (po_leases _ Hok t v Hin) as [Htask Hv].
  assert (Hf : forall id g, finished_as p' id g <-> finished_as p id g \/ task_id t = id /\ good = g).
  { intros id g. apply (finished_snoc q (l1 ++ (t, v) :: l2) os i wt ex). }
  assert (Hids : lease_ids (leases p) ≡ₚ task_id t :: lease_ids (leases p')).
  { cbn. unfold lease_ids. rewrite Hsplit. done. }
  assert (Hnew : forall g, ~ finished_as p (task_id t) g).
  { intros g (o' & Ho' & Hid & _). apply (out_not_lease p (task_id t) o' Hok); [|done|done].
    rewrite Hids. left. }
  assert (Hnotin : task_id t ∉ lease_ids (leases p')).
  { pose proof (pool_nodup p Hok) as Hnd. rewrite Hids in Hnd.
    apply NoDup_app in Hnd as (_ & _ & Hnd). apply NoDup_app in Hnd as (Hnd & _ & _).
    by apply NoDup_cons in Hnd as [? _]. }
  assert (Hcount : forall w, vcount w (leases p) = vcount w (leases p') + (if decide (v = Some w) then 1 else 0)).
  { intros w. cbn. change ((t, v) :: l2) with ([(t, v)] ++ l2).
    rewrite !vcount_app, vcount_one. lia. }
  split.
  - rewrite <- (po_ids _ Hok), Hids.
    change ((task_id <$> pending q) ++ lease_ids (l1 ++ l2) ++ (outcome_id <$> (os ++ [o])) ≡ₚ
      (task_id <$> pending q) ++ task_id t :: lease_ids (l1 ++ l2) ++ (outcome_id <$> os)).
    apply Permutation_app_head. rewrite fmap_app, app_assoc. symmetry. apply Permutation_cons_append.
  - apply (po_pending _ Hok).
  - intros u w Hu. apply (po_leases _ Hok). cbn in *. rewrite Hsplit. by right.
  - intros id. pose proof (po_active _ Hok id) as Ha. rewrite Hids, elem_of_cons in Ha.
    change (id ∈ active q ∖ {[task_id t]} <-> id ∈ lease_ids (leases p')).
    change (id ∈ active q <-> id = task_id t \/ id ∈ lease_ids (leases p')) in Ha.
    rewrite elem_of_difference, elem_of_singleton, Ha. split; [naive_solver|]. intros Hl. split; [by right|]. by intros ->.
  - intros w. destruct (Hm w) as [Hw Hz]. split; [|exact Hz].
    destruct (po_volumes _ Hok w) as [Hn _]. rewrite Hcount in Hn.
    change (default 0%N (m' !! w) = N.of_nat (vcount w (leases p'))).
    rewrite Hw. rewrite Hn. case_decide; lia.
  - intros w. pose proof (po_limit _ Hok w) as Hl. rewrite Hcount in Hl. lia.
  - intros id. rewrite Hf. pose proof (po_completed _ Hok id) as Hc. cbn in *. unfold good.
    destruct st; cbn; rewrite ?elem_of_union, ?elem_of_difference, ?elem_of_singleton, Hc;
      rewrite ?bool_decide_eq_true_2, ?bool_decide_eq_false_2 by done; naive_solver.
  - intros id. rewrite Hf. pose proof (po_failed _ Hok id) as Hc. cbn in *. unfold good.
    destruct st; cbn; rewrite ?elem_of_union, ?elem_of_difference, ?elem_of_singleton, Hc;
      rewrite ?bool_decide_eq_true_2, ?bool_decide_eq_false_2 by done; naive_solver.
  - intros o' [Ho'| ->%list_elem_of_singleton]%elem_of_app; [by apply (po_status _ Hok)|done].
  - intros u d Hu Hor Hdep. rewrite Hf in *. left.
    assert (Hu' : task_id u ∈ lease_ids (leases p) \/ finished_as p (task_id u) true).
    { destruct Hor as [Hl|[?|[Heq _]]]; [left|by right|left]; rewrite Hids; [by right|].
      rewrite <- Heq. left. }
    by apply (po_deps _ Hok u d Hu).
  - pose proof (po_workers _ Hok) as Hw. cbn in *. rewrite !length_app in *. simpl in *. lia.
  - cbn. lia.
  - apply (po_exited _ Hok).
Qed.

Lemma pool_step_ok p p' : pool_ok p -> pool_step order policy p p' -> pool_ok p'.
Proof.
  intros Hok Hst.
  destruct Hst as [q ls os i wt ex t v q' Ht|q ls os i wt ex o q' Ht|q ls os i wt ex q' Ht
    |q ls os i wt ex q' Ht|q l1 t v l2 os i wt ex r j q' Hf].
  1-4: apply (next_turn_inv order policy all_classes) in Ht.
  - by eapply run_ok.
  - by eapply blocked_ok.
  - by eapply exit_ok.
  - by eapply wait_ok.
  - by eapply finish_ok.
Qed.

Lemma pool_steps_ok p p' : pool_steps order policy p p' -> pool_ok p -> pool_ok p'.
Proof.
  induction 1 as [p|p1 p2 p3 [Hs|Hs] _ IH]; intros Hok; [done|..]; apply IH.
  - by eapply pool_step_ok.
  - destruct Hs. by apply wake_ok.
Qed.
End PoolInvariant.

(** ** What the queue and the pool promise *)

(** How many slots of the order the cursor [n] is away from class [c]. *)
Definition slots_until (order : list JobClass) (n : nat) (c : JobClass) : nat :=
  default 0 (position (fun o => bool_decide (order !! ((n + o) mod length order) = Some c))
               (seq 0 (length order))).

Lemma slots_until_le order n c k :
  k < length order -> order !! ((n + k) mod length order) = Some c -> slots_until order n c <= k.
Proof.
  intros Hk Hc. unfold slots_until.
  destruct (position_le (fun o => bool_decide (order !! ((n + o) mod length order) = Some c))
    (seq 0 (length order)) k k) as (i & -> & Hi); [by apply lookup_seq|by apply bool_decide_eq_true|done].
Qed.

Lemma slots_until_slot order n c :
  c ∈ order -> slots_until order n c < length order /\
  order !! ((n + slots_until order n c) mod length order) = Some c.
Proof.
  intros Hc. destruct (slot_reached order n c Hc) as (o & Ho & Hoc). apply elem_of_seq in Ho as [_ Ho].
  assert (Hseq : seq 0 (length order) !! o = Some o) by (apply lookup_seq; lia).
  destruct (position_le (fun o => bool_decide (order !! ((n + o) mod length order) = Some c)) _ o o Hseq)
    as (i & Hi & _); [by apply bool_decide_eq_true|].
  unfold slots_until. rewrite Hi. cbn. apply position_some in Hi as (k & Hk & Hkc).
  apply lookup_seq in Hk as [-> Hlt]. apply bool_decide_eq_true in Hkc. done.
Qed.

(** an admission takes the first admissible task of its class, and a class with
    an admissible task is served within one round of the order: each admission of
    another class brings the cursor strictly closer to a slot of that class. *)
Theorem next_admissible_fair {T : Type} `{HasJob T} (order : list JobClass)
    (policy : VolumeConcurrencyPolicy) (s s' : QueueState T) (i : nat) (v : option VolumeId)
    (Hadm : next_admissible order policy s = (Some (i, v), s')) :
  exists t, pending s !! i = Some t /\ pending s' = pending s /\
    dependencies_completed s (job_of t) = true /\
    (forall k u, k < i -> pending s !! k = Some u -> admission s (class (job_of t)) policy u = None) /\
    forall c u, c ∈ order -> u ∈ pending s -> admission s c policy u <> None ->
      class (job_of t) = c \/
      slots_until order (next_admission_class s') c < slots_until order (next_admission_class s) c.
Proof.
  assert (Hf : admit_from order policy (seq 0 (length order)) s = (Some (i, v), s')) by by destruct order.
  apply admit_from_some in Hf as (pre & o & post & c0 & t & Hseq & Hc0 & -> & Ht & Ha & Hpre & Hfirst).
  apply admit_some in Ha as (Hcl & Hd & _). exists t. rewrite Hcl. split_and!; try done.
  intros c u Hc Hu Hadmit. destruct (decide (c0 = c)) as [->|Hne]; [by left|right].
  set (n := next_admission_class s) in *. set (len := length order) in *.
  destruct (slots_until_slot order n c Hc) as [Hk Hkc]. fold len in Hk, Hkc. set (k := slots_until order n c) in *.
  assert (Ho : o = length pre).
  { assert (Hlo : seq 0 len !! length pre = Some o) by (rewrite Hseq; by apply list_lookup_middle).
    apply lookup_seq in Hlo as [-> _]. done. }
  assert (Hko : o < k).
  { destruct (decide (k = o)) as [He|]; [rewrite He in Hkc; congruence|]. destruct (decide (o < k)); [done|].
    exfalso. apply Hadmit. apply (Hpre k); [|done|done].
    assert (Hlk : seq 0 len !! k = Some k) by (apply lookup_seq; split; [lia|done]).
    rewrite Hseq, lookup_app_l in Hlk by lia. by eapply list_elem_of_lookup_2. }
  assert (Hstep : slots_until order (((n + o) mod len + 1) mod len) c <= k - o - 1).
  { apply slots_until_le; [unfold len in *; lia|]. rewrite <- Hkc. f_equal. fold len.
    rewrite Nat.Div0.add_mod_idemp_l.
    replace ((n + o) mod len + 1 + (k - o - 1)) with ((n + o) mod len + (k - o)) by lia.
    rewrite Nat.Div0.add_mod_idemp_l. f_equal. lia. }
  cbn [set_cursor next_admission_class]. lia.
Qed.

Lemma admission_order_all p c : c ∈ admission_order p.
Proof.
  unfold admission_order. apply list_elem_of_In, in_flat_map. exists c.
  split; [apply list_elem_of_In; destruct c; unfold JOB_CLASS_ORDER; set_solver|].
  apply list_elem_of_In, elem_of_replicate. pose proof (quota_pos p c). split; [done|lia].
Qed.

(** The order a pool works through, and what its caller chooses. *)
Section PoolTheorems.
Context {T : Type} `{HasJob T}.
Variable fairness : JobFairnessPolicy.
Variable policy : VolumeConcurrencyPolicy.
Variable tasks : list T.
Variable threads : nat.

Definition pool_reaches (p : Pool T) : Prop :=
  pool_steps (admission_order fairness) policy (start_pool threads tasks) p.
Definition pool_workers : nat := Nat.min (pool_threads threads) (length tasks).

Lemma pool_reaches_ok p :
  (forall v, 1 <= limit_for policy v)%N -> NoDup (task_id <$> tasks) -> pool_reaches p ->
  pool_ok policy tasks pool_workers p.
Proof.
  intros Hl Hd Hr.
  apply (pool_steps_ok (admission_order fairness) policy tasks pool_workers
    (admission_order_all fairness) Hl Hd _ _ Hr).
  by apply (start_ok (admission_order fairness) policy tasks pool_workers
    (admission_order_all fairness) Hl Hd threads).
Qed.

(** C30: in every state a pool reaches, under every interleaving of its workers and
    with spurious wake-ups: no volume has more tasks running than its limit, a
    running task has all its dependencies completed, every task is in exactly one
    of pending, running and reported, and a task reported completed had all its
    dependencies completed. *)
Theorem pool_safety (p : Pool T)
    (Hlim : forall v, (1 <= limit_for policy v)%N) (Hids : NoDup (task_id <$> tasks))
    (Hr : pool_reaches p) :
  (forall v, N.of_nat (vcount v (leases p)) <= limit_for policy v)%N /\
  (forall t v, (t, v) ∈ leases p -> v = volume (job_of t) /\
     forall d, d ∈ dependencies (job_of t) -> finished_as p d true) /\
  (task_id <$> pending (queue_state p)) ++ lease_ids (leases p) ++ (outcome_id <$> outs p)
     ≡ₚ task_id <$> tasks /\
  (forall t, t ∈ tasks -> finished_as p (task_id t) true ->
     forall d, d ∈ dependencies (job_of t) -> finished_as p d true) /\
  (forall id, finished_as p id true -> finished_as p id false -> False).
Proof.
  pose proof (pool_reaches_ok p Hlim Hids Hr) as Hok. split_and!.
  - apply (po_limit _ _ _ _ Hok).
  - intros t v Hin. destruct (po_leases _ _ _ _ Hok t v Hin) as [Ht Hv]. split; [done|].
    intros d. apply (po_deps _ _ _ _ Hok t d Ht). left.
    unfold lease_ids. apply list_elem_of_fmap. by exists (t, v).
  - apply (po_ids _ _ _ _ Hok).
  - intros t Ht Hf d. apply (po_deps _ _ _ _ Hok t d Ht). by right.
  - intros id. by apply (finished_once policy tasks pool_workers Hids).
Qed.

(** Work left, then workers that may call [next]. *)
Definition pool_measure (p : Pool T) : nat :=
  (2 * length (pending (queue_state p)) + length (leases p)) * S (idle p + waiting p + exited p + length (leases p))
  + idle p.

Lemma length_delete {A} (l : list A) i x : l !! i = Some x -> length l = S (length (delete i l)).
Proof. intros Hx. rewrite (delete_Permutation l i x Hx) at 1. done. Qed.

Lemma pool_measure_lt p p' :
  pool_step (admission_order fairness) policy p p' -> pool_measure p' < pool_measure p.
Proof.
  intros Hst. destruct Hst as [q ls os i wt ex t v q' Ht|q ls os i wt ex o q' Ht|q ls os i wt ex q' Ht
    |q ls os i wt ex q' Ht|q l1 t v l2 os i wt ex r j q' Hf].
  1-4: apply (next_turn_inv _ policy (admission_order_all fairness)) in Ht.
  - inversion Ht as [k n t' v' Hk| | |]; subst. unfold pool_measure. cbn.
    pose proof (length_delete _ _ _ Hk). rewrite length_app. simpl. nia.
  - inversion Ht as [|k t Hno Hb Hk| |]; subst. unfold pool_measure. cbn.
    pose proof (length_delete _ _ _ Hk). nia.
  - inversion Ht; subst. unfold pool_measure. cbn. nia.
  - inversion Ht; subst. unfold pool_measure. cbn. nia.
  - assert (Hp : pending q' = pending q).
    { unfold finish, release in Hf. destruct (status_of r), v as [v|];
        repeat (case_match; try done); by injection Hf as _ <-. }
    unfold pool_measure. cbn. rewrite Hp, !length_app. simpl. nia.
Qed.

Inductive pool_run : nat -> Pool T -> Pool T -> Prop :=
  | pool_run_refl p : pool_run 0 p p
  | pool_run_step n p1 p2 p3 :
      pool_step (admission_order fairness) policy p1 p2 -> pool_run n p2 p3 -> pool_run (S n) p1 p3.

Lemma pool_run_bound n p p' : pool_run n p p' -> n <= pool_measure p.
Proof. induction 1 as [p|m p1 p2 p3 Hs _ IH]; [lia|]. apply pool_measure_lt in Hs. lia. Qed.

Lemma pool_measure_bound p :
  pool_ok policy tasks pool_workers p ->
  pool_measure p <= 2 * length tasks * S pool_workers + pool_workers.
Proof.
  intros Hok. pose proof (po_workers _ _ _ _ Hok) as Hw. pose proof (po_ids _ _ _ _ Hok) as Hids.
  apply Permutation_length in Hids. unfold lease_ids in Hids. rewrite !length_app, !length_fmap in Hids.
  clear Hok. unfold pool_measure. set (w := pool_workers) in *.
  assert (H1 : idle p + waiting p + exited p + length (leases p) <= w) by lia.
  assert (H2 : 2 * length (pending (queue_state p)) + length (leases p) <= 2 * length tasks) by lia.
  nia.
Qed.

Lemma pool_progress p :
  (forall v, 1 <= limit_for policy v)%N -> NoDup (task_id <$> tasks) -> pool_reaches p ->
  (exists p', pool_step (admission_order fairness) policy p p') \/
  pending (queue_state p) = [] /\ leases p = [] /\ exited p = pool_workers.
Proof.
  intros Hl Hd Hr. pose proof (pool_reaches_ok p Hl Hd Hr) as Hok.
  destruct p as [q ls os i wt ex]. destruct i as [|i].
  - destruct ls as [|[t v] ls].
    + right. pose proof (po_workers _ _ _ _ Hok) as Hw. pose proof (po_waiting _ _ _ _ Hok) as Hwt.
      cbn in Hw, Hwt. destruct wt as [|wt]; [|by destruct (Hwt ltac:(lia))].
      split_and!; [|done|cbn; lia].
      destruct ex as [|ex]; [|by apply (po_exited _ _ _ _ Hok); cbn; lia].
      apply nil_length_inv. pose proof (po_ids _ _ _ _ Hok) as Hids. cbn in Hids.
      apply Permutation_length in Hids. rewrite !length_app, !length_fmap in Hids.
      unfold pool_workers, pool_threads in Hw. cbn. lia.
    + left. destruct (release_runs policy tasks pool_workers _ [] t v ls Completed Hok eq_refl)
        as (m & _ & Hrel).
      eexists. apply (PoolFinish _ _ q [] t v ls os 0 wt ex (Ok tt) (job_of t)).
      unfold finish. cbn. cbn in Hrel. by rewrite Hrel.
  - left. destruct (next_turn_spec _ policy (admission_order_all fairness) q) as (turn & q' & Ht & _).
    destruct turn; eexists; [by eapply PoolRun|by eapply PoolBlocked|by eapply PoolExit|by eapply PoolWait].
Qed.

(** C31: a pool ends, however its workers interleave and whatever the tasks return:
    from every state it reaches it takes a bounded number of steps (spurious
    wake-ups apart), and when no worker can move, every worker has returned, no
    task is pending or running, and the report gives every task exactly one
    outcome, in the order of ids. *)
Theorem pool_completes (p : Pool T)
    (Hlim : forall v, (1 <= limit_for policy v)%N) (Hids : NoDup (task_id <$> tasks))
    (Hr : pool_reaches p) :
  (forall n p', pool_run n p p' -> n <= 2 * length tasks * S pool_workers + pool_workers) /\
  ((forall p', ~ pool_step (admission_order fairness) policy p p') ->
     pending (queue_state p) = [] /\ leases p = [] /\ exited p = pool_workers /\
     outcome_id <$> outcomes (pool_report p) ≡ₚ task_id <$> tasks /\
     StronglySorted (fun a b => outcome_id a <= outcome_id b)%N (outcomes (pool_report p)) /\
     (forall o, o ∈ outcomes (pool_report p) -> outcome_status o <> Started)).
Proof.
  pose proof (pool_reaches_ok p Hlim Hids Hr) as Hok. split.
  { intros n p' Hn. etrans; [by eapply pool_run_bound|by apply pool_measure_bound]. }
  intros Hstuck.
  destruct (pool_progress p Hlim Hids Hr) as [[p' Hs]|(Hp & Hl & He)]; [by destruct (Hstuck p')|].
  split_and!; try done; unfold pool_report; cbn.
  - rewrite sort_by_key_perm. rewrite <- (po_ids _ _ _ _ Hok), Hp, Hl. done.
  - apply sort_by_key_sorted.
  - intros o Ho. apply (po_status _ _ _ _ Hok). by apply sort_by_key_elem in Ho.
Qed.
End PoolTheorems.

(** ** Witnesses: a task, one that depends on it, and one with an unknown
    dependency, on a volume that runs one task at a time *)
Definition demo_task (id : N) (c : JobClass) (v : option VolumeId) (deps : list N) : Task unit :=
  new_task (mkJob id Normal c None "job" v deps 0) tt.
Definition demo_tasks : list (Task unit) :=
  [demo_task 1 VisibleClass (Some 7%N) []; demo_task 2 ForegroundClass (Some 7%N) [1%N];
   demo_task 3 RepairClass None [99%N]].
Definition one_slot : VolumeConcurrencyPolicy := new_volume_policy 1.

Lemma one_slot_pos v : (1 <= limit_for one_slot v)%N.
Proof. unfold limit_for, one_slot, new_volume_policy. cbn. rewrite lookup_empty. done. Qed.

Lemma demo_tasks_ids : NoDup (task_id <$> demo_tasks).
Proof. apply (bool_decide_unpack _). vm_compute. exact I. Qed.

Definition demo_order : list JobClass := admission_order default_fairness.

(** Two workers: task 1 runs, the other worker fails task 3 and waits. *)
Definition demo_mid : Pool (Task unit) :=
  mkPool (mkQ [demo_task 2 ForegroundClass (Some 7%N) [1%N]] {[7%N := 1%N]} {[1%N]} ∅ {[3%N]} 4)
    [(demo_task 1 VisibleClass (Some 7%N) [], Some 7%N)]
    [mkOutcome 3 "job" (dependency_failure [99%N] [])] 0 1 0.

Lemma demo_mid_reached : pool_reaches default_fairness one_slot demo_tasks 2 demo_mid.
Proof.
  unfold pool_reaches. change (start_pool 2 demo_tasks) with (mkPool (new_queue demo_tasks) [] [] 2 0 0).
  eapply pool_steps_step; [left; eapply PoolRun; vm_compute; reflexivity|].
  eapply pool_steps_step; [left; eapply PoolBlocked; vm_compute; reflexivity|].
  eapply pool_steps_step; [left; eapply PoolWait; vm_compute; reflexivity|].
  match goal with |- pool_steps _ _ ?p _ => replace p with demo_mid by (vm_compute; reflexivity) end.
  apply pool_steps_refl.
Qed.

Lemma pool_safety_witness :
  vcount 7 (leases demo_mid) = 1 /\ (N.of_nat (vcount 7 (leases demo_mid)) <= limit_for one_slot 7)%N.
Proof.
  split; [vm_compute; reflexivity|].
  exact (proj1 (pool_safety default_fairness one_slot demo_tasks 2 demo_mid one_slot_pos
    demo_tasks_ids demo_mid_reached) 7%N).
Defined.

(** One worker and one task, to the end. *)
Definition one_task : list (Task unit) := [demo_task 1 VisibleClass None []].
Definition demo_end : Pool (Task unit) :=
  mkPool (mkQ [] ∅ ∅ {[1%N]} ∅ 4) [] [mkOutcome 1 "job" Completed] 0 0 1.

Lemma demo_end_reached : pool_reaches default_fairness one_slot one_task 1 demo_end.
Proof.
  unfold pool_reaches. change (start_pool 1 one_task) with (mkPool (new_queue one_task) [] [] 1 0 0).
  eapply pool_steps_step; [left; eapply PoolRun; vm_compute; reflexivity|].
  eapply pool_steps_step; [left; apply (PoolFinish _ _ _ [] _ _ [] _ _ _ _ (Ok tt)); vm_compute; reflexivity|].
  eapply pool_steps_step; [left; eapply PoolExit; vm_compute; reflexivity|].
  match goal with |- pool_steps _ _ ?p _ => replace p with demo_end by (vm_compute; reflexivity) end.
  apply pool_steps_refl.
Qed.

Lemma one_task_ids : NoDup (task_id <$> one_task).
Proof. apply (bool_decide_unpack _). vm_compute. exact I. Qed.

Lemma demo_end_stuck p : ~ pool_step (admission_order default_fairness) one_slot demo_end p.
Proof. intros Hs. inversion Hs as [| | | |q l1 t v l2 os i wt ex r j q' Hf Heq]. by destruct l1. Qed.

Lemma pool_completes_witness :
  outcome_id <$> outcomes (pool_report demo_end) ≡ₚ [1%N] /\ exited demo_end = 1.
Proof.
  destruct (pool_completes default_fairness one_slot one_task 1 demo_end one_slot_pos
    one_task_ids demo_end_reached) as [_ Hend].
  destruct (Hend demo_end_stuck) as (_ & _ & He & Hp & _).
  split; [exact Hp|exact He].
Defined.

Lemma next_admissible_fair_witness :
  exists i v s', next_admissible demo_order one_slot (new_queue demo_tasks) = (Some (i, v), s') /\
    i = 0 /\ pending s' = demo_tasks.
Proof.
  destruct (next_admissible demo_order one_slot (new_queue demo_tasks)) as [[[i v]|] s'] eqn:Hn;
    [|vm_compute in Hn; discriminate].
  exists i, v, s'. split; [reflexivity|].
  destruct (next_admissible_fair demo_order one_slot _ _ _ _ Hn) as (t & _ & Hp & _).
  split; [vm_compute in Hn; congruence|exact Hp].
Defined.
