(* ===== verification/Files.v ===== *)
(** * Files

    What [crates/jobs] uses of [std::fs] and [std::io]: files named by a
    directory and a file name, each a text.  Every call may fail: a schedule of
    faults says which of the calls do, and how much of the text a failed write had
    brought to its file when the writer was dropped.  A rename replaces its target
    in one step; nobody else writes the files.  The row stores of the program
    (payload catalog, progress) share one shape, written and read here. *)
From S2P Require Import Prelude Types Text Control.
#[local] Open Scope string_scope.
#[local] Open Scope list_scope.

(** ** Paths that name a file *)
Record Path : Type := mkPath { dir : string; name : string }.
#[export] Instance Path_eq_dec : EqDecision Path.
Proof. solve_decision. Defined.
#[export] Instance Path_countable : Countable Path.
Proof.
  apply (inj_countable' (fun p => (dir p, name p)) (fun q => mkPath q.1 q.2)). by intros [].
Defined.

Definition display (p : Path) : string :=
  if decide (dir p = "") then name p
  else if decide (dir p = "/") then "/" +:+ name p else dir p +:+ "/" +:+ name p.
(** [real_parent_or_cwd]. *)
Definition real_parent_or_cwd (p : Path) : string := if decide (dir p = "") then "." else dir p.
Definition with_file_name (p : Path) (n : string) : Path := mkPath (dir p) n.

(** ** The disk *)
Record Fault : Type := mkFault { fault_message : string; fault_written : nat }.

Record Disk : Type := mkDisk {
  files : gmap Path string;
  clock : nat;                    (** calls made so far *)
  faults : nat -> option Fault;   (** which of them fail *)
  sequences : gmap string N;      (** the counters of temporary names, by their static *)
  process_id : N
}.

Definition set_files (f : gmap Path string) (d : Disk) : Disk :=
  mkDisk f (clock d) (faults d) (sequences d) (process_id d).
Definition tick (d : Disk) : Disk :=
  mkDisk (files d) (S (clock d)) (faults d) (sequences d) (process_id d).
Definition sequence (counter : string) (d : Disk) : N := default 0%N (sequences d !! counter).
(** [fetch_add(1)]. *)
Definition next_sequence (counter : string) (d : Disk) : Disk :=
  mkDisk (files d) (clock d) (faults d)
    (<[counter := wrapping_add (sequence counter d) 1]> (sequences d)) (process_id d).

(** One call: does it fail? *)
Definition attempt : M Disk (option Fault) := fun _ k d => (Ok (faults d (clock d)), k, tick d).
(** A call on [shown] whose failure is mapped to [GfmError::io]. *)
Definition io (shown : string) : M Disk unit :=
  f <- attempt ;
  match f with None => mret tt | Some f => mfail (Io shown (fault_message f)) end.

Definition file_text (p : Path) (d : Disk) : string := default "" (files d !! p).
Definition append_text (p : Path) (s : string) (d : Disk) : Disk :=
  set_files (<[p := file_text p d +:+ s]> (files d)) d.

Definition path_exists (context : string) (p : Path) : M Disk bool :=
  f <- attempt ;
  match f with
  | None => mgets (fun d => bool_decide (is_Some (files d !! p)))
  | Some f => mfail (Io (display p) (context +:+ " existence unavailable: " +:+ fault_message f))
  end.

Definition create_dir_all (p : Path) : M Disk unit := io (real_parent_or_cwd p).
(** [File::create] truncates. *)
Definition create_file (p : Path) : M Disk unit :=
  io (display p) ;; mmodify (fun d => set_files (<[p := ""]> (files d)) d).
(** [OpenOptions::new().create(true).append(true).open(..)]. *)
Definition open_append (p : Path) : M Disk unit :=
  io (display p) ;; mmodify (append_text p "").
(** [File::open]: the text to read; reading a missing file fails. *)
Definition open_file (p : Path) : M Disk string :=
  io (display p) ;;
  (t <- mgets (fun d => files d !! p) ;
   match t with
   | Some t => mret t
   | None => mfail (Io (display p) "No such file or directory (os error 2)")
   end).
Definition rename (from to : Path) : M Disk unit :=
  io (display to) ;;
  mmodify (fun d => set_files (<[to := file_text from d]> (delete from (files d))) d).
(** [let _ = fs::remove_file(..)]. *)
Definition remove_file_quietly (p : Path) : M Disk unit :=
  f <- attempt ;
  match f with None => mmodify (fun d => set_files (delete p (files d)) d) | Some _ => mret tt end.

(** ** [BufWriter]: the text not yet in the file *)
Definition write_all (p : Path) (buffer data : string) : M Disk string :=
  f <- attempt ;
  match f with
  | None => mret (buffer +:+ data)
  | Some f => mmodify (append_text p (String.substring 0 (fault_written f) (buffer +:+ data))) ;;
              mfail (Io (display p) (fault_message f))
  end.
Definition flush (p : Path) (buffer : string) : M Disk unit :=
  f <- attempt ;
  match f with
  | None => mmodify (append_text p buffer)
  | Some f => mmodify (append_text p (String.substring 0 (fault_written f) buffer)) ;;
              mfail (Io (display p) (fault_message f))
  end.

(** ** [BufReader::lines] *)

(** [lines.next()]: the line or the end, unless the read fails. *)
Definition next_line (p : Path) (rest : list string) : M Disk (option (Res string) * list string) :=
  f <- attempt ;
  match f with
  | Some f => mret (Some (Err (Io (display p) (fault_message f))), tail rest)
  | None => mret (match rest with [] => (None, []) | l :: rest' => (Some (Ok l), rest') end)
  end.

(** ** Rows *)

(** What a store needs of its rows: text forms without line breaks, the one of a
    row in range read back. *)
Class LineFormat (R : Type) : Type := {
  as_tsv : R -> string;
  parse_row : string -> Result R string;
  row_ok : R -> Prop;
  as_tsv_line r : line_ok (as_tsv r);
  parse_as_tsv r : row_ok r -> parse_row (as_tsv r) = Ok r
}.

Section Lines.
Context {R : Type} `{LineFormat R}.

Definition row_error (p : Path) (n : N) (e : string) : GfmError :=
  Format (display p +:+ " line " +:+ u64_to_string n +:+ ": " +:+ e).

(** The loop over the rows: [n] numbers the line, [keep] adds a row to those
    read so far. *)
Fixpoint read_rows_loop (keep : list R -> R -> list R) (p : Path) (n : N) (acc : list R)
    (fuel : nat) (rest : list string) : M Disk (list R) :=
  match fuel with
  | O => mret acc
  | S fuel' =>
      l <- next_line p rest ;
      match l.1 with
      | None => mret acc
      | Some line =>
          check_control ;;
          (line <- mlift line ;
           check_control ;;
           (r <- mlift (map_err (row_error p n) (parse_row line)) ;
            read_rows_loop keep p (n + 1) (keep acc r) fuel' l.2))
      end
  end.

(** What the lines mean. *)
Fixpoint rows_of (keep : list R -> R -> list R) (p : Path) (n : N) (acc : list R) (ls : list string)
    : Res (list R) :=
  match ls with
  | [] => Ok acc
  | l :: ls' =>
      let? r := map_err (row_error p n) (parse_row l) in rows_of keep p (n + 1) (keep acc r) ls'
  end.

Definition keep_all (acc : list R) (r : R) : list R := acc ++ [r].

Lemma foldl_keep_all rows : forall acc, foldl keep_all acc rows = acc ++ rows.
Proof.
  induction rows as [|r rows IH]; intros acc; cbn; [by rewrite app_nil_r|].
  rewrite IH. unfold keep_all. by rewrite <- app_assoc.
Qed.

Lemma rows_of_written keep p rows : forall n acc,
  Forall row_ok rows -> rows_of keep p n acc (as_tsv <$> rows) = Ok (foldl keep acc rows).
Proof.
  induction rows as [|r rows IH]; intros n acc Hok; [done|]. apply Forall_cons in Hok as [Hr Hok].
  cbn. rewrite parse_as_tsv by done. cbn. by apply IH.
Qed.
End Lines.

(** ** A store of rows under a header line *)
Class RowFormat (R : Type) : Type := {
  row_lines :: LineFormat R;
  header : string;
  counter : string;   (** the static that numbers its temporary files *)
  header_line : line_ok header
}.

Section RowStore.
Context {R : Type} `{RowFormat R}.

(** The line is written with a poll before and after. *)
Definition write_line_checked (p : Path) (buffer line : string) : M Disk string :=
  check_control ;;
  (b <- write_all p buffer line ;
   b <- write_all p b newline ;
   check_control ;; mret b).

(** [temp_path]: the file name with the process and a fresh number. *)
Definition temp_path (p : Path) : M Disk Path :=
  d <- mget ;
  mmodify (next_sequence counter) ;;
  mret (with_file_name p (name p +:+ "." +:+ u64_to_string (process_id d) +:+ "." +:+
                          u64_to_string (sequence counter d) +:+ ".tmp")).

(** The closure between [File::create] and the rename. *)
Definition write_temporary (tmp p : Path) (rows : list R) : M Disk unit :=
  create_file tmp ;;
  check_control ;;
  (b <- write_line_checked tmp "" header ;
   b <- mfor (fun b r => write_line_checked tmp b (as_tsv r)) b rows ;
   check_control ;;
   flush tmp b ;;
   check_control ;;
   io (display tmp) ;;
   check_control ;;
   rename tmp p).

(** [if result.is_err() { let _ = fs::remove_file(..); }]. *)
Definition or_remove (tmp : Path) (m : M Disk unit) : M Disk unit := fun c k d =>
  match m c k d with
  | (Ok a, k', d') => (Ok a, k', d')
  | (Err e, k', d') => let '(_, k'', d'') := remove_file_quietly tmp c k' d' in (Err e, k'', d'')
  end.

Definition write_rows_checked (p : Path) (rows : list R) : M Disk unit :=
  check_control ;;
  create_dir_all p ;;
  check_control ;;
  (tmp <- temp_path p ; or_remove tmp (write_temporary tmp p rows)).

(** The lines of the opened file: the header, then the rows. *)
Definition read_lines_checked (empty_store unsupported : string) (keep : list R -> R -> list R)
    (p : Path) (ls : list string) : M Disk (list R) :=
  l <- next_line p ls ;
  h <- mlift (match l.1 with
              | Some r => r
              | None => Err (Format (empty_store +:+ " " +:+ display p))
              end) ;
  check_control ;;
  if decide (h <> header) then
    mfail (Format (unsupported +:+ " `" +:+ h +:+ "` in " +:+ display p))
  else
    rows <- read_rows_loop keep p 2 [] (S (length ls)) l.2 ;
    check_control ;; mret rows.

Definition read_rows_checked (context empty_store unsupported : string)
    (keep : list R -> R -> list R) (p : Path) : M Disk (list R) :=
  check_control ;;
  (ex <- path_exists context p ;
   if negb ex then mret []
   else
     check_control ;;
     (text <- open_file p ;
      check_control ;;
      read_lines_checked empty_store unsupported keep p (lines text))).
End RowStore.

(** ** The meaning of a store's text *)
Section Stored.
Context {R : Type} `{RowFormat R}.
Variable empty_store unsupported : string.
Variable keep : list R -> R -> list R.
Variable p : Path.

Definition stored (text : string) : Res (list R) :=
  match lines text with
  | [] => Err (Format (empty_store +:+ " " +:+ display p))
  | h :: ls => if decide (h <> header) then
                 Err (Format (unsupported +:+ " `" +:+ h +:+ "` in " +:+ display p))
               else rows_of keep p 2 [] ls
  end.

Definition stored_at (d : Disk) : Res (list R) :=
  match files d !! p with None => Ok [] | Some t => stored t end.

(** The text [write_rows_checked] publishes. *)
Definition rows_text (rows : list R) : string := unlines (header :: (as_tsv <$> rows)).

(** What was written is what is read. *)
Lemma stored_rows_text rows : Forall row_ok rows -> stored (rows_text rows) = Ok (foldl keep [] rows).
Proof.
  intros Hok. unfold stored, rows_text. rewrite lines_unlines.
  - rewrite decide_False by (intros Hn; by apply Hn). by apply rows_of_written.
  - constructor; [apply header_line|]. apply Forall_fmap, Forall_true. intros r. apply as_tsv_line.
Qed.
End Stored.

(** ** What a publication leaves, under any faults and polls *)
Section Publish.
Context {R : Type} `{RowFormat R}.
Variable p : Path.

(** The temporary file of the next publication from [d]. *)
Definition temp_of (d : Disk) : Path :=
  with_file_name p (name p +:+ "." +:+ u64_to_string (process_id d) +:+ "." +:+
                    u64_to_string (sequence counter d) +:+ ".tmp").


Lemma temp_of_ne d : temp_of d <> p.
Proof.
  intros Heq. apply (f_equal name) in Heq. cbn in Heq. apply (f_equal String.length) in Heq.
  rewrite !length_append in Heq. cbn in Heq. lia.
Qed.

(** Nothing but [tmp] differs from [d0]. *)
Definition only_temp (tmp : Path) (d0 d : Disk) : Prop :=
  (forall q, q <> tmp -> files d !! q = files d0 !! q) /\ process_id d = process_id d0 /\
  faults d = faults d0.

Lemma only_temp_refl tmp d : only_temp tmp d d.
Proof. done. Qed.
Lemma only_temp_tick tmp d0 d : only_temp tmp d0 d -> only_temp tmp d0 (tick d).
Proof. done. Qed.
Lemma only_temp_insert tmp d0 d t : only_temp tmp d0 d -> only_temp tmp d0 (set_files (<[tmp := t]> (files d)) d).
Proof.
  intros (Hf & Hp & Hx). split; [|done]. intros q Hq. cbn. rewrite lookup_insert_ne by done. by apply Hf.
Qed.
Lemma only_temp_delete tmp d0 d : only_temp tmp d0 d -> only_temp tmp d0 (set_files (delete tmp (files d)) d).
Proof.
  intros (Hf & Hp & Hx). split; [|done]. intros q Hq. cbn. rewrite lookup_delete_ne by done. by apply Hf.
Qed.

(** The temporary file and the buffer hold [t] between them. *)
Definition pending_text (tmp : Path) (d0 : Disk) (t b : string) (d : Disk) : Prop :=
  only_temp tmp d0 d /\ file_text tmp d +:+ b = t.

Lemma triple_attempt_bind {B} (P : Disk -> Prop) (f : option Fault -> M Disk B) (Q : Res B -> Disk -> Prop) :
  (forall d, P d -> P (tick d)) -> (forall o, triple P (f o) Q) -> triple P (mbind attempt f) Q.
Proof. intros Ht Hf c k d Hd. unfold mbind, attempt. by apply Hf, Ht. Qed.

Lemma triple_io (P : Disk -> Prop) shown (E : GfmError -> Disk -> Prop) :
  (forall d, P d -> P (tick d)) -> (forall e d, P d -> E e d) ->
  triple P (io shown) (fun r d => match r with Ok _ => P d | Err e => E e d end).
Proof.
  intros Ht He. apply triple_attempt_bind; [done|]. intros [f|]; [apply triple_fail; auto|by apply triple_ret].
Qed.

Lemma triple_write_all tmp d0 t b s :
  triple (pending_text tmp d0 t b) (write_all tmp b s)
    (fun r d => match r with Ok b' => pending_text tmp d0 (t +:+ s) b' d | Err _ => only_temp tmp d0 d end).
Proof.
  apply triple_attempt_bind; [done|]. intros [f|].
  - eapply triple_bind; [apply (triple_modify _ _ (fun _ => only_temp tmp d0))| |done].
    + intros d [Hd _]. by apply only_temp_insert.
    + intros []. by apply triple_fail.
  - apply triple_ret. intros d [Hd Ht]. split; [done|]. by rewrite <- string_app_assoc, Ht.
Qed.

Lemma triple_write_line tmp d0 t b l :
  triple (pending_text tmp d0 t b) (write_line_checked tmp b l)
    (fun r d => match r with
                | Ok b' => pending_text tmp d0 (t +:+ l +:+ newline) b' d
                | Err _ => only_temp tmp d0 d end).
Proof.
  apply triple_check_bind; [|by intros e d [? _]].
  eapply triple_bind; [apply triple_write_all| |done]. intros b1. cbn.
  eapply triple_bind; [apply triple_write_all| |done]. intros b2. cbn.
  apply triple_check_bind; [|by intros e d [? _]].
  apply triple_ret. intros d. by rewrite string_app_assoc.
Qed.

Lemma triple_flush tmp d0 t b :
  triple (pending_text tmp d0 t b) (flush tmp b)
    (fun r d => match r with Ok _ => pending_text tmp d0 t "" d | Err _ => only_temp tmp d0 d end).
Proof.
  apply triple_attempt_bind; [done|]. intros [f|].
  - eapply triple_bind; [apply (triple_modify _ _ (fun _ => only_temp tmp d0))| |done].
    + intros d [Hd _]. by apply only_temp_insert.
    + intros []. by apply triple_fail.
  - apply triple_modify. intros d [Hd Ht]. split; [by apply only_temp_insert|].
    rewrite string_app_nil_r. unfold file_text at 1, append_text. cbn. by rewrite lookup_insert_eq.
Qed.

(** The rename publishes the whole text, or nothing happens to [p]. *)
Definition published (tmp : Path) (rows : list R) (d0 : Disk) (r : Res unit) (d : Disk) : Prop :=
  match r with
  | Ok _ => files d !! p = Some (rows_text rows) /\ files d !! tmp = None /\
            (forall q, q <> p -> q <> tmp -> files d !! q = files d0 !! q) /\
            process_id d = process_id d0 /\ faults d = faults d0
  | Err _ => only_temp tmp d0 d
  end.

Lemma triple_write_temporary tmp d0 rows :
  tmp <> p -> triple (only_temp tmp d0) (write_temporary tmp p rows) (published tmp rows d0).
Proof.
  intros Hne. set (E := fun (_ : GfmError) d => only_temp tmp d0 d).
  assert (Herr : forall t b e d, pending_text tmp d0 t b d -> published tmp rows d0 (Err e) d)
    by (by intros t b e d [? _]).
  unfold write_temporary. eapply (triple_bind _ _ _ (fun r d => match r with
    | Ok _ => pending_text tmp d0 "" "" d | Err _ => only_temp tmp d0 d end)); [| |done].
  { eapply triple_bind; [apply (triple_io _ _ E); done| |done]. intros []. cbn.
    apply triple_modify. intros d Hd. split; [by apply only_temp_insert|].
    unfold file_text. cbn. by rewrite lookup_insert_eq. }
  intros []. cbn. apply triple_check_bind; [|apply Herr].
  eapply triple_bind; [apply triple_write_line| |done]. intros b0. cbn.
  eapply triple_bind.
  { eapply triple_weaken; [apply (triple_for _ (fun b pre d =>
        pending_text tmp d0 (unlines (header :: (as_tsv <$> pre))) b d) E rows [] b0)| |by intros r d Hr; exact Hr].
    2:{ intros d Hd. cbn. cbn in Hd. by rewrite string_app_nil_r. }
    intros b pre r. eapply triple_weaken; [apply triple_write_line|done|].
    intros [b'|e] d; [|done]. cbn -[unlines]. rewrite fmap_app.
    change (header :: ((as_tsv <$> pre) ++ (as_tsv <$> [r]))) with ((header :: (as_tsv <$> pre)) ++ [as_tsv r]).
    rewrite unlines_app. cbn. by rewrite string_app_nil_r. }
  2: done.
  intros b1. cbn -[unlines]. apply triple_check_bind; [|apply Herr].
  eapply triple_bind; [apply triple_flush| |done]. intros []. cbn -[unlines].
  apply triple_check_bind; [|apply Herr].
  eapply triple_bind; [apply (triple_io _ _ E); [done|by intros e d [? _]]| |done]. intros []. cbn -[unlines].
  apply triple_check_bind; [|apply Herr].
  eapply triple_bind; [apply (triple_io _ _ E); [done|by intros e d [? _]]| |done]. intros []. cbn -[unlines].
  apply triple_modify. intros d [(Hf & Hpid & Hx) Ht]. rewrite string_app_nil_r in Ht. unfold published.
  cbn. split_and!; try done.
  - by rewrite lookup_insert_eq, Ht.
  - rewrite lookup_insert_ne by done. by rewrite lookup_delete_eq.
  - intros q Hq Hqt. rewrite lookup_insert_ne, lookup_delete_ne by done. by apply Hf.
Qed.
End Publish.

(** ** Publishing and reading back *)
Section Rows.
Context {R : Type} `{RowFormat R}.
Variable p : Path.

(** What [write_rows_checked] leaves: on success [p] holds exactly the rows and
    the temporary file is gone; on any error [p] is untouched. *)
Definition write_outcome (rows : list R) (d0 : Disk) (r : Res unit) (d : Disk) : Prop :=
  (forall q, q <> p -> q <> temp_of p d0 -> files d !! q = files d0 !! q) /\
  process_id d = process_id d0 /\ faults d = faults d0 /\
  match r with
  | Ok _ => files d !! p = Some (rows_text rows) /\ files d !! temp_of p d0 = None
  | Err _ => files d !! p = files d0 !! p
  end.

Lemma triple_or_remove tmp d0 rows m :
  triple (only_temp tmp d0) m (published p tmp rows d0) ->
  triple (only_temp tmp d0) (or_remove tmp m) (published p tmp rows d0).
Proof.
  intros Hm c k d Hd. unfold or_remove. specialize (Hm c k d Hd).
  destruct (m c k d) as [[[[]|e] k1] d1]; [done|]. cbn in Hm.
  unfold remove_file_quietly, mbind, attempt. destruct (faults d1 (clock d1)); cbn; [done|].
  by apply (only_temp_delete tmp d0 (tick d1)).
Qed.

Lemma triple_write_rows rows d0 :
  triple (fun d => d = d0) (write_rows_checked p rows) (write_outcome rows d0).
Proof.
  set (P := fun d => files d = files d0 /\ process_id d = process_id d0 /\ faults d = faults d0 /\
    sequences d = sequences d0).
  assert (Herr : forall e d, P d -> write_outcome rows d0 (Err e) d).
  { intros e d (Hf & Hp & Hx & Hs). split_and!; [|done|done|]; intros; by rewrite Hf. }
  assert (Hio : forall d, P d -> P (tick d)) by done.
  unfold write_rows_checked.
  eapply (triple_weaken P); [|by intros d ->|intros r d Hr; exact Hr].
  apply triple_check_bind; [|done].
  eapply triple_bind; [apply (triple_io P _ (fun _ => P)); done| |done]. intros []. cbn.
  apply triple_check_bind; [|done].
  eapply triple_bind; [|intros tmp|].
  - instantiate (1 := fun r d => P (mkDisk (files d) (clock d) (faults d) (sequences d0) (process_id d))
      /\ match r with Ok tmp => tmp = temp_of p d0 | Err _ => False end).
    intros c k d (Hf & Hp & Hx & Hs). cbn. split; [done|]. unfold temp_of, sequence. by rewrite Hp, Hs.
  - intros c k d ((Hf & Hp & Hx & _) & ->).
    assert (Hpre : only_temp (temp_of p d0) d0 d) by (split_and!; [intros; by rewrite <- Hf|done|done]).
    pose proof (triple_or_remove _ _ rows _ (triple_write_temporary p _ d0 rows (temp_of_ne p d0))
      c k d Hpre) as Hout.
    destruct (or_remove _ _ c k d) as [[[[]|e] k1] d1]; cbn in Hout.
    + destruct Hout as (H1 & H2 & H3 & H4 & H5). split_and!; auto.
    + destruct Hout as (H1 & H2 & H3). split_and!; auto. apply H1. intros Heq.
      by apply (temp_of_ne p d0).
  - by intros e d [_ []].
Qed.
End Rows.

(** ** Uninterrupted runs on a healthy disk *)

(** No call fails from here on. *)
Definition healthy (d : Disk) : Prop := forall n, faults d n = None.

(** Equal but for the clock. *)
Definition same_files (d0 d : Disk) : Prop :=
  files d = files d0 /\ process_id d = process_id d0 /\ faults d = faults d0 /\ sequences d = sequences d0.

#[export] Instance same_files_preorder : PreOrder same_files.
Proof.
  split; [by intros d|]. intros a b c (?&?&?&?) (?&?&?&?). split_and!; congruence.
Qed.
Lemma same_files_tick d : same_files d (tick d).
Proof. done. Qed.
Lemma same_files_healthy d0 d : same_files d0 d -> healthy d0 -> healthy d.
Proof. intros (_&_&Hf&_) Hh n. rewrite Hf. apply Hh. Qed.

Definition succeeds {A} (m : M Disk A) : Prop :=
  forall d, healthy d -> exists a d', runs m d (Ok a) d' /\ healthy d'.

Lemma runs_attempt d : healthy d -> runs attempt d (Ok None) (tick d).
Proof. intros Hd k. exists k. unfold attempt. by rewrite Hd. Qed.

Lemma succeeds_bind {A B} (m : M Disk A) (f : A -> M Disk B) :
  succeeds m -> (forall a, succeeds (f a)) -> succeeds (mbind m f).
Proof.
  intros Hm Hf d Hd. destruct (Hm d Hd) as (a & d1 & H1 & Hd1).
  destruct (Hf a d1 Hd1) as (b & d2 & H2 & Hd2). exists b, d2. split; [by eapply runs_bind|done].
Qed.
Lemma succeeds_ret {A} (a : A) : succeeds (mret a).
Proof. intros d Hd. exists a, d. split; [apply runs_ret|done]. Qed.
Lemma succeeds_check : succeeds check_control.
Proof. intros d Hd. exists tt, d. split; [apply runs_check|done]. Qed.
Lemma succeeds_get : succeeds mget.
Proof. intros d Hd. exists d, d. split; [apply runs_get|done]. Qed.
Lemma succeeds_modify f : (forall d, faults (f d) = faults d) -> succeeds (mmodify f).
Proof.
  intros Hf d Hd. exists tt, (f d). split; [apply runs_modify|]. intros n. rewrite Hf. apply Hd.
Qed.
Lemma succeeds_attempt {B} (f : option Fault -> M Disk B) : succeeds (f None) -> succeeds (mbind attempt f).
Proof.
  intros Hf d Hd. destruct (Hf (tick d)) as (b & d' & Hr & Hd'); [done|].
  exists b, d'. split; [eapply runs_bind; [by apply runs_attempt|done]|done].
Qed.
Lemma succeeds_io shown : succeeds (io shown).
Proof. apply succeeds_attempt, succeeds_ret. Qed.
Lemma succeeds_for {A B} (body : B -> A -> M Disk B) l : forall acc,
  (forall b x, succeeds (body b x)) -> succeeds (mfor body acc l).
Proof.
  induction l as [|x l IH]; intros acc Hb; [apply succeeds_ret|].
  apply succeeds_bind; [apply Hb|]. intros; by apply IH.
Qed.
Lemma succeeds_or_remove tmp m : succeeds m -> succeeds (or_remove tmp m).
Proof.
  intros Hm d Hd. destruct (Hm d Hd) as (a & d' & Hr & Hd'). exists a, d'. split; [|done].
  intros k. destruct (Hr k) as [k' Hk]. exists k'. unfold or_remove. by rewrite Hk.
Qed.

Create HintDb disk.
#[export] Hint Resolve succeeds_ret succeeds_check succeeds_get succeeds_io succeeds_for succeeds_or_remove : disk.
Ltac succeeds_step :=
  match goal with
  | |- forall _, _ => intro
  | |- succeeds (mbind attempt _) => apply succeeds_attempt; cbv beta iota
  | |- succeeds (mbind _ _) => apply succeeds_bind
  | |- succeeds (mmodify _) => apply succeeds_modify; done
  | |- succeeds (mfor _ _ _) => apply succeeds_for
  | |- succeeds (or_remove _ _) => apply succeeds_or_remove
  | |- _ => by auto with disk
  end.
Ltac succeeds_auto := repeat succeeds_step.

Section LineRuns.
Context {R : Type} `{LineFormat R}.
Variable p : Path.
Variable keep : list R -> R -> list R.

Lemma read_loop_runs rest : forall fuel n acc d,
  healthy d -> length rest < fuel ->
  exists d', runs (read_rows_loop keep p n acc fuel rest) d (rows_of keep p n acc rest) d' /\
    same_files d d'.
Proof.
  induction rest as [|l rest IH]; intros [|fuel] n acc d Hd Hlt; simpl in Hlt; try lia;
    cbn [read_rows_loop rows_of].
  - exists (tick d). split; [|done]. eapply runs_bind.
    + unfold next_line. eapply runs_bind; [by apply runs_attempt|apply runs_ret].
    + apply runs_ret.
  - destruct (parse_row l) as [r|e] eqn:Hr.
    + destruct (IH fuel (n + 1)%N (keep acc r) (tick d)) as (d' & Hd' & Hs); [done|lia|].
      exists d'. split; [|done].
      eapply runs_bind; [unfold next_line; eapply runs_bind; [by apply runs_attempt|apply runs_ret]|].
      cbn [fst snd]. runs_step. eapply runs_bind; [apply runs_lift|]. runs_step.
      rewrite Hr. cbn. eapply runs_bind; [apply runs_lift|]. exact Hd'.
    + exists (tick d). split; [|done].
      eapply runs_bind; [unfold next_line; eapply runs_bind; [by apply runs_attempt|apply runs_ret]|].
      cbn [fst snd]. runs_step. eapply runs_bind; [apply runs_lift|]. runs_step.
      rewrite Hr. cbn. apply runs_bind_err, runs_lift.
Qed.

Lemma triple_next_line d0 (rest : list string) :
  triple (same_files d0) (next_line p rest) (fun r d => same_files d0 d /\
    forall o ls, r = Ok (o, ls) ->
      match o with
      | None => rest = []
      | Some (Ok l) => rest = l :: ls
      | Some (Err _) => True
      end).
Proof.
  apply triple_attempt_bind; [intros d Hd; by etrans|]. intros [f|]; apply triple_ret; intros d Hd;
    (split; [done|]); intros o ls.
  - by intros [= <- <-].
  - destruct rest; by intros [= <- <-].
Qed.

Lemma triple_read_loop d0 fuel : forall rest n acc,
  length rest < fuel ->
  triple (same_files d0) (read_rows_loop keep p n acc fuel rest)
    (fun r d => same_files d0 d /\ forall rows, r = Ok rows -> rows_of keep p n acc rest = Ok rows).
Proof.
  induction fuel as [|fuel IH]; intros rest n acc Hlt; [lia|]. cbn [read_rows_loop].
  eapply triple_bind; [apply triple_next_line| |by intros e d [Hd _]; split]. intros [o ls]. cbn [fst snd].
  destruct o as [[line|e]|].
  - apply triple_check_bind; [|by intros e d [? _]].
    eapply triple_bind; [apply (triple_lift _ _ (fun r d => r = Ok line /\ same_files d0 d /\ rest = line :: ls))| |].
    { intros d [Hd Hrest]. split; [done|]. split; [done|]. by apply (Hrest (Some (Ok line)) ls). }
    2:{ by intros e d [? _]. }
    intros l. apply triple_check_bind; [|by intros e d (_ & ? & _)].
    intros c k d ([= <-] & Hd & ->). cbn [rows_of]. unfold mbind, mlift.
    destruct (parse_row l) as [r|e]; cbn; [|by split].
    simpl in Hlt. specialize (IH ls (n + 1)%N (keep acc r) ltac:(lia) c k d Hd).
    by destruct (read_rows_loop keep p (n + 1) (keep acc r) fuel ls c k d) as [[res k'] d'].
  - apply triple_check_bind; [|by intros e' d [? _]]. intros c k d [Hd _]. unfold mbind, mlift. by split.
  - apply triple_ret. intros d [Hd Hrest]. split; [done|]. intros rows [= <-].
    by rewrite (Hrest None ls).
Qed.

End LineRuns.

Section Runs.
Context {R : Type} `{RowFormat R}.
Variable p : Path.

Lemma write_rows_succeeds (rows : list R) : succeeds (write_rows_checked p rows).
Proof.
  unfold write_rows_checked, write_temporary, create_dir_all, create_file, temp_path,
    write_line_checked, write_all, flush, rename. succeeds_auto.
Qed.

Variable keep : list R -> R -> list R.

Variable context empty_store unsupported : string.

Definition stored_lines (ls : list string) : Res (list R) :=
  match ls with
  | [] => Err (Format (empty_store +:+ " " +:+ display p))
  | h :: ls => if decide (h <> header) then
                 Err (Format (unsupported +:+ " `" +:+ h +:+ "` in " +:+ display p))
               else rows_of keep p 2 [] ls
  end.

Lemma read_lines_runs ls d :
  healthy d ->
  exists d', runs (read_lines_checked empty_store unsupported keep p ls) d (stored_lines ls) d' /\
    same_files d d'.
Proof.
  intros Hd. unfold read_lines_checked.
  assert (Hnext : forall rest, runs (next_line p rest) d
    (Ok (match rest with [] => (None, []) | l :: rest' => (Some (Ok l), rest') end)) (tick d)).
  { intros rest. unfold next_line. eapply runs_bind; [by apply runs_attempt|apply runs_ret]. }
  destruct ls as [|h ls]; cbn [stored_lines].
  - exists (tick d). split; [|done]. eapply runs_bind; [apply Hnext|]. apply runs_bind_err, runs_lift.
  - destruct (decide (h <> header)) as [Hh|Hh].
    + exists (tick d). split; [|done]. eapply runs_bind; [apply Hnext|]. cbn [fst snd].
      eapply runs_bind; [apply runs_lift|]. runs_step. rewrite decide_True by done. apply runs_fail.
    + destruct (read_loop_runs p keep ls (S (length (h :: ls))) 2%N [] (tick d)) as (d2 & Hr2 & Hs2);
        [done|simpl; lia|].
      exists d2. split; [|done].
      eapply runs_bind; [apply Hnext|]. cbn [fst snd]. eapply runs_bind; [apply runs_lift|]. runs_step.
      rewrite decide_False by done.
      destruct (rows_of keep p 2 [] ls) as [rows|e] eqn:Hrows.
      * eapply runs_bind; [exact Hr2|]. runs_step. apply runs_ret.
      * apply runs_bind_err. exact Hr2.
Qed.

(** Reading a healthy disk gives what its text means. *)
Lemma read_rows_runs d :
  healthy d ->
  exists d', runs (read_rows_checked context empty_store unsupported keep p) d
      (stored_at empty_store unsupported keep p d) d' /\ same_files d d'.
Proof.
  intros Hd. unfold read_rows_checked, stored_at.
  destruct (files d !! p) as [text|] eqn:Ht.
  2:{ exists (tick d). split; [|done]. runs_step.
      eapply runs_bind; [unfold path_exists; eapply runs_bind; [by apply runs_attempt|apply runs_gets]|].
      cbn. rewrite Ht. cbn. apply runs_ret. }
  destruct (read_lines_runs (lines text) (tick (tick d))) as (d' & Hr & Hs); [done|].
  exists d'. split; [|done]. runs_step.
  eapply runs_bind; [unfold path_exists; eapply runs_bind; [by apply runs_attempt|apply runs_gets]|].
  cbn. rewrite Ht. cbn. runs_step.
  eapply runs_bind; [|runs_step; exact Hr].
  unfold open_file, io. eapply runs_bind; [eapply runs_bind; [by apply runs_attempt|apply runs_ret]|].
  eapply runs_bind; [apply runs_gets|]. cbn. rewrite Ht. apply runs_ret.
Qed.

(** Reading never writes, and whatever fails on the way, rows that are returned
    are the ones the text means. *)
Definition read_outcome (d0 : Disk) (r : Res (list R)) (d : Disk) : Prop :=
  same_files d0 d /\
  forall rows, r = Ok rows -> stored_at empty_store unsupported keep p d0 = Ok rows.

Lemma triple_read_lines d0 ls :
  triple (same_files d0) (read_lines_checked empty_store unsupported keep p ls)
    (fun r d => same_files d0 d /\ forall rows, r = Ok rows -> stored_lines ls = Ok rows).
Proof.
  unfold read_lines_checked.
  eapply triple_bind; [apply triple_next_line| |by intros e d [? _]; split].
  intros [[[h|e]|] rest]; cbn [fst snd]; [|intros c k d [Hd _]; by cbn..].
  intros c k d [Hd Hl]. specialize (Hl (Some (Ok h)) rest eq_refl). cbn in Hl. subst ls.
  unfold mbind at 1, mlift. revert c k d Hd.
  change (triple (same_files d0) (check_control ;;
    if decide (h <> header) then mfail (Format (unsupported +:+ " `" +:+ h +:+ "` in " +:+ display p))
    else rows <- read_rows_loop keep p 2 [] (S (length (h :: rest))) rest ;
         check_control ;; mret rows)
    (fun r d => same_files d0 d /\ forall rows, r = Ok rows -> stored_lines (h :: rest) = Ok rows)).
  apply triple_check_bind; [|done]. cbn [stored_lines].
  case_decide; [apply triple_fail; by intros d Hd|].
  eapply triple_bind; [apply (triple_read_loop p keep d0); simpl; lia| |by intros e d [? _]].
  intros rows. apply triple_check_bind; [|by intros e d [? _]].
  apply triple_ret. intros d [Hd Hrows]. split; [done|]. intros ? [= <-]. by apply Hrows.
Qed.

Lemma triple_path_exists d0 :
  triple (same_files d0) (path_exists context p) (fun r d => same_files d0 d /\
    forall ex, r = Ok ex -> ex = bool_decide (is_Some (files d0 !! p))).
Proof.
  apply triple_attempt_bind; [intros d Hd; by etrans|]. intros [f|].
  - apply triple_fail. by intros d Hd.
  - intros c k d Hd. cbn. split; [done|]. destruct Hd as (Hf & _). rewrite Hf. by intros ex [= <-].
Qed.

Lemma triple_open_file d0 :
  triple (same_files d0) (open_file p) (fun r d => same_files d0 d /\
    forall t, r = Ok t -> files d0 !! p = Some t).
Proof.
  unfold open_file. eapply triple_bind.
  { apply (triple_io (same_files d0) _ (fun _ => same_files d0)); [intros d Hd; by etrans|done]. }
  2:{ by intros e d Hd; split. }
  intros []. cbn. intros c k d Hd. unfold mbind, mgets. destruct Hd as (Hf & Hd).
  rewrite Hf. destruct (files d0 !! p) as [t|]; cbn; (split; [by split|]); [by intros ? [= <-]|done].
Qed.

Lemma triple_read_rows d0 :
  triple (same_files d0) (read_rows_checked context empty_store unsupported keep p) (read_outcome d0).
Proof.
  assert (Herr : forall e d, same_files d0 d -> read_outcome d0 (Err e) d) by (by intros e d Hd; split).
  unfold read_rows_checked. apply triple_check_bind; [|done].
  eapply triple_bind; [apply triple_path_exists| |by intros e d [? _]; apply Herr].
  intros [|]; cbn [negb].
  2:{ apply triple_ret. intros d [Hd Hex]. split; [done|]. intros rows [= <-].
      specialize (Hex false eq_refl). unfold stored_at. destruct (files d0 !! p); [|done].
      symmetry in Hex. apply bool_decide_eq_false in Hex. by destruct Hex. }
  apply triple_check_bind; [|by intros e d [? _]; apply Herr].
  eapply triple_bind.
  { eapply triple_weaken; [apply triple_open_file|by intros d [? _]|by intros r d Hr; exact Hr]. }
  2:{ intros e d [? _]. by apply Herr. }
  intros text. apply triple_check_bind; [|by intros e d [? _]; apply Herr].
  intros c k d [Hd Ht]. specialize (Ht text eq_refl).
  pose proof (triple_read_lines d0 (lines text) c k d Hd) as Hr.
  destruct (read_lines_checked empty_store unsupported keep p (lines text) c k d) as [[r k'] d'].
  destruct Hr as [Hd' Hr]. split; [done|]. intros rows Hrows. unfold stored_at. rewrite Ht. by apply Hr.
Qed.
End Runs.

(** ** The view of a store as the list of its rows *)
Section View.
Context {R : Type} `{RowFormat R}.
Variable p : Path.
Variable empty_store unsupported : string.

(** The rows of the store at [p], in order. *)
Definition store_rows (d : Disk) : Res (list R) := stored_at empty_store unsupported keep_all p d.

Lemma store_rows_text d rows :
  files d !! p = Some (rows_text rows) -> Forall row_ok rows -> store_rows d = Ok rows.
Proof.
  intros Hd Hok. unfold store_rows, stored_at. rewrite Hd, stored_rows_text by done.
  by rewrite foldl_keep_all.
Qed.

Lemma store_rows_same d0 d : same_files d0 d -> store_rows d = store_rows d0.
Proof. intros (Hf & _). unfold store_rows, stored_at. by rewrite Hf. Qed.

Lemma triple_publish rows d0 :
  Forall row_ok rows ->
  triple (same_files d0) (write_rows_checked p rows)
    (fun r d => match r with
                | Ok _ => store_rows d = Ok rows
                | Err _ => store_rows d = store_rows d0 end).
Proof.
  intros Hok c k d Hd. pose proof (triple_write_rows p rows d c k d eq_refl) as Hw.
  destruct (write_rows_checked p rows c k d) as [[[[]|e] k'] d'].
  - destruct Hw as (_ & _ & _ & Hp & _). by apply store_rows_text.
  - destruct Hw as (_ & _ & _ & Hp). rewrite <- (store_rows_same d0 d Hd).
    unfold store_rows, stored_at. by rewrite Hp.
Qed.

(** What a publication at [p] cannot touch. *)
Definition frame (d0 d : Disk) : Prop :=
  forall q, q <> p -> q <> temp_of p d0 -> files d !! q = files d0 !! q.
Lemma frame_same d0 d : same_files d0 d -> frame d0 d.
Proof. intros (Hf & _) q _ _. by rewrite Hf. Qed.
Lemma triple_write_frame rows d0 :
  triple (same_files d0) (write_rows_checked p rows) (fun _ d => frame d0 d).
Proof.
  intros c k d (Hf & Hp & Hx & Hs). pose proof (triple_write_rows p rows d c k d eq_refl) as Hw.
  destruct (write_rows_checked p rows c k d) as [[r k'] d']. destruct Hw as (Hfr & _).
  intros q Hq Hqt. rewrite Hfr; [by rewrite Hf|done|].
  replace (temp_of p d) with (temp_of p d0); [done|]. unfold temp_of, sequence. by rewrite Hp, Hs.
Qed.

(** *** Operations that read the store, decide, and publish once *)
Variable context : string.

Lemma triple_read_then {B} (f : list R -> M Disk B) Q d0 rows :
  store_rows d0 = Ok rows ->
  triple (same_files d0) (f rows) Q -> (forall e d, same_files d0 d -> Q (Err e) d) ->
  triple (same_files d0)
    (snaps <- read_rows_checked context empty_store unsupported keep_all p ; check_control ;; f snaps) Q.
Proof.
  intros Hrows Hf He. eapply triple_bind; [apply triple_read_rows| |by intros e d [? _]; apply He].
  intros rows'. intros c k d [Hd Hr]. specialize (Hr rows' eq_refl).
  unfold store_rows in Hrows. rewrite Hrows in Hr. injection Hr as <-.
  revert c k d Hd. apply triple_check_bind; [exact Hf|exact He].
Qed.

Lemma triple_publish_then {B} rows (b : B) Q d0 :
  Forall row_ok rows ->
  (forall d, store_rows d = Ok rows -> Q (Ok b) d /\ forall e, Q (Err e) d) ->
  (forall e d, store_rows d = store_rows d0 -> Q (Err e) d) ->
  triple (same_files d0) (check_control ;; write_rows_checked p rows ;; check_control ;; mret b) Q.
Proof.
  intros Hok Hq He.
  apply triple_check_bind; [|intros e d Hd; by apply He, store_rows_same].
  eapply triple_bind; [by apply triple_publish| |by intros e d Hd; apply He].
  intros []. apply triple_check_bind; [|intros e d Hd; by apply Hq].
  apply triple_ret. intros d Hd. by apply Hq.
Qed.

Lemma read_then_succeeds {B} (f : list R -> M Disk B) d0 rows :
  healthy d0 -> store_rows d0 = Ok rows -> succeeds (f rows) ->
  exists b d', run (snaps <- read_rows_checked context empty_store unsupported keep_all p ;
    check_control ;; f snaps) never d0 = (Ok b, d').
Proof.
  intros Hh Hrows Hf.
  destruct (read_rows_runs p keep_all context empty_store unsupported d0 Hh) as (d & Hr & Hs).
  destruct (Hf d (same_files_healthy _ _ Hs Hh)) as (b & d' & Hb & _).
  exists b, d'. apply runs_run. unfold store_rows in Hrows. rewrite Hrows in Hr.
  eapply runs_bind; [exact Hr|]. runs_step. exact Hb.
Qed.

Lemma publish_then_succeeds {B} rows (b : B) :
  succeeds (check_control ;; write_rows_checked p rows ;; check_control ;; mret b).
Proof.
  apply succeeds_bind; [apply succeeds_check|]. intros _.
  apply succeeds_bind; [apply write_rows_succeeds|]. intros _.
  apply succeeds_bind; [apply succeeds_check|]. intros _. apply succeeds_ret.
Qed.

(** An operation that succeeds on a healthy disk, and whose outcome is known. *)
Lemma succeeds_run {A} (m : M Disk A) d : succeeds m -> healthy d ->
  exists a d', run m never d = (Ok a, d').
Proof. intros Hm Hd. destruct (Hm d Hd) as (a & d' & Hr & _). exists a, d'. by apply runs_run. Qed.
End View.
