(* ===== verification/Progress.v ===== *)
(** * Job progress ([crates/jobs/src/progress.rs])

    Snapshots of the progress of jobs, the commands a user gives them, and the
    store that keeps one row per job in a file it replaces as a whole. *)
From Stdlib Require Import Ascii.
From S2P Require Import Prelude Types Text Control JobModel Files.
#[local] Open Scope string_scope.
#[local] Open Scope list_scope.

(** ** Data *)
Inductive JobProgressState : Type :=
  | Planned | Running | PausedState | CompletedState | CancelledState | FailedState.

#[export] Instance JobProgressState_eq_dec : EqDecision JobProgressState.
Proof. solve_decision. Defined.

Definition JobProgressState_as_str (s : JobProgressState) : string :=
  match s with
  | Planned => "planned"
  | Running => "running"
  | PausedState => "paused"
  | CompletedState => "completed"
  | CancelledState => "cancelled"
  | FailedState => "failed"
  end.
Definition JobProgressState_parse (value : string) : option JobProgressState :=
  if decide (value = "planned") then Some Planned
  else if decide (value = "running") then Some Running
  else if decide (value = "paused") then Some PausedState
  else if decide (value = "completed") then Some CompletedState
  else if decide (value = "cancelled") then Some CancelledState
  else if decide (value = "failed") then Some FailedState
  else None.
Definition restorable (s : JobProgressState) : bool :=
  match s with Planned | Running | PausedState => true | _ => false end.

#[export] Instance JobProgressState_text : TextEnum JobProgressState.
Proof.
  refine {| as_str := JobProgressState_as_str; parse := JobProgressState_parse |}.
  - by intros [].
  - intros c a Hc. set_unfold in Hc. destruct a; by destruct_or? Hc; subst.
Defined.

Inductive JobProgressCommand : Type := Pause | Resume | Stop.
Definition JobProgressCommand_as_str (c : JobProgressCommand) : string :=
  match c with Pause => "pause" | Resume => "resume" | Stop => "stop" end.
Definition JobProgressCommand_parse (value : string) : option JobProgressCommand :=
  if decide (value = "pause") then Some Pause
  else if decide (value = "resume") then Some Resume
  else if decide (value = "stop") then Some Stop
  else None.

(** [impl From<&TaskStatus> for JobProgressState]. *)
Definition JobProgressState_from (s : TaskStatus) : JobProgressState :=
  match s with
  | Started => Running
  | Completed => CompletedState
  | CancelledStatus => CancelledState
  | Failed _ => FailedState
  end.

Record JobProgressSnapshot : Type := mkSnapshot {
  snap_id : JobId;
  snap_class : JobClass;
  snap_priority : Priority;
  snap_label : string;
  snap_volume : option VolumeId;
  snap_state : JobProgressState;
  completed_units : N;
  total_units : N;
  detail : string;
  updated_ms : N
}.

#[export] Instance JobProgressSnapshot_eq_dec : EqDecision JobProgressSnapshot.
Proof. solve_decision. Defined.

Definition new_snapshot (id : JobId) (c : JobClass) (p : Priority) (lbl : string)
    (v : option VolumeId) (total : N) : JobProgressSnapshot :=
  mkSnapshot id c p lbl v Planned 0 total "" 0.
Definition with_progress (s : JobProgressSnapshot) (st : JobProgressState) (units : N) (d : string)
    (ms : N) : JobProgressSnapshot :=
  mkSnapshot (snap_id s) (snap_class s) (snap_priority s) (snap_label s) (snap_volume s) st
    (N.min units (total_units s)) (total_units s) d ms.
(** The fields a command or a restore assigns. *)
Definition set_state (st : JobProgressState) (d : string) (ms : N) (s : JobProgressSnapshot)
    : JobProgressSnapshot :=
  mkSnapshot (snap_id s) (snap_class s) (snap_priority s) (snap_label s) (snap_volume s) st
    (completed_units s) (total_units s) d ms.

(** ** Text form *)
Definition snapshot_as_tsv (s : JobProgressSnapshot) : string :=
  join (String TAB "") ["progress"; u64_to_string (snap_id s); as_str (snap_class s);
    as_str (snap_priority s); escape (snap_label s); format_volume (snap_volume s);
    as_str (snap_state s); u64_to_string (completed_units s); u64_to_string (total_units s);
    escape (detail s); u64_to_string (updated_ms s)].

Definition parse_snapshot (line : string) : Result JobProgressSnapshot string :=
  match split_on TAB line with
  | [p0; p1; p2; p3; p4; p5; p6; p7; p8; p9; p10] =>
      if decide (p0 <> "progress") then Err ("expected progress row, got `" +:+ p0 +:+ "`")
      else
        let? id := parse_field "progress job id" p1 in
        let? c := ok_or_else (parse p2) ("invalid job class `" +:+ p2 +:+ "`") in
        let? pr := ok_or_else (parse p3) ("invalid priority `" +:+ p3 +:+ "`") in
        let? lbl := unescape p4 in
        let? vol := parse_volume "progress volume id" p5 in
        let? st := ok_or_else (parse p6) ("invalid progress state `" +:+ p6 +:+ "`") in
        let? cu := parse_field "completed units" p7 in
        let? tu := parse_field "total units" p8 in
        let? d := unescape p9 in
        let? ms := parse_field "updated ms" p10 in
        Ok (mkSnapshot id c pr lbl vol st cu tu d ms)
  | parts => Err (expected_fields "11" parts)
  end.

Definition snapshot_ok (s : JobProgressSnapshot) : Prop :=
  u64_ok (snap_id s) /\ volume_ok (snap_volume s) /\ u64_ok (completed_units s) /\
  u64_ok (total_units s) /\ u64_ok (updated_ms s).

Lemma snapshot_as_tsv_line s : line_ok (snapshot_as_tsv s).
Proof. split; apply join_plain; try done; plain_fields. Qed.

Lemma parse_snapshot_as_tsv s : snapshot_ok s -> parse_snapshot (snapshot_as_tsv s) = Ok s.
Proof.
  intros (H1 & H2 & H3 & H4 & H5). unfold parse_snapshot, snapshot_as_tsv.
  rewrite split_on_join_tab; [|done|plain_fields].
  rewrite decide_False by (intros Hn; by apply Hn).
  rewrite parse_field_ok by done. cbn [result_bind].
  rewrite !parse_as_str. cbn [ok_or_else result_bind].
  rewrite !unescape_escape, parse_volume_format by done. cbn [result_bind].
  rewrite !parse_field_ok by done. cbn [result_bind]. by destruct s.
Qed.

#[export] Instance progress_lines : LineFormat JobProgressSnapshot :=
  {| as_tsv := snapshot_as_tsv; parse_row := parse_snapshot; row_ok := snapshot_ok;
     as_tsv_line := snapshot_as_tsv_line; parse_as_tsv := parse_snapshot_as_tsv |}.
#[export] Instance progress_format : RowFormat JobProgressSnapshot :=
  {| header := "gfm-job-progress-v1"; counter := "jobs::progress"; header_line := conj eq_refl eq_refl |}.

(** ** Commands *)
Definition command_detail (prefix previous : string) : string :=
  if decide (previous = "") then prefix else prefix +:+ ":" +:+ previous.

Definition terminal_command_error (s : JobProgressSnapshot) (c : JobProgressCommand) : GfmError :=
  Format ("cannot " +:+ JobProgressCommand_as_str c +:+ " job " +:+ u64_to_string (snap_id s) +:+
          " from " +:+ JobProgressState_as_str (snap_state s) +:+ " progress state").

(** The flag is whether the snapshot changed. *)
Definition apply_progress_command (s : JobProgressSnapshot) (c : JobProgressCommand) (ms : N)
    : Res (bool * JobProgressSnapshot) :=
  match c with
  | Pause =>
      match snap_state s with
      | CompletedState | CancelledState | FailedState => Err (terminal_command_error s c)
      | st =>
          if bool_decide (st = PausedState) && starts_with "paused-by-user" (detail s)
          then Ok (false, s)
          else Ok (true, set_state PausedState (command_detail "paused-by-user" (detail s)) ms s)
      end
  | Resume =>
      if decide (snap_state s <> PausedState) then
        Err (Format ("cannot resume job " +:+ u64_to_string (snap_id s) +:+ " from " +:+
               JobProgressState_as_str (snap_state s) +:+ " progress state"))
      else Ok (true, set_state Running (command_detail "resumed-by-user" (detail s)) ms s)
  | Stop =>
      if negb (restorable (snap_state s)) then Err (terminal_command_error s c)
      else Ok (true, set_state CancelledState (command_detail "cancelled-by-user" (detail s)) ms s)
  end.

(** ** The store *)
Definition EMPTY_STORE : string := "empty job progress store".
Definition BAD_HEADER : string := "unsupported job progress header".

Definition write_all_checked (p : Path) (snaps : list JobProgressSnapshot) : M Disk unit :=
  write_rows_checked p snaps.

Definition read_filtered_checked (f : JobProgressSnapshot -> bool) (p : Path)
    : M Disk (list JobProgressSnapshot) :=
  read_rows_checked "job progress store" EMPTY_STORE BAD_HEADER
    (fun acc s => if f s then acc ++ [s] else acc) p.
Definition read_checked (p : Path) : M Disk (list JobProgressSnapshot) :=
  read_rows_checked "job progress store" EMPTY_STORE BAD_HEADER keep_all p.
Definition restorable_checked (p : Path) : M Disk (list JobProgressSnapshot) :=
  read_filtered_checked (fun s => restorable (snap_state s)) p.

(** [iter_mut().find(..)] and an assignment through it. *)
Fixpoint find_snapshot (id : JobId) (l : list JobProgressSnapshot) : option JobProgressSnapshot :=
  match l with
  | [] => None
  | s :: l' => if decide (snap_id s = id) then Some s else find_snapshot id l'
  end.
Fixpoint assign_snapshot (id : JobId) (new : JobProgressSnapshot) (l : list JobProgressSnapshot)
    : list JobProgressSnapshot :=
  match l with
  | [] => []
  | s :: l' => if decide (snap_id s = id) then new :: l' else s :: assign_snapshot id new l'
  end.

Definition upsert_checked (p : Path) (s : JobProgressSnapshot) : M Disk bool :=
  snaps <- read_checked p ;
  check_control ;;
  match find_snapshot (snap_id s) snaps with
  | Some existing =>
      if decide (existing = s) then mret false
      else
        check_control ;;
        write_all_checked p (sort_by_key snap_id (assign_snapshot (snap_id s) s snaps)) ;;
        check_control ;; mret true
  | None =>
      check_control ;;
      write_all_checked p (sort_by_key snap_id (snaps ++ [s])) ;;
      check_control ;; mret true
  end.

(** The loop body of [restore_interrupted_checked]. *)
Definition interrupted (ms : N) (s : JobProgressSnapshot) : JobProgressSnapshot :=
  match snap_state s with
  | Planned | Running =>
      let previous := JobProgressState_as_str (snap_state s) in
      set_state PausedState
        (if decide (detail s = "") then "interrupted:" +:+ previous
         else "interrupted:" +:+ previous +:+ ":" +:+ detail s) ms s
  | _ => s
  end.
Definition was_running (s : JobProgressSnapshot) : bool :=
  match snap_state s with Planned | Running => true | _ => false end.

Definition restore_one (ms : N) (acc : list JobProgressSnapshot * bool) (s : JobProgressSnapshot)
    : M Disk (list JobProgressSnapshot * bool) :=
  check_control ;; mret (acc.1 ++ [interrupted ms s], acc.2 || was_running s).

Definition restore_interrupted_checked (p : Path) (ms : N) : M Disk (list JobProgressSnapshot) :=
  snaps <- read_checked p ;
  check_control ;;
  (r <- mfor (restore_one ms) ([], false) snaps ;
   (if r.2 then check_control ;; write_all_checked p r.1 ;; check_control else mret tt) ;;
   mret (filter (fun s => restorable (snap_state s) = true) r.1)).

Definition apply_command_checked (p : Path) (id : JobId) (c : JobProgressCommand) (ms : N)
    : M Disk JobProgressSnapshot :=
  snaps <- read_checked p ;
  check_control ;;
  match find_snapshot id snaps with
  | None => mfail (Format ("job progress store " +:+ display p +:+ " does not contain job " +:+
                           u64_to_string id))
  | Some s =>
      r <- mlift (apply_progress_command s c ms) ;
      if negb r.1 then mret s
      else
        check_control ;;
        write_all_checked p (assign_snapshot id r.2 snaps) ;;
        check_control ;; mret r.2
  end.

(** The wrappers without a control: [f_checked(.., || Ok(()))]. *)
Definition write_all_snapshots (p : Path) (snaps : list JobProgressSnapshot) : Disk -> Res unit * Disk :=
  run (write_all_checked p snaps) never.
Definition upsert (p : Path) (s : JobProgressSnapshot) : Disk -> Res bool * Disk :=
  run (upsert_checked p s) never.
Definition restore_interrupted (p : Path) (ms : N) : Disk -> Res (list JobProgressSnapshot) * Disk :=
  run (restore_interrupted_checked p ms) never.
Definition apply_command (p : Path) (id : JobId) (c : JobProgressCommand) (ms : N)
    : Disk -> Res JobProgressSnapshot * Disk := run (apply_command_checked p id c ms) never.

(** ** The contract of the store, on lists of rows *)

Definition stored_snapshots (p : Path) (d : Disk) : Res (list JobProgressSnapshot) :=
  store_rows p EMPTY_STORE BAD_HEADER d.

Definition spec_upsert (s : JobProgressSnapshot) (rows : list JobProgressSnapshot)
    : bool * list JobProgressSnapshot :=
  match find_snapshot (snap_id s) rows with
  | Some existing => if decide (existing = s) then (false, rows)
                     else (true, sort_by_key snap_id (assign_snapshot (snap_id s) s rows))
  | None => (true, sort_by_key snap_id (rows ++ [s]))
  end.
Definition spec_command (c : JobProgressCommand) (ms : N) (s : JobProgressSnapshot)
    (rows : list JobProgressSnapshot) : Res (JobProgressSnapshot * list JobProgressSnapshot) :=
  let? r := apply_progress_command s c ms in
  Ok (if r.1 then (r.2, assign_snapshot (snap_id s) r.2 rows) else (s, rows)).

(** An operation over rows: what it returns and stores on success; on an error
    the store is the old one, or already the new one when the poll after the
    rename was the one that failed. *)
Definition refines {B} (p : Path) (rows rows' : list JobProgressSnapshot) (b : B)
    (r : Res B) (d : Disk) : Prop :=
  match r with
  | Ok b' => b' = b /\ stored_snapshots p d = Ok rows'
  | Err _ => stored_snapshots p d = Ok rows \/ stored_snapshots p d = Ok rows'
  end.

Lemma find_snapshot_some id rows s :
  find_snapshot id rows = Some s -> s ∈ rows /\ snap_id s = id.
Proof.
  induction rows as [|x rows IH]; cbn; [done|]. case_decide.
  - intros [= <-]. split; [left|done].
  - intros [Hin Hid]%IH. split; [by right|done].
Qed.
Lemma find_snapshot_none id rows s : find_snapshot id rows = None -> s ∈ rows -> snap_id s <> id.
Proof.
  induction rows as [|x rows IH]; cbn; [set_solver|]. case_decide; [done|].
  intros Hn [->|Hin]%elem_of_cons; auto.
Qed.
Lemma assign_snapshot_ok id s rows :
  snapshot_ok s -> Forall snapshot_ok rows -> Forall snapshot_ok (assign_snapshot id s rows).
Proof. intros Hs. induction 1 as [|x rows Hx Hrows IH]; cbn; [constructor|]. case_decide; by constructor. Qed.
Lemma assign_snapshot_elem id s rows x :
  x ∈ assign_snapshot id s rows -> x = s \/ x ∈ rows.
Proof. induction rows as [|y rows IH]; cbn; [set_solver|]. case_decide; set_solver. Qed.
Lemma assign_snapshot_ids id s rows :
  snap_id s = id -> snap_id <$> assign_snapshot id s rows = snap_id <$> rows.
Proof.
  intros Hid. induction rows as [|y rows IH]; cbn; [done|]. case_decide as Hy; cbn; [by rewrite Hid, <- Hy|].
  by f_equal.
Qed.
Lemma sort_ok rows : Forall snapshot_ok rows -> Forall snapshot_ok (sort_by_key snap_id rows).
Proof. intros H. by rewrite sort_by_key_perm. Qed.

Lemma set_state_ok st d ms s : u64_ok ms -> snapshot_ok s -> snapshot_ok (set_state st d ms s).
Proof. intros Hms (H1 & H2 & H3 & H4 & _). exact (conj H1 (conj H2 (conj H3 (conj H4 Hms)))). Qed.
Lemma interrupted_ok ms s : u64_ok ms -> snapshot_ok s -> snapshot_ok (interrupted ms s).
Proof. intros Hms Hs. unfold interrupted. destruct (snap_state s); try done; by apply set_state_ok. Qed.
Lemma command_ok s c ms r : u64_ok ms -> snapshot_ok s ->
  apply_progress_command s c ms = Ok r -> snapshot_ok r.2.
Proof.
  intros Hms Hs. unfold apply_progress_command.
  destruct c; repeat case_match; try done; intros [= <-]; cbn; auto using set_state_ok.
Qed.

#[local] Hint Resolve assign_snapshot_ok sort_ok set_state_ok interrupted_ok : gfm.

Lemma refines_publish {B} p rows rows' (b : B) d0 :
  stored_snapshots p d0 = Ok rows -> Forall snapshot_ok rows' ->
  triple (same_files d0) (check_control ;; write_all_checked p rows' ;; check_control ;; mret b)
    (refines p rows rows' b).
Proof.
  intros Hrows Hok. unfold write_all_checked.
  apply (triple_publish_then p EMPTY_STORE BAD_HEADER); [done|..].
  - intros d Hd. split; [by split|]. intros e. by right.
  - intros e d Hd. left. unfold stored_snapshots in *. by rewrite Hd.
Qed.

Lemma refines_same {B} p rows (b : B) d0 d :
  stored_snapshots p d0 = Ok rows -> same_files d0 d -> refines p rows rows b (Ok b) d.
Proof. intros Hrows Hd. split; [done|]. unfold stored_snapshots in *. by rewrite (store_rows_same _ _ _ d0). Qed.
Lemma refines_err {B} p rows rows' (b : B) e d0 d :
  stored_snapshots p d0 = Ok rows -> same_files d0 d -> refines p rows rows' b (Err e) d.
Proof. intros Hrows Hd. left. unfold stored_snapshots in *. by rewrite (store_rows_same _ _ _ d0). Qed.

Lemma upsert_body_refines p s rows d0 :
  stored_snapshots p d0 = Ok rows -> Forall snapshot_ok rows -> snapshot_ok s ->
  triple (same_files d0) (upsert_checked p s)
    (refines p rows (spec_upsert s rows).2 (spec_upsert s rows).1).
Proof.
  intros Hrows Hok Hs. apply (triple_read_then p EMPTY_STORE BAD_HEADER) with (rows := rows); [done| |
    intros e d Hd; by eapply refines_err].
  unfold spec_upsert. destruct (find_snapshot (snap_id s) rows) as [x|].
  - case_decide.
    + apply triple_ret. intros d Hd. by eapply refines_same.
    + apply refines_publish; [done|]. by apply sort_ok, assign_snapshot_ok.
  - apply refines_publish; [done|]. apply sort_ok, Forall_app. by split; [|constructor].
Qed.


Definition still_restorable (rows : list JobProgressSnapshot) : list JobProgressSnapshot :=
  filter (fun s => restorable (snap_state s) = true) rows.

Lemma interrupted_idle ms s : was_running s = false -> interrupted ms s = s.
Proof. unfold was_running, interrupted. by destruct (snap_state s). Qed.
Lemma interrupted_all_idle ms rows : existsb was_running rows = false -> interrupted ms <$> rows = rows.
Proof.
  induction rows as [|s rows IH]; [done|]. cbn. intros [Hs Hr]%orb_false_iff.
  by rewrite interrupted_idle, IH.
Qed.

(** The loop marks every snapshot, polling before each. *)
Lemma triple_restore_loop P ms snaps :
  triple P (mfor (restore_one ms) ([], false) snaps)
    (fun r d => P d /\ forall a, r = Ok a -> a = (interrupted ms <$> snaps, existsb was_running snaps)).
Proof.
  eapply triple_weaken; [apply (triple_for _ (fun acc pre d => P d /\
    acc = (interrupted ms <$> pre, existsb was_running pre)) (fun _ => P) snaps [])| |].
  - intros b pre s. apply triple_check_bind; [|by intros e d [? _]].
    apply triple_ret. intros d [Hd ->]. split; [done|]. cbn [fst snd].
    rewrite fmap_app, existsb_app. cbn [existsb]. by rewrite orb_false_r.
  - by intros d Hd.
  - intros [a|e] d; cbn; [intros [Hd ->]; split; [done|]; by intros ? [= <-]|by intros Hd].
Qed.

Lemma restore_refines_triple p ms rows d0 :
  stored_snapshots p d0 = Ok rows -> Forall snapshot_ok rows -> u64_ok ms ->
  triple (same_files d0) (restore_interrupted_checked p ms)
    (refines p rows (interrupted ms <$> rows) (still_restorable (interrupted ms <$> rows))).
Proof.
  intros Hrows Hok Hms. apply (triple_read_then p EMPTY_STORE BAD_HEADER) with (rows := rows); [done| |
    intros e d Hd; by eapply refines_err].
  eapply triple_bind; [apply triple_restore_loop| |intros e d [Hd _]; by eapply refines_err].
  intros a c k d [Hd Ha]. specialize (Ha a eq_refl). subst a. cbn [fst snd].
  revert c k d Hd. destruct (existsb was_running rows) eqn:Hrun.
  - pose proof (refines_publish p rows (interrupted ms <$> rows)
      (still_restorable (interrupted ms <$> rows)) d0 Hrows) as Hp.
    assert (Hok' : Forall snapshot_ok (interrupted ms <$> rows)).
    { apply Forall_fmap. eapply Forall_impl; [exact Hok|]. intros s. by apply interrupted_ok. }
    intros c k d Hd. specialize (Hp Hok' c k d Hd). revert Hp.
    unfold mbind, check_control. destruct (c k); [done|].
    destruct (write_all_checked p (interrupted ms <$> rows) c (S k) d) as [[[[]|e] k1] d1]; [|done].
    by destruct (c k1).
  - rewrite interrupted_all_idle by done.
    intros c k d Hd. cbn. by eapply refines_same.
Qed.

Lemma command_refines_triple p id c ms rows d0 s new :
  stored_snapshots p d0 = Ok rows -> Forall snapshot_ok rows -> u64_ok ms ->
  find_snapshot id rows = Some s -> spec_command c ms s rows = Ok new ->
  triple (same_files d0) (apply_command_checked p id c ms) (refines p rows new.2 new.1).
Proof.
  intros Hrows Hok Hms Hfind Hspec.
  apply (triple_read_then p EMPTY_STORE BAD_HEADER) with (rows := rows); [done| |
    intros e d Hd; by eapply refines_err].
  rewrite Hfind. unfold spec_command in Hspec.
  destruct (find_snapshot_some id rows s Hfind) as [Hin Hid].
  destruct (apply_progress_command s c ms) as [r|e] eqn:Hr; [|done]. cbn in Hspec. injection Hspec as <-.
  intros k j d Hd. unfold mbind at 1, mlift. revert k j d Hd.
  destruct r as [[] s']; cbn [fst snd negb].
  - rewrite Hid. apply refines_publish; [done|]. apply assign_snapshot_ok; [|done].
    apply (command_ok s c ms (true, s')); [done| |done]. by eapply Forall_forall in Hok.
  - apply triple_ret. intros d Hd. by eapply refines_same.
Qed.

Lemma command_fails_triple p id c ms rows d0 :
  stored_snapshots p d0 = Ok rows ->
  match find_snapshot id rows with
  | None => True
  | Some s => exists e, apply_progress_command s c ms = Err e
  end ->
  triple (same_files d0) (apply_command_checked p id c ms)
    (fun r d => (exists e, r = Err e) /\ same_files d0 d).
Proof.
  intros Hrows Hf. apply (triple_read_then p EMPTY_STORE BAD_HEADER) with (rows := rows); [done| |
    intros e d Hd; by split; [exists e|]].
  destruct (find_snapshot id rows) as [s|].
  - destruct Hf as [e He]. rewrite He. intros k j d Hd. cbn. split; [by exists e|done].
  - apply triple_fail. intros d Hd. split; [by eexists|done].
Qed.

(** ** Properties *)

(** a snapshot written to its line reads back as it was, and the line has no
    line break whatever the label and the detail hold. *)
Theorem snapshot_roundtrip (s : JobProgressSnapshot) (Hs : snapshot_ok s) :
  parse_snapshot (snapshot_as_tsv s) = Ok s /\ line_ok (snapshot_as_tsv s).
Proof. split; [by apply parse_snapshot_as_tsv|apply snapshot_as_tsv_line]. Qed.

(** the state machine of the user commands: a command is accepted only in a
    restorable state, moves to the state it names, changes nothing but the state,
    the detail and the time, and keeps the old detail after its prefix; pausing a
    job the user paused already changes nothing; completed, cancelled and failed
    jobs accept no command, and only a paused job resumes. *)
Theorem command_transitions (s : JobProgressSnapshot) (c : JobProgressCommand) (ms : N) :
  let target := match c with Pause => PausedState | Resume => Running | Stop => CancelledState end in
  match apply_progress_command s c ms with
  | Ok (changed, s') =>
      restorable (snap_state s) = true /\ (c = Resume -> snap_state s = PausedState) /\
      snap_state s' = target /\ s' = set_state (snap_state s') (detail s') (updated_ms s') s /\
      if changed then
        updated_ms s' = ms /\
        detail s' = command_detail (match c with Pause => "paused-by-user"
          | Resume => "resumed-by-user" | Stop => "cancelled-by-user" end) (detail s) /\
        forall ms', c = Pause -> apply_progress_command s' Pause ms' = Ok (false, s')
      else s' = s /\ c = Pause
  | Err _ => restorable (snap_state s) = false \/ c = Resume /\ snap_state s <> PausedState
  end.
Proof.
  assert (Hpre : forall d, starts_with "paused-by-user" (command_detail "paused-by-user" d) = true).
  { intros d. unfold command_detail. case_decide; [done|]. apply starts_with_app. }
  destruct s as [id cl pr lbl vol st cu tu d ms0]. unfold apply_progress_command, set_state.
  destruct c, st; cbn -[starts_with bool_decide command_detail]; try (by left); try (by right);
    rewrite ?(bool_decide_eq_false_2 (Planned = PausedState)),
      ?(bool_decide_eq_false_2 (Running = PausedState)),
      ?(bool_decide_eq_true_2 (PausedState = PausedState)) by done; cbn [andb];
    try (by split_and!); try (destruct (starts_with "paused-by-user" d); [by split_and!|]);
    split_and!; try done; intros ms' Hc; try done; cbn -[starts_with bool_decide command_detail];
    rewrite ?bool_decide_eq_true_2 by done; by rewrite Hpre.
Qed.

Lemma sorted_unique_find rows s :
  NoDup (snap_id <$> rows) -> s ∈ rows -> find_snapshot (snap_id s) rows = Some s.
Proof.
  induction rows as [|x rows IH]; [set_solver|]. rewrite fmap_cons, NoDup_cons. intros [Hx Hnd].
  cbn. intros [->|Hin]%elem_of_cons; [by rewrite decide_True|].
  rewrite decide_False; [auto|]. intros Heq. apply Hx. rewrite Heq. by apply list_elem_of_fmap_2.
Qed.

Lemma spec_upsert_elem s rows x :
  NoDup (snap_id <$> rows) ->
  x ∈ (spec_upsert s rows).2 <-> x = s \/ x ∈ rows /\ snap_id x <> snap_id s.
Proof.
  intros Hnd. unfold spec_upsert. destruct (find_snapshot (snap_id s) rows) as [y|] eqn:Hf.
  - apply find_snapshot_some in Hf as Hy. destruct Hy as [Hy Hid].
    assert (Hassign : forall x, x ∈ assign_snapshot (snap_id s) s rows <->
      x = s \/ x ∈ rows /\ snap_id x <> snap_id s).
    { clear Hf. revert Hnd Hy Hid. clear. induction rows as [|z rows IH]; [set_solver|].
      rewrite fmap_cons, NoDup_cons. intros [Hz Hnd] Hy Hid x. cbn. case_decide as Hd.
      - rewrite !elem_of_cons. split; [|naive_solver]. intros [->|Hx]; [by left|right].
        split; [by right|]. intros Hxs. apply Hz. rewrite Hd, <- Hxs. by apply list_elem_of_fmap_2.
      - apply elem_of_cons in Hy as [->|Hy]; [done|]. specialize (IH Hnd Hy Hid x).
        rewrite !elem_of_cons, IH. naive_solver. }
    case_decide as Hys; cbn; [|by rewrite sort_by_key_elem].
    subst y. split; [|naive_solver]. intros Hx. destruct (decide (snap_id x = snap_id s)) as [He|]; [left|by right].
    pose proof (sorted_unique_find rows x Hnd Hx) as Hx'. rewrite He in Hx'. congruence.
  - cbn. rewrite sort_by_key_elem, elem_of_app, list_elem_of_singleton.
    split; [|naive_solver]. intros [Hx| ->]; [right|by left]. split; [done|]. by eapply find_snapshot_none.
Qed.

Lemma write_all_then_succeeds {B} p snaps (b : B) :
  succeeds (check_control ;; write_all_checked p snaps ;; check_control ;; mret b).
Proof. exact (publish_then_succeeds p snaps b). Qed.

Lemma upsert_succeeds p s rows d :
  healthy d -> stored_snapshots p d = Ok rows ->
  exists b d', run (upsert_checked p s) never d = (Ok b, d').
Proof.
  intros Hh Hrows. eapply (read_then_succeeds p EMPTY_STORE BAD_HEADER); [exact Hh|exact Hrows|].
  destruct (find_snapshot (snap_id s) rows); [case_decide|].
  - apply succeeds_ret.
  - apply write_all_then_succeeds.
  - apply write_all_then_succeeds.
Qed.

(** inserting a snapshot: on success exactly the snapshot of that job is added
    or replaced and the answer says whether the store changed; on an error the
    store still holds the old rows, or already the new ones when only the poll
    after the rename failed; and on a healthy disk with no interruption it
    succeeds. *)
Theorem upsert_refines (p : Path) (s : JobProgressSnapshot) (rows : list JobProgressSnapshot)
    (c : Control) (d : Disk)
    (Hrows : stored_snapshots p d = Ok rows) (Hok : Forall snapshot_ok rows) (Hs : snapshot_ok s)
    (Hids : NoDup (snap_id <$> rows)) :
  let '(r, d') := run (upsert_checked p s) c d in
  refines p rows (spec_upsert s rows).2 (spec_upsert s rows).1 r d' /\
  (forall x, x ∈ (spec_upsert s rows).2 <-> x = s \/ x ∈ rows /\ snap_id x <> snap_id s) /\
  ((spec_upsert s rows).1 = false -> (spec_upsert s rows).2 = rows) /\
  (healthy d -> c = never -> exists b, r = Ok b).
Proof.
  destruct (run (upsert_checked p s) c d) as [r d'] eqn:Hrun. split_and!.
  - apply (triple_run _ _ _ _ _ _ _ (upsert_body_refines p s rows d Hrows Hok Hs)
      (reflexivity d) Hrun).
  - intros x. by apply spec_upsert_elem.
  - unfold spec_upsert. repeat case_match; done.
  - intros Hh ->. destruct (upsert_succeeds p s rows d Hh Hrows) as (b & d1 & Hb).
    rewrite Hrun in Hb. injection Hb as -> _. by exists b.
Qed.

Lemma interrupted_state ms s :
  snap_state (interrupted ms s) = if was_running s then PausedState else snap_state s.
Proof. unfold interrupted, was_running. by destruct (snap_state s) eqn:Hs; rewrite ?Hs. Qed.

(** restoring interrupted jobs: on success the store holds every snapshot with
    the planned and running ones paused and noted as interrupted, the restorable
    ones are returned in order, and no stored job is left planned or running; a
    second restore then finds nothing to change. *)
Theorem restore_refines (p : Path) (ms : N) (rows : list JobProgressSnapshot) (c : Control) (d : Disk)
    (Hrows : stored_snapshots p d = Ok rows) (Hok : Forall snapshot_ok rows) (Hms : u64_ok ms) :
  let '(r, d') := run (restore_interrupted_checked p ms) c d in
  let after := interrupted ms <$> rows in
  refines p rows after (still_restorable after) r d' /\
  Forall (fun s => snap_state s <> Planned /\ snap_state s <> Running) after /\
  snap_id <$> after = snap_id <$> rows /\
  (forall s, s ∈ still_restorable after -> snap_state s = PausedState) /\
  forall ms', interrupted ms' <$> after = after.
Proof.
  destruct (run (restore_interrupted_checked p ms) c d) as [r d'] eqn:Hrun.
  assert (Hstates : Forall (fun s => snap_state s <> Planned /\ snap_state s <> Running)
    (interrupted ms <$> rows)).
  { apply Forall_fmap, Forall_true. intros s. cbn. rewrite interrupted_state. unfold was_running.
    by destruct (snap_state s). }
  cbn zeta. split_and!.
  - apply (triple_run _ _ _ _ _ _ _ (restore_refines_triple p ms rows d Hrows Hok Hms)
      (reflexivity d) Hrun).
  - done.
  - rewrite <- list_fmap_compose. apply list_fmap_ext. intros _ s _. cbn. unfold interrupted.
    by destruct (snap_state s).
  - intros s [Hs Hin]%list_elem_of_filter. rewrite Forall_forall in Hstates.
    destruct (Hstates s Hin). by destruct (snap_state s).
  - intros ms'. apply interrupted_all_idle. apply not_true_iff_false. intros (s & Hin & Hs)%existsb_exists.
    rewrite Forall_forall in Hstates. destruct (Hstates s) as [H1 H2]; [by apply list_elem_of_In|].
    unfold was_running in Hs. by destruct (snap_state s).
Qed.

(** a user command on a stored job: an unknown job or a command its state
    refuses is an error that leaves the disk untouched; an accepted one stores the
    new snapshot in the place of the old and returns it, and an error then means
    the old rows, or the new ones when the poll after the rename failed. *)
Theorem apply_command_refines (p : Path) (id : JobId) (cmd : JobProgressCommand) (ms : N)
    (rows : list JobProgressSnapshot) (c : Control) (d : Disk)
    (Hrows : stored_snapshots p d = Ok rows) (Hok : Forall snapshot_ok rows) (Hms : u64_ok ms) :
  let '(r, d') := run (apply_command_checked p id cmd ms) c d in
  match find_snapshot id rows with
  | None => (exists e, r = Err e) /\ files d' = files d
  | Some s =>
      snap_id s = id /\
      match spec_command cmd ms s rows with
      | Ok (s', rows') => refines p rows rows' s' r d' /\ snap_id <$> rows' = snap_id <$> rows
      | Err _ => (exists e, r = Err e) /\ files d' = files d
      end
  end.
Proof.
  destruct (run (apply_command_checked p id cmd ms) c d) as [r d'] eqn:Hrun.
  pose proof (command_fails_triple p id cmd ms rows d Hrows) as Hfail.
  pose proof (command_refines_triple p id cmd ms rows d) as Hgood.
  destruct (find_snapshot id rows) as [s|] eqn:Hf.
  - destruct (find_snapshot_some _ _ _ Hf) as [_ Hid]. split; [done|].
    destruct (spec_command cmd ms s rows) as [[s' rows']|e] eqn:Hspec.
    + split; [exact (triple_run _ _ _ _ _ _ _ (Hgood s (s', rows') Hrows Hok Hms eq_refl Hspec)
        (reflexivity d) Hrun)|].
      unfold spec_command in Hspec. destruct (apply_progress_command s cmd ms) as [[[] x]|] eqn:Ha;
        cbn in Hspec; [|by injection Hspec as <- <-|done].
      injection Hspec as <- <-. apply assign_snapshot_ids.
      unfold apply_progress_command in Ha. destruct cmd; repeat case_match; try done; by injection Ha as <-.
    + assert (Herr : exists e, apply_progress_command s cmd ms = Err e).
      { unfold spec_command in Hspec. destruct (apply_progress_command s cmd ms); [done|by eexists]. }
      destruct (triple_run _ _ _ _ _ _ _ (Hfail Herr) (reflexivity d) Hrun) as [He (Hd & _)]. done.
  - destruct (triple_run _ _ _ _ _ _ _ (Hfail I) (reflexivity d) Hrun) as [He (Hd & _)]. done.
Qed.

(** ** Witnesses *)
Definition demo_path : Path := mkPath "/state" "progress.tsv".
Definition demo_running : JobProgressSnapshot :=
  with_progress (new_snapshot 4 BackgroundClass Normal "index" (Some 7%N) 10) Running 3 "step 3" 100.
Definition demo_finished : JobProgressSnapshot :=
  with_progress (new_snapshot 2 ForegroundClass Interactive "copy" None 5) CompletedState 9 "" 90.
Definition demo_rows : list JobProgressSnapshot := [demo_finished; demo_running].
Definition demo_disk : Disk :=
  mkDisk {[demo_path := rows_text demo_rows]} 0 (fun _ => None) ∅ 42.

Lemma demo_rows_ok : Forall snapshot_ok demo_rows.
Proof. repeat constructor. Qed.
Lemma demo_stored : stored_snapshots demo_path demo_disk = Ok demo_rows.
Proof. vm_compute. reflexivity. Qed.
Lemma demo_rows_ids : NoDup (snap_id <$> demo_rows).
Proof. apply (bool_decide_unpack _). vm_compute. exact I. Qed.

Lemma snapshot_roundtrip_witness :
  completed_units demo_finished = 5%N /\ parse_snapshot (snapshot_as_tsv demo_running) = Ok demo_running.
Proof.
  split; [reflexivity|]. refine (proj1 (snapshot_roundtrip demo_running _)). repeat constructor.
Defined.

Definition demo_new : JobProgressSnapshot := new_snapshot 3 RepairClass Normal "repair" None 1.

Lemma upsert_refines_witness :
  exists d', upsert demo_path demo_new demo_disk = (Ok true, d') /\
    stored_snapshots demo_path d' = Ok [demo_finished; demo_new; demo_running].
Proof.
  assert (Hs : snapshot_ok demo_new) by repeat constructor.
  pose proof (upsert_refines demo_path demo_new demo_rows never demo_disk demo_stored demo_rows_ok Hs
    demo_rows_ids) as H.
  unfold upsert. destruct (run (upsert_checked demo_path demo_new) never demo_disk) as [r d'].
  destruct H as (Href & _ & _ & Hlive). destruct (Hlive (fun _ => eq_refl) eq_refl) as [b ->].
  exists d'. destruct Href as [-> Hst]. split; [reflexivity|exact Hst].
Defined.

Lemma restore_refines_witness :
  snap_state <$> (interrupted 200 <$> demo_rows) = [CompletedState; PausedState] /\
  Forall (fun s => snap_state s <> Planned /\ snap_state s <> Running) (interrupted 200 <$> demo_rows).
Proof.
  split; [reflexivity|].
  pose proof (restore_refines demo_path 200 demo_rows never demo_disk demo_stored demo_rows_ok eq_refl) as H.
  destruct (run (restore_interrupted_checked demo_path 200) never demo_disk) as [r d'].
  exact (proj1 (proj2 H)).
Defined.

Lemma apply_command_refines_witness :
  exists e d', apply_command demo_path 2 Resume 200 demo_disk = (Err e, d') /\ files d' = files demo_disk.
Proof.
  pose proof (apply_command_refines demo_path 2 Resume 200 demo_rows never demo_disk demo_stored
    demo_rows_ok eq_refl) as H.
  unfold apply_command.
  destruct (run (apply_command_checked demo_path 2 Resume 200) never demo_disk) as [r d'].
  destruct H as [_ [[e ->] Hd]]. exists e, d'. split; [reflexivity|exact Hd].
Defined.
