(* ===== verification/Catalog.v ===== *)
(** * The payload catalog ([JobPayloadCatalog] of [crates/jobs/src/lib.rs])

    One row per job with what is needed to run it again.  Reading keeps the last
    row of each job, in the place of its first. *)
From S2P Require Import Prelude Types Text Control JobModel Files.
#[local] Open Scope string_scope.
#[local] Open Scope list_scope.

#[export] Instance payload_lines : LineFormat JobPayloadRecord :=
  {| as_tsv := payload_as_tsv; parse_row := parse_payload_record; row_ok := payload_ok;
     as_tsv_line := payload_as_tsv_ok; parse_as_tsv := parse_payload_as_tsv |}.
#[export] Instance payload_format : RowFormat JobPayloadRecord :=
  {| header := "gfm-job-payload-catalog-v1"; counter := "jobs::payload-catalog";
     header_line := conj eq_refl eq_refl |}.

Definition EMPTY_CATALOG : string := "empty payload catalog".
Definition BAD_CATALOG : string := "unsupported payload catalog header".

(** [records[index] = record] at the first record of that id, or a push. *)
Fixpoint put_record (r : JobPayloadRecord) (l : list JobPayloadRecord) : list JobPayloadRecord :=
  match l with
  | [] => [r]
  | x :: l' => if decide (payload_id x = payload_id r) then r :: l' else x :: put_record r l'
  end.
Fixpoint find_record (id : JobId) (l : list JobPayloadRecord) : option JobPayloadRecord :=
  match l with
  | [] => None
  | x :: l' => if decide (payload_id x = id) then Some x else find_record id l'
  end.

(** The body of the read loop after parsing. *)
Definition keep_record (wanted : option (gset JobId)) (acc : list JobPayloadRecord)
    (r : JobPayloadRecord) : list JobPayloadRecord :=
  if match wanted with None => true | Some w => bool_decide (payload_id r ∈ w) end
  then put_record r acc else acc.

Definition catalog_write_all_checked (p : Path) (records : list JobPayloadRecord) : M Disk unit :=
  write_rows_checked p records.

Definition catalog_read_filtered_checked (wanted : option (gset JobId)) (p : Path)
    : M Disk (list JobPayloadRecord) :=
  read_rows_checked "job payload catalog" EMPTY_CATALOG BAD_CATALOG (keep_record wanted) p.
Definition catalog_read_checked (p : Path) : M Disk (list JobPayloadRecord) :=
  catalog_read_filtered_checked None p.
Definition catalog_read_for_ids_checked (p : Path) (ids : list JobId) : M Disk (list JobPayloadRecord) :=
  let wanted : gset JobId := list_to_set ids in
  if decide (wanted = ∅) then mret [] else catalog_read_filtered_checked (Some wanted) p.

Definition catalog_append_checked (p : Path) (r : JobPayloadRecord) : M Disk unit :=
  records <- catalog_read_checked p ;
  check_control ;;
  match find_record (payload_id r) records with
  | Some existing =>
      if decide (existing = r) then mret tt
      else check_control ;; catalog_write_all_checked p (put_record r records)
  | None => check_control ;; catalog_write_all_checked p (put_record r records)
  end.

Definition catalog_append (p : Path) (r : JobPayloadRecord) : Disk -> Res unit * Disk :=
  run (catalog_append_checked p r) never.
Definition catalog_read (p : Path) : Disk -> Res (list JobPayloadRecord) * Disk :=
  run (catalog_read_checked p) never.

(** ** The catalog as the list of its records *)
Definition catalog_rows (p : Path) (d : Disk) : Res (list JobPayloadRecord) :=
  stored_at EMPTY_CATALOG BAD_CATALOG (keep_record None) p d.
Definition merged (records : list JobPayloadRecord) : list JobPayloadRecord :=
  foldl (keep_record None) [] records.

Lemma put_record_ids r l :
  payload_id <$> put_record r l =
  if decide (payload_id r ∈ payload_id <$> l) then payload_id <$> l
  else (payload_id <$> l) ++ [payload_id r].
Proof.
  induction l as [|x l IH]; [by rewrite decide_False by (by apply not_elem_of_nil)|]. cbn [put_record].
  destruct (decide (payload_id x = payload_id r)) as [He|He].
  - rewrite !fmap_cons, He, decide_True by left. done.
  - rewrite !fmap_cons, IH. destruct (decide (payload_id r ∈ payload_id <$> l)).
    + rewrite decide_True by (by right). done.
    + rewrite decide_False by (rewrite elem_of_cons; naive_solver). done.
Qed.

Lemma put_record_nodup r l : NoDup (payload_id <$> l) -> NoDup (payload_id <$> put_record r l).
Proof. intros H. rewrite put_record_ids. case_decide; [done|by apply NoDup_filter_snoc]. Qed.

Lemma put_record_fresh r l : payload_id r ∉ payload_id <$> l -> put_record r l = l ++ [r].
Proof.
  induction l as [|x l IH]; [done|]. rewrite fmap_cons, not_elem_of_cons. intros [Hx Hl]. cbn.
  rewrite decide_False by done. by rewrite IH.
Qed.

Lemma put_record_elem r l x : NoDup (payload_id <$> l) ->
  x ∈ put_record r l <-> x = r \/ x ∈ l /\ payload_id x <> payload_id r.
Proof.
  induction l as [|y l IH]; [set_solver|]. rewrite fmap_cons, NoDup_cons. intros [Hy Hnd]. cbn.
  case_decide as He.
  - rewrite !elem_of_cons. split; [|naive_solver]. intros [->|Hx]; [by left|right].
    split; [by right|]. intros Hxr. apply Hy. rewrite He, <- Hxr. by apply list_elem_of_fmap_2.
  - rewrite !elem_of_cons, IH by done. naive_solver.
Qed.

Lemma foldl_keep_nodup l : forall acc,
  NoDup (payload_id <$> acc) -> NoDup (payload_id <$> foldl (keep_record None) acc l).
Proof. induction l as [|r l IH]; intros acc Ha; [done|]. by apply IH, put_record_nodup. Qed.

Lemma foldl_keep_distinct l : forall acc,
  NoDup (payload_id <$> (acc ++ l)) -> foldl (keep_record None) acc l = acc ++ l.
Proof.
  induction l as [|r l IH]; intros acc Hnd; cbn [foldl]; [by rewrite app_nil_r|].
  unfold keep_record at 2. rewrite put_record_fresh.
  - rewrite IH; [by rewrite <- app_assoc|by rewrite <- app_assoc].
  - rewrite fmap_app, fmap_cons in Hnd. apply NoDup_app in Hnd as (_ & Hdis & _).
    intros Hin. apply (Hdis _ Hin). left.
Qed.

Lemma rows_of_nodup p n ls : forall acc rows,
  NoDup (payload_id <$> acc) -> rows_of (keep_record None) p n acc ls = Ok rows ->
  NoDup (payload_id <$> rows).
Proof.
  revert n. induction ls as [|l ls IH]; intros n acc rows Ha; cbn; [by intros [= <-]|].
  destruct (parse_payload_record l) as [r|]; cbn; [|done]. by apply IH, put_record_nodup.
Qed.

Lemma catalog_rows_nodup p d rows : catalog_rows p d = Ok rows -> NoDup (payload_id <$> rows).
Proof.
  unfold catalog_rows, stored_at, stored. destruct (files d !! p) as [t|].
  2:{ intros [= <-]. constructor. }
  destruct (lines t); [done|]. case_decide; [done|]. apply rows_of_nodup. constructor.
Qed.

(** What is parsed is in range. *)
Lemma parse_field_range what v n : parse_field what v = Ok n -> u64_ok n.
Proof.
  unfold parse_field. destruct (parse_u64 v) as [m|] eqn:Hm; [|done]. intros [= <-].
  by eapply parse_u64_ok.
Qed.
Lemma parse_volume_range what v o : parse_volume what v = Ok o -> volume_ok o.
Proof.
  unfold parse_volume. case_decide; [by intros [= <-]|].
  destruct (parse_field what v) as [n|] eqn:Hn; [|done]. intros [= <-]. by eapply parse_field_range.
Qed.
Lemma parse_payload_range l r : parse_payload_record l = Ok r -> payload_ok r.
Proof.
  unfold parse_payload_record.
  destruct (split_on TAB l) as [|p0 [|p1 [|p2 [|p3 [|p4 [|p5 [|p6 [|p7 ps]]]]]]]]; try done.
  case_decide; [done|].
  destruct (parse_field _ p1) as [id|] eqn:Hid; [|done]. cbn.
  destruct (ok_or_else _ _) as [k|]; [|done]. cbn.
  destruct (unescape p3); [|done]. cbn. destruct (unescape p4); [|done]. cbn.
  destruct (parse_volume _ p5) as [v|] eqn:Hv; [|done]. cbn. destruct (unescape p6); [|done].
  intros [= <-]. split; [by eapply parse_field_range|by eapply parse_volume_range].
Qed.

Lemma put_record_ok r l : payload_ok r -> Forall payload_ok l -> Forall payload_ok (put_record r l).
Proof. intros Hr. induction 1 as [|x l Hx Hl IH]; cbn; [by constructor|]. case_decide; by constructor. Qed.

Lemma rows_of_ok p ls : forall n acc rows,
  Forall payload_ok acc -> rows_of (keep_record None) p n acc ls = Ok rows -> Forall payload_ok rows.
Proof.
  induction ls as [|l ls IH]; intros n acc rows Ha; cbn; [by intros [= <-]|].
  destruct (parse_payload_record l) as [r|] eqn:Hr; cbn; [|done]. apply IH.
  apply put_record_ok; [by eapply parse_payload_range|done].
Qed.

Lemma catalog_rows_ok p d rows : catalog_rows p d = Ok rows -> Forall payload_ok rows.
Proof.
  unfold catalog_rows, stored_at, stored. destruct (files d !! p) as [t|].
  2:{ intros [= <-]. constructor. }
  destruct (lines t); [done|]. case_decide; [done|]. apply rows_of_ok. constructor.
Qed.

Lemma catalog_rows_text p d records :
  files d !! p = Some (rows_text records) -> Forall payload_ok records ->
  catalog_rows p d = Ok (merged records).
Proof. intros Hd Hok. unfold catalog_rows, stored_at. rewrite Hd. by apply stored_rows_text. Qed.

Lemma merged_distinct records : NoDup (payload_id <$> records) -> merged records = records.
Proof. intros H. unfold merged. by rewrite foldl_keep_distinct. Qed.

Lemma catalog_rows_same p d0 d : same_files d0 d -> catalog_rows p d = catalog_rows p d0.
Proof. intros (Hf & _). unfold catalog_rows, stored_at. by rewrite Hf. Qed.

(** ** Filtered reads *)
Definition wanted_record (w : gset JobId) (r : JobPayloadRecord) : Prop := payload_id r ∈ w.
#[export] Instance wanted_record_dec w r : Decision (wanted_record w r).
Proof. unfold wanted_record. apply _. Defined.

Lemma filter_put_record w r l :
  filter (wanted_record w) (put_record r l) =
  if decide (wanted_record w r) then put_record r (filter (wanted_record w) l)
  else filter (wanted_record w) l.
Proof.
  induction l as [|x l IH]; [cbn [put_record]; rewrite filter_cons, filter_nil; by case_decide|]. cbn [put_record]. rewrite !filter_cons.
  destruct (decide (payload_id x = payload_id r)) as [He|He].
  - assert (Hw : wanted_record w x <-> wanted_record w r) by (unfold wanted_record; by rewrite He).
    rewrite filter_cons. destruct (decide (wanted_record w r)) as [Hr|Hr].
    + rewrite decide_True by tauto. cbn [put_record]. by rewrite decide_True.
    + rewrite decide_False by tauto. done.
  - rewrite filter_cons, IH. destruct (decide (wanted_record w x)) as [Hx|Hx];
      destruct (decide (wanted_record w r)) as [Hr|Hr]; try done.
    cbn [put_record]. by rewrite decide_False.
Qed.

Lemma rows_of_wanted p w ls : forall n acc,
  rows_of (keep_record (Some w)) p n (filter (wanted_record w) acc) ls =
  let? rows := rows_of (keep_record None) p n acc ls in Ok (filter (wanted_record w) rows).
Proof.
  induction ls as [|l ls IH]; intros n acc; cbn; [done|].
  destruct (parse_payload_record l) as [r|]; cbn; [|done]. rewrite <- IH. f_equal.
  unfold keep_record. rewrite filter_put_record. unfold wanted_record at 2.
  case_bool_decide; by case_decide.
Qed.

(** ** Properties *)

Lemma catalog_write_succeeds p records : succeeds (catalog_write_all_checked p records).
Proof. exact (write_rows_succeeds p records). Qed.

(** writing the catalog is all or nothing: on success the file reads back as
    the records written (the last one of each job, in its first place), and the
    temporary file is gone; on any failed call or poll the file is exactly what it
    was; no other file changes either way. *)
Theorem catalog_write_atomic (p : Path) (records : list JobPayloadRecord) (c : Control) (d : Disk)
    (Hok : Forall payload_ok records) :
  let '(r, d') := run (catalog_write_all_checked p records) c d in
  (forall q, q <> p -> q <> temp_of p d -> files d' !! q = files d !! q) /\
  match r with
  | Ok _ => catalog_rows p d' = Ok (merged records) /\
            (NoDup (payload_id <$> records) -> merged records = records) /\
            files d' !! temp_of p d = None
  | Err _ => files d' !! p = files d !! p
  end /\
  (healthy d -> c = never -> r = Ok tt).
Proof.
  destruct (run (catalog_write_all_checked p records) c d) as [r d'] eqn:Hrun.
  pose proof (triple_run _ _ _ _ _ _ _ (triple_write_rows p records d) eq_refl Hrun) as (Hf & _ & _ & Hr).
  split_and!; [done| |].
  - destruct r; [|done]. destruct Hr as [Hp Ht]. split_and!; [|apply merged_distinct|done].
    by apply catalog_rows_text.
  - intros Hh ->. destruct (succeeds_run _ d (catalog_write_succeeds p records) Hh) as ([] & d1 & Hr1).
    rewrite Hrun in Hr1. by injection Hr1 as -> _.
Qed.

Lemma catalog_read_then p {B} (f : list JobPayloadRecord -> M Disk B) Q d0 rows :
  catalog_rows p d0 = Ok rows ->
  triple (same_files d0) (f rows) Q -> (forall e d, same_files d0 d -> Q (Err e) d) ->
  triple (same_files d0) (records <- catalog_read_checked p ; check_control ;; f records) Q.
Proof.
  intros Hrows Hf He. eapply triple_bind.
  { exact (triple_read_rows p (keep_record None) "job payload catalog" EMPTY_CATALOG BAD_CATALOG d0). }
  2:{ intros e d [? _]. by apply He. }
  intros rows' c k d [Hd Hr]. specialize (Hr rows' eq_refl).
  unfold catalog_rows in Hrows. rewrite Hrows in Hr. injection Hr as <-.
  revert c k d Hd. apply triple_check_bind; [exact Hf|exact He].
Qed.

(** appending a record to the catalog replaces the record of its job or adds
    it at the end and leaves the others; any error leaves the catalog as it was. *)
Theorem catalog_append_spec (p : Path) (rec : JobPayloadRecord) (rows : list JobPayloadRecord)
    (c : Control) (d : Disk) (Hrows : catalog_rows p d = Ok rows) (Hrec : payload_ok rec) :
  let '(r, d') := run (catalog_append_checked p rec) c d in
  match r with
  | Ok _ => exists rows', catalog_rows p d' = Ok rows' /\ payload_id <$> rows' =
              (if decide (payload_id rec ∈ payload_id <$> rows) then payload_id <$> rows
               else (payload_id <$> rows) ++ [payload_id rec]) /\
              forall x, x ∈ rows' <-> x = rec \/ x ∈ rows /\ payload_id x <> payload_id rec
  | Err _ => catalog_rows p d' = Ok rows
  end.
Proof.
  pose proof (catalog_rows_nodup _ _ _ Hrows) as Hnd. pose proof (catalog_rows_ok _ _ _ Hrows) as Hok.
  set (Q := fun (r : Res unit) d' => match r with
    | Ok _ => catalog_rows p d' = Ok (put_record rec rows)
    | Err _ => catalog_rows p d' = Ok rows end).
  assert (Hpub : triple (same_files d)
    (check_control ;; catalog_write_all_checked p (put_record rec rows)) Q).
  { apply triple_check_bind; [|intros e d1 Hd; cbn; by rewrite (catalog_rows_same p d)].
    intros k j d1 Hd. pose proof (triple_write_rows p (put_record rec rows) d1 k j d1 eq_refl) as Hw.
    unfold catalog_write_all_checked. destruct (write_rows_checked p (put_record rec rows) k j d1) as [[r k'] d'].
    destruct Hw as (_ & _ & _ & Hw). destruct r; cbn.
    - destruct Hw as [Hw _]. rewrite (catalog_rows_text p d' _ Hw) by by apply put_record_ok.
      by rewrite merged_distinct by by apply put_record_nodup.
    - rewrite <- Hrows, <- (catalog_rows_same p d d1 Hd). unfold catalog_rows, stored_at. by rewrite Hw. }
  assert (Ht : triple (same_files d) (catalog_append_checked p rec) Q).
  { apply (catalog_read_then p _ Q d rows Hrows); [|intros e d1 Hd; cbn; by rewrite (catalog_rows_same p d)].
    destruct (find_record (payload_id rec) rows) as [x|] eqn:Hf; [|exact Hpub].
    case_decide as Hx; [|exact Hpub]. apply triple_ret. intros d1 Hd. cbn.
    rewrite (catalog_rows_same p d) by done. rewrite Hrows. f_equal. symmetry. subst x.
    revert Hf. clear. induction rows as [|y rows IH]; cbn; [done|]. case_decide; [by intros [= ->]|].
    intros Hf. by rewrite IH. }
  destruct (run (catalog_append_checked p rec) c d) as [r d'] eqn:Hrun.
  pose proof (triple_run _ _ _ _ _ _ _ Ht (reflexivity d) Hrun) as Hq. destruct r; [|exact Hq].
  exists (put_record rec rows). split_and!; [exact Hq|apply put_record_ids|].
  intros x. by apply put_record_elem.
Qed.

Definition asked_for (ids : list JobId) (all : list JobPayloadRecord) : list JobPayloadRecord :=
  filter (fun x => payload_id x ∈ ids) all.

Lemma triple_read_for_ids p ids d0 :
  triple (same_files d0) (catalog_read_for_ids_checked p ids) (fun r d =>
    same_files d0 d /\
    (forall rows, r = Ok rows -> ids <> [] ->
       exists all, catalog_rows p d0 = Ok all /\ rows = asked_for ids all) /\
    (ids = [] -> r = Ok [])).
Proof.
  unfold catalog_read_for_ids_checked.
  destruct (decide ((list_to_set ids : gset JobId) = ∅)) as [He|He].
  { apply triple_ret. intros d Hd. split_and!; try done. intros rows _ Hne. destruct ids as [|i ids]; [done|].
    exfalso. assert (i ∈ (∅ : gset JobId)) by (rewrite <- He; set_solver). set_solver. }
  eapply triple_weaken; [exact (triple_read_rows p (keep_record (Some (list_to_set ids)))
    "job payload catalog" EMPTY_CATALOG BAD_CATALOG d0)|done|].
  intros r d [Hd Hr]. split_and!; [done| |by intros ->].
  intros rows Hrows _. specialize (Hr rows Hrows). revert Hr. unfold catalog_rows, stored_at, stored.
  assert (Hfe : forall all, filter (wanted_record (list_to_set ids)) all = asked_for ids all).
  { intros all. apply filter_ext_in. intros x _. unfold wanted_record. by rewrite elem_of_list_to_set. }
  destruct (files d0 !! p) as [t|]; [|intros [= <-]; by exists []].
  destruct (lines t) as [|h ls]; [done|]. case_decide; [done|].
  pose proof (rows_of_wanted p (list_to_set ids) ls 2%N []) as Hw. rewrite filter_nil in Hw.
  change (@row_lines _ payload_format) with payload_lines. rewrite Hw. destruct (rows_of (keep_record None) p 2 [] ls) as [all|]; [|done].
  intros [= <-]. exists all. split; [done|apply Hfe].
Qed.

(** reading only some jobs gives the records of a full read that are wanted,
    in the same order, never writes, and gives nothing, without reading, when no
    job is asked for. *)
Theorem catalog_read_for_ids_spec (p : Path) (ids : list JobId) (c : Control) (d : Disk) :
  let '(r, d') := run (catalog_read_for_ids_checked p ids) c d in
  files d' = files d /\
  (forall rows, r = Ok rows -> ids <> [] ->
     exists all, catalog_rows p d = Ok all /\ rows = asked_for ids all) /\
  (ids = [] -> r = Ok []).
Proof.
  destruct (run (catalog_read_for_ids_checked p ids) c d) as [r d'] eqn:Hrun.
  destruct (triple_run _ _ _ _ _ _ _ (triple_read_for_ids p ids d) (reflexivity d) Hrun)
    as ((Hf & _) & Hr & Hn). by split_and!.
Qed.

(** ** Witnesses *)
Definition demo_catalog : Path := mkPath "/state" "payloads.tsv".
Definition demo_record (id : N) (lbl : string) : JobPayloadRecord :=
  mkPayload id OperationKind lbl "/data/a" (Some 7%N) "copy a".
Definition demo_records : list JobPayloadRecord := [demo_record 4 "one"; demo_record 2 "two"].
Definition demo_disk : Disk := mkDisk {[demo_catalog := rows_text demo_records]} 0 (fun _ => None) ∅ 42.

Lemma demo_rows_stored : catalog_rows demo_catalog demo_disk = Ok demo_records.
Proof. vm_compute. reflexivity. Qed.

Lemma catalog_write_atomic_witness :
  exists d', run (catalog_write_all_checked demo_catalog [demo_record 4 "new"; demo_record 4 "newer"])
    never demo_disk = (Ok tt, d') /\ catalog_rows demo_catalog d' = Ok [demo_record 4 "newer"].
Proof.
  pose proof (catalog_write_atomic demo_catalog [demo_record 4 "new"; demo_record 4 "newer"] never
    demo_disk ltac:(repeat constructor)) as H.
  destruct (run (catalog_write_all_checked demo_catalog _) never demo_disk) as [r d'].
  destruct H as (_ & Hr & Hlive). rewrite (Hlive (fun _ => eq_refl) eq_refl) in *.
  exists d'. split; [reflexivity|]. exact (proj1 Hr).
Defined.

Lemma catalog_append_spec_witness :
  let '(r, d') := catalog_append demo_catalog (demo_record 2 "three") demo_disk in
  r = Ok tt /\ exists rows', catalog_rows demo_catalog d' = Ok rows' /\ payload_id <$> rows' = [4; 2]%N.
Proof.
  pose proof (catalog_append_spec demo_catalog (demo_record 2 "three") demo_records never demo_disk
    demo_rows_stored ltac:(repeat constructor)) as H.
  unfold catalog_append.
  destruct (run (catalog_append_checked demo_catalog (demo_record 2 "three")) never demo_disk) as [r d'] eqn:Hrun.
  assert (r = Ok tt) as -> by (vm_compute in Hrun; congruence).
  split; [reflexivity|]. destruct H as (rows' & H1 & H2 & _). exists rows'. split; [exact H1|exact H2].
Defined.
