(* ===== verification/Restore.v ===== *)
(** * The restore plan ([crates/jobs/src/restore.rs])

    After a restart the interrupted jobs of the progress store are paused and
    matched with the payloads the catalog kept for them. *)
From S2P Require Import Prelude Types Text Control JobModel Files Progress Catalog.
#[local] Open Scope string_scope.
#[local] Open Scope list_scope.

Inductive JobRestoreEntry : Type :=
  | Ready (progress : JobProgressSnapshot) (payload : JobPayloadRecord)
  | MissingPayload (progress : JobProgressSnapshot).

Definition entry_progress (e : JobRestoreEntry) : JobProgressSnapshot :=
  match e with Ready p _ | MissingPayload p => p end.
Definition entry_payload (e : JobRestoreEntry) : option JobPayloadRecord :=
  match e with Ready _ r => Some r | MissingPayload _ => None end.
Definition restore_entry_id (e : JobRestoreEntry) : JobId := snap_id (entry_progress e).

(** The label of a job without payload is not escaped. *)
Definition JobRestoreEntry_as_tsv (e : JobRestoreEntry) : string :=
  match e with
  | Ready p r => "restore" +:+ String TAB (as_str (snap_state p) +:+ String TAB (payload_as_tsv r))
  | MissingPayload p =>
      "missing-payload" +:+ String TAB (u64_to_string (snap_id p) +:+ String TAB
        (as_str (snap_state p) +:+ String TAB (snap_label p)))
  end.

Record JobRestorePlan : Type := mkRestorePlan { plan_entries : list JobRestoreEntry }.

Definition restore_ready (p : JobRestorePlan) : list (JobProgressSnapshot * JobPayloadRecord) :=
  omap (fun e => match e with Ready s r => Some (s, r) | MissingPayload _ => None end) (plan_entries p).
Definition missing_payload (p : JobRestorePlan) : list JobProgressSnapshot :=
  omap (fun e => match e with Ready _ _ => None | MissingPayload s => Some s end) (plan_entries p).
Definition as_tsv_lines (p : JobRestorePlan) : list string := JobRestoreEntry_as_tsv <$> plan_entries p.

Definition validate_restore_payload (s : JobProgressSnapshot) (r : JobPayloadRecord) : Res unit :=
  if decide (payload_volume r <> snap_volume s) then
    Err (Format ("restore payload " +:+ u64_to_string (snap_id s) +:+ " volume " +:+
      format_volume (payload_volume r) +:+ " does not match progress volume " +:+
      format_volume (snap_volume s)))
  else Ok tt.

(** [collect::<HashMap<_, _>>()] keyed by id: a later record replaces an earlier. *)
Definition payload_map (records : list JobPayloadRecord) : gmap JobId JobPayloadRecord :=
  foldl (fun m r => <[payload_id r := r]> m) ∅ records.

Definition restore_entry (payloads : gmap JobId JobPayloadRecord) (acc : list JobRestoreEntry)
    (s : JobProgressSnapshot) : M Disk (list JobRestoreEntry) :=
  check_control ;;
  (acc' <- match payloads !! snap_id s with
           | Some r => mlift (validate_restore_payload s r) ;; mret (acc ++ [Ready s r])
           | None => mret (acc ++ [MissingPayload s])
           end ;
   check_control ;; mret acc').

Definition from_catalog_and_progress_checked (catalog progress : Path) (ms : N)
    : M Disk JobRestorePlan :=
  check_control ;;
  (restored <- restore_interrupted_checked progress ms ;
   check_control ;;
   (records <- catalog_read_for_ids_checked catalog (snap_id <$> restored) ;
    let payloads := payload_map records in
    check_control ;;
    (entries <- mfor (restore_entry payloads) [] restored ;
     mret (mkRestorePlan entries)))).

Definition from_catalog_and_progress (catalog progress : Path) (ms : N)
    : Disk -> Res JobRestorePlan * Disk := run (from_catalog_and_progress_checked catalog progress ms) never.

(** ** The plan on lists of rows *)

Definition plan_entry (payloads : gmap JobId JobPayloadRecord) (s : JobProgressSnapshot) : JobRestoreEntry :=
  match payloads !! snap_id s with Some r => Ready s r | None => MissingPayload s end.
Definition volumes_agree (payloads : gmap JobId JobPayloadRecord) (s : JobProgressSnapshot) : Prop :=
  forall r, payloads !! snap_id s = Some r -> payload_volume r = snap_volume s.

Lemma payload_map_lookup records : forall m : gmap JobId JobPayloadRecord, NoDup (payload_id <$> records) ->
  forall id, foldl (fun m r => <[payload_id r := r]> m) m records !! id =
    match find_record id records with Some r => Some r | None => m !! id end.
Proof.
  induction records as [|r records IH]; intros m Hnd id; [done|].
  rewrite fmap_cons in Hnd. apply NoDup_cons in Hnd as [Hr Hnd]. cbn. rewrite IH by done.
  case_decide as He.
  - destruct (find_record id records) as [x|] eqn:Hx.
    + exfalso. apply Hr. rewrite He. clear -Hx. induction records as [|y l IH]; [done|]. cbn in Hx.
      rewrite fmap_cons. case_decide; [subst; left|right; auto].
    + subst id. by rewrite lookup_insert_eq.
  - destruct (find_record id records); [done|]. by rewrite lookup_insert_ne.
Qed.

Lemma triple_restore_entries P payloads snaps :
  triple P (mfor (restore_entry payloads) [] snaps)
    (fun r d => P d /\ forall es, r = Ok es ->
       es = plan_entry payloads <$> snaps /\ Forall (volumes_agree payloads) snaps).
Proof.
  eapply triple_weaken; [apply (triple_for _ (fun acc pre d => P d /\
    acc = plan_entry payloads <$> pre /\ Forall (volumes_agree payloads) pre) (fun _ => P) snaps [])| |].
  - intros acc pre s. apply triple_check_bind; [|by intros e d [? _]].
    eapply (triple_bind _ _ _ (fun r d => match r with
      | Ok acc' => P d /\ acc' = (plan_entry payloads <$> (pre ++ [s])) /\
          Forall (volumes_agree payloads) (pre ++ [s])
      | Err _ => P d end)); [|intros acc'|done].
    + intros c k d (Hd & -> & Hpre). rewrite fmap_app. cbn [fmap list_fmap].
      assert (Hpe : plan_entry payloads s =
        match payloads !! snap_id s with Some r => Ready s r | None => MissingPayload s end) by done.
      rewrite Hpe. unfold validate_restore_payload.
      destruct (payloads !! snap_id s) as [r|] eqn:Hr.
      * unfold mbind, mlift. case_decide as Hv; cbn; [done|]. split_and!; try done.
        apply Forall_app. split; [done|]. constructor; [|constructor].
        intros r' Hr'. rewrite Hr in Hr'. by injection Hr' as <-.
      * cbn. split_and!; try done. apply Forall_app. split; [done|].
        constructor; [|constructor]. intros r' Hr'. congruence.
    + cbn. apply triple_check_bind; [|by intros e d [? _]]. by apply triple_ret.
  - intros d Hd. split_and!; [done|done|constructor].
  - intros [es|e] d; cbn; [intros (Hd & -> & Hv); split; [done|]; by intros ? [= <-]|by intros Hd].
Qed.

(** The temporary file of a progress store, and what its publication cannot touch. *)
Definition progress_temp (p : Path) (d : Disk) : Path := temp_of (R := JobProgressSnapshot) p d.
Definition progress_frame (p : Path) (d0 d : Disk) : Prop := frame (R := JobProgressSnapshot) p d0 d.

Lemma progress_frame_same p d0 d : same_files d0 d -> progress_frame p d0 d.
Proof. intros (Hf & _) q _ _. by rewrite Hf. Qed.

(** Restoring touches no file but the progress store and its temporary one. *)
Lemma triple_restore_frame p ms d0 :
  triple (same_files d0) (restore_interrupted_checked p ms) (fun _ d => progress_frame p d0 d).
Proof.
  assert (Herr : forall (e : GfmError) d, same_files d0 d -> progress_frame p d0 d)
    by (intros _ d; apply progress_frame_same).
  unfold restore_interrupted_checked. eapply triple_bind.
  { exact (triple_read_rows p keep_all "job progress store" EMPTY_STORE BAD_HEADER d0). }
  2:{ intros e d [Hd _]. by apply progress_frame_same. }
  intros rows. apply (triple_weaken (same_files d0) _ _ (fun _ d => progress_frame p d0 d));
    [|by intros d [? _]|by intros r d Hr].
  apply triple_check_bind; [|done].
  eapply triple_bind; [apply (triple_restore_loop (same_files d0))| |intros e d [Hd _]; by apply progress_frame_same].
  intros [after changed]. eapply triple_bind.
  - apply (triple_weaken (same_files d0) _ _ (fun _ d => progress_frame p d0 d)); [|by intros d [? _]|intros r d Hr; exact Hr].
    cbn [fst snd]. destruct changed; [|apply triple_ret; intros d; apply progress_frame_same].
    apply triple_check_bind; [|done].
    eapply triple_bind; [exact (triple_write_frame (R := JobProgressSnapshot) p after d0)| |done].
    intros []. apply triple_check.
  - intros []. apply triple_ret. by intros d Hd.
  - done.
Qed.

Lemma find_record_asked ids all id :
  id ∈ ids -> find_record id (asked_for ids all) = find_record id all.
Proof.
  intros Hid. unfold asked_for. induction all as [|x all IH]; [done|].
  rewrite filter_cons. cbn [find_record]. destruct (decide (payload_id x = id)) as [He|He].
  - rewrite decide_True by (by rewrite He). cbn [find_record]. by rewrite decide_True.
  - case_decide; [|done]. cbn [find_record]. by rewrite decide_False.
Qed.

Lemma asked_nodup ids all : NoDup (payload_id <$> all) -> NoDup (payload_id <$> asked_for ids all).
Proof.
  unfold asked_for. induction all as [|x all IH]; [done|]. rewrite fmap_cons, NoDup_cons, filter_cons.
  intros [Hx Hnd]. case_decide; [|auto]. rewrite fmap_cons, NoDup_cons. split; [|auto].
  intros (y & Hy & Hin)%list_elem_of_fmap. apply list_elem_of_filter in Hin as [_ Hin].
  apply Hx. rewrite Hy. by apply list_elem_of_fmap_2.
Qed.

(** What the plan says of one restored job. *)
Definition planned_entry (records : list JobPayloadRecord) (s : JobProgressSnapshot) : JobRestoreEntry :=
  match find_record (snap_id s) records with Some r => Ready s r | None => MissingPayload s end.

(** a restore plan that is returned lists the interrupted jobs in the order of
    the store, each paused, each with the catalog's record of that job if there is
    one, which is then for the same volume; the progress store holds the paused
    snapshots and the catalog is untouched.  A record for another volume fails the
    plan. *)
Theorem restore_plan_spec (catalog progress : Path) (ms : N) (rows : list JobProgressSnapshot)
    (c : Control) (d : Disk)
    (Hrows : stored_snapshots progress d = Ok rows) (Hok : Forall snapshot_ok rows) (Hms : u64_ok ms)
    (Hne : catalog <> progress) (Htmp : catalog <> progress_temp progress d) :
  let '(r, d') := run (from_catalog_and_progress_checked catalog progress ms) c d in
  let after := interrupted ms <$> rows in
  let records := match catalog_rows catalog d with Ok l => l | Err _ => [] end in
  forall plan, r = Ok plan ->
    plan_entries plan = planned_entry records <$> still_restorable after /\
    Forall (fun s => forall x, find_record (snap_id s) records = Some x ->
      payload_volume x = snap_volume s) (still_restorable after) /\
    stored_snapshots progress d' = Ok after /\ files d' !! catalog = files d !! catalog.
Proof.
  destruct (run (from_catalog_and_progress_checked catalog progress ms) c d) as [r d'] eqn:Hrun.
  cbn zeta. intros plan ->. revert Hrun. unfold run, from_catalog_and_progress_checked.
  unfold mbind at 1, check_control at 1. destruct (c 0); [done|]. unfold mbind at 1.
  pose proof (triple_conj _ _ _ _ (restore_refines_triple progress ms rows d Hrows Hok Hms)
    (triple_restore_frame progress ms d) c 1 d (reflexivity d)) as Hres.
  destruct (restore_interrupted_checked progress ms c 1 d) as [[[restored|e] k1] d1]; [|done].
  destruct Hres as [[-> Hst] Hfr]. specialize (Hfr catalog Hne Htmp).
  set (after := interrupted ms <$> rows) in *. set (snaps := still_restorable after) in *.
  unfold mbind at 1, check_control at 1. destruct (c k1); [done|]. unfold mbind at 1.
  pose proof (triple_read_for_ids catalog (snap_id <$> snaps) d1 c (S k1) d1 (reflexivity d1)) as Hrd.
  destruct (catalog_read_for_ids_checked catalog (snap_id <$> snaps) c (S k1) d1) as [[[recs|e] k2] d2]; [|done].
  destruct Hrd as (Hd2 & Hrecs & _). cbv zeta.
  unfold mbind at 1, check_control at 1. destruct (c k2); [done|]. unfold mbind at 1.
  pose proof (triple_restore_entries (same_files d2) (payload_map recs) snaps c (S k2) d2 (reflexivity d2)) as Hent.
  destruct (mfor (restore_entry (payload_map recs)) [] snaps c (S k2) d2) as [[[es|e] k3] d3]; [|done].
  destruct Hent as [Hd3 Hes]. destruct (Hes es eq_refl) as [-> Hvol]. intros [= <- <-]. cbn [plan_entries].
  assert (Hsame : same_files d1 d3) by by transitivity d2.
  assert (Hlook : forall s, s ∈ snaps -> payload_map recs !! snap_id s =
    find_record (snap_id s) (match catalog_rows catalog d with Ok l => l | Err _ => [] end)).
  { intros s Hs. destruct (Hrecs recs eq_refl) as (all & Hall & ->).
    { intros Hnil. apply fmap_nil_inv in Hnil. rewrite Hnil in Hs. by apply elem_of_nil in Hs. }
    replace (catalog_rows catalog d) with (catalog_rows catalog d1)
      by (unfold catalog_rows, stored_at; by rewrite Hfr).
    rewrite Hall. unfold payload_map.
    rewrite payload_map_lookup by (apply asked_nodup; by eapply catalog_rows_nodup).
    rewrite lookup_empty, find_record_asked by (by apply list_elem_of_fmap_2).
    by destruct (find_record (snap_id s) all). }
  split_and!.
  - apply list_fmap_ext. intros i s Hs. unfold plan_entry, planned_entry.
    by rewrite Hlook by by eapply list_elem_of_lookup_2.
  - rewrite Forall_forall in Hvol |- *. intros s Hs x. rewrite <- Hlook by done. by apply Hvol.
  - unfold stored_snapshots in *. by rewrite (store_rows_same _ _ _ d1 d3 Hsame).
  - destruct Hsame as (Hf & _). by rewrite Hf.
Qed.

(** ** Witnesses *)
Definition demo_both : Disk :=
  mkDisk {[Progress.demo_path := rows_text Progress.demo_rows;
           Catalog.demo_catalog := rows_text Catalog.demo_records]} 0 (fun _ => None) ∅ 42.

Lemma restore_plan_spec_witness :
  exists plan d', from_catalog_and_progress Catalog.demo_catalog Progress.demo_path 200 demo_both = (Ok plan, d') /\
    restore_entry_id <$> plan_entries plan = [4%N] /\
    files d' !! Catalog.demo_catalog = files demo_both !! Catalog.demo_catalog.
Proof.
  assert (Hst : stored_snapshots Progress.demo_path demo_both = Ok Progress.demo_rows) by (vm_compute; reflexivity).
  pose proof (restore_plan_spec Catalog.demo_catalog Progress.demo_path 200 Progress.demo_rows never demo_both
    Hst Progress.demo_rows_ok eq_refl ltac:(discriminate) ltac:(vm_compute; discriminate)) as H.
  unfold from_catalog_and_progress.
  destruct (run (from_catalog_and_progress_checked Catalog.demo_catalog Progress.demo_path 200) never demo_both)
    as [r d'] eqn:Hrun.
  destruct r as [plan|e]; [|vm_compute in Hrun; discriminate].
  exists plan, d'. split; [reflexivity|]. destruct (H plan eq_refl) as (Hp & _ & _ & Hc).
  split; [|exact Hc]. rewrite Hp. vm_compute. reflexivity.
Defined.
