(* ===== verification/Journal.v ===== *)
(** * The job journal and retriable execution ([JobJournal], [JobRecoveryState],
    [execute_retriable_task] of [crates/jobs/src/lib.rs])

    Every attempt of a retriable task appends a line when it starts and one when
    it ends; after a crash the journal tells which jobs to run again.  The polls
    of an execution are the observations of the task's cancellation token; what
    the task's closure returns on each attempt is an argument. *)
From S2P Require Import Prelude Types Text Control JobModel Retry Isolated Files.
#[local] Open Scope string_scope.
#[local] Open Scope list_scope.

#[export] Instance journal_lines : LineFormat JournalEntry :=
  {| as_tsv := journal_line; parse_row := parse_journal_entry; row_ok := entry_ok;
     as_tsv_line := journal_line_ok; parse_as_tsv := parse_journal_line |}.

(** ** Appending and reading *)

(** [write_journal_line_checked]: one poll, before the line. *)
Definition write_journal_line_checked (p : Path) (buffer line : string) : M Disk string :=
  check_control ;;
  (b <- write_all p buffer line ; write_all p b newline).

Definition journal_append_checked (p : Path) (e : JournalEntry) : M Disk unit :=
  check_control ;;
  create_dir_all p ;;
  check_control ;;
  open_append p ;;
  check_control ;;
  (b <- write_journal_line_checked p "" (journal_line e) ;
   flush p b).

Definition journal_read_checked (p : Path) : M Disk (list JournalEntry) :=
  check_control ;;
  (ex <- path_exists "job journal" p ;
   if negb ex then mret []
   else
     check_control ;;
     (text <- open_file p ;
      check_control ;;
      (entries <- read_rows_loop keep_all p 1 [] (S (length (lines text))) (lines text) ;
       check_control ;; mret entries))).

Definition attempts_in (id : JobId) (es : list JournalEntry) : N :=
  N.of_nat (length (filter (fun e => entry_id e = id /\ entry_status e = Started) es)).
Definition attempts_for_checked (p : Path) (id : JobId) : M Disk N :=
  es <- journal_read_checked p ; mret (attempts_in id es).

(** ** Recovery *)
Inductive RecoveryReason : Type := Interrupted | RetryableFailure.
#[export] Instance RecoveryReason_eq_dec : EqDecision RecoveryReason.
Proof. solve_decision. Defined.

Record RecoveryJob : Type := mkRecovery {
  recovery_id : JobId;
  recovery_label : string;
  recovery_attempts : N;
  reason : RecoveryReason;
  failure_class : option FailureClass;
  recovery_delay_ms : N
}.

Record JobRecoveryState : Type := mkRecoveryState {
  state_id : JobId;
  state_label : string;
  state_attempts : N;
  last_status : option TaskStatus
}.

Definition apply_entry (e : JournalEntry) (s : JobRecoveryState) : JobRecoveryState :=
  mkRecoveryState (state_id s) (entry_label e) (N.max (state_attempts s) (entry_attempt e))
    (Some (entry_status e)).
Definition from_entry (e : JournalEntry) : JobRecoveryState :=
  apply_entry e (mkRecoveryState (entry_id e) (entry_label e) 0 None).

(** [states.iter_mut().find(..)], or a push. *)
Fixpoint add_entry (states : list JobRecoveryState) (e : JournalEntry) : list JobRecoveryState :=
  match states with
  | [] => [from_entry e]
  | s :: l => if decide (state_id s = entry_id e) then apply_entry e s :: l else s :: add_entry l e
  end.

Definition recovery_of (policy : RetryPolicy) (s : JobRecoveryState) : option RecoveryJob :=
  match last_status s with
  | Some Started =>
      Some (mkRecovery (state_id s) (state_label s) (state_attempts s) Interrupted None 0)
  | Some (Failed message) =>
      let d := retry_decision policy (state_attempts s) message in
      if retryable d && (state_attempts s <? N.max (max_attempts policy) 1)%N then
        Some (mkRecovery (state_id s) (state_label s) (state_attempts s) RetryableFailure
                (Some (decision_class d)) (next_delay_ms d))
      else None
  | _ => None
  end.

Definition recoverable_in (policy : RetryPolicy) (es : list JournalEntry) : list RecoveryJob :=
  sort_by_key recovery_id (omap (recovery_of policy) (foldl add_entry [] es)).
Definition recoverable_checked (p : Path) (policy : RetryPolicy) : M Disk (list RecoveryJob) :=
  es <- journal_read_checked p ; mret (recoverable_in policy es).

(** ** Execution *)

(** [cancellation.is_cancelled()], and the closure of
    [append_journal_entry_checked]: each poll is an observation of the token. *)
Definition observes (seen : nat -> bool) : Control :=
  fun k => if seen k then Some Cancelled else None.
Definition is_cancelled : M Disk bool :=
  r <- poll ; mret (match r with Ok _ => false | Err _ => true end).

(** A result taken as a value, and a call without a control. *)
Definition mtry {A} (m : M Disk A) : M Disk (Res A) := fun c k d =>
  let '(r, k', d') := m c k d in (Ok r, k', d').
Definition unchecked {A} (m : M Disk A) : M Disk A := fun _ k d =>
  let '(r, _, d') := m never 0 d in (r, k, d').

(** [sleep_retry_backoff_cancellable]: chunks of 5 ms, so [delay / 5 + 1] turns
    are enough. *)
Fixpoint sleep_loop (fuel : nat) (remaining : N) : M Disk bool :=
  match fuel with
  | O => mret false
  | S fuel' =>
      if (0 <? remaining)%N then
        c <- is_cancelled ;
        if c then mret false else sleep_loop fuel' (remaining - N.min remaining 5)
      else c <- is_cancelled ; mret (negb c)
  end.
Definition sleep_retry_backoff_cancellable (delay_ms : N) : M Disk bool :=
  sleep_loop (N.to_nat (delay_ms / 5 + 2)) delay_ms.

Section Execute.
Variable journal : Path.
Variable job : Job.
Variable policy : RetryPolicy.
(** What the closure returns on each attempt. *)
Variable work : N -> Res unit.

Definition entry_for (attempt : N) (st : TaskStatus) : JournalEntry :=
  mkEntry (job_id job) (label job) attempt st.

(** [if let Err(err) = journal.append(..) { Failed(err) } else { ok }]. *)
Definition append_or_fail (e : JournalEntry) (ok : TaskStatus) : M Disk TaskStatus :=
  r <- mtry (unchecked (journal_append_checked journal e)) ;
  mret (match r with Ok _ => ok | Err err => Failed (GfmError_to_string err) end).

(** The loop [for attempt in 1..=attempts]. *)
Fixpoint attempt_loop (fuel : nat) (attempt attempts : N) (final_status : TaskStatus) : M Disk TaskStatus :=
  match fuel with
  | O => mret final_status
  | S fuel' =>
      if (attempts <? attempt)%N then mret final_status else
      c <- is_cancelled ;
      if c then mret CancelledStatus else
      r <- mtry (journal_append_checked journal (entry_for attempt Started)) ;
      match r with
      | Err err =>
          mret (if decide (err = Cancelled) then CancelledStatus else Failed (GfmError_to_string err))
      | Ok _ =>
          let status := status_of (work attempt) in
          r <- mtry (unchecked (journal_append_checked journal (entry_for attempt status))) ;
          match r with
          | Err err => mret (Failed (GfmError_to_string err))
          | Ok _ =>
              match status with
              | Failed message =>
                  c <- is_cancelled ;
                  if c then append_or_fail (entry_for attempt CancelledStatus) CancelledStatus
                  else
                    let decision := retry_decision policy attempt message in
                    if negb (retryable decision) then mret status
                    else if (0 <? next_delay_ms decision)%N && (attempt <? attempts)%N then
                      ok <- sleep_retry_backoff_cancellable (next_delay_ms decision) ;
                      if ok then attempt_loop fuel' (attempt + 1) attempts status
                      else append_or_fail (entry_for attempt CancelledStatus) CancelledStatus
                    else attempt_loop fuel' (attempt + 1) attempts status
              | _ => mret status
              end
          end
      end
  end.

Definition execute_retriable_task : M Disk TaskStatus :=
  let attempts := N.max (max_attempts policy) 1 in
  attempt_loop (N.to_nat attempts + 1) 1 attempts (Failed "task did not run").
End Execute.

(** ** The journal as the list of its entries *)
Definition journal_text (es : list JournalEntry) : string := unlines (journal_line <$> es).
(** The journal holds the entries [es]; a journal not yet created holds none. *)
Definition holds (p : Path) (es : list JournalEntry) (d : Disk) : Prop :=
  file_text p d = journal_text es.

Lemma journal_text_snoc es e : journal_text (es ++ [e]) = journal_text es +:+ (journal_line e +:+ newline).
Proof.
  unfold journal_text. rewrite fmap_app, unlines_app. cbn. by rewrite string_app_nil_r.
Qed.

Lemma file_text_append p s d : file_text p (append_text p s d) = file_text p d +:+ s.
Proof. unfold file_text at 1, append_text. cbn. by rewrite lookup_insert_eq. Qed.

(** What an append may leave of a journal that held [t]: the line in full when it
    succeeds, and otherwise at most a first part of it. *)
Definition appended (p : Path) (t : string) (e : JournalEntry) (r : Res unit) (d : Disk) : Prop :=
  match r with
  | Ok _ => file_text p d = t +:+ (journal_line e +:+ newline)
  | Err _ => exists n, file_text p d = t +:+ String.substring 0 n (journal_line e +:+ newline)
  end.

Lemma substring_0_0 s : String.substring 0 0 s = "".
Proof. by destruct s. Qed.

(** A prefix of a prefix of the line is a prefix of the line. *)
Lemma substring_app n a b : exists m, String.substring 0 n a = String.substring 0 m (a +:+ b).
Proof.
  revert n. induction a as [|x a IH]; intros n.
  - exists 0. rewrite substring_0_0. by destruct n.
  - destruct n as [|n]; [by exists 0|]. destruct (IH n) as [m Hm]. exists (S m).
    change (String x (String.substring 0 n a) = String x (String.substring 0 m (a +:+ b))). by rewrite Hm.
Qed.

Lemma triple_journal_append p e t :
  triple (fun d => file_text p d = t) (journal_append_checked p e) (appended p t e).
Proof.
  set (P := fun d => file_text p d = t).
  assert (Herr : forall e' d, P d -> appended p t e (Err e') d).
  { intros e' d Hd. exists 0. rewrite substring_0_0, string_app_nil_r. exact Hd. }
  assert (Hprefix : forall n a b d, a +:+ b = journal_line e +:+ newline -> P d ->
    exists m, file_text p (append_text p (String.substring 0 n a) d) =
      t +:+ String.substring 0 m (journal_line e +:+ newline)).
  { intros n a b d Hab Hd. destruct (substring_app n a b) as [m Hm]. exists m.
    rewrite file_text_append, Hd, Hm, Hab. done. }
  unfold journal_append_checked. apply triple_check_bind; [|done].
  eapply triple_bind; [apply (triple_io P _ (fun _ => P)); done| |done]. intros []. cbn.
  apply triple_check_bind; [|done].
  eapply (triple_bind _ _ _ (fun _ => P)); [|intros []|done].
  { unfold open_append. eapply triple_bind; [apply (triple_io P _ (fun _ => P)); done| |done].
    intros []. cbn. apply triple_modify. intros d Hd. unfold P. by rewrite file_text_append, string_app_nil_r. }
  apply triple_check_bind; [|done].
  unfold write_journal_line_checked, write_all, flush.
  eapply (triple_bind _ _ _ (fun r d => match r with
    | Ok b => P d /\ b = journal_line e +:+ newline | Err e' => appended p t e (Err e') d end));
    [|intros b|done].
  - apply triple_check_bind; [|done].
    eapply (triple_bind _ _ _ (fun r d => match r with
      | Ok b => P d /\ b = journal_line e | Err e' => appended p t e (Err e') d end)); [|intros b|done];
      (apply triple_attempt_bind; [done|]); intros [f|].
    + eapply triple_bind; [apply (triple_modify P _ (fun _ => appended p t e (Err Paused)))| |done].
      * intros d Hd. by apply (Hprefix _ _ newline).
      * intros []. by apply triple_fail.
    + apply triple_ret. by intros d Hd.
    + eapply triple_bind; [apply (triple_modify _ _ (fun _ => appended p t e (Err Paused)))| |done].
      * intros d [Hd ->]. apply (Hprefix _ _ ""); [by rewrite string_app_nil_r|done].
      * intros []. by apply triple_fail.
    + apply triple_ret. by intros d [Hd ->].
  - apply triple_attempt_bind; [done|]. intros [f|].
    + eapply triple_bind; [apply (triple_modify _ _ (fun _ => appended p t e (Err Paused)))| |done].
      * intros d [Hd ->]. apply (Hprefix _ _ ""); [by rewrite string_app_nil_r|done].
      * intros []. by apply triple_fail.
    + apply triple_modify. intros d [Hd ->]. cbn. by rewrite file_text_append, Hd.
Qed.

(** On a healthy disk only a poll can stop an append, and then nothing is written. *)
Lemma triple_attempt_healthy {B} (P : Disk -> Prop) (f : option Fault -> M Disk B) Q :
  (forall d, P d -> healthy d /\ P (tick d)) -> triple P (f None) Q -> triple P (mbind attempt f) Q.
Proof.
  intros Hp Hf c k d Hd. destruct (Hp d Hd) as [Hh Ht]. unfold mbind, attempt. rewrite Hh. by apply Hf.
Qed.

Lemma healthy_append_text p s d : healthy d -> healthy (append_text p s d).
Proof. done. Qed.

Lemma triple_append_healthy p e t :
  triple (fun d => healthy d /\ file_text p d = t) (journal_append_checked p e)
    (fun r d => healthy d /\ file_text p d =
       match r with Ok _ => t +:+ (journal_line e +:+ newline) | Err _ => t end).
Proof.
  set (P := fun d => healthy d /\ file_text p d = t).
  assert (Ht : forall d, P d -> healthy d /\ P (tick d)) by (intros d [Hh Hd]; done).
  unfold journal_append_checked, create_dir_all, io. apply triple_check_bind; [|done].
  eapply (triple_bind _ _ _ (fun _ => P)); [by apply triple_attempt_healthy, triple_ret|intros []|done].
  apply triple_check_bind; [|done].
  eapply (triple_bind _ _ _ (fun _ => P)); [|intros []|done].
  { unfold open_append, io. eapply (triple_bind _ _ _ (fun _ => P));
      [by apply triple_attempt_healthy, triple_ret|intros []|done].
    apply triple_modify. intros d [Hh Hd]. split; [done|].
    by rewrite file_text_append, string_app_nil_r. }
  apply triple_check_bind; [|done]. unfold write_journal_line_checked, write_all, flush.
  eapply (triple_bind _ _ _ (fun r d => P d /\ match r with
    | Ok b => b = journal_line e +:+ newline | Err _ => True end)); [|intros b|by intros e' d [? _]].
  - apply triple_check_bind; [|by intros e' d Hd].
    eapply (triple_bind _ _ _ (fun r d => P d /\ match r with Ok b => b = journal_line e | Err _ => True end));
      [|intros b|by intros e' d [? _]].
    + apply triple_attempt_healthy; [done|]. by apply triple_ret.
    + apply triple_attempt_healthy; [by intros d [[Hh Hd] ->]|]. apply triple_ret. by intros d [Hd ->].
  - apply triple_attempt_healthy; [by intros d [[Hh Hd] ->]|].
    apply triple_modify. intros d [[Hh Hd] ->]. split; [done|]. cbn. by rewrite file_text_append, Hd.
Qed.

Lemma cooperative_attempt : cooperative attempt.
Proof. intros c k d. cbn. split; [lia|]. left. split; [lia|done]. Qed.
#[local] Hint Resolve cooperative_attempt : ctl.

Lemma journal_append_cooperative p e : cooperative (journal_append_checked p e).
Proof.
  unfold journal_append_checked, create_dir_all, open_append, io, write_journal_line_checked,
    write_all, flush. ctl_auto.
Qed.
Lemma journal_append_succeeds p e : succeeds (journal_append_checked p e).
Proof.
  unfold journal_append_checked, create_dir_all, open_append, write_journal_line_checked,
    write_all, flush. succeeds_auto.
Qed.

(** One append on a healthy disk under any closure. *)
Lemma append_cases p e c k d :
  healthy d ->
  let '(r, k', d') := journal_append_checked p e c k d in
  healthy d' /\
  match r with
  | Ok _ => file_text p d' = file_text p d +:+ (journal_line e +:+ newline)
  | Err err => file_text p d' = file_text p d /\ exists j, c j = Some err
  end.
Proof.
  intros Hh. pose proof (triple_append_healthy p e (file_text p d) c k d (conj Hh eq_refl)) as Ht.
  pose proof (journal_append_cooperative p e c k d) as Hc.
  destruct (journal_append_succeeds p e d Hh) as ([] & d1 & Hr & _). destruct (Hr k) as [k1 Hk].
  destruct (journal_append_checked p e c k d) as [[[u|err] k'] d']; destruct Ht as [Hh' Ht].
  - done.
  - split; [done|]. split; [done|].
    destruct Hc as [_ [[_ Hn]|(e0 & [= <-] & _ & Hj & _)]]; [congruence|by eexists].
Qed.

(** The append without a control always succeeds there. *)
Lemma unchecked_append p e c k d :
  healthy d -> exists d', mtry (unchecked (journal_append_checked p e)) c k d = (Ok (Ok tt), k, d') /\
    healthy d' /\ file_text p d' = file_text p d +:+ (journal_line e +:+ newline).
Proof.
  intros Hh. pose proof (append_cases p e never 0 d Hh) as Ha. unfold mtry, unchecked.
  destruct (journal_append_checked p e never 0 d) as [[[[]|err] k'] d'].
  - exists d'. by destruct Ha.
  - by destruct Ha as (_ & _ & j & Hj).
Qed.

Lemma append_or_fail_healthy p e ok c k d :
  healthy d -> exists d', append_or_fail p e ok c k d = (Ok ok, k, d') /\
    healthy d' /\ file_text p d' = file_text p d +:+ (journal_line e +:+ newline).
Proof.
  intros Hh. destruct (unchecked_append p e c k d Hh) as (d' & Hr & Hh' & Ht).
  exists d'. unfold append_or_fail, mbind. by rewrite Hr.
Qed.

(** ** Reading the entries back *)

(** What [journal_read_checked] returns of a journal's text. *)
Definition journal_means (p : Path) (d : Disk) : Res (list JournalEntry) :=
  match files d !! p with None => Ok [] | Some t => rows_of keep_all p 1 [] (lines t) end.

Lemma holds_means p es d : Forall entry_ok es -> holds p es d -> journal_means p d = Ok es.
Proof.
  intros Hok Hd. unfold holds, file_text, journal_text in Hd. unfold journal_means.
  destruct (files d !! p) as [t|]; cbn in Hd.
  - rewrite Hd, lines_unlines.
    + change (journal_line <$> es) with (as_tsv <$> es). rewrite rows_of_written by done.
      by rewrite foldl_keep_all.
    + apply Forall_fmap, Forall_true. intros e. apply journal_line_ok.
  - destruct es as [|e es]; [done|]. exfalso. revert Hd. cbn [fmap list_fmap unlines].
    by destruct (journal_line e).
Qed.

Lemma journal_read_runs p d :
  healthy d -> exists d', runs (journal_read_checked p) d (journal_means p d) d' /\ same_files d d'.
Proof.
  intros Hd. unfold journal_read_checked, journal_means.
  destruct (files d !! p) as [text|] eqn:Ht.
  2:{ exists (tick d). split; [|done]. runs_step.
      eapply runs_bind; [unfold path_exists; eapply runs_bind; [by apply runs_attempt|apply runs_gets]|].
      cbn. rewrite Ht. cbn. apply runs_ret. }
  destruct (read_loop_runs p keep_all (lines text) (S (length (lines text))) 1%N [] (tick (tick d)))
    as (d' & Hr & Hs); [done|lia|].
  exists d'. split; [|done]. runs_step.
  eapply runs_bind; [unfold path_exists; eapply runs_bind; [by apply runs_attempt|apply runs_gets]|].
  cbn -[read_rows_loop rows_of]. rewrite Ht. cbn -[read_rows_loop rows_of]. runs_step.
  eapply runs_bind.
  { unfold open_file, io. eapply runs_bind; [eapply runs_bind; [by apply runs_attempt|apply runs_ret]|].
    eapply runs_bind; [apply runs_gets|]. cbn. rewrite Ht. apply runs_ret. }
  runs_step. destruct (rows_of keep_all p 1 [] (lines text)) as [es|e].
  - eapply runs_bind; [exact Hr|]. runs_step. apply runs_ret.
  - apply runs_bind_err. exact Hr.
Qed.

Lemma triple_journal_read p d0 :
  triple (same_files d0) (journal_read_checked p)
    (fun r d => same_files d0 d /\ forall es, r = Ok es -> journal_means p d0 = Ok es).
Proof.
  unfold journal_read_checked. apply triple_check_bind; [|by intros e d Hd].
  eapply triple_bind; [apply triple_path_exists| |by intros e d [? _]].
  intros [|]; cbn [negb].
  2:{ apply triple_ret. intros d [Hd Hex]. split; [done|]. intros es [= <-].
      specialize (Hex false eq_refl). unfold journal_means. destruct (files d0 !! p); [|done].
      symmetry in Hex. apply bool_decide_eq_false in Hex. by destruct Hex. }
  apply triple_check_bind; [|by intros e d [? _]].
  eapply triple_bind.
  { eapply triple_weaken; [apply triple_open_file|by intros d [? _]|by intros r d Hr; exact Hr]. }
  2:{ by intros e d [? _]. }
  intros text. apply triple_check_bind; [|by intros e d [? _]].
  intros c k d [Hd Ht]. specialize (Ht text eq_refl). revert c k d Hd.
  unfold journal_means. rewrite Ht.
  eapply (triple_bind (same_files d0)); [apply (triple_read_loop p keep_all d0); lia| |by intros e d [? _]].
  intros es. apply triple_check_bind; [|by intros e d [? _]].
  apply triple_ret. intros d [Hd Hes]. split; [done|]. intros ? [= <-]. by apply Hes.
Qed.

(** an append to a journal that holds some entries, whatever the closure
    says and whichever calls on the disk fail, adds exactly the new entry when it
    succeeds and otherwise leaves at most an unfinished last line; it succeeds
    when nothing interrupts it, and a journal holding entries in range reads back
    as those entries (under interruption, reading returns them or an error, and
    writes nothing). *)
Theorem journal_append_read (p : Path) (es : list JournalEntry) (e : JournalEntry) (c : Control) (d : Disk) :
  Forall entry_ok es -> entry_ok e -> holds p es d ->
  let '(r, d') := run (journal_append_checked p e) c d in
  match r with
  | Ok _ => holds p (es ++ [e]) d' /\
      (healthy d' -> exists d'', run (journal_read_checked p) never d' = (Ok (es ++ [e]), d'')) /\
      forall c' r' d'', run (journal_read_checked p) c' d' = (r', d'') ->
        files d'' = files d' /\ (forall es', r' = Ok es' -> es' = es ++ [e])
  | Err err => (exists n, file_text p d' = journal_text es +:+ String.substring 0 n (journal_line e +:+ newline)) /\
      (healthy d -> exists j, c j = Some err)
  end.
Proof.
  intros Hes He Hd. unfold run.
  pose proof (triple_journal_append p e (journal_text es) c 0 d Hd) as Ht.
  pose proof (append_cases p e c 0 d) as Hh.
  destruct (journal_append_checked p e c 0 d) as [[[[]|err] k'] d'].
  2:{ split; [exact Ht|]. intros Hd'. by destruct (Hh Hd') as (_ & _ & Hj). }
  assert (Hd' : holds p (es ++ [e]) d') by (unfold holds; by rewrite journal_text_snoc).
  assert (Hm : journal_means p d' = Ok (es ++ [e])).
  { apply holds_means; [|done]. apply Forall_app. split; [done|]. by apply Forall_singleton. }
  split_and!; [done| |].
  - intros Hhd. destruct (journal_read_runs p d' Hhd) as (d2 & Hr & _). exists d2.
    rewrite Hm in Hr. by apply runs_run.
  - intros c' r' d2 Hr. apply (triple_run _ _ _ c' d' r' d2 (triple_journal_read p d')) in Hr as [Hs Hr]; [|done].
    split; [by destruct Hs|]. intros es' ->. specialize (Hr es' eq_refl). congruence.
Qed.

(** ** What the journal says of a job *)
Section RecoveryState.

(** The state of [id] after the entries. *)
Definition step_state (id : JobId) (o : option JobRecoveryState) (e : JournalEntry) : option JobRecoveryState :=
  if decide (entry_id e = id) then
    Some (match o with Some s => apply_entry e s | None => from_entry e end)
  else o.
Definition state_of (id : JobId) (es : list JournalEntry) : option JobRecoveryState :=
  foldl (step_state id) None es.

Fixpoint find_state (id : JobId) (l : list JobRecoveryState) : option JobRecoveryState :=
  match l with
  | [] => None
  | s :: l' => if decide (state_id s = id) then Some s else find_state id l'
  end.

Lemma find_state_id id l s : find_state id l = Some s -> state_id s = id.
Proof. induction l as [|x l IH]; cbn; [done|]. case_decide; [by intros [= <-]|done]. Qed.

Lemma find_state_elem l s :
  NoDup (state_id <$> l) -> s ∈ l <-> find_state (state_id s) l = Some s.
Proof.
  induction l as [|x l IH]; cbn; [by rewrite elem_of_nil|].
  intros [Hx Hnd]%NoDup_cons. rewrite elem_of_cons. case_decide as Hid.
  - split; [intros [->|Hs]; [done|]|by intros [= ->]; left].
    exfalso. apply Hx. rewrite Hid. by apply list_elem_of_fmap_2.
  - rewrite IH by done. split; [by intros [->|?]|by right].
Qed.

Lemma find_add_entry id l e :
  find_state id (add_entry l e) = step_state id (find_state id l) e.
Proof.
  unfold step_state. induction l as [|x l IH]; cbn; [done|].
  destruct (decide (state_id x = entry_id e)) as [Hx|Hx]; cbn; rewrite ?IH; repeat case_decide;
    try done; congruence.
Qed.

Lemma add_entry_ids l e :
  state_id <$> add_entry l e =
    if decide (entry_id e ∈ state_id <$> l) then state_id <$> l else (state_id <$> l) ++ [entry_id e].
Proof.
  induction l as [|x l IH].
  { rewrite decide_False by apply not_elem_of_nil. done. }
  cbn [add_entry]. destruct (decide (state_id x = entry_id e)) as [Hx|Hx]; rewrite !fmap_cons.
  - rewrite decide_True by (rewrite <- Hx; left). done.
  - rewrite IH. repeat case_decide; try done; exfalso; set_solver.
Qed.

Lemma states_spec es :
  NoDup (state_id <$> foldl add_entry [] es) /\
  forall id, find_state id (foldl add_entry [] es) = state_of id es.
Proof.
  induction es as [|e es IH] using rev_ind; [split; [constructor|done]|].
  unfold state_of in *. rewrite foldl_snoc. destruct IH as [Hnd Hf]. split.
  - rewrite add_entry_ids. case_decide; [done|]. by apply NoDup_filter_snoc.
  - intros id. by rewrite find_add_entry, Hf, foldl_snoc.
Qed.

(** The last entry of [id], and its largest attempt number. *)
Definition entries_of (id : JobId) (es : list JournalEntry) : list JournalEntry :=
  filter (fun e => entry_id e = id) es.
Definition attempt_of (id : JobId) (es : list JournalEntry) : N :=
  foldr N.max 0%N (entry_attempt <$> entries_of id es).

Lemma foldr_max_app l k : foldr N.max 0%N (l ++ k) = N.max (foldr N.max 0%N l) (foldr N.max 0%N k).
Proof. induction l as [|x l IH]; cbn; [lia|]. rewrite IH. lia. Qed.

Lemma state_of_spec id es :
  state_of id es = e ← last (entries_of id es);
    Some (mkRecoveryState id (entry_label e) (attempt_of id es) (Some (entry_status e))).
Proof.
  induction es as [|e es IH] using rev_ind; [done|].
  unfold state_of. rewrite foldl_snoc. fold (state_of id es). rewrite IH.
  unfold attempt_of, entries_of. rewrite filter_app. unfold step_state.
  destruct (decide (entry_id e = id)) as [<-|Hid].
  - rewrite filter_cons_True, filter_nil by done. rewrite last_snoc. cbn.
    rewrite fmap_app, foldr_max_app. cbn.
    destruct (last (filter _ es)) as [e'|] eqn:Hl; cbn; unfold from_entry, apply_entry; cbn.
    + do 2 f_equal. lia.
    + apply last_None in Hl. rewrite Hl. cbn. do 2 f_equal. lia.
  - rewrite filter_cons_False, filter_nil, app_nil_r by done. done.
Qed.
End RecoveryState.

Lemma recovery_of_id policy s r : recovery_of policy s = Some r -> recovery_id r = state_id s.
Proof. unfold recovery_of. intros Hr. repeat case_match; by simplify_eq/=. Qed.

Lemma recoverable_elem policy es r :
  r ∈ recoverable_in policy es <->
  exists s, state_of (recovery_id r) es = Some s /\ recovery_of policy s = Some r.
Proof.
  unfold recoverable_in. rewrite sort_by_key_elem, list_elem_of_omap.
  destruct (states_spec es) as [Hnd Hf]. split.
  - intros (s & Hs & Hr). exists s. split; [|done]. apply (find_state_elem _ _ Hnd) in Hs.
    by rewrite Hf in Hs; rewrite (recovery_of_id _ _ _ Hr).
  - intros (s & Hs & Hr). exists s. split; [|done]. apply (find_state_elem _ _ Hnd).
    by rewrite Hf, <- (recovery_of_id _ _ _ Hr).
Qed.

Lemma recoverable_ids_nodup policy es : NoDup (recovery_id <$> recoverable_in policy es).
Proof.
  unfold recoverable_in. rewrite sort_by_key_perm.
  destruct (states_spec es) as [Hnd _]. revert Hnd.
  induction (foldl add_entry [] es) as [|s l IH]; cbn; [constructor|].
  intros [Hs Hnd]%NoDup_cons. destruct (recovery_of policy s) as [r|] eqn:Hr; [|by apply IH].
  cbn. apply NoDup_cons. split; [|by apply IH].
  rewrite list_elem_of_fmap. intros (r' & Hid & Hr'). apply list_elem_of_omap in Hr' as (s' & Hs' & Hr').
  apply Hs. rewrite <- (recovery_of_id _ _ _ Hr), Hid, (recovery_of_id _ _ _ Hr').
  by apply list_elem_of_fmap_2.
Qed.

(** when does the last word on a job call for another run, and which *)
Definition resumes (policy : RetryPolicy) (attempts : N) (st : TaskStatus) (r : RecoveryJob) : Prop :=
  match st with
  | Started => reason r = Interrupted /\ failure_class r = None /\ recovery_delay_ms r = 0%N
  | Failed m =>
      class_retryable (classify m) = true /\ (attempts < N.max (max_attempts policy) 1)%N /\
      reason r = RetryableFailure /\ failure_class r = Some (classify m) /\
      recovery_delay_ms r = retry_backoff_ms (classify m) attempts
  | Completed | CancelledStatus => False
  end.

Lemma recovery_of_spec policy id l a st r :
  recovery_of policy (mkRecoveryState id l a (Some st)) = Some r <->
  recovery_id r = id /\ recovery_label r = l /\ recovery_attempts r = a /\ resumes policy a st r.
Proof.
  destruct r as [rid rl ra rr rc rd]. unfold recovery_of, resumes, retry_decision, classify_failure.
  cbn. destruct st as [| | |m]; try (split; [done|by intros (_ & _ & _ & [])]).
  - split; [by intros [= <- <- <- <- <- <-]|]. by intros (-> & -> & -> & -> & -> & ->).
  - destruct (class_retryable (classify m)) eqn:Hc; cbn; [|split; [done|by intros (_&_&_&?&_)]].
    destruct (N.ltb_spec a (N.max (max_attempts policy) 1)) as [Hlt|Hge]; cbn.
    + split; [by intros [= <- <- <- <- <- <-]|]. by intros (-> & -> & -> & _ & _ & -> & -> & ->).
    + split; [done|]. intros (_ & _ & _ & _ & Hlt & _). lia.
Qed.

Lemma recoverable_last policy es r :
  r ∈ recoverable_in policy es <->
  exists e, last (entries_of (recovery_id r) es) = Some e /\
    recovery_label r = entry_label e /\
    recovery_attempts r = attempt_of (recovery_id r) es /\
    resumes policy (attempt_of (recovery_id r) es) (entry_status e) r.
Proof.
  rewrite recoverable_elem. split.
  - intros (s & Hs & Hr). rewrite state_of_spec in Hs.
    destruct (last (entries_of (recovery_id r) es)) as [e|]; [|done]. cbn in Hs. simplify_eq.
    apply recovery_of_spec in Hr as (_ & Hl & Ha & Hr). by exists e.
  - intros (e & Hl & Hlab & Ha & Hr). eexists. rewrite state_of_spec, Hl. split; [done|].
    by apply recovery_of_spec.
Qed.

(** the jobs to run again are listed once each in the order of their
    identifiers, and a job is listed exactly when its last entry is a start (an
    interrupted attempt) or a failure of a retryable class with attempts left; the
    label is that of the last entry, the attempts are the largest number
    recorded, and the class and delay are those of the retry policy. *)
Theorem recoverable_spec (policy : RetryPolicy) (es : list JournalEntry) :
  StronglySorted (fun r1 r2 => recovery_id r1 < recovery_id r2)%N (recoverable_in policy es) /\
  forall r, r ∈ recoverable_in policy es <->
    exists e, last (entries_of (recovery_id r) es) = Some e /\
      recovery_label r = entry_label e /\
      recovery_attempts r = attempt_of (recovery_id r) es /\
      resumes policy (attempt_of (recovery_id r) es) (entry_status e) r.
Proof.
  split; [|apply recoverable_last].
  pose proof (recoverable_ids_nodup policy es) as Hnd.
  assert (Hs : StronglySorted (key_le recovery_id) (recoverable_in policy es)) by apply sort_by_key_sorted.
  revert Hnd Hs. generalize (recoverable_in policy es). intros l Hnd.
  induction 1 as [|r l Hl IH Hr]; constructor; apply NoDup_cons in Hnd as [Hn Hnd]; [by apply IH|].
  apply Forall_forall. intros r' Hr'. rewrite Forall_forall in Hr. specialize (Hr r' Hr'). unfold key_le in Hr.
  assert (recovery_id r <> recovery_id r'); [|lia].
  intros Heq. apply Hn. rewrite Heq. by apply list_elem_of_fmap_2.
Qed.

(** ** What an execution writes *)

(** The sleep ends within its fuel: [true] when no poll saw a cancellation. *)
Lemma sleep_loop_spec c d fuel : forall remaining k,
  (remaining + 5 <= 5 * N.of_nat fuel)%N ->
  exists b k', sleep_loop fuel remaining c k d = (Ok b, k', d) /\
    if b then forall j, k <= j < k' -> c j = None else exists j e, c j = Some e.
Proof.
  induction fuel as [|fuel IH]; intros r k Hf; [lia|]. cbn [sleep_loop].
  unfold is_cancelled, mbind, poll, mret.
  destruct (N.ltb_spec 0 r) as [Hr|Hr]; destruct (c k) as [e|] eqn:Hk; cbn [negb].
  - eexists false, _. split; [done|]. eauto.
  - destruct (IH (r - N.min r 5)%N (S k)) as (b & k' & Hb & Hj); [lia|].
    exists b, k'. split; [exact Hb|]. destruct b; [|done]. intros j Hlt.
    destruct (decide (j = k)) as [->|]; [done|]. apply Hj. lia.
  - eexists false, _. split; [done|]. eauto.
  - eexists true, _. split; [done|]. intros j Hj. by replace j with k by lia.
Qed.

Lemma sleep_spec delay c k d :
  exists b k', sleep_retry_backoff_cancellable delay c k d = (Ok b, k', d) /\
    if b then forall j, k <= j < k' -> c j = None else exists j e, c j = Some e.
Proof.
  apply sleep_loop_spec. rewrite N2Nat.id. pose proof (N.div_mod delay 5 ltac:(done)).
  pose proof (N.mod_lt delay 5 ltac:(done)). lia.
Qed.

Section ExecuteTrace.
Variable journal : Path.
Variable job : Job.
Variable policy : RetryPolicy.
Variable work : N -> Res unit.
(** The observations of the task's token. *)
Variable seen : nat -> bool.
#[local] Abbreviation limit := (N.max (max_attempts policy) 1).
#[local] Abbreviation started a := (entry_for job a Started).
#[local] Abbreviation finished a := (entry_for job a (status_of (work a))).

Definition is_retried (a : N) (st : TaskStatus) : bool :=
  match st with Failed m => retryable (retry_decision policy a m) | _ => false end.

(** The lines an execution writes from attempt [a] on, and how it ends. *)
Inductive Attempts : N -> list JournalEntry -> TaskStatus -> Prop :=
  | AttemptCancelledBefore a j :
      seen j = true -> Attempts a [] CancelledStatus
  | AttemptLast a :
      is_retried a (status_of (work a)) = false ->
      Attempts a [started a; finished a] (status_of (work a))
  | AttemptCancelledAfter a j m :
      status_of (work a) = Failed m -> seen j = true ->
      Attempts a [started a; finished a; entry_for job a CancelledStatus] CancelledStatus
  | AttemptRetried a tr st :
      is_retried a (status_of (work a)) = true ->
      Attempts (a + 1) tr st ->
      Attempts a (started a :: finished a :: tr) st.

Lemma observes_seen k e : observes seen k = Some e -> seen k = true /\ e = Cancelled.
Proof. unfold observes. case_match; [|done]. by intros [= <-]. Qed.

Lemma retried_below a st : is_retried a st = true -> (a < limit)%N.
Proof. destruct st; cbn; [done..|]. rewrite andb_true_iff, N.ltb_lt. tauto. Qed.

Lemma is_cancelled_poll k d :
  is_cancelled (observes seen) k d = (Ok (seen k), S k, d).
Proof. unfold is_cancelled, mbind, poll, mret, observes. by destruct (seen k). Qed.

(** Text with the lines of [l] after it, and one line more. *)
Lemma text_snoc t l e :
  (t +:+ journal_text l) +:+ (journal_line e +:+ newline) = t +:+ journal_text (l ++ [e]).
Proof. by rewrite journal_text_snoc, string_app_assoc. Qed.
Lemma journal_text_app l1 l2 : journal_text (l1 ++ l2) = journal_text l1 +:+ journal_text l2.
Proof. unfold journal_text. by rewrite fmap_app, unlines_app. Qed.
Lemma text_app t l1 l2 : (t +:+ journal_text l1) +:+ journal_text l2 = t +:+ journal_text (l1 ++ l2).
Proof. unfold journal_text. by rewrite fmap_app, unlines_app, string_app_assoc. Qed.

(** An execution that ends having written [tr] from [d] on. *)
Definition ends (a : N) (d : Disk) (out : Res TaskStatus * nat * Disk) : Prop :=
  exists tr st k' d', out = (Ok st, k', d') /\ healthy d' /\
    file_text journal d' = file_text journal d +:+ journal_text tr /\ Attempts a tr st.

Lemma ends_nil a d d' k j :
  seen j = true -> healthy d' -> file_text journal d' = file_text journal d ->
  ends a d (Ok CancelledStatus, k, d').
Proof.
  intros Hj Hh Ht. exists [], CancelledStatus, k, d'. split_and!; [done..| |by eapply AttemptCancelledBefore].
  by rewrite Ht, string_app_nil_r.
Qed.

(** The cancellation of an attempt that failed. *)
Lemma ends_cancelled a m d d2 c k j :
  status_of (work a) = Failed m -> seen j = true -> healthy d2 ->
  file_text journal d2 = file_text journal d +:+ journal_text [started a; finished a] ->
  ends a d (append_or_fail journal (entry_for job a CancelledStatus) CancelledStatus c k d2).
Proof.
  intros Hm Hj Hh Ht.
  destruct (append_or_fail_healthy journal (entry_for job a CancelledStatus) CancelledStatus c k d2 Hh)
    as (d3 & -> & Hh3 & Ht3).
  exists [started a; finished a; entry_for job a CancelledStatus], CancelledStatus, k, d3.
  split_and!; [done..| |by eapply AttemptCancelledAfter]. by rewrite Ht3, Ht, text_snoc.
Qed.

(** One turn of the loop: it ends the execution, or goes on with a retry. *)
Lemma attempt_turn fuel a prev k d out :
  healthy d -> (a <= limit)%N ->
  attempt_loop journal job policy work (S fuel) a limit prev (observes seen) k d = out ->
  ends a d out \/
  exists k' d', attempt_loop journal job policy work fuel (a + 1) limit (status_of (work a))
       (observes seen) k' d' = out /\
     healthy d' /\ is_retried a (status_of (work a)) = true /\
     file_text journal d' = file_text journal d +:+ journal_text [started a; finished a].
Proof.
  intros Hh Ha. cbn [attempt_loop]. rewrite (proj2 (N.ltb_ge _ _) Ha).
  unfold mbind at 1. rewrite is_cancelled_poll. destruct (seen k) eqn:Hk.
  { intros <-. left. by eapply ends_nil. }
  pose proof (append_cases journal (started a) (observes seen) (S k) d Hh) as Happ.
  unfold mbind at 1, mtry at 1.
  destruct (journal_append_checked journal (started a) (observes seen) (S k) d) as [[[u|err] k1] d1].
  2:{ destruct Happ as (Hh1 & Ht & j & [Hj ->]%observes_seen). intros <-. left. by eapply ends_nil. }
  destruct Happ as [Hh1 Ht1].
  destruct (unchecked_append journal (finished a) (observes seen) k1 d1 Hh1) as (d2 & Hr2 & Hh2 & Ht2).
  cbv zeta. unfold mbind at 1. rewrite Hr2.
  assert (Ht : file_text journal d2 = file_text journal d +:+ journal_text [started a; finished a]).
  { rewrite Ht2, Ht1. rewrite <- (string_app_nil_r (file_text journal d)) at 1.
    change "" with (journal_text []). by rewrite !text_snoc. }
  assert (Hlast : forall k2, is_retried a (status_of (work a)) = false ->
    ends a d (Ok (status_of (work a)), k2, d2)).
  { intros k2 Hr. exists [started a; finished a], (status_of (work a)), k2, d2.
    split_and!; [done..|by apply AttemptLast]. }
  destruct (status_of (work a)) as [| | |m] eqn:Hst; [intros <-; left; by apply Hlast..|].
  unfold mbind at 1. rewrite is_cancelled_poll. destruct (seen k1) eqn:Hk1.
  { intros <-. left. eapply ends_cancelled; [done|exact Hk1|done|]. by rewrite Hst. }
  destruct (retryable (retry_decision policy a m)) eqn:Hret; cbn [negb].
  2:{ intros <-. left. by apply Hlast. }
  destruct ((0 <? next_delay_ms (retry_decision policy a m))%N && (a <? limit)%N).
  2:{ intros Hout. right. by exists (S k1), d2. }
  unfold mbind. destruct (sleep_spec (next_delay_ms (retry_decision policy a m)) (observes seen) (S k1) d2)
    as ([|] & k2 & -> & Hs).
  - intros Hout. right. by exists k2, d2.
  - destruct Hs as (j & e & [Hj _]%observes_seen). intros <-. left.
    eapply ends_cancelled; [done|exact Hj|done|]. by rewrite Hst.
Qed.

Lemma attempt_loop_ends fuel : forall a prev k d,
  healthy d -> (a <= limit)%N -> (limit - a < N.of_nat fuel)%N ->
  ends a d (attempt_loop journal job policy work fuel a limit prev (observes seen) k d).
Proof.
  induction fuel as [|fuel IH]; intros a prev k d Hh Ha Hf; [lia|].
  destruct (attempt_turn fuel a prev k d _ Hh Ha eq_refl) as [He|(k' & d1 & Hout & Hh1 & Hr & Ht)]; [done|].
  pose proof (retried_below _ _ Hr) as Hlt.
  destruct (IH (a + 1)%N (status_of (work a)) k' d1 Hh1) as (tr & st & k2 & d2 & Ho & Hh2 & Ht2 & Htr); [lia..|].
  rewrite Hout in Ho. exists (started a :: finished a :: tr), st, k2, d2.
  split_and!; [done|done| |by apply AttemptRetried]. by rewrite Ht2, Ht, text_app.
Qed.

Lemma execute_ends c d :
  c = observes seen -> healthy d ->
  exists tr st d', run (execute_retriable_task journal job policy work) c d = (Ok st, d') /\
    healthy d' /\ file_text journal d' = file_text journal d +:+ journal_text tr /\ Attempts 1 tr st.
Proof.
  intros -> Hh.
  destruct (attempt_loop_ends (N.to_nat limit + 1) 1 (Failed "task did not run") 0 d Hh ltac:(lia) ltac:(lia))
    as (tr & st & k & d' & Hr & Hh' & Ht & Htr).
  exists tr, st, d'. split; [|done]. unfold run, execute_retriable_task. by rewrite Hr.
Qed.

(** *** Facts on traces *)
Lemma attempts_id a tr st e : Attempts a tr st -> e ∈ tr -> entry_id e = job_id job /\ (a <= entry_attempt e)%N.
Proof.
  intros Ht. revert e. induction Ht as [a j Hj|a Hr|a j m Hm Hj|a tr st Hr Ht IH]; intros e He; set_unfold in He.
  - done.
  - destruct_or? He; subst; cbn; split; done || lia.
  - destruct_or? He; subst; cbn; split; done || lia.
  - destruct He as [->|[->|He]]; cbn; [split; done || lia..|]. destruct (IH e He). split; [done|lia].
Qed.

Lemma attempts_bound a tr st e : Attempts a tr st -> (a <= limit)%N -> e ∈ tr -> (entry_attempt e <= limit)%N.
Proof.
  intros Ht. revert e. induction Ht as [a j Hj|a Hr|a j m Hm Hj|a tr st Hr Ht IH]; intros e Ha He; set_unfold in He.
  - done.
  - destruct_or? He; subst; cbn; lia.
  - destruct_or? He; subst; cbn; lia.
  - apply retried_below in Hr. destruct He as [->|[->|He]]; cbn; [lia..|]. apply IH; [lia|done].
Qed.

(** The last line: its status is the one the execution ends with, and not one to
    resume from; or it is a failure to retry that a cancellation followed. *)
Lemma attempts_last a tr st :
  Attempts a tr st -> tr = [] \/ exists l e, tr = l ++ [e] /\
    (entry_status e = st /\ is_retried (entry_attempt e) st = false /\ st <> Started \/
     st = CancelledStatus /\ is_retried (entry_attempt e) (entry_status e) = true).
Proof.
  induction 1 as [a j Hj|a Hr|a j m Hm Hj|a tr st Hr Ht IH]; [by left|right..].
  - exists [started a], (finished a). split; [done|]. left. split_and!; [done..|].
    cbn. by destruct (work a) as [|[]].
  - exists [started a; finished a], (entry_for job a CancelledStatus). split; [done|]. by left.
  - destruct IH as [->|(l & e & -> & IH)].
    + exists [started a], (finished a). split; [done|]. right. split; [|done]. by inversion Ht.
    + by exists (started a :: finished a :: l), e.
Qed.

Lemma attempts_entries_of a tr st id : Attempts a tr st -> id <> job_id job -> entries_of id tr = [].
Proof.
  intros Ht Hid. apply filter_none. intros e He Heq. apply (attempts_id _ _ _ _ Ht) in He as [He _]. congruence.
Qed.

(** *** Executions that are not cancelled *)
Definition attempt_lines (n : nat) : list JournalEntry :=
  concat ((fun i => [started (N.of_nat i); finished (N.of_nat i)]) <$> seq 1 n).

Lemma attempts_uncancelled a tr st :
  Attempts a tr st -> (forall j, seen j = false) -> (a <= limit)%N ->
  exists n, (a <= n <= limit)%N /\ st = status_of (work n) /\ is_retried n st = false /\
    (forall i, (a <= i < n)%N -> is_retried i (status_of (work i)) = true) /\
    tr = concat ((fun i => [started (N.of_nat i); finished (N.of_nat i)]) <$>
                 seq (N.to_nat a) (N.to_nat (n - a) + 1)).
Proof.
  intros Ht Hs. induction Ht as [a j Hj|a Hr|a j m Hm Hj|a tr st Hr Ht IH]; intros Ha.
  1,3: by rewrite Hs in Hj.
  - exists a. split_and!; [lia..|done|done|intros; lia|]. replace (N.to_nat (a - a) + 1) with 1 by lia.
    cbn. by rewrite N2Nat.id.
  - apply retried_below in Hr as Hlt. destruct (IH ltac:(lia)) as (n & Hn & -> & Hnr & Hb & ->).
    exists n. split_and!; [lia..|done|done| |].
    + intros i Hi. destruct (decide (i = a)) as [->|]; [done|]. apply Hb. lia.
    + replace (N.to_nat (n - a) + 1) with (S (N.to_nat (n - (a + 1)) + 1)) by lia.
      cbn. rewrite N2Nat.id. by replace (N.to_nat (a + 1)) with (S (N.to_nat a)) by lia.
Qed.
End ExecuteTrace.

(** on a healthy disk a retriable task always ends, and the journal gains
    exactly the lines of its attempts, for every behaviour of the closure and
    every moment of cancellation: a start and an end for each attempt, numbered
    from one and never beyond the limit of the policy, going on only after a
    failure the policy retries, with a cancellation line when the token was
    cancelled after a failure. *)
Theorem execute_trace (journal : Path) (job : Job) (policy : RetryPolicy) (work : N -> Res unit)
    (seen : nat -> bool) (es : list JournalEntry) (d : Disk) :
  healthy d -> holds journal es d ->
  exists tr st d', run (execute_retriable_task journal job policy work) (observes seen) d = (Ok st, d') /\
    holds journal (es ++ tr) d' /\ healthy d' /\
    Attempts job policy work seen 1 tr st /\
    Forall (fun e => entry_id e = job_id job /\ 1 <= entry_attempt e <= N.max (max_attempts policy) 1)%N tr.
Proof.
  intros Hh Hd. destruct (execute_ends journal job policy work seen _ d eq_refl Hh)
    as (tr & st & d' & Hr & Hh' & Ht & Htr).
  exists tr, st, d'. split_and!; [done| |done|done|].
  - unfold holds in *. by rewrite Ht, Hd, journal_text_app.
  - apply Forall_forall. intros e He. destruct (attempts_id _ _ _ _ _ _ _ _ Htr He).
    pose proof (attempts_bound _ _ _ _ _ _ _ _ Htr ltac:(lia) He). split; [done|lia].
Qed.

(** a task that is never cancelled runs up to its first attempt that succeeds,
    is cancelled from within, or fails without a retry being due, ends with the
    status of that attempt, and journals precisely the attempts up to it. *)
Theorem execute_uncancelled (journal : Path) (job : Job) (policy : RetryPolicy) (work : N -> Res unit)
    (es : list JournalEntry) (d : Disk) :
  healthy d -> holds journal es d ->
  exists n d', run (execute_retriable_task journal job policy work) never d =
      (Ok (status_of (work (N.of_nat n))), d') /\
    (1 <= N.of_nat n <= N.max (max_attempts policy) 1)%N /\
    holds journal (es ++ attempt_lines job work n) d' /\
    is_retried policy (N.of_nat n) (status_of (work (N.of_nat n))) = false /\
    forall i, (1 <= i < N.of_nat n)%N -> is_retried policy i (status_of (work i)) = true.
Proof.
  intros Hh Hd. destruct (execute_ends journal job policy work (fun _ => false) never d eq_refl Hh)
    as (tr & st & d' & Hr & _ & Ht & Htr).
  destruct (attempts_uncancelled _ _ _ _ _ _ _ Htr) as (n & Hn & -> & Hnr & Hb & ->); [done|lia|].
  exists (N.to_nat n), d'. rewrite N2Nat.id. split_and!; [done|lia..| |done|done].
  unfold holds in *. rewrite Ht, Hd, journal_text_app. unfold attempt_lines.
  by replace (N.to_nat (n - 1) + 1) with (N.to_nat n) by lia.
Qed.

(** *** Recovery after an execution *)
Lemma entries_of_app id es tr : entries_of id (es ++ tr) = entries_of id es ++ entries_of id tr.
Proof. apply filter_app. Qed.

Lemma attempt_of_last id es e :
  entry_id e = id -> (entry_attempt e <= attempt_of id (es ++ [e]))%N.
Proof.
  intros <-. unfold attempt_of. rewrite entries_of_app, fmap_app, foldr_max_app.
  unfold entries_of at 2. rewrite filter_cons_True by done. cbn. lia.
Qed.

Lemma last_own id es e : entry_id e = id -> last (entries_of id (es ++ [e])) = Some e.
Proof.
  intros <-. rewrite entries_of_app. unfold entries_of at 2. rewrite filter_cons_True by done.
  apply last_snoc.
Qed.

(** Where an attempt is not retried, a larger count of attempts is not either. *)
Lemma resumes_not policy a b m r :
  is_retried policy a (Failed m) = false -> (a <= b)%N -> ~ resumes policy b (Failed m) r.
Proof.
  unfold is_retried, retry_decision, classify_failure. cbn. intros Hr Hab (Hc & Hlt & _).
  rewrite Hc in Hr. cbn in Hr. apply N.ltb_ge in Hr. lia.
Qed.

Lemma not_recoverable policy es e r :
  recovery_id r = entry_id e -> entry_status e <> Started ->
  is_retried policy (entry_attempt e) (entry_status e) = false ->
  r ∉ recoverable_in policy (es ++ [e]).
Proof.
  intros Hid Hs Hr. rewrite recoverable_last. rewrite Hid. intros (e' & Hl & _ & _ & Hres).
  rewrite last_own in Hl by done. injection Hl as <-. pose proof (attempt_of_last _ es e eq_refl) as Ha.
  destruct (entry_status e) as [| | |m]; [done..|]. by eapply resumes_not.
Qed.

Lemma recoverable_frame policy es tr r :
  entries_of (recovery_id r) tr = [] ->
  r ∈ recoverable_in policy (es ++ tr) <-> r ∈ recoverable_in policy es.
Proof.
  intros Hn. rewrite !recoverable_last. unfold attempt_of. by rewrite !entries_of_app, Hn, app_nil_r.
Qed.

Lemma recoverable_read journal policy es d :
  healthy d -> Forall entry_ok es -> holds journal es d ->
  exists d', run (recoverable_checked journal policy) never d = (Ok (recoverable_in policy es), d').
Proof.
  intros Hh Hok Hd. destruct (journal_read_runs journal d Hh) as (d' & Hr & _). exists d'.
  rewrite (holds_means journal es d Hok Hd) in Hr. apply runs_run. unfold recoverable_checked.
  eapply runs_bind; [exact Hr|]. apply runs_ret.
Qed.

(** after an execution the journal names the jobs to run again as before, save
    for the job of the task: if the execution wrote anything and did not end
    cancelled, the job is not among them; and had it stopped at any moment of an
    attempt, with the start on disk and not the end, the job would be among them
    as interrupted. *)
Theorem execute_recovery (journal : Path) (job : Job) (policy : RetryPolicy) (work : N -> Res unit)
    (seen : nat -> bool) (es : list JournalEntry) (d : Disk) st d' :
  healthy d -> holds journal es d -> Forall entry_ok es ->
  u64_ok (job_id job) -> u64_ok (max_attempts policy) ->
  run (execute_retriable_task journal job policy work) (observes seen) d = (Ok st, d') ->
  exists tr jobs d'', holds journal (es ++ tr) d' /\
    run (recoverable_checked journal policy) never d' = (Ok jobs, d'') /\
    (forall r, recovery_id r <> job_id job -> r ∈ jobs <-> r ∈ recoverable_in policy es) /\
    (st <> CancelledStatus -> forall r, r ∈ jobs -> recovery_id r <> job_id job) /\
    forall pre e, (pre ++ [e]) `prefix_of` tr -> entry_status e = Started ->
      exists r, r ∈ recoverable_in policy (es ++ pre ++ [e]) /\
        recovery_id r = job_id job /\ reason r = Interrupted.
Proof.
  intros Hh Hd Hok Hid Hmax Hrun.
  destruct (execute_ends journal job policy work seen _ d eq_refl Hh) as (tr & st' & d1 & Hr & Hh' & Ht & Htr).
  rewrite Hrun in Hr. injection Hr as <- <-.
  assert (Hd' : holds journal (es ++ tr) d') by (unfold holds in *; by rewrite Ht, Hd, journal_text_app).
  assert (Hok' : Forall entry_ok (es ++ tr)).
  { apply Forall_app. split; [done|]. apply Forall_forall. intros e He.
    destruct (attempts_id _ _ _ _ _ _ _ _ Htr He) as [Hide _].
    pose proof (attempts_bound _ _ _ _ _ _ _ _ Htr ltac:(lia) He) as Hb.
    split; [by rewrite Hide|]. unfold u64_ok in *. assert (1 < U64)%N by done. lia. }
  destruct (recoverable_read journal policy _ d' Hh' Hok' Hd') as (d2 & Hrec).
  exists tr, (recoverable_in policy (es ++ tr)), d2. split_and!; [done|done| | |].
  - intros r Hne. apply recoverable_frame. by eapply attempts_entries_of.
  - intros Hst r Hr Heq. destruct (attempts_last _ _ _ _ _ _ _ Htr) as [->|(l & e & -> & Hlast)].
    + by inversion Htr.
    + destruct Hlast as [(Hse & Hret & Hns)|[? _]]; [|done].
      rewrite (app_assoc es l [e]) in Hr. revert Hr. apply not_recoverable.
      * assert (He : e ∈ l ++ [e]) by set_solver. by destruct (attempts_id _ _ _ _ _ _ _ _ Htr He) as [-> _].
      * by rewrite Hse.
      * by rewrite Hse.
  - intros pre e [suf ->] Hse.
    assert (He : e ∈ (pre ++ [e]) ++ suf) by set_solver.
    destruct (attempts_id _ _ _ _ _ _ _ _ Htr He) as [Hide _].
    exists (mkRecovery (job_id job) (entry_label e) (attempt_of (job_id job) (es ++ pre ++ [e])) Interrupted None 0).
    split; [|done]. apply recoverable_last. cbn. exists e. rewrite app_assoc, last_own by done.
    by rewrite Hse.
Qed.

(** ** Instances *)
Definition small_disk : Disk := mkDisk ∅ 0 (fun _ => None) ∅ 7.
Definition small_journal : Path := mkPath "state" "journal.tsv".
Definition small_job : Job := mkJob 3 Normal BackgroundClass None "index" None [] 0.
Definition flaky (a : N) : Res unit := if (a <? 2)%N then Err (Format "device busy") else Ok tt.
Definition done_entry : JournalEntry := mkEntry 1 "scan" 1 Completed.
Definition small_entry : JournalEntry := mkEntry 3 "index" 1 Started.

Lemma journal_append_read_witness :
  holds small_journal [] small_disk /\
  holds small_journal [small_entry] (run (journal_append_checked small_journal small_entry) never small_disk).2.
Proof.
  split; [done|].
  pose proof (journal_append_read small_journal [] small_entry never small_disk ltac:(constructor)
    ltac:(by vm_compute) eq_refl) as H.
  destruct (run (journal_append_checked small_journal small_entry) never small_disk) as [r d] eqn:Hr.
  assert (Hok : r = Ok tt) by (revert Hr; vm_compute; by intros [= <- _]). subst r. by destruct H as [H _].
Defined.

Lemma execute_trace_witness :
  healthy small_disk /\ exists tr st d',
    run (execute_retriable_task small_journal small_job (mkRetryPolicy 3) flaky) (observes (fun _ => false)) small_disk
      = (Ok st, d') /\ holds small_journal tr d'.
Proof.
  split; [done|].
  destruct (execute_trace small_journal small_job (mkRetryPolicy 3) flaky (fun _ => false) [] small_disk)
    as (tr & st & d' & Hr & Hd & _); [done..|]. exists tr, st, d'. split; [exact Hr|exact Hd].
Defined.

Lemma execute_uncancelled_witness :
  exists n d', run (execute_retriable_task small_journal small_job (mkRetryPolicy 3) flaky) never small_disk
      = (Ok (status_of (flaky (N.of_nat n))), d') /\
    holds small_journal (attempt_lines small_job flaky n) d'.
Proof.
  destruct (execute_uncancelled small_journal small_job (mkRetryPolicy 3) flaky [] small_disk)
    as (n & d' & Hr & _ & Hd & _); [done..|]. exists n, d'. split; [exact Hr|exact Hd].
Defined.

Lemma execute_recovery_witness :
  exists jobs d'',
    run (recoverable_checked small_journal (mkRetryPolicy 3)) never
      (run (execute_retriable_task small_journal small_job (mkRetryPolicy 3) flaky) (observes (fun _ => false)) small_disk).2
      = (Ok jobs, d'') /\ forall r, r ∈ jobs -> recovery_id r <> 3%N.
Proof.
  destruct (execute_recovery small_journal small_job (mkRetryPolicy 3) flaky (fun _ => false) [] small_disk
    Completed (run (execute_retriable_task small_journal small_job (mkRetryPolicy 3) flaky)
      (observes (fun _ => false)) small_disk).2) as (tr & jobs & d'' & _ & Hr & _ & Hn & _);
    [done|done|constructor|done|done|by vm_compute|].
  exists jobs, d''. split; [exact Hr|]. by apply Hn.
Defined.

(** a task cancelled between two attempts ends [Cancelled] without a
    cancellation line: its journal ends with the failure of the previous attempt,
    from which a restart resumes the cancelled job. *)
Theorem cancelled_between_attempts :
  let policy := mkRetryPolicy 3 in
  let seen := observes (fun k => Nat.leb 13 k) in
  let out := run (execute_retriable_task small_journal small_job policy flaky) seen small_disk in
  out.1 = Ok CancelledStatus /\
  (run (recoverable_checked small_journal policy) never out.2).1 =
    Ok [mkRecovery 3 "index" 1 RetryableFailure (Some Transient) 25].
Proof. cbv zeta. split; vm_compute; reflexivity. Qed.
