(* ===== verification/Events.v ===== *)
(** * The file event queue ([crates/index/src/backpressure.rs])

    Events of the watched file system wait in two queues, visible and background,
    of bounded total length.  Events of one path are merged; when there is no room
    events are dropped and the index is marked for repair; a drain takes visible
    events in bursts so that background ones are not starved. *)
From S2P Require Import Prelude Types Text Control Paths.
#[local] Open Scope string_scope.
#[local] Open Scope list_scope.

Inductive EventPriority : Type := VisibleEvents | BackgroundEvents.
#[export] Instance EventPriority_eq_dec : EqDecision EventPriority.
Proof. solve_decision. Defined.

Record EventBackpressureReport : Type := mkEventReport {
  accepted : bool;
  was_coalesced : bool;
  now_dropped : nat;
  now_repair : bool
}.

Record EventBackpressureSnapshot : Type := mkEventSnapshot {
  snap_visible : nat;
  snap_background : nat;
  snap_dropped : nat;
  snap_coalesced : nat;
  snap_repair : bool
}.

Record EventBackpressureQueue : Type := mkEvents {
  max_pending : nat;
  visible_burst : nat;
  visible : list FileEvent;
  background : list FileEvent;
  dropped : nat;
  coalesced : nat;
  repair_required : bool
}.

Definition bool_str (b : bool) : string := if b then "true" else "false".
Definition count (n : nat) : string := u64_to_string (N.of_nat n).
Definition EventBackpressureSnapshot_as_tsv (s : EventBackpressureSnapshot) : string :=
  join (String TAB "") ["event-backpressure"; "visible=" +:+ count (snap_visible s);
    "background=" +:+ count (snap_background s); "dropped=" +:+ count (snap_dropped s);
    "coalesced=" +:+ count (snap_coalesced s); "repair-required=" +:+ bool_str (snap_repair s)].

(** [EventBackpressureQueue::new]. *)
Definition new_events (max_pending0 visible_burst0 : nat) : EventBackpressureQueue :=
  mkEvents (Nat.max max_pending0 1) (Nat.max visible_burst0 1) [] [] 0 0 false.

Definition pending (q : EventBackpressureQueue) : nat := length (visible q) + length (background q).

Definition snapshot (q : EventBackpressureQueue) : EventBackpressureSnapshot :=
  mkEventSnapshot (length (visible q)) (length (background q)) (dropped q) (coalesced q) (repair_required q).

Definition set_queues (v b : list FileEvent) (q : EventBackpressureQueue) : EventBackpressureQueue :=
  mkEvents (max_pending q) (visible_burst q) v b (dropped q) (coalesced q) (repair_required q).

(** [self.dropped += n; self.repair_required = true]. *)
Definition note_dropped (n : nat) (q : EventBackpressureQueue) : EventBackpressureQueue :=
  mkEvents (max_pending q) (visible_burst q) (visible q) (background q) (dropped q + n) (coalesced q) true.

Definition queue_for (p : EventPriority) (q : EventBackpressureQueue) : list FileEvent :=
  match p with VisibleEvents => visible q | BackgroundEvents => background q end.
Definition set_queue_for (p : EventPriority) (l : list FileEvent) (q : EventBackpressureQueue)
    : EventBackpressureQueue :=
  match p with
  | VisibleEvents => set_queues l (background q) q
  | BackgroundEvents => set_queues (visible q) l q
  end.

(** ** Coalescing *)

Definition rename_key (from to : string) : string := push (push from "->") to.

Definition coalesce_key (e : FileEvent) : string :=
  match event_kind e with Rename from to => rename_key from to | _ => event_path e end.

Definition coalesced_event (existing incoming : FileEvent) : FileEvent :=
  let kind :=
    match event_kind existing, event_kind incoming with
    | Create, (Metadata | Modify) => Create
    | Metadata, Modify | Modify, Metadata => Modify
    | _, Remove => Remove
    | _, k => k
    end in
  mkEvent (event_path incoming) kind (observed_at incoming).

(** [iter_mut().rev().find(..)] and the assignment: [l] is the queue reversed. *)
Fixpoint coalesce_rev (e : FileEvent) (l : list FileEvent) : option (list FileEvent) :=
  match l with
  | [] => None
  | x :: l' =>
      if decide (same_path (coalesce_key x) (coalesce_key e)) then Some (coalesced_event x e :: l')
      else cons x <$> coalesce_rev e l'
  end.

Definition coalesce (p : EventPriority) (e : FileEvent) (q : EventBackpressureQueue)
    : option EventBackpressureQueue :=
  l ← coalesce_rev e (reverse (queue_for p q)) ; Some (set_queue_for p (reverse l) q).

(** ** Enqueueing *)

Definition make_room (p : EventPriority) (q : EventBackpressureQueue) : nat * EventBackpressureQueue :=
  if Nat.ltb (pending q) (max_pending q) then (0, q)
  else
    match background q with
    | _ :: b => (1, note_dropped 1 (set_queues (visible q) b q))
    | [] =>
        if decide (p = BackgroundEvents) then (0, q)
        else if Nat.ltb (visible_burst q) (length (visible q)) then
          match visible q with
          | _ :: v => (1, note_dropped 1 (set_queues v (background q) q))
          | [] => (0, q)
          end
        else (0, q)
    end.

Definition enqueue (p : EventPriority) (e : FileEvent) (q : EventBackpressureQueue)
    : EventBackpressureReport * EventBackpressureQueue :=
  if decide (event_kind e = Rescan) then
    (mkEventReport true false (pending q) true, note_dropped (pending q) (set_queues [] [e] q))
  else
    match coalesce p e q with
    | Some q' =>
        (mkEventReport true true 0 (repair_required q'),
         mkEvents (max_pending q') (visible_burst q') (visible q') (background q') (dropped q')
           (coalesced q' + 1) (repair_required q'))
    | None =>
        let '(d, q1) := make_room p q in
        if Nat.leb (max_pending q1) (pending q1) then
          (mkEventReport false false (d + 1) true, note_dropped 1 q1)
        else
          (mkEventReport true false d (repair_required q1),
           set_queue_for p (queue_for p q1 ++ [e]) q1)
    end.

(** ** Draining *)

(** The loop of [drain_batch_mutating_checked] on the staged queue: each turn
    takes an event, so [max] turns and one are enough. *)
Fixpoint drain_loop (fuel max credit burst : nat) (v b drained : list FileEvent)
    : M EventBackpressureQueue (list FileEvent * (list FileEvent * list FileEvent)) :=
  match fuel with
  | O => mret (drained, (v, b))
  | S fuel' =>
      if Nat.ltb (length drained) max then
        check_control ;;
        match (if Nat.ltb credit burst then v else []), b, v with
        | e :: v', _, _ =>
            check_control ;; drain_loop fuel' max (S credit) burst v' b (drained ++ [e])
        | [], e :: b', _ =>
            check_control ;; drain_loop fuel' max 0 burst v b' (drained ++ [e])
        | [], [], e :: v' =>
            check_control ;; drain_loop fuel' max (S credit) burst v' b (drained ++ [e])
        | [], [], [] => mret (drained, (v, b))
        end
      else mret (drained, (v, b))
  end.

Definition drain_batch_mutating_checked (max : nat) (staged : EventBackpressureQueue)
    : M EventBackpressureQueue (list FileEvent * EventBackpressureQueue) :=
  check_control ;;
  (let max := Nat.min max (pending staged) in
   r <- drain_loop (S max) max 0 (visible_burst staged) (visible staged) (background staged) [] ;
   mret (r.1, set_queues r.2.1 r.2.2 staged)).

Definition drain_batch_checked (max : nat) : M EventBackpressureQueue (list FileEvent) :=
  check_control ;;
  (staged <- mget ;
   r <- drain_batch_mutating_checked max staged ;
   check_control ;;
   mput r.2 ;;
   mret r.1).

Definition drain_batch (max : nat) (q : EventBackpressureQueue)
    : option (list FileEvent * EventBackpressureQueue) := expect (drain_batch_checked max) q.

(** ** Histories

    What a producer and a consumer do to one queue, with the numbers of events
    handed in and handed out. *)
Inductive reached (mp vb : nat) : EventBackpressureQueue -> nat -> nat -> Prop :=
  | reached_new : reached mp vb (new_events mp vb) 0 0
  | reached_enqueue q n m p e :
      reached mp vb q n m -> reached mp vb (enqueue p e q).2 (n + 1) m
  | reached_drain q n m max c k r k' q' :
      reached mp vb q n m -> drain_batch_checked max c k q = (r, k', q') ->
      reached mp vb q' n (m + match r with Ok d => length d | Err _ => 0 end).

(** ** The order of a drain

    [tags] says of each event drained whether it is a visible one. *)
Fixpoint weave (tags : list bool) (v b : list FileEvent) : list FileEvent :=
  match tags, v, b with
  | true :: t, e :: v', _ => e :: weave t v' b
  | false :: t, _, e :: b' => e :: weave t v b'
  | _, _, _ => []
  end.

Fixpoint visibles (tags : list bool) : nat :=
  match tags with [] => 0 | t :: tags' => (if t then 1 else 0) + visibles tags' end.
Fixpoint backgrounds (tags : list bool) : nat :=
  match tags with [] => 0 | t :: tags' => (if t then 0 else 1) + backgrounds tags' end.

(** The number of visible events since the last background one. *)
Fixpoint run_length (tags : list bool) : nat :=
  match tags with
  | [] => 0
  | t :: tags' =>
      if decide (Forall (fun t => t = true) tags) then S (length tags') else run_length tags'
  end.

(** Background waits for a full burst of visible events, or for there to be none
    left; visible goes on within the burst, or when background is empty. *)
Record drain_order (burst nv nb : nat) (tags : list bool) : Prop := {
  visible_bound : visibles tags <= nv;
  background_bound : backgrounds tags <= nb;
  background_turn i : tags !! i = Some false ->
    burst <= run_length (take i tags) \/ visibles (take i tags) = nv;
  visible_turn i : tags !! i = Some true ->
    run_length (take i tags) < burst \/ backgrounds (take i tags) = nb
}.

(** ** Lemmas *)

Lemma coalesced_key x e :
  same_path (coalesce_key x) (coalesce_key e) -> coalesce_key (coalesced_event x e) = coalesce_key e.
Proof.
  destruct x as [px kx tx], e as [pe ke te]. unfold coalesced_event, coalesce_key. cbn.
  by destruct kx, ke.
Qed.

Lemma coalesce_rev_spec e l :
  match coalesce_rev e l with
  | Some l' => exists pre x post,
      l = pre ++ x :: post /\ l' = pre ++ coalesced_event x e :: post /\
      same_path (coalesce_key x) (coalesce_key e) /\
      Forall (fun y => ~ same_path (coalesce_key y) (coalesce_key e)) pre
  | None => Forall (fun y => ~ same_path (coalesce_key y) (coalesce_key e)) l
  end.
Proof.
  induction l as [|y l IH]; [constructor|]. cbn [coalesce_rev].
  destruct (decide (same_path (coalesce_key y) (coalesce_key e))) as [Hy|Hy].
  { by exists [], y, l. }
  destruct (coalesce_rev e l) as [l'|]; simpl; [|by constructor].
  destruct IH as (pre & x & post & -> & -> & Hx & Hpre).
  exists (y :: pre), x, post. repeat split; [done|]. by constructor.
Qed.

(** The queue [p], in queue order: the last event with the key of [e] is merged. *)
Definition merge_last (e : FileEvent) (l : list FileEvent) (l' : list FileEvent) : Prop :=
  exists pre x post, l = pre ++ x :: post /\ l' = pre ++ coalesced_event x e :: post /\
    same_path (coalesce_key x) (coalesce_key e) /\
    Forall (fun y => ~ same_path (coalesce_key y) (coalesce_key e)) post.

Lemma coalesce_spec p e q :
  match coalesce p e q with
  | Some q' => exists l', merge_last e (queue_for p q) l' /\ q' = set_queue_for p l' q
  | None => Forall (fun y => ~ same_path (coalesce_key y) (coalesce_key e)) (queue_for p q)
  end.
Proof.
  unfold coalesce. pose proof (coalesce_rev_spec e (reverse (queue_for p q))) as H.
  destruct (coalesce_rev e (reverse (queue_for p q))) as [l|]; simpl.
  - destruct H as (pre & x & post & Hl & -> & Hx & Hpre).
    exists (reverse (pre ++ coalesced_event x e :: post)). split; [|done].
    exists (reverse post), x, (reverse pre). repeat split; [| |done|by apply Forall_reverse].
    + rewrite <- (reverse_involutive (queue_for p q)), Hl.
      by rewrite reverse_app, reverse_cons, <- app_assoc.
    + by rewrite reverse_app, reverse_cons, <- app_assoc.
  - rewrite <- (reverse_involutive (queue_for p q)). by apply Forall_reverse.
Qed.

Definition keys (l : list FileEvent) : list (list Component) := (components ∘ coalesce_key) <$> l.

Definition other (p : EventPriority) : EventPriority :=
  match p with VisibleEvents => BackgroundEvents | BackgroundEvents => VisibleEvents end.

Lemma queue_for_set p l q : queue_for p (set_queue_for p l q) = l.
Proof. by destruct p. Qed.
Lemma queue_other_set p l q : queue_for (other p) (set_queue_for p l q) = queue_for (other p) q.
Proof. by destruct p. Qed.

Lemma merge_last_length e l l' : merge_last e l l' -> length l' = length l.
Proof. intros (pre & x & post & -> & -> & _). by rewrite !length_app. Qed.

Lemma merge_last_keys e l l' : merge_last e l l' -> keys l' = keys l.
Proof.
  intros (pre & x & post & -> & -> & Hx & _). unfold keys. rewrite !fmap_app, !fmap_cons. cbn.
  change (components (coalesce_key (coalesced_event x e))) with ((components ∘ coalesce_key) (coalesced_event x e)).
  f_equal. f_equal. cbn. by rewrite (coalesced_key x e).
Qed.

Lemma not_in_keys e l :
  Forall (fun y => ~ same_path (coalesce_key y) (coalesce_key e)) l ->
  components (coalesce_key e) ∉ keys l.
Proof.
  intros H (y & Hy & Hin)%list_elem_of_fmap. rewrite Forall_forall in H. by destruct (H y Hin).
Qed.

Lemma keys_NoDup_snoc e l :
  NoDup (keys l) -> Forall (fun y => ~ same_path (coalesce_key y) (coalesce_key e)) l ->
  NoDup (keys (l ++ [e])).
Proof.
  intros Hl He. unfold keys. rewrite fmap_app. apply NoDup_filter_snoc; [done|].
  by apply not_in_keys.
Qed.

(** What an event that fits no branch above it does to the queue. *)
Record enqueue_result (p : EventPriority) (e : FileEvent) (q : EventBackpressureQueue)
    (r : EventBackpressureReport) (q' : EventBackpressureQueue) : Prop := {
  enqueue_frame : max_pending q' = max_pending q /\ visible_burst q' = visible_burst q;
  enqueue_report : dropped q' = dropped q + now_dropped r /\ now_repair r = repair_required q' /\
    coalesced q' = coalesced q + (if was_coalesced r then 1 else 0) /\
    (repair_required q' = true <-> repair_required q = true \/ 0 < now_dropped r \/ event_kind e = Rescan);
  enqueue_rescan : event_kind e = Rescan ->
    accepted r = true /\ was_coalesced r = false /\ now_dropped r = pending q /\
    visible q' = [] /\ background q' = [e];
  enqueue_merge : event_kind e <> Rescan -> components (coalesce_key e) ∈ keys (queue_for p q) ->
    accepted r = true /\ was_coalesced r = true /\ now_dropped r = 0 /\
    merge_last e (queue_for p q) (queue_for p q') /\ queue_for (other p) q' = queue_for (other p) q;
  enqueue_new : event_kind e <> Rescan -> components (coalesce_key e) ∉ keys (queue_for p q) ->
    was_coalesced r = false /\
    (if decide (pending q < max_pending q) then
       accepted r = true /\ now_dropped r = 0 /\
       queue_for p q' = queue_for p q ++ [e] /\ queue_for (other p) q' = queue_for (other p) q
     else
       now_dropped r = 1 /\
       match background q, p with
       | _ :: b, VisibleEvents => accepted r = true /\ visible q' = visible q ++ [e] /\ background q' = b
       | _ :: b, BackgroundEvents => accepted r = true /\ visible q' = visible q /\ background q' = b ++ [e]
       | [], VisibleEvents =>
           if decide (visible_burst q < length (visible q)) then
             accepted r = true /\ visible q' = drop 1 (visible q) ++ [e] /\ background q' = []
           else accepted r = false /\ visible q' = visible q /\ background q' = []
       | [], BackgroundEvents => accepted r = false /\ visible q' = visible q /\ background q' = []
       end)
}.

Lemma enqueue_full p q d q1 :
  pending q <= max_pending q -> make_room p q = (d, q1) ->
  (d = 0 /\ q1 = q /\ (max_pending q <= pending q -> background q = [] /\
     (p = VisibleEvents -> length (visible q) <= visible_burst q))) \/
  (d = 1 /\ pending q = max_pending q /\ pending q1 < max_pending q1 /\
   ((exists x, background q = x :: background q1 /\
       q1 = note_dropped 1 (set_queues (visible q) (background q1) q)) \/
    (exists x, background q = [] /\ p = VisibleEvents /\ visible_burst q < length (visible q) /\
       visible q = x :: visible q1 /\ q1 = note_dropped 1 (set_queues (visible q1) [] q)))).
Proof.
  intros Hle. unfold make_room. destruct (Nat.ltb_spec (pending q) (max_pending q)).
  { intros [= <- <-]. left. repeat split; lia. }
  unfold pending in *. destruct (background q) as [|x b] eqn:Hb.
  - destruct (decide (p = BackgroundEvents)) as [->|Hp]; [by intros [= <- <-]; left|].
    destruct (Nat.ltb_spec (visible_burst q) (length (visible q))).
    2:{ intros [= <- <-]. left. repeat split. lia. }
    destruct (visible q) as [|x v] eqn:Hv; [by simpl in *; lia|].
    intros [= <- <-]. right. cbn in *. repeat split; [lia|lia|]. right. exists x. destruct p; done.
  - intros [= <- <-]. right. cbn in *. repeat split; [lia|lia|]. left. by exists x.
Qed.

Lemma enqueue_cases p e q r q' :
  1 <= max_pending q -> pending q <= max_pending q -> enqueue p e q = (r, q') ->
  enqueue_result p e q r q'.
Proof.
  intros Hmax Hle. unfold enqueue. destruct (decide (event_kind e = Rescan)) as [Hk|Hk].
  { intros [= <- <-]. split; cbn; try done. repeat split; tauto || lia. }
  pose proof (coalesce_spec p e q) as Hc. destruct (coalesce p e q) as [q1|].
  { destruct Hc as (l' & Hm & ->). intros [= <- <-]. split; try done.
    - by destruct p.
    - destruct p; cbn; repeat split; try lia; naive_solver lia.
    - intros _ _. by destruct p.
    - intros _ Hn. destruct Hn. rewrite <- (merge_last_keys _ _ _ Hm). destruct Hm as (pre & x & post & Hl & -> & Hx & _).
      unfold keys. rewrite fmap_app, fmap_cons. cbn. rewrite (coalesced_key x e) by done. set_solver. }
  destruct (make_room p q) as [d q1] eqn:Hroom.
  apply not_in_keys in Hc.
  destruct (enqueue_full p q d q1 Hle Hroom) as [(-> & -> & Hempty)|(-> & Hfull & Hlt & Hq1)].
  - destruct (Nat.leb_spec (max_pending q) (pending q)) as [Hge|Hlt].
    + intros [= <- <-]. destruct (Hempty Hge) as [Hb Hv].
      split; cbn; try done; [repeat split; (tauto || lia)|].
      intros _ _. rewrite decide_False, Hb by lia. split; [done|]. split; [done|].
      destruct p; [|done]. specialize (Hv eq_refl). rewrite decide_False by lia. done.
    + intros [= <- <-].
      split; cbn; try done; [by destruct p|destruct p; cbn; repeat split; try lia; naive_solver lia|].
      intros _ _. rewrite decide_True by done. by destruct p.
  - rewrite (proj2 (Nat.leb_gt _ _)) by lia. intros [= <- <-].
    destruct Hq1 as [ (x & Hb & ->) | (x & Hb & -> & Hv & Hx & ->) ].
    + split; try done; [by destruct p|destruct p; cbn; repeat split; try lia; naive_solver lia|].
      intros _ _. rewrite decide_False, Hb by lia. by destruct p.
    + split; try done; [cbn; repeat split; try lia; naive_solver lia|].
      intros _ _. rewrite decide_False, Hb, decide_True, Hx by lia. done.
Qed.

(** ** Draining: lemmas *)

Lemma visibles_snoc tags t : visibles (tags ++ [t]) = visibles tags + (if t then 1 else 0).
Proof. induction tags as [|u tags IH]; simpl; [lia|]. rewrite IH. lia. Qed.
Lemma backgrounds_snoc tags t : backgrounds (tags ++ [t]) = backgrounds tags + (if t then 0 else 1).
Proof. induction tags as [|u tags IH]; simpl; [lia|]. rewrite IH. lia. Qed.

Lemma tags_length tags : visibles tags + backgrounds tags = length tags.
Proof.
  induction tags as [|t tags IH] using rev_ind; [done|].
  rewrite visibles_snoc, backgrounds_snoc, length_app. simpl. destruct t; lia.
Qed.

Lemma run_length_all tags : Forall (fun t => t = true) tags -> run_length tags = length tags.
Proof. destruct tags; [done|]. intros H. cbn [run_length]. by rewrite decide_True. Qed.

Lemma run_length_snoc tags t :
  run_length (tags ++ [t]) = if t then S (run_length tags) else 0.
Proof.
  induction tags as [|u tags IH].
  { destruct t; cbn [app run_length]; [by rewrite decide_True by (repeat constructor)|].
    rewrite decide_False; [done|]. by intros [??]%Forall_cons. }
  cbn [app run_length].
  destruct (decide (Forall (fun t => t = true) (u :: tags ++ [t]))) as [Ha|Ha].
  - change (u :: tags ++ [t]) with ((u :: tags) ++ [t]) in Ha.
    apply Forall_app in Ha as [Ha [-> _]%Forall_cons].
    rewrite decide_True by done. rewrite length_app. simpl. lia.
  - rewrite IH. destruct t; [|done]. rewrite decide_False; [done|].
    contradict Ha. change (u :: tags ++ [true]) with ((u :: tags) ++ [true]).
    apply Forall_app. split; [done|]. by repeat constructor.
Qed.

Lemma weave_snoc t tags : forall v b,
  visibles tags <= length v -> backgrounds tags <= length b ->
  weave (tags ++ [t]) v b =
  weave tags v b ++ (if t then take 1 (drop (visibles tags) v) else take 1 (drop (backgrounds tags) b)).
Proof.
  induction tags as [|u tags IH]; intros v b Hv Hb.
  - destruct t; [by destruct v|]. destruct b; [by destruct v|]. by destruct v.
  - destruct u; cbn in *.
    + destruct v as [|e v]; cbn in *; [lia|]. rewrite IH by (done || lia). by destruct t.
    + destruct b as [|e b]; cbn in *; [lia|].
      destruct v; rewrite IH by (done || (cbn; lia)); by destruct t.
Qed.

Lemma weave_length tags : forall v b,
  visibles tags <= length v -> backgrounds tags <= length b -> length (weave tags v b) = length tags.
Proof.
  induction tags as [|u tags IH]; intros v b Hv Hb; [done|].
  destruct u; cbn in *.
  - destruct v as [|e v]; cbn in *; [lia|]. rewrite IH; [done|lia|done].
  - destruct b as [|e b]; cbn in *; [lia|]. destruct v; cbn; (rewrite IH; [done|(cbn in *; lia)..]).
Qed.

Lemma drain_order_snoc burst nv nb tags t :
  drain_order burst nv nb tags ->
  (t = true -> visibles tags < nv /\ (run_length tags < burst \/ backgrounds tags = nb)) ->
  (t = false -> backgrounds tags < nb /\ (burst <= run_length tags \/ visibles tags = nv)) ->
  drain_order burst nv nb (tags ++ [t]).
Proof.
  intros [Hv Hb Hf Ht] H1 H2.
  assert (Htake : forall i u, (tags ++ [t]) !! i = Some u ->
    tags !! i = Some u /\ take i (tags ++ [t]) = take i tags \/
    u = t /\ take i (tags ++ [t]) = tags).
  { intros i u [Hi|[Hi Hu]]%lookup_app_Some.
    - left. split; [done|]. apply take_app_le. apply lookup_lt_Some in Hi. lia.
    - right. destruct (i - length tags) as [|j] eqn:Hj; [|done]. injection Hu as <-.
      split; [done|]. apply take_app_length'. lia. }
  split.
  - rewrite visibles_snoc. destruct t; [destruct (H1 eq_refl)|]; simpl; lia.
  - rewrite backgrounds_snoc. destruct t; [|destruct (H2 eq_refl)]; simpl; lia.
  - intros i Hi. destruct (Htake i _ Hi) as [[Hi' ->]|[<- ->]]; [auto|]. by destruct (H2 eq_refl).
  - intros i Hi. destruct (Htake i _ Hi) as [[Hi' ->]|[<- ->]]; [auto|]. by destruct (H1 eq_refl).
Qed.

Lemma drop_cons {A} n (l : list A) x l' : drop n l = x :: l' -> take 1 (drop n l) = [x] /\ l' = drop (S n) l /\ n < length l.
Proof.
  intros H. rewrite H. split; [done|]. split.
  - by rewrite <- Nat.add_1_r, <- drop_drop, H.
  - assert (length (drop n l) = S (length l')) as Hl by by rewrite H. rewrite length_drop in Hl. lia.
Qed.

(** One more tag, in the statement of the loop. *)
Ltac push_tag W H :=
  rewrite W, visibles_snoc, backgrounds_snoc, run_length_snoc, Nat.add_0_r, Nat.add_1_r in H;
  cbn [take] in H.

(** What has been drained and is left, as a function of the tags so far. *)
Lemma drain_loop_runs burst max v b s fuel : forall tags,
  max <= length v + length b -> length tags <= max -> max - length tags < fuel ->
  drain_order burst (length v) (length b) tags ->
  exists tags', drain_order burst (length v) (length b) tags' /\ length tags' = max /\
    runs (drain_loop fuel max (run_length tags) burst (drop (visibles tags) v) (drop (backgrounds tags) b)
            (weave tags v b)) s
      (Ok (weave tags' v b, (drop (visibles tags') v, drop (backgrounds tags') b))) s.
Proof.
  induction fuel as [|fuel IH]; intros tags Hmax Hle Hfuel Hord; [lia|].
  pose proof (visible_bound _ _ _ _ Hord) as Hv. pose proof (background_bound _ _ _ _ Hord) as Hb.
  cbn [drain_loop]. rewrite weave_length by done.
  destruct (Nat.ltb_spec (length tags) max) as [Hlt|Hge].
  2:{ exists tags. repeat split; [apply Hord..|lia|apply runs_ret]. }
  assert (Hnext : forall t, drain_order burst (length v) (length b) (tags ++ [t]) ->
    exists tags', drain_order burst (length v) (length b) tags' /\ length tags' = max /\
    runs (check_control ;; check_control ;; drain_loop fuel max (run_length (tags ++ [t])) burst
        (drop (visibles (tags ++ [t])) v) (drop (backgrounds (tags ++ [t])) b)
        (weave (tags ++ [t]) v b)) s
      (Ok (weave tags' v b, (drop (visibles tags') v, drop (backgrounds tags') b))) s).
  { intros t Ht. destruct (IH (tags ++ [t])) as (tags' & ? & ? & Hr); [done| | |done|].
    - rewrite length_app. simpl. lia.
    - rewrite length_app. simpl. lia.
    - exists tags'. split; [done|]. split; [done|]. runs_auto. exact Hr. }
  pose proof (weave_snoc true tags v b Hv Hb) as Wt. pose proof (weave_snoc false tags v b Hv Hb) as Wf.
  pose proof (tags_length tags) as Hlen.
  destruct (drop (visibles tags) v) as [|ev lv] eqn:Ev; destruct (drop (backgrounds tags) b) as [|eb lb] eqn:Eb;
    try (pose proof (drop_cons _ _ _ _ Ev) as (Tv & -> & Lv)); try (pose proof (drop_cons _ _ _ _ Eb) as (Tb & -> & Lb));
    try (assert (length (drop (visibles tags) v) = 0) as Zv by (by rewrite Ev); rewrite length_drop in Zv);
    try (assert (length (drop (backgrounds tags) b) = 0) as Zb by (by rewrite Eb); rewrite length_drop in Zb);
    try lia.
  - specialize (Hnext false). push_tag Wf Hnext. rewrite Ev in Hnext.
    destruct (run_length tags <? burst)%nat; apply Hnext; apply drain_order_snoc; (done || (intros; split; [lia|right; lia])).
  - specialize (Hnext true). push_tag Wt Hnext. rewrite Eb in Hnext.
    destruct (run_length tags <? burst)%nat; apply Hnext; apply drain_order_snoc; (done || (intros; split; [lia|right; lia])).
  - destruct (Nat.ltb_spec (run_length tags) burst).
    + specialize (Hnext true). push_tag Wt Hnext. rewrite Eb in Hnext.
      apply Hnext, drain_order_snoc; (done || (intros; split; [lia|by left])).
    + specialize (Hnext false). push_tag Wf Hnext. rewrite Ev in Hnext.
      apply Hnext, drain_order_snoc; (done || (intros; split; [lia|by left])).
Qed.

Lemma drain_loop_cooperative fuel : forall max credit burst v b d,
  cooperative (drain_loop fuel max credit burst v b d).
Proof. induction fuel as [|fuel IH]; intros; cbn [drain_loop]; ctl_auto; apply IH. Qed.
#[export] Hint Resolve drain_loop_cooperative : ctl.

Lemma drain_loop_reads fuel : forall max credit burst v b d,
  reads (drain_loop fuel max credit burst v b d).
Proof. induction fuel as [|fuel IH]; intros; cbn [drain_loop]; ctl_auto; apply IH. Qed.
#[export] Hint Resolve drain_loop_reads : ctl.

Lemma drain_batch_cooperative max : cooperative (drain_batch_checked max).
Proof. unfold drain_batch_checked, drain_batch_mutating_checked. ctl_auto. Qed.

Lemma drain_batch_atomic max : atomic (drain_batch_checked max).
Proof.
  unfold drain_batch_checked. apply atomic_bind; [ctl_auto|intros _].
  apply atomic_bind; [ctl_auto|intros staged]. apply atomic_bind.
  { unfold drain_batch_mutating_checked. ctl_auto. }
  intros r. apply atomic_bind; [ctl_auto|intros _].
  apply infallible_atomic. ctl_auto.
Qed.

Lemma drain_batch_runs max q :
  exists tags, drain_order (visible_burst q) (length (visible q)) (length (background q)) tags /\
    length tags = Nat.min max (pending q) /\
    runs (drain_batch_checked max) q (Ok (weave tags (visible q) (background q)))
      (set_queues (drop (visibles tags) (visible q)) (drop (backgrounds tags) (background q)) q).
Proof.
  destruct (drain_loop_runs (visible_burst q) (Nat.min max (pending q)) (visible q) (background q) q
    (S (Nat.min max (pending q))) []) as (tags & Hord & Hlen & Hr); [unfold pending; lia|cbn; lia|cbn; lia| |].
  { split; [cbn; lia|cbn; lia| |]; intros i Hi; by rewrite lookup_nil in Hi. }
  exists tags. split; [done|]. split; [done|].
  unfold drain_batch_checked, drain_batch_mutating_checked.
  runs_auto; [eapply runs_bind; [exact Hr|]; runs_auto|]. cbn beta. cbn [fst snd]. runs_auto.
Qed.

(** What a drain returns and leaves, whatever the closure says. *)
Lemma drain_batch_cases max c k q r k' q' :
  drain_batch_checked max c k q = (r, k', q') ->
  (exists e, r = Err e /\ q' = q) \/
  exists tags, drain_order (visible_burst q) (length (visible q)) (length (background q)) tags /\
    length tags = Nat.min max (pending q) /\
    r = Ok (weave tags (visible q) (background q)) /\
    q' = set_queues (drop (visibles tags) (visible q)) (drop (backgrounds tags) (background q)) q.
Proof.
  intros Hd. destruct r as [d|e]; [right|left; exists e; split; [done|]; by eapply drain_batch_atomic].
  destruct (drain_batch_runs max q) as (tags & Hord & Hlen & Hr).
  destruct (cooperative_value _ _ _ _ _ _ _ _ _ (drain_batch_cooperative max) Hr Hd) as [[= <-] <-].
  by exists tags.
Qed.

Record queue_ok (mp vb : nat) (q : EventBackpressureQueue) (n m : nat) : Prop := {
  ok_limits : max_pending q = Nat.max mp 1 /\ visible_burst q = Nat.max vb 1;
  ok_bound : pending q <= max_pending q;
  ok_count : n = pending q + m + dropped q + coalesced q;
  ok_repair : 0 < dropped q -> repair_required q = true;
  ok_visible : NoDup (keys (visible q));
  ok_background : NoDup (keys (background q))
}.

Lemma keys_drop n l : keys (drop n l) = drop n (keys l).
Proof. unfold keys. by rewrite fmap_drop. Qed.

Lemma NoDup_drop {A} n (l : list A) : NoDup l -> NoDup (drop n l).
Proof. intros H. rewrite <- (take_drop n l) in H. by apply NoDup_app in H as (_ & _ & ?). Qed.

Lemma keys_snoc_ok e l n :
  NoDup (keys l) -> components (coalesce_key e) ∉ keys l -> NoDup (keys (drop n l ++ [e])).
Proof.
  intros Hl He. unfold keys. rewrite fmap_app. apply NoDup_filter_snoc.
  - rewrite fmap_drop. by apply NoDup_drop.
  - intros H. apply He. unfold keys. rewrite fmap_drop in H.
    rewrite <- (take_drop n (_ <$> l)). apply elem_of_app. by right.
Qed.

Lemma keys_merge_ok e l l' : NoDup (keys l) -> merge_last e l l' -> NoDup (keys l').
Proof. intros Hl Hm. by rewrite (merge_last_keys _ _ _ Hm). Qed.

Lemma enqueue_ok mp vb p e q n m :
  queue_ok mp vb q n m -> queue_ok mp vb (enqueue p e q).2 (n + 1) m.
Proof.
  intros [[Hmp Hvb] Hb Hn Hr Hv Hbg]. destruct (enqueue p e q) as [r q'] eqn:Heq.
  apply enqueue_cases in Heq as [[Fm Fv] (Hd & _ & Hco & Hrep) Hres Hmer Hnew]; [|lia|done]. cbn [snd].
  assert (Hrep' : 0 < dropped q' -> repair_required q' = true).
  { intros H0. apply Hrep. destruct (decide (0 < now_dropped r)); [tauto|]. left. apply Hr. lia. }
  assert (forall x, NoDup (keys [x])) by (intros; apply NoDup_singleton).
  assert (NoDup (keys (@nil FileEvent))) by constructor.
  destruct (decide (event_kind e = Rescan)) as [Hk|Hk].
  { destruct (Hres Hk) as (_ & Hc & Hnd & Hv' & Hb').
    split; [lia|..|done| |]; rewrite ?Hv', ?Hb'; auto; unfold pending in *; rewrite ?Hv', ?Hb', ?Hc in *; cbn; lia. }
  destruct (decide (components (coalesce_key e) ∈ keys (queue_for p q))) as [Hin|Hin].
  { destruct (Hmer Hk Hin) as (_ & Hc & Hnd & Hm & Ho). rewrite Hc, Hnd in *.
    pose proof (merge_last_length _ _ _ Hm). unfold pending in *.
    destruct p; cbn in *; (split; [lia|unfold pending; rewrite Ho; lia..|done| |]);
      rewrite ?Ho; (done || (eapply keys_merge_ok; [|exact Hm]; done)). }
  destruct (Hnew Hk Hin) as (Hc & Hcase). rewrite Hc in *.
  assert (Hsnoc : forall k, NoDup (keys (drop k (queue_for p q) ++ [e]))).
  { intros k. apply keys_snoc_ok; [by destruct p|done]. }
  unfold pending in *. case_decide as Hlt.
  { destruct Hcase as (_ & Hnd & Hq & Ho). specialize (Hsnoc 0).
    destruct p; cbn in *; (split; [lia|unfold pending; rewrite Hq, Ho, length_app; cbn; lia..|done| |]);
      rewrite ?Hq, ?Ho; done. }
  destruct Hcase as [Hnd Hcase].
  pose proof (Hsnoc 0) as Hs0. pose proof (Hsnoc 1) as Hs1. rewrite drop_0 in Hs0.
  assert (Hd1 : NoDup (keys (drop 1 (background q)))) by (rewrite keys_drop; by apply NoDup_drop).
  destruct (background q) as [|x b] eqn:Hbq; destruct p; try case_decide;
    destruct Hcase as (_ & Hv' & Hb'); cbn [queue_for] in *; rewrite ?Hbq in *;
    (split; [lia|unfold pending; rewrite Hv', Hb', ?length_app, ?length_drop; cbn in *; lia..|done| |]);
    rewrite ?Hv', ?Hb'; cbn in *; done.
Qed.

Lemma reached_ok mp vb q n m : reached mp vb q n m -> queue_ok mp vb q n m.
Proof.
  induction 1 as [|q n m p e _ IH|q n m max c k r k' q' _ IH Hd].
  - split; try done; cbn; try constructor; lia.
  - by apply enqueue_ok.
  - destruct IH as [Hl Hb Hn Hr Hv Hbg].
    destruct (drain_batch_cases _ _ _ _ _ _ _ Hd) as [(e & -> & ->)|(tags & Hord & Hlen & -> & ->)].
    { split; try done. lia. }
    pose proof (visible_bound _ _ _ _ Hord). pose proof (background_bound _ _ _ _ Hord).
    pose proof (tags_length tags).
    split; cbn; try done; [| |rewrite keys_drop; by apply NoDup_drop..];
      rewrite ?weave_length by done; unfold pending in *; cbn; rewrite !length_drop; lia.
Qed.

(** ** Theorems *)

(** C36: whatever is enqueued and drained, under any interruptions, the queue keeps
    within its limit, every event handed in is pending, handed out, merged into
    another or counted as dropped, a loss always asks for a repair of the index,
    and no two waiting events of one queue are about the same path. *)
Theorem events_accounting mp vb q n m :
  reached mp vb q n m ->
  pending q <= Nat.max mp 1 /\
  n = pending q + m + dropped q + coalesced q /\
  (0 < dropped q -> repair_required q = true) /\
  NoDup (keys (visible q)) /\ NoDup (keys (background q)).
Proof.
  intros [[Hmp _] Hb Hn Hr Hv Hbg]%reached_ok. rewrite Hmp in Hb. by repeat split.
Qed.

(** enqueueing on every branch: a rescan replaces all that waits; an event of
    a path that waits in its queue is merged into the last one of that path; with
    room it is appended; without, the oldest background event makes room, or for
    a visible event the oldest visible one when more than a burst of them wait,
    and else the event is refused.  Nothing else changes, and a background event
    never costs a visible one its place. *)
Theorem enqueue_spec p e q r q' :
  1 <= max_pending q -> pending q <= max_pending q -> enqueue p e q = (r, q') ->
  enqueue_result p e q r q' /\
  (p = BackgroundEvents -> event_kind e <> Rescan -> visible q' = visible q).
Proof.
  intros H1 H2 H3. pose proof (enqueue_cases p e q r q' H1 H2 H3) as Hr. split; [done|].
  intros -> Hk. destruct Hr as [_ _ _ Hm Hn].
  destruct (decide (components (coalesce_key e) ∈ keys (queue_for BackgroundEvents q))) as [Hin|Hin].
  { by destruct (Hm Hk Hin) as (_ & _ & _ & _ & Ho). }
  destruct (Hn Hk Hin) as [_ Hc]. case_decide; [by destruct Hc as (_ & _ & _ & Ho)|].
  destruct Hc as [_ Hc]. by destruct (background q); destruct Hc as (_ & Hv & _).
Qed.

(** a drain either fails and leaves the queue as it was, or takes
    [min max pending] events: each queue is served first in first out, background
    events wait for a full burst of visible ones or until none is left, and
    visible ones go beyond the burst only when no background event waits.  An
    uninterrupted drain always succeeds. *)
Theorem drain_spec max q :
  (exists tags, drain_order (visible_burst q) (length (visible q)) (length (background q)) tags /\
    length tags = Nat.min max (pending q) /\
    drain_batch max q = Some (weave tags (visible q) (background q),
      set_queues (drop (visibles tags) (visible q)) (drop (backgrounds tags) (background q)) q)) /\
  (forall c k r k' q', drain_batch_checked max c k q = (r, k', q') ->
    match r with Ok d => drain_batch max q = Some (d, q') | Err _ => q' = q end).
Proof.
  destruct (drain_batch_runs max q) as (tags & Hord & Hlen & Hr). split.
  { exists tags. split; [done|]. split; [done|]. by apply runs_expect. }
  intros c k [d|e] k' q' Hd; [|by eapply drain_batch_atomic].
  destruct (cooperative_value _ _ _ _ _ _ _ _ _ (drain_batch_cooperative max) Hr Hd) as [[= <-] <-].
  by apply runs_expect.
Qed.

(** a rename that waits is lost when an event of its (absolute) new path
    comes: pushing that path on the key replaces the key, so that both have the
    same one, and the merged event says nothing of the old path.  Nothing is
    counted as dropped and no repair is asked for. *)
Theorem rename_lost mp vb p path from to t0 t1 :
  is_absolute to = true ->
  let q := (enqueue p (mkEvent path (Rename from to) t0) (new_events mp vb)).2 in
  let q' := (enqueue p (mkEvent to Modify t1) q).2 in
  queue_for p q = [mkEvent path (Rename from to) t0] /\
  queue_for p q' = [mkEvent to Modify t1] /\ queue_for (other p) q' = [] /\
  dropped q' = 0 /\ repair_required q' = false.
Proof.
  intros Hto.
  assert (Hq : (enqueue p (mkEvent path (Rename from to) t0) (new_events mp vb)).2 =
    set_queue_for p [mkEvent path (Rename from to) t0] (new_events mp vb)).
  { unfold enqueue, coalesce, make_room, pending. destruct p; cbn -[Nat.ltb Nat.leb];
      rewrite (proj2 (Nat.ltb_lt _ _)) by lia; cbn -[Nat.leb];
      by rewrite (proj2 (Nat.leb_gt _ _)) by lia. }
  assert (Hkey : same_path (rename_key from to) to).
  { unfold rename_key. by rewrite push_absolute. }
  assert (Hc : coalesce_rev (mkEvent to Modify t1) (reverse [mkEvent path (Rename from to) t0]) =
    Some [mkEvent to Modify t1]).
  { cbn -[same_path]. unfold coalesce_key. cbn -[same_path].
    by destruct (decide (same_path (rename_key from to) to)). }
  cbv zeta. rewrite Hq. unfold enqueue. rewrite decide_False by done.
  unfold coalesce. rewrite queue_for_set, Hc. by destruct p.
Qed.

Example rename_lost_witness :
  is_absolute "/b" = true /\
  let q := (enqueue VisibleEvents (mkEvent "/a" (Rename "/a" "/b") 1%Z) (new_events 8 2)).2 in
  let q' := (enqueue VisibleEvents (mkEvent "/b" Modify 2%Z) q).2 in
  queue_for VisibleEvents q = [mkEvent "/a" (Rename "/a" "/b") 1%Z] /\
  queue_for VisibleEvents q' = [mkEvent "/b" Modify 2%Z] /\ queue_for BackgroundEvents q' = [] /\
  dropped q' = 0 /\ repair_required q' = false.
Proof. split; [reflexivity|]. apply (rename_lost 8 2 VisibleEvents "/a" "/a" "/b" 1%Z 2%Z). reflexivity. Defined.

Definition demo_event : FileEvent := mkEvent "/a/b" Create 5%Z.

Example events_accounting_witness :
  reached 1 1 (enqueue VisibleEvents demo_event (new_events 1 1)).2 1 0 /\
  pending (enqueue VisibleEvents demo_event (new_events 1 1)).2 <= 1.
Proof.
  assert (H : reached 1 1 (enqueue VisibleEvents demo_event (new_events 1 1)).2 1 0).
  { apply (reached_enqueue 1 1 (new_events 1 1) 0 0). constructor. }
  split; [exact H|]. exact (proj1 (events_accounting 1 1 _ 1 0 H)).
Defined.

Example enqueue_spec_witness :
  let q := (enqueue VisibleEvents demo_event (new_events 1 1)).2 in
  let e := mkEvent "/c" Modify 6%Z in
  exists r q', enqueue BackgroundEvents e q = (r, q') /\ visible q' = visible q /\ dropped q' = 1.
Proof.
  cbv zeta. eexists _, _. split; [reflexivity|].
  match goal with |- visible ?q' = _ /\ _ => set (q1 := q') end.
  destruct (enqueue_spec BackgroundEvents (mkEvent "/c" Modify 6%Z)
    (enqueue VisibleEvents demo_event (new_events 1 1)).2 _ q1 ltac:(vm_compute; lia) ltac:(vm_compute; lia)
    eq_refl) as [_ H].
  split; [apply H; done|reflexivity].
Defined.
