(* ===== verification/Hits.v ===== *)
(** * Merging search hits ([crates/search/src/hits.rs])

    Hits come in any order and number; at most twice the limit are retained, by
    sorting and truncating whenever there are more, and the result is as if all
    had been sorted. *)
From S2P Require Import Prelude Types Order Chars Records.

Section Hits.
Context `{Unicode}.

(** [SearchHitSortKey], compared field by field. *)
Definition SearchHitSortKey : Type := Reverse Z * (str * (str * FileId)).
Definition key_from_hit (hit : SearchHit) : SearchHitSortKey :=
  (mkReverse (hit_score hit),
   (str_to_lowercase (record_name (hit_record hit)),
    (record_path (hit_record hit), record_id (hit_record hit)))).

Record KeyedSearchHit : Type := mkKeyed { keyed_key : SearchHitSortKey; keyed_hit : SearchHit }.
Definition new_keyed (hit : SearchHit) : KeyedSearchHit := mkKeyed (key_from_hit hit) hit.

Record BoundedHitMerge : Type := mkMerge { merge_limit : nat; merge_hits : list KeyedSearchHit }.

Definition new_merge (limit : nat) : BoundedHitMerge := mkMerge limit [].

Definition trim (m : BoundedHitMerge) : BoundedHitMerge :=
  mkMerge (merge_limit m) (take (merge_limit m) (sort_by keyed_key (merge_hits m))).

Definition push_hit (hit : SearchHit) (m : BoundedHitMerge) : BoundedHitMerge :=
  if decide (merge_limit m = 0) then m
  else
    let m' := mkMerge (merge_limit m) (merge_hits m ++ [new_keyed hit]) in
    if (saturating_mul (N.of_nat (merge_limit m)) 2 <? N.of_nat (length (merge_hits m')))%N
    then trim m' else m'.

Definition extend (hits : list SearchHit) (m : BoundedHitMerge) : BoundedHitMerge :=
  if decide (merge_limit m = 0 \/ hits = []) then m
  else foldl (fun m hit => push_hit hit m) m hits.

Definition into_sorted_hits (m : BoundedHitMerge) : list SearchHit :=
  keyed_hit <$> merge_hits (trim m).

Definition top_hits (hits : list SearchHit) (limit : nat) : list SearchHit :=
  into_sorted_hits (extend hits (new_merge limit)).

(** What a merge may have gone through: hits one by one or in batches. *)
Inductive merged (limit : nat) : list SearchHit -> BoundedHitMerge -> Prop :=
  | merged_new : merged limit [] (new_merge limit)
  | merged_push hits m hit : merged limit hits m -> merged limit (hits ++ [hit]) (push_hit hit m)
  | merged_extend hits m more : merged limit hits m -> merged limit (hits ++ more) (extend more m).

(** ** Lemmas *)

Lemma insert_keyed h acc :
  insert_by keyed_key (new_keyed h) (new_keyed <$> acc) = new_keyed <$> insert_by key_from_hit h acc.
Proof.
  induction acc as [|a acc IH]; [done|]. rewrite fmap_cons. cbn [insert_by keyed_key new_keyed].
  destruct (cmp (key_from_hit h) (key_from_hit a)); rewrite ?fmap_cons, ?IH; done.
Qed.

Lemma sort_keyed hits :
  sort_by keyed_key (new_keyed <$> hits) = new_keyed <$> sort_by key_from_hit hits.
Proof.
  unfold sort_by. change (@nil KeyedSearchHit) with (new_keyed <$> []). generalize (@nil SearchHit).
  induction hits as [|h hits IH]; intros acc; [done|]. rewrite fmap_cons. cbn [foldl].
  by rewrite insert_keyed, IH.
Qed.

(** Nothing that can still be among the first [limit] has been thrown away, and
    no more than twice the limit is retained. *)
Definition merge_ok (limit : nat) (hits : list SearchHit) (m : BoundedHitMerge) : Prop :=
  merge_limit m = limit /\ length (merge_hits m) <= 2 * limit /\
  forall more, take limit (sort_by keyed_key (merge_hits m ++ (new_keyed <$> more))) =
               take limit (sort_by keyed_key (new_keyed <$> (hits ++ more))).

Lemma push_ok limit hits m hit :
  merge_ok limit hits m -> merge_ok limit (hits ++ [hit]) (push_hit hit m).
Proof.
  intros (<- & Hlen & Hkeep). unfold push_hit. case_decide as H0.
  { split; [done|]. split; [done|]. intros more. by rewrite H0. }
  assert (Hpush : forall more,
    take (merge_limit m) (sort_by keyed_key ((merge_hits m ++ [new_keyed hit]) ++ (new_keyed <$> more))) =
    take (merge_limit m) (sort_by keyed_key (new_keyed <$> ((hits ++ [hit]) ++ more)))).
  { intros more. rewrite <- !app_assoc. apply (Hkeep ([hit] ++ more)). }
  cbn [merge_hits merge_limit].
  destruct (N.ltb_spec (saturating_mul (N.of_nat (merge_limit m)) 2)
    (N.of_nat (length (merge_hits m ++ [new_keyed hit])))) as [Hgt|Hle].
  - split; [done|]. unfold trim. cbn [merge_hits merge_limit]. split; [rewrite length_take; lia|].
    intros more. by rewrite sort_by_take.
  - split; [done|]. split; [|done]. cbn [merge_hits]. unfold saturating_mul in Hle. lia.
Qed.

Lemma extend_ok limit more : forall hits m,
  merge_ok limit hits m -> merge_ok limit (hits ++ more) (foldl (fun m hit => push_hit hit m) m more).
Proof.
  induction more as [|h more IH]; intros hits m Hm; simpl; [by rewrite app_nil_r|].
  rewrite (cons_middle h hits more), app_assoc. by apply IH, push_ok.
Qed.

Lemma merged_ok limit hits m : merged limit hits m -> merge_ok limit hits m.
Proof.
  induction 1 as [|hits m hit _ IH|hits m more _ IH].
  - split; [done|]. split; [simpl; lia|done].
  - by apply push_ok.
  - unfold extend. case_decide as Hc; [|by apply extend_ok].
    destruct Hc as [H0| ->]; [|by rewrite app_nil_r].
    destruct IH as (<- & Hlen & Hkeep). split; [done|]. split; [done|]. intros more'. by rewrite H0.
Qed.

(** however the hits come in, the merge retains at most twice its limit and
    gives the first [limit] of all hits stably sorted by falling score, then by
    lower-case name, path and id: [top_hits] is the reference "sort everything
    and truncate". *)
Theorem top_hits_spec limit hits m :
  merged limit hits m ->
  length (merge_hits m) <= 2 * limit /\
  into_sorted_hits m = take limit (sort_by key_from_hit hits) /\
  top_hits hits limit = take limit (sort_by key_from_hit hits).
Proof.
  assert (Hres : forall m, merge_ok limit hits m ->
    into_sorted_hits m = take limit (sort_by key_from_hit hits)).
  { intros m' (<- & _ & Hk). specialize (Hk []). rewrite !app_nil_r in Hk.
    unfold into_sorted_hits, trim. cbn [merge_hits]. rewrite Hk, sort_keyed.
    rewrite fmap_take. f_equal. rewrite <- list_fmap_compose. apply list_fmap_id. }
  intros Hm%merged_ok. split; [by apply Hm|]. split; [by apply Hres|].
  apply Hres, merged_ok. apply (merged_extend limit [] (new_merge limit)). constructor.
Qed.
End Hits.

Section Witness.
Definition demo_hit (score : Z) (name : str) : SearchHit :=
  mkHit (mkRecord (mkFileId 1 2) None (SEPARATOR :: name) name File 0 0 0 0 0 None None None false [] None)
    score FuzzyName None.

Definition demo_hits : list SearchHit :=
  [demo_hit 5 (lit "b"); demo_hit 9 (lit "c"); demo_hit 5 (lit "A")].

Example top_hits_spec_witness :
  @top_hits ascii_unicode demo_hits 2 = [demo_hit 9 (lit "c"); demo_hit 5 (lit "A")].
Proof.
  assert (Hm : @merged ascii_unicode 2 demo_hits (@extend ascii_unicode demo_hits (new_merge 2))).
  { exact (@merged_extend ascii_unicode 2 [] _ demo_hits (@merged_new ascii_unicode 2)). }
  rewrite (proj2 (proj2 (@top_hits_spec ascii_unicode 2 demo_hits _ Hm))).
  vm_compute. reflexivity.
Defined.
End Witness.
