(* ===== verification/Fuzzy.v ===== *)
(** * Fuzzy terms ([crates/search/src/fuzzy.rs], [terms.rs])

    The bounded edit distance, the deletion keys under which a term is indexed,
    the terms that are indexed at all, and the prefixes and grams of a term. *)
From Stdlib Require Import Ascii.
From S2P Require Import Prelude Types Text Order Chars.

(** ** [bounded_levenshtein]

    Two rows of the table, of one cell more than [right] has bytes; [previous]
    and [current] are swapped after every character of [left]. *)
Fixpoint lev_row (previous : list nat) (left_ch : char) (j : nat) (right : str) (current : list nat)
    (row_min : nat) : list nat * nat :=
  match right with
  | [] => (current, row_min)
  | right_ch :: right' =>
      let cost := if decide (left_ch = right_ch) then 0 else 1 in
      let cell := Nat.min (Nat.min (previous !!! (j + 1) + 1) (current !!! j + 1)) (previous !!! j + cost) in
      let current := <[j + 1 := cell]> current in
      lev_row previous left_ch (j + 1) right' current (Nat.min row_min (current !!! (j + 1)))
  end.

Fixpoint lev_rows (max i : nat) (left right : str) (previous current : list nat) : option (list nat) :=
  match left with
  | [] => Some previous
  | left_ch :: left' =>
      let current := <[0 := i + 1]> current in
      let r := lev_row previous left_ch 0 right current (current !!! 0) in
      if Nat.ltb max r.2 then None else lev_rows max (i + 1) left' right r.1 previous
  end.

Definition abs_diff (a b : nat) : nat := (a - b) + (b - a).

Definition bounded_levenshtein (left right : str) (max : nat) : option nat :=
  if Nat.ltb max (abs_diff (str_len left) (str_len right)) then None
  else
    previous ← lev_rows max 0 left right (seq 0 (S (str_len right))) (replicate (str_len right + 1) 0) ;
    if Nat.leb (previous !!! str_len right) max then Some (previous !!! str_len right) else None.

(** ** [deletion_keys] *)

Fixpoint digit_run (chars : str) (consecutive_digits : nat) : bool :=
  match chars with
  | [] => false
  | c :: chars' =>
      if is_ascii_digit c then
        if Nat.ltb 4 (consecutive_digits + 1) then true else digit_run chars' (consecutive_digits + 1)
      else digit_run chars' 0
  end.
Definition has_long_digit_run (chars : str) : bool := digit_run chars 0.

Fixpoint collect_deletions (remaining : nat) (chars : str) (keys : list str) : list str :=
  let keys := btree_insert chars keys in
  match remaining with
  | O => keys
  | S remaining' =>
      if Nat.leb (length chars) 1 then keys
      else foldl (fun keys index => collect_deletions remaining' (take index chars ++ drop (index + 1) chars) keys)
             keys (seq 0 (length chars))
  end.

Section Terms.
Context `{Unicode}.

Definition deletion_keys (term : str) (max_deletions : nat) : list str :=
  if bool_decide (term = []) || negb (existsb is_alphabetic term) || has_long_digit_run term then []
  else collect_deletions max_deletions term [].

(** ** [terms.rs] *)

Definition FUZZY_MIN_TERM_LEN : nat := 2.
Definition FUZZY_MAX_TERM_LEN : nat := 32.
Definition PREFIX_MIN_TERM_LEN : nat := 1.
Definition PREFIX_MAX_TERM_LEN : nat := 32.
Definition SUBSTRING_GRAM_CHARS : nat := 3.

Fixpoint fuzzy_scan (term : str) (count : nat) (has_alpha : bool) (consecutive_digits : nat) : bool :=
  match term with
  | [] => Nat.leb FUZZY_MIN_TERM_LEN count && Nat.leb count FUZZY_MAX_TERM_LEN && has_alpha
  | c :: term' =>
      if is_alphabetic c then fuzzy_scan term' (count + 1) true 0
      else if is_ascii_digit c then
        if Nat.ltb 4 (consecutive_digits + 1) then false
        else fuzzy_scan term' (count + 1) has_alpha (consecutive_digits + 1)
      else fuzzy_scan term' (count + 1) has_alpha 0
  end.
Definition is_fuzzy_term (term : str) : bool := fuzzy_scan term 0 false 0.

Definition is_prefix_term (term : str) : bool :=
  Nat.leb PREFIX_MIN_TERM_LEN (length term) && Nat.leb (length term) PREFIX_MAX_TERM_LEN.

Definition token_prefixes (term : str) : list str :=
  (fun e => take e term) <$> take PREFIX_MAX_TERM_LEN (drop 1 (seq 0 (length term)) ++ [length term]).

(** The last offsets seen, at most one more than a gram has characters. *)
Fixpoint grams_loop (value : str) (todo offsets : list nat) (grams : list str) : list str :=
  match todo with
  | [] => grams
  | offset :: todo' =>
      let offsets := offsets ++ [offset] in
      if decide (length offsets = SUBSTRING_GRAM_CHARS + 1) then
        let s := offsets !!! 0 in
        let e := offsets !!! SUBSTRING_GRAM_CHARS in
        grams_loop value todo' (drop 1 offsets) (grams ++ [take (e - s) (drop s value)])
      else grams_loop value todo' offsets grams
  end.
Definition substring_grams (value : str) : list str :=
  sort_dedup (grams_loop value (seq 0 (length value) ++ [length value]) [] []).

Definition is_substring_gram (value : str) : bool := Nat.eqb (length value) SUBSTRING_GRAM_CHARS.
End Terms.

(** ** The reference: edit scripts

    [edits l r n]: [l] becomes [r] by [n] insertions, deletions and
    substitutions of one character. *)
Inductive edits : str -> str -> nat -> Prop :=
  | edits_nil : edits [] [] 0
  | edits_keep c l r n : edits l r n -> edits (c :: l) (c :: r) n
  | edits_substitute a b l r n : edits l r n -> edits (a :: l) (b :: r) (S n)
  | edits_delete a l r n : edits l r n -> edits (a :: l) r (S n)
  | edits_insert b l r n : edits l r n -> edits l (b :: r) (S n).

(** [n] is the least cost of a script. *)
Definition edit_distance (l r : str) (n : nat) : Prop :=
  edits l r n /\ forall m, edits l r m -> n <= m.

Fixpoint dist (l : str) : str -> nat :=
  match l with
  | [] => fun r => length r
  | a :: l' =>
      fix dist_r (r : str) : nat :=
        match r with
        | [] => S (length l')
        | b :: r' =>
            Nat.min (Nat.min (dist l' r + 1) (dist_r r' + 1))
              (dist l' r' + (if decide (a = b) then 0 else 1))
        end
  end.

Lemma dist_cons a l b r :
  dist (a :: l) (b :: r) =
  Nat.min (Nat.min (dist l (b :: r) + 1) (dist (a :: l) r + 1)) (dist l r + (if decide (a = b) then 0 else 1)).
Proof. done. Qed.
Lemma dist_nil_r l : dist l [] = length l.
Proof. by destruct l. Qed.

Lemma edits_ins_all r : edits [] r (length r).
Proof. induction r; simpl; by constructor. Qed.
Lemma edits_del_all l : edits l [] (length l).
Proof. induction l; simpl; by constructor. Qed.

Lemma dist_edits l : forall r, edits l r (dist l r).
Proof.
  induction l as [|a l IHl]; intros r; [apply edits_ins_all|].
  induction r as [|b r IHr]; [apply (edits_del_all (a :: l))|].
  rewrite dist_cons.
  destruct (Nat.min_dec (Nat.min (dist l (b :: r) + 1) (dist (a :: l) r + 1))
    (dist l r + (if decide (a = b) then 0 else 1))) as [->| ->].
  - destruct (Nat.min_dec (dist l (b :: r) + 1) (dist (a :: l) r + 1)) as [->| ->];
      rewrite Nat.add_1_r; by constructor.
  - destruct (decide (a = b)) as [->|]; [rewrite Nat.add_0_r|rewrite Nat.add_1_r]; by constructor.
Qed.

Lemma dist_le_delete a l r : dist (a :: l) r <= S (dist l r).
Proof. destruct r as [|b r]; [rewrite !dist_nil_r; done|rewrite dist_cons; lia]. Qed.
Lemma dist_le_insert b l r : dist l (b :: r) <= S (dist l r).
Proof. destruct l as [|a l]; [done|rewrite dist_cons; lia]. Qed.

Lemma dist_least l r n : edits l r n -> dist l r <= n.
Proof.
  induction 1 as [|c l r n _ IH|a b l r n _ IH|a l r n _ IH|b l r n _ IH].
  - done.
  - rewrite dist_cons, decide_True by done. lia.
  - rewrite dist_cons. case_decide; lia.
  - pose proof (dist_le_delete a l r). lia.
  - pose proof (dist_le_insert b l r). lia.
Qed.

Lemma dist_edit_distance l r n : edit_distance l r n <-> dist l r = n.
Proof.
  split.
  - intros [He Hl]. pose proof (Hl _ (dist_edits l r)). pose proof (dist_least _ _ _ He). lia.
  - intros <-. split; [apply dist_edits|apply dist_least].
Qed.

Lemma edits_app l1 r1 n1 l2 r2 n2 : edits l1 r1 n1 -> edits l2 r2 n2 -> edits (l1 ++ l2) (r1 ++ r2) (n1 + n2).
Proof. intros H1 H2. induction H1; simpl; by try constructor. Qed.

Lemma edits_reverse l r n : edits l r n -> edits (reverse l) (reverse r) n.
Proof.
  induction 1 as [|c l r n _ IH|a b l r n _ IH|a l r n _ IH|b l r n _ IH]; [constructor|..];
    rewrite ?reverse_cons.
  - replace n with (n + 0) by lia. apply edits_app; [done|]. repeat constructor.
  - replace (S n) with (n + 1) by lia. apply edits_app; [done|]. repeat constructor.
  - replace (S n) with (n + 1) by lia. rewrite <- (app_nil_r (reverse r)). apply edits_app; [done|]. repeat constructor.
  - replace (S n) with (n + 1) by lia. rewrite <- (app_nil_r (reverse l)). apply edits_app; [done|]. repeat constructor.
Qed.

Lemma dist_reverse l r : dist (reverse l) (reverse r) = dist l r.
Proof.
  apply dist_edit_distance. split.
  - apply edits_reverse, dist_edits.
  - intros m Hm%edits_reverse. rewrite !reverse_involutive in Hm. by apply dist_least.
Qed.

Lemma edits_length l r n : edits l r n -> abs_diff (length l) (length r) <= n.
Proof. unfold abs_diff. induction 1; simpl in *; lia. Qed.

(** ** The table computes the distance *)

(** The distances of the (reversed) prefix [rl] of [left] to the prefixes of [right]. *)
Definition cell (rl right : str) (k : nat) : nat := dist rl (reverse (take k right)).
Definition is_row (rl right : str) (v : list nat) : Prop :=
  length v = S (length right) /\ forall k, k <= length right -> v !! k = Some (cell rl right k).

(** [m] is the least of the first [n + 1] cells. *)
Definition row_least (rl right : str) (n m : nat) : Prop :=
  (forall k, k <= n -> m <= cell rl right k) /\ exists k, k <= n /\ cell rl right k = m.

Lemma cell_0 rl right : cell rl right 0 = length rl.
Proof. unfold cell. by rewrite take_0, reverse_nil, dist_nil_r. Qed.

Lemma cell_S a rl right k b : right !! k = Some b ->
  cell (a :: rl) right (S k) =
  Nat.min (Nat.min (cell rl right (S k) + 1) (cell (a :: rl) right k + 1))
    (cell rl right k + (if decide (a = b) then 0 else 1)).
Proof. intros Hk. unfold cell. rewrite (take_S_r _ _ b Hk), reverse_app. by apply dist_cons. Qed.

Lemma total_of (v : list nat) k x : v !! k = Some x -> v !!! k = x.
Proof. apply list_lookup_total_correct. Qed.

Lemma row_least_S rl right n m :
  row_least rl right n m -> row_least rl right (S n) (Nat.min m (cell rl right (S n))).
Proof.
  intros [Hle (k & Hk & Hm)]. split.
  - intros k' Hk'. destruct (decide (k' = S n)) as [->|]; [lia|]. specialize (Hle k'). lia.
  - destruct (Nat.min_dec m (cell rl right (S n))) as [->| ->]; [exists k; split; [lia|done]|by exists (S n)].
Qed.

Lemma lev_row_spec a rl right prev : forall todo dn cur m,
  right = dn ++ todo -> is_row rl right prev -> length cur = S (length right) ->
  (forall k, k <= length dn -> cur !! k = Some (cell (a :: rl) right k)) ->
  row_least (a :: rl) right (length dn) m ->
  let r := lev_row prev a (length dn) todo cur m in
  is_row (a :: rl) right r.1 /\ row_least (a :: rl) right (length right) r.2.
Proof.
  induction todo as [|b todo IH]; intros dn cur m Hr Hp Hlen Hcur Hm; cbn [lev_row].
  { subst right. rewrite app_nil_r in *. by split. }
  assert (Hb : right !! length dn = Some b) by (subst right; by apply list_lookup_middle).
  pose proof (lookup_lt_Some _ _ _ Hb) as Hlt. destruct Hp as [Hpl Hp].
  assert (Hcell : Nat.min (Nat.min (prev !!! (length dn + 1) + 1) (cur !!! length dn + 1))
    (prev !!! length dn + (if decide (a = b) then 0 else 1)) = cell (a :: rl) right (S (length dn))).
  { rewrite (cell_S a rl right _ b Hb), (Nat.add_1_r (length dn)).
    rewrite (total_of prev _ _ (Hp (S (length dn)) ltac:(lia))).
    rewrite (total_of prev _ _ (Hp (length dn) ltac:(lia))).
    by rewrite (total_of cur _ _ (Hcur (length dn) ltac:(lia))). }
  rewrite Hcell, (Nat.add_1_r (length dn)).
  set (cur' := <[S (length dn):=cell (a :: rl) right (S (length dn))]> cur).
  assert (Hin : cur' !! S (length dn) = Some (cell (a :: rl) right (S (length dn)))).
  { apply list_lookup_insert_eq. lia. }
  assert (Hout : forall k, k <= length dn -> cur' !! k = Some (cell (a :: rl) right k)).
  { intros k Hk. unfold cur'. rewrite list_lookup_insert_ne by lia. by apply Hcur. }
  assert (Hlen' : length cur' = S (length right)) by (unfold cur'; by rewrite length_insert).
  rewrite (total_of _ _ _ Hin). clearbody cur'.
  replace (S (length dn)) with (length (dn ++ [b])) by (rewrite length_app; simpl; lia).
  apply IH; [by rewrite <- app_assoc|by split|done| |].
  - intros k Hk. rewrite length_app in Hk. simpl in Hk.
    destruct (decide (k = S (length dn))) as [->|Hne]; [exact Hin|]. apply Hout. lia.
  - rewrite length_app. simpl. rewrite Nat.add_1_r. by apply row_least_S.
Qed.

Lemma row_bound_step a rl right m :
  (forall k, k <= length right -> m <= cell rl right k) ->
  forall k, k <= length right -> m <= cell (a :: rl) right k.
Proof.
  intros Hm k. induction k as [|k IH]; intros Hk.
  - specialize (Hm 0). rewrite cell_0 in *. simpl. lia.
  - destruct (lookup_lt_is_Some_2 right k Hk) as [b Hb]. rewrite (cell_S a rl right k b Hb).
    pose proof (Hm k). pose proof (Hm (S k)). specialize (IH ltac:(lia)). case_decide; lia.
Qed.

Lemma row_bound_all l rl right m :
  (forall k, k <= length right -> m <= cell rl right k) ->
  forall k, k <= length right -> m <= cell (reverse l ++ rl) right k.
Proof.
  revert rl. induction l as [|a l IH]; intros rl Hm; [done|].
  rewrite reverse_cons, <- app_assoc. apply IH. intros k. by apply row_bound_step.
Qed.

Lemma lev_rows_spec max right : forall left rl prev cur,
  is_row rl right prev -> length cur = S (length right) ->
  match lev_rows max (length rl) left right prev cur with
  | Some v => is_row (reverse left ++ rl) right v
  | None => max < cell (reverse left ++ rl) right (length right)
  end.
Proof.
  induction left as [|a left IH]; intros rl prev cur Hp Hc; cbn [lev_rows]; [done|].
  rewrite reverse_cons, <- app_assoc. cbn [app].
  destruct cur as [|x cur]; [done|]. cbn [insert list_insert].
  rewrite Nat.add_1_r. change ((S (length rl) :: cur) !!! 0) with (S (length rl)).
  pose proof (lev_row_spec a rl right prev right [] (S (length rl) :: cur) (S (length rl))) as Hrow.
  cbn [length] in Hrow. destruct Hrow as [Hr Hm]; [done..| | |].
  - intros k Hk. assert (k = 0) as -> by lia. by rewrite cell_0.
  - split; [intros k Hk; assert (k = 0) as -> by lia; rewrite cell_0; simpl; lia|].
    exists 0. by rewrite cell_0.
  - destruct (Nat.ltb_spec max (lev_row prev a 0 right (S (length rl) :: cur) (S (length rl))).2) as [Hlt|Hge].
    + eapply Nat.lt_le_trans; [exact Hlt|]. apply row_bound_all; [by apply Hm|done].
    + apply (IH (a :: rl)); [done|apply Hp].
Qed.

Lemma first_row right : is_row [] right (seq 0 (S (length right))).
Proof.
  split; [apply length_seq|]. intros k Hk. rewrite lookup_seq_lt by lia. unfold cell. simpl.
  rewrite length_reverse, length_take. f_equal. lia.
Qed.

Lemma levenshtein_dist left right max : is_ascii left -> is_ascii right ->
  bounded_levenshtein left right max = if Nat.leb (dist left right) max then Some (dist left right) else None.
Proof.
  intros Hl Hr. unfold bounded_levenshtein. rewrite !str_len_ascii by done.
  pose proof (edits_length _ _ _ (dist_edits left right)) as Habs.
  destruct (Nat.ltb_spec max (abs_diff (length left) (length right))) as [Hlt|Hge].
  { by rewrite (proj2 (Nat.leb_gt _ _)) by lia. }
  pose proof (lev_rows_spec max right left [] _ (replicate (length right + 1) 0) (first_row right)) as H.
  rewrite length_replicate in H. specialize (H ltac:(lia)). cbn [length] in H.
  rewrite app_nil_r in H. unfold cell in H. rewrite firstn_all, dist_reverse in H.
  destruct (lev_rows max 0 left right (seq 0 (S (length right))) _) as [v|]; cbn [mbind option_bind].
  - destruct H as [_ H]. specialize (H (length right) ltac:(lia)). unfold cell in H.
    rewrite firstn_all, dist_reverse in H. by rewrite (total_of _ _ _ H).
  - by rewrite (proj2 (Nat.leb_gt _ _)).
Qed.

(** ** Deletion keys *)

(** A fold whose steps only add. *)
Lemma foldl_grow {A B} (F : list A -> B -> list A) (P : B -> A -> Prop) (ixs : list B) :
  (forall keys i k, i ∈ ixs -> k ∈ F keys i <-> k ∈ keys \/ P i k) ->
  forall keys k, k ∈ foldl F keys ixs <-> k ∈ keys \/ exists i, i ∈ ixs /\ P i k.
Proof.
  induction ixs as [|i ixs IH]; intros HF keys k; simpl.
  { split; [by left|]. intros [?|(i & Hi & _)]; [done|]. by apply elem_of_nil in Hi. }
  rewrite IH by (intros; apply HF; by right). rewrite HF by left.
  split.
  - intros [[?|?]|(j & ? & ?)]; [by left|right; exists i; split; [by left|done]|].
    right. exists j. split; [by right|done].
  - intros [?|(j & [->|?]%elem_of_cons & ?)]; [by do 2 left|left; by right|]. right. by exists j.
Qed.

Lemma sublist_delete_one {A} (k l : list A) :
  k `sublist_of` l -> length k < length l ->
  exists i, i < length l /\ k `sublist_of` (take i l ++ drop (i + 1) l).
Proof.
  induction 1 as [|x k l Hs IH|x k l Hs IH]; intros Hlen; simpl in *; [lia| |].
  - destruct IH as (i & Hi & Hs'); [lia|]. exists (S i). split; [lia|]. simpl. by apply sublist_skip.
  - exists 0. split; [lia|done].
Qed.

Lemma sublist_of_deleted {A} (l : list A) i : (take i l ++ drop (i + 1) l) `sublist_of` l.
Proof. rewrite Nat.add_1_r, <- delete_take_drop. apply sublist_delete. Qed.

Lemma length_deleted {A} (l : list A) i : i < length l -> length (take i l ++ drop (i + 1) l) = length l - 1.
Proof. intros Hi. rewrite length_app, length_take, length_drop. lia. Qed.

Lemma sublist_full {A} (k l : list A) : k `sublist_of` l -> length l <= length k -> k = l.
Proof.
  induction 1 as [|x k l Hs IH|x k l Hs IH]; simpl; intros Hl; [done|f_equal; apply IH; lia|].
  apply sublist_length in Hs. lia.
Qed.

Lemma collect_deletions_elem remaining : forall chars keys k, chars <> [] ->
  k ∈ collect_deletions remaining chars keys <->
  k ∈ keys \/ (k <> [] /\ k `sublist_of` chars /\ length chars <= length k + remaining).
Proof.
  induction remaining as [|m IH]; intros chars keys k Hne; cbn [collect_deletions].
  { rewrite btree_insert_elem. split; [intros [->|?]|intros [?|(? & Hs & Hl)]]; auto; [right; by rewrite Nat.add_0_r|].
    left. apply sublist_full; [done|lia]. }
  destruct (Nat.leb_spec (length chars) 1) as [Hshort|Hlong].
  { rewrite btree_insert_elem. split; [intros [->|?]|intros [?|(? & Hs & Hl)]]; auto; [right; repeat split; [done|done|lia]|].
    left. apply sublist_full; [done|]. destruct k; [done|simpl; lia]. }
  rewrite (foldl_grow _ (fun i k => k <> [] /\ k `sublist_of` (take i chars ++ drop (i + 1) chars) /\
    length chars - 1 <= length k + m)).
  2:{ intros keys' i k' Hi%elem_of_seq. rewrite IH.
      - by rewrite length_deleted by lia.
      - intros H0%(f_equal length). rewrite length_deleted in H0 by lia. simpl in H0. lia. }
  rewrite btree_insert_elem. split.
  - intros [[->|?]|(i & Hi%elem_of_seq & Hk & Hs & Hl)]; [right; repeat split; [done|done|lia]|by left|].
    right. split; [done|]. split; [|lia]. etrans; [exact Hs|apply sublist_of_deleted].
  - intros [?|(Hk & Hs & Hl)]; [left; by right|].
    destruct (decide (length k < length chars)) as [Hlt|Hge].
    + right. destruct (sublist_delete_one k chars Hs Hlt) as (i & Hi & Hs').
      exists i. split; [apply elem_of_seq; lia|]. repeat split; [done|done|lia].
    + left. left. apply sublist_full; [done|lia].
Qed.

Lemma collect_deletions_sorted remaining : forall chars keys,
  StronglySorted lt_of keys -> StronglySorted lt_of (collect_deletions remaining chars keys).
Proof.
  induction remaining as [|m IH]; intros chars keys Hk; cbn [collect_deletions]; [by apply btree_insert_sorted|].
  destruct (Nat.leb (length chars) 1); [by apply btree_insert_sorted|].
  assert (Hk' : StronglySorted lt_of (btree_insert chars keys)) by by apply btree_insert_sorted.
  revert Hk'. generalize (btree_insert chars keys). induction (seq 0 (length chars)) as [|i ixs IHi]; intros ks Hks; [done|].
  simpl. by apply IHi, IH.
Qed.

Lemma edits_common l r n : edits l r n ->
  exists k, k `sublist_of` l /\ k `sublist_of` r /\ length l <= length k + n /\ length r <= length k + n.
Proof.
  induction 1 as [|c l r n _ (k & Hl & Hr & ? & ?)|a b l r n _ (k & Hl & Hr & ? & ?)
    |a l r n _ (k & Hl & Hr & ? & ?)|b l r n _ (k & Hl & Hr & ? & ?)].
  - exists []. repeat split; simpl; (lia || constructor).
  - exists (c :: k). repeat split; simpl; try lia; by apply sublist_skip.
  - exists k. repeat split; simpl; try lia; by apply sublist_cons.
  - exists k. repeat split; simpl; try lia; [by apply sublist_cons|done].
  - exists k. repeat split; simpl; try lia; [done|by apply sublist_cons].
Qed.

(** ** Digit runs and the terms indexed *)

Definition digits (s : str) : Prop := Forall (fun c => is_ascii_digit c = true) s.

Lemma digit_run_spec s : forall n, n <= 4 ->
  digit_run s n = true <->
  (exists b c, s = b ++ c /\ length b = 5 - n /\ digits b) \/
  (exists a b c, s = a ++ b ++ c /\ length b = 5 /\ digits b).
Proof.
  induction s as [|x s IH]; intros n Hn; cbn [digit_run].
  { split; [done|]. intros [(b & c & H & Hl & _)|(a & b & c & H & Hl & _)];
      apply (f_equal length) in H; rewrite ?length_app in H; simpl in H; lia. }
  destruct (is_ascii_digit x) eqn:Hx.
  - destruct (Nat.ltb_spec 4 (n + 1)) as [H4|H4].
    { split; [|done]. intros _. left. exists [x], s. repeat split; [simpl; lia|by repeat constructor]. }
    rewrite IH by lia. split.
    + intros [(b & c & -> & Hl & Hb)|(a & b & c & -> & Hl & Hb)].
      * left. exists (x :: b), c. repeat split; [simpl; lia|by constructor].
      * right. by exists (x :: a), b, c.
    + intros [(b & c & Heq & Hl & Hb)|([|y a] & b & c & Heq & Hl & Hb)].
      * destruct b as [|y b]; simplify_eq/=; [lia|]. apply Forall_cons in Hb as [_ Hb].
        left. exists b, c. repeat split; [lia|done].
      * destruct b as [|y b]; simplify_eq/=. apply Forall_cons in Hb as [_ Hb]. left.
        exists (take (5 - (n + 1)) b), (drop (5 - (n + 1)) b ++ c).
        rewrite app_assoc, take_drop. repeat split; [rewrite length_take; lia|by apply Forall_take].
      * simplify_eq/=. right. by exists a, b, c.
  - rewrite IH by lia. split.
    + intros [(b & c & -> & Hl & Hb)|(a & b & c & -> & Hl & Hb)]; right; [by exists [x], b, c|by exists (x :: a), b, c].
    + intros [(b & c & Heq & Hl & Hb)|([|y a] & b & c & Heq & Hl & Hb)].
      * destruct b as [|y b]; simplify_eq/=; [lia|]. apply Forall_cons in Hb as [Hy _]. congruence.
      * destruct b as [|y b]; simplify_eq/=. apply Forall_cons in Hb as [Hy _]. congruence.
      * simplify_eq/=. right. by exists a, b, c.
Qed.

Lemma long_digit_run_spec s :
  has_long_digit_run s = true <-> exists a b c, s = a ++ b ++ c /\ length b = 5 /\ digits b.
Proof.
  unfold has_long_digit_run. rewrite digit_run_spec by lia. split; [|by right].
  intros [(b & c & -> & Hl & Hb)|?]; [by exists [], b, c|done].
Qed.

Section TermLemmas.
Context `{Unicode}.

Lemma alphabetic_not_digit c : is_alphabetic c = true -> is_ascii_digit c = false.
Proof.
  intros Ha. apply not_true_iff_false. unfold is_ascii_digit. rewrite andb_true_iff, !N.leb_le. intros Hd.
  rewrite alphabetic_ascii in Ha by lia.
  unfold is_ascii_letter, is_ascii_upper, is_ascii_lower in Ha.
  rewrite orb_true_iff, !andb_true_iff, !N.leb_le in Ha. lia.
Qed.

Lemma fuzzy_scan_spec t : forall n h d,
  fuzzy_scan t n h d =
  Nat.leb 2 (n + length t) && Nat.leb (n + length t) 32 && (h || existsb is_alphabetic t) && negb (digit_run t d).
Proof.
  induction t as [|c t IH]; intros n h d; cbn [fuzzy_scan digit_run existsb length].
  { rewrite Nat.add_0_r, orb_false_r. by rewrite andb_true_r. }
  replace (n + S (length t)) with (n + 1 + length t) by lia.
  destruct (is_alphabetic c) eqn:Ha.
  - rewrite (alphabetic_not_digit c Ha), IH. by rewrite orb_true_r.
  - destruct (is_ascii_digit c); [|by rewrite IH].
    destruct (Nat.ltb 4 (d + 1)); [by rewrite andb_false_r|by rewrite IH].
Qed.

(** A term is indexed when it has a letter and no run of five digits. *)
Definition indexable (t : str) : Prop := existsb is_alphabetic t = true /\ has_long_digit_run t = false.

Lemma is_fuzzy_term_spec t :
  is_fuzzy_term t = true <-> 2 <= length t <= 32 /\ indexable t.
Proof.
  unfold is_fuzzy_term, indexable, has_long_digit_run. rewrite fuzzy_scan_spec. simpl orb.
  rewrite !andb_true_iff, negb_true_iff, !Nat.leb_le. simpl. tauto.
Qed.

Lemma deletion_keys_elem t d k :
  k ∈ deletion_keys t d <->
  indexable t /\ k <> [] /\ k `sublist_of` t /\ length t <= length k + d.
Proof.
  unfold deletion_keys, indexable.
  destruct (decide (t = [])) as [->|Ht].
  { rewrite bool_decide_true by done. simpl. split; [by intros ?%elem_of_nil|].
    intros [[? _] _]. done. }
  rewrite bool_decide_false by done. cbn [orb].
  destruct (existsb is_alphabetic t); cbn [negb orb]; [|split; [by intros ?%elem_of_nil|by intros [[? _] _]]].
  destruct (has_long_digit_run t); [split; [by intros ?%elem_of_nil|by intros [[_ ?] _]]|].
  rewrite collect_deletions_elem by done. split; [|tauto]. intros [?%elem_of_nil|?]; done.
Qed.

Lemma deletion_keys_sorted t d : StronglySorted lt_of (deletion_keys t d).
Proof.
  unfold deletion_keys. case_match; [constructor|]. apply collect_deletions_sorted. constructor.
Qed.

(** ** Grams and prefixes *)

Definition window (v : str) (s : nat) : str := take 3 (drop s v).

Lemma seq_snoc a n : seq a n ++ [a + n] = seq a (S n).
Proof. by rewrite seq_S. Qed.

Lemma grams_loop_spec v k : forall i g,
  grams_loop v (seq i k) (seq (i - Nat.min i 3) (Nat.min i 3)) g =
  g ++ (window v <$> seq (i - 3) (k - (3 - i))).
Proof.
  induction k as [|k IH]; intros i g; [simpl; by rewrite app_nil_r|]. cbn [seq grams_loop].
  assert (Hoff : seq (i - Nat.min i 3) (Nat.min i 3) ++ [i] = seq (i - Nat.min i 3) (S (Nat.min i 3))).
  { rewrite <- seq_snoc. do 2 f_equal. lia. }
  rewrite Hoff, length_seq. unfold SUBSTRING_GRAM_CHARS. case_decide as Hc.
  - assert (Hi : 3 <= i) by lia. rewrite (Nat.min_r i 3) by lia.
    replace (drop 1 (seq (i - 3) 4)) with (seq (S i - 3) 3)
      by (simpl; repeat f_equal; lia).
    pose proof (IH (S i)) as IH'. rewrite (Nat.min_r (S i) 3) in IH' by lia. rewrite IH'.
    rewrite !list_lookup_total_correct with (x := i - 3) (i := 0) by done.
    rewrite (list_lookup_total_correct _ 3 (S (S (S (i - 3))))) by done.
    replace (S (S (S (i - 3))) - (i - 3)) with 3 by lia.
    replace (3 - i) with 0 by lia. replace (3 - S i) with 0 by lia. rewrite !Nat.sub_0_r.
    cbn [seq]. rewrite fmap_cons, <- app_assoc. cbn [app]. unfold window at 2.
    repeat f_equal. lia.
  - assert (Hi : i < 3) by lia. pose proof (IH (S i)) as IH'.
    rewrite (Nat.min_l i 3), (Nat.min_l (S i) 3), !Nat.sub_diag in * by lia.
    rewrite IH'. f_equal. f_equal. replace (i - 3) with 0 by lia. replace (S i - 3) with 0 by lia.
    f_equal. lia.
Qed.

Lemma substring_grams_elem v g :
  g ∈ substring_grams v <-> length g = 3 /\ exists a b, v = a ++ g ++ b.
Proof.
  unfold substring_grams. rewrite sort_dedup_elem.
  pose proof (grams_loop_spec v (S (length v)) 0 []) as Hg.
  change (seq (0 - Nat.min 0 3) (Nat.min 0 3)) with (@nil nat) in Hg.
  change (0 - 3) with 0 in Hg. change (3 - 0) with 3 in Hg. cbn [app] in Hg.
  change (seq 0 (length v) ++ [length v]) with (seq 0 (length v) ++ [0 + length v]).
  rewrite seq_snoc, Hg. clear Hg.
  rewrite list_elem_of_fmap. split.
  - intros (s & -> & Hs%elem_of_seq). unfold window. split; [rewrite length_take, length_drop; lia|].
    exists (take s v), (drop 3 (drop s v)). by rewrite take_drop, take_drop.
  - intros (Hl & a & b & ->). exists (length a). split.
    + unfold window. rewrite drop_app_length. rewrite <- Hl. by rewrite take_app_length.
    + apply elem_of_seq. rewrite !length_app. lia.
Qed.

Lemma token_prefixes_eq t : t <> [] ->
  token_prefixes t = (fun e => take e t) <$> seq 1 (Nat.min 32 (length t)).
Proof.
  intros Ht. unfold token_prefixes, PREFIX_MAX_TERM_LEN. f_equal.
  assert (Hseq : drop 1 (seq 0 (length t)) ++ [length t] = seq 1 (length t)).
  { destruct t as [|c t]; [done|]. exact (seq_snoc 1 (length t)). }
  rewrite Hseq. by rewrite take_seq.
Qed.
Lemma token_prefixes_elem t p : t <> [] -> p ∈ token_prefixes t <-> p <> [] /\ length p <= 32 /\ exists s, t = p ++ s.
Proof.
  intros Ht. rewrite token_prefixes_eq by done. rewrite list_elem_of_fmap. split.
  - intros (e & -> & He%elem_of_seq). split; [|split; [rewrite length_take; lia|]].
    + intros H0%(f_equal length). rewrite length_take in H0. simpl in H0. lia.
    + exists (drop e t). by rewrite take_drop.
  - intros (Hp & Hl & s & ->). exists (length p). rewrite take_app_length. split; [done|].
    assert (1 <= length p) by (destruct p; [done|simpl; lia]).
    apply elem_of_seq. rewrite length_app. lia.
Qed.
End TermLemmas.

(** ** Theorems *)

(** on ASCII strings [bounded_levenshtein] is the least number of single
    character insertions, deletions and substitutions from one string to the
    other when that is at most [max], and nothing otherwise. *)
Theorem levenshtein_spec left right max :
  is_ascii left -> is_ascii right ->
  forall n, bounded_levenshtein left right max = Some n <-> edit_distance left right n /\ n <= max.
Proof.
  intros Hl Hr n. rewrite levenshtein_dist by done. rewrite dist_edit_distance.
  destruct (Nat.leb_spec (dist left right) max); split; [intros [= <-]; auto|by intros [-> _]|done|].
  intros [<- ?]. lia.
Qed.

Example levenshtein_spec_witness :
  is_ascii (lit "kitten") /\ is_ascii (lit "sitting") /\ edit_distance (lit "kitten") (lit "sitting") 3.
Proof.
  assert (Hl : is_ascii (lit "kitten")) by (by repeat constructor).
  assert (Hr : is_ascii (lit "sitting")) by (by repeat constructor).
  split; [exact Hl|]. split; [exact Hr|].
  exact (proj1 (proj1 (levenshtein_spec _ _ 3 Hl Hr 3) eq_refl)).
Defined.

Definition e_acute : char := 233%N.

(** the table is sized and read by bytes but filled by characters, so outside
    ASCII the answer is wrong both ways: a string of an even number of characters
    is not within distance two of itself, and two different ones are at distance
    nought. *)
Theorem levenshtein_bytes :
  bounded_levenshtein [e_acute; ch "a"] [e_acute; ch "a"] 2 = None /\
  edit_distance [e_acute; ch "a"] [e_acute; ch "a"] 0 /\
  bounded_levenshtein [ch "a"] [e_acute] 1 = Some 0 /\
  edit_distance [ch "a"] [e_acute] 1.
Proof. rewrite !dist_edit_distance. by vm_compute. Qed.

(** the fuzzy index misses nothing: two terms that are indexed, within edit
    distance [d] of each other and not both as short as [d], have a deletion key in
    common; the keys of a term are, in order and without repetition, the non-empty
    strings left by at most [d] deletions. *)
Theorem deletion_keys_complete `{Unicode} d l r n :
  indexable l -> indexable r -> edit_distance l r n -> n <= d -> d < Nat.max (length l) (length r) ->
  (exists k, k ∈ deletion_keys l d /\ k ∈ deletion_keys r d) /\
  StronglySorted lt_of (deletion_keys l d) /\
  (forall k, k ∈ deletion_keys l d <-> k <> [] /\ k `sublist_of` l /\ length l <= length k + d).
Proof.
  intros Hl Hr [He _] Hn Hd. destruct (edits_common _ _ _ He) as (k & Hkl & Hkr & ? & ?).
  assert (k <> []) by (intros ->; simpl in *; lia).
  split; [exists k; rewrite !deletion_keys_elem; repeat split; (done || apply Hl || apply Hr || lia)|].
  split; [apply deletion_keys_sorted|]. intros k'. rewrite deletion_keys_elem. tauto.
Qed.

Example deletion_keys_complete_witness :
  exists k, k ∈ @deletion_keys ascii_unicode (lit "colour") 2 /\ k ∈ @deletion_keys ascii_unicode (lit "color") 2.
Proof.
  refine (proj1 (@deletion_keys_complete ascii_unicode 2 (lit "colour") (lit "color") 1 _ _ _ _ _)).
  - split; reflexivity.
  - split; reflexivity.
  - apply dist_edit_distance. reflexivity.
  - lia.
  - simpl. lia.
Defined.

(** which terms are indexed and what for: a fuzzy term has two to thirty-two
    characters, a letter, and no five digits in a row, and then it has deletion
    keys; the grams of a text are exactly its three-character substrings, sorted
    and each once; the prefixes of a term are its first thirty-two. *)
Theorem terms_spec `{Unicode} :
  (forall t, is_fuzzy_term t = true <->
     2 <= length t <= 32 /\ (exists c, c ∈ t /\ is_alphabetic c = true) /\
     ~ exists a b c, t = a ++ b ++ c /\ length b = 5 /\ digits b) /\
  (forall t d, is_fuzzy_term t = true -> t ∈ deletion_keys t d) /\
  (forall v g, g ∈ substring_grams v <-> length g = 3 /\ exists a b, v = a ++ g ++ b) /\
  (forall v, StronglySorted lt_of (substring_grams v)) /\
  (forall t p, t <> [] -> p ∈ token_prefixes t <-> p <> [] /\ length p <= 32 /\ exists s, t = p ++ s).
Proof.
  split; [|split; [|split; [exact substring_grams_elem|split; [intros v; apply sort_dedup_sorted|]]]].
  - intros t. rewrite is_fuzzy_term_spec. unfold indexable.
    rewrite <- (not_true_iff_false (has_long_digit_run t)), long_digit_run_spec, existsb_exists.
    setoid_rewrite list_elem_of_In. done.
  - intros t d [[Hl _] Hi]%is_fuzzy_term_spec. rewrite deletion_keys_elem.
    repeat split; [apply Hi..|destruct t; [simpl in *; lia|done]|done|lia].
  - exact token_prefixes_elem.
Qed.
