(* ===== verification/Query.v ===== *)
(** * Search queries: the data and its leaves ([crates/search/src/query.rs])

    Terms, phrases, filters and proximities, how their texts are normalised and
    read, and what a filter says of a file record.  A cancellation token is polled
    as in the jobs crate, so that the checked functions are computations of
    [Control], over any state. *)
From Stdlib Require Import Ascii.
From S2P Require Import Prelude Types Text Control Order Chars Records Fuzzy.
#[local] Open Scope list_scope.

(** ** Data *)

Record QueryProximity : Type := mkProximity { distance : N; proximity_terms : list str }.
#[export] Instance QueryProximity_eq_dec : EqDecision QueryProximity.
Proof. solve_decision. Defined.

Inductive QueryKind : Type := KindDirectory | KindFile | KindSymlink | KindOther.
#[export] Instance QueryKind_eq_dec : EqDecision QueryKind.
Proof. solve_decision. Defined.

Inductive QueryScope : Type :=
  | Desktop | Documents | Downloads | Applications | ICloud | Trash | Home
  | ScopePath (path : str).
#[export] Instance QueryScope_eq_dec : EqDecision QueryScope.
Proof. solve_decision. Defined.

Inductive SizeOperator : Type := OpEq | OpGt | OpGte | OpLt | OpLte.
#[export] Instance SizeOperator_eq_dec : EqDecision SizeOperator.
Proof. solve_decision. Defined.

Record SizeComparison : Type := mkSize { size_operator : SizeOperator; size_bytes : N }.
#[export] Instance SizeComparison_eq_dec : EqDecision SizeComparison.
Proof. solve_decision. Defined.

Inductive DateField : Type := Created | Modified | Changed.
#[export] Instance DateField_eq_dec : EqDecision DateField.
Proof. solve_decision. Defined.

Inductive DateComparison : Type :=
  | On (date_start date_end : N)
  | Before (date_end : N)
  | BeforeOrOn (date_end : N)
  | After (date_start : N)
  | AfterOrOn (date_start : N).
#[export] Instance DateComparison_eq_dec : EqDecision DateComparison.
Proof. solve_decision. Defined.

Inductive QueryFilter : Type :=
  | FName (value : str) (negative : bool)
  | FPath (value : str) (negative : bool)
  | FExtension (value : str) (negative : bool)
  | FTag (value : str) (negative : bool)
  | FScope (scope : QueryScope) (negative : bool)
  | FKind (kind : QueryKind) (negative : bool)
  | FSize (size : SizeComparison) (negative : bool)
  | FDate (field : DateField) (date : DateComparison) (negative : bool).
#[export] Instance QueryFilter_eq_dec : EqDecision QueryFilter.
Proof. solve_decision. Defined.

#[warnings="-register-all"]
Inductive QueryExpr : Type :=
  | ETerm (value : str)
  | EPhrase (value : str)
  | EProximity (proximity : QueryProximity)
  | EFilter (filter : QueryFilter)
  | ENot (expression : QueryExpr)
  | EAnd (expressions : list QueryExpr)
  | EOr (expressions : list QueryExpr).

Record SearchQuery : Type := mkQuery {
  terms : list str;
  excluded_terms : list str;
  phrases : list str;
  proximities : list QueryProximity;
  filters : list QueryFilter;
  expression : option QueryExpr
}.

(** ** The derived orders: the variant, then the fields *)

#[export] Instance QueryProximity_ord : Ord QueryProximity :=
  cmp_via (fun p => (distance p, proximity_terms p)).

Definition scope_fields (s : QueryScope) : list str :=
  match s with
  | Desktop => [[0%N]] | Documents => [[1%N]] | Downloads => [[2%N]] | Applications => [[3%N]]
  | ICloud => [[4%N]] | Trash => [[5%N]] | Home => [[6%N]] | ScopePath p => [[7%N]; p]
  end.
Definition kind_index (k : QueryKind) : N :=
  match k with KindDirectory => 0 | KindFile => 1 | KindSymlink => 2 | KindOther => 3 end%N.
Definition operator_index (o : SizeOperator) : N :=
  match o with OpEq => 0 | OpGt => 1 | OpGte => 2 | OpLt => 3 | OpLte => 4 end%N.
Definition field_index (f : DateField) : N :=
  match f with Created => 0 | Modified => 1 | Changed => 2 end%N.
Definition date_fields (d : DateComparison) : list str :=
  match d with
  | On s e => [[0]; [s]; [e]] | Before e => [[1]; [e]] | BeforeOrOn e => [[2]; [e]]
  | After s => [[3]; [s]] | AfterOrOn s => [[4]; [s]]
  end%N.
Definition bool_index (b : bool) : N := if b then 1%N else 0%N.
Definition filter_fields (f : QueryFilter) : list str :=
  match f with
  | FName v n => [[0]; v; [bool_index n]]
  | FPath v n => [[1]; v; [bool_index n]]
  | FExtension v n => [[2]; v; [bool_index n]]
  | FTag v n => [[3]; v; [bool_index n]]
  | FScope s n => [[4]] ++ scope_fields s ++ [[bool_index n]]
  | FKind k n => [[5]; [kind_index k]; [bool_index n]]
  | FSize s n => [[6]; [operator_index (size_operator s)]; [size_bytes s]; [bool_index n]]
  | FDate d c n => [[7]; [field_index d]] ++ date_fields c ++ [[bool_index n]]
  end%N.
#[export] Instance QueryFilter_ord : Ord QueryFilter := cmp_via filter_fields.

Lemma bool_index_inj a b : bool_index a = bool_index b -> a = b.
Proof. by destruct a, b. Qed.
Lemma kind_index_inj a b : kind_index a = kind_index b -> a = b.
Proof. by destruct a, b. Qed.
Lemma operator_index_inj a b : operator_index a = operator_index b -> a = b.
Proof. by destruct a, b. Qed.
Lemma field_index_inj a b : field_index a = field_index b -> a = b.
Proof. by destruct a, b. Qed.

#[export] Instance QueryProximity_total : TotalOrd QueryProximity.
Proof. apply via_total. intros [] []. naive_solver. Qed.

#[export] Instance QueryFilter_total : TotalOrd QueryFilter.
Proof.
  apply via_total. intros f g.
  destruct f as [v n|v n|v n|v n|s n|k n|[o b] n|d c n], g as [v' n'|v' n'|v' n'|v' n'|s' n'|k' n'|[o' b'] n'|d' c' n'];
    try done; cbn [filter_fields app size_operator size_bytes];
    try (intros [= -> ->%bool_index_inj]; done).
  - destruct s, s'; cbn [scope_fields app]; intros [=]; subst; try (f_equal; by apply bool_index_inj); done.
  - intros [= ->%kind_index_inj ->%bool_index_inj]. done.
  - intros [= ->%operator_index_inj -> ->%bool_index_inj]. done.
  - destruct c, c'; cbn [date_fields app]; try done; intros [=]; subst;
      repeat match goal with
      | E : field_index _ = field_index _ |- _ => apply field_index_inj in E
      | E : bool_index _ = bool_index _ |- _ => apply bool_index_inj in E
      end; by subst.
Qed.

(** ** Texts *)

Definition QUERY_CHECK_STRIDE : nat := 256.

Section Texts.
Context `{Unicode} {St : Type}.

Definition trim (s : str) : str := trim_by is_whitespace s.

(** A poll every [QUERY_CHECK_STRIDE] turns of a loop. *)
Definition stride_check (index : nat) : M St unit :=
  if Nat.eqb (index mod QUERY_CHECK_STRIDE) 0 then check_control else mret tt.

Fixpoint normalize_loop (index : nat) (chars normalized : str) : M St str :=
  match chars with
  | [] => mret normalized
  | c :: chars' => stride_check index ;; normalize_loop (S index) chars' (normalized ++ to_lowercase c)
  end.

Definition normalize_checked (input : str) : M St str :=
  check_control ;;
  (normalized <- normalize_loop 0 (trim input) [] ;
   check_control ;;
   mret normalized).

Fixpoint tokenize_loop (index : nat) (parts tokens : list str) : M St (list str) :=
  match parts with
  | [] => mret tokens
  | part :: parts' => stride_check index ;; tokenize_loop (S index) parts' (tokens ++ [part])
  end.

Definition tokenize_checked (input : str) : M St (list str) :=
  check_control ;;
  (tokens <- tokenize_loop 0 (filter (fun part => part <> []) (split_by (fun c => negb (is_alphanumeric c)) input)) [] ;
   check_control ;;
   mret tokens).

Definition trim_dots (s : str) : str := trim_start_by (fun c => (c =? DOT)%N) s.

Definition normalize_extension_checked (input : str) : M St str :=
  normalized <- normalize_checked input ; mret (trim_dots normalized).
End Texts.

(** [f_checked(.., &Cancellation::default()).expect(..)]; the lemmas [runs_*]
    below show that the default is never taken. *)
Definition uncancelled {A} (m : M unit A) (d : A) : A :=
  match expect m tt with Some (a, _) => a | None => d end.

Definition normalize `{Unicode} (input : str) : str := uncancelled (normalize_checked input) [].
Definition tokenize `{Unicode} (input : str) : list str := uncancelled (tokenize_checked input) [].
Definition normalize_extension `{Unicode} (input : str) : str :=
  uncancelled (normalize_extension_checked input) [].

(** ** Sizes and dates *)

Section Comparisons.
Context `{Unicode}.

Definition parse_operator (input : str) : SizeOperator * str :=
  match strip_prefix (lit ">=") input with Some value => (OpGte, value) | None =>
  match strip_prefix (lit "<=") input with Some value => (OpLte, value) | None =>
  match strip_prefix (lit ">") input with Some value => (OpGt, value) | None =>
  match strip_prefix (lit "<") input with Some value => (OpLt, value) | None =>
  match strip_prefix (lit "=") input with Some value => (OpEq, value) | None =>
  (OpEq, input) end end end end end.

(** The text before the first character that is no digit, and the rest. *)
Fixpoint split_digits (s : str) : str * str :=
  match s with
  | c :: s' => if is_ascii_digit c then (c :: (split_digits s').1, (split_digits s').2) else ([], s)
  | [] => ([], [])
  end.

Definition size_multiplier (unit : str) : option N :=
  if decide (unit ∈ [lit ""; lit "b"]) then Some 1%N
  else if decide (unit ∈ [lit "k"; lit "kb"; lit "kib"]) then Some 1024%N
  else if decide (unit ∈ [lit "m"; lit "mb"; lit "mib"]) then Some (1024 * 1024)%N
  else if decide (unit ∈ [lit "g"; lit "gb"; lit "gib"]) then Some (1024 * 1024 * 1024)%N
  else if decide (unit ∈ [lit "t"; lit "tb"; lit "tib"]) then Some (1024 ^ 4)%N
  else None.

Definition checked_mul (a b : N) : option N := if (a * b <=? U64_MAX)%N then Some (a * b)%N else None.
Definition checked_add (a b : N) : option N := if (a + b <=? U64_MAX)%N then Some (a + b)%N else None.
Definition checked_sub (a b : N) : option N := if (b <=? a)%N then Some (a - b)%N else None.

Definition parse_size (input : str) : option N :=
  let input := str_ascii_lowercase (trim input) in
  let '(digits, rest) := split_digits input in
  number ← parse_unsigned U64_MAX digits ;
  multiplier ← size_multiplier (trim rest) ;
  checked_mul number multiplier.

Definition SizeComparison_parse (input : str) : option SizeComparison :=
  let '(operator, value) := parse_operator (trim input) in
  mkSize operator <$> parse_size value.

Definition SizeComparison_matches (s : SizeComparison) (len : N) : bool :=
  match size_operator s with
  | OpEq => len =? size_bytes s
  | OpGt => size_bytes s <? len
  | OpGte => size_bytes s <=? len
  | OpLt => len <? size_bytes s
  | OpLte => len <=? size_bytes s
  end%N.

(** Rust's [/] and [%] on signed integers truncate. *)
Definition is_leap_year (year : Z) : bool :=
  ((Z.rem year 4 =? 0) && negb (Z.rem year 100 =? 0) || (Z.rem year 400 =? 0))%Z.

Definition days_in_month (year : Z) (month : N) : option N :=
  if decide (month ∈ [1; 3; 5; 7; 8; 10; 12]%N) then Some 31%N
  else if decide (month ∈ [4; 6; 9; 11]%N) then Some 30%N
  else if decide (month = 2%N) then Some (if is_leap_year year then 29%N else 28%N)
  else None.

Definition days_from_civil (year : Z) (month day : N) : option Z :=
  ym ← (if (month <=? 2)%N
        then (if (year - 1 <? -2147483648)%Z then None else Some (year - 1, (month + 12)%N)%Z)
        else Some (year, month)) ;
  let '(year, month) := ym in
  let era := Z.quot (if (0 <=? year)%Z then year else (year - 399)%Z) 400 in
  let year_of_era := (year - era * 400)%Z in
  let day_of_year := (Z.quot (153 * (Z.of_N month - 3) + 2) 5 + Z.of_N day - 1)%Z in
  let day_of_era := (year_of_era * 365 + Z.quot year_of_era 4 - Z.quot year_of_era 100 + day_of_year)%Z in
  Some (era * 146097 + day_of_era - 719468)%Z.

Definition parse_date (input : str) : option (Z * N * N) :=
  match split_by (fun c => (c =? ch "-")%N) (trim input) with
  | y :: parts =>
      year ← parse_i32 y ;
      match parts with
      | m :: parts =>
          month ← parse_unsigned U32_MAX m ;
          match parts with
          | d :: parts =>
              day ← parse_unsigned U32_MAX d ;
              if bool_decide (parts <> []) || negb ((1 <=? month) && (month <=? 12))%N then None
              else
                max_day ← days_in_month year month ;
                if ((1 <=? day) && (day <=? max_day))%N then Some (year, month, day) else None
          | [] => None
          end
      | [] => None
      end
  | [] => None
  end.

Definition date_bounds (input : str) : option (N * N) :=
  ymd ← parse_date input ;
  let '(year, month, day) := ymd in
  start_days ← days_from_civil year month day ;
  if (start_days <? 0)%Z then None
  else
    start ← checked_mul (Z.to_N start_days) 86400 ;
    e ← checked_add start 86400 ;
    e ← checked_sub e 1 ;
    Some (start, e).

Definition DateComparison_parse (input : str) : option DateComparison :=
  let '(operator, value) := parse_operator (trim input) in
  bounds ← date_bounds (trim value) ;
  let '(start, e) := bounds in
  Some (match operator with
        | OpEq => On start e
        | OpGt => After (saturating_add e 1)
        | OpGte => AfterOrOn start
        | OpLt => Before start
        | OpLte => BeforeOrOn e
        end).

(** [time.duration_since(UNIX_EPOCH)], in whole seconds. *)
Definition unix_seconds (time : SystemTime) : option N :=
  if (time <? 0)%Z then None else Some (Z.to_N (time / 1000000000)).

Definition DateComparison_matches (d : DateComparison) (time : SystemTime) : bool :=
  match unix_seconds time with
  | None => false
  | Some seconds =>
      match d with
      | On s e => (s <=? seconds) && (seconds <=? e)
      | Before e => seconds <? e
      | BeforeOrOn e => seconds <=? e
      | After s => s <=? seconds
      | AfterOrOn s => s <=? seconds
      end%N
  end.

Definition DateField_time (f : DateField) (r : FileRecord) : option SystemTime :=
  match f with
  | Created => record_created r
  | Modified => record_modified r
  | Changed => record_changed r
  end.
End Comparisons.

(** ** Scopes, kinds and filters *)

Section Filters.
Context `{Unicode}.
Section Parsing.
Context {St : Type}.

Definition QueryScope_parse_checked (input : str) : M St (option QueryScope) :=
  let value := trim input in
  if decide (value = []) then mret None
  else
    normalized <- normalize_checked value ;
    mret (Some (
      if decide (normalized = lit "desktop") then Desktop
      else if decide (normalized ∈ [lit "documents"; lit "docs"]) then Documents
      else if decide (normalized = lit "downloads") then Downloads
      else if decide (normalized ∈ [lit "applications"; lit "apps"]) then Applications
      else if decide (normalized ∈ [lit "icloud"; lit "icloud-drive"; lit "icloud drive"]) then ICloud
      else if decide (normalized = lit "trash") then Trash
      else if decide (normalized = lit "home") then Home
      else ScopePath normalized)).

Definition QueryKind_parse_checked (input : str) : M St (option QueryKind) :=
  normalized <- normalize_checked input ;
  mret (
    if decide (normalized ∈ [lit "dir"; lit "directory"; lit "folder"]) then Some KindDirectory
    else if decide (normalized ∈ [lit "file"; lit "document"]) then Some KindFile
    else if decide (normalized ∈ [lit "link"; lit "symlink"; lit "alias"]) then Some KindSymlink
    else if decide (normalized = lit "other") then Some KindOther
    else None).

Definition QueryProximity_parse_checked (input : str) : M St (option QueryProximity) :=
  check_control ;;
  match (match strip_prefix (lit "near:") input with
         | Some rest => Some rest
         | None => strip_prefix (lit "proximity:") input
         end) with
  | None => mret None
  | Some rest =>
      match split_once (ch ":") rest with
      | None => mret None
      | Some (distance, terms) =>
          match parse_unsigned U32_MAX (trim distance) with
          | None => mret None
          | Some distance =>
              if ((distance =? 0) || (256 <? distance))%N then mret None
              else
                normalized <- normalize_checked terms ;
                terms <- tokenize_checked normalized ;
                check_control ;;
                let terms := sort_dedup terms in
                mret (if Nat.leb 2 (length terms) then Some (mkProximity distance terms) else None)
          end
      end
  end.

(** The field names of [QueryFilter::parse_checked], and what each reads. *)
Definition parse_field (field value : str) (negative : bool) : M St (option QueryFilter) :=
  if decide (field = lit "name") then
    v <- normalize_checked value ; mret (Some (FName v negative))
  else if decide (field ∈ [lit "path"; lit "in"]) then
    v <- normalize_checked value ; mret (Some (FPath v negative))
  else if decide (field ∈ [lit "ext"; lit "extension"]) then
    v <- normalize_extension_checked value ; mret (Some (FExtension v negative))
  else if decide (field ∈ [lit "tag"; lit "label"]) then
    v <- normalize_checked value ; mret (Some (FTag v negative))
  else if decide (field ∈ [lit "scope"; lit "where"]) then
    scope <- QueryScope_parse_checked value ; mret ((fun scope => FScope scope negative) <$> scope)
  else if decide (field ∈ [lit "kind"; lit "type"]) then
    kind <- QueryKind_parse_checked value ; mret ((fun kind => FKind kind negative) <$> kind)
  else if decide (field = lit "size") then
    mret ((fun size => FSize size negative) <$> SizeComparison_parse value)
  else if decide (field ∈ [lit "date"; lit "modified"; lit "mtime"]) then
    mret ((fun date => FDate Modified date negative) <$> DateComparison_parse value)
  else if decide (field ∈ [lit "created"; lit "birth"; lit "btime"]) then
    mret ((fun date => FDate Created date negative) <$> DateComparison_parse value)
  else if decide (field ∈ [lit "changed"; lit "ctime"]) then
    mret ((fun date => FDate Changed date negative) <$> DateComparison_parse value)
  else mret None.

Definition parse_field_value (input : str) (negative : bool) : M St (option QueryFilter) :=
  match split_once (ch ":") input with
  | None => mret None
  | Some (field, value) =>
      let value := trim value in
      if decide (value = []) then mret None
      else field <- normalize_checked field ; parse_field field value negative
  end.

Definition QueryFilter_parse_checked (input : str) (negative : bool) : M St (option QueryFilter) :=
  check_control ;;
  match strip_prefix (lit "@") input with
  | Some value =>
      scope <- QueryScope_parse_checked value ;
      match scope with
      | Some scope => mret (Some (FScope scope negative))
      | None => parse_field_value input negative
      end
  | None => parse_field_value input negative
  end.
End Parsing.

(** *** What a filter says of a record *)

Definition normalize_path (path : str) : str := normalize path.
Definition path_has_component (path expected : str) : bool :=
  existsb (fun c => bool_decide (normalize c = expected)) (component_strs path).

(** [windows(n).any(..)]. *)
Fixpoint windows {A} (n : nat) (l : list A) : list (list A) :=
  match l with
  | [] => []
  | _ :: l' => if Nat.leb n (length l) then take n l :: windows n l' else []
  end.

Definition path_contains_component_sequence (path : str) (expected : list str) : bool :=
  let components := normalize <$> component_strs path in
  if decide (expected = []) then true
  else existsb (fun w => forallb (fun p => bool_decide (p.1 = p.2)) (zip w expected))
         (windows (length expected) components).

Definition path_has_users_home_prefix (path : str) : bool :=
  let components := normalize <$> component_strs path in
  existsb (fun w => bool_decide (w !! 0 = Some (lit "users")) && negb (bool_decide (w !! 1 = Some [])))
    (windows 2 components).

Definition matches_kind (k : QueryKind) (kind : FileKind) : bool :=
  match k, kind with
  | KindDirectory, Directory | KindFile, File | KindSymlink, Symlink | KindOther, OtherKind => true
  | _, _ => false
  end.

Definition QueryScope_matches (scope : QueryScope) (r : FileRecord) : bool :=
  match scope with
  | Desktop => path_has_component (record_path r) (lit "desktop")
  | Documents => path_has_component (record_path r) (lit "documents")
  | Downloads => path_has_component (record_path r) (lit "downloads")
  | Applications => path_has_component (record_path r) (lit "applications")
  | ICloud =>
      path_contains_component_sequence (record_path r) [lit "mobile documents"] ||
      path_contains_component_sequence (record_path r) [lit "icloud drive"]
  | Trash =>
      path_has_component (record_path r) (lit ".trash") || path_has_component (record_path r) (lit "trash")
  | Home => path_has_users_home_prefix (record_path r)
  | ScopePath path =>
      let record_path := normalize_path (record_path r) in
      bool_decide (record_path = path) || has_prefix (path ++ lit "/") record_path
  end.

Definition is_negative (f : QueryFilter) : bool :=
  match f with
  | FName _ n | FPath _ n | FExtension _ n | FTag _ n | FScope _ n | FKind _ n | FSize _ n | FDate _ _ n => n
  end.

Definition filter_positive (f : QueryFilter) (r : FileRecord) : bool :=
  match f with
  | FName value _ => str_contains (normalize (record_name r)) value
  | FPath value _ => str_contains (normalize_path (record_path r)) value
  | FExtension value _ =>
      match normalize_extension <$> extension r with Some e => bool_decide (e = value) | None => false end
  | FTag value _ => existsb (fun tag => bool_decide (normalize tag = value)) (record_tags r)
  | FScope scope _ => QueryScope_matches scope r
  | FKind kind _ => matches_kind kind (record_kind r)
  | FSize size _ => SizeComparison_matches size (record_len r)
  | FDate field date _ =>
      match DateField_time field r with Some time => DateComparison_matches date time | None => false end
  end.

(** [QueryFilter::matches]. *)
Definition filter_matches (f : QueryFilter) (r : FileRecord) : bool :=
  if is_negative f then negb (filter_positive f r) else filter_positive f r.

(** *** The columns of a record ([crates/search/src/columns.rs])

    What the index keeps of a record, normalised once. *)
Record RecordColumns : Type := mkColumns {
  col_name : str;
  col_path : str;
  col_extension : option str;
  col_tags : list str;
  col_comment : option str;
  name_tokens : list str;
  path_tokens : list str;
  metadata_tokens : list str;
  fuzzy_terms : list str
}.

Definition from_record (r : FileRecord) : RecordColumns :=
  let name := normalize (record_name r) in
  let comment := normalize <$> record_comment r in
  mkColumns name (normalize (record_path r)) (normalize <$> extension r)
    (sort_dedup (filter (fun tag => tag <> []) (normalize <$> record_tags r)))
    comment (tokenize name)
    (concat ((fun c => tokenize (normalize c)) <$> component_strs (record_path r)))
    (match comment with Some c => tokenize c | None => [] end)
    (sort_dedup (filter (fun term => is_fuzzy_term term = true) (tokenize name))).

Definition contains_term (c : RecordColumns) (term : str) : bool :=
  str_contains (col_name c) term || str_contains (col_path c) term ||
  existsb (fun tag => str_contains tag term) (col_tags c) ||
  match col_comment c with Some comment => str_contains comment term | None => false end.

Definition matches_name_phrase (c : RecordColumns) (phrase : str) : bool := str_contains (col_name c) phrase.
Definition matches_path_phrase (c : RecordColumns) (phrase : str) : bool := str_contains (col_path c) phrase.
Definition matches_comment_phrase (c : RecordColumns) (phrase : str) : bool :=
  match col_comment c with Some comment => str_contains comment phrase | None => false end.
Definition matches_phrase (c : RecordColumns) (phrase : str) : bool :=
  matches_name_phrase c phrase || matches_path_phrase c phrase || matches_comment_phrase c phrase.

Definition filter_matches_columns (f : QueryFilter) (r : FileRecord) (c : RecordColumns) : bool :=
  match f with
  | FScope _ _ | FSize _ _ | FDate _ _ _ => filter_matches f r
  | _ =>
      let positive :=
        match f with
        | FName value _ => str_contains (col_name c) value
        | FPath value _ => str_contains (col_path c) value
        | FExtension value _ =>
            match col_extension c with Some e => bool_decide (e = value) | None => false end
        | FTag value _ => existsb (fun tag => bool_decide (tag = value)) (col_tags c)
        | FKind kind _ => matches_kind kind (record_kind r)
        | _ => false
        end in
      if is_negative f then negb positive else positive
  end.
End Filters.

(** ** What the checked functions compute *)

Section Runs.
Context `{Unicode} {St : Type}.
Implicit Types s : St.

Lemma runs_stride index s : runs (stride_check index) s (Ok tt) s.
Proof. unfold stride_check. case_match; [apply runs_check|apply runs_ret]. Qed.

Lemma cooperative_stride index : cooperative (stride_check (St := St) index).
Proof. unfold stride_check. case_match; ctl_auto. Qed.

Lemma runs_normalize_loop s chars : forall index acc,
  runs (normalize_loop index chars acc) s (Ok (acc ++ concat (to_lowercase <$> chars))) s.
Proof.
  induction chars as [|c chars IH]; intros index acc; cbn [normalize_loop].
  - rewrite app_nil_r. apply runs_ret.
  - eapply runs_bind; [apply runs_stride|]. rewrite fmap_cons. cbn [concat].
    rewrite app_assoc. apply IH.
Qed.

Definition normal (input : str) : str := concat (to_lowercase <$> trim input).

Lemma runs_normalize input s : runs (normalize_checked input) s (Ok (normal input)) s.
Proof.
  unfold normalize_checked. runs_auto. eapply runs_bind; [apply runs_normalize_loop|]. runs_auto.
Qed.

Lemma runs_tokenize_loop s parts : forall index acc,
  runs (tokenize_loop index parts acc) s (Ok (acc ++ parts)) s.
Proof.
  induction parts as [|p parts IH]; intros index acc; cbn [tokenize_loop].
  - rewrite app_nil_r. apply runs_ret.
  - eapply runs_bind; [apply runs_stride|]. rewrite (cons_middle p acc parts), app_assoc. apply IH.
Qed.

(** The maximal runs of letters and digits. *)
Definition words (input : str) : list str :=
  filter (fun part => part <> []) (split_by (fun c => negb (is_alphanumeric c)) input).

Lemma runs_tokenize input s : runs (tokenize_checked input) s (Ok (words input)) s.
Proof.
  unfold tokenize_checked. runs_auto. eapply runs_bind; [apply runs_tokenize_loop|]. runs_auto.
Qed.

Lemma runs_normalize_extension input s :
  runs (normalize_extension_checked input) s (Ok (trim_dots (normal input))) s.
Proof. unfold normalize_extension_checked. eapply runs_bind; [apply runs_normalize|]. runs_auto. Qed.

Lemma cooperative_normalize_loop chars : forall index acc,
  cooperative (normalize_loop (St := St) index chars acc).
Proof.
  induction chars as [|c chars IH]; intros index acc; cbn [normalize_loop]; [ctl_auto|].
  apply cooperative_bind; [apply cooperative_stride|done].
Qed.
Lemma cooperative_tokenize_loop parts : forall index acc,
  cooperative (tokenize_loop (St := St) index parts acc).
Proof.
  induction parts as [|c parts IH]; intros index acc; cbn [tokenize_loop]; [ctl_auto|].
  apply cooperative_bind; [apply cooperative_stride|done].
Qed.
Lemma cooperative_normalize input : cooperative (normalize_checked (St := St) input).
Proof.
  unfold normalize_checked. apply cooperative_bind; [ctl_auto|intros _].
  apply cooperative_bind; [apply cooperative_normalize_loop|ctl_auto].
Qed.
Lemma cooperative_tokenize input : cooperative (tokenize_checked (St := St) input).
Proof.
  unfold tokenize_checked. apply cooperative_bind; [ctl_auto|intros _].
  apply cooperative_bind; [apply cooperative_tokenize_loop|ctl_auto].
Qed.
End Runs.
#[export] Hint Resolve cooperative_normalize cooperative_tokenize : ctl.

Section Pure.
Context `{Unicode}.

Lemma uncancelled_runs {A} (m : M unit A) d a : runs m tt (Ok a) tt -> uncancelled m d = a.
Proof. intros Hr. unfold uncancelled. by rewrite (runs_expect _ _ _ _ Hr). Qed.

Lemma normalize_eq input : normalize input = normal input.
Proof. apply uncancelled_runs, runs_normalize. Qed.
Lemma tokenize_eq input : tokenize input = words input.
Proof. apply uncancelled_runs, runs_tokenize. Qed.
Lemma normalize_extension_eq input : normalize_extension input = trim_dots (normal input).
Proof. apply uncancelled_runs, runs_normalize_extension. Qed.
End Pure.

(** ** The calendar *)

(** Days from 1970-01-01 to the [d]-th day of the month [m] of a year that starts
    in March. *)
Definition march_days (y m d : Z) : Z :=
  (365 * y + y / 4 - y / 100 + y / 400 + (153 * (m - 3) + 2) / 5 + d - 1 - 719468)%Z.

Definition valid_date (y : Z) (m d : N) : Prop :=
  exists max_day, days_in_month y m = Some max_day /\ (1 <= d)%N /\ (d <= max_day)%N.

(** The day after. *)
Definition next_date (y : Z) (m d : N) : Z * N * N :=
  if decide (days_in_month y m = Some d) then
    if (m <? 12)%N then (y, (m + 1)%N, 1%N) else ((y + 1)%Z, 1%N, 1%N)
  else (y, m, (d + 1)%N).

Lemma bind_Some {A B} (x : A) (f : A -> option B) : Some x ≫= f = f x.
Proof. done. Qed.

Lemma month_cases m : days_in_month 0 m <> None ->
  (m = 1 \/ m = 2 \/ m = 3 \/ m = 4 \/ m = 5 \/ m = 6 \/ m = 7 \/ m = 8 \/ m = 9 \/ m = 10 \/ m = 11 \/ m = 12)%N.
Proof.
  unfold days_in_month. repeat case_decide; try done; intros _; set_unfold; naive_solver.
Qed.

Lemma days_in_month_None y z m : days_in_month y m = None <-> days_in_month z m = None.
Proof. unfold days_in_month. by repeat case_decide. Qed.

Lemma days_from_civil_march y m d : (-2147483648 < y)%Z -> (1 <= m <= 12)%N ->
  days_from_civil y m d =
  Some (if (m <=? 2)%N then march_days (y - 1) (Z.of_N m + 12) (Z.of_N d) else march_days y (Z.of_N m) (Z.of_N d)).
Proof.
  intros Hy Hm. unfold days_from_civil, march_days.
  assert (Hera : forall y, Z.quot (if (0 <=? y)%Z then y else (y - 399)%Z) 400 = (y / 400)%Z).
  { intros y'. destruct (Z.leb_spec 0 y'); Z.to_euclidean_division_equations; lia. }
  assert (Hyoe : forall y : Z, (0 <= y - y / 400 * 400)%Z) by (intros; Z.to_euclidean_division_equations; lia).
  destruct (N.leb_spec m 2).
  - destruct (Z.ltb_spec (y - 1) (-2147483648)); [lia|]. rewrite bind_Some. cbv beta iota zeta. f_equal.
    rewrite Hera. pose proof (Hyoe (y - 1)%Z). replace (Z.of_N (m + 12)) with (Z.of_N m + 12)%Z by lia.
    rewrite !Z.quot_div_nonneg by lia. Z.to_euclidean_division_equations. lia.
  - rewrite bind_Some. cbv beta iota zeta. f_equal. rewrite Hera. pose proof (Hyoe y).
    rewrite !Z.quot_div_nonneg by lia. Z.to_euclidean_division_equations. lia.
Qed.

Lemma is_leap_year_mod y :
  is_leap_year y = ((y mod 4 =? 0) && negb (y mod 100 =? 0) || (y mod 400 =? 0))%Z.
Proof.
  unfold is_leap_year.
  assert (Hm : forall k, (0 < k)%Z -> (Z.rem y k =? 0)%Z = (y mod k =? 0)%Z).
  { intros k Hk. apply eq_true_iff_eq. rewrite !Z.eqb_eq, Z.rem_divide, Z.mod_divide by lia. done. }
  by rewrite !Hm by lia.
Qed.

Lemma leap_days y :
  (y / 4 - y / 100 + y / 400 - ((y - 1) / 4 - (y - 1) / 100 + (y - 1) / 400))%Z =
  if is_leap_year y then 1%Z else 0%Z.
Proof.
  rewrite is_leap_year_mod.
  destruct (Z.eqb_spec (y mod 4) 0), (Z.eqb_spec (y mod 100) 0), (Z.eqb_spec (y mod 400) 0); simpl;
    Z.to_euclidean_division_equations; lia.
Qed.

Lemma days_in_month_date y m max_day : days_in_month y m = Some max_day ->
  (1 <= m <= 12)%N /\ (28 <= max_day <= 31)%N.
Proof.
  intros Hm. assert (Hc : days_in_month 0 m <> None).
  { intros H0. by rewrite (proj2 (days_in_month_None y 0 m) H0) in Hm. }
  apply month_cases in Hc. split; [lia|]. unfold days_in_month in Hm.
  repeat case_decide; simplify_eq; try lia. destruct (is_leap_year y); lia.
Qed.

Lemma days_next y m d n : (-2147483648 < y)%Z -> valid_date y m d -> days_from_civil y m d = Some n ->
  let '(y', m', d') := next_date y m d in days_from_civil y' m' d' = Some (n + 1)%Z.
Proof.
  intros Hy (max_day & Hmax & Hd1 & Hd2). pose proof (days_in_month_date _ _ _ Hmax) as [Hm _].
  rewrite days_from_civil_march by done. intros [= <-]. unfold next_date. rewrite Hmax.
  destruct (decide (Some max_day = Some d)) as [[= ->]|Hne].
  2:{ rewrite days_from_civil_march by lia. unfold march_days. f_equal. destruct (m <=? 2)%N; lia. }
  pose proof (leap_days y) as Hleap.
  assert (Hc : days_in_month 0 m <> None).
  { intros H0. by rewrite (proj2 (days_in_month_None y 0 m) H0) in Hmax. }
  apply month_cases in Hc.
  repeat destruct Hc as [->|Hc]; [..|subst m];
    cbn in Hmax; injection Hmax as <-; cbn [N.ltb N.compare Pos.compare Pos.compare_cont];
    rewrite days_from_civil_march by lia; f_equal; unfold march_days;
    repeat match goal with
    | |- context [ (?a <=? ?b)%N ] => let r := eval compute in (a <=? b)%N in change (a <=? b)%N with r; cbv iota
    end.
  all: repeat match goal with
    | |- context [ ((153 * ?e + 2) / 5)%Z ] =>
        let r := eval vm_compute in ((153 * e + 2) / 5)%Z in change ((153 * e + 2) / 5)%Z with r
    end; rewrite ?Z.add_simpl_r; try lia.
  destruct (is_leap_year y); lia.
Qed.

(** ** Dates and sizes of filters: lemmas *)

Lemma split_by_elem p s part : part ∈ split_by p s -> Forall (fun c => p c = false) part.
Proof.
  revert part. induction s as [|c s IH]; intros part; simpl.
  { by intros ->%list_elem_of_singleton. }
  destruct (p c) eqn:Hc.
  - intros [->|?]%elem_of_cons; [constructor|by apply IH].
  - destruct (split_by p s) as [|f fs] eqn:E; [intros ->%list_elem_of_singleton; by repeat constructor|].
    intros [->|?]%elem_of_cons; [constructor; [done|apply IH; by left]|apply IH; by right].
Qed.

Lemma parse_digits_upto_le max s : forall r n,
  (r <= max)%N -> parse_digits_upto max r s = Some n -> (n <= max)%N.
Proof.
  induction s as [|c s IH]; intros r n Hr; simpl; [by intros [= <-]|].
  destruct (char_digit c) as [d|]; [|done]. simpl.
  destruct (N.leb_spec (r * 10 + d) max); [|done]. by apply IH.
Qed.

Lemma parse_unsigned_le max s n : parse_unsigned max s = Some n -> (n <= max)%N.
Proof.
  unfold parse_unsigned. destruct s as [|c s]; [done|].
  case_decide; [destruct s; [done|]|]; apply parse_digits_upto_le; lia.
Qed.

Lemma parse_i32_nonneg s z : Forall (fun c => (c =? ch "-")%N = false) s -> parse_i32 s = Some z ->
  (0 <= z <= 2147483647)%Z.
Proof.
  intros Hs. assert (Hu : forall s, Z.of_N <$> parse_unsigned 2147483647 s = Some z -> (0 <= z <= 2147483647)%Z).
  { intros s' (n & Hn & ->)%fmap_Some. apply parse_unsigned_le in Hn. lia. }
  unfold parse_i32. destruct s as [|c [|d s]]; [apply Hu..|].
  apply Forall_cons in Hs as [Hc _]. apply N.eqb_neq in Hc. rewrite decide_False by done. apply Hu.
Qed.

Lemma parse_date_valid `{Unicode} text y m d : parse_date text = Some (y, m, d) ->
  valid_date y m d /\ (0 <= y <= 2147483647)%Z.
Proof.
  unfold parse_date. pose proof (split_by_elem (fun c => (c =? ch "-")%N) (trim text)) as Hparts.
  destruct (split_by _ (trim text)) as [|py [|pm [|pd rest]]]; [done|by destruct (parse_i32 py)|..].
  { destruct (parse_i32 py); [|done]. simpl. by destruct (parse_unsigned U32_MAX pm). }
  destruct (parse_i32 py) as [y'|] eqn:Hy; [|done]. rewrite bind_Some.
  destruct (parse_unsigned U32_MAX pm) as [m'|]; [|done]. rewrite bind_Some.
  destruct (parse_unsigned U32_MAX pd) as [d'|]; [|done]. rewrite bind_Some.
  case_match; [done|]. destruct (days_in_month y' m') as [max_day|] eqn:Hmax; [|done]. rewrite bind_Some.
  destruct (N.leb_spec 1 d'), (N.leb_spec d' max_day); simpl; try done. intros [= -> -> ->].
  split; [by exists max_day|]. eapply parse_i32_nonneg; [|exact Hy]. apply Hparts. by left.
Qed.

Lemma days_bound `{Unicode} text y m d n :
  parse_date text = Some (y, m, d) -> days_from_civil y m d = Some n -> (n <= 800000000000)%Z.
Proof.
  intros Hp Hn. destruct (parse_date_valid _ _ _ _ Hp) as [(max_day & Hmax & Hd1 & Hd2) Hy].
  pose proof (days_in_month_date _ _ _ Hmax) as [Hm Hmd].
  rewrite days_from_civil_march in Hn by lia. injection Hn as <-. unfold march_days.
  destruct (m <=? 2)%N; Z.to_euclidean_division_equations; lia.
Qed.

Lemma date_bounds_eq `{Unicode} text y m d n :
  parse_date text = Some (y, m, d) -> days_from_civil y m d = Some n ->
  date_bounds text =
  if (n <? 0)%Z then None else Some (Z.to_N n * 86400, Z.to_N n * 86400 + 86399)%N.
Proof.
  intros Hp Hn. destruct (parse_date_valid _ _ _ _ Hp) as [(max_day & Hmax & Hd1 & Hd2) Hy].
  pose proof (days_in_month_date _ _ _ Hmax) as [Hm Hmd].
  unfold date_bounds. rewrite Hp, bind_Some, Hn, bind_Some.
  destruct (Z.ltb_spec n 0) as [|Hn0]; [done|].
  pose proof (days_bound _ _ _ _ _ Hp Hn) as Hbound.
  unfold checked_mul, checked_add, checked_sub, U64_MAX.
  rewrite (proj2 (N.leb_le _ _)) by lia. rewrite bind_Some.
  rewrite (proj2 (N.leb_le _ _)) by lia. rewrite bind_Some.
  rewrite (proj2 (N.leb_le _ _)) by lia. rewrite bind_Some.
  do 2 f_equal. lia.
Qed.

(** What an operator says of two numbers. *)
Definition op_holds (op : SizeOperator) (a b : Z) : Prop :=
  match op with
  | OpEq => a = b | OpGt => b < a | OpGte => b <= a | OpLt => a < b | OpLte => a <= b
  end%Z.

(** Nanoseconds in a day. *)
Definition DAY : Z := (86400 * 1000000000)%Z.

Lemma size_matches_spec c len : SizeComparison_matches c len = true <->
  op_holds (size_operator c) (Z.of_N len) (Z.of_N (size_bytes c)).
Proof.
  unfold SizeComparison_matches, op_holds.
  destruct (size_operator c); rewrite ?N.eqb_eq, ?N.ltb_lt, ?N.leb_le; lia.
Qed.

(** The units of [parse_size]. *)
Definition size_units : list (str * N) :=
  [(lit "", 1); (lit "b", 1); (lit "k", 1024); (lit "kb", 1024); (lit "kib", 1024);
   (lit "m", 1024 ^ 2); (lit "mb", 1024 ^ 2); (lit "mib", 1024 ^ 2);
   (lit "g", 1024 ^ 3); (lit "gb", 1024 ^ 3); (lit "gib", 1024 ^ 3);
   (lit "t", 1024 ^ 4); (lit "tb", 1024 ^ 4); (lit "tib", 1024 ^ 4)]%N.

Lemma size_units_ok u k : (u, k) ∈ size_units ->
  size_multiplier u = Some k /\ str_ascii_lowercase u = u /\
  Forall (fun c => is_ascii_lower c = true) u.
Proof.
  intros Hu. assert (Hall : Forall (fun p => size_multiplier p.1 = Some p.2 /\
    str_ascii_lowercase p.1 = p.1 /\ Forall (fun c => is_ascii_lower c = true) p.1) size_units).
  { repeat constructor. }
  rewrite Forall_forall in Hall. exact (Hall _ Hu).
Qed.

Section NoSpace.
Context `{Unicode}.

Lemma plain_no_space s :
  Forall (fun c => is_ascii_digit c = true \/ is_ascii_lower c = true) s -> trim s = s.
Proof.
  intros Hs. apply trim_none. eapply Forall_impl; [exact Hs|]. intros c Hc. cbn beta in Hc.
  unfold is_ascii_digit, is_ascii_lower in Hc. rewrite !andb_true_iff, !N.leb_le in Hc.
  rewrite whitespace_ascii by lia. unfold is_ascii_space.
  apply not_true_iff_false. rewrite orb_true_iff, andb_true_iff, !N.leb_le, N.eqb_eq. lia.
Qed.

Lemma digits_lowercase s : Forall (fun c => is_ascii_digit c = true) s -> str_ascii_lowercase s = s.
Proof.
  induction 1 as [|c s Hc _ IH]; [done|]. unfold str_ascii_lowercase in *. rewrite fmap_cons, IH. f_equal.
  unfold ascii_lower, is_ascii_upper, is_ascii_digit in *. rewrite andb_true_iff, !N.leb_le in Hc.
  destruct (N.leb_spec 65 c); [lia|done].
Qed.

Lemma split_digits_app a b :
  Forall (fun c => is_ascii_digit c = true) a -> Forall (fun c => is_ascii_lower c = true) b ->
  split_digits (a ++ b) = (a, b).
Proof.
  intros Ha Hb. induction Ha as [|c a Hc _ IH]; simpl; [|by rewrite Hc, IH].
  destruct Hb as [|c b Hc]; [done|]. simpl.
  destruct (is_ascii_digit c) eqn:Hd; [|done]. exfalso.
  unfold is_ascii_digit, is_ascii_lower in *. rewrite andb_true_iff, !N.leb_le in *. lia.
Qed.
End NoSpace.

(** *** Extensions and tags in columns *)

Lemma normal_no_dot `{Unicode} e : DOT ∉ e -> trim_dots (normal e) = normal e.
Proof.
  intros He. assert (Hn : DOT ∉ normal e).
  { unfold normal. intros Hin. apply list_elem_of_In, in_concat in Hin as (l & (c & -> & Hc)%list_elem_of_In%list_elem_of_fmap & Hl%list_elem_of_In).
    apply lowercase_dot in Hl as ->. by apply trim_elem in Hc. }
  destruct (normal e) as [|c s]; [done|]. unfold trim_dots. simpl.
  destruct (N.eqb_spec c DOT) as [->|]; [|done]. destruct Hn. by left.
Qed.

Lemma existsb_tags `{Unicode} (tags : list str) value : value <> [] ->
  existsb (fun tag => bool_decide (tag = value)) (sort_dedup (filter (fun tag => tag <> []) (normalize <$> tags))) =
  existsb (fun tag => bool_decide (normalize tag = value)) tags.
Proof.
  intros Hv. apply eq_true_iff_eq. rewrite !existsb_exists. setoid_rewrite <- list_elem_of_In.
  setoid_rewrite sort_dedup_elem. setoid_rewrite bool_decide_eq_true. setoid_rewrite list_elem_of_filter.
  setoid_rewrite list_elem_of_fmap. split.
  - intros (x & [_ (tag & -> & Ht)] & <-). by exists tag.
  - intros (tag & Ht & <-). exists (normalize tag). split; [|done]. split; [done|]. by exists tag.
Qed.

(** ** Theorems *)

Section Theorems.
Context `{Unicode}.

(** the calendar: day 0 is 1970-01-01 and the number of the day after any valid
    date is one more, for every year an [i32] holds; with leap years and month
    lengths this fixes the number of every date. *)
Theorem calendar_spec :
  days_from_civil 1970 1 1 = Some 0%Z /\
  (forall y m d, (-2147483648 < y)%Z -> valid_date y m d ->
     exists n, days_from_civil y m d = Some n /\
       let '(y', m', d') := next_date y m d in days_from_civil y' m' d' = Some (n + 1)%Z) /\
  (forall y, is_leap_year y = true <-> (y mod 4 = 0 /\ y mod 100 <> 0 \/ y mod 400 = 0)%Z).
Proof.
  split; [done|]. split.
  - intros y m d Hy Hv. destruct (Hv) as (max_day & Hmax & Hd).
    pose proof (days_in_month_date _ _ _ Hmax) as [Hm _].
    eexists. split; [apply days_from_civil_march; done|]. apply days_next; [done..|].
    by apply days_from_civil_march.
  - intros y. rewrite is_leap_year_mod, orb_true_iff, andb_true_iff, negb_true_iff, !Z.eqb_eq, Z.eqb_neq. done.
Qed.

(** a date filter compares days: when the text after the operator is a valid
    date on or after 1970-01-01, the filter parses, and a time satisfies it exactly
    when it is not before the epoch and its day is in the operator's relation to the
    date's; earlier dates and texts that are no date are refused. *)
Theorem date_filter_spec input op value :
  parse_operator (trim input) = (op, value) ->
  match parse_date (trim value) with
  | None => DateComparison_parse input = None
  | Some (y, m, d) =>
      exists n, days_from_civil y m d = Some n /\
      ((n < 0)%Z -> DateComparison_parse input = None) /\
      ((0 <= n)%Z -> exists c, DateComparison_parse input = Some c /\
         forall t, DateComparison_matches c t = true <-> (0 <= t)%Z /\ op_holds op (t / DAY) n)
  end.
Proof.
  intros Hop. unfold DateComparison_parse. rewrite Hop.
  destruct (parse_date (trim value)) as [[[y m] d]|] eqn:Hp.
  2:{ unfold date_bounds. by rewrite Hp. }
  destruct (parse_date_valid _ _ _ _ Hp) as [(max_day & Hmax & _) Hy].
  pose proof (days_in_month_date _ _ _ Hmax) as [Hm _].
  eexists. split; [apply days_from_civil_march; lia|].
  pose proof (days_from_civil_march y m d ltac:(lia) Hm) as Hn.
  revert Hn. generalize (if (m <=? 2)%N then march_days (y - 1) (Z.of_N m + 12) (Z.of_N d)
                         else march_days y (Z.of_N m) (Z.of_N d)). intros n Hn.
  pose proof (days_bound _ _ _ _ _ Hp Hn) as Hbound.
  rewrite (date_bounds_eq _ _ _ _ _ Hp Hn). split; intros H0.
  { by rewrite (proj2 (Z.ltb_lt _ _)). }
  rewrite (proj2 (Z.ltb_ge _ _)) by done. rewrite bind_Some. cbv beta iota.
  eexists. split; [reflexivity|]. intros t. unfold DateComparison_matches, unix_seconds.
  destruct (Z.ltb_spec t 0) as [Ht|Ht]; [split; [done|lia]|].
  assert (Hday : (t / DAY = t / 1000000000 / 86400)%Z).
  { unfold DAY. rewrite Z.div_div by lia. f_equal. }
  rewrite Hday. generalize (t / 1000000000)%Z (Z.div_pos t 1000000000 Ht ltac:(lia)). intros secs Hs.
  unfold saturating_add, op_holds.
  destruct op; rewrite ?andb_true_iff, ?N.leb_le, ?N.ltb_lt; unfold U64; Z.to_euclidean_division_equations; lia.
Qed.

(** a size is a number and a unit, multiplied; a product that a [u64] does not
    hold is refused and not wrapped; and a size filter compares the length of the
    record with it. *)
Theorem size_filter_spec :
  (forall k u mult, u64_ok k -> (u, mult) ∈ size_units ->
     parse_size (dec k ++ u) = if (k * mult <=? U64_MAX)%N then Some (k * mult)%N else None) /\
  (forall c len, SizeComparison_matches c len = true <->
     op_holds (size_operator c) (Z.of_N len) (Z.of_N (size_bytes c))).
Proof.
  split; [|apply size_matches_spec]. intros k u mult Hk Hu.
  destruct (size_units_ok _ _ Hu) as (Hmult & Hlow & Hall). pose proof (dec_digits k) as Hd.
  assert (Htrim : forall s, Forall (fun c => is_ascii_lower c = true) s -> trim s = s).
  { intros s Hs. apply plain_no_space. eapply Forall_impl; [exact Hs|]. cbn. tauto. }
  unfold parse_size. rewrite plain_no_space.
  2:{ apply Forall_app. split; eapply Forall_impl; [exact Hd| |exact Hall|]; cbn; tauto. }
  unfold str_ascii_lowercase. rewrite fmap_app. fold (str_ascii_lowercase (dec k)) (str_ascii_lowercase u).
  rewrite Hlow, digits_lowercase, split_digits_app by done.
  rewrite parse_unsigned_dec; [|done|unfold u64_ok, U64, U64_MAX in *; lia].
  rewrite bind_Some, Htrim, Hmult, bind_Some by done. done.
Qed.

(** the columns the index keeps of a record answer every filter as the record
    itself does, but for a tag filter with an empty value, which no text parses to. *)
Theorem filter_columns_equiv f r :
  (forall n, f <> FTag [] n) -> filter_matches_columns f r (from_record r) = filter_matches f r.
Proof.
  intros Hf. unfold filter_matches_columns, filter_matches.
  destruct f as [v n|v n|v n|v n|s n|k n|s n|d c n]; try done; cbn [filter_positive from_record col_extension col_tags].
  - assert (He : match normalize <$> extension r with Some e => bool_decide (e = v) | None => false end =
      match normalize_extension <$> extension r with Some e => bool_decide (e = v) | None => false end).
    { destruct (extension r) as [e|] eqn:E; [|done]. simpl. apply extension_no_dot in E.
      by rewrite normalize_extension_eq, normalize_eq, normal_no_dot. }
    by rewrite He.
  - rewrite existsb_tags; [done|]. intros ->. by apply (Hf n).
Qed.
End Theorems.

Example date_filter_spec_witness :
  exists c, @DateComparison_parse ascii_unicode (lit ">2024-02-29") = Some c /\
    DateComparison_matches c (19782 * DAY)%Z = false /\ DateComparison_matches c (19783 * DAY)%Z = true.
Proof.
  destruct (@date_filter_spec ascii_unicode (lit ">2024-02-29") OpGt (lit "2024-02-29") eq_refl)
    as (n & Hn & _ & Hc).
  injection Hn as <-. destruct (Hc ltac:(vm_compute; discriminate)) as (c & Hp & Hm).
  exists c. split; [exact Hp|]. vm_compute in Hp. injection Hp as <-. split; reflexivity.
Defined.

Definition demo_record : FileRecord :=
  mkRecord (mkFileId 1 2) None (lit "/Users/me/A.TXT") (lit "A.TXT") File 0 0 0 0 0 None None None false
    [lit "Red"] None.

Example filter_columns_equiv_witness :
  @filter_matches_columns ascii_unicode (FExtension (lit "txt") false) demo_record
    (@from_record ascii_unicode demo_record) = true.
Proof.
  rewrite (@filter_columns_equiv ascii_unicode (FExtension (lit "txt") false) demo_record ltac:(done)).
  vm_compute. reflexivity.
Defined.
