(* ===== verification/QuerySpec.v ===== *)
(** * Query parsing: the theorems

    The grammar of boolean expressions and the proof that the parser accepts it
    and nothing else; the scanner reads back what is printed; [SearchQuery::parse]
    is total and stops when cancelled. *)
From Stdlib Require Import Ascii.
From S2P Require Import Prelude Types Text Control Order Chars Records Query QueryParse.

(** ** The leaves compute values *)

(** A computation that, left alone, returns [a] and leaves the state as it is. *)
Definition runs_to {St A} (m : M St A) (a : A) : Prop := forall s, runs m s (Ok a) s.

Section Leaves.
Context `{Unicode} {St : Type}.

Lemma runs_to_normalize input : runs_to (St := St) (normalize_checked input) (normal input).
Proof. intros s. apply runs_normalize. Qed.
Lemma runs_to_tokenize input : runs_to (St := St) (tokenize_checked input) (words input).
Proof. intros s. apply runs_tokenize. Qed.
Lemma runs_to_check : runs_to (St := St) check_control tt.
Proof. intros s. apply runs_check. Qed.
Lemma runs_to_ret {A} (a : A) : runs_to (St := St) (mret a) a.
Proof. intros s. apply runs_ret. Qed.
Lemma runs_to_bind {A B} (m : M St A) a (f : A -> M St B) b :
  runs_to m a -> runs_to (f a) b -> runs_to (mbind m f) b.
Proof. intros Hm Hf s. eapply runs_bind; [apply Hm|apply Hf]. Qed.

(** Whatever the leaves are, they compute something. *)
Definition total {A} (m : M St A) : Prop := exists a, runs_to m a.
Lemma total_ret {A} (a : A) : total (mret a).
Proof. exists a. apply runs_to_ret. Qed.
Lemma total_check : total check_control.
Proof. exists tt. apply runs_to_check. Qed.
Lemma total_normalize input : total (normalize_checked input).
Proof. eexists. apply runs_to_normalize. Qed.
Lemma total_tokenize input : total (tokenize_checked input).
Proof. eexists. apply runs_to_tokenize. Qed.
Lemma total_stride index : total (stride_check index).
Proof. exists tt. intros s. apply runs_stride. Qed.
Lemma total_bind {A B} (m : M St A) (f : A -> M St B) :
  total m -> (forall a, total (f a)) -> total (mbind m f).
Proof. intros [a Ha] Hf. destruct (Hf a) as [b Hb]. exists b. by eapply runs_to_bind. Qed.
End Leaves.

#[export] Hint Resolve total_ret total_check total_normalize total_tokenize total_stride : ctl.
#[export] Hint Resolve cooperative_stride : ctl.

(** [total_auto] follows the structure of a computation. *)
Ltac total_step :=
  match goal with
  | |- forall _, _ => intro
  | |- total (match _ with _ => _ end) => case_match
  | |- total (mbind _ _) => apply total_bind
  | |- _ => progress (eauto with ctl nocore)
  end.
Ltac total_auto := repeat total_step.

Section Leaves2.
Context `{Unicode} {St : Type}.

Lemma total_normalize_extension input : total (St := St) (normalize_extension_checked input).
Proof. unfold normalize_extension_checked. total_auto. Qed.
Lemma total_scope input : total (St := St) (QueryScope_parse_checked input).
Proof. unfold QueryScope_parse_checked. total_auto. Qed.
Lemma total_kind input : total (St := St) (QueryKind_parse_checked input).
Proof. unfold QueryKind_parse_checked. total_auto. Qed.
Lemma total_proximity input : total (St := St) (QueryProximity_parse_checked input).
Proof. unfold QueryProximity_parse_checked. total_auto. Qed.
Lemma total_field field value negative : total (St := St) (parse_field field value negative).
Proof.
  pose proof total_normalize_extension. pose proof total_scope. pose proof total_kind.
  unfold parse_field. total_auto.
Qed.
Lemma total_field_value input negative : total (St := St) (parse_field_value input negative).
Proof. pose proof total_field. unfold parse_field_value. total_auto. Qed.
Lemma total_filter input negative : total (St := St) (QueryFilter_parse_checked input negative).
Proof. pose proof total_field_value. pose proof total_scope. unfold QueryFilter_parse_checked. total_auto. Qed.
Lemma total_atom value quoted : total (St := St) (atom_expr_checked value quoted).
Proof. pose proof total_proximity. pose proof total_filter. unfold atom_expr_checked. total_auto. Qed.

(** Cooperation of the same functions. *)
Lemma cooperative_normalize_extension input : cooperative (S := St) (normalize_extension_checked input).
Proof. unfold normalize_extension_checked. ctl_auto. Qed.
Lemma cooperative_scope input : cooperative (S := St) (QueryScope_parse_checked input).
Proof. unfold QueryScope_parse_checked. ctl_auto. Qed.
Lemma cooperative_kind input : cooperative (S := St) (QueryKind_parse_checked input).
Proof. unfold QueryKind_parse_checked. ctl_auto. Qed.
Lemma cooperative_proximity input : cooperative (S := St) (QueryProximity_parse_checked input).
Proof. unfold QueryProximity_parse_checked. ctl_auto. Qed.
Lemma cooperative_field field value negative : cooperative (S := St) (parse_field field value negative).
Proof.
  pose proof cooperative_normalize_extension. pose proof cooperative_scope. pose proof cooperative_kind.
  unfold parse_field. ctl_auto.
Qed.
Lemma cooperative_field_value input negative : cooperative (S := St) (parse_field_value input negative).
Proof. pose proof cooperative_field. unfold parse_field_value. ctl_auto. Qed.
Lemma cooperative_filter input negative : cooperative (S := St) (QueryFilter_parse_checked input negative).
Proof.
  pose proof cooperative_field_value. pose proof cooperative_scope. unfold QueryFilter_parse_checked. ctl_auto.
Qed.
Lemma cooperative_atom value quoted : cooperative (S := St) (atom_expr_checked value quoted).
Proof. pose proof cooperative_proximity. pose proof cooperative_filter. unfold atom_expr_checked. ctl_auto. Qed.
End Leaves2.
#[export] Hint Resolve total_proximity total_filter total_atom
  cooperative_proximity cooperative_filter cooperative_atom : ctl.

(** The value of an atom. *)
Definition atom_value `{Unicode} (value : str) (quoted : bool) : option QueryExpr :=
  uncancelled (atom_expr_checked value quoted) None.

Lemma runs_to_local {P St A} (m : M P A) p a p' :
  runs m p (Ok a) p' -> runs_to (St := St) (local m p) a.
Proof.
  intros Hr s k. destruct (Hr k) as [k' Hk]. exists k'. unfold local. by rewrite Hk.
Qed.

Lemma cooperative_local {P St A} (m : M P A) p : cooperative m -> cooperative (S := St) (local m p).
Proof.
  intros Hm c k s. unfold local. specialize (Hm c k p). destruct (m c k p) as [[r k'] p'].
  destruct Hm as [Hk [[Hc Hn]|He]]; (split; [done|]); [left; by rewrite Hn|by right].
Qed.

Lemma runs_to_atom `{Unicode} {St} value quoted :
  runs_to (St := St) (free (atom_expr_checked value quoted)) (atom_value value quoted).
Proof.
  destruct (total_atom (St := unit) value quoted) as [a Ha].
  unfold atom_value. rewrite (uncancelled_runs _ None a (Ha tt)). by eapply runs_to_local.
Qed.

(** ** The grammar *)

Section Grammar.
Context `{Unicode}.

(** [token_is "or"] and so on hold of quoted values as well. *)
Definition is_or (t : QueryToken) : Prop := token_is (lit "or") t = true.
Definition is_and (t : QueryToken) : Prop := token_is (lit "and") t = true.
Definition is_not (t : QueryToken) : Prop := token_is (lit "not") t = true.

(** An item that follows another without [and] starts with no operator but [not]. *)
Definition starts_item (ts : list QueryToken) : Prop :=
  match ts with t :: _ => ~ is_or t /\ ~ is_and t | [] => False end.

Inductive g_or : list QueryToken -> QueryExpr -> Prop :=
  | g_alternatives ts e ts' es :
      g_and ts e -> g_or_tail ts' es -> g_or (ts ++ ts') (flatten_or (e :: es))
with g_or_tail : list QueryToken -> list QueryExpr -> Prop :=
  | g_or_end : g_or_tail [] []
  | g_or_more t ts e ts' es :
      is_or t -> g_and ts e -> g_or_tail ts' es -> g_or_tail (t :: ts ++ ts') (e :: es)
with g_and : list QueryToken -> QueryExpr -> Prop :=
  | g_conjunction ts es : es <> [] -> g_items ts es -> g_and ts (flatten_and es)
with g_items : list QueryToken -> list QueryExpr -> Prop :=
  | g_items_end : g_items [] []
  | g_item ts e ts' es : starts_item ts -> g_not ts e -> g_items ts' es -> g_items (ts ++ ts') (e :: es)
  | g_and_item t ts e ts' es :
      is_and t -> g_not ts e -> g_items ts' es -> g_items (t :: ts ++ ts') (e :: es)
with g_not : list QueryToken -> QueryExpr -> Prop :=
  | g_negation t ts e : is_not t -> g_not ts e -> g_not (t :: ts) (ENot e)
  | g_dash t e :
      token_kind t = TokValue -> ~ is_not t -> negated t = true ->
      atom_value (tail (token_value t)) (token_quoted t) = Some e -> g_not [t] (ENot e)
  | g_atom t e :
      token_kind t = TokValue -> ~ is_not t -> negated t = false ->
      atom_value (token_value t) (token_quoted t) = Some e -> g_not [t] e
  | g_parens o ts e c :
      token_kind o = TokOpen -> token_kind c = TokClose -> g_or ts e -> g_not (o :: ts ++ [c]) e.

Scheme g_or_mut := Minimality for g_or Sort Prop
  with g_or_tail_mut := Minimality for g_or_tail Sort Prop
  with g_and_mut := Minimality for g_and Sort Prop
  with g_items_mut := Minimality for g_items Sort Prop
  with g_not_mut := Minimality for g_not Sort Prop.
Combined Scheme grammar_mut from g_or_mut, g_or_tail_mut, g_and_mut, g_items_mut, g_not_mut.

(** ** The parser accepts the language *)

(** What is still to be read. *)
Definition rest (p : QueryParser) : list QueryToken := drop (offset p) (tokens p).

Lemma rest_advance n p : rest (advance n p) = drop n (rest p).
Proof. unfold rest, advance. simpl. by rewrite drop_drop. Qed.

Lemma advance_advance n m p : advance m (advance n p) = advance (n + m) p.
Proof. unfold advance. simpl. f_equal. lia. Qed.

Lemma advance_0 p : advance 0 p = p.
Proof. unfold advance. destruct p. simpl. f_equal. lia. Qed.

Lemma peek_rest p : peek p = head (rest p).
Proof. unfold peek, rest. rewrite <- (Nat.add_0_r (offset p)) at 1. rewrite <- lookup_drop. by destruct (drop _ _). Qed.

Lemma rest_app ts post p : rest p = ts ++ post -> rest (advance (length ts) p) = post.
Proof. intros Hr. rewrite rest_advance, Hr. apply drop_app_length. Qed.

Lemma is_or_kind t : is_or t -> token_kind t = TokValue.
Proof. unfold is_or, token_is, as_value. by case_decide. Qed.
Lemma is_and_kind t : is_and t -> token_kind t = TokValue.
Proof. unfold is_and, token_is, as_value. by case_decide. Qed.
Lemma is_not_kind t : is_not t -> token_kind t = TokValue.
Proof. unfold is_not, token_is, as_value. by case_decide. Qed.

Lemma runs_consume operator p :
  runs (consume_operator operator) p (Ok (peek_operator operator p))
    (if peek_operator operator p then advance 1 p else p).
Proof. unfold consume_operator. runs_auto. destruct (peek_operator operator p); runs_auto. Qed.

Lemma runs_consume_kind kind p :
  runs (consume_kind kind) p (Ok (peek_kind kind p)) (if peek_kind kind p then advance 1 p else p).
Proof. unfold consume_kind. runs_auto. destruct (peek_kind kind p); runs_auto. Qed.

Lemma peek_operator_cons operator p t r : rest p = t :: r -> peek_operator operator p = token_is operator t.
Proof. intros Hr. unfold peek_operator. by rewrite peek_rest, Hr. Qed.
Lemma peek_operator_nil operator p : rest p = [] -> peek_operator operator p = false.
Proof. intros Hr. unfold peek_operator. by rewrite peek_rest, Hr. Qed.
Lemma peek_kind_cons kind p t r : rest p = t :: r -> peek_kind kind p = bool_decide (token_kind t = kind).
Proof. intros Hr. unfold peek_kind. by rewrite peek_rest, Hr. Qed.
Lemma peek_kind_nil kind p : rest p = [] -> peek_kind kind p = false.
Proof. intros Hr. unfold peek_kind. by rewrite peek_rest, Hr. Qed.

Lemma token_is_kind operator t : token_kind t <> TokValue -> token_is operator t = false.
Proof. intros Hk. unfold token_is, as_value. by rewrite decide_False. Qed.

Lemma or_not_and t : is_or t -> ~ is_and t.
Proof.
  unfold is_or, is_and, token_is. destruct (as_value t); [|done]. unfold eq_ignore_ascii_case.
  rewrite !bool_decide_eq_true. intros Ho Ha. by rewrite Ha in Ho.
Qed.

(** The loop over items goes on at this token. *)
Definition goes_on (t : QueryToken) : bool := bool_decide (token_kind t <> TokClose).

Lemma loop_condition p t r : rest p = t :: r ->
  bool_decide (is_Some (peek_value p)) || peek_kind TokOpen p = goes_on t.
Proof.
  intros Hr. rewrite (peek_kind_cons _ _ _ _ Hr). unfold peek_value, goes_on. rewrite peek_rest, Hr.
  cbn [head]. rewrite bind_Some. unfold as_value. destruct (token_kind t); simpl; try done;
    try (rewrite bool_decide_true; [done|by eexists]).
Qed.

Definition stops_or (post : list QueryToken) : Prop :=
  match post with [] => True | t :: _ => token_kind t = TokClose end.
Definition stops_and (post : list QueryToken) : Prop :=
  match post with [] => True | t :: _ => token_kind t = TokClose \/ is_or t end.

Lemma stops_or_and post : stops_or post -> stops_and post.
Proof. destruct post; [done|by left]. Qed.

Lemma g_not_head ts e : g_not ts e -> exists t ts', ts = t :: ts' /\ token_kind t <> TokClose.
Proof.
  destruct 1 as [t ts e Ht _|t e Ht|t e Ht|o ts e c Ho _ _]; eexists _, _; (split; [reflexivity|]).
  - by rewrite (is_not_kind t Ht).
  - by rewrite Ht.
  - by rewrite Ht.
  - by rewrite Ho.
Qed.

Lemma g_not_length ts e : g_not ts e -> 1 <= length ts.
Proof. intros (t & ts' & -> & _)%g_not_head. simpl. lia. Qed.

Lemma g_and_length ts e : g_and ts e -> 1 <= length ts.
Proof.
  destruct 1 as [ts es Hne Hi]. destruct Hi as [|ts e ts' es _ Hn%g_not_length _|t ts e ts' es _ Hn _];
    [done|rewrite length_app; lia|simpl; lia].
Qed.

Lemma runs_eq {St A} (m : M St A) p r p' p'' : runs m p r p' -> p' = p'' -> runs m p r p''.
Proof. by intros ? <-. Qed.

(** The end of the loop over items. *)
Lemma and_loop_stop fuel acc p : stops_and (rest p) ->
  runs (and_loop (S fuel) acc) p
    (Ok (if decide (acc = []) then None else Some (flatten_and acc))) p.
Proof.
  intros Hs. cbn [and_loop]. runs_auto.
  destruct (rest p) as [|t r] eqn:Hr.
  - unfold peek_value. rewrite peek_rest, Hr, (peek_kind_nil _ _ Hr). cbn [head].
    rewrite bool_decide_false by (by intros [? ?]). cbn [orb]. runs_auto.
  - rewrite (loop_condition _ _ _ Hr). unfold goes_on. case_bool_decide as Hk; [|runs_auto].
    destruct Hs as [Hs|Hs]; [done|]. runs_auto.
    rewrite (peek_operator_cons _ _ _ _ Hr), Hs. cbn [orb]. runs_auto.
Qed.

(** One item, after an [and] or not. *)
Lemma and_loop_item fuel acc p ts e r p' :
  (exists t ts', ts = t :: ts' /\ token_kind t <> TokClose /\ ~ is_or t /\
     runs (parse_not fuel) (if peek_operator (lit "and") p then advance 1 p else p) (Ok (Some e))
       (advance (length ts) p)) ->
  rest p = ts ++ rest (advance (length ts) p) ->
  runs (and_loop fuel (acc ++ [e])) (advance (length ts) p) (Ok r) p' ->
  runs (and_loop (S fuel) acc) p (Ok r) p'.
Proof.
  intros (t & ts' & Hts & Hk & Ho & Hn) Hr Hl. cbn [and_loop]. runs_auto.
  rewrite Hts in Hr. cbn [app] in Hr.
  rewrite (loop_condition _ _ _ Hr). unfold goes_on. rewrite bool_decide_true by done.
  runs_auto. rewrite (peek_operator_cons _ _ _ _ Hr), (peek_kind_cons _ _ _ _ Hr).
  rewrite (proj1 (not_true_iff_false _) Ho), (bool_decide_false (token_kind t = TokClose)) by done. cbn [orb].
  eapply runs_bind; [apply runs_consume|]. eapply runs_bind; [exact Hn|]. exact Hl.
Qed.

Lemma tail_stops ts es post : g_or_tail ts es -> stops_or post -> stops_and (ts ++ post).
Proof. destruct 1; [apply stops_or_and|]. intros _. by right. Qed.

Lemma parse_complete :
  (forall ts e, g_or ts e -> forall p post fuel, rest p = ts ++ post -> stops_or post ->
     6 * length ts + 5 <= fuel -> runs (parse_or fuel) p (Ok (Some e)) (advance (length ts) p)) /\
  (forall ts es, g_or_tail ts es -> forall p post fuel acc, rest p = ts ++ post -> stops_or post ->
     6 * length ts + 5 <= fuel ->
     runs (or_loop fuel acc) p (Ok (Some (flatten_or (acc ++ es)))) (advance (length ts) p)) /\
  (forall ts e, g_and ts e -> forall p post fuel, rest p = ts ++ post -> stops_and post ->
     6 * length ts + 4 <= fuel -> runs (parse_and fuel) p (Ok (Some e)) (advance (length ts) p)) /\
  (forall ts es, g_items ts es -> forall p post fuel acc, rest p = ts ++ post -> stops_and post ->
     6 * length ts + 3 <= fuel ->
     runs (and_loop fuel acc) p
       (Ok (if decide (acc ++ es = []) then None else Some (flatten_and (acc ++ es)))) (advance (length ts) p)) /\
  (forall ts e, g_not ts e -> forall p post fuel, rest p = ts ++ post ->
     6 * length ts + 2 <= fuel -> runs (parse_not fuel) p (Ok (Some e)) (advance (length ts) p)).
Proof.
  apply grammar_mut.
  - intros ts e ts' es Hand%g_and_length IHand Htail IHtail p post fuel Hr Hs Hf.
    rewrite length_app in *. destruct fuel as [|fuel]; [lia|]. cbn [parse_or].
    rewrite <- app_assoc in Hr. runs_auto.
    eapply runs_bind; [eapply IHand; [exact Hr|by eapply tail_stops|lia]|]. cbn beta iota.
    rewrite <- advance_advance. eapply (IHtail _ post); [by apply rest_app|done|lia].
  - intros p post fuel acc Hr Hs Hf. destruct fuel as [|fuel]; [lia|]. cbn [or_loop].
    eapply runs_bind; [apply runs_consume|]. cbn [app] in Hr. rewrite app_nil_r.
    assert (peek_operator (lit "or") p = false) as ->.
    { destruct post as [|t post]; [by apply peek_operator_nil|]. rewrite (peek_operator_cons _ _ _ _ Hr).
      apply token_is_kind. by rewrite Hs. }
    cbv iota. runs_auto. eapply runs_eq; [apply runs_ret|]. by rewrite advance_0.
  - intros t ts e ts' es Ht Hand%g_and_length IHand Htail IHtail p post fuel acc Hr Hs Hf.
    cbn [length] in *. rewrite length_app in *. destruct fuel as [|fuel]; [lia|]. cbn [or_loop].
    eapply runs_bind; [apply runs_consume|]. cbn [app] in Hr. rewrite <- app_assoc in Hr.
    rewrite (peek_operator_cons _ _ _ _ Hr), Ht. cbv iota. runs_auto.
    assert (Hr1 : rest (advance 1 p) = ts ++ ts' ++ post) by by apply (rest_app [t]).
    eapply runs_bind; [eapply IHand; [exact Hr1|by eapply tail_stops|lia]|]. cbn beta iota.
    rewrite advance_advance, (cons_middle e acc es), app_assoc.
    eapply runs_eq; [eapply (IHtail _ post); [|done|lia]|].
    + rewrite <- advance_advance. by apply rest_app.
    + by rewrite advance_advance.
  - intros ts es Hne _ IH p post fuel Hr Hs Hf. destruct fuel as [|fuel]; [lia|]. cbn [parse_and].
    pose proof (IH p post fuel [] Hr Hs ltac:(lia)) as Hi. by rewrite decide_False in Hi.
  - intros p post fuel acc Hr Hs Hf. destruct fuel as [|fuel]; [lia|]. cbn [app] in Hr. rewrite app_nil_r.
    eapply runs_eq; [apply and_loop_stop; by rewrite Hr|]. by rewrite advance_0.
  - intros ts e ts' es Hst Hnot IHnot _ IH p post fuel acc Hr Hs Hf.
    pose proof (g_not_length _ _ Hnot). destruct (g_not_head _ _ Hnot) as (t & ts0 & Hts & Hk).
    rewrite length_app in *. destruct fuel as [|fuel]; [lia|]. rewrite <- app_assoc in Hr.
    pose proof (rest_app _ _ _ Hr) as Hr1.
    rewrite <- advance_advance, (cons_middle e acc es), app_assoc.
    apply (and_loop_item fuel acc p ts e); [|by rewrite Hr1|by eapply IH; [exact Hr1|done|lia]].
    exists t, ts0. rewrite Hts in Hst. destruct Hst as [Ho Ha].
    split; [done|]. split; [done|]. split; [done|].
    rewrite Hts in Hr. cbn [app] in Hr. rewrite (peek_operator_cons _ _ _ _ Hr).
    rewrite (proj1 (not_true_iff_false _) Ha). eapply IHnot; [by rewrite Hts|lia].
  - intros t ts e ts' es Ha Hnot IHnot _ IH p post fuel acc Hr Hs Hf.
    cbn [length] in *. rewrite length_app in *. destruct fuel as [|fuel]; [lia|].
    change (t :: ts ++ ts') with ((t :: ts) ++ ts') in Hr. rewrite <- app_assoc in Hr.
    pose proof (rest_app _ _ _ Hr) as Hr1.
    replace (S (length ts + length ts')) with (length (t :: ts) + length ts') by done.
    rewrite <- advance_advance, (cons_middle e acc es), app_assoc.
    apply (and_loop_item fuel acc p (t :: ts) e); [|by rewrite Hr1|by eapply IH; [exact Hr1|done|lia]].
    exists t, ts. split; [done|]. split; [by rewrite (is_and_kind t Ha)|].
    split; [intros Ho; by apply (or_not_and t)|].
    cbn [app] in Hr. rewrite (peek_operator_cons _ _ _ _ Hr), Ha.
    eapply runs_eq; [eapply (IHnot _ (ts' ++ post)); [by apply (rest_app [t])|lia]|].
    rewrite advance_advance. done.
  - intros t ts e Ht _ IH p post fuel Hr Hf. cbn [length] in *. destruct fuel as [|fuel]; [lia|].
    cbn [parse_not]. runs_auto. eapply runs_bind; [apply runs_consume|]. cbn [app] in Hr.
    rewrite (peek_operator_cons _ _ _ _ Hr), Ht. cbv iota.
    eapply runs_bind; [eapply (IH _ post); [by apply (rest_app [t])|lia]|]. cbn beta.
    eapply runs_eq; [apply runs_ret|]. by rewrite advance_advance.
  - intros t e Ht Hn Hneg Hv p post fuel Hr Hf. cbn [length] in *. destruct fuel as [|fuel]; [lia|].
    cbn [parse_not]. runs_auto. eapply runs_bind; [apply runs_consume|]. cbn [app] in Hr.
    rewrite (peek_operator_cons _ _ _ _ Hr), (proj1 (not_true_iff_false _) Hn). cbv iota. runs_auto.
    rewrite peek_rest, Hr. cbn [head]. rewrite bool_decide_true, Hneg by done. cbn [andb]. runs_auto.
    eapply runs_bind; [apply runs_to_atom|]. rewrite Hv. apply runs_ret.
  - intros t e Ht Hn Hneg Hv p post fuel Hr Hf. cbn [length] in *. destruct fuel as [|[|fuel]]; [lia..|].
    cbn [parse_not]. runs_auto. eapply runs_bind; [apply runs_consume|]. cbn [app] in Hr.
    rewrite (peek_operator_cons _ _ _ _ Hr), (proj1 (not_true_iff_false _) Hn). cbv iota. runs_auto.
    rewrite peek_rest, Hr. cbn [head]. rewrite Hneg, andb_false_r. cbn [parse_atom]. runs_auto.
    eapply runs_bind; [apply runs_consume_kind|]. rewrite (peek_kind_cons _ _ _ _ Hr), Ht.
    rewrite bool_decide_false by done. cbv iota.
    unfold next_value. eapply runs_bind; [|cbn beta iota].
    { runs_auto. rewrite peek_rest, Hr. cbn [head]. rewrite decide_True by done. runs_auto. }
    rewrite <- Hv. apply runs_to_atom.
  - intros o ts e c Ho Hc _ IH p post fuel Hr Hf. cbn [length] in *. rewrite length_app in *. cbn [length] in *.
    destruct fuel as [|[|fuel]]; [lia..|]. cbn [app] in Hr. rewrite <- app_assoc in Hr.
    cbn [parse_not]. runs_auto. eapply runs_bind; [apply runs_consume|].
    rewrite (peek_operator_cons _ _ _ _ Hr), token_is_kind by (by rewrite Ho). cbv iota. runs_auto.
    rewrite peek_rest, Hr. cbn [head]. rewrite bool_decide_false by (by rewrite Ho). cbn [andb parse_atom]. runs_auto.
    eapply runs_bind; [apply runs_consume_kind|]. rewrite (peek_kind_cons _ _ _ _ Hr), Ho.
    rewrite bool_decide_true by done. cbv iota.
    assert (Hr1 : rest (advance 1 p) = ts ++ [c] ++ post) by by apply (rest_app [o]).
    eapply runs_bind; [eapply IH; [exact Hr1|done|lia]|]. cbn beta iota.
    eapply runs_bind; [apply runs_consume_kind|].
    rewrite (peek_kind_cons _ _ c post) by by apply rest_app.
    rewrite Hc, bool_decide_true by done. cbv iota.
    eapply runs_eq; [apply runs_ret|]. by rewrite !advance_advance.
Qed.

(** ** The parser accepts nothing else *)

Definition consumed (ts : list QueryToken) (p p' : QueryParser) : Prop :=
  p' = advance (length ts) p /\ rest p = ts ++ rest p'.

Lemma consumed_nil p : consumed [] p p.
Proof. split; [by rewrite advance_0|done]. Qed.

Lemma consumed_app ts ts' p p' p'' : consumed ts p p' -> consumed ts' p' p'' -> consumed (ts ++ ts') p p''.
Proof.
  intros [-> H1] [-> H2]. split; [by rewrite advance_advance, length_app|].
  rewrite H1, <- app_assoc. f_equal. exact H2.
Qed.

Lemma consumed_one t p : peek p = Some t -> consumed [t] p (advance 1 p).
Proof.
  rewrite peek_rest. intros Hp. split; [done|]. destruct (rest p) as [|u r] eqn:Hr; [done|].
  injection Hp as ->. pose proof (rest_app [t] r p Hr) as Hr1. cbn [length] in Hr1. by rewrite Hr1.
Qed.

Lemma consumed_head u ts p p' : consumed (u :: ts) p p' -> peek p = Some u.
Proof. intros [_ Hr]. by rewrite peek_rest, Hr. Qed.

Lemma mbind_inv {St A B} (m : M St A) (f : A -> M St B) c k s b k' s' :
  mbind m f c k s = (Ok b, k', s') ->
  exists a k1 s1, m c k s = (Ok a, k1, s1) /\ f a c k1 s1 = (Ok b, k', s').
Proof. unfold mbind. destruct (m c k s) as [[[a|e] k1] s1]; [|done]. intros Hf. by exists a, k1, s1. Qed.

Lemma check_inv {St} c k (s : St) u k' s' : check_control c k s = (Ok u, k', s') -> s' = s.
Proof. unfold check_control. destruct (c k); [done|]. by intros [= _ _ <-]. Qed.

Lemma consume_inv operator c k p b k' p' : consume_operator operator c k p = (Ok b, k', p') ->
  b = peek_operator operator p /\ p' = if b then advance 1 p else p.
Proof.
  unfold consume_operator, mbind, mget. destruct (peek_operator operator p); cbn;
    intros [= <- _ <-]; by split.
Qed.
Lemma consume_kind_inv kind c k p b k' p' : consume_kind kind c k p = (Ok b, k', p') ->
  b = peek_kind kind p /\ p' = if b then advance 1 p else p.
Proof.
  unfold consume_kind, mbind, mget. destruct (peek_kind kind p); cbn; intros [= <- _ <-]; by split.
Qed.
Lemma next_value_inv c k p t k' p' : next_value c k p = (Ok (Some t), k', p') ->
  peek p = Some t /\ token_kind t = TokValue /\ p' = advance 1 p.
Proof.
  unfold next_value, mbind, mget. destruct (peek p) as [u|]; [|done]. case_decide as Hk; [|done].
  cbn. by intros [= <- _ <-].
Qed.

Lemma atom_inv value quoted c k (p : QueryParser) e k' p' :
  free (atom_expr_checked value quoted) c k p = (Ok e, k', p') -> e = atom_value value quoted /\ p' = p.
Proof.
  intros Ha. pose proof (cooperative_local (St := QueryParser) (atom_expr_checked value quoted) tt
    (cooperative_atom value quoted)) as Hc.
  destruct (cooperative_value _ _ _ _ _ _ _ _ _ Hc (runs_to_atom value quoted p) Ha) as [[= <-] ->].
  done.
Qed.

Lemma peek_operator_inv operator p : peek_operator operator p = true ->
  exists t, peek p = Some t /\ token_is operator t = true.
Proof. unfold peek_operator. destruct (peek p) as [t|]; [|done]. by exists t. Qed.
Lemma peek_kind_inv kind p : peek_kind kind p = true -> exists t, peek p = Some t /\ token_kind t = kind.
Proof. unfold peek_kind. destruct (peek p) as [t|]; [|done]. exists t. by case_bool_decide. Qed.

(** Invert a run of checked computations that returned a value. *)
Ltac minv H :=
  let a := fresh "a" in let k1 := fresh "k" in let s1 := fresh "s" in let H1 := fresh "Hrun" in
  apply mbind_inv in H as (a & k1 & s1 & H1 & H); cbv beta in H;
  first [ apply check_inv in H1 as ->
        | apply consume_inv in H1 as [-> ->]
        | apply consume_kind_inv in H1 as [-> ->]
        | apply atom_inv in H1 as [-> ->]
        | (injection H1 as <- <- <-)
        | idtac ].

Definition atom_tokens (ts : list QueryToken) (e : QueryExpr) : Prop :=
  (exists t, ts = [t] /\ token_kind t = TokValue /\ atom_value (token_value t) (token_quoted t) = Some e) \/
  (exists o ts' c, ts = o :: ts' ++ [c] /\ token_kind o = TokOpen /\ token_kind c = TokClose /\ g_or ts' e).

Lemma parse_sound fuel : forall c,
  (forall k p e k' p', parse_or fuel c k p = (Ok (Some e), k', p') -> exists ts, consumed ts p p' /\ g_or ts e) /\
  (forall acc k p e k' p', or_loop fuel acc c k p = (Ok (Some e), k', p') ->
     exists ts es, consumed ts p p' /\ g_or_tail ts es /\ e = flatten_or (acc ++ es)) /\
  (forall k p e k' p', parse_and fuel c k p = (Ok (Some e), k', p') -> exists ts, consumed ts p p' /\ g_and ts e) /\
  (forall acc k p e k' p', and_loop fuel acc c k p = (Ok (Some e), k', p') ->
     exists ts es, consumed ts p p' /\ g_items ts es /\ acc ++ es <> [] /\ e = flatten_and (acc ++ es)) /\
  (forall k p e k' p', parse_not fuel c k p = (Ok (Some e), k', p') -> exists ts, consumed ts p p' /\ g_not ts e) /\
  (forall k p e k' p', parse_atom fuel c k p = (Ok (Some e), k', p') ->
     exists ts, consumed ts p p' /\ atom_tokens ts e).
Proof.
  induction fuel as [|fuel IH]; intros c; [done|]. specialize (IH c) as (IHor & IHtail & IHand & IHitems & IHnot & IHatom).
  split; [|split; [|split; [|split; [|split]]]].
  - intros k p e k' p' Hp. cbn [parse_or] in Hp. minv Hp. minv Hp. destruct a0 as [first|]; [|done].
    apply IHand in Hrun as (ts & Hc & Hg). apply IHtail in Hp as (ts' & es & Hc' & Hg' & ->).
    exists (ts ++ ts'). split; [by eapply consumed_app|]. by constructor.
  - intros acc k p e k' p' Hp. cbn [or_loop] in Hp. minv Hp.
    destruct (peek_operator (lit "or") p) eqn:Ho.
    + destruct (peek_operator_inv _ _ Ho) as (t & Ht & His).
      minv Hp. minv Hp. destruct a0 as [e1|]; [|done].
      apply IHand in Hrun as (ts & Hc & Hg). apply IHtail in Hp as (ts' & es & Hc' & Hg' & ->).
      exists (t :: ts ++ ts'), (e1 :: es). split; [|split; [by constructor|by rewrite <- app_assoc]].
      apply (consumed_app [t]) with (advance 1 p); [by apply consumed_one|]. by eapply consumed_app.
    + minv Hp. injection Hp as <- <- <-. exists [], []. rewrite app_nil_r.
      split; [apply consumed_nil|]. split; [constructor|done].
  - intros k p e k' p' Hp. cbn [parse_and] in Hp.
    apply IHitems in Hp as (ts & es & Hc & Hg & Hne & ->). exists ts. split; [done|]. by constructor.
  - intros acc k p e k' p' Hp. cbn [and_loop] in Hp. minv Hp.
    assert (Hfinish : forall k1, (check_control ;;
      mret (if decide (acc = []) then None else Some (flatten_and acc))) c k1 p = (Ok (Some e), k', p') ->
      exists ts es, consumed ts p p' /\ g_items ts es /\ acc ++ es <> [] /\ e = flatten_and (acc ++ es)).
    { intros k1 Hf. minv Hf. destruct (decide (acc = [])); [done|]. injection Hf as <- <- <-.
      exists [], []. rewrite app_nil_r. split; [apply consumed_nil|]. split; [constructor|done]. }
    destruct (rest p) as [|t r] eqn:Hr.
    { unfold peek_value in Hp. rewrite peek_rest, Hr, (peek_kind_nil _ _ Hr) in Hp. cbn [head] in Hp.
      rewrite bool_decide_false in Hp by (by intros [? ?]). by eapply Hfinish. }
    rewrite (loop_condition _ _ _ Hr) in Hp. unfold goes_on in Hp.
    case_bool_decide as Hk; [|by eapply Hfinish]. minv Hp.
    rewrite (peek_operator_cons _ _ _ _ Hr), (peek_kind_cons _ _ _ _ Hr), (bool_decide_false (_ = TokClose)), orb_false_r in Hp by done.
    destruct (token_is (lit "or") t) eqn:Ho; [by eapply Hfinish|].
    minv Hp. minv Hp. destruct a0 as [e1|]; [|done].
    apply IHnot in Hrun as (ts & Hc & Hg). apply IHitems in Hp as (ts' & es & Hc' & Hg' & Hne & ->).
    rewrite (peek_operator_cons _ _ _ _ Hr) in Hc.
    assert (Ht : peek p = Some t) by by rewrite peek_rest, Hr.
    destruct (token_is (lit "and") t) eqn:Ha.
    + exists (t :: ts ++ ts'), (e1 :: es). rewrite (cons_middle e1 acc es), app_assoc.
      split; [|split; [by constructor|done]].
      apply (consumed_app [t]) with (advance 1 p); [by apply consumed_one|]. by eapply consumed_app.
    + exists (ts ++ ts'), (e1 :: es). rewrite (cons_middle e1 acc es), app_assoc.
      split; [by eapply consumed_app|]. split; [|done]. constructor; [|done|done].
      destruct Hc as [_ Hc]. rewrite Hr in Hc. destruct ts as [|u ts]; [by apply g_not_length in Hg; simpl in Hg; lia|].
      injection Hc as <- _. unfold starts_item, is_or, is_and. by rewrite Ho, Ha.
  - intros k p e k' p' Hp. cbn [parse_not] in Hp. minv Hp. minv Hp.
    destruct (peek_operator (lit "not") p) eqn:Hn.
    + destruct (peek_operator_inv _ _ Hn) as (t & Ht & His). minv Hp. destruct a0 as [e1|]; [|done].
      injection Hp as <- <- <-. apply IHnot in Hrun as (ts & Hc & Hg).
      exists (t :: ts). split; [|by constructor].
      apply (consumed_app [t]) with (advance 1 p); [by apply consumed_one|done].
    + minv Hp. destruct (peek p) as [t|] eqn:Ht; [|done].
      assert (His : ~ is_not t).
      { unfold is_not. unfold peek_operator in Hn. rewrite Ht in Hn. by rewrite Hn. }
      destruct (bool_decide (token_kind t = TokValue)) eqn:Hk; [apply bool_decide_eq_true in Hk|apply bool_decide_eq_false in Hk];
        cbn [andb] in Hp.
      * destruct (negated t) eqn:Hneg.
        { minv Hp. minv Hp. destruct (atom_value _ _) as [e1|] eqn:Hv; [|done].
          injection Hp as <- <- <-. exists [t]. split; [by apply consumed_one|]. by constructor. }
        apply IHatom in Hp as (ts & Hc & [(u & -> & Hu & Hv)|(o & ts' & cl & -> & Ho & Hcl & Hg)]);
          eexists; (split; [exact Hc|]); apply consumed_head in Hc; rewrite Ht in Hc; injection Hc as <-;
          [by constructor|congruence].
      * apply IHatom in Hp as (ts & Hc & [(u & -> & Hu & Hv)|(o & ts' & cl & -> & Ho & Hcl & Hg)]);
          eexists; (split; [exact Hc|]); apply consumed_head in Hc; rewrite Ht in Hc; injection Hc as <-;
          [congruence|by constructor].
  - intros k p e k' p' Hp. cbn [parse_atom] in Hp. minv Hp. minv Hp.
    destruct (peek_kind TokOpen p) eqn:Ho.
    + destruct (peek_kind_inv _ _ Ho) as (o & Hpo & Hko). minv Hp. destruct a0 as [e1|]; [|done].
      apply IHor in Hrun as (ts & Hc & Hg). minv Hp. destruct (peek_kind TokClose _) eqn:Hcl; [|done].
      destruct (peek_kind_inv _ _ Hcl) as (cl & Hpc & Hkc). injection Hp as <- <- <-.
      exists (o :: ts ++ [cl]). split; [|right; by exists o, ts, cl].
      apply (consumed_app [o]) with (advance 1 p); [by apply consumed_one|].
      eapply consumed_app; [exact Hc|by apply consumed_one].
    + minv Hp. destruct a0 as [t|]; [|done]. apply next_value_inv in Hrun as (Ht & Hk & ->).
      apply atom_inv in Hp as [Hv ->]. exists [t]. split; [by apply consumed_one|]. left. by exists t.
Qed.

(** ** Left alone, the parser returns; cancelled, it stops *)

Definition halts {St A} (m : M St A) : Prop := forall s, exists r s', runs m s (Ok r) s'.

Lemma halts_bind {St A B} (m : M St A) (f : A -> M St B) : halts m -> (forall a, halts (f a)) -> halts (mbind m f).
Proof.
  intros Hm Hf s. destruct (Hm s) as (a & s1 & H1). destruct (Hf a s1) as (b & s2 & H2).
  exists b, s2. by eapply runs_bind.
Qed.
Lemma halts_computes {St A} (m : M St A) a : runs_to m a -> halts m.
Proof. intros Hm s. by exists a, s. Qed.
Lemma halts_ret {St A} (a : A) : halts (St := St) (mret a).
Proof. eapply halts_computes, runs_to_ret. Qed.
Lemma halts_check {St} : halts (St := St) check_control.
Proof. eapply halts_computes, runs_to_check. Qed.
Lemma halts_get {St} : halts (St := St) mget.
Proof. intros s. exists s, s. apply runs_get. Qed.
Lemma halts_put {St} (s : St) : halts (mput s).
Proof. intros s'. exists tt, s. apply runs_put. Qed.
Lemma halts_atom value quoted : halts (St := QueryParser) (free (atom_expr_checked value quoted)).
Proof. eapply halts_computes, runs_to_atom. Qed.
Lemma cooperative_free_atom value quoted : cooperative (S := QueryParser) (free (atom_expr_checked value quoted)).
Proof. apply cooperative_local, cooperative_atom. Qed.

#[local] Hint Resolve halts_ret halts_check halts_get halts_put halts_atom cooperative_free_atom : ctl.

Ltac halts_step :=
  match goal with
  | |- forall _, _ => intro
  | |- halts (match _ with _ => _ end) => case_match
  | |- halts (mbind _ _) => apply halts_bind
  | |- _ => progress (eauto with ctl nocore)
  end.
Ltac halts_auto := repeat halts_step.

Lemma halts_consume operator : halts (consume_operator operator).
Proof. unfold consume_operator. halts_auto. Qed.
Lemma halts_consume_kind kind : halts (consume_kind kind).
Proof. unfold consume_kind. halts_auto. Qed.
Lemma halts_next_value : halts next_value.
Proof. unfold next_value. halts_auto. Qed.
Lemma cooperative_consume operator : cooperative (consume_operator operator).
Proof. unfold consume_operator. ctl_auto. Qed.
Lemma cooperative_consume_kind kind : cooperative (consume_kind kind).
Proof. unfold consume_kind. ctl_auto. Qed.
Lemma cooperative_next_value : cooperative next_value.
Proof. unfold next_value. ctl_auto. Qed.
#[local] Hint Resolve halts_consume halts_consume_kind halts_next_value cooperative_consume
  cooperative_consume_kind cooperative_next_value : ctl.

Lemma parser_halts fuel :
  halts (parse_or fuel) /\ (forall acc, halts (or_loop fuel acc)) /\ halts (parse_and fuel) /\
  (forall acc, halts (and_loop fuel acc)) /\ halts (parse_not fuel) /\ halts (parse_atom fuel).
Proof.
  induction fuel as [|fuel (IHor & IHtail & IHand & IHitems & IHnot & IHatom)];
    [refine (conj _ (conj _ (conj _ (conj _ (conj _ _))))); intros; apply halts_ret|].
  refine (conj _ (conj _ (conj _ (conj _ (conj _ _))))); cbn [parse_or or_loop parse_and and_loop parse_not parse_atom]; halts_auto.
Qed.

Lemma parser_cooperative fuel :
  cooperative (parse_or fuel) /\ (forall acc, cooperative (or_loop fuel acc)) /\ cooperative (parse_and fuel) /\
  (forall acc, cooperative (and_loop fuel acc)) /\ cooperative (parse_not fuel) /\ cooperative (parse_atom fuel).
Proof.
  induction fuel as [|fuel (IHor & IHtail & IHand & IHitems & IHnot & IHatom)];
    [refine (conj _ (conj _ (conj _ (conj _ (conj _ _))))); intros; apply cooperative_ret|].
  refine (conj _ (conj _ (conj _ (conj _ (conj _ _))))); cbn [parse_or or_loop parse_and and_loop parse_not parse_atom]; ctl_auto.
Qed.

Lemma parse_with_halts fuel : halts (parse_with fuel).
Proof. pose proof (proj1 (parser_halts fuel)). unfold parse_with. halts_auto. Qed.
Lemma parse_with_cooperative fuel : cooperative (parse_with fuel).
Proof. pose proof (proj1 (parser_cooperative fuel)). unfold parse_with. ctl_auto. Qed.

(** The whole parser, on its tokens, with fuel enough. *)
Lemma parse_with_spec fuel ts : parse_depth (length ts) <= fuel ->
  exists r p', runs (parse_with fuel) (new_parser ts) (Ok r) p' /\ forall e, r = Some e <-> g_or ts e.
Proof.
  intros Hf. destruct (parse_with_halts fuel (new_parser ts)) as (r & p' & Hr).
  exists r, p'. split; [done|]. intros e. assert (Hts : rest (new_parser ts) = ts) by done. split.
  - intros ->. destruct (Hr 0) as [k' Hk]. unfold parse_with in Hk. minv Hk. minv Hk.
    destruct a0 as [e'|]; [|done]. apply (parse_sound fuel) in Hrun as (ts' & [-> Hc] & Hg).
    minv Hk. minv Hk. cbn [offset tokens advance new_parser] in Hk.
    case_decide as Hoff; [|done]. injection Hk as -> _ _. cbn in Hoff.
    rewrite Hts in Hc. rewrite Hc in Hoff |- *. unfold rest, advance in *. cbn in *.
    rewrite length_app in Hoff. destruct (drop (length ts') ts) as [|t l]; [by rewrite app_nil_r|].
    simpl in Hoff. lia.
  - intros Hg. destruct (proj1 parse_complete ts e Hg (new_parser ts) [] fuel) with (k := 1) as [k1 H1];
      [by rewrite Hts, app_nil_r|done|unfold parse_depth in Hf; lia|].
    destruct (Hr 0) as [k2 H2]. unfold parse_with, mbind, check_control in H2. cbn in H2.
    rewrite H1 in H2. cbn in H2. rewrite decide_True in H2 by done. by injection H2 as <-.
Qed.
End Grammar.

(** ** Printing tokens and scanning them back *)

(** A value that needs no quotes. *)
Definition plain_char `{Unicode} (c : char) : Prop :=
  c <> QUOTE /\ c <> OPEN /\ c <> CLOSE /\ is_whitespace c = false.

Definition printable `{Unicode} (t : QueryToken) : Prop :=
  match token_kind t with
  | TokValue =>
      token_value t <> [] /\ (token_quoted t = false -> Forall plain_char (token_value t))
  | TokOpen => t = open_token
  | TokClose => t = close_token
  end.

Definition SPACE : char := 32%N.

Fixpoint escape_quoted (s : str) : str :=
  match s with
  | [] => []
  | c :: s' => if decide (c = QUOTE \/ c = ESCAPE) then ESCAPE :: c :: escape_quoted s' else c :: escape_quoted s'
  end.

Definition print_token (t : QueryToken) : str :=
  if token_quoted t then QUOTE :: escape_quoted (token_value t) ++ [QUOTE; SPACE]
  else token_value t ++ [SPACE].

Definition print_tokens (ts : list QueryToken) : str := concat (print_token <$> ts).

Lemma flush_some q v ts : v <> [] -> flush q v ts = ts ++ [mkToken v q TokValue].
Proof. intros Hv. unfold flush. by rewrite decide_False. Qed.

Section ScanSpec.
Context `{Unicode} {St : Type}.
Implicit Types s : St.

Lemma space_is_whitespace : is_whitespace SPACE = true.
Proof. by rewrite whitespace_ascii. Qed.

(** One turn of the scanner. *)
Lemma scan_plain s c rest i cur ts r : plain_char c ->
  (forall i, runs (scan_loop rest i false (cur ++ [c]) ts) s (Ok r) s) ->
  runs (scan_loop (c :: rest) i false cur ts) s (Ok r) s.
Proof.
  intros (Hq & Ho & Hcl & Hw) Hr. cbn [scan_loop]. eapply runs_bind; [apply runs_stride|].
  rewrite decide_False, !decide_False by naive_solver. rewrite Hw. cbn [andb]. apply Hr.
Qed.

Lemma scan_plain_all s v : forall rest i cur ts r, Forall plain_char v ->
  (forall i, runs (scan_loop rest i false (cur ++ v) ts) s (Ok r) s) ->
  runs (scan_loop (v ++ rest) i false cur ts) s (Ok r) s.
Proof.
  induction v as [|c v IH]; intros rest i cur ts r Hv Hr; [rewrite app_nil_r in Hr; apply Hr|].
  apply Forall_cons in Hv as [Hc Hv]. cbn [app]. apply scan_plain; [done|]. intros j.
  apply IH; [done|]. intros k. rewrite <- app_assoc. apply Hr.
Qed.

Lemma scan_space s rest i cur ts r :
  (forall i, runs (scan_loop rest i false [] (flush false cur ts)) s (Ok r) s) ->
  runs (scan_loop (SPACE :: rest) i false cur ts) s (Ok r) s.
Proof.
  intros Hr. cbn [scan_loop]. eapply runs_bind; [apply runs_stride|].
  rewrite !decide_False by naive_solver. rewrite space_is_whitespace. apply Hr.
Qed.

Lemma scan_quoted s v : forall rest i cur ts r,
  (forall i, runs (scan_loop rest i true (cur ++ v) ts) s (Ok r) s) ->
  runs (scan_loop (escape_quoted v ++ rest) i true cur ts) s (Ok r) s.
Proof.
  induction v as [|c v IH]; intros rest i cur ts r Hr; [rewrite app_nil_r in Hr; apply Hr|].
  assert (Hstep : forall j, runs (scan_loop (escape_quoted v ++ rest) j true (cur ++ [c]) ts) s (Ok r) s).
  { intros j. apply IH. intros k. rewrite <- app_assoc. apply Hr. }
  cbn [escape_quoted]. destruct (decide (c = QUOTE \/ c = ESCAPE)) as [Hc|Hc]; cbn [app scan_loop];
    (eapply runs_bind; [apply runs_stride|]).
  - rewrite !decide_False by naive_solver. rewrite decide_True by done. apply Hstep.
  - rewrite !decide_False by naive_solver. rewrite andb_false_r. apply Hstep.
Qed.

Lemma scan_token s t rest i ts r : printable t ->
  (forall i, runs (scan_loop rest i false [] (ts ++ [t])) s (Ok r) s) ->
  runs (scan_loop (print_token t ++ rest) i false [] ts) s (Ok r) s.
Proof.
  destruct t as [v q k]. unfold printable, print_token. cbn [token_kind token_quoted token_value].
  intros Hp Hr. destruct k.
  - destruct Hp as [Hne Hv]. destruct q.
    + rewrite <- app_comm_cons, <- app_assoc. cbn [scan_loop].
      eapply runs_bind; [apply runs_stride|]. rewrite decide_True by done.
      rewrite decide_False by done. rewrite decide_True by done.
      apply scan_quoted. intros j. cbn [app scan_loop].
      eapply runs_bind; [apply runs_stride|]. rewrite decide_True by done.
      rewrite flush_some by done. apply scan_space. exact Hr.
    + rewrite <- app_assoc. apply scan_plain_all; [by apply Hv|]. intros j. apply scan_space.
      cbn [app]. rewrite flush_some by done. exact Hr.
  - injection Hp as -> ->. cbn [app scan_loop]. eapply runs_bind; [apply runs_stride|].
    rewrite decide_False by done. rewrite decide_True by done. apply scan_space. exact Hr.
  - injection Hp as -> ->. cbn [app scan_loop]. eapply runs_bind; [apply runs_stride|].
    rewrite !decide_False by naive_solver. rewrite decide_True by done. apply scan_space. exact Hr.
Qed.

Lemma scan_tokens s ts' : forall i ts, Forall printable ts' ->
  runs (scan_loop (print_tokens ts') i false [] ts) s (Ok (ts ++ ts')) s.
Proof.
  induction ts' as [|t ts' IH]; intros i ts Hp.
  - rewrite app_nil_r. change (print_tokens []) with (@nil N). cbn [scan_loop]. runs_auto.
  - apply Forall_cons in Hp as [Ht Hp]. unfold print_tokens. rewrite fmap_cons. cbn [concat].
    apply scan_token; [done|]. intros j. rewrite (cons_middle t ts ts'), app_assoc. by apply IH.
Qed.

(** Induction for a loop that may take two characters at a turn. *)
Lemma str_ind2 (P : str -> Prop) :
  P [] -> (forall c cs, P cs -> P (tail cs) -> P (c :: cs)) -> forall chars, P chars.
Proof.
  intros Hn Hc chars. cut (P chars /\ P (tail chars)); [tauto|].
  induction chars as [|c chars [IH1 IH2]]; [done|]. split; [by apply Hc|done].
Qed.

Lemma total_scan chars : forall i q cur ts, total (scan_loop (St := St) chars i q cur ts).
Proof.
  induction chars as [|c cs IH IH2] using str_ind2; intros i q cur ts; cbn [scan_loop]; [total_auto|].
  apply total_bind; [apply total_stride|intros _].
  repeat case_decide; try apply IH; [by destruct q; [|repeat case_decide]..| |by case_match].
  destruct cs as [|next cs']; [apply IH|apply IH2].
Qed.

Lemma cooperative_scan chars : forall i q cur ts, cooperative (scan_loop (St := St) chars i q cur ts).
Proof.
  induction chars as [|c cs IH IH2] using str_ind2; intros i q cur ts; cbn [scan_loop]; [ctl_auto|].
  apply cooperative_bind; [apply cooperative_stride|intros _].
  repeat case_decide; try apply IH; [by destruct q; [|repeat case_decide]..| |by case_match].
  destruct cs as [|next cs']; [apply IH|apply IH2].
Qed.

(** ** [SearchQuery::parse] *)

Lemma total_parse_token q it : total (St := St) (parse_token q it).
Proof. unfold parse_token. total_auto. Qed.
Lemma cooperative_parse_token q it : cooperative (S := St) (parse_token q it).
Proof. unfold parse_token. ctl_auto. Qed.

Lemma total_for {A B} (body : B -> A -> M St B) l : forall acc,
  (forall b x, total (body b x)) -> total (mfor body acc l).
Proof.
  induction l as [|x l IH]; intros acc Hb; simpl; [apply total_ret|].
  apply total_bind; [apply Hb|]. intros; by apply IH.
Qed.

Lemma parse_checked_with ts : exists r p', runs parse_checked (new_parser ts) (Ok r) p' /\
  forall e, r = Some e <-> g_or ts e.
Proof.
  destruct (parse_with_spec (parse_depth (length ts)) ts) as (r & p' & Hr & He); [done|].
  exists r, p'. split; [|done]. unfold parse_checked. eapply runs_bind; [apply runs_get|exact Hr].
Qed.

Lemma cooperative_parse_checked : cooperative parse_checked.
Proof. unfold parse_checked. apply cooperative_bind; [ctl_auto|intros; apply parse_with_cooperative]. Qed.

Lemma parse_cooperative input : cooperative (S := St) (parse_cancellable input).
Proof.
  unfold parse_cancellable, scan_query_checked. apply cooperative_bind; [ctl_auto|intros _].
  apply cooperative_bind; [apply cooperative_bind; [ctl_auto|intros _; apply cooperative_scan]|intros ts].
  apply cooperative_bind; [apply cooperative_local, cooperative_parse_checked|intros e].
  apply cooperative_bind; [apply cooperative_for, cooperative_parse_token|ctl_auto].
Qed.

(** The loop over the tokens leaves the expression alone. *)
Lemma parse_token_expression q it c k s q' k' s' :
  parse_token q it c k s = (Ok q', k', s') -> expression q' = expression q.
Proof.
  unfold parse_token. destruct it as [index token]. intros Hp.
  repeat first
    [ apply mbind_inv in Hp as (? & ? & ? & _ & Hp); cbv beta in Hp
    | match type of Hp with context [ match ?x with _ => _ end ] =>
        lazymatch x with context [ match _ with _ => _ end ] => fail | _ => destruct x end
      end ];
    injection Hp as <- _ _; done.
Qed.

Lemma parse_tokens_expression its : forall q c k s q' k' s',
  mfor parse_token q its c k s = (Ok q', k', s') -> expression q' = expression q.
Proof.
  induction its as [|it its IH]; intros q c k s q' k' s' Hp; cbn [mfor] in Hp; [by injection Hp as <- _ _|].
  apply mbind_inv in Hp as (q1 & k1 & s1 & H1%parse_token_expression & Hp). rewrite <- H1. by eapply IH.
Qed.
End ScanSpec.

Section Theorems.
Context `{Unicode}.

(** The tokens of a text. *)
Definition scan (input : str) : list QueryToken := uncancelled (scan_query_checked input) [].

Lemma scan_runs input : runs (scan_query_checked input) tt (Ok (scan input)) tt.
Proof.
  destruct (total_scan (St := unit) input 0 false [] []) as [ts Hts].
  assert (Hr : runs (scan_query_checked input) tt (Ok ts) tt).
  { unfold scan_query_checked. runs_auto. apply Hts. }
  unfold scan. by rewrite (uncancelled_runs _ [] ts Hr).
Qed.

Lemma parse_runs input : exists q,
  runs (parse_cancellable input) tt (Ok (dedupe q)) tt /\
  forall e, expression q = Some e <-> g_or (scan input) e.
Proof.
  destruct (parse_checked_with (scan input)) as (r & p' & Hr & He).
  destruct (total_for (St := unit) parse_token (imap pair (scan input)) (mkQuery [] [] [] [] [] r) total_parse_token)
    as [q Hq].
  exists q. split.
  - unfold parse_cancellable. runs_auto. eapply runs_bind; [apply scan_runs|].
    eapply runs_bind; [exact (runs_to_local _ _ _ _ Hr tt)|].
    eapply runs_bind; [apply Hq|]. runs_auto.
  - intros e. destruct (Hq tt 0) as [k Hk]. apply parse_tokens_expression in Hk as ->. apply He.
Qed.

(** C32: the parser of boolean expressions accepts exactly the grammar: left alone
    it returns on every list of tokens, and returns [e] precisely when the tokens
    derive [e]; more fuel than it is given changes nothing. *)
Theorem parser_grammar ts :
  exists r p', expect parse_checked (new_parser ts) = Some (r, p') /\
    (forall e, r = Some e <-> g_or ts e) /\
    (forall fuel, parse_depth (length ts) <= fuel ->
       exists p'', expect (parse_with fuel) (new_parser ts) = Some (r, p'')).
Proof.
  destruct (parse_checked_with ts) as (r & p' & Hr & He).
  exists r, p'. split; [by apply runs_expect|]. split; [done|]. intros fuel Hf.
  destruct (parse_with_spec fuel ts Hf) as (r' & p'' & Hr' & He'). exists p''.
  rewrite (runs_expect _ _ _ _ Hr'). do 2 f_equal.
  destruct r as [e|].
  - apply He', He. done.
  - destruct r' as [e'|]; [|done]. exfalso. by apply (eq_None_ne_Some_1 _ e' eq_refl), He, He'.
Qed.

(** C34: Printing tokens and scanning the text gives the tokens back, when no value is
    empty and values out of quotes are free of quotes, parentheses and white space;
    quoted values may hold anything else. *)
Theorem scan_print ts : Forall printable ts -> scan (print_tokens ts) = ts.
Proof.
  intros Hp. unfold scan. apply uncancelled_runs. unfold scan_query_checked. runs_auto.
  exact (scan_tokens tt ts 0 [] Hp).
Qed.

(** C35: [SearchQuery::parse] never fails: every text gives a query, whose expression
    is what the grammar makes of its tokens, and whose lists are strictly sorted, so
    that the order and repetition of words do not matter; and the cancellable form
    either gives that query or the error of the first poll that fails. *)
Theorem parse_total input :
  expect (parse_cancellable input) tt = Some (parse input, tt) /\
  (forall e, expression (parse input) = Some e <-> g_or (scan input) e) /\
  StronglySorted lt_of (terms (parse input)) /\ StronglySorted lt_of (excluded_terms (parse input)) /\
  StronglySorted lt_of (phrases (parse input)) /\ StronglySorted lt_of (proximities (parse input)) /\
  StronglySorted lt_of (filters (parse input)) /\
  (forall c q, run (parse_cancellable input) c tt = (Ok q, tt) -> q = parse input) /\
  cooperative (S := unit) (parse_cancellable input).
Proof.
  destruct (parse_runs input) as (q & Hr & He).
  assert (Hp : parse input = dedupe q) by (unfold parse; by apply uncancelled_runs).
  rewrite Hp. split; [by apply runs_expect|]. split; [done|].
  do 5 (split; [apply sort_dedup_sorted|]). split; [|apply parse_cooperative].
  intros c q' Hq. pose proof (cooperative_ok _ _ _ _ _ (parse_cooperative input) Hq) as Hn.
  rewrite (runs_run _ _ _ _ Hr) in Hn. by injection Hn.
Qed.
End Theorems.

Definition demo_tokens : list QueryToken :=
  [open_token; mkToken (lit "kind:file") false TokValue; mkToken (lit "or") false TokValue;
   mkToken [QUOTE; ESCAPE] true TokValue; close_token].

Example scan_print_witness :
  @printable ascii_unicode open_token /\ @scan ascii_unicode (print_tokens demo_tokens) = demo_tokens.
Proof.
  split; [reflexivity|]. apply (@scan_print ascii_unicode demo_tokens).
  repeat constructor; try discriminate; intros; repeat constructor; discriminate.
Defined.

(** quotes do not make a phrase of everything: a quoted operator word and a
    quoted text that begins with a dash are read as if they were not quoted, so
    that searching for the phrase [not] is an empty query and searching for the
    phrase [-draft] excludes what has [draft] in it. *)
Theorem quoted_not_literal :
  is_empty (@parse ascii_unicode (QUOTE :: lit "not" ++ [QUOTE])) = true /\
  phrases (@parse ascii_unicode (QUOTE :: lit "-draft" ++ [QUOTE])) = [] /\
  excluded_terms (@parse ascii_unicode (QUOTE :: lit "-draft" ++ [QUOTE])) = [lit "draft"] /\
  phrases (@parse ascii_unicode (QUOTE :: lit "knot" ++ [QUOTE])) = [lit "knot"].
Proof. vm_compute. repeat split. Qed.
