(* ===== verification/QueryKey.v ===== *)
(** * The cache key of a query ([crates/search/src/query/cache.rs])

    [SearchQuery::canonical_cache_key] writes every part of a query with the
    lengths of lists and of strings before them.  Two queries with one key are the
    same query. *)
From S2P Require Import Prelude Types Text Order Chars Records Query.

Definition COLON : char := 58%N.
Definition BAR : char := 124%N.

(** [write!(key, "{n}")] of a length. *)
Definition dec_len (n : nat) : str := dec (N.of_nat n).

Definition push_labelled_len (key : str) (label : string) (len : nat) : str :=
  key ++ [BAR] ++ lit label ++ [COLON] ++ dec_len len.
Definition push_string (key value : str) : str :=
  key ++ [COLON] ++ dec_len (str_len value) ++ [COLON] ++ value.
Definition push_bool (key : str) (value : bool) : str := key ++ lit (if value then "1" else "0").

Definition push_strings (key : str) (label : string) (values : list str) : str :=
  fold_left push_string values (push_labelled_len key label (length values)).

Definition push_proximity (key : str) (p : QueryProximity) : str :=
  push_strings (key ++ lit ":near:" ++ dec (distance p)) "terms" (proximity_terms p).
Definition push_proximities (key : str) (label : string) (values : list QueryProximity) : str :=
  fold_left push_proximity values (push_labelled_len key label (length values)).

Definition push_scope (key : str) (scope : QueryScope) : str :=
  match scope with
  | Desktop => key ++ lit ":desktop"
  | Documents => key ++ lit ":documents"
  | Downloads => key ++ lit ":downloads"
  | Applications => key ++ lit ":applications"
  | ICloud => key ++ lit ":icloud"
  | Trash => key ++ lit ":trash"
  | Home => key ++ lit ":home"
  | ScopePath path => push_string (key ++ lit ":path") path
  end.

Definition push_kind (key : str) (kind : QueryKind) : str :=
  key ++ lit (match kind with
              | KindDirectory => ":directory" | KindFile => ":file"
              | KindSymlink => ":symlink" | KindOther => ":other"
              end).

Definition push_size_operator (key : str) (operator : SizeOperator) : str :=
  key ++ lit (match operator with
              | OpEq => ":eq" | OpGt => ":gt" | OpGte => ":gte" | OpLt => ":lt" | OpLte => ":lte"
              end).
Definition push_size (key : str) (size : SizeComparison) : str :=
  push_size_operator key (size_operator size) ++ lit ":" ++ dec (size_bytes size).

Definition push_date_field (key : str) (field : DateField) : str :=
  key ++ lit (match field with Created => ":created" | Modified => ":modified" | Changed => ":changed" end).
Definition push_date (key : str) (date : DateComparison) : str :=
  match date with
  | On s e => key ++ lit ":on:" ++ dec s ++ lit ":" ++ dec e
  | Before e => key ++ lit ":before:" ++ dec e
  | BeforeOrOn e => key ++ lit ":before-or-on:" ++ dec e
  | After s => key ++ lit ":after:" ++ dec s
  | AfterOrOn s => key ++ lit ":after-or-on:" ++ dec s
  end.

Definition push_filter (key : str) (f : QueryFilter) : str :=
  match f with
  | FName value negative => push_string (push_bool (key ++ lit ":name:") negative) value
  | FPath value negative => push_string (push_bool (key ++ lit ":path:") negative) value
  | FExtension value negative => push_string (push_bool (key ++ lit ":extension:") negative) value
  | FTag value negative => push_string (push_bool (key ++ lit ":tag:") negative) value
  | FScope scope negative => push_scope (push_bool (key ++ lit ":scope:") negative) scope
  | FKind kind negative => push_kind (push_bool (key ++ lit ":kind:") negative) kind
  | FSize size negative => push_size (push_bool (key ++ lit ":size:") negative) size
  | FDate field date negative =>
      push_date (push_date_field (push_bool (key ++ lit ":date:") negative) field) date
  end.
Definition push_filters (key : str) (label : string) (values : list QueryFilter) : str :=
  fold_left push_filter values (push_labelled_len key label (length values)).

Fixpoint push_expression (key : str) (e : QueryExpr) : str :=
  match e with
  | ETerm value => push_string (key ++ lit ":term") value
  | EPhrase value => push_string (key ++ lit ":phrase") value
  | EProximity p => push_proximity (key ++ lit ":proximity") p
  | EFilter f => push_filter (key ++ lit ":filter") f
  | ENot e => push_expression (key ++ lit ":not") e
  | EAnd es => fold_left (fun key e => push_expression key e) es (push_labelled_len key "and" (length es))
  | EOr es => fold_left (fun key e => push_expression key e) es (push_labelled_len key "or" (length es))
  end.

Definition canonical_cache_key (q : SearchQuery) : str :=
  let key := lit "q1" in
  let key := push_strings key "terms" (terms q) in
  let key := push_strings key "excluded" (excluded_terms q) in
  let key := push_strings key "phrases" (phrases q) in
  let key := push_proximities key "proximities" (proximities q) in
  let key := push_filters key "filters" (filters q) in
  match expression q with
  | Some e => push_expression (key ++ lit "|expr:some") e
  | None => key ++ lit "|expr:none"
  end.

(** ** Codes that can be told apart

    [pushes push ok]: [push] appends to the key a text, not beginning with a digit,
    from which the value is recovered whatever follows, if that does not begin with
    a digit either; for values [ok], whose numbers and lengths a [u64] holds. *)
Definition ends_number (x : str) : Prop := match x with c :: _ => is_ascii_digit c = false | [] => True end.

Record pushes {A} (push : str -> A -> str) (ok : A -> Prop) : Prop := {
  push_code : exists code, (forall key a, push key a = key ++ code a) /\
    (forall a, exists c r, code a = c :: r /\ is_ascii_digit c = false) /\
    forall a b x y, ok a -> ok b -> ends_number x -> ends_number y ->
      code a ++ x = code b ++ y -> a = b /\ x = y
}.

Definition len_ok (n : nat) : Prop := u64_ok (N.of_nat n).

(** A number ends where the digits do. *)
Lemma digits_end a : forall b x y,
  Forall (fun c => is_ascii_digit c = true) a -> Forall (fun c => is_ascii_digit c = true) b ->
  ends_number x -> ends_number y -> a ++ x = b ++ y -> a = b /\ x = y.
Proof.
  induction a as [|c a IH]; intros [|d b] x y Ha Hb Hx Hy Heq; cbn [app] in Heq; [done|..].
  - apply Forall_cons in Hb as [Hd _]. subst x. simpl in Hx. congruence.
  - apply Forall_cons in Ha as [Hc _]. subst y. simpl in Hy. congruence.
  - injection Heq as -> Heq. apply Forall_cons in Ha as [_ Ha]. apply Forall_cons in Hb as [_ Hb].
    by destruct (IH b x y Ha Hb Hx Hy Heq) as [-> ->].
Qed.

Lemma dec_unique a b x y : u64_ok a -> u64_ok b -> ends_number x -> ends_number y ->
  dec a ++ x = dec b ++ y -> a = b /\ x = y.
Proof.
  intros Ha Hb Hx Hy Heq. destruct (digits_end _ _ _ _ (dec_digits a) (dec_digits b) Hx Hy Heq) as [Hd ->].
  split; [by apply dec_inj|done].
Qed.

Lemma dec_len_unique a b x y : len_ok a -> len_ok b -> ends_number x -> ends_number y ->
  dec_len a ++ x = dec_len b ++ y -> a = b /\ x = y.
Proof. intros Ha Hb Hx Hy Heq. destruct (dec_unique _ _ _ _ Ha Hb Hx Hy Heq). split; [lia|done]. Qed.

Lemma ends_code {A} (code : A -> str) (Hs : forall a, exists c r, code a = c :: r /\ is_ascii_digit c = false) a x :
  ends_number (code a ++ x).
Proof. destruct (Hs a) as (c & r & -> & Hc). exact Hc. Qed.

Lemma pushes_string : pushes push_string (fun s => len_ok (str_len s)).
Proof.
  constructor. exists (fun s => [COLON] ++ dec_len (str_len s) ++ [COLON] ++ s).
  split; [done|]. split; [intros; by eexists _, _|].
  intros a b x y Ha Hb Hx Hy Heq. rewrite <- !app_assoc in Heq. apply app_inv_head in Heq.
  apply dec_len_unique in Heq as [Hl Heq]; [|done..]. apply app_inv_head in Heq.
  by apply str_prefix_eq in Heq.
Qed.

(** A list: its label and length, then its elements. *)
Lemma pushes_list {A} (push : str -> A -> str) (ok : A -> Prop) label :
  pushes push ok ->
  pushes (fun key l => fold_left push l (push_labelled_len key label (length l)))
    (fun l => len_ok (length l) /\ Forall ok l).
Proof.
  intros [(code & Hcode & Hs & Hu)]. constructor.
  exists (fun l => [BAR] ++ lit label ++ [COLON] ++ dec_len (length l) ++ concat (code <$> l)).
  assert (Hfold : forall l key, fold_left push l key = key ++ concat (code <$> l)).
  { induction l as [|a l IH]; intros key; [by rewrite app_nil_r|]. simpl. by rewrite IH, Hcode, <- app_assoc. }
  assert (Hends : forall l x, ends_number x -> ends_number (concat (code <$> l) ++ x)).
  { intros [|a l] x Hx; [done|]. rewrite fmap_cons. cbn [concat]. rewrite <- app_assoc. by apply ends_code. }
  assert (Hseq : forall l k x y, Forall ok l -> Forall ok k -> ends_number x -> ends_number y ->
    length l = length k -> concat (code <$> l) ++ x = concat (code <$> k) ++ y -> l = k /\ x = y).
  { induction l as [|a l IH]; intros [|b k] x y Hl Hk Hx Hy Hlen; try done.
    rewrite !fmap_cons. cbn [concat]. rewrite <- !app_assoc. intros Heq.
    apply Forall_cons in Hl as [Ha Hl]. apply Forall_cons in Hk as [Hb Hk].
    apply Hu in Heq as [-> Heq]; [|by auto..].
    apply IH in Heq as [-> ->]; [done|by auto..]. }
  split; [|split].
  - intros key l. rewrite Hfold. unfold push_labelled_len. by rewrite <- !app_assoc.
  - intros l. by eexists _, _.
  - intros l k x y [Hll Hl] [Hlk Hk] Hx Hy Heq. rewrite <- !app_assoc in Heq.
    apply app_inv_head in Heq. apply app_inv_head in Heq. apply app_inv_head in Heq.
    apply dec_len_unique in Heq as [Hlen Heq]; [|by auto..]. by apply Hseq.
Qed.

(** ** Labels *)

Fixpoint incompatible (a b : str) : bool :=
  match a, b with
  | c :: a', d :: b' => negb (N.eqb c d) || incompatible a' b'
  | _, _ => false
  end.

Lemma incompatible_app a : forall b x y, incompatible a b = true -> a ++ x = b ++ y -> False.
Proof.
  induction a as [|c a IH]; intros [|d b] x y Hi Heq; try done. cbn [app] in Heq. injection Heq as -> Heq.
  cbn [incompatible] in Hi. rewrite N.eqb_refl in Hi. exact (IH b x y Hi Heq).
Qed.

(** Two texts that begin with labels: the labels are the same and are dropped, or
    they tell the texts apart. *)
Ltac peel H :=
  lazymatch type of H with
  | lit ?a ++ _ = lit ?a ++ _ => apply app_inv_head in H
  | lit ?a ++ ?x = lit ?b ++ ?y => exfalso; exact (incompatible_app (lit a) (lit b) x y eq_refl H)
  end.

Definition bool_label (b : bool) : string := if b then "1" else "0".

Definition scope_ok (s : QueryScope) : Prop := match s with ScopePath p => len_ok (str_len p) | _ => True end.
Definition date_ok (d : DateComparison) : Prop :=
  match d with
  | On s e => u64_ok s /\ u64_ok e
  | Before n | BeforeOrOn n | After n | AfterOrOn n => u64_ok n
  end.
Definition strings_ok (l : list str) : Prop := len_ok (length l) /\ Forall (fun s => len_ok (str_len s)) l.
Definition proximity_ok (p : QueryProximity) : Prop := u64_ok (distance p) /\ strings_ok (proximity_terms p).
Definition filter_ok (f : QueryFilter) : Prop :=
  match f with
  | FName v _ | FPath v _ | FExtension v _ | FTag v _ => len_ok (str_len v)
  | FScope s _ => scope_ok s
  | FKind _ _ => True
  | FSize s _ => u64_ok (size_bytes s)
  | FDate _ d _ => date_ok d
  end.

Lemma pushes_scope : pushes push_scope scope_ok.
Proof.
  destruct pushes_string as [(code & Hcode & Hs & Hu)]. constructor.
  exists (fun s => match s with
    | Desktop => lit ":desktop" | Documents => lit ":documents" | Downloads => lit ":downloads"
    | Applications => lit ":applications" | ICloud => lit ":icloud" | Trash => lit ":trash" | Home => lit ":home"
    | ScopePath p => lit ":path" ++ code p end).
  split; [intros key []; cbn [push_scope]; rewrite ?Hcode, <- ?app_assoc; done|].
  split; [intros []; by eexists _, _|].
  intros a b x y Ha Hb Hx Hy Heq.
  destruct a, b; rewrite <- ?app_assoc in Heq; peel Heq; try done.
  apply Hu in Heq as [-> ->]; done.
Qed.

Lemma pushes_kind : pushes push_kind (fun _ => True).
Proof.
  constructor. exists (fun k => lit (match k with
    | KindDirectory => ":directory" | KindFile => ":file" | KindSymlink => ":symlink" | KindOther => ":other" end)).
  split; [done|]. split; [intros []; by eexists _, _|].
  intros a b x y _ _ Hx Hy Heq. destruct a, b; peel Heq; done.
Qed.

Lemma pushes_size : pushes push_size (fun s => u64_ok (size_bytes s)).
Proof.
  constructor. exists (fun s => lit (match size_operator s with
    | OpEq => ":eq:" | OpGt => ":gt:" | OpGte => ":gte:" | OpLt => ":lt:" | OpLte => ":lte:" end) ++ dec (size_bytes s)).
  split; [intros key [[] n]; unfold push_size, push_size_operator; cbn [size_operator size_bytes]; by rewrite <- app_assoc|].
  split; [intros [[] n]; by eexists _, _|].
  intros [o n] [o' n'] x y Ha Hb Hx Hy Heq. cbn [size_operator size_bytes] in *.
  destruct o, o'; rewrite <- !app_assoc in Heq; peel Heq; apply dec_unique in Heq as [-> ->]; done.
Qed.

Lemma pushes_field : pushes push_date_field (fun _ => True).
Proof.
  constructor. exists (fun f => lit (match f with Created => ":created" | Modified => ":modified" | Changed => ":changed" end)).
  split; [done|]. split; [intros []; by eexists _, _|].
  intros a b x y _ _ Hx Hy Heq. destruct a, b; peel Heq; done.
Qed.

Lemma pushes_date : pushes push_date date_ok.
Proof.
  constructor. exists (fun d => match d with
    | On s e => lit ":on:" ++ dec s ++ lit ":" ++ dec e
    | Before e => lit ":before:" ++ dec e | BeforeOrOn e => lit ":before-or-on:" ++ dec e
    | After s => lit ":after:" ++ dec s | AfterOrOn s => lit ":after-or-on:" ++ dec s end).
  split; [intros key []; done|]. split; [intros []; by eexists _, _|].
  intros a b x y Ha Hb Hx Hy Heq.
  destruct a, b; cbn [date_ok] in *; rewrite <- ?app_assoc in Heq; peel Heq;
    try (apply dec_unique in Heq as [-> ->]; done).
  destruct Ha, Hb. apply dec_unique in Heq as [-> Heq]; [|done..]. peel Heq.
  apply dec_unique in Heq as [-> ->]; done.
Qed.

Lemma pushes_proximity : pushes push_proximity proximity_ok.
Proof.
  destruct (pushes_list push_string _ "terms" pushes_string) as [(code & Hcode & Hs & Hu)]. constructor.
  exists (fun p => lit ":near:" ++ dec (distance p) ++ code (proximity_terms p)).
  split; [intros key p; unfold push_proximity, push_strings; rewrite Hcode, <- !app_assoc; done|].
  split; [intros; by eexists _, _|].
  intros [n ts] [n' ts'] x y [Hn Hts] [Hn' Hts'] Hx Hy Heq. cbn [distance proximity_terms] in *.
  rewrite <- !app_assoc in Heq. peel Heq.
  apply dec_unique in Heq as [-> Heq]; [|by auto using ends_code..].
  apply Hu in Heq as [-> ->]; done.
Qed.

Lemma pushes_filter : pushes push_filter filter_ok.
Proof.
  destruct pushes_string as [(cstr & Hcstr & Hsstr & Hustr)].
  destruct pushes_scope as [(csc & Hcsc & Hssc & Husc)]. destruct pushes_kind as [(ck & Hck & Hsk & Huk)].
  destruct pushes_size as [(csz & Hcsz & Hssz & Husz)]. destruct pushes_field as [(cf & Hcf & Hsf & Huf)].
  destruct pushes_date as [(cd & Hcd & Hsd & Hud)]. constructor.
  exists (fun f => match f with
    | FName v n => lit ":name:" ++ lit (bool_label n) ++ cstr v
    | FPath v n => lit ":path:" ++ lit (bool_label n) ++ cstr v
    | FExtension v n => lit ":extension:" ++ lit (bool_label n) ++ cstr v
    | FTag v n => lit ":tag:" ++ lit (bool_label n) ++ cstr v
    | FScope s n => lit ":scope:" ++ lit (bool_label n) ++ csc s
    | FKind k n => lit ":kind:" ++ lit (bool_label n) ++ ck k
    | FSize s n => lit ":size:" ++ lit (bool_label n) ++ csz s
    | FDate f d n => lit ":date:" ++ lit (bool_label n) ++ cf f ++ cd d
    end).
  split; [|split; [intros []; by eexists _, _|]].
  { intros key []; cbn [push_filter]; unfold push_bool; fold (bool_label negative);
      rewrite ?Hcd, ?Hcf, ?Hcstr, ?Hcsc, ?Hck, ?Hcsz, <- !app_assoc; done. }
  intros a b x y Ha Hb Hx Hy Heq.
  destruct a as [v n|v n|v n|v n|v n|v n|v n|f v n], b as [v' n'|v' n'|v' n'|v' n'|v' n'|v' n'|v' n'|f' v' n'];
    rewrite <- !app_assoc in Heq; peel Heq; destruct n, n'; cbn [bool_label] in Heq; peel Heq;
    cbn [filter_ok] in *.
  all: try (first [apply Hustr in Heq as [-> ->]|apply Husc in Heq as [-> ->]|apply Huk in Heq as [-> ->]
                  |apply Husz in Heq as [-> ->]]; done).
  all: apply Huf in Heq as [-> Heq]; [|by auto using ends_code..]; apply Hud in Heq as [-> ->]; done.
Qed.

(** ** Expressions *)

Section ExprInd.
Context (P : QueryExpr -> Prop).
Hypothesis Hterm : forall v, P (ETerm v).
Hypothesis Hphrase : forall v, P (EPhrase v).
Hypothesis Hproximity : forall p, P (EProximity p).
Hypothesis Hfilter : forall f, P (EFilter f).
Hypothesis Hnot : forall e, P e -> P (ENot e).
Hypothesis Hand : forall es, Forall P es -> P (EAnd es).
Hypothesis Hor : forall es, Forall P es -> P (EOr es).

Fixpoint expr_ind (e : QueryExpr) : P e :=
  let all := fix all (es : list QueryExpr) : Forall P es :=
    match es with [] => Forall_nil_2 P | e :: es => Forall_cons_2 P e es (expr_ind e) (all es) end in
  match e with
  | ETerm v => Hterm v
  | EPhrase v => Hphrase v
  | EProximity p => Hproximity p
  | EFilter f => Hfilter f
  | ENot e => Hnot e (expr_ind e)
  | EAnd es => Hand es (all es)
  | EOr es => Hor es (all es)
  end.
End ExprInd.

Fixpoint expr_ok (e : QueryExpr) : Prop :=
  let all := fix all (es : list QueryExpr) : Prop :=
    match es with [] => True | e :: es => expr_ok e /\ all es end in
  match e with
  | ETerm v | EPhrase v => len_ok (str_len v)
  | EProximity p => proximity_ok p
  | EFilter f => filter_ok f
  | ENot e => expr_ok e
  | EAnd es | EOr es => len_ok (length es) /\ all es
  end.

Lemma expr_ok_all es :
  (fix all (es : list QueryExpr) : Prop := match es with [] => True | e :: es => expr_ok e /\ all es end) es <->
  Forall expr_ok es.
Proof. induction es as [|e es IH]; [done|]. by rewrite Forall_cons, IH. Qed.

Definition expr_code (e : QueryExpr) : str := push_expression [] e.

Lemma fold_expr_code es : Forall (fun e => forall key, push_expression key e = key ++ expr_code e) es ->
  forall key, fold_left (fun key e => push_expression key e) es key = key ++ concat (expr_code <$> es).
Proof.
  induction 1 as [|e es He _ IH]; intros key; [by rewrite app_nil_r|]. simpl. by rewrite IH, He, <- app_assoc.
Qed.

Lemma push_expression_code e : forall key, push_expression key e = key ++ expr_code e.
Proof.
  destruct pushes_string as [(cstr & Hcstr & _)]. destruct pushes_proximity as [(cp & Hcp & _)].
  destruct pushes_filter as [(cf & Hcf & _)].
  induction e as [v|v|p|f|e IH|es IH|es IH] using expr_ind; intros key; unfold expr_code; cbn [push_expression];
    rewrite ?Hcstr, ?Hcp, ?Hcf, ?(IH (key ++ _)), ?(IH ([] ++ _)), ?(fold_expr_code es IH);
    unfold push_labelled_len; rewrite <- ?app_assoc; done.
Qed.

Definition expr_list_code (label : string) (es : list QueryExpr) : str :=
  [BAR] ++ lit label ++ [COLON] ++ dec_len (length es) ++ concat (expr_code <$> es).

Lemma expr_code_eq e cstr cp cf :
  (forall key v, push_string key v = key ++ cstr v) ->
  (forall key p, push_proximity key p = key ++ cp p) ->
  (forall key f, push_filter key f = key ++ cf f) ->
  expr_code e =
  match e with
  | ETerm v => lit ":term" ++ cstr v
  | EPhrase v => lit ":phrase" ++ cstr v
  | EProximity p => lit ":proximity" ++ cp p
  | EFilter f => lit ":filter" ++ cf f
  | ENot e => lit ":not" ++ expr_code e
  | EAnd es => lit "|and:" ++ dec_len (length es) ++ concat (expr_code <$> es)
  | EOr es => lit "|or:" ++ dec_len (length es) ++ concat (expr_code <$> es)
  end.
Proof.
  intros Hcstr Hcp Hcf. unfold expr_code at 1.
  assert (Hes : forall es, Forall (fun e => forall key, push_expression key e = key ++ expr_code e) es).
  { intros es. apply Forall_forall. intros e' _. apply push_expression_code. }
  destruct e; cbn [push_expression]; rewrite ?Hcstr, ?Hcp, ?Hcf, ?push_expression_code, ?fold_expr_code by apply Hes;
    unfold push_labelled_len; rewrite <- ?app_assoc; done.
Qed.

Lemma pushes_expression : pushes push_expression expr_ok.
Proof.
  destruct pushes_string as [(cstr & Hcstr & Hsstr & Hustr)]. destruct pushes_proximity as [(cp & Hcp & Hsp & Hup)].
  destruct pushes_filter as [(cf & Hcf & Hsf & Huf)].
  assert (Hcode := fun e => expr_code_eq e cstr cp cf Hcstr Hcp Hcf).
  assert (Hs : forall e, exists c r, expr_code e = c :: r /\ is_ascii_digit c = false).
  { intros e. rewrite Hcode. destruct e; by eexists _, _. }
  assert (Hends : forall l x, ends_number x -> ends_number (concat (expr_code <$> l) ++ x)).
  { intros [|a l] x Hx; [done|]. rewrite fmap_cons. cbn [concat]. rewrite <- app_assoc. by apply ends_code. }
  constructor. exists expr_code. split; [intros; apply push_expression_code|]. split; [exact Hs|].
  assert (Hseq : forall l, Forall (fun a => forall b x y, expr_ok a -> expr_ok b -> ends_number x -> ends_number y ->
      expr_code a ++ x = expr_code b ++ y -> a = b /\ x = y) l ->
    forall k x y, Forall expr_ok l -> Forall expr_ok k -> ends_number x -> ends_number y -> length l = length k ->
      concat (expr_code <$> l) ++ x = concat (expr_code <$> k) ++ y -> l = k /\ x = y).
  { induction 1 as [|a l Ha0 _ IH]; intros [|b k] x y Hl Hk Hx Hy Hlen; try done.
    rewrite !fmap_cons. cbn [concat]. rewrite <- !app_assoc. intros Heq.
    apply Forall_cons in Hl as [Ha Hl]. apply Forall_cons in Hk as [Hb Hk].
    apply Ha0 in Heq as [-> Heq]; [|by auto..].
    apply IH in Heq as [-> ->]; [done|by auto..]. }
  induction a as [v|v|p|f|e IH|es IH|es IH] using expr_ind; intros b x y Ha Hb Hx Hy Heq;
    rewrite (Hcode b), (Hcode (_ _)) in Heq; destruct b; rewrite <- !app_assoc in Heq; peel Heq;
    cbn [expr_ok] in Ha, Hb;
    try (first [apply Hustr in Heq as [-> ->]|apply Hup in Heq as [-> ->]|apply Huf in Heq as [-> ->]
               |apply IH in Heq as [-> ->]]; done);
    destruct Ha as [Hla Ha%expr_ok_all], Hb as [Hlb Hb%expr_ok_all];
    (apply dec_len_unique in Heq as [Hlen Heq]; [|done|done|by apply Hends|by apply Hends]);
    apply Hseq in Heq as [-> ->]; done.
Qed.

(** ** The whole key *)

Definition query_ok (q : SearchQuery) : Prop :=
  strings_ok (terms q) /\ strings_ok (excluded_terms q) /\ strings_ok (phrases q) /\
  (len_ok (length (proximities q)) /\ Forall proximity_ok (proximities q)) /\
  (len_ok (length (filters q)) /\ Forall filter_ok (filters q)) /\
  match expression q with Some e => expr_ok e | None => True end.

(** C33: the cache key determines the query: two queries whose numbers and lengths a
    [u64] holds, with the same key, are the same in every part, so that no query is
    answered from the cache entry of another. *)
Theorem cache_key_injective q q' :
  query_ok q -> query_ok q' -> canonical_cache_key q = canonical_cache_key q' -> q = q'.
Proof.
  destruct (pushes_list push_string _ "terms" pushes_string) as [(ct & Hct & Hst & Hut)].
  destruct (pushes_list push_string _ "excluded" pushes_string) as [(cx & Hcx & Hsx & Hux)].
  destruct (pushes_list push_string _ "phrases" pushes_string) as [(cph & Hcph & Hsph & Huph)].
  destruct (pushes_list push_proximity _ "proximities" pushes_proximity) as [(cp & Hcp & Hsp & Hup)].
  destruct (pushes_list push_filter _ "filters" pushes_filter) as [(cf & Hcf & Hsf & Huf)].
  destruct pushes_expression as [(ce & Hce & Hse & Hue)].
  set (cexpr := fun e => match e with Some e => lit "|expr:some" ++ ce e | None => lit "|expr:none" end).
  assert (Hkey : forall q, canonical_cache_key q =
    lit "q1" ++ ct (terms q) ++ cx (excluded_terms q) ++ cph (phrases q) ++ cp (proximities q) ++
    cf (filters q) ++ cexpr (expression q)).
  { intros [t x ph p f e]. unfold canonical_cache_key, push_strings, push_proximities, push_filters, cexpr.
    cbn [terms excluded_terms phrases proximities filters expression].
    rewrite Hct, Hcx, Hcph, Hcp, Hcf. destruct e; rewrite ?Hce, <- !app_assoc; done. }
  assert (Hends : forall e, ends_number (cexpr e)) by (intros []; done).
  intros (Ot & Ox & Oph & Op & Of & Oe) (Ot' & Ox' & Oph' & Op' & Of' & Oe'). rewrite !Hkey. intros Heq.
  destruct q as [t x ph p f e], q' as [t' x' ph' p' f' e'].
  cbn [terms excluded_terms phrases proximities filters expression] in *.
  peel Heq.
  apply Hut in Heq as [-> Heq]; [|done|done|by apply ends_code..].
  apply Hux in Heq as [-> Heq]; [|done|done|by apply ends_code..].
  apply Huph in Heq as [-> Heq]; [|done|done|by apply ends_code..].
  apply Hup in Heq as [-> Heq]; [|done|done|by apply ends_code..].
  apply Huf in Heq as [-> Heq]; [|done|done|by apply Hends..].
  f_equal. destruct e as [e|], e' as [e'|]; cbn [cexpr] in Heq.
  - peel Heq. rewrite <- (app_nil_r (ce e)), <- (app_nil_r (ce e')) in Heq.
    apply Hue in Heq as [-> _]; done.
  - rewrite <- (app_nil_r (lit "|expr:none")) in Heq. peel Heq.
  - rewrite <- (app_nil_r (lit "|expr:none")) in Heq. peel Heq.
  - done.
Qed.

Definition demo_query : SearchQuery :=
  mkQuery [lit "a:b"] [] [] [mkProximity 4 [lit "x"; lit "y"]] [FKind KindFile true]
    (Some (EOr [ETerm (lit "a"); ENot (EPhrase (lit "b"))])).

Example cache_key_injective_witness :
  query_ok demo_query /\ canonical_cache_key demo_query = canonical_cache_key demo_query /\
  demo_query = demo_query.
Proof.
  assert (Hok : query_ok demo_query) by (by repeat constructor).
  split; [exact Hok|]. split; [reflexivity|]. exact (cache_key_injective _ _ Hok Hok eq_refl).
Defined.

