(* ===== verification/FileSystem.v ===== *)
(** * The file system

    What the file operations of [crates/ops] use of [std::fs] and [std::io]: a
    tree of directories, files and symbolic links, with inodes, so that a file may
    have several names.  A path is the list of the names from the root; it does not
    go through a symbolic link except as its last name.  Every call may fail: a
    schedule says which ones do, how many bytes a read or a failed write moves, and
    what a failed [remove_dir_all] had removed already.  Nobody else changes the
    tree; devices, sockets and pipes are left out. *)
From Stdlib Require Import Ascii.
From S2P Require Import Prelude Types Text Control Paths.
#[local] Open Scope string_scope.
#[local] Open Scope list_scope.

(** ** Paths *)
Abbreviation FPath := (list string) (only parsing).
Abbreviation bytes := (list ascii) (only parsing).

Definition show (p : FPath) : string := "/" +:+ String.concat "/" p.
Definition parent (p : FPath) : option FPath := match p with [] => None | _ => Some (removelast p) end.
Definition file_name (p : FPath) : option string := last p.
Definition join (p : FPath) (n : string) : FPath := p ++ [n].
(** [q] is [p] or below it. *)
Definition under (p q : FPath) : Prop := p `prefix_of` q.
#[export] Instance under_dec p q : Decision (under p q).
Proof. unfold under. apply _. Defined.
(** The way from [p] down to [q]. *)
Definition below (p q : FPath) : option FPath :=
  if decide (under p q) then Some (drop (length p) q) else None.

(** ** Errors *)
Inductive ErrorKind : Type :=
  | NotFound | PermissionDenied | AlreadyExists | Unsupported | InvalidInput | OtherKind.
#[export] Instance ErrorKind_eq_dec : EqDecision ErrorKind.
Proof. solve_decision. Defined.

Record IoError : Type := mkIoError {
  err_kind : ErrorKind;
  raw_os_error : option Z;
  err_text : string
}.
Definition os_error (k : ErrorKind) (code : Z) (text : string) : IoError := mkIoError k (Some code) text.
Definition ENOENT := os_error NotFound 2 "No such file or directory (os error 2)".
Definition EEXIST := os_error AlreadyExists 17 "File exists (os error 17)".
Definition EXDEV := os_error OtherKind 18 "Cross-device link (os error 18)".
Definition ENOTDIR := os_error OtherKind 20 "Not a directory (os error 20)".
Definition EISDIR := os_error OtherKind 21 "Is a directory (os error 21)".
Definition EINVAL := os_error InvalidInput 22 "Invalid argument (os error 22)".
Definition ELOOP := os_error OtherKind 62 "Too many levels of symbolic links (os error 62)".
Definition ENOTEMPTY := os_error OtherKind 66 "Directory not empty (os error 66)".
Definition EBUSY := os_error OtherKind 16 "Resource busy (os error 16)".

(** ** Inodes *)
Record Attrs : Type := mkAttrs {
  permissions : N;
  uid : N;
  gid : N;
  accessed : SystemTime;
  modified : SystemTime;
  created : SystemTime;
  st_flags : N;
  blocks : N;
  xattrs : gmap string bytes;
  acl : list string
}.

Inductive Shape : Type :=
  | ShFile (content : bytes)
  | ShDir
  | ShLink (target : string).
#[export] Instance Shape_eq_dec : EqDecision Shape.
Proof. solve_decision. Defined.

Record Inode : Type := mkInode { shape : Shape; attrs : Attrs }.

Record Fs : Type := mkFs {
  names : gmap FPath N;
  inodes : gmap N Inode;
  next_inode : N
}.

Definition lookup_inode (f : Fs) (p : FPath) : option (N * Inode) :=
  i ← names f !! p ; n ← inodes f !! i ; Some (i, n).
Definition shape_at (f : Fs) (p : FPath) : option Shape := (fun r => shape r.2) <$> lookup_inode f p.

(** Why there is nothing at a path. *)
Definition missing (f : Fs) (p : FPath) : IoError :=
  if existsb (fun k => match shape_at f (take k p) with
                       | Some (ShFile _) | Some (ShLink _) => true
                       | _ => false
                       end) (seq 0 (length p))
  then ENOTDIR else ENOENT.

(** The names under [p], as the ways down to them. *)
Definition subtree (f : Fs) (p : FPath) : gmap FPath N :=
  list_to_map (omap (fun e => (fun rel => (rel, e.2)) <$> below p e.1) (map_to_list (names f))).
Definition children (f : Fs) (p : FPath) : list string :=
  omap (fun e => match e.1 with [n] => Some n | _ => None end) (map_to_list (subtree f p)).

(** ** Metadata *)
Inductive FileType : Type := TFile | TDir | TSymlink.
#[export] Instance FileType_eq_dec : EqDecision FileType.
Proof. solve_decision. Defined.

Record Metadata : Type := mkMetadata {
  file_type : FileType;
  m_len : N;
  m_ino : N;      (** device and inode *)
  m_nlink : N;
  m_attrs : Attrs
}.
Definition is_file (m : Metadata) : bool := bool_decide (file_type m = TFile).
Definition m_is_dir (m : Metadata) : bool := bool_decide (file_type m = TDir).
Definition is_symlink (m : Metadata) : bool := bool_decide (file_type m = TSymlink).

Definition type_of (s : Shape) : FileType :=
  match s with ShFile _ => TFile | ShDir => TDir | ShLink _ => TSymlink end.
Definition len_of (s : Shape) : N :=
  match s with
  | ShFile c => N.of_nat (length c)
  | ShDir => 0
  | ShLink t => N.of_nat (String.length t)
  end.
Definition nlink (f : Fs) (i : N) : N := N.of_nat (size (filter (fun e => e.2 = i) (names f))).

Definition metadata_of (f : Fs) (i : N) (n : Inode) : Metadata :=
  mkMetadata (type_of (shape n)) (len_of (shape n)) i (nlink f i) (attrs n).
Definition stat (f : Fs) (p : FPath) : Result Metadata IoError :=
  match lookup_inode f p with Some (i, n) => Ok (metadata_of f i n) | None => Err (missing f p) end.

(** Where a link leads from its directory. *)
Definition link_path (base : FPath) (target : string) : FPath :=
  foldl (fun p n => if decide (n = "" \/ n = ".") then p
                    else if decide (n = "..") then removelast p else p ++ [n])
    (if is_absolute target then [] else base) (split_on SLASH target).
Fixpoint resolve (fuel : nat) (f : Fs) (p : FPath) : Result FPath IoError :=
  match fuel with
  | O => Err ELOOP
  | S fuel' =>
      match shape_at f p with
      | Some (ShLink t) => resolve fuel' f (link_path (removelast p) t)
      | Some _ => Ok p
      | None => Err (missing f p)
      end
  end.
Definition MAXSYMLINKS : nat := 32.

(** ** Changes of the tree *)
Definition put_inode (i : N) (n : Inode) (f : Fs) : Fs := mkFs (names f) (<[i := n]> (inodes f)) (next_inode f).
Definition set_names (ns : gmap FPath N) (f : Fs) : Fs := mkFs ns (inodes f) (next_inode f).
Definition attach (p : FPath) (n : Inode) (f : Fs) : Fs :=
  mkFs (<[p := next_inode f]> (names f)) (<[next_inode f := n]> (inodes f)) (next_inode f + 1).
(** The names for which [keep] says so. *)
Definition prune (keep : FPath -> Prop) `{!forall p, Decision (keep p)} (f : Fs) : Fs :=
  set_names (filter (fun e => keep e.1) (names f)) f.
Definition moved (from to : FPath) (f : Fs) : Fs :=
  set_names (filter (fun e => ~ under from e.1 /\ ~ under to e.1) (names f) ∪
             kmap (app to) (subtree f from)) f.

Definition zeros (n : nat) : bytes := replicate n "000"%char.
(** Bytes written at an offset; a gap reads as zeros. *)
Definition splice (c : bytes) (offset : nat) (d : bytes) : bytes :=
  take offset (c ++ zeros (offset - length c)) ++ d ++ drop (offset + length d) c.
Definition resized (c : bytes) (n : nat) : bytes := take n (c ++ zeros (n - length c)).

(** ** What the platform decides *)
Class Platform : Type := {
  (** the attributes a new entry gets *)
  initial_attrs : Fs -> FPath -> Shape -> Attrs;
  (** the order in which a directory is read *)
  dir_order : FPath -> list string -> list string;
  dir_order_perm p l : dir_order p l ≡ₚ l
}.

(** ** Calls *)
Record Call : Type := mkCall {
  fails : option IoError;
  amount : N;
  removed : gset FPath
}.

(** The world: the tree, the calls made and those to come, the clock, and what
    else the program keeps. *)
Record World (X : Type) : Type := mkWorld {
  fsys : Fs;
  calls : nat;
  schedule : nat -> Call;
  nanos : nat -> N;
  extra : X
}.
Arguments mkWorld {X}.
Arguments fsys {X}.
Arguments calls {X}.
Arguments schedule {X}.
Arguments nanos {X}.
Arguments extra {X}.

Section Calls.
Context {X : Type} `{Platform}.
Implicit Types (w : World X) (f : Fs).

Definition set_fsys f w : World X := mkWorld f (calls w) (schedule w) (nanos w) (extra w).
Definition set_extra (x : X) w : World X := mkWorld (fsys w) (calls w) (schedule w) (nanos w) x.
Definition tick w : World X := mkWorld (fsys w) (S (calls w)) (schedule w) (nanos w) (extra w).

Definition IO (A : Type) : Type := M (World X) (Result A IoError).

Definition call : M (World X) Call := fun _ k w => (Ok (schedule w (calls w)), k, tick w).
(** A call that may fail, and what it does when it does not. *)
Definition sys {A} (act : Call -> Fs -> Result A IoError * Fs) : IO A :=
  c <- call ;
  match fails c with
  | Some e => mret (Err e)
  | None => fun _ k w => let r := act c (fsys w) in (Ok r.1, k, set_fsys r.2 w)
  end.
(** [.map_err(|err| GfmError::io(path, err))?]. *)
Definition or_io {A} (p : FPath) (m : IO A) : M (World X) A :=
  r <- m ; match r with Ok a => mret a | Err e => mfail (Io (show p) (err_text e)) end.

(** [let result = (|| { .. })();]: the result is a value. *)
Definition attempt {A} (m : M (World X) A) : M (World X) (Res A) := fun c k w =>
  let '(r, k', w') := m c k w in (Ok r, k', w').

(** [SystemTime::now()], in nanoseconds. *)
Definition now_nanos : M (World X) N := fun _ k w => (Ok (nanos w (calls w)), k, tick w).

Definition symlink_metadata (p : FPath) : IO Metadata := sys (fun _ f => (stat f p, f)).
Definition metadata (p : FPath) : IO Metadata :=
  sys (fun _ f => (match resolve MAXSYMLINKS f p with Ok q => stat f q | Err e => Err e end, f)).
Definition canonicalize (p : FPath) : IO FPath := sys (fun _ f => (resolve MAXSYMLINKS f p, f)).
Definition read_link (p : FPath) : IO string :=
  sys (fun _ f => (match shape_at f p with
                   | Some (ShLink t) => Ok t
                   | Some _ => Err EINVAL
                   | None => Err (missing f p)
                   end, f)).
Definition read_dir (p : FPath) : IO (list string) :=
  sys (fun _ f => (match shape_at f p with
                   | Some ShDir => Ok (dir_order p (children f p))
                   | Some _ => Err ENOTDIR
                   | None => Err (missing f p)
                   end, f)).
(** One step of the iterator that [read_dir] returns. *)
Definition next_entry (n : string) : IO string := sys (fun _ f => (Ok n, f)).

(** A new name: its directory is there, and the name is not. *)
Definition create_at (s : Shape) (p : FPath) : IO N :=
  sys (fun _ f =>
    match names f !! p, parent p with
    | Some _, _ | None, None => (Err EEXIST, f)
    | None, Some d =>
        match shape_at f d with
        | Some ShDir => (Ok (next_inode f), attach p (mkInode s (initial_attrs f p s)) f)
        | Some _ => (Err ENOTDIR, f)
        | None => (Err (missing f p), f)
        end
    end).
Definition create_dir (p : FPath) : IO N := create_at ShDir p.
Definition symlink (target : string) (p : FPath) : IO N := create_at (ShLink target) p.
(** [OpenOptions::new().write(true).create_new(true).open(..)]. *)
Definition create_new (p : FPath) : IO N := create_at (ShFile []) p.

(** [create_dir_all]: from the root down. *)
Fixpoint create_dirs (p : FPath) (todo : list string) : IO unit :=
  match todo with
  | [] => mret (Ok tt)
  | n :: todo' =>
      r <- create_dir (join p n) ;
      match r with
      | Ok _ => create_dirs (join p n) todo'
      | Err e =>
          w <- mget ;
          if decide (shape_at (fsys w) (join p n) = Some ShDir) then create_dirs (join p n) todo'
          else mret (Err e)
      end
  end.
Definition create_dir_all (p : FPath) : IO unit := create_dirs [] p.

Definition remove_file (p : FPath) : IO unit :=
  sys (fun _ f => match shape_at f p with
                  | Some ShDir => (Err EISDIR, f)
                  | Some _ => (Ok tt, prune (fun q => q <> p) f)
                  | None => (Err (missing f p), f)
                  end).
(** A failure leaves a part of the tree removed. *)
Definition remove_dir_all (p : FPath) : IO unit :=
  c <- call ;
  match fails c with
  | Some e =>
      fun _ k w =>
        (Ok (Err e), k, set_fsys (prune (fun q => ~ (under p q /\
           existsb (fun k => bool_decide (take k q ∈ removed c))
             (seq (S (length p)) (length q - length p)) = true)) (fsys w)) w)
  | None =>
      fun _ k w =>
        match shape_at (fsys w) p with
        | Some (ShFile _) => (Ok (Err ENOTDIR), k, w)
        | Some _ =>
            if decide (p = []) then (Ok (Err EBUSY), k, w)
            else (Ok (Ok tt), k, set_fsys (prune (fun q => ~ under p q) (fsys w)) w)
        | None => (Ok (Err (missing (fsys w) p)), k, w)
        end
  end.

Definition rename_act (from to : FPath) (f : Fs) : Result unit IoError * Fs :=
  match lookup_inode f from, parent to with
  | None, _ => (Err (missing f from), f)
  | Some _, None => (Err EBUSY, f)
  | Some (i, n), Some d =>
      match shape_at f d with
      | None => (Err (missing f to), f)
      | Some (ShFile _) | Some (ShLink _) => (Err ENOTDIR, f)
      | Some ShDir =>
          if decide (names f !! to = Some i) then (Ok tt, f)
          else if decide (from = []) then (Err EBUSY, f)
          else if decide (under from to) then
            (Err (match shape n with ShDir => EINVAL | _ => ENOTDIR end), f)
          else
            match shape n, shape_at f to with
            | _, None => (Ok tt, moved from to f)
            | ShDir, Some ShDir =>
                if decide (children f to = []) then (Ok tt, moved from to f) else (Err ENOTEMPTY, f)
            | ShDir, Some _ => (Err ENOTDIR, f)
            | _, Some ShDir => (Err EISDIR, f)
            | _, Some _ => (Ok tt, moved from to f)
            end
      end
  end.
Definition rename (from to : FPath) : IO unit := sys (fun _ => rename_act from to).

Definition hard_link (existing to : FPath) : IO unit :=
  sys (fun _ f =>
    match lookup_inode f existing, names f !! to, parent to with
    | None, _, _ => (Err (missing f existing), f)
    | Some _, Some _, _ | Some _, None, None => (Err EEXIST, f)
    | Some (i, n), None, Some d =>
        match shape n, shape_at f d with
        | ShDir, _ => (Err (os_error PermissionDenied 1 "Operation not permitted (os error 1)"), f)
        | _, Some ShDir => (Ok tt, set_names (<[to := i]> (names f)) f)
        | _, Some _ => (Err ENOTDIR, f)
        | _, None => (Err (missing f to), f)
        end
    end).

(** ** Open files: an inode and, kept by the caller, an offset *)
Definition open_read (p : FPath) : IO N :=
  sys (fun _ f =>
    (match resolve MAXSYMLINKS f p with
     | Ok q => match lookup_inode f q with Some (i, _) => Ok i | None => Err (missing f q) end
     | Err e => Err e
     end, f)).
Definition file_metadata (i : N) : IO Metadata :=
  sys (fun _ f => (match inodes f !! i with Some n => Ok (metadata_of f i n) | None => Err ENOENT end, f)).

Definition content_of (f : Fs) (i : N) : option bytes :=
  n ← inodes f !! i ; match shape n with ShFile c => Some c | _ => None end.
Definition put_content (i : N) (c : bytes) (f : Fs) : Fs :=
  match inodes f !! i with Some n => put_inode i (mkInode (ShFile c) (attrs n)) f | None => f end.

(** At least a byte, unless the end is reached, and at most the buffer. *)
Definition read (i : N) (offset : nat) (buffer : N) : IO bytes :=
  sys (fun c f =>
    (match content_of f i with
     | Some data =>
         let rest := drop offset data in
         Ok (take (N.to_nat (N.min (N.min buffer (N.max 1 (amount c))) (N.of_nat (length rest)))) rest)
     | None => Err EISDIR
     end, f)).
(** A failed write may have moved some of the bytes. *)
Definition write_all (i : N) (offset : nat) (d : bytes) : IO unit :=
  c <- call ;
  let put d' := mmodify (fun w => match content_of (fsys w) i with
                                  | Some data => set_fsys (put_content i (splice data offset d') (fsys w)) w
                                  | None => w
                                  end) in
  match fails c with
  | Some e => put (take (N.to_nat (N.min (amount c) (N.of_nat (length d)))) d) ;; mret (Err e)
  | None => put d ;; mret (Ok tt)
  end.
Definition seek (offset : nat) : IO nat := sys (fun _ f => (Ok offset, f)).
Definition set_len (i : N) (n : nat) : IO unit :=
  sys (fun _ f => match content_of f i with
                  | Some data => (Ok tt, put_content i (resized data n) f)
                  | None => (Err EINVAL, f)
                  end).
(** A change of attributes. *)
Definition set_attrs (p : FPath) (change : Attrs -> Attrs) : IO unit :=
  sys (fun _ f =>
    match resolve MAXSYMLINKS f p with
    | Ok q =>
        match lookup_inode f q with
        | Some (i, n) => (Ok tt, put_inode i (mkInode (shape n) (change (attrs n))) f)
        | None => (Err (missing f q), f)
        end
    | Err e => (Err e, f)
    end).
End Calls.
