(* ===== verification/FileFacts.v ===== *)
(** * The file system: facts

    When a tree is well formed; what an operation may change of it ([changes]);
    how the calls act on both; and a calculus of what a computation ensures from a
    given world, whatever the control closure and the schedule of faults do.  At the end
    [keeps], what a computation leaves alone, with a rule for every call. *)
From S2P Require Import Prelude Types Text Paths Control FileSystem.
#[local] Open Scope list_scope.

(** ** Paths *)
Lemma below_Some p q rel : below p q = Some rel <-> q = p ++ rel.
Proof.
  unfold below. split.
  - case_decide as Hu; [|done]. intros [= <-]. destruct Hu as [k ->]. by rewrite drop_app_length.
  - intros ->. rewrite decide_True by (by exists rel). by rewrite drop_app_length.
Qed.
Lemma under_app p rel : under p (p ++ rel).
Proof. by exists rel. Qed.
Lemma under_refl p : under p p.
Proof. by exists []; rewrite app_nil_r. Qed.
Lemma under_trans p q r : under p q -> under q r -> under p r.
Proof. unfold under. by intros; etrans. Qed.
Lemma under_join p n q : under (join p n) q -> under p q.
Proof. apply under_trans. by exists [n]. Qed.
Lemma under_nil p : under p [] -> p = [].
Proof. by intros ?%prefix_nil_inv. Qed.
Lemma parent_join p n : parent (join p n) = Some p.
Proof.
  unfold parent, join. destruct (p ++ [n]) eqn:E; [by destruct p|]. rewrite <- E. by rewrite removelast_last.
Qed.
Lemma path_split (p : FPath) : p <> [] -> exists d n, p = join d n.
Proof. intros Hp. destruct (exists_last Hp) as (d & n & ->). by exists d, n. Qed.
Lemma parent_Some p d : parent p = Some d -> exists n, p = join d n.
Proof.
  destruct (decide (p = [])) as [->|Hp]; [done|].
  destruct (path_split p Hp) as (d' & n & ->). rewrite parent_join. intros [= ->]. by exists n.
Qed.
(** Below [p]: [p] itself, or below one of its entries. *)
Lemma under_cases p q : under p q -> q = p \/ exists n, under (join p n) q.
Proof.
  intros [[|n rel] ->]; [left; by rewrite app_nil_r|right]. exists n.
  unfold join. exists rel. by rewrite <- app_assoc.
Qed.
Lemma under_comparable p q r : under p r -> under q r -> under p q \/ under q p.
Proof. apply prefix_weak_total. Qed.
Lemma under_antisym p q : under p q -> under q p -> p = q.
Proof.
  intros [a ->] [b Hb]. rewrite <- app_assoc in Hb.
  rewrite <- (app_nil_r p) in Hb at 1. simplify_list_eq.
  destruct a; [by rewrite app_nil_r|done].
Qed.

(** ** Lookups *)
Lemma lookup_inode_Some f p i n :
  lookup_inode f p = Some (i, n) <-> names f !! p = Some i /\ inodes f !! i = Some n.
Proof.
  unfold lookup_inode. destruct (names f !! p) as [j|]; cbn; [|naive_solver].
  destruct (inodes f !! j) eqn:E; cbn; naive_solver.
Qed.
Lemma shape_at_Some f p s :
  shape_at f p = Some s <-> exists i n, names f !! p = Some i /\ inodes f !! i = Some n /\ shape n = s.
Proof.
  unfold shape_at. destruct (lookup_inode f p) as [[i n]|] eqn:E; cbn.
  - apply lookup_inode_Some in E as [H1 H2]. split; [intros [= <-]; by exists i, n|].
    intros (i' & n' & ? & ? & <-). by simplify_eq.
  - split; [done|]. intros (i & n & H1 & H2 & _).
    assert (lookup_inode f p = Some (i, n)) by (by apply lookup_inode_Some). congruence.
Qed.

Lemma subtree_elem f p rel i :
  (rel, i) ∈ omap (fun e : FPath * N => (fun rel => (rel, e.2)) <$> below p e.1) (map_to_list (names f)) <->
  names f !! (p ++ rel) = Some i.
Proof.
  rewrite list_elem_of_omap. split.
  - intros ([q j] & Hin & Hq). apply elem_of_map_to_list in Hin. cbn in Hq.
    destruct (below p q) eqn:E; [|done]. cbn in Hq. simplify_eq. apply below_Some in E. by subst.
  - intros Hi. exists (p ++ rel, i). split; [by apply elem_of_map_to_list|]. cbn.
    by rewrite (proj2 (below_Some p (p ++ rel) rel)).
Qed.
Lemma subtree_lookup f p rel : subtree f p !! rel = names f !! (p ++ rel).
Proof.
  unfold subtree. destruct (names f !! (p ++ rel)) as [i|] eqn:E.
  - apply elem_of_list_to_map_1'; [|by apply subtree_elem].
    intros j Hj. apply subtree_elem in Hj. congruence.
  - apply not_elem_of_list_to_map_1. rewrite list_elem_of_fmap. intros ([q i] & -> & Hi).
    apply subtree_elem in Hi. cbn in E. congruence.
Qed.
Lemma children_elem f p n : n ∈ children f p <-> is_Some (names f !! join p n).
Proof.
  unfold children. rewrite list_elem_of_omap. split.
  - intros ([rel i] & Hin & Hn). apply elem_of_map_to_list in Hin. cbn in Hn.
    destruct rel as [|m [|]]; simplify_eq. rewrite subtree_lookup in Hin. by exists i.
  - intros [i Hi]. exists ([n], i). split; [|done]. apply elem_of_map_to_list.
    by rewrite subtree_lookup.
Qed.
Lemma children_NoDup f p : NoDup (children f p).
Proof.
  unfold children. assert (Hn : NoDup (map_to_list (subtree f p)).*1) by apply NoDup_fst_map_to_list.
  revert Hn. induction (map_to_list (subtree f p)) as [|[rel i] l IH]; intros Hn; [constructor|].
  apply NoDup_cons in Hn as [Hin Hn]. cbn. specialize (IH Hn).
  destruct rel as [|n [|]]; [done| |done]. constructor; [|done].
  rewrite list_elem_of_omap. intros ([rel j] & Hj & Hr). cbn in Hr.
  destruct rel as [|m [|]]; simplify_eq. apply Hin, list_elem_of_fmap. by exists ([n], j).
Qed.

Lemma prune_lookup keep `{!forall p, Decision (keep p)} f p :
  names (prune keep f) !! p = if decide (keep p) then names f !! p else None.
Proof.
  unfold prune. cbn. rewrite map_lookup_filter. destruct (names f !! p) as [i|]; cbn.
  - case_decide as Hk; [by rewrite option_guard_True|by rewrite option_guard_False].
  - by case_decide.
Qed.
Lemma moved_lookup from to f p :
  names (moved from to f) !! p =
    match below to p with
    | Some rel => names f !! (from ++ rel)
    | None => if decide (under from p) then None else names f !! p
    end.
Proof.
  unfold moved. cbn. destruct (below to p) as [rel|] eqn:E.
  - apply below_Some in E as ->. rewrite lookup_union_r.
    { rewrite lookup_kmap by apply _. apply subtree_lookup. }
    { rewrite map_lookup_filter. destruct (names f !! (to ++ rel)); cbn; [|done].
      rewrite option_guard_False; [done|]. cbn. intros [_ Hn]. apply Hn, under_app. }
  - assert (~ under to p). { intros [rel Hr]. apply below_Some in Hr. congruence. }
    rewrite lookup_union_l.
    + rewrite map_lookup_filter. destruct (names f !! p); cbn; [|by case_decide].
      case_decide; [by rewrite option_guard_False; naive_solver|by rewrite option_guard_True].
    + apply lookup_kmap_None; [apply _|]. intros rel ->. by destruct H; apply under_app.
Qed.

(** ** Well-formed trees *)
Record wf (f : Fs) : Prop := mkWf {
  wf_root : shape_at f [] = Some ShDir;
  wf_parent p n : is_Some (names f !! join p n) -> shape_at f p = Some ShDir;
  wf_inode p i : names f !! p = Some i -> is_Some (inodes f !! i);
  wf_next i : is_Some (inodes f !! i) -> (i < next_inode f)%N;
  wf_dir p q i n : names f !! p = Some i -> names f !! q = Some i ->
    inodes f !! i = Some n -> shape n = ShDir -> p = q
}.

Lemma shape_at_names f p s : shape_at f p = Some s -> is_Some (names f !! p).
Proof. intros (i & n & Hi & _)%shape_at_Some. by exists i. Qed.
Lemma wf_shape f p : wf f -> is_Some (names f !! p) -> is_Some (shape_at f p).
Proof.
  intros Hf [i Hi]. destruct (wf_inode f Hf p i Hi) as [n Hn]. exists (shape n).
  apply shape_at_Some. by exists i, n.
Qed.
Lemma shape_at_None f p : wf f -> shape_at f p = None <-> names f !! p = None.
Proof.
  intros Hf. split; intros Hp.
  - apply eq_None_not_Some. intros Hs%wf_shape; [|done]. rewrite Hp in Hs. by destruct Hs.
  - unfold shape_at, lookup_inode. by rewrite Hp.
Qed.
Lemma wf_above f p rel : wf f -> rel <> [] -> is_Some (names f !! (p ++ rel)) -> shape_at f p = Some ShDir.
Proof.
  intros Hf. induction rel as [|n rel IH] using rev_ind; [done|]. intros _ Hs.
  rewrite app_assoc in Hs. apply wf_parent in Hs; [|done].
  destruct (decide (rel = [])) as [->|Hr]; [by rewrite app_nil_r in Hs|].
  apply IH; [done|by eapply shape_at_names].
Qed.
Lemma dirs_above f p rel : wf f -> shape_at f (p ++ rel) = Some ShDir -> shape_at f p = Some ShDir.
Proof.
  intros Hf Hs. destruct (decide (rel = [])) as [->|Hr]; [by rewrite app_nil_r in Hs|].
  eapply wf_above; [done..|]. by eapply shape_at_names.
Qed.
(** The directory of a path is there. *)
Definition placed (f : Fs) (p : FPath) : Prop := exists d, parent p = Some d /\ shape_at f d = Some ShDir.
Lemma wf_placed f p s : wf f -> p <> [] -> shape_at f p = Some s -> placed f p.
Proof.
  intros Hf Hp Hs. destruct (path_split p Hp) as (d & n & ->). exists d. split; [apply parent_join|].
  apply (wf_parent f Hf d n). by eapply shape_at_names.
Qed.
(** Then, if it is not found, it is because there is nothing. *)
Lemma missing_placed f p : wf f -> placed f p -> missing f p = ENOENT.
Proof.
  intros Hf (d & Hd & Hs). unfold missing.
  destruct (existsb _ _) eqn:E; [|done]. exfalso. apply existsb_exists in E as (k & Hk & E).
  apply in_seq in Hk. destruct (parent_Some _ _ Hd) as [n ->]. unfold join in *. rewrite length_app in Hk. cbn in Hk.
  rewrite take_app_le in E by lia. rewrite <- (take_drop k d) in Hs. rewrite (dirs_above f _ _ Hf Hs) in E. done.
Qed.

Lemma wf_absent f p q : wf f -> names f !! p = None -> under p q -> names f !! q = None.
Proof.
  intros Hf Hp [rel ->]. destruct (decide (rel = [])) as [->|Hr]; [by rewrite app_nil_r|].
  apply eq_None_not_Some. intros Hs. apply (wf_above f p rel Hf Hr), shape_at_names in Hs.
  rewrite Hp in Hs. by destruct Hs.
Qed.
Lemma wf_leaf f p q s : wf f -> shape_at f p = Some s -> s <> ShDir -> under p q -> p <> q -> names f !! q = None.
Proof.
  intros Hf Hp Hs [rel ->] Hne. apply eq_None_not_Some. intros Hi.
  apply (wf_above f p rel Hf) in Hi; [congruence|]. intros ->. by rewrite app_nil_r in Hne.
Qed.
Lemma wf_children_nil f p q : wf f -> children f p = [] -> under p q -> p <> q -> names f !! q = None.
Proof.
  intros Hf Hc Hu Hne. destruct (under_cases p q Hu) as [->|[n Hn]]; [done|].
  eapply wf_absent; [done| |exact Hn]. apply eq_None_not_Some. intros Hs%children_elem.
  rewrite Hc in Hs. by apply elem_of_nil in Hs.
Qed.

Lemma shape_at_attach f p n q : wf f ->
  shape_at (attach p n f) q = if decide (q = p) then Some (shape n) else shape_at f q.
Proof.
  intros Hf. unfold shape_at, lookup_inode, attach. cbn. case_decide as Hq.
  - subst. rewrite lookup_insert_eq. cbn. by rewrite lookup_insert_eq.
  - rewrite lookup_insert_ne by done. destruct (names f !! q) as [i|] eqn:E; [|done]. cbn.
    rewrite lookup_insert_ne; [done|]. intros <-.
    destruct (wf_inode f Hf q _ E) as [m Hm].
    assert (next_inode f < next_inode f)%N by (apply (wf_next f Hf); by exists m). lia.
Qed.
Lemma wf_attach f p d s a :
  wf f -> names f !! p = None -> parent p = Some d -> shape_at f d = Some ShDir ->
  wf (attach p (mkInode s a) f).
Proof.
  intros Hf Hp Hd Hs. apply parent_Some in Hd as [m ->].
  assert (Hd : d <> join d m) by (intros E; apply (f_equal length) in E; unfold join in E; rewrite length_app in E; cbn in E; lia).
  constructor.
  - rewrite shape_at_attach by done. case_decide as E; [|apply Hf].
    unfold join in E. by destruct d.
  - intros p n. cbn. intros Hin. rewrite shape_at_attach by done.
    destruct (decide (join p n = join d m)) as [E|E].
    + unfold join in E. apply app_inj_tail in E as [-> ->]. by rewrite decide_False.
    + rewrite lookup_insert_ne in Hin by done. apply (wf_parent f Hf) in Hin.
      case_decide as E2; [|done]. apply shape_at_names in Hin. subst. rewrite Hp in Hin. by destruct Hin.
  - intros p i. cbn. destruct (decide (p = join d m)) as [->|E].
    + rewrite lookup_insert_eq. intros [= <-]. rewrite lookup_insert_eq. by eexists.
    + rewrite lookup_insert_ne by done. intros Hi. destruct (wf_inode f Hf p i Hi) as [n Hn].
      destruct (decide (next_inode f = i)) as [<-|]; [rewrite lookup_insert_eq; by eexists|].
      rewrite lookup_insert_ne by done. by exists n.
  - intros i. cbn. destruct (decide (next_inode f = i)) as [<-|]; [lia|].
    rewrite lookup_insert_ne by done. intros Hi%(wf_next f Hf). lia.
  - intros p q i n. cbn. intros H1 H2 H3 H4.
    assert (Hnew : forall r, r <> join d m -> names f !! r <> Some (next_inode f)).
    { intros r _ Hr. destruct (wf_inode f Hf r _ Hr) as [k Hk].
      assert (next_inode f < next_inode f)%N by (apply (wf_next f Hf); by exists k). lia. }
    assert (Hold : forall r, <[join d m:=next_inode f]> (names f) !! r = Some i -> r <> join d m ->
              names f !! r = Some i /\ i <> next_inode f).
    { intros r Hr E. rewrite lookup_insert_ne in Hr by done. split; [done|]. intros ->. by apply Hnew in Hr. }
    destruct (decide (p = join d m)) as [->|E1], (decide (q = join d m)) as [->|E2]; [done|..].
    + rewrite lookup_insert_eq in H1. destruct (Hold q H2 E2). congruence.
    + rewrite lookup_insert_eq in H2. destruct (Hold p H1 E1). congruence.
    + destruct (Hold p H1 E1) as [H1' Hi], (Hold q H2 E2) as [H2' _].
      rewrite lookup_insert_ne in H3 by done. by eapply (wf_dir f Hf).
Qed.

Lemma shape_at_prune keep `{!forall p, Decision (keep p)} f p :
  shape_at (prune keep f) p = if decide (keep p) then shape_at f p else None.
Proof. unfold shape_at, lookup_inode. rewrite prune_lookup. by case_decide. Qed.
Lemma wf_prune keep `{!forall p, Decision (keep p)} f :
  wf f -> keep [] -> (forall p n, keep (join p n) -> is_Some (names f !! join p n) -> keep p) -> wf (prune keep f).
Proof.
  intros Hf Hk Hup. constructor.
  - rewrite shape_at_prune, decide_True by done. apply Hf.
  - intros p n. rewrite prune_lookup, shape_at_prune. case_decide as Hj; [|by intros []].
    intros Hs. rewrite decide_True by (by eapply Hup). by apply (wf_parent f Hf) in Hs.
  - intros p i. rewrite prune_lookup. case_decide; [|done]. apply Hf.
  - apply Hf.
  - intros p q i n. rewrite !prune_lookup. do 2 (case_decide; [|done]). apply Hf.
Qed.
Lemma keep_above p : forall q n, ~ under p (join q n) -> ~ under p q.
Proof. intros q n Hn Hq. apply Hn. eapply under_trans; [exact Hq|by exists [n]]. Qed.
Lemma wf_cut f p : wf f -> p <> [] -> wf (prune (fun q => ~ under p q) f).
Proof.
  intros Hf Hp. apply wf_prune; [done| |intros q n Hq _; by eapply keep_above]. by intros ?%under_nil.
Qed.

Lemma shape_at_put_inode f i n p :
  shape_at (put_inode i n f) p = if decide (names f !! p = Some i) then Some (shape n) else shape_at f p.
Proof.
  unfold shape_at, lookup_inode. cbn. case_decide as Hp.
  - rewrite Hp. cbn. by rewrite lookup_insert_eq.
  - destruct (names f !! p) as [j|]; [|done]. cbn. rewrite lookup_insert_ne; [done|]. by intros <-.
Qed.
Lemma wf_put_inode f i n n' :
  wf f -> inodes f !! i = Some n -> (shape n = ShDir <-> shape n' = ShDir) -> wf (put_inode i n' f).
Proof.
  intros Hf Hi Hs.
  assert (Hdir : forall p, shape_at f p = Some ShDir -> shape_at (put_inode i n' f) p = Some ShDir).
  { intros p Hp. rewrite shape_at_put_inode. case_decide as Hn; [|done].
    apply shape_at_Some in Hp as (j & m & Hj & Hm & Hsh). simplify_eq. f_equal. by apply Hs. }
  constructor; [apply Hdir, Hf|..].
  - intros p m Hm. by apply Hdir, (wf_parent f Hf p m).
  - intros p j Hj. cbn. destruct (decide (i = j)) as [->|]; [rewrite lookup_insert_eq; by eexists|].
    rewrite lookup_insert_ne by done. by apply (wf_inode f Hf p).
  - intros j. cbn. destruct (decide (i = j)) as [->|]; [intros _; apply (wf_next f Hf); by exists n|].
    rewrite lookup_insert_ne by done. apply Hf.
  - intros p q j m. cbn. intros H1 H2 H3 H4. destruct (decide (i = j)) as [->|].
    + rewrite lookup_insert_eq in H3. simplify_eq. eapply (wf_dir f Hf); [done..|]. by apply Hs.
    + rewrite lookup_insert_ne in H3 by done. by eapply (wf_dir f Hf).
Qed.

(** A rename: the entries at and under [from] are at [to]; nothing is strictly
    under [to], whose directory is not under [from]. *)
Lemma shape_at_moved f from to p :
  shape_at (moved from to f) p =
    match below to p with
    | Some rel => shape_at f (from ++ rel)
    | None => if decide (under from p) then None else shape_at f p
    end.
Proof.
  unfold shape_at, lookup_inode. rewrite moved_lookup. cbn. destruct (below to p); [done|]. by case_decide.
Qed.
Lemma below_None p q : ~ under p q -> below p q = None.
Proof. intros H. unfold below. by rewrite decide_False. Qed.
Lemma below_app p rel : below p (p ++ rel) = Some rel.
Proof. by apply below_Some. Qed.
Lemma below_self p : below p p = Some [].
Proof. apply below_Some. by rewrite app_nil_r. Qed.
Lemma wf_moved f from d m :
  wf f -> shape_at f d = Some ShDir -> ~ under from (join d m) ->
  wf (moved from (join d m) f).
Proof.
  intros Hf Hd Hft. set (to := join d m) in *.
  assert (Hdt : ~ under to d).
  { intros Hu. assert (E : d = to) by (apply under_antisym; [by exists [m]|done]).
    apply (f_equal length) in E. unfold to, join in E. rewrite length_app in E. cbn in E. lia. }
  assert (Hfd : ~ under from d) by by apply (keep_above from d m).
  assert (Hmv : forall p i, names (moved from to f) !! p = Some i ->
            exists p', names f !! p' = Some i /\ (p = p' /\ ~ under to p \/ exists rel, p' = from ++ rel /\ p = to ++ rel)).
  { intros p i. rewrite moved_lookup. destruct (below to p) as [rel|] eqn:E.
    - apply below_Some in E as ->. intros Hi. exists (from ++ rel). split; [done|]. right. by exists rel.
    - case_decide; [done|]. intros Hi. exists p. split; [done|]. left. split; [done|].
      intros [rel Hr]. apply below_Some in Hr. congruence. }
  constructor.
  - rewrite shape_at_moved, below_None; [|intros Hu%under_nil; by destruct d].
    rewrite decide_False; [apply Hf|]. intros ->%under_nil. apply Hft. by exists to.
  - intros p n [i Hi]. rewrite moved_lookup in Hi. rewrite shape_at_moved.
    destruct (below to (join p n)) as [rel|] eqn:E.
    + apply below_Some in E. destruct rel as [|x rel _] using rev_ind.
      * rewrite app_nil_r in E. unfold to, join in E. apply app_inj_tail in E as [-> ->].
        by rewrite below_None, decide_False.
      * rewrite app_assoc in E. apply app_inj_tail in E as [-> ->]. rewrite below_app.
        apply (wf_parent f Hf _ x). unfold join. rewrite <- app_assoc. by exists i.
    + case_decide as Hu; [done|].
      assert (~ under to (join p n)). { intros [rel Hr]. apply below_Some in Hr. congruence. }
      rewrite below_None by (by apply (keep_above to p n)).
      rewrite decide_False by (by apply (keep_above from p n)). apply (wf_parent f Hf p n). by exists i.
  - intros p i Hi. apply Hmv in Hi as (p' & Hi & _). by apply (wf_inode f Hf p').
  - apply Hf.
  - intros p q i n Hp Hq Hn Hs.
    assert (Hsame : forall p' q', names f !! p' = Some i -> names f !! q' = Some i -> p' = q')
      by (intros; by eapply (wf_dir f Hf)).
    assert (Hfrom : forall rel r, names (moved from to f) !! r = Some i -> r = from ++ rel -> ~ under to r -> False).
    { intros rel r Hr -> Hu. rewrite moved_lookup, below_None, decide_True in Hr by (done || apply under_app). done. }
    destruct (Hmv p i Hp) as (p' & Hp' & Hcp), (Hmv q i Hq) as (q' & Hq' & Hcq).
    assert (p' = q') as -> by by apply Hsame.
    destruct Hcp as [[-> Hup]|(rel & -> & ->)], Hcq as [[-> Huq]|(rel' & E & ->)].
    + done.
    + exfalso. by apply (Hfrom rel' q').
    + exfalso. by apply (Hfrom rel (from ++ rel)).
    + by simplify_list_eq.
Qed.

Lemma wf_link f i n d m :
  wf f -> inodes f !! i = Some n -> shape n <> ShDir -> names f !! join d m = None ->
  shape_at f d = Some ShDir -> wf (set_names (<[join d m := i]> (names f)) f).
Proof.
  intros Hf Hi Hs Hm Hd.
  assert (Hsh : forall p, p <> join d m -> shape_at (set_names (<[join d m := i]> (names f)) f) p = shape_at f p).
  { intros p Hp. unfold shape_at, lookup_inode. cbn. by rewrite lookup_insert_ne. }
  assert (Habs : forall p s, shape_at f p = Some s -> p <> join d m).
  { intros p s Hp%shape_at_names ->. rewrite Hm in Hp. by destruct Hp. }
  constructor.
  - rewrite Hsh; [apply Hf|]. by destruct d.
  - intros p x. cbn. destruct (decide (join p x = join d m)) as [E|E].
    + unfold join in E. apply app_inj_tail in E as [-> ->]. intros _. rewrite Hsh; [done|by eapply Habs].
    + rewrite lookup_insert_ne by done. intros Hx%(wf_parent f Hf). rewrite Hsh; [done|by eapply Habs].
  - intros p j. cbn. destruct (decide (p = join d m)) as [->|E].
    + rewrite lookup_insert_eq. intros [= <-]. by exists n.
    + rewrite lookup_insert_ne by done. apply Hf.
  - apply Hf.
  - intros p q j k. cbn. intros H1 H2 H3 H4.
    assert (Hold : forall r, <[join d m:=i]> (names f) !! r = Some j -> names f !! r = Some j).
    { intros r Hr. destruct (decide (r = join d m)) as [->|E].
      - rewrite lookup_insert_eq in Hr. by simplify_eq.
      - by rewrite lookup_insert_ne in Hr. }
    apply Hold in H1, H2. by eapply (wf_dir f Hf).
Qed.

(** ** What may change

    From [f0] to [f], names appear only where [A] says, and disappear or come to
    name something else only where [D] says; no file there was changes its
    content, no link its target. *)
Record changes (A D : FPath -> Prop) (f0 f : Fs) : Prop := mkChanges {
  changes_next : (next_inode f0 <= next_inode f)%N;
  changes_new p : names f0 !! p = None -> is_Some (names f !! p) -> A p;
  changes_old p i : names f0 !! p = Some i -> names f !! p = Some i \/ D p;
  changes_shape i n : inodes f0 !! i = Some n -> exists n', inodes f !! i = Some n' /\ shape n' = shape n
}.
Definition everywhere : FPath -> Prop := fun _ => True.
Definition nowhere : FPath -> Prop := fun _ => False.

Section Changes.
Context (A D : FPath -> Prop).

Lemma changes_refl f : changes A D f f.
Proof. constructor; [done| |by left|eauto]. intros p -> Hs. by destruct Hs. Qed.
Lemma changes_trans f0 f1 f2 : changes A D f0 f1 -> changes A D f1 f2 -> changes A D f0 f2.
Proof.
  intros H1 H2. constructor.
  - pose proof (changes_next _ _ _ _ H1). pose proof (changes_next _ _ _ _ H2). lia.
  - intros p Hp Hs. destruct (names f1 !! p) eqn:E.
    + apply (changes_new _ _ _ _ H1 p Hp). by eexists.
    + by apply (changes_new _ _ _ _ H2 p E).
  - intros p i Hp. destruct (changes_old _ _ _ _ H1 p i Hp) as [Hp1|]; [|by right].
    by apply (changes_old _ _ _ _ H2).
  - intros i n Hn. destruct (changes_shape _ _ _ _ H1 i n Hn) as (n1 & Hn1 & E1).
    destruct (changes_shape _ _ _ _ H2 i n1 Hn1) as (n2 & Hn2 & E2). exists n2. split; [done|congruence].
Qed.
Lemma changes_weaken (A' D' : FPath -> Prop) f0 f :
  changes A' D' f0 f -> (forall p, A' p -> A p) -> (forall p, D' p -> D p) -> changes A D f0 f.
Proof.
  intros [H1 H2 H3 H4] HA HD. constructor; [done|eauto| |done].
  intros p i Hp. destruct (H3 p i Hp); auto.
Qed.

(** *** How the tree is changed, seen from [f0] *)
Context (f0 f : Fs) (Hc : changes A D f0 f).

Lemma changes_insert p i :
  names f !! p = None -> A p -> changes A D f0 (set_names (<[p := i]> (names f)) f).
Proof.
  intros Hp HA. destruct Hc as [H1 H2 H3 H4]. constructor; [done|..|done]; cbn.
  - intros q Hq. destruct (decide (p = q)) as [<-|]; [done|]. rewrite lookup_insert_ne by done. by apply H2.
  - intros q j Hq. destruct (H3 q j Hq) as [Hj|]; [|by right]. left.
    rewrite lookup_insert_ne; [done|]. intros <-. congruence.
Qed.
Lemma changes_attach p n : wf f -> names f !! p = None -> A p -> changes A D f0 (attach p n f).
Proof.
  intros Hf Hp HA. destruct (changes_insert p (next_inode f) Hp HA) as [H1 H2 H3 H4].
  constructor; [cbn in *; lia|exact H2|exact H3|]. intros i m Hm. destruct (H4 i m Hm) as (m' & Hm' & E).
  exists m'. split; [|done]. cbn in *. rewrite lookup_insert_ne; [done|]. intros <-.
  assert (next_inode f < next_inode f)%N by (apply (wf_next f Hf); by exists m'). lia.
Qed.
Lemma changes_prune keep `{!forall p, Decision (keep p)} :
  (forall p, ~ keep p -> names f0 !! p = None \/ D p) -> changes A D f0 (prune keep f).
Proof.
  intros Hk. destruct Hc as [H1 H2 H3 H4]. constructor; [done|..|done].
  - intros p Hp. rewrite prune_lookup. case_decide; [by apply H2|by intros []].
  - intros p i Hp. rewrite prune_lookup. case_decide as E; [by apply H3|].
    destruct (Hk p E); [congruence|by right].
Qed.
Lemma changes_moved from to :
  (forall q, under from q \/ under to q -> names f0 !! q = None \/ D q) ->
  (forall rel, is_Some (names f !! (from ++ rel)) -> A (to ++ rel)) -> changes A D f0 (moved from to f).
Proof.
  intros HD HA. destruct Hc as [H1 H2 H3 H4]. constructor; [done|..|done].
  - intros p Hp. rewrite moved_lookup. destruct (below to p) eqn:E.
    + apply below_Some in E as ->. apply HA.
    + case_decide; [by intros []|by apply H2].
  - intros p i Hp. rewrite moved_lookup. destruct (below to p) eqn:E.
    + right. apply below_Some in E as ->. destruct (HD (to ++ l)); [right; apply under_app|congruence|done].
    + case_decide as E2; [|by apply H3]. right. destruct (HD p); [by left|congruence|done].
Qed.
Lemma changes_put_inode i n n' :
  inodes f !! i = Some n -> shape n' = shape n \/ inodes f0 !! i = None -> changes A D f0 (put_inode i n' f).
Proof.
  intros Hi Hs. destruct Hc as [H1 H2 H3 H4]. constructor; [done..|]. intros j m Hm. cbn.
  destruct (decide (i = j)) as [<-|]; [|rewrite lookup_insert_ne by done; by apply H4].
  rewrite lookup_insert_eq. exists n'. split; [done|]. destruct (H4 i m Hm) as (m' & Hm' & E).
  destruct Hs as [Hs|Hs]; congruence.
Qed.
(** Where a name is missing now, there was none, or it could be removed. *)
Lemma changes_absent p : names f !! p = None -> names f0 !! p = None \/ D p.
Proof.
  intros Hp. destruct (names f0 !! p) as [i|] eqn:E; [|by left].
  destruct (changes_old _ _ _ _ Hc p i E); [congruence|by right].
Qed.
Lemma changes_shape_at p s : shape_at f0 p = Some s -> ~ D p -> shape_at f p = Some s.
Proof.
  intros (i & n & Hi & Hn & <-)%shape_at_Some HD.
  destruct (changes_old _ _ _ _ Hc p i Hi) as [Hi'|]; [|done].
  destruct (changes_shape _ _ _ _ Hc i n Hn) as (n' & Hn' & E).
  apply shape_at_Some. by exists i, n'.
Qed.
(** What has not changed at all. *)
Lemma changes_outside p : ~ A p -> ~ D p -> wf f0 -> wf f -> shape_at f p = shape_at f0 p.
Proof.
  intros HA HD Hf0 Hf. destruct (shape_at f0 p) as [s|] eqn:E; [by apply changes_shape_at|].
  apply shape_at_None in E; [|done]. apply shape_at_None; [done|]. apply eq_None_not_Some.
  intros Hs. by apply HA, (changes_new _ _ _ _ Hc p).
Qed.
End Changes.

(** ** What a computation ensures

    From the world [w], under the control [c] and whatever the schedule of faults,
    [m] ends in a result and a world for which [Q] holds.  [trouble] says that a
    poll or a call may fail at all: without it a computation runs undisturbed. *)
Section Ensures.
Context {X : Type} (c : Control).
Implicit Types w : World X.

Definition kin w w' : Prop := schedule w' = schedule w /\ nanos w' = nanos w.
(** [w'] is [w] with the tree [f]. *)
Definition after w f w' : Prop := kin w w' /\ extra w' = extra w /\ fsys w' = f.
Definition steady w w' : Prop := after w (fsys w) w'.
Definition short_read (cl : Call) : Prop := (amount cl < 2 ^ 63)%N.
Definition trouble w : Prop :=
  (exists n e, c n = Some e) \/ (exists n e, fails (schedule w n) = Some e) \/
  (exists n, short_read (schedule w n)).

#[export] Instance kin_preorder : PreOrder kin.
Proof. split; [done|]. intros ??? (?&?) (?&?). split; congruence. Qed.
#[export] Instance steady_preorder : PreOrder steady.
Proof. split; [done|]. intros ??? (? & ? & ?) (? & ? & ?). split; [by etrans|split; congruence]. Qed.
(** The fault [e] is on the schedule; a call never claims by mistake that there is
    nothing at a path. *)
Definition fault w (e : IoError) : Prop := exists n, fails (schedule w n) = Some e.
Definition honest w : Prop := forall e, fault w e -> err_kind e <> NotFound.
Lemma fault_trouble w e : fault w e -> trouble w.
Proof. intros [n Hn]. right. left. by exists n, e. Qed.
Lemma honest_kin w w' : kin w w' -> honest w -> honest w'.
Proof. intros (Hs & _). unfold honest, fault. by rewrite Hs. Qed.
Lemma trouble_kin w w' : kin w w' -> trouble w' -> trouble w.
Proof. intros (Hs & _). unfold trouble. by rewrite Hs. Qed.
Lemma steady_kin w w' : steady w w' -> kin w w'.
Proof. by intros []. Qed.
Lemma steady_fsys w w' : steady w w' -> fsys w' = fsys w.
Proof. by intros (_ & _ & ?). Qed.

Definition ens {A} w (m : M (World X) A) (Q : Res A -> World X -> Prop) : Prop :=
  forall k, let '(r, _, w') := m c k w in Q r w'.

Lemma ens_weaken {A} w (m : M (World X) A) (Q Q' : Res A -> World X -> Prop) :
  ens w m Q -> (forall r w', Q r w' -> Q' r w') -> ens w m Q'.
Proof. intros Hm HQ k. specialize (Hm k). destruct (m c k w) as [[r k'] w']. by apply HQ. Qed.
Lemma ens_ret {A} w (a : A) (Q : Res A -> World X -> Prop) : Q (Ok a) w -> ens w (mret a) Q.
Proof. by intros H k. Qed.
Lemma ens_fail {A} w e (Q : Res A -> World X -> Prop) : Q (Err e) w -> ens w (mfail e) Q.
Proof. by intros H k. Qed.
Lemma ens_lift {A} w (r : Res A) (Q : Res A -> World X -> Prop) : Q r w -> ens w (mlift r) Q.
Proof. by intros H k. Qed.
Lemma ens_get w (Q : Res (World X) -> World X -> Prop) : Q (Ok w) w -> ens w mget Q.
Proof. by intros H k. Qed.
Lemma ens_modify w g (Q : Res unit -> World X -> Prop) : Q (Ok tt) (g w) -> ens w (mmodify g) Q.
Proof. by intros H k. Qed.
Lemma ens_check w (Q : Res unit -> World X -> Prop) :
  Q (Ok tt) w -> (forall e, trouble w -> Q (Err e) w) -> ens w check_control Q.
Proof.
  intros H He k. unfold check_control. destruct (c k) eqn:E; [|done]. apply He. left. by exists k, g.
Qed.
Lemma ens_bind {A B} w (m : M (World X) A) (f : A -> M (World X) B) (Q : Res B -> World X -> Prop) :
  ens w m (fun r w' => match r with Ok a => ens w' (f a) Q | Err e => Q (Err e) w' end) ->
  ens w (mbind m f) Q.
Proof.
  intros Hm k. specialize (Hm k). unfold mbind. destruct (m c k w) as [[[a|e] k'] w']; [|done].
  by apply Hm.
Qed.
Lemma ens_attempt {A} w (m : M (World X) A) (Q : Res (Res A) -> World X -> Prop) :
  ens w m (fun r w' => Q (Ok r) w') -> ens w (attempt m) Q.
Proof. intros Hm k. specialize (Hm k). unfold attempt. by destruct (m c k w) as [[r k'] w']. Qed.

Lemma ens_sys {A} w (act : Call -> Fs -> Result A IoError * Fs) (Q : Res (Result A IoError) -> World X -> Prop) :
  (forall e w', steady w w' -> fault w e -> Q (Ok (Err e)) w') ->
  (forall cl w', after w (act cl (fsys w)).2 w' -> short_read cl -> trouble w ->
     Q (Ok (act cl (fsys w)).1) w') ->
  (forall cl w', after w (act cl (fsys w)).2 w' -> ~ short_read cl -> Q (Ok (act cl (fsys w)).1) w') ->
  ens w (sys act) Q.
Proof.
  intros He Hs Ha k. unfold sys, call, mbind. cbn.
  destruct (fails (schedule w (calls w))) as [e|] eqn:E.
  - cbn. apply He; [done|]. by exists (calls w).
  - unfold mret. cbn. destruct (decide (amount (schedule w (calls w)) < 2 ^ 63)%N) as [Hlt|Hge].
    + apply Hs; [done|done|]. right. right. by exists (calls w).
    + by apply Ha.
Qed.
(** A call that only looks. *)
Lemma ens_look {A} w (g : Call -> Fs -> Result A IoError) (Q : Res (Result A IoError) -> World X -> Prop) :
  (forall r w', steady w w' -> (exists cl, r = g cl (fsys w)) \/ (exists e, r = Err e /\ fault w e) -> Q (Ok r) w') ->
  ens w (sys (fun cl f => (g cl f, f))) Q.
Proof.
  intros H. apply ens_sys.
  - intros e w' Hs Ht. apply H; [done|]. right. by exists e.
  - intros cl w' Hw _ _. apply H; [done|]. left. by exists cl.
  - intros cl w' Hw _. apply H; [done|]. left. by exists cl.
Qed.
Lemma ens_or_io {A} w p (m : IO A) (Q : Res A -> World X -> Prop) :
  ens w m (fun r w' => match r with
                       | Ok (Ok a) => Q (Ok a) w'
                       | Ok (Err e) => Q (Err (Io (show p) (err_text e))) w'
                       | Err e => Q (Err e) w'
                       end) -> ens w (or_io p m) Q.
Proof.
  intros Hm. apply ens_bind. eapply ens_weaken; [exact Hm|]. intros [[a|e]|e] w' HQ; [by apply ens_ret|by apply ens_fail|done].
Qed.
Lemma ens_now w (Q : Res N -> World X -> Prop) :
  (forall n w', steady w w' -> Q (Ok n) w') -> ens w now_nanos Q.
Proof. intros H k. by apply H. Qed.

(** Two facts about one computation. *)
Lemma ens_and {A} w (m : M (World X) A) (Q1 Q2 : Res A -> World X -> Prop) :
  ens w m Q1 -> ens w m Q2 -> ens w m (fun r w' => Q1 r w' /\ Q2 r w').
Proof. intros H1 H2 k. specialize (H1 k). specialize (H2 k). by destruct (m c k w) as [[r k'] w']. Qed.
Lemma ens_run {A} w (m : M (World X) A) (Q : Res A -> World X -> Prop) r w' :
  ens w m Q -> run m c w = (r, w') -> Q r w'.
Proof. intros Hm. unfold run. specialize (Hm 0). destruct (m c 0 w) as [[r1 k] w1]. by intros [= <- <-]. Qed.
End Ensures.

(** * The file system: what a computation keeps

    Computations that, started in a well-formed tree that differs from [f0] as
    allowed, end in one, whatever fails; with what is known of the value they
    return.  The calls of [FileSystem] do so under conditions on the paths. *)
Definition okay {A E} (P : A -> Prop) (r : Result A E) : Prop := forall a, r = Ok a -> P a.

Section Keeps.
Context {X : Type} `{Platform} (c : Control) (A D : FPath -> Prop) (f0 : Fs).
Implicit Types w : World X.

Definition inv (f : Fs) : Prop := wf f /\ changes A D f0 f.

Definition keeps {B} (m : M (World X) B) (P : B -> Prop) : Prop :=
  forall w, honest w -> inv (fsys w) -> ens c w m (fun r w' => kin w w' /\ inv (fsys w') /\ okay P r).

(** What may be removed, and where there is room for new entries. *)
Definition removable (p : FPath) : Prop := forall q, under p q -> names f0 !! q = None \/ D q.
Definition room (p : FPath) : Prop := forall q, under p q \/ under q p -> A q.

Lemma removable_below p q : removable p -> under p q -> removable q.
Proof. intros Hp Hq r Hr. apply Hp. by eapply under_trans. Qed.
Lemma room_below p q : room p -> under p q -> room q.
Proof.
  intros Hp Hq r [Hr|Hr].
  - apply Hp. left. by eapply under_trans.
  - apply Hp. by apply (under_comparable p r q).
Qed.
Lemma room_self p : room p -> A p.
Proof. intros Hp. apply Hp. left. apply under_refl. Qed.
Lemma absent_removable f p : inv f -> names f !! p = None -> removable p.
Proof. intros [Hf Hc] Hp q Hq. apply (changes_absent A D f0 f Hc). by eapply wf_absent. Qed.

(** ** Structure *)
Lemma keeps_weaken {B} (m : M (World X) B) (P Q : B -> Prop) : keeps m P -> (forall a, P a -> Q a) -> keeps m Q.
Proof. intros Hm HPQ w Ho Hw. eapply ens_weaken; [by apply Hm|]. intros r w' (? & ? & Hr). split_and!; [done..|]. intros a ->. by apply HPQ, Hr. Qed.
Lemma keeps_any {B} (m : M (World X) B) (P : B -> Prop) : keeps m P -> keeps m (fun _ => True).
Proof. intros Hm. by eapply keeps_weaken. Qed.
Lemma keeps_ret {B} (a : B) (P : B -> Prop) : P a -> keeps (mret a) P.
Proof. intros Ha w Ho Hw. apply ens_ret. split_and!; [done..|]. by intros ? [= <-]. Qed.
Lemma keeps_fail {B} e (P : B -> Prop) : keeps (mfail e) P.
Proof. intros w Ho Hw. by apply ens_fail. Qed.
Lemma keeps_lift {B} (r : Res B) : keeps (mlift r) (fun a => r = Ok a).
Proof. intros w Ho Hw. apply ens_lift. split_and!; [done..|]. by intros a ->. Qed.
Lemma keeps_get : keeps mget (fun w => inv (fsys w)).
Proof. intros w Ho Hw. apply ens_get. split_and!; [done..|]. by intros ? [= <-]. Qed.
Lemma keeps_gets {B} (g : World X -> B) : keeps (mgets g) (fun _ => True).
Proof. intros w Ho Hw k. done. Qed.
Lemma keeps_check : keeps check_control (fun _ => True).
Proof. intros w Ho Hw. by apply ens_check. Qed.
Lemma keeps_modify g : (forall w, kin w (g w) /\ fsys (g w) = fsys w) -> keeps (mmodify g) (fun _ => True).
Proof. intros Hg w Ho Hw. apply ens_modify. destruct (Hg w) as [Hk Hf]. rewrite Hf. done. Qed.
Lemma keeps_bind {B C} (m : M (World X) B) (k : B -> M (World X) C) (P : B -> Prop) (Q : C -> Prop) :
  keeps m P -> (forall a, P a -> keeps (k a) Q) -> keeps (mbind m k) Q.
Proof.
  intros Hm Hk w Ho Hw. apply ens_bind. eapply ens_weaken; [by apply Hm|].
  intros [a|e] w1 (Hk1 & Hw1 & Ha); [|by split_and!].
  eapply ens_weaken; [apply (Hk a (Ha a eq_refl) w1 (honest_kin _ _ Hk1 Ho) Hw1)|].
  intros r w2 (Hk2 & ? & ?). split_and!; [by etrans|done..].
Qed.
Lemma keeps_attempt {B} (m : M (World X) B) (P : B -> Prop) : keeps m P -> keeps (attempt m) (okay P).
Proof.
  intros Hm w Ho Hw. apply ens_attempt. eapply ens_weaken; [by apply Hm|].
  intros r w1 (? & ? & ?). split_and!; [done..|]. by intros ? [= <-].
Qed.
Lemma keeps_for {B C} (body : C -> B -> M (World X) C) (P : C -> Prop) l : forall acc,
  P acc -> (forall acc x, P acc -> keeps (body acc x) P) -> keeps (mfor body acc l) P.
Proof.
  induction l as [|x l IH]; intros acc Ha Hb; simpl; [by apply keeps_ret|].
  eapply keeps_bind; [by apply Hb|]. intros acc' Ha'. by apply IH.
Qed.
Lemma keeps_or_io {B} p (m : IO B) (P : B -> Prop) : keeps m (okay P) -> keeps (or_io p m) P.
Proof.
  intros Hm. eapply keeps_bind; [exact Hm|]. intros [a|e] Ha; [by apply keeps_ret, Ha|apply keeps_fail].
Qed.

(** ** Calls *)
Lemma keeps_sys {B} (act : Call -> Fs -> Result B IoError * Fs) (P : B -> Prop) :
  (forall cl f, inv f -> inv (act cl f).2 /\ okay P (act cl f).1) -> keeps (sys act) (okay P).
Proof.
  intros Ha w Ho Hw.
  assert (Hdone : forall cl w', after w (act cl (fsys w)).2 w' ->
            kin w w' /\ inv (fsys w') /\ okay (okay P) (Ok (E := GfmError) (act cl (fsys w)).1)).
  { intros cl w' (Hk & _ & ->). destruct (Ha cl (fsys w) Hw). split_and!; [done..|]. by intros ? [= <-]. }
  apply ens_sys; [|by auto|by auto].
  intros e w' (Hk & _ & ->) _. split_and!; [done..|]. intros ? [= <-]. by intros a.
Qed.
Lemma keeps_look {B} (g : Call -> Fs -> Result B IoError) :
  keeps (sys (fun cl f => (g cl f, f))) (fun _ => True).
Proof. eapply keeps_weaken; [apply (keeps_sys _ (fun _ => True))|done]. by intros cl f Hf. Qed.
Lemma keeps_now : keeps now_nanos (fun _ => True).
Proof. intros w Ho Hw. apply ens_now. intros n w' (Hk & _ & ->). done. Qed.

Lemma inv_attach f p d s a : inv f -> names f !! p = None -> parent p = Some d -> shape_at f d = Some ShDir ->
  A p -> inv (attach p (mkInode s a) f).
Proof.
  intros [Hf Hc] Hp Hd Hs HA. split; [by eapply wf_attach|]. by apply changes_attach.
Qed.
(** A new entry is a new inode. *)
Lemma keeps_create s p : A p -> keeps (create_at s p) (okay (fun i => inodes f0 !! i = None)).
Proof.
  intros HA. apply keeps_sys. intros cl f Hf.
  assert (Hnew : inodes f0 !! next_inode f = None).
  { destruct Hf as [Hf Hc]. apply eq_None_not_Some. intros [n Hn].
    destruct (changes_shape _ _ _ _ Hc _ _ Hn) as (n' & Hn' & _).
    assert (next_inode f < next_inode f)%N by (apply (wf_next f Hf); by exists n'). lia. }
  destruct (names f !! p) eqn:Ep; [by split|]. destruct (parent p) as [d|] eqn:Ed; [|by split].
  destruct (shape_at f d) as [[]|] eqn:Es; try by split.
  split; [by eapply inv_attach|]. by intros i [= <-].
Qed.
Lemma keeps_create_dirs todo : forall p, (forall q, under q (p ++ todo) -> A q) -> keeps (create_dirs p todo) (fun _ => True).
Proof.
  induction todo as [|n todo IH]; intros p HA; cbn [create_dirs]; [by apply keeps_ret|].
  assert (HA' : forall q, under q (join p n ++ todo) -> A q).
  { intros q Hq. apply HA. unfold join in Hq. by rewrite <- app_assoc in Hq. }
  eapply keeps_bind; [apply keeps_create, HA', under_app|]. intros [i|e] _; [by apply IH|].
  eapply keeps_bind; [apply keeps_get|]. intros w _. case_decide; [by apply IH|by apply keeps_ret].
Qed.
Lemma keeps_create_dir_all p : (forall q, under q p -> A q) -> keeps (create_dir_all p) (fun _ => True).
Proof. intros HA. by apply keeps_create_dirs. Qed.

Lemma inv_cut f p : inv f -> p <> [] -> removable p -> inv (prune (fun q => ~ under p q) f).
Proof.
  intros [Hf Hc] Hne Hp. split; [by apply wf_cut|]. apply changes_prune; [done|].
  intros q Hq. apply Hp. destruct (decide (under p q)); [done|]. by destruct Hq.
Qed.
Lemma keeps_remove_file p : removable p -> keeps (remove_file p) (fun _ => True).
Proof.
  intros Hp. eapply keeps_weaken; [apply (keeps_sys _ (fun _ => True))|done]. intros cl f [Hf Hc].
  assert (Hcut : forall s, shape_at f p = Some s -> s <> ShDir -> inv (prune (fun q => q <> p) f)).
  { intros s Hs Hne. split.
    - apply wf_prune; [done| |].
      + intros <-. rewrite (wf_root f Hf) in Hs. by simplify_eq.
      + intros q n _ Hn ->. apply (wf_parent f Hf) in Hn. congruence.
    - apply changes_prune; [done|]. intros q Hq. apply dec_stable in Hq as ->. apply Hp, under_refl. }
  destruct (shape_at f p) as [[]|] eqn:E; (split; [|done]); try done; by eapply Hcut.
Qed.
Lemma keeps_remove_dir_all p : removable p -> keeps (remove_dir_all p) (fun _ => True).
Proof.
  intros Hp w Ho Hw k. unfold remove_dir_all, call, mbind. cbn.
  destruct (fails (schedule w (calls w))) as [e|]; cbn.
  - split; [done|]. split; [|done]. destruct Hw as [Hf Hc]. split.
    + apply wf_prune; [done| |].
      * intros [_ Hex]. apply existsb_exists in Hex as (j & Hj & _). apply in_seq in Hj. cbn in Hj. lia.
      * intros q n Hq _ [Hu Hex]. apply Hq. split; [eapply under_trans; [exact Hu|by exists [n]]|].
        apply existsb_exists in Hex as (j & Hj & Hr). apply existsb_exists. exists j.
        apply in_seq in Hj. unfold join. rewrite length_app. cbn. split; [apply in_seq; lia|].
        by rewrite take_app_le by lia.
    + apply changes_prune; [done|]. intros q Hq. apply dec_stable in Hq as [Hu _]. by apply Hp.
  - assert (Hcut : p <> [] -> inv (prune (fun q => ~ under p q) (fsys w))) by (intros; by apply inv_cut).
    destruct (shape_at (fsys w) p) as [[]|]; cbn; try case_decide; cbn; split_and!; auto; done.
Qed.

Lemma keeps_rename from to : removable from -> removable to -> (forall rel, A (to ++ rel)) ->
  keeps (rename from to) (fun _ => True).
Proof.
  intros Hfrom Hto HA. eapply keeps_weaken; [apply (keeps_sys _ (fun _ => True))|done]. intros cl f [Hf Hc].
  split; [|done]. unfold rename_act. destruct (lookup_inode f from) as [[i n]|]; [|done].
  destruct (parent to) as [d|] eqn:Ed; [|done]. destruct (parent_Some _ _ Ed) as [m ->].
  destruct (shape_at f d) as [[]|] eqn:Es; try done.
  repeat (case_decide; [done|]). assert (Hmv : inv (moved from (join d m) f)).
  { split; [by apply wf_moved|]. apply changes_moved; [done|intros q [Hq|Hq]; auto|done]. }
  destruct (shape n), (shape_at f (join d m)) as [[]|]; try done; by case_decide.
Qed.
Lemma keeps_hard_link existing to : A to -> keeps (hard_link existing to) (fun _ => True).
Proof.
  intros HA. eapply keeps_weaken; [apply (keeps_sys _ (fun _ => True))|done]. intros cl f [Hf Hc].
  split; [|done]. destruct (lookup_inode f existing) as [[i n]|] eqn:Ei; [|done].
  apply lookup_inode_Some in Ei as [_ Hi]. destruct (names f !! to) eqn:Et; [done|].
  destruct (parent to) as [d|] eqn:Ed; [|done]. destruct (parent_Some _ _ Ed) as [m ->].
  destruct (shape n) eqn:En, (shape_at f d) as [[]|] eqn:Es; try done;
    (split; [by eapply wf_link; rewrite ?En|by apply changes_insert]).
Qed.

Lemma inv_put f i n n' : inv f -> inodes f !! i = Some n -> shape n' = shape n -> inv (put_inode i n' f).
Proof.
  intros [Hf Hc] Hi Hs. split; [eapply wf_put_inode; [done|done|by rewrite Hs]|].
  eapply changes_put_inode; [done|done|by left].
Qed.
Lemma keeps_set_attrs p g : keeps (set_attrs p g) (fun _ => True).
Proof.
  eapply keeps_weaken; [apply (keeps_sys _ (fun _ => True))|done]. intros cl f Hf. split; [|done].
  destruct (resolve MAXSYMLINKS f p) as [q|e]; [|done].
  destruct (lookup_inode f q) as [[i n]|] eqn:E; [|done]. apply lookup_inode_Some in E as [_ Hi].
  by eapply inv_put.
Qed.

(** Contents are written to new files only. *)
Lemma inv_content f i d : inv f -> inodes f0 !! i = None -> is_Some (content_of f i) -> inv (put_content i d f).
Proof.
  intros [Hf Hc] Hnew Hcon. unfold put_content, content_of in *. destruct (inodes f !! i) as [n|] eqn:E; [|done].
  cbn in Hcon. split.
  - eapply wf_put_inode; [done|done|]. cbn. destruct (shape n); [done|by destruct Hcon|by destruct Hcon].
  - eapply changes_put_inode; [done|done|by right].
Qed.
Lemma keeps_write_all i offset d : inodes f0 !! i = None -> keeps (write_all i offset d) (fun _ => True).
Proof.
  intros Hi w Ho Hw k. unfold write_all, call, mbind. cbn.
  assert (Hput : forall d', inv (fsys (match content_of (fsys w) i with
            | Some data => set_fsys (put_content i (splice data offset d') (fsys w)) (tick w)
            | None => tick w end)) /\ kin w (match content_of (fsys w) i with
            | Some data => set_fsys (put_content i (splice data offset d') (fsys w)) (tick w)
            | None => tick w end)).
  { intros d'. destruct (content_of (fsys w) i) eqn:E; [|done]. split; [|done]. cbn.
    apply inv_content; [done..|]. by rewrite E. }
  destruct (fails (schedule w (calls w))); cbn; edestruct Hput; split_and!; done.
Qed.
Lemma keeps_set_len i n : inodes f0 !! i = None -> keeps (set_len i n) (fun _ => True).
Proof.
  intros Hi. eapply keeps_weaken; [apply (keeps_sys _ (fun _ => True))|done]. intros cl f Hf. split; [|done].
  destruct (content_of f i) eqn:E; [|done]. apply inv_content; [done..|]. by rewrite E.
Qed.

End Keeps.
