(* ===== verification/TextFiles.v ===== *)
(** * Text files

    What the operation journal and the trash metadata use of [std::fs] and
    [std::io] beyond [FileSystem]: files opened for writing, [BufRead::lines]; and a
    calculus of triples on the tree, where the end of a computation is described on
    both of its branches. *)
From Stdlib Require Import Ascii.
From S2P Require Import Prelude Types Text Control FileSystem FileFacts.
#[local] Open Scope list_scope.

Definition text_bytes (s : string) : bytes := String.list_ascii_of_string s.
Definition text_of (b : bytes) : string := String.string_of_list_ascii b.

Section TextFiles.
Context {X : Type} `{Platform}.
Implicit Types w : World X.

(** Where a file is opened or made: past the links of the last name. *)
Fixpoint creation_path (fuel : nat) (f : Fs) (p : FPath) : Result FPath IoError :=
  match fuel with
  | O => Err ELOOP
  | S fuel' =>
      match shape_at f p with
      | Some (ShLink t) => creation_path fuel' f (link_path (removelast p) t)
      | _ => Ok p
      end
  end.
(** [OpenOptions::new().create(true).write(true)]; [kept] is what stays of the
    content. *)
Definition open_act (kept : bytes -> bytes) (p : FPath) (f : Fs) : Result N IoError * Fs :=
  match creation_path MAXSYMLINKS f p with
  | Err e => (Err e, f)
  | Ok q =>
      match lookup_inode f q, parent q with
      | Some (i, n), _ =>
          match shape n with
          | ShFile content => (Ok i, put_content i (kept content) f)
          | ShDir => (Err EISDIR, f)
          | ShLink _ => (Err ELOOP, f)
          end
      | None, None => (Err EISDIR, f)
      | None, Some d =>
          match shape_at f d with
          | Some ShDir => (Ok (next_inode f), attach q (mkInode (ShFile []) (initial_attrs f q (ShFile []))) f)
          | Some _ => (Err ENOTDIR, f)
          | None => (Err (missing f q), f)
          end
      end
  end.
(** With [append(true)], and with [truncate(true)] ([File::create]). *)
Definition open_append (p : FPath) : IO (X := X) N := sys (fun _ => open_act id p).
Definition create_file (p : FPath) : IO (X := X) N := sys (fun _ => open_act (fun _ => []) p).
Definition file_length_now (f : Fs) (i : N) : nat := length (default [] (content_of f i)).
(** A write at the end. *)
Definition append_bytes (i : N) (b : bytes) : IO (X := X) unit :=
  w <- mget ; write_all i (file_length_now (fsys w) i) b.
Definition append_text (i : N) (s : string) : IO (X := X) unit := append_bytes i (text_bytes s).
(** [BufWriter::flush] and [File::sync_all]; flushing a [File] does nothing. *)
Definition flush : IO (X := X) unit := sys (fun _ f => (Ok tt, f)).
Definition sync_all : IO (X := X) unit := sys (fun _ f => (Ok tt, f)).
Definition open_dir (p : FPath) : IO (X := X) N := open_read p.

(** [for (index, line) in reader.lines().enumerate()]: one call for every item and
    one for the end of the file. *)
Section Lines.
Context {A : Type} (body : A -> nat -> Result string IoError -> M (World X) A).
Definition next_line (r : Result string IoError) : IO (X := X) string := sys (fun _ f => (r, f)).
Fixpoint lines_loop (ls : list string) (index : nat) (acc : A) : M (World X) A :=
  match ls with
  | [] =>
      last <- next_line (Ok "") ;
      match last with Ok _ => mret acc | Err e => body acc index (Err e) end
  | l :: ls' =>
      item <- next_line (Ok l) ;
      acc <- body acc index item ;
      lines_loop ls' (S index) acc
  end.
Definition for_lines (i : N) (acc : A) : M (World X) A :=
  w <- mget ;
  match content_of (fsys w) i with
  | Some content => lines_loop (lines (text_of content)) 0 acc
  | None => item <- next_line (Err EISDIR) ; body acc 0 item
  end.
End Lines.
End TextFiles.

(** ** Triples *)
Section Triples.
Context {X : Type} `{Platform} (c : Control) (T : Prop).
Implicit Types w : World X.

(** The clock shows a [u128]. *)
Definition timely w : Prop := forall k, (nanos w k < U128)%N.
Lemma timely_kin w w' : kin w w' -> timely w -> timely w'.
Proof. intros (_ & Hn). unfold timely. by rewrite Hn. Qed.
(** From a tree for which [I] holds, [m] returns a value and a tree for which [J]
    holds, or an error and a tree for which [E] holds.  [T] is what follows from
    trouble. *)
Definition yields {B} (I : Fs -> Prop) (m : M (World X) B) (J : B -> Fs -> Prop) (E : GfmError -> Fs -> Prop) : Prop :=
  forall w, (trouble c w -> T) -> honest w -> timely w -> I (fsys w) ->
  ens c w m (fun r w' => kin w w' /\ match r with Ok b => J b (fsys w') | Err e => E e (fsys w') end).

Lemma yields_weaken {B} I I' (m : M (World X) B) J J' E E' :
  yields I m J E -> (forall f, I' f -> I f) -> (forall b f, J b f -> J' b f) -> (forall e f, E e f -> E' e f) ->
  yields I' m J' E'.
Proof.
  intros Hm HI HJ HE w Hf Ho Hl Hw. eapply ens_weaken; [by apply Hm; auto|].
  intros [b|e] w' [Hk Hr]; split; auto.
Qed.
Lemma yields_pre {B} I I' (m : M (World X) B) J E : (forall f, I' f -> I f) -> yields I m J E -> yields I' m J E.
Proof. intros HI Hm. by eapply yields_weaken. Qed.
(** The precondition is a fact about one tree. *)
Lemma yields_at {B} (I : Fs -> Prop) (m : M (World X) B) J E :
  (forall f, I f -> yields (eq f) m J E) -> yields I m J E.
Proof. intros Hm w Hf Ho Hl Hw. by apply (Hm (fsys w) Hw w). Qed.
Lemma yields_ret {B} I (b : B) (J : B -> Fs -> Prop) E : (forall f, I f -> J b f) -> yields I (mret b) J E.
Proof. intros HJ w Hf Ho Hl Hw. apply ens_ret. split; [done|auto]. Qed.
Lemma yields_fail {B} I e (J : B -> Fs -> Prop) (E : GfmError -> Fs -> Prop) :
  (forall f, I f -> E e f) -> yields I (mfail e) J E.
Proof. intros HE w Hf Ho Hl Hw. apply ens_fail. split; [done|auto]. Qed.
Lemma yields_lift {B} I (r : Res B) (J : B -> Fs -> Prop) (E : GfmError -> Fs -> Prop) :
  (forall f, I f -> match r with Ok b => J b f | Err e => E e f end) -> yields I (mlift r) J E.
Proof. intros HJ w Hf Ho Hl Hw. apply ens_lift. split; [done|]. by apply HJ. Qed.
Lemma yields_get I (J : World X -> Fs -> Prop) E :
  (forall w, I (fsys w) -> J w (fsys w)) -> yields I mget J E.
Proof. intros HJ w Hf Ho Hl Hw. apply ens_get. split; [done|auto]. Qed.
Lemma yields_check (I : Fs -> Prop) (E : GfmError -> Fs -> Prop) :
  (forall e f, I f -> T -> E e f) -> yields I check_control (fun _ => I) E.
Proof. intros HE w Hf Ho Hl Hw. apply ens_check; [done|]. intros e Ht. split; [done|auto]. Qed.
Lemma yields_now I E : yields I now_nanos (fun n f => (n < U128)%N /\ I f) E.
Proof. intros w Hf Ho Hl Hw k. cbn. split; [done|]. split; [apply Hl|done]. Qed.
Lemma yields_bind {B C} I (m : M (World X) B) (k : B -> M (World X) C) J J' E :
  yields I m J E -> (forall b, yields (J b) (k b) J' E) -> yields I (mbind m k) J' E.
Proof.
  intros Hm Hk w Hf Ho Hl Hw. apply ens_bind. eapply ens_weaken; [by apply Hm|].
  intros [b|e] w1 [Hk1 Hr]; [|done].
  eapply ens_weaken; [apply (Hk b w1)|]; [|by eapply honest_kin|by eapply timely_kin|done|].
  - intros Ht. apply Hf. by eapply trouble_kin.
  - intros r w2 [Hk2 Hr2]. split; [by etrans|done].
Qed.
Lemma yields_attempt {B} I (m : M (World X) B) J E E' :
  yields I m J E -> yields I (attempt m) (fun r f => match r with Ok b => J b f | Err e => E e f end) E'.
Proof. intros Hm w Hf Ho Hl Hw. apply ens_attempt. eapply ens_weaken; [by apply Hm|]. by intros [b|e] w'. Qed.
Lemma yields_for {B C} (I : C -> list B -> Fs -> Prop) (body : C -> B -> M (World X) C) E l : forall acc,
  (forall acc x l', yields (I acc (x :: l')) (body acc x) (fun acc' => I acc' l') E) ->
  yields (I acc l) (mfor body acc l) (fun acc' => I acc' []) E.
Proof.
  induction l as [|x l IH]; intros acc Hb; simpl; [by apply yields_ret|].
  eapply yields_bind; [apply Hb|]. intros acc'. by apply IH.
Qed.
Lemma yields_or_io {B} I p (m : IO B) (J : B -> Fs -> Prop) (E : GfmError -> Fs -> Prop) :
  yields I m (fun r f => match r with Ok b => J b f | Err e => E (Io (show p) (err_text e)) f end) E ->
  yields I (or_io p m) J E.
Proof.
  intros Hm. eapply yields_bind; [exact Hm|]. intros [b|e]; [by apply yields_ret|by apply yields_fail].
Qed.
Lemma yields_sys {B} (I : Fs -> Prop) (act : Call -> Fs -> Result B IoError * Fs) (J : Result B IoError -> Fs -> Prop) E :
  (forall f e, I f -> T -> err_kind e <> NotFound -> J (Err e) f) ->
  (forall f cl, I f -> J (act cl f).1 (act cl f).2) ->
  yields I (sys act) J E.
Proof.
  intros He Ha w Hf Ho Hl Hw. apply ens_sys.
  - intros e w' (Hk & _ & ->) Hfault. split; [done|]. apply He; [done| |by apply Ho].
    eapply Hf, fault_trouble, Hfault.
  - intros cl w' (Hk & _ & ->) _ _. auto.
  - intros cl w' (Hk & _ & ->) _. auto.
Qed.
Lemma yields_look {B} (I : Fs -> Prop) (g : Call -> Fs -> Result B IoError) E :
  yields I (sys (fun cl f => (g cl f, f)))
    (fun r f => I f /\ ((exists cl, r = g cl f) \/ exists e, r = Err e /\ T /\ err_kind e <> NotFound)) E.
Proof.
  apply yields_sys.
  - intros f e Hf HT Hn. split; [done|]. right. by exists e.
  - intros f cl Hf. split; [done|]. left. by exists cl.
Qed.
Lemma yields_keeps {B} A D f0 (m : M (World X) B) P (J : B -> Fs -> Prop) (E : GfmError -> Fs -> Prop) :
  keeps c A D f0 m P -> (forall b f, inv A D f0 f -> P b -> J b f) -> (forall e f, inv A D f0 f -> E e f) ->
  yields (inv A D f0) m J E.
Proof.
  intros Hm HJ HE w Hf Ho Hl Hw. eapply ens_weaken; [by apply Hm|]. intros [b|e] w' (Hk & Hw' & Hr); (split; [done|]).
  - by apply HJ; [|apply Hr].
  - by apply HE.
Qed.
Lemma yields_run {B} I (m : M (World X) B) J E w r w' : yields I m J E -> (trouble c w -> T) -> honest w -> timely w -> I (fsys w) ->
  run m c w = (r, w') -> match r with Ok b => J b (fsys w') | Err e => E e (fsys w') end.
Proof. intros Hm Hf Ho Hl Hw Hrun. by apply (ens_run c w _ _ _ _ (Hm w Hf Ho Hl Hw)). Qed.
(** A result of a triple and a frame. *)
Lemma yields_and {B} I I' (m : M (World X) B) J J' E E' : yields I m J E -> yields I' m J' E' ->
  yields (fun f => I f /\ I' f) m (fun b f => J b f /\ J' b f) (fun e f => E e f /\ E' e f).
Proof.
  intros Hm Hm' w Hf Ho Hl [Hw Hw']. eapply ens_weaken; [apply ens_and; [by apply Hm|by apply Hm']|].
  intros [b|e] w' [[Hk Hr] [_ Hr']]; done.
Qed.
End Triples.

(** ** The calls on text files *)
Lemma text_of_bytes s : text_of (text_bytes s) = s.
Proof. apply String.string_of_list_ascii_of_string. Qed.
Lemma text_bytes_app s t : text_bytes (s +:+ t) = text_bytes s ++ text_bytes t.
Proof. induction s as [|a s IH]; [done|]. change (a :: text_bytes (s +:+ t) = a :: (text_bytes s ++ text_bytes t)). by rewrite IH. Qed.

Lemma content_inode f i b : content_of f i = Some b <-> exists n, inodes f !! i = Some n /\ shape n = ShFile b.
Proof.
  unfold content_of. destruct (inodes f !! i) as [n|]; cbn; [|by split; [|intros (? & ? & _)]].
  split; [intros Hs; exists n; split; [done|]; by destruct (shape n); simplify_eq|].
  intros (? & [= <-] & ->). done.
Qed.
Lemma content_at f p i b : names f !! p = Some i -> content_of f i = Some b <-> shape_at f p = Some (ShFile b).
Proof.
  intros Hp. rewrite content_inode, shape_at_Some. split.
  - intros (n & Hn & Hs). by exists i, n.
  - intros (j & n & Hj & Hn & Hs). exists n. split; [congruence|done].
Qed.
Lemma put_content_wf f i b d : wf f -> content_of f i = Some b -> wf (put_content i d f).
Proof.
  intros Hf (n & Hn & Hs)%content_inode. unfold put_content. rewrite Hn.
  eapply wf_put_inode; [done|done|]. by rewrite Hs.
Qed.
Lemma put_content_at f i b d q : content_of f i = Some b ->
  shape_at (put_content i d f) q = if decide (names f !! q = Some i) then Some (ShFile d) else shape_at f q.
Proof. intros (n & Hn & Hs)%content_inode. unfold put_content. rewrite Hn. apply shape_at_put_inode. Qed.
Lemma put_content_get f i b d : content_of f i = Some b -> content_of (put_content i d f) i = Some d.
Proof.
  intros (n & Hn & Hs)%content_inode. unfold put_content. rewrite Hn. unfold content_of, put_inode. cbn.
  by rewrite lookup_insert_eq.
Qed.
Lemma put_content_names f i d : names (put_content i d f) = names f.
Proof. unfold put_content. by destruct (inodes f !! i). Qed.
Lemma put_content_same f i b : content_of f i = Some b -> put_content i b f = f.
Proof.
  intros (n & Hn & Hs)%content_inode. unfold put_content. rewrite Hn. destruct n as [s a], f. cbn in *. subst.
  unfold put_inode. cbn. f_equal. by apply insert_id.
Qed.
Lemma put_content_twice f i b d : content_of f i = Some b ->
  forall d', put_content i d' (put_content i d f) = put_content i d' f.
Proof.
  intros (n & Hn & Hs)%content_inode d'. unfold put_content. rewrite Hn. unfold put_inode at 1. cbn.
  rewrite lookup_insert_eq. unfold put_inode. cbn. by rewrite insert_insert_eq.
Qed.

Lemma splice_at_end (b d : bytes) : splice b (length b) d = b ++ d.
Proof.
  unfold splice. rewrite Nat.sub_diag, app_nil_r, firstn_all, skipn_all2 by lia. by rewrite app_nil_r.
Qed.

Definition at_text (f : Fs) (p : FPath) (s : string) : Prop := shape_at f p = Some (ShFile (text_bytes s)).

Section TextTriples.
Context {X : Type} `{Platform} (c : Control) (T : Prop).
Abbreviation yields := (yields (X := X) c T).

Lemma open_act_file kept f p i b : wf f -> names f !! p = Some i -> content_of f i = Some b ->
  open_act kept p f = (Ok i, put_content i (kept b) f).
Proof.
  intros Hf Hp Hb. unfold open_act. pose proof Hb as (n & Hn & Hs)%content_inode.
  assert (Hc : creation_path MAXSYMLINKS f p = Ok p).
  { cbn. apply content_at with (p := p) in Hb; [|done]. by rewrite Hb. }
  rewrite Hc. assert (Hl : lookup_inode f p = Some (i, n)) by by apply lookup_inode_Some. rewrite Hl, Hs.
  by destruct (parent p).
Qed.
Lemma open_act_new kept f p : wf f -> names f !! p = None -> placed f p ->
  open_act kept p f = (Ok (next_inode f), attach p (mkInode (ShFile []) (initial_attrs f p (ShFile []))) f).
Proof.
  intros Hf Hp (d & Hd & Hs). unfold open_act.
  assert (Hn : shape_at f p = None) by by apply shape_at_None.
  assert (Hc : creation_path MAXSYMLINKS f p = Ok p) by (cbn; by rewrite Hn). rewrite Hc.
  unfold lookup_inode. rewrite Hp. cbn. by rewrite Hd, Hs.
Qed.
Lemma attach_content f p n : content_of (attach p n f) (next_inode f) = match shape n with ShFile b => Some b | _ => None end.
Proof. unfold content_of, attach. cbn. by rewrite lookup_insert_eq. Qed.

Lemma yields_append_bytes f i b d E : content_of f i = Some b ->
  yields (eq f) (append_bytes i d)
    (fun r f' => match r with
                 | Ok _ => f' = put_content i (b ++ d) f
                 | Err _ => T /\ exists t, t `prefix_of` d /\ f' = put_content i (b ++ t) f
                 end) E.
Proof.
  intros Hb w Hf Ho Hl Hw k. subst f. unfold append_bytes, write_all, call, mbind, mget. cbn -[splice put_content content_of].
  unfold file_length_now. rewrite Hb. cbn -[splice put_content content_of].
  destruct (fails (schedule w (calls w))) as [e|] eqn:Ef; cbn -[splice put_content content_of].
  - rewrite Hb. cbn -[splice put_content content_of]. split; [done|]. split.
    + apply Hf. right. left. by exists (calls w), e.
    + eexists. split; [|by rewrite splice_at_end]. eexists. symmetry. apply take_drop.
  - rewrite Hb. cbn -[splice put_content content_of]. split; [done|]. by rewrite splice_at_end.
Qed.
Lemma yields_append_text f i b s E : content_of f i = Some b ->
  yields (eq f) (append_text i s)
    (fun r f' => match r with
                 | Ok _ => f' = put_content i (b ++ text_bytes s) f
                 | Err _ => T /\ exists t, t `prefix_of` text_bytes s /\ f' = put_content i (b ++ t) f
                 end) E.
Proof. apply yields_append_bytes. Qed.
Lemma yields_quiet {B} I (a : B) E : yields I (sys (fun _ f => (Ok a, f)))
  (fun r f => I f /\ match r with Ok b => b = a | Err _ => T end) E.
Proof. apply yields_sys; [done|]. done. Qed.

Lemma yields_or_quiet {B} I q (a : B) (E : GfmError -> Fs -> Prop) : (forall e f, I f -> T -> E e f) ->
  yields I (or_io q (sys (fun _ f => (Ok a, f)))) (fun _ => I) E.
Proof.
  intros HE. apply yields_or_io, yields_sys; [|done]. intros f e Hf HT _. by apply HE.
Qed.

(** The directories are there already. *)
Lemma yields_create_dirs todo (I : Fs -> Prop) E : forall p,
  (forall f, I f -> wf f /\ shape_at f (p ++ todo) = Some ShDir) ->
  yields I (create_dirs p todo) (fun r f => I f /\ match r with Ok _ => True | Err _ => T end) E.
Proof.
  induction todo as [|n todo IH]; intros p HI; cbn [create_dirs]; [by apply yields_ret|].
  assert (HI' : forall f, I f -> wf f /\ shape_at f (join p n ++ todo) = Some ShDir).
  { intros f Hf. unfold join. rewrite <- app_assoc. by apply HI. }
  assert (Hd : forall f, I f -> shape_at f (join p n) = Some ShDir).
  { intros f [Hf Hs]%HI'. destruct todo as [|m todo]; [by rewrite app_nil_r in Hs|].
    eapply wf_above; [done| |by eapply shape_at_names]. done. }
  eapply yields_bind with (J := fun r f => I f /\ match r with Ok _ => False | Err e => True end).
  - apply yields_sys; [done|]. intros f cl Hf. split.
    + destruct (shape_at_names _ _ _ (Hd f Hf)) as [i Hi]. by rewrite Hi.
    + destruct (shape_at_names _ _ _ (Hd f Hf)) as [i Hi]. by rewrite Hi.
  - intros [i|e]; [by apply (yields_pre _ _ (fun _ => False)); [intros f []|intros w ??? []]|].
    eapply yields_bind with (J := fun w f => I f /\ fsys w = f); [apply yields_get; by intros w []|].
    intros w. apply yields_at. intros f [Hf Hw]. rewrite decide_True by (rewrite Hw; by apply Hd).
    eapply yields_pre; [|by apply IH]. by intros ? <-.
Qed.

(** *** Lines *)
Lemma yields_lines_loop {A} (Inv : A -> nat -> list string -> Fs -> Prop) body E ls : forall acc k,
  (forall acc k l ls', yields (Inv acc k (l :: ls')) (body acc k (Ok l)) (fun acc' => Inv acc' (S k) ls') E) ->
  (forall acc k ls' e, T -> yields (Inv acc k ls') (body acc k (Err e)) (fun _ _ => False) E) ->
  yields (Inv acc k ls) (lines_loop body ls k acc) (fun acc' f => exists k', Inv acc' k' [] f) E.
Proof.
  induction ls as [|l ls IH]; intros acc k Hb He; cbn [lines_loop];
    (eapply yields_bind; [apply (yields_quiet _ _ E)|]; intros [l'|e]).
  - apply yields_ret. intros f [Hf _]. by exists k.
  - apply yields_at. intros f [Hf HT]. eapply yields_weaken; [by apply (He acc k [] e HT)|by intros ? <-|done|done].
  - eapply yields_bind; [|intros acc'; by apply (IH acc' (S k))].
    apply yields_at. intros f [Hf ->]. eapply yields_pre; [|apply Hb]. by intros ? <-.
  - eapply yields_bind with (J := fun _ _ => False); [|intros acc' w ??? []].
    apply yields_at. intros f [Hf HT]. eapply yields_weaken; [by apply (He acc k (l :: ls) e HT)|by intros ? <-|done|done].
Qed.
Lemma yields_for_lines {A} (I : Fs -> Prop) (Inv : A -> nat -> list string -> Fs -> Prop) body E i s acc :
  (forall f, I f -> content_of f i = Some (text_bytes s) /\ Inv acc 0 (lines s) f) ->
  (forall acc k l ls', yields (Inv acc k (l :: ls')) (body acc k (Ok l)) (fun acc' => Inv acc' (S k) ls') E) ->
  (forall acc k ls' e, T -> yields (Inv acc k ls') (body acc k (Err e)) (fun _ _ => False) E) ->
  yields I (for_lines body i acc) (fun acc' f => exists k, Inv acc' k [] f) E.
Proof.
  intros HI Hb He. unfold for_lines.
  eapply yields_bind with (J := fun w f => I f /\ fsys w = f); [apply yields_get; by intros w|].
  intros w. apply yields_at. intros f [Hf Hw]. destruct (HI f Hf) as [Hc Hi]. rewrite Hw, Hc, text_of_bytes.
  eapply yields_pre; [|by apply (yields_lines_loop Inv)]. by intros ? <-.
Qed.
End TextTriples.

(** ** Computations that leave the tree alone *)
Section Quiet.
Context {X : Type} `{Platform}.
Implicit Types w : World X.
Definition quiet {A} (m : M (World X) A) : Prop := forall c k w, let w' := (m c k w).2 in kin w w' /\ fsys w' = fsys w.

Lemma quiet_ret {A} (a : A) : quiet (mret a).
Proof. done. Qed.
Lemma quiet_fail {A} e : quiet (mfail (A := A) e).
Proof. done. Qed.
Lemma quiet_lift {A} (r : Res A) : quiet (mlift r).
Proof. done. Qed.
Lemma quiet_get : quiet mget.
Proof. done. Qed.
Lemma quiet_gets {A} (g : World X -> A) : quiet (mgets g).
Proof. done. Qed.
Lemma quiet_check : quiet check_control.
Proof. intros c k w. unfold check_control. by destruct (c k). Qed.
Lemma quiet_now : quiet now_nanos.
Proof. done. Qed.
Lemma quiet_modify g : (forall w, kin w (g w) /\ fsys (g w) = fsys w) -> quiet (mmodify g).
Proof. intros Hg c k w. apply Hg. Qed.
Lemma quiet_look {A} (g : Call -> Fs -> Result A IoError) : quiet (sys (fun cl f => (g cl f, f))).
Proof. intros c k w. unfold sys, call, mbind. cbn. by destruct (fails (schedule w (calls w))). Qed.
Lemma quiet_bind {A B} (m : M (World X) A) (k : A -> M (World X) B) : quiet m -> (forall a, quiet (k a)) -> quiet (mbind m k).
Proof.
  intros Hm Hk c n w. unfold mbind. specialize (Hm c n w). destruct (m c n w) as [[[a|e] n'] w']; cbn in *; [|done].
  destruct Hm as [Hk1 Hf1], (Hk a c n' w') as [Hk2 Hf2]. split; [by etrans|congruence].
Qed.
Lemma quiet_attempt {A} (m : M (World X) A) : quiet m -> quiet (attempt m).
Proof. intros Hm c k w. specialize (Hm c k w). unfold attempt. by destruct (m c k w) as [[r k'] w']. Qed.
Lemma quiet_for {A B} (body : B -> A -> M (World X) B) l : forall acc, (forall acc x, quiet (body acc x)) -> quiet (mfor body acc l).
Proof.
  induction l as [|x l IH]; intros acc Hb; simpl; [apply quiet_ret|]. apply quiet_bind; [apply Hb|]. intros a. by apply IH.
Qed.
Lemma quiet_or_io {A} p (m : IO (X := X) A) : quiet m -> quiet (or_io p m).
Proof. intros Hm. apply quiet_bind; [done|]. intros [a|e]; [apply quiet_ret|apply quiet_fail]. Qed.
End Quiet.
Create HintDb quiet.
#[export] Hint Resolve quiet_ret quiet_fail quiet_lift quiet_get quiet_gets quiet_check quiet_now quiet_look
  quiet_attempt quiet_or_io : quiet.
Ltac quiet_auto :=
  repeat match goal with
  | |- forall _, _ => intro
  | |- quiet (mbind _ _) => apply quiet_bind
  | |- quiet (mfor _ _ _) => apply quiet_for
  | |- quiet (let _ := _ in _) => cbv zeta
  | |- quiet (match ?x with _ => _ end) => destruct x
  | |- quiet _ => solve [eauto with quiet]
  end.

(** ** Computations that only look *)
Section Looks.
Context {X : Type} `{Platform} (c : Control) (T : Prop).
Abbreviation yields := (yields (X := X) c T).
(** Where nothing changes, an error is trouble. *)
Abbreviation looks m J := (fun f => yields (eq f) m (fun b f' => J b /\ f = f') (fun _ f' => T /\ f = f')).
Lemma looks_check f : looks check_control (fun _ => True) f.
Proof.
  eapply yields_weaken; [apply (yields_check c T (eq f) (fun _ f' => T /\ f = f'))|done| |done]; [|by intros [] f' <-].
  intros e f' <- HT. done.
Qed.
Lemma looks_bind {A B} f (m : M (World X) A) (k : A -> M (World X) B) (J : A -> Prop) (J' : B -> Prop) :
  looks m J f -> (forall a, J a -> looks (k a) J' f) -> looks (mbind m k) J' f.
Proof.
  intros Hm Hk. eapply yields_bind; [exact Hm|]. intros a. apply yields_at. intros ? [Ha <-]. by apply Hk.
Qed.
Lemma looks_ret {A} f (a : A) (J : A -> Prop) : J a -> looks (mret a) J f.
Proof. intros Ha. by apply yields_ret. Qed.
Lemma looks_call {A} f (g : Call -> Fs -> Result A IoError) (J : Result A IoError -> Prop) :
  (forall cl, J (g cl f)) -> (forall e, T -> err_kind e <> NotFound -> J (Err e)) -> looks (sys (fun cl f => (g cl f, f))) J f.
Proof. intros Hg He. apply yields_sys; [intros f2 e <-; auto|]. intros f2 cl <-. split; [apply Hg|done]. Qed.
Lemma looks_or_io {A} f q (m : IO A) (J : A -> Prop) :
  looks m (fun r => match r with Ok a => J a | Err _ => T end) f -> looks (or_io q m) J f.
Proof.
  intros Hm. eapply looks_bind; [exact Hm|]. intros [a|e] Ha; [by apply looks_ret|]. apply yields_fail; by intros ? <-.
Qed.

Lemma looks_then {A B} f (m : M (World X) A) (k : A -> M (World X) B) (J : A -> Prop) (J' : B -> Fs -> Prop) (E : GfmError -> Fs -> Prop) :
  looks m J f -> (forall a, J a -> yields (eq f) (k a) J' E) -> (forall e, T -> E e f) -> yields (eq f) (mbind m k) J' E.
Proof.
  intros Hm Hk HE. eapply yields_bind with (J := fun a f' => J a /\ f = f').
  - eapply yields_weaken; [exact Hm|done|done|]. intros e f' [HT <-]. by apply HE.
  - intros a. apply yields_at. intros ? [Ha <-]. by apply Hk.
Qed.
(** From a computation known to leave the tree alone, and its result. *)
Lemma looks_quiet {A} f (m : M (World X) A) (J : A -> Prop) : quiet m ->
  (forall w, fsys w = f -> honest w -> timely w -> (trouble c w -> T) ->
     ens c w m (fun r _ => match r with Ok a => J a | Err _ => T end)) -> looks m J f.
Proof.
  intros Hq Hm w Hf Ho Hl Hw k. specialize (Hm w (eq_sym Hw) Ho Hl Hf k). destruct (Hq c k w) as [Hk Hfs].
  destruct (m c k w) as [[[a|e] k'] w']; cbn in *; (split; [done|]); (split; [done|congruence]).
Qed.
End Looks.
Abbreviation looks c T m J f := (yields c T (eq f) m (fun b f' => J b /\ f = f') (fun _ f' => T /\ f = f')) (only parsing).
