(* ===== verification/Publish.v ===== *)
(** * Publishing a file

    A file is written to a temporary one next to it, which is then renamed to it:
    the trash metadata ([trashmeta.rs]) and the archives of the store
    ([durable.rs]) do so.  What the steps of that leave in the tree, for any way of
    naming the temporary files. *)
From Stdlib Require Import Ascii.
From S2P Require Import Prelude Types Text Control FileSystem FileFacts TextFiles.
#[local] Open Scope list_scope.

(** Names for temporary files: next to the file, and not the file. *)
Definition siblings (p : FPath) (temp : N -> FPath) : Prop :=
  forall n d, parent p = Some d -> parent (temp n) = Some d /\ temp n <> p /\ temp n <> [].

(** A dot, the name, and more. *)
Lemma dotted_siblings p fallback (suffix : N -> string) :
  siblings p (fun n => FileSystem.join (default [] (parent p)) ("." +:+ default fallback (file_name p) +:+ suffix n)).
Proof.
  intros n d Hd. rewrite Hd. cbn [default]. destruct (parent_Some _ _ Hd) as (m & Hp).
  assert (Hf : file_name p = Some m) by (rewrite Hp; unfold file_name, FileSystem.join; by rewrite last_snoc).
  rewrite Hf. cbn [default]. split; [apply parent_join|]. split; [|by destruct d].
  rewrite Hp. unfold FileSystem.join. intros E%app_inj_2; [|done]. destruct E as [_ [= E]].
  apply (f_equal String.length) in E. cbn in E. rewrite !length_append in E. cbn in E. lia.
Qed.

Section Publish.
Context `{Platform} (p : FPath) (temporary_path : N -> FPath) (Htemp : siblings p temporary_path).

Definition temporary (q : FPath) : Prop := exists n, q = temporary_path n.
Lemma app_self_nil (q rel : FPath) : q ++ rel = q -> rel = [].
Proof. intros E. apply (f_equal length) in E. rewrite length_app in E. destruct rel; [done|cbn in E; lia]. Qed.
(** Where the file can be read or made, with every temporary name free. *)
Definition writable (f : Fs) : Prop :=
  wf f /\ placed f p /\ (forall n, names f !! temporary_path n = None) /\
  match shape_at f p with Some (ShFile _) | None => True | _ => False end.
Definition touches (q : FPath) : Prop := q = p \/ temporary q.
Definition own (q : FPath) : Prop := q = p.
(** From [f] to [f'], nothing but the file has changed, and it has the bytes. *)
Definition published (s : bytes) (f f' : Fs) : Prop := writable f' /\ shape_at f' p = Some (ShFile s) /\ changes touches own f f'.
(** The write failed: the file is as it was, or as [P] says. *)
Definition unsettled (P : option Shape -> Prop) (f f' : Fs) : Prop :=
  wf f' /\ changes touches own f f' /\ (shape_at f' p = shape_at f p \/ P (shape_at f' p)).

Lemma temporary_sibling n d : parent p = Some d ->
  parent (temporary_path n) = Some d /\ temporary_path n <> p /\ temporary_path n <> [].
Proof. apply Htemp. Qed.

Lemma writable_parent f : writable f -> exists d, parent p = Some d /\ shape_at f d = Some ShDir.
Proof. by intros (_ & Hd & _). Qed.

(** The temporary file with the text [t]. *)
Definition draft (f : Fs) (temp : FPath) (t : bytes) : Fs :=
  put_content (next_inode f) t (attach temp (mkInode (ShFile []) (initial_attrs f temp (ShFile []))) f).
Lemma draft_content f temp t : content_of (draft f temp t) (next_inode f) = Some t.
Proof. eapply put_content_get. by rewrite attach_content. Qed.
Lemma draft_put f temp t t' : put_content (next_inode f) t' (draft f temp t) = draft f temp t'.
Proof. unfold draft. eapply put_content_twice. by rewrite attach_content. Qed.
Lemma draft_names f temp t : names (draft f temp t) = <[temp := next_inode f]> (names f).
Proof. unfold draft. by rewrite put_content_names. Qed.
Lemma draft_at f temp t q : wf f ->
  shape_at (draft f temp t) q = if decide (q = temp) then Some (ShFile t) else shape_at f q.
Proof.
  intros Hf. unfold draft. erewrite put_content_at by by rewrite attach_content.
  rewrite shape_at_attach by done. cbn. destruct (decide (q = temp)) as [->|Hq].
  - by rewrite lookup_insert_eq, decide_True.
  - rewrite lookup_insert_ne by done. rewrite decide_False; [done|]. intros E.
    destruct (wf_inode f Hf q _ E) as [n Hn]. assert (next_inode f < next_inode f)%N by (apply (wf_next f Hf); by exists n). lia.
Qed.
Lemma draft_inv f n t : writable f -> inv touches own f (draft f (temporary_path n) t).
Proof.
  intros (Hf & (d & Hd & Hs) & Hfree & _). destruct (temporary_sibling n d Hd) as (Hpar & _ & _).
  apply inv_content.
  - eapply inv_attach; [split; [done|apply changes_refl]|apply Hfree|done|done|]. right. by exists n.
  - apply eq_None_not_Some. intros Hi. pose proof (wf_next f Hf _ Hi). lia.
  - by rewrite attach_content.
Qed.
(** What the rename of the draft gives. *)
Lemma draft_renamed f n t : writable f ->
  rename_act (temporary_path n) p (draft f (temporary_path n) t) =
    (Ok tt, moved (temporary_path n) p (draft f (temporary_path n) t)).
Proof.
  intros Hr. pose proof Hr as (Hf & (d & Hd & Hs) & Hfree & Hp). destruct (temporary_sibling n d Hd) as (Hpar & Hne & Hnr).
  set (temp := temporary_path n) in *. unfold rename_act.
  assert (Ht : shape_at (draft f temp t) temp = Some (ShFile t)) by (rewrite draft_at by done; by rewrite decide_True).
  pose proof Ht as (i & m & Hi & Hm & Hsh)%shape_at_Some.
  assert (Hl : lookup_inode (draft f temp t) temp = Some (i, m)) by by apply lookup_inode_Some.
  rewrite Hl, Hd, draft_at by done.
  assert (Hdt : d <> temp). { intros ->. rewrite <- Hpar in Hd. destruct (parent_Some _ _ Hpar) as [k E].
    apply (f_equal length) in E. unfold FileSystem.join in E. rewrite length_app in E. cbn in E. lia. }
  rewrite (decide_False (P := d = temp)) by done. rewrite Hs.
  rewrite draft_names in Hi |- *. rewrite lookup_insert_eq in Hi. injection Hi as <-.
  rewrite lookup_insert_ne by done. rewrite decide_False.
  2:{ intros E. destruct (wf_inode f Hf p _ E) as [k Hk]. assert (next_inode f < next_inode f)%N by (apply (wf_next f Hf); by exists k). lia. }
  rewrite decide_False by done. rewrite decide_False.
  2:{ intros Hu. destruct (parent_Some _ _ Hd) as [a Ea], (parent_Some _ _ Hpar) as [b Eb]. apply Hne.
      rewrite Ea, Eb in *. destruct Hu as [k Hk]. assert (k = []) as ->.
      { apply (f_equal length) in Hk. unfold FileSystem.join in Hk. rewrite !length_app in Hk. destruct k; [done|cbn in Hk; lia]. }
      by rewrite app_nil_r in Hk. }
  rewrite Hsh, draft_at by done. rewrite decide_False by done. destruct (shape_at f p) as [[]|]; done.
Qed.

Lemma moved_draft_at f n t q : writable f ->
  shape_at (moved (temporary_path n) p (draft f (temporary_path n) t)) q =
    if decide (q = p) then Some (ShFile t) else shape_at f q.
Proof.
  intros Hr. pose proof Hr as (Hf & (d & Hd & Hs) & Hfree & Hp). destruct (temporary_sibling n d Hd) as (Hpar & Hne & Hnr).
  set (temp := temporary_path n) in *. rewrite shape_at_moved. pose proof (draft_inv f n t Hr) as [Hwf _]. fold temp in Hwf.
  assert (Hleaf : forall r rel, rel <> [] -> match shape_at f r with Some (ShFile _) | None => True | _ => False end ->
    names f !! (r ++ rel) = None).
  { intros r rel Hrel Hr'. apply eq_None_not_Some. intros Hi. by rewrite (wf_above f r rel Hf Hrel Hi) in Hr'. }
  assert (Ht : shape_at f temp = None) by (apply shape_at_None; [done|apply Hfree]).
  destruct (below p q) as [rel|] eqn:Eb.
  - apply below_Some in Eb as ->. destruct (decide (rel = [])) as [->|Hrel].
    + rewrite !app_nil_r, draft_at by done. rewrite !decide_True by done. done.
    + rewrite draft_at by done. rewrite (decide_False (P := temp ++ rel = temp)).
      2:{ intros E%app_self_nil. done. }
      rewrite decide_False by (intros E%app_self_nil; done).
      rewrite !(proj2 (shape_at_None _ _ Hf)); [done| |]; apply Hleaf; rewrite ?Ht; done.
  - rewrite (decide_False (P := q = p)).
    2:{ intros ->. by rewrite below_self in Eb. }
    case_decide as Hu; [|by rewrite draft_at, decide_False by (done || (intros ->; by apply Hu, under_refl))].
    destruct Hu as [rel ->]. destruct (decide (rel = [])) as [->|Hrel]; [by rewrite app_nil_r|].
    symmetry. apply shape_at_None; [done|]. apply Hleaf; by rewrite ?Ht.
Qed.
Lemma moved_draft_published f n s : writable f ->
  published s f (moved (temporary_path n) p (draft f (temporary_path n) s)).
Proof.
  intros Hr. pose proof Hr as (Hf & (d & Hd & Hs) & Hfree & Hp). destruct (temporary_sibling n d Hd) as (Hpar & Hne & Hnr).
  destruct (draft_inv f n s Hr) as [Hwf Hch].
  set (f' := moved _ _ _). assert (Hat : forall q, shape_at f' q = if decide (q = p) then Some (ShFile s) else shape_at f q)
    by (intros q; by apply moved_draft_at).
  assert (Hd' : d <> p). { intros ->. destruct (parent_Some _ _ Hd) as [k E]. apply (f_equal length) in E.
    unfold FileSystem.join in E. rewrite length_app in E. cbn in E. lia. }
  assert (Hwf' : wf f').
  { destruct (parent_Some _ _ Hd) as [k Ek]. unfold f'. rewrite Ek. apply wf_moved; [done| |].
    - rewrite draft_at by done. rewrite decide_False; [done|]. intros E. destruct (parent_Some _ _ Hpar) as [m Em].
      rewrite E in Em. apply (f_equal length) in Em. unfold FileSystem.join in Em. rewrite length_app in Em. cbn in Em. lia.
    - rewrite <- Ek. intros Hu. destruct (parent_Some _ _ Hpar) as [m Em]. apply Hne. rewrite Em, Ek in *.
      destruct Hu as [r Hu]. assert (r = []) as ->.
      { apply (f_equal length) in Hu. unfold FileSystem.join in Hu. rewrite !length_app in Hu. destruct r; [done|cbn in Hu; lia]. }
      by rewrite app_nil_r in Hu. }
  split; [|split].
  - split; [done|]. split; [exists d; split; [done|]; by rewrite Hat, decide_False|]. split.
    + intros m. apply shape_at_None; [done|]. destruct (temporary_sibling m d Hd) as (_ & Hm & _).
      rewrite Hat, decide_False by done. by apply shape_at_None.
    + by rewrite Hat, decide_True.
  - by rewrite Hat, decide_True.
  - apply changes_moved; [done| |].
    + intros q [Hq|Hq].
      * left. eapply wf_absent; [done|apply Hfree|exact Hq].
      * destruct (decide (q = p)) as [->|Hqp]; [by right|left].
        apply shape_at_None; [done|]. destruct (shape_at f p) as [sh|] eqn:E.
        { apply shape_at_None; [done|]. eapply (wf_leaf f p q sh); [done..| |done|congruence]. intros ->. done. }
        apply shape_at_None; [done|]. eapply wf_absent; [done| |exact Hq]. by apply shape_at_None.
    + intros rel Hi. destruct (decide (rel = [])) as [->|Hrel]; [left; by rewrite app_nil_r|]. exfalso.
      apply (wf_above _ _ _ Hwf Hrel) in Hi. rewrite draft_at, decide_True in Hi by done. done.
Qed.
Lemma draft_unsettled f n t P : writable f -> unsettled P f (draft f (temporary_path n) t).
Proof.
  intros Hr. destruct (draft_inv f n t Hr) as [Hwf Hch]. split; [done|]. split; [done|]. left.
  pose proof Hr as (Hf & (d & Hd & _) & _). destruct (temporary_sibling n d Hd) as (_ & Hne & _).
  by rewrite draft_at, decide_False by done.
Qed.
Lemma published_unsettled s f f' : published s f f' -> unsettled (fun sh => sh = Some (ShFile s)) f f'.
Proof. intros ((Hf & _) & Ht & Hc). split; [done|]. split; [done|by right]. Qed.
Lemma writable_unsettled P f : writable f -> unsettled P f f.
Proof. intros (Hf & _). split; [done|]. split; [apply changes_refl|by left]. Qed.
(** The cleanup. *)
Lemma unsettled_cut P f f' n : writable f -> unsettled P f f' ->
  (exists sh, shape_at f' (temporary_path n) = Some sh /\ sh <> ShDir) ->
  unsettled P f (prune (fun q => q <> temporary_path n) f').
Proof.
  intros (Hf & (d & Hd & _) & Hfree & _) (Hwf & Hc & Hs) (sh & Hsh & Hn).
  destruct (temporary_sibling n d Hd) as (_ & Hne & _). split; [|split].
  - apply wf_prune; [done| |].
    + intros E. rewrite <- E in Hsh. rewrite (wf_root f' Hwf) in Hsh. congruence.
    + intros q m _ Hm ->. apply (wf_parent f' Hwf) in Hm. congruence.
  - apply changes_prune; [done|]. intros q Hq. apply dec_stable in Hq as ->. left. apply Hfree.
  - by rewrite !shape_at_prune, !decide_True by congruence.
Qed.


(** *** The calls *)
Section Calls.
Context {X : Type} (c : Control) (T : Prop).
Abbreviation yields := (yields (X := X) c T).

Lemma yields_remove_temp P f n : writable f ->
  yields (unsettled P f) (remove_file (temporary_path n)) (fun _ => unsettled P f) (fun _ _ => False).
Proof.
  intros Hr. apply yields_sys; [done|]. intros f' cl Hu.
  destruct (shape_at f' (temporary_path n)) as [[]|] eqn:E; cbn; try done;
    (apply unsettled_cut; [done|done|by eexists]).
Qed.
(** [File::create] of a temporary name. *)
Lemma yields_create_draft f n (E : GfmError -> Fs -> Prop) : writable f -> (forall e, T -> E e f) ->
  yields (eq f) (or_io (temporary_path n) (create_file (temporary_path n)))
    (fun i f' => i = next_inode f /\ f' = draft f (temporary_path n) []) E.
Proof.
  intros Hr HE. pose proof Hr as (Hf & (d & Hd & Hs) & Hfree & Hp). destruct (temporary_sibling n d Hd) as (Hpar & Hne & Hnr).
  apply yields_or_io, yields_sys; [intros f' e <- HT _; by apply HE|].
  intros f' cl <-. rewrite open_act_new; [|done|apply Hfree|by exists d]. cbn. split; [done|].
  unfold draft. symmetry. apply put_content_same. by rewrite attach_content.
Qed.
(** The rename that publishes the draft. *)
Lemma yields_publish f n s (E : GfmError -> Fs -> Prop) : writable f -> (forall e, T -> E e (draft f (temporary_path n) s)) ->
  yields (eq (draft f (temporary_path n) s)) (or_io p (rename (temporary_path n) p)) (fun _ => published s f) E.
Proof.
  intros Hr HE. apply yields_or_io, yields_sys; [intros f' e <- HT _; by apply HE|].
  intros f' cl <-. rewrite draft_renamed by done. by apply moved_draft_published.
Qed.
(** The end of it: a failure removes the draft. *)
Lemma yields_settle {A B} (k : A -> B) P f n s (r : Res A) : writable f ->
  yields (fun f' => match r with Ok _ => published s f f' | Err _ => T /\ unsettled P f f' end)
    (match r with Ok a => mret (k a) | Err e => remove_file (temporary_path n) ;; mfail e end)
    (fun b f' => (exists a, r = Ok a /\ b = k a) /\ published s f f') (fun _ f' => T /\ unsettled P f f').
Proof.
  intros Hr. destruct r as [a|e]; [apply yields_ret; intros f' ?; split; [by exists a|done]|]. apply yields_at. intros f1 [HT Hu].
  eapply yields_bind; [eapply yields_weaken; [by apply (yields_remove_temp P f n)|by intros ? <-|done|done]|].
  intros r. by apply yields_fail.
Qed.
End Calls.
End Publish.
