(* ===== verification/OpModel.v ===== *)
(** * File operations: their data ([crates/ops])

    Operations, conflict policies, the access gate, the copy policy of volumes and
    the tracker of progress.  A computation of this crate works on the world of
    [FileSystem] extended with the tracker, the events it has emitted and the hard
    links a copy has met; its polls are those of the cancellation and the pause
    flag together. *)
From Stdlib Require Import Ascii.
From S2P Require Import Prelude Types Text Control FileSystem.
#[local] Open Scope string_scope.
#[local] Open Scope list_scope.

(** ** [operation.rs] *)
Inductive Operation : Type :=
  | OpCopy (from to : FPath)
  | OpMove (from to : FPath)
  | OpRename (from to : FPath)
  | OpDelete (path : FPath)
  | OpTrash (path : FPath)
  | OpEmptyTrash (path : FPath)
  | OpRestore (from to : FPath).
#[export] Instance Operation_eq_dec : EqDecision Operation.
Proof. solve_decision. Defined.

Definition source_path (o : Operation) : option FPath :=
  match o with
  | OpCopy from _ | OpMove from _ | OpRename from _ | OpRestore from _ => Some from
  | OpDelete path | OpTrash path | OpEmptyTrash path => Some path
  end.
Definition target_path (o : Operation) : option FPath :=
  match o with
  | OpCopy _ to | OpMove _ to | OpRename _ to | OpRestore _ to => Some to
  | OpDelete _ | OpTrash _ | OpEmptyTrash _ => None
  end.

(** ** [access.rs] *)
Inductive OperationAccessRole : Type := RoleSource | RoleDestinationParent | RoleTarget.
Definition role_as_str (r : OperationAccessRole) : string :=
  match r with
  | RoleSource => "source"
  | RoleDestinationParent => "destination-parent"
  | RoleTarget => "target"
  end.
Record OperationAccessRequirement : Type := mkRequirement {
  required_path : FPath;
  required_role : OperationAccessRole
}.
Definition destination_probe_path (p : FPath) : FPath := default p (parent p).
Definition access_requirements (o : Operation) : list OperationAccessRequirement :=
  match o with
  | OpCopy from to | OpMove from to | OpRename from to | OpRestore from to =>
      [mkRequirement from RoleSource; mkRequirement (destination_probe_path to) RoleDestinationParent]
  | OpDelete path | OpTrash path | OpEmptyTrash path => [mkRequirement path RoleTarget]
  end.

Inductive OperationAccessAction : Type := Allow | Prompt | Deny.
Record OperationAccessDecision : Type := mkDecision {
  action : OperationAccessAction;
  reason : string;
  refresh_on_permission_change : bool
}.
Abbreviation OperationAccessGate := (gmap FPath OperationAccessDecision) (only parsing).
Definition refresh_reason_suffix (refresh : bool) : string :=
  if refresh then "; refresh-on-permission-change=true" else "".
Fixpoint check_requirements (gate : OperationAccessGate) (rs : list OperationAccessRequirement) : Res unit :=
  match rs with
  | [] => Ok tt
  | r :: rs' =>
      match gate !! required_path r with
      | None => check_requirements gate rs'
      | Some d =>
          let refuse middle :=
            Err (Permission (show (required_path r))
                   (role_as_str (required_role r) +:+ middle +:+ reason d +:+
                    refresh_reason_suffix (refresh_on_permission_change d))) in
          match action d with
          | Allow => check_requirements gate rs'
          | Prompt => refuse " requires a permission prompt before mutation: "
          | Deny => refuse " is not accessible for mutation: "
          end
      end
  end.
Definition gate_check (gate : OperationAccessGate) (o : Operation) : Res unit :=
  check_requirements gate (access_requirements o).

(** ** [conflict.rs]: policies *)
Inductive ConflictPolicy : Type := Fail | Replace | KeepBoth | Merge | Skip.
#[export] Instance ConflictPolicy_eq_dec : EqDecision ConflictPolicy.
Proof. solve_decision. Defined.
Definition policy_as_str (p : ConflictPolicy) : string :=
  match p with
  | Fail => "fail"
  | Replace => "replace"
  | KeepBoth => "keep-both"
  | Merge => "merge"
  | Skip => "skip"
  end.

(** A plan for a batch: a default and overrides by target. *)
Record OperationConflictPlan : Type := mkConflictPlan {
  plan_default : ConflictPolicy;
  target_overrides : gmap FPath ConflictPolicy
}.
Definition with_target (target : FPath) (p : ConflictPolicy) (plan : OperationConflictPlan) : OperationConflictPlan :=
  mkConflictPlan (plan_default plan) (<[target := p]> (target_overrides plan)).
Definition conflict_for (plan : OperationConflictPlan) (o : Operation) : ConflictPolicy :=
  default (plan_default plan) (target ← target_path o ; target_overrides plan !! target).

(** ** [volume.rs] *)
Inductive OperationVolumeClass : Type := Local | External | Network | Slow.
#[export] Instance OperationVolumeClass_eq_dec : EqDecision OperationVolumeClass.
Proof. solve_decision. Defined.
Definition COPY_BUFFER_BYTES : N := 256 * 1024.
Definition EXTERNAL_COPY_BUFFER_BYTES : N := 128 * 1024.
Definition SLOW_COPY_BUFFER_BYTES : N := 64 * 1024.
Definition copy_buffer_bytes (k : OperationVolumeClass) : N :=
  match k with
  | Local => COPY_BUFFER_BYTES
  | External => EXTERNAL_COPY_BUFFER_BYTES
  | Network | Slow => SLOW_COPY_BUFFER_BYTES
  end.
(** The defaults for cloning, hard links and sparse files. *)
Definition default_supported (k : OperationVolumeClass) : bool := bool_decide (k = Local).

Record OperationVolumeCopyPolicy : Type := mkVolumePolicy {
  default_class : OperationVolumeClass;
  root_classes : gmap FPath OperationVolumeClass;
  root_volume_identities : gmap FPath string;
  root_case_sensitive : gmap FPath bool;
  root_case_preserving : gmap FPath bool;
  root_file_cloning_support : gmap FPath bool;
  root_hard_link_support : gmap FPath bool;
  root_sparse_file_support : gmap FPath bool
}.
Definition new_policy (k : OperationVolumeClass) : OperationVolumeCopyPolicy := mkVolumePolicy k ∅ ∅ ∅ ∅ ∅ ∅ ∅.

(** [.iter().filter(|(root, _)| path.starts_with(root)).max_by_key(|(root, _)|
    root.components().count()).map(|(_, value)| ..)]. *)
Definition max_by_length {A} (l : list (FPath * A)) : option (FPath * A) :=
  foldl (fun best e => match best with
                       | Some b => if Nat.leb (length b.1) (length e.1) then Some e else best
                       | None => Some e
                       end) None l.
Definition for_path {A} (roots : gmap FPath A) (path : FPath) : option A :=
  snd <$> max_by_length (filter (fun e => under e.1 path) (map_to_list roots)).

Section Volumes.
Variable policy : OperationVolumeCopyPolicy.

Definition class_for_path (path : FPath) : OperationVolumeClass :=
  default (default_class policy) (for_path (root_classes policy) path).
(** [s.trim().is_empty()], for ASCII spaces. *)
Definition is_space (c : ascii) : bool :=
  let n := nat_of_ascii c in Nat.eqb n 32 || (Nat.leb 9 n && Nat.leb n 13).
Definition blank (s : string) : bool := forallb is_space (String.list_ascii_of_string s).
Definition volume_identity_for_path (path : FPath) : option string :=
  identity ← for_path (root_volume_identities policy) path ;
  if blank identity then None else Some identity.
Definition file_cloning_supported_for_path (path : FPath) : bool :=
  default (default_supported (class_for_path path)) (for_path (root_file_cloning_support policy) path).
Definition bool_property_mismatch (values : gmap FPath bool) (from to : FPath) : bool :=
  match for_path values from, for_path values to with
  | Some source, Some destination => negb (eqb source destination)
  | _, _ => false
  end.
Definition paths_have_known_case_semantics_mismatch (from to : FPath) : bool :=
  bool_property_mismatch (root_case_sensitive policy) from to ||
  bool_property_mismatch (root_case_preserving policy) from to.
Definition file_cloning_supported_for_paths (from to : FPath) : bool :=
  if negb (file_cloning_supported_for_path from) || negb (file_cloning_supported_for_path to) then false
  else
    match volume_identity_for_path from, volume_identity_for_path to with
    | Some source, Some destination => bool_decide (source = destination)
    | Some _, None | None, Some _ => false
    | None, None =>
        bool_decide (class_for_path from = Local) && bool_decide (class_for_path to = Local) &&
        negb (paths_have_known_case_semantics_mismatch from to)
    end.
Definition paths_are_known_distinct_volumes (from to : FPath) : bool :=
  match volume_identity_for_path from, volume_identity_for_path to with
  | Some source, Some destination => bool_decide (source <> destination)
  | _, _ => paths_have_known_case_semantics_mismatch from to
  end.
Definition hard_links_supported_for_path (path : FPath) : bool :=
  default (default_supported (class_for_path path)) (for_path (root_hard_link_support policy) path).
Definition sparse_files_supported_for_path (path : FPath) : bool :=
  default (default_supported (class_for_path path)) (for_path (root_sparse_file_support policy) path).
Definition copy_buffer_bytes_for_paths (from to : FPath) : N :=
  N.max (N.min (copy_buffer_bytes (class_for_path from)) (copy_buffer_bytes (class_for_path to))) 1.
End Volumes.

(** ** [progress.rs] *)
Inductive OperationProgressPhase : Type := Planned | Advanced | MetadataDegraded.
#[export] Instance OperationProgressPhase_eq_dec : EqDecision OperationProgressPhase.
Proof. solve_decision. Defined.
Record OperationProgress : Type := mkProgress {
  total_items : N;
  total_bytes : N;
  completed_items : N;
  completed_bytes : N
}.
Definition no_progress : OperationProgress := mkProgress 0 0 0 0.

Inductive OperationMetadataDegradationKind : Type :=
  | Ownership | CreatedTime | ExtendedAttribute | FinderInfo | ResourceFork | Quarantine
  | AccessControlList | FileFlags | SymlinkTimes | HardLinkTopology.
Record OperationMetadataDegradation : Type := mkDegradation {
  degraded_path : FPath;
  degraded_kind : OperationMetadataDegradationKind;
  detail : string
}.

Inductive OperationThroughputClass : Type := FullSpeed | Constrained | SlowThroughput.
Record OperationThroughputSnapshot : Type := mkThroughput {
  bytes_per_second : N;
  throughput_class : OperationThroughputClass
}.
Definition CONSTRAINED_BYTES_PER_SECOND : N := 96 * 1024 * 1024.
Definition SLOW_BYTES_PER_SECOND : N := 16 * 1024 * 1024.
Definition classify (bytes elapsed_nanos : N) : option OperationThroughputSnapshot :=
  if (bytes =? 0)%N then None
  else
    let elapsed_nanos := N.max elapsed_nanos 1 in
    let bytes_per_second := N.min (bytes * 1000000000 / elapsed_nanos) (U64 - 1) in
    Some (mkThroughput bytes_per_second
            (if (bytes_per_second <? SLOW_BYTES_PER_SECOND)%N then SlowThroughput
             else if (bytes_per_second <? CONSTRAINED_BYTES_PER_SECOND)%N then Constrained
             else FullSpeed)).

Record OperationProgressEvent : Type := mkProgressEvent {
  event_phase : OperationProgressPhase;
  event_progress : OperationProgress;
  event_throughput : option OperationThroughputSnapshot;
  event_degradation : option OperationMetadataDegradation
}.

(** The tracker and its callback's events, and the session of a copy. *)
Record OpState : Type := mkOpState {
  progress : OperationProgress;
  started_at : N;
  emitted : list OperationProgressEvent;
  hard_links : gmap N FPath
}.
Definition set_progress (p : OperationProgress) (s : OpState) : OpState :=
  mkOpState p (started_at s) (emitted s) (hard_links s).
Definition set_hard_links (h : gmap N FPath) (s : OpState) : OpState :=
  mkOpState (progress s) (started_at s) (emitted s) h.
Definition add_event (e : OperationProgressEvent) (s : OpState) : OpState :=
  mkOpState (progress s) (started_at s) (emitted s ++ [e]) (hard_links s).

Abbreviation OW := (World OpState) (only parsing).
Abbreviation Op := (M (World OpState)) (only parsing).
Definition change (g : OpState -> OpState) : Op unit := mmodify (fun w => set_extra (g (extra w)) w).

(** [OperationCancellation::check], where only that flag is looked at: a pause
    goes unseen. *)
Definition check_cancellation : Op unit :=
  polled <- attempt check_control ;
  match polled with
  | Err Cancelled => mfail Cancelled
  | _ => mret tt
  end.

Definition throughput_snapshot (phase : OperationProgressPhase) : Op (option OperationThroughputSnapshot) :=
  if decide (phase <> Advanced) then mret None
  else
    now <- now_nanos ;
    mgets (fun w => classify (completed_bytes (progress (extra w))) (now - started_at (extra w))).
Definition emit (phase : OperationProgressPhase) : Op unit :=
  t <- throughput_snapshot phase ;
  change (fun s => add_event (mkProgressEvent phase (progress s) t None) s).
(** [ProgressTracker::new]. *)
Definition new_tracker (plan : OperationProgress) : Op unit :=
  now <- now_nanos ;
  change (fun s => mkOpState plan now (emitted s) (hard_links s)) ;;
  emit Planned.

Definition item_bytes (m : Metadata) : N := if is_file m then m_len m else 0.
Definition advance (m : Metadata) : Op unit :=
  check_control ;;
  change (fun s => let p := progress s in
    set_progress (mkProgress (total_items p) (total_bytes p) (wrapping_add (completed_items p) 1)
                    (wrapping_add (completed_bytes p) (item_bytes m))) s) ;;
  emit Advanced ;;
  check_control.
Definition advance_bytes (n : N) : Op unit :=
  check_control ;;
  change (fun s => let p := progress s in
    set_progress (mkProgress (total_items p) (total_bytes p) (completed_items p)
                    (N.min (wrapping_add (completed_bytes p) n) (total_bytes p))) s) ;;
  emit Advanced ;;
  check_control.
Definition finish_current_item : Op unit :=
  check_control ;;
  change (fun s => let p := progress s in
    set_progress (mkProgress (total_items p) (total_bytes p) (wrapping_add (completed_items p) 1)
                    (completed_bytes p)) s) ;;
  emit Advanced ;;
  check_control.
Definition complete : Op unit :=
  check_control ;;
  change (fun s => let p := progress s in
    set_progress (mkProgress (total_items p) (total_bytes p) (total_items p) (total_bytes p)) s) ;;
  emit Advanced ;;
  check_control.
Definition metadata_degraded (d : OperationMetadataDegradation) : Op unit :=
  check_control ;;
  change (fun s => add_event (mkProgressEvent MetadataDegraded (progress s) None (Some d)) s) ;;
  check_control.
