(* ===== verification/OpTree.v ===== *)
(** * File operations: looking at the tree ([crates/ops])

    What stands at a path and what a policy makes of it ([target.rs],
    [conflict.rs]), locked items ([locked.rs]), the totals of an operation
    ([plan.rs]) and the verification of a copy ([verify.rs]). *)
From Stdlib Require Import Ascii.
From S2P Require Import Prelude Types Text Order Control FileSystem OpModel.
#[local] Open Scope string_scope.
#[local] Open Scope list_scope.

(** The constants of the [libc] crate. *)
Class Libc : Type := {
  UF_IMMUTABLE : N; SF_IMMUTABLE : N; UF_APPEND : N; SF_APPEND : N;
  C_EPERM : Z; C_EACCES : Z; C_ENOTSUP : Z; C_EXDEV : Z; C_EINVAL : Z; C_ENOENT : Z;
  C_ENODATA : Z; C_ENOATTR : Z; C_ENOSYS : Z; C_EROFS : Z
}.

(** A walk goes no deeper than the tree. *)
Definition tree_depth (f : Fs) : nat := S (S (max_list_with (fun e => length e.1) (map_to_list (names f)))).
Definition OUT_OF_FUEL : GfmError := Format "stack overflow".
(** The order of paths in one directory. *)
Definition name_key (n : string) : list N := N_of_ascii <$> String.list_ascii_of_string n.

Section Tree.
Context `{Platform, Libc}.

(** ** [target.rs] *)
Definition path_exists_or_symlink (p : FPath) : Op bool :=
  r <- symlink_metadata p ;
  match r with
  | Ok _ => mret true
  | Err e =>
      if decide (err_kind e = NotFound) then mret false
      else mfail (Io (show p) ("path existence unavailable: " +:+ err_text e))
  end.
Definition ensure_source_exists (p : FPath) : Op unit :=
  r <- symlink_metadata p ;
  match r with
  | Ok _ => mret tt
  | Err e =>
      mfail (Io (show p) (if decide (err_kind e = NotFound) then "source does not exist"
                          else "source existence unavailable: " +:+ err_text e))
  end.
Definition metadata_same_file (left right : Metadata) : bool := bool_decide (m_ino left = m_ino right).
(** [fs::symlink_metadata(path).map(test).unwrap_or(false)]. *)
Definition symlink_metadata_is (test : Metadata -> bool) (p : FPath) : Op bool :=
  r <- symlink_metadata p ; mret (match r with Ok m => test m | Err _ => false end).
Definition replacement_destination_is_non_directory : FPath -> Op bool :=
  symlink_metadata_is (fun m => negb (m_is_dir m)).
Definition replacement_destination_is_directory : FPath -> Op bool := symlink_metadata_is m_is_dir.
Definition source_is_regular_file : FPath -> Op bool :=
  symlink_metadata_is (fun m => is_file m && negb (is_symlink m)).
Definition source_is_symlink : FPath -> Op bool := symlink_metadata_is is_symlink.
Definition source_is_directory : FPath -> Op bool := symlink_metadata_is m_is_dir.
Definition same_canonical_path (left right : FPath) : Op bool :=
  l <- canonicalize left ;
  r <- canonicalize right ;
  mret (match l, r with
        | Ok l, Ok r => bool_decide (l = r)
        | _, _ => bool_decide (left = right)
        end).

(** [if let Some(parent) = to.parent() { fs::create_dir_all(parent)?; }]. *)
Definition create_parent (to : FPath) : Op unit :=
  match parent to with
  | Some d => or_io d (create_dir_all d)
  | None => mret tt
  end.

(** [for attempt in 0..100]. *)
Fixpoint find_hidden_sibling (todo attempt : nat) (to d : FPath) (prefix : string) : Op (option FPath) :=
  match todo with
  | O => mret None
  | S todo' =>
      let candidate := join d (prefix +:+ u64_to_string (N.of_nat attempt)) in
      taken <- path_exists_or_symlink candidate ;
      if (taken : bool) then find_hidden_sibling todo' (S attempt) to d prefix else mret (Some candidate)
  end.
Definition allocate_hidden_sibling_path (to : FPath) (label : string) : Op FPath :=
  let d := default [] (parent to) in
  or_io d (create_dir_all d) ;;
  (let name := match file_name to with Some n => if decide (n = "") then "copy" else n | None => "copy" end in
   nonce <- now_nanos ;
   found <- find_hidden_sibling 100 0 to d
              ("." +:+ name +:+ "." +:+ label +:+ "-" +:+ u64_to_string nonce +:+ "-") ;
   match found with
   | Some candidate => mret candidate
   | None => mfail (Conflict (show to) ("could not allocate a safe " +:+ label +:+ " sibling path"))
   end).
Definition allocate_replace_stage_path (to : FPath) : Op FPath := allocate_hidden_sibling_path to "gfm-replace".
Definition allocate_replace_backup_path (to : FPath) : Op FPath := allocate_hidden_sibling_path to "gfm-replaced".

Definition rename_replacing_file (from to : FPath) : Op unit := or_io to (rename from to).

Definition commit_staged_directory_replace (stage to backup : FPath) (cleanup_backup : FPath -> Op unit) : Op unit :=
  or_io to (rename to backup) ;;
  (installed <- rename stage to ;
   match installed with
   | Ok _ =>
       cleaned <- attempt (cleanup_backup backup) ;
       match cleaned with
       | Ok _ => mret tt
       | Err cleanup_err =>
           mfail (Format ("replaced " +:+ show to +:+ " but failed to remove previous destination backup " +:+
                          show backup +:+ ": " +:+ GfmError_to_string cleanup_err))
       end
   | Err replace_err =>
       restored <- rename backup to ;
       match restored with
       | Ok _ => mfail (Io (show to) (err_text replace_err))
       | Err restore_err =>
           mfail (Format ("failed to install staged replacement " +:+ show stage +:+ " -> " +:+ show to +:+ ": " +:+
                          err_text replace_err +:+ "; also failed to restore previous destination " +:+
                          show backup +:+ " -> " +:+ show to +:+ ": " +:+ err_text restore_err))
       end
   end).

Definition prepare_destination (p : FPath) (conflict : ConflictPolicy) (delete_existing : FPath -> Op unit) : Op unit :=
  there <- path_exists_or_symlink p ;
  if negb there then mret tt
  else
    match conflict with
    | Fail => mfail (Conflict (show p) "destination already exists")
    | Replace => delete_existing p
    | KeepBoth => mfail (Conflict (show p) "keep-both destination still exists")
    | Merge => mfail (Conflict (show p) "merge requires source and destination directories")
    | Skip => mfail (Conflict (show p) "skip policy must be handled before mutation")
    end.

(** [file_stem] and [extension] of a name: the last dot, unless it leads. *)
Definition split_name (n : string) : string * option string :=
  if decide (n = "..") then (n, None)
  else
    match reverse (split_on "."%char n) with
    | after :: before =>
        let stem := String.concat "." (reverse before) in
        if decide (stem = "" \/ before = []) then (n, None) else (stem, Some after)
    | [] => (n, None)
    end.

Definition keep_both_name (name : string) (index : nat) : string :=
  let '(stem, extension) := split_name name in
  let suffix := if Nat.eqb index 1 then " copy" else " copy " +:+ u64_to_string (N.of_nat index) in
  match extension with
  | Some extension => stem +:+ suffix +:+ "." +:+ extension
  | None => stem +:+ suffix
  end.
(** [for index in 1..=10_000]. *)
Definition KEEP_BOTH_LIMIT : N := 10000.
Fixpoint find_keep_both (todo index : nat) (p : FPath) (name : string) : Op FPath :=
  match todo with
  | O => mfail (Conflict (show p) "could not allocate a keep-both destination name")
  | S todo' =>
      let candidate := join (default [] (parent p)) (keep_both_name name index) in
      taken <- path_exists_or_symlink candidate ;
      if (taken : bool) then find_keep_both todo' (S index) p name else mret candidate
  end.
Definition keep_both_path (p : FPath) : Op FPath :=
  there <- path_exists_or_symlink p ;
  if negb there then mret p
  else
    match file_name p with
    | Some name => find_keep_both (N.to_nat KEEP_BOTH_LIMIT) 1 p name
    | None => mfail (Format ("could not derive keep-both destination name for " +:+ show p))
    end.

(** ** [conflict.rs] *)
Inductive OperationConflictKind : Type := CkNone | CkFile | CkDirectory | CkSymlink | CkOther.
#[local] Instance OperationConflictKind_eq_dec : EqDecision OperationConflictKind.
Proof. solve_decision. Defined.
Definition kind_as_str (k : OperationConflictKind) : string :=
  match k with
  | CkNone => "none"
  | CkFile => "file"
  | CkDirectory => "directory"
  | CkSymlink => "symlink"
  | CkOther => "other"
  end.
Definition conflict_kind (p : FPath) : Op OperationConflictKind :=
  r <- symlink_metadata p ;
  mret (match r with
        | Ok m => if is_symlink m then CkSymlink else if m_is_dir m then CkDirectory
                  else if is_file m then CkFile else CkOther
        | Err _ => CkNone
        end).
Definition available_conflict_policies (k : OperationConflictKind) : list ConflictPolicy :=
  match k with CkDirectory => [Replace; KeepBoth; Merge; Skip] | _ => [Replace; KeepBoth; Skip] end.
Definition operation_kind (o : Operation) : string :=
  match o with
  | OpCopy _ _ => "copy"
  | OpMove _ _ => "move"
  | OpRename _ _ => "rename"
  | OpDelete _ => "delete"
  | OpTrash _ => "trash"
  | OpEmptyTrash _ => "empty-trash"
  | OpRestore _ _ => "restore"
  end.

Record OperationConflictReport : Type := mkConflictReport {
  report_operation : string;
  report_source : option FPath;
  report_target : option FPath;
  target_exists : bool;
  target_kind : OperationConflictKind;
  selected_policy : ConflictPolicy;
  available_policies : list ConflictPolicy;
  blocks_operation : bool;
  report_reason : string
}.
Definition evaluate (o : Operation) (selected : ConflictPolicy) : Op OperationConflictReport :=
  match target_path o with
  | None =>
      mret (mkConflictReport (operation_kind o) (source_path o) None false CkNone selected [] false
              "operation-has-no-conflict-target")
  | Some target =>
      there <- path_exists_or_symlink target ;
      kind <- conflict_kind target ;
      (let available := if (there : bool) then available_conflict_policies kind else [] in
       let selected_available := bool_decide (selected = Fail) || bool_decide (selected ∈ available) in
       let blocks := there && (bool_decide (selected = Fail) || negb selected_available) in
       let reason :=
         if negb there then "target-available"
         else if negb selected_available then
           "destination-conflict-policy-unavailable-for-" +:+ kind_as_str kind
         else if blocks then "destination-conflict-requires-user-resolution"
         else "destination-conflict-resolved-by-" +:+ policy_as_str selected in
       mret (mkConflictReport (operation_kind o) (source_path o) (Some target) there kind selected
               available blocks reason))
  end.

Definition resolve_operation_conflicts (o : Operation) (conflict : ConflictPolicy) : Op Operation :=
  if decide (conflict <> KeepBoth) then mret o
  else
    match o with
    | OpCopy from to => to <- keep_both_path to ; mret (OpCopy from to)
    | OpMove from to => to <- keep_both_path to ; mret (OpMove from to)
    | OpRename from to => to <- keep_both_path to ; mret (OpRename from to)
    | OpRestore from to => to <- keep_both_path to ; mret (OpRestore from to)
    | OpDelete _ | OpTrash _ | OpEmptyTrash _ => mret o
    end.

(** ** [locked.rs], on macOS *)
Definition locked_flag_mask : N :=
  N.lor (N.lor (N.lor UF_IMMUTABLE SF_IMMUTABLE) UF_APPEND) SF_APPEND.
Definition locked_flag_names (flags : N) : string :=
  String.concat "," (omap (fun '(mask, name) => if (N.land flags mask =? 0)%N then None else Some name)
    [(UF_IMMUTABLE, "user-immutable"); (SF_IMMUTABLE, "system-immutable");
     (UF_APPEND, "user-append-only"); (SF_APPEND, "system-append-only")]).
Definition is_locked (a : Attrs) : bool := negb (N.land (st_flags a) locked_flag_mask =? 0)%N.
Definition ensure_metadata_unlocked (p : FPath) (m : Metadata) (action : string) : Op unit :=
  if is_locked (m_attrs m) then
    mfail (Conflict (show p) (action +:+ " requires locked-item confirmation: flags=" +:+
                              locked_flag_names (st_flags (m_attrs m))))
  else mret tt.
Definition ensure_unlocked_path (p : FPath) (action : string) : Op unit :=
  m <- or_io p (symlink_metadata p) ; ensure_metadata_unlocked p m action.

(** The entries of an iterator, and their names in order. *)
Definition read_entries (p : FPath) : Op (list string) :=
  ns <- or_io p (read_dir p) ;
  mfor (fun acc n => n <- or_io p (next_entry n) ; mret (acc ++ [n])) [] ns.
Definition sorted_children (p : FPath) : Op (list string) :=
  ns <- read_entries p ; mret (sort_by name_key ns).

Fixpoint unlocked_walk (fuel : nat) (p : FPath) (action : string) : Op unit :=
  match fuel with
  | O => mfail OUT_OF_FUEL
  | S fuel' =>
      m <- or_io p (symlink_metadata p) ;
      ensure_metadata_unlocked p m action ;;
      if m_is_dir m && negb (is_symlink m) then
        ns <- sorted_children p ;
        mfor (fun _ n => unlocked_walk fuel' (join p n) action) tt ns
      else mret tt
  end.
Definition ensure_unlocked_tree (p : FPath) (action : string) : Op unit :=
  w <- mget ; unlocked_walk (tree_depth (fsys w)) p action.

(** ** [plan.rs] *)
Definition plan_metadata (p : FPath) : Op Metadata :=
  r <- symlink_metadata p ;
  match r with
  | Ok m => mret m
  | Err e => mfail (Io (show p) (if decide (err_kind e = NotFound) then err_text e
                                 else "operation path metadata unavailable: " +:+ err_text e))
  end.
Definition add_totals (a b : OperationProgress) : OperationProgress :=
  mkProgress (wrapping_add (total_items a) (total_items b)) (wrapping_add (total_bytes a) (total_bytes b))
    (completed_items a) (completed_bytes a).
Section PlanEntries.
Variable plan : FPath -> Op OperationProgress.
(** [for entry in fs::read_dir(path)? { .. }]. *)
Definition plan_entries (p : FPath) (start : OperationProgress) : Op OperationProgress :=
  ns <- or_io p (read_dir p) ;
  mfor (fun acc n =>
          check_cancellation ;;
          (n <- or_io p (next_entry n) ;
           child <- plan (join p n) ;
           mret (add_totals acc child))) start ns.
End PlanEntries.
Fixpoint plan_path (fuel : nat) (p : FPath) : Op OperationProgress :=
  match fuel with
  | O => mfail OUT_OF_FUEL
  | S fuel' =>
      check_cancellation ;;
      (m <- plan_metadata p ;
       let start := mkProgress 1 (item_bytes m) 0 0 in
       if m_is_dir m then plan_entries (plan_path fuel') p start else mret start)
  end.
Definition plan_empty_trash (fuel : nat) (p : FPath) : Op OperationProgress :=
  check_cancellation ;;
  (m <- plan_metadata p ;
   if negb (m_is_dir m) then mfail (Format ("empty trash requires a directory: " +:+ show p))
   else plan_entries (plan_path fuel) p no_progress).
Definition plan_operation_checked (o : Operation) : Op OperationProgress :=
  w <- mget ;
  (let fuel := tree_depth (fsys w) in
   match o with
   | OpCopy from _ | OpMove from _ | OpRename from _ | OpRestore from _ => plan_path fuel from
   | OpDelete path | OpTrash path => plan_path fuel path
   | OpEmptyTrash path => plan_empty_trash fuel path
   end).

(** ** [verify.rs] *)
Inductive VerificationPolicy : Type := VerifyNone | VerifySize | VerifyBytes.
Definition VERIFY_BUFFER_BYTES : N := 128 * 1024.

Definition verify_message (from to : FPath) (what : string) : GfmError :=
  Format ("copy verification failed for " +:+ show from +:+ " -> " +:+ show to +:+ ": " +:+ what).
Definition verify_copy_size_checked (from to : FPath) : Op unit :=
  check_control ;;
  (source <- or_io from (metadata from) ;
   check_control ;;
   (destination <- or_io to (metadata to) ;
    check_control ;;
    if decide (m_len source = m_len destination) then mret tt
    else mfail (verify_message from to ("source size " +:+ u64_to_string (m_len source) +:+
                  " != destination size " +:+ u64_to_string (m_len destination))))).
Fixpoint verify_loop (fuel : nat) (from to : FPath) (source destination : N) (offset : nat) : Op unit :=
  match fuel with
  | O => mfail OUT_OF_FUEL
  | S fuel' =>
      check_control ;;
      (a <- or_io from (read source offset VERIFY_BUFFER_BYTES) ;
       check_control ;;
       (b <- or_io to (read destination offset VERIFY_BUFFER_BYTES) ;
        check_control ;;
        if decide (length a <> length b) then
          mfail (verify_message from to ("read length drift at byte " +:+ u64_to_string (N.of_nat offset)))
        else if decide (length a = 0) then mret tt
        else if decide (a <> b) then
          mfail (verify_message from to ("byte mismatch in block starting at " +:+ u64_to_string (N.of_nat offset)))
        else verify_loop fuel' from to source destination (offset + length a)))
  end.
Definition file_length (f : Fs) (i : N) : nat := length (default [] (content_of f i)).
Definition verify_copy_bytes_checked (from to : FPath) : Op unit :=
  check_control ;;
  (source <- or_io from (open_read from) ;
   check_control ;;
   (destination <- or_io to (open_read to) ;
    w <- mget ;
    verify_loop (S (file_length (fsys w) source)) from to source destination 0)).
Definition verify_copy_checked (from to : FPath) (policy : VerificationPolicy) : Op unit :=
  check_control ;;
  match policy with
  | VerifyNone => mret tt
  | VerifySize => verify_copy_size_checked from to
  | VerifyBytes => verify_copy_size_checked from to ;; verify_copy_bytes_checked from to
  end.
End Tree.
