(* ===== verification/OpJournal.v ===== *)
(** * File operations: the journal ([journal.rs]) and what can be recovered
      ([recovery.rs])

    Every operation writes a line when it starts and a line when it ends.  A path
    read from a line is resolved from the root, the working directory of an
    application. *)
From Stdlib Require Import Ascii.
From S2P Require Import Prelude Types Text Order Control JobModel Retry Paths FileSystem FileFacts TextFiles OpModel OpTree.
#[local] Open Scope string_scope.
#[local] Open Scope list_scope.

Inductive OperationStatus : Type := Started | Completed | Skipped | Paused | Cancelled | Failed.
#[export] Instance OperationStatus_eq_dec : EqDecision OperationStatus.
Proof. solve_decision. Defined.

Record JournalEntry : Type := mkOpEntry {
  entry_op_id : N;
  status : OperationStatus;
  operation : Operation;
  message : option string;
  timestamp_nanos : N
}.
#[export] Instance JournalEntry_eq_dec : EqDecision JournalEntry.
Proof. solve_decision. Defined.

(** ** Making entries *)
Section Making.
Context {X : Type}.
Definition entry_now (id : N) (s : OperationStatus) (o : Operation) (m : option string) : M (World X) JournalEntry :=
  now <- now_nanos ; mret (mkOpEntry id s o m now).
Definition started (id : N) (o : Operation) := entry_now id Started o None.
Definition completed (id : N) (o : Operation) := entry_now id Completed o None.
Definition skipped (id : N) (o : Operation) := entry_now id Skipped o (Some "operation skipped by conflict policy").
Definition paused (id : N) (o : Operation) := entry_now id Paused o None.
Definition cancelled (id : N) (o : Operation) := entry_now id Cancelled o None.
Definition failed (id : N) (o : Operation) (m : string) := entry_now id Failed o (Some m).
Definition from_error (id : N) (o : Operation) (e : GfmError) : M (World X) JournalEntry :=
  match e with
  | Types.Paused => paused id o
  | Types.Cancelled => cancelled id o
  | _ => failed id o (GfmError_to_string e)
  end.
End Making.
Definition operation_status_from_error (e : GfmError) : OperationStatus :=
  match e with
  | Types.Paused => Paused
  | Types.Cancelled => Cancelled
  | _ => Failed
  end.

(** ** Lines *)
(** [escape] and [unescape] are those of the job journal. *)
Definition escape : string -> string := JobModel.escape.
Definition unescape : string -> Result string string := JobModel.unescape.
Definition encode_status (s : OperationStatus) : string :=
  match s with
  | Started => "started"
  | Completed => "completed"
  | Skipped => "skipped"
  | Paused => "paused"
  | Cancelled => "cancelled"
  | Failed => "failed"
  end.
Definition decode_status (value : string) : Result OperationStatus string :=
  if decide (value = "started") then Ok Started
  else if decide (value = "completed") then Ok Completed
  else if decide (value = "skipped") then Ok Skipped
  else if decide (value = "paused") then Ok Paused
  else if decide (value = "cancelled") then Ok Cancelled
  else if decide (value = "failed") then Ok Failed
  else Err ("unknown status `" +:+ value +:+ "`").
Definition encode_operation (o : Operation) : string * string * string :=
  match o with
  | OpCopy from to => ("copy", show from, show to)
  | OpMove from to => ("move", show from, show to)
  | OpRename from to => ("rename", show from, show to)
  | OpDelete path => ("delete", show path, "")
  | OpTrash path => ("trash", show path, "")
  | OpEmptyTrash path => ("empty-trash", show path, "")
  | OpRestore from to => ("restore", show from, show to)
  end.
(** [PathBuf::from]. *)
Definition path_from (s : string) : FPath := link_path [] s.
Definition decode_operation (kind from to : string) : Result Operation string :=
  if decide (kind = "copy") then Ok (OpCopy (path_from from) (path_from to))
  else if decide (kind = "move") then Ok (OpMove (path_from from) (path_from to))
  else if decide (kind = "rename") then Ok (OpRename (path_from from) (path_from to))
  else if decide (kind = "delete") then Ok (OpDelete (path_from from))
  else if decide (kind = "trash") then Ok (OpTrash (path_from from))
  else if decide (kind = "empty-trash") then Ok (OpEmptyTrash (path_from from))
  else if decide (kind = "restore") then Ok (OpRestore (path_from from) (path_from to))
  else Err ("unknown operation `" +:+ kind +:+ "`").
Definition encode_entry (e : JournalEntry) : string :=
  let '(op, from, to) := encode_operation (operation e) in
  Text.join (String TAB "")
    [u128_to_string (entry_op_id e); encode_status (status e); u128_to_string (timestamp_nanos e); op;
     escape from; escape to; escape (default "" (message e))].
Definition parse_number (what value : string) : Result N string :=
  match parse_u128 value with
  | Ok n => Ok n
  | Err e => Err ("invalid " +:+ what +:+ " `" +:+ value +:+ "`: " +:+ ParseIntError_to_string e)
  end.
Definition parse_entry (line : string) : Result JournalEntry string :=
  match split_on TAB line with
  | [id; s; timestamp; kind; from; to; m] =>
      match parse_number "operation id" id with
      | Err e => Err e
      | Ok id =>
          match decode_status s with
          | Err e => Err e
          | Ok s =>
              match parse_number "timestamp" timestamp with
              | Err e => Err e
              | Ok timestamp =>
                  match unescape from, unescape to with
                  | Err e, _ | Ok _, Err e => Err e
                  | Ok from, Ok to =>
                      match decode_operation kind from to with
                      | Err e => Err e
                      | Ok o =>
                          match unescape m with
                          | Err e => Err e
                          | Ok m => Ok (mkOpEntry id s o (if decide (m = "") then None else Some m) timestamp)
                          end
                      end
                  end
              end
          end
      end
  | parts => Err ("expected 7 fields, got " +:+ u64_to_string (N.of_nat (length parts)))
  end.

(** ** The file *)
Section Journal.
Context `{Platform}.

(** [writeln!] on a [File]: the line, then the line feed. *)
Definition append_journal (p : FPath) (e : JournalEntry) : Op unit :=
  create_parent p ;;
  (file <- or_io p (open_append p) ;
   or_io p (append_text file (encode_entry e)) ;;
   or_io p (append_text file newline)).
Definition journal_path_exists (p : FPath) : Op bool :=
  r <- metadata p ;
  match r with
  | Ok _ => mret true
  | Err e =>
      if decide (err_kind e = NotFound) then mret false
      else mfail (Io (show p) ("operation journal existence unavailable: " +:+ err_text e))
  end.
Definition journal_entry_at (p : FPath) (index : nat) (line : string) : Res JournalEntry :=
  match parse_entry line with
  | Ok e => Ok e
  | Err err => Err (Format (show p +:+ " line " +:+ u64_to_string (N.of_nat (S index)) +:+ ": " +:+ err))
  end.
Definition read_journal (p : FPath) : Op (list JournalEntry) :=
  there <- journal_path_exists p ;
  if negb there then mret []
  else
    file <- or_io p (open_read p) ;
    for_lines (fun entries index line =>
      line <- or_io p (mret line) ;
      e <- mlift (journal_entry_at p index line) ;
      mret (entries ++ [e])) file [].
End Journal.

(** ** [recovery.rs] *)
Record OperationRecoveryPolicy : Type := mkRecoveryPolicy { retry_failed : bool; recovery_max_attempts : N }.
Definition default_recovery_policy : OperationRecoveryPolicy := mkRecoveryPolicy false 1.
Record OperationRecoveryState : Type := mkRecoveryState {
  state_id : N;
  state_operation : Operation;
  last_status : OperationStatus;
  started_count : N;
  state_message : option string;
  state_timestamp : N
}.
Record OperationRecoveryPlan : Type := mkRecoveryPlan { plan_entry : JournalEntry; append_started : bool }.

Definition new_state (e : JournalEntry) : OperationRecoveryState :=
  mkRecoveryState (entry_op_id e) (operation e) (status e) (if decide (status e = Started) then 1 else 0)
    (message e) (timestamp_nanos e).
Definition next_state (s : OperationRecoveryState) (e : JournalEntry) : OperationRecoveryState :=
  mkRecoveryState (state_id s) (operation e) (status e)
    (if decide (status e = Started) then started_count s + 1 else started_count s)%N (message e) (timestamp_nanos e).
(** [states.iter_mut().find(..)], else [states.push(..)]. *)
Fixpoint add_entry (states : list OperationRecoveryState) (e : JournalEntry) : list OperationRecoveryState :=
  match states with
  | [] => [new_state e]
  | s :: states' => if decide (state_id s = entry_op_id e) then next_state s e :: states' else s :: add_entry states' e
  end.
Definition retryable_failure_message (m : option string) (max_attempts attempts : N) : bool :=
  match m with
  | None => false
  | Some m => retryable (retry_decision (mkRetryPolicy max_attempts) attempts m)
  end.
Definition recovery_plan (policy : OperationRecoveryPolicy) (s : OperationRecoveryState) : option OperationRecoveryPlan :=
  let failed_retryable :=
    retry_failed policy && bool_decide (last_status s = Failed) &&
    (started_count s <? N.max (recovery_max_attempts policy) 1)%N &&
    retryable_failure_message (state_message s) (recovery_max_attempts policy) (started_count s) in
  let plan again :=
    Some (mkRecoveryPlan (mkOpEntry (state_id s) (last_status s) (state_operation s) (state_message s) (state_timestamp s)) again) in
  if decide (last_status s = Started) then plan false
  else if decide (last_status s = Paused \/ failed_retryable = true) then plan true
  else None.
Definition recoverable_operations (entries : list JournalEntry) (policy : OperationRecoveryPolicy) : list OperationRecoveryPlan :=
  omap (recovery_plan policy) (sort_by (fun s => (state_timestamp s, state_id s)) (foldl add_entry [] entries)).
