(* ===== verification/TrashMeta.v ===== *)
(** * File operations: what the trash remembers ([trashmeta.rs])

    A table of the items in the trash, keyed by name and kept as a file of
    tab-separated lines; it is written to a temporary file that is then renamed to
    it.  A [BTreeMap] is a map whose values are listed in the order of its keys. *)
From Stdlib Require Import Ascii.
From S2P Require Import Prelude Types Text Order Control JobModel FileSystem FileFacts TextFiles OpModel OpTree.
#[local] Open Scope string_scope.
#[local] Open Scope list_scope.

(** [std::process::id()]. *)
Class Process : Type := { process_id : N }.

Record TrashRestoreMetadata : Type := mkTrashed {
  tm_name : string;
  original_path : string;
  deleted_at_nanos : N;
  can_restore : bool;
  can_delete_permanently : bool;
  permission_issue : option string
}.
#[export] Instance TrashRestoreMetadata_eq_dec : EqDecision TrashRestoreMetadata.
Proof. solve_decision. Defined.
Abbreviation TrashTable := (gmap string TrashRestoreMetadata) (only parsing).

(** [escape] and [unescape] are those of the job journal. *)
Definition escape : string -> string := JobModel.escape.
Definition unescape : string -> Result string string := JobModel.unescape.
Definition bool_to_string (b : bool) : string := if b then "true" else "false".
Definition as_tsv (m : TrashRestoreMetadata) : string :=
  Text.join (String TAB "")
    [escape (tm_name m); escape (original_path m); u128_to_string (deleted_at_nanos m);
     bool_to_string (can_restore m); bool_to_string (can_delete_permanently m);
     escape (default "" (permission_issue m))].
(** [entries.values()], [entries.keys()]. *)
Definition entries (t : TrashTable) : list (string * TrashRestoreMetadata) :=
  sort_by (fun e => name_key e.1) (map_to_list t).
Definition values (t : TrashTable) : list TrashRestoreMetadata := (entries t).*2.
Definition keys (t : TrashTable) : list string := (entries t).*1.

(** ** Reading *)
Definition at_line (p : FPath) (line : nat) (text : string) : GfmError :=
  Format (show p +:+ ":" +:+ u64_to_string (N.of_nat line) +:+ text).
Definition parse_bool_field (value name : string) (p : FPath) (line : nat) : Res bool :=
  if decide (value = "true") then Ok true
  else if decide (value = "false") then Ok false
  else Err (at_line p line (" invalid " +:+ name +:+ " `" +:+ value +:+ "`")).
Definition unescape_field (value : string) : Res string :=
  match unescape value with Ok v => Ok v | Err e => Err (Format e) end.
Definition parse_nanos (value : string) (p : FPath) (line : nat) : Res N :=
  match parse_u128 value with
  | Ok n => Ok n
  | Err e => Err (at_line p line (" invalid deleted_at_nanos `" +:+ value +:+ "`: " +:+ ParseIntError_to_string e))
  end.
(** The body of the loop, from [line.split('\t')] on. *)
Definition parse_trash_line (p : FPath) (line : nat) (text : string) : Res TrashRestoreMetadata :=
  match split_on TAB text with
  | [name; original; deleted; restore; permanently; issue] =>
      match unescape_field name, unescape_field original, parse_nanos deleted p line,
            parse_bool_field restore "can_restore" p line,
            parse_bool_field permanently "can_delete_permanently" p line, unescape_field issue with
      | Ok name, Ok original, Ok deleted, Ok restore, Ok permanently, Ok issue =>
          Ok (mkTrashed name original deleted restore permanently (if decide (issue = "") then None else Some issue))
      | Err e, _, _, _, _, _ | _, Err e, _, _, _, _ | _, _, Err e, _, _, _
      | _, _, _, Err e, _, _ | _, _, _, _, Err e, _ | _, _, _, _, _, Err e => Err e
      end
  | _ => Err (at_line p line " expected 6 tab-separated fields: name, original_path, deleted_at_nanos, can_restore, can_delete_permanently, permission_issue")
  end.
(** [line.trim().is_empty() || line.starts_with('#')]. *)
Definition skipped_line (text : string) : bool := blank text || starts_with "#" text.

Section TrashMeta.
Context `{Platform, Process}.

Definition trash_metadata_path_exists (p : FPath) : Op bool :=
  r <- metadata p ;
  match r with
  | Ok _ => mret true
  | Err e =>
      if decide (err_kind e = NotFound) then mret false
      else mfail (Io (show p) ("trash metadata existence unavailable: " +:+ err_text e))
  end.
Definition trash_line (p : FPath) (acc : TrashTable) (index : nat) (line : Result string IoError) : Op TrashTable :=
  check_control ;;
  (text <- or_io p (mret line) ;
   if skipped_line text then mret acc
   else
     m <- mlift (parse_trash_line p (S index) text) ;
     check_control ;;
     mret (<[tm_name m := m]> acc)).
Definition read_trash_metadata_checked (p : FPath) : Op TrashTable :=
  check_control ;;
  (there <- trash_metadata_path_exists p ;
   if negb there then mret ∅
   else
     check_control ;;
     (file <- or_io p (open_read p) ;
      check_control ;;
      (table <- for_lines (trash_line p) file ∅ ;
       check_control ;;
       mret table))).

(** ** Writing *)
Definition temporary_path (p : FPath) (nonce : N) : FPath :=
  let name := default "trash-metadata" (file_name p) in
  FileSystem.join (default [] (parent p))
    ("." +:+ name +:+ "." +:+ u64_to_string process_id +:+ "." +:+ u128_to_string nonce +:+ ".tmp").
Definition sync_parent (p : FPath) : Op unit :=
  match parent p with
  | None => mret tt
  | Some d =>
      r <- open_read d ;
      match r with
      | Ok _ => sync_all ;; mret tt
      | Err _ => mret tt
      end
  end.
Definition write_trash_metadata_checked (p : FPath) (rows : list TrashRestoreMetadata) : Op unit :=
  check_control ;;
  create_parent p ;;
  check_control ;;
  (nonce <- now_nanos ;
   let temporary := temporary_path p nonce in
   result <- attempt (
     file <- or_io temporary (create_file temporary) ;
     check_control ;;
     mfor (fun _ e => check_control ;; or_io temporary (append_text file (as_tsv e +:+ newline))) tt rows ;;
     check_control ;;
     or_io temporary flush ;;
     check_control ;;
     or_io temporary sync_all ;;
     check_control ;;
     or_io p (rename temporary p) ;;
     sync_parent p ;;
     check_control) ;
   match result with
   | Ok _ => mret tt
   | Err e => remove_file temporary ;; mfail e
   end).

(** ** Changing the table *)
Definition from_original_path (p : FPath) : Op TrashRestoreMetadata :=
  match file_name p with
  | Some name =>
      if decide (name = "") then mfail (Format ("could not derive trash metadata name for " +:+ show p))
      else now <- now_nanos ; mret (mkTrashed name (show p) now true true None)
  | None => mfail (Format ("could not derive trash metadata name for " +:+ show p))
  end.
Definition append_trash_metadata_entry_checked (p : FPath) (m : TrashRestoreMetadata) : Op unit :=
  check_control ;;
  create_parent p ;;
  check_control ;;
  (table <- read_trash_metadata_checked p ;
   check_control ;;
   check_control ;;
   write_trash_metadata_checked p (values (<[tm_name m := m]> table))).
Definition append_trash_metadata_checked (p original : FPath) : Op unit :=
  check_control ;;
  (m <- from_original_path original ; append_trash_metadata_entry_checked p m).
Definition remove_trash_metadata_checked (p trashed : FPath) : Op unit :=
  check_control ;;
  match file_name trashed with
  | None => mret tt
  | Some name =>
      check_control ;;
      (table <- read_trash_metadata_checked p ;
       check_control ;;
       check_control ;;
       write_trash_metadata_checked p (values (delete name table)))
  end.

(** The copy of [path_exists_or_symlink] in this file. *)
Definition path_exists_or_symlink (p : FPath) : Op bool :=
  r <- symlink_metadata p ;
  match r with
  | Ok _ => mret true
  | Err e =>
      if decide (err_kind e = NotFound) then mret false
      else mfail (Io (show p) ("trash item existence unavailable: " +:+ err_text e))
  end.
Definition stale_names (trash_dir : FPath) (names : list string) : Op (list string) :=
  mfor (fun stale name =>
          check_control ;;
          (there <- path_exists_or_symlink (link_path trash_dir name) ;
           mret (if (there : bool) then stale else stale ++ [name]))) [] names.
Definition forget_all (table : TrashTable) (stale : list string) : Op TrashTable :=
  mfor (fun table name => check_control ;; mret (delete name table)) table stale.
Definition reconcile_empty_trash_metadata_checked (metadata_path : option FPath) (trash_dir : FPath) : Op unit :=
  match metadata_path with
  | None => mret tt
  | Some metadata_path =>
      check_control ;;
      (table <- read_trash_metadata_checked metadata_path ;
       check_control ;;
       (stale <- stale_names trash_dir (keys table) ;
        kept <- forget_all table stale ;
        (if Nat.eqb (size kept) (size table) then mret tt
         else write_trash_metadata_checked metadata_path (values kept)) ;;
        check_control))
  end.
End TrashMeta.
