(* ===== verification/TrashSpec.v ===== *)
(** * The trash metadata: the theorems

    A line is read back as it was written, a table is published whole or not at
    all, and adding, removing and reconciling entries are operations on the table
    that is in the file. *)
From Stdlib Require Import Ascii.
From S2P Require Import Prelude Types Text Order Control JobModel Paths FileSystem FileFacts TextFiles OpModel OpTree TrashMeta Publish.
#[local] Open Scope string_scope.
#[local] Open Scope list_scope.

(** ** Lines *)
Definition row_ok (m : TrashRestoreMetadata) : Prop :=
  (deleted_at_nanos m < U128)%N /\ permission_issue m <> Some "" /\ starts_with "#" (tm_name m) = false.
Definition table_ok (t : TrashTable) : Prop := map_Forall (fun k m => tm_name m = k /\ row_ok m) t.
Definition table_text (t : TrashTable) : string := unlines (as_tsv <$> values t).

Lemma escape_tab s c : c ∈ [TAB; LF; CR] -> has_char c (escape s) = false.
Proof. apply escape_plain. Qed.
Lemma nanos_plain c n : c ∈ [TAB; LF; CR] -> has_char c (u128_to_string n) = false.
Proof. intros Hc. by apply u128_to_string_plain, plain_digit. Qed.
Lemma bool_plain c b : c ∈ [TAB; LF; CR] -> has_char c (bool_to_string b) = false.
Proof. intros Hc. destruct b; set_unfold in Hc; by destruct_or! Hc; subst. Qed.
Lemma row_fields m c : c ∈ [TAB; LF; CR] ->
  Forall (fun s => has_char c s = false)
    [escape (tm_name m); escape (original_path m); u128_to_string (deleted_at_nanos m);
     bool_to_string (can_restore m); bool_to_string (can_delete_permanently m);
     escape (default "" (permission_issue m))].
Proof. intros Hc. repeat constructor; auto using escape_tab, nanos_plain, bool_plain. Qed.
Lemma as_tsv_split m : split_on TAB (as_tsv m) =
  [escape (tm_name m); escape (original_path m); u128_to_string (deleted_at_nanos m);
   bool_to_string (can_restore m); bool_to_string (can_delete_permanently m);
   escape (default "" (permission_issue m))].
Proof. unfold as_tsv. apply split_on_join; [done|]. apply row_fields, tab_reserved. Qed.
Lemma parse_bool_to_string b name p line : parse_bool_field (bool_to_string b) name p line = Ok b.
Proof. by destruct b. Qed.
Lemma unescape_field_escape s : unescape_field (escape s) = Ok s.
Proof. unfold unescape_field, unescape, escape. by rewrite unescape_escape. Qed.
Lemma parse_as_tsv m p line : row_ok m -> parse_trash_line p line (as_tsv m) = Ok m.
Proof.
  intros (Hn & Hi & _). unfold parse_trash_line. rewrite as_tsv_split.
  rewrite !unescape_field_escape, !parse_bool_to_string. unfold parse_nanos. rewrite parse_u128_to_string by done.
  destruct m as [name orig del res perm [issue|]]; cbn in *; [|done]. rewrite decide_False by congruence. done.
Qed.

Lemma blank_app a b : blank (a +:+ b) = blank a && blank b.
Proof.
  unfold blank. induction a as [|x a IH]; [done|]. change (String x a +:+ b) with (String x (a +:+ b)). cbn [String.list_ascii_of_string forallb].
  by rewrite IH, andb_assoc.
Qed.
Lemma digit_not_space d : (d < 10)%N -> is_space (digit_char d) = false.
Proof. revert d. apply digit_cases; reflexivity. Qed.
Lemma nanos_not_blank n : blank (u128_to_string n) = false.
Proof.
  unfold u128_to_string. destruct (dec_go_head 38 n "") as (d & s & Hd & ->). unfold blank.
  cbn [String.list_ascii_of_string forallb]. by rewrite digit_not_space.
Qed.
Lemma starts_with_escape s rest : starts_with "#" s = false -> starts_with "#" (escape s +:+ String TAB rest) = false.
Proof.
  destruct s as [|a s]; [done|]. cbn [starts_with]. case_decide as Ha; [by destruct s|]. intros _.
  unfold escape. cbn [JobModel.escape]. repeat (case_decide; [reflexivity|]). change (starts_with "#" (String a (JobModel.escape s +:+ String TAB rest)) = false). cbn [starts_with]. by rewrite decide_False.
Qed.
Lemma row_not_skipped m : starts_with "#" (tm_name m) = false -> skipped_line (as_tsv m) = false.
Proof.
  intros Hs. unfold skipped_line, as_tsv. cbn [Text.join]. rewrite !blank_app, nanos_not_blank.
  rewrite !andb_false_r. cbn [orb]. change (String TAB "" +:+ ?x) with (String TAB x). by apply starts_with_escape.
Qed.
Lemma row_line_ok m : line_ok (as_tsv m).
Proof. split; apply join_plain; try done; apply row_fields; set_solver. Qed.

(** ** Tables *)
Lemma name_key_inj : Inj (=) (=) name_key.
Proof.
  intros a b E. unfold name_key in E. apply (f_equal (fmap ascii_of_N)) in E. rewrite <- !list_fmap_compose in E.
  assert (Hid : forall l : list ascii, ((ascii_of_N ∘ N_of_ascii) <$> l) = l).
  { induction l as [|x l IH]; [done|]. cbn. by rewrite ascii_N_embedding, IH. }
  rewrite !Hid in E. rewrite <- (String.string_of_list_ascii_of_string a), <- (String.string_of_list_ascii_of_string b).
  by rewrite E.
Qed.
Lemma entries_elem (t : TrashTable) k m : (k, m) ∈ entries t <-> t !! k = Some m.
Proof. unfold entries. rewrite (sort_by_perm (fun e : string * _ => name_key e.1) (map_to_list t)). apply elem_of_map_to_list. Qed.
Lemma entries_NoDup (t : TrashTable) : NoDup (entries t).*1.
Proof.
  unfold entries. rewrite (sort_by_perm (fun e : string * _ => name_key e.1) (map_to_list t)).
  apply NoDup_fst_map_to_list.
Qed.
Lemma values_elem (t : TrashTable) m : m ∈ values t <-> exists k, t !! k = Some m.
Proof.
  unfold values. rewrite list_elem_of_fmap. split.
  - intros ([k m'] & -> & Hin). exists k. by apply entries_elem.
  - intros [k Hk]. exists (k, m). split; [done|]. by apply entries_elem.
Qed.
Lemma keys_elem (t : TrashTable) k : k ∈ keys t <-> is_Some (t !! k).
Proof.
  unfold keys. rewrite list_elem_of_fmap. split.
  - intros ([k' m] & -> & Hin). exists m. by apply entries_elem.
  - intros [m Hk]. exists (k, m). split; [done|]. by apply entries_elem.
Qed.

Definition collect (rows : list TrashRestoreMetadata) (acc : TrashTable) : TrashTable :=
  foldl (fun acc m => <[tm_name m := m]> acc) acc rows.
Lemma collect_entries (l : list (string * TrashRestoreMetadata)) : forall acc,
  Forall (fun e => tm_name e.2 = e.1) l -> NoDup l.*1 -> (forall e, e ∈ l -> acc !! e.1 = None) ->
  collect l.*2 acc = list_to_map l ∪ acc.
Proof.
  induction l as [|[k m] l IH]; intros acc Hn Hd Hf; [cbn; by rewrite (left_id_L ∅ (∪))|].
  inversion Hn as [|? ? Hk Hl]. inversion Hd as [|? ? Hnk Hdl]. subst. cbn in *. unfold collect in *. cbn. rewrite IH; [|done..|].
  - rewrite Hk, <- insert_union_l. rewrite <- insert_union_r; [done|]. apply not_elem_of_list_to_map. done.
  - intros [k' m'] Hin. rewrite Hk. cbn. rewrite lookup_insert_ne; [by apply (Hf (k', m')); right|].
    intros <-. apply Hnk. apply list_elem_of_fmap. by exists (k, m').
Qed.
Lemma collect_values (t : TrashTable) : map_Forall (fun k m => tm_name m = k) t -> collect (values t) ∅ = t.
Proof.
  intros Ht. unfold values. rewrite collect_entries.
  - rewrite (right_id_L ∅ (∪)). rewrite <- (list_to_map_to_list t) at 2. apply list_to_map_proper; [apply entries_NoDup|].
    unfold entries. apply sort_by_perm.
  - apply Forall_forall. intros [k m] Hin%entries_elem. by apply (Ht k m).
  - apply entries_NoDup.
  - intros e _. apply lookup_empty.
Qed.
Lemma table_ok_names t : table_ok t -> map_Forall (fun k m => tm_name m = k) t.
Proof. intros Ht k m Hk. by apply (Ht k m). Qed.
Lemma table_ok_rows t : table_ok t -> Forall row_ok (values t).
Proof. intros Ht. apply Forall_forall. intros m [k Hk]%values_elem. by apply (Ht k m). Qed.
Lemma table_ok_insert t m : row_ok m -> table_ok t -> table_ok (<[tm_name m := m]> t).
Proof. intros Hm Ht. by apply map_Forall_insert_2. Qed.
Lemma table_ok_delete t k : table_ok t -> table_ok (delete k t).
Proof. intros Ht. by apply map_Forall_delete. Qed.
Lemma table_lines t : lines (table_text t) = as_tsv <$> values t.
Proof. apply lines_unlines, Forall_fmap, Forall_forall. intros m _. apply row_line_ok. Qed.

(** ** Publishing a text *)
Section Publish.
Context `{Platform, Process} (c : Control) (T : Prop) (p : FPath).
Abbreviation yields := (yields (X := OpState) c T).
Abbreviation looks m J := (fun f => yields (eq f) m (fun b f' => J b /\ f = f') (fun _ f' => T /\ f = f')).

Lemma trash_sibling : siblings p (temporary_path p).
Proof. apply (dotted_siblings p "trash-metadata" (fun n => "." +:+ u64_to_string process_id +:+ "." +:+ u128_to_string n +:+ ".tmp")). Qed.

Definition temporary (q : FPath) : Prop := exists nonce, q = temporary_path p nonce.
Definition writable (f : Fs) : Prop := Publish.writable p (temporary_path p) f.
Definition touches (q : FPath) : Prop := q = p \/ temporary q.
Definition own (q : FPath) : Prop := q = p.
Definition published (s : string) (f f' : Fs) : Prop := Publish.published p (temporary_path p) (text_bytes s) f f'.
Definition unsettled (s : string) (f f' : Fs) : Prop := Publish.unsettled p (temporary_path p) (fun sh => sh = Some (ShFile (text_bytes s))) f f'.
Lemma trash_published_unsettled s f f' : published s f f' -> unsettled s f f'.
Proof. apply Publish.published_unsettled. Qed.
Lemma trash_writable_unsettled s f : writable f -> unsettled s f f.
Proof. apply Publish.writable_unsettled. Qed.
Lemma trash_draft_unsettled f n t s : writable f -> unsettled s f (draft f (temporary_path p n) t).
Proof. apply Publish.draft_unsettled, trash_sibling. Qed.

Lemma yields_create_parent (I : Fs -> Prop) (E : GfmError -> Fs -> Prop) :
  (forall f, I f -> wf f /\ placed f p) -> (forall e f, I f -> T -> E e f) -> yields I (create_parent p) (fun _ => I) E.
Proof.
  intros HI HE. unfold create_parent. destruct (parent p) as [d|] eqn:Hd; [|by apply yields_ret].
  apply yields_or_io. eapply yields_weaken; [apply (yields_create_dirs c T d I (fun _ _ => False) [])| | |].
  - intros f Hf. destruct (HI f Hf) as (Hwf & d' & Hd' & Hs). split; [done|]. by simplify_eq.
  - done.
  - intros [[]|e] f [Hf HT]; [done|by apply HE].
  - done.
Qed.
Lemma yields_sync_parent I E : yields I (sync_parent p) (fun _ => I) E.
Proof.
  unfold sync_parent. destruct (parent p) as [d|]; [|by apply yields_ret].
  eapply yields_bind; [apply yields_look|]. intros [i|e]; [|apply yields_ret; by intros f [? _]].
  eapply yields_bind; [apply yields_quiet|]. intros r. apply yields_ret. by intros f [[? _] _].
Qed.
Lemma yields_check_any (I : Fs -> Prop) (E : GfmError -> Fs -> Prop) :
  (forall e f, I f -> T -> E e f) -> yields I check_control (fun _ => I) E.
Proof. apply yields_check. Qed.

(** The rows, one after another. *)
Lemma yields_rows f temp (rows : list TrashRestoreMetadata) (E : GfmError -> Fs -> Prop) :
  (forall e t, T -> E e (draft f temp t)) ->
  forall done, yields (eq (draft f temp (text_bytes done)))
    (mfor (fun _ e => check_control ;; or_io temp (append_text (next_inode f) (as_tsv e +:+ newline))) tt rows)
    (fun _ f' => f' = draft f temp (text_bytes (done +:+ unlines (as_tsv <$> rows)))) E.
Proof.
  intros HE. induction rows as [|m rows IH]; intros written; simpl mfor.
  - apply yields_ret. intros ? <-. change (unlines (as_tsv <$> [])) with "". by rewrite string_app_nil_r.
  - eapply yields_bind with (J := fun _ f' => f' = draft f temp (text_bytes (written +:+ as_tsv m +:+ newline))).
    + eapply yields_bind; [apply yields_check; intros e ? <- HT; by apply HE|]. intros [].
      apply yields_or_io. eapply yields_weaken; [apply yields_append_text, draft_content|done| |by intros ? ? Hx; exact Hx].
      intros [[]|e] f'; [|intros (HT & t & _ & ->); rewrite draft_put; by apply HE].
      intros ->. by rewrite draft_put, (text_bytes_app written (as_tsv m +:+ newline)).
    + intros []. eapply yields_weaken; [apply (IH (written +:+ as_tsv m +:+ newline))|by intros ? ->| |done].
      intros _ f' ->. change (unlines (as_tsv <$> m :: rows)) with (as_tsv m +:+ newline +:+ unlines (as_tsv <$> rows)).
      by rewrite !string_app_assoc.
Qed.

Lemma yields_write rows f : writable f ->
  yields (eq f) (write_trash_metadata_checked p rows)
    (fun _ => published (unlines (as_tsv <$> rows)) f)
    (fun _ f' => T /\ unsettled (unlines (as_tsv <$> rows)) f f').
Proof.
  intros Hr. set (s := unlines (as_tsv <$> rows)). unfold write_trash_metadata_checked.
  assert (HE0 : forall (e : GfmError) f', f = f' -> T -> T /\ unsettled s f f').
  { intros e f' <- HT. split; [done|]. by apply trash_writable_unsettled. }
  eapply yields_bind; [by apply yields_check|]. intros [].
  eapply yields_bind; [apply yields_create_parent; [intros ? <-; split; apply Hr|exact HE0]|]. intros [].
  eapply yields_bind; [by apply yields_check|]. intros [].
  eapply yields_bind; [apply yields_now|]. intros n. apply yields_at. intros ? [_ <-]. cbv zeta. set (temp := temporary_path p n).
  assert (HE1 : forall t, T -> T /\ unsettled s f (draft f temp t)) by (intros t HT; split; [done|by apply trash_draft_unsettled]).
  eapply yields_bind with (J := fun r f' => match r with Ok _ => published s f f' | Err _ => T /\ unsettled s f f' end).
  - apply yields_attempt with (J := fun _ => published s f) (E := fun _ f' => T /\ unsettled s f f').
    eapply yields_bind; [apply (yields_create_draft p (temporary_path p) trash_sibling); [done|intros e HT; by apply (HE0 OUT_OF_FUEL)]|].
    intros i. apply yields_at. intros f' [-> ->].
    eapply yields_bind; [apply yields_check; intros e ? <- HT; by apply HE1|]. intros [].
    eapply yields_bind with (J := fun _ f' => f' = draft f temp (text_bytes s)).
    { eapply yields_weaken with (I := eq (draft f temp (text_bytes ""))); [|by intros ? <-| |by intros ? ? Hx; exact Hx].
      - apply (yields_rows f temp rows _ (fun _ => HE1) "").
      - by intros [] f' ->. }
    intros []. set (f2 := draft f temp (text_bytes s)).
    assert (Hcheck : yields (fun f' => f' = f2) check_control (fun _ f' => f' = f2) (fun _ f' => T /\ unsettled s f f')).
    { apply yields_check. intros e ? -> HT. by apply HE1. }
    assert (Hquiet : yields (fun f' => f' = f2) (or_io temp flush) (fun _ f' => f' = f2) (fun _ f' => T /\ unsettled s f f')).
    { apply yields_or_quiet. intros e ? -> HT. by apply HE1. }
    do 5 (eapply yields_bind; [exact Hcheck || exact Hquiet|intros []]).
    eapply yields_bind with (J := fun _ => published s f).
    { eapply yields_pre; [|apply (yields_publish p (temporary_path p) trash_sibling); [done|intros e; by apply HE1]]. by intros ? ->. }
    intros []. eapply yields_bind; [apply yields_sync_parent|]. intros [].
    apply yields_check. intros e f' Hpub HT. split; [done|]. by apply trash_published_unsettled.
  - intros r. eapply yields_weaken; [apply (yields_settle p (temporary_path p) trash_sibling c T (fun _ => tt) (fun sh => sh = Some (ShFile (text_bytes s))) f n (text_bytes s) r Hr)|done| |done].
    by intros ? f' [_ ?].
Qed.

(** ** Reading *)
(** The file has the table [t]; a file that is not there has the empty one. *)
Definition tabled (t : TrashTable) (f : Fs) : Prop :=
  writable f /\ table_ok t /\ (at_text f p (table_text t) \/ (shape_at f p = None /\ t = ∅)).
Lemma tabled_writable t f : tabled t f -> writable f.
Proof. by intros []. Qed.
Lemma published_tabled t f f' : table_ok t -> published (table_text t) f f' -> tabled t f'.
Proof. intros Ht (Hr & Hs & _). split; [done|]. split; [done|by left]. Qed.

Lemma resolve_file f s : at_text f p s -> resolve MAXSYMLINKS f p = Ok p.
Proof. intros Hs. cbn. by rewrite Hs. Qed.
Lemma looks_exists t f : tabled t f ->
  looks (trash_metadata_path_exists p) (fun b => b = bool_decide (is_Some (shape_at f p))) f.
Proof.
  intros ((Hf & Hd & _) & _ & Hs). unfold trash_metadata_path_exists.
  eapply looks_bind with (J := fun r => match r with
    | Ok _ => is_Some (shape_at f p) | Err e => (T /\ err_kind e <> NotFound) \/ (shape_at f p = None /\ err_kind e = NotFound) end).
  - apply looks_call; [|intros e HT He; by left]. intros _. destruct Hs as [Hs|[Hs _]].
    + rewrite (resolve_file f _ Hs). pose proof Hs as (i & n & Hi & Hn & _)%shape_at_Some. unfold stat.
      assert (Hl : lookup_inode f p = Some (i, n)) by by apply lookup_inode_Some. rewrite Hl. by eexists.
    + cbn. rewrite Hs. right. split; [done|]. by rewrite (missing_placed f p).
  - intros [m|e] Hm; [apply looks_ret; by rewrite bool_decide_true|]. destruct Hm as [[HT He]|[Hn Hk]].
    + rewrite decide_False by done. apply yields_fail; by intros ? <-.
    + rewrite decide_True by done. apply looks_ret. rewrite Hn. by rewrite bool_decide_false by by intros [].
Qed.
Lemma looks_open f s : wf f -> at_text f p s -> looks (open_read p) (fun r => match r with Ok i => content_of f i = Some (text_bytes s) | Err _ => T end) f.
Proof.
  intros Hf Hs. apply looks_call; [|done]. intros _. rewrite (resolve_file f s Hs).
  pose proof Hs as (i & n & Hi & Hn & Hsh)%shape_at_Some.
  assert (Hl : lookup_inode f p = Some (i, n)) by by apply lookup_inode_Some. rewrite Hl.
  apply content_inode. by exists n.
Qed.
(** One line read is one row. *)
Lemma looks_row f acc k m : row_ok m -> looks (trash_line p acc k (Ok (as_tsv m))) (fun t => t = <[tm_name m := m]> acc) f.
Proof.
  intros Hm. unfold trash_line. eapply looks_bind; [apply looks_check|]. intros [] _.
  eapply looks_bind with (J := fun l => l = as_tsv m); [apply looks_or_io; by apply looks_ret|]. intros ? ->.
  rewrite row_not_skipped by apply Hm. rewrite (parse_as_tsv m p (S k) Hm).
  eapply looks_bind with (J := fun m' => m' = m); [apply yields_lift; by intros ? <-|]. intros ? ->.
  eapply looks_bind; [apply looks_check|]. intros [] _. by apply looks_ret.
Qed.
Lemma looks_read t f : tabled t f -> looks (read_trash_metadata_checked p) (fun t' => t' = t) f.
Proof.
  intros Ht. pose proof Ht as ((Hf & _) & Hok & Hs). unfold read_trash_metadata_checked.
  eapply looks_bind; [apply looks_check|]. intros [] _. eapply looks_bind; [by apply (looks_exists t)|]. intros ? ->.
  destruct Hs as [Hs|[Hs ->]]; [|rewrite Hs, bool_decide_false by (by intros []); by apply looks_ret].
  rewrite bool_decide_true by by eexists. cbn [negb].
  eapply looks_bind; [apply looks_check|]. intros [] _.
  eapply looks_bind; [by apply looks_or_io, (looks_open f (table_text t))|]. intros i Hi.
  eapply looks_bind; [apply looks_check|]. intros [] _.
  eapply looks_bind with (J := fun t' => t' = t); [|intros ? ->; eapply looks_bind; [apply looks_check|]; intros [] _; by apply looks_ret].
  set (Inv acc (k : nat) ls f' := f = f' /\ exists l1 l2, values t = l1 ++ l2 /\ ls = as_tsv <$> l2 /\ acc = collect l1 ∅).
  eapply yields_weaken; [apply (yields_for_lines c T (eq f) Inv) with (s := table_text t)| | |].
  - intros ? <-. split; [done|]. split; [done|]. exists [], (values t). by rewrite table_lines.
  - intros acc k l ls. apply yields_at. intros ? [<- (l1 & [|m l2] & Hv & [= -> ->] & ->)].
    assert (Hm : row_ok m). { eapply Forall_forall; [by apply table_ok_rows|]. rewrite Hv. set_solver. }
    eapply yields_weaken; [by apply looks_row|done| |].
    + intros acc' f' [-> <-]. split; [done|]. exists (l1 ++ [m]), l2. split; [by rewrite <- app_assoc|]. split; [done|].
      unfold collect. by rewrite foldl_app.
    + by intros e f' Hx; exact Hx.
  - intros acc k ls e HT. unfold trash_line. apply yields_at. intros ? [<- _].
    eapply yields_bind; [apply looks_check|]. intros []. apply yields_at. intros ? [_ <-].
    eapply yields_bind with (J := fun _ _ => False); [apply yields_or_io, yields_ret; by intros ? <-|]. intros a w ??? [].
  - done.
  - intros acc f' (k & -> & l1 & l2 & Hv & Hn & ->). split; [|done].
    symmetry in Hn. apply fmap_nil_inv in Hn as ->. rewrite app_nil_r in Hv. rewrite <- Hv. by apply collect_values, table_ok_names.
  - done.
Qed.

(** ** Changing the table *)
(** The table [t'] is in the file; or trouble, and either table is. *)
Definition updated (t' : TrashTable) (f f' : Fs) : Prop := tabled t' f' /\ changes touches own f f'.
Definition spoiled (t' : TrashTable) (f f' : Fs) : Prop := T /\ unsettled (table_text t') f f'.
Lemma spoiled_same t' f : writable f -> T -> spoiled t' f f.
Proof. intros Hw HT. split; [done|]. by apply trash_writable_unsettled. Qed.
Lemma yields_write_table t t' f : tabled t f -> table_ok t' ->
  yields (eq f) (write_trash_metadata_checked p (values t')) (fun _ => updated t' f) (fun _ => spoiled t' f).
Proof.
  intros Ht Ht'. eapply yields_weaken; [apply yields_write; by eapply tabled_writable|done| |done].
  intros ? f' Hp. split; [exact (published_tabled t' f f' Ht' Hp)|]. by destruct Hp as (_ & _ & Hc).
Qed.
Lemma yields_append_entry t f m : tabled t f -> row_ok m ->
  yields (eq f) (append_trash_metadata_entry_checked p m)
    (fun _ => updated (<[tm_name m := m]> t) f) (fun _ => spoiled (<[tm_name m := m]> t) f).
Proof.
  intros Ht Hm. pose proof (tabled_writable _ _ Ht) as Hw.
  assert (HE : forall e : GfmError, T -> spoiled (<[tm_name m := m]> t) f f) by (intros; by apply spoiled_same).
  unfold append_trash_metadata_entry_checked.
  eapply looks_then; [apply looks_check| |exact HE]. intros [] _.
  eapply yields_bind; [apply yields_create_parent; [intros ? <-; split; apply Hw|by intros e ? <-; apply HE]|]. intros [].
  eapply looks_then; [apply looks_check| |exact HE]. intros [] _.
  eapply looks_then; [by apply (looks_read t)| |exact HE]. intros ? ->.
  do 2 (eapply looks_then; [apply looks_check| |exact HE]; intros [] _).
  apply (yields_write_table t); [done|]. apply table_ok_insert; [done|apply Ht].
Qed.
Definition trashed_row (original : FPath) (n : string) (now : N) : TrashRestoreMetadata :=
  mkTrashed n (show original) now true true None.
Lemma yields_append t f original n : tabled t f -> file_name original = Some n -> n <> "" -> starts_with "#" n = false ->
  yields (eq f) (append_trash_metadata_checked p original)
    (fun _ f' => exists now, updated (<[n := trashed_row original n now]> t) f f')
    (fun _ f' => exists now, spoiled (<[n := trashed_row original n now]> t) f f').
Proof.
  intros Ht Hn Hne Hs. pose proof (tabled_writable _ _ Ht) as Hw. unfold append_trash_metadata_checked, from_original_path. rewrite Hn.
  eapply looks_then; [apply looks_check| |]; [|intros e HT; exists 0%N; by apply spoiled_same]. intros [] _.
  rewrite decide_False by done.
  eapply yields_bind with (J := fun m f' => exists now, m = trashed_row original n now /\ (now < U128)%N /\ f = f').
  - eapply yields_bind; [apply yields_now|]. intros now. apply yields_ret. intros ? [Hnow <-]. by exists now.
  - intros m. apply yields_at. intros ? (now & -> & Hnow & <-).
    eapply yields_weaken; [apply (yields_append_entry t); [done|by split]|done| |]; intros; by exists now.
Qed.
Lemma yields_remove t f trashed n : tabled t f -> file_name trashed = Some n ->
  yields (eq f) (remove_trash_metadata_checked p trashed) (fun _ => updated (delete n t) f) (fun _ => spoiled (delete n t) f).
Proof.
  intros Ht Hn. pose proof (tabled_writable _ _ Ht) as Hw.
  assert (HE : forall e : GfmError, T -> spoiled (delete n t) f f) by (intros; by apply spoiled_same).
  unfold remove_trash_metadata_checked. rewrite Hn.
  do 2 (eapply looks_then; [apply looks_check| |exact HE]; intros [] _).
  eapply looks_then; [by apply (looks_read t)| |exact HE]. intros ? ->.
  do 2 (eapply looks_then; [apply looks_check| |exact HE]; intros [] _).
  apply (yields_write_table t); [done|]. apply table_ok_delete, Ht.
Qed.

(** *** Reconciling *)
(** A name that is one component of a path. *)
Definition simple_name (n : string) : Prop := n <> "" /\ n <> "." /\ n <> ".." /\ has_char SLASH n = false.
Lemma link_path_simple d n : simple_name n -> link_path d n = FileSystem.join d n.
Proof.
  intros (H1 & H2 & H3 & Hs). unfold link_path. rewrite split_on_none by done.
  assert (Ha : is_absolute n = false).
  { destruct n as [|a n]; [done|]. cbn [has_char] in Hs. unfold is_absolute. cbn [starts_with].
    case_decide as Ha; [done|]. apply decide_False. intros E. by apply Ha. }
  rewrite Ha. cbn. by rewrite decide_False, decide_False by tauto.
Qed.
Definition in_dir (f : Fs) (dir : FPath) (n : string) : Prop := is_Some (shape_at f (FileSystem.join dir n)).
#[export] Instance in_dir_dec f dir n : Decision (in_dir f dir n).
Proof. unfold in_dir. apply _. Defined.
Lemma looks_item f dir n : wf f -> shape_at f dir = Some ShDir -> simple_name n ->
  looks (path_exists_or_symlink (link_path dir n)) (fun b => b = bool_decide (in_dir f dir n)) f.
Proof.
  intros Hf Hd Hn. rewrite link_path_simple by done. unfold path_exists_or_symlink.
  eapply looks_bind with (J := fun r => match r with
    | Ok _ => in_dir f dir n | Err e => (T /\ err_kind e <> NotFound) \/ (~ in_dir f dir n /\ err_kind e = NotFound) end).
  - apply looks_call; [|intros e HT He; by left]. intros _. unfold stat, in_dir, shape_at.
    destruct (lookup_inode f (FileSystem.join dir n)) as [[i m]|] eqn:E; [by eexists|]. right.
    split; [by intros []|]. rewrite (missing_placed f); [done|done|]. exists dir. split; [apply parent_join|done].
  - intros [m|e] Hm; [apply looks_ret; by rewrite bool_decide_true|]. destruct Hm as [[HT He]|[Hx He]].
    + rewrite decide_False by done. apply yields_fail; by intros ? <-.
    + rewrite decide_True by done. apply looks_ret. by rewrite bool_decide_false.
Qed.
Lemma looks_stale f dir ns : wf f -> shape_at f dir = Some ShDir -> Forall simple_name ns -> forall acc,
  looks (mfor (fun stale name => check_control ;;
          (there <- path_exists_or_symlink (link_path dir name) ;
           mret (if (there : bool) then stale else stale ++ [name]))) acc ns)
    (fun stale => stale = acc ++ filter (fun n => ~ in_dir f dir n) ns) f.
Proof.
  intros Hf Hd Hns. induction Hns as [|n ns Hn Hns IH]; intros acc; simpl mfor.
  - apply looks_ret. by rewrite app_nil_r.
  - eapply looks_bind with (J := fun acc' => acc' = if decide (in_dir f dir n) then acc else acc ++ [n]).
    + eapply looks_bind; [apply looks_check|]. intros [] _. eapply looks_bind; [by apply looks_item|]. intros ? ->.
      apply looks_ret. by destruct (decide (in_dir f dir n)); [rewrite bool_decide_true|rewrite bool_decide_false].
    + intros ? ->. eapply yields_weaken; [apply IH|done| |by intros ?? Hx; exact Hx].
      intros stale f' [-> <-]. split; [|done]. rewrite filter_cons. destruct (decide (in_dir f dir n)).
      * by rewrite decide_False by tauto.
      * by rewrite decide_True, <- app_assoc.
Qed.
Lemma looks_forget f ns : forall t,
  looks (forget_all t ns) (fun t' => t' = foldl (fun t n => delete n t) t ns) f.
Proof.
  unfold forget_all. induction ns as [|n ns IH]; intros t; simpl mfor; [by apply looks_ret|].
  eapply looks_bind with (J := fun t' => t' = delete n t); [|intros ? ->; apply IH].
  eapply looks_bind; [apply looks_check|]. intros [] _. by apply looks_ret.
Qed.
Lemma foldl_delete (ns : list string) : forall (t : TrashTable) k,
  foldl (fun t n => delete n t) t ns !! k = if decide (k ∈ ns) then None else t !! k.
Proof.
  induction ns as [|n ns IH]; intros t k; [by rewrite decide_False by set_solver|]. cbn [foldl]. rewrite IH.
  destruct (decide (k ∈ ns)); [by rewrite decide_True by set_solver|].
  destruct (decide (k = n)) as [->|]; [by rewrite lookup_delete_eq, decide_True by set_solver|].
  by rewrite lookup_delete_ne, decide_False by set_solver.
Qed.
(** The rows whose item is in the trash. *)
Definition reconciled (f : Fs) (dir : FPath) (t : TrashTable) : TrashTable :=
  filter (fun e => in_dir f dir e.1) t.
Lemma forgotten_reconciled f dir t :
  foldl (fun t n => delete n t) t (filter (fun n => ~ in_dir f dir n) (keys t)) = reconciled f dir t.
Proof.
  apply map_eq. intros k. rewrite foldl_delete. unfold reconciled. rewrite map_lookup_filter.
  destruct (t !! k) as [m|] eqn:E; cbn.
  - destruct (decide (in_dir f dir k)) as [Hi|Hi].
    + rewrite decide_False by (rewrite list_elem_of_filter; tauto). by case_guard.
    + rewrite decide_True; [by case_guard|]. apply list_elem_of_filter. split; [done|]. apply keys_elem. by exists m.
  - by case_decide.
Qed.
Lemma yields_reconcile t f dir : tabled t f -> shape_at f dir = Some ShDir -> map_Forall (fun k _ => simple_name k) t ->
  yields (eq f) (reconcile_empty_trash_metadata_checked (Some p) dir)
    (fun _ => updated (reconciled f dir t) f) (fun _ => spoiled (reconciled f dir t) f).
Proof.
  intros Ht Hd Hs. pose proof (tabled_writable _ _ Ht) as Hw. pose proof Hw as (Hf & _).
  assert (HE : forall e : GfmError, T -> spoiled (reconciled f dir t) f f) by (intros; by apply spoiled_same).
  unfold reconcile_empty_trash_metadata_checked.
  eapply looks_then; [apply looks_check| |exact HE]. intros [] _.
  eapply looks_then; [by apply (looks_read t)| |exact HE]. intros ? ->.
  eapply looks_then; [apply looks_check| |exact HE]. intros [] _.
  eapply looks_then; [apply (looks_stale f dir (keys t)); [done|done|]| |exact HE].
  { apply Forall_forall. intros k [m Hk]%keys_elem. by apply (Hs k m). }
  intros ? ->. eapply looks_then; [apply looks_forget| |exact HE]. intros ? ->. cbn [app]. rewrite forgotten_reconciled.
  assert (Hok : table_ok (reconciled f dir t)).
  { intros k m Hk. apply map_lookup_filter_Some in Hk as [Hk _]. by apply (proj1 (proj2 Ht) k m). }
  set (t' := reconciled f dir t) in *.
  eapply yields_bind with (J := fun _ f' => updated t' f f' /\ unsettled (table_text t') f f').
  - destruct (Nat.eqb_spec (size t') (size t)) as [Heq|_].
    + assert (Hsub : t' ⊆ t) by apply map_filter_subseteq. apply yields_ret. intros ? <-.
      split; [|by apply trash_writable_unsettled]. split; [|apply changes_refl]. rewrite (map_subseteq_size_eq _ _ Hsub); [done|lia].
    + eapply yields_weaken; [apply yields_write, Hw|done| |done].
      intros ? f' Hp. split; [|by apply trash_published_unsettled]. split; [exact (published_tabled t' f f' Hok Hp)|]. by destruct Hp as (_ & _ & Hc).
  - intros []. eapply yields_weaken; [apply (yields_check c T (fun f' => updated t' f f' /\ unsettled (table_text t') f f') (fun _ => spoiled t' f))|done| |done].
    + intros e f' [_ Hu] HT. by split.
    + by intros ? f' [].
Qed.
End Publish.
