(* ===== verification/JournalSpec.v ===== *)
(** * File operations: what the operation journal says

    A line read back is the entry that was written; a journal read back is the
    entries that were appended; an append that fails leaves a beginning of its line,
    after which the journal cannot be read; what is recovered is decided by the
    last entry of each operation. *)
From Stdlib Require Import Ascii.
From S2P Require Import Prelude Types Text Order Control JobModel Retry Paths FileSystem FileFacts TextFiles OpModel OpTree Publish TrashSpec OpJournal.
#[local] Open Scope string_scope.
#[local] Open Scope list_scope.

(** ** Paths as text *)
Definition path_ok (p : FPath) : Prop := Forall simple_name p.
Lemma concat_join l : String.concat "/" l = Text.join "/" l.
Proof. induction l as [|a [|b l] IH]; [done..|]. cbn [String.concat Text.join] in *. by rewrite IH. Qed.
Lemma split_show p : p <> [] -> path_ok p -> split_on SLASH (show p) = "" :: p.
Proof.
  intros Hp Hok. unfold show. rewrite concat_join. change ("/" +:+ ?s) with ("" +:+ String SLASH s).
  rewrite split_on_app by done. f_equal. apply split_on_join; [done|].
  eapply Forall_impl; [exact Hok|]. by intros n (_ & _ & _ & Hn).
Qed.
(** A path printed and read is the path. *)
Lemma path_from_show p : path_ok p -> path_from (show p) = p.
Proof.
  intros Hok. destruct (decide (p = [])) as [->|Hp]; [reflexivity|].
  unfold path_from, link_path. rewrite split_show by done.
  assert (Hgo : forall l q, path_ok l -> foldl (fun p n => if decide (n = "" \/ n = ".") then p
                    else if decide (n = "..") then removelast p else p ++ [n]) q l = q ++ l).
  { induction l as [|n l IH]; intros q Hl; [by rewrite app_nil_r|]. apply Forall_cons in Hl as [(H1 & H2 & H3 & _) Hl].
    simpl. rewrite decide_False, decide_False by tauto. rewrite IH by done. by rewrite <- app_assoc. }
  case_match; simpl; by rewrite Hgo.
Qed.

(** ** Lines *)
Definition op_ok (o : Operation) : Prop :=
  match o with
  | OpCopy a b | OpMove a b | OpRename a b | OpRestore a b => path_ok a /\ path_ok b
  | OpDelete a | OpTrash a | OpEmptyTrash a => path_ok a
  end.
Definition entry_ok (e : JournalEntry) : Prop :=
  (entry_op_id e < U128)%N /\ (timestamp_nanos e < U128)%N /\ message e <> Some "" /\ op_ok (operation e).
Lemma decode_encode_status s : decode_status (encode_status s) = Ok s.
Proof. by destruct s. Qed.
Lemma decode_encode_operation o : op_ok o ->
  let '(kind, a, b) := encode_operation o in decode_operation kind a b = Ok o.
Proof. destruct o as [a b|a b|a b|a|a|a|a b]; cbn; [intros [Ha Hb]..|intros Ha|intros Ha|intros Ha|intros [Ha Hb]];
  unfold decode_operation; rewrite ?path_from_show by done; reflexivity. Qed.
Definition entry_fields (e : JournalEntry) : list string :=
  let '(op, from, to) := encode_operation (operation e) in
  [u128_to_string (entry_op_id e); encode_status (status e); u128_to_string (timestamp_nanos e); op;
   escape from; escape to; escape (default "" (message e))].
Lemma encode_entry_join e : encode_entry e = Text.join (String TAB "") (entry_fields e).
Proof. unfold encode_entry, entry_fields. by destruct (encode_operation _) as [[op a] b]. Qed.
Lemma entry_fields_plain e c : c ∈ [TAB; LF; CR] -> Forall (fun s => has_char c s = false) (entry_fields e).
Proof.
  intros Hc. unfold entry_fields.
  assert (Hs : has_char c (encode_status (status e)) = false) by (set_unfold in Hc; destruct (status e); by destruct_or! Hc; subst).
  assert (Hk : has_char c (encode_operation (operation e)).1.1 = false) by (set_unfold in Hc; destruct (operation e); by destruct_or! Hc; subst).
  destruct (encode_operation _) as [[op a] b]. cbn in Hk. repeat constructor; auto using nanos_plain; by apply escape_plain.
Qed.
Lemma entry_line_ok e : line_ok (encode_entry e).
Proof. rewrite encode_entry_join. split; apply join_plain; try done; apply entry_fields_plain; set_solver. Qed.
Lemma entry_split e : split_on TAB (encode_entry e) = entry_fields e.
Proof.
  rewrite encode_entry_join. apply split_on_join; [|apply entry_fields_plain; set_solver].
  unfold entry_fields. by destruct (encode_operation _) as [[op a] b].
Qed.
Lemma parse_encode_entry e : entry_ok e -> parse_entry (encode_entry e) = Ok e.
Proof.
  intros (Hi & Ht & Hm & Ho). unfold parse_entry. rewrite entry_split. unfold entry_fields.
  pose proof (decode_encode_operation _ Ho) as Hd. destruct (encode_operation (operation e)) as [[op a] b].
  unfold parse_number. rewrite !parse_u128_to_string by done. rewrite decode_encode_status.
  unfold unescape, escape. rewrite !unescape_escape, Hd.
  destruct e as [id s o [m|] ts]; cbn in *; [|done]. by rewrite decide_False by congruence.
Qed.
(** The text of a journal. *)
Definition entry_line (e : JournalEntry) : string := encode_entry e +:+ newline.
Definition journal_text (es : list JournalEntry) : string := unlines (encode_entry <$> es).
Lemma entries_text_snoc es e : journal_text (es ++ [e]) = journal_text es +:+ entry_line e.
Proof. unfold journal_text. rewrite fmap_app, unlines_app. cbn. by rewrite string_app_nil_r. Qed.
Lemma journal_lines es : lines (journal_text es) = encode_entry <$> es.
Proof. apply lines_unlines, Forall_fmap, Forall_true. intros e. apply entry_line_ok. Qed.

(** ** Appending *)
Definition begins (t s : string) : Prop := exists u, s = t +:+ u.
Lemma begins_app t s a : begins t a -> begins (s +:+ t) (s +:+ a).
Proof. intros [u ->]. exists u. by rewrite string_app_assoc. Qed.
Lemma begins_bytes (b : bytes) s : b `prefix_of` text_bytes s -> begins (text_of b) s /\ b = text_bytes (text_of b).
Proof.
  intros [k Hk]. assert (Hb : text_bytes (text_of b) = b) by apply String.list_ascii_of_string_of_list_ascii.
  split; [|done]. exists (text_of k). rewrite <- (text_of_bytes s), Hk. clear. unfold text_of.
  induction b as [|a b IH]; [done|]. cbn. by rewrite IH.
Qed.

Section Appending.
Context `{Platform} (c : Control) (T : Prop) (p : FPath).
Abbreviation yields := (yields (X := OpState) c T).

(** The file has the text, or is not there yet. *)
Definition written (s : string) (f : Fs) : Prop :=
  wf f /\ placed f p /\ (at_text f p s \/ (shape_at f p = None /\ s = "")).
(** [q] is not another name of the file. *)
Definition beside (f : Fs) (q : FPath) : Prop := q <> p /\ (names f !! q = names f !! p -> names f !! q = None).
(** The text has grown, and nothing else has changed. *)
Definition extended (s t : string) (f f' : Fs) : Prop :=
  written (s +:+ t) f' /\ forall q, beside f q -> shape_at f' q = shape_at f q.
Definition opened (s : string) (i : N) (f f' : Fs) : Prop :=
  wf f' /\ placed f' p /\ names f' !! p = Some i /\ content_of f' i = Some (text_bytes s) /\
  forall q, beside f q -> shape_at f' q = shape_at f q /\ names f' !! q <> Some i.

Lemma open_written s f : written s f ->
  exists i f', open_act id p f = (Ok i, f') /\ opened s i f f'.
Proof.
  intros (Hf & Hd & [Hs|[Hs ->]]).
  - pose proof Hs as (i & n & Hi & Hn & Hsh)%shape_at_Some.
    assert (Hc : content_of f i = Some (text_bytes s)) by (apply content_inode; by exists n).
    exists i, f. rewrite (open_act_file id f p i _ Hf Hi Hc). unfold id. rewrite put_content_same by done.
    split; [done|]. split_and!; [done..|]. intros q [Hq Hne]. split; [done|]. intros Hj. rewrite Hne in Hj; congruence.
  - apply shape_at_None in Hs; [|done]. exists (next_inode f), (attach p (mkInode (ShFile []) (initial_attrs f p (ShFile []))) f).
    rewrite open_act_new by done. split; [done|]. destruct Hd as (d & Hd & Hds). destruct (parent_Some _ _ Hd) as [n Hn].
    assert (Hat : forall q, shape_at (attach p (mkInode (ShFile []) (initial_attrs f p (ShFile []))) f) q =
      if decide (q = p) then Some (ShFile []) else shape_at f q) by (intros q; by apply shape_at_attach).
    split_and!.
    + by apply (wf_attach f _ d).
    + exists d. split; [done|]. rewrite Hat, decide_False; [done|]. intros E. rewrite Hn in E. symmetry in E. by apply app_self_nil in E.
    + cbn. by rewrite lookup_insert_eq.
    + by rewrite attach_content.
    + intros q [Hq _]. rewrite Hat, decide_False by done. split; [done|]. cbn. rewrite lookup_insert_ne by done.
      intros Hj%(wf_inode f Hf)%(wf_next f Hf). lia.
Qed.
Lemma opened_extended s t i f f1 : opened s i f f1 -> extended s t f (put_content i (text_bytes (s +:+ t)) f1).
Proof.
  intros (Hf & (d & Hd & Hds) & Hp & Hc & Hb).
  assert (Hat : forall q, shape_at (put_content i (text_bytes (s +:+ t)) f1) q =
    if decide (names f1 !! q = Some i) then Some (ShFile (text_bytes (s +:+ t))) else shape_at f1 q)
    by (intros q; by eapply put_content_at).
  split; [split; [|split]|].
  - by eapply put_content_wf.
  - exists d. split; [done|]. rewrite Hat, decide_False; [done|]. intros Hi.
    apply (content_at f1 d i) in Hc; [|done]. congruence.
  - left. unfold at_text. by rewrite Hat, decide_True.
  - intros q Hq. destruct (Hb q Hq) as [Hs Hn]. by rewrite Hat, decide_False.
Qed.
(** The line [e] is in the journal; or trouble, and a part of it at most. *)
Definition appended (s : string) (e : JournalEntry) (f f' : Fs) : Prop := extended s (entry_line e) f f'.
Definition torn (s : string) (e : JournalEntry) (f f' : Fs) : Prop :=
  f' = f \/ exists t, begins t (entry_line e) /\ extended s t f f'.

Lemma yields_append_line s t l i f f1 : opened s i f f1 ->
  yields (eq (put_content i (text_bytes (s +:+ t)) f1)) (or_io p (append_text i l))
    (fun _ f' => f' = put_content i (text_bytes (s +:+ t +:+ l)) f1)
    (fun _ f' => T /\ exists u, begins u l /\ f' = put_content i (text_bytes (s +:+ t +:+ u)) f1).
Proof.
  intros Ho. pose proof Ho as (_ & _ & _ & Hc & _). apply yields_or_io.
  eapply yields_weaken; [apply yields_append_text; by eapply put_content_get|done| |by intros ?? Hx; exact Hx].
  intros [[]|e] f'.
  - intros ->. rewrite <- text_bytes_app. erewrite put_content_twice by done. by rewrite string_app_assoc.
  - intros (HT & b & [Hb Eb]%begins_bytes & ->). split; [done|]. exists (text_of b). split; [done|].
    rewrite Eb at 1. rewrite <- text_bytes_app. erewrite put_content_twice by done. by rewrite string_app_assoc.
Qed.
Lemma yields_append_journal s e f : written s f ->
  yields (eq f) (append_journal p e) (fun _ => appended s e f) (fun _ f' => T /\ torn s e f f').
Proof.
  intros Hw. pose proof Hw as (Hf & Hd & _). unfold append_journal.
  assert (HE : forall (e' : GfmError) f', f = f' -> T -> T /\ torn s e f f') by (intros e' ? <- HT; split; [done|by left]).
  eapply yields_bind; [apply yields_create_parent; [by intros ? <-|exact HE]|]. intros [].
  destruct (open_written s f Hw) as (i & f1 & Hopen & Ho).
  assert (HE1 : forall t, begins t (entry_line e) -> T -> T /\ torn s e f (put_content i (text_bytes (s +:+ t)) f1)).
  { intros t Ht HT. split; [done|]. right. exists t. split; [done|]. by apply opened_extended. }
  eapply yields_bind with (J := fun j f' => j = i /\ f' = put_content i (text_bytes (s +:+ "")) f1).
  { apply yields_or_io, yields_sys.
    - intros f' err <- HT _. by apply (HE OUT_OF_FUEL).
    - intros f' cl <-. rewrite Hopen. split; [done|]. rewrite string_app_nil_r. symmetry. apply put_content_same, Ho. }
  intros j. apply yields_at. intros ? [-> ->].
  eapply yields_bind.
  { eapply yields_weaken; [by apply (yields_append_line s "" (encode_entry e) i f f1)|by intros ? <-|intros ? f' Hx; exact Hx|].
    intros err f' (HT & u & Hu & ->). apply HE1; [|done]. destruct Hu as [v Hv]. exists (v +:+ newline).
    unfold entry_line. by rewrite Hv, string_app_assoc. }
  intros []. eapply yields_weaken; [by apply (yields_append_line s (encode_entry e) newline i f f1)|by intros ? ->| |].
  - intros [] f' ->. by apply opened_extended.
  - intros err f' (HT & u & [v Hv] & ->). apply HE1; [|done]. exists v. unfold entry_line. by rewrite Hv, string_app_assoc.
Qed.
End Appending.

(** ** Reading *)
Section Reading.
Context `{Platform} (c : Control) (T : Prop) (p : FPath).
Abbreviation yields := (yields (X := OpState) c T).
Abbreviation looks m J := (fun f => yields (eq f) m (fun b f' => J b /\ f = f') (fun _ f' => T /\ f = f')).

Lemma looks_journal_exists s f : written p s f ->
  looks (journal_path_exists p) (fun b => b = bool_decide (is_Some (shape_at f p))) f.
Proof.
  intros (Hf & Hd & Hs). unfold journal_path_exists.
  eapply looks_bind with (J := fun r => match r with
    | Ok _ => is_Some (shape_at f p) | Err e => (T /\ err_kind e <> NotFound) \/ (shape_at f p = None /\ err_kind e = NotFound) end).
  - apply looks_call; [|intros e HT He; by left]. intros _. destruct Hs as [Hs|[Hs _]].
    + rewrite (resolve_file p f _ Hs). pose proof Hs as (i & n & Hi & Hn & _)%shape_at_Some. unfold stat.
      assert (Hl : lookup_inode f p = Some (i, n)) by by apply lookup_inode_Some. rewrite Hl. by eexists.
    + cbn. rewrite Hs. right. split; [done|]. by rewrite (missing_placed f p).
  - intros [m|e] Hm; [apply looks_ret; by rewrite bool_decide_true|]. destruct Hm as [[HT He]|[Hn Hk]].
    + rewrite decide_False by done. apply yields_fail; by intros ? <-.
    + rewrite decide_True by done. apply looks_ret. rewrite Hn. by rewrite bool_decide_false by by intros [].
Qed.
(** The loop, from any line on. *)
Abbreviation journal_body := (fun entries index line =>
      line <- or_io p (mret line) ;
      e <- mlift (journal_entry_at p index line) ;
      mret (entries ++ [e])).
Lemma journal_body_failed (I : Fs -> Prop) (E : GfmError -> Fs -> Prop) acc k e : (forall e f, I f -> T -> E e f) -> T ->
  yields I (journal_body acc k (Err e)) (fun _ _ => False) E.
Proof.
  intros HE HT. eapply yields_bind with (J := fun _ _ => False); [apply yields_or_io, yields_ret; intros f Hf; by apply HE|].
  intros a w ??? [].
Qed.
Lemma looks_read_journal es f : written p (journal_text es) f -> Forall entry_ok es ->
  looks (read_journal p) (fun es' => es' = es) f.
Proof.
  intros Hw Hok. unfold read_journal. eapply looks_bind; [by apply (looks_journal_exists (journal_text es))|]. intros ? ->.
  destruct Hw as (Hf & Hd & [Hs|[Hs Hn]]).
  2:{ rewrite Hs, bool_decide_false by (by intros []). apply looks_ret. apply (f_equal lines) in Hn.
      rewrite journal_lines in Hn. by destruct es. }
  rewrite bool_decide_true by by eexists. cbn [negb].
  eapply looks_bind; [by apply looks_or_io, (looks_open c T p f (journal_text es))|]. intros i Hi.
  set (Inv acc (k : nat) ls f' := f = f' /\ exists l, es = acc ++ l /\ ls = encode_entry <$> l).
  eapply yields_weaken; [apply (yields_for_lines c T (eq f) Inv journal_body (fun _ f' => T /\ f = f')) with (s := journal_text es)| | |].
  - intros ? <-. split; [done|]. split; [done|]. exists es. by rewrite journal_lines.
  - intros acc k l ls. apply yields_at. intros ? [<- ([|e l2] & Hv & [= -> ->])].
    assert (He : entry_ok e) by (eapply Forall_forall; [exact Hok|]; rewrite Hv; set_solver).
    eapply looks_then with (J := fun l => l = encode_entry e); [apply looks_or_io; by apply looks_ret| |done].
    intros ? ->. unfold journal_entry_at. rewrite parse_encode_entry by done.
    eapply looks_then with (J := fun e' => e' = e); [apply yields_lift; by intros ? <-| |done].
    intros ? ->. apply yields_ret. intros ? <-. split; [done|]. exists l2. by rewrite <- app_assoc.
  - intros acc k ls e HT. apply journal_body_failed; [|done]. intros e' f' [<- _] _. done.
  - done.
  - intros acc f' (k & <- & l & -> & Hn). split; [|done]. symmetry in Hn. apply fmap_nil_inv in Hn as ->. by rewrite app_nil_r.
  - done.
Qed.
(** A line that does not have seven fields stops the reading. *)
Lemma read_journal_stuck s es bad more f : at_text f p s -> written p s f -> Forall entry_ok es ->
  lines s = (encode_entry <$> es) ++ bad :: more -> length (split_on TAB bad) <> 7 ->
  yields (eq f) (read_journal p) (fun _ _ => False) (fun _ f' => f = f').
Proof.
  intros Hs Hw Hok Hlines Hbad. unfold read_journal.
  eapply looks_then; [by apply (looks_journal_exists s)| |done]. intros ? ->.
  rewrite bool_decide_true by by eexists. cbn [negb].
  eapply looks_then; [by apply looks_or_io, (looks_open c T p f s), Hs; apply Hw| |done]. intros i Hi.
  set (Inv acc (k : nat) ls f' := f = f' /\ exists l, es = acc ++ l /\ ls = (encode_entry <$> l) ++ bad :: more).
  eapply yields_weaken; [apply (yields_for_lines c T (eq f) Inv journal_body (fun _ f' => f = f')) with (s := s)| | |].
  - intros ? <-. split; [done|]. split; [done|]. by exists es.
  - intros acc k l ls. apply yields_at. intros ? [<- ([|e l2] & Hv & Heq)].
    + injection Heq as -> ->. eapply looks_then with (J := fun l => l = bad); [apply looks_or_io; by apply looks_ret| |done].
      intros ? ->. eapply yields_bind with (J := fun _ _ => False); [|intros a w ??? []].
      apply yields_lift. intros ? <-. unfold journal_entry_at, parse_entry.
      destruct (split_on TAB bad) as [|? [|? [|? [|? [|? [|? [|? [|? ?]]]]]]]]; done.
    + injection Heq as -> ->.
      assert (He : entry_ok e) by (eapply Forall_forall; [exact Hok|]; rewrite Hv; set_solver).
      eapply looks_then with (J := fun l => l = encode_entry e); [apply looks_or_io; by apply looks_ret| |done].
      intros ? ->. unfold journal_entry_at. rewrite parse_encode_entry by done.
      eapply looks_then with (J := fun e' => e' = e); [apply yields_lift; by intros ? <-| |done].
      intros ? ->. apply yields_ret. intros ? <-. split; [done|]. exists l2. by rewrite <- app_assoc.
  - intros acc k ls e HT. apply journal_body_failed; [|done]. intros e' f' [<- _] _. done.
  - done.
  - intros acc f' (k & <- & l & -> & Hn). by destruct l.
  - done.
Qed.
End Reading.

(** *** A torn line *)
Lemma split_on_length ch a b : length (split_on ch (a +:+ b)) + 1 = length (split_on ch a) + length (split_on ch b).
Proof.
  induction a as [|x a IH]; [change ("" +:+ b) with b; cbn [split_on length]; lia|]. change (String x a +:+ b) with (String x (a +:+ b)). cbn [split_on].
  case_decide; [cbn [length]; lia|]. pose proof (split_on_nonempty ch (a +:+ b)). pose proof (split_on_nonempty ch a).
  destruct (split_on ch (a +:+ b)), (split_on ch a); cbn in *; try done; lia.
Qed.
Lemma lines_after es rest : lines (journal_text es +:+ rest) = (encode_entry <$> es) ++ lines rest.
Proof.
  induction es as [|e es IH]; [done|]. unfold journal_text in *. cbn [fmap list_fmap]. destruct (entry_line_ok e) as [Hlf Hcr].
  change (unlines (encode_entry e :: ?l) +:+ rest) with ((encode_entry e +:+ newline +:+ unlines l) +:+ rest).
  rewrite !string_app_assoc. change (newline +:+ ?s) with (String LF s).
  unfold lines in *. rewrite split_on_app by done. set (fs := split_on LF _) in *.
  pose proof (split_on_nonempty LF (unlines (encode_entry <$> es) +:+ rest)) as Hne. fold fs in Hne.
  destruct fs as [|g fs]; [done|]. cbn [lines_of_fields] in *. rewrite strip_cr_no_cr by done. by rewrite IH.
Qed.
(** The first line of a torn journal after its good entries. *)
Lemma torn_lines es t later : line_ok t -> 2 <= length (split_on TAB t) <= 6 ->
  exists bad more, lines (journal_text es +:+ t +:+ journal_text later) = (encode_entry <$> es) ++ bad :: more /\
    length (split_on TAB bad) <> 7.
Proof.
  intros [Hlf Hcr] Ht. destruct later as [|e later].
  - exists t, []. change (journal_text []) with "". rewrite string_app_nil_r, lines_after. split; [|lia]. f_equal.
    unfold lines. rewrite split_on_none by done. destruct t; [cbn in Ht; lia|done].
  - exists (t +:+ encode_entry e), (lines (journal_text later)). rewrite lines_after. split.
    + f_equal. destruct (entry_line_ok e) as [Hlf' Hcr']. unfold journal_text. cbn [fmap list_fmap].
      change (unlines (encode_entry e :: ?l)) with (encode_entry e +:+ String LF (unlines l)). rewrite <- string_app_assoc.
      unfold lines. rewrite split_on_app by (by rewrite has_char_app, Hlf, Hlf').
      pose proof (split_on_nonempty LF (unlines (encode_entry <$> later))) as Hne.
      destruct (split_on LF _) as [|g fs] eqn:E; [done|]. cbn [lines_of_fields].
      rewrite strip_cr_no_cr by (by rewrite has_char_app, Hcr, Hcr'). done.
    + pose proof (split_on_length TAB t (encode_entry e)) as Hl. rewrite entry_split in Hl.
      assert (length (entry_fields e) = 7) by (unfold entry_fields; by destruct (encode_operation _) as [[? ?] ?]). lia.
Qed.

(** ** What is recovered *)
Definition entries_of (id : N) (es : list JournalEntry) : list JournalEntry := filter (fun e => entry_op_id e = id) es.
Definition starts (id : N) (es : list JournalEntry) : N :=
  N.of_nat (length (filter (fun e => status e = Started) (entries_of id es))).
(** The state of an operation whose last entry is [e]. *)
Definition state_after (es : list JournalEntry) (e : JournalEntry) : OperationRecoveryState :=
  mkRecoveryState (entry_op_id e) (operation e) (status e) (starts (entry_op_id e) es) (message e) (timestamp_nanos e).
Definition recovery_states (es : list JournalEntry) : list OperationRecoveryState := foldl add_entry [] es.

Lemma entries_of_snoc id es e : entries_of id (es ++ [e]) = entries_of id es ++ (if decide (entry_op_id e = id) then [e] else []).
Proof. unfold entries_of. by rewrite filter_app. Qed.
Lemma starts_snoc id es e : starts id (es ++ [e]) =
  (starts id es + if decide (entry_op_id e = id /\ status e = Started) then 1 else 0)%N.
Proof.
  unfold starts. rewrite entries_of_snoc, filter_app, length_app. rewrite Nat2N.inj_add. f_equal.
  case_decide as E1; cbn [filter list_filter]; [|by rewrite decide_False by tauto].
  case_decide as E2; [by rewrite decide_True by done|by rewrite decide_False by tauto].
Qed.
Lemma add_entry_elem states e : NoDup (state_id <$> states) -> forall s, s ∈ add_entry states e <->
  (s ∈ states /\ state_id s <> entry_op_id e) \/
  (exists s0, s0 ∈ states /\ state_id s0 = entry_op_id e /\ s = next_state s0 e) \/
  ((forall s0, s0 ∈ states -> state_id s0 <> entry_op_id e) /\ s = new_state e).
Proof.
  induction states as [|s0 states IH]; intros Hd s; cbn [add_entry fmap list_fmap] in *; [set_solver|].
  apply NoDup_cons in Hd as [Hn Hd]. case_decide as E.
  - assert (Hother : forall s1, s1 ∈ states -> state_id s1 <> entry_op_id e).
    { intros s1 Hs1 E1. apply Hn. rewrite E, <- E1. apply list_elem_of_fmap. by exists s1. }
    rewrite !elem_of_cons. split.
    + intros [->|Hs]; [right; left; exists s0; split; [by left|done]|left; split; [by right|by apply Hother]].
    + intros [[[->|Hs] Hne]|[(s1 & Hs1 & E1 & ->)|[Hnone _]]]; [done|by right| |exfalso; by apply (Hnone s0); [left|]].
      apply elem_of_cons in Hs1 as [->|Hs1]; [by left|by destruct (Hother s1)].
  - rewrite elem_of_cons, (IH Hd). split.
    + intros [->|[[Hs Hne]|[(s1 & Hs1 & E1 & ->)|[Hnone ->]]]].
      * left. split; [by left|done].
      * left. split; [by right|done].
      * right. left. exists s1. split; [by right|done].
      * right. right. split; [|done]. by intros s1 [->|Hs1]%elem_of_cons; [|apply Hnone].
    + intros [[[->|Hs]%elem_of_cons Hne]|[(s1 & [->|Hs1]%elem_of_cons & E1 & ->)|[Hnone ->]]]; [by left|right; by left|done| |].
      * right. right. left. by exists s1.
      * right. right. right. split; [|done]. intros s1 Hs1. apply Hnone. by right.
Qed.
Lemma state_ids_added states e : state_id <$> add_entry states e =
  if decide (entry_op_id e ∈ state_id <$> states) then state_id <$> states else (state_id <$> states) ++ [entry_op_id e].
Proof.
  induction states as [|s states IH]; [done|]. cbn [add_entry]. destruct (decide (state_id s = entry_op_id e)) as [E|E]; rewrite !fmap_cons.
  - by rewrite decide_True by (cbn; rewrite E; left).
  - rewrite IH. case_decide as E2.
    + by rewrite decide_True by (by right).
    + rewrite decide_False; [done|]. by intros [E3|]%elem_of_cons.
Qed.
Lemma recovery_states_spec es :
  NoDup (state_id <$> recovery_states es) /\
  forall s, s ∈ recovery_states es <-> exists e, last (entries_of (state_id s) es) = Some e /\ s = state_after es e.
Proof.
  unfold recovery_states. induction es as [|e es [Hd IH]] using rev_ind.
  { split; [constructor|]. intros s. split; [intros []%elem_of_nil|]. by intros (e & He & _). }
  rewrite foldl_snoc. split.
  - rewrite state_ids_added. case_decide as E; [done|]. apply NoDup_app. split; [done|]. split; [|apply NoDup_singleton].
    by intros x Hx ->%list_elem_of_singleton.
  - assert (Hlast : forall id, last (entries_of id (es ++ [e])) = if decide (entry_op_id e = id) then Some e else last (entries_of id es)).
    { intros id. rewrite entries_of_snoc. case_decide; [apply last_snoc|by rewrite app_nil_r]. }
    assert (Hsame : forall e', entry_op_id e <> entry_op_id e' -> state_after (es ++ [e]) e' = state_after es e').
    { intros e' Hne. unfold state_after. rewrite starts_snoc, decide_False by tauto. by rewrite N.add_0_r. }
    assert (Hid : forall id e', last (entries_of id es) = Some e' -> entry_op_id e' = id).
    { intros id e' Hl%last_Some_elem_of. by apply list_elem_of_filter in Hl as [? _]. }
    intros s. rewrite add_entry_elem by done. split.
    + intros [[Hs Hne]|[(s0 & Hs0 & E & ->)|[Hnone ->]]].
      * apply IH in Hs as (e' & He' & ->). exists e'. pose proof (Hid _ _ He') as Hi. cbn in *. rewrite Hlast, decide_False by congruence.
        by rewrite Hsame by congruence.
      * exists e. cbn. rewrite Hlast, decide_True by done. split; [done|]. apply IH in Hs0 as (e' & He' & ->). cbn in *.
        unfold state_after, next_state. cbn. rewrite E, starts_snoc. f_equal.
        case_decide as E2; [by rewrite decide_True|]. rewrite decide_False by tauto. by rewrite N.add_0_r.
      * exists e. cbn. rewrite Hlast, decide_True by done. split; [done|]. unfold state_after, new_state. f_equal.
        assert (Hz : starts (entry_op_id e) es = 0%N).
        { unfold starts. destruct (last (entries_of (entry_op_id e) es)) as [e'|] eqn:El.
          - exfalso. pose proof (Hid _ _ El) as Hi. apply (Hnone (state_after es e')); [|done]. apply IH. exists e'. cbn. by rewrite Hi.
          - apply last_None in El. by rewrite El. }
        rewrite starts_snoc, Hz. case_decide as E2; [by rewrite decide_True|by rewrite decide_False by tauto].
    + intros (e' & He' & ->). rewrite Hlast in He'. cbn in He'. case_decide as E.
      * injection He' as <-. right. destruct (last (entries_of (entry_op_id e) es)) as [e1|] eqn:El.
        -- left. pose proof (Hid _ _ El) as Hi. exists (state_after es e1). split; [apply IH; exists e1; cbn; by rewrite Hi|]. split; [done|].
           unfold state_after, next_state. cbn. rewrite Hi, starts_snoc. f_equal.
           case_decide as E2; [by rewrite decide_True by tauto|]. rewrite decide_False by tauto. by rewrite N.add_0_r.
        -- right. split.
           ++ intros s0 Hs0 E0. apply IH in Hs0 as (e2 & He2 & _). rewrite E0, El in He2. done.
           ++ unfold state_after, new_state. f_equal. rewrite starts_snoc.
              assert (Hz : starts (entry_op_id e) es = 0%N) by (unfold starts; apply last_None in El; by rewrite El).
              rewrite Hz. case_decide as E2; [by rewrite decide_True by tauto|by rewrite decide_False by tauto].
      * left. split; [|cbn; congruence]. rewrite Hsame by done. apply IH. by exists e'.
Qed.

(** When the last entry [e] of an operation started [n] times is to be recovered,
    and whether a new line says that it starts. *)
Definition recovers (policy : OperationRecoveryPolicy) (n : N) (e : JournalEntry) : option bool :=
  match status e with
  | Started => Some false
  | Paused => Some true
  | Failed =>
      if retry_failed policy && (n <? N.max (recovery_max_attempts policy) 1)%N &&
         retryable_failure_message (message e) (recovery_max_attempts policy) n
      then Some true else None
  | _ => None
  end.
Lemma recovery_plan_recovers policy es e : recovery_plan policy (state_after es e) =
  mkRecoveryPlan e <$> recovers policy (starts (entry_op_id e) es) e.
Proof.
  unfold recovery_plan, recovers, state_after. cbn. destruct e as [id [] o m ts]; cbn;
    rewrite ?andb_true_r, ?andb_false_r; cbn; try done.
  by destruct (_ && _ && _).
Qed.

Lemma last_entry_snoc es e : last (entries_of (entry_op_id e) (es ++ [e])) = Some e.
Proof. by rewrite entries_of_snoc, decide_True, last_snoc. Qed.
(** What is recovered, from the states. *)
Lemma recovered_elem es policy plan : plan ∈ recoverable_operations es policy <->
  last (entries_of (entry_op_id (plan_entry plan)) es) = Some (plan_entry plan) /\
  recovers policy (starts (entry_op_id (plan_entry plan)) es) (plan_entry plan) = Some (append_started plan).
Proof.
  unfold recoverable_operations. rewrite list_elem_of_omap. split.
  - intros (s & Hs & Hp). rewrite sort_by_perm in Hs. apply recovery_states_spec in Hs as (e & He & ->). rewrite recovery_plan_recovers in Hp.
    apply fmap_Some in Hp as (b & Hb & ->). by cbn in *.
  - intros [Hl Hr]. destruct plan as [e again]. cbn in *. exists (state_after es e). split.
    + rewrite sort_by_perm. apply recovery_states_spec. by exists e.
    + by rewrite recovery_plan_recovers, Hr.
Qed.

Lemma recovery_plan_entry policy s plan : recovery_plan policy s = Some plan ->
  entry_op_id (plan_entry plan) = state_id s /\ timestamp_nanos (plan_entry plan) = state_timestamp s.
Proof. unfold recovery_plan. cbv zeta. do 2 (case_decide; [by intros [= <-]|]). done. Qed.
Lemma omap_fmap_sublist {A B C} (f : A -> option B) (g : B -> C) (h : A -> C) l :
  (forall a b, f a = Some b -> g b = h a) -> (g <$> omap f l) `sublist_of` (h <$> l).
Proof.
  intros Hgh. induction l as [|a l IH]; [constructor|]. cbn. destruct (f a) as [b|] eqn:E.
  - cbn. rewrite (Hgh a b E). by apply sublist_skip.
  - by apply sublist_cons.
Qed.
Lemma StronglySorted_omap {A B} (R : relation A) (R' : relation B) (f : A -> option B) l : StronglySorted R l ->
  (forall a a' b b', R a a' -> f a = Some b -> f a' = Some b' -> R' b b') -> StronglySorted R' (omap f l).
Proof.
  intros Hs Hr. induction Hs as [|a l _ IH Ha]; [constructor|]. cbn. destruct (f a) as [b|] eqn:E; [|exact IH].
  constructor; [exact IH|]. apply Forall_forall. intros b' (a' & Ha' & Hb')%list_elem_of_omap.
  eapply Hr; [|exact E|exact Hb']. by eapply Forall_forall in Ha.
Qed.

(** C26: An operation is recovered exactly when the last entry of its number says
    that it started or paused, or failed with a message worth a retry while attempts
    are left (and the policy retries); the plan has that last entry, and a new line
    says that it starts unless the last one does.  No number is recovered twice, and
    the plans are in the order of their last entries. *)
Theorem recovered_spec es policy :
  let plans := recoverable_operations es policy in
  (forall plan, plan ∈ plans <->
     last (entries_of (entry_op_id (plan_entry plan)) es) = Some (plan_entry plan) /\
     recovers policy (starts (entry_op_id (plan_entry plan)) es) (plan_entry plan) = Some (append_started plan)) /\
  NoDup ((fun plan => entry_op_id (plan_entry plan)) <$> plans) /\
  StronglySorted (key_le_of (fun plan => (timestamp_nanos (plan_entry plan), entry_op_id (plan_entry plan)))) plans.
Proof.
  cbv zeta. split; [intros plan; apply recovered_elem|]. unfold recoverable_operations.
  set (key := fun s => (state_timestamp s, state_id s)). pose proof (sort_by_sorted key (recovery_states es)) as Hsort.
  pose proof (sort_by_perm key (recovery_states es)) as Hperm. pose proof (recovery_states_spec es) as [Hd _].
  fold (recovery_states es). split.
  - eapply sublist_NoDup; [|apply (omap_fmap_sublist (recovery_plan policy) _ state_id)].
    + by rewrite Hperm.
    + intros s plan Hp. by apply recovery_plan_entry in Hp as (Hi & _).
  - eapply StronglySorted_omap; [exact Hsort|]. intros s1 s2 p1 p2 Hle H1' H2'. unfold key_le_of in *.
    apply recovery_plan_entry in H1' as (-> & ->), H2' as (-> & ->). exact Hle.
Qed.

(** The journal read after an appended entry is the journal before with that
    entry at its end.  An append that fails leaves the entries, and after them at
    most a beginning of the line; no other file changes either way. *)
Theorem journal_append_spec `{Platform} c (w w1 w2 : OW) p es e r r' :
  honest w -> timely w -> written p (journal_text es) (fsys w) -> Forall entry_ok es -> entry_ok e ->
  run (append_journal p e) c w = (r, w1) -> run (read_journal p) c w1 = (r', w2) ->
  match r with
  | Ok _ => fsys w2 = fsys w1 /\ match r' with Ok es' => es' = es ++ [e] | Err _ => trouble c w end
  | Err _ => trouble c w /\ exists t, begins t (entry_line e) /\ written p (journal_text es +:+ t) (fsys w1)
  end /\ forall q, beside p (fsys w) q -> shape_at (fsys w1) q = shape_at (fsys w) q.
Proof.
  intros Ho Hl Hw Hes He Hrun Hrun'.
  pose proof (ens_run c w _ _ _ _ (yields_append_journal c (trouble c w) p (journal_text es) e (fsys w) Hw w (fun x => x) Ho Hl eq_refl) Hrun) as [Hk Hr].
  destruct r as [[]|err].
  - destruct Hr as [Hw1 Hb]. split; [|done]. rewrite <- entries_text_snoc in Hw1.
    assert (Hok : Forall entry_ok (es ++ [e])) by (apply Forall_app; by rewrite Forall_singleton).
    pose proof (yields_run c (trouble c w) _ _ _ _ w1 r' w2 (looks_read_journal c (trouble c w) p (es ++ [e]) (fsys w1) Hw1 Hok)
      (fun x => trouble_kin c w w1 Hk x) (honest_kin w w1 Hk Ho) (timely_kin w w1 Hk Hl) eq_refl Hrun') as Hr'.
    destruct r' as [es'|err]; by destruct Hr' as [? ->].
  - destruct Hr as [HT [->|(t & Ht & [Hw1 Hb])]]; [|by split; [split; [done|exists t]|]].
    split; [|done]. split; [done|]. exists "". rewrite string_app_nil_r. split; [by eexists|done].
Qed.
