(* ===== verification/Preserve.v ===== *)
(** * File operations: keeping metadata ([preserve.rs])

    What a copy carries over besides the content: owner, permissions, times,
    extended attributes, access control lists and file flags, each either kept,
    reported as degraded when the volume does not support it, or an error.  The
    crates that do it ([rustix], [filetime], [xattr], [exacl], [nix]) are the
    class [AttrCalls]: what each call writes. *)
From S2P Require Import Prelude Types Text Control FileSystem FileFacts OpModel OpTree.
#[local] Open Scope string_scope.
#[local] Open Scope list_scope.

Class AttrCalls : Type := {
  chown : N -> N -> Attrs -> Attrs;
  set_file_times : SystemTime -> SystemTime -> Attrs -> Attrs;
  set_symlink_file_times : SystemTime -> SystemTime -> Attrs -> Attrs;
  xattr_names : Attrs -> list string;
  xattr_get : string -> Attrs -> option bytes;
  xattr_set : string -> bytes -> Attrs -> Attrs;
  getfacl : Attrs -> list string;
  setfacl : list string -> Attrs -> Attrs;
  chflags : N -> Attrs -> Attrs
}.

(** The documented effects: each call writes its attributes; a change of owner may
    also clear permission bits. *)
Class AttrLaws `{AttrCalls} : Prop := {
  chown_writes u g a : uid (chown u g a) = u /\ gid (chown u g a) = g /\
    accessed (chown u g a) = accessed a /\ modified (chown u g a) = modified a /\
    created (chown u g a) = created a /\ st_flags (chown u g a) = st_flags a /\
    xattrs (chown u g a) = xattrs a /\ acl (chown u g a) = acl a;
  times_written at_ mt a : set_file_times at_ mt a =
    mkAttrs (permissions a) (uid a) (gid a) at_ mt (created a) (st_flags a) (blocks a) (xattrs a) (acl a);
  names_listed n a : n ∈ xattr_names a <-> is_Some (xattrs a !! n);
  xattr_read n a : xattr_get n a = xattrs a !! n;
  xattr_written n v a : xattr_set n v a =
    mkAttrs (permissions a) (uid a) (gid a) (accessed a) (modified a) (created a) (st_flags a) (blocks a)
      (<[n := v]> (xattrs a)) (acl a);
  acl_read a : getfacl a = acl a;
  acl_written l a : setfacl l a =
    mkAttrs (permissions a) (uid a) (gid a) (accessed a) (modified a) (created a) (st_flags a) (blocks a)
      (xattrs a) l;
  flags_written n a : chflags n a =
    mkAttrs (permissions a) (uid a) (gid a) (accessed a) (modified a) (created a) n (blocks a)
      (xattrs a) (acl a)
}.

Abbreviation MetadataPreservationReport := (list OperationMetadataDegradation) (only parsing).

(** The tests on errors: a raw code of the first list, or a kind of the second. *)
Definition error_is `{Libc} (codes : list Z) (kinds : list ErrorKind) (e : IoError) : bool :=
  match raw_os_error e with Some z => bool_decide (z ∈ codes) | None => false end ||
  bool_decide (err_kind e ∈ kinds).

Section Preserve.
Context `{Platform, Libc, AttrCalls}.

Definition ownership_preservation_unsupported : IoError -> bool :=
  error_is [C_EPERM; C_EACCES; C_ENOTSUP] [PermissionDenied; Unsupported].
Definition time_preservation_unsupported : IoError -> bool :=
  error_is [C_ENOTSUP; C_EPERM; C_EACCES] [Unsupported; PermissionDenied].
Definition xattr_copy_unsupported : IoError -> bool :=
  error_is [C_ENOTSUP; C_ENODATA; C_ENOATTR; C_EPERM; C_EACCES] [Unsupported; NotFound; PermissionDenied].
Definition acl_copy_unsupported : IoError -> bool :=
  error_is [C_ENOTSUP; C_ENOSYS; C_ENOENT; C_EPERM; C_EACCES] [Unsupported; NotFound; PermissionDenied].
Definition file_flag_preservation_unsupported : IoError -> bool :=
  error_is [C_ENOTSUP; C_EPERM; C_EACCES; C_EROFS] [Unsupported; PermissionDenied].

(** The attributes at a path, not following a link, as one call reads or writes them. *)
Definition get_attr {A} (p : FPath) (get : Attrs -> A) : IO (X := OpState) A :=
  sys (fun _ f => (match lookup_inode f p with
                   | Some (_, n) => Ok (get (attrs n))
                   | None => Err (missing f p)
                   end, f)).
Definition set_link_attrs (p : FPath) (change : Attrs -> Attrs) : IO (X := OpState) unit :=
  sys (fun _ f => match lookup_inode f p with
                  | Some (i, n) => (Ok tt, put_inode i (mkInode (shape n) (change (attrs n))) f)
                  | None => (Err (missing f p), f)
                  end).

(** A call whose unsupported failures are reported. *)
Definition degrade (unsupported : IoError -> bool) (shown : FPath) (kind : OperationMetadataDegradationKind)
    (text : string) (report : MetadataPreservationReport) (r : Result unit IoError) (failing : FPath) :
    Op MetadataPreservationReport :=
  match r with
  | Ok _ => mret report
  | Err e =>
      if unsupported e then mret (report ++ [mkDegradation shown kind (text +:+ err_text e)])
      else mfail (Io (show failing) (err_text e))
  end.

Definition preserve_ownership (to : FPath) (m : Metadata) (report : MetadataPreservationReport) :
    Op MetadataPreservationReport :=
  if is_symlink m then mret report
  else
    r <- set_attrs to (chown (uid (m_attrs m)) (gid (m_attrs m))) ;
    degrade ownership_preservation_unsupported to Ownership "ownership was not preserved: " report r to.
Definition with_permissions (n : N) (a : Attrs) : Attrs :=
  mkAttrs n (uid a) (gid a) (accessed a) (modified a) (created a) (st_flags a) (blocks a) (xattrs a) (acl a).
Definition with_created (t : SystemTime) (a : Attrs) : Attrs :=
  mkAttrs (permissions a) (uid a) (gid a) (accessed a) (modified a) t (st_flags a) (blocks a) (xattrs a) (acl a).
Definition preserve_permissions (to : FPath) (m : Metadata) : Op unit :=
  or_io to (set_attrs to (with_permissions (permissions (m_attrs m)))).

(** On macOS the creation time is always among the metadata. *)
Definition preserve_creation_time (to : FPath) (m : Metadata) (report : MetadataPreservationReport) :
    Op MetadataPreservationReport :=
  or_io to (open_read to) ;;
  (r <- set_attrs to (with_created (created (m_attrs m))) ;
   degrade time_preservation_unsupported to CreatedTime "creation time was not preserved: " report r to).
Definition preserve_times (to : FPath) (m : Metadata) (report : MetadataPreservationReport) :
    Op MetadataPreservationReport :=
  or_io to (set_attrs to (set_file_times (accessed (m_attrs m)) (modified (m_attrs m)))) ;;
  preserve_creation_time to m report.
Definition preserve_symlink_times (to : FPath) (m : Metadata) : Op MetadataPreservationReport :=
  r <- set_link_attrs to (set_symlink_file_times (accessed (m_attrs m)) (modified (m_attrs m))) ;
  degrade time_preservation_unsupported to SymlinkTimes "symlink timestamps were not preserved: " [] r to.

Definition xattr_degradation_kind (n : string) : OperationMetadataDegradationKind :=
  if decide (n = "com.apple.FinderInfo") then FinderInfo
  else if decide (n = "com.apple.ResourceFork") then ResourceFork
  else if decide (n = "com.apple.quarantine") then Quarantine
  else ExtendedAttribute.
Definition preserve_xattr (from to : FPath) (report : MetadataPreservationReport) (n : string) :
    Op MetadataPreservationReport :=
  value <- get_attr from (xattr_get n) ;
  match value with
  | Ok (Some v) =>
      r <- set_link_attrs to (xattr_set n v) ;
      degrade xattr_copy_unsupported to (xattr_degradation_kind n)
        ("extended attribute " +:+ n +:+ " was not preserved: ") report r to
  | Ok None => mret report
  | Err e =>
      degrade xattr_copy_unsupported from (xattr_degradation_kind n)
        ("extended attribute " +:+ n +:+ " could not be read: ") report (Err e) from
  end.
Definition preserve_xattrs (from to : FPath) : Op MetadataPreservationReport :=
  ns <- get_attr from xattr_names ;
  match ns with
  | Ok ns => mfor (preserve_xattr from to) [] ns
  | Err e =>
      degrade xattr_copy_unsupported from ExtendedAttribute "extended attributes could not be listed: " []
        (Err e) from
  end.

Definition preserve_acls (from to : FPath) (report : MetadataPreservationReport) :
    Op MetadataPreservationReport :=
  entries <- get_attr from getfacl ;
  match entries with
  | Err e =>
      degrade acl_copy_unsupported from AccessControlList "access control lists could not be read: " report
        (Err e) from
  | Ok [] => mret report
  | Ok entries =>
      r <- set_attrs to (setfacl entries) ;
      degrade acl_copy_unsupported to AccessControlList "access control lists were not preserved: " report r to
  end.
Definition preserve_file_flags (to : FPath) (m : Metadata) (report : MetadataPreservationReport) :
    Op MetadataPreservationReport :=
  if (st_flags (m_attrs m) =? 0)%N || is_symlink m then mret report
  else
    r <- set_attrs to (chflags (st_flags (m_attrs m))) ;
    degrade file_flag_preservation_unsupported to FileFlags "file flags were not preserved: " report r to.

Definition preserve_metadata (from to : FPath) (m : Metadata) : Op MetadataPreservationReport :=
  report <- preserve_ownership to m [] ;
  preserve_permissions to m ;;
  (report <- preserve_times to m report ;
   more <- preserve_xattrs from to ;
   report <- preserve_acls from to (report ++ more) ;
   preserve_file_flags to m report).
End Preserve.
