(* ===== verification/Copy.v ===== *)
(** * File operations: copying ([transfer.rs], [copy.rs])

    Bytes are copied in chunks, with holes kept when the volume supports them, or
    the file is cloned; directories are copied entry by entry, fresh, resumed or
    merged; a destination is replaced by way of a hidden sibling.  [fclonefileat]
    is the class [Cloning]. *)
From Stdlib Require Import Ascii.
From S2P Require Import Prelude Types Text Control FileSystem OpModel OpTree Preserve.
#[local] Open Scope string_scope.
#[local] Open Scope list_scope.

(** [fclonefileat], after the source is opened: it makes the new file or fails. *)
Class Cloning : Type := { fclonefileat : FPath -> FPath -> Call -> Fs -> Result unit IoError * Fs }.
(** [PackagePolicy::default().classify(path, Directory)] of [gfm_fs]. *)
Class Packages : Type := { is_package : FPath -> bool }.

Record CopyExecution : Type := mkExecution {
  verification : VerificationPolicy;
  volume_copy_policy : OperationVolumeCopyPolicy
}.
Inductive CopyExistingMode : Type := ModeFresh | ModeResume | ModeMerge.
#[export] Instance CopyExistingMode_eq_dec : EqDecision CopyExistingMode.
Proof. solve_decision. Defined.
Definition copy_mode_label (m : CopyExistingMode) : string :=
  match m with ModeFresh => "fresh" | ModeResume => "resume" | ModeMerge => "merge" end.
Inductive CopyMethod : Type := ApfsClone | ByteCopy.

Definition NUL : ascii := "000".

Section Copy.
Context `{Platform, Libc, AttrCalls, Cloning, Packages}.

(** ** [transfer.rs] *)

(** The longest prefix of zeros, or of other bytes. *)
Fixpoint run_length (zero : bool) (chunk : bytes) : nat :=
  match chunk with
  | b :: chunk' => if eqb (bool_decide (b = NUL)) zero then S (run_length zero chunk') else 0
  | [] => 0
  end.
(** [while cursor < chunk.len()]: the offset after the chunk. *)
Fixpoint sparse_loop (fuel : nat) (i : N) (offset : nat) (chunk : bytes) : IO (X := OpState) nat :=
  match fuel, chunk with
  | O, _ | _, [] => mret (Ok offset)
  | S fuel', b :: _ =>
      if decide (b = NUL) then
        let n := run_length true chunk in
        r <- seek (offset + n) ;
        match r with
        | Ok offset => sparse_loop fuel' i offset (drop n chunk)
        | Err e => mret (Err e)
        end
      else
        let n := run_length false chunk in
        r <- write_all i offset (take n chunk) ;
        match r with
        | Ok _ => sparse_loop fuel' i (offset + n) (drop n chunk)
        | Err e => mret (Err e)
        end
  end.
Definition write_sparse_chunk (i : N) (offset : nat) (chunk : bytes) : IO (X := OpState) nat :=
  sparse_loop (S (length chunk)) i offset chunk.
Definition write_copy_chunk (i : N) (offset : nat) (chunk : bytes) (preserve_sparse_holes : bool) :
    IO (X := OpState) nat :=
  if preserve_sparse_holes then write_sparse_chunk i offset chunk
  else
    r <- write_all i offset chunk ;
    mret (match r with Ok _ => Ok (offset + length chunk) | Err e => Err e end).

Definition metadata_has_sparse_holes (m : Metadata) : bool :=
  ((0 <? m_len m) && (saturating_mul (blocks (m_attrs m)) 512 <? m_len m))%N.
Definition preserve_sparse_holes_for_copy (m : Metadata) (policy : OperationVolumeCopyPolicy) (destination : FPath) : bool :=
  metadata_has_sparse_holes m && sparse_files_supported_for_path policy destination.

(** The loop's [break] with a result, or an error returned from inside it. *)
Inductive LoopExit : Type := Broke (r : Res nat) | Returned (e : GfmError).
Fixpoint transfer_loop (fuel : nat) (from to : FPath) (source destination : N) (buffer : N) (sparse : bool)
    (offset written : nat) : Op LoopExit :=
  match fuel with
  | O => mret (Returned OUT_OF_FUEL)
  | S fuel' =>
      polled <- attempt check_control ;
      match polled with
      | Err e => mret (Returned e)
      | Ok _ =>
          chunk <- read source written buffer ;
          match chunk with
          | Err e => mret (Broke (Err (Io (show from) (err_text e))))
          | Ok [] => mret (Broke (Ok written))
          | Ok chunk =>
              put <- write_copy_chunk destination offset chunk sparse ;
              match put with
              | Err e => mret (Broke (Err (Io (show to) (err_text e))))
              | Ok offset =>
                  advanced <- attempt (advance_bytes (N.of_nat (length chunk))) ;
                  match advanced with
                  | Err e => mret (Broke (Err e))
                  | Ok _ =>
                      transfer_loop fuel' from to source destination buffer sparse offset
                        (written + length chunk)
                  end
              end
          end
      end
  end.
(** [if result.is_err() { let _ = cleanup; }]. *)
Definition or_cleanup {A} (r : Res A) (when : GfmError -> bool) (cleanup : Op unit) : Op A :=
  match r with
  | Ok a => mret a
  | Err e => if when e then attempt cleanup ;; mfail e else mfail e
  end.
Definition copy_file_bytes_tracked (from to : FPath) (policy : OperationVolumeCopyPolicy) : Op nat :=
  source <- or_io from (open_read from) ;
  source_metadata <- or_io from (file_metadata source) ;
  (let sparse := preserve_sparse_holes_for_copy source_metadata policy to in
   destination <- or_io to (create_new to) ;
   w <- mget ;
   exit <- transfer_loop (S (file_length (fsys w) source)) from to source destination
             (copy_buffer_bytes_for_paths policy from to) sparse 0 0 ;
   match exit with
   | Returned e => mfail e
   | Broke r =>
       result <- attempt (written <- mlift r ; or_io to (set_len destination written) ;; mret written) ;
       or_cleanup result (fun _ => true) (remove_file to ;; mret tt)
   end).

Definition clone_file (from to : FPath) : IO (X := OpState) unit :=
  opened <- open_read from ;
  match opened with
  | Ok _ => sys (fclonefileat from to)
  | Err e => mret (Err e)
  end.
Definition clone_fallback_allowed : IoError -> bool :=
  error_is [C_ENOTSUP; C_EXDEV; C_EINVAL] [Unsupported; InvalidInput].
Definition remove_failed_clone_destination (to : FPath) : Op unit :=
  r <- symlink_metadata to ;
  match r with
  | Ok m => if m_is_dir m then or_io to (remove_dir_all to) else or_io to (remove_file to)
  | Err e => if decide (err_kind e = NotFound) then mret tt else mfail (Io (show to) (err_text e))
  end.

(** ** [removal.rs]: the untracked removal *)
Definition delete_path_untracked (p : FPath) : Op unit :=
  m <- or_io p (symlink_metadata p) ;
  if m_is_dir m then or_io p (remove_dir_all p) else or_io p (remove_file p).

(** ** [copy.rs] *)

(** The identity of a file with several names. *)
Definition hard_link_identity (m : Metadata) : option N :=
  if is_file m && (1 <? m_nlink m)%N then Some (m_ino m) else None.
Definition copied_hard_link_destination (links : gmap N FPath) (m : Metadata) : option FPath :=
  i ← hard_link_identity m ; links !! i.
Definition remember_hard_link_destination (m : Metadata) (destination : FPath) : Op unit :=
  match hard_link_identity m with
  | Some i =>
      change (fun s => match hard_links s !! i with
                       | Some _ => s
                       | None => set_hard_links (<[i := destination]> (hard_links s)) s
                       end)
  | None => mret tt
  end.

Definition emit_metadata_degradations (report : MetadataPreservationReport) : Op unit :=
  mfor (fun _ d => metadata_degraded d) tt report.
Definition preserve_metadata_with_progress (from to : FPath) (m : Metadata) : Op unit :=
  report <- preserve_metadata from to m ; emit_metadata_degradations report.

Definition copy_symlink (from to : FPath) : Op unit :=
  check_control ;;
  create_parent to ;;
  (target <- or_io from (read_link from) ;
   or_io to (symlink target to) ;;
   (m <- or_io from (symlink_metadata from) ;
    report <- preserve_xattrs from to ;
    emit_metadata_degradations report ;;
    (report <- preserve_symlink_times to m ;
     emit_metadata_degradations report ;;
     advance m))).

Definition create_new_directory (p : FPath) : Op unit :=
  r <- create_dir p ;
  match r with
  | Ok _ => mret tt
  | Err e =>
      if decide (err_kind e = AlreadyExists) then
        mfail (Conflict (show p) "destination directory already exists")
      else mfail (Io (show p) (err_text e))
  end.

Definition byte_copy (from to : FPath) (m : Metadata) (e : CopyExecution) : Op CopyMethod :=
  copy_file_bytes_tracked from to (volume_copy_policy e) ;;
  preserve_metadata_with_progress from to m ;;
  verify_copy_checked from to (verification e) ;;
  finish_current_item ;;
  mret ByteCopy.
Definition copy_file_tracked (from to : FPath) (e : CopyExecution) : Op CopyMethod :=
  check_control ;;
  create_parent to ;;
  (m <- or_io from (symlink_metadata from) ;
   if negb (file_cloning_supported_for_paths (volume_copy_policy e) from to) then byte_copy from to m e
   else
     cloned <- clone_file from to ;
     match cloned with
     | Ok _ =>
         preserve_metadata_with_progress from to m ;;
         verify_copy_checked from to (verification e) ;;
         advance m ;;
         mret ApfsClone
     | Err err =>
         if clone_fallback_allowed err then
           remove_failed_clone_destination to ;; byte_copy from to m e
         else mfail (Io (show from) (err_text err))
     end).

Definition link_existing_hard_link (existing to : FPath) (m : Metadata) : Op unit :=
  check_control ;;
  create_parent to ;;
  or_io to (hard_link existing to) ;;
  advance m.
Definition copy_file_with_session (from to : FPath) (m : Metadata) (e : CopyExecution) : Op unit :=
  links <- mgets (fun w => hard_links (extra w)) ;
  (let fresh :=
     copy_file_tracked from to e ;; remember_hard_link_destination m to in
   match copied_hard_link_destination links m with
   | Some existing =>
       if hard_links_supported_for_path (volume_copy_policy e) to then link_existing_hard_link existing to m
       else
         metadata_degraded (mkDegradation to HardLinkTopology
           ("hard-link topology was not preserved because " +:+ show to +:+
            " is on a volume without hard-link support")) ;;
         fresh
   | None => fresh
   end).

Definition is_finder_package_dir (p : FPath) (m : Metadata) : bool := m_is_dir m && is_package p.
Definition is_existing_finder_package_dir (p : FPath) : Op bool := symlink_metadata_is (is_finder_package_dir p) p.

Definition verify_existing_symlink_copy (from to : FPath) (mode : CopyExistingMode) : Op unit :=
  if decide (mode = ModeMerge) then mfail (Conflict (show to) "merge destination symlink already exists")
  else
    source_target <- or_io from (read_link from) ;
    destination_target <- or_io to (read_link to) ;
    if decide (source_target = destination_target) then mret tt
    else mfail (Conflict (show to) ("resume symlink target mismatch: " +:+ source_target +:+ " != " +:+
                                    destination_target)).

Section Directory.
(** [copy_directory] of an entry, one level down. *)
Variable copy_subdirectory : FPath -> FPath -> Op unit.

(** [copy_path_existing]. *)
Definition copy_existing (from to : FPath) (m : Metadata) (e : CopyExecution) (mode : CopyExistingMode) : Op unit :=
  check_control ;;
  if is_symlink m then verify_existing_symlink_copy from to mode ;; advance m
  else if m_is_dir m then
    package <- (if decide (mode = ModeMerge) then
                  if is_finder_package_dir from m then mret true else is_existing_finder_package_dir to
                else mret false) ;
    if (package : bool) then mfail (Conflict (show to) "merge destination package already exists")
    else copy_subdirectory from to
  else if decide (mode = ModeMerge) then mfail (Conflict (show to) "merge destination file already exists")
  else
    verify_copy_checked from to (verification e) ;;
    preserve_metadata_with_progress from to m ;;
    advance m.

(** [mode == Resume && exists(destination)? || mode == Merge && exists(destination)?]. *)
Definition existing_in_mode (mode : CopyExistingMode) (p : FPath) : Op bool :=
  if decide (mode = ModeFresh) then mret false else path_exists_or_symlink p.
(** The body of the loop over the entries. *)
Definition copy_entry (from to : FPath) (e : CopyExecution) (mode : CopyExistingMode) (n : string) : Op unit :=
  check_control ;;
  (n <- or_io from (next_entry n) ;
   let source := join from n in
   let destination := join to n in
   m <- or_io source (symlink_metadata source) ;
   if is_symlink m then
     there <- existing_in_mode mode destination ;
     if (there : bool) then copy_existing source destination m e mode else copy_symlink source destination
   else if m_is_dir m then copy_subdirectory source destination
   else
     there <- existing_in_mode mode destination ;
     if (there : bool) then copy_existing source destination m e mode
     else copy_file_with_session source destination m e).

(** The closure in [copy_directory]; whether it made the destination is told
    apart from its result. *)
Definition enter_directory (to : FPath) (mode : CopyExistingMode) : Op bool :=
  there <- existing_in_mode mode to ;
  if (there : bool) then
    m <- or_io to (symlink_metadata to) ;
    if negb (m_is_dir m) then
      mfail (Conflict (show to) (copy_mode_label mode +:+ " destination exists but is not a directory"))
    else mret false
  else create_new_directory to ;; mret true.
Definition fill_directory (from to : FPath) (m : Metadata) (e : CopyExecution) (mode : CopyExistingMode) : Op unit :=
  advance m ;;
  (ns <- or_io from (read_dir from) ;
   mfor (fun _ n => copy_entry from to e mode n) tt ns ;;
   preserve_metadata_with_progress from to m).
Definition copy_directory_body (from to : FPath) (e : CopyExecution) (mode : CopyExistingMode) : Op unit :=
  check_control ;;
  (m <- or_io from (symlink_metadata from) ;
   created <- enter_directory to mode ;
   result <- attempt (fill_directory from to m e mode) ;
   or_cleanup result
     (fun err => bool_decide (mode = ModeFresh) && m_is_dir m && created && negb (bool_decide (err = Paused)))
     (delete_path_untracked to)).
End Directory.

Fixpoint copy_directory (fuel : nat) (from to : FPath) (e : CopyExecution) (mode : CopyExistingMode) : Op unit :=
  match fuel with
  | O => mfail OUT_OF_FUEL
  | S fuel' => copy_directory_body (fun source destination => copy_directory fuel' source destination e mode) from to e mode
  end.

(** [let result = (|| { .. })(); if result.is_err() && exists(stage) { remove }]. *)
Definition staged (stage : FPath) (work : Op unit) : Op unit :=
  result <- attempt work ;
  match result with
  | Ok _ => mret tt
  | Err e =>
      there <- attempt (path_exists_or_symlink stage) ;
      match there with
      | Ok true => attempt (delete_path_untracked stage) ;; mfail e
      | _ => mfail e
      end
  end.

Definition copy_file_replacing_existing (from to : FPath) (e : CopyExecution) : Op unit :=
  check_control ;;
  ensure_unlocked_path to "replace" ;;
  (source_metadata <- or_io from (symlink_metadata from) ;
   destination_metadata <- or_io to (symlink_metadata to) ;
   if metadata_same_file source_metadata destination_metadata then advance source_metadata
   else
     stage <- allocate_replace_stage_path to ;
     staged stage (copy_file_tracked from stage e ;; rename_replacing_file stage to)).
Definition copy_symlink_replacing_existing (from to : FPath) : Op unit :=
  check_control ;;
  ensure_unlocked_path to "replace" ;;
  (source_metadata <- or_io from (symlink_metadata from) ;
   destination_metadata <- or_io to (symlink_metadata to) ;
   if metadata_same_file source_metadata destination_metadata then advance source_metadata
   else
     stage <- allocate_replace_stage_path to ;
     staged stage (copy_symlink from stage ;; rename_replacing_file stage to)).
Definition copy_directory_replacing_existing (fuel : nat) (from to : FPath) (e : CopyExecution) : Op unit :=
  check_control ;;
  ensure_unlocked_tree to "replace" ;;
  (source_metadata <- or_io from (symlink_metadata from) ;
   destination_metadata <- or_io to (symlink_metadata to) ;
   if metadata_same_file source_metadata destination_metadata then complete
   else
     stage <- allocate_replace_stage_path to ;
     backup <- allocate_replace_backup_path to ;
     staged stage
       (copy_directory fuel from stage e ModeFresh ;;
        commit_staged_directory_replace stage to backup delete_path_untracked)).

Definition copy_path_with_session (from to : FPath) (conflict : ConflictPolicy) (e : CopyExecution) (resuming : bool) : Op unit :=
  check_control ;;
  ensure_source_exists from ;;
  (m <- or_io from (symlink_metadata from) ;
   w <- mget ;
   let fuel := tree_depth (fsys w) in
   let existing mode :=
     copy_existing (fun source destination => copy_directory fuel source destination e mode) from to m e mode in
   resume <- (if resuming then path_exists_or_symlink to else mret false) ;
   if (resume : bool) then existing ModeResume
   else
     merge <- (if decide (conflict = Merge /\ m_is_dir m = true) then path_exists_or_symlink to else mret false) ;
     if (merge : bool) then existing ModeMerge
     else
       non_directory <- (if decide (conflict = Replace /\ is_file m && negb (is_symlink m) = true)
                         then replacement_destination_is_non_directory to else mret false) ;
       if (non_directory : bool) then copy_file_replacing_existing from to e
       else
         link <- (if decide (conflict = Replace /\ is_symlink m = true)
                  then replacement_destination_is_non_directory to else mret false) ;
         if (link : bool) then copy_symlink_replacing_existing from to
         else
           directory <- (if decide (conflict = Replace /\ m_is_dir m = true)
                         then replacement_destination_is_directory to else mret false) ;
           if (directory : bool) then copy_directory_replacing_existing fuel from to e
           else
             prepare_destination to conflict delete_path_untracked ;;
             if is_symlink m then copy_symlink from to
             else if m_is_dir m then copy_directory fuel from to e ModeFresh
             else copy_file_with_session from to m e).

(** [copy_path]: a fresh session. *)
Definition copy_path (from to : FPath) (conflict : ConflictPolicy) (v : VerificationPolicy)
    (policy : OperationVolumeCopyPolicy) (resuming : bool) : Op unit :=
  change (set_hard_links ∅) ;;
  copy_path_with_session from to conflict (mkExecution v policy) resuming.
End Copy.
