(* ===== verification/CopyFrame.v ===== *)
(** * Copying: what it leaves alone

    Whatever fails and whenever it is cancelled or paused, a copy adds entries
    only in the directory of its destination (or directories leading there), and
    changes or removes nothing that was there, except, under the replace policy,
    at the destination itself. *)
From S2P Require Import Prelude Types Text Control FileSystem FileFacts OpModel OpTree Preserve Copy.
#[local] Open Scope list_scope.

(** [fclonefileat] makes the new file, with the content of the source, or leaves
    the tree alone; between names where a file could be made it fails only for lack
    of support. *)
Class CloneLaws `{Platform, Libc, Cloning} : Prop := {
  clone_done from to cl f f' : fclonefileat from to cl f = (Ok tt, f') ->
    names f !! to = None /\ exists d content a, parent to = Some d /\ shape_at f d = Some ShDir /\
      shape_at f from = Some (ShFile content) /\ f' = attach to (mkInode (ShFile content) a) f;
  clone_failed from to cl f e f' : fclonefileat from to cl f = (Err e, f') -> f' = f /\
    forall d content, names f !! to = None -> parent to = Some d -> shape_at f d = Some ShDir ->
      shape_at f from = Some (ShFile content) -> clone_fallback_allowed e = true
}.

Create HintDb keeps.
#[export] Hint Resolve keeps_fail keeps_lift keeps_get keeps_gets keeps_check keeps_attempt keeps_now
  keeps_look keeps_set_attrs : keeps.

(** One step: a computation is taken apart, its parts come from the database. *)
Ltac keeps_step :=
  match goal with
  | |- forall _, _ => intro
  | |- keeps _ _ _ _ (mbind _ _) _ => eapply keeps_bind; [solve [eauto with keeps]|intros]
  | |- keeps _ _ _ _ (mbind _ _) _ => eapply keeps_bind with (P := fun _ => True); [|intros]
  | |- keeps _ _ _ _ (let _ := _ in _) _ => cbv zeta
  | |- keeps _ _ _ _ (mret _) _ => apply keeps_ret
  | |- keeps _ _ _ _ (mfail _) _ => apply keeps_fail
  | |- keeps _ _ _ _ (mfor _ _ _) (fun _ => True) => apply keeps_for; [done|intros]
  | |- keeps _ _ _ _ (or_io _ _) (fun _ => True) =>
      apply keeps_or_io; apply keeps_weaken with (P := fun _ => True); [|by intros ???]
  | |- keeps _ _ _ _ (attempt _) (fun _ => True) => eapply keeps_any; apply keeps_attempt with (P := fun _ => True)
  | |- keeps _ _ _ _ (match ?x with _ => _ end) _ => destruct x
  | |- keeps _ _ _ _ _ _ => solve [eauto with keeps]
  | |- _ => done
  end.
Ltac keeps_auto := repeat keeps_step.

Section Frame.
Context `{Platform, Libc, AttrCalls, Cloning, Packages, !CloneLaws}.
Context (c : Control) (A D : FPath -> Prop) (f0 : Fs).

Abbreviation keeps := (keeps (X := OpState) c A D f0).
Abbreviation anything := (fun _ => True).
Abbreviation removable := (removable D f0).
Abbreviation room := (room A).

Lemma keeps_change g : keeps (change g) anything.
Proof. by apply keeps_modify. Qed.
#[local] Hint Resolve keeps_change : keeps.
Lemma keeps_set_link_attrs p g : keeps (set_link_attrs p g) anything.
Proof.
  eapply keeps_weaken; [apply (keeps_sys _ _ _ _ _ (fun _ => True))|done]. intros cl f Hf. split; [|done].
  destruct (lookup_inode f p) as [[i n]|] eqn:E; [|done]. apply lookup_inode_Some in E as [_ Hi].
  by eapply inv_put.
Qed.
Lemma keeps_get_attr {B} p (g : Attrs -> B) : keeps (get_attr p g) anything.
Proof. apply keeps_look. Qed.
#[local] Hint Resolve keeps_set_link_attrs keeps_get_attr : keeps.

Lemma keeps_symlink_metadata p : keeps (symlink_metadata p) anything.
Proof. apply keeps_look. Qed.
Lemma keeps_metadata p : keeps (metadata p) anything.
Proof. apply keeps_look. Qed.
Lemma keeps_read_link p : keeps (read_link p) anything.
Proof. apply keeps_look. Qed.
Lemma keeps_read_dir p : keeps (read_dir p) anything.
Proof. apply keeps_look. Qed.
Lemma keeps_next_entry n : keeps (next_entry n) anything.
Proof. apply keeps_look. Qed.
Lemma keeps_open_read p : keeps (open_read p) anything.
Proof. apply keeps_look. Qed.
Lemma keeps_file_metadata i : keeps (file_metadata i) anything.
Proof. apply keeps_look. Qed.
Lemma keeps_read i o b : keeps (read i o b) anything.
Proof. apply keeps_look. Qed.
Lemma keeps_seek o : keeps (seek o) anything.
Proof. apply keeps_look. Qed.
Lemma keeps_or_io_any {B} p (m : IO (X := OpState) B) : keeps m anything -> keeps (or_io p m) anything.
Proof. intros Hm. apply keeps_or_io. eapply keeps_weaken; [exact Hm|by intros ???]. Qed.
#[local] Hint Resolve keeps_or_io_any : keeps.
#[local] Hint Resolve keeps_symlink_metadata keeps_metadata keeps_read_link keeps_read_dir keeps_next_entry
  keeps_open_read keeps_file_metadata keeps_read keeps_seek : keeps.

(** *** Progress *)
Lemma keeps_emit p : keeps (emit p) anything.
Proof. unfold emit, throughput_snapshot. keeps_auto. Qed.
#[local] Hint Resolve keeps_emit : keeps.
Lemma keeps_advance m : keeps (advance m) anything.
Proof. unfold advance. keeps_auto. Qed.
Lemma keeps_advance_bytes n : keeps (advance_bytes n) anything.
Proof. unfold advance_bytes. keeps_auto. Qed.
Lemma keeps_finish : keeps finish_current_item anything.
Proof. unfold finish_current_item. keeps_auto. Qed.
Lemma keeps_complete : keeps complete anything.
Proof. unfold complete. keeps_auto. Qed.
Lemma keeps_degraded d : keeps (metadata_degraded d) anything.
Proof. unfold metadata_degraded. keeps_auto. Qed.
#[local] Hint Resolve keeps_advance keeps_advance_bytes keeps_finish keeps_complete keeps_degraded : keeps.
Lemma keeps_degradations l : keeps (emit_metadata_degradations l) anything.
Proof. unfold emit_metadata_degradations. keeps_auto. Qed.
#[local] Hint Resolve keeps_degradations : keeps.

(** *** Looking *)
Lemma stat_absent f p e : wf f -> stat f p = Err e -> names f !! p = None.
Proof.
  intros Hf. unfold stat, lookup_inode. destruct (names f !! p) as [i|] eqn:E; [|done]. cbn.
  destruct (wf_inode f Hf p i E) as [n Hn]. by rewrite Hn.
Qed.
(** What a look at the path tells when nothing is found. *)
Lemma keeps_lstat p : keeps (symlink_metadata p)
  (fun r => match r with Err e => err_kind e = NotFound -> removable p | Ok _ => True end).
Proof.
  intros w Ho Hw. apply ens_look. intros r w1 (Hk & _ & Hf) Hr. rewrite Hf. split_and!; [done..|].
  intros ? [= <-]. destruct r as [m|e]; [done|]. intros He.
  destruct Hr as [[cl Hr]|(e' & [= ->] & Hfault)]; [|by destruct (Ho e' Hfault)].
  destruct Hw as [Hwf Hc]. eapply absent_removable; [done|]. by eapply stat_absent.
Qed.
Lemma keeps_exists p : keeps (path_exists_or_symlink p) (fun b => b = false -> removable p).
Proof.
  eapply keeps_bind; [apply keeps_lstat|]. intros [m|e] Hr; [by apply keeps_ret|].
  case_decide; [apply keeps_ret; auto|apply keeps_fail].
Qed.
Lemma keeps_exists_any p : keeps (path_exists_or_symlink p) anything.
Proof. eapply keeps_any, keeps_exists. Qed.
Lemma keeps_is test p : keeps (symlink_metadata_is test p) anything.
Proof. unfold symlink_metadata_is. keeps_auto. Qed.
Lemma keeps_source p : keeps (ensure_source_exists p) anything.
Proof. unfold ensure_source_exists. keeps_auto. Qed.
#[local] Hint Resolve keeps_is keeps_source : keeps.
Lemma keeps_unlocked p m a : keeps (ensure_metadata_unlocked p m a) anything.
Proof. unfold ensure_metadata_unlocked. keeps_auto. Qed.
#[local] Hint Resolve keeps_unlocked : keeps.
Lemma keeps_unlocked_path p a : keeps (ensure_unlocked_path p a) anything.
Proof. unfold ensure_unlocked_path. keeps_auto. Qed.
Lemma keeps_children p : keeps (sorted_children p) anything.
Proof. unfold sorted_children, read_entries. keeps_auto. Qed.
#[local] Hint Resolve keeps_unlocked_path keeps_children : keeps.
Lemma keeps_walk a fuel : forall p, keeps (unlocked_walk fuel p a) anything.
Proof. induction fuel as [|fuel IH]; intros p; cbn [unlocked_walk]; keeps_auto. Qed.
#[local] Hint Resolve keeps_walk : keeps.
Lemma keeps_unlocked_tree p a : keeps (ensure_unlocked_tree p a) anything.
Proof. unfold ensure_unlocked_tree. keeps_auto. Qed.
Lemma keeps_verify_loop from to i j fuel : forall o, keeps (verify_loop fuel from to i j o) anything.
Proof. induction fuel as [|fuel IH]; intros o; cbn [verify_loop]; keeps_auto. Qed.
#[local] Hint Resolve keeps_unlocked_tree keeps_verify_loop : keeps.
Lemma keeps_verify from to v : keeps (verify_copy_checked from to v) anything.
Proof.
  unfold verify_copy_checked, verify_copy_size_checked, verify_copy_bytes_checked. keeps_auto.
Qed.
#[local] Hint Resolve keeps_verify : keeps.

(** *** Metadata *)
Lemma keeps_degrade u s k t l r p : keeps (degrade u s k t l r p) anything.
Proof. unfold degrade. keeps_auto. Qed.
#[local] Hint Resolve keeps_degrade : keeps.
Lemma keeps_preserve_xattrs from to : keeps (preserve_xattrs from to) anything.
Proof. unfold preserve_xattrs, preserve_xattr. keeps_auto. Qed.
Lemma keeps_symlink_times to m : keeps (preserve_symlink_times to m) anything.
Proof. unfold preserve_symlink_times. keeps_auto. Qed.
#[local] Hint Resolve keeps_preserve_xattrs keeps_symlink_times : keeps.
Lemma keeps_preserve from to m : keeps (preserve_metadata from to m) anything.
Proof.
  unfold preserve_metadata, preserve_ownership, preserve_permissions, preserve_times,
    preserve_creation_time, preserve_acls, preserve_file_flags. keeps_auto.
Qed.
#[local] Hint Resolve keeps_preserve : keeps.
Lemma keeps_preserve_progress from to m : keeps (preserve_metadata_with_progress from to m) anything.
Proof. unfold preserve_metadata_with_progress. keeps_auto. Qed.
#[local] Hint Resolve keeps_preserve_progress : keeps.

(** *** Bytes *)
Lemma keeps_sparse i fuel : inodes f0 !! i = None -> forall o chunk, keeps (sparse_loop fuel i o chunk) anything.
Proof.
  intros Hi. pose proof (fun o d => keeps_write_all (X := OpState) c A D f0 i o d Hi) as Hw.
  induction fuel as [|fuel IH]; intros o chunk; cbn [sparse_loop]; keeps_auto.
Qed.
Lemma keeps_chunk i o chunk sparse : inodes f0 !! i = None -> keeps (write_copy_chunk i o chunk sparse) anything.
Proof.
  intros Hi. unfold write_copy_chunk, write_sparse_chunk.
  pose proof (keeps_write_all (X := OpState) c A D f0 i o chunk Hi) as Hw.
  pose proof (keeps_sparse i (S (length chunk)) Hi o chunk) as Hs. keeps_auto.
Qed.
Lemma keeps_transfer from to i j b sp fuel : inodes f0 !! j = None -> forall o n,
  keeps (transfer_loop fuel from to i j b sp o n) anything.
Proof.
  intros Hj. pose proof (fun o chunk => keeps_chunk j o chunk sp Hj) as Hw.
  induction fuel as [|fuel IH]; intros o n; cbn [transfer_loop]; keeps_auto.
Qed.
Lemma keeps_copy_bytes from to p : room to -> removable to -> keeps (copy_file_bytes_tracked from to p) anything.
Proof.
  intros Hroom Hrem. unfold copy_file_bytes_tracked.
  pose proof (keeps_remove_file (X := OpState) c A D f0 to Hrem) as Hrm.
  do 2 keeps_step. cbv zeta. eapply keeps_bind.
  { apply keeps_or_io. apply keeps_create. by apply room_self. }
  intros j Hj. pose proof (fun b sp fuel => keeps_transfer from to a j b sp fuel Hj) as Ht.
  pose proof (fun n => keeps_set_len (X := OpState) c A D f0 j n Hj) as Hl. unfold or_cleanup. keeps_auto.
Qed.
Lemma keeps_create_parent to : room to -> keeps (create_parent to) anything.
Proof.
  intros Hroom. unfold create_parent. destruct (parent to) as [d|] eqn:E; [|keeps_auto].
  assert (Hd : keeps (create_dir_all d) anything).
  { apply keeps_create_dir_all. intros q Hq. apply Hroom. right.
    destruct (parent_Some _ _ E) as [n ->]. eapply under_trans; [exact Hq|by exists [n]]. }
  keeps_auto.
Qed.
Lemma keeps_remove_dir to : removable to -> keeps (remove_dir_all to) anything.
Proof. apply keeps_remove_dir_all. Qed.
Lemma keeps_remove to : removable to -> keeps (remove_file to) anything.
Proof. apply keeps_remove_file. Qed.
#[local] Hint Resolve keeps_copy_bytes keeps_create_parent keeps_remove_dir keeps_remove : keeps.
Lemma keeps_delete p : removable p -> keeps (delete_path_untracked p) anything.
Proof. intros Hp. unfold delete_path_untracked. keeps_auto. Qed.
Lemma keeps_failed_clone p : removable p -> keeps (remove_failed_clone_destination p) anything.
Proof. intros Hp. unfold remove_failed_clone_destination. keeps_auto. Qed.
#[local] Hint Resolve keeps_delete keeps_failed_clone : keeps.
Lemma keeps_clone from to : A to -> keeps (clone_file from to) anything.
Proof.
  intros HA. unfold clone_file. eapply keeps_bind; [apply keeps_open_read|].
  intros [i|e] _; [|by apply keeps_ret].
  eapply keeps_weaken; [apply (keeps_sys _ _ _ _ _ (fun _ => True))|done]. intros cl f Hf. split; [|done].
  destruct (fclonefileat from to cl f) as [[[]|e] f'] eqn:E; cbn.
  - apply clone_done in E as (Hto & d & content & at_ & Hd & Hs & _ & ->). by eapply inv_attach.
  - by apply clone_failed in E as [-> _].
Qed.

(** *** Copies of one entry *)
Lemma keeps_copy_file from to e : room to -> removable to -> keeps (copy_file_tracked from to e) anything.
Proof.
  intros Hroom Hrem. pose proof (keeps_clone from to (room_self A to Hroom)) as Hcl.
  unfold copy_file_tracked, byte_copy. keeps_auto.
Qed.
Lemma keeps_copy_symlink from to : room to -> keeps (copy_symlink from to) anything.
Proof.
  intros Hroom. assert (Hs : forall t, keeps (symlink t to) anything).
  { intros t. eapply keeps_any, keeps_create. by apply room_self. }
  unfold copy_symlink. keeps_auto.
Qed.
#[local] Hint Resolve keeps_copy_file keeps_copy_symlink : keeps.
Lemma keeps_session_file from to m e : room to -> removable to -> keeps (copy_file_with_session from to m e) anything.
Proof.
  intros Hroom Hrem.
  pose proof (fun x => keeps_hard_link (X := OpState) c A D f0 x to (room_self A to Hroom)) as Hl.
  unfold copy_file_with_session, link_existing_hard_link, remember_hard_link_destination. keeps_auto.
Qed.
#[local] Hint Resolve keeps_session_file : keeps.

(** *** Directories *)
Section Entries.
Variable sub : FPath -> FPath -> Op unit.
Variable mode : CopyExistingMode.
(** A fresh directory is made where one may be removed. *)
Hypothesis Hsub : forall from to, room to -> (mode = ModeFresh -> removable to) -> keeps (sub from to) anything.

Lemma keeps_copy_existing from to m e : room to -> mode <> ModeFresh -> keeps (copy_existing sub from to m e mode) anything.
Proof.
  intros Hroom Hmode. unfold copy_existing, verify_existing_symlink_copy, is_existing_finder_package_dir.
  pose proof (Hsub from to Hroom ltac:(done)) as Hs. keeps_auto.
Qed.
Lemma keeps_existing_in_mode p :
  keeps (existing_in_mode mode p) (fun b => b = false -> mode <> ModeFresh -> removable p).
Proof.
  unfold existing_in_mode. case_decide; [by apply keeps_ret|].
  eapply keeps_weaken; [apply keeps_exists|]. auto.
Qed.
Lemma keeps_existing_true p : keeps (existing_in_mode mode p) (fun b =>
  if b : bool then mode <> ModeFresh else mode <> ModeFresh -> removable p).
Proof.
  unfold existing_in_mode. case_decide; [by apply keeps_ret|].
  eapply keeps_weaken; [apply keeps_exists|]. intros [|]; auto.
Qed.
Lemma keeps_copy_entry from to e n : room to -> (mode = ModeFresh -> removable to) ->
  keeps (copy_entry sub from to e mode n) anything.
Proof.
  intros Hroom Hrem. unfold copy_entry. do 2 keeps_step. cbv zeta. keeps_step.
  assert (Hr : room (join to a0)) by (eapply room_below; [done|by exists [a0]]).
  assert (Hm : mode = ModeFresh -> removable (join to a0)).
  { intros E. eapply removable_below; [by apply Hrem|by exists [a0]]. }
  assert (Hm' : (mode <> ModeFresh -> removable (join to a0)) -> removable (join to a0)).
  { destruct (decide (mode = ModeFresh)); auto. }
  destruct (is_symlink a1); [|destruct (m_is_dir a1)].
  - eapply keeps_bind; [apply keeps_existing_true|]. intros [|] Hb; [by apply keeps_copy_existing|auto with keeps].
  - by apply Hsub.
  - eapply keeps_bind; [apply keeps_existing_true|]. intros [|] Hb; [by apply keeps_copy_existing|auto with keeps].
Qed.
Lemma keeps_enter to : room to -> keeps (enter_directory to mode) anything.
Proof.
  intros Hroom. assert (Hc : keeps (create_dir to) anything).
  { eapply keeps_any, keeps_create. by apply room_self. }
  pose proof (keeps_any _ _ _ _ _ _ (keeps_existing_in_mode to)) as He.
  unfold enter_directory, create_new_directory. keeps_auto.
Qed.
Lemma keeps_directory_body from to e : room to -> (mode = ModeFresh -> removable to) ->
  keeps (copy_directory_body sub from to e mode) anything.
Proof.
  intros Hroom Hrem. unfold copy_directory_body, fill_directory, or_cleanup.
  pose proof (keeps_enter to Hroom) as Hent.
  pose proof (fun n => keeps_copy_entry from to e n Hroom Hrem) as Hentry.
  do 3 keeps_step. cbv beta.
  eapply keeps_bind with (P := anything); [|intros [|err] _; [keeps_auto|]].
  { eapply keeps_any, keeps_attempt with (P := anything). keeps_auto. }
  destruct (bool_decide _) eqn:E; cbn [andb]; [|keeps_auto]. apply bool_decide_eq_true in E.
  specialize (Hrem E). keeps_auto.
Qed.
End Entries.

Lemma keeps_copy_directory e mode fuel : forall from to, room to -> (mode = ModeFresh -> removable to) ->
  keeps (copy_directory fuel from to e mode) anything.
Proof.
  induction fuel as [|fuel IH]; intros from to Hroom Hrem; cbn [copy_directory]; [keeps_auto|].
  by apply keeps_directory_body.
Qed.
#[local] Hint Resolve keeps_copy_directory : keeps.

(** *** Replacing *)
(** The directory that holds the destination, and those that lead to it. *)
Definition near (to q : FPath) : Prop := under (default [] (parent to)) q \/ under q to.

Section Replacing.
Context (to : FPath) (Hnear : forall q, near to q -> A q).

Lemma room_to : room to.
Proof.
  intros q [Hq|Hq]; apply Hnear; [left|by right].
  destruct (parent to) as [d|] eqn:E; [|by exists q].
  destruct (parent_Some _ _ E) as [n ->]. eapply under_trans; [by exists [n]|exact Hq].
Qed.
Lemma room_sibling n : room (join (default [] (parent to)) n).
Proof.
  intros q [Hq|Hq]; apply Hnear.
  - left. eapply under_trans; [by exists [n]|exact Hq].
  - destruct (parent to) as [d|] eqn:E; [|left; rewrite E; by exists q]. cbn in *.
    destruct (parent_Some _ _ E) as [m Hm]. unfold near. rewrite E. cbn. destruct (decide (under d q)) as [|Hd]; [by left|right].
    destruct (under_comparable d q (join d n)) as [|Hqd]; [by exists [n]|done|done|].
    rewrite Hm. eapply under_trans; [exact Hqd|by exists [m]].
Qed.
#[local] Hint Resolve room_to : keeps.

Lemma keeps_find_sibling prefix todo : forall attempt,
  keeps (find_hidden_sibling todo attempt to (default [] (parent to)) prefix)
    (fun r => match r with Some p => room p /\ removable p /\ exists n, p = join (default [] (parent to)) n | None => True end).
Proof.
  induction todo as [|todo IH]; intros k; cbn [find_hidden_sibling]; [by apply keeps_ret|]. cbv zeta.
  eapply keeps_bind; [apply keeps_exists|]. intros [|] Hr; [apply IH|]. apply keeps_ret.
  split_and!; [apply room_sibling|by apply Hr|by eexists].
Qed.
Lemma keeps_sibling label : keeps (allocate_hidden_sibling_path to label)
  (fun p => room p /\ removable p /\ exists n, p = join (default [] (parent to)) n).
Proof.
  assert (Hd : keeps (create_dir_all (default [] (parent to))) anything).
  { apply keeps_create_dir_all. intros q Hq. apply Hnear. right.
    destruct (parent to) as [d|] eqn:E; cbn in *; [|apply under_nil in Hq as ->; by exists to].
    destruct (parent_Some _ _ E) as [n ->]. eapply under_trans; [exact Hq|by exists [n]]. }
  unfold allocate_hidden_sibling_path. cbv zeta.
  eapply keeps_bind; [by apply keeps_or_io_any|]. intros _ _. eapply keeps_bind; [apply keeps_now|]. intros nonce _.
  eapply keeps_bind; [apply keeps_find_sibling|]. intros [p|] Hp; [by apply keeps_ret|apply keeps_fail].
Qed.

Lemma keeps_staged stage work : removable stage -> keeps work anything -> keeps (staged stage work) anything.
Proof.
  intros Hs Hw. pose proof (keeps_exists_any stage) as He. unfold staged. keeps_auto.
Qed.

Hypothesis Hto : removable to.

Lemma keeps_rename_to p : removable p -> keeps (rename p to) anything.
Proof.
  intros Hp. apply keeps_rename; [done|done|]. intros rel. apply room_to. left. apply under_app.
Qed.
Lemma keeps_rename_away p : removable p -> room p -> keeps (rename to p) anything.
Proof.
  intros Hp Hr. apply keeps_rename; [done|done|]. intros rel. apply Hr. left. apply under_app.
Qed.
Lemma keeps_replace_file from e : keeps (copy_file_replacing_existing from to e) anything.
Proof.
  unfold copy_file_replacing_existing. do 4 keeps_step. keeps_step; [keeps_auto|].
  eapply keeps_bind; [apply keeps_sibling|]. intros stage (Hroom & Hrem & _).
  apply keeps_staged; [done|]. pose proof (keeps_rename_to stage Hrem) as Hr.
  unfold rename_replacing_file. keeps_auto.
Qed.
Lemma keeps_replace_link from : keeps (copy_symlink_replacing_existing from to) anything.
Proof.
  unfold copy_symlink_replacing_existing. do 4 keeps_step. keeps_step; [keeps_auto|].
  eapply keeps_bind; [apply keeps_sibling|]. intros stage (Hroom & Hrem & _).
  apply keeps_staged; [done|]. pose proof (keeps_rename_to stage Hrem) as Hr.
  unfold rename_replacing_file. keeps_auto.
Qed.
Lemma keeps_commit stage backup : removable stage -> removable backup -> room backup ->
  keeps (commit_staged_directory_replace stage to backup delete_path_untracked) anything.
Proof.
  intros Hs Hb Hroom. pose proof (keeps_rename_to stage Hs). pose proof (keeps_rename_to backup Hb).
  pose proof (keeps_rename_away backup Hb Hroom). unfold commit_staged_directory_replace. keeps_auto.
Qed.
Lemma keeps_replace_directory fuel from e : keeps (copy_directory_replacing_existing fuel from to e) anything.
Proof.
  unfold copy_directory_replacing_existing. do 4 keeps_step. keeps_step; [keeps_auto|].
  eapply keeps_bind; [apply keeps_sibling|]. intros stage (Hroom & Hrem & _).
  eapply keeps_bind; [apply keeps_sibling|]. intros backup (Hroomb & Hremb & _).
  apply keeps_staged; [done|]. pose proof (keeps_commit stage backup Hrem Hremb Hroomb) as Hcm.
  pose proof (keeps_copy_directory e ModeFresh fuel from stage Hroom ltac:(done)). keeps_auto.
Qed.
End Replacing.

Lemma keeps_prepare p conflict : (conflict = Replace -> removable p) ->
  keeps (prepare_destination p conflict delete_path_untracked) (fun _ => removable p).
Proof.
  intros Hp. unfold prepare_destination. eapply keeps_bind; [apply keeps_exists|].
  intros [|] Hr; [|apply keeps_ret; auto]. destruct conflict; try apply keeps_fail.
  eapply keeps_weaken; [by apply keeps_delete, Hp|]. auto.
Qed.
Lemma keeps_when (b : bool) p : keeps (if b then path_exists_or_symlink p else mret false) anything.
Proof. pose proof (keeps_exists_any p). keeps_auto. Qed.

Lemma keeps_copy_path from to conflict e resuming :
  (forall q, near to q -> A q) -> (conflict = Replace -> removable to) ->
  keeps (copy_path_with_session from to conflict e resuming) anything.
Proof.
  intros Hnear Hrep. pose proof (room_to to Hnear) as Hroom.
  assert (Hex : forall m mode fuel, mode <> ModeFresh -> keeps (copy_existing
    (fun source destination => copy_directory fuel source destination e mode) from to m e mode) anything).
  { intros m mode fuel Hmode. apply keeps_copy_existing; [|done|done]. intros s d Hr Hd. by apply keeps_copy_directory. }
  unfold copy_path_with_session. do 3 keeps_step. eapply keeps_bind; [apply keeps_get|]. intros w _. cbv zeta.
  eapply keeps_bind; [apply keeps_when|]. intros [|] _; [by apply Hex|].
  eapply keeps_bind; [case_decide; [apply keeps_exists_any|by apply keeps_ret]|]. intros [|] _; [by apply Hex|].
  assert (His : forall (P : Prop) `{Decision P} (m : Op bool), (conflict = Replace -> keeps m anything) ->
    keeps (if decide (conflict = Replace /\ P) then m else mret false) (fun b => b = true -> conflict = Replace)).
  { intros P dP m Hm. case_decide as E; [|by apply keeps_ret]. destruct E as [-> _].
    eapply keeps_weaken; [by apply Hm|]. done. }
  eapply keeps_bind; [apply His; intros; apply keeps_is|]. intros [|] E1.
  { apply keeps_replace_file; auto. }
  eapply keeps_bind; [apply His; intros; apply keeps_is|]. intros [|] E2.
  { apply keeps_replace_link; auto. }
  eapply keeps_bind; [apply His; intros; apply keeps_is|]. intros [|] E3.
  { apply keeps_replace_directory; auto. }
  eapply keeps_bind; [by apply keeps_prepare|]. intros [] Hrem. cbv beta in Hrem.
  pose proof (fun fuel => keeps_copy_directory e ModeFresh fuel from to Hroom ltac:(done)). keeps_auto.
Qed.
End Frame.
