(* ===== verification/Relocate.v ===== *)
(** * File operations: moving ([relocate.rs])

    A move is a rename, or a copy and the removal of the source; restoring from the
    trash is a move that forgets the item's row. *)
From S2P Require Import Prelude Types Text Control FileSystem TrashMeta OpModel OpTree Preserve Copy.
#[local] Open Scope string_scope.
#[local] Open Scope list_scope.

Inductive MoveFallbackError : Type := KnownDistinctVolumes | RenameFailed (err : IoError).
Definition fallback_reason (f : MoveFallbackError) : string :=
  match f with
  | KnownDistinctVolumes => "known distinct volume identities"
  | RenameFailed err => "original rename error: " +:+ err_text err
  end.

Section Relocate.
Context `{Platform, Libc, AttrCalls, Cloning, Packages, Process}.

Definition move_via_copy_then_delete (from to : FPath) (conflict : ConflictPolicy) (v : VerificationPolicy)
    (policy : OperationVolumeCopyPolicy) (fallback : MoveFallbackError) : Op unit :=
  ensure_unlocked_tree from "move" ;;
  copy_path from to conflict v policy false ;;
  (deleted <- attempt (delete_path_untracked from) ;
   match deleted with
   | Ok _ => mret tt
   | Err delete_err =>
       mfail (Format ("moved copy to " +:+ show to +:+ " but failed to remove source " +:+ show from +:+ ": " +:+
                      GfmError_to_string delete_err +:+ "; " +:+ fallback_reason fallback))
   end).
(** The end of every kind of move: rename, or copy when that is known not to work or fails. *)
Definition rename_or_copy (from to : FPath) (v : VerificationPolicy) (policy : OperationVolumeCopyPolicy) : Op unit :=
  create_parent to ;;
  if paths_are_known_distinct_volumes policy from to then
    move_via_copy_then_delete from to Replace v policy KnownDistinctVolumes
  else
    renamed <- rename from to ;
    match renamed with
    | Ok _ => complete
    | Err rename_err => move_via_copy_then_delete from to Replace v policy (RenameFailed rename_err)
    end.

Definition move_file_replacing_existing (from to : FPath) (v : VerificationPolicy) (policy : OperationVolumeCopyPolicy) : Op unit :=
  check_control ;;
  ensure_unlocked_path to "replace" ;;
  (source_metadata <- or_io from (symlink_metadata from) ;
   destination_metadata <- or_io to (symlink_metadata to) ;
   if metadata_same_file source_metadata destination_metadata then
     same <- same_canonical_path from to ;
     (if negb same then delete_path_untracked from else mret tt) ;;
     complete
   else rename_or_copy from to v policy).
Definition move_directory_replacing_existing (from to : FPath) (v : VerificationPolicy) (policy : OperationVolumeCopyPolicy) : Op unit :=
  check_control ;;
  ensure_unlocked_tree to "replace" ;;
  (source_metadata <- or_io from (symlink_metadata from) ;
   destination_metadata <- or_io to (symlink_metadata to) ;
   if metadata_same_file source_metadata destination_metadata then complete
   else rename_or_copy from to v policy).
Definition move_symlink_replacing_existing (from to : FPath) (v : VerificationPolicy) (policy : OperationVolumeCopyPolicy) : Op unit :=
  check_control ;;
  ensure_unlocked_path to "replace" ;;
  (source_metadata <- or_io from (symlink_metadata from) ;
   destination_metadata <- or_io to (symlink_metadata to) ;
   if metadata_same_file source_metadata destination_metadata then
     (if decide (from <> to) then delete_path_untracked from else mret tt) ;;
     complete
   else rename_or_copy from to v policy).

(** [conflict == Replace && source(from) && destination(to)]. *)
Definition replacing (conflict : ConflictPolicy) (source destination : Op bool) : Op bool :=
  if decide (conflict = Replace) then
    s <- source ;
    if (s : bool) then destination else mret false
  else mret false.
Definition move_path (from to : FPath) (conflict : ConflictPolicy) (v : VerificationPolicy)
    (policy : OperationVolumeCopyPolicy) (resuming : bool) : Op unit :=
  check_control ;;
  ensure_source_exists from ;;
  ensure_unlocked_tree from "move" ;;
  (resume <- (if resuming then path_exists_or_symlink to else mret false) ;
   if (resume : bool) then copy_path from to Replace v policy true ;; delete_path_untracked from
   else
     merge <- (if decide (conflict = Merge) then path_exists_or_symlink to else mret false) ;
     if (merge : bool) then copy_path from to Merge v policy false ;; delete_path_untracked from
     else
       file <- replacing conflict (source_is_regular_file from) (replacement_destination_is_non_directory to) ;
       if (file : bool) then move_file_replacing_existing from to v policy
       else
         link <- replacing conflict (source_is_symlink from) (replacement_destination_is_non_directory to) ;
         if (link : bool) then move_symlink_replacing_existing from to v policy
         else
           directory <- replacing conflict (source_is_directory from) (replacement_destination_is_directory to) ;
           if (directory : bool) then move_directory_replacing_existing from to v policy
           else
             prepare_destination to conflict delete_path_untracked ;;
             rename_or_copy from to v policy).

Definition restore_path (from to : FPath) (conflict : ConflictPolicy) (policy : OperationVolumeCopyPolicy)
    (metadata_path : option FPath) : Op unit :=
  check_control ;;
  move_path from to conflict VerifyBytes policy false ;;
  match metadata_path with
  | Some metadata_path => remove_trash_metadata_checked metadata_path from
  | None => mret tt
  end.
End Relocate.
