(* ===== verification/Removal.v ===== *)
(** * File operations: removing ([removal.rs])

    Deleting for good, moving to the trash and emptying it, with the rows of the
    trash metadata that go with the items. *)
From S2P Require Import Prelude Types Text Control FileSystem TrashMeta OpModel OpTree Preserve Copy.
#[local] Open Scope string_scope.
#[local] Open Scope list_scope.

(** [trash::delete] of the [trash] crate. *)
Class TrashCan : Type := { trash_delete : FPath -> Call -> Fs -> Result unit IoError * Fs }.

Section Removal.
Context `{Platform, Libc, Process, TrashCan}.

Definition remove_deleted_trash_metadata (metadata_path : option FPath) (deleted : FPath) : Op unit :=
  match metadata_path with
  | Some metadata_path => remove_trash_metadata_checked metadata_path deleted
  | None => mret tt
  end.
Definition delete_path (p : FPath) (metadata_path : option FPath) : Op unit :=
  check_control ;;
  ensure_unlocked_tree p "delete" ;;
  (m <- or_io p (symlink_metadata p) ;
   if m_is_dir m then
     or_io p (remove_dir_all p) ;;
     remove_deleted_trash_metadata metadata_path p ;;
     complete
   else
     or_io p (remove_file p) ;;
     remove_deleted_trash_metadata metadata_path p ;;
     advance m).
Definition trash_path (p : FPath) (metadata_path : option FPath) : Op unit :=
  check_control ;;
  ensure_source_exists p ;;
  ensure_unlocked_tree p "trash" ;;
  match metadata_path with
  | Some metadata_path => append_trash_metadata_checked metadata_path p
  | None => mret tt
  end ;;
  or_io p (sys (trash_delete p)) ;;
  complete.
Definition delete_trash_child (p : FPath) (metadata_path : option FPath) : Op unit :=
  check_control ;;
  (m <- or_io p (symlink_metadata p) ;
   delete_path_untracked p ;;
   remove_deleted_trash_metadata metadata_path p ;;
   if m_is_dir m then finish_current_item else advance m).
Definition empty_trash_path (p : FPath) (metadata_path : option FPath) : Op unit :=
  check_control ;;
  (m <- or_io p (symlink_metadata p) ;
   if negb (m_is_dir m) then mfail (Format ("empty trash requires a directory: " +:+ show p))
   else
     ensure_unlocked_tree p "empty trash" ;;
     (ns <- sorted_children p ;
      mfor (fun _ n => delete_trash_child (join p n) metadata_path) tt ns ;;
      reconcile_empty_trash_metadata_checked metadata_path p ;;
      complete)).
End Removal.
