(* ===== verification/Operator.v ===== *)
(** * File operations: the operator ([operator.rs])

    An operation is checked against the access gate, its destination is chosen, a
    line says that it starts, it is carried out, and a line says how it ended. *)
From Stdlib Require Import Ascii.
From S2P Require Import Prelude Types Text Control Retry TrashMeta FileSystem TextFiles OpModel OpTree OpJournal Preserve Copy Relocate Removal.
#[local] Open Scope string_scope.
#[local] Open Scope list_scope.

(** ** [context.rs]: the flags are in the control of the computation *)
Record OperationContext : Type := mkContext {
  conflict : ConflictPolicy;
  journal_path : FPath;
  trash_metadata_path : option FPath;
  verification : VerificationPolicy;
  access_gate : OperationAccessGate;
  volume_copy_policy : OperationVolumeCopyPolicy;
  retry_probe_path : option FPath
}.
Definition new_context (journal : FPath) : OperationContext :=
  mkContext OpModel.Fail journal None VerifySize ∅ (new_policy Local) None.
Definition with_conflict (policy : ConflictPolicy) (x : OperationContext) : OperationContext :=
  mkContext policy (journal_path x) (trash_metadata_path x) (verification x) (access_gate x) (volume_copy_policy x)
    (retry_probe_path x).

Record OperationBatchOutcome : Type := mkBatchOutcome {
  batch_conflict : ConflictPolicy;
  batch_status : OperationStatus;
  batch_operation : Operation;
  batch_message : option string
}.
Record OperationRecoveryOutcome : Type := mkRecoveryOutcome {
  outcome_id : N;
  outcome_status : OperationStatus;
  outcome_operation : Operation;
  outcome_message : option string
}.
(** [(!matches!(err, GfmError::Cancelled | GfmError::Paused)).then(|| err.to_string())]. *)
Definition error_message (e : GfmError) : option string :=
  match e with Types.Cancelled | Types.Paused => None | _ => Some (GfmError_to_string e) end.

(** [str::trim], for ASCII spaces. *)
Fixpoint trim_start (s : string) : string :=
  match s with
  | EmptyString => EmptyString
  | String a s' => if is_space a then trim_start s' else s
  end.
Fixpoint trim_end (s : string) : string :=
  match s with
  | EmptyString => EmptyString
  | String a s' => if blank s then EmptyString else String a (trim_end s')
  end.
Definition trim (s : string) : string := trim_end (trim_start s).

Definition RETRY_BACKOFF_CANCEL_GRANULARITY : N := 5.

Section Operator.
Context `{Platform, Libc, AttrCalls, Cloning, Packages, Process, TrashCan}.

Definition should_skip_operation (o : Operation) (policy : ConflictPolicy) : Op bool :=
  if decide (policy <> Skip) then mret false
  else match target_path o with Some to => OpTree.path_exists_or_symlink to | None => mret false end.

(** [File::read_to_string]. *)
Definition read_to_string (i : N) : IO (X := OpState) string :=
  sys (fun _ f => (match content_of f i with Some data => Ok (text_of data) | None => Err EISDIR end, f)).
Definition fail_first_operation_retry_probe_attempt (p : FPath) : Op unit :=
  create_parent p ;;
  (opened <- open_read p ;
   current <- match opened with
              | Ok file => or_io p (read_to_string file)
              | Err e => if decide (err_kind e = NotFound) then mret "" else mfail (Io (show p) (err_text e))
              end ;
   let attempts := match parse_u64 (trim current) with Ok n => n | Err _ => 0%N end in
   file <- or_io p (create_file p) ;
   or_io p (append_text file (u64_to_string (wrapping_add attempts 1))) ;;
   if (attempts =? 0)%N then mfail (Format "temporary operation retry probe busy") else mret tt).

(** [while remaining > Duration::ZERO]: one turn for every chunk. *)
Fixpoint sleep_loop (fuel : nat) (remaining : N) : Op unit :=
  match fuel with
  | O => mfail OUT_OF_FUEL
  | S fuel' =>
      if (remaining =? 0)%N then mret tt
      else
        let chunk := N.min remaining RETRY_BACKOFF_CANCEL_GRANULARITY in
        check_cancellation ;;
        sleep_loop fuel' (remaining - chunk)
  end.
Definition sleep_retry_backoff_checked (delay : N) : Op unit :=
  check_cancellation ;;
  sleep_loop (N.to_nat (delay / RETRY_BACKOFF_CANCEL_GRANULARITY + 2)) delay.
Definition retry_delay_for_failed_operation (entries : list JournalEntry) (id : N) (policy : OperationRecoveryPolicy) : option N :=
  let attempts := N.of_nat (length (filter (fun e => entry_op_id e = id /\ status e = Started) entries)) in
  m ← (e ← head (filter (fun e => entry_op_id e = id /\ status e = Failed) (reverse entries)) ; message e) ;
  let delay_ms := next_delay_ms (retry_decision (mkRetryPolicy (recovery_max_attempts policy)) attempts m) in
  if (0 <? delay_ms)%N then Some delay_ms else None.

Section Context_.
Variable x : OperationContext.

Definition append (e : JournalEntry) : Op unit := append_journal (journal_path x) e.
Definition journal : Op (list JournalEntry) := read_journal (journal_path x).

Definition apply (o : Operation) (resuming : bool) : Op unit :=
  match o with
  | OpCopy from to => copy_path from to (conflict x) (verification x) (volume_copy_policy x) resuming
  | OpMove from to | OpRename from to => move_path from to (conflict x) (verification x) (volume_copy_policy x) resuming
  | OpDelete path => delete_path path (trash_metadata_path x)
  | OpTrash path => trash_path path (trash_metadata_path x)
  | OpEmptyTrash path => empty_trash_path path (trash_metadata_path x)
  | OpRestore from to => restore_path from to (conflict x) (volume_copy_policy x) (trash_metadata_path x)
  end.

(** [let entry = JournalEntry::from_error(..); let _ = self.append(entry); Err(err)]. *)
Definition record_error {A} (id : N) (o : Operation) (err : GfmError) : Op A :=
  e <- from_error id o err ;
  attempt (append e) ;;
  mfail err.
(** What is done between the two lines. *)
Definition carry_out (o : Operation) (resuming : bool) : Op unit :=
  match retry_probe_path x with
  | Some probe => fail_first_operation_retry_probe_attempt probe
  | None => mret tt
  end ;;
  (plan <- plan_operation_checked o ;
   new_tracker plan ;;
   apply o resuming).
Definition execute_started_inner (id : N) (o : Operation) (resuming : bool) : Op JournalEntry :=
  match gate_check (access_gate x) o with
  | Err err => record_error id o err
  | Ok _ =>
      skip <- should_skip_operation o (conflict x) ;
      if (skip : bool) then e <- skipped id o ; append e ;; mret e
      else
        result <- attempt (carry_out o resuming) ;
        match result with
        | Ok _ => e <- completed id o ; append e ;; mret e
        | Err err => record_error id o err
        end
  end.
Definition execute_started (id : N) (o : Operation) : Op JournalEntry := execute_started_inner id o false.
Definition execute_started_resuming (id : N) (o : Operation) : Op JournalEntry := execute_started_inner id o true.
Definition begin (o : Operation) : Op N :=
  id <- now_nanos ;
  e <- started id o ;
  append e ;;
  mret id.

Definition execute_with_progress (o : Operation) : Op JournalEntry :=
  match gate_check (access_gate x) o with
  | Err err => id <- begin o ; record_error id o err
  | Ok _ =>
      o <- resolve_operation_conflicts o (conflict x) ;
      id <- begin o ;
      execute_started id o
  end.

(** *** Recovery *)
Definition retry_failed_by_id (id : N) (policy : OperationRecoveryPolicy) : Op (option JournalEntry) :=
  all <- journal ;
  let entries := filter (fun e => entry_op_id e = id) all in
  match reverse (recoverable_operations entries policy) with
  | [plan] =>
      if decide (entry_op_id (plan_entry plan) <> id) then mret None
      else
        match retry_delay_for_failed_operation entries id policy with
        | Some delay => sleep_retry_backoff_checked delay
        | None => mret tt
        end ;;
        (let o := operation (plan_entry plan) in
         (if append_started plan then e <- started id o ; append e else mret tt) ;;
         (e <- execute_started_resuming id o ; mret (Some e)))
  | _ => mret None
  end.
Definition or_retry (id : N) (policy : OperationRecoveryPolicy) (first : Op JournalEntry) : Op JournalEntry :=
  result <- attempt first ;
  match result with
  | Ok e => mret e
  | Err err =>
      again <- retry_failed_by_id id policy ;
      match again with
      | Some e => mret e
      | None => mfail err
      end
  end.
Definition execute_with_retry_policy_and_progress (o : Operation) (policy : OperationRecoveryPolicy) : Op JournalEntry :=
  match gate_check (access_gate x) o with
  | Err err => id <- begin o ; or_retry id policy (record_error id o err)
  | Ok _ =>
      o <- resolve_operation_conflicts o (conflict x) ;
      id <- begin o ;
      or_retry id policy (execute_started id o)
  end.
Definition recover_one (plan : OperationRecoveryPlan) : Op OperationRecoveryOutcome :=
  let id := entry_op_id (plan_entry plan) in
  let o := operation (plan_entry plan) in
  (if append_started plan then e <- started id o ; append e else mret tt) ;;
  (result <- attempt (execute_started_resuming id o) ;
   mret (match result with
         | Ok e => mkRecoveryOutcome (entry_op_id e) (status e) (operation e) (message e)
         | Err err => mkRecoveryOutcome id (operation_status_from_error err) o (error_message err)
         end)).
Definition recover_with_policy (policy : OperationRecoveryPolicy) : Op (list OperationRecoveryOutcome) :=
  entries <- journal ;
  mfor (fun outcomes plan => o <- recover_one plan ; mret (outcomes ++ [o])) [] (recoverable_operations entries policy).
Definition recover_interrupted : Op (list OperationRecoveryOutcome) := recover_with_policy default_recovery_policy.
End Context_.

(** *** Batches *)
Fixpoint execute_batch (x : OperationContext) (plan : OperationConflictPlan) (os : list Operation)
    (outcomes : list OperationBatchOutcome) : Op (list OperationBatchOutcome) :=
  match os with
  | [] => mret outcomes
  | o :: os' =>
      let policy := conflict_for plan o in
      result <- attempt (execute_with_progress (with_conflict policy x) o) ;
      match result with
      | Ok e => execute_batch x plan os' (outcomes ++ [mkBatchOutcome policy (status e) (operation e) (message e)])
      | Err err =>
          let s := operation_status_from_error err in
          let outcomes := outcomes ++ [mkBatchOutcome policy s o (error_message err)] in
          if decide (s = Cancelled \/ s = Paused) then mret outcomes
          else execute_batch x plan os' outcomes
      end
  end.
Definition execute_batch_with_conflicts (x : OperationContext) (os : list Operation) (plan : OperationConflictPlan) :
    Op (list OperationBatchOutcome) := execute_batch x plan os [].
End Operator.
