(* ===== verification/Machine.v ===== *)
(** * A machine

    One instance of every class of the file operations: the constants of macOS's
    [libc], attribute calls that do as documented, [fclonefileat] on one volume.
    The witnesses of the theorems run on it. *)
From S2P Require Import Prelude Types Text Control FileSystem FileFacts OpModel OpTree Preserve Copy CopyFrame.
#[local] Open Scope list_scope.

Definition plain_attrs : Attrs := mkAttrs 420 501 20 0 0 0 0 0 ∅ [].
#[export] Instance machine_platform : Platform.
Proof. refine {| initial_attrs := fun _ _ _ => plain_attrs; dir_order := fun _ l => l |}. done. Defined.

#[export] Instance machine_libc : Libc := {|
  UF_IMMUTABLE := 2; SF_IMMUTABLE := 131072; UF_APPEND := 4; SF_APPEND := 262144;
  C_EPERM := 1; C_EACCES := 13; C_ENOTSUP := 45; C_EXDEV := 18; C_EINVAL := 22; C_ENOENT := 2;
  C_ENODATA := 96; C_ENOATTR := 93; C_ENOSYS := 78; C_EROFS := 30
|}.

Definition with_times (at_ mt : SystemTime) (a : Attrs) : Attrs :=
  mkAttrs (permissions a) (uid a) (gid a) at_ mt (created a) (st_flags a) (blocks a) (xattrs a) (acl a).
#[export] Instance machine_attrs : AttrCalls := {|
  chown u g a := mkAttrs (permissions a) u g (accessed a) (modified a) (created a) (st_flags a) (blocks a) (xattrs a) (acl a);
  set_file_times := with_times;
  set_symlink_file_times := with_times;
  xattr_names a := (map_to_list (xattrs a)).*1;
  xattr_get n a := xattrs a !! n;
  xattr_set n v a := mkAttrs (permissions a) (uid a) (gid a) (accessed a) (modified a) (created a) (st_flags a)
    (blocks a) (<[n := v]> (xattrs a)) (acl a);
  getfacl := acl;
  setfacl l a := mkAttrs (permissions a) (uid a) (gid a) (accessed a) (modified a) (created a) (st_flags a)
    (blocks a) (xattrs a) l;
  chflags n a := mkAttrs (permissions a) (uid a) (gid a) (accessed a) (modified a) (created a) n (blocks a)
    (xattrs a) (acl a)
|}.
#[export] Instance machine_attr_laws : AttrLaws.
Proof.
  split; try done. intros n a. cbn. rewrite list_elem_of_fmap. split.
  - intros ([k v] & -> & Hin). apply elem_of_map_to_list in Hin. by exists v.
  - intros [v Hv]. exists (n, v). split; [done|]. by apply elem_of_map_to_list.
Qed.

(** A clone of a file, at a free name in a directory; anything else is not supported. *)
#[export] Instance machine_cloning : Cloning := {|
  fclonefileat from to cl f :=
    match shape_at f from, names f !! to, parent to with
    | Some (ShFile content), None, Some d =>
        if decide (shape_at f d = Some ShDir) then
          (Ok tt, attach to (mkInode (ShFile content) plain_attrs) f)
        else (Err (os_error Unsupported 45 "not supported"), f)
    | _, _, _ => (Err (os_error Unsupported 45 "not supported"), f)
    end
|}.
#[export] Instance machine_clone_laws : CloneLaws.
Proof.
  split; intros from to cl f; cbn.
  - intros f' E. destruct (shape_at f from) as [[content| |]|] eqn:Es; try done.
    destruct (names f !! to) eqn:En; [done|]. destruct (parent to) as [d|] eqn:Ep; [|done].
    case_decide as Ed; [|done]. simplify_eq. split; [done|]. by exists d, content, plain_attrs.
  - intros e f' E. assert (f' = f /\ e = os_error Unsupported 45 "not supported") as [-> ->].
    { destruct (shape_at f from) as [[content| |]|], (names f !! to), (parent to); try case_decide; by simplify_eq. }
    split; [done|]. by intros.
Qed.
#[export] Instance machine_packages : Packages := {| is_package _ := false |}.

(** ** Trees from a list of their entries *)
Definition root_fs : Fs := mkFs {[ [] := 0%N ]} {[ 0%N := mkInode ShDir plain_attrs ]} 1.
Definition plant (f : Fs) (e : FPath * Shape) : Fs := attach e.1 (mkInode e.2 plain_attrs) f.
Definition grove (l : list (FPath * Shape)) : Fs := foldl plant root_fs l.
(** Every entry at a free name in a directory. *)
Fixpoint plantable (f : Fs) (l : list (FPath * Shape)) : bool :=
  match l with
  | [] => true
  | e :: l' =>
      bool_decide (names f !! e.1 = None) &&
      match parent e.1 with Some d => bool_decide (shape_at f d = Some ShDir) | None => false end &&
      plantable (plant f e) l'
  end.
Lemma root_wf : wf root_fs.
Proof.
  constructor.
  - done.
  - intros p n [i Hi]. cbn in Hi. apply lookup_singleton_Some in Hi as [E _]. by destruct p.
  - intros p i Hi. cbn in Hi. apply lookup_singleton_Some in Hi as [<- <-]. cbn. by eexists.
  - intros i [n Hn]. cbn in Hn. apply lookup_singleton_Some in Hn as [<- _]. cbn. lia.
  - intros p q i n Hp Hq _ _. cbn in Hp, Hq. apply lookup_singleton_Some in Hp as [<- _], Hq as [<- _]. done.
Qed.
Lemma planted_wf l : forall f, wf f -> plantable f l = true -> wf (foldl plant f l).
Proof.
  induction l as [|[p s] l IH]; intros f Hf Hp; [done|]. cbn [plantable fst] in Hp. cbn [foldl].
  apply andb_prop in Hp as [Hp Hl]. apply andb_prop in Hp as [Hn Hd]. apply bool_decide_eq_true in Hn.
  destruct (parent p) as [d|] eqn:E; [|done]. apply bool_decide_eq_true in Hd. apply IH; [|done].
  by eapply wf_attach.
Qed.
Lemma grove_wf l : plantable root_fs l = true -> wf (grove l).
Proof. apply planted_wf, root_wf. Qed.

(** ** A world with nothing on its schedule *)
Definition smooth : Call := mkCall None (2 ^ 63) ∅.
Definition idle : OpState := mkOpState no_progress 0 [] ∅.
Definition at_rest (f : Fs) : OW := mkWorld f 0 (fun _ => smooth) (fun _ => 0%N) idle.
(** The call [n] fails. *)
Definition failing (n : nat) (e : IoError) (f : Fs) : OW :=
  mkWorld f 0 (fun k => if Nat.eqb k n then mkCall (Some e) (2 ^ 63) ∅ else smooth) (fun _ => 0%N) idle.
Lemma at_rest_honest f : honest (at_rest f).
Proof. intros e [n Hn]. done. Qed.
Lemma failing_honest n e f : err_kind e <> NotFound -> honest (failing n e f).
Proof. intros He e' [k Hk]. cbn in Hk. destruct (Nat.eqb k n); [by cbn in Hk; simplify_eq|done]. Qed.
