(* ===== verification/CopyCalm.v ===== *)
(** * Copying: steps that leave the tree as it is

    Polls, progress, metadata and verification change no name, no content and no
    link, and fail only when a poll or a call does ([T] is what follows from such
    trouble), given that what they look at is there. *)
From S2P Require Import Prelude Types Text Control FileSystem FileFacts OpModel OpTree Preserve Copy.
#[local] Open Scope list_scope.

(** Two trees with the same names, contents and links. *)
Definition same_shapes (f f' : Fs) : Prop :=
  names f' = names f /\ next_inode f' = next_inode f /\
  forall i, (fun n => shape n) <$> (inodes f' !! i) = (fun n => shape n) <$> (inodes f !! i).
#[export] Instance same_shapes_preorder : PreOrder same_shapes.
Proof. split; [done|]. intros ??? (?&?&H1) (?&?&H2). split_and!; [congruence..|]. intros i. by rewrite H2. Qed.
Lemma same_shapes_at f f' p : same_shapes f f' -> shape_at f' p = shape_at f p.
Proof.
  intros (Hn & _ & Hs). unfold shape_at, lookup_inode. rewrite Hn. destruct (names f !! p) as [i|]; [|done]. cbn.
  specialize (Hs i). destruct (inodes f' !! i), (inodes f !! i); cbn in *; congruence.
Qed.
Lemma same_shapes_content f f' i : same_shapes f f' -> content_of f' i = content_of f i.
Proof.
  intros (_ & _ & Hs). unfold content_of. specialize (Hs i).
  destruct (inodes f' !! i), (inodes f !! i); cbn in *; simplify_eq; [by rewrite Hs|done].
Qed.
Lemma same_shapes_put f i n n' : inodes f !! i = Some n -> shape n' = shape n -> same_shapes f (put_inode i n' f).
Proof.
  intros Hi Hs. split_and!; [done..|]. intros j. cbn. destruct (decide (i = j)) as [<-|].
  - rewrite lookup_insert_eq, Hi. cbn. by rewrite Hs.
  - by rewrite lookup_insert_ne.
Qed.
Lemma same_shapes_wf f f' : same_shapes f f' -> wf f -> wf f'.
Proof.
  intros Hss Hf. pose proof Hss as (Hn & Hx & Hs).
  assert (Hi : forall i n, inodes f' !! i = Some n -> exists n', inodes f !! i = Some n' /\ shape n' = shape n).
  { intros i n Hi. specialize (Hs i). rewrite Hi in Hs. cbn in Hs.
    destruct (inodes f !! i) as [n'|]; [|done]. exists n'. split; [done|]. cbn in Hs. congruence. }
  constructor.
  - rewrite (same_shapes_at f) by done. apply Hf.
  - intros p n Hp. rewrite (same_shapes_at f) by done. rewrite Hn in Hp. by apply (wf_parent f Hf p n).
  - intros p i Hp. rewrite Hn in Hp. destruct (wf_inode f Hf p i Hp) as [n E]. specialize (Hs i).
    rewrite E in Hs. destruct (inodes f' !! i); [by eexists|done].
  - intros i [n Hi']. rewrite Hx. destruct (Hi i n Hi') as (n' & E & _). apply (wf_next f Hf). by eexists.
  - intros p q i n Hp Hq Hn' Hd. rewrite Hn in Hp, Hq. destruct (Hi i n Hn') as (n' & E & E2).
    eapply (wf_dir f Hf); [done..|congruence].
Qed.
Lemma same_shapes_changes A D f f' : same_shapes f f' -> changes A D f f'.
Proof.
  intros (Hn & Hx & Hs). constructor; rewrite ?Hn, ?Hx; [done| |by left|].
  - intros p -> E. by destruct E.
  - intros i n Hi. specialize (Hs i). rewrite Hi in Hs. destruct (inodes f' !! i) as [n'|]; [|done].
    cbn in Hs. exists n'. split; [done|]. congruence.
Qed.

Definition present (p : FPath) (f : Fs) : Prop := is_Some (shape_at f p).
(** There, and not a link. *)
Definition plain (p : FPath) (f : Fs) : Prop := exists s, shape_at f p = Some s /\ forall t, s <> ShLink t.
Lemma plain_present p f : plain p f -> present p f.
Proof. intros (s & Hs & _). by exists s. Qed.
Lemma plain_resolve p f : plain p f -> resolve MAXSYMLINKS f p = Ok p.
Proof. intros (s & Hs & Hl). cbn. rewrite Hs. destruct s; [done|done|]. by destruct (Hl target). Qed.
Lemma present_lookup p f : present p f -> exists i n, lookup_inode f p = Some (i, n).
Proof. intros [s Hs]. unfold shape_at in Hs. destruct (lookup_inode f p) as [[i n]|]; [by eexists _, _|done]. Qed.

Definition stable (E : Fs -> Prop) : Prop := forall f f', same_shapes f f' -> E f -> E f'.
Lemma stable_present p : stable (present p).
Proof. intros f f' Hs. unfold present. by rewrite (same_shapes_at f f'). Qed.
Lemma stable_plain p : stable (plain p).
Proof. intros f f' Hs. unfold plain. by rewrite (same_shapes_at f f'). Qed.
Lemma stable_shape p s : stable (fun f => shape_at f p = s).
Proof. intros f f' Hs <-. by apply same_shapes_at. Qed.
Lemma stable_and E1 E2 : stable E1 -> stable E2 -> stable (fun f => E1 f /\ E2 f).
Proof. intros H1 H2 f f' Hs [? ?]. split; [by eapply H1|by eapply H2]. Qed.

Section Calm.
Context `{Platform} (c : Control) (T : Prop).
Implicit Types w : OW.

Definition fair w : Prop := trouble c w -> T.
Definition calm w w' : Prop :=
  kin w w' /\ same_shapes (fsys w) (fsys w') /\ hard_links (extra w') = hard_links (extra w).
#[export] Instance calm_preorder : PreOrder calm.
Proof. split; [done|]. intros ??? (?&?&?) (?&?&?). split_and!; [by etrans|by etrans|congruence]. Qed.
Lemma fair_kin w w' : kin w w' -> fair w -> fair w'.
Proof. intros Hk Hf Ht. apply Hf. by eapply trouble_kin. Qed.
Lemma fault_fair w e : fair w -> fault w e -> T.
Proof. intros Hf He. by eapply Hf, fault_trouble. Qed.

(** A computation with a result for which [P] holds, unless there is trouble. *)
Definition akin w w' : Prop := T \/ kin w w'.
Lemma akin_trans w w1 w2 : akin w w1 -> akin w1 w2 -> akin w w2.
Proof. intros [|Hk1]; [by left|]. intros [|Hk2]; [by left|right]. by etrans. Qed.
Lemma fair_akin w w' : akin w w' -> fair w -> fair w'.
Proof. intros [HT|Hk] Hf; [by intros _|by eapply fair_kin]. Qed.
Definition does {A} w (m : Op A) (P : A -> OW -> Prop) : Prop :=
  fair w -> ens c w m (fun r w' => match r with Ok a => akin w w' /\ P a w' | Err _ => T end).
Lemma does_weaken {A} w (m : Op A) (P Q : A -> OW -> Prop) :
  does w m P -> (forall a w', P a w' -> Q a w') -> does w m Q.
Proof.
  intros Hm HPQ Hf. eapply ens_weaken; [by apply Hm|]. intros [a|e] w' Hr; [|done].
  split; [apply Hr|by apply HPQ, Hr].
Qed.
Lemma does_bind {A B} w (m : Op A) (k : A -> Op B) (P : A -> OW -> Prop) (Q : B -> OW -> Prop) :
  does w m P -> (forall a w', P a w' -> does w' (k a) Q) -> does w (mbind m k) Q.
Proof.
  intros Hm Hk Hf. apply ens_bind. eapply ens_weaken; [by apply Hm|]. intros [a|e] w1; [|done]. intros [Hk1 HP1].
  eapply ens_weaken; [apply (Hk a w1 HP1); by eapply fair_akin|]. intros [b|e] w2; [|done].
  intros [Hk2 HQ]. split; [by eapply akin_trans|done].
Qed.
Lemma does_ret {A} w (a : A) (P : A -> OW -> Prop) : P a w -> does w (mret a) P.
Proof. intros HP Hf. apply ens_ret. split; [by right|done]. Qed.
Lemma does_get w (P : OW -> OW -> Prop) : P w w -> does w mget P.
Proof. intros HP Hf. apply ens_get. split; [by right|done]. Qed.
Lemma does_gets {A} w (g : OW -> A) (P : A -> OW -> Prop) : P (g w) w -> does w (mgets g) P.
Proof. intros HP Hf k. split; [by right|done]. Qed.
(** An error needs an excuse. *)
Lemma does_fail {A} w e (P : A -> OW -> Prop) : (fair w -> T) -> does w (mfail e) P.
Proof. intros HT Hf. apply ens_fail. auto. Qed.
(** With an excuse, a computation that always fails does anything. *)
Definition doomed {A} (m : Op A) : Prop := forall c' k w, exists e, (m c' k w).1.1 = Err e.
Lemma does_doomed {A} w (m : Op A) (P : A -> OW -> Prop) : T -> doomed m -> does w m P.
Proof.
  intros HT Hm _ k. destruct (Hm c k w) as [e He]. destruct (m c k w) as [[r k'] w']. cbn in He. by subst.
Qed.
Lemma doomed_fail {A} e : doomed (mfail (A := A) e).
Proof. intros c' k w. by exists e. Qed.
Lemma doomed_bind {A B} (m : Op A) (k : A -> Op B) : (forall a, doomed (k a)) -> doomed (mbind m k).
Proof.
  intros Hk c' n w. unfold mbind. destruct (m c' n w) as [[[a|e] n'] w']; [apply Hk|by exists e].
Qed.
(** The result of [m] as a value: an error means trouble. *)
Lemma does_attempt {A} w (m : Op A) (P : A -> OW -> Prop) :
  does w m P -> does w (attempt m) (fun r w' => match r with Ok a => P a w' | Err _ => T end).
Proof.
  intros Hm Hf. apply ens_attempt. eapply ens_weaken; [by apply Hm|]. intros [a|e] w'; [done|].
  intros HT. split; [by left|done].
Qed.
Lemma does_or_io {A} w p (m : IO A) (P : A -> OW -> Prop) :
  does w m (fun r w' => match r with Ok a => P a w' | Err _ => T end) -> does w (or_io p m) P.
Proof.
  intros Hm. eapply does_bind; [exact Hm|]. intros [a|e] w1 HP1; [by apply does_ret|by apply does_fail].
Qed.
Lemma does_sys {A} w (act : Call -> Fs -> Result A IoError * Fs) (P : Result A IoError -> OW -> Prop) :
  (forall e w', steady w w' -> T -> P (Err e) w') ->
  (forall cl w', after w (act cl (fsys w)).2 w' -> (short_read cl -> T) -> P (act cl (fsys w)).1 w') ->
  does w (sys act) P.
Proof.
  intros He Ha Hf. apply ens_sys.
  - intros e w' Hs Hfault. split; [right; by apply steady_kin|]. apply He; [done|]. by eapply fault_fair.
  - intros cl w' Hw Hs Ht. split; [right; by destruct Hw|]. apply Ha; [done|]. auto.
  - intros cl w' Hw Hs. split; [right; by destruct Hw|]. apply Ha; [done|]. by intros.
Qed.

(** ** Calm computations *)
Definition calms {A} (E : Fs -> Prop) (m : Op A) (P : A -> Prop) : Prop :=
  stable E -> forall w, E (fsys w) -> does w m (fun a w' => calm w w' /\ P a).

Lemma calms_does {A} E (m : Op A) P w : calms E m P -> stable E -> E (fsys w) ->
  does w m (fun a w' => calm w w' /\ P a).
Proof. auto. Qed.
Lemma calms_weaken {A} (E : Fs -> Prop) (m : Op A) (P Q : A -> Prop) : calms E m P -> (forall a, P a -> Q a) -> calms E m Q.
Proof. intros Hm HPQ HE w Hw. eapply does_weaken; [by apply Hm|]. intros a w' [? ?]. auto. Qed.
Lemma calms_bind {A B} E (m : Op A) (k : A -> Op B) (P : A -> Prop) (Q : B -> Prop) :
  calms E m P -> (forall a, P a -> calms E (k a) Q) -> calms E (mbind m k) Q.
Proof.
  intros Hm Hk HE w Hw. eapply does_bind; [by apply Hm|]. intros a w1 [Hc Ha].
  eapply does_weaken; [apply (Hk a Ha HE)|].
  - destruct Hc as (_ & Hs & _). by eapply HE.
  - intros b w2 [Hc2 Hb]. split; [by etrans|done].
Qed.
Lemma calms_ret {A} E (a : A) (P : A -> Prop) : P a -> calms E (mret a) P.
Proof. intros HP HE w Hw. by apply does_ret. Qed.
Lemma calms_fail {A} E e (P : A -> Prop) : T -> calms E (mfail e) P.
Proof. intros HT HE w Hw. by apply does_fail. Qed.
Lemma calms_check E : calms E check_control (fun _ => True).
Proof. intros HE w Hw Hf. apply ens_check; [split; [by right|done]|]. intros e Ht. by apply Hf. Qed.
Lemma calms_change E g : (forall s, hard_links (g s) = hard_links s) -> calms E (change g) (fun _ => True).
Proof. intros Hg HE w Hw Hf. apply ens_modify. split; [by right|]. split; [|done]. split_and!; [done..|]. apply Hg. Qed.
Lemma calms_gets {A} E (g : OW -> A) : calms E (mgets g) (fun _ => True).
Proof. intros HE w Hw. by apply does_gets. Qed.
Lemma calms_now E : calms E now_nanos (fun _ => True).
Proof.
  intros HE w Hw Hf. apply ens_now. intros n w' (Hk & Hx & Hs). split; [by right|]. split; [|done].
  split_and!; [done|by rewrite Hs|by rewrite Hx].
Qed.
Lemma calms_for {A B} E (body : B -> A -> Op B) (P : B -> Prop) l : forall acc,
  P acc -> (forall acc x, P acc -> calms E (body acc x) P) -> calms E (mfor body acc l) P.
Proof.
  induction l as [|x l IH]; intros acc Ha Hb; simpl; [by apply calms_ret|].
  eapply calms_bind; [by apply Hb|]. intros acc' Ha'. by apply IH.
Qed.
(** A call whose errors are trouble. *)
Definition sound {A} (P : A -> Prop) (r : Result A IoError) : Prop :=
  match r with Ok a => P a | Err _ => T end.
Lemma calms_or_io {A} E p (m : IO A) (P : A -> Prop) : calms E m (sound P) -> calms E (or_io p m) P.
Proof.
  intros Hm. eapply calms_bind; [exact Hm|]. intros [a|e] Ha; [by apply calms_ret|by apply calms_fail].
Qed.
Lemma calms_look {A} (E : Fs -> Prop) (g : Call -> Fs -> Result A IoError) (P : A -> Prop) :
  (forall cl f, E f -> exists a, g cl f = Ok a /\ P a) -> calms E (sys (fun cl f => (g cl f, f))) (sound P).
Proof.
  intros Hg HE w Hw. apply does_sys.
  - intros e w' (Hk & Hx & Hs) HT. split; [|done]. split_and!; [done|by rewrite Hs|by rewrite Hx].
  - intros cl w' (Hk & Hx & Hs) _. destruct (Hg cl (fsys w) Hw) as (a & Ha & HP). cbn in *. rewrite Ha.
    split; [|done]. split_and!; [done|by rewrite Hs|by rewrite Hx].
Qed.
End Calm.

Create HintDb calms.
#[export] Hint Resolve calms_check calms_gets calms_now : calms.
Ltac calms_step :=
  match goal with
  | |- forall _, _ => intro
  | |- calms _ _ _ (mbind _ _) _ => eapply calms_bind; [solve [eauto with calms]|intros]
  | |- calms _ _ _ (mbind _ _) _ => eapply calms_bind with (P := fun _ => True); [|intros]
  | |- calms _ _ _ (let _ := _ in _) _ => cbv zeta
  | |- calms _ _ _ (mret _) _ => apply calms_ret
  | |- calms _ _ _ (mfail _) _ => apply calms_fail
  | |- calms _ _ _ (mfor _ _ _) (fun _ => True) => apply calms_for; [done|intros]
  | |- calms _ _ _ (match ?x with _ => _ end) _ => destruct x
  | |- calms _ _ _ _ _ => solve [eauto with calms]
  | |- _ => done
  end.
Ltac calms_auto := repeat calms_step.

Section CalmSteps.
Context `{Platform, Libc, AttrCalls} (c : Control) (T : Prop) (E : Fs -> Prop).

Abbreviation calms := (calms c T E).
Abbreviation anything := (fun _ => True).
Abbreviation sound := (sound T).

Lemma calms_emit p : calms (emit p) anything.
Proof.
  unfold emit, throughput_snapshot.
  pose proof (fun g Hg => calms_change c T E g Hg) as Hch.
  eapply calms_bind with (P := anything); [calms_auto|]. intros t _. by apply Hch.
Qed.
#[local] Hint Resolve calms_emit : calms.
Ltac change_step := eapply calms_bind; [by apply calms_change|intros [] _].
Lemma calms_advance m : calms (advance m) anything.
Proof. unfold advance. calms_step. change_step. calms_auto. Qed.
Lemma calms_advance_bytes n : calms (advance_bytes n) anything.
Proof. unfold advance_bytes. calms_step. change_step. calms_auto. Qed.
Lemma calms_finish : calms finish_current_item anything.
Proof. unfold finish_current_item. calms_step. change_step. calms_auto. Qed.
Lemma calms_complete : calms complete anything.
Proof. unfold complete. calms_step. change_step. calms_auto. Qed.
Lemma calms_degraded d : calms (metadata_degraded d) anything.
Proof. unfold metadata_degraded. calms_step. change_step. calms_auto. Qed.
#[local] Hint Resolve calms_advance calms_advance_bytes calms_finish calms_complete calms_degraded : calms.
Lemma calms_degradations l : calms (emit_metadata_degradations l) anything.
Proof. unfold emit_metadata_degradations. calms_auto. Qed.
#[local] Hint Resolve calms_degradations : calms.

(** *** Looking *)
Lemma calms_lstat p : (forall f, E f -> present p f) -> calms (symlink_metadata p) (sound anything).
Proof.
  intros Hp. apply calms_look. intros cl f Hf. destruct (present_lookup p f (Hp f Hf)) as (i & n & Hl).
  unfold stat. rewrite Hl. by eexists.
Qed.
Lemma calms_next_entry n : calms (next_entry n) (sound (fun m => m = n)).
Proof. apply calms_look. by eexists. Qed.

(** *** Attributes *)
Lemma calms_put_attrs g (act : Call -> Fs -> Result unit IoError * Fs) :
  (forall f cl, E f -> exists i n, inodes f !! i = Some n /\
     act cl f = (Ok tt, put_inode i (mkInode (shape n) (g (attrs n))) f)) ->
  calms (sys (X := OpState) act) (sound anything).
Proof.
  intros Ha HE w Hw. apply does_sys.
  - intros e w' (Hk & Hx & Hs) HT. split; [|done]. split_and!; [done|by rewrite Hs|by rewrite Hx].
  - intros cl w' (Hk & Hx & Hs) _. destruct (Ha (fsys w) cl Hw) as (i & n & Hi & Hact).
    rewrite Hact in *. split; [|done]. split_and!; [done| |by rewrite Hx].
    rewrite Hs. by eapply same_shapes_put.
Qed.
Lemma calms_set_attrs p g : (forall f, E f -> plain p f) -> calms (set_attrs p g) (sound anything).
Proof.
  intros Hp. apply (calms_put_attrs g). intros f cl Hf. specialize (Hp f Hf).
  rewrite (plain_resolve p f Hp). destruct (present_lookup p f (plain_present p f Hp)) as (i & n & Hl).
  rewrite Hl. apply lookup_inode_Some in Hl as [_ Hi]. by exists i, n.
Qed.
Lemma calms_set_link_attrs p g : (forall f, E f -> present p f) -> calms (set_link_attrs p g) (sound anything).
Proof.
  intros Hp. apply (calms_put_attrs g). intros f cl Hf.
  destruct (present_lookup p f (Hp f Hf)) as (i & n & Hl).
  rewrite Hl. apply lookup_inode_Some in Hl as [_ Hi]. by exists i, n.
Qed.
Lemma calms_get_attr {A} p (g : Attrs -> A) : (forall f, E f -> present p f) -> calms (get_attr p g) (sound anything).
Proof.
  intros Hp. apply calms_look. intros cl f Hf. destruct (present_lookup p f (Hp f Hf)) as (i & n & Hl).
  rewrite Hl. by eexists.
Qed.
Lemma calms_open p : (forall f, E f -> plain p f) -> calms (open_read p) (sound anything).
Proof.
  intros Hp. apply calms_look. intros cl f Hf. specialize (Hp f Hf). rewrite (plain_resolve p f Hp).
  destruct (present_lookup p f (plain_present p f Hp)) as (i & n & ->). by eexists.
Qed.
Lemma calms_degrade u s k t l r p : sound anything r -> calms (degrade u s k t l r p) anything.
Proof. intros Hr. unfold degrade. destruct r as [[]|e]; [by apply calms_ret|]. destruct (u e); [by apply calms_ret|by apply calms_fail]. Qed.

Section Metadata.
Context (from to : FPath) (Hfrom : forall f, E f -> present from f).

Lemma calms_preserve_xattrs : (forall f, E f -> present to f) -> calms (preserve_xattrs from to) anything.
Proof.
  intros Hto. unfold preserve_xattrs. eapply calms_bind; [by apply calms_get_attr|].
  intros [ns|e] Hr; [|by apply calms_degrade]. apply calms_for; [done|]. intros report n _.
  unfold preserve_xattr. eapply calms_bind; [by apply calms_get_attr|]. intros [[v|]|e] Hv.
  - eapply calms_bind; [by apply calms_set_link_attrs|]. intros r Hr'. by apply calms_degrade.
  - by apply calms_ret.
  - by apply calms_degrade.
Qed.
Lemma calms_symlink_times m : (forall f, E f -> present to f) -> calms (preserve_symlink_times to m) anything.
Proof.
  intros Hto. eapply calms_bind; [by apply calms_set_link_attrs|]. intros r Hr. by apply calms_degrade.
Qed.
Lemma calms_preserve m : (forall f, E f -> plain to f) -> calms (preserve_metadata from to m) anything.
Proof.
  intros Hto. assert (Hto' : forall f, E f -> present to f) by (intros; by apply plain_present, Hto).
  assert (Hset : forall g u k t l, calms (r <- set_attrs to g ; degrade u to k t l r to) anything).
  { intros g u k t l. eapply calms_bind; [by apply calms_set_attrs|]. intros r Hr. by apply calms_degrade. }
  unfold preserve_metadata. eapply calms_bind with (P := anything).
  { unfold preserve_ownership. destruct (is_symlink m); [by apply calms_ret|apply Hset]. }
  intros r1 _. eapply calms_bind; [by apply calms_or_io, calms_set_attrs|]. intros [] _.
  eapply calms_bind with (P := anything).
  { unfold preserve_times, preserve_creation_time.
    eapply calms_bind; [by apply calms_or_io, calms_set_attrs|]. intros [] _.
    eapply calms_bind; [by apply calms_or_io, calms_open|]. intros i _. apply Hset. }
  intros r2 _. eapply calms_bind; [by apply calms_preserve_xattrs|]. intros more _.
  eapply calms_bind with (P := anything).
  { unfold preserve_acls. eapply calms_bind; [by apply calms_get_attr|].
    intros [[|x l]|e] Hr; [by apply calms_ret|apply Hset|by apply calms_degrade]. }
  intros r3 _. unfold preserve_file_flags. destruct (_ || _); [by apply calms_ret|apply Hset].
Qed.
Lemma calms_preserve_progress m : (forall f, E f -> plain to f) -> calms (preserve_metadata_with_progress from to m) anything.
Proof.
  intros Hto. eapply calms_bind; [by apply calms_preserve|]. intros l _. apply calms_degradations.
Qed.
End Metadata.
End CalmSteps.

(** ** Verification of equal files *)
Section CalmVerify.
Context `{Platform} (c : Control) (T : Prop).

(** A read: at least a byte before the end, and all there is room for unless a
    short read is on the schedule. *)
Definition chunk_of (data : bytes) (offset : nat) (buffer : N) (d : bytes) : Prop :=
  exists n, d = take n (drop offset data) /\ (n <= length (drop offset data)) /\
    (drop offset data <> [] -> 0 < n) /\
    (n = N.to_nat (N.min buffer (N.of_nat (length (drop offset data)))) \/ T).
Lemma calms_read (E : Fs -> Prop) i data offset buffer : (0 < buffer < 2 ^ 63)%N ->
  (forall f, E f -> content_of f i = Some data) ->
  calms c T E (read i offset buffer) (sound T (chunk_of data offset buffer)).
Proof.
  intros Hb Hc HE w Hw. apply does_sys.
  - intros e w' (Hk & Hx & Hs) HT. split; [|done]. split_and!; [done|by rewrite Hs|by rewrite Hx].
  - intros cl w' (Hk & Hx & Hs) HT. cbn in *. rewrite (Hc _ Hw). split.
    + split_and!; [done|by rewrite Hs|by rewrite Hx].
    + cbn. set (rest := drop offset data) in *. eexists. split; [reflexivity|]. fold rest. split_and!.
      * lia.
      * destruct rest; [done|]. cbn [length]. lia.
      * unfold short_read in HT. destruct (decide (amount cl < 2 ^ 63)%N); [right; auto|left]. lia.
Qed.
Lemma chunk_same data offset buffer a b : chunk_of data offset buffer a -> chunk_of data offset buffer b ->
  a = b \/ T /\ length a <> length b.
Proof.
  intros (n & -> & Hn & _ & H1) (m & -> & Hm & _ & H2). destruct H1 as [->|HT], H2 as [->|HT']; auto;
    (destruct (decide (n = m)) as [->|Hne]; [by left|]) || idtac.
  all: rewrite !length_take; match goal with
       | |- take ?x ?l = take ?y ?l \/ _ => destruct (decide (x = y)) as [->|]; [by left|right; split; [done|lia]]
       end.
Qed.

Lemma calms_verify_loop (E : Fs -> Prop) from to i j data : 
  (forall f, E f -> content_of f i = Some data /\ content_of f j = Some data) ->
  forall fuel offset, length data - offset < fuel ->
  calms c T E (verify_loop fuel from to i j offset) (fun _ => True).
Proof.
  intros Hc. induction fuel as [|fuel IH]; intros offset Hlt; [lia|]. cbn [verify_loop].
  eapply calms_bind; [apply calms_check|]. intros [] _.
  eapply calms_bind; [apply calms_or_io, (calms_read _ i data); [done|apply Hc]|]. intros a Ha.
  eapply calms_bind; [apply calms_check|]. intros [] _.
  eapply calms_bind; [apply calms_or_io, (calms_read _ j data); [done|apply Hc]|]. intros b Hb.
  eapply calms_bind; [apply calms_check|]. intros [] _.
  destruct (chunk_same _ _ _ _ _ Ha Hb) as [<-|[HT Hne]].
  - rewrite decide_False by (intros E'; by apply E'). case_decide as H0; [by apply calms_ret|].
    rewrite decide_False by (intros E'; by apply E'). apply IH.
    destruct Ha as (n & -> & Hn & _). rewrite length_take in *. rewrite length_drop in *. lia.
  - rewrite decide_True by done. by apply calms_fail.
Qed.

Lemma file_plain f p d : shape_at f p = Some (ShFile d) -> plain p f.
Proof. intros Hp. by exists (ShFile d). Qed.
Lemma stat_file f p d : shape_at f p = Some (ShFile d) -> exists m, stat f p = Ok m /\ m_len m = N.of_nat (length d).
Proof.
  intros Hp. unfold shape_at, stat in *. destruct (lookup_inode f p) as [[i n]|]; [|done].
  cbn in Hp. simplify_eq. eexists. split; [done|]. cbn. by rewrite Hp.
Qed.
Lemma calms_file_size (E : Fs -> Prop) p d : (forall f, E f -> shape_at f p = Some (ShFile d)) ->
  calms c T E (or_io p (metadata p)) (fun m => m_len m = N.of_nat (length d)).
Proof.
  intros Hp. apply calms_or_io, calms_look. intros cl f Hf. specialize (Hp f Hf).
  rewrite (plain_resolve p f (file_plain _ _ _ Hp)). by apply stat_file.
Qed.
Lemma stable_content i d : stable (fun f => content_of f i = Some d).
Proof. intros f f' Hs <-. by apply same_shapes_content. Qed.
(** Opening tells the inode. *)
Lemma does_open w p d : shape_at (fsys w) p = Some (ShFile d) ->
  does c T w (or_io p (open_read p)) (fun i w' => calm w w' /\ content_of (fsys w) i = Some d).
Proof.
  intros Hp. apply does_or_io, does_sys; [done|]. intros cl w' (Hk & Hx & Hs) _. cbn [fst snd] in *.
  rewrite (plain_resolve p _ (file_plain _ _ _ Hp)). unfold shape_at in Hp.
  destruct (lookup_inode (fsys w) p) as [[i n]|] eqn:E; [|done]. cbn in Hp. simplify_eq.
  split; [split_and!; [done|by rewrite Hs|by rewrite Hx]|].
  apply lookup_inode_Some in E as [_ E]. unfold content_of. rewrite E. cbn. by rewrite Hp.
Qed.
Lemma calms_verify (E : Fs -> Prop) from to d v :
  (forall f, E f -> shape_at f from = Some (ShFile d) /\ shape_at f to = Some (ShFile d)) ->
  calms c T E (verify_copy_checked from to v) (fun _ => True).
Proof.
  intros Heq.
  assert (Hsize : calms c T E (verify_copy_size_checked from to) (fun _ => True)).
  { eapply calms_bind; [apply calms_check|]. intros [] _.
    eapply calms_bind; [apply calms_file_size; intros; by apply Heq|]. intros a Ha.
    eapply calms_bind; [apply calms_check|]. intros [] _.
    eapply calms_bind; [apply calms_file_size; intros; by apply Heq|]. intros b Hb.
    eapply calms_bind; [apply calms_check|]. intros [] _.
    rewrite decide_True by congruence. by apply calms_ret. }
  assert (Hbytes : calms c T E (verify_copy_bytes_checked from to) (fun _ => True)).
  { intros HE w Hw. destruct (Heq _ Hw) as [Hfrom Hto].
    eapply does_bind; [by apply (calms_check c T E)|]. intros [] w1 [Hc1 _].
    rewrite <- (same_shapes_at (fsys w) (fsys w1)) in Hfrom, Hto by apply Hc1.
    eapply does_bind; [by apply does_open|]. intros i w2 [Hc2 Hi].
    assert (Hw2 : E (fsys w2)).
    { eapply HE; [apply Hc2|]. eapply HE; [apply Hc1|done]. }
    eapply does_bind; [by apply (calms_check c T E)|]. intros [] w3 [Hc3 _].
    assert (Hc13 : calm w1 w3) by by etrans.
    rewrite <- (same_shapes_at (fsys w1) (fsys w3)) in Hto by apply Hc13.
    eapply does_bind; [by apply does_open|]. intros j w4 [Hc4 Hj].
    assert (Hc14 : calm w1 w4) by by etrans.
    assert (Hij : content_of (fsys w4) i = Some d /\ content_of (fsys w4) j = Some d).
    { split; [rewrite (same_shapes_content (fsys w1))|rewrite (same_shapes_content (fsys w3))]; [done|apply Hc14|done|apply Hc4]. }
    eapply does_bind with (P := fun a w' => a = w4 /\ w' = w4); [by apply does_get|]. intros w5 w6 [-> ->].
    eapply does_weaken.
    - apply (calms_verify_loop (fun f => content_of f i = Some d /\ content_of f j = Some d) from to i j d); [done| |apply stable_and; apply stable_content|done].
      unfold file_length. rewrite (proj1 Hij). cbn. lia.
    - intros [] w' [Hc _]. split; [|done]. etrans; [exact Hc1|]. by etrans. }
  unfold verify_copy_checked. eapply calms_bind; [apply calms_check|]. intros [] _.
  destruct v; [by apply calms_ret|done|]. eapply calms_bind; [exact Hsize|]. by intros [] _.
Qed.
End CalmVerify.
