(* ===== verification/CopyBytes.v ===== *)
(** * Copying: the bytes of a file

    The chunked copy writes the content of the source, whatever the sizes of the
    reads, and whether zeros are written or skipped. *)
From Stdlib Require Import Ascii.
From S2P Require Import Prelude Types Text Control FileSystem FileFacts OpModel OpTree Preserve Copy CopyCalm.
#[local] Open Scope list_scope.

(** ** Contents *)
Lemma resized_small (cur : bytes) o : length cur <= o -> resized cur o = cur ++ zeros (o - length cur).
Proof.
  intros Hl. unfold resized. apply take_ge. unfold zeros. rewrite length_app, length_replicate. lia.
Qed.
Lemma length_resized (cur : bytes) o : length (resized cur o) = o.
Proof.
  unfold resized, zeros. rewrite length_take, length_app, length_replicate. lia.
Qed.
Lemma splice_end (cur d : bytes) o : length cur <= o -> splice cur o d = resized cur o ++ d.
Proof.
  intros Hl. unfold splice. fold (resized cur o). rewrite (drop_ge cur) by lia. by rewrite app_nil_r.
Qed.
Lemma resized_exact (cur : bytes) : resized cur (length cur) = cur.
Proof. rewrite resized_small by lia. rewrite Nat.sub_diag. apply app_nil_r. Qed.
Lemma resized_zeros (cur : bytes) o n : length cur <= o -> resized cur (o + n) = resized cur o ++ zeros n.
Proof.
  intros Hl. rewrite !resized_small by lia. rewrite <- app_assoc. f_equal. unfold zeros.
  rewrite <- replicate_add. f_equal. lia.
Qed.

Lemma run_length_zero chunk : take (run_length true chunk) chunk = zeros (run_length true chunk).
Proof.
  induction chunk as [|b chunk IH]; [done|]. cbn. destruct (bool_decide (b = NUL)) eqn:E; [|done].
  apply bool_decide_eq_true in E as ->. cbn. unfold zeros in *. cbn. f_equal. exact IH.
Qed.
Lemma run_length_le z chunk : run_length z chunk <= length chunk.
Proof. induction chunk as [|b chunk IH]; [done|]. cbn. destruct (eqb _ _); cbn; lia. Qed.
Lemma run_length_pos b chunk : 0 < run_length (bool_decide (b = NUL)) (b :: chunk).
Proof. cbn. rewrite eqb_reflx. lia. Qed.

Section Bytes.
Context `{Platform, Libc, AttrCalls, Cloning, Packages} (c : Control) (T : Prop).

(** Only the content of the file [j] changes. *)
Definition writes (j : N) (w w' : OW) : Prop :=
  names (fsys w') = names (fsys w) /\ next_inode (fsys w') = next_inode (fsys w) /\
  hard_links (extra w') = hard_links (extra w) /\
  (is_Some (content_of (fsys w) j) -> is_Some (content_of (fsys w') j)) /\
  forall i, i <> j -> (fun n => shape n) <$> (inodes (fsys w') !! i) = (fun n => shape n) <$> (inodes (fsys w) !! i).
#[export] Instance writes_preorder j : PreOrder (writes j).
Proof.
  split; [done|]. intros w1 w2 w3 (Hn1 & Hx1 & Hl1 & Hj1 & Hc1) (Hn2 & Hx2 & Hl2 & Hj2 & Hc2).
  split_and!; [congruence..|auto|]. intros i Hi. by rewrite Hc2, Hc1.
Qed.
Lemma calm_writes j w w' : calm w w' -> writes j w w'.
Proof.
  intros (_ & Hs & Hl). pose proof Hs as (Hn & Hx & Hi). split_and!; [done..| |auto].
  by rewrite (same_shapes_content (fsys w) (fsys w')).
Qed.
Lemma writes_content j w w' i : writes j w w' -> i <> j -> content_of (fsys w') i = content_of (fsys w) i.
Proof.
  intros (_ & _ & _ & _ & Hc) Hi. specialize (Hc i Hi). unfold content_of.
  destruct (inodes (fsys w') !! i), (inodes (fsys w) !! i); cbn in *; simplify_eq; [by rewrite Hc|done].
Qed.
Lemma content_shape f j d : content_of f j = Some d -> (fun n => shape n) <$> (inodes f !! j) = Some (ShFile d).
Proof.
  unfold content_of. destruct (inodes f !! j) as [n|]; [|done]. cbn. destruct (shape n); [by intros [= ->]|done|done].
Qed.
Lemma writes_wf j w w' : writes j w w' -> is_Some (content_of (fsys w) j) -> wf (fsys w) -> wf (fsys w').
Proof.
  intros (Hn & Hx & _ & Hj & Hc) [d Hd] Hf. destruct (Hj ltac:(by eexists)) as [d' Hd'].
  apply content_shape in Hd, Hd'.
  assert (Hi : forall i n', inodes (fsys w') !! i = Some n' -> exists n, inodes (fsys w) !! i = Some n /\
            (shape n = ShDir <-> shape n' = ShDir)).
  { intros i n' Hn'. destruct (decide (i = j)) as [->|Hne].
    - rewrite Hn' in Hd'. destruct (inodes (fsys w) !! j) as [n|]; [|done]. exists n. cbn in *. simplify_eq.
      split; [done|]. split; congruence.
    - specialize (Hc i Hne). rewrite Hn' in Hc. destruct (inodes (fsys w) !! i) as [n|]; [|done]. exists n.
      cbn in Hc. split; [done|]. split; congruence. }
  assert (His : forall i, is_Some (inodes (fsys w) !! i) -> is_Some (inodes (fsys w') !! i)).
  { intros i [n E]. destruct (decide (i = j)) as [->|Hne].
    - destruct (inodes (fsys w') !! j); [by eexists|done].
    - specialize (Hc i Hne). rewrite E in Hc. destruct (inodes (fsys w') !! i); [by eexists|done]. }
  assert (Hdir : forall p, shape_at (fsys w) p = Some ShDir -> shape_at (fsys w') p = Some ShDir).
  { intros p (i & n & Hp & E & Hs)%shape_at_Some. destruct (His i ltac:(by eexists)) as [n' E'].
    destruct (Hi i n' E') as (n2 & E2 & Hiff). simplify_eq. apply shape_at_Some. exists i, n'.
    rewrite Hn. split_and!; [done..|by apply Hiff]. }
  constructor; [apply Hdir, Hf|..].
  - intros p n Hp. rewrite Hn in Hp. by apply Hdir, (wf_parent _ Hf p n).
  - intros p i Hp. rewrite Hn in Hp. by apply His, (wf_inode _ Hf p i).
  - intros i [n E]. rewrite Hx. destruct (Hi i n E) as (n' & E' & _). apply (wf_next _ Hf). by eexists.
  - intros p q i n Hp Hq E Hs. rewrite Hn in Hp, Hq. destruct (Hi i n E) as (n' & E' & Hiff).
    by eapply (wf_dir _ Hf); [..|apply Hiff].
Qed.
Lemma writes_shape j w w' p : writes j w w' -> names (fsys w) !! p <> Some j ->
  shape_at (fsys w') p = shape_at (fsys w) p.
Proof.
  intros (Hn & _ & _ & _ & Hc) Hp. unfold shape_at, lookup_inode. rewrite Hn.
  destruct (names (fsys w) !! p) as [i|]; [|done]. cbn. assert (Hi : i <> j) by congruence.
  specialize (Hc i Hi). destruct (inodes (fsys w') !! i), (inodes (fsys w) !! i); cbn in *; congruence.
Qed.

Lemma content_put f j d i cur : content_of f j = Some cur ->
  content_of (put_content j d f) i = if decide (i = j) then Some d else content_of f i.
Proof.
  intros Hj. unfold content_of, put_content in *. destruct (inodes f !! j) as [n|] eqn:E; [|done].
  cbn. case_decide as Hi; [subst; by rewrite lookup_insert_eq|by rewrite lookup_insert_ne].
Qed.
Lemma does_write_all w j offset d cur : content_of (fsys w) j = Some cur ->
  does c T w (write_all j offset d) (fun r w' =>
    sound T (fun _ => writes j w w' /\ content_of (fsys w') j = Some (splice cur offset d)) r).
Proof.
  intros Hj Hfair k. unfold write_all, call, mbind. cbn -[content_of].
  destruct (fails (schedule w (calls w))) as [e|] eqn:E; cbn -[content_of splice]; rewrite Hj;
    cbn -[content_of splice]; split; try done.
  - by right.
  - apply (fault_fair c T w e Hfair). by eexists.
  - by right.
  - split; [|by rewrite (content_put _ _ _ _ cur), decide_True].
    unfold put_content. unfold content_of in Hj. destruct (inodes (fsys w) !! j) as [n|] eqn:Ej; [|done].
    split_and!; [done..| |].
    + intros _. unfold content_of. cbn. rewrite lookup_insert_eq. by eexists.
    + intros i Hi. cbn. by rewrite lookup_insert_ne.
Qed.

(** The destination holds [x] once it is cut at the offset. *)
Definition holds (j : N) (x : bytes) (w : OW) : Prop :=
  exists cur, content_of (fsys w) j = Some cur /\ length cur <= length x /\ resized cur (length x) = x.
Lemma holds_calm j x w w' : calm w w' -> holds j x w -> holds j x w'.
Proof.
  intros (_ & Hs & _) (cur & Hc & Hr). exists cur. by rewrite (same_shapes_content (fsys w)).
Qed.

Definition wrote (j : N) (x chunk : bytes) (w : OW) (r : Result nat IoError) (w' : OW) : Prop :=
  sound T (fun o => o = length x + length chunk /\ writes j w w' /\ holds j (x ++ chunk) w') r.

Lemma does_write_holds w j x d : holds j x w ->
  does c T w (write_all j (length x) d) (fun r w' => sound T (fun _ => writes j w w' /\ holds j (x ++ d) w') r).
Proof.
  intros (cur & Hc & Hl & Hr). eapply does_weaken; [by apply does_write_all|].
  intros [u|e] w'; [|done]. intros [Hw Hs]. split; [done|]. eexists. split; [exact Hs|].
  rewrite splice_end, Hr by done. split; [done|apply resized_exact].
Qed.
Lemma does_sparse j fuel : forall chunk x w, length chunk < fuel -> holds j x w ->
  does c T w (sparse_loop fuel j (length x) chunk) (wrote j x chunk w).
Proof.
  induction fuel as [|fuel IH]; intros chunk x w Hlt Hx; [lia|]. cbn [sparse_loop].
  destruct chunk as [|b chunk].
  - apply does_ret. cbn. rewrite app_nil_r. split_and!; [lia|done|done].
  - pose proof (run_length_pos b chunk) as Hpos. pose proof (run_length_le (bool_decide (b = NUL)) (b :: chunk)) as Hle.
    case_decide as Hb; cbv zeta.
    + rewrite bool_decide_true in Hpos, Hle by done. set (n := run_length true (b :: chunk)) in *.
      pose proof (run_length_zero (b :: chunk)) as Hz. fold n in Hz. clearbody n.
      eapply does_bind.
      { eapply (calms_look c T (fun _ => True) (fun _ _ => Ok (length x + n)) (fun o => o = length x + n)); [by eexists|done|done]. }
      intros [o|e] w1 [Hc1 Ho]; [|by apply does_ret]. assert (o = length x + n) as -> by exact Ho. clear Ho.
      assert (Hx1 : holds j (x ++ zeros n) w1).
      { apply (holds_calm _ _ w w1 Hc1) in Hx as (cur & Hcur & Hl & Hr). exists cur. unfold zeros in *.
        rewrite length_app, length_replicate. split_and!; [done|lia|]. rewrite resized_zeros by done. by rewrite Hr. }
      replace (length x + n) with (length (x ++ zeros n)) by (unfold zeros; rewrite length_app, length_replicate; done).
      eapply does_weaken; [apply IH; [rewrite length_drop; lia|exact Hx1]|].
      intros [o|e] w2; [|done]. cbn. intros (-> & Hw & Hh). split_and!.
      * unfold zeros. rewrite length_app, length_replicate, length_drop. cbn [length] in *. lia.
      * etrans; [by apply calm_writes|done].
      * rewrite <- app_assoc in Hh. by rewrite <- Hz, take_drop in Hh.
    + rewrite bool_decide_false in Hpos, Hle by done. set (n := run_length false (b :: chunk)) in *.
      clearbody n. eapply does_bind; [by apply does_write_holds|]. intros [u|e] w1; [|intros HT; by apply does_ret].
      cbn. intros [Hw1 Hx1].
      assert (Hn : length (take n (b :: chunk)) = n) by (rewrite length_take; cbn [length] in *; lia).
      replace (length x + n) with (length (x ++ take n (b :: chunk))) by (rewrite length_app, Hn; done).
      eapply does_weaken; [apply IH; [rewrite length_drop; lia|exact Hx1]|].
      intros [o|e] w2; [|done]. cbn [sound wrote]. intros (-> & Hw & Hh). split_and!.
      * rewrite length_app, Hn, length_drop. cbn [length] in *. lia.
      * by etrans.
      * by rewrite <- app_assoc, take_drop in Hh.
Qed.
Lemma does_chunk w j x chunk sparse : holds j x w ->
  does c T w (write_copy_chunk j (length x) chunk sparse) (wrote j x chunk w).
Proof.
  intros Hx. unfold write_copy_chunk. destruct sparse; [apply does_sparse; [lia|done]|].
  eapply does_bind; [by apply does_write_holds|]. intros [u|e] w1 Hr; apply does_ret; [|done].
  destruct Hr as [Hw Hh]. by split.
Qed.

Definition exited (data : bytes) (i j : N) (w : OW) (x : LoopExit) (w' : OW) : Prop :=
  match x with
  | Broke (Ok n) => n = length data /\ writes j w w' /\ holds j data w'
  | Broke (Err _) | Returned _ => T
  end.
Lemma does_transfer from to i j buffer sparse data fuel : i <> j -> (0 < buffer < 2 ^ 63)%N ->
  forall n w, length data - n < fuel -> n <= length data ->
  content_of (fsys w) i = Some data -> holds j (take n data) w ->
  does c T w (transfer_loop fuel from to i j buffer sparse n n) (exited data i j w).
Proof.
  intros Hij Hb. induction fuel as [|fuel IH]; intros n w Hlt Hn Hi Hj; [lia|]. cbn [transfer_loop].
  eapply does_bind.
  { apply does_attempt. by apply (calms_check c T (fun _ => True)). }
  intros [u|e] w1 Hv; [|by apply does_ret]. destruct Hv as [Hc1 _].
  rewrite <- (same_shapes_content (fsys w) (fsys w1)) in Hi by apply Hc1. apply (holds_calm _ _ w w1 Hc1) in Hj.
  eapply does_bind.
  { apply (calms_read c T (fun f => content_of f i = Some data) i data n buffer Hb); [done|apply stable_content|done]. }
  intros [chunk|e] w2 [Hc2 Hch]; [|by apply does_ret].
  rewrite <- (same_shapes_content (fsys w1) (fsys w2)) in Hi by apply Hc2. apply (holds_calm _ _ w1 w2 Hc2) in Hj.
  assert (Hw2 : writes j w w2) by (apply calm_writes; by etrans).
  destruct Hch as (m & -> & Hm & Hpos & _). destruct (take m (drop n data)) as [|b rest] eqn:E.
  - apply does_ret. assert (Hend : drop n data = []).
    { destruct (drop n data) as [|y l]; [done|]. specialize (Hpos ltac:(done)).
      apply (f_equal length) in E. rewrite length_take in E. cbn [length] in *. lia. }
    apply (f_equal length) in Hend. rewrite length_drop in Hend. cbn in Hend.
    assert (n = length data) as -> by lia. rewrite take_ge in Hj by done. done.
  - rewrite <- E. clear Hpos.
    assert (Hlen : length (take m (drop n data)) = m) by (rewrite length_take; lia).
    assert (0 < m) by (destruct m; [done|lia]). rewrite length_drop in Hm.
    assert (Htn : length (take n data) = n) by (rewrite length_take; lia).
    eapply does_bind; [rewrite <- Htn at 1; by apply does_chunk|].
    intros [o|e'] w3 Hr; [|by apply does_ret]. destruct Hr as (-> & Hw3 & Hh).
    eapply does_bind.
    { apply does_attempt. by apply (calms_advance_bytes c T (fun _ => True)). }
    intros [u'|e'] w4 Hv; [|by apply does_ret]. destruct Hv as [Hc4 _].
    rewrite Htn, Hlen. rewrite take_take_drop in Hh.
    eapply does_weaken; [apply IH; [lia|lia| |by eapply holds_calm]|].
    + rewrite (same_shapes_content (fsys w3)) by apply Hc4. by rewrite (writes_content j w2 w3).
    + intros x w5 Hx. destruct x as [[k|e']|e']; [|done|done]. destruct Hx as (-> & Hw5 & Hh5).
      split_and!; [done| |done]. etrans; [exact Hw2|]. etrans; [exact Hw3|].
      etrans; [by apply calm_writes|done].
Qed.

Lemma buffer_bounds p from to : (0 < copy_buffer_bytes_for_paths p from to < 2 ^ 63)%N.
Proof.
  unfold copy_buffer_bytes_for_paths. destruct (class_for_path p from), (class_for_path p to); by vm_compute.
Qed.

(** Making an entry where there is none. *)
Definition created_entry (s : Shape) (p : FPath) (w : OW) (i : N) (w' : OW) : Prop :=
  i = next_inode (fsys w) /\ hard_links (extra w') = hard_links (extra w) /\
  exists a, fsys w' = attach p (mkInode s a) (fsys w).
Lemma does_create w s p d : wf (fsys w) -> names (fsys w) !! p = None -> parent p = Some d ->
  shape_at (fsys w) d = Some ShDir ->
  does c T w (create_at s p) (fun r w' => sound T (fun i => created_entry s p w i w') r).
Proof.
  intros Hf Hp Hd Hs. apply does_sys; [done|]. intros cl w' (_ & Hx & Hfs) _.
  rewrite Hp, Hd, Hs in *. cbn in *. split_and!; [done|by rewrite Hx|by eexists].
Qed.
Lemma content_attach f p n i : wf f -> i <> next_inode f -> content_of (attach p n f) i = content_of f i.
Proof. intros Hf Hi. unfold content_of. cbn. by rewrite lookup_insert_ne. Qed.

(** Nothing but what is at [p] and below has changed. *)
Definition grows (p : FPath) (f f' : Fs) : Prop :=
  wf f' /\ forall q, ~ under p q -> names f' !! q = names f !! q /\ shape_at f' q = shape_at f q.
(** The name at [p] is of a new inode. *)
Definition newly (p : FPath) (f f' : Fs) : Prop := forall i, names f' !! p = Some i -> (next_inode f <= i)%N.
Definition same_session (w w' : OW) : Prop := hard_links (extra w') = hard_links (extra w).
Lemma grows_trans p f1 f2 f3 : grows p f1 f2 -> grows p f2 f3 -> grows p f1 f3.
Proof.
  intros (_ & Hs1) (Hf & Hs2). split; [done|]. intros q Hq. destruct (Hs1 q Hq), (Hs2 q Hq). split; congruence.
Qed.
Lemma grows_same p f f' : wf f -> same_shapes f f' -> grows p f f'.
Proof.
  intros Hf Hs. split; [by eapply same_shapes_wf|]. intros q _. split; [by destruct Hs as (-> & _)|by apply same_shapes_at].
Qed.
Lemma grows_weaken p q f f' : grows q f f' -> under p q -> grows p f f'.
Proof. intros (Hf & Hs) Hu. split; [done|]. intros r Hr. apply Hs. intros E. apply Hr. by eapply under_trans. Qed.
(** The file system in which a copy to [to] can be made. *)
Definition ready (to : FPath) (f : Fs) : Prop :=
  wf f /\ names f !! to = None /\ exists d, parent to = Some d /\ shape_at f d = Some ShDir.
Lemma stable_ready to : stable (ready to).
Proof.
  intros f f' Hs (Hf & Hn & d & Hd & Hsh). split_and!; [by eapply same_shapes_wf| |].
  - destruct Hs as (-> & _). done.
  - exists d. by rewrite (same_shapes_at f f').
Qed.
Lemma does_create_grows w s p : ready p (fsys w) ->
  does c T w (create_at s p) (fun r w' => sound T (fun i => grows p (fsys w) (fsys w') /\
    created_entry s p w i w' /\ shape_at (fsys w') p = Some s) r).
Proof.
  intros (Hf & Hn & d & Hd & Hs). eapply does_weaken; [by eapply does_create|]. intros [i|e] w'; [|done].
  intros Hcr. pose proof Hcr as (_ & Hl & a & Hfs). split_and!; [|done|].
  - rewrite Hfs. split; [by eapply wf_attach|]. intros q Hq.
    assert (q <> p) by (intros ->; by apply Hq, under_refl). split; [cbn; by rewrite lookup_insert_ne|].
    rewrite shape_at_attach by done. by rewrite decide_False.
  - rewrite Hfs, shape_at_attach by done. by rewrite decide_True.
Qed.

Lemma does_copy_bytes w from to p data : ready to (fsys w) -> shape_at (fsys w) from = Some (ShFile data) ->
  does c T w (copy_file_bytes_tracked from to p) (fun _ w' =>
    grows to (fsys w) (fsys w') /\ same_session w w' /\ shape_at (fsys w') to = Some (ShFile data) /\
    newly to (fsys w) (fsys w')).
Proof.
  intros Hready Hfrom. unfold copy_file_bytes_tracked.
  eapply does_bind; [by apply does_open|]. intros i w1 [Hc1 Hi].
  rewrite <- (same_shapes_content (fsys w) (fsys w1)) in Hi by apply Hc1.
  eapply does_bind.
  { apply (calms_or_io c T (fun f => content_of f i = Some data) from (file_metadata i) (fun _ => True)); [|apply stable_content|done].
    apply calms_look. intros cl f Hcf. unfold content_of in Hcf. destruct (inodes f !! i); [by eexists|done]. }
  intros m w2 [Hc2 _]. assert (Hc02 : calm w w2) by by etrans. cbv zeta.
  rewrite <- (same_shapes_content (fsys w1) (fsys w2)) in Hi by apply Hc2.
  assert (Hready2 : ready to (fsys w2)) by (eapply stable_ready; [apply Hc02|done]).
  pose proof Hready2 as (Hf2 & _). pose proof Hready as (Hf & _).
  eapply does_bind; [by apply does_or_io, does_create_grows|]. intros j w3 (Hg3 & (-> & Hl3 & a & Hfs3) & _).
  set (j := next_inode (fsys w2)) in *.
  assert (Hij : i <> j).
  { intros ->. unfold content_of in Hi. destruct (inodes (fsys w2) !! j) eqn:E; [|done].
    assert (next_inode (fsys w2) < next_inode (fsys w2))%N by (apply (wf_next _ Hf2); by eexists). lia. }
  assert (Hi3 : content_of (fsys w3) i = Some data) by (rewrite Hfs3, content_attach by done; done).
  assert (Hj3 : content_of (fsys w3) j = Some []).
  { rewrite Hfs3. unfold content_of. cbn. by rewrite lookup_insert_eq. }
  assert (Hnj : forall q, ~ under to q -> names (fsys w3) !! q <> Some j).
  { intros q Hq E. rewrite Hfs3 in E. cbn in E. rewrite lookup_insert_ne in E by (intros ->; by apply Hq, under_refl).
    destruct (wf_inode _ Hf2 q _ E) as [n Hn].
    assert (next_inode (fsys w2) < next_inode (fsys w2))%N by (apply (wf_next _ Hf2); by eexists). lia. }
  eapply does_bind with (P := fun a w' => a = w3 /\ w' = w3); [by apply does_get|]. intros ? ? [-> ->].
  eapply does_bind.
  { apply (does_transfer from to i j _ _ data _ Hij (buffer_bounds p from to) 0 w3); [|lia|done|by exists []].
    unfold file_length. rewrite Hi3. cbn. lia. }
  intros [[n|e]|e] w4 Hx; cbn [exited] in Hx.
  - destruct Hx as (-> & Hw4 & cur & Hcur & Hlen & Hres).
    eapply does_bind with (P := fun r w' => match r with
      | Ok _ => grows to (fsys w) (fsys w') /\ same_session w w' /\ shape_at (fsys w') to = Some (ShFile data) /\
          newly to (fsys w) (fsys w')
      | Err _ => T end).
    + apply does_attempt. eapply does_bind with (P := fun n w' => n = length data /\ w' = w4).
      { intros Hfair. apply ens_lift. split; [by right|done]. }
      intros ? ? [-> ->]. eapply does_bind.
      { apply does_or_io, does_sys with (P := fun r w' => sound T (fun _ => after w4
          (put_content j (resized cur (length data)) (fsys w4)) w') r); [done|].
        intros cl w5 Hw5 _. rewrite Hcur in *. exact Hw5. }
      intros [] w5 (_ & Hx5 & Hs5). apply does_ret.
      assert (Hf3 : wf (fsys w3)) by apply Hg3.
      assert (Hf4 : wf (fsys w4)) by (eapply writes_wf; [exact Hw4|by eexists|done]).
      unfold put_content in Hs5. pose proof Hcur as Hcur'. unfold content_of in Hcur'.
      destruct (inodes (fsys w4) !! j) as [nj|] eqn:E; [|done]. pose proof Hw4 as (Hn4 & _ & Hl4 & _).
      split_and!.
      * eapply grows_trans; [by apply grows_same; [|apply Hc02]|]. eapply grows_trans; [exact Hg3|].
        rewrite Hs5. split; [eapply wf_put_inode; [done..|]; cbn in Hcur' |- *; by destruct (shape nj)|].
        intros q Hq. split; [cbn; by rewrite Hn4|]. rewrite shape_at_put_inode, Hn4, decide_False by auto.
        apply (writes_shape j); auto.
      * unfold same_session. rewrite Hx5, Hl4, Hl3. apply Hc02.
      * rewrite Hs5, Hres, shape_at_put_inode, decide_True; [done|].
        rewrite Hn4, Hfs3. cbn. by rewrite lookup_insert_eq.
      * intros k. rewrite Hs5. cbn. rewrite Hn4, Hfs3. cbn. rewrite lookup_insert_eq. intros [= <-].
        destruct Hc02 as (_ & (_ & Hx2 & _) & _). by rewrite <- Hx2.
    + intros [n|e] w5 Hr; [by apply does_ret|]. apply does_doomed; [done|]. apply doomed_bind. intros. apply doomed_fail.
  - eapply does_bind with (P := fun r _ => r = Err e).
    + intros Hfair k. cbn. split; [by left|done].
    + intros ? w5 ->. apply does_doomed; [done|]. apply doomed_bind. intros. apply doomed_fail.
  - by apply does_fail.
Qed.
End Bytes.
