(* ===== verification/CopySpec.v ===== *)
(** * Copying: the copy is complete

    Under any control closure and any schedule of faults, a copy that returns [Ok]
    has made below the destination what is below the source and changed nothing
    else, and a copy that fails has met a poll or a call that failed. *)
From S2P Require Import Prelude Types Text Control FileSystem FileFacts OpModel OpTree Preserve Copy CopyFrame CopyCalm CopyBytes.
#[local] Open Scope list_scope.

(** ** Paths and trees *)
Definition apart (p q : FPath) : Prop := ~ under p q /\ ~ under q p.
Lemma apart_sym p q : apart p q -> apart q p.
Proof. by intros []. Qed.
Lemma apart_app p q rel : apart p q -> apart (p ++ rel) q.
Proof.
  intros [Hpq Hqp]. split.
  - intros E. apply Hpq. eapply under_trans; [apply under_app|exact E].
  - intros E. destruct (under_comparable q p (p ++ rel)); [done|apply under_app|done..].
Qed.
Lemma apart_under p q r : apart p q -> under p r -> ~ under q r.
Proof. intros Ha [rel ->]. by apply (apart_app p q rel). Qed.
Lemma apart_below p q r : apart p q -> under q r -> apart p r.
Proof. intros Ha [rel ->]. by apply apart_sym, apart_app, apart_sym. Qed.

(** Below [dst] in [f'] is what is below [src] in [f]. *)
Definition copied (f : Fs) (src : FPath) (f' : Fs) (dst : FPath) : Prop :=
  forall rel, shape_at f' (dst ++ rel) = shape_at f (src ++ rel).
Lemma copied_leaf f src f' dst s : wf f -> wf f' -> s <> ShDir ->
  shape_at f src = Some s -> shape_at f' dst = Some s -> copied f src f' dst.
Proof.
  intros Hf Hf' Hs Hsrc Hdst rel. destruct rel as [|n rel]; [by rewrite !app_nil_r, Hsrc|].
  assert (Hne : forall p : FPath, p <> p ++ n :: rel).
  { intros p E. rewrite <- (app_nil_r p) in E at 1. by apply app_inv_head in E. }
  rewrite (proj2 (shape_at_None f' _ Hf')), (proj2 (shape_at_None f _ Hf)); [done|..].
  - eapply (wf_leaf f src); [done..|apply under_app|apply Hne].
  - eapply (wf_leaf f' dst); [done..|apply under_app|apply Hne].
Qed.
(** An entry that could be made is not found because there is none. *)
Lemma missing_ready p f : ready p f -> missing f p = ENOENT.
Proof. intros (Hf & _ & Hd). by apply missing_placed. Qed.

Lemma grows_under p q f f' : grows q f f' -> under p q -> grows p f f'.
Proof. intros Hg Hu. by eapply grows_weaken. Qed.
Lemma grows_shape p f f' q : grows p f f' -> ~ under p q -> shape_at f' q = shape_at f q.
Proof. intros [_ Hs] Hq. by apply Hs. Qed.
Lemma grows_names p f f' q : grows p f f' -> ~ under p q -> names f' !! q = names f !! q.
Proof. intros [_ Hs] Hq. by apply Hs. Qed.

Section Spec.
Context `{Platform, Libc, AttrCalls, Cloning, Packages, !CloneLaws} (c : Control) (T : Prop).

Abbreviation does := (does c T).
Abbreviation calms := (calms c T).
Abbreviation anything := (fun _ => True).

(** ** Steps that change nothing *)
Lemma does_calm {A B} (E : Fs -> Prop) w (m : Op A) (k : A -> Op B) (P : A -> Prop) (Q : B -> OW -> Prop) :
  calms E m P -> stable E -> E (fsys w) ->
  (forall a w1, calm w w1 -> P a -> E (fsys w1) -> does w1 (k a) Q) -> does w (mbind m k) Q.
Proof.
  intros Hm HE Hw Hk. eapply does_bind; [by apply Hm|]. intros a w1 [Hc Ha]. apply Hk; [done..|].
  eapply HE; [apply Hc|done].
Qed.
Lemma calms_get E : calms E mget (fun w => E (fsys w)).
Proof. intros HE w Hw. by apply does_get. Qed.
Lemma calms_sys_err {A} (E : Fs -> Prop) (act : Call -> Fs -> Result A IoError * Fs) :
  (forall cl f, E f -> exists e, act cl f = (Err e, f)) -> calms E (sys act) anything.
Proof.
  intros Ha HE w Hw. apply does_sys.
  - intros e w' (Hk & Hx & Hs) _. split; [|done]. split_and!; [done|by rewrite Hs|by rewrite Hx].
  - intros cl w' (Hk & Hx & Hs) _. destruct (Ha cl (fsys w) Hw) as [e He]. rewrite He in *.
    split; [|done]. split_and!; [done|by rewrite Hs|by rewrite Hx].
Qed.
Lemma calms_create_dirs todo : forall p,
  calms (fun f => wf f /\ shape_at f (p ++ todo) = Some ShDir) (create_dirs p todo) (sound T anything).
Proof.
  induction todo as [|n todo IH]; intros p; cbn [create_dirs]; [by apply calms_ret|].
  assert (Hjoin : forall f, wf f /\ shape_at f (p ++ n :: todo) = Some ShDir ->
            wf f /\ shape_at f (join p n ++ todo) = Some ShDir).
  { intros f. unfold join. by rewrite <- app_assoc. }
  assert (Hrest : calms (fun f => wf f /\ shape_at f (p ++ n :: todo) = Some ShDir)
                    (create_dirs (join p n) todo) (sound T anything)).
  { intros HE w Hw. apply IH; [|by apply Hjoin].
    apply stable_and; [intros ???; by eapply same_shapes_wf|apply stable_shape]. }
  eapply calms_bind with (P := anything).
  - apply calms_sys_err. intros cl f Hf. apply Hjoin in Hf as [Hf Hs]. apply dirs_above, shape_at_names in Hs; [|done].
    destruct Hs as [i ->]. by eexists.
  - intros [i|e] _; [done|]. eapply calms_bind; [apply calms_get|]. intros w Hw.
    apply Hjoin in Hw as [Hf Hs]. rewrite decide_True by by eapply dirs_above. done.
Qed.
Lemma calms_create_parent E to : (forall f, E f -> ready to f) -> calms E (create_parent to) anything.
Proof.
  intros Hr HE w Hw. unfold create_parent. pose proof (Hr _ Hw) as (_ & _ & d & Hd & _). rewrite Hd.
  apply (calms_or_io c T E d (create_dir_all d)); [|done|done]. intros HE' w' Hw'. apply calms_create_dirs.
  - apply stable_and; [intros ???; by eapply same_shapes_wf|apply stable_shape].
  - pose proof (Hr _ Hw') as (Hf & _ & d' & Hd' & Hs). simplify_eq. by split.
Qed.

(** What is read at a path. *)
Definition seen (f : Fs) (p : FPath) (s : Shape) (m : Metadata) : Prop :=
  file_type m = type_of s /\ names f !! p = Some (m_ino m).
Lemma does_lstat w p s : shape_at (fsys w) p = Some s ->
  does w (or_io p (symlink_metadata p)) (fun m w' => calm w w' /\ seen (fsys w) p s m).
Proof.
  intros Hp. apply does_or_io, does_sys; [done|]. intros cl w' (Hk & Hx & Hs) _. cbn [fst snd] in *.
  unfold shape_at in Hp. unfold stat. destruct (lookup_inode (fsys w) p) as [[i n]|] eqn:E; [|done].
  cbn in Hp. simplify_eq. split; [split_and!; [done|by rewrite Hs|by rewrite Hx]|].
  apply lookup_inode_Some in E as [En _]. by split.
Qed.
Lemma does_read_link w p t : shape_at (fsys w) p = Some (ShLink t) ->
  does w (or_io p (read_link p)) (fun r w' => calm w w' /\ r = t).
Proof.
  intros Hp. apply does_or_io, does_sys; [done|]. intros cl w' (Hk & Hx & Hs) _. cbn [fst snd] in *.
  rewrite Hp. split; [split_and!; [done|by rewrite Hs|by rewrite Hx]|done].
Qed.
Lemma does_read_dir w p : shape_at (fsys w) p = Some ShDir ->
  does w (or_io p (read_dir p)) (fun ns w' => calm w w' /\ ns ≡ₚ children (fsys w) p).
Proof.
  intros Hp. apply does_or_io, does_sys; [done|]. intros cl w' (Hk & Hx & Hs) _. cbn [fst snd] in *.
  rewrite Hp. split; [split_and!; [done|by rewrite Hs|by rewrite Hx]|apply dir_order_perm].
Qed.

(** ** One new entry *)
(** An entry of shape [s]; of an inode of its own, when [own] holds. *)
Definition made (own : Prop) (dst : FPath) (s : Shape) (w w' : OW) : Prop :=
  grows dst (fsys w) (fsys w') /\ same_session w w' /\ shape_at (fsys w') dst = Some s /\
  (own -> newly dst (fsys w) (fsys w')).
Lemma calm_grows p w w' : wf (fsys w) -> calm w w' -> grows p (fsys w) (fsys w').
Proof. intros Hf (_ & Hs & _). by apply grows_same. Qed.
Lemma calm_session w w' : calm w w' -> same_session w w'.
Proof. by intros (_ & _ & Hl). Qed.
Lemma session_trans w1 w2 w3 : same_session w1 w2 -> same_session w2 w3 -> same_session w1 w3.
Proof. unfold same_session. congruence. Qed.
Lemma calm_shape w w' p : calm w w' -> shape_at (fsys w') p = shape_at (fsys w) p.
Proof. intros (_ & Hs & _). by apply same_shapes_at. Qed.
Lemma calm_ready w w' p : calm w w' -> ready p (fsys w) -> ready p (fsys w').
Proof. intros (_ & Hs & _). by apply stable_ready. Qed.
Lemma ready_wf p f : ready p f -> wf f.
Proof. by intros []. Qed.
Lemma newly_calm p (w w1 w2 : OW) : calm w w1 -> newly p (fsys w1) (fsys w2) -> newly p (fsys w) (fsys w2).
Proof. intros (_ & (_ & Hx & _) & _) Hn i Hi. rewrite <- Hx. by apply Hn. Qed.
Lemma made_before own dst s w w1 w2 : wf (fsys w) -> calm w w1 -> made own dst s w1 w2 -> made own dst s w w2.
Proof.
  intros Hf Hc (Hg & Hl & Hs & Ho). split_and!; [|eapply session_trans; [by apply calm_session|done]|done|].
  - eapply grows_trans; [by apply calm_grows|done].
  - intros Hown. eapply newly_calm; [exact Hc|by apply Ho].
Qed.
Lemma made_after own dst s w w1 w2 : made own dst s w w1 -> calm w1 w2 -> made own dst s w w2.
Proof.
  intros (Hg & Hl & Hs & Ho) Hc. split_and!.
  - eapply grows_trans; [done|]. apply calm_grows; [by destruct Hg|done].
  - eapply session_trans; [done|by apply calm_session].
  - by rewrite (calm_shape w1).
  - intros Hown. destruct Hc as (_ & (Hn & _) & _). intros i. rewrite Hn. by apply Ho.
Qed.
Lemma made_created s p w i w' : grows p (fsys w) (fsys w') -> created_entry s p w i w' ->
  shape_at (fsys w') p = Some s -> made True p s w w'.
Proof.
  intros Hg (-> & Hl & a & Hfs) Hs. split_and!; [done..|]. intros _ i. rewrite Hfs. cbn.
  rewrite lookup_insert_eq. by intros [= <-].
Qed.
(** The source is still there. *)
Lemma made_source own dst s w w' src r : made own dst s w w' -> apart src dst -> shape_at (fsys w) src = r ->
  shape_at (fsys w') src = r.
Proof. intros (Hg & _) [_ Ha] <-. by apply (grows_shape dst). Qed.

(** An entry made, and work that leaves it as it is. *)
Lemma does_made_then {A B} w (m : Op A) (k : A -> Op B) own dst s src s0 (P : A -> Prop) :
  apart src dst -> shape_at (fsys w) src = Some s0 ->
  does w m (fun a w' => made own dst s w w' /\ P a) ->
  (forall a, P a -> calms (fun f => shape_at f src = Some s0 /\ shape_at f dst = Some s) (k a) anything) ->
  does w (mbind m k) (fun _ w' => made own dst s w w').
Proof.
  intros Ha Hsrc Hm Hk. eapply does_bind; [exact Hm|]. intros a w1 [Hmade HP].
  eapply does_weaken; [apply (Hk a HP)|].
  - apply stable_and; apply stable_shape.
  - split; [by eapply made_source|by destruct Hmade as (_ & _ & ? & _)].
  - intros b w2 [Hc _]. by eapply made_after.
Qed.

Lemma seen_link f p s m : seen f p s m -> is_symlink m = match s with ShLink _ => true | _ => false end.
Proof. intros [Ht _]. unfold is_symlink. rewrite Ht. by destruct s. Qed.
Lemma seen_dir f p s m : seen f p s m -> m_is_dir m = match s with ShDir => true | _ => false end.
Proof. intros [Ht _]. unfold m_is_dir. rewrite Ht. by destruct s. Qed.
Lemma seen_file f p s m : seen f p s m -> is_file m = match s with ShFile _ => true | _ => false end.
Proof. intros [Ht _]. unfold is_file. rewrite Ht. by destruct s. Qed.

Lemma shape_present f p s : shape_at f p = Some s -> present p f.
Proof. intros E. by exists s. Qed.
Lemma shape_plain f p s : shape_at f p = Some s -> (forall t, s <> ShLink t) -> plain p f.
Proof. intros E Hl. by exists s. Qed.

(** *** Links *)
Lemma does_copy_symlink w from to t : ready to (fsys w) -> apart from to ->
  shape_at (fsys w) from = Some (ShLink t) ->
  does w (copy_symlink from to) (fun _ w' => made True to (ShLink t) w w').
Proof.
  intros Hr Ha Hs. pose proof (ready_wf _ _ Hr) as Hf. unfold copy_symlink.
  eapply does_weaken with (P := fun _ w' => made True to (ShLink t) w w'); [|done].
  apply does_calm with (E := ready to) (P := anything); [apply calms_check|apply stable_ready|done|].
  intros [] w1 Hc1 _ Hr1. eapply does_calm; [by apply calms_create_parent|apply stable_ready|done|].
  intros [] w2 Hc2 _ Hr2. assert (Hc02 : calm w w2) by by etrans.
  rewrite <- (calm_shape w w2) in Hs by done.
  eapply does_bind; [by apply does_read_link|]. intros t' w3 [Hc3 ->].
  assert (Hc03 : calm w w3) by by etrans. rewrite <- (calm_shape w2 w3) in Hs by done.
  eapply does_weaken; [eapply (does_made_then w3 _ _ True to (ShLink t) from (ShLink t) anything)|].
  - done.
  - done.
  - apply does_or_io. eapply does_weaken; [by apply does_create_grows, (calm_ready w2)|].
    intros [i|e] w4; [|done]. intros (Hg & Hcr & Hsh). split; [by eapply made_created|done].
  - intros i _.
    pose proof (calms_advance c T) as Hadv. pose proof (calms_degradations c T) as Hdeg.
    eapply calms_bind; [apply calms_or_io, calms_lstat; intros f [? _]; by eapply shape_present|]. intros m _.
    eapply calms_bind; [apply calms_preserve_xattrs; intros f [? ?]; by eapply shape_present|]. intros r _.
    eapply calms_bind; [apply Hdeg|]. intros [] _.
    eapply calms_bind; [apply calms_symlink_times; intros f [? ?]; by eapply shape_present|]. intros r' _.
    eapply calms_bind; [apply Hdeg|]. intros [] _. apply Hadv.
  - intros ? w4 Hm. by eapply made_before.
Qed.

(** *** Files *)
Lemma calms_after_copy from to d m v : forall A (last : Op A),
  calms (fun f => shape_at f from = Some (ShFile d) /\ shape_at f to = Some (ShFile d)) last anything ->
  calms (fun f => shape_at f from = Some (ShFile d) /\ shape_at f to = Some (ShFile d))
    (preserve_metadata_with_progress from to m ;; verify_copy_checked from to v ;; last) anything.
Proof.
  intros A last Hl.
  eapply calms_bind.
  { apply calms_preserve_progress; [intros f [? _]; by eapply shape_present|]. intros f [_ ?]. by eapply file_plain. }
  intros [] _. eapply calms_bind; [by apply (calms_verify c T _ from to d)|]. by intros [] _.
Qed.
Lemma does_byte_copy w from to d m e : ready to (fsys w) -> apart from to ->
  shape_at (fsys w) from = Some (ShFile d) ->
  does w (byte_copy from to m e) (fun _ w' => made True to (ShFile d) w w').
Proof.
  intros Hr Ha Hs. unfold byte_copy.
  eapply (does_made_then w _ _ True to (ShFile d) from (ShFile d) anything); [done|done| |].
  - eapply does_weaken; [by apply does_copy_bytes|]. intros n w' (Hg & Hl & Hsh & Hn). by split_and!.
  - intros n _. apply calms_after_copy. eapply calms_bind; [apply calms_finish|]. intros [] _. by apply calms_ret.
Qed.
Lemma does_remove_failed w to : ready to (fsys w) ->
  does w (remove_failed_clone_destination to) (fun _ w' => calm w w').
Proof.
  intros Hr. unfold remove_failed_clone_destination. eapply does_bind with (P := fun r w' => calm w w' /\
    match r with Ok _ => False | Err e => err_kind e = NotFound \/ T end).
  - apply does_sys.
    + intros e w' (Hk & Hx & Hs) HT. split; [split_and!; [done|by rewrite Hs|by rewrite Hx]|by right].
    + intros cl w' (Hk & Hx & Hs) _. cbn [fst snd] in *. split; [split_and!; [done|by rewrite Hs|by rewrite Hx]|].
      pose proof (missing_ready to _ Hr) as Hm. pose proof Hr as (_ & Hn & _). unfold stat, lookup_inode.
      rewrite Hn. cbn. rewrite Hm. by left.
  - intros [m|e] w1 [Hc He]; [done|]. case_decide as Hk; [by apply does_ret|]. apply does_fail. intros _. tauto.
Qed.
(** Cloning: the file is there, or nothing has happened and bytes are copied. *)
Lemma does_clone w from to d : ready to (fsys w) -> apart from to -> shape_at (fsys w) from = Some (ShFile d) ->
  does w (clone_file from to) (fun r w' =>
    match r with
    | Ok _ => made True to (ShFile d) w w'
    | Err e => calm w w' /\ (clone_fallback_allowed e = true \/ T)
    end).
Proof.
  intros Hr Ha Hs. pose proof (ready_wf _ _ Hr) as Hf. unfold clone_file.
  eapply does_bind with (P := fun r w' => calm w w' /\ sound T anything r).
  - intros Hfair. by apply (calms_open c T (plain from) from); [|apply stable_plain|by eapply file_plain|].
  - intros [i|err] w1 [Hc1 Ho]; [|apply does_ret; by auto].
    assert (Hr1 : ready to (fsys w1)) by by eapply calm_ready. rewrite <- (calm_shape w w1) in Hs by done.
    apply does_sys.
    + intros err w2 (Hk & Hx & Hfs) HT. split; [|by right]. etrans; [exact Hc1|].
      split_and!; [done|by rewrite Hfs|by rewrite Hx].
    + intros cl w2 (Hk & Hx & Hfs) _. pose proof Hr1 as (Hf1 & Hn & p & Hp & Hsp).
      destruct (fclonefileat from to cl (fsys w1)) as [[[]|err] f'] eqn:E; cbn [fst snd] in *.
      * destruct (clone_done _ _ _ _ _ E) as (_ & p' & d' & a & Hp' & _ & Hs' & ->). simplify_eq.
        eapply made_before; [done..|]. split_and!; [|unfold same_session; by rewrite Hx| |].
        { rewrite Hfs. split; [by eapply wf_attach|]. intros q Hq.
          assert (q <> to) by (intros ->; by apply Hq, under_refl).
          split; [cbn; by rewrite lookup_insert_ne|]. rewrite shape_at_attach by done. by rewrite decide_False. }
        { rewrite Hfs, shape_at_attach by done. by rewrite decide_True. }
        { intros _ j. rewrite Hfs. cbn. rewrite lookup_insert_eq. by intros [= <-]. }
      * destruct (clone_failed _ _ _ _ _ _ E) as [-> Hok]. split; [|left; by eapply Hok].
        etrans; [exact Hc1|]. split_and!; [done|by rewrite Hfs|by rewrite Hx].
Qed.
Lemma does_copy_file w from to d e : ready to (fsys w) -> apart from to ->
  shape_at (fsys w) from = Some (ShFile d) ->
  does w (copy_file_tracked from to e) (fun _ w' => made True to (ShFile d) w w').
Proof.
  intros Hr Ha Hs. pose proof (ready_wf _ _ Hr) as Hf. unfold copy_file_tracked.
  apply does_calm with (E := ready to) (P := anything); [apply calms_check|apply stable_ready|done|].
  intros [] w1 Hc1 _ Hr1. eapply does_calm; [by apply calms_create_parent|apply stable_ready|done|].
  intros [] w2 Hc2 _ Hr2. assert (Hc02 : calm w w2) by by etrans.
  rewrite <- (calm_shape w w2) in Hs by done.
  eapply does_bind; [by apply does_lstat|]. intros m w3 [Hc3 _].
  assert (Hc03 : calm w w3) by by etrans. rewrite <- (calm_shape w2 w3) in Hs by done.
  assert (Hr3 : ready to (fsys w3)) by by eapply calm_ready.
  eapply does_weaken with (P := fun _ w' => made True to (ShFile d) w3 w'); [|intros ? w4 Hm; by eapply made_before].
  destruct (negb _); [by apply does_byte_copy|].
  eapply does_bind; [by apply does_clone|]. intros [[]|err] w4.
  - intros Hm. eapply does_weaken.
    + apply (calms_after_copy from to d m (verification e) _ (advance m ;; mret ApfsClone)).
      * eapply calms_bind; [apply calms_advance|]. intros [] _. by apply calms_ret.
      * apply stable_and; apply stable_shape.
      * split; [by eapply made_source|by destruct Hm as (_ & _ & ? & _)].
    + intros a w5 [Hc _]. by eapply made_after.
  - intros [Hc4 Hok]. destruct (clone_fallback_allowed err) eqn:Eok.
    + assert (Hr4 : ready to (fsys w4)) by by eapply calm_ready.
      eapply does_bind; [by apply does_remove_failed|]. intros [] w5 Hc5.
      assert (Hc35 : calm w3 w5) by by etrans. rewrite <- (calm_shape w3 w5) in Hs by done.
      eapply does_weaken; [apply does_byte_copy; [by eapply calm_ready|done|done]|].
      intros ? w6 Hm. eapply made_before; [by eapply ready_wf|done..].
    + apply does_fail. intros _. by destruct Hok.
Qed.

(** ** The session: copies of files with several names *)

(** Every remembered copy, below [root], is a copy of the file it is remembered for. *)
Definition remembered (root : FPath) (f : Fs) (links : gmap N FPath) : Prop :=
  forall i q, links !! i = Some q -> under root q /\
    exists p d, ~ under root p /\ names f !! p = Some i /\
      shape_at f p = Some (ShFile d) /\ shape_at f q = Some (ShFile d).
Definition recalls (root : FPath) (w : OW) : Prop := remembered root (fsys w) (hard_links (extra w)).
Lemma remembered_empty root f : remembered root f ∅.
Proof. intros i q. by rewrite lookup_empty. Qed.
(** New entries at a place that was free change nothing of it. *)
Lemma remembered_grows root sub f f' links : wf f -> names f !! sub = None -> under root sub ->
  grows sub f f' -> remembered root f links -> remembered root f' links.
Proof.
  intros Hf Hn Hu Hg Hr i q Hi. destruct (Hr i q Hi) as (Huq & p & d & Hp & Hpi & Hps & Hqs).
  assert (Hps' : ~ under sub p) by (intros E; apply Hp; exact (under_trans _ _ _ Hu E)).
  assert (Hqs' : ~ under sub q).
  { intros E. apply (wf_absent f sub q Hf Hn) in E. apply shape_at_names in Hqs. rewrite E in Hqs. by destruct Hqs. }
  split; [done|]. exists p, d.
  by rewrite (grows_names sub f f' p Hg Hps'), (grows_shape sub f f' p Hg Hps'), (grows_shape sub f f' q Hg Hqs').
Qed.
Lemma recalls_calm root w w' : calm w w' -> recalls root w -> recalls root w'.
Proof.
  intros (_ & Hs & Hl) Hr i q Hi. rewrite Hl in Hi. destruct (Hr i q Hi) as (Hu & p & d & Hp & Hn & Hps & Hqs).
  split; [done|]. exists p, d. pose proof Hs as (-> & _).
  by rewrite !(same_shapes_at (fsys w) (fsys w')).
Qed.

(** What a step of the copy of [src] to [dst], below [root], does. *)
Definition copies (root src dst : FPath) (w w' : OW) : Prop :=
  grows dst (fsys w) (fsys w') /\ recalls root w' /\ copied (fsys w) src (fsys w') dst.
Lemma copies_before root src dst w w1 w2 : wf (fsys w) -> calm w w1 -> copies root src dst w1 w2 ->
  copies root src dst w w2.
Proof.
  intros Hf Hc (Hg & Hr & Hs). split_and!; [|done|].
  - eapply grows_trans; [by apply calm_grows|done].
  - intros rel. by rewrite Hs, (calm_shape w).
Qed.
Lemma made_recalls own root dst s w w' : ready dst (fsys w) -> under root dst -> made own dst s w w' ->
  recalls root w -> recalls root w'.
Proof.
  intros (Hf & Hn & _) Hu (Hg & Hl & _) Hr. unfold recalls. rewrite Hl. by eapply remembered_grows.
Qed.
Lemma made_copies own root src dst s w w' : ready dst (fsys w) -> under root dst -> recalls root w ->
  s <> ShDir -> shape_at (fsys w) src = Some s -> made own dst s w w' -> copies root src dst w w'.
Proof.
  intros Hr Hu Hre Hs Hsrc Hm. split_and!; [by destruct Hm|by eapply made_recalls|].
  destruct Hm as (Hg & _ & Hd & _). by eapply copied_leaf; [by eapply ready_wf|destruct Hg|..].
Qed.

Lemma does_hard_link w existing to d : ready to (fsys w) -> shape_at (fsys w) existing = Some (ShFile d) ->
  does w (or_io to (hard_link existing to)) (fun _ w' => made False to (ShFile d) w w').
Proof.
  intros (Hf & Hn & p & Hp & Hsp) Hs. apply does_or_io, does_sys; [done|].
  intros cl w' (Hk & Hx & Hfs) _. unfold shape_at in Hs.
  destruct (lookup_inode (fsys w) existing) as [[i n]|] eqn:E; [|done]. cbn in Hs. simplify_eq.
  rewrite Hn, Hp, Hsp, Hs in *. cbn [fst snd] in *. apply lookup_inode_Some in E as [En Ei].
  destruct (parent_Some _ _ Hp) as [x ->]. split_and!; [|unfold same_session; by rewrite Hx| |done]; rewrite Hfs.
  - split; [eapply wf_link; [done..|by rewrite Hs|done|done]|]. intros q Hq.
    assert (q <> join p x) by (intros ->; by apply Hq, under_refl).
    unfold shape_at, lookup_inode. cbn. by rewrite lookup_insert_ne.
  - unfold shape_at, lookup_inode. cbn. rewrite lookup_insert_eq. cbn. rewrite Ei. cbn. by rewrite Hs.
Qed.
Lemma does_link_existing w from existing to d m : ready to (fsys w) -> apart from to ->
  shape_at (fsys w) from = Some (ShFile d) -> shape_at (fsys w) existing = Some (ShFile d) ->
  does w (link_existing_hard_link existing to m) (fun _ w' => made False to (ShFile d) w w').
Proof.
  intros Hr Ha Hfrom Hs. pose proof (ready_wf _ _ Hr) as Hf. unfold link_existing_hard_link.
  apply does_calm with (E := ready to) (P := anything); [apply calms_check|apply stable_ready|done|].
  intros [] w1 Hc1 _ Hr1. eapply does_calm; [by apply calms_create_parent|apply stable_ready|done|].
  intros [] w2 Hc2 _ Hr2. assert (Hc02 : calm w w2) by by etrans.
  rewrite <- (calm_shape w w2) in Hs, Hfrom by done.
  eapply does_weaken with (P := fun _ w' => made False to (ShFile d) w2 w'); [|intros ? w3 Hm; by eapply made_before].
  eapply (does_made_then w2 _ _ False to (ShFile d) from (ShFile d) anything); [done|done| |].
  - eapply does_weaken; [by apply does_hard_link|]. by intros.
  - intros _ _. apply calms_advance.
Qed.

Lemma does_remember w root src dst d m : ~ under root src -> under root dst -> recalls root w ->
  names (fsys w) !! src = Some (m_ino m) ->
  shape_at (fsys w) src = Some (ShFile d) -> shape_at (fsys w) dst = Some (ShFile d) ->
  does w (remember_hard_link_destination m dst) (fun _ w' => fsys w' = fsys w /\ recalls root w').
Proof.
  intros Ha Hu Hre Hm Hs Hd. unfold remember_hard_link_destination, hard_link_identity.
  destruct (is_file m && (1 <? m_nlink m)%N); [|by apply does_ret].
  intros Hfair. apply ens_modify. split; [by right|]. split; [done|]. unfold recalls. cbn.
  destruct (hard_links (extra w) !! m_ino m) eqn:E; [done|]. intros i q. cbn.
  destruct (decide (m_ino m = i)) as [<-|Hne].
  - rewrite lookup_insert_eq. intros [= <-]. split; [done|]. by exists src, d.
  - rewrite lookup_insert_ne by done. apply Hre.
Qed.
Lemma does_file_session w root src dst d m e : ready dst (fsys w) -> apart src root -> under root dst -> recalls root w ->
  names (fsys w) !! src = Some (m_ino m) -> shape_at (fsys w) src = Some (ShFile d) ->
  does w (copy_file_with_session src dst m e) (fun _ w' => copies root src dst w w').
Proof.
  intros Hr Ha Hu Hre Hm Hs. pose proof (apart_below _ _ _ Ha Hu) as Had. unfold copy_file_with_session.
  eapply does_bind with (P := fun a w' => a = hard_links (extra w) /\ w' = w); [by apply does_gets|].
  intros ? ? [-> ->]. cbv zeta.
  assert (Hfresh : forall w1, calm w w1 ->
    does w1 (copy_file_tracked src dst e ;; remember_hard_link_destination m dst) (fun _ w' => copies root src dst w w')).
  { intros w1 Hc. pose proof (calm_shape w w1 src Hc) as Hs1. rewrite Hs in Hs1.
    assert (Hr1 : ready dst (fsys w1)) by by eapply calm_ready.
    eapply does_bind; [by apply does_copy_file|]. intros m' w2 Hmade.
    assert (Hcp : copies root src dst w1 w2) by (apply (made_copies True root src dst (ShFile d)); [exact Hr1|exact Hu|by eapply recalls_calm|done|exact Hs1|exact Hmade]).
    pose proof Hcp as (Hg & Hre2 & Hcopied).
    eapply does_weaken; [eapply (does_remember w2 root src dst d)|].
    - apply Ha.
    - done.
    - done.
    - rewrite (grows_names dst (fsys w1)) by (done || by apply Had). destruct Hc as (_ & (-> & _) & _). done.
    - rewrite (grows_shape dst (fsys w1)) by (done || by apply Had). done.
    - by destruct Hmade as (_ & _ & ? & _).
    - intros [] w3 [Hfs Hre3]. eapply copies_before; [by eapply ready_wf|done|].
      split_and!; [by rewrite Hfs|done|]. by rewrite Hfs. }
  unfold copied_hard_link_destination, hard_link_identity.
  destruct (is_file m && (1 <? m_nlink m)%N); [|by apply Hfresh]. cbn.
  destruct (hard_links (extra w) !! m_ino m) as [q|] eqn:E; [|by apply Hfresh].
  destruct (hard_links_supported_for_path (volume_copy_policy e) dst).
  - destruct (Hre _ _ E) as (Hq & p & d' & Hp & Hpi & Hps & Hqs).
    assert (d' = d) as ->.
    { apply shape_at_Some in Hps as (i1 & n1 & N1 & I1 & S1). apply shape_at_Some in Hs as (i2 & n2 & N2 & I2 & S2).
      simplify_eq. congruence. }
    eapply does_weaken; [by apply (does_link_existing w src q dst d)|]. intros ? w' Hmade.
    by apply (made_copies False root src dst (ShFile d)).
  - eapply does_calm with (E := wf) (P := anything); [apply calms_degraded|intros ???; by eapply same_shapes_wf|by eapply ready_wf|].
    intros [] w1 Hc _ _. by apply Hfresh.
Qed.

(** ** Directories *)
Lemma does_for {A} (I : list A -> OW -> Prop) (body : A -> Op unit) l : forall seen w,
  I seen w -> NoDup (seen ++ l) ->
  (forall seen x w, I seen w -> x ∉ seen -> x ∈ l -> does w (body x) (fun _ w' => I (seen ++ [x]) w')) ->
  does w (mfor (fun _ x => body x) tt l) (fun _ w' => I (seen ++ l) w').
Proof.
  induction l as [|x l IH]; intros done0 w Hw Hn Hb; cbn [mfor].
  - apply does_ret. by rewrite app_nil_r.
  - assert (x ∉ done0). { apply NoDup_app in Hn as (_ & Hd & _). intros E. apply (Hd x E). left. }
    eapply does_bind; [apply (Hb done0 x w Hw); [done|left]|]. intros [] w1 Hw1.
    eapply does_weaken; [apply (IH (done0 ++ [x]) w1 Hw1)|].
    + by rewrite <- app_assoc.
    + intros sn y w' Hsn Hy Hin. apply Hb; [done..|by right].
    + intros ? w2. by rewrite <- app_assoc.
Qed.

Lemma names_shape f p : wf f -> is_Some (names f !! p) <-> is_Some (shape_at f p).
Proof. intros Hf. split; [by apply wf_shape|]. intros [s Hs]. by eapply shape_at_names. Qed.
(** The source as deep as the fuel. *)
Definition shallow (fuel : nat) (f : Fs) (p : FPath) : Prop :=
  forall rel, is_Some (shape_at f (p ++ rel)) -> length rel < fuel.
Lemma shallow_join fuel f p n : shallow (S fuel) f p -> shallow fuel f (join p n).
Proof.
  intros Hs rel Hr. unfold join in Hr. rewrite <- app_assoc in Hr. specialize (Hs _ Hr). cbn in Hs. lia.
Qed.
Lemma max_list_with_le {A} (g : A -> nat) l x : x ∈ l -> g x <= max_list_with g l.
Proof. induction 1 as [|y z l Hz IH]; cbn; lia. Qed.
Lemma shallow_depth f p : wf f -> shallow (tree_depth f) f p.
Proof.
  intros Hf rel Hs%names_shape; [|done]. destruct Hs as [i Hi]. unfold tree_depth.
  assert (Hin : length (p ++ rel) <= max_list_with (fun e => length e.1) (map_to_list (names f))).
  { apply elem_of_map_to_list in Hi. by apply (max_list_with_le (fun e : FPath * N => length e.1) _ (p ++ rel, i)). }
  rewrite length_app in Hin. lia.
Qed.

(** What is asked of the copy of one entry. *)
Definition copyable (root src dst : FPath) (fuel : nat) (w : OW) : Prop :=
  ready dst (fsys w) /\ apart src root /\ under root dst /\ recalls root w /\ shallow fuel (fsys w) src.
Lemma copyable_calm root src dst fuel w w' : calm w w' -> copyable root src dst fuel w -> copyable root src dst fuel w'.
Proof.
  intros Hc (Hr & Ha & Hu & Hre & Hsh). split_and!; [by eapply calm_ready|done|done|by eapply recalls_calm|].
  intros rel. rewrite (calm_shape w w') by done. apply Hsh.
Qed.

Section Entry.
Context (root : FPath) (fuel : nat) (sub : FPath -> FPath -> Op unit) (e : CopyExecution).
Hypothesis Hsub : forall src dst w, copyable root src dst fuel w -> shape_at (fsys w) src = Some ShDir ->
  does w (sub src dst) (fun _ w' => copies root src dst w w').

Lemma does_entry from to n w : copyable root (join from n) (join to n) fuel w ->
  present (join from n) (fsys w) ->
  does w (copy_entry sub from to e ModeFresh n) (fun _ w' => copies root (join from n) (join to n) w w').
Proof.
  intros Hok [s Hs]. pose proof Hok as (Hr & _). pose proof (ready_wf _ _ Hr) as Hf. unfold copy_entry.
  assert (Hst : forall p s, stable (fun f => shape_at f p = s)) by apply stable_shape.
  eapply does_calm with (P := anything); [apply calms_check|apply Hst|exact Hs|]. intros [] w1 Hc1 _ Hs1.
  eapply does_calm with (P := fun m => m = n); [apply calms_or_io, calms_next_entry|apply Hst|exact Hs1|].
  intros n' w2 Hc2 -> Hs2. cbv zeta.
  eapply does_bind; [by apply does_lstat|]. intros m w3 [Hc3 Hm].
  assert (Hc : calm w w3) by (etrans; [exact Hc1|]; by etrans). pose proof (copyable_calm _ _ _ _ _ _ Hc Hok) as Hok3.
  assert (Hs3 : shape_at (fsys w3) (join from n) = Some s) by (by rewrite (calm_shape w2)).
  assert (Hino : names (fsys w3) !! join from n = Some (m_ino m)).
  { destruct Hc3 as (_ & (-> & _) & _). apply Hm. }
  unfold existing_in_mode. rewrite !decide_True by done.
  rewrite (seen_link _ _ _ _ Hm), (seen_dir _ _ _ _ Hm). pose proof Hok3 as (Hr3 & Ha & Hu & Hre & _).
  eapply does_weaken with (P := fun _ w' => copies root (join from n) (join to n) w3 w');
    [|intros ? w4; by apply copies_before].
  destruct s as [d| |t].
  - eapply does_bind with (P := fun b w' => b = false /\ w' = w3); [by apply does_ret|]. intros ? ? [-> ->].
    by eapply does_file_session.
  - by apply Hsub.
  - eapply does_bind with (P := fun b w' => b = false /\ w' = w3); [by apply does_ret|]. intros ? ? [-> ->].
    eapply does_weaken; [apply does_copy_symlink; [done| |exact Hs3]|].
    + by eapply apart_below.
    + intros ? w4 Hmade. by apply (made_copies True root _ _ (ShLink t)).
Qed.

(** The loop over the entries. *)
Definition filling (from to : FPath) (w : OW) (sofar : list string) (w' : OW) : Prop :=
  grows to (fsys w) (fsys w') /\ recalls root w' /\ shape_at (fsys w') to = Some ShDir /\
  (forall n, n ∈ sofar -> copied (fsys w) (join from n) (fsys w') (join to n)) /\
  (forall n, n ∉ sofar -> names (fsys w') !! join to n = None).
Lemma join_apart (p : FPath) n m : n <> m -> apart (join p n) (join p m).
Proof.
  intros Hne. unfold join. split; intros [k Hk]; rewrite <- app_assoc in Hk; apply app_inv_head in Hk; cbn in Hk; congruence.
Qed.
Lemma does_fill_step from to w sofar n w' : apart from root -> under root to -> shallow (S fuel) (fsys w) from ->
  filling from to w sofar w' -> n ∉ sofar -> present (join from n) (fsys w) ->
  does w' (copy_entry sub from to e ModeFresh n) (fun _ w'' => filling from to w (sofar ++ [n]) w'').
Proof.
  intros Ha Hu Hsh (Hg & Hre & Hd & Hin & Hout) Hn Hp.
  pose proof (apart_below _ _ _ Ha Hu) as Hat.
  assert (Hsame : forall rel, shape_at (fsys w') (from ++ rel) = shape_at (fsys w) (from ++ rel)).
  { intros rel. apply (grows_shape to _ _ _ Hg). apply (apart_app _ _ rel Hat). }
  assert (Hsame' : forall k rel, shape_at (fsys w') (join from k ++ rel) = shape_at (fsys w) (join from k ++ rel)).
  { intros k rel. unfold join. rewrite <- !app_assoc. apply Hsame. }
  eapply does_weaken; [apply does_entry|].
  - split_and!.
    + split_and!; [by destruct Hg|by apply Hout|exists to; split; [apply parent_join|done]].
    + by apply apart_app.
    + eapply under_trans; [done|by exists [n]].
    + done.
    + apply shallow_join. intros rel. rewrite Hsame. apply Hsh.
  - destruct Hp as [s Hs]. exists s. specialize (Hsame [n]). by unfold join in *; congruence.
  - intros _ w'' (Hg2 & Hre2 & Hc2).
    assert (Hnd : ~ under (join to n) to).
    { intros [k Hk]. unfold join in Hk. rewrite <- app_assoc in Hk. apply (f_equal length) in Hk.
      rewrite length_app in Hk. cbn in Hk. lia. }
    split_and!.
    + eapply grows_trans; [exact Hg|]. eapply grows_weaken; [exact Hg2|by exists [n]].
    + done.
    + by rewrite (grows_shape _ _ _ _ Hg2 Hnd).
    + intros k [Hk|Hk%list_elem_of_singleton]%elem_of_app rel.
      * assert (Hkn : k <> n) by (intros E; by subst).
        rewrite (grows_shape _ _ _ _ Hg2); [by apply Hin|]. apply (apart_app _ _ rel (join_apart to k n Hkn)).
      * subst. by rewrite Hc2, Hsame'.
    + intros k Hk. apply not_elem_of_app in Hk as [Hk1 Hk2].
      rewrite (grows_names _ _ _ _ Hg2); [by apply Hout|]. apply join_apart. intros ->. by apply Hk2; left.
Qed.
End Entry.

(** A new directory, with nothing in it. *)
Definition emptied (to : FPath) (w w' : OW) : Prop :=
  made True to ShDir w w' /\ forall n, names (fsys w') !! join to n = None.
Lemma does_enter w to : ready to (fsys w) ->
  does w (enter_directory to ModeFresh) (fun _ w' => emptied to w w').
Proof.
  intros Hr. unfold enter_directory, existing_in_mode, create_new_directory. rewrite decide_True by done.
  eapply does_bind with (P := fun b w' => b = false /\ w' = w); [by apply does_ret|]. intros ? ? [-> ->].
  eapply does_bind with (P := fun _ w' => emptied to w w'); [|intros ? w1 Hw1; by apply does_ret].
  eapply does_bind; [by apply does_create_grows|]. intros [i|err] w1 Hi.
  - apply does_ret. destruct Hi as (Hg & Hcr & Hs). split; [by eapply made_created|]. intros n.
    destruct Hcr as (_ & _ & a & Hfs). rewrite Hfs.
    cbn. destruct Hr as (Hf & Hn & _). rewrite lookup_insert_ne.
    + apply (wf_absent _ to); [done|done|by exists [n]].
    + intros E. apply (f_equal length) in E. unfold join in E. rewrite length_app in E. cbn in E. lia.
  - case_decide; by apply does_fail.
Qed.

Section Directory.
Context (root : FPath) (fuel : nat) (sub : FPath -> FPath -> Op unit) (e : CopyExecution).
Hypothesis Hsub : forall src dst w, copyable root src dst fuel w -> shape_at (fsys w) src = Some ShDir ->
  does w (sub src dst) (fun _ w' => copies root src dst w w').

Lemma does_fill from to m w w0 : apart from root -> under root to -> emptied to w0 w -> recalls root w ->
  shallow (S fuel) (fsys w) from -> shape_at (fsys w) from = Some ShDir ->
  does w (fill_directory sub from to m e ModeFresh) (fun _ w' =>
    grows to (fsys w) (fsys w') /\ recalls root w' /\ copied (fsys w) from (fsys w') to).
Proof.
  intros Ha Hu [(Hg0 & _ & Hd & _) Hempty] Hre Hsh Hs. pose proof (apart_below _ _ _ Ha Hu) as Hat.
  assert (Hf : wf (fsys w)) by by destruct Hg0. unfold fill_directory.
  eapply does_bind; [by apply (calms_advance c T (fun _ => True))|]. intros [] w1 [Hc1 _].
  eapply does_bind; [apply does_read_dir; by rewrite (calm_shape w)|]. intros ns w2 [Hc2 Hns].
  assert (Hc : calm w w2) by by etrans.
  assert (Hns2 : ns ≡ₚ children (fsys w) from).
  { rewrite Hns. unfold children, subtree. destruct Hc1 as (_ & (-> & _) & _). done. }
  assert (Hnodup : NoDup ns) by (rewrite Hns2; apply children_NoDup).
  assert (Hsame2 : forall p, shape_at (fsys w2) p = shape_at (fsys w) p) by (intros p; by apply calm_shape).
  assert (Hnames2 : names (fsys w2) = names (fsys w)) by (by destruct Hc as (_ & (-> & _) & _)).
  eapply does_bind.
  { apply (does_for (filling root from to w2) (copy_entry sub from to e ModeFresh) ns [] w2); [|done|].
    - split_and!; [apply grows_same; [by eapply same_shapes_wf; [apply Hc|]|done]|by eapply recalls_calm|by rewrite Hsame2| |].
      + intros n Hn. by apply elem_of_nil in Hn.
      + intros n _. by rewrite Hnames2.
    - intros sofar n w3 Hfill Hn Hin. eapply does_fill_step; [done|done|done| |done|done|].
      + intros rel. rewrite Hsame2. apply Hsh.
      + unfold present. rewrite Hsame2. apply wf_shape; [done|]. apply children_elem. by rewrite <- Hns2. }
  intros [] w3 (Hg3 & Hre3 & Hd3 & Hin & Hout). cbn [app] in Hin, Hout.
  eapply does_weaken.
  - apply (calms_preserve_progress c T (fun f => shape_at f from = Some ShDir /\ shape_at f to = Some ShDir)).
    + intros f [? _]. by eapply shape_present.
    + intros f [_ ?]. by exists ShDir.
    + apply stable_and; apply stable_shape.
    + split; [|done]. rewrite (grows_shape _ _ _ _ Hg3); [by rewrite Hsame2|apply Hat].
  - intros _ w4 [Hc4 _]. split_and!.
    + eapply grows_trans; [by apply calm_grows|]. eapply grows_trans; [exact Hg3|].
      apply calm_grows; [by destruct Hg3|done].
    + by eapply recalls_calm.
    + intros rel. rewrite (calm_shape w3) by done. destruct rel as [|n rel].
      { by rewrite !app_nil_r, Hd3. }
      replace (to ++ n :: rel) with (join to n ++ rel) by (unfold join; by rewrite <- app_assoc).
      replace (from ++ n :: rel) with (join from n ++ rel) by (unfold join; by rewrite <- app_assoc).
      destruct (decide (n ∈ ns)) as [E|E].
      { by rewrite (Hin n E), Hsame2. }
      rewrite (proj2 (shape_at_None (fsys w3) _ ltac:(by destruct Hg3))).
      2:{ eapply wf_absent; [by destruct Hg3|by apply Hout|apply under_app]. }
      symmetry. apply shape_at_None; [done|]. eapply wf_absent; [done| |apply under_app].
      apply eq_None_not_Some. intros En. apply children_elem in En. by apply E; rewrite Hns2.
Qed.
Lemma does_directory from to w : copyable root from to (S fuel) w -> shape_at (fsys w) from = Some ShDir ->
  does w (copy_directory_body sub from to e ModeFresh) (fun _ w' => copies root from to w w').
Proof.
  intros Hok Hs. pose proof Hok as (Hr & Ha & Hu & _). pose proof (ready_wf _ _ Hr) as Hf.
  pose proof (apart_below _ _ _ Ha Hu) as Hat. unfold copy_directory_body.
  assert (Hst : forall p s, stable (fun f => shape_at f p = s)) by apply stable_shape.
  eapply does_calm with (P := anything); [apply calms_check|apply Hst|exact Hs|]. intros [] w1 Hc1 _ Hs1.
  eapply does_bind; [by apply does_lstat|]. intros m w2 [Hc2 _].
  assert (Hc : calm w w2) by by etrans. pose proof (copyable_calm _ _ _ _ _ _ Hc Hok) as (Hr2 & _ & _ & Hre2 & Hsh2).
  assert (Hs2 : shape_at (fsys w2) from = Some ShDir) by (by rewrite (calm_shape w1)).
  eapply does_weaken with (P := fun _ w' => copies root from to w2 w'); [|intros ? w4; by apply copies_before].
  eapply does_bind; [by apply does_enter|]. intros created w3 Hmade. pose proof Hmade as [Hm _]. pose proof Hm as (Hg & _).
  assert (Hsame : forall rel, shape_at (fsys w3) (from ++ rel) = shape_at (fsys w2) (from ++ rel)).
  { intros rel. apply (grows_shape to _ _ _ Hg). apply (apart_app _ _ rel Hat). }
  eapply does_bind.
  { apply does_attempt. apply (does_fill from to m w3 w2 Ha Hu Hmade).
    - by eapply (made_recalls True root to ShDir w2).
    - intros rel. rewrite Hsame. apply Hsh2.
    - specialize (Hsame []). rewrite app_nil_r in Hsame. by rewrite Hsame. }
  intros [[]|err] w4 Hw4; cbn [or_cleanup].
  - apply does_ret. destruct Hw4 as (Hg4 & Hre4 & Hcp). split_and!; [by eapply grows_trans|done|].
    intros rel. by rewrite Hcp, Hsame.
  - destruct (_ && _); [|by apply does_fail]. apply does_doomed; [done|]. apply doomed_bind. intros. apply doomed_fail.
Qed.
End Directory.

Lemma does_copy_directory root e fuel : forall from to w,
  copyable root from to fuel w -> shape_at (fsys w) from = Some ShDir ->
  does w (copy_directory fuel from to e ModeFresh) (fun _ w' => copies root from to w w').
Proof.
  induction fuel as [|fuel IH]; intros from to w Hok Hs.
  - destruct Hok as (_ & _ & _ & _ & Hsh). specialize (Hsh []). rewrite app_nil_r, Hs in Hsh.
    specialize (Hsh ltac:(by eexists)). cbn in Hsh. lia.
  - cbn [copy_directory]. by apply (does_directory root fuel).
Qed.
End Spec.
