(* ===== verification/Replacing.v ===== *)
(** * Copying: whole copies, onto a free place or over what is there

    A destination is replaced by way of a hidden sibling that is renamed to it.
    The excuses for an error are collected in one proposition [T]: a failed poll or
    call, a locked item, a hundred siblings with the names of the stage. *)
From S2P Require Import Prelude Types Text Order Control FileSystem FileFacts OpModel OpTree Preserve Copy CopyFrame CopyCalm CopyBytes CopySpec.
#[local] Open Scope list_scope.

Section Whole.
Context `{Platform, Libc, AttrCalls, Cloning, Packages, !CloneLaws} (c : Control) (T : Prop).

Abbreviation does := (does c T).
Abbreviation anything := (fun _ => True).

(** ** Steps that only look *)
Definition still (w w' : OW) : Prop :=
  kin w w' /\ fsys w' = fsys w /\ hard_links (extra w') = hard_links (extra w).
#[export] Instance still_preorder : PreOrder still.
Proof. split; [done|]. intros ??? (?&?&?) (?&?&?). split_and!; [by etrans|congruence..]. Qed.
Lemma still_calm w w' : still w w' -> calm w w'.
Proof. intros (Hk & Hs & Hl). split_and!; [done|by rewrite Hs|done]. Qed.
Lemma steady_still w w' : steady w w' -> still w w'.
Proof. intros (Hk & Hx & Hs). split_and!; [done|done|by rewrite Hx]. Qed.
Definition stills {A} (w : OW) (m : Op A) (P : A -> Prop) : Prop :=
  does w m (fun a w' => still w w' /\ P a).

Lemma stills_does {A B} w (m : Op A) (k : A -> Op B) (P : A -> Prop) (Q : B -> OW -> Prop) :
  stills w m P -> (forall a w1, still w w1 -> P a -> does w1 (k a) Q) -> does w (mbind m k) Q.
Proof. intros Hm Hk. eapply does_bind; [exact Hm|]. intros a w1 []. auto. Qed.
Lemma stills_bind {A B} w (m : Op A) (k : A -> Op B) (P : A -> Prop) (Q : B -> Prop) :
  stills w m P -> (forall a w1, still w w1 -> P a -> stills w1 (k a) Q) -> stills w (mbind m k) Q.
Proof.
  intros Hm Hk. eapply stills_does; [exact Hm|]. intros a w1 Hs Ha.
  eapply does_weaken; [by apply Hk|]. intros b w2 [Hs2 Hb]. split; [by etrans|done].
Qed.
Lemma stills_weaken {A} w (m : Op A) (P Q : A -> Prop) : stills w m P -> (forall a, P a -> Q a) -> stills w m Q.
Proof. intros Hm HPQ. eapply does_weaken; [exact Hm|]. intros a w' []. auto. Qed.
Lemma stills_ret {A} w (a : A) (P : A -> Prop) : P a -> stills w (mret a) P.
Proof. intros HP. by apply does_ret. Qed.
Lemma stills_fail {A} w e (P : A -> Prop) : T -> stills w (mfail e) P.
Proof. intros HT. by apply does_fail. Qed.
Lemma stills_check w : stills w check_control anything.
Proof. intros Hf. apply ens_check; [split; [by right|done]|]. intros e Ht. by apply Hf. Qed.
Lemma stills_now w : stills w now_nanos anything.
Proof. intros Hf. apply ens_now. intros n w' Hs. split; [right; by apply steady_kin|]. split; [by apply steady_still|done]. Qed.
(** A call that only looks; its faults may be told apart. *)
Lemma stills_look {A} w (g : Call -> Fs -> Result A IoError) (P : Result A IoError -> Prop) :
  (forall cl, P (g cl (fsys w))) -> (forall e, fault w e -> T -> P (Err e)) -> stills w (sys (fun cl f => (g cl f, f))) P.
Proof.
  intros Hg He Hf. apply ens_look. intros r w' Hs Hr. split; [right; by apply steady_kin|].
  split; [by apply steady_still|]. destruct Hr as [[cl ->]|(e & -> & Hfault)]; [done|].
  apply He; [done|]. by eapply fault_fair.
Qed.
Lemma stills_or_io {A} w p (m : IO A) (P : A -> Prop) : stills w m (sound T P) -> stills w (or_io p m) P.
Proof.
  intros Hm. eapply stills_bind; [exact Hm|]. intros [a|e] w1 _ Ha; [by apply stills_ret|by apply stills_fail].
Qed.
Lemma stills_for {A} w (body : A -> Op unit) l :
  (forall x w1, still w w1 -> x ∈ l -> stills w1 (body x) anything) -> stills w (mfor (fun _ x => body x) tt l) anything.
Proof.
  revert w. induction l as [|x l IH]; intros w Hb; cbn [mfor]; [by apply stills_ret|].
  eapply stills_bind; [apply Hb; [done|left]|]. intros [] w1 Hs _. apply IH. intros y w2 Hs2 Hy.
  apply Hb; [by etrans|by right].
Qed.
Lemma honest_still w w' : still w w' -> honest w -> honest w'.
Proof. intros [Hk _]. by apply honest_kin. Qed.
Lemma still_shape w w' p : still w w' -> shape_at (fsys w') p = shape_at (fsys w) p.
Proof. by intros (_ & -> & _). Qed.

Lemma stills_lstat w p s : shape_at (fsys w) p = Some s ->
  stills w (symlink_metadata p) (sound T (fun m => stat (fsys w) p = Ok m /\ seen (fsys w) p s m)).
Proof.
  intros Hp. unfold shape_at in Hp. destruct (lookup_inode (fsys w) p) as [[i n]|] eqn:E; [|done].
  cbn in Hp. simplify_eq. apply stills_look; [|done]. intros _. unfold stat. rewrite E. cbn. split; [done|].
  apply lookup_inode_Some in E as [En _]. by split.
Qed.
Lemma stat_missing f p e : stat f p = Err e -> e = missing f p.
Proof. unfold stat. destruct (lookup_inode f p) as [[i n]|]; [done|]. by intros [= <-]. Qed.
Lemma stills_lstat_none w p : ready p (fsys w) ->
  stills w (symlink_metadata p) (fun r => match r with Ok _ => False | Err e => err_kind e = NotFound \/ T end).
Proof.
  intros Hr. apply stills_look; [|by right]. intros _. pose proof (missing_ready p _ Hr) as Hm. destruct Hr as (_ & Hn & _).
  unfold stat, lookup_inode. rewrite Hn. cbn. rewrite Hm. by left.
Qed.
(** Whether there is something: with honest faults the answer is right. *)
Definition free (f : Fs) (p : FPath) : Prop := names f !! p = None.
Lemma stills_exists w p d : wf (fsys w) -> parent p = Some d -> shape_at (fsys w) d = Some ShDir -> honest w ->
  stills w (path_exists_or_symlink p) (fun b => b = true /\ ~ free (fsys w) p \/ b = false /\ free (fsys w) p).
Proof.
  intros Hf Hd Hs Ho. unfold path_exists_or_symlink. destruct (names (fsys w) !! p) as [i|] eqn:E.
  - assert (Hp : is_Some (shape_at (fsys w) p)) by (apply wf_shape; [done|by exists i]). destruct Hp as [s Hp].
    assert (Hnf : ~ free (fsys w) p) by (unfold free; congruence).
    eapply stills_bind with (P := fun r => match r with Ok _ => True | Err e => err_kind e <> NotFound /\ T end).
    + apply stills_look.
      * intros _. unfold stat, shape_at in *. destruct (lookup_inode (fsys w) p) as [[j n]|]; done.
      * intros e He HT. split; [by apply Ho|done].
    + intros [m|e] w1 Hw1 Hr; [apply stills_ret; by left|]. destruct Hr as [Hk HT]. rewrite decide_False by done. by apply stills_fail.
  - assert (Hr : ready p (fsys w)) by (split_and!; [done|done|by exists d]).
    eapply stills_bind; [by apply stills_lstat_none|]. intros [m|e] w1 _ He; [done|].
    case_decide; [apply stills_ret; by right|]. apply stills_fail. tauto.
Qed.
Lemma stills_source w p s : shape_at (fsys w) p = Some s -> stills w (ensure_source_exists p) anything.
Proof.
  intros Hp. unfold ensure_source_exists. eapply stills_bind; [by apply stills_lstat|].
  intros [m|e] w1 _ Hm; [by apply stills_ret|by apply stills_fail].
Qed.
(** A test of what is at a path, [false] when the look fails. *)
Lemma stills_is test w p : stills w (symlink_metadata_is test p)
  (fun b => b = match stat (fsys w) p with Ok m => test m | Err _ => false end \/ T).
Proof.
  unfold symlink_metadata_is.
  eapply stills_bind with (P := fun r => r = stat (fsys w) p \/ T).
  - apply stills_look; [by left|by right].
  - intros r w1 _ [->|HT]; apply stills_ret; [by left|by right].
Qed.

(** ** The locks *)
Definition locked_at (f : Fs) (p : FPath) : Prop :=
  exists i n, lookup_inode f p = Some (i, n) /\ is_locked (attrs n) = true.
Lemma stills_unlocked w p s m a : shape_at (fsys w) p = Some s -> stat (fsys w) p = Ok m ->
  (locked_at (fsys w) p -> T) -> stills w (ensure_metadata_unlocked p m a) anything.
Proof.
  intros Hs Hm HT. unfold ensure_metadata_unlocked. destruct (is_locked (m_attrs m)) eqn:E; [|by apply stills_ret].
  apply stills_fail, HT. unfold stat in Hm. destruct (lookup_inode (fsys w) p) as [[i n]|] eqn:El; [|done].
  simplify_eq. by exists i, n.
Qed.
Lemma stills_unlocked_path w p s a : shape_at (fsys w) p = Some s ->
  (locked_at (fsys w) p -> T) -> stills w (ensure_unlocked_path p a) anything.
Proof.
  intros Hs HT. unfold ensure_unlocked_path. eapply stills_bind; [by eapply stills_or_io, stills_lstat|].
  intros m w1 (Hk & Hf & _) [Hm _]. rewrite <- Hf in *. by eapply stills_unlocked.
Qed.
Lemma stills_sorted_children w p : wf (fsys w) -> shape_at (fsys w) p = Some ShDir ->
  stills w (sorted_children p) (fun ns => ns ≡ₚ children (fsys w) p).
Proof.
  intros Hf Hs. unfold sorted_children, read_entries.
  assert (Hgo : forall l acc w1, still w w1 -> stills w1
    (mfor (fun acc n => n <- or_io p (next_entry n) ; mret (acc ++ [n])) acc l) (fun ns => ns = acc ++ l)).
  { induction l as [|n l IH]; intros acc w1 Hw1; cbn [mfor]; [apply stills_ret; by rewrite app_nil_r|].
    eapply stills_bind with (P := fun acc' => acc' = acc ++ [n]).
    - eapply stills_bind with (P := fun n' => n' = n); [by apply stills_or_io, stills_look|].
      intros ? w2 _ ->. by apply stills_ret.
    - intros ? w2 Hw2 ->. eapply stills_weaken; [apply IH; by etrans|]. intros ns ->. by rewrite <- app_assoc. }
  eapply stills_bind with (P := fun ns => ns ≡ₚ children (fsys w) p).
  - eapply stills_bind with (P := fun ns => ns ≡ₚ children (fsys w) p).
    + apply stills_or_io, stills_look; [|done]. intros _. rewrite Hs. apply dir_order_perm.
    + intros ns w1 Hw1 Hns. eapply stills_weaken; [by apply Hgo|]. by intros ? ->.
  - intros ns w1 _ Hns. apply stills_ret. by rewrite sort_by_perm.
Qed.
Lemma stills_walk a fuel : forall w p, wf (fsys w) -> shallow fuel (fsys w) p -> is_Some (shape_at (fsys w) p) ->
  (forall q, under p q -> locked_at (fsys w) q -> T) -> stills w (unlocked_walk fuel p a) anything.
Proof.
  induction fuel as [|fuel IH]; intros w p Hf Hsh [s Hs] HT; cbn [unlocked_walk].
  - specialize (Hsh []). rewrite app_nil_r, Hs in Hsh. specialize (Hsh ltac:(by eexists)). cbn in Hsh. lia.
  - eapply stills_bind; [by eapply stills_or_io, stills_lstat|].
    intros m w1 (Hk & Hfs & _) [Hm Hseen]. rewrite <- Hfs in *.
    eapply stills_bind; [eapply stills_unlocked; [done..|]; apply HT, under_refl|]. intros [] w2 (_ & Hfs2 & _) _.
    rewrite <- Hfs2 in *. rewrite (seen_dir _ _ _ _ Hseen), (seen_link _ _ _ _ Hseen).
    destruct s; [by apply stills_ret| |by apply stills_ret]. cbn [andb negb].
    eapply stills_bind; [by apply stills_sorted_children|]. intros ns w3 (_ & Hfs3 & _) Hns. rewrite <- Hfs3 in *.
    apply stills_for. intros n w4 (_ & Hfs4 & _) Hn. apply IH; rewrite Hfs4; [done|by apply shallow_join|apply wf_shape, children_elem; [done|by rewrite <- Hns]|].
    intros q Hq. apply HT. by eapply under_join.
Qed.
Lemma stills_unlocked_tree w p a : wf (fsys w) -> is_Some (shape_at (fsys w) p) ->
  (forall q, under p q -> locked_at (fsys w) q -> T) -> stills w (ensure_unlocked_tree p a) anything.
Proof.
  intros Hf Hs HT. unfold ensure_unlocked_tree.
  eapply stills_bind with (P := fun w0 => fsys w0 = fsys w); [by apply does_get|]. intros w0 w1 (_ & Hf1 & _) ->.
  rewrite <- Hf1 in *. apply stills_walk; [done|by apply shallow_depth|done|done].
Qed.

(** ** A free sibling *)
Definition sibling_prefix (to : FPath) (label : string) (nonce : N) : string :=
  let name := match file_name to with Some n => if decide (n = "") then "copy" else n | None => "copy" end in
  "." +:+ name +:+ "." +:+ label +:+ "-" +:+ u64_to_string nonce +:+ "-".
(** All the names that are tried are taken. *)
Definition crowded (f : Fs) (to : FPath) : Prop := exists label nonce, forall k, k < 100 ->
  ~ free f (join (default [] (parent to)) (sibling_prefix to label nonce +:+ u64_to_string (N.of_nat k))).
Lemma stills_find_sibling to d prefix todo : forall k w, wf (fsys w) -> honest w ->
  shape_at (fsys w) d = Some ShDir ->
  stills w (find_hidden_sibling todo k to d prefix) (fun r =>
    match r with
    | Some p => free (fsys w) p /\ exists j, p = join d (prefix +:+ u64_to_string (N.of_nat j))
    | None => forall j, k <= j < k + todo -> ~ free (fsys w) (join d (prefix +:+ u64_to_string (N.of_nat j)))
    end).
Proof.
  induction todo as [|todo IH]; intros k w Hf Ho Hs; cbn [find_hidden_sibling]; [apply stills_ret; lia|]. cbv zeta.
  eapply stills_bind; [apply (stills_exists _ _ d); [done|apply parent_join|done|done]|].
  intros b w1 Hw1 Hb. pose proof Hw1 as (_ & Hf1 & _). destruct Hb as [[-> Hn]|[-> Hn]].
  - eapply stills_weaken; [apply IH; [by rewrite Hf1|by eapply honest_still|by rewrite Hf1]|]. rewrite Hf1.
    intros [p|]; [done|]. intros Hall j Hj. destruct (decide (j = k)) as [->|]; [done|]. apply Hall. lia.
  - apply stills_ret. split; [done|by eexists].
Qed.
Lemma does_sibling w to label d : wf (fsys w) -> honest w -> parent to = Some d ->
  shape_at (fsys w) d = Some ShDir -> (crowded (fsys w) to -> T) ->
  does w (allocate_hidden_sibling_path to label) (fun p w' => calm w w' /\
    ready p (fsys w') /\ parent p = Some d /\
    exists nonce j, p = join d (sibling_prefix to label nonce +:+ u64_to_string (N.of_nat j))).
Proof.
  intros Hf Ho Hd Hs HT. unfold allocate_hidden_sibling_path. rewrite Hd. cbn [default]. cbv zeta.
  eapply does_bind.
  { apply (calms_or_io c T (fun f => wf f /\ shape_at f ([] ++ d) = Some ShDir) d (create_dir_all d) anything); [|apply stable_and; [intros ???; by eapply same_shapes_wf|apply stable_shape]|done].
    intros HE w0 Hw0. by apply (calms_create_dirs c T d []). }
  intros [] w1 [Hc1 _]. eapply stills_does; [apply stills_now|]. intros nonce w2 Hs2 _.
  assert (Hc2 : calm w w2) by (etrans; [exact Hc1|by apply still_calm]).
  assert (Hf2 : wf (fsys w2)) by (eapply same_shapes_wf; [apply Hc2|done]).
  assert (Hd2 : shape_at (fsys w2) d = Some ShDir) by (by rewrite (calm_shape w)).
  eapply stills_does.
  { apply stills_find_sibling; [done|eapply honest_kin; [apply Hc2|done]|done]. }
  intros [p|] w3 Hs3 Hp.
  - destruct Hp as [Hp [j ->]]. apply does_ret. set (n := _ +:+ u64_to_string (N.of_nat j)). pose proof Hs3 as (_ & Hfs3 & _). rewrite Hfs3.
    assert (Hpar : parent (join d n) = Some d) by apply parent_join.
    split; [etrans; [exact Hc2|by apply still_calm]|]. split; [split; [done|]; split; [done|]; by exists d|].
    split; [done|]. by exists nonce, j.
  - apply does_fail. intros _. apply HT. exists label, nonce. intros k Hk. rewrite Hd. cbn.
    unfold free in *. destruct Hc2 as (_ & (<- & _) & _). apply Hp. lia.
Qed.

(** ** The stage is renamed to the destination *)

(** Siblings that are not the same are apart. *)
Lemma siblings_apart p q d : parent p = Some d -> parent q = Some d -> p <> q -> apart p q.
Proof.
  intros (n & ->)%parent_Some (m & ->)%parent_Some Hne. apply join_apart. intros ->. done.
Qed.
Lemma missing_dir_shape f p : shape_at f p = None -> wf f -> free f p.
Proof. intros Hn Hf. by apply shape_at_None. Qed.

(** The tree after [stage] is renamed to [to]. *)
Definition swapped (stage to : FPath) (f f' : Fs) : Prop :=
  wf f' /\ (forall rel, shape_at f' (to ++ rel) = shape_at f (stage ++ rel)) /\
  forall q, ~ under to q -> (under stage q -> free f' q /\ shape_at f' q = None) /\
    (~ under stage q -> names f' !! q = names f !! q /\ shape_at f' q = shape_at f q).
Lemma moved_swapped stage to d m f : wf f -> to = join d m -> shape_at f d = Some ShDir -> apart stage to ->
  swapped stage to f (moved stage to f).
Proof.
  intros Hf -> Hd [Ha1 Ha2]. split_and!.
  - by apply wf_moved.
  - intros rel. by rewrite shape_at_moved, below_app.
  - intros q Hq. unfold free. rewrite moved_lookup, shape_at_moved, below_None by done. split; intros Hs.
    + by rewrite !decide_True by done.
    + by rewrite !decide_False by done.
Qed.
(** What stands in the way of the rename. *)
Definition renamable (s : Shape) (f : Fs) (to : FPath) : Prop :=
  free f to \/ (s <> ShDir /\ exists s', shape_at f to = Some s' /\ s' <> ShDir).
Lemma rename_done f stage to d s : wf f -> parent to = Some d -> shape_at f d = Some ShDir -> apart stage to ->
  shape_at f stage = Some s -> renamable s f to -> (forall i, names f !! stage = Some i -> names f !! to <> Some i) ->
  rename_act stage to f = (Ok tt, moved stage to f).
Proof.
  intros Hf Hp Hd [Ha1 Ha2] Hs Hr Hi. unfold rename_act. unfold shape_at in Hs.
  destruct (lookup_inode f stage) as [[i n]|] eqn:E; [|done]. cbn in Hs. simplify_eq.
  apply lookup_inode_Some in E as [En _]. rewrite Hp, Hd. rewrite decide_False by by apply Hi.
  rewrite decide_False.
  2:{ intros ->. apply Ha1. by exists to. }
  rewrite decide_False by done. destruct Hr as [Hn|(Hnd & s' & Hs' & Hnd')].
  - rewrite (proj2 (shape_at_None f to Hf) Hn). by destruct (shape n).
  - rewrite Hs'. by destruct (shape n), s'.
Qed.
Lemma does_rename w stage to d s : wf (fsys w) -> parent to = Some d -> shape_at (fsys w) d = Some ShDir ->
  apart stage to -> shape_at (fsys w) stage = Some s -> renamable s (fsys w) to ->
  (forall i, names (fsys w) !! stage = Some i -> names (fsys w) !! to <> Some i) ->
  does w (rename stage to) (fun r w' => sound T (fun _ => swapped stage to (fsys w) (fsys w')) r).
Proof.
  intros Hf Hp Hd Ha Hs Hr Hi. apply does_sys; [done|]. intros cl w' (_ & _ & Hfs) _.
  rewrite (rename_done _ _ _ _ _ Hf Hp Hd Ha Hs Hr Hi) in *. cbn in *. rewrite Hfs.
  destruct (parent_Some _ _ Hp) as [m ->]. by eapply moved_swapped.
Qed.

(** Nothing but what is at [to] and below has changed; a stage came and went. *)
Lemma swapped_grows stage to f0 f f' : wf f0 -> free f0 stage -> grows stage f0 f -> swapped stage to f f' ->
  grows to f0 f'.
Proof.
  intros Hf0 Hn (_ & Hg) (Hf' & _ & Hs). split; [done|]. intros q Hq. destruct (Hs q Hq) as [Hin Hout].
  destruct (decide (under stage q)) as [E|E].
  - destruct (Hin E) as [-> ->]. pose proof (wf_absent f0 stage q Hf0 Hn E) as Hq0. rewrite Hq0.
    split; [done|]. symmetry. by apply shape_at_None.
  - destruct (Hout E) as [-> ->]. by apply Hg.
Qed.
Lemma does_staged w stage work (P : unit -> OW -> Prop) : does w work P -> does w (staged stage work) P.
Proof.
  intros Hw. unfold staged. eapply does_bind; [by apply does_attempt|]. intros [[]|e] w1 Hr; [by apply does_ret|].
  apply does_doomed; [done|]. apply doomed_bind. intros [[|]|]; [|apply doomed_fail|apply doomed_fail].
  apply doomed_bind. intros. apply doomed_fail.
Qed.

(** ** Replacing *)

(** At [to] is a copy of what was at [from]; nothing else has changed. *)
Definition transfers (from to : FPath) (w w' : OW) : Prop :=
  grows to (fsys w) (fsys w') /\ copied (fsys w) from (fsys w') to.
Lemma transfers_before from to w w1 w2 : wf (fsys w) -> calm w w1 -> transfers from to w1 w2 -> transfers from to w w2.
Proof.
  intros Hf Hc (Hg & Hs). split; [eapply grows_trans; [by apply calm_grows|done]|].
  intros rel. by rewrite Hs, (calm_shape w).
Qed.
(** What may be replaced. *)
Definition replaceable (from to : FPath) (w : OW) : Prop :=
  wf (fsys w) /\ honest w /\ apart from to /\
  (exists s', shape_at (fsys w) to = Some s') /\
  (forall q, under to q -> locked_at (fsys w) q -> T) /\ (crowded (fsys w) to -> T).
Lemma replaceable_still from to w w' : still w w' -> replaceable from to w -> replaceable from to w'.
Proof.
  intros Hs (Hf & Ho & Ha & Hto & Hl & Hc). pose proof (honest_still _ _ Hs Ho). destruct Hs as (_ & Hfs & _).
  unfold replaceable. by rewrite Hfs.
Qed.
Lemma replaceable_parent from to w : replaceable from to w -> exists d, parent to = Some d /\ shape_at (fsys w) d = Some ShDir.
Proof.
  intros (Hf & _ & Ha & [s Hs] & _). destruct (decide (to = [])) as [->|Hne].
  - exfalso. apply Ha. by exists from.
  - destruct (path_split _ Hne) as (d & n & ->). exists d. split; [apply parent_join|].
    apply (wf_parent _ Hf d n). by eapply shape_at_names.
Qed.
Lemma stage_apart from to stage d f s : wf f -> apart from to -> parent to = Some d -> parent stage = Some d ->
  shape_at f from = Some s -> free f stage -> apart from stage.
Proof.
  intros Hf [Ha1 Ha2] Ht Hst Hs Hn. split; intros Hu.
  - destruct (parent_Some _ _ Hst) as [n ->]. destruct (parent_Some _ _ Ht) as [m ->].
    destruct Hu as [k Hk]. destruct k as [|x k _] using rev_ind.
    + rewrite app_nil_r in Hk. subst. apply shape_at_names in Hs. unfold free in Hn. rewrite Hn in Hs. by destruct Hs.
    + unfold join in Hk. rewrite app_assoc in Hk. apply app_inj_tail in Hk as [-> _]. apply Ha1.
      unfold join. rewrite <- app_assoc. apply under_app.
  - apply (wf_absent f stage from Hf Hn) in Hu. apply shape_at_names in Hs. rewrite Hu in Hs. by destruct Hs.
Qed.
(** A new entry is renamed over a file or a link. *)
Lemma does_install w w1 stage to d s s' : wf (fsys w) -> ready stage (fsys w) -> made True stage s w w1 ->
  parent to = Some d -> parent stage = Some d -> shape_at (fsys w) to = Some s' -> s <> ShDir -> s' <> ShDir ->
  does w1 (rename_replacing_file stage to) (fun _ w2 =>
    grows to (fsys w) (fsys w2) /\ forall rel, shape_at (fsys w2) (to ++ rel) = shape_at (fsys w1) (stage ++ rel)).
Proof.
  intros Hf Hr Hm Ht Hst Hs' Hns Hns'. pose proof Hm as (Hg & _ & Hs & Hnew). specialize (Hnew I).
  pose proof Hr as (_ & Hfree & _).
  assert (Hne : stage <> to). { intros ->. apply shape_at_names in Hs'. rewrite Hfree in Hs'. by destruct Hs'. }
  pose proof (siblings_apart _ _ _ Hst Ht Hne) as Ha.
  assert (Hd : shape_at (fsys w1) d = Some ShDir).
  { rewrite (grows_shape _ _ _ _ Hg).
    - destruct Hr as (_ & _ & d' & Hd' & ?). by simplify_eq.
    - destruct (parent_Some _ _ Hst) as [n ->]. intros [k Hk]. apply (f_equal length) in Hk.
      unfold join in Hk. rewrite !length_app in Hk. cbn in Hk. lia. }
  eapply does_or_io, does_weaken.
  - apply (does_rename w1 stage to d s); [by destruct Hg|done|done|done|done| |].
    + right. split; [done|]. exists s'. split; [|done]. rewrite (grows_shape _ _ _ _ Hg); [done|apply Ha].
    + intros i Hi Hj. apply Hnew in Hi. rewrite (grows_names _ _ _ _ Hg) in Hj by apply Ha.
      destruct (wf_inode _ Hf _ _ Hj) as [n Hn]. assert (i < next_inode (fsys w))%N by (apply (wf_next _ Hf); by exists n). lia.
  - intros [[]|e] w2; [|done]. intros Hsw. split; [by eapply swapped_grows|]. apply Hsw.
Qed.
Lemma same_file_transfers from to w s m1 m2 : wf (fsys w) -> s <> ShDir -> shape_at (fsys w) from = Some s ->
  seen (fsys w) from s m1 -> (exists s', seen (fsys w) to s' m2) ->
  metadata_same_file m1 m2 = true -> forall w1, calm w w1 -> transfers from to w w1.
Proof.
  intros Hf Hs Hsh [_ H1'] [s' [_ H2']] Hm w1 Hc. unfold metadata_same_file in Hm. apply bool_decide_eq_true in Hm.
  split; [by apply calm_grows|]. apply (copied_leaf _ _ _ _ s); [done|eapply same_shapes_wf; [apply Hc|done]|done|done|].
  rewrite (calm_shape w) by done. rewrite <- Hm in H2'. unfold shape_at, lookup_inode in *. by rewrite H1', H2' in *.
Qed.

Section Leaf.
Context {A : Type} (from to : FPath) (s s' : Shape) (w : OW) (work : FPath -> Op A).
Context (Hrep : replaceable from to w) (Hs : shape_at (fsys w) from = Some s) (Hs' : shape_at (fsys w) to = Some s')
  (Hns : s <> ShDir) (Hns' : s' <> ShDir).
Hypothesis Hwork : forall stage w1, ready stage (fsys w1) -> apart from stage -> shape_at (fsys w1) from = Some s ->
  does w1 (work stage) (fun _ w' => made True stage s w1 w').

(** The common part of [copy_file_replacing_existing] and [copy_symlink_replacing_existing]. *)
Lemma does_replace_leaf :
  does w (check_control ;; ensure_unlocked_path to "replace" ;;
    (source_metadata <- or_io from (symlink_metadata from) ;
     destination_metadata <- or_io to (symlink_metadata to) ;
     if metadata_same_file source_metadata destination_metadata then advance source_metadata
     else stage <- allocate_replace_stage_path to ;
          staged stage (work stage ;; rename_replacing_file stage to)))
    (fun _ w' => transfers from to w w').
Proof.
  destruct (replaceable_parent _ _ _ Hrep) as (d & Hd & Hsd). pose proof Hrep as (Hf & Ho & Ha & _ & Hl & Hcr).
  eapply stills_does; [apply stills_check|]. intros [] w1 Hs1 _.
  pose proof (still_calm _ _ Hs1) as Hc1. pose proof Hs1 as (_ & Hfs1 & _). rewrite <- Hfs1 in *.
  eapply does_weaken with (P := fun _ w' => transfers from to w1 w');
    [|intros ? w'; apply transfers_before; by rewrite <- ?Hfs1].
  eapply stills_does; [eapply stills_unlocked_path; [done|apply Hl, under_refl]|]. intros [] w2 Hs2 _.
  pose proof (still_calm _ _ Hs2) as Hc2. pose proof Hs2 as (_ & Hfs2 & _).
  eapply does_weaken with (P := fun _ w' => transfers from to w2 w'); [|intros ? w'; by apply transfers_before].
  rewrite <- Hfs2 in *.
  eapply stills_does; [by eapply stills_or_io, stills_lstat|]. intros m1 w3 Hs3 [_ Hm1].
  pose proof Hs3 as (_ & Hfs3 & _). rewrite <- Hfs3 in Hs'.
  eapply stills_does; [by eapply stills_or_io, stills_lstat|]. intros m2 w4 Hs4 [_ Hm2]. rewrite Hfs3 in *.
  assert (Hs24 : still w2 w4) by by etrans. pose proof (still_calm _ _ Hs24) as Hc4. pose proof Hs24 as (_ & Hfs4 & _).
  destruct (metadata_same_file m1 m2) eqn:Esame.
  - eapply does_weaken; [by apply (calms_advance c T (fun _ => True))|]. intros [] w5 [Hc5 _].
    by apply (same_file_transfers from to w2 s m1 m2 Hf Hns Hs Hm1 (ex_intro _ s' Hm2) Esame); etrans.
  - eapply does_weaken with (P := fun _ w' => transfers from to w4 w'); [|intros ? w'; by apply transfers_before].
    rewrite <- Hfs4 in *. assert (Ho4 : honest w4).
    { eapply honest_still; [exact Hs24|]. eapply honest_still; [exact Hs2|]. by eapply honest_still. }
    eapply does_bind; [by apply (does_sibling w4 to "gfm-replace" d)|]. intros stage w5 (Hc5 & Hr5 & Hst & _).
    eapply does_weaken with (P := fun _ w' => transfers from to w5 w'); [|intros ? w'; by apply transfers_before].
    assert (Hf5 : wf (fsys w5)) by by eapply ready_wf.
    rewrite <- (calm_shape w4 w5) in Hs, Hs' by done.
    assert (Has : apart from stage) by (eapply stage_apart; [exact Hf5|exact Ha|done|done|done|by destruct Hr5 as (_ & ? & _)]).
    apply does_staged. eapply does_bind; [by apply Hwork|]. intros ? w6 Hmade.
    eapply does_weaken; [eapply (does_install w5 w6 stage to d s s'); done|].
    intros [] w7 [Hg7 Hsh7]. split; [done|]. intros rel. rewrite Hsh7. destruct Hmade as (Hg6 & _ & Hs6 & _).
    apply (copied_leaf (fsys w5) from (fsys w6) stage s); [done|by destruct Hg6|done..].
Qed.
End Leaf.

Lemma does_replace_file w from to d s' e : replaceable from to w ->
  shape_at (fsys w) from = Some (ShFile d) -> shape_at (fsys w) to = Some s' -> s' <> ShDir ->
  does w (copy_file_replacing_existing from to e) (fun _ w' => transfers from to w w').
Proof.
  intros Hr Hs Hs' Hn.
  refine (does_replace_leaf from to (ShFile d) s' w (fun stage => copy_file_tracked from stage e) Hr Hs Hs' _ Hn _); [discriminate|].
  intros stage w1 Hr1 Ha1 Hs1. by apply does_copy_file.
Qed.
Lemma does_replace_link w from to t s' : replaceable from to w ->
  shape_at (fsys w) from = Some (ShLink t) -> shape_at (fsys w) to = Some s' -> s' <> ShDir ->
  does w (copy_symlink_replacing_existing from to) (fun _ w' => transfers from to w w').
Proof.
  intros Hr Hs Hs' Hn.
  refine (does_replace_leaf from to (ShLink t) s' w (fun stage => copy_symlink from stage) Hr Hs Hs' _ Hn _); [discriminate|].
  intros stage w1 Hr1 Ha1 Hs1. by apply does_copy_symlink.
Qed.

(** *** Directories *)
Lemma does_remove_dir_all w p : wf (fsys w) -> p <> [] -> shape_at (fsys w) p = Some ShDir ->
  does w (remove_dir_all p) (fun r w' => sound T (fun _ =>
    same_session w w' /\ fsys w' = prune (fun q => ~ under p q) (fsys w)) r).
Proof.
  intros Hf Hp Hs Hfair k. unfold remove_dir_all, call, mbind. cbn.
  destruct (fails (schedule w (calls w))) as [e|] eqn:E; cbn.
  - split; [by right|]. apply (fault_fair c T w e Hfair). by exists (calls w).
  - rewrite Hs. rewrite decide_False by done. cbn. split; [by right|]. by split.
Qed.
Lemma does_delete_dir w p : wf (fsys w) -> p <> [] -> shape_at (fsys w) p = Some ShDir ->
  does w (delete_path_untracked p) (fun _ w' => same_session w w' /\ fsys w' = prune (fun q => ~ under p q) (fsys w)).
Proof.
  intros Hf Hp Hs. unfold delete_path_untracked.
  eapply stills_does; [by eapply stills_or_io, stills_lstat|]. intros m w1 (_ & Hfs & Hl) [_ Hm]. rewrite <- Hfs in *.
  rewrite (seen_dir _ _ _ _ Hm). eapply does_or_io, does_weaken; [by apply does_remove_dir_all|].
  intros [[]|e] w2; [|done]. intros [Hl2 ->]. split; [|done]. unfold same_session in *. congruence.
Qed.
Lemma does_delete_leaf w p s : shape_at (fsys w) p = Some s -> s <> ShDir ->
  does w (delete_path_untracked p) (fun _ w' => same_session w w' /\ fsys w' = prune (fun q => q <> p) (fsys w)).
Proof.
  intros Hs Hn. unfold delete_path_untracked.
  eapply stills_does; [by eapply stills_or_io, stills_lstat|]. intros m w1 (_ & Hfs & Hl) [_ Hm]. rewrite <- Hfs in *.
  rewrite (seen_dir _ _ _ _ Hm). assert (Hd : match s with ShDir => true | _ => false end = false) by by destruct s.
  rewrite Hd. apply does_or_io, does_sys; [done|]. intros cl w2 (_ & Hx2 & Hw2) _.
  rewrite Hs in *. assert (Hl2 : same_session w w2) by (unfold same_session; congruence). by destruct s.
Qed.
Lemma append_cancel (a b b' : string) : a +:+ b = a +:+ b' -> b = b'.
Proof. induction a as [|x a IH]; cbn; [done|]. intros E. injection E as E. by apply IH. Qed.
Lemma labels_differ to n1 n2 (x y : string) :
  sibling_prefix to "gfm-replace" n1 +:+ x <> sibling_prefix to "gfm-replaced" n2 +:+ y.
Proof.
  unfold sibling_prefix. cbv zeta. generalize (match file_name to with
    Some n => if decide (n = "") then "copy" else n | None => "copy" end). intros name.
  generalize (u64_to_string n1) (u64_to_string n2). clear. intros a b. rewrite !string_app_assoc.
  intros E%append_cancel%append_cancel%append_cancel. discriminate E.
Qed.

(** The stage takes the place of the directory, which goes away by way of the backup. *)
Definition installed (stage to : FPath) (f f' : Fs) : Prop :=
  wf f' /\ (forall rel, shape_at f' (to ++ rel) = shape_at f (stage ++ rel)) /\
  forall q, ~ under to q -> names f' !! q = (if decide (under stage q) then None else names f !! q) /\
    shape_at f' q = (if decide (under stage q) then None else shape_at f q).
Lemma does_commit w stage to backup d : wf (fsys w) -> parent to = Some d -> parent stage = Some d ->
  parent backup = Some d -> stage <> to -> stage <> backup ->
  shape_at (fsys w) to = Some ShDir -> shape_at (fsys w) stage = Some ShDir -> free (fsys w) backup ->
  does w (commit_staged_directory_replace stage to backup delete_path_untracked)
    (fun _ w' => installed stage to (fsys w) (fsys w')).
Proof.
  intros Hf Ht Hst Hb Hne1 Hne2 Hto Hstage Hfree. unfold commit_staged_directory_replace.
  assert (Hne3 : to <> backup) by (intros ->; apply shape_at_names in Hto; unfold free in Hfree; rewrite Hfree in Hto; by destruct Hto).
  pose proof (siblings_apart _ _ _ Hst Ht Hne1) as [Hst1 Hst2]. pose proof (siblings_apart _ _ _ Hst Hb Hne2) as [Hsb1 Hsb2].
  pose proof (siblings_apart _ _ _ Ht Hb Hne3) as [Htb1 Htb2].
  assert (Hpd : forall p, parent p = Some d -> ~ under p d).
  { intros p (n & ->)%parent_Some [k Hk]. apply (f_equal length) in Hk. unfold join in Hk. rewrite !length_app in Hk. cbn in Hk. lia. }
  assert (Hd : shape_at (fsys w) d = Some ShDir).
  { destruct (parent_Some _ _ Ht) as [n ->]. apply (wf_parent _ Hf d n). by eapply shape_at_names. }
  eapply does_bind.
  { apply does_or_io. eapply does_weaken; [apply (does_rename w to backup d ShDir); [done..|by split|done|by left|]|].
    - intros i _ Hi. unfold free in Hfree. congruence.
    - intros r w1 Hr. exact Hr. }
  intros [] w1 (Hf1 & Hin1 & Hout1).
  assert (Hto1 : free (fsys w1) to) by (by apply (Hout1 to Htb2); apply under_refl).
  assert (Hkeep1 : forall q, ~ under backup q -> ~ under to q -> names (fsys w1) !! q = names (fsys w) !! q /\ shape_at (fsys w1) q = shape_at (fsys w) q).
  { intros q Hq1 Hq2. by apply (Hout1 q Hq1). }
  assert (Hd1 : shape_at (fsys w1) d = Some ShDir) by (rewrite (proj2 (Hkeep1 d (Hpd _ Hb) (Hpd _ Ht))); done).
  assert (Hstage1 : shape_at (fsys w1) stage = Some ShDir) by (rewrite (proj2 (Hkeep1 stage Hsb2 Hst2)); done).
  eapply does_bind.
  { apply (does_rename w1 stage to d ShDir); [done..|by split|done|by left|].
    intros i _ Hi. unfold free in Hto1. congruence. }
  intros [[]|e] w2 Hw2.
  2:{ apply does_doomed; [done|]. apply doomed_bind. intros [[]|e']; apply doomed_fail. }
  destruct Hw2 as (Hf2 & Hin2 & Hout2).
  assert (Hkeep2 : forall q, ~ under to q -> ~ under stage q -> names (fsys w2) !! q = names (fsys w1) !! q /\ shape_at (fsys w2) q = shape_at (fsys w1) q).
  { intros q Hq1 Hq2. by apply (Hout2 q Hq1). }
  assert (Hb2 : shape_at (fsys w2) backup = Some ShDir).
  { rewrite (proj2 (Hkeep2 backup Htb1 Hsb1)). specialize (Hin1 []). rewrite !app_nil_r in Hin1. by rewrite Hin1. }
  assert (Hbn : backup <> []) by (intros ->; done).
  eapply does_bind; [by apply does_attempt, does_delete_dir|].
  intros [[]|e] w3 Hw3; [|by apply does_fail]. apply does_ret. destruct Hw3 as [_ ->]. split_and!.
  - by apply wf_cut.
  - intros rel. rewrite shape_at_prune, decide_True by (by apply (apart_app to backup rel)). rewrite Hin2.
    apply Hkeep1; [by apply (apart_app stage backup rel)|by apply (apart_app stage to rel)].
  - intros q Hq. rewrite prune_lookup, shape_at_prune. destruct (decide (under backup q)) as [E|E].
    + rewrite !(decide_False (P := ~ under backup q)) by tauto.
      assert (Hns : ~ under stage q).
      { intros E2. destruct (under_comparable stage backup q E2 E); tauto. }
      rewrite !(decide_False (P := under stage q)) by done. pose proof (wf_absent _ _ _ Hf Hfree E) as Hn. rewrite Hn.
      split; [done|]. symmetry. by apply shape_at_None.
    + rewrite !(decide_True (P := ~ under backup q)) by done. destruct (Hout2 q Hq) as [Hs2 Hn2]. case_decide as E2.
      * destruct (Hs2 E2) as [Hx Hy]. by rewrite Hx, Hy.
      * destruct (Hn2 E2) as [Hx Hy]. rewrite Hx, Hy. by apply Hkeep1.
Qed.

Lemma does_replace_directory w from to fuel e : replaceable from to w -> shallow fuel (fsys w) from ->
  hard_links (extra w) = ∅ ->
  shape_at (fsys w) from = Some ShDir -> shape_at (fsys w) to = Some ShDir ->
  does w (copy_directory_replacing_existing fuel from to e) (fun _ w' => transfers from to w w').
Proof.
  intros Hrep Hfuel Hl Hs Hs'.
  destruct (replaceable_parent _ _ _ Hrep) as (d & Hd & Hsd). pose proof Hrep as (Hf & Ho & Ha & _ & Hlk & Hcr).
  unfold copy_directory_replacing_existing.
  eapply stills_does with (P := fun _ => True); [apply stills_check|]. intros [] w1 Hs1 _.
  pose proof Hs1 as (_ & Hfs1 & _). rewrite <- Hfs1 in *.
  eapply stills_does; [apply stills_unlocked_tree; [done|by exists ShDir|done]|]. intros [] w2 Hs2 _.
  pose proof Hs2 as (_ & Hfs2 & _). rewrite <- Hfs2 in *.
  eapply stills_does; [by eapply stills_or_io, stills_lstat|]. intros m1 w3 Hs3 [_ [_ Hm1]].
  pose proof Hs3 as (_ & Hfs3 & _). rewrite <- Hfs3 in *.
  eapply stills_does; [by eapply stills_or_io, stills_lstat|]. intros m2 w4 Hs4 [_ [_ Hm2]].
  pose proof Hs4 as (_ & Hfs4 & _). rewrite <- Hfs4 in *.
  assert (Hs04 : still w w4) by (do 3 (etrans; [eassumption|]); done).
  assert (Hne : metadata_same_file m1 m2 = false).
  { unfold metadata_same_file. apply bool_decide_eq_false. intros E. rewrite <- E in Hm2.
    apply shape_at_Some in Hs as (i & n & Hi & Hn & Hsn).
    assert (m_ino m1 = i) as E1 by congruence. rewrite E1 in Hm2.
    destruct Ha as [Ha _]. apply Ha. rewrite (wf_dir _ Hf from to i n Hi Hm2 Hn Hsn). apply under_refl. }
  rewrite Hne. assert (Ho4 : honest w4) by (by eapply honest_still).
  eapply does_bind; [by apply (does_sibling w4 to "gfm-replace" d)|]. intros stage w5 (Hc5 & Hr5 & Hst & n1 & k1 & Hstn).
  assert (Hf5 : wf (fsys w5)) by by eapply ready_wf.
  eapply does_bind.
  { apply (does_sibling w5 to "gfm-replaced" d); [done|eapply honest_kin; [apply Hc5|done]|done|by rewrite (calm_shape w4)|].
    intros (lb & nn & Hall). apply Hcr. exists lb, nn. intros k Hk. unfold free. destruct Hc5 as (_ & (<- & _) & _). by apply Hall. }
  intros backup w6 (Hc6 & Hr6 & Hb & n2 & k2 & Hbn). assert (Hc46 : calm w4 w6) by by etrans.
  assert (Hsb : stage <> backup).
  { rewrite Hstn, Hbn. unfold join. intros E. apply app_inj_tail in E as [_ E]. by apply labels_differ in E. }
  eapply does_weaken with (P := fun _ w' => transfers from to w6 w');
    [|intros ? w'; apply transfers_before; [destruct Hs04 as (_ & <- & _); exact Hf|]; etrans; [by apply still_calm|done]].
  assert (Hr6' : ready stage (fsys w6)) by exact (calm_ready w5 w6 stage Hc6 Hr5).
  assert (Hf6 : wf (fsys w6)) by by eapply ready_wf. rewrite <- (calm_shape w4 w6) in Hs, Hs' by done.
  assert (Has : apart from stage) by (eapply stage_apart; [exact Hf6|exact Ha|done|done|done|by destruct Hr6' as (_ & ? & _)]).
  assert (Hne1 : stage <> to).
  { intros ->. destruct Hr6' as (_ & Hn & _). apply shape_at_names in Hs'. rewrite Hn in Hs'. by destruct Hs'. }
  pose proof (siblings_apart _ _ _ Hst Hd Hne1) as Hstt.
  apply does_staged. eapply does_bind.
  { apply (does_copy_directory c T stage e fuel from stage w6); [|done].
    split; [done|]. split; [done|]. split; [apply under_refl|]. split.
    - intros i q. destruct Hs04 as (_ & _ & Hl4). destruct Hc46 as (_ & _ & Hl6). rewrite Hl6, Hl4, Hl. by rewrite lookup_empty.
    - intros rel. rewrite (calm_shape w4) by done. apply Hfuel. }
  intros [] w7 (Hg7 & _ & Hcp7).
  eapply does_weaken.
  { apply (does_commit w7 stage to backup d); [by destruct Hg7|done..| | |].
    - rewrite (grows_shape _ _ _ _ Hg7); [done|apply Hstt].
    - specialize (Hcp7 []). rewrite !app_nil_r in Hcp7. by rewrite Hcp7.
    - unfold free. rewrite (grows_names _ _ _ _ Hg7); [by destruct Hr6 as (_ & ? & _)|].
      by apply (siblings_apart stage backup d). }
  intros [] w8 (Hf8 & Hin8 & Hout8). split.
  - split; [done|]. intros q Hq. destruct (Hout8 q Hq) as [-> ->]. case_decide as E.
    + destruct Hr6' as (_ & Hn & _). pose proof (wf_absent _ _ _ Hf6 Hn E) as Hqn. rewrite Hqn.
      split; [done|]. symmetry. by apply shape_at_None.
    + by apply Hg7.
  - intros rel. by rewrite Hin8, Hcp7.
Qed.
End Whole.
