(* ===== verification/CopyPath.v ===== *)
(** * Copying: the theorems

    A copy is complete or fails for a reason, a refused copy changes nothing, and a
    copy never touches what it does not replace. *)
From S2P Require Import Prelude Types Text Control FileSystem FileFacts OpModel OpTree Preserve Copy CopyFrame CopyCalm CopyBytes CopySpec Replacing.
#[local] Open Scope list_scope.

Section Path.
Context `{Platform, Libc, AttrCalls, Cloning, Packages, !CloneLaws} (c : Control) (T : Prop).

Abbreviation does := (does c T).
Abbreviation stills := (stills c T).
Abbreviation anything := (fun _ => True).

Lemma stills_is_true test w p : stills w (symlink_metadata_is test p)
  (fun b => b = true -> exists m, stat (fsys w) p = Ok m /\ test m = true).
Proof.
  unfold symlink_metadata_is.
  eapply stills_bind with (P := fun r => match r with Ok m => stat (fsys w) p = Ok m | Err _ => True end).
  - apply stills_look; [intros _; by destruct (stat (fsys w) p)|done].
  - intros r w1 _ Hr. apply stills_ret. destruct r as [m|]; [by exists m|done].
Qed.
Lemma stat_seen f p m : stat f p = Ok m -> exists s, shape_at f p = Some s /\ seen f p s m.
Proof.
  unfold stat, shape_at. destruct (lookup_inode f p) as [[i n]|] eqn:E; [|done]. intros [= <-].
  exists (shape n). apply lookup_inode_Some in E as [En _]. done.
Qed.
Lemma seen_unique f p s s' m : shape_at f p = Some s -> stat f p = Ok m -> seen f p s' m -> s = s' \/ type_of s = type_of s'.
Proof.
  intros Hs Hm Hseen. right. destruct (stat_seen _ _ _ Hm) as (s2 & Hs2 & [Ht _]). destruct Hseen as [Ht' _].
  simplify_eq. congruence.
Qed.

(** *** A fresh copy *)
Definition fresh_copy (fuel : nat) (from to : FPath) (m : Metadata) (e : CopyExecution) : Op unit :=
  if is_symlink m then copy_symlink from to
  else if m_is_dir m then copy_directory fuel from to e ModeFresh
  else copy_file_with_session from to m e.
Lemma does_fresh w from to s m fuel e : ready to (fsys w) -> apart from to -> hard_links (extra w) = ∅ ->
  shallow fuel (fsys w) from -> shape_at (fsys w) from = Some s -> seen (fsys w) from s m ->
  does w (fresh_copy fuel from to m e) (fun _ w' => transfers from to w w').
Proof.
  intros Hr Ha Hl Hfuel Hs Hm. unfold fresh_copy. rewrite (seen_link _ _ _ _ Hm), (seen_dir _ _ _ _ Hm).
  assert (Hre : recalls to w) by (unfold recalls; rewrite Hl; apply remembered_empty).
  destruct s as [data| |t].
  - eapply does_weaken; [eapply (does_file_session c T w to from to data m e); [done|done|apply under_refl|done|apply Hm|done]|].
    intros _ w' (Hg & _ & Hc). by split.
  - eapply does_weaken; [apply (does_copy_directory c T to e fuel from to w); [|done]|].
    + split; [done|]. split; [done|]. split; [apply under_refl|]. by split.
    + intros _ w' (Hg & _ & Hc). by split.
  - eapply does_weaken; [by apply (does_copy_symlink c T w from to t)|]. intros _ w' (Hg & _ & Hs' & _).
    split; [done|]. apply (copied_leaf _ _ _ _ (ShLink t)); [by eapply ready_wf|by destruct Hg|done..].
Qed.

(** *** Preparing the destination *)
Lemma does_delete w from to s : wf (fsys w) -> apart from to -> shape_at (fsys w) to = Some s ->
  does w (delete_path_untracked to) (fun _ w' => same_session w w' /\ ready to (fsys w') /\
    grows to (fsys w) (fsys w') /\ forall rel, shape_at (fsys w') (from ++ rel) = shape_at (fsys w) (from ++ rel)).
Proof.
  intros Hf Ha Hs. assert (Hne : to <> []) by (intros ->; apply Ha; by exists from).
  destruct (path_split _ Hne) as (d & n & Eto).
  assert (Hd : shape_at (fsys w) d = Some ShDir).
  { apply (wf_parent _ Hf d n). rewrite <- Eto. by eapply shape_at_names. }
  assert (Hnd : ~ under to d).
  { subst. intros [k Hk]. apply (f_equal length) in Hk. unfold join in Hk. rewrite !length_app in Hk. cbn in Hk. lia. }
  eapply does_weaken with (P := fun _ w' => same_session w w' /\ names (fsys w') !! to = None /\ grows to (fsys w) (fsys w')).
  2:{ intros _ w' (Hl & Hn & Hg). split; [done|]. split; [split; [by destruct Hg|split; [done|]]|split; [done|]].
      - exists d. split; [subst; apply parent_join|]. by rewrite (grows_shape _ _ _ _ Hg).
      - intros rel. apply (grows_shape to _ _ _ Hg). apply (apart_app _ _ rel Ha). }
  destruct (decide (s = ShDir)) as [->|Hsd].
  - eapply does_weaken; [by apply does_delete_dir|]. intros _ w' [Hl ->]. split; [done|]. split.
    + rewrite prune_lookup, decide_False; [done|]. intros E. apply E, under_refl.
    + split; [by apply wf_cut|]. intros q Hq. by rewrite prune_lookup, shape_at_prune, !decide_True by done.
  - eapply does_weaken; [by eapply does_delete_leaf|]. intros _ w' [Hl ->]. split; [done|]. split.
    + rewrite prune_lookup, decide_False; [done|]. intros E. by apply E.
    + split.
      * apply wf_prune; [done|by apply not_eq_sym|]. intros q x Hq Hsome E. subst q. apply (wf_parent _ Hf) in Hsome. congruence.
      * intros q Hq. assert (q <> to) by (intros ->; by apply Hq, under_refl).
        by rewrite prune_lookup, shape_at_prune, !decide_True by done.
Qed.
Lemma stills_free w to : ready to (fsys w) -> stills w (path_exists_or_symlink to) (fun b => b = false).
Proof.
  intros Hr. unfold path_exists_or_symlink. eapply stills_bind; [by apply stills_lstat_none|].
  intros [m|e] w1 _ He; [done|]. case_decide; [by apply stills_ret|]. apply stills_fail. tauto.
Qed.
Lemma stills_prepare_free w to conflict delete : ready to (fsys w) ->
  stills w (prepare_destination to conflict delete) anything.
Proof.
  intros Hr. unfold prepare_destination. eapply stills_bind; [by apply stills_free|].
  intros b w1 _ ->. by apply stills_ret.
Qed.
Lemma does_prepare_replace w from to : replaceable T from to w ->
  does w (prepare_destination to Replace delete_path_untracked) (fun _ w' => same_session w w' /\ ready to (fsys w') /\
    grows to (fsys w) (fsys w') /\ forall rel, shape_at (fsys w') (from ++ rel) = shape_at (fsys w) (from ++ rel)).
Proof.
  intros Hrep. destruct (replaceable_parent _ _ _ _ Hrep) as (d & Hd & Hsd).
  pose proof Hrep as (Hf & Ho & Ha & [s Hs] & _). unfold prepare_destination.
  eapply stills_does; [by apply (stills_exists c T w to d)|]. intros b w1 (_ & Hfs & Hl) [[-> _]|[_ Hn]].
  - rewrite <- Hfs in *. eapply does_weaken; [by eapply does_delete|]. intros ? w2 [Hl2 Hr2]. split; [|done].
    unfold same_session in *. congruence.
  - unfold free in Hn. apply shape_at_names in Hs. rewrite Hn in Hs. by destruct Hs.
Qed.

(** *** The copy of a path *)
Lemma does_copy_free w from to conflict e resuming : ready to (fsys w) -> apart from to ->
  hard_links (extra w) = ∅ -> present from (fsys w) ->
  does w (copy_path_with_session from to conflict e resuming) (fun _ w' => transfers from to w w').
Proof.
  intros Hr Ha Hl [s Hs]. pose proof (ready_wf _ _ Hr) as Hf. unfold copy_path_with_session.
  eapply stills_does; [apply stills_check|]. intros [] w1 Hs1 _. pose proof Hs1 as (_ & Hf1 & _). rewrite <- Hf1 in Hs, Hr.
  eapply stills_does; [by eapply stills_source|]. intros [] w2 Hs2 _. pose proof Hs2 as (_ & Hf2 & _). rewrite <- Hf2 in Hs, Hr.
  eapply stills_does; [by eapply stills_or_io, stills_lstat|]. intros m w3 Hs3 [_ Hm].
  pose proof Hs3 as (_ & Hf3 & _). rewrite <- Hf3 in Hs, Hr, Hm.
  eapply stills_does with (P := fun w0 => w0 = w3); [by apply does_get|]. intros w0 w4 Hs4 ->. cbv zeta.
  pose proof Hs4 as (_ & Hf4 & _).
  assert (Hs04 : still w w4) by (do 3 (etrans; [eassumption|]); done).
  assert (Hnone : forall w', still w4 w' -> ready to (fsys w')).
  { intros w' (_ & Hf' & _). by rewrite Hf', Hf4. }
  assert (Hno : forall w' (P : Prop) `{Decision P} (g : Op bool), stills w' g (fun b => b = false) ->
    stills w' (if decide P then g else mret false) (fun b => b = false)).
  { intros w' P dP g Hg. case_decide; [done|by apply stills_ret]. }
  assert (Htest : forall w' test, still w4 w' -> stills w' (symlink_metadata_is test to) (fun b => b = false)).
  { intros w' test Hw'. eapply stills_weaken; [apply stills_is_true|]. intros [|] Hb; [|done].
    destruct (Hb eq_refl) as (m' & Hm' & _). destruct (stat_seen _ _ _ Hm') as (s' & Hs' & _).
    destruct (Hnone w' Hw') as (_ & Hn & _). apply shape_at_names in Hs'. rewrite Hn in Hs'. by destruct Hs'. }
  eapply stills_does with (P := fun b => b = false).
  { destruct resuming; [by apply stills_free, Hnone|by apply stills_ret]. }
  intros ? w5 Hs5 ->. eapply stills_does; [by apply Hno, stills_free, Hnone|]. intros ? w6 Hs6 ->.
  assert (Hs46 : still w4 w6) by by etrans.
  eapply stills_does; [by apply Hno, Htest|]. intros ? w7 Hs7 ->. assert (Hs47 : still w4 w7) by by etrans.
  eapply stills_does; [by apply Hno, Htest|]. intros ? w8 Hs8 ->. assert (Hs48 : still w4 w8) by by etrans.
  eapply stills_does; [by apply Hno, Htest|]. intros ? w9 Hs9 ->. assert (Hs49 : still w4 w9) by by etrans.
  eapply stills_does; [by apply stills_prepare_free, Hnone|]. intros [] w10 Hs10 _. assert (Hs410 : still w4 w10) by by etrans.
  assert (Hs010 : still w w10) by by etrans. pose proof Hs410 as (_ & Hf10 & _). pose proof Hs010 as (_ & _ & Hl10).
  eapply does_weaken with (P := fun _ w' => transfers from to w10 w');
    [|intros ? w'; apply transfers_before; [done|by apply still_calm]].
  eapply (does_fresh w10 from to s m); [by apply Hnone|done|by rewrite Hl10| | |].
  - rewrite Hf10, Hf4. apply shallow_depth. by eapply ready_wf.
  - by rewrite Hf10, Hf4.
  - by rewrite Hf10, Hf4.
Qed.
Lemma does_copy_replace w from to e : replaceable T from to w -> hard_links (extra w) = ∅ -> present from (fsys w) ->
  does w (copy_path_with_session from to Replace e false) (fun _ w' => transfers from to w w').
Proof.
  intros Hrep Hl [s Hs]. unfold copy_path_with_session. pose proof Hrep as (Hf & _).
  eapply stills_does; [apply stills_check|]. intros [] w1 Hs1 _. pose proof Hs1 as (_ & Hf1 & _). rewrite <- Hf1 in Hs.
  eapply stills_does; [by eapply stills_source|]. intros [] w2 Hs2 _. pose proof Hs2 as (_ & Hf2 & _). rewrite <- Hf2 in Hs.
  eapply stills_does; [by eapply stills_or_io, stills_lstat|]. intros m w3 Hs3 [_ Hm].
  pose proof Hs3 as (_ & Hf3 & _). rewrite <- Hf3 in Hs, Hm.
  eapply stills_does with (P := fun w0 => w0 = w3); [by apply does_get|]. intros w0 w4 Hs4 ->. cbv zeta.
  pose proof Hs4 as (_ & Hf4 & _). rewrite <- Hf4 in *.
  assert (Hs04 : still w w4) by (do 3 (etrans; [eassumption|]); done).
  assert (Hall : forall w', still w4 w' -> replaceable T from to w' /\ hard_links (extra w') = ∅ /\
    shape_at (fsys w') from = Some s /\ shallow (tree_depth (fsys w4)) (fsys w') from /\ seen (fsys w') from s m).
  { intros w' Hw'. assert (Hw : still w w') by by etrans. pose proof (replaceable_still T from to _ _ Hw Hrep).
    pose proof Hw as (_ & _ & Hlw). pose proof Hw' as (_ & Hfw & _). rewrite Hfw, Hlw.
    split; [done|]. split; [done|]. split; [done|]. split; [apply shallow_depth; by destruct Hs04 as (_ & -> & _)|done]. }
  assert (Hback : forall w' (m : Op unit), still w4 w' -> does w' m (fun _ w2 => transfers from to w' w2) ->
    does w' m (fun _ w2 => transfers from to w w2)).
  { intros w' g Hw' Hg. eapply does_weaken; [exact Hg|]. intros ? w''. apply transfers_before; [done|].
    apply still_calm. by etrans. }
  eapply stills_does with (P := fun b => b = false); [by apply stills_ret|]. intros ? w5 Hs5 ->.
  eapply stills_does with (P := fun b => b = false); [rewrite decide_False by (by intros []); by apply stills_ret|].
  intros ? w6 Hs6 ->. assert (Hs46 : still w4 w6) by by etrans.
  assert (Htest : forall w' (b : bool) test, still w4 w' ->
    stills w' (if decide (Replace = Replace /\ b = true) then symlink_metadata_is test to else mret false)
      (fun r => r = true -> b = true /\ exists s' m', shape_at (fsys w') to = Some s' /\ seen (fsys w') to s' m' /\ test m' = true)).
  { intros w' b test Hw'. case_decide as Hb; [|by apply stills_ret]. eapply stills_weaken; [apply stills_is_true|].
    intros r Hr E. destruct (Hr E) as (m' & Hm' & Ht). destruct (stat_seen _ _ _ Hm') as (s' & ? & ?).
    split; [by destruct Hb|]. by exists s', m'. }
  eapply stills_does; [by apply Htest|]. intros r1 w7 Hs7 Hr1. assert (Hs47 : still w4 w7) by by etrans.
  destruct r1.
  { destruct (Hr1 eq_refl) as (Hb & s' & m' & Hs' & Hm' & Ht'). pose proof Hs7 as (_ & Hf7 & _). rewrite <- Hf7 in Hs', Hm'.
    destruct (Hall w7 Hs47) as (Hrep7 & _ & Hs7' & _). apply Hback; [done|].
    rewrite (seen_file _ _ _ _ Hm) in Hb. destruct s as [data| |]; try done.
    rewrite (seen_dir _ _ _ _ Hm') in Ht'. apply (does_replace_file c T w7 from to data s'); [done..|by intros ->]. }
  eapply stills_does; [by apply Htest|]. intros r2 w8 Hs8 Hr2. assert (Hs48 : still w4 w8) by by etrans.
  destruct r2.
  { destruct (Hr2 eq_refl) as (Hb & s' & m' & Hs' & Hm' & Ht'). pose proof Hs8 as (_ & Hf8 & _). rewrite <- Hf8 in Hs', Hm'.
    destruct (Hall w8 Hs48) as (Hrep8 & _ & Hs8' & _). apply Hback; [done|].
    rewrite (seen_link _ _ _ _ Hm) in Hb. destruct s as [| |t]; try done.
    rewrite (seen_dir _ _ _ _ Hm') in Ht'. apply (does_replace_link c T w8 from to t s'); [done..|by intros ->]. }
  eapply stills_does; [by apply Htest|]. intros r3 w9 Hs9 Hr3. assert (Hs49 : still w4 w9) by by etrans.
  destruct r3.
  { destruct (Hr3 eq_refl) as (Hb & s' & m' & Hs' & Hm' & Ht'). pose proof Hs9 as (_ & Hf9 & _). rewrite <- Hf9 in Hs', Hm'.
    destruct (Hall w9 Hs49) as (Hrep9 & Hl9 & Hs9' & Hsh9 & _). apply Hback; [done|].
    rewrite (seen_dir _ _ _ _ Hm) in Hb. destruct s; try done.
    rewrite (seen_dir _ _ _ _ Hm') in Ht'. destruct s'; try done. by apply does_replace_directory. }
  destruct (Hall w9 Hs49) as (Hrep9 & Hl9 & Hs9' & Hsh9 & Hm9). apply Hback; [done|]. pose proof Hrep9 as (Hf9 & _ & Ha & _).
  eapply does_bind; [by apply does_prepare_replace|]. intros [] w10 (Hl10 & Hr10 & Hg10 & Hsame).
  eapply does_weaken.
  - apply (does_fresh w10 from to s m _ e); [done|done| | | |].
    + unfold same_session in Hl10. by rewrite Hl10.
    + intros rel. rewrite Hsame. apply Hsh9.
    + specialize (Hsame []). rewrite !app_nil_r in Hsame. by rewrite Hsame.
    + destruct Hm9 as [Ht Hn]. split; [done|]. by rewrite (grows_names _ _ _ _ Hg10) by apply Ha.
  - intros ? w11 [Hg11 Hc11]. split; [by eapply grows_trans|]. intros rel. by rewrite Hc11, Hsame.
Qed.
End Path.

(** ** The theorems *)
Section Theorems.
Context `{Platform, Libc, AttrCalls, Cloning, Packages, !CloneLaws}.

(** What may stop a copy that has a place to go to. *)
Definition excuse (c : Control) (w : OW) (to : FPath) : Prop :=
  trouble c w \/ crowded (fsys w) to \/ exists q, under to q /\ locked_at (fsys w) q.
(** There is room for the destination, or what is there is to be replaced. *)
Definition placeable (conflict : ConflictPolicy) (resuming : bool) (to : FPath) (f : Fs) : Prop :=
  ready to f \/ (conflict = Replace /\ resuming = false /\ present to f).

Lemma ens_start {A} c (w : OW) (m : Op A) (Q : Res A -> OW -> Prop) :
  ens c (set_extra (set_hard_links ∅ (extra w)) w) m Q -> ens c w (change (set_hard_links ∅) ;; m) Q.
Proof. intros Hm. apply ens_bind, ens_modify. exact Hm. Qed.
Lemma ens_copy c (w : OW) from to conflict v policy resuming :
  wf (fsys w) -> honest w -> apart from to -> present from (fsys w) ->
  placeable conflict resuming to (fsys w) ->
  ens c w (copy_path from to conflict v policy resuming) (fun r w' =>
    match r with Ok _ => transfers from to w w' | Err _ => excuse c w to end).
Proof.
  intros Hf Ho Ha Hp Hpl. unfold copy_path. apply ens_start. set (w0 := set_extra _ w).
  assert (Hfair : fair c (excuse c w to) w0) by (intros Ht; left; exact Ht).
  assert (Hdoes : does c (excuse c w to) w0 (copy_path_with_session from to conflict (mkExecution v policy) resuming)
                    (fun _ w' => transfers from to w0 w')).
  { destruct Hpl as [Hr|(-> & -> & Hto)]; [by apply does_copy_free|]. apply does_copy_replace; [|done|done].
    split_and!; [done|done|exact Ha|exact Hto| |].
    - intros q Hq Hl. right. right. by exists q.
    - intros Hc. right. by left. }
  eapply ens_weaken; [by apply Hdoes|]. intros [[]|e] w'; [by intros [_ Ht]|done].
Qed.
End Theorems.

(** C1: On a well-formed tree, a copy of a source that is there to a destination neither
    at, above nor below it, which is free in a directory that is there (whether the copy
    resumes or not), or is there and is to be replaced by a copy that does not resume;
    no call is answered that something is not there when it is. Whatever the control
    closure answers and whichever calls fail, the copy either returns [Ok] and then
    everything below the source is below the destination (contents, links, directories)
    and the shape of every entry not at or below the destination is what it was; or it
    returns an error, and then a poll or a call has failed (or read short), an item
    under the destination is locked, or a hundred siblings have the names of the stage. *)
Theorem copy_complete `{Platform, Libc, AttrCalls, Cloning, Packages, !CloneLaws} c (w w' : OW) from to conflict v policy resuming r :
  wf (fsys w) -> honest w -> apart from to -> present from (fsys w) ->
  placeable conflict resuming to (fsys w) ->
  run (copy_path from to conflict v policy resuming) c w = (r, w') ->
  match r with
  | Ok _ =>
      copied (fsys w) from (fsys w') to /\
      forall q, ~ under to q -> shape_at (fsys w') q = shape_at (fsys w) q
  | Err _ => excuse c w to
  end.
Proof.
  intros Hf Ho Ha Hp Hpl Hrun.
  pose proof (ens_run c w _ _ _ _ (ens_copy c w from to conflict v policy resuming Hf Ho Ha Hp Hpl) Hrun) as Hr.
  destruct r as [[]|e]; [|done]. destruct Hr as [[_ Hg] Hc]. split; [done|]. intros q Hq. by apply Hg.
Qed.

Section Safety.
Context `{Platform, Libc, AttrCalls, Cloning, Packages, !CloneLaws}.
(** The entries a copy may remove. *)
Definition replaced (conflict : ConflictPolicy) (to p : FPath) : Prop := conflict = Replace /\ under to p.
Lemma keeps_copy c f0 from to conflict v policy resuming :
  keeps (X := OpState) c (near to) (replaced conflict to) f0
    (copy_path from to conflict v policy resuming) (fun _ => True).
Proof.
  unfold copy_path. eapply keeps_bind; [apply keeps_change|]. intros [] _.
  apply keeps_copy_path; [done|]. intros -> q Hq. by right.
Qed.
(** A destination that is there, and may not be replaced or merged. *)
Definition refuses (conflict : ConflictPolicy) : Prop := conflict <> Replace /\ conflict <> Merge.
Lemma keeps_refused c f0 from to conflict v policy : refuses conflict -> is_Some (names f0 !! to) ->
  keeps (X := OpState) c nowhere nowhere f0 (copy_path from to conflict v policy false) (fun _ => False).
Proof.
  intros [Hr Hm] Hto. unfold copy_path. eapply keeps_bind; [apply keeps_change|]. intros [] _.
  unfold copy_path_with_session. eapply keeps_bind; [apply keeps_check|]. intros [] _.
  eapply keeps_bind; [apply keeps_source|]. intros [] _.
  eapply keeps_bind; [by apply keeps_or_io_any, keeps_symlink_metadata|]. intros m _.
  eapply keeps_bind; [apply keeps_get|]. intros w _. cbv zeta.
  assert (Hret : forall (P : Prop) `{Decision P} g, (P -> False) ->
    keeps (X := OpState) c nowhere nowhere f0 (if decide P then g else mret false) (fun b : bool => b = false)).
  { intros P dP g HP. case_decide; [done|by apply keeps_ret]. }
  eapply keeps_bind with (P := fun b => b = false); [by apply keeps_ret|]. intros ? ->.
  do 4 (eapply keeps_bind; [apply Hret; by intros []|]; intros ? ->; cbn match).
  eapply keeps_bind with (P := fun _ => False); [|by intros].
  unfold prepare_destination. eapply keeps_bind; [apply keeps_exists|]. intros [|] Hb.
  - destruct conflict; try done; apply keeps_fail.
  - exfalso. destruct (Hb eq_refl to (under_refl to)) as [Hn|[]]. rewrite Hn in Hto. by destruct Hto.
Qed.
End Safety.

(** C2: Whatever fails and whenever it is cancelled or paused (no call is answered that
    something is not there when it is), a copy (fresh, resumed, merging or replacing)
    over a well-formed tree leaves it well-formed, and what was there, except, under the
    replace policy, the destination and what is below it, is there: the same file under
    each path, and with the same kind and contents or link target. Of permissions, times
    and attributes nothing is said: a merging or resumed copy sets those of a
    destination that is there. A new entry is below the directory of the destination, or
    leads there. *)
Theorem copy_preserves `{Platform, Libc, AttrCalls, Cloning, Packages, !CloneLaws} c (w w' : OW) from to conflict v policy resuming r :
  wf (fsys w) -> honest w ->
  run (copy_path from to conflict v policy resuming) c w = (r, w') ->
  wf (fsys w') /\
  (forall p s, shape_at (fsys w) p = Some s -> ~ replaced conflict to p -> shape_at (fsys w') p = Some s) /\
  (forall p i, names (fsys w) !! p = Some i -> ~ replaced conflict to p -> names (fsys w') !! p = Some i) /\
  (forall p, shape_at (fsys w) p = None -> is_Some (shape_at (fsys w') p) -> near to p).
Proof.
  intros Hf Ho Hrun.
  pose proof (keeps_copy c (fsys w) from to conflict v policy resuming w Ho (conj Hf (changes_refl _ _ _))) as Hk.
  pose proof (ens_run c w _ _ _ _ Hk Hrun) as (_ & [Hf' Hc] & _). split; [done|]. split_and!.
  - intros p s Hs Hp. by eapply changes_shape_at.
  - intros p i Hi Hp. by destruct (changes_old _ _ _ _ Hc p i Hi).
  - intros p Hn Hs. apply shape_at_None in Hn; [|done]. apply (changes_new _ _ _ _ Hc p Hn). by apply names_shape.
Qed.

(** C5: A copy that does not resume refuses a destination that is there (a resumed one
    may take a file of the same size for its own) under every policy but replace and
    merge: whatever else happens (no call is answered that something is not there when
    it is), the result is an error, and no entry of the well-formed tree has come, gone
    or changed its kind, contents or link target. *)
Theorem copy_refused `{Platform, Libc, AttrCalls, Cloning, Packages, !CloneLaws} c (w w' : OW) from to conflict v policy r :
  wf (fsys w) -> honest w -> present to (fsys w) -> refuses conflict ->
  run (copy_path from to conflict v policy false) c w = (r, w') ->
  (exists e, r = Err e) /\ forall p, shape_at (fsys w') p = shape_at (fsys w) p.
Proof.
  intros Hf Ho Hp Hr Hrun. apply names_shape in Hp; [|done].
  pose proof (keeps_refused c (fsys w) from to conflict v policy Hr Hp w Ho (conj Hf (changes_refl _ _ _))) as Hk.
  pose proof (ens_run c w _ _ _ _ Hk Hrun) as (_ & [Hf' Hc] & Hok). split.
  - destruct r as [[]|e]; [by destruct (Hok tt)|by exists e].
  - intros p. apply (changes_outside nowhere nowhere _ _ Hc); [by intros []|by intros []|done|done].
Qed.
