(* ===== verification/RemovalSpec.v ===== *)
(** * Removing: the theorems

    What a removal takes away, what it leaves when it fails, and the rows of the
    trash metadata that go with the items. *)
From S2P Require Import Prelude Types Text Order Control Paths FileSystem FileFacts TextFiles TrashMeta Publish TrashSpec OpModel OpTree Preserve Copy CopyFrame Removal CopyCalm CopyBytes CopySpec Replacing.
#[local] Open Scope string_scope.
#[local] Open Scope list_scope.

(** ** Steps that leave the tree alone *)
Section Quiet.
Context `{Platform, Libc}.

Lemma quiet_change g : quiet (change g).
Proof. by apply quiet_modify. Qed.
#[local] Hint Resolve quiet_change : quiet.
Lemma quiet_emit p : quiet (emit p).
Proof. unfold emit, throughput_snapshot. quiet_auto. Qed.
#[local] Hint Resolve quiet_emit : quiet.
Lemma quiet_advance m : quiet (advance m).
Proof. unfold advance. quiet_auto. Qed.
Lemma quiet_finish : quiet finish_current_item.
Proof. unfold finish_current_item. quiet_auto. Qed.
Lemma quiet_complete : quiet complete.
Proof. unfold complete. quiet_auto. Qed.
Lemma quiet_lstat p : quiet (symlink_metadata (X := OpState) p).
Proof. apply quiet_look. Qed.
Lemma quiet_source p : quiet (ensure_source_exists p).
Proof. unfold ensure_source_exists. apply quiet_bind; [apply quiet_lstat|]. quiet_auto. Qed.
Lemma quiet_children p : quiet (sorted_children p).
Proof.
  unfold sorted_children, read_entries. apply quiet_bind; [|quiet_auto]. apply quiet_bind; [apply quiet_or_io, quiet_look|].
  intros ns. apply quiet_for. intros acc n. apply quiet_bind; [apply quiet_or_io, quiet_look|]. quiet_auto.
Qed.
Lemma quiet_unlocked p m a : quiet (ensure_metadata_unlocked p m a).
Proof. unfold ensure_metadata_unlocked. quiet_auto. Qed.
Lemma quiet_walk a fuel : forall p, quiet (unlocked_walk fuel p a).
Proof.
  induction fuel as [|fuel IH]; intros p; cbn [unlocked_walk]; [apply quiet_fail|].
  apply quiet_bind; [apply quiet_or_io, quiet_look|]. intros m. apply quiet_bind; [apply quiet_unlocked|]. intros [].
  destruct (m_is_dir m && negb (is_symlink m)); [|apply quiet_ret].
  apply quiet_bind; [apply quiet_children|]. intros ns. apply quiet_for. intros _ n. apply IH.
Qed.
Lemma quiet_unlocked_tree p a : quiet (ensure_unlocked_tree p a).
Proof. apply quiet_bind; [apply quiet_get|]. intros w. apply quiet_walk. Qed.
End Quiet.

Section Removing.
Context `{Platform, Libc, AttrCalls, Cloning, Packages, !CloneLaws, Process, TrashCan} (c : Control) (T : Prop).
Abbreviation yields := (yields (X := OpState) c T).
Abbreviation looks m J := (fun f => yields (eq f) m (fun b f' => J b /\ f = f') (fun _ f' => T /\ f = f')).

Lemma looks_stills {A} f (m : Op A) (J : A -> Prop) : quiet m ->
  (forall w, fsys w = f -> honest w -> stills c T w m J) -> looks m J f.
Proof.
  intros Hq Hm. apply looks_quiet; [done|]. intros w Hw Ho _ Hf.
  eapply ens_weaken; [by apply (Hm w Hw Ho)|]. intros [a|e] w' Hr; [|done]. by destruct Hr as (_ & _ & ?).
Qed.
Lemma looks_total {A} f (m : Op A) : quiet m -> (forall c' k w, exists a, (m c' k w).1.1 = Ok a) -> looks m (fun _ => True) f.
Proof.
  intros Hq Ht. apply looks_quiet; [done|]. intros w _ _ _ _ k. destruct (Ht c k w) as [a Ha].
  destruct (m c k w) as [[r k'] w']. cbn in Ha. by subst.
Qed.
Lemma looks_change f g : looks (change g) (fun _ => True) f.
Proof. apply looks_total; [apply quiet_change|]. by exists tt. Qed.
Lemma looks_emit f p : looks (emit p) (fun _ => True) f.
Proof.
  apply looks_total; [apply quiet_emit|]. intros c' k w. exists tt. unfold emit, throughput_snapshot.
  by destruct (decide (p <> Advanced)).
Qed.
Ltac progress_steps :=
  (eapply looks_bind; [apply looks_check|]; intros [] _);
  (eapply looks_bind; [apply looks_change|]; intros [] _);
  (eapply looks_bind; [apply looks_emit|]; intros [] _); apply looks_check.
Lemma looks_advance f m : looks (advance m) (fun _ => True) f.
Proof. progress_steps. Qed.
Lemma looks_finish f : looks finish_current_item (fun _ => True) f.
Proof. progress_steps. Qed.
Lemma looks_complete f : looks complete (fun _ => True) f.
Proof. progress_steps. Qed.
Lemma looks_lstat f p s : shape_at f p = Some s ->
  looks (or_io p (symlink_metadata p)) (fun m => m_is_dir m = bool_decide (s = ShDir)) f.
Proof.
  intros Hs. apply looks_stills; [apply quiet_or_io, quiet_look|]. intros w <- _.
  eapply stills_or_io, stills_weaken; [by apply stills_lstat|]. intros [m|e]; [|done]. cbn.
  intros [_ Hm]. rewrite (seen_dir _ _ _ _ Hm). by destruct s.
Qed.
Definition lock_excuse (f : Fs) (p : FPath) : Prop := forall q, under p q -> locked_at f q -> T.
Lemma looks_unlocked f p a : wf f -> is_Some (shape_at f p) -> lock_excuse f p ->
  looks (ensure_unlocked_tree p a) (fun _ => True) f.
Proof. intros Hf Hp HT. apply looks_stills; [apply quiet_unlocked_tree|]. intros w <- _. by apply stills_unlocked_tree. Qed.
Lemma looks_source f p s : shape_at f p = Some s -> looks (ensure_source_exists p) (fun _ => True) f.
Proof. intros Hs. apply looks_stills; [apply quiet_source|]. intros w <- _. by eapply stills_source. Qed.

(** ** Removing an entry *)
(** Nothing at [p] and below is left, the rest is as it was. *)
Definition gone (p : FPath) (f f' : Fs) : Prop :=
  wf f' /\ (forall q, shape_at f' q = if decide (under p q) then None else shape_at f q) /\ changes nowhere (under p) f f'.
(** A removal that failed took nothing but what it was to take. *)
Definition crumbled (p : FPath) (f f' : Fs) : Prop := wf f' /\ changes nowhere (under p) f f'.

Lemma cut_gone f p : wf f -> p <> [] -> gone p f (prune (fun q => ~ under p q) f).
Proof.
  intros Hf Hp. split; [by apply wf_cut|]. split.
  - intros q. rewrite shape_at_prune. destruct (decide (under p q)); [by rewrite decide_False by tauto|by rewrite decide_True].
  - apply changes_prune; [apply changes_refl|]. intros q Hq. right. by apply dec_stable.
Qed.
Lemma leaf_gone f p s : wf f -> shape_at f p = Some s -> s <> ShDir -> gone p f (prune (fun q => q <> p) f).
Proof.
  intros Hf Hs Hn. split; [|split].
  - apply wf_prune; [done| |].
    + intros <-. rewrite (wf_root f Hf) in Hs. congruence.
    + intros q n _ Hi ->. apply (wf_parent f Hf) in Hi. congruence.
  - intros q. rewrite shape_at_prune. destruct (decide (under p q)) as [Hu|Hu].
    + destruct (decide (q = p)) as [->|Hq]; [by rewrite decide_False by (intros E; by apply E)|].
      rewrite decide_True by done. apply shape_at_None; [done|]. eapply (wf_leaf f p q s); [done..|congruence].
    + rewrite decide_True; [done|]. intros ->. by apply Hu, under_refl.
  - apply changes_prune; [apply changes_refl|]. intros q Hq. apply dec_stable in Hq as ->. right. apply under_refl.
Qed.
Lemma yields_remove_dir f p : wf f -> p <> [] -> shape_at f p = Some ShDir ->
  yields (eq f) (or_io p (remove_dir_all p)) (fun _ => gone p f) (fun _ f' => T /\ crumbled p f f').
Proof.
  intros Hf Hp Hs w Hfair Ho Hl ->.
  assert (Hk : keeps (X := OpState) c nowhere (under p) (fsys w) (or_io p (remove_dir_all p)) (fun _ => True)).
  { apply keeps_or_io_any, keeps_remove_dir_all. intros q Hq. by right. }
  pose proof (does_or_io c T w p (remove_dir_all p) (fun _ w' => fsys w' = prune (fun q => ~ under p q) (fsys w))) as Hd.
  eapply ens_weaken; [apply ens_and; [by apply (Hk w Ho (conj Hf (changes_refl _ _ _)))|apply Hd; [|exact Hfair]]|].
  - eapply does_weaken; [by apply does_remove_dir_all|]. intros [[]|e] w1; [|done]. by intros [_ ->].
  - intros [a|e] w1 [(Hk1 & [Hf1 Hc1] & _) Hr]; (split; [done|]); [|by split].
    destruct Hr as [_ ->]. by apply cut_gone.
Qed.
Lemma yields_remove_leaf f p s : wf f -> shape_at f p = Some s -> s <> ShDir ->
  yields (eq f) (or_io p (remove_file p)) (fun _ => gone p f) (fun _ f' => T /\ f = f').
Proof.
  intros Hf Hs Hn. apply yields_or_io, yields_sys; [by intros f' e <-|].
  intros f' cl <-. rewrite Hs. pose proof (leaf_gone f p s Hf Hs Hn). by destruct s.
Qed.
Lemma yields_untracked f p s : wf f -> p <> [] -> shape_at f p = Some s ->
  yields (eq f) (delete_path_untracked p) (fun _ => gone p f) (fun _ f' => T /\ crumbled p f f').
Proof.
  intros Hf Hp Hs. assert (HE : forall e : GfmError, T -> T /\ crumbled p f f) by (intros _ HT; split; [done|]; split; [done|apply changes_refl]).
  unfold delete_path_untracked. eapply looks_then; [by apply (looks_lstat f p s)| |exact HE]. intros m ->.
  case_bool_decide as Hd.
  - subst. by apply yields_remove_dir.
  - eapply yields_weaken; [by apply (yields_remove_leaf f p s)|done|done|]. intros e f' [HT <-]. by apply (HE e).
Qed.

(** ** The row that goes with it *)
Definition tracked (mp : option FPath) (t : TrashTable) (f : Fs) : Prop :=
  match mp with Some m => tabled m t f | None => True end.
(** The paths of the metadata file and its temporaries; the file alone; and that
    it is not below [p]. *)
Definition meta (mp : option FPath) (q : FPath) : Prop := exists m, mp = Some m /\ touches m q.
Definition meta_own (mp : option FPath) (q : FPath) : Prop := mp = Some q.
Definition outside (mp : option FPath) (p : FPath) : Prop := forall m, mp = Some m -> ~ under p m.

Lemma tabled_moved m t f f' : wf f' -> tabled m t f ->
  (forall q, ~ (forall d, parent m = Some d -> q <> d) \/ touches m q -> shape_at f q = shape_at f' q) -> tabled m t f'.
Proof.
  intros Hf' ((Hf & (d & Hd & Hs) & Ht & Hm) & Hok & Htext) Hsame.
  assert (Hmm : shape_at f m = shape_at f' m) by (apply Hsame; right; by left).
  split; [|split; [done|]].
  - split; [done|]. split; [|split].
    + exists d. split; [done|]. rewrite <- Hsame; [done|]. left. intros Hx. by apply (Hx d).
    + intros n. apply shape_at_None; [done|]. rewrite <- Hsame; [by apply shape_at_None|]. right. right. by exists n.
    + by rewrite <- Hmm.
  - unfold at_text in *. by rewrite <- Hmm.
Qed.
Lemma tracked_gone mp t p f f' : tracked mp t f -> outside mp p -> gone p f f' -> tracked mp t f'.
Proof.
  destruct mp as [m|]; [|done]. intros Ht Ho (Hf' & Hs & _). specialize (Ho m eq_refl). cbn in *.
  apply (tabled_moved m t f f' Hf' Ht). pose proof Ht as ((Hf & (d & Hd & _) & Htemp & _) & _).
  intros q Hq. rewrite Hs. case_decide as Hu; [|done]. destruct Hq as [Hq|[->|[n ->]]]; [|done|by apply shape_at_None].
  exfalso. apply Hq. intros d' Hd' ->. simplify_eq. apply Ho. destruct (parent_Some _ _ Hd) as [k ->].
  eapply under_trans; [exact Hu|by exists [k]].
Qed.
Definition recorded (mp : option FPath) (t' : TrashTable) (f f' : Fs) : Prop :=
  tracked mp t' f' /\ wf f' /\ changes (meta mp) (meta_own mp) f f'.
Definition smudged (mp : option FPath) (f f' : Fs) : Prop := wf f' /\ changes (meta mp) (meta_own mp) f f'.
Lemma meta_changes m f f' : changes (touches m) (own m) f f' -> changes (meta (Some m)) (meta_own (Some m)) f f'.
Proof. intros Hc. eapply changes_weaken; [exact Hc|intros q Hq; by exists m|by intros q ->]. Qed.
Lemma updated_recorded m t f f' : updated m t f f' -> recorded (Some m) t f f'.
Proof. intros [Ht Hc]. split; [done|]. split; [by destruct Ht as ((? & _) & _)|by apply meta_changes]. Qed.
Lemma spoiled_smudged m t f f' : spoiled T m t f f' -> T /\ smudged (Some m) f f'.
Proof. intros (HT & Hf & Hc & _). split; [done|]. split; [done|by apply meta_changes]. Qed.
Lemma same_recorded t f : wf f -> recorded None t f f.
Proof. intros Hf. split; [done|]. split; [done|apply changes_refl]. Qed.

Lemma yields_forget mp p n t f : wf f -> tracked mp t f -> file_name p = Some n ->
  yields (eq f) (remove_deleted_trash_metadata mp p) (fun _ => recorded mp (delete n t) f) (fun _ f' => T /\ smudged mp f f').
Proof.
  intros Hf Ht Hn. destruct mp as [m|]; cbn [remove_deleted_trash_metadata].
  - eapply yields_weaken; [by apply (yields_remove c T m t f p n)|done| |].
    + intros ? f' Hx. by apply updated_recorded.
    + intros ? f' Hx. exact (spoiled_smudged _ _ _ _ Hx).
  - apply yields_ret. intros ? <-. by apply same_recorded.
Qed.

(** An error: only what was to be removed, and the metadata, may have changed. *)
Definition frayed (mp : option FPath) (p : FPath) (f f' : Fs) : Prop :=
  wf f' /\ changes (meta mp) (fun q => under p q \/ meta_own mp q) f f'.
(** [p] is gone, its row is gone, and nothing else has changed. *)
Definition removed (mp : option FPath) (p : FPath) (t' : TrashTable) (f f' : Fs) : Prop :=
  tracked mp t' f' /\ frayed mp p f f' /\
  forall q, ~ meta mp q -> shape_at f' q = if decide (under p q) then None else shape_at f q.
Lemma crumbled_frayed mp p f f' : crumbled p f f' -> frayed mp p f f'.
Proof. intros [Hf Hc]. split; [done|]. eapply changes_weaken; [exact Hc|by intros ? []|by left]. Qed.
Lemma gone_frayed mp p f f1 f' : gone p f f1 -> smudged mp f1 f' -> frayed mp p f f'.
Proof.
  intros (_ & _ & Hc1) [Hf' Hc]. split; [done|]. eapply changes_trans.
  - eapply changes_weaken; [exact Hc1|by intros ? []|by left].
  - eapply changes_weaken; [exact Hc|done|by right].
Qed.
Lemma meta_own_meta mp q : meta_own mp q -> meta mp q.
Proof. intros Hq. exists q. split; [done|by left]. Qed.
Lemma gone_recorded mp p t f f1 f' : gone p f f1 -> recorded mp t f1 f' -> removed mp p t f f'.
Proof.
  intros Hg Hr. pose proof Hg as (Hf1 & Hs & _). pose proof Hr as (Ht & Hf' & Hc). split; [done|].
  split; [by apply (gone_frayed mp p f f1)|]. intros q Hq. rewrite <- Hs.
  eapply changes_outside; [exact Hc|done| |done|done]. intros Ho. by apply Hq, meta_own_meta.
Qed.
Lemma recorded_smudged mp t f f' : recorded mp t f f' -> smudged mp f f'.
Proof. by intros (_ & ? & ?). Qed.

(** A removal, the forgetting of the row, and what is reported. *)
Lemma yields_removal {A} mp p n t f (m : Op A) (report : Op unit) : wf f -> tracked mp t f -> outside mp p -> file_name p = Some n ->
  yields (eq f) m (fun _ => gone p f) (fun _ f' => T /\ crumbled p f f') ->
  (forall f', looks report (fun _ => True) f') ->
  yields (eq f) (m ;; remove_deleted_trash_metadata mp p ;; report)
    (fun _ => removed mp p (delete n t) f) (fun _ f' => T /\ frayed mp p f f').
Proof.
  intros Hf Ht Ho Hn Hm Hr. eapply yields_bind.
  { eapply yields_weaken; [exact Hm|done|intros ? f' Hx; exact Hx|]. intros e f' [HT Hc]. split; [done|by apply crumbled_frayed]. }
  intros u. apply yields_at. intros f1 Hg. pose proof Hg as (Hf1 & _).
  eapply yields_bind with (J := fun _ => recorded mp (delete n t) f1).
  { eapply yields_weaken; [apply (yields_forget mp p n t f1); [done|by eapply tracked_gone|done]|done|done|].
    intros e f' [HT Hc]. split; [done|]. by eapply gone_frayed. }
  intros []. apply yields_at. intros f2 Hrec. eapply yields_weaken; [apply Hr|done| |].
  - intros [] f' [_ <-]. by eapply gone_recorded.
  - intros e f' [HT <-]. split; [done|]. eapply gone_frayed; [done|]. by eapply recorded_smudged.
Qed.
Lemma frayed_same mp p f : wf f -> frayed mp p f f.
Proof. intros Hf. split; [done|apply changes_refl]. Qed.
Lemma yields_delete mp p n t f : wf f -> p <> [] -> is_Some (shape_at f p) -> lock_excuse f p ->
  tracked mp t f -> outside mp p -> file_name p = Some n ->
  yields (eq f) (delete_path p mp) (fun _ => removed mp p (delete n t) f) (fun _ f' => T /\ frayed mp p f f').
Proof.
  intros Hf Hp [s Hs] HT Ht Ho Hn. unfold delete_path.
  assert (HE : forall e : GfmError, T -> T /\ frayed mp p f f) by (intros; split; [done|by apply frayed_same]).
  eapply looks_then; [apply looks_check| |exact HE]. intros [] _.
  eapply looks_then; [apply looks_unlocked; [done|by eexists|done]| |exact HE]. intros [] _.
  eapply looks_then; [by apply (looks_lstat f p s)| |exact HE]. intros m ->. case_bool_decide as Hd.
  - subst. apply yields_removal; [done..|by apply yields_remove_dir|apply looks_complete].
  - apply yields_removal; [done..| |intros f'; apply looks_advance].
    eapply yields_weaken; [by apply (yields_remove_leaf f p s)|done|done|]. intros e f' [HT' <-].
    split; [done|]. split; [done|apply changes_refl].
Qed.
Lemma yields_trash_child mp p n t f : wf f -> p <> [] -> is_Some (shape_at f p) ->
  tracked mp t f -> outside mp p -> file_name p = Some n ->
  yields (eq f) (delete_trash_child p mp) (fun _ => removed mp p (delete n t) f) (fun _ f' => T /\ frayed mp p f f').
Proof.
  intros Hf Hp [s Hs] Ht Ho Hn. unfold delete_trash_child.
  assert (HE : forall e : GfmError, T -> T /\ frayed mp p f f) by (intros; split; [done|by apply frayed_same]).
  eapply looks_then; [apply looks_check| |exact HE]. intros [] _.
  eapply looks_then; [by apply (looks_lstat f p s)| |exact HE]. intros m ->.
  apply yields_removal; [done..|by apply (yields_untracked f p s)|]. intros f'. case_bool_decide; [apply looks_finish|apply looks_advance].
Qed.

(** ** Emptying the trash *)
Lemma meta_outside mp t p f q : tracked mp t f -> outside mp p -> is_Some (shape_at f p) -> meta mp q -> ~ under p q.
Proof.
  intros Ht Ho [s Hs] (m & -> & [->|[n ->]]) Hu; [by apply (Ho m)|].
  pose proof Ht as ((Hf & (d & Hd & _) & Hfree & _) & _). destruct (trash_sibling m n d Hd) as (Hpar & _ & _).
  destruct (under_cases p _ Hu) as [E|[k Hk]].
  - apply shape_at_names in Hs. rewrite <- E, Hfree in Hs. by destruct Hs.
  - apply (Ho m eq_refl). destruct (parent_Some _ _ Hpar) as [a Ea]. destruct (parent_Some _ _ Hd) as [b ->].
    eapply under_trans with (q := d); [|by exists [b]]. destruct Hk as [rel Hk]. rewrite Ea in Hk. unfold FileSystem.join in Hk.
    destruct rel as [|x rel _] using rev_ind.
    + rewrite app_nil_r in Hk. apply app_inj_tail in Hk as [-> _]. apply under_refl.
    + rewrite app_assoc in Hk. apply app_inj_tail in Hk as [-> _]. exists ([k] ++ rel). by rewrite app_assoc.
Qed.
Definition plain_rows (t : TrashTable) : Prop := map_Forall (fun k _ => simple_name k) t.
(** The children [l] of [p] are still there, the others are gone. *)
Definition emptying (mp : option FPath) (p : FPath) (f : Fs) (l : list string) (f' : Fs) : Prop :=
  (exists t, plain_rows t /\ tracked mp t f') /\ frayed mp p f f' /\
  forall q, ~ meta mp q -> shape_at f' q =
    match below p q with Some (n :: _) => if decide (n ∈ l) then shape_at f q else None | _ => shape_at f q end.
Lemma emptying_frayed mp p f l f' : emptying mp p f l f' -> frayed mp p f f'.
Proof. by intros (_ & ? & _). Qed.
Lemma frayed_trans mp p p' f f1 f' : frayed mp p f f1 -> frayed mp p' f1 f' -> under p p' -> frayed mp p f f'.
Proof.
  intros [_ Hc1] [Hf' Hc] Hu. split; [done|]. eapply changes_trans; [exact Hc1|].
  eapply changes_weaken; [exact Hc|done|]. intros q [Hq|Hq]; [left; by eapply under_trans|by right].
Qed.
Lemma emptying_step mp p f n l f1 f' t : n ∉ l ->
  emptying mp p f (n :: l) f1 -> plain_rows t -> removed mp (join p n) t f1 f' -> emptying mp p f l f'.
Proof.
  intros Hn (_ & Hfr & Hs) Hp (Ht & Hfr' & Hs'). split; [by exists t|]. split.
  { eapply frayed_trans; [done|done|]. by exists [n]. }
  intros q Hq. rewrite Hs' by done. destruct (below p q) as [[|k rel]|] eqn:E.
  - apply below_Some in E as ->. rewrite app_nil_r in *. rewrite decide_False.
    2:{ intros Hu. apply (under_antisym _ p) in Hu; [|by exists [n]]. apply (f_equal length) in Hu. unfold join in Hu. rewrite length_app in Hu. cbn in Hu. lia. }
    rewrite Hs by done. by rewrite below_self.
  - apply below_Some in E as ->. destruct (decide (k = n)) as [->|Hkn].
    + rewrite decide_True by (exists rel; unfold join; by rewrite <- app_assoc). by rewrite decide_False.
    + rewrite decide_False.
      2:{ intros [rel' Hu]. unfold join in Hu. rewrite <- app_assoc in Hu. apply app_inv_head in Hu. cbn in Hu. congruence. }
      rewrite Hs by done. rewrite below_app. destruct (decide (k ∈ l)); [by rewrite decide_True by set_solver|].
      by rewrite decide_False by set_solver.
  - rewrite decide_False by (intros Hu%under_join; unfold below in E; by rewrite decide_True in E).
    rewrite Hs by done. by rewrite E.
Qed.
Lemma emptying_start mp p t f : wf f -> plain_rows t -> tracked mp t f -> emptying mp p f (children f p) f.
Proof.
  intros Hf Hp Ht. split; [by exists t|]. split; [by apply frayed_same|]. intros q _.
  destruct (below p q) as [[|n rel]|] eqn:E; [done| |done]. case_decide as Hn; [done|].
  apply shape_at_None; [done|]. apply below_Some in E as ->. apply eq_None_not_Some. intros Hi. apply Hn, children_elem.
  destruct rel as [|m rel]; [done|]. change (n :: m :: rel) with ([n] ++ m :: rel) in Hi. rewrite app_assoc in Hi.
  apply (wf_above f _ _ Hf) in Hi; [|done]. by eapply shape_at_names.
Qed.
Lemma child_ready mp p t f n l f1 : emptying mp p f (n :: l) f1 -> outside mp p -> tracked mp t f ->
  is_Some (shape_at f p) -> is_Some (shape_at f (join p n)) ->
  is_Some (shape_at f1 (join p n)) /\ outside mp (join p n) /\ join p n <> [] /\ file_name (join p n) = Some n.
Proof.
  intros (_ & _ & Hs) Ho Ht Hp Hn.
  assert (Hm : ~ meta mp (join p n)). { intros Hm. apply (meta_outside mp t p f _ Ht Ho Hp Hm). by exists [n]. }
  split.
  - rewrite Hs by done. unfold join. rewrite below_app, decide_True by set_solver. exact Hn.
  - split; [intros m Hm' Hu; apply (Ho m Hm'); by eapply under_join|].
    split; [by destruct p|]. unfold file_name, join. by rewrite last_snoc.
Qed.
Lemma yields_children mp p t f l : wf f -> outside mp p -> tracked mp t f -> is_Some (shape_at f p) ->
  NoDup l -> (forall n, n ∈ l -> is_Some (shape_at f (join p n))) ->
  yields (emptying mp p f l) (mfor (fun _ n => delete_trash_child (join p n) mp) tt l)
    (fun _ => emptying mp p f []) (fun _ f' => T /\ frayed mp p f f').
Proof.
  intros Hf Ho Ht Hp. induction l as [|n l IH]; intros Hd Hl; simpl mfor; [by apply yields_ret|].
  inversion Hd as [|? ? Hn Hd']; subst. eapply yields_bind with (J := fun _ => emptying mp p f l).
  - apply yields_at. intros f1 He. pose proof He as ((t1 & Hp1 & Ht1) & [Hf1 _] & _).
    destruct (child_ready mp p t f n l f1 He Ho Ht Hp (Hl n ltac:(left))) as (Hs1 & Ho1 & Hne & Hname).
    eapply yields_weaken; [by apply (yields_trash_child mp (join p n) n t1 f1)|done| |].
    + intros [] f' Hr. eapply emptying_step; [done|done| |exact Hr]. by apply map_Forall_delete.
    + intros e f' [HT Hfr]. split; [done|]. eapply frayed_trans; [by eapply emptying_frayed|done|]. by exists [n].
  - intros []. apply IH; [done|]. intros m Hm. apply Hl. by right.
Qed.
(** Nothing is left in the trash, in the file no row, and nothing else has changed. *)
Definition emptied (mp : option FPath) (p : FPath) (f f' : Fs) : Prop :=
  tracked mp ∅ f' /\ frayed mp p f f' /\
  forall q, ~ meta mp q -> shape_at f' q = if decide (under p q /\ q <> p) then None else shape_at f q.
Lemma emptying_all mp p f f1 f' : emptying mp p f [] f1 -> recorded mp ∅ f1 f' -> emptied mp p f f'.
Proof.
  intros (_ & Hfr & Hs) (Ht & Hf' & Hc). pose proof Hfr as [Hf1 _]. split; [done|]. split.
  { eapply frayed_trans; [exact Hfr| |apply under_refl]. split; [done|]. eapply changes_weaken; [exact Hc|done|by right]. }
  intros q Hq. rewrite (changes_outside _ _ _ _ Hc q Hq); [|intros Ho; by apply Hq, meta_own_meta|done|done].
  rewrite Hs by done. destruct (below p q) as [[|n rel]|] eqn:E.
  - apply below_Some in E as ->. rewrite app_nil_r. by rewrite decide_False by tauto.
  - apply below_Some in E as ->. rewrite decide_False by set_solver. rewrite decide_True; [done|].
    split; [apply under_app|]. intros E%app_self_nil. done.
  - rewrite decide_False; [done|]. intros [Hu _]. unfold below in E. by rewrite decide_True in E.
Qed.
Lemma looks_children f p : wf f -> shape_at f p = Some ShDir -> looks (sorted_children p) (fun ns => ns ≡ₚ children f p) f.
Proof. intros Hf Hs. apply looks_stills; [apply quiet_children|]. intros w <- _. by apply stills_sorted_children. Qed.
Lemma yields_final_reconcile mp p t f f1 : tracked mp t f -> outside mp p -> shape_at f p = Some ShDir -> emptying mp p f [] f1 ->
  yields (eq f1) (reconcile_empty_trash_metadata_checked mp p) (fun _ => recorded mp ∅ f1) (fun _ f' => T /\ smudged mp f1 f').
Proof.
  intros Ht0 Ho Hs ((t1 & Hp1 & Ht1) & [Hf1 _] & Hs1). destruct mp as [m|]; [|by apply yields_ret; intros ? <-; apply same_recorded].
  assert (Hm : forall q, under p q -> ~ meta (Some m) q) by (intros q Hu Hq; by apply (meta_outside _ t p f q Ht0 Ho ltac:(by eexists) Hq)).
  assert (Hd : shape_at f1 p = Some ShDir). { rewrite Hs1 by apply Hm, under_refl. by rewrite below_self. }
  eapply yields_weaken; [by apply (yields_reconcile c T m t1 f1 p)|done| |].
  - intros ? f' Hx. apply updated_recorded. replace (∅ : TrashTable) with (reconciled f1 p t1); [exact Hx|].
    apply map_eq. intros k. rewrite lookup_empty. apply map_lookup_filter_None. right. intros x _ [s Hin]. cbn in Hin.
    rewrite Hs1 in Hin by (apply Hm; by exists [k]). unfold join in Hin. rewrite below_app in Hin. by rewrite decide_False in Hin by set_solver.
  - intros ? f' Hx. exact (spoiled_smudged _ _ _ _ Hx).
Qed.
Lemma yields_empty mp p t f : wf f -> shape_at f p = Some ShDir -> lock_excuse f p ->
  plain_rows t -> tracked mp t f -> outside mp p ->
  yields (eq f) (empty_trash_path p mp) (fun _ => emptied mp p f) (fun _ f' => T /\ frayed mp p f f').
Proof.
  intros Hf Hs HT Hp Ht Ho. assert (HE : forall e : GfmError, T -> T /\ frayed mp p f f) by (intros; split; [done|by apply frayed_same]).
  unfold empty_trash_path. eapply looks_then; [apply looks_check| |exact HE]. intros [] _.
  eapply looks_then; [by apply (looks_lstat f p ShDir)| |exact HE]. intros m ->. rewrite bool_decide_true by done. cbn [negb].
  eapply looks_then; [apply looks_unlocked; [done|by eexists|done]| |exact HE]. intros [] _.
  eapply looks_then; [by apply looks_children| |exact HE]. intros ns Hns.
  eapply yields_bind with (J := fun _ => emptying mp p f []).
  { eapply yields_pre; [|apply (yields_children mp p t f ns Hf Ho Ht ltac:(by eexists))]; [|by rewrite Hns; apply children_NoDup|].
    - intros ? <-. destruct (emptying_start mp p t f Hf Hp Ht) as (He1 & He2 & He3). split; [done|]. split; [done|].
      intros q Hq. rewrite He3 by done. destruct (below p q) as [[|n rel]|]; [done| |done].
      destruct (decide (n ∈ children f p)); [by rewrite decide_True by by rewrite Hns|by rewrite decide_False by by rewrite Hns].
    - intros n Hn. apply wf_shape, children_elem; [done|]. by rewrite <- Hns. }
  intros []. apply yields_at. intros f1 He. eapply yields_bind with (J := fun _ => recorded mp ∅ f1).
  { eapply yields_weaken; [by apply (yields_final_reconcile mp p t f)|done|done|].
    intros e f' [HT' [Hf' Hc]]. split; [done|]. eapply frayed_trans; [by eapply emptying_frayed| |apply under_refl].
    split; [done|]. eapply changes_weaken; [exact Hc|done|by right]. }
  intros []. apply yields_at. intros f2 Hr. pose proof (emptying_all mp p f f1 f2 He Hr) as Hem.
  eapply yields_weaken; [apply looks_complete|done|by intros [] f' [_ <-]|]. intros e f' [HT' <-]. split; [done|]. apply Hem.
Qed.
End Removing.

(** ** The theorems *)
(** What may stop an operation on [p] that has something to work on. *)
Definition stopped `{Platform, Libc} (c : Control) (w : OW) (p : FPath) : Prop :=
  trouble c w \/ exists q, under p q /\ locked_at (fsys w) q.

(** C25: A change of a readable trash table that returns [Ok] has made that change to
    the table in the file: a row added for a trashed item, the row of an item deleted or
    restored removed, the rows of items no longer in the trash directory removed (it is
    there, and the rows have plain names). A row to add has a name that does not begin
    with [#] (that row is read back as a comment: hash_name_forgotten), a time of at
    most 128 bits, and no empty issue text. Whatever fails (no call is answered that
    something is not there when it is, the clock shows at most 128 bits) and whenever it
    is cancelled, the file has the old table or the new one; an error means that a poll
    or a call has failed or read short; and no entry but the table and its temporaries
    has come, gone or changed its kind, contents or link target. *)
Theorem trash_table_spec `{Platform, Process} c (w w' : OW) p t (change : Op unit) t' r :
  honest w -> timely w -> tabled p t (fsys w) ->
  (exists m, change = append_trash_metadata_entry_checked p m /\ row_ok m /\ t' = <[tm_name m := m]> t) \/
  (exists q n, change = remove_trash_metadata_checked p q /\ file_name q = Some n /\ t' = delete n t) \/
  (exists dir, change = reconcile_empty_trash_metadata_checked (Some p) dir /\ shape_at (fsys w) dir = Some ShDir /\
     plain_rows t /\ t' = reconciled (fsys w) dir t) ->
  run change c w = (r, w') ->
  match r with
  | Ok _ => tabled p t' (fsys w')
  | Err _ => trouble c w /\ (shape_at (fsys w') p = shape_at (fsys w) p \/ at_text (fsys w') p (table_text t'))
  end /\ forall q, ~ touches p q -> shape_at (fsys w') q = shape_at (fsys w) q.
Proof.
  intros Ho Hl Ht Hch Hrun. pose proof Ht as ((Hf & _) & _).
  assert (Hy : yields (X := OpState) c (trouble c w) (eq (fsys w)) change (fun _ => updated p t' (fsys w)) (fun _ => spoiled (trouble c w) p t' (fsys w))).
  { destruct Hch as [(m & -> & Hm & ->)|[(q & n & -> & Hn & ->)|(dir & -> & Hd & Hp & ->)]].
    - by apply yields_append_entry.
    - by apply yields_remove.
    - by apply yields_reconcile. }
  pose proof (yields_run c (trouble c w) _ _ _ _ w r w' Hy (fun x => x) Ho Hl eq_refl Hrun) as Hr.
  assert (Hcase : forall q f', wf f' -> changes (touches p) (own p) (fsys w) f' -> ~ touches p q -> shape_at f' q = shape_at (fsys w) q).
  { intros q f' Hf' Hc Hq. eapply changes_outside; [exact Hc|done|intros ->; apply Hq; by left|done|done]. }
  destruct r as [[]|e]; [destruct Hr as [Ht' Hc]|destruct Hr as (HT & Hf' & Hc & Hs)].
  - split; [done|]. intros q Hq. apply Hcase; [by destruct Ht' as ((? & _) & _)|done|done].
  - split; [done|]. intros q Hq. by apply Hcase.
Qed.

(** What is read is the table that is in the file: reading gives back what was
    written, whatever the table. *)
Theorem trash_read_back `{Platform, Process} c (w w1 w2 : OW) p t t' r r' :
  honest w -> timely w -> tabled p t (fsys w) -> table_ok t' ->
  run (write_trash_metadata_checked p (values t')) c w = (Ok r, w1) ->
  run (read_trash_metadata_checked p) c w1 = (r', w2) ->
  fsys w2 = fsys w1 /\ match r' with Ok table => table = t' | Err _ => trouble c w end.
Proof.
  intros Ho Hl Ht Ht' Hrun Hrun'.
  pose proof (ens_run c w _ _ _ _ (yields_write_table c (trouble c w) p t t' (fsys w) Ht Ht' w (fun x => x) Ho Hl eq_refl) Hrun) as (Hk & Htab & _).
  pose proof (yields_run c (trouble c w) _ _ _ _ w1 r' w2 (looks_read c (trouble c w) p t' (fsys w1) Htab) (fun x => trouble_kin c w w1 Hk x)
    (honest_kin w w1 Hk Ho) (timely_kin w w1 Hk Hl) eq_refl Hrun') as Hr.
  destruct r' as [table|e]; by destruct Hr as [? ->].
Qed.

Section Theorems.
Context `{Platform, Libc, AttrCalls, Cloning, Packages, !CloneLaws, Process, TrashCan}.

(** C24: A deletion, of anything there but the root and with the trash table, if any,
    readable and not in what is deleted (no call is answered that something is not there
    when it is, the clock shows at most 128 bits), that returns [Ok] has removed the
    item, all below it and its row in the trash table, and changed nothing else; it
    returns an error only when a poll or a call fails or an item is locked, and then
    only what was to be deleted, and the table, can have changed. *)
Theorem delete_spec c (w w' : OW) p n mp t r :
  wf (fsys w) -> honest w -> timely w -> p <> [] -> is_Some (shape_at (fsys w) p) -> file_name p = Some n ->
  tracked mp t (fsys w) -> outside mp p ->
  run (delete_path p mp) c w = (r, w') ->
  match r with
  | Ok _ => removed mp p (delete n t) (fsys w) (fsys w')
  | Err _ => stopped c w p /\ frayed mp p (fsys w) (fsys w')
  end.
Proof.
  intros Hf Ho Hl Hp Hs Hn Ht Hout Hrun.
  apply (yields_run c (stopped c w p) _ _ _ _ w r w'
    (yields_delete c (stopped c w p) mp p n t (fsys w) Hf Hp Hs (fun q Hu Hq => or_intror (ex_intro _ q (conj Hu Hq))) Ht Hout Hn)); [|done..].
  by left.
Qed.

(** Emptying the trash leaves its directory, nothing in it, and an empty table; the
    rest of the tree is as it was.  It fails only when a poll or a call fails or an
    item is locked, and then nothing outside the trash but the table can have
    changed. *)
Theorem empty_trash_spec c (w w' : OW) p mp t r :
  wf (fsys w) -> honest w -> timely w -> shape_at (fsys w) p = Some ShDir ->
  tracked mp t (fsys w) -> plain_rows t -> outside mp p ->
  run (empty_trash_path p mp) c w = (r, w') ->
  match r with
  | Ok _ => emptied mp p (fsys w) (fsys w')
  | Err _ => stopped c w p /\ frayed mp p (fsys w) (fsys w')
  end.
Proof.
  intros Hf Ho Hl Hs Ht Hp Hout Hrun.
  apply (yields_run c (stopped c w p) _ _ _ _ w r w'
    (yields_empty c (stopped c w p) mp p t (fsys w) Hf Hs (fun q Hu Hq => or_intror (ex_intro _ q (conj Hu Hq))) Hp Ht Hout)); [|done..].
  by left.
Qed.
End Theorems.
