(* ===== verification/MoveFrame.v ===== *)
(** * Moving and removing: what they leave alone

    Whatever fails and whenever it is stopped, a move, a removal or a restoring
    changes or removes only what it was asked to, adds entries only near its
    destination, and does nothing else but keep the trash table. *)
From S2P Require Import Prelude Types Text Control FileSystem FileFacts TextFiles TrashMeta TrashSpec OpModel OpTree Preserve Copy CopyFrame Relocate Removal Replacing CopyPath RemovalSpec.
#[local] Open Scope list_scope.

(** [trash::delete] takes the item away, and makes entries somewhere. *)
Class TrashLaws `{TrashCan} : Prop := {
  trash_delete_frame p cl f : wf f -> wf (trash_delete p cl f).2 /\ changes everywhere (under p) f (trash_delete p cl f).2
}.

Section Moves.
Context `{Platform, Libc, AttrCalls, Cloning, Packages, !CloneLaws}.
Context (c : Control) (A D : FPath -> Prop) (f0 : Fs) (from to : FPath).
Abbreviation keeps := (keeps (X := OpState) c A D f0).
Abbreviation anything := (fun _ => True).
Hypothesis Hnear : forall q, near to q -> A q.
Hypothesis Hfrom : removable D f0 from.
#[local] Hint Resolve keeps_change keeps_or_io_any keeps_symlink_metadata keeps_source keeps_unlocked_path keeps_unlocked_tree
  keeps_complete keeps_delete keeps_exists_any keeps_is : keeps.

Lemma keeps_copies conflict v policy resuming : (conflict = Replace -> removable D f0 to) ->
  keeps (copy_path from to conflict v policy resuming) anything.
Proof. intros Hr. unfold copy_path. eapply keeps_bind; [apply keeps_change|]. intros [] _. by apply keeps_copy_path. Qed.
Lemma keeps_via_copy v policy fallback : removable D f0 to ->
  keeps (move_via_copy_then_delete from to Replace v policy fallback) anything.
Proof. intros Hto. pose proof (keeps_copies Replace v policy false (fun _ => Hto)). unfold move_via_copy_then_delete. keeps_auto. Qed.
Lemma keeps_rename_or_copy v policy : removable D f0 to -> keeps (rename_or_copy from to v policy) anything.
Proof.
  intros Hto. pose proof (room_to A to Hnear) as Hroom. pose proof (keeps_create_parent c A D f0 to Hroom) as Hcp.
  pose proof (fun fb => keeps_via_copy v policy fb Hto) as Hvia.
  assert (Hr : keeps (rename from to) anything).
  { apply keeps_rename; [done|done|]. intros rel. apply Hroom. left. apply under_app. }
  unfold rename_or_copy. keeps_auto.
Qed.
Lemma keeps_same_path : keeps (same_canonical_path from to) anything.
Proof.
  unfold same_canonical_path. eapply keeps_bind; [apply keeps_look|]. intros l _. eapply keeps_bind; [apply keeps_look|].
  intros r _. by apply keeps_ret.
Qed.
Lemma keeps_replacing_test conflict a b : keeps a anything -> keeps b anything ->
  keeps (replacing conflict a b) (fun b => b = true -> conflict = Replace).
Proof.
  intros Ha Hb. unfold replacing. case_decide as E; [|by apply keeps_ret].
  eapply keeps_weaken with (P := anything); [|done]. keeps_auto.
Qed.
(** A move that is not resumed, or whose destination may go. *)
Lemma keeps_move conflict v policy resuming :
  (conflict = Replace \/ resuming = true -> removable D f0 to) ->
  keeps (move_path from to conflict v policy resuming) anything.
Proof.
  intros Hto. pose proof keeps_same_path as Hsame.
  assert (Hroc : conflict = Replace -> keeps (rename_or_copy from to v policy) anything)
    by (intros Hc; apply keeps_rename_or_copy, Hto; by left).
  unfold move_path. do 3 keeps_step.
  eapply keeps_bind with (P := fun b => b = true -> resuming = true).
  { destruct resuming; [|by apply keeps_ret]. eapply keeps_weaken; [apply keeps_exists_any|done]. }
  intros [|] Hres.
  { assert (Hr : removable D f0 to) by (apply Hto; right; auto).
    pose proof (keeps_copies Replace v policy true (fun _ => Hr)). keeps_auto. }
  eapply keeps_bind with (P := anything); [case_decide; [apply keeps_exists_any|by apply keeps_ret]|]. intros [|] _.
  { pose proof (keeps_copies Merge v policy false ltac:(done)). keeps_auto. }
  eapply keeps_bind; [apply keeps_replacing_test; apply keeps_is|]. intros [|] E1.
  { specialize (Hroc (E1 eq_refl)). unfold move_file_replacing_existing. keeps_auto. }
  eapply keeps_bind; [apply keeps_replacing_test; apply keeps_is|]. intros [|] E2.
  { specialize (Hroc (E2 eq_refl)). unfold move_symlink_replacing_existing. keeps_auto. }
  eapply keeps_bind; [apply keeps_replacing_test; apply keeps_is|]. intros [|] E3.
  { specialize (Hroc (E3 eq_refl)). unfold move_directory_replacing_existing. keeps_auto. }
  eapply keeps_bind; [apply keeps_prepare; auto|]. intros [] Hrem. by apply keeps_rename_or_copy.
Qed.
End Moves.

(** ** What an operation leaves *)
Section Leaves.
Context `{Platform, Libc, AttrCalls, Cloning, Packages, !CloneLaws, Process}.
Context (c : Control).
Abbreviation yields := (yields (X := OpState) c True).
(** Only what satisfies [D] is changed or removed. *)
Definition leaves {B} (D : FPath -> Prop) (m : Op B) (f : Fs) : Prop :=
  yields (eq f) m (fun _ => inv everywhere D f) (fun _ => inv everywhere D f).

Lemma inv_same A D f : wf f -> inv A D f f.
Proof. intros Hf. split; [done|apply changes_refl]. Qed.
Lemma inv_trans D f f1 f' : inv everywhere D f f1 -> inv everywhere D f1 f' -> inv everywhere D f f'.
Proof. intros [_ Hc1] [Hf' Hc2]. split; [done|by eapply changes_trans]. Qed.
Lemma inv_wider A D D' f f' : (forall q, D q -> D' q) -> inv A D f f' -> inv everywhere D' f f'.
Proof. intros HD [Hf' Hc]. split; [done|]. by eapply changes_weaken. Qed.
Lemma leaves_keeps {B} A D D' f (m : Op B) P : wf f -> keeps c A D f m P -> (forall q, D q -> D' q) -> leaves D' m f.
Proof.
  intros Hf Hm HD. eapply yields_pre; [|eapply yields_keeps; [exact Hm| |]]; [intros ? <-; by apply inv_same|..];
    intros; by eapply inv_wider.
Qed.
Lemma yields_same {B} f (m : Op B) : quiet m -> yields (eq f) m (fun _ => eq f) (fun _ => eq f).
Proof.
  intros Hq w _ Ho Hl Hw k. destruct (Hq c k w) as [Hk Hf]. destruct (m c k w) as [[r k'] w']; cbn in *.
  split; [done|]. destruct r; congruence.
Qed.
Lemma leaves_quiet {B} D f (m : Op B) : wf f -> quiet m -> leaves D m f.
Proof. intros Hf Hq. eapply yields_weaken; [by apply yields_same|done|..]; intros ?? <-; by apply inv_same. Qed.
Lemma leaves_after {A B} D f (m : Op A) (k : A -> Op B) : wf f -> quiet m -> (forall a, leaves D (k a) f) -> leaves D (mbind m k) f.
Proof.
  intros Hf Hq Hk. eapply yields_bind; [|intros a; apply (Hk a)].
  eapply yields_weaken; [by apply yields_same|done|done|]. intros ?? <-. by apply inv_same.
Qed.
Lemma leaves_then {A B} D f (m : Op A) (k : A -> Op B) : leaves D m f ->
  (forall a f', inv everywhere D f f' -> leaves D (k a) f') -> leaves D (mbind m k) f.
Proof.
  intros Hm Hk. eapply yields_bind; [exact Hm|]. intros a. apply yields_at. intros f' Hf'.
  eapply yields_weaken; [by apply Hk|done|..]; intros; by eapply inv_trans.
Qed.
(** Nothing is there. *)
Lemma yields_absent {B} f p (k : Metadata -> Op B) J : shape_at f p = None ->
  yields (eq f) (m <- or_io p (symlink_metadata p) ; k m) J (fun _ => eq f).
Proof.
  intros Hs. eapply yields_bind with (J := fun _ _ => False); [|intros a w ??? []].
  apply yields_or_io. eapply yields_weaken; [apply yields_look|done| |].
  - intros r f' [<- [[cl ->]|(e & -> & _)]]; [|done]. unfold stat, shape_at in *. by destruct (lookup_inode f p) as [[i n]|].
  - by intros e f' Hx; exact Hx.
Qed.
Lemma frayed_inv mp p f f' : frayed mp p f f' -> inv everywhere (fun q => under p q \/ meta_own mp q) f f'.
Proof. intros [Hf Hc]. split; [done|]. by eapply changes_weaken. Qed.
Abbreviation cleared mp p := (fun q => under p q \/ meta_own mp q).

Lemma leaves_delete mp p t f : wf f -> p <> [] -> tracked mp t f -> outside mp p -> leaves (cleared mp p) (delete_path p mp) f.
Proof.
  intros Hf Hp Ht Ho. destruct (shape_at f p) as [s|] eqn:Hs.
  - destruct (path_split p Hp) as (d & n & ->). assert (Hn : file_name (join d n) = Some n) by (unfold file_name, join; by rewrite last_snoc).
    eapply yields_weaken; [apply (yields_delete c True mp (join d n) n t f); try done; by eexists|done| |].
    + intros [] f' (_ & Hfr & _). by apply frayed_inv.
    + intros e f' [_ Hfr]. by apply frayed_inv.
  - unfold delete_path. apply leaves_after; [done|apply quiet_check|]. intros [].
    apply leaves_after; [done|apply quiet_unlocked_tree|]. intros [].
    eapply yields_weaken; [by apply yields_absent with (J := fun _ _ => False)|done|done|]. intros ?? <-. by apply inv_same.
Qed.
Lemma leaves_empty mp p t f : wf f -> tracked mp t f -> outside mp p -> plain_rows t -> leaves (cleared mp p) (empty_trash_path p mp) f.
Proof.
  intros Hf Ht Ho Hpl. destruct (decide (shape_at f p = Some ShDir)) as [Hs|Hs].
  - eapply yields_weaken; [by apply (yields_empty c True mp p t f)|done| |].
    + intros [] f' (_ & Hfr & _). by apply frayed_inv.
    + intros e f' [_ Hfr]. by apply frayed_inv.
  - unfold empty_trash_path. apply leaves_after; [done|apply quiet_check|]. intros [].
    destruct (shape_at f p) as [s|] eqn:E.
    + eapply looks_then; [by apply (looks_lstat c True f p s)| |intros e _; by apply inv_same]. intros m ->.
      rewrite bool_decide_false by congruence. cbn [negb]. by apply leaves_quiet, quiet_fail.
    + eapply yields_weaken; [by apply yields_absent with (J := fun _ _ => False)|done|done|]. intros ?? <-. by apply inv_same.
Qed.
Lemma updated_inv m t f f' : updated m t f f' -> inv everywhere (meta_own (Some m)) f f'.
Proof. intros [(Hw & _) Hc]. split; [apply Hw|]. eapply changes_weaken; [exact Hc|done|]. by intros q ->. Qed.
Lemma spoiled_inv T m t f f' : spoiled T m t f f' -> inv everywhere (meta_own (Some m)) f f'.
Proof. intros (_ & Hf & Hc & _). split; [done|]. eapply changes_weaken; [exact Hc|done|]. by intros q ->. Qed.
Lemma leaves_trash `{TrashCan, !TrashLaws} mp p n t f : wf f -> file_name p = Some n -> n <> "" -> starts_with "#" n = false ->
  tracked mp t f -> leaves (cleared mp p) (trash_path p mp) f.
Proof.
  intros Hf Hn Hne Hs Ht. unfold trash_path. apply leaves_after; [done|apply quiet_check|]. intros [].
  apply leaves_after; [done|apply quiet_source|]. intros []. apply leaves_after; [done|apply quiet_unlocked_tree|]. intros [].
  eapply leaves_then.
  - destruct mp as [m|]; [|by apply leaves_quiet]. eapply yields_weaken; [by apply (yields_append c True m t f p n)|done| |].
    + intros [] f' [now Hu]. eapply inv_wider; [|by eapply updated_inv]. by right.
    + intros e f' [now Hu]. eapply inv_wider; [|by eapply spoiled_inv]. by right.
  - intros [] f1 [Hf1 _]. eapply leaves_then; [|intros [] f2 [Hf2 _]; by apply leaves_quiet, quiet_complete].
    apply yields_or_io, yields_sys.
    + intros f' e <- _ _. by apply inv_same.
    + intros f' cl <-. destruct (trash_delete_frame p cl f1 Hf1) as [Hf2 Hc].
      assert (Hi : inv everywhere (cleared mp p) f1 (trash_delete p cl f1).2) by (split; [done|]; eapply changes_weaken; [exact Hc|done|by left]).
      by destruct (trash_delete p cl f1).1.
Qed.

(** The table outlives changes elsewhere. *)
Lemma tabled_changes m t A D f f' : tabled m t f -> wf f' -> changes A D f f' ->
  (forall q, touches m q -> ~ A q /\ ~ D q) -> (forall d, parent m = Some d -> ~ D d) -> tabled m t f'.
Proof.
  intros Ht Hf' Hc Hq Hd. pose proof Ht as ((Hf & (d & Hpar & Hs) & _) & _). apply (tabled_moved m t f f' Hf' Ht).
  intros q [Hn|Htq].
  - destruct (decide (q = d)) as [->|Hne]; [|exfalso; apply Hn; intros d' Hd'; by simplify_eq].
    rewrite Hs. symmetry. eapply changes_shape_at; [exact Hc|done|by apply Hd].
  - symmetry. destruct (Hq q Htq). by eapply changes_outside.
Qed.
(** What a move may remove. *)
Definition moved_away (conflict : ConflictPolicy) (resuming : bool) (from to q : FPath) : Prop :=
  under from q \/ ((conflict = Replace \/ resuming = true) /\ under to q).
(** The trash table is apart from what a move touches. *)
Definition aside (mp : option FPath) (conflict : ConflictPolicy) (from to : FPath) : Prop :=
  forall m, mp = Some m ->
    (forall q, touches m q -> ~ near to q /\ ~ moved_away conflict false from to q) /\
    (forall d, parent m = Some d -> ~ moved_away conflict false from to d).
Lemma keeps_moving f from to conflict v policy resuming :
  keeps (X := OpState) c (near to) (moved_away conflict resuming from to) f (move_path from to conflict v policy resuming) (fun _ => True).
Proof.
  apply keeps_move; [done|by intros q Hq; right; left|]. intros Hc q Hq. right. by right.
Qed.
Lemma leaves_restore mp from to n t f conflict policy : wf f -> file_name from = Some n -> tracked mp t f -> aside mp conflict from to ->
  leaves (fun q => moved_away conflict false from to q \/ meta_own mp q) (restore_path from to conflict policy mp) f.
Proof.
  intros Hf Hn Ht Ha. unfold restore_path. apply leaves_after; [done|apply quiet_check|]. intros [].
  eapply yields_bind with (J := fun _ => inv (near to) (moved_away conflict false from to) f).
  - eapply yields_pre; [|eapply yields_keeps; [apply (keeps_moving f)| |]].
    + intros ? <-. by apply inv_same.
    + by intros b f' Hi _.
    + intros e f' Hi. eapply inv_wider; [|exact Hi]. by left.
  - intros []. apply yields_at. intros f1 Hi.
    assert (Hi1 : inv everywhere (fun q => moved_away conflict false from to q \/ meta_own mp q) f f1) by (eapply inv_wider; [|exact Hi]; by left).
    destruct mp as [m|]; [|by apply yields_ret; intros ? <-]. destruct (Ha m eq_refl) as [Hq Hd].
    assert (Ht1 : tabled m t f1) by (destruct Hi as [Hf1 Hc]; exact (tabled_changes m t _ _ f f1 Ht Hf1 Hc Hq Hd)).
    eapply yields_weaken; [by apply (yields_remove c True m t f1 from n)|done| |].
    + intros [] f' Hu. eapply inv_trans; [exact Hi1|]. eapply inv_wider; [|by eapply updated_inv]. by right.
    + intros e f' Hu. eapply inv_trans; [exact Hi1|]. eapply inv_wider; [|exact (spoiled_inv _ _ _ _ _ Hu)]. by right.
Qed.
End Leaves.
