(* ===== verification/Moving.v ===== *)
(** * Moving: nothing is lost

    At every moment of a move, whatever fails, everything that was at the source is
    still there, or all of it is at the destination. *)
From S2P Require Import Prelude Types Text Control FileSystem FileFacts OpModel OpTree Preserve Copy CopyFrame Relocate CopyCalm CopyBytes CopySpec Replacing CopyPath.
#[local] Open Scope list_scope.

(** Every entry below [src] in [f] is below [dst] in [f']. *)
Definition arrived (f : Fs) (src : FPath) (f' : Fs) (dst : FPath) : Prop :=
  forall rel s, shape_at f (src ++ rel) = Some s -> shape_at f' (dst ++ rel) = Some s.

Lemma wf_moved_to f src dst d : wf f -> parent dst = Some d -> shape_at f d = Some ShDir -> ~ under src dst ->
  wf (moved src dst f).
Proof. intros Hf (n & ->)%parent_Some Hd Hu. by apply wf_moved. Qed.

Section Lossless.
Context `{Platform, Libc, AttrCalls, Cloning, Packages, !CloneLaws} (c : Control).
Context (f0 : Fs) (from to d : FPath) (Ha : apart from to)
  (Hpar : parent to = Some d) (Hd : shape_at f0 d = Some ShDir) (Hfrom : present from f0).

Abbreviation anything := (fun _ => True).
Abbreviation keeps0 := (keeps (X := OpState) c everywhere (under to) f0).
Abbreviation inv0 := (inv everywhere (under to) f0).

Lemma removable_to : removable (under to) f0 to.
Proof. intros q Hq. by right. Qed.
Lemma inv0_kept f : inv0 f -> arrived f0 from f from.
Proof.
  intros [_ Hc] rel s Hs. eapply changes_shape_at; [exact Hc|done|]. apply (apart_app _ _ rel Ha).
Qed.
Lemma inv0_parent f : inv0 f -> shape_at f d = Some ShDir.
Proof.
  intros [_ Hc]. eapply changes_shape_at; [exact Hc|done|]. destruct (parent_Some _ _ Hpar) as [n ->].
  intros [k Hk]. apply (f_equal length) in Hk. unfold join in Hk. rewrite !length_app in Hk. cbn in Hk. lia.
Qed.
Lemma inv0_present f : inv0 f -> present from f.
Proof.
  intros Hf. destruct Hfrom as [s Hs]. exists s. specialize (inv0_kept f Hf []) as Hk.
  rewrite !app_nil_r in Hk. by apply Hk.
Qed.
Lemma inv0_placeable f : inv0 f -> placeable Replace false to f.
Proof.
  intros Hf. pose proof (inv0_parent f Hf) as Hp. destruct Hf as [Hwf _]. destruct (names f !! to) as [i|] eqn:E.
  - right. split; [done|]. split; [done|]. apply wf_shape; [done|by exists i].
  - left. split; [done|]. split; [done|]. by exists d.
Qed.
(** Two names of one inode hold the same. *)
Lemma same_inode_arrived f i : inv0 f -> names f !! from = Some i -> names f !! to = Some i -> arrived f0 from f to.
Proof.
  intros Hf Hi Hj rel s Hs. pose proof (inv0_kept f Hf rel s Hs) as Hk. pose proof Hf as [Hwf _].
  destruct (decide (rel = [])) as [->|Hr].
  - rewrite app_nil_r in *. unfold shape_at, lookup_inode in *. rewrite Hi in Hk. by rewrite Hj.
  - exfalso. apply shape_at_names, wf_above in Hk; [|done|done]. apply shape_at_Some in Hk as (k & n & Hk & Hn & Hsh).
    assert (k = i) as -> by congruence.
    destruct Ha as [Ha1 _]. apply Ha1. rewrite (wf_dir _ Hwf from to i n); [apply under_refl|done..].
Qed.

Definition safe (f : Fs) : Prop := arrived f0 from f from \/ arrived f0 from f to.
Definition lands {A} (w : OW) (m : Op A) : Prop :=
  honest w -> inv0 (fsys w) -> ens c w m (fun _ w' => safe (fsys w')).
Lemma lands_keeps {A} w (m : Op A) P : keeps0 m P -> lands w m.
Proof.
  intros Hm Ho Hw. eapply ens_weaken; [by apply Hm|]. intros r w' (_ & Hw' & _). left. by apply inv0_kept.
Qed.
Lemma lands_bind {A B} w (m : Op A) (k : A -> Op B) (P : A -> Prop) : keeps0 m P ->
  (forall a w', P a -> lands w' (k a)) -> lands w (mbind m k).
Proof.
  intros Hm Hk Ho Hw. apply ens_bind. eapply ens_weaken; [by apply Hm|].
  intros [a|e] w1 (Hk1 & Hw1 & Ha1); [|left; by apply inv0_kept].
  apply Hk; [by apply Ha1|by eapply honest_kin|done].
Qed.
(** Once all has arrived, what touches only the source cannot harm. *)
Lemma arrived_keeps {A} w (m : Op A) P : honest w -> wf (fsys w) -> arrived f0 from (fsys w) to ->
  keeps (X := OpState) c everywhere (under from) (fsys w) m P ->
  ens c w m (fun _ w' => safe (fsys w')).
Proof.
  intros Ho Hwf Harr Hm. eapply ens_weaken; [apply (Hm w Ho (conj Hwf (changes_refl _ _ _)))|].
  intros r w' (_ & [_ Hc] & _). right. intros rel s Hs. eapply changes_shape_at; [exact Hc|by apply Harr|].
  apply (apart_app to from rel). by apply apart_sym.
Qed.
Lemma keeps_delete_from f : keeps (X := OpState) c everywhere (under from) f (delete_path_untracked from) anything.
Proof. apply keeps_delete. intros q Hq. by right. Qed.

Lemma keeps_copy_replace conflict v policy resuming :
  keeps0 (copy_path from to conflict v policy resuming) anything.
Proof.
  unfold copy_path. eapply keeps_bind; [apply keeps_change|]. intros [] _.
  apply keeps_copy_path; [done|]. intros _. apply removable_to.
Qed.
Lemma lands_copy {B} w v policy (k : unit -> Op B) :
  (forall f, keeps (X := OpState) c everywhere (under from) f (k tt) anything) ->
  lands w (copy_path from to Replace v policy false ;; k tt).
Proof.
  intros Hk Ho Hw. apply ens_bind. pose proof Hw as [Hwf _].
  eapply ens_weaken.
  { apply ens_and; [apply (keeps_copy_replace Replace v policy false w Ho Hw)|].
    apply (ens_copy c w from to Replace v policy false); [done|done|done|by apply inv0_present|by apply inv0_placeable]. }
  intros [[]|e] w1 [(Hk1 & Hw1 & _) Hr]; [|left; by apply inv0_kept].
  destruct Hr as [[Hwf1 _] Hcp]. apply (arrived_keeps w1 (k tt) anything); [by eapply honest_kin|done| |done].
  intros rel s Hs. rewrite Hcp. by apply inv0_kept.
Qed.
Lemma lands_via_copy w v policy fallback : lands w (move_via_copy_then_delete from to Replace v policy fallback).
Proof.
  unfold move_via_copy_then_delete. eapply lands_bind; [apply keeps_unlocked_tree|]. intros [] w1 _.
  apply (lands_copy w1 v policy (fun _ => _)). intros f. pose proof (keeps_delete_from f) as Hdel.
  eapply keeps_bind; [apply keeps_attempt, Hdel|]. intros [[]|e] _; [by apply keeps_ret|apply keeps_fail].
Qed.
Lemma lands_rename_or_copy w v policy : lands w (rename_or_copy from to v policy).
Proof.
  unfold rename_or_copy. eapply lands_bind with (P := anything).
  { unfold create_parent. rewrite Hpar. apply keeps_or_io_any, keeps_create_dir_all. done. }
  intros [] w1 _. destruct (paths_are_known_distinct_volumes _ _ _); [apply lands_via_copy|].
  intros Ho Hw. apply ens_bind. pose proof Hw as [Hwf _].
  assert (Hact : rename_act from to (fsys w1) = (Ok tt, moved from to (fsys w1)) \/
    (exists i, rename_act from to (fsys w1) = (Ok tt, fsys w1) /\ names (fsys w1) !! from = Some i /\ names (fsys w1) !! to = Some i) \/
    exists e, rename_act from to (fsys w1) = (Err e, fsys w1)).
  { unfold rename_act. destruct (lookup_inode (fsys w1) from) as [[i n]|] eqn:E; [|by right; right; eexists].
    rewrite Hpar, (inv0_parent _ Hw). apply lookup_inode_Some in E as [En _].
    case_decide; [by right; left; exists i|]. do 2 (case_decide; [by right; right; eexists|]).
    destruct (shape n), (shape_at (fsys w1) to) as [[]|];
      (try case_decide); (by left) || (by right; right; eexists). }
  assert (Hgo : forall r w2, fsys w2 = (rename_act from to (fsys w1)).2 -> kin w1 w2 -> r = (rename_act from to (fsys w1)).1 ->
    ens c w2 (match r with Ok _ => complete | Err e => move_via_copy_then_delete from to Replace v policy (RenameFailed e) end)
      (fun _ w' => safe (fsys w'))).
  { intros r w2 Hf2 Hk2 ->. assert (Ho2 : honest w2) by by eapply honest_kin.
    destruct Hact as [E|[(i & E & Hi & Hj)|(e & E)]]; rewrite E in *; cbn [fst snd] in *.
    - apply (arrived_keeps w2 complete anything); [done| | |apply keeps_complete].
      + rewrite Hf2. apply (wf_moved_to _ _ _ d); [done|done|by apply inv0_parent|apply Ha].
      + intros rel s Hs. rewrite Hf2, shape_at_moved, below_app. by apply inv0_kept.
    - apply (arrived_keeps w2 complete anything); [done|by rewrite Hf2| |apply keeps_complete].
      rewrite Hf2. by eapply same_inode_arrived.
    - apply lands_via_copy; [done|by rewrite Hf2]. }
  apply ens_sys.
  - intros e w2 (Hk2 & _ & Hf2) _. apply lands_via_copy; [by eapply honest_kin|by rewrite Hf2].
  - intros cl w2 (Hk2 & _ & Hf2) _ _. by apply Hgo.
  - intros cl w2 (Hk2 & _ & Hf2) _. by apply Hgo.
Qed.

(** A look whose result is used. *)
Lemma lands_lstat {B} w p (k : Metadata -> Op B) :
  (forall m w', fsys w' = fsys w -> stat (fsys w) p = Ok m -> lands w' (k m)) ->
  lands w (m <- or_io p (symlink_metadata p) ; k m).
Proof.
  intros Hk Ho Hw. apply ens_bind, ens_or_io, ens_look. intros r w1 (Hk1 & _ & Hf1) Hr.
  assert (Hw1 : inv0 (fsys w1)) by (by rewrite Hf1). assert (Ho1 : honest w1) by by eapply honest_kin.
  destruct r as [m|e]; [|left; by apply inv0_kept].
  destruct Hr as [[_ Hm]|(e & E & _)]; [|done]. by apply Hk.
Qed.
(** The common part of the three routines that replace. *)
Lemma lands_same {B} w (k : bool -> Op B) :
  (forall w' i, names (fsys w') !! from = Some i -> names (fsys w') !! to = Some i -> lands w' (k true)) ->
  (forall w', lands w' (k false)) ->
  lands w (m1 <- or_io from (symlink_metadata from) ; m2 <- or_io to (symlink_metadata to) ; k (metadata_same_file m1 m2)).
Proof.
  intros Ht Hf. apply lands_lstat. intros m1 w1 Hf1 Hm1. apply lands_lstat. intros m2 w2 Hf2 Hm2.
  destruct (metadata_same_file m1 m2) eqn:E; [|apply Hf]. unfold metadata_same_file in E. apply bool_decide_eq_true in E.
  destruct (stat_seen _ _ _ Hm1) as (s1 & _ & _ & Hi), (stat_seen _ _ _ Hm2) as (s2 & _ & _ & Hj).
  apply (Ht w2 (m_ino m1)); rewrite Hf2; [by rewrite Hf1|by rewrite E].
Qed.
Lemma lands_drop w i (g : Op unit) :
  names (fsys w) !! from = Some i -> names (fsys w) !! to = Some i ->
  (forall f, keeps (X := OpState) c everywhere (under from) f g anything) -> lands w g.
Proof.
  intros Hi Hj Hg Ho Hw. apply (arrived_keeps w g anything); [done|apply Hw|by eapply same_inode_arrived|done].
Qed.
Lemma keeps_canonicalize A D f p : keeps (X := OpState) c A D f (canonicalize p) anything.
Proof. apply keeps_look. Qed.
Lemma keeps_drop f (b : bool) : keeps (X := OpState) c everywhere (under from) f
  ((if b then delete_path_untracked from else mret tt) ;; complete) anything.
Proof.
  eapply keeps_bind with (P := anything); [destruct b; [apply keeps_delete_from|by apply keeps_ret]|].
  intros [] _. apply keeps_complete.
Qed.

Lemma lands_file w v policy : lands w (move_file_replacing_existing from to v policy).
Proof.
  unfold move_file_replacing_existing. eapply lands_bind; [apply keeps_check|]. intros [] w1 _.
  eapply lands_bind; [apply keeps_unlocked_path|]. intros [] w2 _.
  refine (lands_same w2 (fun b : bool => if b then _ else _) _ _).
  - intros w3 i Hi Hj. eapply lands_drop; [done..|]. intros f. unfold same_canonical_path.
    eapply keeps_bind with (P := anything).
    + eapply keeps_bind; [apply keeps_canonicalize|]. intros l _. eapply keeps_bind; [apply keeps_canonicalize|].
      intros r _. by apply keeps_ret.
    + intros b _. apply keeps_drop.
  - intros w3. apply lands_rename_or_copy.
Qed.
Lemma lands_link w v policy : lands w (move_symlink_replacing_existing from to v policy).
Proof.
  unfold move_symlink_replacing_existing. eapply lands_bind; [apply keeps_check|]. intros [] w1 _.
  eapply lands_bind; [apply keeps_unlocked_path|]. intros [] w2 _.
  refine (lands_same w2 (fun b : bool => if b then _ else _) _ _).
  - intros w3 i Hi Hj. eapply lands_drop; [done..|]. intros f. case_decide; [apply (keeps_drop f true)|apply (keeps_drop f false)].
  - intros w3. apply lands_rename_or_copy.
Qed.
Lemma lands_directory w v policy : lands w (move_directory_replacing_existing from to v policy).
Proof.
  unfold move_directory_replacing_existing. eapply lands_bind; [apply keeps_check|]. intros [] w1 _.
  eapply lands_bind; [apply keeps_unlocked_tree|]. intros [] w2 _.
  refine (lands_same w2 (fun b : bool => if b then _ else _) _ _).
  - intros w3 i Hi Hj. eapply lands_drop; [done..|]. intros f. apply keeps_complete.
  - intros w3. apply lands_rename_or_copy.
Qed.
Lemma keeps_replacing conflict a b : keeps0 a anything -> keeps0 b anything -> keeps0 (replacing conflict a b) anything.
Proof.
  intros Ha' Hb. unfold replacing. case_decide; [|by apply keeps_ret].
  eapply keeps_bind; [exact Ha'|]. intros [|] _; [done|by apply keeps_ret].
Qed.

Lemma lands_move w conflict v policy : conflict <> Merge -> lands w (move_path from to conflict v policy false).
Proof.
  intros Hm. unfold move_path. eapply lands_bind; [apply keeps_check|]. intros [] w1 _.
  eapply lands_bind; [apply keeps_source|]. intros [] w2 _.
  eapply lands_bind; [apply keeps_unlocked_tree|]. intros [] w3 _.
  eapply lands_bind with (P := fun b => b = false); [by apply keeps_ret|]. intros ? w4 ->.
  eapply lands_bind with (P := fun b => b = false); [rewrite decide_False by done; by apply keeps_ret|]. intros ? w5 ->.
  eapply lands_bind; [apply keeps_replacing; apply keeps_is|]. intros [|] w6 _; [apply lands_file|].
  eapply lands_bind; [apply keeps_replacing; apply keeps_is|]. intros [|] w7 _; [apply lands_link|].
  eapply lands_bind; [apply keeps_replacing; apply keeps_is|]. intros [|] w8 _; [apply lands_directory|].
  eapply lands_bind; [apply keeps_prepare; intros _; apply removable_to|]. intros [] w9 _. apply lands_rename_or_copy.
Qed.
End Lossless.

(** ** A move that returns [Ok] *)
Section Complete.
Context `{Platform, Libc, AttrCalls, Cloning, Packages, !CloneLaws} (c : Control) (T : Prop).

Abbreviation does := (does c T).
Abbreviation stills := (stills c T).
Abbreviation anything := (fun _ => True).

(** What was at [from] is at [to], and only there; nothing else has changed. *)
Definition relocated (from to : FPath) (f f' : Fs) : Prop :=
  copied f from f' to /\ (forall q, under from q -> shape_at f' q = None) /\
  forall q, ~ under from q -> ~ under to q -> shape_at f' q = shape_at f q.
(** What a move needs. *)
Definition movable (from to : FPath) (w : OW) : Prop :=
  wf (fsys w) /\ (free (fsys w) to \/ honest w) /\ apart from to /\ (exists s, shape_at (fsys w) from = Some s) /\
  (exists d, parent to = Some d /\ shape_at (fsys w) d = Some ShDir) /\
  (forall q, under from q \/ under to q -> locked_at (fsys w) q -> T) /\ (crowded (fsys w) to -> T).
Lemma movable_still from to w w' : still w w' -> movable from to w -> movable from to w'.
Proof.
  intros Hs (Hf & Ho & Hm). assert (Ho' : free (fsys w) to \/ honest w').
  { destruct Ho as [Ho|Ho]; [by left|right; by eapply honest_still]. }
  destruct Hs as (_ & Hfs & _). unfold movable. by rewrite Hfs.
Qed.
Lemma relocated_before from to f f1 f' : same_shapes f f1 -> relocated from to f1 f' -> relocated from to f f'.
Proof.
  intros Hs (Hc & Hg & Ho). split_and!; [|done|].
  - intros rel. by rewrite Hc, (same_shapes_at f f1).
  - intros q Hq1 Hq2. by rewrite Ho, (same_shapes_at f f1).
Qed.
Lemma relocated_after from to f f1 f' : relocated from to f f1 -> same_shapes f1 f' -> relocated from to f f'.
Proof.
  intros (Hc & Hg & Ho) Hs. split_and!.
  - intros rel. by rewrite (same_shapes_at f1 f').
  - intros q Hq. rewrite (same_shapes_at f1 f') by done. by apply Hg.
  - intros q Hq1 Hq2. rewrite (same_shapes_at f1 f') by done. by apply Ho.
Qed.
Lemma moved_relocated from to f : apart from to -> relocated from to f (moved from to f).
Proof.
  intros Ha. split_and!.
  - intros rel. by rewrite shape_at_moved, below_app.
  - intros q Hq. rewrite shape_at_moved, below_None by (by apply (apart_under from to q)). by rewrite decide_True.
  - intros q Hq1 Hq2. rewrite shape_at_moved, below_None by done. by rewrite decide_False.
Qed.
(** The source goes, after all has been copied. *)
Lemma does_drop w from : wf (fsys w) -> from <> [] -> (exists s, shape_at (fsys w) from = Some s) ->
  does w (delete_path_untracked from) (fun _ w' => forall q, shape_at (fsys w') q =
    if decide (under from q) then None else shape_at (fsys w) q).
Proof.
  intros Hf Hne [s Hs]. destruct (decide (s = ShDir)) as [->|Hn].
  - eapply does_weaken; [by apply does_delete_dir|]. intros _ w' [_ ->] q. rewrite shape_at_prune.
    destruct (decide (under from q)); [by rewrite decide_False by tauto|by rewrite decide_True].
  - eapply does_weaken; [by eapply does_delete_leaf|]. intros _ w' [_ ->] q. rewrite shape_at_prune.
    destruct (decide (under from q)) as [Hu|Hu].
    + destruct (decide (q = from)) as [->|Hq]; [by rewrite decide_False by (intros E; by apply E)|].
      rewrite decide_True by done. apply shape_at_None; [done|]. eapply (wf_leaf (fsys w) from q s); [done..|congruence].
    + rewrite decide_True; [done|]. intros ->. by apply Hu, under_refl.
Qed.

Lemma does_copy_path w from to v policy : movable from to w ->
  does w (copy_path from to Replace v policy false) (fun _ w' => transfers from to w w').
Proof.
  intros (Hf & Ho & Ha & Hs & (d & Hd & Hsd) & Hl & Hc). unfold copy_path.
  eapply does_bind with (P := fun _ w1 => w1 = set_extra (set_hard_links ∅ (extra w)) w).
  { intros Hfair. apply ens_modify. split; [by right|done]. }
  intros [] w1 ->. destruct (names (fsys w) !! to) as [i|] eqn:E.
  - apply (does_copy_replace c T (set_extra (set_hard_links ∅ (extra w)) w)); [|done|exact Hs].
    split; [done|]. split; [destruct Ho as [Ho|Ho]; [unfold free in Ho; congruence|done]|]. split; [done|].
    split; [apply wf_shape; [done|by exists i]|]. split; [|done].
    intros q Hq. apply Hl. by right.
  - apply (does_copy_free c T (set_extra (set_hard_links ∅ (extra w)) w)); [|done|done|exact Hs].
    split; [done|]. split; [done|]. by exists d.
Qed.
Lemma apart_root p q : apart p q -> p <> [].
Proof. intros [Hpq _] ->. apply Hpq. by exists q. Qed.
Lemma does_via_copy w from to v policy fallback : movable from to w ->
  does w (move_via_copy_then_delete from to Replace v policy fallback) (fun _ w' => relocated from to (fsys w) (fsys w')).
Proof.
  intros Hm. pose proof Hm as (Hf & Ho & Ha & Hs & _ & Hl & _). unfold move_via_copy_then_delete.
  eapply stills_does; [apply stills_unlocked_tree; [done|done|intros q Hq; apply Hl; by left]|]. intros [] w1 Hs1 _.
  pose proof (movable_still _ _ _ _ Hs1 Hm) as Hm1. destruct Hs1 as (_ & Hf1 & _). rewrite <- Hf1 in *.
  eapply does_bind; [by apply does_copy_path|]. intros [] w2 [Hg2 Hc2].
  assert (Hsame : forall q, under from q -> shape_at (fsys w2) q = shape_at (fsys w1) q).
  { intros q Hq. apply (grows_shape to _ _ _ Hg2). by apply (apart_under from to q). }
  eapply does_bind.
  { apply does_attempt, does_drop; [by destruct Hg2|by eapply apart_root|].
    rewrite Hsame by apply under_refl. exact Hs. }
  intros [[]|e] w3 Hw3; [|by apply does_fail]. apply does_ret. split_and!.
  - intros rel. rewrite Hw3, decide_False; [apply Hc2|]. apply (apart_app to from rel). by apply apart_sym.
  - intros q Hq. by rewrite Hw3, decide_True.
  - intros q Hq1 Hq2. rewrite Hw3, decide_False by done. by apply (grows_shape to _ _ _ Hg2).
Qed.
Definition distinct (f : Fs) (from to : FPath) : Prop := forall i, names f !! from = Some i -> names f !! to <> Some i.
Lemma rename_cases f from to d : apart from to -> parent to = Some d -> shape_at f d = Some ShDir -> distinct f from to ->
  rename_act from to f = (Ok tt, moved from to f) \/ exists e, rename_act from to f = (Err e, f).
Proof.
  intros Ha Hd Hs Hn. unfold rename_act. destruct (lookup_inode f from) as [[i n]|] eqn:E; [|by right; eexists].
  rewrite Hd, Hs. apply lookup_inode_Some in E as [En _]. rewrite decide_False by by apply Hn.
  do 2 (case_decide; [by right; eexists|]).
  destruct (shape n), (shape_at f to) as [[]|]; (try case_decide); (by left) || (by right; eexists).
Qed.
Lemma stills_create_dirs todo : forall p w, wf (fsys w) -> shape_at (fsys w) (p ++ todo) = Some ShDir ->
  stills w (create_dirs p todo) (sound T anything).
Proof.
  induction todo as [|n todo IH]; intros p w Hf Hs; cbn [create_dirs]; [by apply stills_ret|].
  assert (Hs' : shape_at (fsys w) (join p n ++ todo) = Some ShDir) by (unfold join; by rewrite <- app_assoc).
  pose proof (dirs_above _ _ _ Hf Hs') as Hj. pose proof (shape_at_names _ _ _ Hj) as [i Hi].
  eapply stills_bind with (P := fun r => match r with Ok _ => False | Err _ => True end).
  - apply does_sys.
    + intros e w' Hst _. split; [by apply steady_still|done].
    + intros cl w' Hw' _. rewrite Hi in *. split; [|done]. destruct Hw' as (Hk & Hx & Hfs). split_and!; [done|done|by rewrite Hx].
  - intros [j|e] w1 (_ & Hf1 & _) Hr; [done|]. eapply stills_bind with (P := fun w0 => fsys w0 = fsys w1); [by apply does_get|].
    intros w0 w2 (_ & Hf2 & _) ->. rewrite Hf1. rewrite decide_True by done.
    apply IH; [by rewrite Hf2, Hf1|by rewrite Hf2, Hf1].
Qed.
Lemma does_rename_or_copy w from to v policy : movable from to w -> distinct (fsys w) from to ->
  does w (rename_or_copy from to v policy) (fun _ w' => relocated from to (fsys w) (fsys w')).
Proof.
  intros Hm Hn. pose proof Hm as (Hf & Ho & Ha & Hs & (d & Hd & Hsd) & Hl & Hcr). unfold rename_or_copy, create_parent. rewrite Hd.
  eapply stills_does; [by apply stills_or_io, (stills_create_dirs d [])|]. intros [] w1 Hs1 _.
  pose proof (movable_still _ _ _ _ Hs1 Hm) as Hm1. destruct Hs1 as (_ & Hf1 & _). rewrite <- Hf1 in *.
  destruct (paths_are_known_distinct_volumes policy from to); [by apply does_via_copy|].
  eapply does_bind with (P := fun r w2 => match r with
    | Ok _ => fsys w2 = moved from to (fsys w1)
    | Err _ => still w1 w2 end).
  - apply does_sys.
    + intros e w2 Hst _. by apply steady_still.
    + intros cl w2 (Hk & Hx & Hfs) _.
      destruct (rename_cases _ _ _ _ Ha Hd Hsd Hn) as [E|[e E]]; rewrite E in *; cbn [fst snd] in *; [done|].
      split_and!; [done|done|by rewrite Hx].
  - intros [[]|e] w2 Hw2.
    + eapply does_weaken; [by apply (calms_complete c T (fun _ => True))|]. intros [] w3 [Hc3 _].
      eapply relocated_after; [by apply moved_relocated|]. rewrite <- Hw2. apply Hc3.
    + pose proof (movable_still _ _ _ _ Hw2 Hm1) as Hm2. destruct Hw2 as (_ & Hf2 & _). rewrite <- Hf2 in *.
      by apply does_via_copy.
Qed.
Lemma calm_same w w' : calm w w' -> same_shapes (fsys w) (fsys w').
Proof. by intros (_ & Hs & _). Qed.
Lemma does_complete_after w f from to : relocated from to f (fsys w) ->
  does w complete (fun _ w' => relocated from to f (fsys w')).
Proof.
  intros Hr. eapply does_weaken; [by apply (calms_complete c T (fun _ => True))|]. intros [] w' [Hc _].
  eapply relocated_after; [done|by apply calm_same].
Qed.
(** The source and the destination were one file under two names. *)
Lemma does_drop_same w from to s : wf (fsys w) -> apart from to -> shape_at (fsys w) from = Some s -> s <> ShDir ->
  shape_at (fsys w) to = Some s ->
  does w (delete_path_untracked from ;; complete) (fun _ w' => relocated from to (fsys w) (fsys w')).
Proof.
  intros Hf Ha Hs Hn Ht.
  eapply does_bind; [apply does_drop; [done|by eapply apart_root|by exists s]|]. intros [] w1 Hw1.
  apply does_complete_after. split_and!.
  - intros rel. rewrite Hw1, decide_False.
    + by apply (copied_leaf (fsys w) from (fsys w) to s).
    + apply (apart_app to from rel). by apply apart_sym.
  - intros q Hq. by rewrite Hw1, decide_True.
  - intros q Hq1 Hq2. by rewrite Hw1, decide_False.
Qed.

Lemma does_look_both w from to (k : bool -> Op unit) (Q : unit -> OW -> Prop) s s' :
  shape_at (fsys w) from = Some s -> shape_at (fsys w) to = Some s' ->
  (forall w' i, still w w' -> names (fsys w) !! from = Some i -> names (fsys w) !! to = Some i -> does w' (k true) Q) ->
  (forall w', still w w' -> distinct (fsys w) from to -> does w' (k false) Q) ->
  does w (m1 <- or_io from (symlink_metadata from) ; m2 <- or_io to (symlink_metadata to) ; k (metadata_same_file m1 m2)) Q.
Proof.
  intros Hs Hs' Ht Hf.
  eapply stills_does; [by eapply stills_or_io, stills_lstat|]. intros m1 w1 Hs1 [_ [_ Hm1]].
  pose proof Hs1 as (_ & Hf1 & _). rewrite <- Hf1 in Hs'.
  eapply stills_does; [by eapply stills_or_io, stills_lstat|]. intros m2 w2 Hs2 [_ [_ Hm2]]. rewrite Hf1 in Hm2.
  assert (Hs12 : still w w2) by by etrans.
  destruct (metadata_same_file m1 m2) eqn:E; unfold metadata_same_file in E.
  - apply bool_decide_eq_true in E. apply (Ht w2 (m_ino m1)); [done|done|by rewrite E].
  - apply bool_decide_eq_false in E. apply Hf; [done|]. intros i Hi Hj. congruence.
Qed.
Lemma leaf_inode f from to i s s' : names f !! from = Some i -> names f !! to = Some i ->
  shape_at f from = Some s -> shape_at f to = Some s' -> s' = s.
Proof. intros Hi Hj. unfold shape_at, lookup_inode. rewrite Hi, Hj. intros E1 E2. congruence. Qed.

Lemma does_move_file w from to data s' v policy : movable from to w -> shape_at (fsys w) from = Some (ShFile data) ->
  shape_at (fsys w) to = Some s' ->
  does w (move_file_replacing_existing from to v policy) (fun _ w' => relocated from to (fsys w) (fsys w')).
Proof.
  intros Hm Hs Hs'. unfold move_file_replacing_existing.
  eapply stills_does; [apply stills_check|]. intros [] w1 Hs1 _.
  pose proof (movable_still _ _ _ _ Hs1 Hm) as Hm1. pose proof Hs1 as (_ & Hf1 & _). rewrite <- Hf1 in *.
  pose proof Hm1 as (Hf & Ho & Ha & _ & _ & Hl & _).
  eapply stills_does; [eapply stills_unlocked_path; [done|apply Hl; right; apply under_refl]|]. intros [] w2 Hs2 _.
  pose proof (movable_still _ _ _ _ Hs2 Hm1) as Hm2. pose proof Hs2 as (_ & Hf2 & _). rewrite <- Hf2 in *.
  refine (does_look_both w2 from to (fun b : bool => if b then _ else _) _ _ _ Hs Hs' _ _).
  - intros w3 i Hs3 Hi Hj. pose proof (leaf_inode _ _ _ _ _ _ Hi Hj Hs Hs') as ->. pose proof Hs3 as (_ & Hf3 & _).
    rewrite <- Hf3 in *.
    assert (Hcan : forall w0 p, fsys w0 = fsys w3 -> shape_at (fsys w0) p = Some (ShFile data) ->
      stills w0 (canonicalize p) (fun r => r = Ok p \/ exists e, r = Err e)).
    { intros w0 p _ Hp. apply stills_look; [|intros; right; by eexists]. intros _. left.
      apply plain_resolve. by eapply file_plain. }
    unfold same_canonical_path. eapply stills_does with (P := fun b => b = false).
    + eapply stills_bind; [by apply Hcan|]. intros l w4 (_ & Hf4 & _) Hl4.
      eapply stills_bind; [by apply Hcan; rewrite Hf4|]. intros r w5 _ Hr5. apply stills_ret.
      assert (Hne : from <> to) by (intros ->; apply Ha, under_refl).
      destruct Hl4 as [->|[e ->]], Hr5 as [->|[e' ->]]; by apply bool_decide_eq_false.
    + intros b w4 (_ & Hf4 & _) ->. cbn [negb]. rewrite <- Hf4 in *. by apply (does_drop_same w4 from to (ShFile data)).
  - intros w3 Hs3 Hn. pose proof (movable_still _ _ _ _ Hs3 Hm2) as Hm3. destruct Hs3 as (_ & Hf3 & _). rewrite <- Hf3 in *.
    by apply does_rename_or_copy.
Qed.
Lemma does_move_link w from to t s' v policy : movable from to w -> shape_at (fsys w) from = Some (ShLink t) ->
  shape_at (fsys w) to = Some s' ->
  does w (move_symlink_replacing_existing from to v policy) (fun _ w' => relocated from to (fsys w) (fsys w')).
Proof.
  intros Hm Hs Hs'. unfold move_symlink_replacing_existing.
  eapply stills_does; [apply stills_check|]. intros [] w1 Hs1 _.
  pose proof (movable_still _ _ _ _ Hs1 Hm) as Hm1. pose proof Hs1 as (_ & Hf1 & _). rewrite <- Hf1 in *.
  pose proof Hm1 as (Hf & Ho & Ha & _ & _ & Hl & _).
  eapply stills_does; [eapply stills_unlocked_path; [done|apply Hl; right; apply under_refl]|]. intros [] w2 Hs2 _.
  pose proof (movable_still _ _ _ _ Hs2 Hm1) as Hm2. pose proof Hs2 as (_ & Hf2 & _). rewrite <- Hf2 in *.
  refine (does_look_both w2 from to (fun b : bool => if b then _ else _) _ _ _ Hs Hs' _ _).
  - intros w3 i Hs3 Hi Hj. pose proof (leaf_inode _ _ _ _ _ _ Hi Hj Hs Hs') as ->. pose proof Hs3 as (_ & Hf3 & _).
    rewrite <- Hf3 in *. assert (Hne : from <> to) by (intros ->; apply Ha, under_refl). rewrite decide_True by done.
    by apply (does_drop_same w3 from to (ShLink t)).
  - intros w3 Hs3 Hn. pose proof (movable_still _ _ _ _ Hs3 Hm2) as Hm3. destruct Hs3 as (_ & Hf3 & _). rewrite <- Hf3 in *.
    by apply does_rename_or_copy.
Qed.
Lemma does_move_directory w from to v policy : movable from to w -> shape_at (fsys w) from = Some ShDir ->
  shape_at (fsys w) to = Some ShDir ->
  does w (move_directory_replacing_existing from to v policy) (fun _ w' => relocated from to (fsys w) (fsys w')).
Proof.
  intros Hm Hs Hs'. unfold move_directory_replacing_existing.
  eapply stills_does; [apply stills_check|]. intros [] w1 Hs1 _.
  pose proof (movable_still _ _ _ _ Hs1 Hm) as Hm1. pose proof Hs1 as (_ & Hf1 & _). rewrite <- Hf1 in *.
  pose proof Hm1 as (Hf & Ho & Ha & _ & _ & Hl & _).
  eapply stills_does; [apply stills_unlocked_tree; [done|by exists ShDir|intros q Hq; apply Hl; by right]|]. intros [] w2 Hs2 _.
  pose proof (movable_still _ _ _ _ Hs2 Hm1) as Hm2. pose proof Hs2 as (_ & Hf2 & _). rewrite <- Hf2 in *.
  refine (does_look_both w2 from to (fun b : bool => if b then _ else _) _ _ _ Hs Hs' _ _).
  - intros w3 i Hs3 Hi Hj. exfalso. apply shape_at_Some in Hs as (k & n & Hk & Hn & Hsn).
    assert (k = i) as -> by congruence. apply Ha. rewrite (wf_dir _ Hf from to i n); [apply under_refl|done..].
  - intros w3 Hs3 Hn. pose proof (movable_still _ _ _ _ Hs3 Hm2) as Hm3. destruct Hs3 as (_ & Hf3 & _). rewrite <- Hf3 in *.
    by apply does_rename_or_copy.
Qed.

Lemma does_and {A} w (m : Op A) (P Q : A -> OW -> Prop) : does w m P -> does w m Q ->
  does w m (fun a w' => P a w' /\ Q a w').
Proof.
  intros HP HQ Hf. eapply ens_weaken; [apply (ens_and _ _ _ _ _ (HP Hf) (HQ Hf))|].
  intros [a|e] w' [HP' HQ']; [|done]. destruct HP', HQ'. by split_and!.
Qed.
(** Entries have gone, none has come. *)
Definition thinned (f f' : Fs) : Prop := forall q, lookup_inode f' q = lookup_inode f q \/ lookup_inode f' q = None.
Lemma prune_thinned keep `{!forall p, Decision (keep p)} f : thinned f (prune keep f).
Proof.
  intros q. unfold lookup_inode. rewrite prune_lookup. case_decide; [by left|by right].
Qed.
Lemma does_thin w p s : wf (fsys w) -> p <> [] -> shape_at (fsys w) p = Some s ->
  does w (delete_path_untracked p) (fun _ w' => thinned (fsys w) (fsys w')).
Proof.
  intros Hf Hne Hs. destruct (decide (s = ShDir)) as [->|Hn].
  - eapply does_weaken; [by apply does_delete_dir|]. intros _ w' [_ ->]. apply prune_thinned.
  - eapply does_weaken; [by eapply does_delete_leaf|]. intros _ w' [_ ->]. apply prune_thinned.
Qed.
Lemma thinned_locked f f' q : thinned f f' -> locked_at f' q -> locked_at f q.
Proof. intros Ht (i & n & Hl & Hk). exists i, n. destruct (Ht q) as [E|E]; [by rewrite <- E|congruence]. Qed.
Lemma thinned_crowded f f' to : wf f' -> thinned f f' -> crowded f' to -> crowded f to.
Proof.
  intros Hf Ht (label & nonce & Hall). exists label, nonce. intros k Hk Hn. apply (Hall k Hk).
  apply missing_dir_shape; [|done]. unfold shape_at. set (p := join _ _) in *.
  destruct (Ht p) as [->| ->]; [|done]. unfold lookup_inode. unfold free in Hn. by rewrite Hn.
Qed.
Lemma does_prepare_move w from to : movable from to w -> ~ free (fsys w) to ->
  does w (prepare_destination to Replace delete_path_untracked) (fun _ w' => movable from to w' /\ free (fsys w') to /\
    grows to (fsys w) (fsys w') /\ forall rel, shape_at (fsys w') (from ++ rel) = shape_at (fsys w) (from ++ rel)).
Proof.
  intros (Hf & Ho & Ha & Hs & (d & Hd & Hsd) & Hl & Hcr) Hn. destruct Ho as [Ho|Ho]; [done|]. unfold prepare_destination.
  eapply stills_does; [by apply (stills_exists c T w to d)|]. intros b w1 (_ & Hf1 & _) [[-> _]|[_ Hx]]; [|done].
  rewrite <- Hf1 in *. cbn [negb].
  assert (Hto : exists s, shape_at (fsys w1) to = Some s).
  { apply wf_shape; [done|]. unfold free in Hn. destruct (names (fsys w1) !! to); [by eexists|done]. }
  destruct Hto as [s' Hto].
  assert (Hne : to <> []) by (by apply (apart_root to from), apart_sym).
  eapply does_weaken.
  { apply does_and; [by apply (does_delete c T w1 from to s')|by apply (does_thin w1 to s')]. }
  intros [] w2 [(_ & Hr2 & Hg2 & Hsame) Ht2]. pose proof Hr2 as (Hf2 & Hn2 & _). split; [|done].
  split; [done|]. split; [by left|]. split; [done|]. split; [|split; [|split]].
  - specialize (Hsame []). rewrite !app_nil_r in Hsame. by rewrite Hsame.
  - exists d. split; [done|]. destruct Hr2 as (_ & _ & d' & Hd' & ?). by simplify_eq.
  - intros q Hq Hlk. apply (Hl q Hq). by eapply thinned_locked.
  - intros Hc2. apply Hcr. by eapply thinned_crowded.
Qed.
Lemma relocated_grows from to f f1 f' : (forall rel, shape_at f1 (from ++ rel) = shape_at f (from ++ rel)) ->
  grows to f f1 -> relocated from to f1 f' -> relocated from to f f'.
Proof.
  intros Hs Hg (Hc & Hn & Ho). split_and!; [|done|].
  - intros rel. by rewrite Hc, Hs.
  - intros q Hq1 Hq2. rewrite Ho by done. by apply (grows_shape to _ _ _ Hg).
Qed.
Lemma free_distinct f from to : free f to -> distinct f from to.
Proof. intros Hn i _ Hi. unfold free in Hn. congruence. Qed.

(** A look at an entry, as a test of its shape. *)
Lemma stills_replacing w conflict p q test1 test2 :
  stills w (replacing conflict (symlink_metadata_is test1 p) (symlink_metadata_is test2 q)) (fun b => b = true ->
    conflict = Replace /\ (exists s m, shape_at (fsys w) p = Some s /\ seen (fsys w) p s m /\ test1 m = true) /\
    exists s m, shape_at (fsys w) q = Some s /\ seen (fsys w) q s m /\ test2 m = true).
Proof.
  unfold replacing. case_decide as Hc; [|by apply stills_ret].
  eapply stills_bind; [apply stills_is_true|]. intros [|] w1 (_ & Hf1 & _) H1'; [|by apply stills_ret].
  eapply stills_weaken; [apply stills_is_true|]. rewrite Hf1. intros b Hb E.
  destruct (H1' eq_refl) as (m1 & Hm1 & Ht1), (Hb E) as (m2 & Hm2 & Ht2).
  destruct (stat_seen _ _ _ Hm1) as (s1 & ? & ?), (stat_seen _ _ _ Hm2) as (s2 & ? & ?).
  split; [done|]. split; [by exists s1, m1|by exists s2, m2].
Qed.
Lemma does_move w from to conflict v policy : movable from to w ->
  (free (fsys w) to \/ conflict = Replace) ->
  does w (move_path from to conflict v policy false) (fun _ w' => relocated from to (fsys w) (fsys w')).
Proof.
  intros Hm Hpl. unfold move_path.
  eapply stills_does; [apply stills_check|]. intros [] w1 Hs1 _. pose proof (movable_still _ _ _ _ Hs1 Hm) as Hm1.
  pose proof Hm1 as (_ & _ & _ & [s Hs] & _).
  eapply stills_does; [by eapply stills_source|]. intros [] w2 Hs2 _. pose proof (movable_still _ _ _ _ Hs2 Hm1) as Hm2.
  pose proof Hm2 as (Hf2 & _ & _ & Hsome & _ & Hl & _).
  eapply stills_does; [apply stills_unlocked_tree; [done|done|intros q Hq; apply Hl; by left]|]. intros [] w3 Hs3 _.
  pose proof (movable_still _ _ _ _ Hs3 Hm2) as Hm3.
  eapply stills_does with (P := fun b => b = false); [by apply stills_ret|]. intros ? w4 Hs4 ->.
  pose proof (movable_still _ _ _ _ Hs4 Hm3) as Hm4.
  assert (Hs04 : still w w4) by (do 3 (etrans; [eassumption|]); done).
  pose proof Hm4 as (Hf4 & Ho4 & Ha & _ & (d & Hd & Hsd) & _).
  assert (Hpl4 : free (fsys w4) to \/ conflict = Replace) by (destruct Hs04 as (_ & -> & _); done).
  eapply stills_does with (P := fun b => b = false).
  { case_decide as Hc; [|by apply stills_ret]. destruct Hpl4 as [Hn|Hn]; [|congruence].
    apply stills_free. split; [done|]. split; [done|]. by exists d. }
  intros ? w5 Hs5 ->. pose proof (movable_still _ _ _ _ Hs5 Hm4) as Hm5. assert (Hs05 : still w w5) by by etrans.
  assert (Hback : forall w' (m : Op unit), still w w' -> does w' m (fun _ w2 => relocated from to (fsys w') (fsys w2)) ->
    does w' m (fun _ w2 => relocated from to (fsys w) (fsys w2))).
  { intros w' g (_ & Hfw & _). by rewrite Hfw. }
  eapply stills_does; [apply stills_replacing|]. intros b1 w6 Hs6 Hb1. assert (Hs06 : still w w6) by by etrans.
  pose proof (movable_still _ _ _ _ Hs6 Hm5) as Hm6. destruct b1.
  { destruct (Hb1 eq_refl) as (_ & (s1 & m1 & Hsh1 & Hm1' & Ht1) & (s2 & m2 & Hsh2 & _)).
    apply andb_prop in Ht1 as [Ht1 _]. rewrite (seen_file _ _ _ _ Hm1') in Ht1. destruct s1 as [data| |]; try done.
    apply Hback; [done|]. destruct Hs6 as (_ & Hf6 & _). rewrite <- Hf6 in *. by eapply does_move_file. }
  eapply stills_does; [apply stills_replacing|]. intros b2 w7 Hs7 Hb2. assert (Hs07 : still w w7) by by etrans.
  pose proof (movable_still _ _ _ _ Hs7 Hm6) as Hm7. destruct b2.
  { destruct (Hb2 eq_refl) as (_ & (s1 & m1 & Hsh1 & Hm1' & Ht1) & (s2 & m2 & Hsh2 & _)).
    rewrite (seen_link _ _ _ _ Hm1') in Ht1. destruct s1 as [| |t]; try done.
    apply Hback; [done|]. destruct Hs7 as (_ & Hf7 & _). rewrite <- Hf7 in *. by eapply does_move_link. }
  eapply stills_does; [apply stills_replacing|]. intros b3 w8 Hs8 Hb3. assert (Hs08 : still w w8) by by etrans.
  pose proof (movable_still _ _ _ _ Hs8 Hm7) as Hm8. destruct b3.
  { destruct (Hb3 eq_refl) as (_ & (s1 & m1 & Hsh1 & Hm1' & Ht1) & (s2 & m2 & Hsh2 & Hm2' & Ht2)).
    rewrite (seen_dir _ _ _ _ Hm1') in Ht1. rewrite (seen_dir _ _ _ _ Hm2') in Ht2. destruct s1, s2; try done.
    apply Hback; [done|]. destruct Hs8 as (_ & Hf8 & _). rewrite <- Hf8 in *. by apply does_move_directory. }
  apply Hback; [done|]. destruct (decide (free (fsys w8) to)) as [Hfree|Hfree].
  - eapply stills_does; [apply stills_prepare_free; split; [by destruct Hm8|split; [done|destruct Hm8 as (_ & _ & _ & _ & Hp8 & _); done]]|].
    intros [] w9 Hs9 _. pose proof (movable_still _ _ _ _ Hs9 Hm8) as Hm9. destruct Hs9 as (_ & Hf9 & _). rewrite <- Hf9 in *.
    apply does_rename_or_copy; [done|by apply free_distinct].
  - destruct Hpl4 as [Hn| ->]; [destruct Hfree; unfold free in *; destruct Hs08 as (_ & -> & _); destruct Hs04 as (_ & <- & _); done|].
    eapply does_bind; [by apply does_prepare_move|]. intros [] w9 (Hm9 & Hn9 & Hg9 & Hsame).
    eapply does_weaken; [apply does_rename_or_copy; [done|by apply free_distinct]|].
    intros ? w10 Hr. by eapply relocated_grows.
Qed.
End Complete.

(** C3: A move that does not resume, under any policy but merge, of a source that is
    there to a path neither at, above nor below it, in a directory that is there, over a
    well-formed tree. Whatever fails (no call is answered that something is not there
    when it is) and whenever it is cancelled or paused: everything that was at the
    source, contents, links and directories, is still there when the move returns, or
    all of it is at the destination. The conditions are needed: a move that replaces a
    directory above its source loses it (replace_ancestor_loses), and so can a resumed
    one (resumed_move_loses). *)
Theorem move_lossless `{Platform, Libc, AttrCalls, Cloning, Packages, !CloneLaws} c (w w' : OW) from to d conflict v policy r :
  wf (fsys w) -> honest w -> apart from to -> present from (fsys w) ->
  parent to = Some d -> shape_at (fsys w) d = Some ShDir -> conflict <> Merge ->
  run (move_path from to conflict v policy false) c w = (r, w') ->
  arrived (fsys w) from (fsys w') from \/ arrived (fsys w) from (fsys w') to.
Proof.
  intros Hf Ho Ha Hp Hd Hs Hm Hrun.
  pose proof (lands_move c (fsys w) from to d Ha Hd Hs Hp w conflict v policy Hm Ho (conj Hf (changes_refl _ _ _))) as Hl.
  exact (ens_run c w _ _ _ _ Hl Hrun).
Qed.

Section MoveExcuse.
Context `{Platform, Libc}.
(** What may stop a move that has a place to go to. *)
Definition move_excuse (c : Control) (w : OW) (from to : FPath) : Prop :=
  trouble c w \/ crowded (fsys w) to \/ exists q, (under from q \/ under to q) /\ locked_at (fsys w) q.
End MoveExcuse.

(** C4: A move that does not resume, of a source that is there to a path neither at,
    above nor below it, in a directory that is there, over a well-formed tree; the path
    is free, or the policy is to replace what is there; no call is answered that
    something is not there when it is. The move (a rename, a copy and removal when the
    volumes are known to differ or the rename fails, a removal of one of two names of
    one file) returns [Ok] only when what was at the source is at the destination,
    nothing is at the source, and no other entry's shape has changed; it returns an
    error only when a poll or a call fails (or reads short), an item at or below either
    path is locked, or the names of the stage are taken. *)
Theorem move_complete `{Platform, Libc, AttrCalls, Cloning, Packages, !CloneLaws} c (w w' : OW) from to d conflict v policy r :
  wf (fsys w) -> honest w -> apart from to -> present from (fsys w) ->
  parent to = Some d -> shape_at (fsys w) d = Some ShDir ->
  free (fsys w) to \/ conflict = Replace ->
  run (move_path from to conflict v policy false) c w = (r, w') ->
  match r with
  | Ok _ => relocated from to (fsys w) (fsys w')
  | Err _ => move_excuse c w from to
  end.
Proof.
  intros Hf Ho Ha Hp Hd Hs Hpl Hrun.
  assert (Hm : movable (move_excuse c w from to) from to w).
  { split; [done|]. split; [by right|]. split; [done|]. split; [exact Hp|]. split; [by exists d|]. split.
    - intros q Hq Hl. right. right. by exists q.
    - intros Hc. right. by left. }
  pose proof (does_move c (move_excuse c w from to) w from to conflict v policy Hm Hpl) as Hdoes.
  assert (Hfair : fair c (move_excuse c w from to) w) by (intros Ht; by left).
  pose proof (ens_run c w _ _ _ _ (Hdoes Hfair) Hrun) as Hr. destruct r as [[]|e]; [|done]. by destruct Hr.
Qed.
