(* ===== verification/OperatorSpec.v ===== *)
(** * File operations: what the operator promises

    Nothing is done before the journal says that it starts; how it ends is the next
    line; whatever the operation does, it does not harm the journal. *)
From Stdlib Require Import Ascii.
From S2P Require Import Prelude Types Text Control Retry Paths FileSystem FileFacts TextFiles TrashMeta TrashSpec OpModel OpTree OpJournal JournalSpec Preserve Copy CopyFrame Relocate Removal CopyPath RemovalSpec MoveFrame Operator.
#[local] Open Scope string_scope.
#[local] Open Scope list_scope.

(** ** What only looks *)
Section Looking.
Context `{Platform}.
Lemma quiet_exists p : quiet (OpTree.path_exists_or_symlink p).
Proof. unfold OpTree.path_exists_or_symlink. apply quiet_bind; [apply quiet_look|]. quiet_auto. Qed.
Lemma quiet_find_keep_both todo p name : forall index, quiet (find_keep_both todo index p name).
Proof.
  induction todo as [|todo IH]; intros index; cbn [find_keep_both]; [apply quiet_fail|]. cbv zeta.
  apply quiet_bind; [apply quiet_exists|]. intros [|]; [apply IH|apply quiet_ret].
Qed.
Lemma quiet_keep_both p : quiet (keep_both_path p).
Proof.
  unfold keep_both_path. apply quiet_bind; [apply quiet_exists|]. intros [|]; cbn [negb]; [|apply quiet_ret].
  destruct (file_name p); [apply quiet_find_keep_both|apply quiet_fail].
Qed.
Lemma quiet_should_skip o policy : quiet (should_skip_operation o policy).
Proof.
  unfold should_skip_operation. case_decide; [apply quiet_ret|]. destruct (target_path o); [apply quiet_exists|apply quiet_ret].
Qed.
Lemma quiet_cancellation : quiet check_cancellation.
Proof. unfold check_cancellation. quiet_auto. Qed.
#[local] Hint Resolve quiet_cancellation : quiet.
Lemma quiet_plan_metadata p : quiet (plan_metadata p).
Proof. unfold plan_metadata. apply quiet_bind; [apply quiet_look|]. quiet_auto. Qed.
Lemma quiet_plan_entries plan p start : (forall q, quiet (plan q)) -> quiet (plan_entries plan p start).
Proof.
  intros Hp. unfold plan_entries. apply quiet_bind; [apply quiet_or_io, quiet_look|]. intros ns. apply quiet_for. intros acc n.
  apply quiet_bind; [apply quiet_cancellation|]. intros []. apply quiet_bind; [apply quiet_or_io, quiet_look|]. intros m.
  apply quiet_bind; [apply Hp|]. quiet_auto.
Qed.
Lemma quiet_plan_path fuel : forall p, quiet (plan_path fuel p).
Proof.
  induction fuel as [|fuel IH]; intros p; cbn [plan_path]; [apply quiet_fail|].
  apply quiet_bind; [apply quiet_cancellation|]. intros []. apply quiet_bind; [apply quiet_plan_metadata|]. intros m. cbv zeta.
  destruct (m_is_dir m); [by apply quiet_plan_entries|apply quiet_ret].
Qed.
Lemma quiet_plan o : quiet (plan_operation_checked o).
Proof.
  unfold plan_operation_checked. apply quiet_bind; [apply quiet_get|]. intros w. cbv zeta. destruct o; try apply quiet_plan_path.
  unfold plan_empty_trash. apply quiet_bind; [apply quiet_cancellation|]. intros []. apply quiet_bind; [apply quiet_plan_metadata|]. intros m.
  destruct (negb (m_is_dir m)); [apply quiet_fail|]. apply quiet_plan_entries. intros q. apply quiet_plan_path.
Qed.
Lemma quiet_tracker plan : quiet (new_tracker plan).
Proof. unfold new_tracker. apply quiet_bind; [apply quiet_now|]. intros n. apply quiet_bind; [apply quiet_change|]. intros []. apply quiet_emit. Qed.
End Looking.

(** ** What an operation may remove, and what it needs *)
Definition clears (x : OperationContext) (resuming : bool) (o : Operation) (q : FPath) : Prop :=
  match o with
  | OpCopy _ to => replaced (conflict x) to q
  | OpMove from to | OpRename from to => moved_away (conflict x) resuming from to q
  | OpRestore from to => moved_away (conflict x) false from to q \/ meta_own (trash_metadata_path x) q
  | OpDelete p | OpTrash p | OpEmptyTrash p => under p q \/ meta_own (trash_metadata_path x) q
  end.
(** The trash table is in its file where the operation keeps it. *)
Definition prepared `{Process} (x : OperationContext) (o : Operation) (f : Fs) : Prop :=
  let mp := trash_metadata_path x in
  match o with
  | OpCopy _ _ | OpMove _ _ | OpRename _ _ => True
  | OpDelete p => p <> [] /\ outside mp p /\ exists t, tracked mp t f
  | OpTrash p => (exists n, file_name p = Some n /\ n <> "" /\ starts_with "#" n = false) /\ exists t, tracked mp t f
  | OpEmptyTrash p => outside mp p /\ exists t, tracked mp t f /\ plain_rows t
  | OpRestore from to =>
      (exists n, file_name from = Some n) /\ aside mp (conflict x) from to /\ exists t, tracked mp t f
  end.

Section Applying.
Context `{Platform, Libc, AttrCalls, Cloning, Packages, !CloneLaws, Process, TrashCan, !TrashLaws} (c : Control).

Lemma leaves_apply x o resuming f : wf f -> prepared x o f -> leaves c (clears x resuming o) (apply x o resuming) f.
Proof.
  intros Hf Hp. destruct o as [from to|from to|from to|p|p|p|from to]; cbn [apply clears prepared] in *.
  - eapply leaves_keeps; [done|apply (keeps_copy c f)|done].
  - eapply leaves_keeps; [done|apply (keeps_moving c f)|done].
  - eapply leaves_keeps; [done|apply (keeps_moving c f)|done].
  - destruct Hp as (Hne & Ho & t & Ht). by eapply leaves_delete.
  - destruct Hp as ((n & Hn & Hne & Hs) & t & Ht). by eapply leaves_trash.
  - destruct Hp as (Ho & t & Ht & Hpl). by eapply leaves_empty.
  - destruct Hp as ((n & Hn) & Ha & t & Ht). by eapply leaves_restore.
Qed.
(** Everything that is done between two lines. *)
Lemma leaves_carry_out x o resuming f : retry_probe_path x = None -> wf f -> prepared x o f ->
  leaves c (clears x resuming o) (carry_out x o resuming) f.
Proof.
  intros Hpr Hf Hp. unfold carry_out. rewrite Hpr. apply leaves_after; [done|apply quiet_ret|]. intros [].
  apply leaves_after; [done|apply quiet_plan|]. intros plan. apply leaves_after; [done|apply quiet_tracker|]. intros [].
  by apply leaves_apply.
Qed.
End Applying.

(** ** The lines *)
(** How an operation [o] under the number [id] begins and ends. *)
Definition starting (id : N) (o : Operation) (e : JournalEntry) : Prop :=
  entry_op_id e = id /\ operation e = o /\ status e = Started /\ message e = None /\ (id < U128)%N /\ (timestamp_nanos e < U128)%N.
Definition finished (id : N) (o : Operation) (e : JournalEntry) : Prop :=
  entry_op_id e = id /\ operation e = o /\ (timestamp_nanos e < U128)%N /\
  ((status e = Completed /\ message e = None) \/ (status e = Skipped /\ is_Some (message e) /\ message e <> Some "")).
Definition error_entry (id : N) (o : Operation) (err : GfmError) (e : JournalEntry) : Prop :=
  entry_op_id e = id /\ operation e = o /\ (timestamp_nanos e < U128)%N /\
  status e = operation_status_from_error err /\ message e = error_message err.
(** The text after the first line of an operation that returns an error: the line
    of the error; or a part of a last line, when it could not be written; or
    nothing, when looking for what to skip failed. *)
Definition unfinished (T : Prop) (x : OperationContext) (id : N) (o : Operation) (err : GfmError) (t : string) : Prop :=
  (exists e, error_entry id o err e /\ t = entry_line e) \/
  (T /\ exists e, entry_op_id e = id /\ operation e = o /\ status e <> Started /\ begins t (entry_line e)) \/
  (conflict x = Skip /\ t = "").

(** The destination that the keep-both policy chose. *)
Definition retarget (o : Operation) (to : FPath) : Operation :=
  match o with
  | OpCopy from _ => OpCopy from to
  | OpMove from _ => OpMove from to
  | OpRename from _ => OpRename from to
  | OpRestore from _ => OpRestore from to
  | o => o
  end.
(** The destination asked for, or a numbered name beside it. *)
Definition sibling (d to : FPath) : Prop :=
  to = d \/ exists name index, file_name d = Some name /\ to = FileSystem.join (default [] (parent d)) (keep_both_name name index).
Definition resolved (x : OperationContext) (o o' : Operation) : Prop :=
  o' = o \/ (conflict x = KeepBoth /\ exists d to, target_path o = Some d /\ sibling d to /\ o' = retarget o to).
(** The trash table is not under another name of the journal. *)
Definition unshared `{Process} (x : OperationContext) (f : Fs) : Prop :=
  forall m, trash_metadata_path x = Some m -> ~ touches m (journal_path x) /\
    (names f !! m = names f !! journal_path x -> names f !! m = None).
(** The operation has not begun: nothing has changed but the journal, in which
    there is at most a part of its first line. *)
Definition not_begun (T : Prop) (x : OperationContext) (s : string) (f f' : Fs) : Prop :=
  f' = f \/ (T /\ exists id o e t, starting id o e /\ begins t (entry_line e) /\ extended (journal_path x) s t f f').
(** What the journal says when an operation returns. *)
Definition journaled (T : Prop) (x : OperationContext) (s : string) (o : Operation) (f : Fs)
    (r : Res JournalEntry) (f' : Fs) : Prop :=
  ((exists err, r = Err err) /\ not_begun T x s f f') \/
  exists id o' e0 t, resolved x o o' /\ starting id o' e0 /\
    written (journal_path x) (s +:+ entry_line e0 +:+ t) f' /\
    match r with
    | Ok e => finished id o' e /\ t = entry_line e
    | Err err => unfinished T x id o' err t
    end.

Lemma split_on_plain c d s : has_char d s = false -> Forall (fun f => has_char d f = false) (split_on c s).
Proof.
  induction s as [|a s IH]; cbn [split_on has_char]; [intros _; by constructor|]. case_decide as Hd; [done|]. intros Hs. specialize (IH Hs).
  case_decide; [by constructor|]. assert (Hc : forall f, has_char d f = false -> has_char d (String a f) = false) by (intros f Hf; cbn; by rewrite decide_False).
  destruct (split_on c s) as [|f fs]; [by repeat constructor; apply Hc|]. apply Forall_cons in IH as [Hf Hfs]. constructor; [by apply Hc|done].
Qed.
Lemma concat_plain c sep l : has_char c sep = false -> Forall (fun f => has_char c f = false) l -> has_char c (String.concat sep l) = false.
Proof.
  intros Hs Hl. induction Hl as [|f fs Hf Hfs IH]; [done|]. destruct fs as [|g fs]; [done|].
  change (String.concat sep (f :: g :: fs)) with (f +:+ sep +:+ String.concat sep (g :: fs)). by rewrite !has_char_app, Hf, Hs, IH.
Qed.
Lemma split_name_plain c n : has_char c n = false -> has_char c "." = false ->
  has_char c (split_name n).1 = false /\ forall e, (split_name n).2 = Some e -> has_char c e = false.
Proof.
  intros Hn Hdot. unfold split_name. case_decide; [done|]. pose proof (split_on_plain "."%char c n Hn) as Hall. apply Forall_reverse in Hall.
  destruct (reverse (split_on "."%char n)) as [|after before]; [done|]. apply Forall_cons in Hall as [Ha Hb].
  case_decide; [done|]. cbn [fst snd]. split; [apply concat_plain; [done|by apply Forall_reverse]|by intros e [= <-]].
Qed.
Lemma keep_both_simple n index : simple_name n -> simple_name (keep_both_name n index).
Proof.
  intros (_ & _ & _ & Hs). destruct (split_name_plain SLASH n Hs eq_refl) as [H1 H2]. unfold keep_both_name.
  destruct (split_name n) as [stem ext]. cbn [fst snd] in H1, H2. set (suffix := if Nat.eqb index 1 then _ else _).
  assert (Hsuf : has_char SLASH suffix = false).
  { subst suffix. destruct (Nat.eqb index 1); [done|]. rewrite has_char_app, u64_to_string_plain by done. done. }
  assert (Hlen : 5 <= String.length suffix) by (subst suffix; destruct (Nat.eqb index 1); [done|]; rewrite length_append; cbn; lia).
  assert (Hx : forall t, has_char SLASH t = false -> simple_name (stem +:+ suffix +:+ t)).
  { intros t Ht. assert (Hl : 5 <= String.length (stem +:+ suffix +:+ t)) by (rewrite !length_append; lia).
    split_and!; [intros E; rewrite E in Hl; cbn in Hl; lia..|]. by rewrite !has_char_app, H1, Hsuf, Ht. }
  destruct ext as [e|]; [apply Hx; rewrite has_char_app, (H2 e eq_refl); done|]. specialize (Hx "" eq_refl). by rewrite string_app_nil_r in Hx.
Qed.
Lemma sibling_ok d to : path_ok d -> sibling d to -> path_ok to.
Proof.
  intros Hd [->|(name & index & Hn & ->)]; [done|]. unfold FileSystem.join, path_ok. destruct d as [|a d] using rev_ind; [done|].
  unfold file_name in Hn. rewrite last_snoc in Hn. injection Hn as ->. apply Forall_app in Hd as [Hd [Ha _]%Forall_cons].
  apply Forall_app. split; [|apply Forall_singleton, keep_both_simple, Ha].
  unfold parent. destruct (d ++ [name]) eqn:E; [by destruct d|]. rewrite <- E. cbn [default from_option]. by rewrite removelast_last.
Qed.
Lemma resolved_ok x o o' : resolved x o o' -> op_ok o -> op_ok o'.
Proof.
  intros [->|(_ & d & to & Ht & Hs & ->)]; [done|]. destruct o as [from t|from t|from t|q|q|q|from t]; cbn in Ht |- *; try done;
    injection Ht as ->; intros [Hf Hd]; (split; [done|by eapply sibling_ok]).
Qed.
Lemma ensures_keep_both `{Platform} p : ensures (S := OW) (keep_both_path p) (sibling p).
Proof.
  unfold keep_both_path. eapply ensures_bind; [apply ensures_true|]. intros [|] _; cbn [negb]; [|apply ensures_ret; by left].
  destruct (file_name p) as [name|] eqn:Hn; [|done]. generalize (N.to_nat KEEP_BOTH_LIMIT), 1. intros todo. induction todo as [|todo IH]; intros index; cbn [find_keep_both]; [done|].
  cbv zeta. eapply ensures_bind; [apply ensures_true|]. intros [|] _; [apply IH|]. apply ensures_ret. right. by exists name, index.
Qed.
Lemma yields_ensures {B} c T (I : Fs -> Prop) (m : Op B) J E (P : B -> Prop) :
  yields c T I m J E -> ensures m P -> yields c T I m (fun b f => J b f /\ P b) E.
Proof.
  intros Hm HP w HT Ho Hl Hw k. specialize (Hm w HT Ho Hl Hw k). destruct (m c k w) as [[[b|e] k'] w'] eqn:Em; [|exact Hm].
  destruct Hm as [Hk HJ]. split; [exact Hk|]. split; [exact HJ|]. by eapply HP.
Qed.

Section Resolving.
Context `{Process}.
Lemma clears_resolved x o o' q : resolved x o o' -> clears x false o' q -> clears x false o q.
Proof.
  intros [->|(Hk & d & to & _ & _ & ->)]; [done|].
  destruct o as [from to0|from to0|from to0|p|p|p|from to0]; cbn; rewrite ?Hk; unfold replaced, moved_away; naive_solver.
Qed.
(** A numbered name leads nowhere the name beside it does not. *)
Lemma near_sibling d to q : sibling d to -> near to q -> near d q.
Proof.
  intros [->|(n & i & _ & ->)]; [done|]. unfold near. rewrite parent_join. intros [Hq|Hq]; [by left|].
  destruct (under_comparable q (default [] (parent d)) _ Hq (under_app _ _)) as [Hd|Hd]; [|by left].
  destruct (parent d) as [p|] eqn:E; [|left; apply prefix_nil]. right. apply parent_Some in E as [m ->]. by apply prefix_app_r.
Qed.
Lemma aside_sibling mp from d to : sibling d to -> aside mp KeepBoth from d -> aside mp KeepBoth from to.
Proof.
  intros Hs Ha m Hm. destruct (Ha m Hm) as [Hq Hd]. unfold moved_away in *. split.
  - intros q Ht. destruct (Hq q Ht) as [Hn Hm']. split; [by intros ?%(near_sibling d)|naive_solver].
  - intros p Hp. specialize (Hd p Hp). naive_solver.
Qed.
Lemma prepared_resolved x o o' f : resolved x o o' -> prepared x o f -> prepared x o' f.
Proof.
  intros [->|(Hk & d & to & Ht & Hs & ->)]; [done|]. destruct o as [from to0|from to0|from to0|p|p|p|from to0]; try done.
  injection Ht as ->. cbn. rewrite Hk. intros (Hn & Ha & Hx). split_and!; [done|by eapply aside_sibling|done].
Qed.
Lemma tracked_extended x s t tbl f f' : unshared x f -> written (journal_path x) s f -> extended (journal_path x) s t f f' ->
  tracked (trash_metadata_path x) tbl f -> tracked (trash_metadata_path x) tbl f'.
Proof.
  intros Hu (_ & _ & Hs) [(Hf' & _) Hb]. destruct (trash_metadata_path x) as [m|] eqn:Em; [|done]. cbn. intros Ht.
  destruct (Hu m Em) as [Hnt Hne]. pose proof Ht as ((Hf & (d & Hd & Hsd) & Hfree & _) & _).
  apply (tabled_moved m tbl f f' Hf' Ht). intros q Hq. symmetry. apply Hb.
  assert (Hdir : beside (journal_path x) f d).
  { destruct Hs as [Hs|[Hs _]].
    - split; [intros ->; congruence|]. intros E. exfalso. unfold at_text, shape_at, lookup_inode in *. rewrite E in Hsd. congruence.
    - apply shape_at_None in Hs; [|done]. split; [|congruence]. intros ->. apply shape_at_names in Hsd as [i Hi]. congruence. }
  destruct Hq as [Hq|[->|[n ->]]].
  - destruct (decide (q = d)) as [->|Hqd]; [done|]. exfalso. apply Hq. intros d' Hd' ->. by simplify_eq.
  - split; [|done]. intros E. apply Hnt. by left.
  - split; [|by intros _; apply Hfree]. intros E. apply Hnt. right. by exists n.
Qed.
Lemma prepared_extended x o s t f f' : unshared x f -> written (journal_path x) s f -> extended (journal_path x) s t f f' ->
  prepared x o f -> prepared x o f'.
Proof.
  intros Hu Hw He. pose proof (fun tbl => tracked_extended x s t tbl f f' Hu Hw He).
  destruct o; cbn; naive_solver.
Qed.
End Resolving.

Section Journaling.
Context `{Platform, Libc, AttrCalls, Cloning, Packages, !CloneLaws, Process, TrashCan, !TrashLaws} (c : Control) (T : Prop).
Context (x : OperationContext) (Hprobe : retry_probe_path x = None).
Abbreviation yields := (yields (X := OpState) c T).
Abbreviation jp := (journal_path x).

Lemma appended_written s e f f' : appended jp s e f f' -> written jp (s +:+ entry_line e) f'.
Proof. by intros []. Qed.
Lemma torn_written s e f f' : written jp s f -> torn jp s e f f' -> exists t, begins t (entry_line e) /\ written jp (s +:+ t) f'.
Proof.
  intros Hw [->|(t & Ht & [Hw' _])]; [|by exists t]. exists "". rewrite string_app_nil_r. split; [|done]. by eexists.
Qed.
(** A line is made and appended. *)
Lemma yields_line (P : JournalEntry -> Prop) (make : Op JournalEntry) s f : written jp s f ->
  yields (eq f) make (fun e f' => P e /\ f = f') (fun _ _ => False) ->
  yields (eq f) (e <- make ; append x e ;; mret e) (fun e f' => P e /\ written jp (s +:+ entry_line e) f')
    (fun _ f' => T /\ exists e t, P e /\ begins t (entry_line e) /\ written jp (s +:+ t) f').
Proof.
  intros Hw Hm. eapply yields_bind; [eapply yields_weaken; [exact Hm|done..]|]. intros e. apply yields_at. intros ? [He <-].
  eapply yields_bind; [eapply yields_weaken; [by apply (yields_append_journal c T jp s e f)|done..|]|].
  - intros ? f' [HT Ht]. destruct (torn_written s e f f' Hw Ht) as (t & Hb & Hw'). split; [done|]. by exists e, t.
  - intros []. apply yields_ret. intros f' Ha. split; [done|]. by apply appended_written in Ha.
Qed.
Lemma yields_entry_now f id st o m (P : JournalEntry -> Prop) :
  (forall now, (now < U128)%N -> P (mkOpEntry id st o m now)) ->
  yields (eq f) (entry_now id st o m) (fun e f' => P e /\ f = f') (fun _ _ => False).
Proof.
  intros HP. eapply yields_bind; [apply yields_now|]. intros now. apply yields_ret. intros ? [Hn <-]. by auto.
Qed.
Lemma yields_from_error f id o err : yields (eq f) (from_error id o err) (fun e f' => error_entry id o err e /\ f = f') (fun _ _ => False).
Proof. unfold from_error, paused, cancelled, failed. destruct err; by apply yields_entry_now. Qed.
Lemma error_not_started id o err e : error_entry id o err e -> status e <> Started.
Proof. intros (_ & _ & _ & -> & _). by destruct err. Qed.
Lemma yields_record_error {A} s f id o err : written jp s f ->
  yields (eq f) (record_error (A := A) x id o err) (fun _ _ => False)
    (fun err' f' => exists t, unfinished T x id o err' t /\ written jp (s +:+ t) f').
Proof.
  intros Hw. unfold record_error. eapply yields_bind; [eapply yields_weaken; [apply yields_from_error|done..]|].
  intros e. apply yields_at. intros ? [He <-].
  eapply yields_bind; [apply yields_attempt; by apply (yields_append_journal c T jp s e f)|].
  intros [[]|e']; apply yields_fail.
  - intros f' Ha. exists (entry_line e). split; [left; by exists e|by apply appended_written in Ha].
  - intros f' [HT Ht]. destruct (torn_written s e f f' Hw Ht) as (t & Hb & Hw'). exists t. split; [|done]. right. left.
    split; [done|]. pose proof He as (? & ? & _). exists e. split_and!; [done..| |done]. by eapply error_not_started.
Qed.

(** The journal outlives what is done. *)
Lemma written_at s f : written jp s f -> s <> "" -> at_text f jp s.
Proof. by intros (_ & _ & [?|[_ ?]]). Qed.
Lemma written_kept s D f f' : written jp s f -> s <> "" -> inv everywhere D f f' -> ~ D jp -> written jp s f'.
Proof.
  intros Hw Hs [Hf' Hc] HD. pose proof Hw as (_ & (d & Hd & _) & _). pose proof (written_at s f Hw Hs) as Hat.
  assert (Hat' : at_text f' jp s) by (eapply changes_shape_at; [exact Hc|exact Hat|done]). split; [done|]. split; [|by left].
  eapply wf_placed; [done| |exact Hat']. by intros E; rewrite E in Hd.
Qed.
Lemma leaves_yields {B} D (m : Op B) f : leaves c D m f ->
  yields (eq f) m (fun _ => inv everywhere D f) (fun _ => inv everywhere D f).
Proof. intros Hm w _ Ho Hl Hw. by apply Hm. Qed.
Lemma yields_unchanged {B} f (m : Op B) : quiet m -> yields (eq f) m (fun _ => eq f) (fun _ => eq f).
Proof. intros Hq w _ Ho Hl Hw. by apply (yields_same c f m Hq w (fun _ => I)). Qed.

(** The two ways an operation that started can end, from a tree [f]. *)
Abbreviation ends_well id o s := (fun e f' => finished id o e /\ written jp (s +:+ entry_line e) f').
Abbreviation ends_badly id o s := (fun err f' => exists t, unfinished T x id o err t /\ written jp (s +:+ t) f').
Lemma yields_final id o s make f : written jp s f ->
  yields (eq f) make (fun e f' => finished id o e /\ f = f') (fun _ _ => False) ->
  yields (eq f) (e <- make ; append x e ;; mret e) (ends_well id o s) (ends_badly id o s).
Proof.
  intros Hw Hm. eapply yields_weaken; [by apply (yields_line (finished id o))|done..|].
  intros err f' (HT & e & t & He & Ht & Hw'). exists t. split; [|done]. right. left. split; [done|]. exists e.
  destruct He as (? & ? & _ & [[E _]|[E _]]); (split_and!; [done..| |done]); by rewrite E.
Qed.
Lemma yields_carried id o resuming s f : written jp s f -> s <> "" -> prepared x o f -> ~ clears x resuming o jp ->
  yields (eq f) (result <- attempt (carry_out x o resuming) ;
                 match result with
                 | Ok _ => e <- completed id o ; append x e ;; mret e
                 | Err err => record_error x id o err
                 end) (ends_well id o s) (ends_badly id o s).
Proof.
  intros Hw Hs Hp Hcl. pose proof Hw as (Hf & _).
  eapply yields_bind; [apply yields_attempt, leaves_yields; by apply leaves_carry_out|].
  intros [u|err]; apply yields_at; intros f1 Hi;
    (assert (Hw1 : written jp s f1) by (by eapply written_kept)).
  - apply yields_final; [done|]. apply yields_entry_now. intros now Hn. split_and!; [done..|]. by left.
  - eapply yields_weaken; [by apply (yields_record_error s f1 id o err)|done..].
Qed.
Lemma yields_started id o resuming s f : written jp s f -> s <> "" -> prepared x o f -> ~ clears x resuming o jp ->
  yields (eq f) (execute_started_inner x id o resuming) (ends_well id o s) (ends_badly id o s).
Proof.
  intros Hw Hs Hp Hcl. unfold execute_started_inner. destruct (gate_check _ _) as [u|err].
  2:{ eapply yields_weaken; [by apply (yields_record_error s f id o err)|done..]. }
  eapply yields_bind with (J := fun _ => eq f).
  - destruct (decide (conflict x = Skip)) as [Hsk|Hsk].
    + eapply yields_weaken; [apply yields_unchanged, quiet_should_skip|done..|].
      intros err f' <-. exists "". rewrite string_app_nil_r. split; [|done]. by right; right.
    + unfold should_skip_operation. rewrite decide_True by done. by apply yields_ret.
  - intros [|]; [|by apply yields_carried]. apply yields_final; [done|].
    apply yields_entry_now. intros now Hn. split_and!; [done..|]. right. by split_and!.
Qed.
Lemma yields_resolve o f : yields (eq f) (resolve_operation_conflicts o (conflict x)) (fun o' f' => resolved x o o' /\ f = f') (fun _ => eq f).
Proof.
  unfold resolve_operation_conflicts. case_decide as Hk; [apply yields_ret; intros ? <-; split; [by left|done]|].
  assert (Hkb : forall (g : FPath -> Operation) to, target_path o = Some to -> (forall q, g q = retarget o q) ->
    yields (eq f) (to <- keep_both_path to ; mret (g to)) (fun o' f' => resolved x o o' /\ f = f') (fun _ => eq f)).
  { intros g to Ht Hg. eapply yields_bind; [apply yields_ensures; [apply yields_unchanged, quiet_keep_both|apply (ensures_keep_both to)]|]. intros q. apply yields_ret.
    intros ? [<- Hs]. split; [|done]. right. split; [exact Hk|]. exists to, q. by rewrite Hg. }
  destruct o; try (by apply Hkb); (apply yields_ret; intros ? <-; split; [by left|done]).
Qed.
Lemma yields_begin o s f : written jp s f ->
  yields (eq f) (begin x o) (fun id f' => exists e, starting id o e /\ appended jp s e f f') (fun _ => not_begun T x s f).
Proof.
  intros Hw. unfold begin. eapply yields_bind; [apply yields_now|]. intros id. apply yields_at. intros ? [Hid <-].
  eapply yields_bind; [eapply yields_weaken; [apply (yields_entry_now f id Started o None (starting id o)); intros now Hn; by split_and!|done..]|].
  intros e. apply yields_at. intros ? [He <-].
  eapply yields_bind; [eapply yields_weaken; [by apply (yields_append_journal c T jp s e f)|done|intros ? f' Hx; exact Hx|]|].
  - intros err f' [HT [->|(t & Ht & Hext)]]; [by left|]. right. split; [done|]. by exists id, o, e, t.
  - intros []. apply yields_ret. intros f' Ha. by exists e.
Qed.
Lemma entry_line_nonempty e : entry_line e <> "".
Proof. unfold entry_line. by destruct (encode_entry e). Qed.
Lemma app_nonempty (s t : string) : t <> "" -> s +:+ t <> "".
Proof. by destruct s. Qed.
Lemma journaled_end s o o' id e0 f r f' t : resolved x o o' -> starting id o' e0 ->
  written jp ((s +:+ entry_line e0) +:+ t) f' ->
  match r with Ok e => finished id o' e /\ t = entry_line e | Err err => unfinished T x id o' err t end ->
  journaled T x s o f r f'.
Proof. intros Ho He Hw Hr. right. exists id, o', e0, t. rewrite <- string_app_assoc. done. Qed.

Lemma yields_execute o s f : written jp s f -> unshared x f -> prepared x o f -> ~ clears x false o jp ->
  yields (eq f) (execute_with_progress x o) (fun e => journaled T x s o f (Ok e)) (fun err => journaled T x s o f (Err err)).
Proof.
  intros Hw Hu Hp Hcl. unfold execute_with_progress.
  assert (Hnot : forall err f', not_begun T x s f f' -> journaled T x s o f (Err err) f') by (intros err f' Hn; left; split; [by exists err|done]).
  destruct (gate_check _ _) as [u|err].
  - eapply yields_bind; [eapply yields_weaken; [apply yields_resolve|done|intros ? f' Hx; exact Hx|]|].
    { intros err f' <-. apply Hnot. by left. }
    intros o'. apply yields_at. intros ? [Hr <-].
    eapply yields_bind; [eapply yields_weaken; [by apply (yields_begin o' s f)|done|intros ? f' Hx; exact Hx|apply Hnot]|].
    intros id. apply yields_at. intros f1 (e0 & He0 & Ha).
    eapply yields_weaken; [apply (yields_started id o' false (s +:+ entry_line e0) f1)|done| |].
    + by eapply appended_written.
    + apply app_nonempty, entry_line_nonempty.
    + eapply prepared_extended; [done|done|exact Ha|]. by eapply prepared_resolved.
    + intros Hc. by apply Hcl, (clears_resolved x o o').
    + intros e f' [He Hw']. by eapply (journaled_end s o o' id e0 f (Ok e) f' (entry_line e)).
    + intros err f' (t & Ht & Hw'). by eapply (journaled_end s o o' id e0 f (Err err) f' t).
  - eapply yields_bind; [eapply yields_weaken; [by apply (yields_begin o s f)|done|intros ? f' Hx; exact Hx|apply Hnot]|].
    intros id. apply yields_at. intros f1 (e0 & He0 & Ha).
    eapply yields_weaken; [apply (yields_record_error (s +:+ entry_line e0) f1 id o err); by eapply appended_written|done|done|].
    intros err' f' (t & Ht & Hw'). eapply (journaled_end s o o id e0 f (Err err') f' t); [by left|done..].
Qed.
End Journaling.

(** ** The theorems *)
(** C6: Whatever fails and whenever it is stopped, the journal says what an operation
    did. Either the operation has not begun, and nothing but (at most) a part of a line
    in the journal has changed; or a line says that it started, and after it the journal
    has exactly one more line, of the status returned, when the result is [Ok], and when
    it is an error the line of that error, unless that line could not be written or
    there was nothing to look at for what to skip. This is where no call is answered
    that something is not there when it is, the clock shows at most 128 bits, no retry
    probe is configured, the journal is a file, or none yet, with no other name and not
    at the place of the trash table, the operation does not itself remove, move away or
    replace the journal's file, and the operation is prepared: its trash table, if it
    has one, can be read and is not below what is deleted or emptied nor where an item
    is restored; the root is not deleted, an item to trash has a name that is not empty
    and does not begin with [#], one to restore has a name, and when the trash is
    emptied the rows of the table have plain names. *)
Theorem journal_spec `{Platform, Libc, AttrCalls, Cloning, Packages, !CloneLaws, Process, TrashCan, !TrashLaws}
    c (w w' : OW) x o s r :
  honest w -> timely w -> retry_probe_path x = None ->
  written (journal_path x) s (fsys w) -> unshared x (fsys w) -> prepared x o (fsys w) -> ~ clears x false o (journal_path x) ->
  run (execute_with_progress x o) c w = (r, w') ->
  journaled (trouble c w) x s o (fsys w) r (fsys w').
Proof.
  intros Ho Hl Hpr Hw Hu Hp Hcl Hrun.
  pose proof (yields_run c (trouble c w) _ _ _ _ w r w' (yields_execute c (trouble c w) x Hpr o s (fsys w) Hw Hu Hp Hcl)
    (fun t => t) Ho Hl eq_refl Hrun) as Hr.
  by destruct r.
Qed.

Lemma starting_ok id o e : starting id o e -> op_ok o -> entry_ok e.
Proof. intros (Hi & Ho & _ & Hm & Hid & Ht) Hok. split_and!; [congruence|done|by rewrite Hm|congruence]. Qed.
Lemma finished_ok id o e : finished id o e -> (id < U128)%N -> op_ok o -> entry_ok e.
Proof. intros (Hi & Ho & Ht & Hm) Hid Hok. split_and!; [congruence|done| |congruence]. destruct Hm as [[_ ->]|(_ & _ & ?)]; done. Qed.

(** C7: An operation that returns [Ok] is in the journal: reading it back gives the
    entries before, an entry that says it started and the entry returned, in that order,
    and the operation is not recovered under any policy. The entries are of the
    operation asked for, or under the keep-both policy of the same operation to a
    numbered name beside its destination. This is where no call is answered that
    something is not there when it is, the clock shows at most 128 bits, no retry probe
    is configured, the journal holds good entries and has no other name and not the
    place of the trash table, the operation's paths are such as a line of the journal
    holds, the operation does not itself remove, move away or replace the journal's
    file, and the operation is prepared: its trash table, if it has one, can be read and
    is not below what is deleted or emptied nor where an item is restored; the root is
    not deleted, an item to trash has a name that is not empty and does not begin with
    [#], one to restore has a name, and when the trash is emptied the rows of the table
    have plain names. *)
Theorem operation_recorded `{Platform, Libc, AttrCalls, Cloning, Packages, !CloneLaws, Process, TrashCan, !TrashLaws}
    c (w w1 w2 : OW) x o es e r :
  honest w -> timely w -> retry_probe_path x = None ->
  written (journal_path x) (journal_text es) (fsys w) -> Forall entry_ok es -> op_ok o ->
  unshared x (fsys w) -> prepared x o (fsys w) -> ~ clears x false o (journal_path x) ->
  run (execute_with_progress x o) c w = (Ok e, w1) ->
  run (journal x) c w1 = (r, w2) ->
  resolved x o (operation e) /\ finished (entry_op_id e) (operation e) e /\
  match r with
  | Ok es' =>
      (exists e0, starting (entry_op_id e) (operation e) e0 /\ es' = es ++ [e0; e]) /\
      forall policy plan, plan ∈ recoverable_operations es' policy -> entry_op_id (plan_entry plan) <> entry_op_id e
  | Err _ => trouble c w
  end.
Proof.
  intros Ho Hl Hpr Hw Hes Hok Hu Hp Hcl Hrun Hrun'.
  pose proof (ens_run c w _ _ _ _ (yields_execute c (trouble c w) x Hpr o _ (fsys w) Hw Hu Hp Hcl w (fun t => t) Ho Hl eq_refl) Hrun) as [Hkin Hj].
  destruct Hj as [[[err Herr] _]|(id & o' & e0 & t & Hres & He0 & Hw1 & He & ->)]; [done|].
  pose proof He as (<- & Eo & _). rewrite Eo. split; [exact Hres|]. split; [exact He|].
  pose proof (resolved_ok x o o' Hres Hok) as Hok'.
  change (journal_text es +:+ entry_line e0 +:+ entry_line e) with (journal_text es +:+ (entry_line e0 +:+ entry_line e)) in Hw1.
  rewrite <- string_app_assoc, <- !entries_text_snoc, <- app_assoc in Hw1. cbn [app] in Hw1.
  pose proof He0 as (_ & _ & _ & _ & Hid & _).
  assert (Hall : Forall entry_ok (es ++ [e0; e])).
  { apply Forall_app. split; [done|]. constructor; [by eapply starting_ok|]. constructor; [by eapply finished_ok|constructor]. }
  pose proof (yields_run c (trouble c w) _ _ _ _ w1 r w2 (looks_read_journal c (trouble c w) (journal_path x) _ (fsys w1) Hw1 Hall)
    (fun y => trouble_kin c w w1 Hkin y) (honest_kin w w1 Hkin Ho) (timely_kin w w1 Hkin Hl) eq_refl Hrun') as Hr.
  destruct r as [es'|err]; destruct Hr as [Hr _]; [|done]. subst es'. split; [by exists e0|].
  intros policy plan [Hlast Hrec]%recovered_elem E. rewrite E in *.
  change [e0; e] with ([e0] ++ [e]) in Hlast. rewrite app_assoc, last_entry_snoc in Hlast. injection Hlast as Hlast.
  rewrite <- Hlast in Hrec. destruct He as (_ & _ & _ & [[Es _]|[Es _]]); unfold recovers in Hrec; by rewrite Es in Hrec.
Qed.

(** After an append that broke off in the middle of a line (past its first
    field and before its last), and whatever is appended later, the journal cannot
    be read: recovering returns an error, does nothing, and leaves every
    interrupted operation as it is. *)
Theorem torn_journal `{Platform, Libc, AttrCalls, Cloning, Packages, Process, TrashCan}
    c (w w' : OW) x es t later policy r :
  honest w -> timely w -> wf (fsys w) ->
  at_text (fsys w) (journal_path x) (journal_text es +:+ t +:+ journal_text later) ->
  Forall entry_ok es -> line_ok t -> 2 <= length (split_on TAB t) <= 6 ->
  run (recover_with_policy x policy) c w = (r, w') ->
  (exists err, r = Err err) /\ fsys w' = fsys w.
Proof.
  intros Ho Hl Hf Hat Hes Ht Hlen Hrun. destruct (torn_lines es t later Ht Hlen) as (bad & more & Hlines & Hbad).
  assert (Hp : journal_path x <> []) by (intros E; rewrite E in Hat; pose proof (wf_root _ Hf); unfold at_text in Hat; congruence).
  assert (Hw : written (journal_path x) (journal_text es +:+ t +:+ journal_text later) (fsys w)).
  { split; [done|]. split; [by eapply wf_placed|by left]. }
  assert (Hy : yields (X := OpState) c True (eq (fsys w)) (recover_with_policy x policy) (fun _ _ => False) (fun _ => eq (fsys w))).
  { unfold recover_with_policy, journal. eapply yields_bind with (J := fun _ _ => False); [|intros ? ? ??? []].
    exact (read_journal_stuck c True _ _ es bad more (fsys w) Hat Hw Hes Hlines Hbad). }
  pose proof (yields_run c True _ _ _ _ w r w' Hy (fun _ => I) Ho Hl eq_refl Hrun) as Hr.
  destruct r as [?|err]; [done|]. split; [by exists err|done].
Qed.

(** ** Batches *)
Section Batches.
Context `{Platform, Libc, AttrCalls, Cloning, Packages, Process, TrashCan}.

(** What is known of a value returned, whatever the world. *)
Definition gives {A} (P : A -> Prop) (m : Op A) : Prop := forall c k w a, (m c k w).1.1 = Ok a -> P a.
Lemma gives_fail {A} (P : A -> Prop) e : gives P (mfail e).
Proof. by intros c k w a. Qed.
Lemma gives_ret {A} (P : A -> Prop) a : P a -> gives P (mret a).
Proof. intros Ha c k w ? [= <-]. done. Qed.
Lemma gives_bind {A B} (P : B -> Prop) (Q : A -> Prop) (m : Op A) (f : A -> Op B) :
  gives Q m -> (forall a, Q a -> gives P (f a)) -> gives P (mbind m f).
Proof.
  intros Hm Hf c k w b. unfold mbind. specialize (Hm c k w). destruct (m c k w) as [[[a|e] k'] w']; [|done].
  cbn in Hm. by apply Hf, Hm.
Qed.
Lemma gives_any {A} (m : Op A) : gives (fun _ => True) m.
Proof. done. Qed.
Lemma gives_then {A B} (P : B -> Prop) (m : Op A) (f : A -> Op B) : (forall a, gives P (f a)) -> gives P (mbind m f).
Proof. intros Hf. eapply gives_bind; [apply gives_any|auto]. Qed.

Definition settled (e : JournalEntry) : Prop := status e = Completed \/ status e = Skipped.
Lemma gives_line x make : gives settled make -> gives settled (e <- make ; append x e ;; mret e).
Proof. intros Hm. eapply gives_bind; [exact Hm|]. intros e He. apply gives_then. intros []. by apply gives_ret. Qed.
Lemma gives_now id s o m : s = Completed \/ s = Skipped -> gives settled (entry_now id s o m).
Proof. intros Hs. apply gives_then. intros now. by apply gives_ret. Qed.
Lemma gives_record {A} (P : A -> Prop) x id o err : gives P (record_error x id o err).
Proof. apply gives_then. intros e. apply gives_then. intros r. apply gives_fail. Qed.
Lemma gives_started x id o resuming : gives settled (execute_started_inner x id o resuming).
Proof.
  unfold execute_started_inner. destruct (gate_check _ _); [|apply gives_record]. apply gives_then. intros [|].
  - apply gives_line, gives_now. by right.
  - apply gives_then. intros [u|err]; [|apply gives_record]. apply gives_line, gives_now. by left.
Qed.
Lemma gives_execute x o : gives settled (execute_with_progress x o).
Proof.
  unfold execute_with_progress. destruct (gate_check _ _).
  - apply gives_then. intros o'. apply gives_then. intros id. apply gives_started.
  - apply gives_then. intros id. apply gives_record.
Qed.

(** A batch, one operation after another. *)
Definition stops (s : OperationStatus) : Prop := s = Cancelled \/ s = Paused.
#[export] Instance stops_dec s : Decision (stops s).
Proof. unfold stops. apply _. Defined.
Definition outcome_of (policy : ConflictPolicy) (o : Operation) (r : Res JournalEntry) : OperationBatchOutcome :=
  match r with
  | Ok e => mkBatchOutcome policy (status e) (operation e) (message e)
  | Err err => mkBatchOutcome policy (operation_status_from_error err) o (error_message err)
  end.
(** [outs] are the outcomes of [os], run from a world, up to the first that stops. *)
Inductive batch_runs (x : OperationContext) (plan : OperationConflictPlan) (c : Control) :
    list Operation -> nat -> OW -> list OperationBatchOutcome -> nat -> OW -> Prop :=
  | batch_end k w : batch_runs x plan c [] k w [] k w
  | batch_stop o os k w r k1 w1 :
      execute_with_progress (with_conflict (conflict_for plan o) x) o c k w = (r, k1, w1) ->
      stops (batch_status (outcome_of (conflict_for plan o) o r)) ->
      batch_runs x plan c (o :: os) k w [outcome_of (conflict_for plan o) o r] k1 w1
  | batch_next o os k w r k1 w1 outs k2 w2 :
      execute_with_progress (with_conflict (conflict_for plan o) x) o c k w = (r, k1, w1) ->
      ~ stops (batch_status (outcome_of (conflict_for plan o) o r)) ->
      batch_runs x plan c os k1 w1 outs k2 w2 ->
      batch_runs x plan c (o :: os) k w (outcome_of (conflict_for plan o) o r :: outs) k2 w2.

Lemma batch_refines x plan c os : forall k w acc, exists outs k' w',
  execute_batch x plan os acc c k w = (Ok (acc ++ outs), k', w') /\ batch_runs x plan c os k w outs k' w'.
Proof.
  induction os as [|o os IH]; intros k w acc; cbn [execute_batch].
  { exists [], k, w. rewrite app_nil_r. split; [done|constructor]. }
  cbv zeta. set (policy := conflict_for plan o). unfold mbind at 1, attempt.
  pose proof (gives_execute (with_conflict policy x) o c k w) as Hg.
  destruct (execute_with_progress (with_conflict policy x) o c k w) as [[r k1] w1] eqn:E. destruct r as [e|err].
  - assert (Hns : ~ stops (status e)) by (intros Hst; destruct (Hg e eq_refl) as [Hs|Hs], Hst; congruence).
    destruct (IH k1 w1 (acc ++ [outcome_of policy o (Ok e)])) as (outs & k2 & w2 & Hrun & Hb).
    exists (outcome_of policy o (Ok e) :: outs), k2, w2. rewrite <- app_assoc in Hrun. split; [exact Hrun|].
    by eapply batch_next.
  - set (s := operation_status_from_error err). destruct (decide (stops s)) as [Hs|Hs].
    + exists [outcome_of policy o (Err err)], k1, w1. rewrite decide_True by exact Hs. split; [done|]. by eapply batch_stop.
    + rewrite decide_False by exact Hs.
      destruct (IH k1 w1 (acc ++ [outcome_of policy o (Err err)])) as (outs & k2 & w2 & Hrun & Hb).
      exists (outcome_of policy o (Err err) :: outs), k2, w2. rewrite <- app_assoc in Hrun. split; [exact Hrun|].
      by eapply batch_next.
Qed.
Lemma batch_runs_shape x plan c os k w outs k' w' : batch_runs x plan c os k w outs k' w' ->
  (batch_conflict <$> outs) = conflict_for plan <$> take (length outs) os /\
  (length outs = length os \/ exists out, last outs = Some out /\ stops (batch_status out)) /\
  forall i out, outs !! i = Some out -> S i < length outs -> ~ stops (batch_status out).
Proof.
  assert (Hpol : forall p o r, batch_conflict (outcome_of p o r) = p) by (by intros p o [e|err]).
  induction 1 as [k w|o os k w r k1 w1 Hr Hs|o os k w r k1 w1 outs k2 w2 Hr Hs Hb IH].
  - split_and!; [done|by left|done].
  - split_and!; [cbn; by rewrite Hpol|right; by eexists|]. intros [|i] out Hi Hlen; cbn in *; [lia|done].
  - destruct IH as (Hm & Hlen & Hall). split_and!.
    + cbn. by rewrite Hpol, Hm.
    + destruct Hlen as [Hlen|(out & Hlast & Hst)]; [left; cbn; by rewrite Hlen|right]. exists out. split; [|done].
      by rewrite last_cons, Hlast.
    + intros [|i] out Hi Hi'; cbn in *; [by injection Hi as <-|]. eapply Hall; [exact Hi|lia].
Qed.
End Batches.

(** C27: A batch runs its operations in order, each under the policy chosen for it,
    and always returns a report: the outcomes of the operations run, all of them
    unless one is cancelled or paused, which ends the batch; an error of any other
    kind does not. *)
Theorem batch_spec `{Platform, Libc, AttrCalls, Cloning, Packages, Process, TrashCan} c (w w' : OW) x os plan r :
  run (execute_batch_with_conflicts x os plan) c w = (r, w') ->
  exists outs k, r = Ok outs /\ batch_runs x plan c os 0 w outs k w' /\
    (batch_conflict <$> outs) = conflict_for plan <$> take (length outs) os /\
    (length outs = length os \/ exists out, last outs = Some out /\ stops (batch_status out)) /\
    forall i out, outs !! i = Some out -> S i < length outs -> ~ stops (batch_status out).
Proof.
  unfold run, execute_batch_with_conflicts. destruct (batch_refines x plan c os 0 w []) as (outs & k & w1 & Hrun & Hb).
  rewrite Hrun. intros [= <- <-]. exists outs, k. split; [done|]. split; [done|]. by eapply batch_runs_shape.
Qed.

(** ** Waiting before a retry *)
Section Waiting.
Context `{Platform}.
Lemma check_cancellation_eq c k (w : OW) : check_cancellation c k w =
  (if decide (c k = Some Types.Cancelled) then Err Types.Cancelled else Ok tt, S k, w).
Proof.
  unfold check_cancellation, mbind, attempt, check_control. destruct (c k) as [[]|] eqn:E; case_decide; simplify_eq; done.
Qed.
(** The chunks of a delay. *)
Definition chunks (delay : N) : nat := N.to_nat ((delay + 4) / 5).
Lemma chunks_step delay : (0 < delay)%N -> chunks delay = S (chunks (delay - N.min delay RETRY_BACKOFF_CANCEL_GRANULARITY)).
Proof.
  intros Hd. unfold chunks, RETRY_BACKOFF_CANCEL_GRANULARITY. destruct (N.le_gt_cases delay 5) as [Hle|Hgt].
  - rewrite N.min_l by done. rewrite N.sub_diag. change ((0 + 4) / 5)%N with 0%N.
    assert ((delay + 4) / 5 = 1)%N as -> by (symmetry; apply (N.div_unique _ 5 1 (delay - 1)); lia). done.
  - rewrite N.min_r by lia. assert ((delay + 4) / 5 = (delay - 5 + 4) / 5 + 1)%N as ->; [|lia].
    rewrite <- N.div_add by done. f_equal. lia.
Qed.
Definition uncancelled (c : Control) (k n : nat) : Prop := forall i, k <= i < k + n -> c i <> Some Types.Cancelled.
Lemma sleep_loop_eq c fuel : forall delay k (w : OW), chunks delay < fuel ->
  exists r k', sleep_loop fuel delay c k w = (r, k', w) /\
    ((r = Ok tt /\ k' = k + chunks delay /\ uncancelled c k (chunks delay)) \/
     (r = Err Types.Cancelled /\ k < k' <= k + chunks delay /\ c (k' - 1) = Some Types.Cancelled /\ uncancelled c k (k' - 1 - k))).
Proof.
  induction fuel as [|fuel IH]; intros delay k w Hf; [lia|]. cbn [sleep_loop].
  destruct (N.eqb_spec delay 0) as [->|Hd].
  { exists (Ok tt), k. change (chunks 0) with 0. split; [done|]. left. split_and!; [done|lia|]. intros i Hi. lia. }
  cbv zeta. rewrite chunks_step in * by lia. set (rest := (delay - _)%N) in *.
  unfold mbind at 1. rewrite check_cancellation_eq. case_decide as Hc.
  - exists (Err Types.Cancelled), (S k). split; [done|]. right. split_and!; [done|lia|lia| |].
    + by replace (S k - 1) with k by lia.
    + intros i Hi. lia.
  - destruct (IH rest (S k) w) as (r & k' & Hrun & Hr); [lia|]. exists r, k'. split; [done|].
    destruct Hr as [(-> & -> & Hu)|(-> & Hk & Hck & Hu)]; [left|right].
    + split_and!; [done|lia|]. intros i Hi. destruct (decide (i = k)) as [->|]; [done|]. apply Hu. lia.
    + split_and!; [done|lia|lia|done|]. intros i Hi. destruct (decide (i = k)) as [->|]; [done|]. apply Hu. lia.
Qed.
End Waiting.

(** Waiting before a retry ends: after one look at the cancellation and one for
    every five milliseconds of the delay, none of which saw it set; or with
    [Cancelled] at the first look that sees it.  Nothing else happens. *)
Theorem backoff_spec `{Platform} c (w w' : OW) delay r :
  run (sleep_retry_backoff_checked delay) c w = (r, w') ->
  w' = w /\
  ((r = Ok tt /\ uncancelled c 0 (S (chunks delay))) \/
   (r = Err Types.Cancelled /\ exists i, i <= chunks delay /\ c i = Some Types.Cancelled /\ uncancelled c 0 i)).
Proof.
  unfold run, sleep_retry_backoff_checked, mbind at 1. rewrite check_cancellation_eq. case_decide as Hc.
  { intros [= <- <-]. split; [done|]. right. split; [done|]. exists 0. split_and!; [lia|done|]. intros i Hi. lia. }
  assert (Hfuel : chunks delay < N.to_nat (delay / RETRY_BACKOFF_CANCEL_GRANULARITY + 2)).
  { unfold chunks, RETRY_BACKOFF_CANCEL_GRANULARITY.
    assert (Hq : ((delay + 4) / 5 <= delay / 5 + 1)%N) by (rewrite <- N.div_add by done; apply N.Div0.div_le_mono; lia).
    revert Hq. generalize (delay / 5)%N, ((delay + 4) / 5)%N. intros a b Hq. lia. }
  destruct (sleep_loop_eq c _ delay 1 w Hfuel) as (r1 & k' & -> & Hr). intros [= <- <-]. split; [done|].
  destruct Hr as [(-> & -> & Hu)|(-> & Hk & Hck & Hu)]; [left|right].
  - split; [done|]. intros i Hi. destruct (decide (i = 0)) as [->|]; [done|]. apply Hu. lia.
  - split; [done|]. exists (k' - 1). split_and!; [lia|done|].
    intros i Hi. destruct (decide (i = 0)) as [->|]; [done|]. apply Hu. lia.
Qed.
