(* ===== verification/OpWitness.v ===== *)
(** * File operations: the theorems on concrete trees

    The theorems on copies, moves, the trash, the journal and the operator at small
    trees, run on the machine of [Machine]. *)
From Stdlib Require Import Ascii.
From S2P Require Import Prelude Types Text Paths Control FileSystem FileFacts TextFiles OpModel OpTree OpJournal TrashMeta TrashSpec JournalSpec Preserve Copy CopyFrame Relocate Removal Operator Machine CopyCalm CopyBytes CopySpec Replacing CopyPath RemovalSpec MoveFrame Moving OperatorSpec.
#[local] Open Scope string_scope.
#[local] Open Scope list_scope.

Definition text (s : string) : bytes := String.list_ascii_of_string s.
(** A directory with a file, a link and a directory, and something else. *)
Definition sample : list (FPath * Shape) :=
  [(["a"], ShDir); (["a"; "x"], ShFile (text "hello")); (["a"; "l"], ShLink "x");
   (["a"; "d"], ShDir); (["a"; "d"; "y"], ShFile (text "world")); (["b"], ShFile (text "other"))].
Definition local_policy : OperationVolumeCopyPolicy := new_policy Local.
Definition byte_policy : OperationVolumeCopyPolicy := new_policy External.

Lemma sample_wf : wf (grove sample).
Proof. apply grove_wf. by vm_compute. Qed.
Lemma free_ready to f : wf f -> names f !! to = None ->
  (match parent to with Some d => bool_decide (shape_at f d = Some ShDir) | None => false end) = true -> ready to f.
Proof.
  intros Hf Hn Hd. destruct (parent to) as [d|] eqn:E; [|done]. apply bool_decide_eq_true in Hd.
  split; [done|]. split; [done|]. by exists d.
Qed.

Definition copy_run policy (w : OW) : Res unit * OW := run (copy_path ["a"] ["c"] Fail VerifyBytes policy false) never w.
(** The directory is copied, byte by byte and by cloning. *)
Lemma copy_complete_witness :
  (copy_run byte_policy (at_rest (grove sample))).1 = Ok tt /\
  copied (grove sample) ["a"] (fsys (copy_run byte_policy (at_rest (grove sample))).2) ["c"].
Proof.
  assert (E : (copy_run byte_policy (at_rest (grove sample))).1 = Ok tt) by (by vm_compute).
  split; [exact E|].
  pose proof (copy_complete never (at_rest (grove sample)) (copy_run byte_policy (at_rest (grove sample))).2
    ["a"] ["c"] Fail VerifyBytes byte_policy false (copy_run byte_policy (at_rest (grove sample))).1) as Hc.
  rewrite E in Hc. apply Hc.
  - apply sample_wf.
  - apply at_rest_honest.
  - split; intros [k Hk]; discriminate.
  - exists ShDir. by vm_compute.
  - left. apply free_ready; [apply sample_wf|by vm_compute|by vm_compute].
  - rewrite <- E. apply surjective_pairing.
Defined.

Definition EIO : IoError := os_error OtherKind 5 "Input/output error (os error 5)".
Definition replace_run (n : nat) : Res unit * OW :=
  run (copy_path ["a"; "x"] ["b"] Replace VerifyNone byte_policy false) never (failing n EIO (grove sample)).
(** The write of the stage fails: the file to be replaced is still there. *)
Lemma copy_preserves_witness :
  (replace_run 18).1 = Err (Io "/.b.gfm-replace-0-0" (err_text EIO)) /\
  shape_at (fsys (replace_run 18).2) ["a"; "l"] = Some (ShLink "x").
Proof.
  split; [by vm_compute|].
  apply (copy_preserves never (failing 18 EIO (grove sample)) (replace_run 18).2 ["a"; "x"] ["b"] Replace VerifyNone
    byte_policy false (replace_run 18).1).
  - apply sample_wf.
  - by apply failing_honest.
  - apply surjective_pairing.
  - by vm_compute.
  - intros [_ [k Hk]]. discriminate.
Defined.

Definition refused_run : Res unit * OW :=
  run (copy_path ["a"] ["b"] Skip VerifyNone byte_policy false) never (at_rest (grove sample)).
Lemma copy_refused_witness : exists e, refused_run.1 = Err e.
Proof.
  apply (copy_refused never (at_rest (grove sample)) refused_run.2 ["a"] ["b"] Skip VerifyNone byte_policy).
  - apply sample_wf.
  - apply at_rest_honest.
  - exists (ShFile (text "other")). by vm_compute.
  - by split.
  - apply surjective_pairing.
Defined.

(** A move between volumes, cut short while the source is removed: all is at the
    destination. *)
Definition external_policy : OperationVolumeCopyPolicy :=
  mkVolumePolicy Local ∅ {[ ["a"] := "disk1"; [] := "disk0" ]} ∅ ∅ ∅ ∅ ∅.
Definition move_run (n : nat) : Res unit * OW :=
  run (move_path ["a"; "x"] ["z"] Fail VerifyBytes external_policy false) never (failing n EIO (grove sample)).
Lemma move_lossless_witness :
  (exists e, (move_run 34).1 = Err e) /\
  (arrived (grove sample) ["a"; "x"] (fsys (move_run 34).2) ["a"; "x"] \/
   arrived (grove sample) ["a"; "x"] (fsys (move_run 34).2) ["z"]).
Proof.
  split; [eexists; by vm_compute|].
  apply (move_lossless never (failing 34 EIO (grove sample)) (move_run 34).2 ["a"; "x"] ["z"] [] Fail VerifyBytes
    external_policy (move_run 34).1).
  - apply sample_wf.
  - by apply failing_honest.
  - split; intros [k Hk]; discriminate.
  - exists (ShFile (text "hello")). by vm_compute.
  - done.
  - by vm_compute.
  - done.
  - apply surjective_pairing.
Defined.

Definition move_over : Res unit * OW :=
  run (move_path ["a"] ["b"] Replace VerifyBytes local_policy false) never (at_rest (grove sample)).
(** A directory is moved over a file. *)
Lemma move_complete_witness :
  move_over.1 = Ok tt /\ relocated ["a"] ["b"] (grove sample) (fsys move_over.2).
Proof.
  assert (E : move_over.1 = Ok tt) by (by vm_compute). split; [exact E|].
  pose proof (move_complete never (at_rest (grove sample)) move_over.2 ["a"] ["b"] [] Replace VerifyBytes
    local_policy move_over.1) as Hm.
  rewrite E in Hm. apply Hm.
  - apply sample_wf.
  - apply at_rest_honest.
  - split; intros [k Hk]; discriminate.
  - exists ShDir. by vm_compute.
  - done.
  - by vm_compute.
  - by right.
  - rewrite <- E. apply surjective_pairing.
Defined.

(** ** What goes wrong *)

(** A file is moved, with the replace policy, to the directory it is in: the
    directory is removed before anything else is done, and the file with it. *)
Theorem replace_ancestor_loses :
  let '(r, w') := run (move_path ["a"; "x"] ["a"] Replace VerifyBytes local_policy false) never
                    (at_rest (grove sample)) in
  (exists e, r = Err e) /\ map_to_list (names (fsys w')) = [(["b"], 6%N); ([], 0%N)].
Proof. by vm_compute; split; [eexists|]. Qed.

(** A resumed move takes a file that was at the destination before, of the same
    size, for its own half-done copy, whatever the conflict policy says, and removes
    the source. *)
Theorem resumed_move_loses :
  let '(r, w') := run (move_path ["a"; "x"] ["b"] Fail VerifySize local_policy true) never
                    (at_rest (grove sample)) in
  r = Ok tt /\ shape_at (fsys w') ["a"; "x"] = None /\ shape_at (fsys w') ["b"] = Some (ShFile (text "other")).
Proof. by vm_compute. Qed.

(** A poll that fails inside the copying loop leaves the partial destination. *)
Definition stop_at (n : nat) : Control := fun k => if Nat.eqb k n then Some Types.Cancelled else None.
Theorem cancelled_copy_leaves_part :
  let '(r, w') := run (copy_path ["a"; "x"] ["z"] Fail VerifyBytes byte_policy false) (stop_at 2)
                    (at_rest (grove sample)) in
  r = Err Types.Cancelled /\ shape_at (fsys w') ["z"] = Some (ShFile []).
Proof. by vm_compute. Qed.

(** * Removing: the theorems on a concrete tree

    The theorems of [RemovalSpec] on the machine of [Machine]; and a row that is
    written and never read. *)
#[export] Instance machine_process : Process := {| process_id := 7 |}.
(** A trash at [/bin]. *)
#[export] Instance machine_trash : TrashCan := {|
  trash_delete p _ f :=
    match file_name p with
    | Some n =>
        match names f !! ["bin"; n] with
        | None => rename_act p ["bin"; n] f
        | Some _ => (Err ENOTEMPTY, f)
        end
    | None => (Err EINVAL, f)
    end
|}.

Lemma grove_names l : forall f p, is_Some (names (foldl plant f l) !! p) -> is_Some (names f !! p) \/ p ∈ l.*1.
Proof.
  induction l as [|e l IH]; intros f p Hp; cbn [foldl] in Hp; [by left|]. destruct (IH _ _ Hp) as [Hq|Hq]; [|right; by right].
  destruct (decide (p = e.1)) as [->|Hne]; [right; left|left]. unfold plant, attach in Hq. cbn in Hq.
  by rewrite lookup_insert_ne in Hq.
Qed.
Lemma grove_free l p : p <> [] -> p ∉ l.*1 -> names (grove l) !! p = None.
Proof.
  intros Hp Hl. apply eq_None_not_Some. intros Hs. destruct (grove_names l root_fs p Hs) as [[i Hi]|]; [|done].
  cbn in Hi. apply lookup_singleton_Some in Hi as [E _]. by subst.
Qed.
Lemma at_rest_timely f : timely (at_rest f).
Proof. done. Qed.
Lemma failing_timely n e f : timely (failing n e f).
Proof. done. Qed.

Definition table_path : FPath := ["db"; "t.tsv"].
Definition row (n orig : string) : TrashRestoreMetadata := mkTrashed n orig 5 true true None.
Definition trash_table : TrashTable := <["d" := row "d" "/home/d"]> {[ "x" := row "x" "/home/x" ]}.
(** A trash with a file and a directory, a table of both, and something else. *)
Definition trash_tree : list (FPath * Shape) :=
  [(["bin"], ShDir); (["bin"; "x"], ShFile (text_bytes "hello")); (["bin"; "d"], ShDir);
   (["bin"; "d"; "y"], ShFile (text_bytes "world")); (["db"], ShDir);
   (table_path, ShFile (text_bytes (table_text trash_table))); (["home"], ShDir); (["home"; "#x#"], ShFile [])].
Lemma trash_tree_wf : wf (grove trash_tree).
Proof. apply grove_wf. by vm_compute. Qed.
Lemma trash_tree_tabled : tabled table_path trash_table (grove trash_tree).
Proof.
  assert (Hs : shape_at (grove trash_tree) table_path = Some (ShFile (text_bytes (table_text trash_table)))) by (by vm_compute).
  split; [|split; [|by left]].
  - split; [apply trash_tree_wf|]. split; [exists ["db"]; split; [done|by vm_compute]|]. split; [|by rewrite Hs].
    intros n. apply grove_free; [done|]. cbn [trash_tree fmap list_fmap fst]. intros Hin.
    repeat (apply elem_of_cons in Hin as [Hin|Hin]; [discriminate|]). by apply elem_of_nil in Hin.
  - unfold trash_table. apply map_Forall_insert_2; [done|]. apply map_Forall_singleton. done.
Qed.

Abbreviation trash_change :=
  (run (remove_trash_metadata_checked table_path ["bin"; "x"]) never (at_rest (grove trash_tree))).
Lemma trash_table_spec_witness :
  trash_change.1 = Ok tt /\ tabled table_path (delete "x" trash_table) (fsys trash_change.2).
Proof.
  assert (E : trash_change.1 = Ok tt) by (by vm_compute). split; [exact E|].
  pose proof (trash_table_spec never (at_rest (grove trash_tree)) trash_change.2 table_path trash_table
    (remove_trash_metadata_checked table_path ["bin"; "x"]) (delete "x" trash_table) trash_change.1) as Hc.
  rewrite E in Hc. apply Hc.
  - apply at_rest_honest.
  - apply at_rest_timely.
  - apply trash_tree_tabled.
  - right. left. exists ["bin"; "x"], "x". split; [reflexivity|]. split; reflexivity.
  - rewrite <- E. exact (surjective_pairing trash_change).
Defined.

Definition next_table : TrashTable := {[ "z" := row "z" "/z" ]}.
Lemma next_table_ok : table_ok next_table.
Proof. apply map_Forall_singleton. done. Qed.
Abbreviation written :=
  (run (write_trash_metadata_checked table_path (values next_table)) never (at_rest (grove trash_tree))).
Abbreviation read_again :=
  (run (read_trash_metadata_checked table_path) never written.2).
Lemma trash_read_back_witness : fsys read_again.2 = fsys written.2 /\ read_again.1 = Ok next_table.
Proof.
  pose proof (trash_read_back never (at_rest (grove trash_tree)) written.2 read_again.2 table_path trash_table
    next_table tt read_again.1) as Hr.
  assert (E : written.1 = Ok tt) by (by vm_compute). assert (E' : read_again.1 = Ok next_table) by (by vm_compute).
  split; [|exact E']. refine (proj1 (Hr _ _ _ _ _ _)).
  - apply at_rest_honest.
  - apply at_rest_timely.
  - apply trash_tree_tabled.
  - apply next_table_ok.
  - rewrite <- E. exact (surjective_pairing written).
  - exact (surjective_pairing read_again).
Defined.

Abbreviation deleted :=
  (run (delete_path ["bin"; "d"] (Some table_path)) never (at_rest (grove trash_tree))).
Lemma delete_spec_witness :
  deleted.1 = Ok tt /\ removed (Some table_path) ["bin"; "d"] (delete "d" trash_table) (grove trash_tree) (fsys deleted.2).
Proof.
  assert (E : deleted.1 = Ok tt) by (by vm_compute). split; [exact E|].
  pose proof (delete_spec never (at_rest (grove trash_tree)) deleted.2 ["bin"; "d"] "d" (Some table_path) trash_table deleted.1) as Hd.
  rewrite E in Hd. apply Hd.
  - apply trash_tree_wf.
  - apply at_rest_honest.
  - apply at_rest_timely.
  - done.
  - exists ShDir. by vm_compute.
  - done.
  - apply trash_tree_tabled.
  - intros m [= <-] [k Hk]. discriminate.
  - rewrite <- E. exact (surjective_pairing deleted).
Defined.

Lemma trash_plain_rows : plain_rows trash_table.
Proof. unfold trash_table, plain_rows. apply map_Forall_insert_2; [done|]. apply map_Forall_singleton. done. Qed.
Abbreviation emptied_run :=
  (run (empty_trash_path ["bin"] (Some table_path)) never (at_rest (grove trash_tree))).
Lemma empty_trash_spec_witness :
  emptied_run.1 = Ok tt /\ emptied (Some table_path) ["bin"] (grove trash_tree) (fsys emptied_run.2).
Proof.
  assert (E : emptied_run.1 = Ok tt) by (by vm_compute). split; [exact E|].
  pose proof (empty_trash_spec never (at_rest (grove trash_tree)) emptied_run.2 ["bin"] (Some table_path) trash_table emptied_run.1) as Hd.
  rewrite E in Hd. apply Hd.
  - apply trash_tree_wf.
  - apply at_rest_honest.
  - apply at_rest_timely.
  - by vm_compute.
  - apply trash_tree_tabled.
  - apply trash_plain_rows.
  - intros m [= <-] [k Hk]. discriminate.
  - rewrite <- E. exact (surjective_pairing emptied_run).
Defined.

(** A row whose name starts with a number sign is taken for a comment: the item
    goes to the trash, its row is in the file, and the table that is read does not
    have it. *)
Theorem hash_name_forgotten : exists w, let '(r, w') := w in
  run (trash_path ["home"; "#x#"] (Some table_path)) never (at_rest (grove trash_tree)) = (r, w') /\ r = Ok tt /\
  shape_at (fsys w') ["bin"; "#x#"] = Some (ShFile []) /\
  (run (read_trash_metadata_checked table_path) never w').1 = Ok trash_table.
Proof.
  exists (run (trash_path ["home"; "#x#"] (Some table_path)) never (at_rest (grove trash_tree))).
  destruct (run _ never _) as [r w'] eqn:E. split; [done|].
  assert (Er : r = (run (trash_path ["home"; "#x#"] (Some table_path)) never (at_rest (grove trash_tree))).1) by by rewrite E.
  assert (Ew : w' = (run (trash_path ["home"; "#x#"] (Some table_path)) never (at_rest (grove trash_tree))).2) by by rewrite E.
  rewrite Er, Ew. clear. split; [by vm_compute|]. split; by vm_compute.
Qed.

(** * Operations: the theorems on a concrete tree

    The theorems of [JournalSpec] and [OperatorSpec] on the machine of [Machine]
    and the trash of the section above. *)
#[export] Instance machine_trash_laws : TrashLaws.
Proof.
  split. intros p cl f Hf. cbn. destruct (file_name p) as [n|]; [|by split; [|apply changes_refl]].
  destruct (names f !! ["bin"; n]) as [i|] eqn:E; [by split; [|apply changes_refl]|].
  pose proof (keeps_rename (X := OpState) never everywhere (under p) f p ["bin"; n]) as Hk.
  assert (Hi : inv everywhere (under p) f f) by (by apply inv_same).
  destruct (Hk ltac:(by intros q Hq; right) ltac:(by eapply absent_removable) ltac:(done) (at_rest f) (at_rest_honest f) Hi 0) as (_ & [Hf' Hc] & _).
  cbn in Hf', Hc. by destruct (rename_act p ["bin"; n] f).
Qed.

Definition log_path : FPath := ["db"; "ops.tsv"].
Definition desk : OperationContext :=
  mkContext OpModel.Fail log_path (Some table_path) VerifySize ∅ (new_policy Local) None.
Definition chore : Operation := OpDelete ["bin"; "d"].

Lemma desk_written : JournalSpec.written log_path "" (grove trash_tree).
Proof.
  split; [apply trash_tree_wf|]. split; [exists ["db"]; split; [done|by vm_compute]|]. right. split; [by vm_compute|done].
Qed.
Lemma desk_unshared : unshared desk (grove trash_tree).
Proof.
  intros m [= <-]. split.
  - intros [E|[n E]]; [discriminate|]. unfold temporary_path in E. cbn in E. discriminate.
  - vm_compute. discriminate.
Qed.
Lemma desk_prepared : prepared desk chore (grove trash_tree).
Proof.
  split; [done|]. split; [|exists trash_table; apply trash_tree_tabled]. intros m [= <-] [k Hk]. discriminate.
Qed.
Lemma desk_spared : ~ clears desk false chore log_path.
Proof. intros [[k Hk]|E]; discriminate. Qed.

Abbreviation chore_run := (run (execute_with_progress desk chore) never (at_rest (grove trash_tree))).
Lemma journal_spec_witness : journaled (trouble never (at_rest (grove trash_tree))) desk "" chore (grove trash_tree) chore_run.1 (fsys chore_run.2).
Proof.
  refine (journal_spec never (at_rest (grove trash_tree)) chore_run.2 desk chore "" chore_run.1 _ _ _ _ _ _ _ _).
  - apply at_rest_honest.
  - apply at_rest_timely.
  - reflexivity.
  - apply desk_written.
  - apply desk_unshared.
  - apply desk_prepared.
  - apply desk_spared.
  - exact (surjective_pairing chore_run).
Defined.

Definition chore_entry (s : OperationStatus) : JournalEntry := mkOpEntry 0 s chore None 0.
Lemma chore_ok : op_ok chore.
Proof. cbn. constructor; [by split_and!|]. constructor; [by split_and!|]. constructor. Qed.
Lemma chore_entry_ok s : entry_ok (chore_entry s).
Proof. split_and!; [done..|apply chore_ok]. Qed.
Abbreviation append_run := (run (append_journal log_path (chore_entry Started)) never (at_rest (grove trash_tree))).
Abbreviation read_run := (run (read_journal log_path) never append_run.2).
Lemma journal_append_spec_witness : fsys read_run.2 = fsys append_run.2 /\ read_run.1 = Ok [chore_entry Started].
Proof.
  assert (E : append_run.1 = Ok tt) by (by vm_compute). assert (E' : read_run.1 = Ok [chore_entry Started]) by (by vm_compute).
  split; [|exact E'].
  pose proof (journal_append_spec never (at_rest (grove trash_tree)) append_run.2 read_run.2 log_path [] (chore_entry Started)
    append_run.1 read_run.1) as Hr.
  rewrite E in Hr. refine (proj1 (proj1 (Hr _ _ _ _ _ _ _))).
  - apply at_rest_honest.
  - apply at_rest_timely.
  - apply desk_written.
  - constructor.
  - apply chore_entry_ok.
  - rewrite <- E. exact (surjective_pairing append_run).
  - exact (surjective_pairing read_run).
Defined.

Abbreviation journal_run := (run (journal desk) never chore_run.2).
Lemma chore_run_ok : chore_run = (Ok (chore_entry Completed), chore_run.2).
Proof. by vm_compute. Qed.
Lemma operation_recorded_witness :
  finished 0 chore (chore_entry Completed) /\ journal_run.1 = Ok [chore_entry Started; chore_entry Completed].
Proof.
  split; [|by vm_compute].
  destruct (operation_recorded never (at_rest (grove trash_tree)) chore_run.2 journal_run.2 desk chore [] (chore_entry Completed) journal_run.1
    (at_rest_honest _) (at_rest_timely _) eq_refl desk_written (Forall_nil_2 _) chore_ok desk_unshared desk_prepared
    desk_spared chore_run_ok (surjective_pairing journal_run)) as (_ & Hf & _).
  exact Hf.
Defined.

(** A line of which the first three fields were written, and a line after it. *)
Definition torn_part : string := "0" +:+ String TAB ("started" +:+ String TAB "1").
Definition torn_tree : list (FPath * Shape) :=
  [(["db"], ShDir);
   (log_path, ShFile (text_bytes (journal_text [chore_entry Started] +:+ torn_part +:+ journal_text [chore_entry Completed])))].
Abbreviation torn_run := (run (recover_with_policy desk default_recovery_policy) never (at_rest (grove torn_tree))).
Lemma torn_journal_witness : (exists err, torn_run.1 = Err err) /\ fsys torn_run.2 = grove torn_tree.
Proof.
  refine (torn_journal never (at_rest (grove torn_tree)) torn_run.2 desk [chore_entry Started] torn_part [chore_entry Completed]
    default_recovery_policy torn_run.1 _ _ _ _ _ _ _ _).
  - apply at_rest_honest.
  - apply at_rest_timely.
  - apply grove_wf. by vm_compute.
  - by vm_compute.
  - constructor; [apply chore_entry_ok|constructor].
  - split; by vm_compute.
  - vm_compute. lia.
  - exact (surjective_pairing torn_run).
Defined.

(** A deletion of what is not there, and one that is carried out. *)
Definition batch : list Operation := [OpDelete ["home"; "none"]; chore].
Definition batch_plan : OperationConflictPlan := mkConflictPlan OpModel.Fail ∅.
Abbreviation batch_run := (run (execute_batch_with_conflicts desk batch batch_plan) never (at_rest (grove trash_tree))).
Lemma batch_spec_witness : exists outs, batch_run.1 = Ok outs /\ batch_status <$> outs = [Failed; Completed].
Proof.
  destruct (batch_spec never (at_rest (grove trash_tree)) batch_run.2 desk batch batch_plan batch_run.1) as (outs & k & E & _).
  - exact (surjective_pairing batch_run).
  - exists outs. split; [exact E|].
    assert (Hs : match batch_run.1 with Ok outs => batch_status <$> outs = [Failed; Completed] | Err _ => False end) by (by vm_compute).
    by rewrite E in Hs.
Defined.

Definition cancelled_at (n : nat) : Control := fun k => if Nat.eqb k n then Some Types.Cancelled else None.
Abbreviation sleep_run := (run (sleep_retry_backoff_checked 12) (cancelled_at 2) (at_rest (grove trash_tree))).
Lemma backoff_spec_witness : sleep_run.2 = at_rest (grove trash_tree) /\ sleep_run.1 = Err Types.Cancelled.
Proof.
  split; [|by vm_compute].
  refine (proj1 (backoff_spec (cancelled_at 2) (at_rest (grove trash_tree)) sleep_run.2 12 sleep_run.1 _)).
  exact (surjective_pairing sleep_run).
Defined.
