(* ===== verification/Inverted.v ===== *)
(** * Inverted indexes

    [BTreeMap<K, BTreeSet<V>>] filled by [entry(key).or_default().insert(value)]: the
    keys in order, and under each the values in order.  The posting archives are
    built of such maps. *)
From S2P Require Import Prelude Order.
#[local] Open Scope list_scope.

Section Inverted.
Context {K V : Type} `{TotalOrd K} `{EqDecision K} `{TotalOrd V} `{EqDecision V}.
Implicit Types (m : list (K * list V)) (l : list (K * V)).

Fixpoint insert_under (k : K) (v : V) m : list (K * list V) :=
  match m with
  | [] => [(k, [v])]
  | (k', vs) :: m' =>
      match cmp k k' with
      | Lt => (k, [v]) :: m
      | Eq => (k', btree_insert v vs) :: m'
      | Gt => (k', vs) :: insert_under k v m'
      end
  end.
Definition inverted l : list (K * list V) := foldl (fun m p => insert_under p.1 p.2 m) [] l.

(** ** What it holds *)
Definition filed m (k : K) (v : V) : Prop := exists vs, (k, vs) ∈ m /\ v ∈ vs.

Lemma insert_under_keys k v m k' : k' ∈ (insert_under k v m).*1 <-> k' = k \/ k' ∈ m.*1.
Proof.
  induction m as [|[k1 vs] m IH]; cbn [insert_under].
  - rewrite fmap_cons, fmap_nil. set_solver.
  - destruct (cmp k k1) eqn:E; rewrite ?fmap_cons; cbn [fst].
    + apply cmp_eq in E as ->. set_solver.
    + set_solver.
    + rewrite !elem_of_cons, IH. tauto.
Qed.
Lemma insert_under_sorted k v m : StronglySorted lt_of m.*1 -> StronglySorted lt_of (insert_under k v m).*1.
Proof.
  induction m as [|[k1 vs] m IH]; cbn [insert_under]; rewrite ?fmap_cons; cbn [fst]; intros Hs; [repeat constructor|].
  apply StronglySorted_inv in Hs as [Hs Hk]. destruct (cmp k k1) eqn:E; rewrite ?fmap_cons; cbn [fst].
  - by constructor.
  - constructor; [by constructor|]. constructor; [done|]. eapply Forall_impl; [exact Hk|]. intros x Hx. by transitivity k1.
  - constructor; [by apply IH|]. apply Forall_forall. intros x [->|Hx]%insert_under_keys.
    + by apply cmp_gt_iff in E.
    + by eapply Forall_forall in Hk.
Qed.
(** Every value list is sorted, and none is empty. *)
Definition lists_ok m : Prop := Forall (fun p => StronglySorted lt_of p.2 /\ p.2 <> []) m.
Lemma insert_under_lists k v m : lists_ok m -> lists_ok (insert_under k v m).
Proof.
  assert (Hone : StronglySorted lt_of [v] /\ [v] <> []) by (split; [repeat constructor|done]).
  induction m as [|[k1 vs] m IH]; cbn [insert_under]; [by repeat constructor|]. intros [[Hs Hn] Hm]%Forall_cons. cbn in Hs, Hn.
  destruct (cmp k k1).
  - constructor; [|done]. cbn. split; [by apply btree_insert_sorted|].
    intros E. apply (not_elem_of_nil v). rewrite <- E. apply btree_insert_elem. by left.
  - by repeat constructor.
  - constructor; [done|]. by apply IH.
Qed.
Lemma filed_nil k v : ~ filed [] k v.
Proof. by intros (? & []%elem_of_nil & _). Qed.
Lemma filed_cons k1 vs m k v : filed ((k1, vs) :: m) k v <-> (k = k1 /\ v ∈ vs) \/ filed m k v.
Proof.
  unfold filed. split.
  - intros (ws & [[= -> ->]|Hin]%elem_of_cons & Hv); [by left|right; by exists ws].
  - intros [[-> Hv]|(ws & Hin & Hv)]; [exists vs|exists ws]; (split; [|done]); [by left|by right].
Qed.
Lemma insert_under_filed k v m k' v' : filed (insert_under k v m) k' v' <-> (k' = k /\ v' = v) \/ filed m k' v'.
Proof.
  induction m as [|[k1 vs] m IH]; cbn [insert_under].
  - by rewrite filed_cons, list_elem_of_singleton.
  - destruct (cmp k k1) eqn:E; rewrite !filed_cons.
    + apply cmp_eq in E as ->. rewrite btree_insert_elem. tauto.
    + by rewrite list_elem_of_singleton.
    + rewrite IH. tauto.
Qed.

Lemma inverted_ok l : StronglySorted lt_of (inverted l).*1 /\ lists_ok (inverted l) /\
  (forall k v, filed (inverted l) k v <-> (k, v) ∈ l).
Proof.
  unfold inverted. induction l as [|[k1 v1] l IH] using rev_ind; cbn [foldl].
  - split_and!; [constructor|constructor|]. intros k v. split; [by intros ?%filed_nil|by intros ?%elem_of_nil].
  - rewrite foldl_snoc. destruct IH as (Hs & Hl & Hf). split_and!; [by apply insert_under_sorted|by apply insert_under_lists|].
    intros k v. rewrite insert_under_filed. cbn [fst snd]. rewrite Hf, elem_of_app, list_elem_of_singleton.
    split; [intros [[-> ->]|?]; auto|intros [?|[= -> ->]]; auto].
Qed.
(** The values under a key are those filed under it, and there is a list of them
    exactly when there are any. *)
Definition values_under l (k : K) : list V := sort_dedup (snd <$> filter (fun p => p.1 = k) l).
Lemma values_under_elem l k v : v ∈ values_under l k <-> (k, v) ∈ l.
Proof.
  unfold values_under. rewrite (sort_dedup_elem v), list_elem_of_fmap. split.
  - intros ([k' v'] & -> & [Hk Hin]%list_elem_of_filter). cbn in Hk. by subst k'.
  - intros Hin. exists (k, v). split; [done|]. by apply list_elem_of_filter.
Qed.
Lemma inverted_elem l k vs : (k, vs) ∈ inverted l -> vs = values_under l k /\ vs <> [].
Proof.
  destruct (inverted_ok l) as (Hs & Hl & Hf). intros Hin. pose proof (proj1 (Forall_forall _ _) Hl _ Hin) as [Hv Hn]. cbn in Hv, Hn.
  split; [|done]. apply lt_sorted_unique; [done|apply sort_dedup_sorted|]. intros v. rewrite values_under_elem, <- Hf. split; [by exists vs|].
  intros (ws & Hw & Hvw). assert (ws = vs) as ->; [|done].
  pose proof (lt_sorted_NoDup _ Hs) as Hnd. clear - Hnd Hin Hw. induction (inverted l) as [|[k0 v0] m IH]; [by apply elem_of_nil in Hin|].
  rewrite fmap_cons in Hnd. apply NoDup_cons in Hnd as [Hk Hnd]. cbn in Hk.
  assert (Hno : forall us, ~ (k0, us) ∈ m) by (intros us Hu; apply Hk; apply list_elem_of_fmap; by exists (k0, us)).
  apply elem_of_cons in Hin as [E1|Hin], Hw as [E2|Hw].
  - congruence.
  - injection E1 as -> ->. by apply Hno in Hw.
  - injection E2 as -> ->. by apply Hno in Hin.
  - by apply IH.
Qed.
Lemma inverted_keys l k : k ∈ (inverted l).*1 <-> values_under l k <> [].
Proof.
  destruct (inverted_ok l) as (_ & Hl & Hf). split.
  - intros ([k' vs] & -> & Hin)%list_elem_of_fmap. cbn. by apply inverted_elem in Hin as [<- ?].
  - intros Hn. destruct (values_under l k) as [|v vs] eqn:E; [done|]. assert (Hv : (k, v) ∈ l) by (rewrite <- values_under_elem, E; by left).
    apply Hf in Hv as (ws & Hin & _). apply list_elem_of_fmap. by exists (k, ws).
Qed.
Lemma inverted_lookup l k : values_under l k <> [] -> (k, values_under l k) ∈ inverted l.
Proof.
  intros Hn. apply inverted_keys in Hn as Hk. apply list_elem_of_fmap in Hk as ([k' vs] & -> & Hin). cbn.
  by pose proof Hin as [<- _]%inverted_elem.
Qed.
End Inverted.
