(* ===== verification/Codec.v ===== *)
(** * Byte codecs of the stores ([crates/store/src/ids.rs], [integrity.rs])

    The archives of [crates/store] are byte strings built of variable-length
    integers, fixed-width little-endian words and raw bytes, closed by a CRC-32
    footer.  A writer appends to a [Vec<u8>], so it is the string it appends; a
    [Read] is the bytes that are left, the state of a checked computation.
    Every archive module of the crate has its own copies of [write_varint] and
    [read_varint], which are the same. *)
From Stdlib Require Import Ascii.
From S2P Require Import Prelude Types Text Control.
#[local] Open Scope list_scope.

Abbreviation bytes := (list ascii) (only parsing).

(** [value as u8], and back. *)
Definition byte_of (n : N) : ascii := ascii_of_N (N.land n 255).
Definition byte_val (b : ascii) : N := N_of_ascii b.
Definition literal (s : string) : bytes := String.list_ascii_of_string s.

(** ** Checked arithmetic on [u64] *)
Definition checked_add (a b : N) : option N := if (a + b <? U64)%N then Some (a + b)%N else None.
(** [value << shift] for a shift below 64. *)
Definition shl64 (value shift : N) : N := (N.shiftl value shift mod U64)%N.

(** ** Variable-length integers *)
Fixpoint write_varint_go (fuel : nat) (value : N) : bytes :=
  match fuel with
  | O => []
  | S fuel' =>
      if (128 <=? value)%N
      then byte_of (N.lor (N.land value 127) 128) :: write_varint_go fuel' (N.shiftr value 7)
      else [byte_of value]
  end.
(** Seventy bits are enough. *)
Definition write_varint (value : N) : bytes := write_varint_go 10 value.

Definition EOF_TEXT : string := "failed to fill whole buffer".
Definition VARINT_OVERFLOW : string := "varint overflow".

(** An [io::Error] is its text. *)
Fixpoint read_varint_go (bs : bytes) (value shift : N) : Result N string * bytes :=
  match bs with
  | [] => (Err EOF_TEXT, [])
  | b :: bs' =>
      let value := N.lor value (shl64 (N.land (byte_val b) 127) shift) in
      if (N.land (byte_val b) 128 =? 0)%N then (Ok value, bs')
      else if (64 <=? shift + 7)%N then (Err VARINT_OVERFLOW, bs')
      else read_varint_go bs' value (shift + 7)
  end.
Definition read_varint_from (bs : bytes) : Result N string * bytes := read_varint_go bs 0 0.

(** [u32::to_le_bytes], [u64::to_le_bytes] and back. *)
Fixpoint to_le_bytes (n : nat) (value : N) : bytes :=
  match n with O => [] | S n' => byte_of value :: to_le_bytes n' (N.shiftr value 8) end.
Fixpoint from_le_bytes (bs : bytes) : N :=
  match bs with [] => 0 | b :: bs' => N.lor (byte_val b) (N.shiftl (from_le_bytes bs') 8) end.

(** ** Readers

    [.map_err(|err| GfmError::io(path, err))?] on a reader. *)
Definition reader {A} (path : string) (rd : bytes -> Result A string * bytes) : M bytes A :=
  fun _ k bs => let '(r, bs') := rd bs in (map_err (Io path) r, k, bs').
Definition read_varint (path : string) : M bytes N := reader path read_varint_from.
Definition read_exact_from (n : N) (bs : bytes) : Result bytes string * bytes :=
  if (n <=? N.of_nat (length bs))%N then (Ok (take (N.to_nat n) bs), drop (N.to_nat n) bs) else (Err EOF_TEXT, []).
Definition read_exact (path : string) (n : N) : M bytes bytes := reader path (read_exact_from n).
(** A computation on [Cursor::new(bs)]. *)
Definition with_cursor {S A} (bs : bytes) (m : M bytes A) : M S A :=
  fun c k s => let '(r, k', _) := m c k bs in (r, k', s).
(** [bytes.get(start..end)]. *)
Definition get_range (bs : bytes) (start end_ : nat) : option bytes :=
  if decide (start <= end_ /\ end_ <= length bs) then Some (take (end_ - start) (drop start bs)) else None.

Definition get (bs : bytes) (start end_ : N) : option bytes :=
  if (end_ <=? N.of_nat (length bs))%N then get_range bs (N.to_nat start) (N.to_nat end_) else None.

(** [for _ in 0..count { .. }], the body given the index. *)
Fixpoint mtimes {S A} (body : A -> N -> M S A) (acc : A) (index : N) (count : nat) : M S A :=
  match count with
  | O => mret acc
  | Datatypes.S count' => acc <- body acc index ; mtimes body acc (index + 1) count'
  end.

(** ** CRC-32 *)
Fixpoint crc_bits (n : nat) (crc : N) : N :=
  match n with
  | O => crc
  | S n' => crc_bits n' (if (N.land crc 1 =? 1)%N then N.lxor 3988292384 (N.shiftr crc 1) else N.shiftr crc 1)
  end.
Definition make_crc32_table : list N := (fun index => crc_bits 8 (N.of_nat index)) <$> seq 0 256.
Definition CRC32_TABLE : list N := Eval vm_compute in make_crc32_table.
Definition crc_step (crc : N) (b : ascii) : N :=
  let index := N.land (N.lxor crc (byte_val b)) 255 in
  N.lxor (N.shiftr crc 8) (CRC32_TABLE !!! N.to_nat index).
Definition crc32 (bs : bytes) : N := N.lxor (foldl crc_step 4294967295%N bs) 4294967295.

(** ** Checksum footers *)
Definition write_checksum_footer (bs magic : bytes) : bytes := to_le_bytes 4 (crc32 bs) ++ magic.

Definition integrity_error (path store_name reason : string) : GfmError :=
  Format ("invalid " +:+ store_name +:+ " store " +:+ path +:+ ": " +:+ reason).

Definition verify_checksum_footer (bs magic : bytes) (path store_name : string) : Res bool :=
  let footer_len := 4 + length magic in
  if decide (length bs < footer_len) then Ok false
  else
    let footer_start := length bs - footer_len in
    if decide (drop (footer_start + 4) bs = magic) then
      let? encoded := ok_or_else (get_range bs footer_start (footer_start + 4))
                        (integrity_error path store_name "checksum footer truncated") in
      if decide (crc32 (take footer_start bs) = from_le_bytes encoded) then Ok true
      else Err (integrity_error path store_name "checksum mismatch; archive must be rebuilt")
    else Ok false.

(** The standard test vector. *)
Example crc32_check : crc32 (literal "123456789") = 3421780262%N.
Proof. vm_compute. reflexivity. Qed.
Example varint_300 : write_varint 300 = [byte_of 172; byte_of 2].
Proof. reflexivity. Qed.

(** ** Bytes *)
Lemma byte_val_lt b : (byte_val b < 256)%N.
Proof. apply N_ascii_bounded. Qed.
Lemma byte_val_of n : byte_val (byte_of n) = (n mod 256)%N.
Proof.
  unfold byte_val, byte_of. change 255%N with (N.ones 8). rewrite N.land_ones. change (2 ^ 8)%N with 256%N.
  apply N_ascii_embedding. by apply N.mod_upper_bound.
Qed.
Lemma byte_of_val b : byte_of (byte_val b) = b.
Proof.
  unfold byte_of. change 255%N with (N.ones 8). rewrite N.land_ones, N.mod_small by apply byte_val_lt.
  apply ascii_N_embedding.
Qed.
Lemma byte_val_small n : (n < 256)%N -> byte_val (byte_of n) = n.
Proof. intros Hn. by rewrite byte_val_of, N.mod_small. Qed.
#[export] Instance byte_val_inj : Inj (=) (=) byte_val.
Proof. intros a b E. by rewrite <- (byte_of_val a), E, byte_of_val. Qed.

Lemma land_disjoint a b k : (a < 2 ^ k)%N -> N.land a (b * 2 ^ k) = 0%N.
Proof.
  intros Ha. apply N.bits_inj. intros i. rewrite N.land_spec, N.bits_0. destruct (N.lt_ge_cases i k).
  - rewrite N.mul_pow2_bits_low by done. apply andb_false_r.
  - rewrite <- (N.mod_small a (2 ^ k)) by done. by rewrite N.mod_pow2_bits_high.
Qed.
Lemma lor_disjoint a b k : (a < 2 ^ k)%N -> N.lor a (N.shiftl b k) = (a + b * 2 ^ k)%N.
Proof.
  intros Ha. rewrite N.shiftl_mul_pow2, <- N.lxor_lor by by apply land_disjoint.
  symmetry. by apply N.add_nocarry_lxor, land_disjoint.
Qed.
Lemma land_127 n : N.land n 127 = (n mod 128)%N.
Proof. change 127%N with (N.ones 7). by rewrite N.land_ones. Qed.
Lemma land_128 n : (n < 256)%N -> N.land n 128 = if decide (n < 128)%N then 0%N else 128%N.
Proof.
  intros Hn. destruct (decide (n < 128)%N) as [Hs|Hs]; [by apply (land_disjoint n 1 7)|].
  assert (E : N.land (n - 128) 128 = 0%N) by (apply (land_disjoint (n - 128) 1 7); cbn; lia).
  replace n with (N.lxor (n - 128) 128) by (rewrite <- N.add_nocarry_lxor by done; lia).
  apply N.bits_inj. intros i. rewrite N.land_spec, N.lxor_spec.
  apply (f_equal (fun m => N.testbit m i)) in E. rewrite N.land_spec, N.bits_0 in E.
  by destruct (N.testbit (n - 128) i), (N.testbit 128 i).
Qed.

(** ** Variable-length integers *)

(** The first byte of a number that needs more than one. *)
Lemma more_byte v : (128 <= v)%N -> byte_val (byte_of (N.lor (N.land v 127) 128)) = (v mod 128 + 128)%N.
Proof.
  intros Hv. rewrite land_127. pose proof (N.mod_upper_bound v 128 ltac:(done)).
  change 128%N with (N.shiftl 1 7) at 2. rewrite lor_disjoint by done. apply byte_val_small. cbn. lia.
Qed.

Lemma shl64_small v shift : (v * 2 ^ shift < U64)%N -> shl64 v shift = N.shiftl v shift.
Proof. intros Hv. unfold shl64. apply N.mod_small. by rewrite N.shiftl_mul_pow2. Qed.

Lemma write_varint_go_S fuel v :
  write_varint_go (S fuel) v =
    if decide (128 <= v)%N then byte_of (N.lor (N.land v 127) 128) :: write_varint_go fuel (v / 128)
    else [byte_of v].
Proof.
  cbn [write_varint_go]. rewrite N.shiftr_div_pow2. change (2 ^ 7)%N with 128%N.
  destruct (N.leb_spec 128 v); [by rewrite decide_True|rewrite decide_False by lia; done].
Qed.

(** The bits still to come, above those that have been read. *)
Lemma read_varint_write_go fuel : forall v acc shift rest,
  (v * 2 ^ shift < U64)%N -> (acc < 2 ^ shift)%N -> (v < 2 ^ (7 * N.of_nat (S fuel)))%N ->
  read_varint_go (write_varint_go (S fuel) v ++ rest) acc shift = (Ok (acc + v * 2 ^ shift)%N, rest).
Proof.
  induction fuel as [|fuel IH]; intros v acc shift rest Hv Hacc Hf; rewrite write_varint_go_S;
    (destruct (decide (128 <= v)%N) as [Hm|Hm]; cbn -[write_varint_go N.land N.lor N.shiftr N.mul N.pow]).
  - change (2 ^ _)%N with 128%N in Hf. lia.
  - rewrite byte_val_small, land_127, N.mod_small, land_128, decide_True, shl64_small, lor_disjoint by (done || lia). done.
  - pose proof (N.mod_upper_bound v 128 ltac:(done)) as Hlt. pose proof (N.div_mod v 128 ltac:(done)) as Hdm.
    assert (E7 : (2 ^ (shift + 7) = 128 * 2 ^ shift)%N) by (rewrite N.pow_add_r; change (2 ^ 7)%N with 128%N; lia).
    rewrite more_byte, land_127, land_128 by (done || lia).
    replace ((v mod 128 + 128) mod 128)%N with (v mod 128)%N
      by (rewrite N.Div0.add_mod, N.Div0.mod_same, N.add_0_r, !N.Div0.mod_mod; done).
    assert (Hle : (v mod 128 * 2 ^ shift < U64)%N).
    { eapply N.le_lt_trans; [|exact Hv]. by apply N.mul_le_mono_r, N.Div0.mod_le. }
    rewrite (decide_False (P := (v mod 128 + 128 < 128)%N)) by (clear; generalize (v mod 128)%N; intros; lia). cbn [N.eqb]. rewrite shl64_small, lor_disjoint by done.
    destruct (N.leb_spec 64 (shift + 7)) as [Hs|Hs].
    { exfalso. assert (2 ^ 64 <= 2 ^ (shift + 7))%N by (apply N.pow_le_mono_r; lia).
      change (2 ^ 64)%N with U64 in *. nia. }
    clear Hle. generalize dependent (v mod 128)%N. intros r Hlt Hdm.
    assert (E8 : (v * 2 ^ shift = v / 128 * (128 * 2 ^ shift) + r * 2 ^ shift)%N) by (rewrite Hdm at 1; ring).
    rewrite IH, E7, E8.
    + f_equal. f_equal. ring.
    + rewrite E7. lia.
    + rewrite E7. nia.
    + apply N.Div0.div_lt_upper_bound. replace (7 * N.of_nat (S (S fuel)))%N with (7 + 7 * N.of_nat (S fuel))%N in Hf by lia.
      rewrite N.pow_add_r in Hf. exact Hf.
  - rewrite byte_val_small, land_127, N.mod_small, land_128, decide_True, shl64_small, lor_disjoint by (done || lia). done.
Qed.

Lemma read_varint_write v rest : (v < U64)%N -> read_varint_from (write_varint v ++ rest) = (Ok v, rest).
Proof.
  intros Hv. unfold read_varint_from, write_varint. rewrite read_varint_write_go.
  - by rewrite N.add_0_l, N.mul_1_r.
  - by rewrite N.mul_1_r.
  - done.
  - eapply N.lt_trans; [exact Hv|done].
Qed.

Lemma write_varint_length v : 1 <= length (write_varint v) <= 10.
Proof.
  assert (Hgo : forall fuel n, 1 <= length (write_varint_go (S fuel) n) <= S fuel).
  { induction fuel as [|fuel IH]; intros n; rewrite write_varint_go_S; destruct (decide _); cbn [length]; try (cbn; lia).
    specialize (IH (n / 128)%N). lia. }
  apply (Hgo 9).
Qed.

(** ** Fixed-width integers *)
Lemma to_le_length n v : length (to_le_bytes n v) = n.
Proof. revert v. induction n as [|n IH]; intros v; cbn; [done|by rewrite IH]. Qed.
Lemma from_to_le n : forall v, (v < 2 ^ (8 * N.of_nat n))%N -> from_le_bytes (to_le_bytes n v) = v.
Proof.
  induction n as [|n IH]; intros v Hv; cbn [to_le_bytes from_le_bytes]; [cbn in Hv; lia|].
  replace (8 * N.of_nat (S n))%N with (8 + 8 * N.of_nat n)%N in Hv by lia. rewrite N.pow_add_r in Hv.
  rewrite N.shiftr_div_pow2. change (2 ^ 8)%N with 256%N in *. rewrite IH by by apply N.Div0.div_lt_upper_bound.
  rewrite byte_val_of, lor_disjoint by by apply N.mod_upper_bound. change (2 ^ 8)%N with 256%N.
  pose proof (N.div_mod v 256 ltac:(done)). lia.
Qed.
Lemma from_to_le8 v : u64_ok v -> from_le_bytes (to_le_bytes 8 v) = v.
Proof. intros Hv. apply from_to_le. exact Hv. Qed.
Lemma from_le_lt bs : (from_le_bytes bs < 2 ^ (8 * N.of_nat (length bs)))%N.
Proof.
  induction bs as [|b bs IH]; cbn [from_le_bytes length]; [done|]. pose proof (byte_val_lt b).
  replace (8 * N.of_nat (S (length bs)))%N with (8 + 8 * N.of_nat (length bs))%N by lia.
  rewrite N.pow_add_r, lor_disjoint by done. change (2 ^ 8)%N with 256%N. nia.
Qed.
Lemma to_from_le bs : to_le_bytes (length bs) (from_le_bytes bs) = bs.
Proof.
  induction bs as [|b bs IH]; [done|]. cbn [length to_le_bytes from_le_bytes]. pose proof (byte_val_lt b).
  rewrite lor_disjoint by done. change (2 ^ 8)%N with 256%N. f_equal.
  - rewrite <- (byte_of_val b) at 2. apply (inj byte_val). rewrite !byte_val_of.
    by rewrite N.Div0.mod_add.
  - rewrite N.shiftr_div_pow2. change (2 ^ 8)%N with 256%N.
    rewrite N.div_add, N.div_small by done. exact IH.
Qed.
Lemma from_le_inj bs bs' : length bs = length bs' -> from_le_bytes bs = from_le_bytes bs' -> bs = bs'.
Proof. intros El E. rewrite <- (to_from_le bs), <- (to_from_le bs'). by rewrite El, E. Qed.

(** ** Readers *)
Lemma runs_reader {A} path (rd : bytes -> Result A string * bytes) bs r bs' :
  rd bs = (r, bs') -> runs (reader path rd) bs (map_err (Io path) r) bs'.
Proof. intros E k. exists k. unfold reader. by rewrite E. Qed.
Lemma runs_read_varint path v rest : (v < U64)%N -> runs (read_varint path) (write_varint v ++ rest) (Ok v) rest.
Proof. intros Hv. by apply (runs_reader path _ _ (Ok v)), read_varint_write. Qed.
Lemma runs_read_exact path bs rest n : n = N.of_nat (length bs) -> runs (read_exact path n) (bs ++ rest) (Ok bs) rest.
Proof.
  intros ->. apply (runs_reader path _ _ (Ok bs)). unfold read_exact_from.
  rewrite (proj2 (N.leb_le _ _)) by (rewrite length_app; lia). by rewrite Nat2N.id, take_app_length, drop_app_length.
Qed.
Lemma cooperative_reader {A} path (rd : bytes -> Result A string * bytes) : cooperative (reader path rd).
Proof. intros c k s. unfold reader. destruct (rd s) as [r bs']. split; [lia|]. left. split; [lia|done]. Qed.
Lemma cooperative_cursor {S A} bs (m : M bytes A) : cooperative m -> cooperative (with_cursor (S := S) bs m).
Proof.
  intros Hm c k s. specialize (Hm c k bs). unfold with_cursor. destruct (m c k bs) as [[r k'] bs'].
  destruct Hm as [Hle Hm]. split; [done|]. destruct Hm as [[Hn Hr]|Hm]; [left|by right]. by rewrite Hr.
Qed.
Lemma runs_cursor {S A} bs (m : M bytes A) r bs' (s : S) : runs m bs r bs' -> runs (with_cursor bs m) s r s.
Proof. intros Hm k. destruct (Hm k) as [k' Hk]. exists k'. unfold with_cursor. by rewrite Hk. Qed.
Lemma reads_cursor {S A} bs (m : M bytes A) : reads (with_cursor (S := S) bs m).
Proof. intros c k s. unfold with_cursor. by destruct (m c k bs) as [[r k'] bs']. Qed.
Lemma cooperative_times {S A} (body : A -> N -> M S A) n : forall acc i,
  (forall a j, cooperative (body a j)) -> cooperative (mtimes body acc i n).
Proof.
  induction n as [|n IH]; intros acc i Hb; cbn; [apply cooperative_ret|].
  apply cooperative_bind; [apply Hb|]. intros a. by apply IH.
Qed.
#[export] Hint Resolve cooperative_reader cooperative_cursor cooperative_times : ctl.
Lemma cooperative_read_varint path : cooperative (read_varint path).
Proof. apply cooperative_reader. Qed.
Lemma cooperative_read_exact path n : cooperative (read_exact path n).
Proof. apply cooperative_reader. Qed.
#[export] Hint Resolve cooperative_read_varint cooperative_read_exact : ctl.
(** [ctl_auto] under cursors and counted loops too. *)
Ltac codec_auto := repeat first [ctl_step | apply cooperative_times; intros | apply cooperative_cursor].

Lemma join_cons {A} (x : list A) (l : list (list A)) : mjoin (x :: l) = x ++ mjoin l.
Proof. done. Qed.
(** A loop that reads the items of a list back, one after the other. *)
Lemma runs_times {A B} (body : B -> N -> M bytes B) (enc : A -> bytes) (step : B -> A -> B) rest : forall l acc i,
  (forall l1 x l2, l = l1 ++ x :: l2 -> forall j tail,
     runs (body (foldl step acc l1) j) (enc x ++ tail) (Ok (step (foldl step acc l1) x)) tail) ->
  runs (mtimes body acc i (length l)) (mjoin (enc <$> l) ++ rest) (Ok (foldl step acc l)) rest.
Proof.
  induction l as [|x l IH]; intros acc i Hb; cbn; [apply runs_ret|].
  rewrite <- app_assoc. eapply runs_bind; [by apply (Hb [] x l)|]. apply IH.
  intros l1 y l2 -> j tail. by apply (Hb (x :: l1) y l2).
Qed.

Lemma get_range_app l m r : get_range (l ++ m ++ r) (length l) (length l + length m) = Some m.
Proof.
  unfold get_range. rewrite decide_True by (rewrite !length_app; lia).
  rewrite drop_app_length. replace (length l + length m - length l) with (length m) by lia. by rewrite take_app_length.
Qed.
Lemma get_range_at l m r i j : i = length l -> j = length l + length m -> get_range (l ++ m ++ r) i j = Some m.
Proof. intros -> ->. apply get_range_app. Qed.

Lemma get_at l m r i j : i = N.of_nat (length l) -> j = N.of_nat (length l + length m) -> get (l ++ m ++ r) i j = Some m.
Proof.
  intros -> ->. unfold get. rewrite (proj2 (N.leb_le _ _)) by (rewrite !length_app; lia). by apply get_range_at; lia.
Qed.

(** ** CRC-32 *)

(** One step is the table look-up applied to the state with the byte mixed in. *)
Definition crc_word (x : N) : N := N.lxor (N.shiftr x 8) (CRC32_TABLE !!! N.to_nat (N.land x 255)).
Lemma crc_step_word s b : crc_step s b = crc_word (N.lxor s (byte_val b)).
Proof.
  unfold crc_step, crc_word. f_equal. rewrite N.shiftr_lxor, (N.shiftr_div_pow2 (byte_val b)).
  rewrite (N.div_small (byte_val b)) by apply byte_val_lt. by rewrite N.lxor_0_r.
Qed.
Lemma crc_word_lxor x m : crc_word (N.lxor x (N.shiftl m 8)) = N.lxor (crc_word x) m.
Proof.
  unfold crc_word. rewrite N.shiftr_lxor, N.shiftr_shiftl_l by done. rewrite N.sub_diag, N.shiftl_0_r.
  replace (N.land (N.lxor x (N.shiftl m 8)) 255) with (N.land x 255).
  - rewrite !N.lxor_assoc. f_equal. apply N.lxor_comm.
  - apply N.bits_inj. intros i. rewrite !N.land_spec, N.lxor_spec. change 255%N with (N.ones 8).
    destruct (N.lt_ge_cases i 8).
    + rewrite N.shiftl_spec_low by done. by rewrite xorb_false_r.
    + rewrite N.ones_spec_high by done. by rewrite !andb_false_r.
Qed.

Definition W32 : N := 4294967296.
Lemma table_tops : NoDup ((fun t => N.shiftr t 24) <$> CRC32_TABLE).
Proof. apply (bool_decide_unpack _). vm_compute. exact I. Qed.
Lemma table_words : Forall (fun t => (t < W32)%N) CRC32_TABLE.
Proof. apply (bool_decide_unpack _). vm_compute. exact I. Qed.

Lemma lxor_lt a b : (a < W32)%N -> (b < W32)%N -> (N.lxor a b < W32)%N.
Proof.
  change W32 with (2 ^ 32)%N. intros Ha Hb. destruct (decide (N.lxor a b = 0%N)) as [->|Hn]; [done|].
  apply N.log2_lt_pow2; [lia|]. eapply N.le_lt_trans; [apply N.log2_lxor|]. apply N.max_lub_lt.
  - destruct (decide (a = 0%N)) as [->|]; [done|]. apply N.log2_lt_pow2; [lia|done].
  - destruct (decide (b = 0%N)) as [->|]; [done|]. apply N.log2_lt_pow2; [lia|done].
Qed.
Lemma low_byte x : (N.land x 255 < 256)%N.
Proof. change 255%N with (N.ones 8). rewrite N.land_ones. by apply N.mod_upper_bound. Qed.
Lemma table_entry i : (i < 256)%N -> exists t, CRC32_TABLE !! N.to_nat i = Some t /\ CRC32_TABLE !!! N.to_nat i = t /\ (t < W32)%N.
Proof.
  intros Hi. destruct (lookup_lt_is_Some_2 CRC32_TABLE (N.to_nat i)) as [t Ht].
  { change (length CRC32_TABLE) with 256. lia. }
  exists t. split; [done|]. split; [by apply list_lookup_total_correct|]. by apply (Forall_lookup_1 _ _ _ _ table_words Ht).
Qed.
Lemma crc_word_lt x : (x < W32)%N -> (crc_word x < W32)%N.
Proof.
  intros Hx. unfold crc_word. destruct (table_entry _ (low_byte x)) as (t & _ & -> & Ht). apply lxor_lt; [|done].
  rewrite N.shiftr_div_pow2. eapply N.le_lt_trans; [|exact Hx]. apply N.Div0.div_le_upper_bound. change (2 ^ 8)%N with 256%N. lia.
Qed.
(** The top byte of a table entry tells which one it is, so a step can be undone. *)
Lemma crc_word_inj x y : (x < W32)%N -> (y < W32)%N -> crc_word x = crc_word y -> x = y.
Proof.
  intros Hx Hy. unfold crc_word.
  destruct (table_entry _ (low_byte x)) as (t & Ht & -> & _), (table_entry _ (low_byte y)) as (u & Hu & -> & _). intros E.
  assert (Htop : forall z v, (z < W32)%N -> N.shiftr (N.lxor (N.shiftr z 8) v) 24 = N.shiftr v 24).
  { intros z v Hz. rewrite N.shiftr_lxor, N.shiftr_shiftr, N.shiftr_div_pow2, (N.div_small z) by done. apply N.lxor_0_l. }
  pose proof (f_equal (fun n => N.shiftr n 24) E) as Etop. cbn beta in Etop. rewrite !Htop in Etop by done.
  assert (Ei : N.land x 255 = N.land y 255).
  { apply N2Nat.inj. eapply NoDup_lookup; [apply table_tops| |].
    - rewrite list_lookup_fmap, Ht. done.
    - rewrite list_lookup_fmap, Hu. cbn. by rewrite Etop. }
  rewrite Ei, Hu in Ht. injection Ht as ->.
  apply (f_equal (fun n => N.lxor n t)) in E. rewrite !N.lxor_assoc, N.lxor_nilpotent, !N.lxor_0_r in E.
  change 255%N with (N.ones 8) in Ei. rewrite !N.land_ones in Ei. rewrite !N.shiftr_div_pow2 in E.
  rewrite (N.div_mod x (2 ^ 8)), (N.div_mod y (2 ^ 8)) by done. by rewrite E, Ei.
Qed.

Lemma from_le_cons b bs : from_le_bytes (b :: bs) = N.lxor (byte_val b) (N.shiftl (from_le_bytes bs) 8).
Proof.
  cbn [from_le_bytes]. symmetry. rewrite N.shiftl_mul_pow2. apply N.lxor_lor. apply land_disjoint, byte_val_lt.
Qed.
(** The bytes of a message can be mixed into the state before the steps. *)
Lemma crc_fold bs : forall s, foldl crc_step s bs = Nat.iter (length bs) crc_word (N.lxor s (from_le_bytes bs)).
Proof.
  induction bs as [|b bs IH]; intros s; [cbn; by rewrite N.lxor_0_r|]. cbn [foldl length].
  rewrite IH, crc_step_word, from_le_cons, <- N.lxor_assoc, Nat.iter_succ_r, crc_word_lxor. done.
Qed.
Lemma crc_fold_lt bs : forall s, (s < W32)%N -> (foldl crc_step s bs < W32)%N.
Proof.
  induction bs as [|b bs IH]; intros s Hs; cbn; [done|]. apply IH. rewrite crc_step_word. apply crc_word_lt, lxor_lt; [done|].
  eapply N.lt_trans; [apply byte_val_lt|done].
Qed.
Lemma crc_iter_inj n : forall x y, (x < W32)%N -> (y < W32)%N -> Nat.iter n crc_word x = Nat.iter n crc_word y -> x = y.
Proof.
  induction n as [|n IH]; intros x y Hx Hy; [done|]. rewrite !Nat.iter_succ_r. intros E.
  apply crc_word_inj; [done|done|]. apply IH; [by apply crc_word_lt..|done].
Qed.
Lemma lxor_inj s x y : N.lxor s x = N.lxor s y -> x = y.
Proof. intros E. rewrite <- (N.lxor_0_l x), <- (N.lxor_0_l y), <- (N.lxor_nilpotent s), !N.lxor_assoc. by rewrite E. Qed.
Lemma crc_fold_state bs s s' : (s < W32)%N -> (s' < W32)%N -> foldl crc_step s bs = foldl crc_step s' bs -> s = s'.
Proof.
  revert s s'. induction bs as [|b bs IH]; intros s s' Hs Hs'; cbn; [done|]. intros E%IH.
  - rewrite !crc_step_word in E. pose proof (N.lt_trans _ _ W32 (byte_val_lt b) ltac:(done)).
    apply crc_word_inj in E; [|by apply lxor_lt..]. rewrite !(N.lxor_comm _ (byte_val b)) in E. by eapply lxor_inj.
  - by apply (crc_fold_lt [b] s).
  - by apply (crc_fold_lt [b] s').
Qed.

Lemma crc32_lt bs : (crc32 bs < W32)%N.
Proof. apply lxor_lt; [|done]. by apply crc_fold_lt. Qed.
(** A change of at most four bytes in a row changes the checksum. *)
Lemma crc32_burst l w w' r : length w = length w' -> length w <= 4 -> crc32 (l ++ w ++ r) = crc32 (l ++ w' ++ r) -> w = w'.
Proof.
  intros El Hl E. unfold crc32 in E. rewrite !(N.lxor_comm _ 4294967295) in E. apply lxor_inj in E.
  rewrite !foldl_app in E. pose proof (crc_fold_lt l 4294967295 ltac:(done)) as Hs.
  apply crc_fold_state in E; [|by apply crc_fold_lt..].
  generalize dependent (foldl crc_step 4294967295%N l). intros s E Hs. rewrite !crc_fold, El in E.
  assert (Hw : forall v, length v <= 4 -> (from_le_bytes v < W32)%N).
  { intros v Hv. eapply N.lt_le_trans; [apply from_le_lt|]. change W32 with (2 ^ 32)%N. apply N.pow_le_mono_r; lia. }
  apply crc_iter_inj in E; [|apply lxor_lt; [done|apply Hw; lia]..]. apply lxor_inj in E. by apply from_le_inj.
Qed.

(** ** Checksum footers *)
Lemma footer_length bs magic : length (write_checksum_footer bs magic) = 4 + length magic.
Proof. unfold write_checksum_footer. by rewrite length_app, to_le_length. Qed.

Lemma verify_footer bs body magic path store :
  verify_checksum_footer (bs ++ write_checksum_footer body magic) magic path store =
    if decide (crc32 bs = crc32 body) then Ok true
    else Err (integrity_error path store "checksum mismatch; archive must be rebuilt").
Proof.
  unfold verify_checksum_footer. rewrite length_app, footer_length.
  rewrite (decide_False (P := (length bs + (4 + length magic) < 4 + length magic))) by lia.
  replace (length bs + (4 + length magic) - (4 + length magic)) with (length bs) by lia.
  unfold write_checksum_footer. rewrite <- drop_drop, drop_app_length.
  assert (Hd : drop 4 (to_le_bytes 4 (crc32 body) ++ magic) = magic) by by apply drop_app_length'; rewrite to_le_length.
  rewrite (decide_True _ _ Hd).
  rewrite (get_range_at bs (to_le_bytes 4 (crc32 body)) magic) by (rewrite ?to_le_length; lia). cbn [ok_or_else result_bind].
  rewrite take_app_length, from_to_le by apply crc32_lt. done.
Qed.
Lemma verify_written bs magic path store :
  verify_checksum_footer (bs ++ write_checksum_footer bs magic) magic path store = Ok true.
Proof. by rewrite verify_footer, decide_True. Qed.

(** ** What a reader gives under a closure

    The result of the uninterrupted run, or the error of a poll. *)
Definition outcome {S A} (m : M S A) (c : Control) (s : S) (r : Res A) (s' : S) : Prop :=
  run m c s = (r, s') \/ exists j e, c j = Some e /\ (run m c s).1 = Err e.
Lemma cooperative_outcome {S A} (m : M S A) c s r s' : cooperative m -> runs m s r s' -> outcome m c s r s'.
Proof.
  intros Hm Hr. specialize (Hm c 0 s). destruct (Hr 0) as [k Hk]. unfold outcome, run.
  destruct (m c 0 s) as [[r1 k1] s1]. destruct Hm as [_ [[_ Hn]|(e & -> & _ & He & _)]]; [left; congruence|].
  right. by exists (k1 - 1), e.
Qed.

Lemma lor_lt a b : (a < U64)%N -> (b < U64)%N -> (N.lor a b < U64)%N.
Proof.
  intros Ha Hb. destruct (decide (N.lor a b = 0%N)) as [->|Hn]; [done|]. apply N.log2_lt_pow2 with (b := 64%N); [lia|].
  rewrite N.log2_lor. apply N.max_lub_lt.
  - destruct (decide (a = 0%N)) as [->|]; [done|]. apply N.log2_lt_pow2; [lia|done].
  - destruct (decide (b = 0%N)) as [->|]; [done|]. apply N.log2_lt_pow2; [lia|done].
Qed.
Lemma read_varint_go_bounds bs : forall value i v bs', (value < U64)%N -> i < 10 ->
  read_varint_go bs value (7 * N.of_nat i) = (Ok v, bs') ->
  (v < U64)%N /\ exists pre, bs = pre ++ bs' /\ 1 <= length pre <= 10 - i.
Proof.
  induction bs as [|b bs IH]; intros value i v bs' Hv Hi; cbn -[N.lor N.land N.mul N.add shl64]; [done|].
  set (value' := N.lor value _). assert (Hv' : (value' < U64)%N) by (apply lor_lt; [done|unfold shl64; apply N.mod_lt; done]).
  destruct (N.eqb_spec (N.land (byte_val b) 128) 0).
  - intros [= <- <-]. split; [done|]. exists [b]. cbn. split; [done|lia].
  - destruct (N.leb_spec 64 (7 * N.of_nat i + 7)); [done|].
    replace (7 * N.of_nat i + 7)%N with (7 * N.of_nat (S i))%N by lia. intros (Hb & pre & -> & Hp)%IH; [|done|lia].
    split; [done|]. exists (b :: pre). cbn [length app]. split; [done|lia].
Qed.

(** C39: Integers on disk: a [u64] takes one to ten bytes and is read back from them,
    whatever follows; whatever the bytes, what is read is a [u64], made of one to ten
    of them. *)
Theorem varint_bounds :
  (forall v rest, (v < U64)%N -> 1 <= length (write_varint v) <= 10 /\ read_varint_from (write_varint v ++ rest) = (Ok v, rest)) /\
  (forall bs v rest, read_varint_from bs = (Ok v, rest) -> (v < U64)%N /\ exists pre, bs = pre ++ rest /\ 1 <= length pre <= 10).
Proof.
  split.
  - intros v rest Hv. split; [apply write_varint_length|by apply read_varint_write].
  - intros bs v rest Hr. apply (read_varint_go_bounds bs 0 0); [done|lia|exact Hr].
Qed.

(** C40: The checksum footer detects every change of at most four consecutive bytes
    of an archive; an unchanged archive is accepted. *)
Theorem checksum_spec l w w' r magic path store : length w' = length w -> length w <= 4 ->
  verify_checksum_footer ((l ++ w' ++ r) ++ write_checksum_footer (l ++ w ++ r) magic) magic path store =
    if decide (w' = w) then Ok true
    else Err (integrity_error path store "checksum mismatch; archive must be rebuilt").
Proof.
  intros El Hl. rewrite verify_footer. destruct (decide (w' = w)) as [->|Hne]; [by rewrite decide_True|].
  rewrite decide_False; [done|]. intros E. by apply crc32_burst in E; [|done|lia].
Qed.

Lemma checksum_spec_witness :
  verify_checksum_footer (literal "ab_def" ++ write_checksum_footer (literal "abcdef") (literal "ok")) (literal "ok") "p" "row" =
    Err (integrity_error "p" "row" "checksum mismatch; archive must be rebuilt").
Proof.
  exact (checksum_spec (literal "ab") (literal "c") (literal "_") (literal "def") (literal "ok") "p" "row"
    eq_refl ltac:(cbn; lia)).
Defined.
