(* ===== verification/StoreIds.v ===== *)
(** * Sets of file ids ([crates/store/src/ids.rs])

    Every posting list of the archives is a blocked set of [FileId]s: the sorted
    ids cut into blocks of 128, each encoded by its differences or by its runs,
    whichever is shorter, behind a directory of the blocks. *)
From Stdlib Require Import Ascii.
From S2P Require Import Prelude Types Text Order Control Codec.
#[local] Open Scope list_scope.

Definition DEFAULT_ID_BLOCK_SIZE : nat := 128.
Definition BLOCKED_IDS_V2_MARKER : N := 0.
Definition BLOCKED_IDS_V2_VERSION : N := 2.
Definition ID_DECODE_CHECK_STRIDE : N := 256.

Inductive IdBlockCodec : Type := Delta | Run.
#[export] Instance IdBlockCodec_eq_dec : EqDecision IdBlockCodec.
Proof. solve_decision. Defined.

Record IdBlock : Type := mkIdBlock {
  block_first : FileId;
  block_entries : N;
  block_codec : IdBlockCodec;
  block_len : N
}.
Record IdRun : Type := mkIdRun { run_start : FileId; run_entries : N }.
Record BlockedFileIdsLimitedReport : Type := mkLimited {
  limited_ids : list FileId;
  truncated : bool;
  encoded_len : N
}.

Definition id_format_error (path reason : string) : GfmError :=
  Format ("invalid id block store " +:+ path +:+ ": " +:+ reason).
Definition no_id : FileId := mkFileId 0 0.

(** ** Writing *)
Definition codec_as_code (k : IdBlockCodec) : N := match k with Delta => 0 | Run => 1 end.
Definition codec_from_code (value : N) (path : string) : Res IdBlockCodec :=
  match value with
  | 0 => Ok Delta
  | 1 => Ok Run
  | _ => Err (id_format_error path "unsupported id block codec")
  end%N.

Definition node_delta (previous id : FileId) : N :=
  if decide (file_volume id = file_volume previous) then saturating_sub (file_node id) (file_node previous)
  else file_node id.
Fixpoint write_delta_from (previous : FileId) (ids : list FileId) : bytes :=
  match ids with
  | [] => []
  | id :: ids' =>
      write_varint (saturating_sub (file_volume id) (file_volume previous)) ++
      write_varint (node_delta previous id) ++ write_delta_from id ids'
  end.
Definition write_delta_file_ids (ids : list FileId) : bytes := write_delta_from no_id ids.

Fixpoint id_runs_from (start previous : FileId) (entries : N) (rest : list FileId) : list IdRun :=
  match rest with
  | [] => [mkIdRun start entries]
  | id :: rest' =>
      if decide (file_volume id = file_volume previous /\ file_node id = saturating_add (file_node previous) 1)
      then id_runs_from start id (entries + 1) rest'
      else mkIdRun start entries :: id_runs_from id id 1 rest'
  end.
Definition id_runs (ids : list FileId) : list IdRun :=
  match ids with [] => [] | first :: rest => id_runs_from first first 1 rest end.

Definition run_last (r : IdRun) : FileId :=
  mkFileId (file_volume (run_start r)) (saturating_add (file_node (run_start r)) (saturating_sub (run_entries r) 1)).
Fixpoint write_runs_from (previous : FileId) (runs : list IdRun) : bytes :=
  match runs with
  | [] => []
  | r :: runs' =>
      write_varint (saturating_sub (file_volume (run_start r)) (file_volume previous)) ++
      write_varint (node_delta previous (run_start r)) ++
      write_varint (run_entries r) ++ write_runs_from (run_last r) runs'
  end.
Definition write_run_file_ids (ids : list FileId) : bytes :=
  let runs := id_runs ids in write_varint (N.of_nat (length runs)) ++ write_runs_from no_id runs.

Definition encode_best_block (ids : list FileId) : IdBlockCodec * bytes :=
  let delta := write_delta_file_ids ids in
  let run := write_run_file_ids ids in
  if decide (length run < length delta) then (Run, run) else (Delta, delta).

(** [slice::chunks]. *)
Fixpoint chunks_upto {A} (fuel n : nat) (l : list A) : list (list A) :=
  match fuel, l with
  | O, _ | _, [] => []
  | S fuel', _ => take n l :: chunks_upto fuel' n (drop n l)
  end.
Definition chunks {A} (n : nat) (l : list A) : list (list A) := chunks_upto (length l) n l.

(** The blocks of a set, and the bytes of each. *)
Definition block_of (encode : list FileId -> IdBlockCodec * bytes) (block_ids : list FileId) : IdBlock * bytes :=
  let '(codec, block) := encode block_ids in
  (mkIdBlock (default no_id (head block_ids)) (N.of_nat (length block_ids)) codec (N.of_nat (length block)), block).
Definition id_blocks (encode : list FileId -> IdBlockCodec * bytes) (ids : list FileId) : list (IdBlock * bytes) :=
  block_of encode <$> chunks DEFAULT_ID_BLOCK_SIZE ids.

Definition write_block_v2 (b : IdBlock) : bytes :=
  write_varint (file_volume (block_first b)) ++ write_varint (file_node (block_first b)) ++
  write_varint (block_entries b) ++ write_varint (codec_as_code (block_codec b)) ++ write_varint (block_len b).
Definition write_blocked_file_ids_v2 (ids : list FileId) : bytes :=
  let ids := sort_dedup ids in
  let blocks := id_blocks encode_best_block ids in
  write_varint (N.of_nat (length ids)) ++ write_varint BLOCKED_IDS_V2_MARKER ++
  write_varint BLOCKED_IDS_V2_VERSION ++ write_varint (N.of_nat DEFAULT_ID_BLOCK_SIZE) ++
  write_varint (N.of_nat (length blocks)) ++ mjoin (write_block_v2 <$> blocks.*1) ++ mjoin blocks.*2.
Definition write_blocked_file_ids (ids : list FileId) : bytes := write_blocked_file_ids_v2 ids.

Definition write_block_v1 (b : IdBlock) : bytes :=
  write_varint (file_volume (block_first b)) ++ write_varint (file_node (block_first b)) ++
  write_varint (block_entries b) ++ write_varint (block_len b).
Definition write_blocked_file_ids_v1 (ids : list FileId) : bytes :=
  let ids := sort_dedup ids in
  let blocks := id_blocks (fun block_ids => (Delta, write_delta_file_ids block_ids)) ids in
  write_varint (N.of_nat (length ids)) ++ write_varint (N.of_nat DEFAULT_ID_BLOCK_SIZE) ++
  write_varint (N.of_nat (length blocks)) ++ mjoin (write_block_v1 <$> blocks.*1) ++ mjoin blocks.*2.

(** ** Reading *)
Section Reading.
Context (path : string).

Definition volume_overflow := id_format_error path "volume id overflow".
Definition node_overflow := id_format_error path "file node id overflow".
Definition range_overflow := id_format_error path "id block range overflow".
Definition out_of_bounds := id_format_error path "id block out of bounds".

Definition polled (index : N) : M bytes unit :=
  if decide (index mod ID_DECODE_CHECK_STRIDE = 0)%N then check_control else mret tt.
(** The next id, as differences from [previous]. *)
Definition read_id (previous : FileId) : M bytes FileId :=
  volume_delta <- read_varint path ;
  volume <- mlift (ok_or_else (checked_add (file_volume previous) volume_delta) volume_overflow) ;
  delta <- read_varint path ;
  node <- (if decide (volume = file_volume previous)
           then mlift (ok_or_else (checked_add (file_node previous) delta) node_overflow)
           else mret delta) ;
  mret (mkFileId volume node).

Definition delta_step (acc : list FileId * FileId) (index : N) : M bytes (list FileId * FileId) :=
  polled index ;;
  id <- read_id acc.2 ;
  mret (acc.1 ++ [id], id).
Definition read_delta_file_ids_checked (count : N) : M bytes (list FileId) :=
  check_control ;;
  acc <- mtimes delta_step ([], no_id) 0 (N.to_nat count) ;
  check_control ;;
  mret acc.1.

Definition run_id_step (start : FileId) (decoded : N) (ids : list FileId) (offset : N) : M bytes (list FileId) :=
  polled (decoded + offset)%N ;;
  node <- mlift (ok_or_else (checked_add (file_node start) offset) node_overflow) ;
  mret (ids ++ [mkFileId (file_volume start) node]).
Definition run_step (acc : list FileId * FileId * N) (_ : N) : M bytes (list FileId * FileId * N) :=
  let '(ids, previous, decoded) := acc in
  check_control ;;
  start <- read_id previous ;
  entries <- read_varint path ;
  if decide (entries = 0%N) then mfail (id_format_error path "empty id run")
  else
    ids <- mtimes (run_id_step start decoded) ids 0 (N.to_nat entries) ;
    last_node <- mlift (ok_or_else (checked_add (file_node start) (entries - 1)%N) node_overflow) ;
    mret (ids, mkFileId (file_volume start) last_node, (decoded + entries)%N).
Definition read_run_file_ids_checked (count : N) : M bytes (list FileId) :=
  check_control ;;
  run_count <- read_varint path ;
  acc <- mtimes run_step ([], no_id, 0%N) 0 (N.to_nat run_count) ;
  if decide (N.of_nat (length acc.1.1) = count) then check_control ;; mret acc.1.1
  else mfail (id_format_error path "id run count mismatch").

Definition read_encoded_file_ids_checked (block : IdBlock) : M bytes (list FileId) :=
  match block_codec block with
  | Delta => read_delta_file_ids_checked (block_entries block)
  | Run => read_run_file_ids_checked (block_entries block)
  end.
(** [read_encoded_file_ids]: the same with [|| Ok(())]. *)
Definition unpolled {S A} (m : M S A) : M S A := fun _ k s => let '(r, _, s') := m never k s in (r, k, s').
Definition read_encoded_file_ids (block : IdBlock) : M bytes (list FileId) :=
  unpolled (read_encoded_file_ids_checked block).

Definition read_block_v1 (blocks : list IdBlock) (_ : N) : M bytes (list IdBlock) :=
  volume <- read_varint path ; node <- read_varint path ;
  entries <- read_varint path ; len <- read_varint path ;
  mret (blocks ++ [mkIdBlock (mkFileId volume node) entries Delta len]).
Definition read_id_blocks_v1 : M bytes (list IdBlock) :=
  block_count <- read_varint path ; mtimes read_block_v1 [] 0 (N.to_nat block_count).
Definition read_block_v2 (blocks : list IdBlock) (_ : N) : M bytes (list IdBlock) :=
  volume <- read_varint path ; node <- read_varint path ;
  entries <- read_varint path ; code <- read_varint path ;
  codec <- mlift (codec_from_code code path) ; len <- read_varint path ;
  mret (blocks ++ [mkIdBlock (mkFileId volume node) entries codec len]).
Definition read_id_blocks_v2 : M bytes (list IdBlock) :=
  block_count <- read_varint path ; mtimes read_block_v2 [] 0 (N.to_nat block_count).

Definition read_blocked_header : M bytes (N * list IdBlock) :=
  block_size <- read_varint path ;
  if decide (block_size = BLOCKED_IDS_V2_MARKER) then
    version <- read_varint path ;
    if decide (version <> BLOCKED_IDS_V2_VERSION) then mfail (id_format_error path "unsupported blocked id version")
    else
      block_size <- read_varint path ;
      if decide (block_size = 0%N) then mfail (id_format_error path "zero id block size")
      else blocks <- read_id_blocks_v2 ; mret (block_size, blocks)
  else blocks <- read_id_blocks_v1 ; mret (block_size, blocks).

Fixpoint payload_len_from (sum : N) (blocks : list IdBlock) : Res N :=
  match blocks with
  | [] => Ok sum
  | b :: blocks' => let? sum := ok_or_else (checked_add sum (block_len b)) range_overflow in payload_len_from sum blocks'
  end.
Definition block_payload_len (blocks : list IdBlock) : Res N := payload_len_from 0 blocks.

(** One block of a payload read whole: the offset it starts at, and the ids so far. *)
Definition payload_step (payload : bytes) (acc : N * list FileId) (block : IdBlock) : M bytes (N * list FileId) :=
  check_control ;;
  end_ <- mlift (ok_or_else (checked_add acc.1 (block_len block)) range_overflow) ;
  block_bytes <- mlift (ok_or_else (get payload acc.1 end_) out_of_bounds) ;
  ids <- with_cursor block_bytes (read_encoded_file_ids_checked block) ;
  mret (end_, acc.2 ++ ids).
Definition read_blocked_file_ids_checked : M bytes (list FileId) :=
  check_control ;;
  count <- read_varint path ;
  check_control ;;
  header <- read_blocked_header ;
  check_control ;;
  payload_len <- mlift (block_payload_len header.2) ;
  payload <- read_exact path payload_len ;
  check_control ;;
  acc <- mfor (payload_step payload) (0%N, []) header.2 ;
  check_control ;;
  if decide (N.of_nat (length acc.2) = count) then mret acc.2
  else mfail (id_format_error path "id count mismatch").

(** What the readers of a slice find before the payload: the number of ids, the
    blocks, and where the payload starts and ends. *)
Definition read_slice_header {S} (bs : bytes) : M S (N * list IdBlock * N * N) :=
  check_control ;;
  head <- with_cursor bs (
    count <- read_varint path ;
    check_control ;;
    header <- read_blocked_header ;
    check_control ;;
    rest <- mget ;
    mret (count, header.2, N.of_nat (length bs - length rest))) ;
  let '(count, blocks, payload_start) := head in
  payload_len <- mlift (block_payload_len blocks) ;
  encoded_len <- mlift (ok_or_else (checked_add payload_start payload_len) range_overflow) ;
  if (encoded_len <=? N.of_nat (length bs))%N then mret (count, blocks, payload_start, encoded_len)
  else mfail out_of_bounds.
Definition block_range {S} (payload_start payload_offset : N) (block : IdBlock) : M S (N * N) :=
  start <- mlift (ok_or_else (checked_add payload_start payload_offset) range_overflow) ;
  end_ <- mlift (ok_or_else (checked_add start (block_len block)) range_overflow) ;
  mret (start, end_).
Definition read_slice_block {S} (bs : bytes) (range : N * N) (block : IdBlock) : M S (list FileId) :=
  block_bytes <- mlift (ok_or_else (get bs range.1 range.2) out_of_bounds) ;
  with_cursor block_bytes (read_encoded_file_ids_checked block).

(** At most [limit] ids. *)
Fixpoint limited_loop {S} (bs : bytes) (limit count payload_start encoded_len payload_offset : N)
    (ids : list FileId) (blocks : list IdBlock) : M S BlockedFileIdsLimitedReport :=
  match blocks with
  | [] => mret (mkLimited ids false encoded_len)
  | block :: blocks' =>
      check_control ;;
      range <- block_range payload_start payload_offset block ;
      more <- read_slice_block bs range block ;
      let ids := ids ++ more in
      if (limit <=? N.of_nat (length ids))%N
      then mret (mkLimited (take (N.to_nat limit) ids) (limit <? count)%N encoded_len)
      else
        payload_offset <- mlift (ok_or_else (checked_add payload_offset (block_len block)) range_overflow) ;
        limited_loop bs limit count payload_start encoded_len payload_offset ids blocks'
  end.
Definition read_blocked_file_ids_limited_report_from_slice_checked {S} (bs : bytes) (limit : N)
    : M S BlockedFileIdsLimitedReport :=
  header <- read_slice_header bs ;
  let '(count, blocks, payload_start, encoded_len) := header in
  if decide (limit = 0%N) then mret (mkLimited [] (0 <? count)%N encoded_len)
  else limited_loop bs limit count payload_start encoded_len 0 [] blocks.
Definition read_blocked_file_ids_limited_from_slice_checked {S} (bs : bytes) (limit : N) : M S (list FileId) :=
  report <- read_blocked_file_ids_limited_report_from_slice_checked bs limit ; mret (limited_ids report).

(** At most [limit] ids of one volume: the ids so far, and whether to stop, with
    the flag to stop with. *)
Fixpoint volume_ids {S} (volume limit : N) (ids more : list FileId) : M S (list FileId * option bool) :=
  match more with
  | [] => mret (ids, None)
  | id :: more' =>
      check_control ;;
      if (file_volume id <? volume)%N then volume_ids volume limit ids more'
      else if (volume <? file_volume id)%N then mret (ids, Some false)
      else
        let ids := ids ++ [id] in
        if (limit <? N.of_nat (length ids))%N then mret (take (N.to_nat limit) ids, Some true)
        else volume_ids volume limit ids more'
  end.
Fixpoint volume_loop {S} (bs : bytes) (volume limit payload_start payload_offset : N)
    (ids : list FileId) (blocks : list IdBlock) : M S (list FileId * bool) :=
  match blocks with
  | [] => mret (ids, false)
  | block :: blocks' =>
      check_control ;;
      range <- block_range payload_start payload_offset block ;
      if (volume <? file_volume (block_first block))%N then mret (ids, false)
      else if match head blocks' with Some next => (file_volume (block_first next) <? volume)%N | None => false end then
        payload_offset <- mlift (ok_or_else (checked_add payload_offset (block_len block)) range_overflow) ;
        volume_loop bs volume limit payload_start payload_offset ids blocks'
      else
        more <- read_slice_block bs range block ;
        r <- volume_ids volume limit ids more ;
        match r with
        | (ids, Some flag) => mret (ids, flag)
        | (ids, None) =>
            payload_offset <- mlift (ok_or_else (checked_add payload_offset (block_len block)) range_overflow) ;
            volume_loop bs volume limit payload_start payload_offset ids blocks'
        end
  end.
Definition read_blocked_file_ids_for_volume_limited_from_slice_checked {S} (bs : bytes) (volume limit : N)
    : M S (list FileId * bool) :=
  header <- read_slice_header bs ;
  let '(_, blocks, payload_start, _) := header in
  if decide (limit = 0%N) then mret ([], false)
  else volume_loop bs volume limit payload_start 0 [] blocks.

(** One block. *)
Definition read_blocked_file_id_block_from_slice {S} (bs : bytes) (block_index : N) : M S (list FileId) :=
  unpolled (
    head <- with_cursor bs (
      _ <- read_varint path ;
      header <- read_blocked_header ;
      rest <- mget ;
      mret (header.2, N.of_nat (length bs - length rest))) ;
    let '(blocks, payload_start) := head in
    target <- mlift (ok_or_else (if (block_index <? N.of_nat (length blocks))%N then blocks !! N.to_nat block_index else None)
                       (id_format_error path "id block index out of bounds")) ;
    skip_len <- mlift (block_payload_len (take (N.to_nat block_index) blocks)) ;
    range <- block_range payload_start skip_len target ;
    block_bytes <- mlift (ok_or_else (get bs range.1 range.2) out_of_bounds) ;
    with_cursor block_bytes (read_encoded_file_ids target)).
End Reading.
