(* ===== verification/StoreIdsSpec.v ===== *)
(** * Blocked file id sets read back

    The two block encodings, the directory of the blocks, and what each reader of
    [StoreIds] returns on what the writer wrote. *)
From Stdlib Require Import Ascii.
From S2P Require Import Prelude Types Text Order Control Codec StoreIds.
#[local] Open Scope list_scope.

Definition id_ok (f : FileId) : Prop := u64_ok (file_volume f) /\ u64_ok (file_node f).
#[export] Instance id_ok_dec f : Decision (id_ok f).
Proof. unfold id_ok. apply _. Defined.

Lemma FileId_lt a b : lt_of a b <->
  (file_volume a < file_volume b)%N \/ file_volume a = file_volume b /\ (file_node a < file_node b)%N.
Proof.
  unfold lt_of. change (cmp a b) with (then_cmp (file_volume a ?= file_volume b)%N (file_node a ?= file_node b)%N).
  destruct (N.compare_spec (file_volume a) (file_volume b)) as [E|E|E]; cbn; rewrite ?N.compare_lt_iff; split; intros; try lia; done.
Qed.
Lemma FileId_le a b : le_of a b <->
  (file_volume a < file_volume b)%N \/ file_volume a = file_volume b /\ (file_node a <= file_node b)%N.
Proof.
  rewrite le_lt_or_eq, FileId_lt. split.
  - intros [?| ->]; lia.
  - destruct a as [v n], b as [v' n']; cbn. intros [?|[-> ?]]; [lia|]. destruct (decide (n = n')) as [->|]; [by right|left; lia].
Qed.

(** Bound the varints of the goal. *)
Ltac varint_lengths :=
  repeat match goal with |- context [length (write_varint ?v)] =>
    pose proof (write_varint_length v); generalize dependent (length (write_varint v)); intros
  end.

(** A computation that does not poll. *)
Lemma runs_unpolled {S A} (m : M S A) s r s' : runs m s r s' -> runs (unpolled m) s r s'.
Proof. intros Hm k. destruct (Hm k) as [k' Hk]. exists k. unfold unpolled. by rewrite Hk. Qed.

(** ** One id *)
Lemma runs_read_id path prev id rest : le_of prev id -> id_ok id ->
  runs (read_id path prev) (write_varint (saturating_sub (file_volume id) (file_volume prev)) ++
    write_varint (node_delta prev id) ++ rest) (Ok id) rest.
Proof.
  rewrite FileId_le. intros Hle [Hv Hn]. unfold u64_ok in *. unfold read_id, saturating_sub.
  eapply runs_bind; [apply runs_read_varint; lia|]. cbv beta.
  unfold checked_add. replace (file_volume prev + (file_volume id - file_volume prev))%N with (file_volume id) by lia.
  rewrite (proj2 (N.ltb_lt _ _) Hv). eapply runs_bind; [apply runs_lift|]. cbn [ok_or_else].
  unfold node_delta, saturating_sub. case_decide as Hd.
  - eapply runs_bind; [apply runs_read_varint; lia|]. cbv beta.
    replace (file_node prev + (file_node id - file_node prev))%N with (file_node id) by lia.
    rewrite (proj2 (N.ltb_lt _ _) Hn). eapply runs_bind; [apply runs_lift|]. cbn. destruct id. apply runs_ret.
  - eapply runs_bind; [by apply runs_read_varint|]. cbv beta.
    eapply runs_bind; [apply runs_ret|]. destruct id. apply runs_ret.
Qed.

Lemma runs_polled index s : runs (polled index) s (Ok tt) s.
Proof. unfold polled. destruct (decide _); [apply runs_check|apply runs_ret]. Qed.
Lemma cooperative_polled index : cooperative (polled index).
Proof. unfold polled. ctl_auto. Qed.
#[export] Hint Resolve cooperative_polled : ctl.

(** ** Differences *)
Lemma runs_delta_loop path ids : forall prev acc index rest,
  StronglySorted le_of (prev :: ids) -> Forall id_ok ids ->
  runs (mtimes (delta_step path) (acc, prev) index (length ids)) (write_delta_from prev ids ++ rest)
    (Ok (acc ++ ids, default prev (last ids))) rest.
Proof.
  induction ids as [|id ids IH]; intros prev acc index rest Hs Hok; cbn [length mtimes write_delta_from].
  { rewrite app_nil_r. apply runs_ret. }
  apply StronglySorted_inv in Hs as [Hs Hle]. apply Forall_cons in Hle as [Hle _]. apply Forall_cons in Hok as [Hid Hok].
  rewrite <- !app_assoc. eapply runs_bind.
  { unfold delta_step. eapply runs_bind; [apply runs_polled|]. eapply runs_bind; [by apply runs_read_id|]. apply runs_ret. }
  cbv beta. cbn [fst snd]. specialize (IH id (acc ++ [id]) (index + 1)%N rest Hs Hok).
  rewrite <- app_assoc in IH. cbn [app] in IH. rewrite last_cons.
  destruct (last ids) eqn:El; cbn [default] in *; [done|]. exact IH.
Qed.
Lemma no_id_least id : le_of no_id id.
Proof. apply FileId_le. unfold no_id. cbn. destruct id as [v n]; cbn. lia. Qed.
Lemma sorted_from_no_id ids : StronglySorted le_of ids -> StronglySorted le_of (no_id :: ids).
Proof. intros Hs. constructor; [done|]. apply Forall_forall. intros x _. apply no_id_least. Qed.

Lemma runs_read_delta path ids rest : StronglySorted le_of ids -> Forall id_ok ids ->
  runs (read_delta_file_ids_checked path (N.of_nat (length ids))) (write_delta_file_ids ids ++ rest) (Ok ids) rest.
Proof.
  intros Hs Hok. unfold read_delta_file_ids_checked. eapply runs_bind; [apply runs_check|]. rewrite Nat2N.id.
  eapply runs_bind; [apply (runs_delta_loop path ids no_id []); [by apply sorted_from_no_id|done]|]. cbv beta.
  eapply runs_bind; [apply runs_check|]. apply runs_ret.
Qed.

(** ** Runs *)
Definition run_ids (r : IdRun) : list FileId :=
  (fun k => mkFileId (file_volume (run_start r)) (file_node (run_start r) + N.of_nat k)) <$> seq 0 (N.to_nat (run_entries r)).
Definition run_ok (r : IdRun) : Prop :=
  id_ok (run_start r) /\ (0 < run_entries r < U64)%N /\ (file_node (run_start r) + run_entries r <= U64)%N.

Lemma runs_run_ids path start decoded n : forall ids i s, (file_node start + i + N.of_nat n <= U64)%N ->
  runs (mtimes (run_id_step path start decoded) ids i n) s
    (Ok (ids ++ ((fun k => mkFileId (file_volume start) (file_node start + N.of_nat k)) <$> seq (N.to_nat i) n))) s.
Proof.
  induction n as [|n IH]; intros ids i s Hb; cbn [mtimes seq]; [rewrite app_nil_r; apply runs_ret|].
  eapply runs_bind.
  { unfold run_id_step. eapply runs_bind; [apply runs_polled|]. unfold checked_add.
    rewrite (proj2 (N.ltb_lt _ _)) by lia. eapply runs_bind; [apply runs_lift|]. apply runs_ret. }
  cbv beta. specialize (IH (ids ++ [mkFileId (file_volume start) (file_node start + i)]) (i + 1)%N s ltac:(lia)).
  rewrite <- app_assoc in IH. cbn [app] in IH. rewrite fmap_cons, N2Nat.id.
  replace (N.to_nat (i + 1)) with (S (N.to_nat i)) in IH by lia. exact IH.
Qed.

Lemma run_last_eq r : run_ok r -> run_last r = mkFileId (file_volume (run_start r)) (file_node (run_start r) + (run_entries r - 1)).
Proof. intros (_ & He & Hb). unfold run_last, saturating_add, saturating_sub. f_equal. lia. Qed.

Lemma runs_run_step path ids prev decoded j r rest : le_of prev (run_start r) -> run_ok r ->
  runs (run_step path (ids, prev, decoded) j)
    (write_varint (saturating_sub (file_volume (run_start r)) (file_volume prev)) ++
     write_varint (node_delta prev (run_start r)) ++ write_varint (run_entries r) ++ rest)
    (Ok (ids ++ run_ids r, run_last r, (decoded + run_entries r)%N)) rest.
Proof.
  intros Hle Hr. rewrite (run_last_eq r Hr). destruct Hr as (Hid & He & Hb). unfold run_step.
  eapply runs_bind; [apply runs_check|]. eapply runs_bind; [by apply runs_read_id|]. cbv beta.
  pose proof Hid as [_ Hn]. unfold u64_ok in Hn.
  eapply runs_bind; [apply runs_read_varint, He|]. cbv beta. rewrite decide_False by lia.
  eapply runs_bind; [apply runs_run_ids; lia|]. cbv beta. unfold checked_add.
  rewrite (proj2 (N.ltb_lt _ _)) by lia. eapply runs_bind; [apply runs_lift|]. apply runs_ret.
Qed.

(** Runs in order, with a gap between them. *)
Fixpoint runs_after (prev : FileId) (runs : list IdRun) : Prop :=
  match runs with [] => True | r :: runs' => le_of prev (run_start r) /\ run_ok r /\ runs_after (run_last r) runs' end.

Lemma runs_run_loop path rs : forall ids prev decoded j rest, runs_after prev rs ->
  exists prev' decoded',
  runs (mtimes (run_step path) (ids, prev, decoded) j (length rs)) (write_runs_from prev rs ++ rest)
    (Ok (ids ++ mjoin (run_ids <$> rs), prev', decoded')) rest.
Proof.
  induction rs as [|r rs IH]; intros ids prev decoded j rest Hr; cbn [length mtimes write_runs_from].
  { do 2 eexists. rewrite app_nil_r. apply runs_ret. }
  destruct Hr as (Hle & Hok & Hr).
  edestruct (IH (ids ++ run_ids r) (run_last r) (decoded + run_entries r)%N (j + 1)%N rest Hr) as (p' & d' & Hrun).
  exists p', d'. rewrite <- !app_assoc. eapply runs_bind; [by apply runs_run_step|]. cbv beta.
  rewrite fmap_cons, join_cons, app_assoc. exact Hrun.
Qed.

Lemma run_ids_one id : run_ids (mkIdRun id 1) = [id].
Proof. unfold run_ids. destruct id as [v n]. change (N.to_nat _) with 1. cbn. by rewrite N.add_0_r. Qed.
(** What [id_runs] makes of sorted ids: the run under construction, and the rest. *)
Lemma id_runs_from_ok rest : forall start previous entries,
  id_ok start -> (0 < entries)%N -> (entries + N.of_nat (length rest) < U64)%N ->
  previous = mkFileId (file_volume start) (file_node start + (entries - 1)) ->
  StronglySorted lt_of (previous :: rest) -> Forall id_ok (previous :: rest) ->
  (forall prev, le_of prev start -> runs_after prev (id_runs_from start previous entries rest)) /\
  mjoin (run_ids <$> id_runs_from start previous entries rest) = run_ids (mkIdRun start entries) ++ rest.
Proof.
  induction rest as [|id rest IH]; intros start previous entries Hst He Hl Ep Hs Hok; cbn [id_runs_from].
  - assert (Hr : run_ok (mkIdRun start entries)).
    { apply Forall_inv in Hok. rewrite Ep in Hok. destruct Hok as [_ Hn]. unfold u64_ok in Hn. cbn in *.
      split; [done|]. cbn. lia. }
    split; [intros prev Hle; split; [done|split; done]|]. done.
  - apply StronglySorted_inv in Hs as [Hs Hlt]. apply Forall_inv in Hlt. apply FileId_lt in Hlt.
    apply Forall_cons in Hok as [Hp Hok]. pose proof (Forall_inv Hok) as Hid.
    assert (Hno : saturating_add (file_node previous) 1 = (file_node previous + 1)%N \/
      file_volume id <> file_volume previous /\ True).
    { destruct (decide (file_volume id = file_volume previous)) as [E|E]; [left|by right].
      destruct Hid as [_ Hin]. unfold u64_ok in Hin. unfold saturating_add. lia. }
    cbn [length] in Hl. case_decide as Hd.
    + destruct Hd as [Ev En]. destruct Hno as [Hno|[Hno _]]; [|done]. rewrite Hno in En.
      assert (Eid : id = mkFileId (file_volume start) (file_node start + (entries + 1 - 1))).
      { destruct id as [v n]; cbn in *. subst previous; cbn in *. f_equal; [done|lia]. }
      destruct (IH start id (entries + 1)%N) as [IH1 IH2]; try done; try lia.
      split; [done|]. rewrite IH2. unfold run_ids. cbn [run_start run_entries].
      replace (N.to_nat (entries + 1)) with (S (N.to_nat entries)) by lia.
      rewrite seq_S, fmap_app, <- app_assoc. f_equal. cbn. f_equal. rewrite Eid. f_equal. lia.
    + assert (Hr : run_ok (mkIdRun start entries)).
      { rewrite Ep in Hp. destruct Hp as [_ Hn]. unfold u64_ok in Hn. cbn in *. split; [done|]. cbn. lia. }
      destruct (IH id id 1%N) as [IH1 IH2]; try done; try lia.
      { destruct id as [v n]; cbn. f_equal. lia. }
      split.
      * intros prev Hle. cbn [runs_after]. split; [done|]. split; [done|]. apply IH1. rewrite (run_last_eq _ Hr). cbn.
        apply FileId_le. subst previous. cbn in *. lia.
      * by rewrite fmap_cons, join_cons, IH2, run_ids_one.
Qed.

Lemma id_runs_ok ids : (N.of_nat (length ids) < U64)%N -> StronglySorted lt_of ids -> Forall id_ok ids ->
  runs_after no_id (id_runs ids) /\ mjoin (run_ids <$> id_runs ids) = ids.
Proof.
  intros Hl Hs Hok. destruct ids as [|id ids]; [done|]. cbn [id_runs length] in *.
  destruct (id_runs_from_ok ids id id 1%N) as [Hr Hj]; try done; try lia.
  - by apply Forall_inv in Hok.
  - destruct id as [v n]; cbn. f_equal. lia.
  - split; [apply Hr, no_id_least|]. rewrite Hj, run_ids_one. done.
Qed.
Lemma id_runs_length ids : length (id_runs ids) <= length ids.
Proof.
  assert (Hg : forall l start previous entries, length (id_runs_from start previous entries l) <= S (length l)).
  { induction l as [|x l IH]; intros start previous entries; cbn; [lia|].
    case_decide; cbn; [pose proof (IH start x (entries + 1)%N)|pose proof (IH x x 1%N)]; lia. }
  destruct ids as [|id ids]; [done|]. apply Hg.
Qed.

Lemma runs_read_run path ids rest : (N.of_nat (length ids) < U64)%N -> StronglySorted lt_of ids -> Forall id_ok ids ->
  runs (read_run_file_ids_checked path (N.of_nat (length ids))) (write_run_file_ids ids ++ rest) (Ok ids) rest.
Proof.
  intros Hl Hs Hok. destruct (id_runs_ok ids Hl Hs Hok) as [Hr Hj]. unfold read_run_file_ids_checked, write_run_file_ids.
  rewrite <- app_assoc. eapply runs_bind; [apply runs_check|].
  eapply runs_bind; [apply runs_read_varint; pose proof (id_runs_length ids); lia|]. cbv beta. rewrite Nat2N.id.
  destruct (runs_run_loop path (id_runs ids) [] no_id 0 0 rest Hr) as (p & d & Hrun).
  eapply runs_bind; [exact Hrun|]. cbn [fst app]. rewrite Hj, decide_True by done.
  eapply runs_bind; [apply runs_check|]. apply runs_ret.
Qed.

(** ** Encodings of a block *)
Definition encodes (encode : list FileId -> IdBlockCodec * bytes) : Prop :=
  forall ids, (N.of_nat (length ids) < U64)%N -> StronglySorted lt_of ids -> Forall id_ok ids ->
  length (encode ids).2 <= 20 * length ids /\
  forall path block rest, block_codec block = (encode ids).1 -> block_entries block = N.of_nat (length ids) ->
  runs (read_encoded_file_ids_checked path block) ((encode ids).2 ++ rest) (Ok ids) rest.

Lemma lt_sorted_le {A} `{TotalOrd A} (l : list A) : StronglySorted lt_of l -> StronglySorted le_of l.
Proof.
  induction 1 as [|x l Hs IH Hx]; constructor; [done|]. eapply Forall_impl; [exact Hx|]. intros y. apply lt_le.
Qed.
Lemma write_delta_length ids : forall prev, length (write_delta_from prev ids) <= 20 * length ids.
Proof.
  induction ids as [|id ids IH]; intros prev; cbn [write_delta_from length]; [lia|]. rewrite !length_app.
  pose proof (write_varint_length (saturating_sub (file_volume id) (file_volume prev))).
  pose proof (write_varint_length (node_delta prev id)). specialize (IH id). lia.
Qed.
Lemma encodes_delta : encodes (fun ids => (Delta, write_delta_file_ids ids)).
Proof.
  intros ids Hl Hs Hok. cbn [fst snd]. split; [apply write_delta_length|]. intros path block rest Ec En.
  unfold read_encoded_file_ids_checked. rewrite Ec, En. apply runs_read_delta; [by apply lt_sorted_le|done].
Qed.
Lemma encodes_best : encodes encode_best_block.
Proof.
  intros ids Hl Hs Hok. destruct (encodes_delta ids Hl Hs Hok) as [Hlen Hd]. unfold encode_best_block.
  case_decide as Hlt; [|done]. cbn [fst snd] in *. split; [lia|]. intros path block rest Ec En.
  unfold read_encoded_file_ids_checked. rewrite Ec, En. by apply runs_read_run.
Qed.

(** ** Chunks *)
Lemma chunks_upto_spec {A} n fuel : forall l : list A, 0 < n -> length l <= fuel ->
  mjoin (chunks_upto fuel n l) = l /\ n * length (chunks_upto fuel n l) <= length l + (n - 1) /\
  (forall k, chunks_upto fuel n l !! k =
     if decide (n * k < length l) then Some (take n (drop (n * k) l)) else None).
Proof.
  induction fuel as [|fuel IH]; intros l Hn Hl.
  { destruct l; [|cbn in Hl; lia]. cbn. split_and!; [done|lia|]. intros k. rewrite lookup_nil, decide_False by lia. done. }
  destruct l as [|x l]; [cbn; split_and!; [done|lia|]; intros k; rewrite lookup_nil, decide_False by lia; done|].
  cbn [chunks_upto]. set (xs := x :: l) in *. assert (Hx : 0 < length xs) by (cbn; lia).
  destruct (IH (drop n xs) Hn) as (Hj & Hc & Hk); [rewrite length_drop; lia|]. rewrite length_drop in *. split_and!.
  - by rewrite join_cons, Hj, take_drop.
  - cbn [length]. destruct (decide (n <= length xs)) as [Hle|Hle]; [lia|].
    replace (length xs - n) with 0 in Hc by lia. assert (length (chunks_upto fuel n (drop n xs)) = 0) by nia. lia.
  - intros [|k]; cbn [lookup list_lookup].
    + rewrite Nat.mul_0_r, drop_0, decide_True by lia. done.
    + change (list_lookup k ?c) with (c !! k). rewrite Hk, drop_drop. replace (n * S k) with (n + n * k) by lia.
      destruct (decide (n * k < length xs - n)), (decide (n + n * k < length xs)); done || lia.
Qed.
Lemma chunks_join {A} n (l : list A) : 0 < n -> mjoin (chunks n l) = l.
Proof. intros Hn. by apply chunks_upto_spec. Qed.
Lemma chunks_length {A} n (l : list A) : 0 < n -> n * length (chunks n l) <= length l + (n - 1).
Proof. intros Hn. by apply chunks_upto_spec. Qed.
Lemma chunks_lookup {A} n (l : list A) k : 0 < n ->
  chunks n l !! k = if decide (n * k < length l) then Some (take n (drop (n * k) l)) else None.
Proof. intros Hn. by apply chunks_upto_spec. Qed.
Lemma chunks_elem {A} n (l c : list A) : 0 < n -> c ∈ chunks n l -> c <> [] /\ length c <= n /\ exists l1 l2, l = l1 ++ c ++ l2.
Proof.
  intros Hn [k Hk]%list_elem_of_lookup. rewrite chunks_lookup in Hk by done. case_decide as Hd; [|done].
  injection Hk as <-. split_and!.
  - intros E%(f_equal length). rewrite length_take, length_drop in E. cbn in E. lia.
  - rewrite length_take. lia.
  - exists (take (n * k) l), (drop n (drop (n * k) l)). by rewrite !take_drop.
Qed.

(** ** What a set is stored as

    The blocks with their bytes and ids; a reader finds the count and the blocks at
    the front, and the bytes of the blocks after them. *)
Record Part : Type := mkPart { part_block : IdBlock; part_bytes : bytes; part_ids : list FileId }.
Record part_fits (p : Part) : Prop := {
  part_head : head (part_ids p) = Some (block_first (part_block p));
  part_len : block_len (part_block p) = N.of_nat (length (part_bytes p));
  part_reads path rest : runs (read_encoded_file_ids_checked path (part_block p)) (part_bytes p ++ rest) (Ok (part_ids p)) rest
}.
Definition payload (ps : list Part) : bytes := mjoin (part_bytes <$> ps).
Definition all_ids (ps : list Part) : list FileId := mjoin (part_ids <$> ps).
Record stored (bs : bytes) (ids : list FileId) (ps : list Part) : Prop := {
  stored_front : exists front, bs = front ++ payload ps /\ forall path rest, exists middle,
    runs (read_varint path) (bs ++ rest) (Ok (N.of_nat (length ids))) middle /\
    runs (read_blocked_header path) middle (Ok (N.of_nat DEFAULT_ID_BLOCK_SIZE, part_block <$> ps)) (payload ps ++ rest);
  stored_parts : Forall part_fits ps;
  stored_ids : all_ids ps = ids;
  stored_sorted : StronglySorted lt_of ids;
  stored_small : (N.of_nat (length bs) < U64)%N
}.

Lemma sorted_sublist {A} (R : A -> A -> Prop) (l1 l2 l3 : list A) :
  StronglySorted R (l1 ++ l2 ++ l3) -> StronglySorted R l2.
Proof. intros Hs. by apply StronglySorted_app_1_r, StronglySorted_app_1_l in Hs. Qed.

(** A [Vec] of ids, 16 bytes each, has fewer than [2^59] of them. *)
Definition vec_ok (ids : list FileId) : Prop := (N.of_nat (length ids) < 2 ^ 59)%N /\ Forall id_ok ids.

Definition part_of (encode : list FileId -> IdBlockCodec * bytes) (block_ids : list FileId) : Part :=
  let r := block_of encode block_ids in mkPart r.1 r.2 block_ids.
Definition parts_of (encode : list FileId -> IdBlockCodec * bytes) (ids : list FileId) : list Part :=
  part_of encode <$> chunks DEFAULT_ID_BLOCK_SIZE ids.

Lemma id_blocks_parts encode ids :
  (id_blocks encode ids).*1 = part_block <$> parts_of encode ids /\ (id_blocks encode ids).*2 = part_bytes <$> parts_of encode ids.
Proof.
  unfold id_blocks, parts_of. rewrite <- !list_fmap_compose. split; apply list_fmap_ext; intros ? c _; done.
Qed.
Lemma id_blocks_length encode ids : length (id_blocks encode ids) = length (parts_of encode ids).
Proof. unfold id_blocks, parts_of. by rewrite !length_fmap. Qed.
Lemma length_join {A} (ls : list (list A)) : length (mjoin ls) = sum_list (length <$> ls).
Proof. induction ls as [|l ls IH]; [done|]. rewrite join_cons, length_app, IH. done. Qed.
Lemma sum_list_bound (f g : Part -> nat) ps : Forall (fun p => f p <= g p) ps -> sum_list (f <$> ps) <= sum_list (g <$> ps).
Proof. induction 1; csimpl; lia. Qed.

Section Parts.
Context (encode : list FileId -> IdBlockCodec * bytes) (Henc : encodes encode) (ids : list FileId).
Context (Hsmall : (N.of_nat (length ids) < 2 ^ 59)%N) (Hok : Forall id_ok ids) (Hsorted : StronglySorted lt_of ids).
Let ps := parts_of encode ids.

Lemma chunk_encodes c : c ∈ chunks DEFAULT_ID_BLOCK_SIZE ids ->
  c <> [] /\ (N.of_nat (length c) < U64)%N /\ StronglySorted lt_of c /\ Forall id_ok c.
Proof.
  intros (Hne & Hl & l1 & l2 & E)%chunks_elem; [|unfold DEFAULT_ID_BLOCK_SIZE; lia]. split; [done|].
  unfold DEFAULT_ID_BLOCK_SIZE in Hl. split; [unfold U64; lia|]. rewrite E in Hsorted, Hok. split.
  - by eapply sorted_sublist.
  - by apply Forall_app in Hok as [_ [? _]%Forall_app].
Qed.
Lemma parts_fit : Forall part_fits ps.
Proof.
  apply Forall_fmap, Forall_forall. intros c (Hne & Hl & Hs & Hc)%chunk_encodes.
  destruct (Henc c Hl Hs Hc) as [_ Hr]. unfold part_of, block_of, compose. destruct (encode c) as [k bs] eqn:E.
  constructor; cbn; [by destruct c|done|]. intros path rest. by apply Hr.
Qed.
Lemma parts_ids : all_ids ps = ids.
Proof.
  unfold all_ids, ps, parts_of. rewrite <- list_fmap_compose.
  rewrite (list_fmap_ext _ id) by done. rewrite list_fmap_id. apply chunks_join. unfold DEFAULT_ID_BLOCK_SIZE. lia.
Qed.
Lemma parts_count : 128 * length ps <= length ids + 127.
Proof. unfold ps, parts_of. rewrite length_fmap. apply (chunks_length 128). lia. Qed.
Lemma payload_length : length (payload ps) <= 20 * length ids.
Proof.
  rewrite <- (f_equal length parts_ids). unfold payload, all_ids. rewrite !length_join, <- !list_fmap_compose.
  assert (Hle : forall qs, Forall (fun p => length (part_bytes p) <= 20 * length (part_ids p)) qs ->
    sum_list ((length ∘ part_bytes) <$> qs) <= 20 * sum_list ((length ∘ part_ids) <$> qs)).
  { induction 1; csimpl; lia. }
  apply Hle. apply Forall_fmap, Forall_forall. intros c (Hne & Hl & Hs & Hc)%chunk_encodes.
  destruct (Henc c Hl Hs Hc) as [Hb _]. unfold compose, part_of, block_of. by destruct (encode c).
Qed.
(** The fields of every block are in range. *)
Definition block_ok (b : IdBlock) : Prop :=
  id_ok (block_first b) /\ u64_ok (block_entries b) /\ u64_ok (block_len b).
Lemma blocks_ok : Forall block_ok (part_block <$> ps).
Proof.
  apply Forall_fmap, Forall_fmap, Forall_forall. intros c Hc. pose proof (chunk_encodes c Hc) as (Hne & Hl & Hs & Ho).
  destruct (Henc c Hl Hs Ho) as [Hb _]. unfold compose, part_of, block_of. destruct (encode c) as [k bs].
  destruct c as [|x c]; [done|]. cbn in *. split; [by apply Forall_inv in Ho|]. split; [exact Hl|].
  apply chunks_elem in Hc as (_ & Hn & _); [|unfold DEFAULT_ID_BLOCK_SIZE; lia]. unfold DEFAULT_ID_BLOCK_SIZE in Hn.
  cbn [length] in Hn. cbn. unfold u64_ok, U64. lia.
Qed.
End Parts.

(** ** The directory of the blocks *)
Lemma runs_read_block_v2 path blocks j b rest : block_ok b ->
  runs (read_block_v2 path blocks j) (write_block_v2 b ++ rest) (Ok (blocks ++ [b])) rest.
Proof.
  intros ([Hv Hn] & He & Hl). unfold read_block_v2, write_block_v2. rewrite <- !app_assoc.
  do 4 (eapply runs_bind; [apply runs_read_varint; first [done|by destruct (block_codec b)]|]; cbv beta).
  assert (Ec : codec_from_code (codec_as_code (block_codec b)) path = Ok (block_codec b)) by by destruct (block_codec b).
  rewrite Ec. eapply runs_bind; [apply runs_lift|]. eapply runs_bind; [by apply runs_read_varint|].
  destruct b as [[v n] e k l]. apply runs_ret.
Qed.
Lemma runs_read_block_v1 path blocks j b rest : block_ok b -> block_codec b = Delta ->
  runs (read_block_v1 path blocks j) (write_block_v1 b ++ rest) (Ok (blocks ++ [b])) rest.
Proof.
  intros ([Hv Hn] & He & Hl) Ec. unfold read_block_v1, write_block_v1. rewrite <- !app_assoc.
  do 4 (eapply runs_bind; [by apply runs_read_varint|]; cbv beta).
  destruct b as [[v n] e k l]. cbn in *. subst k. apply runs_ret.
Qed.
Lemma runs_read_blocks (read : list IdBlock -> N -> M bytes (list IdBlock)) (write : IdBlock -> bytes) blocks rest :
  (forall acc j b tail, b ∈ blocks -> runs (read acc j) (write b ++ tail) (Ok (acc ++ [b])) tail) ->
  runs (mtimes read [] 0 (length blocks)) (mjoin (write <$> blocks) ++ rest) (Ok blocks) rest.
Proof.
  intros Hr. pose proof (runs_times read write (fun acc b => acc ++ [b]) rest blocks [] 0) as Ht.
  rewrite (foldl_snoc_map id), list_fmap_id in Ht. apply Ht. intros l1 b l2 -> j tail. apply Hr. set_solver.
Qed.

Section Written.
Context (ids : list FileId) (Hids : vec_ok ids).
Let sorted := sort_dedup ids.

Lemma dedup_length {A} `{TotalOrd A} `{EqDecision A} (l : list A) : length (dedup l) <= length l.
Proof. induction l as [|x l IH]; cbn; [lia|]. repeat case_match; cbn in *; lia. Qed.
Lemma sorted_ok : (N.of_nat (length sorted) < 2 ^ 59)%N /\ Forall id_ok sorted /\ StronglySorted lt_of sorted.
Proof.
  destruct Hids as [Hl Ho]. split_and!.
  - pose proof (dedup_length (sort ids)) as Hd. unfold sort in Hd at 2. rewrite sort_by_length in Hd. unfold sorted, sort_dedup. lia.
  - apply Forall_forall. intros x Hx. apply (sort_dedup_elem x ids) in Hx. revert x Hx. by apply Forall_forall.
  - apply sort_dedup_sorted.
Qed.

Lemma stored_written encode write front :
  encodes encode ->
  let ps := parts_of encode sorted in
  write = front ++ payload ps -> length front <= 50 + 50 * length ps ->
  (forall path rest, Forall block_ok (part_block <$> ps) -> (N.of_nat (length ps) < U64)%N -> exists middle,
    runs (read_varint path) (front ++ rest) (Ok (N.of_nat (length sorted))) middle /\
    runs (read_blocked_header path) middle (Ok (N.of_nat DEFAULT_ID_BLOCK_SIZE, part_block <$> ps)) rest) ->
  stored write sorted ps.
Proof.
  intros Henc ps -> Hfront Hread. destruct sorted_ok as (Hl & Ho & Hs).
  pose proof (parts_count encode sorted Hl) as Hc. fold ps in Hc. split.
  - exists front. split; [done|]. intros path rest. rewrite <- app_assoc. apply Hread; [by apply blocks_ok|]. unfold U64. lia.
  - by apply parts_fit.
  - by apply parts_ids.
  - done.
  - pose proof (payload_length encode Henc sorted Hl Ho Hs) as Hp. fold ps in Hp. rewrite length_app. unfold U64. lia.
Qed.

Lemma headers_length (write : IdBlock -> bytes) (l : list IdBlock) : (forall b, length (write b) <= 50) ->
  sum_list (length <$> (write <$> l)) <= 50 * length l.
Proof. intros Hw. induction l as [|b l IH]; [done|]. csimpl. pose proof (Hw b). lia. Qed.

Lemma stored_v2 : stored (write_blocked_file_ids ids) sorted (parts_of encode_best_block sorted).
Proof.
  set (ps := parts_of encode_best_block sorted). pose proof (id_blocks_parts encode_best_block sorted) as [E1 E2].
  fold ps in E1, E2.
  apply (stored_written encode_best_block _ (write_varint (N.of_nat (length sorted)) ++ write_varint BLOCKED_IDS_V2_MARKER ++
    write_varint BLOCKED_IDS_V2_VERSION ++ write_varint (N.of_nat DEFAULT_ID_BLOCK_SIZE) ++
    write_varint (N.of_nat (length ps)) ++ mjoin (write_block_v2 <$> (part_block <$> ps)))).
  - apply encodes_best.
  - unfold write_blocked_file_ids, write_blocked_file_ids_v2. fold sorted. rewrite (id_blocks_length _ sorted), E1, E2, <- !app_assoc. done.
  - rewrite !length_app, length_join.
    pose proof (headers_length write_block_v2 (part_block <$> ps)) as Hb. rewrite length_fmap in Hb.
    specialize (Hb ltac:(intros b; unfold write_block_v2; rewrite !length_app; varint_lengths; lia)).
    varint_lengths. fold ps. lia.
  - intros path rest Hb Hn. eexists. rewrite <- !app_assoc. split; [apply runs_read_varint|].
    + destruct sorted_ok as [? _]. unfold U64. lia.
    + unfold read_blocked_header. eapply runs_bind; [by apply runs_read_varint|]. rewrite decide_True by done.
      eapply runs_bind; [by apply runs_read_varint|]. rewrite decide_False by (intros Hd; by apply Hd).
      eapply runs_bind; [by apply runs_read_varint|]. rewrite decide_False by done.
      eapply runs_bind; [|apply runs_ret]. unfold read_id_blocks_v2. eapply runs_bind; [by apply runs_read_varint|].
      rewrite Nat2N.id, <- (length_fmap part_block). apply runs_read_blocks. intros acc j b tail Hin.
      apply runs_read_block_v2. by eapply Forall_forall in Hb.
Qed.

(** The old format: no marker, and differences only. *)
Lemma stored_v1 :
  stored (write_blocked_file_ids_v1 ids) sorted (parts_of (fun c => (Delta, write_delta_file_ids c)) sorted).
Proof.
  set (encode := fun c => (Delta, write_delta_file_ids c)). set (ps := parts_of encode sorted).
  pose proof (id_blocks_parts encode sorted) as [E1 E2]. fold ps in E1, E2.
  apply (stored_written encode _ (write_varint (N.of_nat (length sorted)) ++ write_varint (N.of_nat DEFAULT_ID_BLOCK_SIZE) ++
    write_varint (N.of_nat (length ps)) ++ mjoin (write_block_v1 <$> (part_block <$> ps)))).
  - apply encodes_delta.
  - unfold write_blocked_file_ids_v1. fold sorted encode. rewrite (id_blocks_length _ sorted), E1, E2, <- !app_assoc. done.
  - rewrite !length_app, length_join.
    pose proof (headers_length write_block_v1 (part_block <$> ps)) as Hb. rewrite length_fmap in Hb.
    specialize (Hb ltac:(intros b; unfold write_block_v1; rewrite !length_app; varint_lengths; lia)).
    varint_lengths. fold ps. lia.
  - intros path rest Hb Hn. eexists. rewrite <- !app_assoc. split; [apply runs_read_varint|].
    + destruct sorted_ok as [? _]. unfold U64. lia.
    + unfold read_blocked_header. eapply runs_bind; [by apply runs_read_varint|]. rewrite decide_False by done.
      eapply runs_bind; [|apply runs_ret]. unfold read_id_blocks_v1. eapply runs_bind; [by apply runs_read_varint|].
      rewrite Nat2N.id, <- (length_fmap part_block). apply runs_read_blocks. intros acc j b tail Hin.
      apply runs_read_block_v1; [by eapply Forall_forall in Hb|].
      apply list_elem_of_fmap in Hin as (p & -> & Hp). unfold ps, parts_of in Hp.
      by apply list_elem_of_fmap in Hp as (c & -> & _).
Qed.
End Written.

(** ** Reading it back *)
Lemma payload_app ps1 ps2 : payload (ps1 ++ ps2) = payload ps1 ++ payload ps2.
Proof. unfold payload. by rewrite fmap_app, join_app. Qed.
Lemma payload_cons p ps : payload (p :: ps) = part_bytes p ++ payload ps.
Proof. done. Qed.
Lemma all_ids_app ps1 ps2 : all_ids (ps1 ++ ps2) = all_ids ps1 ++ all_ids ps2.
Proof. unfold all_ids. by rewrite fmap_app, join_app. Qed.
Lemma all_ids_cons p ps : all_ids (p :: ps) = part_ids p ++ all_ids ps.
Proof. done. Qed.

Lemma checked_add_small a b : (a + b < U64)%N -> checked_add a b = Some (a + b)%N.
Proof. intros Hb. unfold checked_add. by rewrite (proj2 (N.ltb_lt _ _)). Qed.
Lemma runs_checked_add {S} a b e (s : S) : (a + b < U64)%N ->
  runs (mlift (ok_or_else (checked_add a b) e)) s (Ok (a + b)%N) s.
Proof. intros Hb. rewrite checked_add_small by done. apply runs_lift. Qed.

Lemma payload_len_ok path ps : forall sum, Forall part_fits ps -> (sum + N.of_nat (length (payload ps)) < U64)%N ->
  payload_len_from path sum (part_block <$> ps) = Ok (sum + N.of_nat (length (payload ps)))%N.
Proof.
  induction ps as [|p ps IH]; intros sum Hf Hb; [cbn; by rewrite N.add_0_r|]. apply Forall_cons in Hf as [Hp Hf].
  rewrite fmap_cons. cbn [payload_len_from]. rewrite payload_cons, length_app in *. rewrite (part_len p Hp), checked_add_small by lia.
  cbn [ok_or_else result_bind]. rewrite IH by (done || lia). f_equal. lia.
Qed.

Section Read.
Context (path : string) (bs : bytes) (ids : list FileId) (ps : list Part) (Hst : stored bs ids ps).

Lemma payload_small : (N.of_nat (length (payload ps)) < U64)%N.
Proof.
  destruct (stored_front _ _ _ Hst) as (front & E & _). pose proof (stored_small _ _ _ Hst) as Hs.
  rewrite E, length_app in Hs. lia.
Qed.
Lemma part_fit p ps1 ps2 : ps = ps1 ++ p :: ps2 -> part_fits p.
Proof. intros E. pose proof (stored_parts _ _ _ Hst) as Hf. rewrite E in Hf. by apply Forall_app in Hf as [_ [? _]%Forall_cons]. Qed.

Lemma runs_part {S} p ps1 ps2 (s : S) : ps = ps1 ++ p :: ps2 ->
  runs (with_cursor (part_bytes p) (read_encoded_file_ids_checked path (part_block p))) s (Ok (part_ids p)) s.
Proof.
  intros E. pose proof (part_reads p (part_fit p ps1 ps2 E) path []) as Hr. rewrite app_nil_r in Hr. by eapply runs_cursor.
Qed.

Lemma runs_payload ps2 : forall ps1 s, ps = ps1 ++ ps2 ->
  runs (mfor (payload_step path (payload ps)) (N.of_nat (length (payload ps1)), all_ids ps1) (part_block <$> ps2)) s
    (Ok (N.of_nat (length (payload ps)), ids)) s.
Proof.
  induction ps2 as [|p ps2 IH]; intros ps1 s E; rewrite ?fmap_cons; cbn [mfor].
  { rewrite app_nil_r in E. subst ps1. rewrite (stored_ids _ _ _ Hst). apply runs_ret. }
  pose proof payload_small as Hs. assert (Ep : payload ps = payload ps1 ++ part_bytes p ++ payload ps2) by by rewrite E, payload_app.
  rewrite Ep, !length_app in Hs. pose proof (part_len p (part_fit p ps1 ps2 E)) as Hl. eapply runs_bind.
  { unfold payload_step. eapply runs_bind; [apply runs_check|]. eapply runs_bind; [apply runs_checked_add; cbn; lia|]. cbv beta.
    cbn [fst snd]. rewrite Ep, (get_at _ (part_bytes p)) by lia. eapply runs_bind; [apply runs_lift|]. cbn [ok_or_else].
    eapply runs_bind; [by apply (runs_part p ps1 ps2)|]. apply runs_ret. }
  cbv beta. specialize (IH (ps1 ++ [p]) s).
  rewrite payload_app, all_ids_app, length_app in IH. cbn [fst snd].
  replace (payload [p]) with (part_bytes p) in IH by by rewrite payload_cons, app_nil_r.
  replace (all_ids [p]) with (part_ids p) in IH by by rewrite all_ids_cons, app_nil_r.
  rewrite Nat2N.inj_add, <- Hl in IH. apply IH. by rewrite <- app_assoc.
Qed.

Lemma runs_read_all rest : runs (read_blocked_file_ids_checked path) (bs ++ rest) (Ok ids) rest.
Proof.
  destruct (stored_front _ _ _ Hst) as (front & E & Hr). destruct (Hr path rest) as (middle & Hcount & Hheader).
  unfold read_blocked_file_ids_checked. eapply runs_bind; [apply runs_check|]. eapply runs_bind; [exact Hcount|].
  eapply runs_bind; [apply runs_check|]. eapply runs_bind; [exact Hheader|]. cbn [snd]. eapply runs_bind; [apply runs_check|].
  unfold block_payload_len. rewrite payload_len_ok; [|by apply (stored_parts _ _ _ Hst)|rewrite N.add_0_l; apply payload_small].
  eapply runs_bind; [apply runs_lift|]. eapply runs_bind; [apply runs_read_exact; lia|]. eapply runs_bind; [apply runs_check|].
  eapply runs_bind; [by apply (runs_payload ps [])|]. cbn [snd]. eapply runs_bind; [apply runs_check|].
  rewrite decide_True by done. apply runs_ret.
Qed.

(** *** From a slice, that may go on after the set *)
Section Slice.
Context {S : Type} (rest : bytes).
Implicit Types s : S.

(** Where the payload starts. *)
Definition start_of : N := N.of_nat (length bs - length (payload ps)).
Lemma front_split : exists front, bs = front ++ payload ps /\ start_of = N.of_nat (length front).
Proof.
  destruct (stored_front _ _ _ Hst) as (front & E & _). exists front. split; [done|]. unfold start_of. rewrite E, length_app. lia.
Qed.
Lemma runs_slice_header s : runs (read_slice_header path (bs ++ rest)) s
  (Ok (N.of_nat (length ids), part_block <$> ps, start_of, N.of_nat (length bs))) s.
Proof.
  destruct (stored_front _ _ _ Hst) as (front & E & Hr). destruct (Hr path rest) as (middle & Hcount & Hheader).
  pose proof (stored_small _ _ _ Hst) as Hs. pose proof payload_small as Hp.
  unfold read_slice_header. eapply runs_bind; [apply runs_check|]. eapply runs_bind.
  { eapply runs_cursor. eapply runs_bind; [exact Hcount|]. eapply runs_bind; [apply runs_check|].
    eapply runs_bind; [exact Hheader|]. eapply runs_bind; [apply runs_check|]. eapply runs_bind; [apply runs_get|]. apply runs_ret. }
  cbv beta iota. cbn [snd]. unfold block_payload_len. rewrite payload_len_ok; [|by apply (stored_parts _ _ _ Hst)|lia].
  eapply runs_bind; [apply runs_lift|]. cbv beta. rewrite !length_app.
  replace (length bs + length rest - (length (payload ps) + length rest)) with (length bs - length (payload ps)) by lia.
  fold start_of. assert (Eb : (start_of + (0 + N.of_nat (length (payload ps))) = N.of_nat (length bs))%N).
  { unfold start_of. rewrite E, length_app. lia. }
  eapply runs_bind; [apply runs_checked_add; lia|]. cbv beta. rewrite Eb, (proj2 (N.leb_le _ _)) by lia. apply runs_ret.
Qed.

Section Part.
Context (p : Part) (ps1 ps2 : list Part) (E : ps = ps1 ++ p :: ps2).
Let offset : N := N.of_nat (length (payload ps1)).

Lemma slice_part_bounds : (start_of + offset + block_len (part_block p) <= N.of_nat (length bs))%N /\
  (N.of_nat (length bs) < U64)%N /\ (offset + block_len (part_block p) = N.of_nat (length (payload (ps1 ++ [p]))))%N.
Proof.
  destruct front_split as (front & Ef & Es). rewrite Es. pose proof (stored_small _ _ _ Hst) as Hs.
  rewrite (part_len p (part_fit p ps1 ps2 E)). unfold offset. rewrite payload_app, !length_app, payload_cons, !length_app.
  split_and!; [|done|cbn; lia]. rewrite Ef, E, length_app, payload_app, payload_cons, !length_app. lia.
Qed.
Lemma runs_block_range s : runs (block_range path start_of offset (part_block p)) s
  (Ok (start_of + offset, start_of + offset + block_len (part_block p))%N) s.
Proof.
  pose proof slice_part_bounds. unfold block_range. eapply runs_bind; [apply runs_checked_add; lia|].
  eapply runs_bind; [apply runs_checked_add; lia|]. apply runs_ret.
Qed.
Lemma slice_get : get (bs ++ rest) (start_of + offset) (start_of + offset + block_len (part_block p)) = Some (part_bytes p).
Proof.
  destruct front_split as (front & Ef & Es). rewrite Es.
  assert (Eb : bs ++ rest = (front ++ payload ps1) ++ part_bytes p ++ (payload ps2 ++ rest)).
  { rewrite Ef, E, payload_app, payload_cons, <- !app_assoc. done. }
  rewrite Eb. apply get_at; unfold offset; rewrite ?(part_len p (part_fit p ps1 ps2 E)), ?length_app; lia.
Qed.
Lemma runs_slice_block s :
  runs (read_slice_block path (bs ++ rest) (start_of + offset, start_of + offset + block_len (part_block p))%N (part_block p)) s
    (Ok (part_ids p)) s.
Proof.
  unfold read_slice_block. cbn [fst snd]. rewrite slice_get. eapply runs_bind; [apply runs_lift|]. by apply (runs_part p ps1 ps2).
Qed.
Lemma runs_next_offset s : runs (mlift (ok_or_else (checked_add offset (block_len (part_block p))) (range_overflow path))) s
  (Ok (N.of_nat (length (payload (ps1 ++ [p]))))) s.
Proof. destruct slice_part_bounds as (? & ? & <-). apply runs_checked_add. unfold start_of in *. lia. Qed.
Lemma next_ids : all_ids (ps1 ++ [p]) = all_ids ps1 ++ part_ids p.
Proof. by rewrite all_ids_app, all_ids_cons, app_nil_r. Qed.
Lemma next_split : ps = (ps1 ++ [p]) ++ ps2.
Proof. by rewrite <- app_assoc. Qed.
End Part.

(** *** At most a limit *)
Lemma runs_limited_loop limit ps2 : forall ps1 s, ps = ps1 ++ ps2 -> (N.of_nat (length (all_ids ps1)) < limit)%N ->
  runs (limited_loop path (bs ++ rest) limit (N.of_nat (length ids)) start_of (N.of_nat (length bs))
          (N.of_nat (length (payload ps1))) (all_ids ps1) (part_block <$> ps2)) s
    (Ok (mkLimited (take (N.to_nat limit) ids) (limit <? N.of_nat (length ids))%N (N.of_nat (length bs)))) s.
Proof.
  pose proof (stored_ids _ _ _ Hst) as Ei. induction ps2 as [|p ps2 IH]; intros ps1 s E Hl; rewrite ?fmap_cons; cbn [limited_loop].
  - rewrite app_nil_r in E. rewrite <- E, Ei in Hl. rewrite <- E, Ei, take_ge by lia. destruct (N.ltb_spec limit (N.of_nat (length ids))); [lia|].
    apply runs_ret.
  - eapply runs_bind; [apply runs_check|]. eapply runs_bind; [by apply (runs_block_range p ps1 ps2)|]. cbv beta.
    eapply runs_bind; [by apply (runs_slice_block p ps1 ps2)|]. cbv beta zeta. rewrite <- next_ids.
    destruct (N.leb_spec limit (N.of_nat (length (all_ids (ps1 ++ [p]))))) as [Hle|Hgt].
    + assert (Et : take (N.to_nat limit) ids = take (N.to_nat limit) (all_ids (ps1 ++ [p]))).
      { by rewrite <- Ei, (next_split p ps1 ps2 E), all_ids_app, take_app_le by lia. }
      rewrite Et. apply runs_ret.
    + eapply runs_bind; [by apply (runs_next_offset p ps1 ps2)|]. cbv beta. apply IH; [by apply next_split|done].
Qed.
Lemma runs_limited limit s :
  runs (read_blocked_file_ids_limited_report_from_slice_checked path (bs ++ rest) limit) s
    (Ok (mkLimited (take (N.to_nat limit) ids) (limit <? N.of_nat (length ids))%N (N.of_nat (length bs)))) s.
Proof.
  unfold read_blocked_file_ids_limited_report_from_slice_checked. eapply runs_bind; [apply runs_slice_header|]. cbv beta iota.
  case_decide as Hz; [subst limit; apply runs_ret|]. apply (runs_limited_loop limit ps []); [done|cbn; lia].
Qed.

(** *** One volume *)
Abbreviation of_volume v := (filter (fun id => file_volume id = v)).

Lemma FileId_lt_volume a b : lt_of a b -> (file_volume a <= file_volume b)%N.
Proof. rewrite FileId_lt. lia. Qed.
Lemma of_volume_none v l : Forall (fun id => file_volume id <> v) l -> of_volume v l = [].
Proof. intros Hf. apply filter_none. by apply Forall_forall. Qed.

(** The scan of a block: it stops at the limit, or past the volume. *)
Lemma runs_volume_ids v limit more : forall acc s, (N.of_nat (length acc) <= limit)%N -> StronglySorted lt_of more ->
  runs (volume_ids v limit acc more) s
    (Ok (if (limit <? N.of_nat (length (acc ++ of_volume v more)))%N then (take (N.to_nat limit) (acc ++ of_volume v more), Some true)
         else (acc ++ of_volume v more, if existsb (fun id => v <? file_volume id)%N more then Some false else None))) s.
Proof.
  induction more as [|id more IH]; intros acc s Hl Hs; cbn [volume_ids existsb].
  { rewrite filter_nil, app_nil_r. destruct (N.ltb_spec limit (N.of_nat (length acc))); [lia|]. apply runs_ret. }
  apply StronglySorted_inv in Hs as [Hs Hid]. eapply runs_bind; [apply runs_check|]. cbv beta.
  destruct (N.ltb_spec (file_volume id) v) as [Hlt|Hge].
  { rewrite filter_cons_False by lia. destruct (N.ltb_spec v (file_volume id)); [lia|]. by apply IH. }
  destruct (N.ltb_spec v (file_volume id)) as [Hgt|Hle].
  { rewrite filter_cons_False, of_volume_none, app_nil_r by (lia || (eapply Forall_impl; [exact Hid|];
      intros x Hx%FileId_lt_volume; lia)).
    destruct (N.ltb_spec limit (N.of_nat (length acc))); [lia|]. apply runs_ret. }
  rewrite filter_cons_True by lia. cbn [orb]. cbv zeta. rewrite length_app. cbn [length].
  specialize (IH (acc ++ [id])). rewrite <- app_assoc in IH. cbn [app] in IH.
  destruct (N.ltb_spec limit (N.of_nat (length acc + 1))) as [Hlt|Hge'].
  - rewrite (proj2 (N.ltb_lt _ _)) by (rewrite length_app; cbn; lia).
    replace (acc ++ id :: of_volume v more) with ((acc ++ [id]) ++ of_volume v more) by by rewrite <- app_assoc.
    rewrite (take_app_le (acc ++ [id])) by (rewrite length_app; cbn; lia). apply runs_ret.
  - apply IH; [rewrite length_app; cbn; lia|done].
Qed.

Lemma part_sorted p ps1 ps2 : ps = ps1 ++ p :: ps2 -> StronglySorted lt_of (part_ids p).
Proof.
  intros E. pose proof (stored_sorted _ _ _ Hst) as Hs. rewrite <- (stored_ids _ _ _ Hst), E, all_ids_app, all_ids_cons in Hs.
  by eapply sorted_sublist.
Qed.
(** The ids from a block on come after its first one. *)
Lemma part_first_le p ps1 ps2 x : ps = ps1 ++ p :: ps2 -> x ∈ all_ids (p :: ps2) ->
  (file_volume (block_first (part_block p)) <= file_volume x)%N.
Proof.
  intros E Hx. pose proof (part_head p (part_fit p ps1 ps2 E)) as Hh. pose proof (stored_sorted _ _ _ Hst) as Hs.
  rewrite <- (stored_ids _ _ _ Hst), E, all_ids_app in Hs. apply StronglySorted_app_1_r in Hs.
  rewrite all_ids_cons in Hs, Hx. destruct (part_ids p) as [|y l]; [done|]. injection Hh as <-. cbn [app] in *.
  apply StronglySorted_inv in Hs as [_ Hf]. apply elem_of_cons in Hx as [->|Hx]; [lia|].
  apply FileId_lt_volume. by eapply Forall_forall in Hf.
Qed.
(** The ids before a block come before its first one. *)
Lemma part_before_first p ps1 ps2 x : ps = ps1 ++ p :: ps2 -> x ∈ all_ids ps1 ->
  (file_volume x <= file_volume (block_first (part_block p)))%N.
Proof.
  intros E Hx. pose proof (part_head p (part_fit p ps1 ps2 E)) as Hh. pose proof (stored_sorted _ _ _ Hst) as Hs.
  rewrite <- (stored_ids _ _ _ Hst), E, all_ids_app, all_ids_cons in Hs. destruct (part_ids p) as [|y l]; [done|]. injection Hh as <-.
  apply FileId_lt_volume. eapply StronglySorted_app_1_elem_of; [exact Hs|done|]. cbn. left.
Qed.

Lemma runs_volume_loop v limit ps2 : forall ps1 s, ps = ps1 ++ ps2 ->
  (N.of_nat (length (of_volume v (all_ids ps1))) <= limit)%N ->
  runs (volume_loop path (bs ++ rest) v limit start_of (N.of_nat (length (payload ps1))) (of_volume v (all_ids ps1)) (part_block <$> ps2)) s
    (Ok (take (N.to_nat limit) (of_volume v ids), (limit <? N.of_nat (length (of_volume v ids)))%N)) s.
Proof.
  pose proof (stored_ids _ _ _ Hst) as Ei. induction ps2 as [|p ps2 IH]; intros ps1 s E Hl; rewrite ?fmap_cons; cbn [volume_loop].
  { rewrite app_nil_r in E. rewrite <- E, Ei in *. rewrite take_ge by lia.
    destruct (N.ltb_spec limit (N.of_nat (length (of_volume v ids)))); [lia|]. apply runs_ret. }
  assert (Eall : of_volume v ids = of_volume v (all_ids ps1) ++ of_volume v (all_ids (p :: ps2)))
    by by rewrite <- filter_app, <- all_ids_app, <- E, Ei.
  eapply runs_bind; [apply runs_check|]. eapply runs_bind; [by apply (runs_block_range p ps1 ps2)|]. cbv beta.
  destruct (N.ltb_spec v (file_volume (block_first (part_block p)))) as [Hv|Hv].
  { rewrite (of_volume_none v (all_ids (p :: ps2))), app_nil_r in Eall.
    2:{ apply Forall_forall. intros x Hx%(part_first_le p ps1 ps2); [lia|done]. }
    rewrite Eall, take_ge by lia. destruct (N.ltb_spec limit (N.of_nat (length (of_volume v (all_ids ps1))))); [lia|]. apply runs_ret. }
  pose proof (next_split p ps1 ps2 E) as En.
  assert (Eskip : of_volume v (all_ids (ps1 ++ [p])) = of_volume v (all_ids ps1) ++ of_volume v (part_ids p))
    by by rewrite (next_ids p ps1), filter_app.
  assert (Hskip : match head (part_block <$> ps2) with Some next => (file_volume (block_first next) <? v)%N | None => false end = true ->
    of_volume v (part_ids p) = []).
  { destruct ps2 as [|q ps2]; [done|]. cbn. intros Hq%N.ltb_lt. apply of_volume_none, Forall_forall. intros x Hx.
    pose proof (part_before_first q (ps1 ++ [p]) ps2 x En) as Hb. rewrite next_ids in Hb. specialize (Hb ltac:(set_solver)). lia. }
  destruct (match head (part_block <$> ps2) with Some next => (file_volume (block_first next) <? v)%N | None => false end).
  { eapply runs_bind; [by apply (runs_next_offset p ps1 ps2)|]. cbv beta. rewrite Hskip, app_nil_r in Eskip by done.
    rewrite <- Eskip. apply IH; [done|by rewrite Eskip]. }
  eapply runs_bind; [by apply (runs_slice_block p ps1 ps2)|]. cbv beta.
  eapply runs_bind; [apply runs_volume_ids; [done|by eapply part_sorted]|]. cbv beta. rewrite <- Eskip.
  rewrite all_ids_cons, filter_app, app_assoc, <- Eskip in Eall.
  destruct (N.ltb_spec limit (N.of_nat (length (of_volume v (all_ids (ps1 ++ [p])))))) as [Hlt|Hge].
  { rewrite Eall, length_app, (proj2 (N.ltb_lt _ _)), take_app_le by lia. apply runs_ret. }
  destruct (existsb _ (part_ids p)) eqn:Ex.
  - apply existsb_exists in Ex as (x & Hx%list_elem_of_In & Hvx%N.ltb_lt).
    rewrite (of_volume_none v (all_ids ps2)), app_nil_r in Eall.
    2:{ destruct ps2 as [|q ps2]; [by apply Forall_nil|]. apply Forall_forall. intros y Hy%(part_first_le q (ps1 ++ [p]) ps2); [|done].
        pose proof (part_before_first q (ps1 ++ [p]) ps2 x En) as Hb. rewrite next_ids in Hb. specialize (Hb ltac:(set_solver)). lia. }
    rewrite Eall, take_ge by lia.
    destruct (N.ltb_spec limit (N.of_nat (length (of_volume v (all_ids (ps1 ++ [p])))))); [lia|]. apply runs_ret.
  - eapply runs_bind; [by apply (runs_next_offset p ps1 ps2)|]. cbv beta. by apply IH.
Qed.
Lemma runs_volume v limit s :
  runs (read_blocked_file_ids_for_volume_limited_from_slice_checked path (bs ++ rest) v limit) s
    (Ok (take (N.to_nat limit) (of_volume v ids), (0 <? limit)%N && (limit <? N.of_nat (length (of_volume v ids)))%N)) s.
Proof.
  unfold read_blocked_file_ids_for_volume_limited_from_slice_checked. eapply runs_bind; [apply runs_slice_header|]. cbv beta iota.
  case_decide as Hz; [subst limit; apply runs_ret|]. rewrite (proj2 (N.ltb_lt 0 limit)) by lia. cbn [andb].
  apply (runs_volume_loop v limit ps []); [done|cbn; lia].
Qed.

(** *** One block *)
Lemma runs_one_block k s :
  runs (read_blocked_file_id_block_from_slice path (bs ++ rest) k) s
    (match ps !! N.to_nat k with
     | Some p => Ok (part_ids p)
     | None => Err (id_format_error path "id block index out of bounds")
     end) s.
Proof.
  destruct (stored_front _ _ _ Hst) as (front & E & Hr). destruct (Hr path rest) as (middle & Hcount & Hheader).
  unfold read_blocked_file_id_block_from_slice. apply runs_unpolled. eapply runs_bind.
  { eapply runs_cursor. eapply runs_bind; [exact Hcount|]. eapply runs_bind; [exact Hheader|]. eapply runs_bind; [apply runs_get|]. apply runs_ret. }
  cbv beta iota. cbn [snd]. rewrite !length_app.
  replace (length bs + length rest - (length (payload ps) + length rest)) with (length bs - length (payload ps)) by lia.
  fold start_of. rewrite list_lookup_fmap, length_fmap.
  destruct (ps !! N.to_nat k) as [p|] eqn:Ek.
  2:{ destruct (N.ltb_spec k (N.of_nat (length ps))); apply runs_bind_err, runs_lift. }
  pose proof (lookup_lt_Some _ _ _ Ek) as Hk. rewrite (proj2 (N.ltb_lt _ _)) by lia.
  set (ps1 := take (N.to_nat k) ps). set (ps2 := drop (Datatypes.S (N.to_nat k)) ps).
  assert (Eps : ps = ps1 ++ p :: ps2) by (unfold ps1, ps2; by rewrite (take_drop_middle _ _ _ Ek)).
  eapply runs_bind; [apply runs_lift|]. cbv beta. rewrite <- fmap_take. fold ps1.
  unfold block_payload_len. rewrite payload_len_ok, N.add_0_l.
  2:{ by apply Forall_take, (stored_parts _ _ _ Hst). }
  2:{ pose proof payload_small as Hs. rewrite Eps, payload_app, length_app in Hs. lia. }
  eapply runs_bind; [apply runs_lift|]. cbv beta. eapply runs_bind; [by apply (runs_block_range p ps1 ps2)|]. cbv beta.
  cbn [fst snd]. rewrite (slice_get p ps1 ps2 Eps). eapply runs_bind; [apply runs_lift|]. cbv beta.
  pose proof (part_reads p (part_fit p ps1 ps2 Eps) path []) as Hp. rewrite app_nil_r in Hp.
  eapply runs_cursor. by apply runs_unpolled.
Qed.
End Slice.
End Read.

(** ** Under any closure, the readers stop at the first poll that fails *)
Lemma cooperative_unpolled {S A} (m : M S A) : cooperative (unpolled m).
Proof. intros c k s. unfold unpolled. destruct (m never k s) as [[r k'] s'] eqn:Em. split; [lia|]. left. split; [lia|]. done. Qed.
Lemma cooperative_read_id path prev : cooperative (read_id path prev).
Proof. unfold read_id. codec_auto. Qed.
#[export] Hint Resolve cooperative_unpolled cooperative_read_id : ctl.
Lemma cooperative_encoded path b : cooperative (read_encoded_file_ids_checked path b).
Proof.
  unfold read_encoded_file_ids_checked, read_delta_file_ids_checked, read_run_file_ids_checked. destruct (block_codec b).
  - unfold delta_step. codec_auto.
  - unfold run_step, run_id_step. codec_auto.
Qed.
#[export] Hint Resolve cooperative_encoded : ctl.
Lemma cooperative_header path : cooperative (read_blocked_header path).
Proof. unfold read_blocked_header, read_id_blocks_v2, read_id_blocks_v1, read_block_v2, read_block_v1. codec_auto. Qed.
#[export] Hint Resolve cooperative_header : ctl.
Lemma cooperative_read_all path : cooperative (read_blocked_file_ids_checked path).
Proof. unfold read_blocked_file_ids_checked, payload_step. codec_auto. Qed.
#[export] Hint Resolve cooperative_read_all : ctl.
Lemma cooperative_slice_header {S} path bs : cooperative (read_slice_header (S := S) path bs).
Proof. unfold read_slice_header. codec_auto. Qed.
Lemma cooperative_slice_block {S} path bs range b : cooperative (read_slice_block (S := S) path bs range b).
Proof. unfold read_slice_block. codec_auto. Qed.
Lemma cooperative_block_range {S} path a b c : cooperative (block_range (S := S) path a b c).
Proof. unfold block_range. codec_auto. Qed.
#[export] Hint Resolve cooperative_slice_header cooperative_slice_block cooperative_block_range : ctl.
Lemma cooperative_limited {S} path bs limit :
  cooperative (read_blocked_file_ids_limited_report_from_slice_checked (S := S) path bs limit).
Proof.
  unfold read_blocked_file_ids_limited_report_from_slice_checked.
  assert (Hl : forall blocks c st e o ids, cooperative (limited_loop (S := S) path bs limit c st e o ids blocks)).
  { induction blocks as [|b blocks IH]; intros; cbn [limited_loop]; codec_auto. }
  codec_auto.
Qed.
Lemma cooperative_volume {S} path bs v limit :
  cooperative (read_blocked_file_ids_for_volume_limited_from_slice_checked (S := S) path bs v limit).
Proof.
  unfold read_blocked_file_ids_for_volume_limited_from_slice_checked.
  assert (Hi : forall more ids, cooperative (volume_ids (S := S) v limit ids more)).
  { induction more as [|id more IH]; intros; cbn [volume_ids]; codec_auto. }
  assert (Hl : forall blocks st o ids, cooperative (volume_loop (S := S) path bs v limit st o ids blocks)).
  { induction blocks as [|b blocks IH]; intros; cbn [volume_loop]; codec_auto. }
  codec_auto.
Qed.
#[export] Hint Resolve cooperative_limited cooperative_volume : ctl.

(** ** The set of ids a posting list stands for *)

(** C38: A blocked id set that was written is read back as the sorted set of its ids,
    in the present format and in the old one, and the reader takes exactly its
    bytes; under a closure that ends it, the error is that of a poll. *)
Theorem ids_round_trip path c ids rest bs : vec_ok ids ->
  bs = write_blocked_file_ids ids \/ bs = write_blocked_file_ids_v1 ids ->
  outcome (read_blocked_file_ids_checked path) c (bs ++ rest) (Ok (sort_dedup ids)) rest.
Proof.
  intros Hv [->| ->]; (apply cooperative_outcome; [apply cooperative_read_all|]).
  - by eapply runs_read_all, stored_v2.
  - by eapply runs_read_all, stored_v1.
Qed.

(** Reading at most [limit] ids gives the first ones of the set and says whether
    there are more, and how many bytes the set takes; block [k] alone holds the ids
    from [128 * k] on, and a block that is not there is an error. *)
Theorem ids_limited_spec {S} path c ids rest limit k (s : S) : vec_ok ids ->
  let set := sort_dedup ids in
  let bs := write_blocked_file_ids ids in
  outcome (read_blocked_file_ids_limited_report_from_slice_checked path (bs ++ rest) limit) c s
    (Ok (mkLimited (take (N.to_nat limit) set) (limit <? N.of_nat (length set))%N (N.of_nat (length bs)))) s /\
  run (read_blocked_file_id_block_from_slice path (bs ++ rest) k) c s =
    (if decide (128 * N.to_nat k < length set) then Ok (take 128 (drop (128 * N.to_nat k) set))
     else Err (id_format_error path "id block index out of bounds"), s).
Proof.
  intros Hv set bs. pose proof (stored_v2 ids Hv) as Hst. split.
  - apply cooperative_outcome; [apply cooperative_limited|]. by eapply runs_limited.
  - transitivity (run (read_blocked_file_id_block_from_slice path (bs ++ rest) k) never s); [done|].
    rewrite (runs_run _ _ _ _ (runs_one_block path bs _ _ Hst rest k s)). f_equal.
    unfold parts_of. rewrite list_lookup_fmap, chunks_lookup by (unfold DEFAULT_ID_BLOCK_SIZE; lia).
    change DEFAULT_ID_BLOCK_SIZE with 128. fold set. by destruct (decide _).
Qed.

(** Reading at most [limit] ids of one volume gives the first ids of the set that
    are on the volume, in order, and says whether it left any out (with a limit of
    zero it does not say so), though it skips blocks and stops early. *)
Theorem ids_volume_spec {S} path c ids rest v limit (s : S) : vec_ok ids ->
  let on_volume := filter (fun id => file_volume id = v) (sort_dedup ids) in
  outcome (read_blocked_file_ids_for_volume_limited_from_slice_checked path (write_blocked_file_ids ids ++ rest) v limit) c s
    (Ok (take (N.to_nat limit) on_volume, (0 <? limit)%N && (limit <? N.of_nat (length on_volume)))%N) s.
Proof.
  intros Hv on_volume. apply cooperative_outcome; [apply cooperative_volume|]. by eapply runs_volume, stored_v2.
Qed.

(** *** Two volumes, with a run and a jump *)
Definition some_ids : list FileId :=
  mkFileId 2 9 :: mkFileId 1 5 :: mkFileId 1 4 :: mkFileId 2 9 :: (mkFileId 1 <$> (N.of_nat <$> seq 40 300)).
Lemma some_ids_ok : vec_ok some_ids.
Proof. split; [done|]. apply (bool_decide_unpack _). vm_compute. exact I. Qed.

Lemma ids_round_trip_witness : vec_ok some_ids /\
  outcome (read_blocked_file_ids_checked "p") never (write_blocked_file_ids some_ids ++ literal "rest") (Ok (sort_dedup some_ids)) (literal "rest").
Proof. split; [exact some_ids_ok|]. exact (ids_round_trip "p" never some_ids (literal "rest") _ some_ids_ok (or_introl eq_refl)). Defined.
Lemma ids_limited_spec_witness :
  run (read_blocked_file_id_block_from_slice "p" (write_blocked_file_ids some_ids) 3) never tt =
    (Err (id_format_error "p" "id block index out of bounds"), tt).
Proof.
  pose proof (proj2 (ids_limited_spec "p" never some_ids [] 7 3 tt some_ids_ok)) as Hb. rewrite app_nil_r in Hb.
  rewrite Hb. rewrite decide_False; [reflexivity|]. apply Nat.le_ngt. apply Nat.leb_le. vm_compute. reflexivity.
Defined.
Lemma ids_volume_spec_witness :
  outcome (read_blocked_file_ids_for_volume_limited_from_slice_checked "p" (write_blocked_file_ids some_ids ++ []) 2 5) never tt
    (Ok ([mkFileId 2 9], false)) tt.
Proof. exact (ids_volume_spec "p" never some_ids [] 2 5 tt some_ids_ok). Defined.
