(* ===== verification/Durable.v ===== *)
(** * Durable writes of the stores ([crates/store/src/durable.rs])

    An archive is written to a temporary file next to it, synced, and renamed to it.
    A writer here hands all its bytes to the [BufWriter] in one call: fewer than its
    buffer holds stay in it until it is flushed.  (What a [BufWriter] that is dropped
    on an error still writes goes to the temporary file, which is removed next; that
    last write is left out.) *)
From Stdlib Require Import Ascii.
From S2P Require Import Prelude Types Text Control FileSystem FileFacts TextFiles TrashMeta Publish.
#[local] Open Scope string_scope.
#[local] Open Scope list_scope.

Record DurableCommit : Type := mkCommit {
  commit_path : FPath;
  commit_temporary : FPath;
  commit_bytes : N;
  synced_file : bool;
  synced_parent : bool
}.
Definition bool_text (b : bool) : string := if b then "true" else "false".
Definition commit_as_tsv (c : DurableCommit) : string :=
  Text.join (String TAB "")
    ["durable-commit"; "path=" +:+ show (commit_path c); "temporary=" +:+ show (commit_temporary c);
     "bytes=" +:+ u64_to_string (commit_bytes c); "synced-file=" +:+ bool_text (synced_file c);
     "synced-parent=" +:+ bool_text (synced_parent c)].

Section Durable.
Context {X : Type} `{Platform, Process}.

Definition temporary_path (p : FPath) (nonce : N) : FPath :=
  FileSystem.join (default [] (parent p))
    ("." +:+ default "store" (file_name p) +:+ "." +:+ u64_to_string process_id +:+ "." +:+ u128_to_string nonce +:+ ".tmp").
Definition sync_parent (p : FPath) : M (World X) bool :=
  r <- open_read (default [] (parent p)) ;
  match r with
  | Ok _ => s <- sync_all ; match s with Ok _ => mret true | Err _ => mret false end
  | Err _ => mret false
  end.
Definition sync_parent_for_path (p : FPath) : M (World X) bool := sync_parent p.

(** [BufWriter]: the bytes that stay in the buffer. *)
Definition BUFFER_CAPACITY : N := 8192.
Definition buf_write_all (i : N) (b : bytes) : IO (X := X) bytes :=
  if (N.of_nat (length b) <? BUFFER_CAPACITY)%N then mret (Ok b)
  else r <- append_bytes i b ; mret (match r with Ok _ => Ok [] | Err e => Err e end).
Definition buf_flush (i : N) (buffer : bytes) : IO (X := X) unit :=
  if decide (buffer = []) then mret (Ok tt) else append_bytes i buffer.

Definition commit_of (p temporary : FPath) (n : N) (parent_synced : bool) : DurableCommit :=
  mkCommit p temporary n true parent_synced.
Definition atomic_write (p : FPath) (write : N -> IO (X := X) bytes) : M (World X) DurableCommit :=
  nonce <- now_nanos ;
  let temporary := temporary_path p nonce in
  file <- or_io temporary (create_file temporary) ;
  buffer <- or_io temporary (write file) ;
  or_io temporary (buf_flush file buffer) ;;
  or_io temporary sync_all ;;
  m <- or_io temporary (file_metadata file) ;
  or_io p (rename temporary p) ;;
  synced <- sync_parent p ;
  mret (commit_of p temporary (m_len m) synced).
Definition atomic_write_checked (p : FPath) (write : N -> M (World X) bytes) : M (World X) DurableCommit :=
  check_control ;;
  (nonce <- now_nanos ;
   let temporary := temporary_path p nonce in
   result <- attempt (
     file <- or_io temporary (create_file temporary) ;
     check_control ;;
     buffer <- write file ;
     check_control ;;
     or_io temporary (buf_flush file buffer) ;;
     check_control ;;
     or_io temporary sync_all ;;
     check_control ;;
     m <- or_io temporary (file_metadata file) ;
     or_io p (rename temporary p) ;;
     synced <- sync_parent p ;
     mret (commit_of p temporary (m_len m) synced)) ;
   match result with
   | Ok commit => mret commit
   | Err e => remove_file temporary ;; mfail e
   end).

(** The closure of an archive writer: the bytes are made under the polls of the
    closure, and written at once. *)
Definition archive_closure (p : FPath) (content : M unit bytes) (i : N) : M (World X) bytes :=
  b <- (fun c k w => let '(r, k', _) := content c k tt in (r, k', w)) ;
  or_io p (buf_write_all i b).

End Durable.

(** ** Reading: the map of a file

    [memmap2] maps a file that is not empty whole; what it makes of an empty one is
    left open.  The archives are not changed once they are published. *)
Class Mmap : Type := {
  mmap_bytes : bytes -> Result bytes IoError;
  mmap_whole b : b <> [] -> mmap_bytes b = Ok b
}.
Section Map.
Context {X : Type} `{Platform, Mmap}.
Definition map_file (i : N) : IO (X := X) bytes :=
  sys (fun _ f => (match content_of f i with Some b => mmap_bytes b | None => Err EISDIR end, f)).
End Map.

(** ** What a durable write leaves *)
Section Facts.
Context {X : Type} `{Platform, Process} (c : Control) (T : Prop) (p : FPath).
Abbreviation yields := (yields (X := X) c T).
Abbreviation writable := (Publish.writable p (temporary_path p)).
Abbreviation published := (Publish.published p (temporary_path p)).
(** Nothing but a temporary file has changed. *)
Abbreviation unchanged := (Publish.unsettled p (temporary_path p) (fun _ => False)).

Lemma store_sibling : siblings p (temporary_path p).
Proof. apply (dotted_siblings p "store" (fun n => "." +:+ u64_to_string process_id +:+ "." +:+ u128_to_string n +:+ ".tmp")). Qed.

Lemma yields_sync_store_parent I E : yields I (sync_parent p) (fun _ => I) E.
Proof.
  unfold sync_parent. eapply yields_bind; [apply yields_look|]. intros [i|e]; [|apply yields_ret; by intros f [? _]].
  eapply yields_bind; [apply yields_quiet|]. intros [u|e]; apply yields_ret; by intros f [[? _] _].
Qed.

(** The writer: what it has put in the draft and what it has left in the buffer make
    the bytes [b]; a failure leaves a draft. *)
Definition drafts (f : Fs) (write : N -> M (World X) bytes) (b : bytes) : Prop :=
  forall n, yields (eq (draft f (temporary_path p n) [])) (write (next_inode f))
    (fun buffer f' => exists t, f' = draft f (temporary_path p n) t /\ t ++ buffer = b)
    (fun _ f' => T /\ exists t, f' = draft f (temporary_path p n) t).

Lemma drafts_archive f q content b : runs content tt (Ok b) tt -> cooperative content -> (forall j e, c j = Some e -> T) ->
  drafts f (archive_closure q content) b.
Proof.
  intros Hr Hco HT n. unfold archive_closure. eapply yields_bind with (J := fun b' f' => b' = b /\ f' = draft f (temporary_path p n) []).
  - intros w Hw Ho Ht E k. specialize (Hco c k tt). destruct (Hr k) as [k2 Hk2].
    destruct (content c k tt) as [[r k'] []]. destruct Hco as [_ [[_ Hn]|(e & -> & _ & He & _)]].
    + rewrite Hk2 in Hn. injection Hn as <- <-. done.
    + split; [done|]. split; [by eapply HT|]. by eexists.
  - intros b'. apply yields_at. intros f1 [-> ->]. apply yields_or_io. unfold buf_write_all. destruct (_ <? _)%N.
    + apply yields_ret. intros ? <-. by exists [].
    + eapply yields_bind; [apply yields_append_bytes, draft_content|]. intros r. apply yields_ret.
      destruct r as [u|e].
      * intros f' ->. exists b. rewrite draft_put. by rewrite app_nil_r.
      * intros f' (HT' & t & _ & ->). split; [done|]. exists t. by rewrite draft_put.
Qed.

Lemma yields_atomic_write f write b : writable f -> drafts f write b ->
  yields (eq f) (atomic_write_checked p write)
    (fun commit f' => published b f f' /\ commit_path commit = p /\ commit_bytes commit = N.of_nat (length b))
    (fun _ f' => T /\ unchanged f f').
Proof.
  intros Hr Hd. unfold atomic_write_checked.
  assert (HE0 : forall (e : GfmError) f', f = f' -> T -> T /\ unchanged f f').
  { intros e f' <- HT. split; [done|]. by apply writable_unsettled. }
  eapply yields_bind; [by apply yields_check|]. intros [].
  eapply yields_bind; [apply yields_now|]. intros n. apply yields_at. intros ? [_ <-]. cbv zeta. set (temp := temporary_path p n).
  assert (HE1 : forall t, T -> T /\ unchanged f (draft f temp t)).
  { intros t HT. split; [done|]. by apply draft_unsettled, Hr; apply store_sibling. }
  eapply yields_bind with (J := fun r f' => match r with
    | Ok commit => published b f f' /\ commit_path commit = p /\ commit_bytes commit = N.of_nat (length b)
    | Err _ => T /\ unchanged f f' end).
  - apply yields_attempt with (J := fun commit f' => published b f f' /\ commit_path commit = p /\ commit_bytes commit = N.of_nat (length b))
      (E := fun _ f' => T /\ unchanged f f').
    eapply yields_bind; [apply (yields_create_draft p (temporary_path p) store_sibling); [done|intros e HT; by apply (HE0 Cancelled)]|].
    intros i. apply yields_at. intros f1 [-> ->].
    eapply yields_bind; [apply yields_check; intros e ? <- HT; by apply HE1|]. intros [].
    eapply yields_bind; [eapply yields_weaken; [apply (Hd n)|done|by intros ? ? Hx; exact Hx|]|].
    { intros e f' (HT & t & ->). by apply HE1. }
    intros buffer. apply yields_at. intros f1 (t & -> & <-).
    eapply yields_bind; [apply yields_check; intros e ? <- HT; by apply HE1|]. intros [].
    eapply yields_bind with (J := fun _ f' => f' = draft f temp (t ++ buffer)).
    { apply yields_or_io. unfold buf_flush. case_decide as Hb; [subst buffer; apply yields_ret; intros ? <-; by rewrite app_nil_r|].
      eapply yields_weaken; [apply yields_append_bytes, draft_content|done| |by intros ? ? Hx; exact Hx].
      intros [u|e] f'; [intros ->; by rewrite draft_put|]. intros (HT & t' & _ & ->). rewrite draft_put. by apply HE1. }
    intros []. set (f2 := draft f temp (t ++ buffer)).
    assert (Hcheck : yields (fun f' => f' = f2) check_control (fun _ f' => f' = f2) (fun _ f' => T /\ unchanged f f')).
    { apply yields_check. intros e ? -> HT. by apply HE1. }
    eapply yields_bind; [exact Hcheck|intros []].
    eapply yields_bind; [apply (yields_or_quiet c T (fun f' => f' = f2)); intros e ? -> HT; by apply HE1|intros []].
    eapply yields_bind; [exact Hcheck|intros []].
    eapply yields_bind with (J := fun m f' => f' = f2 /\ m_len m = N.of_nat (length (t ++ buffer))).
    { apply yields_or_io, yields_sys; [intros f' e -> HT _; by apply HE1|]. intros f' cl ->.
      pose proof (draft_content f temp (t ++ buffer)) as Hc. fold f2 in Hc. unfold content_of in Hc.
      destruct (inodes f2 !! next_inode f) as [nd|]; [|done]. cbn in *. split; [done|].
      unfold metadata_of. cbn. destruct (shape nd); by simplify_eq/=. }
    intros m. apply yields_at. intros f' [-> Hm].
    eapply yields_bind; [apply (yields_publish p (temporary_path p) store_sibling); [done|intros e; by apply HE1]|].
    intros []. eapply yields_bind; [apply yields_sync_store_parent|]. intros synced. by apply yields_ret.
  - intros r. apply yields_at. intros f1 Hf1. destruct r as [commit|e].
    + apply yields_ret. by intros ? <-.
    + eapply yields_weaken; [apply (yields_settle p (temporary_path p) store_sibling c T id (fun _ => False) f n b (Err e) Hr)|by intros ? <-| |done].
      by intros ? f' [(? & ? & _) _].
Qed.
End Facts.
