(* ===== verification/Utf8.v ===== *)
(** * The bytes of strings

    UTF-8 as the standard library encodes and validates it: [str::as_bytes],
    [str::from_utf8] with the error it reports, and [str::is_char_boundary].  A
    [str] is the list of its characters ([Chars]). *)
From Stdlib Require Import Ascii.
From S2P Require Import Prelude Types Text Order Chars Codec.
#[local] Open Scope list_scope.

(** A Unicode scalar value. *)
Definition scalar (c : char) : Prop := (c < 55296 \/ 57344 <= c < 1114112)%N.
#[export] Instance scalar_dec c : Decision (scalar c).
Proof. unfold scalar. apply _. Defined.
Definition str_ok (s : str) : Prop := Forall scalar s.
#[export] Instance str_ok_dec s : Decision (str_ok s).
Proof. unfold str_ok. apply _. Defined.

Definition encode_char (c : char) : bytes :=
  if (c <? 128)%N then [byte_of c]
  else if (c <? 2048)%N then [byte_of (192 + c / 64); byte_of (128 + c mod 64)]
  else if (c <? 65536)%N then [byte_of (224 + c / 4096); byte_of (128 + (c / 64) mod 64); byte_of (128 + c mod 64)]
  else [byte_of (240 + c / 262144); byte_of (128 + (c / 4096) mod 64); byte_of (128 + (c / 64) mod 64); byte_of (128 + c mod 64)]%N.
Definition as_bytes (s : str) : bytes := mjoin (encode_char <$> s).

(** [Utf8Error]: where the valid part ends, and how long the bad sequence is; [None]
    when the input ends inside a sequence. *)
Record Utf8Error : Type := mkUtf8Error { valid_up_to : N; error_len : option N }.
Definition Utf8Error_to_string (e : Utf8Error) : string :=
  match error_len e with
  | Some n => "invalid utf-8 sequence of " +:+ u64_to_string n +:+ " bytes from index " +:+ u64_to_string (valid_up_to e)
  | None => "incomplete utf-8 byte sequence from index " +:+ u64_to_string (valid_up_to e)
  end.

Definition continuation (b : ascii) : bool := (128 <=? byte_val b)%N && (byte_val b <? 192)%N.
Definition low6 (b : ascii) : N := (byte_val b - 128)%N.
(** The second byte, which rules out overlong forms and surrogates. *)
Definition second3 (first : N) (b : ascii) : bool :=
  let n := byte_val b in
  if (first =? 224)%N then (160 <=? n)%N && (n <? 192)%N
  else if (first =? 237)%N then (128 <=? n)%N && (n <? 160)%N
  else continuation b.
Definition second4 (first : N) (b : ascii) : bool :=
  let n := byte_val b in
  if (first =? 240)%N then (144 <=? n)%N && (n <? 192)%N
  else if (first =? 244)%N then (128 <=? n)%N && (n <? 144)%N
  else continuation b.

Definition cons_char (c : char) (r : Result str Utf8Error) : Result str Utf8Error :=
  match r with Ok s => Ok (c :: s) | Err e => Err e end.
Fixpoint from_utf8_at (index : N) (bs : bytes) : Result str Utf8Error :=
  let bad n := Err (mkUtf8Error index (Some n)) in
  let short := Err (mkUtf8Error index None) in
  match bs with
  | [] => Ok []
  | b1 :: bs1 =>
      let n := byte_val b1 in
      if (n <? 128)%N then cons_char n (from_utf8_at (index + 1) bs1)
      else if (194 <=? n)%N && (n <? 224)%N then
        match bs1 with
        | [] => short
        | b2 :: bs2 =>
            if continuation b2 then cons_char ((n - 192) * 64 + low6 b2) (from_utf8_at (index + 2) bs2) else bad 1%N
        end
      else if (224 <=? n)%N && (n <? 240)%N then
        match bs1 with
        | [] => short
        | b2 :: bs2 =>
            if second3 n b2 then
              match bs2 with
              | [] => short
              | b3 :: bs3 =>
                  if continuation b3
                  then cons_char ((n - 224) * 4096 + low6 b2 * 64 + low6 b3) (from_utf8_at (index + 3) bs3)
                  else bad 2%N
              end
            else bad 1%N
        end
      else if (240 <=? n)%N && (n <? 245)%N then
        match bs1 with
        | [] => short
        | b2 :: bs2 =>
            if second4 n b2 then
              match bs2 with
              | [] => short
              | b3 :: bs3 =>
                  if continuation b3 then
                    match bs3 with
                    | [] => short
                    | b4 :: bs4 =>
                        if continuation b4
                        then cons_char ((n - 240) * 262144 + low6 b2 * 4096 + low6 b3 * 64 + low6 b4) (from_utf8_at (index + 4) bs4)
                        else bad 3%N
                    end
                  else bad 2%N
              end
            else bad 1%N
        end
      else bad 1%N
  end%N.
Definition from_utf8 (bs : bytes) : Result str Utf8Error := from_utf8_at 0 bs.

(** The text with a byte that does not belong: the error names its place. *)
Example utf8_bad : from_utf8 (literal "ab" ++ [byte_of 200; byte_of 65]) = Err (mkUtf8Error 2 (Some 1%N)).
Proof. reflexivity. Qed.
Example utf8_good : from_utf8 (as_bytes [97; 233; 8364; 128512]%N) = Ok [97; 233; 8364; 128512]%N.
Proof. vm_compute. reflexivity. Qed.

(** ** Round trip *)

(** The tests on the bytes, decided by arithmetic. *)
Ltac byte_tests :=
  rewrite ?byte_val_small by lia;
  repeat match goal with
  | |- context [ (?a <? ?b)%N ] => first [rewrite (proj2 (N.ltb_lt a b)) by lia | rewrite (proj2 (N.ltb_ge a b)) by lia]
  | |- context [ (?a <=? ?b)%N ] => first [rewrite (proj2 (N.leb_le a b)) by lia | rewrite (proj2 (N.leb_gt a b)) by lia]
  | |- context [ (?a =? ?b)%N ] => first [rewrite (proj2 (N.eqb_eq a b)) by lia | rewrite (proj2 (N.eqb_neq a b)) by lia]
  end; cbn [andb].

Lemma continuation_of n : (n < 64)%N -> continuation (byte_of (128 + n)) = true /\ low6 (byte_of (128 + n)) = n.
Proof. intros Hn. unfold continuation, low6. byte_tests. split; [done|lia]. Qed.

Lemma decode_two q r index rest : (2 <= q < 32)%N -> (r < 64)%N ->
  from_utf8_at index (byte_of (192 + q) :: byte_of (128 + r) :: rest) = cons_char (q * 64 + r) (from_utf8_at (index + 2) rest).
Proof.
  intros Hq Hr. destruct (continuation_of r Hr) as [Hc Hl]. cbn [from_utf8_at]. rewrite Hc, Hl. byte_tests.
  do 2 f_equal. lia.
Qed.
Lemma decode_three q r t index rest : (q < 16)%N -> (r < 64)%N -> (t < 64)%N ->
  scalar (q * 4096 + r * 64 + t) -> (2048 <= q * 4096 + r * 64 + t)%N ->
  from_utf8_at index (byte_of (224 + q) :: byte_of (128 + r) :: byte_of (128 + t) :: rest) =
    cons_char (q * 4096 + r * 64 + t) (from_utf8_at (index + 3) rest).
Proof.
  unfold scalar. intros Hq Hr Ht Hs Hb. destruct (continuation_of t Ht) as [Hc Hl]. destruct (continuation_of r Hr) as [Hc2 Hl2].
  cbn [from_utf8_at]. rewrite Hc, Hl, Hl2.
  assert (E2 : second3 (byte_val (byte_of (224 + q))) (byte_of (128 + r)) = true).
  { unfold second3. rewrite Hc2, !byte_val_small by lia.
    destruct (N.eqb_spec (224 + q) 224); [byte_tests; done|]. destruct (N.eqb_spec (224 + q) 237); [byte_tests; done|done]. }
  rewrite E2. byte_tests. do 2 f_equal. lia.
Qed.
Lemma decode_four q r t u index rest : (q < 5)%N -> (r < 64)%N -> (t < 64)%N -> (u < 64)%N ->
  (65536 <= q * 262144 + r * 4096 + t * 64 + u < 1114112)%N ->
  from_utf8_at index (byte_of (240 + q) :: byte_of (128 + r) :: byte_of (128 + t) :: byte_of (128 + u) :: rest) =
    cons_char (q * 262144 + r * 4096 + t * 64 + u) (from_utf8_at (index + 4) rest).
Proof.
  intros Hq Hr Ht Hu Hb. destruct (continuation_of t Ht) as [Hc Hl], (continuation_of r Hr) as [Hc2 Hl2], (continuation_of u Hu) as [Hc4 Hl4].
  cbn [from_utf8_at]. rewrite Hc, Hl, Hl2, Hc4, Hl4.
  assert (E2 : second4 (byte_val (byte_of (240 + q))) (byte_of (128 + r)) = true).
  { unfold second4. rewrite Hc2, !byte_val_small by lia.
    destruct (N.eqb_spec (240 + q) 240); [byte_tests; done|]. destruct (N.eqb_spec (240 + q) 244); [byte_tests; done|done]. }
  rewrite E2. byte_tests. do 2 f_equal. lia.
Qed.

Lemma encode_char_decode c index rest : scalar c ->
  from_utf8_at index (encode_char c ++ rest) = cons_char c (from_utf8_at (index + N.of_nat (len_utf8 c)) rest).
Proof.
  intros Hc. pose proof Hc as Hc'. unfold scalar in Hc'. unfold encode_char, len_utf8.
  pose proof (N.div_mod c 64 ltac:(done)) as E1. pose proof (N.mod_upper_bound c 64 ltac:(done)) as B1.
  pose proof (N.div_mod (c / 64) 64 ltac:(done)) as E2. pose proof (N.mod_upper_bound (c / 64) 64 ltac:(done)) as B2.
  pose proof (N.div_mod (c / 4096) 64 ltac:(done)) as E3. pose proof (N.mod_upper_bound (c / 4096) 64 ltac:(done)) as B3.
  rewrite (N.Div0.div_div c 64 64) in E2. rewrite (N.Div0.div_div c 4096 64) in E3. change (64 * 64)%N with 4096%N in E2.
  change (4096 * 64)%N with 262144%N in E3.
  generalize dependent (c mod 64)%N. generalize dependent ((c / 64) mod 64)%N. generalize dependent ((c / 4096) mod 64)%N.
  generalize dependent (c / 64)%N. generalize dependent (c / 4096)%N. generalize dependent (c / 262144)%N.
  intros q3 q2 q1 r3 B3 E3 r2 B2 E2 r1 B1 E1. repeat case_match; rewrite ?N.ltb_lt, ?N.ltb_ge in *; cbn [app].
  - cbn [from_utf8_at]. byte_tests. done.
  - rewrite decode_two by lia. by replace (q1 * 64 + r1)%N with c by lia.
  - assert (E : c = (q2 * 4096 + r2 * 64 + r1)%N) by lia. rewrite decode_three; rewrite <- ?E; done || lia.
  - assert (E : c = (q3 * 262144 + r3 * 4096 + r2 * 64 + r1)%N) by lia. rewrite decode_four; rewrite <- ?E; done || lia.
Qed.

Lemma as_bytes_app s t : as_bytes (s ++ t) = as_bytes s ++ as_bytes t.
Proof. unfold as_bytes. by rewrite fmap_app, join_app. Qed.
Lemma as_bytes_cons c s : as_bytes (c :: s) = encode_char c ++ as_bytes s.
Proof. done. Qed.
Lemma from_utf8_as_bytes s : str_ok s -> from_utf8 (as_bytes s) = Ok s.
Proof.
  unfold from_utf8. generalize 0%N. induction s as [|c s IH]; intros index Hs; [done|]. apply Forall_cons in Hs as [Hc Hs].
  rewrite as_bytes_cons, encode_char_decode, IH by done. done.
Qed.
Lemma encode_char_length c : length (encode_char c) = len_utf8 c.
Proof. unfold encode_char, len_utf8. repeat case_match; done. Qed.
Lemma as_bytes_length s : length (as_bytes s) = str_len s.
Proof.
  induction s as [|c s IH]; [done|]. rewrite as_bytes_cons, length_app, encode_char_length, IH. done.
Qed.
Lemma as_bytes_inj s t : str_ok s -> str_ok t -> as_bytes s = as_bytes t -> s = t.
Proof. intros Hs Ht E. apply (f_equal from_utf8) in E. rewrite !from_utf8_as_bytes in E by done. congruence. Qed.

(** *** What is decoded is encoded back to the same bytes *)
Lemma digits q r : (r < 64)%N -> ((q * 64 + r) / 64 = q /\ (q * 64 + r) mod 64 = r)%N.
Proof. intros Hr. rewrite N.div_add_l, N.div_small, N.add_0_r by done. split; [done|]. rewrite N.add_comm, N.Div0.mod_add. by apply N.mod_small. Qed.
Lemma encode_two q r : (2 <= q < 32)%N -> (r < 64)%N -> encode_char (q * 64 + r) = [byte_of (192 + q); byte_of (128 + r)].
Proof. intros Hq Hr. destruct (digits q r Hr) as [E1 E2]. unfold encode_char. byte_tests. by rewrite E1, E2. Qed.
Lemma encode_three q r t : (q < 16)%N -> (r < 64)%N -> (t < 64)%N -> (2048 <= q * 4096 + r * 64 + t)%N ->
  encode_char (q * 4096 + r * 64 + t) = [byte_of (224 + q); byte_of (128 + r); byte_of (128 + t)].
Proof.
  intros Hq Hr Ht Hb. destruct (digits (q * 64 + r) t Ht) as [E1 E2], (digits q r Hr) as [E3 E4]. unfold encode_char. byte_tests.
  replace (q * 4096 + r * 64 + t)%N with ((q * 64 + r) * 64 + t)%N by lia. change 4096%N with (64 * 64)%N.
  by rewrite <- (N.Div0.div_div _ 64 64), E1, E2, E3, E4.
Qed.
Lemma encode_four q r t u : (q < 5)%N -> (r < 64)%N -> (t < 64)%N -> (u < 64)%N -> (65536 <= q * 262144 + r * 4096 + t * 64 + u)%N ->
  encode_char (q * 262144 + r * 4096 + t * 64 + u) = [byte_of (240 + q); byte_of (128 + r); byte_of (128 + t); byte_of (128 + u)].
Proof.
  intros Hq Hr Ht Hu Hb. destruct (digits ((q * 64 + r) * 64 + t) u Hu) as [E1 E2], (digits (q * 64 + r) t Ht) as [E3 E4], (digits q r Hr) as [E5 E6].
  unfold encode_char. byte_tests.
  replace (q * 262144 + r * 4096 + t * 64 + u)%N with (((q * 64 + r) * 64 + t) * 64 + u)%N by lia.
  change 262144%N with (64 * 4096)%N. rewrite <- !(N.Div0.div_div _ 64 4096). change 4096%N with (64 * 64)%N.
  by rewrite <- !(N.Div0.div_div _ 64 64), E1, E2, E3, E4, E5, E6.
Qed.

Lemma continuation_inv b : continuation b = true -> exists r, (r < 64)%N /\ b = byte_of (128 + r) /\ low6 b = r.
Proof.
  unfold continuation. intros [Hl Hh]%andb_prop. apply N.leb_le in Hl. apply N.ltb_lt in Hh. exists (byte_val b - 128)%N.
  split; [lia|]. split; [|done]. rewrite <- (byte_of_val b) at 1. f_equal. lia.
Qed.
Lemma second3_inv n b : second3 n b = true -> continuation b = true /\ (n = 224 -> 32 <= low6 b)%N /\ (n = 237 -> low6 b < 32)%N.
Proof.
  unfold second3, continuation, low6. destruct (N.eqb_spec n 224); [|destruct (N.eqb_spec n 237)]; rewrite !andb_true_iff, !N.leb_le, !N.ltb_lt; lia.
Qed.
Lemma second4_inv n b : second4 n b = true -> continuation b = true /\ (n = 240 -> 16 <= low6 b)%N /\ (n = 244 -> low6 b < 16)%N.
Proof.
  unfold second4, continuation, low6. destruct (N.eqb_spec n 240); [|destruct (N.eqb_spec n 244)]; rewrite !andb_true_iff, !N.leb_le, !N.ltb_lt; lia.
Qed.
Lemma cons_char_ok c r s : cons_char c r = Ok s -> exists t, r = Ok t /\ s = c :: t.
Proof. destruct r; [intros [= <-]; by eexists|done]. Qed.

Lemma from_utf8_at_ok n : forall bs index s, length bs <= n -> from_utf8_at index bs = Ok s -> str_ok s /\ as_bytes s = bs.
Proof.
  induction n as [|n IH]; intros [|b1 bs] index s Hl; cbn [length] in Hl; try lia; [intros [= <-]; by split; [constructor|]|intros [= <-]; by split; [constructor|]|].
  cbn [from_utf8_at]. set (v := byte_val b1). assert (Hb1 : b1 = byte_of v) by (unfold v; by rewrite byte_of_val).
  destruct (N.ltb_spec v 128) as [H1|H1].
  { intros (t & Ht & ->)%cons_char_ok. destruct (IH bs _ t ltac:(lia) Ht) as [Hs E]. split.
    - constructor; [unfold scalar; lia|done].
    - rewrite as_bytes_cons, E. unfold encode_char. byte_tests. by rewrite Hb1. }
  destruct ((194 <=? v)%N && (v <? 224)%N) eqn:E2.
  { apply andb_prop in E2 as [Ha%N.leb_le Hb%N.ltb_lt]. destruct bs as [|b2 bs]; [done|].
    destruct (continuation b2) eqn:Ec; [|done]. apply continuation_inv in Ec as (r & Hr & -> & Er). rewrite Er.
    intros (t & Ht & ->)%cons_char_ok. destruct (IH bs _ t ltac:(cbn in Hl; lia) Ht) as [Hs E]. split.
    - constructor; [unfold scalar; lia|done].
    - rewrite as_bytes_cons, E, encode_two, Hb1 by lia. cbn. do 2 f_equal. lia. }
  destruct ((224 <=? v)%N && (v <? 240)%N) eqn:E3.
  { apply andb_prop in E3 as [Ha%N.leb_le Hb%N.ltb_lt]. destruct bs as [|b2 bs]; [done|].
    destruct (second3 v b2) eqn:Ec; [|done]. apply second3_inv in Ec as (Ec & Hlow & Hhigh).
    apply continuation_inv in Ec as (r & Hr & -> & Er). rewrite Er in *. destruct bs as [|b3 bs]; [done|].
    destruct (continuation b3) eqn:Ec; [|done]. apply continuation_inv in Ec as (t & Ht & -> & Et). rewrite Et.
    intros (u & Hu & ->)%cons_char_ok. destruct (IH bs _ u ltac:(cbn in Hl; lia) Hu) as [Hs E]. split.
    - constructor; [unfold scalar; lia|done].
    - rewrite as_bytes_cons, E, encode_three, Hb1 by lia. cbn. do 2 f_equal. lia. }
  destruct ((240 <=? v)%N && (v <? 245)%N) eqn:E4; [|done].
  apply andb_prop in E4 as [Ha%N.leb_le Hb%N.ltb_lt]. destruct bs as [|b2 bs]; [done|].
  destruct (second4 v b2) eqn:Ec; [|done]. apply second4_inv in Ec as (Ec & Hlow & Hhigh).
  apply continuation_inv in Ec as (r & Hr & -> & Er). rewrite Er in *. destruct bs as [|b3 bs]; [done|].
  destruct (continuation b3) eqn:Ec; [|done]. apply continuation_inv in Ec as (t & Ht & -> & Et). rewrite Et. destruct bs as [|b4 bs]; [done|].
  destruct (continuation b4) eqn:Ec; [|done]. apply continuation_inv in Ec as (q & Hq & -> & Eq). rewrite Eq.
  intros (u & Hu & ->)%cons_char_ok. destruct (IH bs _ u ltac:(cbn in Hl; lia) Hu) as [Hs E]. split.
  - constructor; [unfold scalar; lia|done].
  - rewrite as_bytes_cons, E, encode_four, Hb1 by lia. cbn. do 2 f_equal. lia.
Qed.
Lemma from_utf8_ok bs s : from_utf8 bs = Ok s -> str_ok s /\ as_bytes s = bs.
Proof. by apply (from_utf8_at_ok (length bs)). Qed.
