(* ===== verification/BinarySearch.v ===== *)
(** * Binary search

    [slice::binary_search_by], as the standard library computes it, and what it
    finds in a slice that the comparison sorts. *)
From S2P Require Import Prelude Order.
#[local] Open Scope list_scope.

Section BinarySearch.
Context {A : Type} (f : A -> comparison).

Definition above (l : list A) (i : nat) : bool :=
  match l !! i with Some x => match f x with Gt => true | _ => false end | None => true end.
Fixpoint search_base (fuel : nat) (l : list A) (base size : nat) : nat :=
  match fuel with
  | O => base
  | S fuel' =>
      if decide (1 < size) then
        let half := size / 2 in
        let mid := base + half in
        search_base fuel' l (if above l mid then base else mid) (size - half)
      else base
  end.
(** [Ok]: the index of the match; [Err]: where it would be. *)
Definition binary_search_by (l : list A) : Result nat nat :=
  match l with
  | [] => Err 0
  | _ =>
      let base := search_base (length l) l 0 (length l) in
      match f <$> l !! base with
      | Some Eq => Ok base
      | Some Lt => Err (S base)
      | _ => Err base
      end
  end.

(** The first [n] elements, and they only, are not above. *)
Definition cut_at (l : list A) (n : nat) : Prop := n <= length l /\ forall i, above l i = true <-> n <= i.

Lemma search_base_spec l n fuel : forall base size, cut_at l n ->
  size <= fuel -> 0 < size -> base <= pred n -> pred n < base + size -> search_base fuel l base size = pred n.
Proof.
  induction fuel as [|fuel IH]; intros base size Hcut Hf Hs Hb He; [lia|]. cbn [search_base].
  case_decide as Hd; [|lia]. pose proof (Nat.div_mod size 2 ltac:(done)). pose proof (Nat.mod_upper_bound size 2 ltac:(done)).
  destruct (above l (base + size / 2)) eqn:Ea.
  - apply Hcut in Ea. apply IH; try done; lia.
  - assert (base + size / 2 < n). { destruct (decide (n <= base + size / 2)) as [Hle|]; [|lia]. apply Hcut in Hle. congruence. }
    apply IH; try done; lia.
Qed.
Lemma binary_search_spec l n : cut_at l n ->
  binary_search_by l = match n with
                       | O => Err 0
                       | S m => match f <$> l !! m with Some Eq => Ok m | _ => Err n end
                       end.
Proof.
  intros Hcut. unfold binary_search_by. destruct l as [|x l]; [destruct n; [done|destruct Hcut; cbn in *; lia]|].
  set (xs := x :: l) in *. rewrite (search_base_spec xs n) by (done || (subst xs; destruct Hcut; cbn in *; lia)).
  destruct Hcut as [Hn Hcut]. destruct n as [|m]; cbn [pred].
  - pose proof (proj2 (Hcut 0) ltac:(lia)) as Ha. unfold above in Ha. cbn in *. by destruct (f x).
  - destruct (lookup_lt_is_Some_2 xs m Hn) as [y Hy]. rewrite Hy. cbn.
    destruct (f y) eqn:Ef; try done. exfalso.
    assert (above xs m = true) as Ha%Hcut by (unfold above; by rewrite Hy, Ef). lia.
Qed.
End BinarySearch.

(** ** In a slice sorted by a key *)
Section Keyed.
Context {A K : Type} `{TotalOrd K} (key : A -> K).
Definition search_key (k : K) : list A -> Result nat nat := binary_search_by (fun x => cmp (key x) k).

Lemma cut_at_app (f : A -> comparison) l1 l2 :
  Forall (fun x => f x <> Gt) l1 -> Forall (fun x => f x = Gt) l2 -> cut_at f (l1 ++ l2) (length l1).
Proof.
  intros H1 H2. split; [rewrite length_app; lia|]. intros i. unfold above. destruct (decide (i < length l1)) as [Hi|Hi].
  - rewrite lookup_app_l by done. destruct (lookup_lt_is_Some_2 l1 i Hi) as [x Hx]. rewrite Hx.
    apply (Forall_lookup_1 _ _ _ _ H1) in Hx. destruct (f x); split; done || lia.
  - rewrite lookup_app_r by lia. split; [lia|]. intros _. destruct (l2 !! (i - length l1)) as [x|] eqn:Hx; [|done].
    apply (Forall_lookup_1 _ _ _ _ H2) in Hx. by rewrite Hx.
Qed.

Lemma search_key_found k l1 x l2 : StronglySorted (fun x y => lt_of (key x) (key y)) (l1 ++ x :: l2) -> key x = k ->
  search_key k (l1 ++ x :: l2) = Ok (length l1).
Proof.
  intros Hs <-. pose proof (StronglySorted_app_1_r _ _ _ Hs) as [_ Hx]%StronglySorted_inv.
  assert (H1 : Forall (fun y => cmp (key y) (key x) = Lt) l1).
  { apply Forall_forall. intros y Hy. eapply StronglySorted_app_1_elem_of in Hs; [exact Hs|done|left]. }
  replace (l1 ++ x :: l2) with ((l1 ++ [x]) ++ l2) by by rewrite <- app_assoc. unfold search_key.
  rewrite (binary_search_spec _ _ (length (l1 ++ [x]))).
  - rewrite length_app, Nat.add_comm. cbn [length Nat.add]. rewrite lookup_app_l by (rewrite length_app; cbn; lia).
    rewrite list_lookup_middle by done. cbn. by rewrite cmp_refl.
  - apply cut_at_app.
    + apply Forall_app. split; [eapply Forall_impl; [exact H1|]; intros y ->; done|]. constructor; [by rewrite cmp_refl|done].
    + eapply Forall_impl; [exact Hx|]. intros y Hy. by apply cmp_gt_iff.
Qed.
Lemma search_key_missing k l1 l2 :
  Forall (fun x => lt_of (key x) k) l1 -> Forall (fun x => lt_of k (key x)) l2 -> search_key k (l1 ++ l2) = Err (length l1).
Proof.
  intros H1 H2. unfold search_key. rewrite (binary_search_spec _ _ (length l1)).
  - destruct l1 as [|y l1 _] using rev_ind; [done|]. rewrite length_app, Nat.add_comm. cbn [length Nat.add].
    rewrite lookup_app_l by (rewrite length_app; cbn; lia). rewrite list_lookup_middle by done. cbn.
    apply Forall_app in H1 as [_ Hy%Forall_inv]. unfold lt_of in Hy. by rewrite Hy.
  - apply cut_at_app.
    + eapply Forall_impl; [exact H1|]. intros y Hy. unfold lt_of in Hy. by rewrite Hy.
    + eapply Forall_impl; [exact H2|]. intros y Hy. by apply cmp_gt_iff.
Qed.

(** A sorted slice around a key. *)
Lemma sorted_split k l : StronglySorted (fun x y => lt_of (key x) (key y)) l ->
  exists l1 l2, l = l1 ++ l2 /\ Forall (fun x => lt_of (key x) k) l1 /\ Forall (fun x => le_of k (key x)) l2.
Proof.
  induction 1 as [|x l Hs (l1 & l2 & -> & H1 & H2) Hx]; [by exists [], []|].
  destruct (decide (lt_of (key x) k)) as [Hl|Hl].
  - exists (x :: l1), l2. split; [done|]. split; [by constructor|done].
  - apply not_lt_le in Hl. exists [], (x :: l1 ++ l2). split; [done|]. split; [done|]. constructor; [done|].
    eapply Forall_impl; [exact Hx|]. intros y Hy. etrans; [exact Hl|by apply lt_le].
Qed.
Lemma search_key_cases k l : StronglySorted (fun x y => lt_of (key x) (key y)) l ->
  (exists l1 x l2, l = l1 ++ x :: l2 /\ key x = k /\ search_key k l = Ok (length l1)) \/
  (exists l1 l2, l = l1 ++ l2 /\ Forall (fun x => lt_of (key x) k) l1 /\ Forall (fun x => lt_of k (key x)) l2 /\
     search_key k l = Err (length l1)).
Proof.
  intros Hs. destruct (sorted_split k l Hs) as (l1 & l2 & -> & H1 & H2). destruct l2 as [|x l2].
  - right. exists l1, []. split_and!; [done|done|by constructor|]. apply search_key_missing; [done|by constructor].
  - destruct (decide (cmp (key x) k = Eq)) as [He|Hne].
    + left. exists l1, x, l2. apply cmp_eq in He. split_and!; [done|done|]. by apply search_key_found.
    + right. exists l1, (x :: l2). apply Forall_cons in H2 as [Hx H2].
      assert (Hlt : lt_of k (key x)). { apply le_lt_or_eq in Hx as [Hx|Hx]; [done|]. exfalso. apply Hne. by apply cmp_eq. }
      assert (Hall : Forall (fun y => lt_of k (key y)) (x :: l2)).
      { constructor; [done|]. apply StronglySorted_app_1_r, StronglySorted_inv in Hs as [_ Hs].
        eapply Forall_impl; [exact Hs|]. intros y Hy. by etrans. }
      split_and!; [done|done|done|]. by apply search_key_missing.
Qed.
End Keyed.
