(* ===== verification/PostingStore.v ===== *)
(** * Posting archives

    The prefix, substring and fuzzy archives ([prefix.rs], [substring.rs],
    [fuzzy.rs]) are one program written three times: postings under sorted keys, a
    directory of where each posting is, and footers.  A [Store] is what the three
    differ in; the modules [PrefixStore], [SubstringStore] and [FuzzyStore] give it.
    A [Store] also says how the values of a posting are coded; [StoreLaws] is what
    the archive relies on for that. *)
From Stdlib Require Import Ascii.
From S2P Require Import Prelude Types Text Order Chars Control Codec Utf8 BinarySearch StoreIds FileSystem TextFiles TrashMeta Durable.
#[local] Open Scope string_scope.
#[local] Open Scope list_scope.

Record Posting (W : Type) : Type := mkPosting { posting_key : str; posting_values : list W }.
Arguments mkPosting {W}.
Arguments posting_key {W}.
Arguments posting_values {W}.
Record LimitedPosting (W : Type) : Type := mkLimitedPosting { limited_posting : Posting W; posting_truncated : bool }.
Arguments mkLimitedPosting {W}.
Arguments limited_posting {W}.
Arguments posting_truncated {W}.
Record Entry : Type := mkEntry { entry_key : str; entry_offset : N; entry_len : N }.
(** What [open] gives: the path, the mapped bytes, the directory. *)
Record Archive : Type := mkArchive { archive_path : FPath; archive_map : bytes; archive_directory : list Entry }.

Record Store (W : Type) : Type := mkStore {
  store_name : string;
  store_magic : bytes;
  store_index_footer : bytes;
  store_checksum_footer : bytes;
  valid_key : str -> bool;             (** which normalised keys are looked up *)
  batch_noun : string;
  read_key : string -> M bytes str;    (** the key before a posting *)
  read_directory_key : string -> M bytes str;
  write_values : list W -> bytes;
  read_values : string -> M bytes (list W);
  read_values_limited : string -> N -> M bytes (list W * bool);
  lookup_polls : bool                  (** whether a look-up polls as it decodes *)
}.
Arguments store_name {W}. Arguments store_magic {W}. Arguments store_index_footer {W}.
Arguments store_checksum_footer {W}. Arguments valid_key {W}. Arguments batch_noun {W}.
Arguments read_key {W}. Arguments read_directory_key {W}. Arguments write_values {W}.
Arguments read_values {W}. Arguments read_values_limited {W}. Arguments lookup_polls {W}.

(** [String::from_utf8], the error put into words by [reason]. *)
Definition string_from (error : string -> GfmError) (bs : bytes) : Res str :=
  match from_utf8 bs with Ok s => Ok s | Err e => Err (error (Utf8Error_to_string e)) end.
(** A length and that many bytes of text. *)
Definition read_text (path : string) (error : string -> GfmError) : M bytes str :=
  len <- read_varint path ;
  bs <- read_exact path len ;
  mlift (string_from error bs).
Definition write_text (s : str) : bytes := write_varint (N.of_nat (str_len s)) ++ as_bytes s.

(** [normalize] and [normalize_checked]. *)
Definition NORMALIZE_CHECK_STRIDE : N := 256.
Section Normalize.
Context `{Unicode}.
Definition normalize (value : str) : str := str_ascii_lowercase (trim_by is_whitespace value).
Fixpoint normalize_chars {S} (index : N) (normalized s : str) : M S str :=
  match s with
  | [] => mret normalized
  | c :: s' =>
      (if decide (index mod NORMALIZE_CHECK_STRIDE = 0)%N then check_control else mret tt) ;;
      normalize_chars (index + 1) (normalized ++ [ascii_lower c]) s'
  end.
Definition normalize_checked {S} (value : str) : M S str :=
  check_control ;;
  normalized <- normalize_chars 0 [] (trim_by is_whitespace value) ;
  check_control ;;
  mret normalized.
End Normalize.

Section PostingStore.
Context {W : Type} (st : Store W) `{Unicode}.

Definition format_error (path reason : string) : GfmError :=
  Format ("invalid " +:+ store_name st +:+ " store " +:+ path +:+ ": " +:+ reason).

(** ** Writing *)
Definition write_posting (p : Posting W) : bytes := write_text (normalize (posting_key p)) ++ write_values st (posting_values p).
Definition write_directory_entry (e : Entry) : bytes :=
  write_text (entry_key e) ++ to_le_bytes 8 (entry_offset e) ++ to_le_bytes 8 (entry_len e).
Definition sort_postings (ps : list (Posting W)) : list (Posting W) := sort_by posting_key ps.
Definition put_posting (acc : bytes * list Entry) (p : Posting W) : M unit (bytes * list Entry) :=
  check_control ;;
  let offset := N.of_nat (length acc.1) in
  let bs := acc.1 ++ write_posting p in
  mret (bs, acc.2 ++ [mkEntry (posting_key p) offset (saturating_sub (N.of_nat (length bs)) offset)]).
Definition put_entry (bs : bytes) (e : Entry) : M unit bytes :=
  check_control ;; mret (bs ++ write_directory_entry e).
Definition archive_content (postings : list (Posting W)) : M unit bytes :=
  let start := store_magic st ++ write_varint (N.of_nat (length postings)) in
  body <- mfor put_posting (start, []) (sort_postings postings) ;
  let directory_offset := N.of_nat (length body.1) in
  bs <- mfor put_entry (body.1 ++ write_varint (N.of_nat (length body.2))) body.2 ;
  check_control ;;
  (let bs := bs ++ to_le_bytes 8 directory_offset ++ store_index_footer st in
   let bs := bs ++ write_checksum_footer bs (store_checksum_footer st) in
   check_control ;;
   mret bs).
Definition write_postings_checked {X} `{Platform, Process} (p : FPath) (postings : list (Posting W)) : M (World X) unit :=
  atomic_write_checked p (archive_closure p (archive_content postings)) ;; mret tt.

(** ** Reading a posting *)
Definition read_posting_checked (path : string) : M bytes (Posting W) :=
  check_control ;;
  key <- read_key st path ;
  check_control ;;
  values <- read_values st path ;
  check_control ;;
  mret (mkPosting key values).
Definition read_posting (path : string) : M bytes (Posting W) := unpolled (read_posting_checked path).

(** ** Opening *)
Definition missing_footer (path : string) : GfmError := format_error path ("missing " +:+ store_name st +:+ " directory footer").
Definition missing_checksum (path : string) : GfmError := format_error path ("missing " +:+ store_name st +:+ " checksum footer").
Definition verify_checksum_from_slice (bs : bytes) (path : string) : Res unit :=
  let? ok := verify_checksum_footer bs (store_checksum_footer st) path (store_name st) in
  if negb ok then Err (missing_checksum path) else Ok tt.
Definition indexed_len_from_slice (bs : bytes) (path : string) : Res nat :=
  let footer_len := 4 + length (store_checksum_footer st) in
  if decide (length bs < footer_len) then Err (missing_checksum path)
  else
    let indexed_len := length bs - footer_len in
    if decide (drop (indexed_len + 4) bs = store_checksum_footer st) then Ok indexed_len
    else Err (missing_checksum path).
Definition read_entry (path : string) (directory : list Entry) (_ : N) : M bytes (list Entry) :=
  key <- read_directory_key st path ;
  offset <- read_exact path 8 ;
  len <- read_exact path 8 ;
  mret (directory ++ [mkEntry key (from_le_bytes offset) (from_le_bytes len)]).
Definition read_directory_from_slice {S} (bs : bytes) (path : string) : M S (list Entry) :=
  indexed_len <- mlift (indexed_len_from_slice bs path) ;
  let footers := length (store_index_footer st) + 8 in
  if decide (indexed_len < footers) then mfail (missing_footer path)
  else
    let footer_start := indexed_len - footers in
    offset <- mlift (ok_or_else (get_range bs footer_start (footer_start + 8)) (missing_footer path)) ;
    let directory_offset := from_le_bytes offset in
    if (N.of_nat footer_start <=? directory_offset)%N
    then mfail (format_error path ("invalid " +:+ store_name st +:+ " directory offset"))
    else
      directory <- mlift (ok_or_else (get bs directory_offset (N.of_nat footer_start))
                            (format_error path (store_name st +:+ " directory out of bounds"))) ;
      entries <- with_cursor directory (unpolled (
        count <- read_varint path ; mtimes (read_entry path) [] 0 (N.to_nat count))) ;
      mret (sort_by entry_key entries).
Definition open_bytes {S} (p : FPath) (bs : bytes) : M S Archive :=
  if decide (take (length (store_magic st)) bs <> store_magic st)
  then mfail (format_error (show p) ("unsupported " +:+ store_name st +:+ " header"))
  else
    check_control ;;
    mlift (verify_checksum_from_slice bs (show p)) ;;
    check_control ;;
    directory <- read_directory_from_slice bs (show p) ;
    check_control ;;
    mret (mkArchive p bs directory).
Definition open_checked {X} `{Platform, Mmap} (p : FPath) : M (World X) Archive :=
  check_control ;;
  file <- or_io p (open_read p) ;
  check_control ;;
  bs <- or_io p (map_file file) ;
  check_control ;;
  open_bytes p bs.

(** ** Looking up *)
Section Lookup.
Context {S : Type} (a : Archive).
Let path := show (archive_path a).

Definition wrong_posting : GfmError := format_error path (store_name st +:+ " directory points at the wrong posting").
Definition find_entry (key : str) : option Entry :=
  match search_key entry_key key (archive_directory a) with
  | Ok i => archive_directory a !! i
  | Err _ => None
  end.
Definition posting_bytes (e : Entry) : Res bytes :=
  let? end_ := ok_or_else (checked_add (entry_offset e) (entry_len e)) (format_error path "posting range overflow") in
  ok_or_else (get (archive_map a) (entry_offset e) end_) (format_error path "posting range out of bounds").

Definition posting_for_checked (key : str) : M S (option (Posting W)) :=
  check_control ;;
  key <- normalize_checked key ;
  if negb (valid_key st key) then mret None
  else
    check_control ;;
    match find_entry key with
    | None => mret None
    | Some e =>
        check_control ;;
        bs <- mlift (posting_bytes e) ;
        posting <- with_cursor bs (if lookup_polls st then read_posting_checked path else read_posting path) ;
        if decide (posting_key posting = key) then mret (Some posting) else mfail wrong_posting
    end.
Definition values_for_checked (key : str) : M S (list W) :=
  check_control ;;
  posting <- posting_for_checked key ;
  mret (from_option posting_values [] posting).

Definition limited_posting_for_entry_checked (e : Entry) (limit : N) : M S (LimitedPosting W) :=
  check_control ;;
  bs <- mlift (posting_bytes e) ;
  with_cursor bs (
    key <- read_key st path ;
    if decide (key <> entry_key e) then mfail wrong_posting
    else
      r <- read_values_limited st path limit ;
      mret (mkLimitedPosting (mkPosting key r.1) r.2)).
Definition values_for_limit_checked (key : str) (limit : N) : M S (list W * bool) :=
  check_control ;;
  key <- normalize_checked key ;
  if negb (valid_key st key) || (limit =? 0)%N then mret ([], false)
  else
    check_control ;;
    match find_entry key with
    | None => mret ([], false)
    | Some e =>
        check_control ;;
        posting <- limited_posting_for_entry_checked e limit ;
        mret (posting_values (limited_posting posting), posting_truncated posting)
    end.

(** A batch of sorted keys walks the directory once. *)
Fixpoint skip_entries (key : str) (directory : list Entry) : M S (list Entry) :=
  match directory with
  | [] => mret []
  | e :: directory' =>
      check_control ;;
      if decide (le_of key (entry_key e)) then mret directory else skip_entries key directory'
  end.
Fixpoint batch_loop (limit : N) (directory : list Entry) (previous : option str) (postings : list (LimitedPosting W))
    (keys : list str) : M S (list (LimitedPosting W)) :=
  match keys with
  | [] => mret postings
  | key :: keys' =>
      check_control ;;
      key <- normalize_checked key ;
      if negb (valid_key st key) then batch_loop limit directory previous postings keys'
      else if match previous with Some q => bool_decide (lt_of key q) | None => false end
      then mfail (format_error path ("batch " +:+ store_name st +:+ " lookup " +:+ batch_noun st +:+ " must be sorted"))
      else if decide (previous = Some key) then batch_loop limit directory previous postings keys'
      else
        directory <- skip_entries key directory ;
        found <- match head directory with
                 | Some e =>
                     if decide (entry_key e = key) then
                       check_control ;;
                       p <- limited_posting_for_entry_checked e limit ;
                       mret [p]
                     else mret []
                 | None => mret []
                 end ;
        batch_loop limit directory (Some key) (postings ++ found) keys'
  end.
Definition postings_for_sorted_limit_checked (keys : list str) (limit : N) : M S (list (LimitedPosting W)) :=
  check_control ;;
  if decide (limit = 0%N) then mret []
  else
    postings <- batch_loop limit (archive_directory a) None [] keys ;
    check_control ;;
    mret postings.

(** All of them, and those under some keys. *)
Definition postings : M S (list (Posting W)) :=
  mfor (fun acc e => bs <- mlift (posting_bytes e) ; p <- with_cursor bs (read_posting path) ; mret (acc ++ [p]))
    [] (archive_directory a).
Definition select_keys (keys : list str) : M S (list str) :=
  mfor (fun selected key =>
    check_control ;;
    key <- normalize_checked key ;
    mret (if valid_key st key then btree_insert key selected else selected)) [] keys.
Definition postings_for_checked (keys : list str) : M S (list (Posting W)) :=
  selected <- select_keys keys ;
  mfor (fun acc key => p <- posting_for_checked key ; mret (acc ++ option_list p)) [] selected.
Definition postings_for_limit_checked (keys : list str) (limit : N) : M S (list (Posting W)) :=
  selected <- select_keys keys ;
  limited <- postings_for_sorted_limit_checked selected limit ;
  mret (limited_posting <$> limited).

Definition indexed_keys : N := N.of_nat (length (archive_directory a)).
Definition mapped_len : N := N.of_nat (length (archive_map a)).
Definition is_checksummed : bool :=
  match verify_checksum_footer (archive_map a) (store_checksum_footer st) path (store_name st) with Ok b => b | Err _ => false end.
End Lookup.
End PostingStore.

(** ** Archives of file ids *)

(** The ids of a posting, at most [limit] of them: one more is asked for, to tell
    whether there are more. *)
Definition read_ids_limited (path : string) (limit : N) : M bytes (list FileId * bool) :=
  ids_bytes <- mget ;
  check_control ;;
  ids <- read_blocked_file_ids_limited_from_slice_checked path ids_bytes (saturating_add limit 1) ;
  mret (take (N.to_nat limit) ids, (limit <? N.of_nat (length ids))%N).
Section Ids.
Context (st : Store FileId) `{Unicode} {S : Type} (a : Archive).
Let path := show (archive_path a).

Definition ids_for_volume_limit_checked (key : str) (volume limit : N) : M S (list FileId * bool) :=
  check_control ;;
  key <- normalize_checked key ;
  if negb (valid_key st key) || (limit =? 0)%N then mret ([], false)
  else
    check_control ;;
    match find_entry a key with
    | None => mret ([], false)
    | Some e =>
        check_control ;;
        bs <- mlift (posting_bytes st a e) ;
        with_cursor bs (
          posting_key <- read_key st path ;
          if decide (posting_key <> entry_key e) then mfail (wrong_posting st a)
          else
            ids_bytes <- mget ;
            check_control ;;
            read_blocked_file_ids_for_volume_limited_from_slice_checked path ids_bytes volume limit)
    end.
Definition id_block_for (key : str) (block_index : N) : M S (list FileId) :=
  let key := normalize key in
  if negb (valid_key st key) then mret []
  else
    match find_entry a key with
    | None => mret []
    | Some e =>
        bs <- mlift (posting_bytes st a e) ;
        with_cursor bs (
          read_key st path ;;
          ids_bytes <- mget ;
          read_blocked_file_id_block_from_slice path ids_bytes block_index)
    end.
End Ids.
