(* ===== verification/PostingStoreSpec.v ===== *)
(** * Posting archives: the theorems

    What is written can be opened, and an open archive answers its look-ups as the
    finite map of the postings it was written from. *)
From Stdlib Require Import Ascii.
From S2P Require Import Prelude Types Text Order Chars Control Codec Utf8 BinarySearch StoreIds StoreIdsSpec FileSystem TextFiles TrashMeta Durable PostingStore.
#[local] Open Scope string_scope.
#[local] Open Scope list_scope.

(** ** What an archive relies on

    The coding of keys and values: [values_ok] says which values can be stored, and
    [canon] what is read back of them. *)
Class StoreLaws {W : Type} (st : Store W) (values_ok : list W -> Prop) (canon : list W -> list W) : Prop := {
  law_key path k rest : str_ok k -> (N.of_nat (str_len k) < U64)%N ->
    runs (read_key st path) (write_text k ++ rest) (Ok k) rest;
  law_directory_key path k rest : str_ok k -> (N.of_nat (str_len k) < U64)%N ->
    runs (read_directory_key st path) (write_text k ++ rest) (Ok k) rest;
  law_values path vs rest : values_ok vs -> runs (read_values st path) (write_values st vs ++ rest) (Ok (canon vs)) rest;
  law_limited path limit vs rest : values_ok vs -> exists rest',
    runs (read_values_limited st path limit) (write_values st vs ++ rest)
      (Ok (take (N.to_nat limit) (canon vs), (limit <? N.of_nat (length (canon vs)))%N)) rest';
  law_key_polls path : cooperative (read_key st path);
  law_values_polls path : cooperative (read_values st path);
  law_limited_polls path limit : cooperative (read_values_limited st path limit)
}.
#[export] Hint Resolve law_key_polls law_values_polls law_limited_polls : ctl.

(** ** Keys *)
Section Keys.
Context `{Unicode}.
Lemma runs_normalize_chars {S} s : forall index acc (x : S),
  runs (normalize_chars index acc s) x (Ok (acc ++ str_ascii_lowercase s)) x.
Proof.
  induction s as [|c s IH]; intros index acc x; cbn [normalize_chars]; [rewrite app_nil_r; apply runs_ret|].
  eapply runs_bind with (a := tt) (s1 := x); [case_decide; [apply runs_check|apply runs_ret]|]. cbv beta.
  specialize (IH (index + 1)%N (acc ++ [ascii_lower c]) x). by rewrite <- app_assoc in IH.
Qed.
Lemma runs_normalize_key {S} v (x : S) : runs (normalize_checked v) x (Ok (normalize v)) x.
Proof.
  unfold normalize_checked. eapply runs_bind; [apply runs_check|]. eapply runs_bind; [apply runs_normalize_chars|].
  eapply runs_bind; [apply runs_check|]. apply runs_ret.
Qed.
Lemma cooperative_normalize_key {S} v : cooperative (normalize_checked (S := S) v).
Proof.
  unfold normalize_checked. assert (Hc : forall s i acc, cooperative (normalize_chars (S := S) i acc s)).
  { induction s as [|c s IH]; intros; cbn [normalize_chars]; codec_auto. }
  codec_auto.
Qed.

(** *** Normalising twice *)
Lemma ascii_lower_idem ch : ascii_lower (ascii_lower ch) = ascii_lower ch.
Proof.
  unfold ascii_lower at 2 3. destruct (is_ascii_upper ch) eqn:E; unfold ascii_lower; [|by rewrite E].
  unfold is_ascii_upper in *. apply andb_prop in E as [E1%N.leb_le E2%N.leb_le].
  destruct (N.leb_spec 65 (ch + 32)), (N.leb_spec (ch + 32) 90); cbn; done || lia.
Qed.
Lemma whitespace_lower ch : is_whitespace (ascii_lower ch) = is_whitespace ch.
Proof.
  unfold ascii_lower. destruct (is_ascii_upper ch) eqn:E; [|done]. unfold is_ascii_upper in E.
  apply andb_prop in E as [E1%N.leb_le E2%N.leb_le]. rewrite !whitespace_ascii by lia. unfold is_ascii_space.
  destruct (N.leb_spec 9 (ch + 32)), (N.leb_spec (ch + 32) 13), (N.eqb_spec (ch + 32) 32), (N.leb_spec 9 ch), (N.leb_spec ch 13), (N.eqb_spec ch 32); done || lia.
Qed.
Lemma trim_start_suffix q s : exists l, s = l ++ trim_start_by q s.
Proof. induction s as [|ch s [l E]]; [by exists []|]. cbn. destruct (q ch); [exists (ch :: l); cbn; by rewrite <- E|by exists []]. Qed.
Lemma trim_start_head q s : match head (trim_start_by q s) with Some ch => q ch = false | None => True end.
Proof. induction s as [|ch s IH]; [done|]. cbn. by destruct (q ch) eqn:E. Qed.
Lemma trim_start_fix q s : match head s with Some ch => q ch = false | None => True end -> trim_start_by q s = s.
Proof. destruct s as [|ch s]; [done|]. cbn. by intros ->. Qed.
Lemma trim_fix q s : match head s with Some ch => q ch = false | None => True end ->
  match last s with Some ch => q ch = false | None => True end -> trim_by q s = s.
Proof.
  intros Hh Hl. unfold trim_by. rewrite (trim_start_fix q s) by done. rewrite <- head_reverse in Hl.
  rewrite trim_start_fix by done. apply reverse_involutive.
Qed.
Lemma trim_ends q s : (match head (trim_by q s) with Some ch => q ch = false | None => True end) /\
  match last (trim_by q s) with Some ch => q ch = false | None => True end.
Proof.
  unfold trim_by. set (t := trim_start_by q s). pose proof (trim_start_head q s) as Hh. fold t in Hh.
  destruct (trim_start_suffix q (reverse t)) as [l El]. pose proof (trim_start_head q (reverse t)) as Hl.
  set (u := trim_start_by q (reverse t)) in *. split; [|by rewrite last_reverse].
  assert (Et : t = reverse u ++ reverse l) by by rewrite <- reverse_app, <- El, reverse_involutive.
  rewrite Et in Hh. by destruct (reverse u).
Qed.
Lemma normalize_idem v : normalize (normalize v) = normalize v.
Proof.
  unfold normalize. destruct (trim_ends is_whitespace v) as [Hh Hl]. set (t := trim_by is_whitespace v) in *.
  assert (Eh : forall o : option char, match o with Some ch => is_whitespace ch = false | None => True end ->
    match ascii_lower <$> o with Some ch => is_whitespace ch = false | None => True end).
  { intros [ch|] Hch; [cbn; by rewrite whitespace_lower|done]. }
  unfold str_ascii_lowercase. rewrite trim_fix.
  - rewrite <- list_fmap_compose. apply list_fmap_ext. intros _ ch _. apply ascii_lower_idem.
  - specialize (Eh (head t) Hh). destruct t; [done|exact Eh].
  - rewrite fmap_last. by apply Eh.
Qed.
Lemma normalize_str_ok v : str_ok v -> str_ok (normalize v).
Proof.
  intros Hv. apply Forall_fmap, Forall_forall. intros ch Hch%trim_elem.
  pose proof (proj1 (Forall_forall _ _) Hv _ Hch) as Hs. unfold compose, ascii_lower. destruct (is_ascii_upper ch) eqn:E; [|done].
  unfold is_ascii_upper in E. apply andb_prop in E as [_ E%N.leb_le]. unfold scalar. lia.
Qed.
End Keys.
(** A strictly sorted list has no repetitions to remove. *)
Lemma dedup_strict {A} `{TotalOrd A} `{EqDecision A} (l : list A) : StronglySorted lt_of l -> dedup l = l.
Proof.
  induction 1 as [|x l Hs IH Hx]; [done|]. destruct l as [|y l]; [done|]. cbn [dedup] in *.
  rewrite decide_False; [by rewrite IH|]. intros ->. apply Forall_inv in Hx. by apply lt_irrefl in Hx.
Qed.
#[export] Hint Resolve cooperative_normalize_key : ctl.

Lemma runs_read_text path error s rest : str_ok s -> (N.of_nat (str_len s) < U64)%N ->
  runs (read_text path error) (write_text s ++ rest) (Ok s) rest.
Proof.
  intros Hs Hl. unfold read_text, write_text. rewrite <- app_assoc. eapply runs_bind; [by apply runs_read_varint|]. cbv beta.
  eapply runs_bind; [apply runs_read_exact; by rewrite as_bytes_length|]. cbv beta. unfold string_from.
  rewrite from_utf8_as_bytes by done. apply runs_lift.
Qed.
Lemma cooperative_read_text path error : cooperative (read_text path error).
Proof. unfold read_text. codec_auto. Qed.
#[export] Hint Resolve cooperative_read_text : ctl.

Section Spec.
Context {W : Type} {st : Store W} {values_ok : list W -> Prop} {canon : list W -> list W} `{!StoreLaws st values_ok canon} `{Unicode}.
Implicit Types (p : Posting W) (ps : list (Posting W)) (e : Entry).

(** ** The bytes of an archive *)
Fixpoint entries_from (offset : N) (ps : list (Posting W)) : list Entry :=
  match ps with
  | [] => []
  | p :: ps' => let len := N.of_nat (length (write_posting st p)) in
                mkEntry (posting_key p) offset len :: entries_from (offset + len) ps'
  end.
Definition archive_start (ps : list (Posting W)) : bytes := store_magic st ++ write_varint (N.of_nat (length ps)).
Definition archive_body (ps : list (Posting W)) : bytes := archive_start ps ++ mjoin (write_posting st <$> sort_postings ps).
Definition archive_entries (ps : list (Posting W)) : list Entry := entries_from (N.of_nat (length (archive_start ps))) (sort_postings ps).
Definition directory_bytes (es : list Entry) : bytes := write_varint (N.of_nat (length es)) ++ mjoin (write_directory_entry <$> es).
Definition archive_indexed (ps : list (Posting W)) : bytes :=
  archive_body ps ++ directory_bytes (archive_entries ps) ++ to_le_bytes 8 (N.of_nat (length (archive_body ps))) ++ store_index_footer st.
Definition archive_bytes (ps : list (Posting W)) : bytes :=
  archive_indexed ps ++ write_checksum_footer (archive_indexed ps) (store_checksum_footer st).

Lemma runs_put_postings ps : forall bs es,
  runs (mfor (put_posting st) (bs, es) ps) tt
    (Ok (bs ++ mjoin (write_posting st <$> ps), es ++ entries_from (N.of_nat (length bs)) ps)) tt.
Proof.
  induction ps as [|p ps IH]; intros bs es; cbn [mfor entries_from]; [rewrite !app_nil_r; apply runs_ret|].
  eapply runs_bind; [unfold put_posting; eapply runs_bind; [apply runs_check|]; apply runs_ret|]. cbv beta zeta. cbn [fst snd].
  specialize (IH (bs ++ write_posting st p)
    (es ++ [mkEntry (posting_key p) (N.of_nat (length bs)) (N.of_nat (length (write_posting st p)))])).
  rewrite !length_app, Nat2N.inj_add in *. unfold saturating_sub.
  replace (N.of_nat (length bs) + N.of_nat (length (write_posting st p)) - N.of_nat (length bs))%N with (N.of_nat (length (write_posting st p))) by lia.
  rewrite fmap_cons, join_cons. rewrite <- !app_assoc in IH. exact IH.
Qed.
Lemma runs_put_entries es : forall bs,
  runs (mfor put_entry bs es) tt (Ok (bs ++ mjoin (write_directory_entry <$> es))) tt.
Proof.
  induction es as [|e es IH]; intros bs; cbn [mfor]; [rewrite app_nil_r; apply runs_ret|].
  eapply runs_bind; [unfold put_entry; eapply runs_bind; [apply runs_check|]; apply runs_ret|]. cbv beta.
  rewrite fmap_cons, join_cons, app_assoc. apply IH.
Qed.
Lemma runs_archive_content ps : runs (archive_content st ps) tt (Ok (archive_bytes ps)) tt.
Proof.
  unfold archive_content. fold (archive_start ps). eapply runs_bind; [apply runs_put_postings|]. cbn [fst snd app].
  fold (archive_body ps) (archive_entries ps). eapply runs_bind; [apply runs_put_entries|]. eapply runs_bind; [apply runs_check|]. cbv beta zeta.
  eapply runs_bind; [apply runs_check|]. unfold archive_bytes, archive_indexed, directory_bytes. rewrite <- !app_assoc. apply runs_ret.
Qed.
Lemma cooperative_archive_content ps : cooperative (archive_content st ps).
Proof. unfold archive_content, put_posting, put_entry. codec_auto. Qed.

Lemma entries_length ps : forall o, length (entries_from o ps) = length ps.
Proof. induction ps as [|p ps IH]; intros o; cbn; [done|by rewrite IH]. Qed.
Lemma entries_keys ps : forall o, entry_key <$> entries_from o ps = posting_key <$> ps.
Proof. induction ps as [|p ps IH]; intros o; cbn [entries_from]; [done|]. by rewrite !fmap_cons, IH. Qed.

Lemma sum_list_elem n l : n ∈ l -> n <= sum_list l.
Proof. induction 1; cbn; lia. Qed.
(** ** What can be stored *)
Definition posting_ok p : Prop := str_ok (posting_key p) /\ values_ok (posting_values p).
(** Each key once, and an archive that fits in memory.  The keys need not be
    normalised; what is read back of a posting has its key normalised. *)
Definition postings_ok ps : Prop :=
  NoDup (posting_key <$> ps) /\ Forall posting_ok ps /\ (N.of_nat (length (archive_bytes ps)) < U64)%N.

(** An entry of the directory, and the posting it leads to. *)
Record fits (bs : bytes) (e : Entry) (p : Posting W) : Prop := {
  fits_key : entry_key e = posting_key p;
  fits_bytes : get bs (entry_offset e) (entry_offset e + entry_len e) = Some (write_posting st p);
  fits_range : (entry_offset e + entry_len e < U64)%N
}.
(** The archive holds the postings. *)
Record holds (a : Archive) (ps : list (Posting W)) : Prop := {
  holds_sorted : StronglySorted lt_of (posting_key <$> ps);
  holds_ok : Forall posting_ok ps;
  holds_fits : Forall2 (fits (archive_map a)) (archive_directory a) ps
}.

Lemma entries_fit ps : forall before after bs, bs = before ++ mjoin (write_posting st <$> ps) ++ after ->
  (N.of_nat (length bs) < U64)%N -> Forall2 (fits bs) (entries_from (N.of_nat (length before)) ps) ps.
Proof.
  induction ps as [|p ps IH]; intros before after bs E Hl; cbn [entries_from]; [constructor|].
  rewrite fmap_cons, join_cons, <- app_assoc in E. constructor.
  - rewrite E in Hl |- *. rewrite !length_app in Hl. split; cbn [entry_key entry_offset entry_len]; [done| |lia]. apply get_at; lia.
  - rewrite <- Nat2N.inj_add, <- length_app. apply (IH _ after); [by rewrite E, <- app_assoc|done].
Qed.

Section Written.
Context (ps : list (Posting W)) (Hps : postings_ok ps).
Let sorted := sort_postings ps.

Lemma sorted_strict : StronglySorted lt_of (posting_key <$> sorted).
Proof.
  pose proof (sort_by_sorted posting_key ps) as Hs. fold (sort_postings ps) in Hs. fold sorted in Hs.
  assert (Hn : NoDup (posting_key <$> sorted)).
  { unfold sorted, sort_postings. rewrite (sort_by_perm posting_key ps). apply Hps. }
  clearbody sorted. induction Hs as [|p l Hs IH Hp]; [constructor|]. rewrite fmap_cons in *. apply NoDup_cons in Hn as [Hnot Hn].
  constructor; [by apply IH|]. apply Forall_fmap, Forall_forall. intros q Hq.
  pose proof (proj1 (Forall_forall _ _) Hp q Hq) as Hle. unfold key_le_of in Hle. apply le_lt_or_eq in Hle as [Hlt|Heq]; [done|].
  exfalso. apply Hnot. apply list_elem_of_fmap. by exists q.
Qed.
Lemma sorted_postings_ok : Forall posting_ok sorted.
Proof. unfold sorted, sort_postings. rewrite (sort_by_perm posting_key ps). apply Hps. Qed.
Lemma archive_small : (N.of_nat (length (archive_body ps)) + N.of_nat (length (directory_bytes (archive_entries ps))) < U64)%N.
Proof.
  destruct Hps as (_ & _ & Hl). unfold archive_bytes, archive_indexed in Hl. rewrite !length_app in Hl. lia.
Qed.
Lemma archive_fits : Forall2 (fits (archive_bytes ps)) (archive_entries ps) sorted.
Proof.
  destruct Hps as (_ & _ & Hl). unfold archive_entries. eapply entries_fit; [|exact Hl].
  unfold archive_bytes, archive_indexed, archive_body. rewrite <- !app_assoc. done.
Qed.
Lemma entry_small e : e ∈ archive_entries ps ->
  str_ok (entry_key e) /\ (N.of_nat (str_len (entry_key e)) < U64)%N /\ u64_ok (entry_offset e) /\ u64_ok (entry_len e).
Proof.
  intros He. pose proof archive_fits as Hf. pose proof sorted_postings_ok as Hok. pose proof archive_small as Hs.
  apply list_elem_of_lookup in He as [i Hi]. destruct (Forall2_lookup_l _ _ _ _ _ Hf Hi) as (p & Hp & [Hk Hb Hr]).
  pose proof (Forall_lookup_1 _ _ _ _ Hok Hp) as [Hstr _]. rewrite Hk. split; [done|]. split.
  - unfold directory_bytes in Hs. rewrite length_app, length_join in Hs.
    assert (Hle : length (write_directory_entry e) <= sum_list (length <$> (write_directory_entry <$> archive_entries ps))).
    { apply sum_list_elem. rewrite <- list_fmap_compose. apply list_elem_of_fmap. exists e. split; [done|]. by eapply list_elem_of_lookup_2. }
    unfold write_directory_entry at 1 in Hle. unfold write_text in Hle. rewrite !length_app, as_bytes_length, Hk in Hle. lia.
  - unfold u64_ok. lia.
Qed.

Lemma runs_read_entry path acc j e rest : e ∈ archive_entries ps ->
  runs (read_entry st path acc j) (write_directory_entry e ++ rest) (Ok (acc ++ [e])) rest.
Proof.
  intros (Hs & Hl & Ho & Hn)%entry_small. unfold read_entry, write_directory_entry. rewrite <- !app_assoc.
  eapply runs_bind; [by apply law_directory_key|]. cbv beta.
  do 2 (eapply runs_bind; [apply runs_read_exact; by rewrite to_le_length|]; cbv beta).
  rewrite (from_to_le8 _ Ho), (from_to_le8 _ Hn). destruct e. apply runs_ret.
Qed.
Lemma entries_count : (N.of_nat (length (archive_entries ps)) < U64)%N.
Proof.
  pose proof archive_small as Hs. unfold directory_bytes in Hs. rewrite length_app, length_join in Hs.
  assert (Hc : forall es, length es <= sum_list (length <$> (write_directory_entry <$> es))).
  { induction es as [|e es IH]; [done|]. csimpl. unfold write_directory_entry at 1. rewrite !length_app, !to_le_length. lia. }
  specialize (Hc (archive_entries ps)). lia.
Qed.
Lemma indexed_split :
  archive_indexed ps = (archive_body ps ++ directory_bytes (archive_entries ps)) ++
    to_le_bytes 8 (N.of_nat (length (archive_body ps))) ++ store_index_footer st.
Proof. unfold archive_indexed. by rewrite <- app_assoc. Qed.
Lemma indexed_len path : indexed_len_from_slice st (archive_bytes ps) path = Ok (length (archive_indexed ps)).
Proof.
  unfold indexed_len_from_slice, archive_bytes. rewrite length_app, footer_length.
  rewrite (decide_False (P := (length (archive_indexed ps) + (4 + length (store_checksum_footer st)) < 4 + length (store_checksum_footer st)))) by lia.
  replace (length (archive_indexed ps) + (4 + length (store_checksum_footer st)) - (4 + length (store_checksum_footer st)))
    with (length (archive_indexed ps)) by lia.
  rewrite <- drop_drop, drop_app_length. unfold write_checksum_footer.
  rewrite decide_True; [done|]. by apply drop_app_length'; rewrite to_le_length.
Qed.
Lemma runs_read_directory {S} path (x : S) : runs (read_directory_from_slice st (archive_bytes ps) path) x (Ok (archive_entries ps)) x.
Proof.
  unfold read_directory_from_slice. rewrite indexed_len. eapply runs_bind; [apply runs_lift|]. cbv beta zeta.
  pose proof indexed_split as Ei. set (front := archive_body ps ++ directory_bytes (archive_entries ps)) in Ei.
  assert (Elen : length (archive_indexed ps) - (length (store_index_footer st) + 8) = length front).
  { rewrite Ei, !length_app, to_le_length. lia. }
  rewrite Elen. rewrite decide_False by (rewrite Ei, !length_app, to_le_length; lia).
  assert (Ea : archive_bytes ps = front ++ to_le_bytes 8 (N.of_nat (length (archive_body ps))) ++
    (store_index_footer st ++ write_checksum_footer (archive_indexed ps) (store_checksum_footer st))).
  { unfold archive_bytes at 1. rewrite Ei at 1. by rewrite <- !app_assoc. }
  pose proof archive_small as Hs. unfold U64 in Hs.
  rewrite Ea at 1. rewrite (get_range_at front (to_le_bytes 8 _)) by (rewrite ?to_le_length; lia).
  eapply runs_bind; [apply runs_lift|]. cbv beta. rewrite from_to_le8 by (unfold u64_ok, U64; lia).
  assert (Hd : 0 < length (directory_bytes (archive_entries ps))).
  { unfold directory_bytes. rewrite length_app. pose proof (write_varint_length (N.of_nat (length (archive_entries ps)))). lia. }
  destruct (N.leb_spec (N.of_nat (length front)) (N.of_nat (length (archive_body ps)))) as [Hle|_].
  { unfold front in Hle. rewrite length_app in Hle. lia. }
  rewrite Ea. unfold front at 1. rewrite <- !app_assoc. rewrite (get_at _ (directory_bytes _)) by (unfold front; rewrite ?length_app; lia).
  eapply runs_bind; [apply runs_lift|]. cbv beta. eapply runs_bind.
  { eapply runs_cursor, runs_unpolled. unfold directory_bytes. eapply runs_bind; [apply runs_read_varint, entries_count|]. cbv beta.
    rewrite Nat2N.id. pose proof (runs_times (read_entry st path) write_directory_entry (fun acc e => acc ++ [e]) [] (archive_entries ps) [] 0) as Ht.
    rewrite app_nil_r, (foldl_snoc_map id), list_fmap_id in Ht. apply Ht. intros l1 e l2 E j tail.
    apply runs_read_entry. rewrite E. set_solver. }
  cbv beta. rewrite sort_by_id; [apply runs_ret|].
  pose proof sorted_strict as Hs'. unfold sorted in Hs'. unfold archive_entries.
  rewrite <- (entries_keys _ (N.of_nat (length (archive_start ps)))) in Hs'.
  generalize dependent (entries_from (N.of_nat (length (archive_start ps))) (sort_postings ps)). clear. intros es Hes.
  induction es as [|e es IH]; [constructor|]. rewrite fmap_cons in Hes. apply StronglySorted_inv in Hes as [Hes He]. constructor; [by apply IH|].
  rewrite Forall_fmap in He. eapply Forall_impl; [exact He|]. intros e' Hlt. by apply lt_le.
Qed.

Definition opened (path : FPath) : Archive := mkArchive path (archive_bytes ps) (archive_entries ps).
Lemma runs_open_bytes {S} path (x : S) : runs (open_bytes st path (archive_bytes ps)) x (Ok (opened path)) x.
Proof.
  unfold open_bytes. rewrite decide_False.
  2:{ intros Hn. apply Hn. unfold archive_bytes, archive_indexed, archive_body, archive_start. rewrite <- !app_assoc. by rewrite take_app_length. }
  eapply runs_bind; [apply runs_check|]. eapply runs_bind with (a := tt).
  { unfold verify_checksum_from_slice, archive_bytes. rewrite verify_written. apply runs_lift. }
  eapply runs_bind; [apply runs_check|]. eapply runs_bind; [apply runs_read_directory|]. eapply runs_bind; [apply runs_check|]. apply runs_ret.
Qed.
Lemma opened_holds path : holds (opened path) sorted.
Proof. split; [apply sorted_strict|apply sorted_postings_ok|apply archive_fits]. Qed.
End Written.

(** ** The map an archive stands for *)
Definition table ps : gmap str (list W) := list_to_map ((fun p => (posting_key p, posting_values p)) <$> ps).
Lemma table_keys ps : ((fun p => (posting_key p, posting_values p)) <$> ps).*1 = posting_key <$> ps.
Proof. rewrite <- list_fmap_compose. done. Qed.
Lemma table_elem ps p : NoDup (posting_key <$> ps) -> p ∈ ps -> table ps !! posting_key p = Some (posting_values p).
Proof.
  intros Hn Hp. apply elem_of_list_to_map_1; [by rewrite table_keys|]. apply list_elem_of_fmap. by exists p.
Qed.
Lemma table_none ps k : ~ k ∈ (posting_key <$> ps) -> table ps !! k = None.
Proof. intros Hk. apply not_elem_of_list_to_map. by rewrite table_keys. Qed.
Lemma table_perm ps ps' : NoDup (posting_key <$> ps) -> ps ≡ₚ ps' -> table ps = table ps'.
Proof. intros Hn Hp. apply list_to_map_proper; [by rewrite table_keys|]. by rewrite Hp. Qed.

(** The answer under a key, and a limited one. *)
Definition answer ps (key : str) : option (Posting W) :=
  if valid_key st key then (fun vs => mkPosting key (canon vs)) <$> table ps !! key else None.
Definition limited_of (limit : N) p : LimitedPosting W :=
  mkLimitedPosting (mkPosting (posting_key p) (take (N.to_nat limit) (posting_values p))) (limit <? N.of_nat (length (posting_values p)))%N.

Section Held.
Context (a : Archive) (ps : list (Posting W)) (Ha : holds a ps) {S : Type}.
Implicit Types (x : S).
Let path := show (archive_path a).

Lemma held_keys : entry_key <$> archive_directory a = posting_key <$> ps.
Proof.
  destruct Ha as [_ _ Hf]. clear Ha. induction Hf as [|e p es qs He Hf IH]; [done|]. by rewrite !fmap_cons, IH, (fits_key _ _ _ He).
Qed.
Lemma held_NoDup : NoDup (posting_key <$> ps).
Proof. apply lt_sorted_NoDup, (holds_sorted _ _ Ha). Qed.
Lemma directory_sorted : StronglySorted (fun e e' => lt_of (entry_key e) (entry_key e')) (archive_directory a).
Proof.
  pose proof (holds_sorted _ _ Ha) as Hs. rewrite <- held_keys in Hs. clear -Hs. induction (archive_directory a) as [|e es IH]; [constructor|].
  rewrite fmap_cons in Hs. apply StronglySorted_inv in Hs as [Hs He]. constructor; [by apply IH|]. by rewrite Forall_fmap in He.
Qed.

(** What an entry leads to. *)
Definition leads e p : Prop := fits (archive_map a) e p /\ posting_ok p.
Lemma find_entry_spec key :
  match table ps !! key with
  | Some vs => exists e p, find_entry a key = Some e /\ leads e p /\ posting_key p = key /\ posting_values p = vs
  | None => find_entry a key = None
  end.
Proof.
  destruct (search_key_cases entry_key key (archive_directory a) directory_sorted)
    as [(l1 & e & l2 & E & Hk & Hf)|(l1 & l2 & E & H1 & H2 & Hf)]; unfold find_entry; rewrite Hf.
  - assert (Hi : archive_directory a !! length l1 = Some e) by (rewrite E; by apply list_lookup_middle).
    destruct (Forall2_lookup_l _ _ _ _ _ (holds_fits _ _ Ha) Hi) as (p & Hp & Hfit).
    pose proof (Forall_lookup_1 _ _ _ _ (holds_ok _ _ Ha) Hp) as Hok.
    assert (Ek : posting_key p = key) by by rewrite <- (fits_key _ _ _ Hfit).
    rewrite <- Ek, (table_elem ps p held_NoDup) by by eapply list_elem_of_lookup_2. rewrite Ek. by exists e, p.
  - rewrite table_none; [done|]. rewrite <- held_keys, E. intros (e & -> & He)%list_elem_of_fmap.
    apply elem_of_app in He as [He|He].
    + apply (proj1 (Forall_forall _ _) H1) in He. by apply lt_irrefl in He.
    + apply (proj1 (Forall_forall _ _) H2) in He. by apply lt_irrefl in He.
Qed.

Lemma leads_bytes e p : leads e p -> posting_bytes st a e = Ok (write_posting st p).
Proof.
  intros [[Hk Hb Hr] _]. unfold posting_bytes. rewrite checked_add_small by done. cbn [ok_or_else result_bind]. by rewrite Hb.
Qed.
Lemma posting_text e p : leads e p ->
  let k := normalize (posting_key p) in
  write_posting st p = write_text k ++ write_values st (posting_values p) /\
  str_ok k /\ (N.of_nat (str_len k) < U64)%N /\ values_ok (posting_values p).
Proof.
  intros [[Hk Hb Hr] [Hs Hv]]. cbv zeta. unfold write_posting in *. split_and!; try done; [by apply normalize_str_ok|].
  unfold get, get_range in Hb. destruct (N.leb_spec (entry_offset e + entry_len e) (N.of_nat (length (archive_map a)))) as [Hle|]; [|done].
  case_decide as Hd; [|done]. injection Hb as Hb. apply (f_equal length) in Hb.
  rewrite length_take, length_app in Hb. unfold write_text in Hb. rewrite length_app, as_bytes_length in Hb. lia.
Qed.

Lemma runs_read_posting e p : leads e p ->
  runs (read_posting_checked st path) (write_posting st p) (Ok (mkPosting (normalize (posting_key p)) (canon (posting_values p)))) [].
Proof.
  intros (Ew & Hs & Hl & Hv)%posting_text. rewrite Ew. unfold read_posting_checked.
  eapply runs_bind; [apply runs_check|]. eapply runs_bind; [by apply law_key|]. eapply runs_bind; [apply runs_check|].
  rewrite <- (app_nil_r (write_values _ _)). eapply runs_bind; [by apply law_values|].
  eapply runs_bind; [apply runs_check|]. apply runs_ret.
Qed.
Lemma runs_limited_entry e p limit x : leads e p -> normalize (posting_key p) = posting_key p ->
  runs (limited_posting_for_entry_checked st a e limit) x
    (Ok (limited_of limit (mkPosting (posting_key p) (canon (posting_values p))))) x.
Proof.
  intros Hl Hnorm. pose proof (posting_text e p Hl) as (Ew & Hs & Hn & Hv). pose proof Hl as [[Hk _ _] _]. rewrite Hnorm in *.
  unfold limited_posting_for_entry_checked. rewrite (leads_bytes e p Hl). eapply runs_bind; [apply runs_check|].
  eapply runs_bind; [apply runs_lift|]. cbv beta. rewrite Ew. destruct (law_limited path limit (posting_values p) [] Hv) as [rest' Hr].
  rewrite app_nil_r in Hr. eapply runs_cursor. eapply runs_bind; [by apply law_key|]. cbv beta. rewrite decide_False by by rewrite Hk; intros Hx.
  eapply runs_bind; [exact Hr|]. apply runs_ret.
Qed.

Lemma runs_posting_for key x : runs (posting_for_checked st a key) x (Ok (answer ps (normalize key))) x.
Proof.
  unfold posting_for_checked. eapply runs_bind; [apply runs_check|]. eapply runs_bind; [apply runs_normalize_key|]. cbv beta.
  unfold answer. destruct (valid_key st (normalize key)); cbn [negb]; [|apply runs_ret].
  eapply runs_bind; [apply runs_check|]. pose proof (find_entry_spec (normalize key)) as Hf.
  destruct (table ps !! normalize key) as [vs|]; [|rewrite Hf; apply runs_ret].
  destruct Hf as (e & p & -> & Hl & Ek & Ev). eapply runs_bind; [apply runs_check|]. rewrite (leads_bytes e p Hl).
  eapply runs_bind; [apply runs_lift|]. cbv beta. pose proof (runs_read_posting e p Hl) as Hr. rewrite Ek, Ev, normalize_idem in Hr.
  eapply runs_bind; [eapply runs_cursor; destruct (lookup_polls st); [exact Hr|by apply runs_unpolled]|].
  cbn [posting_key]. rewrite decide_True by done. apply runs_ret.
Qed.
Lemma runs_values_for key x :
  runs (values_for_checked st a key) x (Ok (from_option posting_values [] (answer ps (normalize key)))) x.
Proof.
  unfold values_for_checked. eapply runs_bind; [apply runs_check|]. eapply runs_bind; [apply runs_posting_for|]. apply runs_ret.
Qed.
Lemma runs_values_for_limit key limit x :
  runs (values_for_limit_checked st a key limit) x
    (Ok (match answer ps (normalize key) with
         | Some p => if decide (limit = 0%N) then ([], false)
                     else (take (N.to_nat limit) (posting_values p), (limit <? N.of_nat (length (posting_values p)))%N)
         | None => ([], false)
         end)) x.
Proof.
  unfold values_for_limit_checked. eapply runs_bind; [apply runs_check|]. eapply runs_bind; [apply runs_normalize_key|]. cbv beta.
  unfold answer. destruct (valid_key st (normalize key)); cbn [negb orb]; [|apply runs_ret].
  destruct (N.eqb_spec limit 0) as [->|Hz]; [destruct (table ps !! _); apply runs_ret|].
  eapply runs_bind; [apply runs_check|]. pose proof (find_entry_spec (normalize key)) as Hf.
  destruct (table ps !! normalize key) as [vs|]; [|rewrite Hf; apply runs_ret].
  destruct Hf as (e & p & -> & Hl & Ek & <-). eapply runs_bind; [apply runs_check|].
  eapply runs_bind; [apply (runs_limited_entry e p); [done|rewrite Ek; apply normalize_idem]|]. cbn. rewrite decide_False by done. apply runs_ret.
Qed.
Lemma runs_postings x : runs (postings st a) x (Ok ((fun p => mkPosting (normalize (posting_key p)) (canon (posting_values p))) <$> ps)) x.
Proof.
  unfold postings. pose proof (holds_fits _ _ Ha) as Hf. pose proof (holds_ok _ _ Ha) as Hok.
  assert (Hg : forall es qs acc, Forall2 (fits (archive_map a)) es qs -> Forall posting_ok qs ->
    runs (mfor (fun acc e => bs <- mlift (posting_bytes st a e) ; p <- with_cursor bs (read_posting st path) ; mret (acc ++ [p])) acc es) x
      (Ok (acc ++ ((fun p => mkPosting (normalize (posting_key p)) (canon (posting_values p))) <$> qs))) x).
  { intros es qs acc Hfq. revert acc. induction Hfq as [|e q es qs He Hfq IH]; intros acc Hq; cbn [mfor]; [rewrite app_nil_r; apply runs_ret|].
    apply Forall_cons in Hq as [Hq0 Hq]. assert (Hl : leads e q) by by split. eapply runs_bind.
    - rewrite (leads_bytes e q Hl). eapply runs_bind; [apply runs_lift|]. cbv beta.
      eapply runs_bind; [eapply runs_cursor, runs_unpolled; by apply (runs_read_posting e q)|]. apply runs_ret.
    - cbv beta. specialize (IH (acc ++ [mkPosting (normalize (posting_key q)) (canon (posting_values q))]) Hq). by rewrite <- app_assoc in IH. }
  by apply (Hg _ _ []).
Qed.

(** *** A batch of sorted keys *)

(** The keys to answer, [None] when they are not in order. *)
Fixpoint batch_keys (previous : option str) (keys : list str) : option (list str) :=
  match keys with
  | [] => Some []
  | k :: keys' =>
      if match previous with Some q => bool_decide (lt_of k q) | None => false end then None
      else if decide (previous = Some k) then batch_keys previous keys'
      else cons k <$> batch_keys (Some k) keys'
  end.
Lemma batch_keys_sorted keys : forall previous,
  match previous with Some q => StronglySorted le_of (q :: keys) | None => StronglySorted le_of keys end ->
  match previous with Some q => cons q <$> batch_keys previous keys = Some (dedup (q :: keys))
                    | None => batch_keys previous keys = Some (dedup keys) end.
Proof.
  induction keys as [|k keys IH]; intros previous Hs; [by destruct previous|].
  destruct previous as [q|]; cbn [batch_keys].
  - apply StronglySorted_inv in Hs as [Hs Hq]. pose proof (Forall_inv Hq) as Hqk. rewrite bool_decide_false.
    2:{ intros Hlt. apply le_lt_or_eq in Hqk as [Hx| ->]; [|by apply lt_irrefl in Hlt]. apply (lt_irrefl q). by etrans. }
    change (dedup (q :: k :: keys)) with (if decide (q = k) then dedup (k :: keys) else q :: dedup (k :: keys)).
    specialize (IH (Some k) Hs). cbn beta iota in IH. destruct (decide (q = k)) as [->|Hne].
    + rewrite decide_True by done. exact IH.
    + rewrite decide_False by congruence. by rewrite IH.
  - destruct (decide (None = Some k)); [done|]. apply (IH (Some k) Hs).
Qed.
Lemma batch_keys_unsorted keys : forall previous, is_Some (batch_keys previous keys) ->
  match previous with Some q => StronglySorted le_of (q :: keys) | None => StronglySorted le_of keys end.
Proof.
  induction keys as [|k keys IH]; intros previous Hs; [destruct previous; repeat constructor|]. cbn [batch_keys] in Hs.
  destruct (match previous with Some q => bool_decide (lt_of k q) | None => false end) eqn:Eb; [by destruct Hs|].
  assert (Hk : StronglySorted le_of (k :: keys)).
  { case_decide as Hd; [subst previous; exact (IH (Some k) Hs)|]. apply (IH (Some k)). by rewrite fmap_is_Some in Hs. }
  destruct previous as [q|]; [|done]. apply bool_decide_eq_false in Eb. apply not_lt_le in Eb. constructor; [done|].
  constructor; [done|]. apply StronglySorted_inv in Hk as [_ Hk]. eapply Forall_impl; [exact Hk|]. intros y Hy. by etrans.
Qed.

Lemma runs_skip key es x : exists pre rest,
  runs (skip_entries key es) x (Ok rest) x /\ es = pre ++ rest /\ Forall (fun e => lt_of (entry_key e) key) pre /\
  match head rest with Some e => le_of key (entry_key e) | None => True end.
Proof.
  induction es as [|e es (pre & rest & Hr & -> & Hp & Hh)]; cbn [skip_entries].
  - exists [], []. split_and!; [apply runs_ret|done|constructor|done].
  - destruct (decide (le_of key (entry_key e))) as [Hle|Hgt].
    + exists [], (e :: pre ++ rest). split_and!; [|done|constructor|done]. eapply runs_bind; [apply runs_check|]. apply runs_ret.
    + exists (e :: pre), rest. split_and!; [|done| |done]; [by eapply runs_bind; [apply runs_check|]|].
      constructor; [|done]. destruct (decide (lt_of (entry_key e) key)) as [|Hn]; [done|]. by apply not_lt_le in Hn.
Qed.

Definition limited_answer (limit : N) (key : str) : option (LimitedPosting W) := limited_of limit <$> answer ps key.
Definition looked_up (keys : list str) : list str := filter (fun k => valid_key st k = true) (normalize <$> keys).
Definition batch_error : GfmError :=
  format_error st path ("batch " +:+ store_name st +:+ " lookup " +:+ batch_noun st +:+ " must be sorted").

(** The entries left are those not before the previous key. *)
Definition walked (previous : option str) (es : list Entry) : Prop :=
  exists pre, archive_directory a = pre ++ es /\ match previous with Some q => Forall (fun e => lt_of (entry_key e) q) pre | None => pre = [] end.
Lemma walked_find previous es key pre rest : walked previous es -> match previous with Some q => lt_of q key | None => True end ->
  es = pre ++ rest -> Forall (fun e => lt_of (entry_key e) key) pre ->
  match head rest with Some e => le_of key (entry_key e) | None => True end ->
  walked (Some key) rest /\
  find_entry a key = match head rest with Some e => if decide (entry_key e = key) then Some e else None | None => None end.
Proof.
  intros (pre0 & Ed & Hp0) Hlt -> Hp Hh. rewrite app_assoc in Ed.
  assert (Hall : Forall (fun e => lt_of (entry_key e) key) (pre0 ++ pre)).
  { apply Forall_app. split; [|done]. destruct previous as [q|]; [|subst pre0; constructor]. eapply Forall_impl; [exact Hp0|]. intros e He. etrans; [exact He|done]. }
  split; [by exists (pre0 ++ pre)|]. pose proof directory_sorted as Hs. rewrite Ed in Hs.
  unfold find_entry. rewrite Ed. destruct rest as [|e rest]; cbn [head].
  - rewrite search_key_missing by (done || constructor). done.
  - case_decide as Hk.
    + rewrite (search_key_found entry_key key) by done. by apply list_lookup_middle.
    + assert (Hek : lt_of key (entry_key e)) by by apply le_lt_or_eq in Hh as [?|?]; [|congruence].
      rewrite search_key_missing; [done|done|]. constructor; [done|].
      apply StronglySorted_app_1_r, StronglySorted_inv in Hs as [_ Hs]. eapply Forall_impl; [exact Hs|]. intros e' He'. cbn in He'. by etrans.
Qed.
Lemma runs_batch_loop limit keys : forall es previous acc x, walked previous es ->
  runs (batch_loop st a limit es previous acc keys) x
    (match batch_keys previous (looked_up keys) with
     | Some ks => Ok (acc ++ omap (limited_answer limit) ks)
     | None => Err batch_error
     end) x.
Proof.
  induction keys as [|key keys IH]; intros es previous acc x Hw; cbn [batch_loop].
  { unfold looked_up. cbn. rewrite app_nil_r. apply runs_ret. }
  eapply runs_bind; [apply runs_check|]. eapply runs_bind; [apply runs_normalize_key|]. cbv beta.
  unfold looked_up. rewrite fmap_cons, filter_cons. fold (looked_up keys). set (k := normalize key) in *.
  destruct (valid_key st k) eqn:Ev; cbn [negb]; [rewrite (decide_True (P := true = true)) by done|rewrite (decide_False (P := false = true)) by done; by apply IH].
  cbn [batch_keys]. destruct (match previous with Some q => bool_decide (lt_of k q) | None => false end) eqn:Eb; [apply runs_fail|].
  case_decide as Hd; [by apply IH|].
  destruct (runs_skip k es x) as (pre & rest & Hr & E & Hp & Hh). eapply runs_bind; [exact Hr|]. cbv beta.
  assert (Hlt : match previous with Some q => lt_of q k | None => True end).
  { destruct previous as [q|]; [|done]. apply bool_decide_eq_false, not_lt_le, le_lt_or_eq in Eb as [?| ->]; done. }
  destruct (walked_find previous es k pre rest Hw Hlt E Hp Hh) as [Hw' Hf].
  assert (Hfound : runs (match head rest with
                  | Some e => if decide (entry_key e = k) then check_control ;; p <- limited_posting_for_entry_checked st a e limit ; mret [p] else mret []
                  | None => mret [] end) x (Ok (option_list (limited_answer limit k))) x).
  { pose proof (find_entry_spec k) as Hs. rewrite Hf in Hs. unfold limited_answer, answer. rewrite Ev.
    destruct (table ps !! k) as [vs|].
    - destruct Hs as (e & p & Ee & Hl & Ek & <-). destruct (head rest) as [e'|]; [|done]. case_decide as Hke; [|done]. injection Ee as ->.
      eapply runs_bind; [apply runs_check|]. eapply runs_bind; [apply (runs_limited_entry e p); [done|rewrite Ek; apply normalize_idem]|]. cbn. rewrite Ek. apply runs_ret.
    - destruct (head rest) as [e'|]; [|apply runs_ret]. case_decide; [done|apply runs_ret]. }
  eapply runs_bind; [exact Hfound|]. cbv beta. specialize (IH rest (Some k) (acc ++ option_list (limited_answer limit k)) x Hw').
  destruct (batch_keys (Some k) (looked_up keys)) as [ks|]; cbn [fmap option_fmap option_map]; [|exact IH].
  rewrite <- app_assoc in IH. cbn [omap list_omap]. by destruct (limited_answer limit k).
Qed.
Lemma runs_batch limit keys x : limit <> 0%N ->
  runs (postings_for_sorted_limit_checked st a keys limit) x
    (if decide (StronglySorted le_of (looked_up keys)) then Ok (omap (limited_answer limit) (dedup (looked_up keys))) else Err batch_error) x.
Proof.
  intros Hz. unfold postings_for_sorted_limit_checked. eapply runs_bind; [apply runs_check|]. rewrite decide_False by done.
  assert (Hw : walked None (archive_directory a)) by by exists [].
  pose proof (runs_batch_loop limit keys (archive_directory a) None [] x Hw) as Hr. case_decide as Hs.
  - rewrite (batch_keys_sorted (looked_up keys) None Hs) in Hr. eapply runs_bind; [exact Hr|]. eapply runs_bind; [apply runs_check|]. apply runs_ret.
  - destruct (batch_keys None (looked_up keys)) eqn:Eb; [|by eapply runs_bind_err].
    exfalso. apply Hs. by apply (batch_keys_unsorted (looked_up keys) None).
Qed.

(** *** The postings of some keys *)
Lemma runs_select keys x : runs (select_keys st keys) x (Ok (sort_dedup (looked_up keys))) x.
Proof.
  assert (E : foldl (fun selected key => if valid_key st (normalize key) then btree_insert (normalize key) selected else selected) [] keys =
    sort_dedup (looked_up keys)).
  { assert (Hg : forall ks acc, foldl (fun selected key => if valid_key st (normalize key) then btree_insert (normalize key) selected else selected) acc ks =
      foldl (fun acc k => btree_insert k acc) acc (looked_up ks)).
    { induction ks as [|k ks IH]; intros acc; [done|]. cbn [foldl]. rewrite IH. unfold looked_up at 2. rewrite fmap_cons, filter_cons.
      destruct (valid_key st (normalize k)); [by rewrite decide_True|by rewrite decide_False]. }
    rewrite Hg. generalize (looked_up keys). intros ks.
    assert (Hi : forall l acc : list str, StronglySorted lt_of acc ->
      StronglySorted lt_of (foldl (fun acc k => btree_insert k acc) acc l) /\ forall y : str, y ∈ foldl (fun acc k => btree_insert k acc) acc l <-> y ∈ acc \/ y ∈ l).
    { induction l as [|k l IH]; intros acc Hs; cbn [foldl]; [split; [done|set_solver]|].
      destruct (IH (btree_insert k acc) (btree_insert_sorted k acc Hs)) as [H1 H2]. split; [done|]. intros y. rewrite H2, btree_insert_elem. set_solver. }
    destruct (Hi ks [] ltac:(constructor)) as [H1 H2]. apply lt_sorted_unique; [done|apply sort_dedup_sorted|].
    intros y. rewrite H2, sort_dedup_elem. set_solver. }
  rewrite <- E. apply (runs_for _ (fun selected key => if valid_key st (normalize key) then btree_insert (normalize key) selected else selected)).
  intros b key x0. eapply runs_bind; [apply runs_check|]. eapply runs_bind; [apply runs_normalize_key|]. apply runs_ret.
Qed.

Lemma runs_postings_for keys x : runs (postings_for_checked st a keys) x (Ok (omap (answer ps) (sort_dedup (looked_up keys)))) x.
Proof.
  unfold postings_for_checked. eapply runs_bind; [apply runs_select|]. cbv beta.
  assert (Hn : Forall (fun k => normalize k = k) (sort_dedup (looked_up keys))).
  { apply Forall_forall. intros k Hk. apply (sort_dedup_elem k (looked_up keys)) in Hk. unfold looked_up in Hk.
    apply list_elem_of_filter in Hk as [_ (v & -> & _)%list_elem_of_fmap]. apply normalize_idem. }
  assert (Hg : forall ks acc, Forall (fun k => normalize k = k) ks ->
    runs (mfor (fun acc key => p <- posting_for_checked st a key ; mret (acc ++ option_list p)) acc ks) x (Ok (acc ++ omap (answer ps) ks)) x).
  { induction ks as [|k ks IH]; intros acc Hks; cbn [mfor]; [rewrite app_nil_r; apply runs_ret|].
    apply Forall_cons in Hks as [Hk Hks]. eapply runs_bind; [eapply runs_bind; [apply runs_posting_for|]; apply runs_ret|]. cbv beta.
    rewrite Hk. specialize (IH (acc ++ option_list (answer ps k)) Hks). rewrite <- app_assoc in IH. cbn [omap list_omap].
    by destruct (answer ps k). }
  apply (Hg _ [] Hn).
Qed.
Lemma runs_postings_for_limit keys limit x : limit <> 0%N ->
  runs (postings_for_limit_checked st a keys limit) x
    (Ok (limited_posting <$> omap (limited_answer limit) (sort_dedup (looked_up keys)))) x.
Proof.
  intros Hz. unfold postings_for_limit_checked. eapply runs_bind; [apply runs_select|]. cbv beta.
  set (ks := sort_dedup (looked_up keys)). assert (Hks : StronglySorted lt_of ks) by apply sort_dedup_sorted.
  assert (El : looked_up ks = ks).
  { assert (Hk : Forall (fun k => valid_key st k = true /\ normalize k = k) ks).
    { apply Forall_forall. intros k Hk. apply (sort_dedup_elem k (looked_up keys)) in Hk. unfold looked_up in Hk.
      apply list_elem_of_filter in Hk as [Hv (v & -> & _)%list_elem_of_fmap]. split; [done|apply normalize_idem]. }
    clear Hks. clearbody ks. unfold looked_up. induction Hk as [|k l [Hv Hn] Hl IH]; [done|].
    rewrite fmap_cons, filter_cons, Hn, decide_True by done. by rewrite IH. }
  pose proof (runs_batch limit ks x Hz) as Hr. rewrite El in Hr. rewrite decide_True in Hr by by apply lt_sorted_le.
  rewrite dedup_strict in Hr by done. eapply runs_bind; [exact Hr|]. apply runs_ret.
Qed.
End Held.
End Spec.

(** ** Under any closure *)
Section Polls.
Context {W : Type} {st : Store W} {values_ok : list W -> Prop} {canon : list W -> list W} `{!StoreLaws st values_ok canon} `{Unicode} {S : Type}.
Implicit Types (a : Archive).

Lemma cooperative_read_posting path : cooperative (read_posting_checked st path).
Proof. unfold read_posting_checked. codec_auto. Qed.
#[local] Hint Resolve cooperative_read_posting : ctl.
Lemma cooperative_posting_for a key : cooperative (posting_for_checked (S := S) st a key).
Proof.
  unfold posting_for_checked. apply cooperative_bind; [codec_auto|]. intros _. apply cooperative_bind; [codec_auto|]. intros k.
  destruct (negb _); [codec_auto|]. apply cooperative_bind; [codec_auto|]. intros _. destruct (find_entry a k); [|codec_auto].
  apply cooperative_bind; [codec_auto|]. intros _. apply cooperative_bind; [codec_auto|]. intros bs.
  apply cooperative_bind; [|intros; codec_auto]. apply cooperative_cursor. unfold read_posting. destruct (lookup_polls st); codec_auto.
Qed.
Lemma cooperative_limited_entry a e limit : cooperative (limited_posting_for_entry_checked (S := S) st a e limit).
Proof. unfold limited_posting_for_entry_checked. codec_auto. Qed.
#[local] Hint Resolve cooperative_posting_for cooperative_limited_entry : ctl.
Lemma cooperative_values_for a key : cooperative (values_for_checked (S := S) st a key).
Proof. unfold values_for_checked. codec_auto. Qed.
Lemma cooperative_values_for_limit a key limit : cooperative (values_for_limit_checked (S := S) st a key limit).
Proof. unfold values_for_limit_checked. codec_auto. Qed.
Lemma cooperative_skip key es : cooperative (skip_entries (S := S) key es).
Proof. induction es as [|e es IH]; cbn [skip_entries]; codec_auto. Qed.
#[local] Hint Resolve cooperative_skip : ctl.
Lemma cooperative_batch a keys limit : cooperative (postings_for_sorted_limit_checked (S := S) st a keys limit).
Proof.
  unfold postings_for_sorted_limit_checked.
  assert (Hl : forall ks es q acc, cooperative (batch_loop (S := S) st a limit es q acc ks)).
  { induction ks as [|k ks IH]; intros; cbn [batch_loop]; codec_auto. }
  codec_auto.
Qed.
#[local] Hint Resolve cooperative_batch : ctl.
Lemma cooperative_select keys : cooperative (select_keys (S := S) st keys).
Proof. unfold select_keys. codec_auto. Qed.
#[local] Hint Resolve cooperative_select : ctl.
Lemma cooperative_postings_for a keys : cooperative (postings_for_checked (S := S) st a keys).
Proof. unfold postings_for_checked. codec_auto. Qed.
Lemma cooperative_postings_for_limit a keys limit : cooperative (postings_for_limit_checked (S := S) st a keys limit).
Proof. unfold postings_for_limit_checked. codec_auto. Qed.
Lemma cooperative_postings a : cooperative (postings (S := S) st a).
Proof. unfold postings, read_posting. codec_auto. Qed.
Lemma cooperative_open_bytes p bs : cooperative (open_bytes (S := S) st p bs).
Proof. unfold open_bytes, read_directory_from_slice. codec_auto. Qed.
End Polls.
#[export] Hint Resolve cooperative_posting_for cooperative_values_for cooperative_values_for_limit cooperative_batch
  cooperative_postings_for cooperative_postings_for_limit cooperative_postings cooperative_open_bytes : ctl.

(** ** Archives of ids *)
Lemma runs_ids_limited path limit ids rest : vec_ok ids -> exists rest',
  runs (read_ids_limited path limit) (write_blocked_file_ids ids ++ rest)
    (Ok (take (N.to_nat limit) (sort_dedup ids), (limit <? N.of_nat (length (sort_dedup ids)))%N)) rest'.
Proof.
  intros Hv. eexists. unfold read_ids_limited. eapply runs_bind; [apply runs_get|]. cbv beta. eapply runs_bind; [apply runs_check|].
  eapply runs_bind.
  { unfold read_blocked_file_ids_limited_from_slice_checked.
    eapply runs_bind; [apply (runs_limited path _ _ _ (stored_v2 _ Hv))|]. cbv beta. cbn [limited_ids]. apply runs_ret. }
  cbv beta. destruct (sorted_ok _ Hv) as (Hl & _). set (l := sort_dedup ids) in *.
  assert (E : take (N.to_nat (saturating_add limit 1)) l = l /\ (N.of_nat (length l) <= limit)%N \/
    saturating_add limit 1 = (limit + 1)%N).
  { unfold saturating_add. destruct (N.le_gt_cases (limit + 1) (U64 - 1)) as [Hle|Hgt]; [right; lia|left].
    unfold U64 in *. split; [apply take_ge; lia|lia]. }
  destruct E as [[-> Hle]| ->]; [apply runs_ret|]. rewrite take_take, length_take, Nat.min_l by lia.
  replace (limit <? N.of_nat (N.to_nat (limit + 1) `min` length l))%N with (limit <? N.of_nat (length l))%N; [apply runs_ret|].
  destruct (N.ltb_spec limit (N.of_nat (length l))), (N.ltb_spec limit (N.of_nat (N.to_nat (limit + 1) `min` length l))); done || lia.
Qed.
Lemma cooperative_ids_limited path limit : cooperative (read_ids_limited path limit).
Proof. unfold read_ids_limited, read_blocked_file_ids_limited_from_slice_checked. codec_auto. Qed.
#[export] Hint Resolve cooperative_ids_limited : ctl.
Section IdArchive.
Context {st : Store FileId} `{!StoreLaws st vec_ok sort_dedup} `{Unicode} (Hw : forall ids, write_values st ids = write_blocked_file_ids ids).
Context (a : Archive) (ps : list (Posting FileId)) (Ha : holds (st := st) (values_ok := vec_ok) a ps) {S : Type}.
Implicit Types (x : S).
Let path := show (archive_path a).

Lemma runs_ids_volume key v limit x :
  runs (ids_for_volume_limit_checked st a key v limit) x
    (Ok (match answer (st := st) (canon := sort_dedup) ps (normalize key) with
         | Some p => let on_volume := filter (fun id => file_volume id = v) (posting_values p) in
                     (take (N.to_nat limit) on_volume, (0 <? limit)%N && (limit <? N.of_nat (length on_volume))%N)
         | None => ([], false)
         end)) x.
Proof.
  unfold ids_for_volume_limit_checked. eapply runs_bind; [apply runs_check|]. eapply runs_bind; [apply runs_normalize_key|]. cbv beta.
  unfold answer. destruct (valid_key st (normalize key)); cbn [negb orb]; [|apply runs_ret].
  destruct (N.eqb_spec limit 0) as [->|Hz]; [destruct (table ps !! _); apply runs_ret|].
  eapply runs_bind; [apply runs_check|]. pose proof (find_entry_spec a ps Ha (normalize key)) as Hf.
  destruct (table ps !! normalize key) as [vs|]; [|rewrite Hf; apply runs_ret].
  destruct Hf as (e & p & -> & Hl & Ek & <-). pose proof (posting_text a e p Hl) as (Ew & Hs & Hn & Hv). rewrite Ek, normalize_idem in Ew, Hs, Hn.
  pose proof Hl as [[Hk _ _] _]. eapply runs_bind; [apply runs_check|]. rewrite (leads_bytes a e p Hl).
  eapply runs_bind; [apply runs_lift|]. cbv beta. rewrite Ew, Hw.
  eapply runs_cursor. eapply runs_bind; [by apply law_key|]. cbv beta. rewrite decide_False by by rewrite Hk, Ek; intros Hx.
  eapply runs_bind; [apply runs_get|]. cbv beta. eapply runs_bind; [apply runs_check|].
  pose proof (runs_volume path _ _ _ (stored_v2 _ Hv) (S := bytes) [] v limit) as Hr. rewrite app_nil_r in Hr. apply Hr.
Qed.
Lemma runs_id_block key k x :
  runs (id_block_for st a key k) x
    (match answer (st := st) (canon := sort_dedup) ps (normalize key) with
     | Some p => if decide (128 * N.to_nat k < length (posting_values p)) then Ok (take 128 (drop (128 * N.to_nat k) (posting_values p)))
                 else Err (id_format_error path "id block index out of bounds")
     | None => Ok []
     end) x.
Proof.
  unfold id_block_for. cbv zeta. unfold answer. destruct (valid_key st (normalize key)); cbn [negb]; [|apply runs_ret].
  pose proof (find_entry_spec a ps Ha (normalize key)) as Hf.
  destruct (table ps !! normalize key) as [vs|]; [|rewrite Hf; apply runs_ret].
  destruct Hf as (e & p & -> & Hl & Ek & <-). pose proof (posting_text a e p Hl) as (Ew & Hs & Hn & Hv). rewrite Ek, normalize_idem in Ew, Hs, Hn.
  rewrite (leads_bytes a e p Hl). eapply runs_bind; [apply runs_lift|]. cbv beta. rewrite Ew, Hw. cbn [fmap option_fmap option_map posting_values].
  eapply runs_cursor. eapply runs_bind; [by apply law_key|]. eapply runs_bind; [apply runs_get|]. cbv beta.
  pose proof (runs_one_block path _ _ _ (stored_v2 _ Hv) (S := bytes) [] k) as Hr. rewrite app_nil_r in Hr.
  specialize (Hr (write_blocked_file_ids (posting_values p))). unfold parts_of in Hr.
  rewrite list_lookup_fmap, chunks_lookup in Hr by (unfold DEFAULT_ID_BLOCK_SIZE; lia). change DEFAULT_ID_BLOCK_SIZE with 128 in Hr.
  by destruct (decide _).
Qed.
Lemma cooperative_ids_volume key v limit : cooperative (ids_for_volume_limit_checked (S := S) st a key v limit).
Proof. unfold ids_for_volume_limit_checked. codec_auto. Qed.
End IdArchive.
#[export] Hint Resolve cooperative_ids_volume : ctl.
