(* ===== verification/PrefixStore.v ===== *)
(** * The prefix archive ([crates/store/src/prefix.rs])

    The ids of the records whose name has a word with a given prefix.  The archive
    itself is [PostingStore] with the [Store] below; here is also how the postings
    are made from records. *)
From Stdlib Require Import Ascii.
From S2P Require Import Prelude Types Text Order Chars Records Control Fuzzy Inverted Codec Utf8 StoreIds StoreIdsSpec FileSystem TextFiles TrashMeta Durable PostingStore PostingStoreSpec.
#[local] Open Scope string_scope.
#[local] Open Scope list_scope.

Definition LF : ascii := "010"%char.
Definition PREFIX_MAGIC_V1 : bytes := literal "gfm-prefix-v1" ++ [LF].
Definition PREFIX_INDEX_FOOTER : bytes := literal "gfm-prefix-index-v1" ++ [LF].
Definition PREFIX_CHECKSUM_FOOTER : bytes := literal "gfm-prefix-checksum-v1" ++ [LF].

Definition prefix_format_error (path reason : string) : GfmError :=
  Format ("invalid prefix store " +:+ path +:+ ": " +:+ reason).
Definition read_prefix_posting_header (path : string) : M bytes str :=
  read_text path (fun err => prefix_format_error path ("invalid UTF-8 prefix in archive: " +:+ err)).
Definition read_prefix_directory_key (path : string) : M bytes str :=
  read_text path (fun err => prefix_format_error path ("invalid UTF-8 prefix in directory: " +:+ err)).

Definition prefix_store : Store FileId := {|
  store_name := "prefix";
  store_magic := PREFIX_MAGIC_V1;
  store_index_footer := PREFIX_INDEX_FOOTER;
  store_checksum_footer := PREFIX_CHECKSUM_FOOTER;
  valid_key k := negb (bool_decide (k = []));
  batch_noun := "terms";
  read_key := read_prefix_posting_header;
  read_directory_key := read_prefix_directory_key;
  write_values := write_blocked_file_ids;
  read_values := read_blocked_file_ids_checked;
  read_values_limited := read_ids_limited;
  lookup_polls := false
|}.

(** ** From records

    [token_prefixes] is that of the search crate, word for word. *)
Section FromRecords.
Context `{Unicode}.
Definition tokenize (value : str) : list str :=
  filter (fun part => part <> []) (split_by (fun c => negb (is_alphanumeric c)) value).
Definition prefix_pairs (r : FileRecord) : list (str * FileId) :=
  mjoin ((fun token => (fun prefix => (prefix, record_id r)) <$> token_prefixes token) <$> tokenize (normalize (record_name r))).
Definition prefix_postings_from_records (records : list FileRecord) : list (Posting FileId) :=
  (fun p => mkPosting p.1 p.2) <$> inverted (mjoin (prefix_pairs <$> records)).
End FromRecords.

#[export] Instance prefix_laws : StoreLaws prefix_store vec_ok sort_dedup.
Proof.
  split; cbn.
  - intros. by apply runs_read_text.
  - intros. by apply runs_read_text.
  - intros. by apply (runs_read_all _ _ _ _ (stored_v2 _ ltac:(eassumption))).
  - intros. by apply runs_ids_limited.
  - intros. apply cooperative_read_text.
  - intros. apply cooperative_read_all.
  - intros. apply cooperative_ids_limited.
Qed.
