(* ===== verification/SubstringStore.v ===== *)
(** * The substring archive ([crates/store/src/substring.rs])

    The ids of the records whose name has a given three-character substring.  The
    archive is [PostingStore] with the [Store] below. *)
From Stdlib Require Import Ascii.
From S2P Require Import Prelude Types Text Order Chars Records Control Inverted Codec Utf8 StoreIds StoreIdsSpec FileSystem TextFiles TrashMeta Durable PostingStore PostingStoreSpec PrefixStore.
#[local] Open Scope string_scope.
#[local] Open Scope list_scope.

Definition SUBSTRING_MAGIC_V1 : bytes := literal "gfm-substring-v1" ++ [LF].
Definition SUBSTRING_INDEX_FOOTER : bytes := literal "gfm-substring-index-v1" ++ [LF].
Definition SUBSTRING_CHECKSUM_FOOTER : bytes := literal "gfm-substring-checksum-v1" ++ [LF].
Definition SUBSTRING_GRAM_CHARS : nat := 3.

Definition substring_format_error (path reason : string) : GfmError :=
  Format ("invalid substring store " +:+ path +:+ ": " +:+ reason).
Definition read_substring_posting_header (path : string) : M bytes str :=
  read_text path (fun err => substring_format_error path ("invalid UTF-8 substring gram in archive: " +:+ err)).
Definition read_substring_directory_key (path : string) : M bytes str :=
  read_text path (fun err => substring_format_error path ("invalid UTF-8 gram in directory: " +:+ err)).
Definition is_substring_gram (value : str) : bool := bool_decide (length value = SUBSTRING_GRAM_CHARS).

Definition substring_store : Store FileId := {|
  store_name := "substring";
  store_magic := SUBSTRING_MAGIC_V1;
  store_index_footer := SUBSTRING_INDEX_FOOTER;
  store_checksum_footer := SUBSTRING_CHECKSUM_FOOTER;
  valid_key := is_substring_gram;
  batch_noun := "grams";
  read_key := read_substring_posting_header;
  read_directory_key := read_substring_directory_key;
  write_values := write_blocked_file_ids;
  read_values := read_blocked_file_ids_checked;
  read_values_limited := read_ids_limited;
  lookup_polls := true
|}.

(** ** From records *)

(** [slice::windows] over the starts of the characters and the end. *)
Definition gram_windows {A} (n : nat) (l : list A) : list (list A) :=
  (fun i => take n (drop i l)) <$> seq 0 (length l + 1 - n).
Definition substring_grams (value : str) : list str :=
  let starts := seq 0 (length value) ++ [length value] in
  if decide (length starts <= SUBSTRING_GRAM_CHARS) then []
  else
    sort_dedup ((fun window =>
      let s := window !!! 0 in let e := window !!! SUBSTRING_GRAM_CHARS in take (e - s) (drop s value))
      <$> gram_windows (SUBSTRING_GRAM_CHARS + 1) starts).
Section FromRecords.
Context `{Unicode}.
Definition substring_pairs (r : FileRecord) : list (str * FileId) :=
  (fun gram => (gram, record_id r)) <$> substring_grams (normalize (record_name r)).
Definition substring_postings_from_records (records : list FileRecord) : list (Posting FileId) :=
  (fun p => mkPosting p.1 p.2) <$> inverted (mjoin (substring_pairs <$> records)).
End FromRecords.

(** ** The functions of the module: those of [PostingStore] at its store. *)
Section Functions.
Context `{Unicode}.
Definition substring_write_posting := write_posting substring_store.
Definition substring_write_postings_checked {X} `{Platform, Process} := write_postings_checked (X := X) substring_store.
Definition substring_read_posting_checked := read_posting_checked substring_store.
Definition substring_read_posting := read_posting substring_store.
Definition substring_verify_checksum_from_slice := verify_checksum_from_slice substring_store.
Definition substring_indexed_len_from_slice := indexed_len_from_slice substring_store.
Definition substring_read_directory_from_slice {S} := read_directory_from_slice (S := S) substring_store.
Definition substring_open_checked {X} `{Platform, Mmap} := open_checked (X := X) substring_store.
Definition substring_posting_bytes := posting_bytes substring_store.
Definition substring_posting_for_checked {S} := posting_for_checked (S := S) substring_store.
Definition substring_ids_for_checked {S} := values_for_checked (S := S) substring_store.
Definition substring_limited_posting_for_entry_checked {S} := limited_posting_for_entry_checked (S := S) substring_store.
Definition substring_ids_for_limit_checked {S} := values_for_limit_checked (S := S) substring_store.
Definition substring_postings_for_sorted_grams_limit_checked {S} := postings_for_sorted_limit_checked (S := S) substring_store.
Definition substring_postings {S} := postings (S := S) substring_store.
Definition substring_postings_for_checked {S} := postings_for_checked (S := S) substring_store.
Definition substring_postings_for_limit_checked {S} := postings_for_limit_checked (S := S) substring_store.
Definition substring_ids_for_volume_limit_checked {S} := ids_for_volume_limit_checked (S := S) substring_store.
Definition substring_id_block_for {S} := id_block_for (S := S) substring_store.
Definition substring_indexed_grams := indexed_keys.
Definition substring_mapped_len := mapped_len.
Definition substring_is_checksummed := is_checksummed substring_store.
End Functions.

#[export] Instance substring_laws : StoreLaws substring_store vec_ok sort_dedup.
Proof.
  split; cbn.
  - intros. by apply runs_read_text.
  - intros. by apply runs_read_text.
  - intros. by apply (runs_read_all _ _ _ _ (stored_v2 _ ltac:(eassumption))).
  - intros. by apply runs_ids_limited.
  - intros. apply cooperative_read_text.
  - intros. apply cooperative_read_all.
  - intros. apply cooperative_ids_limited.
Qed.

Lemma windows_starts (v : str) : SUBSTRING_GRAM_CHARS < length v + 1 ->
  gram_windows 4 (seq 0 (length v) ++ [length v]) = (fun i => seq i 4) <$> seq 0 (length v - 2).
Proof.
  unfold SUBSTRING_GRAM_CHARS. intros Hl. change (seq 0 (length v) ++ [length v]) with (seq 0 (length v) ++ [0 + length v]).
  rewrite <- seq_S. unfold gram_windows. rewrite length_seq. replace (S (length v) + 1 - 4) with (length v - 2) by lia.
  apply list_fmap_ext. intros j i Hi. apply lookup_seq in Hi as [-> Hj]. cbn [Nat.add].
  rewrite drop_seq, take_seq. f_equal; lia.
Qed.
Lemma store_grams_elem v g : g ∈ substring_grams v <-> length g = 3 /\ exists a b, v = a ++ g ++ b.
Proof.
  unfold substring_grams. cbv zeta. rewrite (length_app (seq _ _)), length_seq. cbn [length].
  case_decide as Hd; unfold SUBSTRING_GRAM_CHARS in *.
  - split; [by intros ?%elem_of_nil|]. intros (Hg & a & b & E). apply (f_equal length) in E. rewrite !length_app in E. lia.
  - rewrite sort_dedup_elem. cbn [Nat.add]. rewrite windows_starts by (unfold SUBSTRING_GRAM_CHARS; lia).
    rewrite <- list_fmap_compose, list_elem_of_fmap. split.
    + intros (i & -> & [_ Hi]%elem_of_seq). cbn. rewrite length_take, length_drop. split; [lia|].
      exists (take i v), (drop 3 (drop i v)). replace (S (S (S i)) - i) with 3 by lia. by rewrite !take_drop.
    + intros (Hg & a & b & ->). exists (length a). split.
      * cbn. replace (S (S (S (length a))) - length a) with 3 by lia. rewrite drop_app_length. symmetry. by apply take_app_length'.
      * apply elem_of_seq. rewrite !length_app in *. lia.
Qed.
