(* ===== verification/FuzzyStore.v ===== *)
(** * The fuzzy archive ([crates/store/src/fuzzy.rs])

    The indexed words of the names, under every string left of them by at most two
    deletions.  The archive is [PostingStore] with the [Store] below, whose values
    are words. *)
From Stdlib Require Import Ascii.
From S2P Require Import Prelude Types Text Order Chars Records Control Fuzzy Inverted Codec Utf8 StoreIds StoreIdsSpec FileSystem TextFiles TrashMeta Durable PostingStore PostingStoreSpec PrefixStore.
#[local] Open Scope string_scope.
#[local] Open Scope list_scope.

Definition FUZZY_MAGIC_V1 : bytes := literal "gfm-fuzzy-v1" ++ [LF].
Definition FUZZY_INDEX_FOOTER : bytes := literal "gfm-fuzzy-index-v1" ++ [LF].
Definition FUZZY_CHECKSUM_FOOTER : bytes := literal "gfm-fuzzy-checksum-v1" ++ [LF].
Definition FUZZY_MAX_DELETIONS : nat := 2.

Definition fuzzy_format_error (path reason : string) : GfmError :=
  Format ("invalid fuzzy store " +:+ path +:+ ": " +:+ reason).
Definition read_string_checked (path label : string) : M bytes str :=
  check_control ;;
  len <- read_varint path ;
  check_control ;;
  value <- read_exact path len ;
  check_control ;;
  mlift (string_from (fun err => fuzzy_format_error path ("invalid UTF-8 " +:+ label +:+ ": " +:+ err)) value).
Definition read_fuzzy_directory_key (path : string) : M bytes str := unpolled (read_string_checked path "directory key").

(** The words of a posting. *)
Definition read_term (path : string) (terms : list str) (_ : N) : M bytes (list str) :=
  check_control ;; term <- read_string_checked path "term" ; mret (terms ++ [term]).
Definition read_terms (path : string) : M bytes (list str) :=
  count <- read_varint path ; mtimes (read_term path) [] 0 (N.to_nat count).
Definition read_terms_limited (path : string) (limit : N) : M bytes (list str * bool) :=
  check_control ;;
  count <- read_varint path ;
  terms <- mtimes (read_term path) [] 0 (N.to_nat (N.min count limit)) ;
  check_control ;;
  mret (terms, (limit <? count)%N).

Section Fuzzy.
Context `{Unicode}.

(** What of the words is written. *)
Definition kept_terms (terms : list str) : list str := sort_dedup (filter (fun term => term <> []) (normalize <$> terms)).
Definition write_terms (terms : list str) : bytes :=
  let terms := kept_terms terms in write_varint (N.of_nat (length terms)) ++ mjoin (write_text <$> terms).

Definition fuzzy_store : Store str := {|
  store_name := "fuzzy";
  store_magic := FUZZY_MAGIC_V1;
  store_index_footer := FUZZY_INDEX_FOOTER;
  store_checksum_footer := FUZZY_CHECKSUM_FOOTER;
  valid_key k := negb (bool_decide (k = []));
  batch_noun := "keys";
  read_key path := read_string_checked path "key";
  read_directory_key := read_fuzzy_directory_key;
  write_values := write_terms;
  read_values := read_terms;
  read_values_limited := read_terms_limited;
  lookup_polls := true
|}.

(** *** The functions of the module: those of [PostingStore] at its store. *)
Definition fuzzy_write_posting := write_posting fuzzy_store.
Definition fuzzy_write_postings_checked {X} `{Platform, Process} := write_postings_checked (X := X) fuzzy_store.
Definition fuzzy_read_posting_checked := read_posting_checked fuzzy_store.
Definition fuzzy_read_posting := read_posting fuzzy_store.
Definition fuzzy_verify_checksum_from_slice := verify_checksum_from_slice fuzzy_store.
Definition fuzzy_indexed_len_from_slice := indexed_len_from_slice fuzzy_store.
Definition fuzzy_read_directory_from_slice {S} := read_directory_from_slice (S := S) fuzzy_store.
Definition fuzzy_open_checked {X} `{Platform, Mmap} := open_checked (X := X) fuzzy_store.
Definition fuzzy_posting_bytes := posting_bytes fuzzy_store.
Definition fuzzy_posting_for_checked {S} := posting_for_checked (S := S) fuzzy_store.
Definition fuzzy_terms_for_checked {S} := values_for_checked (S := S) fuzzy_store.
Definition fuzzy_limited_posting_for_entry_checked {S} := limited_posting_for_entry_checked (S := S) fuzzy_store.
Definition fuzzy_terms_for_limit_checked {S} := values_for_limit_checked (S := S) fuzzy_store.
Definition fuzzy_postings_for_sorted_keys_limit_checked {S} := postings_for_sorted_limit_checked (S := S) fuzzy_store.
Definition fuzzy_postings {S} := postings (S := S) fuzzy_store.
Definition fuzzy_indexed_keys := indexed_keys.
Definition fuzzy_mapped_len := mapped_len.
Definition fuzzy_is_checksummed := is_checksummed fuzzy_store.

(** [MmapFuzzyArchive::postings_for_checked], which is a batch without a limit. *)
Definition fuzzy_postings_for_checked {S} (a : Archive) (keys : list str) : M S (list (Posting str)) :=
  postings_for_limit_checked fuzzy_store a keys (U64 - 1).

(** ** From records

    [is_fuzzy_term] and [collect_deletions] are those of the search crate, word for
    word; here the keys of a term that is not a fuzzy one are none. *)
Definition store_deletion_keys (term : str) (max_deletions : nat) : list str :=
  if negb (is_fuzzy_term term) then [] else collect_deletions max_deletions term [].
Definition fuzzy_terms_of (records : list FileRecord) : list str :=
  foldl (fun terms token => if is_fuzzy_term token then btree_insert token terms else terms) []
    (mjoin ((fun r => tokenize (normalize (record_name r))) <$> records)).
Definition fuzzy_postings_from_records (records : list FileRecord) : list (Posting str) :=
  (fun p => mkPosting p.1 p.2) <$> inverted (mjoin ((fun token =>
    (fun key => (key, token)) <$> store_deletion_keys token FUZZY_MAX_DELETIONS) <$> fuzzy_terms_of records)).
End Fuzzy.

(** ** The coding of the words *)
Lemma runs_read_string path label s rest : str_ok s -> (N.of_nat (str_len s) < U64)%N ->
  runs (read_string_checked path label) (write_text s ++ rest) (Ok s) rest.
Proof.
  intros Hs Hl. unfold read_string_checked, write_text. rewrite <- app_assoc. eapply runs_bind; [apply runs_check|].
  eapply runs_bind; [by apply runs_read_varint|]. cbv beta. eapply runs_bind; [apply runs_check|].
  eapply runs_bind; [apply runs_read_exact; by rewrite as_bytes_length|]. cbv beta. eapply runs_bind; [apply runs_check|].
  unfold string_from. rewrite from_utf8_as_bytes by done. apply runs_lift.
Qed.
Lemma cooperative_read_string path label : cooperative (read_string_checked path label).
Proof. unfold read_string_checked. codec_auto. Qed.
#[export] Hint Resolve cooperative_read_string : ctl.

Definition terms_ok `{Unicode} (terms : list str) : Prop :=
  (N.of_nat (length (kept_terms terms)) < U64)%N /\ Forall (fun t => str_ok t /\ (N.of_nat (str_len t) < U64)%N) (kept_terms terms).
Lemma runs_read_terms path ts rest : Forall (fun t => str_ok t /\ (N.of_nat (str_len t) < U64)%N) ts ->
  runs (mtimes (read_term path) [] 0 (length ts)) (mjoin (write_text <$> ts) ++ rest) (Ok ts) rest.
Proof.
  intros Hts. pose proof (runs_times (read_term path) write_text (fun acc t => acc ++ [t]) rest ts [] 0) as Ht.
  rewrite (foldl_snoc_map id), list_fmap_id in Ht. apply Ht. intros l1 t l2 -> j tail.
  apply Forall_app in Hts as [_ [[Hs Hl] _]%Forall_cons].
  unfold read_term. eapply runs_bind; [apply runs_check|]. eapply runs_bind; [by apply runs_read_string|]. apply runs_ret.
Qed.

#[export] Instance fuzzy_laws `{Unicode} : StoreLaws fuzzy_store terms_ok kept_terms.
Proof.
  split; cbn.
  - intros. by apply runs_read_string.
  - intros. by apply runs_unpolled, runs_read_string.
  - intros path vs rest [Hn Hv]. unfold read_terms, write_terms. cbv zeta. rewrite <- app_assoc.
    eapply runs_bind; [by apply runs_read_varint|]. cbv beta. rewrite Nat2N.id. by apply runs_read_terms.
  - intros path limit vs rest [Hn Hv]. set (ts := kept_terms vs) in *. set (k := N.to_nat limit).
    exists (mjoin (write_text <$> drop k ts) ++ rest). unfold read_terms_limited, write_terms. cbv zeta. fold ts. rewrite <- app_assoc.
    eapply runs_bind; [apply runs_check|]. eapply runs_bind; [by apply runs_read_varint|]. cbv beta.
    replace (N.to_nat (N.min (N.of_nat (length ts)) limit)) with (length (take k ts)) by (rewrite length_take; lia).
    rewrite <- (take_drop k ts) at 2. rewrite fmap_app, join_app, <- app_assoc.
    eapply runs_bind; [by apply runs_read_terms, Forall_take|]. eapply runs_bind; [apply runs_check|]. apply runs_ret.
  - intros. apply cooperative_read_string.
  - intros. unfold read_terms, read_term. codec_auto.
  - intros. unfold read_terms_limited, read_term. codec_auto.
Qed.
