(* ===== verification/IndexSpec.v ===== *)
(** * The archives of an index: the theorems

    An archive written from postings opens and answers as the finite map of them;
    an archive written from file records answers for the names of the records. *)
From Stdlib Require Import Ascii.
From S2P Require Import Prelude Types Text Order Chars Records Control Fuzzy Inverted Codec Utf8 BinarySearch StoreIds StoreIdsSpec FileSystem TextFiles TrashMeta Durable PostingStore PostingStoreSpec PrefixStore SubstringStore FuzzyStore.
#[local] Open Scope string_scope.
#[local] Open Scope list_scope.

(** ** Archives of an inverted index *)
Definition postings_of {W} (m : list (str * list W)) : list (Posting W) := (fun p => mkPosting p.1 p.2) <$> m.

Section Of.
Context {W : Type} `{TotalOrd W} `{EqDecision W} {st : Store W} {values_ok : list W -> Prop} {canon : list W -> list W}
  `{!StoreLaws st values_ok canon} `{Unicode}.
Implicit Types (l : list (str * W)).

Lemma postings_of_keys (m : list (str * list W)) : posting_key <$> postings_of m = m.*1.
Proof. unfold postings_of. by rewrite <- list_fmap_compose. Qed.
Lemma inverted_NoDup l : NoDup (posting_key <$> postings_of (inverted l)).
Proof. rewrite postings_of_keys. apply lt_sorted_NoDup. by destruct (inverted_ok l). Qed.
Lemma inverted_postings_ok l :
  (forall k v, (k, v) ∈ l -> str_ok k) -> (forall k, values_ok (values_under l k)) ->
  (N.of_nat (length (archive_bytes (st := st) (postings_of (inverted l)))) < U64)%N ->
  postings_ok (st := st) (values_ok := values_ok) (postings_of (inverted l)).
Proof.
  intros Hk Hv Hl. split; [apply inverted_NoDup|]. split; [|done]. apply Forall_fmap, Forall_forall. intros [k vs] Hin. cbn.
  apply inverted_elem in Hin as [-> Hne]. split; [|apply Hv]. destruct (values_under l k) as [|v vs] eqn:E; [done|].
  apply (Hk k v). rewrite <- values_under_elem, E. by left.
Qed.
Lemma table_inverted l k :
  table (sort_postings (postings_of (inverted l))) !! k = if decide (values_under l k = []) then None else Some (values_under l k).
Proof.
  rewrite (table_perm _ (postings_of (inverted l))); [| |apply sort_by_perm].
  2:{ unfold sort_postings. rewrite (sort_by_perm posting_key). apply inverted_NoDup. }
  case_decide as E.
  - apply table_none. rewrite postings_of_keys. intros Hin%inverted_keys. done.
  - apply (table_elem _ (mkPosting k (values_under l k))); [apply inverted_NoDup|].
    apply list_elem_of_fmap. exists (k, values_under l k). split; [done|]. by apply inverted_lookup.
Qed.
Lemma answer_inverted l k : canon [] = [] ->
  from_option posting_values [] (answer (st := st) (canon := canon) (sort_postings (postings_of (inverted l))) k) =
    if valid_key st k then canon (values_under l k) else [].
Proof.
  intros Hc. unfold answer. destruct (valid_key st k); [|done]. rewrite table_inverted. case_decide as E; [by rewrite E, Hc|done].
Qed.
End Of.

Lemma sort_dedup_sorted_id {A} `{TotalOrd A} `{EqDecision A} (l : list A) : StronglySorted lt_of l -> sort_dedup l = l.
Proof. intros Hs. apply lt_sorted_unique; [apply sort_dedup_sorted|done|]. intros x. by rewrite sort_dedup_elem. Qed.
Lemma values_under_sorted {K V} `{EqDecision K} `{TotalOrd V} `{EqDecision V} (l : list (K * V)) k :
  StronglySorted lt_of (values_under l k).
Proof. apply sort_dedup_sorted. Qed.

(** ** Terms of names *)
Section Terms.
Context `{Unicode}.

Lemma split_word_elem p s f ch : f ∈ split_by p s -> ch ∈ f -> ch ∈ s /\ p ch = false.
Proof.
  revert f. induction s as [|x s IH]; intros f; cbn [split_by].
  - intros ->%list_elem_of_singleton ?%elem_of_nil. done.
  - destruct (p x) eqn:E.
    + intros [->|Hf]%elem_of_cons Hch; [by apply elem_of_nil in Hch|]. destruct (IH f Hf Hch). split; [by right|done].
    + destruct (split_by p s) as [|g gs].
      * intros ->%list_elem_of_singleton ->%list_elem_of_singleton. split; [by left|done].
      * intros [->|Hf]%elem_of_cons Hch.
        -- apply elem_of_cons in Hch as [->|Hch]; [split; [by left|done]|]. destruct (IH g ltac:(by left) Hch). split; [by right|done].
        -- destruct (IH f ltac:(by right) Hch). split; [by right|done].
Qed.
Lemma tokenize_elem s t : t ∈ tokenize s -> t <> [] /\ Forall (fun ch => ch ∈ s /\ is_alphanumeric ch = true) t.
Proof.
  unfold tokenize. intros [Hne Ht]%list_elem_of_filter. split; [done|]. apply Forall_forall. intros ch Hch.
  destruct (split_word_elem _ _ _ ch Ht Hch) as [Hs Hp]. split; [done|]. by apply negb_false_iff in Hp.
Qed.
Lemma tokenize_str_ok s t : str_ok s -> t ∈ tokenize s -> str_ok t.
Proof.
  intros Hs [_ Ht]%tokenize_elem. apply Forall_forall. intros ch Hch.
  eapply Forall_forall; [exact Hs|]. by apply (proj1 (Forall_forall _ _) Ht).
Qed.
Lemma str_ok_app a b : str_ok (a ++ b) <-> str_ok a /\ str_ok b.
Proof. apply Forall_app. Qed.
End Terms.

(** ** Records *)
Definition records_ok (records : list FileRecord) : Prop :=
  (N.of_nat (length records) < 2 ^ 59)%N /\ Forall (fun r => str_ok (record_name r) /\ id_ok (record_id r)) records.
(** The ids, in order and each once, of the records with [q]. *)
Definition ids_where (q : FileRecord -> bool) (records : list FileRecord) : list FileId :=
  sort_dedup (record_id <$> filter (fun r => q r = true) records).
Lemma ids_where_elem q records id : id ∈ ids_where q records <-> exists r, r ∈ records /\ q r = true /\ record_id r = id.
Proof.
  unfold ids_where. rewrite sort_dedup_elem, list_elem_of_fmap. split.
  - intros (r & -> & [Hq Hr]%list_elem_of_filter). by exists r.
  - intros (r & Hr & Hq & <-). exists r. split; [done|]. by apply list_elem_of_filter.
Qed.

Lemma ids_where_none q records : (forall r, q r <> true) -> ids_where q records = [].
Proof.
  intros Hq. destruct (ids_where q records) as [|id l] eqn:E; [done|]. exfalso.
  assert (Hin : id ∈ ids_where q records) by (rewrite E; by left). apply ids_where_elem in Hin as (r & _ & Hr & _). by apply (Hq r).
Qed.

(** Pairs of a key of a record and its id. *)
Section Pairs.
Context (keys : FileRecord -> list str) (records : list FileRecord) (Hok : records_ok records).
Let pairs := mjoin ((fun r => (fun k => (k, record_id r)) <$> keys r) <$> records).
Lemma pairs_elem k id : (k, id) ∈ pairs <-> exists r, r ∈ records /\ k ∈ keys r /\ record_id r = id.
Proof.
  unfold pairs. rewrite list_elem_of_join. split.
  - intros (l & Hl & (r & -> & Hr)%list_elem_of_fmap). apply list_elem_of_fmap in Hl as (k' & [= -> ->] & Hk). by exists r.
  - intros (r & Hr & Hk & <-). exists ((fun k => (k, record_id r)) <$> keys r).
    split; apply list_elem_of_fmap; [by exists k|by exists r].
Qed.
Lemma pairs_under k : values_under pairs k = ids_where (fun r => bool_decide (k ∈ keys r)) records.
Proof.
  apply lt_sorted_unique; [apply values_under_sorted|apply sort_dedup_sorted|]. intros id.
  rewrite values_under_elem, pairs_elem, ids_where_elem. setoid_rewrite bool_decide_eq_true. done.
Qed.
Lemma pairs_vec_ok k : vec_ok (values_under pairs k).
Proof.
  destruct Hok as [Hn Hr]. rewrite pairs_under. split.
  - assert (Hle : length (ids_where (fun r => bool_decide (k ∈ keys r)) records) <= length (record_id <$> records)).
    { apply submseteq_length, NoDup_submseteq; [apply lt_sorted_NoDup, sort_dedup_sorted|].
      intros id (r & Hin & _ & <-)%ids_where_elem. apply list_elem_of_fmap. by exists r. }
    rewrite length_fmap in Hle. lia.
  - apply Forall_forall. intros id (r & Hin & _ & <-)%ids_where_elem. by apply (proj1 (Forall_forall _ _) Hr).
Qed.
End Pairs.

(** ** The three indexes *)
Definition prefixed `{Unicode} (k : str) (r : FileRecord) : bool :=
  bool_decide (k ∈ mjoin (token_prefixes <$> tokenize (normalize (record_name r)))).
Definition containing `{Unicode} (g : str) (r : FileRecord) : bool := bool_decide (g ∈ substring_grams (normalize (record_name r))).

Section Indexes.
Context `{Unicode}.

Lemma prefixed_spec k r : prefixed k r = true <->
  k <> [] /\ length k <= 32 /\ exists t, t ∈ tokenize (normalize (record_name r)) /\ exists s, t = k ++ s.
Proof.
  unfold prefixed. rewrite bool_decide_eq_true, list_elem_of_join. split.
  - intros (l & Hk & (t & -> & Ht)%list_elem_of_fmap). pose proof (tokenize_elem _ _ Ht) as [Hne _].
    apply token_prefixes_elem in Hk as (? & ? & Hs); [|done]. split_and!; [done..|]. by exists t.
  - intros (Hk & Hl & t & Ht & Hs). exists (token_prefixes t). split; [|apply list_elem_of_fmap; by exists t].
    pose proof (tokenize_elem _ _ Ht) as [Hne _]. by apply token_prefixes_elem.
Qed.
Lemma containing_spec g r : containing g r = true <-> length g = 3 /\ exists a b, normalize (record_name r) = a ++ g ++ b.
Proof. unfold containing. rewrite bool_decide_eq_true. apply store_grams_elem. Qed.

Lemma prefix_pairs_eq r :
  prefix_pairs r = (fun k => (k, record_id r)) <$> mjoin (token_prefixes <$> tokenize (normalize (record_name r))).
Proof.
  unfold prefix_pairs. induction (tokenize (normalize (record_name r))) as [|t ts IH]; [done|].
  rewrite !fmap_cons, !join_cons, fmap_app. by rewrite IH.
Qed.
Lemma prefix_records_eq records : prefix_postings_from_records records =
  postings_of (inverted (mjoin ((fun r => (fun k => (k, record_id r)) <$> mjoin (token_prefixes <$> tokenize (normalize (record_name r)))) <$> records))).
Proof.
  unfold prefix_postings_from_records, postings_of. do 3 f_equal. apply list_fmap_ext. intros _ r _. apply prefix_pairs_eq.
Qed.
Lemma substring_records_eq records : substring_postings_from_records records =
  postings_of (inverted (mjoin ((fun r => (fun k => (k, record_id r)) <$> substring_grams (normalize (record_name r))) <$> records))).
Proof. done. Qed.
End Indexes.

Lemma prefix_keys_ok `{Unicode} records : records_ok records ->
  forall r k, r ∈ records -> k ∈ mjoin (token_prefixes <$> tokenize (normalize (record_name r))) -> str_ok k.
Proof.
  intros [_ Hn] r k Hr Hk. rewrite Forall_forall in Hn. assert (Hp : prefixed k r = true) by by apply bool_decide_eq_true.
  apply prefixed_spec in Hp as (_ & _ & t & Ht & s & ->).
  apply tokenize_str_ok in Ht; [by apply str_ok_app in Ht as [? _]|]. by apply normalize_str_ok, Hn.
Qed.
Lemma substring_keys_ok `{Unicode} records : records_ok records ->
  forall r k, r ∈ records -> k ∈ substring_grams (normalize (record_name r)) -> str_ok k.
Proof.
  intros [_ Hn] r k Hr [_ (u & v & E)]%store_grams_elem. rewrite Forall_forall in Hn.
  destruct (Hn r Hr) as [Hs%normalize_str_ok _]. rewrite E in Hs. by apply str_ok_app in Hs as [_ [? _]%str_ok_app].
Qed.

(** ** What an archive of ids serves

    The ids under a normalised key are [hits]. *)
Record serves_ids `{Unicode} (st : Store FileId) (a : Archive) (hits : str -> list FileId) : Prop := {
  serves_all S c key (x : S) : outcome (values_for_checked st a key) c x (Ok (hits (normalize key))) x;
  serves_limited S c key limit (x : S) : outcome (values_for_limit_checked st a key limit) c x
    (Ok (if decide (limit = 0%N) then ([], false)
         else (take (N.to_nat limit) (hits (normalize key)), (limit <? N.of_nat (length (hits (normalize key))))%N))) x;
  serves_volume S c key v limit (x : S) :
    let on_volume := filter (fun id => file_volume id = v) (hits (normalize key)) in
    outcome (ids_for_volume_limit_checked st a key v limit) c x
      (Ok (take (N.to_nat limit) on_volume, (0 <? limit)%N && (limit <? N.of_nat (length on_volume))%N)) x
}.

Section Serve.
Context {st : Store FileId} `{!StoreLaws st vec_ok sort_dedup} `{Unicode} (Hw : forall ids, write_values st ids = write_blocked_file_ids ids).
Lemma held_serves a ps : holds (st := st) (values_ok := vec_ok) a ps ->
  serves_ids st a (fun k => from_option posting_values [] (answer (st := st) (canon := sort_dedup) ps k)).
Proof.
  intros Ha. split.
  - intros S c key x. apply cooperative_outcome; [apply cooperative_values_for|]. by apply runs_values_for.
  - intros S c key limit x. apply cooperative_outcome; [apply cooperative_values_for_limit|].
    pose proof (runs_values_for_limit a ps Ha key limit x) as Hr. destruct (answer ps (normalize key)) as [p|]; cbn [from_option]; [exact Hr|].
    rewrite take_nil. cbn [length]. destruct (N.ltb_spec limit (N.of_nat 0)); [lia|]. by destruct (decide (limit = 0%N)).
  - intros S c key v limit x. cbv zeta. apply cooperative_outcome; [eapply cooperative_ids_volume|].
    pose proof (runs_ids_volume Hw a ps Ha key v limit x) as Hr. destruct (answer ps (normalize key)) as [p|]; cbn [from_option]; [exact Hr|].
    rewrite filter_nil, take_nil. cbn [length]. destruct (N.ltb_spec limit (N.of_nat 0)); [lia|]. by rewrite andb_false_r.
Qed.
Lemma serves_ext a h h' : (forall k, h k = h' k) -> serves_ids st a h -> serves_ids st a h'.
Proof. intros E [H1 H2 H3]. split; [intros; rewrite <- E; apply H1|intros; rewrite <- E; apply H2|].
  intros S c key v limit x. cbv zeta. rewrite <- E. apply H3. Qed.

(** An index of the ids of records under the keys of each. *)
Context (keys : FileRecord -> list str) (records : list FileRecord) (Hok : records_ok records).
Context (Hkeys : forall r k, r ∈ records -> k ∈ keys r -> str_ok k).
Let ps := postings_of (inverted (mjoin ((fun r => (fun k => (k, record_id r)) <$> keys r) <$> records))).
Lemma ids_postings_ok : (N.of_nat (length (archive_bytes (st := st) ps)) < U64)%N -> postings_ok (st := st) (values_ok := vec_ok) ps.
Proof.
  intros Hl. apply inverted_postings_ok; [|by apply pairs_vec_ok|done].
  intros k id (r & Hr & Hk & _)%pairs_elem. by apply (Hkeys r).
Qed.
Lemma ids_hits k : from_option posting_values [] (answer (st := st) (canon := sort_dedup) (sort_postings ps) k) =
  if valid_key st k then ids_where (fun r => bool_decide (k ∈ keys r)) records else [].
Proof.
  unfold ps. rewrite answer_inverted by done. destruct (valid_key st k); [|done]. rewrite pairs_under. apply sort_dedup_sorted_id, sort_dedup_sorted.
Qed.
Lemma written_serves path : (N.of_nat (length (archive_bytes (st := st) ps)) < U64)%N ->
  serves_ids st (opened (st := st) ps path)
    (fun k => if valid_key st k then ids_where (fun r => bool_decide (k ∈ keys r)) records else []).
Proof. intros Hl. eapply serves_ext; [|apply held_serves, opened_holds; by apply ids_postings_ok]. intros k. apply ids_hits. Qed.
End Serve.

(** Written and opened, the archive is [a]. *)
Definition written_opens {W} `{Unicode} (st : Store W) (ps : list (Posting W)) (path : FPath) (a : Archive) : Prop :=
  exists bs, (forall c, outcome (archive_content st ps) c tt (Ok bs) tt) /\
    forall S c (x : S), outcome (open_bytes st path bs) c x (Ok a) x.
Lemma opened_written {W} (st : Store W) values_ok canon `{!StoreLaws st values_ok canon} `{Unicode} ps path :
  postings_ok (st := st) (values_ok := values_ok) ps -> written_opens st ps path (opened (st := st) ps path).
Proof.
  intros Hps. exists (archive_bytes (st := st) ps). split.
  - intros c. apply cooperative_outcome; [apply cooperative_archive_content|]. apply runs_archive_content.
  - intros S c x. apply cooperative_outcome; [eapply cooperative_open_bytes|]. by apply runs_open_bytes.
Qed.

(** ** Words are normalised *)
Section Words.
Context `{Unicode}.
Lemma normalize_fix s : Forall (fun ch => is_whitespace ch = false /\ ascii_lower ch = ch) s -> normalize s = s.
Proof.
  intros Hs. unfold normalize. rewrite trim_none by (eapply Forall_impl; [exact Hs|]; by intros ch [? _]).
  unfold str_ascii_lowercase. rewrite <- (list_fmap_id s) at 2. apply list_fmap_ext. intros i ch Hi.
  rewrite Forall_lookup in Hs. by apply (Hs i).
Qed.
Lemma normalized_lower s ch : ch ∈ normalize s -> ascii_lower ch = ch.
Proof. unfold normalize, str_ascii_lowercase. intros (ch' & -> & _)%list_elem_of_fmap. apply ascii_lower_idem. Qed.
Lemma word_normal s t : t ∈ tokenize (normalize s) -> normalize t = t.
Proof.
  intros [_ Ht]%tokenize_elem. apply normalize_fix. eapply Forall_impl; [exact Ht|]. intros ch [Hs Ha].
  split; [by apply alphanumeric_not_space|by eapply normalized_lower].
Qed.

Lemma fuzzy_terms_elem records t : t ∈ fuzzy_terms_of records <->
  is_fuzzy_term t = true /\ exists r, r ∈ records /\ t ∈ tokenize (normalize (record_name r)).
Proof.
  unfold fuzzy_terms_of. set (tokens := mjoin _).
  assert (Ht : t ∈ tokens <-> exists r, r ∈ records /\ t ∈ tokenize (normalize (record_name r))).
  { unfold tokens. rewrite list_elem_of_join. split.
    - intros (l & Hl & (r & -> & Hr)%list_elem_of_fmap). by exists r.
    - intros (r & Hr & Hin). eexists. split; [exact Hin|]. apply list_elem_of_fmap. by exists r. }
  rewrite <- Ht. clear Ht. assert (Hg : forall l acc, t ∈ foldl (fun terms token => if is_fuzzy_term token then btree_insert token terms else terms) acc l <->
    t ∈ acc \/ (is_fuzzy_term t = true /\ t ∈ l)).
  { induction l as [|x l IH]; intros acc; cbn [foldl]; [rewrite elem_of_nil; tauto|]. rewrite IH. rewrite elem_of_cons.
    destruct (is_fuzzy_term x) eqn:E; [rewrite btree_insert_elem; split; [intros [[->|?]|?]|intros [?|[? [->|?]]]]; tauto|].
    split; [tauto|]. intros [?|[? [->|?]]]; [tauto|congruence|tauto]. }
  rewrite Hg, elem_of_nil. tauto.
Qed.
Lemma store_deletion_keys_elem t d k : is_fuzzy_term t = true ->
  k ∈ store_deletion_keys t d <-> k <> [] /\ k `sublist_of` t /\ length t <= length k + d.
Proof.
  intros Ht. unfold store_deletion_keys. rewrite Ht. cbn [negb]. apply is_fuzzy_term_spec in Ht as [[Hl _] _].
  rewrite collect_deletions_elem by (destruct t; [cbn in Hl; lia|done]). split; [|tauto]. intros [?%elem_of_nil|?]; done.
Qed.
(** Where both are defined on a term, the keys are those of the search crate. *)
Lemma store_deletion_keys_eq t d : is_fuzzy_term t = true -> store_deletion_keys t d = deletion_keys t d.
Proof.
  intros Ht. unfold store_deletion_keys, deletion_keys. rewrite Ht. cbn [negb]. apply is_fuzzy_term_spec in Ht as [[Hl _] [Ha Hd]].
  rewrite Ha, Hd. rewrite bool_decide_false by (intros ->; cbn in Hl; lia). done.
Qed.

Definition fuzzy_pairs (records : list FileRecord) : list (str * str) :=
  mjoin ((fun token => (fun key => (key, token)) <$> store_deletion_keys token FUZZY_MAX_DELETIONS) <$> fuzzy_terms_of records).
Lemma fuzzy_pairs_elem records k t : (k, t) ∈ fuzzy_pairs records <-> t ∈ fuzzy_terms_of records /\ k ∈ store_deletion_keys t FUZZY_MAX_DELETIONS.
Proof.
  unfold fuzzy_pairs. rewrite list_elem_of_join. split.
  - intros (l & Hl & (t' & -> & Ht)%list_elem_of_fmap). apply list_elem_of_fmap in Hl as (k' & [= -> ->] & Hk). done.
  - intros [Ht Hk]. exists ((fun key => (key, t)) <$> store_deletion_keys t FUZZY_MAX_DELETIONS).
    split; apply list_elem_of_fmap; [by exists k|by exists t].
Qed.
Lemma fuzzy_under_kept records k : kept_terms (values_under (fuzzy_pairs records) k) = values_under (fuzzy_pairs records) k.
Proof.
  set (vs := values_under _ k). apply lt_sorted_unique; [apply sort_dedup_sorted|apply values_under_sorted|]. intros t.
  unfold kept_terms. rewrite sort_dedup_elem, list_elem_of_filter, list_elem_of_fmap.
  assert (Hn : forall u, u ∈ vs -> normalize u = u /\ u <> []).
  { intros u [Hu _]%values_under_elem%fuzzy_pairs_elem. apply fuzzy_terms_elem in Hu as [_ (r & _ & Hu)].
    split; [by eapply word_normal|]. by apply tokenize_elem in Hu as [? _]. }
  split.
  - intros [_ (u & -> & Hu)]. by rewrite (proj1 (Hn u Hu)).
  - intros Ht. destruct (Hn t Ht) as [E ?]. split; [done|]. by exists t.
Qed.
Lemma fuzzy_term_ok records : Forall (fun r => str_ok (record_name r)) records -> forall t, t ∈ fuzzy_terms_of records -> str_ok t.
Proof.
  intros Hok t [_ (r & Hr & Ht)]%fuzzy_terms_elem. apply tokenize_str_ok in Ht; [done|].
  by apply normalize_str_ok, (proj1 (Forall_forall _ _) Hok).
Qed.
Lemma str_len_le s : str_len s <= 4 * length s.
Proof.
  induction s as [|ch s IH]; [done|]. rewrite str_len_cons. cbn [length]. assert (len_utf8 ch <= 4) by (unfold len_utf8; repeat case_match; lia). lia.
Qed.
Lemma fuzzy_under_ok records : Forall (fun r => str_ok (record_name r)) records ->
  (N.of_nat (length (fuzzy_terms_of records)) < U64)%N -> forall k, terms_ok (values_under (fuzzy_pairs records) k).
Proof.
  intros Hok Hn k. unfold terms_ok. rewrite fuzzy_under_kept.
  assert (Hin : forall t, t ∈ values_under (fuzzy_pairs records) k -> t ∈ fuzzy_terms_of records).
  { by intros t [Ht _]%values_under_elem%fuzzy_pairs_elem. }
  split.
  - assert (Hle : length (values_under (fuzzy_pairs records) k) <= length (fuzzy_terms_of records)); [|lia].
    apply submseteq_length, NoDup_submseteq; [apply lt_sorted_NoDup, values_under_sorted|exact Hin].
  - apply Forall_forall. intros t Ht%Hin. split; [by eapply fuzzy_term_ok|].
    apply fuzzy_terms_elem in Ht as [[Hl _]%is_fuzzy_term_spec _]. pose proof (str_len_le t). unfold U64. lia.
Qed.
End Words.

Lemma fuzzy_postings_ok `{Unicode} records : Forall (fun r => str_ok (record_name r)) records ->
  (N.of_nat (length (archive_bytes (st := fuzzy_store) (fuzzy_postings_from_records records))) < U64)%N ->
  (N.of_nat (length (fuzzy_terms_of records)) < U64)%N ->
  postings_ok (st := fuzzy_store) (values_ok := terms_ok) (postings_of (inverted (fuzzy_pairs records))).
Proof.
  intros Hok Hl Hcount. pose proof (fuzzy_under_ok records Hok Hcount) as Hterms.
  apply inverted_postings_ok; [|done|done]. intros k t [Ht Hk]%fuzzy_pairs_elem. pose proof (fuzzy_term_ok records Hok t Ht) as Hs.
    apply fuzzy_terms_elem in Ht as [Hf _]. apply store_deletion_keys_elem in Hk as (_ & Hsub & _); [|done]. apply Forall_forall. intros ch Hch.
    apply (proj1 (Forall_forall _ _) Hs). clear - Hsub Hch. induction Hsub; set_solver.
Qed.

(** ** Theorems *)

(** C14: A posting archive gives back what was written: whatever the postings with
    storable values, each key once, the bytes made of them open, with a checksum that
    holds, and all its postings are those written, in the order of the keys, each key
    normalised and each list as the coding keeps it (ids sorted, each once).  A
    closure that stops a step stops it with its own error. *)
Theorem archive_round_trip {W} (st : Store W) values_ok canon `{!StoreLaws st values_ok canon} `{Unicode} ps path :
  postings_ok (st := st) (values_ok := values_ok) ps ->
  exists a, written_opens st ps path a /\
    (forall S c (x : S), outcome (postings st a) c x
      (Ok ((fun p => mkPosting (normalize (posting_key p)) (canon (posting_values p))) <$> sort_postings ps)) x) /\
    indexed_keys a = N.of_nat (length ps) /\ is_checksummed st a = true.
Proof.
  intros Hps. exists (opened (st := st) ps path). split_and!.
  - by eapply opened_written.
  - intros S c x. apply cooperative_outcome; [eapply cooperative_postings|].
    by apply (runs_postings _ _ (opened_holds ps Hps path)).
  - unfold indexed_keys, opened. cbn. unfold archive_entries. rewrite entries_length. unfold sort_postings. by rewrite sort_by_length.
  - unfold is_checksummed, opened. cbn. unfold archive_bytes. by rewrite verify_written.
Qed.

(** C13: An open archive answers as the finite map of its postings: a look-up under a
    key gives what is under the normalised key, the first [limit] of it on request (of
    at least one) with whether there is more, and a look-up of several keys what is
    under each, in the order of the keys and each key once. *)
Theorem archive_lookup_spec {W} (st : Store W) values_ok canon `{!StoreLaws st values_ok canon} `{Unicode} a ps :
  holds (st := st) (values_ok := values_ok) a ps ->
  let found := answer (st := st) (canon := canon) ps in
  forall S c (x : S),
  (forall key, outcome (posting_for_checked st a key) c x (Ok (found (normalize key))) x) /\
  (forall key, outcome (values_for_checked st a key) c x (Ok (from_option posting_values [] (found (normalize key)))) x) /\
  (forall key limit, limit <> 0%N -> outcome (values_for_limit_checked st a key limit) c x
     (Ok (match found (normalize key) with
          | Some p => (take (N.to_nat limit) (posting_values p), (limit <? N.of_nat (length (posting_values p)))%N)
          | None => ([], false)
          end)) x) /\
  (forall keys, outcome (postings_for_checked st a keys) c x
     (Ok (omap found (sort_dedup (filter (fun k => valid_key st k = true) (normalize <$> keys))))) x).
Proof.
  intros Ha found S c x. split_and!.
  - intros key. apply cooperative_outcome; [eapply cooperative_posting_for|]. by apply runs_posting_for.
  - intros key. apply cooperative_outcome; [eapply cooperative_values_for|]. by apply runs_values_for.
  - intros key limit Hl. apply cooperative_outcome; [eapply cooperative_values_for_limit|].
    pose proof (runs_values_for_limit a ps Ha key limit x) as Hr. unfold found. destruct (answer ps (normalize key)); [|exact Hr].
    by rewrite decide_False in Hr.
  - intros keys. apply cooperative_outcome; [eapply cooperative_postings_for|]. by apply runs_postings_for.
Qed.

(** One walk of the directory answers a batch: keys that come in order are each
    answered as by a look-up of their own, at most [limit] values each; keys out of
    order are refused; a limit of zero asks for nothing.  Keys that cannot be in the
    archive are passed over, wherever they come. *)
Theorem batch_lookup_spec {W} (st : Store W) values_ok canon `{!StoreLaws st values_ok canon} `{Unicode} a ps :
  holds (st := st) (values_ok := values_ok) a ps ->
  forall S c keys limit (x : S),
  let asked := filter (fun k => valid_key st k = true) (normalize <$> keys) in
  outcome (postings_for_sorted_limit_checked st a keys limit) c x
    (if decide (limit = 0%N) then Ok []
     else if decide (StronglySorted le_of asked) then
       Ok (omap (fun k => limited_of limit <$> answer (st := st) (canon := canon) ps k) (dedup asked))
     else Err (batch_error (st := st) a)) x.
Proof.
  intros Ha S c keys limit x asked. apply cooperative_outcome; [eapply cooperative_batch|].
  destruct (decide (limit = 0%N)) as [->|Hl]; [|by apply runs_batch].
  unfold postings_for_sorted_limit_checked. eapply runs_bind; [apply runs_check|]. rewrite decide_True by done. apply runs_ret.
Qed.

(** C8: The prefix archive of a set of records: under a text it has exactly the
    records with a word of the name (cut at what is not a letter or digit, ASCII
    letters in lower case) that the text, so normalised, is a prefix of, of at most
    thirty-two characters; at most as many as asked for, or those of one volume. *)
Theorem prefix_index_spec `{Unicode} records path :
  records_ok records ->
  let ps := prefix_postings_from_records records in
  (N.of_nat (length (archive_bytes (st := prefix_store) ps)) < U64)%N ->
  (exists a, written_opens prefix_store ps path a /\ serves_ids prefix_store a (fun k => ids_where (prefixed k) records)) /\
  (forall k r, prefixed k r = true <->
     k <> [] /\ length k <= 32 /\ exists t, t ∈ tokenize (normalize (record_name r)) /\ exists s, t = k ++ s).
Proof.
  intros Hok ps Hl. split; [|apply prefixed_spec]. unfold ps in *. rewrite prefix_records_eq in *.
  pose proof (prefix_keys_ok records Hok) as Hk.
  eexists. split; [apply (opened_written prefix_store vec_ok sort_dedup); eapply ids_postings_ok; [exact Hok|exact Hk|done]|].
  eapply serves_ext; [|eapply written_serves; [done|exact Hok|exact Hk|done]]. intros k. cbv beta.
  cbn [valid_key prefix_store]. case_bool_decide as E; [subst k|done]. symmetry. apply ids_where_none. by intros r [? _]%prefixed_spec.
Qed.

Lemma substring_opens `{Unicode} records path :
  records_ok records ->
  let ps := substring_postings_from_records records in
  (N.of_nat (length (archive_bytes (st := substring_store) ps)) < U64)%N ->
  exists a, written_opens substring_store ps path a /\ serves_ids substring_store a (fun k => ids_where (containing k) records).
Proof.
  intros Hok ps Hl. unfold ps in *. rewrite substring_records_eq in *.
  pose proof (substring_keys_ok records Hok) as Hk.
  eexists. split; [apply (opened_written substring_store vec_ok sort_dedup); eapply ids_postings_ok; [exact Hok|exact Hk|done]|].
  eapply serves_ext; [|eapply written_serves; [done|exact Hok|exact Hk|done]]. intros k. cbv beta.
  cbn [valid_key substring_store]. unfold is_substring_gram. case_bool_decide as E; [done|]. symmetry. apply ids_where_none. by intros r [? _]%containing_spec.
Qed.

(** C23: The substring archive of a set of records: under a text it has exactly the
    records whose normalised name contains the normalised text, when that has three
    characters, and none otherwise. *)
Theorem substring_index_spec `{Unicode} records path :
  records_ok records ->
  let ps := substring_postings_from_records records in
  (N.of_nat (length (archive_bytes (st := substring_store) ps)) < U64)%N ->
  (exists a, written_opens substring_store ps path a /\ serves_ids substring_store a (fun k => ids_where (containing k) records)) /\
  (forall g r, containing g r = true <-> length g = 3 /\ exists u v, normalize (record_name r) = u ++ g ++ v).
Proof. intros Hok ps Hl. split; [by apply substring_opens|apply containing_spec]. Qed.

(** The fuzzy archive of a set of records: under a key it has, in order and each
    once, exactly the words of the names, of those that are indexed, that the
    normalised key is left of by at most two deletions. *)
Theorem fuzzy_index_spec `{Unicode} records path :
  Forall (fun r => str_ok (record_name r)) records ->
  let ps := fuzzy_postings_from_records records in
  (N.of_nat (length (archive_bytes (st := fuzzy_store) ps)) < U64)%N ->
  (N.of_nat (length (fuzzy_terms_of records)) < U64)%N ->
  exists a, written_opens fuzzy_store ps path a /\
  forall S c key (x : S), exists terms,
    outcome (values_for_checked fuzzy_store a key) c x (Ok terms) x /\ StronglySorted lt_of terms /\
    forall t, t ∈ terms <->
      (is_fuzzy_term t = true /\ exists r, r ∈ records /\ t ∈ tokenize (normalize (record_name r))) /\
      normalize key <> [] /\ normalize key `sublist_of` t /\ length t <= length (normalize key) + 2.
Proof.
  intros Hok ps Hl Hcount. pose proof (fuzzy_under_ok records Hok Hcount) as Hterms. change ps with (postings_of (inverted (fuzzy_pairs records))) in *.
  pose proof (fuzzy_postings_ok records Hok Hl Hcount) as Hps.
  eexists. split; [by apply (opened_written fuzzy_store terms_ok kept_terms)|]. intros S c key x. eexists. split; [|split].
  - apply cooperative_outcome; [eapply cooperative_values_for|]. by eapply runs_values_for, opened_holds.
  - rewrite answer_inverted by done. rewrite fuzzy_under_kept. destruct (valid_key _ _); [apply values_under_sorted|constructor].
  - intros t. rewrite answer_inverted by done. rewrite fuzzy_under_kept. cbn [valid_key fuzzy_store].
    case_bool_decide as E; cbn [negb].
    + split; [by intros ?%elem_of_nil|by intros (_ & ? & _)].
    + rewrite values_under_elem, fuzzy_pairs_elem, fuzzy_terms_elem. split.
      * intros [[Hf Ht] Hk]. apply store_deletion_keys_elem in Hk as (? & ? & ?); done.
      * intros [[Hf Ht] Hk]. split; [done|]. by apply store_deletion_keys_elem.
Qed.

(** *** Grams with white space at an end *)
Lemma trim_start_length q s : length (trim_start_by q s) <= length s.
Proof. destruct (trim_start_suffix q s) as [l E]. apply (f_equal length) in E. rewrite length_app in E. lia. Qed.
Lemma trim_shorter q s ch : head s = Some ch \/ last s = Some ch -> q ch = true -> length (trim_by q s) < length s.
Proof.
  intros Hs Hq. unfold trim_by. rewrite length_reverse. set (t := trim_start_by q s).
  pose proof (trim_start_length q (reverse t)) as Hr. rewrite length_reverse in Hr.
  destruct (trim_start_suffix q s) as [l El]. fold t in El. destruct Hs as [Hs|Hs].
  - destruct s as [|x s]; [done|]. injection Hs as ->. unfold t in *. cbn [trim_start_by] in *. rewrite Hq in *.
    pose proof (trim_start_length q s). cbn [length]. lia.
  - pose proof (f_equal length El) as Hlen. rewrite length_app in Hlen. destruct (decide (t = [])) as [->|Ht].
    + destruct s; [done|]. cbn. lia.
    + rewrite El, last_app in Hs. destruct (last t) as [y|] eqn:Ey; [|by apply last_None in Ey]. injection Hs as ->.
      rewrite <- head_reverse in Ey. destruct (reverse t) as [|z t'] eqn:Er; [done|]. injection Ey as ->.
      cbn [trim_start_by]. rewrite Hq. pose proof (trim_start_length q t'). apply (f_equal length) in Er. rewrite length_reverse in Er. cbn in Er. lia.
Qed.

(** A gram that begins or ends with white space is in the archive, with every
    record whose name contains it, and no look-up finds it: what is looked up is
    trimmed first, and has no longer three characters.  A name of several words is
    not found by a text that contains a space. *)
Theorem substring_gram_lost `{Unicode} records path r g ch :
  records_ok records ->
  let ps := substring_postings_from_records records in
  (N.of_nat (length (archive_bytes (st := substring_store) ps)) < U64)%N ->
  r ∈ records -> containing g r = true -> head g = Some ch \/ last g = Some ch -> is_whitespace ch = true ->
  (exists ids, mkPosting g ids ∈ ps /\ record_id r ∈ ids) /\
  exists a, written_opens substring_store ps path a /\
    forall S c (x : S), outcome (values_for_checked substring_store a g) c x (Ok []) x.
Proof.
  intros Hok ps Hl Hr Hg Hch Hws. split.
  - unfold ps. rewrite substring_records_eq. set (pairs := mjoin _).
    assert (Hin : (g, record_id r) ∈ pairs) by (apply pairs_elem; exists r; by apply bool_decide_eq_true in Hg).
    exists (values_under pairs g). rewrite values_under_elem. split; [|done]. apply list_elem_of_fmap. exists (g, values_under pairs g).
    split; [done|]. apply inverted_lookup. intros E. apply (not_elem_of_nil (record_id r)). by rewrite <- E, values_under_elem.
  - destruct (substring_opens records path Hok Hl) as (a & Ha & Hserves). exists a. split; [done|]. intros S c x.
    pose proof (serves_all _ _ _ Hserves S c g x) as Hx. cbv beta in Hx. rewrite ids_where_none in Hx; [done|]. intros r' [Hn _]%containing_spec.
    apply containing_spec in Hg as [Hlen _]. pose proof (trim_shorter is_whitespace g ch Hch Hws) as Hlt.
    unfold normalize, str_ascii_lowercase in Hn. rewrite length_fmap in Hn. lia.
Qed.
