(* ===== verification/StoreSpec.v ===== *)
(** * Archives on disk: the theorems

    A posting archive is written durably: to a temporary file, flushed and renamed.
    Whatever fails, the file is the old one or the new one, and the new one opens.  What
    opens is well-formed, whatever bytes the file has. *)
From Stdlib Require Import Ascii.
From S2P Require Import Prelude Types Text Order Chars Records Control Fuzzy FileSystem FileFacts TextFiles Publish TrashMeta Inverted Codec StoreIds StoreIdsSpec Durable Utf8 BinarySearch PostingStore PostingStoreSpec PrefixStore SubstringStore FuzzyStore IndexSpec.
#[local] Open Scope list_scope.

Section Disk.
Context {W : Type} (st : Store W) (values_ok : list W -> Prop) (canon : list W -> list W) `{!StoreLaws st values_ok canon}.
Context `{Unicode} `{Platform, Process, Mmap} {X : Type} (c : Control) (T : Prop).
Abbreviation yields := (yields (X := X) c T).

Lemma reads_open {S} p bs : reads (open_bytes (S := S) st p bs).
Proof.
  assert (Hd : reads (read_directory_from_slice (S := S) st bs (show p))).
  { unfold read_directory_from_slice. apply reads_bind; [done|]. intros n. cbv zeta. case_decide; [done|]. apply reads_bind; [done|].
    intros o. destruct (_ <=? _)%N; [done|]. apply reads_bind; [done|]. intros d. apply reads_bind; [apply reads_cursor|done]. }
  unfold open_bytes. case_decide; [done|]. repeat (apply reads_bind; [apply reads_check || apply reads_lift|intros _]).
  apply reads_bind; [exact Hd|]. intros d. apply reads_bind; [apply reads_check|done].
Qed.

(** A checked computation that does not look at the state. *)
Lemma yields_pure {A} (m : M (World X) A) a I E : (forall x, runs m x (Ok a) x) -> cooperative m -> reads m ->
  (forall j e, c j = Some e -> T) -> (forall e f, I f -> T -> E e f) -> yields I m (fun b f => b = a /\ I f) E.
Proof.
  intros Hr Hm Hs HT HE w Hw Ho Hl Hi k. specialize (Hm c k w). specialize (Hs c k w). destruct (Hr w k) as [k2 Hk2]. rewrite Hk2 in Hm.
  destruct (m c k w) as [[r k'] w']. cbn in Hs. subst w'. destruct Hm as [_ [[_ Hn]|(e & -> & _ & He & _)]].
  - injection Hn as <- <-. done.
  - split; [done|]. apply HE; [done|by eapply HT].
Qed.

(** Opening a file that holds an archive. *)
Lemma yields_open_archive p ps f : shape_at f p = Some (ShFile (archive_bytes (st := st) ps)) -> resolve MAXSYMLINKS f p = Ok p ->
  postings_ok (st := st) (values_ok := values_ok) ps -> (forall j e, c j = Some e -> T) ->
  yields (eq f) (open_checked st p) (fun a f' => a = opened (st := st) ps p /\ f' = f) (fun _ f' => T /\ f' = f).
Proof.
  intros Hs Hres Hps HT. unfold open_checked.
  assert (HE : forall (e : GfmError) f', f = f' -> T -> T /\ f' = f) by (by intros e f' <- ?).
  eapply yields_bind; [by apply yields_check|intros []].
  eapply yields_bind with (J := fun i f' => f' = f /\ content_of f i = Some (archive_bytes (st := st) ps)).
  { apply yields_or_io, yields_sys; [intros f' e <- HT' _; done|]. intros f' cl <-. cbn [fst snd]. rewrite Hres.
    pose proof Hs as (i & n & Hi & Hn & Hsh)%shape_at_Some. assert (Hl : lookup_inode f p = Some (i, n)) by by apply lookup_inode_Some.
    rewrite Hl. split; [done|]. apply content_inode. by exists n. }
  intros i. apply yields_at. intros f1 [-> Hc]. eapply yields_bind; [by apply yields_check|intros []].
  eapply yields_bind with (J := fun bs f' => f' = f /\ bs = archive_bytes (st := st) ps).
  { apply yields_or_io, yields_sys; [intros f' e <- HT' _; done|]. intros f' cl <-. cbn [fst snd]. rewrite Hc, mmap_whole; [done|].
    intros E. apply (f_equal length) in E. unfold archive_bytes in E. rewrite length_app, footer_length in E. cbn in E. lia. }
  intros bs. apply yields_at. intros f1 [-> ->]. eapply yields_bind; [by apply yields_check|intros []].
  eapply yields_weaken; [apply (yields_pure _ (opened (st := st) ps p) (eq f) (fun _ f' => T /\ f' = f))| | |]; try done.
  - intros x. by apply runs_open_bytes.
  - eapply cooperative_open_bytes.
  - apply reads_open.
  - by intros b f' [-> <-].
Qed.
End Disk.

(** ** Theorems *)

(** C9: A posting archive is written whole or not at all.  Whatever the calls of the
    system and the control closure do, a write that returns [Ok] has put exactly the
    bytes of the postings in the file, and one that fails has left the file as it was
    (and fails only for a reason); nothing else has changed but temporary files next to
    it.  The bytes are those the archive opens from. *)
Theorem durable_write_spec {W} (st : Store W) `{Unicode} `{Platform, Process} {X} c (w w' : World X) p ps r :
  honest w -> timely w -> Publish.writable p (temporary_path p) (fsys w) ->
  run (write_postings_checked st p ps) c w = (r, w') ->
  match r with
  | Ok _ => shape_at (fsys w') p = Some (ShFile (archive_bytes (st := st) ps)) /\ Publish.writable p (temporary_path p) (fsys w')
  | Err _ => trouble c w /\ shape_at (fsys w') p = shape_at (fsys w) p
  end /\
  forall q, ~ Publish.touches p (temporary_path p) q -> shape_at (fsys w') q = shape_at (fsys w) q.
Proof.
  intros Ho Hl Hw Hrun. pose proof Hw as (Hf & _).
  assert (Hy : yields (X := X) c (trouble c w) (eq (fsys w)) (write_postings_checked st p ps)
    (fun _ f' => Publish.published p (temporary_path p) (archive_bytes (st := st) ps) (fsys w) f')
    (fun _ f' => trouble c w /\ Publish.unsettled p (temporary_path p) (fun _ => False) (fsys w) f')).
  { unfold write_postings_checked. eapply yields_bind; [apply (yields_atomic_write c (trouble c w) p (fsys w)); [done|]|].
    - apply drafts_archive; [apply runs_archive_content|apply cooperative_archive_content|]. intros j e He. left. by exists j, e.
    - intros commit. apply yields_ret. by intros f' [? _]. }
  pose proof (yields_run c (trouble c w) _ _ _ _ w r w' Hy (fun x => x) Ho Hl eq_refl Hrun) as Hr.
  assert (Hcase : forall q f', wf f' -> changes (Publish.touches p (temporary_path p)) (Publish.own p) (fsys w) f' ->
    ~ Publish.touches p (temporary_path p) q -> shape_at f' q = shape_at (fsys w) q).
  { intros q f' Hf' Hc Hq. eapply changes_outside; [exact Hc|done|intros ->; apply Hq; by left|done|done]. }
  destruct r as [u|e].
  - destruct Hr as (Hw' & Hs & Hc). split; [done|]. intros q Hq. apply Hcase; [by destruct Hw'|done|done].
  - destruct Hr as (HT & Hf' & Hc & [Hs|[]]). split; [done|]. intros q Hq. by apply Hcase.
Qed.

(** What was written is read back: opening a file that holds the bytes of an
    archive, whatever the calls and the closure do, changes nothing and gives an
    archive that holds the postings, in the order of the keys, or fails for a
    reason. *)
Theorem reopened_spec {W} (st : Store W) values_ok canon `{!StoreLaws st values_ok canon} `{Unicode} `{Platform, Mmap} {X}
    c (w w' : World X) p ps r :
  honest w -> timely w -> wf (fsys w) -> shape_at (fsys w) p = Some (ShFile (archive_bytes (st := st) ps)) ->
  postings_ok (st := st) (values_ok := values_ok) ps ->
  run (open_checked st p) c w = (r, w') ->
  fsys w' = fsys w /\
  match r with
  | Ok a => archive_path a = p /\ holds (st := st) (values_ok := values_ok) a (sort_postings ps)
  | Err _ => trouble c w
  end.
Proof.
  intros Ho Hl Hf Hs Hps Hrun. assert (Hres : resolve MAXSYMLINKS (fsys w) p = Ok p) by (cbn; by rewrite Hs).
  pose proof (yields_open_archive (X := X) st values_ok canon c (trouble c w) p ps (fsys w) Hs Hres Hps) as Hy.
  assert (HT : forall j e, c j = Some e -> trouble c w) by (intros j e He; left; by exists j, e).
  pose proof (yields_run c (trouble c w) _ _ _ _ w r w' (Hy HT) (fun x => x) Ho Hl eq_refl Hrun) as Hr.
  destruct r as [a|e]; [destruct Hr as [-> ->]|by destruct Hr]. split; [done|]. split; [done|]. by apply opened_holds.
Qed.

(** * What comes out of an archive

    Whatever bytes a file holds, what the readers make of them is well-formed: the
    texts are strings of characters, the numbers are [u64]s, the directory is in the
    order of its keys. *)
(** Whatever [m] returns satisfies [P]. *)
Definition returns {S A} (m : M S A) (P : A -> Prop) : Prop := forall c k s a k' s', m c k s = (Ok a, k', s') -> P a.
Lemma returns_bind {S A B} (m : M S A) (f : A -> M S B) (Q : A -> Prop) P :
  returns m Q -> (forall a, Q a -> returns (f a) P) -> returns (mbind m f) P.
Proof.
  intros Hm Hf c k s b k' s' E. unfold mbind in E. destruct (m c k s) as [[[a|e] k1] s1] eqn:E1; [|done].
  by apply (Hf a (Hm _ _ _ _ _ _ E1) c k1 s1 b k' s').
Qed.
Lemma returns_then {S A B} (m : M S A) (f : A -> M S B) P : (forall a, returns (f a) P) -> returns (mbind m f) P.
Proof. intros Hf. by apply (returns_bind m f (fun _ => True)). Qed.
Lemma returns_ret {S A} (a : A) (P : A -> Prop) : P a -> returns (S := S) (mret a) P.
Proof. by intros Ha c k s b k' s' [= <- _ _]. Qed.
Lemma returns_fail {S A} e (P : A -> Prop) : returns (S := S) (mfail e) P.
Proof. by intros c k s b k' s'. Qed.
Lemma returns_lift {S A} (r : Res A) (P : A -> Prop) : (forall a, r = Ok a -> P a) -> returns (S := S) (mlift r) P.
Proof. intros Hr c k s b k' s' [= Hb _ _]. by apply Hr. Qed.
Lemma returns_cursor {S A} bs (m : M bytes A) P : returns m P -> returns (with_cursor (S := S) bs m) P.
Proof.
  intros Hm c k s b k' s' E. unfold with_cursor in E. destruct (m c k bs) as [[r k1] s1] eqn:E1. injection E as -> -> ->.
  by apply (Hm _ _ _ _ _ _ E1).
Qed.
Lemma returns_unpolled {S A} (m : M S A) P : returns m P -> returns (unpolled m) P.
Proof.
  intros Hm c k s b k' s' E. unfold unpolled in E. destruct (m never k s) as [[r k1] s1] eqn:E1. injection E as -> -> ->.
  by apply (Hm _ _ _ _ _ _ E1).
Qed.
Lemma returns_times {S A} (body : A -> N -> M S A) (P : A -> Prop) : (forall acc i, P acc -> returns (body acc i) P) ->
  forall n acc i, P acc -> returns (mtimes body acc i n) P.
Proof.
  intros Hb. induction n as [|n IH]; intros acc i Ha; cbn [mtimes]; [by apply returns_ret|].
  eapply returns_bind; [by apply Hb|]. intros acc' Ha'. by apply IH.
Qed.
Lemma returns_weaken {S A} (m : M S A) (P Q : A -> Prop) : returns m P -> (forall a, P a -> Q a) -> returns m Q.
Proof. intros Hm HQ c k s a k' s' E. by apply HQ, (Hm _ _ _ _ _ _ E). Qed.

(** ** The readers *)
Lemma returns_string {S} error bs : returns (S := S) (mlift (string_from error bs)) str_ok.
Proof.
  apply returns_lift. unfold string_from. intros s. destruct (from_utf8 bs) as [t|e] eqn:E; [|done]. intros [= <-].
  by apply from_utf8_ok in E as [? _].
Qed.
Lemma returns_read_exact path n : returns (read_exact path n) (fun bs => length bs = N.to_nat n).
Proof.
  intros c k s a k' s' E. unfold read_exact, reader, read_exact_from in E. destruct (N.leb_spec n (N.of_nat (length s))); [|done].
  injection E as <- _ _. rewrite length_take. lia.
Qed.
Lemma returns_word path : returns (mbind (read_exact path 8) (fun bs => mret (from_le_bytes bs))) u64_ok.
Proof.
  eapply returns_bind; [apply returns_read_exact|]. intros bs Hbs. apply returns_ret. pose proof (from_le_lt bs) as Hlt.
  rewrite Hbs in Hlt. exact Hlt.
Qed.
Lemma returns_read_text path error : returns (read_text path error) str_ok.
Proof. unfold read_text. do 2 (apply returns_then; intros ?). apply returns_string. Qed.
Lemma returns_read_string path label : returns (read_string_checked path label) str_ok.
Proof. unfold read_string_checked. do 5 (apply returns_then; intros ?). apply returns_string. Qed.

(** The keys that come out of a store are strings. *)
Class StoreTyped {W} (st : Store W) : Prop := {
  typed_key path : returns (read_key st path) str_ok;
  typed_directory_key path : returns (read_directory_key st path) str_ok
}.
#[export] Instance prefix_typed : StoreTyped prefix_store.
Proof. split; intros; apply returns_read_text. Qed.
#[export] Instance substring_typed : StoreTyped substring_store.
Proof. split; intros; apply returns_read_text. Qed.
#[export] Instance fuzzy_typed `{Unicode} : StoreTyped fuzzy_store.
Proof. split; intros; [|apply returns_unpolled]; apply returns_read_string. Qed.

(** ** Archives *)
Definition entry_ok (e : Entry) : Prop := str_ok (entry_key e) /\ u64_ok (entry_offset e) /\ u64_ok (entry_len e).
Record archive_ok {W} (st : Store W) (a : Archive) : Prop := {
  ok_directory : Forall entry_ok (archive_directory a);
  ok_sorted : StronglySorted (key_le_of entry_key) (archive_directory a);
  ok_checksum : is_checksummed st a = true;
  ok_header : take (length (store_magic st)) (archive_map a) = store_magic st
}.

Section Typed.
Context {W : Type} (st : Store W) `{!StoreTyped st} `{Unicode}.
Lemma returns_directory {S} bs path : returns (read_directory_from_slice (S := S) st bs path)
  (fun es => Forall entry_ok es /\ StronglySorted (key_le_of entry_key) es).
Proof.
  unfold read_directory_from_slice. apply returns_then. intros n. cbv zeta. case_decide; [apply returns_fail|].
  apply returns_then. intros o. destruct (_ <=? _)%N; [apply returns_fail|]. apply returns_then. intros d.
  apply (returns_bind _ _ (Forall entry_ok)).
  - apply returns_cursor, returns_unpolled, returns_then. intros count. apply returns_times; [|constructor].
    intros acc i Hacc. unfold read_entry. eapply returns_bind; [apply typed_directory_key|]. intros key Hkey.
    eapply returns_bind; [apply returns_read_exact|]. intros o1 Ho1. eapply returns_bind; [apply returns_read_exact|]. intros l1 Hl1.
    apply returns_ret. apply Forall_app. split; [done|]. repeat constructor; [done| |]; cbn.
    + pose proof (from_le_lt o1) as Hlt. rewrite Ho1 in Hlt. exact Hlt.
    + pose proof (from_le_lt l1) as Hlt. rewrite Hl1 in Hlt. exact Hlt.
  - intros es Hes. apply returns_ret. split; [by rewrite (sort_by_perm entry_key)|apply sort_by_sorted].
Qed.
Lemma returns_open {S} p bs : returns (open_bytes (S := S) st p bs) (fun a => archive_path a = p /\ archive_map a = bs /\ archive_ok st a).
Proof.
  unfold open_bytes. case_decide as Hm; [apply returns_fail|]. apply returns_then. intros [].
  apply (returns_bind _ _ (fun _ => verify_checksum_footer bs (store_checksum_footer st) (show p) (store_name st) = Ok true)).
  { apply returns_lift. intros []. unfold verify_checksum_from_slice. destruct (verify_checksum_footer _ _ _ _) as [[]|]; done. }
  intros [] Hc. apply returns_then. intros []. eapply returns_bind; [apply returns_directory|]. intros es [He Hs].
  apply returns_then. intros []. apply returns_ret. split_and!; [done..|]. split; [done|done| |done].
  unfold is_checksummed. cbn. by rewrite Hc.
Qed.
Lemma returns_posting_for {S} a key : returns (posting_for_checked (S := S) st a key)
  (fun r => match r with Some p => valid_key st (normalize key) = true /\ posting_key p = normalize key | None => True end).
Proof.
  unfold posting_for_checked. apply returns_then. intros []. apply (returns_bind _ _ (fun k => k = normalize key)).
  { intros c k s b k' s' E. pose proof (cooperative_normalize_key (S := S) key c k s) as Hc. destruct (runs_normalize_key key s k) as [k2 Hk2].
    rewrite E in Hc. destruct Hc as [_ [[_ Hn]|(e & ? & _)]]; [|done]. rewrite Hk2 in Hn. by injection Hn. }
  intros k ->. destruct (valid_key st (normalize key)) eqn:Hv; cbn [negb]; [|by apply returns_ret].
  apply returns_then. intros []. destruct (find_entry a (normalize key)) as [e|]; [|by apply returns_ret].
  do 3 (apply returns_then; intros ?). case_decide; [by apply returns_ret|apply returns_fail].
Qed.
End Typed.

(** ** Theorem *)

(** C15: Whatever bytes a file holds, an archive that opens is well-formed: its header
    and its checksum hold, its keys are strings of characters, its offsets and
    lengths are [u64]s, and its directory is in the order of the keys.  A posting
    that a look-up in it returns has the key that was asked for, also where the
    directory lies about it. *)
Theorem opened_typed {W} (st : Store W) `{!StoreTyped st} `{Unicode} {S} c p bs (x x' : S) a :
  run (open_bytes st p bs) c x = (Ok a, x') ->
  archive_path a = p /\ archive_map a = bs /\ archive_ok st a /\
  forall key posting c' (y y' : S), run (posting_for_checked st a key) c' y = (Ok (Some posting), y') ->
    valid_key st (normalize key) = true /\ posting_key posting = normalize key.
Proof.
  intros Hrun. unfold run in *. destruct (open_bytes st p bs c 0 x) as [[r k] y0] eqn:E. injection Hrun as -> ->.
  destruct (returns_open st p bs _ _ _ _ _ _ E) as (H1 & H2 & H3). split_and!; [done..|].
  intros key posting c' y y' Hrun. destruct (posting_for_checked st a key c' 0 y) as [[r' k'] y1] eqn:E'. injection Hrun as -> ->.
  exact (returns_posting_for st a key _ _ _ _ _ _ E').
Qed.
