(* ===== verification/LookupCache.v ===== *)
(** * The caches of the index look-ups ([crates/index/src/lookup.rs])

    [LookupCache] and [RecordCache] are one cache, at keys that are texts or file
    ids: a map from keys to values that were stamped with a generation when they were
    last used, and a queue of the stamps, in which those of earlier uses stay until
    they come to its front or the queue is rebuilt.

    The theorem is that this is the cache that drops what was used least recently:
    a list of at most [capacity] pairs, the last used at the end. *)
From S2P Require Import Prelude Types Text Order Chars.
#[local] Open Scope list_scope.

Lemma sorted_weaken {A} (R R' : A -> A -> Prop) l : (forall x y, R x y -> R' x y) -> StronglySorted R l -> StronglySorted R' l.
Proof. intros HR. induction 1 as [|x l _ IH Hf]; constructor; [done|]. eapply Forall_impl; [exact Hf|]. apply HR. Qed.
Lemma sorted_filter {A} (R : A -> A -> Prop) (P : A -> Prop) `{!forall x, Decision (P x)} l :
  StronglySorted R l -> StronglySorted R (filter P l).
Proof.
  induction 1 as [|x l _ IH Hf]; [constructor|]. rewrite filter_cons. case_decide; [|done].
  constructor; [done|]. apply Forall_forall.
  intros y [_ Hy]%list_elem_of_filter. by apply (proj1 (Forall_forall _ _) Hf).
Qed.

Section LookupCache.
Context {K V : Type} `{Countable K}.

Record LookupCacheEntry : Type := mkCached { entry_generation : N; entry_value : V }.
Record LookupCache : Type := mkCache {
  cache_capacity : N;
  next_generation : N;
  cache_order : list (N * K);
  cache_values : gmap K LookupCacheEntry
}.
Implicit Types (c : LookupCache) (q : list (N * K)) (m : gmap K LookupCacheEntry).

Definition new_cache (capacity : N) : LookupCache := mkCache capacity 0 [] ∅.
(** The generation is taken, and the next one is one more, around the end of [u64]. *)
Definition next_lookup_generation (c : LookupCache) : N * LookupCache :=
  (next_generation c, mkCache (cache_capacity c) (wrapping_add (next_generation c) 1) (cache_order c) (cache_values c)).

Definition max_order (capacity : N) : N := N.max (saturating_mul capacity 4) (capacity + 1).
(** The queue of the stamps that are in use, rebuilt. *)
Definition live_order m : list (N * K) := sort_by fst ((fun e => (entry_generation e.2, e.1)) <$> map_to_list m).
Definition compact_stale_order_if_needed (c : LookupCache) : LookupCache :=
  if (N.of_nat (length (cache_order c)) <=? max_order (cache_capacity c))%N then c
  else mkCache (cache_capacity c) (next_generation c) (live_order (cache_values c)) (cache_values c).

Definition stamped m (s : N * K) : bool :=
  match m !! s.2 with Some e => (entry_generation e =? s.1)%N | None => false end.
Fixpoint evict (capacity : N) q m : list (N * K) * gmap K LookupCacheEntry :=
  if (N.of_nat (size m) <=? capacity)%N then (q, m)
  else match q with
       | [] => ([], m)
       | expired :: q' => evict capacity q' (if stamped m expired then delete expired.2 m else m)
       end.
Definition evict_over_capacity (c : LookupCache) : LookupCache :=
  let r := evict (cache_capacity c) (cache_order c) (cache_values c) in
  mkCache (cache_capacity c) (next_generation c) r.1 r.2.

Definition cache_get (key : K) (c : LookupCache) : option V * LookupCache :=
  let '(generation, c) := next_lookup_generation c in
  match cache_values c !! key with
  | None => (None, c)
  | Some e =>
      (Some (entry_value e), compact_stale_order_if_needed (mkCache (cache_capacity c) (next_generation c)
        (cache_order c ++ [(generation, key)]) (<[key := mkCached generation (entry_value e)]> (cache_values c))))
  end.
Definition cache_insert (key : K) (value : V) (c : LookupCache) : LookupCache :=
  if decide (cache_capacity c = 0%N) then c
  else
    let '(generation, c) := next_lookup_generation c in
    compact_stale_order_if_needed (evict_over_capacity (mkCache (cache_capacity c) (next_generation c)
      (cache_order c ++ [(generation, key)]) (<[key := mkCached generation value]> (cache_values c)))).
Definition cache_clear (c : LookupCache) : LookupCache := mkCache (cache_capacity c) (next_generation c) [] ∅.
Definition cache_len (c : LookupCache) : N := N.of_nat (size (cache_values c)).

(** ** What it stands for *)
Definition used q m : list (K * V) :=
  omap (fun s => match m !! s.2 with
                 | Some e => if decide (entry_generation e = s.1) then Some (s.2, entry_value e) else None
                 | None => None end) q.
Definition recent (c : LookupCache) : list (K * V) := used (cache_order c) (cache_values c).

(** The specification: a list, the last used at the end. *)
Definition without_key (key : K) (l : list (K * V)) : list (K * V) := filter (fun p => p.1 <> key) l.
Definition lru_get (key : K) (l : list (K * V)) : option V * list (K * V) :=
  match list_to_map (M := gmap K V) l !! key with
  | Some v => (Some v, without_key key l ++ [(key, v)])
  | None => (None, l)
  end.
Definition lru_insert (capacity : nat) (key : K) (value : V) (l : list (K * V)) : list (K * V) :=
  let l := without_key key l ++ [(key, value)] in drop (length l - capacity) l.

(** ** The invariant *)
Record linked q m : Prop := {
  linked_sorted : StronglySorted (fun s t => (s.1 < t.1)%N) q;
  linked_stamps k e : m !! k = Some e -> (entry_generation e, k) ∈ q
}.
Record cache_ok (c : LookupCache) : Prop := {
  ok_linked : linked (cache_order c) (cache_values c);
  ok_next : Forall (fun s => (s.1 < next_generation c)%N) (cache_order c);
  ok_size : (cache_len c <= cache_capacity c)%N;
  ok_order : (N.of_nat (length (cache_order c)) <= max_order (cache_capacity c))%N
}.

Lemma linked_nodup q m : linked q m -> NoDup q.*1.
Proof.
  intros [Hs _]. induction Hs as [|s q Hs IH Hf]; [constructor|]. rewrite fmap_cons. constructor; [|done].
  intros (t & E & Ht)%list_elem_of_fmap. apply (proj1 (Forall_forall _ _) Hf) in Ht. lia.
Qed.
Lemma stamp_key q m g k k' : linked q m -> (g, k) ∈ q -> (g, k') ∈ q -> k = k'.
Proof.
  intros Hl%linked_nodup H1 H2. apply list_elem_of_lookup in H1 as [i Hi], H2 as [j Hj].
  assert (i = j) as ->; [|congruence]. eapply NoDup_lookup; [exact Hl| |]; rewrite list_lookup_fmap, ?Hi, ?Hj; done.
Qed.
Lemma used_elem q m k v : linked q m -> (k, v) ∈ used q m <-> exists e, m !! k = Some e /\ entry_value e = v.
Proof.
  intros Hl. unfold used. rewrite list_elem_of_omap. split.
  - intros ([g k'] & _ & E). cbn in E. destruct (m !! k') as [e|] eqn:Em; [|done]. case_decide; [|done]. injection E as <- <-. by exists e.
  - intros (e & Em & <-). exists (entry_generation e, k). split; [by apply Hl|]. cbn. by rewrite Em, decide_True.
Qed.
Lemma used_cons s q m : used (s :: q) m =
  (match m !! s.2 with Some e => if decide (entry_generation e = s.1) then [(s.2, entry_value e)] else [] | None => [] end) ++ used q m.
Proof. unfold used. cbn. destruct (m !! s.2) as [e|]; [|done]. by destruct (decide _). Qed.
Lemma used_nodup q m : linked q m -> NoDup (used q m).*1.
Proof.
  intros [Hs _]. induction Hs as [|s q Hs IH Hf]; [constructor|]. rewrite used_cons.
  destruct (m !! s.2) as [e|] eqn:Em; [|done]. case_decide as Hg; [|done]. cbn. constructor; [|done].
  intros ([k v] & E & Hin)%list_elem_of_fmap. cbn in E. subst k. unfold used in Hin.
  apply list_elem_of_omap in Hin as ([g k] & Hin & Ek). cbn in Ek. destruct (m !! k) as [e'|] eqn:Em'; [|done].
  case_decide as Hg'; [|done]. injection Ek as -> <-. apply (proj1 (Forall_forall _ _) Hf) in Hin. cbn in Hin.
  assert (e = e') as -> by congruence. lia.
Qed.
Lemma used_perm q m : linked q m -> used q m ≡ₚ (fun p => (p.1, entry_value p.2)) <$> map_to_list m.
Proof.
  intros Hl. apply NoDup_Permutation.
  - eapply NoDup_fmap_1, used_nodup, Hl.
  - apply NoDup_fmap_1 with (f := fst). rewrite <- list_fmap_compose. apply NoDup_fst_map_to_list.
  - intros [k v]. rewrite used_elem by done. rewrite list_elem_of_fmap. split.
    + intros (e & Em & <-). exists (k, e). split; [done|]. by apply elem_of_map_to_list.
    + intros ([k' e] & [= -> ->] & Hin). exists e. by apply elem_of_map_to_list in Hin.
Qed.
Lemma used_length q m : linked q m -> length (used q m) = size m.
Proof. intros Hl. rewrite (Permutation_length (used_perm q m Hl)), length_fmap. apply length_map_to_list. Qed.
Lemma used_map q m k : linked q m -> list_to_map (M := gmap K V) (used q m) !! k = entry_value <$> m !! k.
Proof.
  intros Hl. destruct (m !! k) as [e|] eqn:Em; cbn.
  - apply elem_of_list_to_map_1; [by apply used_nodup|]. apply used_elem; [done|]. by exists e.
  - apply not_elem_of_list_to_map. intros ([k' v] & -> & Hin)%list_elem_of_fmap. apply used_elem in Hin as (e & Em' & _); [|done].
    cbn in Em. congruence.
Qed.

(** ** What the steps do to the list *)
Lemma used_eq q m m' : Forall (fun s => m !! s.2 = m' !! s.2 \/ stamped m s = false /\ stamped m' s = false) q ->
  used q m = used q m'.
Proof.
  induction 1 as [|s q Hs _ IH]; [done|]. rewrite !used_cons, IH. f_equal. destruct Hs as [-> |[E E']]; [done|].
  unfold stamped in E, E'.
  destruct (m !! s.2), (m' !! s.2); cbn in *; rewrite ?N.eqb_neq in *; by rewrite ?decide_False by done.
Qed.
Lemma used_app q q' m : used (q ++ q') m = used q m ++ used q' m.
Proof. apply omap_app. Qed.
Lemma used_without q m k : without_key k (used q m) = used q (delete k m).
Proof.
  induction q as [|s q IH]; [done|]. rewrite !used_cons. unfold without_key in *. rewrite filter_app, IH. f_equal.
  destruct (decide (s.2 = k)) as [Es|Es].
  - rewrite Es, lookup_delete_eq. destruct (m !! k) as [e|]; [|done]. case_decide; [|done].
    rewrite filter_cons_False; [done|]. cbn. by intros [].
  - rewrite lookup_delete_ne by congruence. destruct (m !! s.2) as [e|]; [|done]. case_decide; [|done].
    by rewrite filter_cons_True.
Qed.
Lemma used_touch q m g k v : linked q m -> Forall (fun s => (s.1 < g)%N) q ->
  linked (q ++ [(g, k)]) (<[k := mkCached g v]> m) /\
  used (q ++ [(g, k)]) (<[k := mkCached g v]> m) = without_key k (used q m) ++ [(k, v)].
Proof.
  intros [Hs Hin] Hlt. split.
  - split.
    + apply StronglySorted_app. repeat split; [|done|repeat constructor].
      intros x y Hx ->%list_elem_of_singleton. by apply (proj1 (Forall_forall _ _) Hlt).
    + intros k' e [[<- <-]|[_ Hk]]%lookup_insert_Some; apply elem_of_app; [right; by left|left; by apply Hin].
  - rewrite used_app, used_without, used_cons. cbn. rewrite lookup_insert_eq. cbn. rewrite decide_True by done. cbn.
    f_equal. apply used_eq. eapply Forall_impl; [exact Hlt|]. intros s Hsg. cbn in Hsg. unfold stamped.
    destruct (decide (s.2 = k)) as [->|]; [right|left].
    + rewrite lookup_insert_eq, lookup_delete_eq. cbn. split; [|done]. apply N.eqb_neq. lia.
    + rewrite lookup_insert_ne, lookup_delete_ne by congruence. done.
Qed.

Lemma linked_pop s q m : linked (s :: q) m -> linked q (if stamped m s then delete s.2 m else m) /\
  used q (if stamped m s then delete s.2 m else m) = if stamped m s then drop 1 (used (s :: q) m) else used (s :: q) m.
Proof.
  intros [Hs Hin]. apply StronglySorted_inv in Hs as [Hs Hf]. rewrite used_cons. destruct (stamped m s) eqn:E; unfold stamped in E.
  - destruct (m !! s.2) as [e|] eqn:Em; [|done]. apply N.eqb_eq in E. rewrite decide_True by done. split.
    + split; [done|]. intros k e' [Hne Hk]%lookup_delete_Some. apply Hin in Hk. apply elem_of_cons in Hk as [<-|]; [done|done].
    + cbn. rewrite drop_0. apply used_eq. eapply Forall_impl; [exact Hf|]. intros t Ht. cbn in Ht. unfold stamped.
      destruct (decide (t.2 = s.2)) as [->|]; [right|left; by rewrite lookup_delete_ne by congruence].
      rewrite lookup_delete_eq, Em. split; [done|]. apply N.eqb_neq. lia.
  - split; [split; [done|]|].
    + intros k e' Hk. pose proof (Hin _ _ Hk) as Hs'. apply elem_of_cons in Hs' as [<-|]; [|done]. cbn in E. rewrite Hk, N.eqb_refl in E. done.
    + destruct (m !! s.2) as [e|] eqn:Em; [|done]. apply N.eqb_neq in E. by rewrite decide_False.
Qed.
Lemma evict_spec capacity q : forall m, linked q m -> let r := evict capacity q m in
  linked r.1 r.2 /\ used r.1 r.2 = drop (size m - N.to_nat capacity) (used q m) /\ (N.of_nat (size r.2) <= capacity)%N /\ r.1 `suffix_of` q.
Proof.
  induction q as [|s q IH]; intros m Hl; cbn [evict]; destruct (N.leb_spec (N.of_nat (size m)) capacity) as [Hle|Hgt]; cbn.
  1,3: split_and!; [done| |done|done]; replace (size m - N.to_nat capacity)%nat with 0%nat by lia; by rewrite drop_0.
  - pose proof (used_length [] m Hl) as E. cbn in E. lia.
  - destruct (linked_pop s q m Hl) as [Hl' Hu]. destruct (IH _ Hl') as (H1 & H2 & H3 & H4). split_and!; [done| |done|by apply suffix_cons_r].
    rewrite H2, Hu. pose proof (used_length _ _ Hl') as L'. pose proof (used_length _ _ Hl) as L. rewrite Hu in L'.
    destruct (stamped m s); [|done]. rewrite length_drop in L'. rewrite drop_drop. f_equal. lia.
Qed.

Lemma used_stamped q m : used (filter (fun s => stamped m s = true) q) m = used q m.
Proof.
  induction q as [|s q IH]; [done|]. rewrite filter_cons. case_decide as E; rewrite !used_cons, IH; [done|].
  unfold stamped in E. destruct (m !! s.2) as [e|] eqn:Em; [|done]. 
  rewrite decide_False; [done|]. intros Eg. by rewrite Eg, N.eqb_refl in E.
Qed.
Lemma live_order_perm q m : linked q m -> live_order m ≡ₚ filter (fun s => stamped m s = true) q.
Proof.
  intros Hl. unfold live_order. rewrite sort_by_perm. apply NoDup_Permutation.
  - apply (NoDup_fmap_1 snd). rewrite <- list_fmap_compose. apply NoDup_fst_map_to_list.
  - apply NoDup_filter, (NoDup_fmap_1 fst), linked_nodup with m, Hl.
  - intros [g k]. rewrite list_elem_of_fmap, list_elem_of_filter. split.
    + intros ([k' e] & [= -> ->] & Hin%elem_of_map_to_list). cbn in Hin. split; [unfold stamped; cbn; by rewrite Hin, N.eqb_refl|by apply Hl].
    + intros [E Hin]. unfold stamped in E. cbn in E. destruct (m !! k) as [e|] eqn:Em; [|done]. apply N.eqb_eq in E as <-.
      exists (k, e). split; [done|]. by apply elem_of_map_to_list.
Qed.
Lemma live_order_eq q m : linked q m -> live_order m = filter (fun s => stamped m s = true) q.
Proof.
  intros Hl. apply (StronglySorted_unique_strong (fun s t => (s.1 <= t.1)%N)); [| | |by apply live_order_perm].
  - intros [g k] [g' k'] H1 H2 Hle Hle'. cbn in *. assert (g = g') as -> by lia. f_equal.
    rewrite live_order_perm in H1 by done. apply list_elem_of_filter in H1 as [_ H1], H2 as [_ H2]. by eapply stamp_key.
  - eapply sorted_weaken; [|apply (sort_by_sorted (fst : N * K -> N))].
    intros s t Hst. unfold key_le_of, le_of, cmp, N_ord in Hst. apply N.compare_le_iff in Hst. done.
  - assert (Hs : StronglySorted (fun s t : N * K => (s.1 <= t.1)%N) q).
    { eapply sorted_weaken; [|apply Hl]. intros s t. cbn. lia. }
    by apply sorted_filter.
Qed.
Lemma compact_spec c : linked (cache_order c) (cache_values c) -> (cache_len c <= cache_capacity c)%N ->
  let c' := compact_stale_order_if_needed c in
  linked (cache_order c') (cache_values c') /\ recent c' = recent c /\ cache_values c' = cache_values c /\
  cache_capacity c' = cache_capacity c /\ next_generation c' = next_generation c /\
  (forall P, Forall P (cache_order c) -> Forall P (cache_order c')) /\
  (N.of_nat (length (cache_order c')) <= max_order (cache_capacity c))%N.
Proof.
  intros Hl Hn. unfold compact_stale_order_if_needed. destruct (N.leb_spec (N.of_nat (length (cache_order c))) (max_order (cache_capacity c))); [done|].
  unfold recent. pose proof (live_order_eq _ _ Hl) as E. cbn [cache_order cache_values cache_capacity next_generation].
  rewrite E, used_stamped. split_and!; try done.
  - rewrite <- E. split.
    + rewrite E. apply sorted_filter, Hl.
    + intros k e Hk. rewrite E, list_elem_of_filter. split; [unfold stamped; cbn; by rewrite Hk, N.eqb_refl|by apply Hl].
  - intros P HP. apply Forall_forall. intros y [_ Hy]%list_elem_of_filter. by apply (proj1 (Forall_forall _ _) HP).
  - rewrite <- E. unfold live_order. rewrite sort_by_length, length_fmap. unfold cache_len, max_order in *.
    rewrite <- length_map_to_list in Hn. lia.
Qed.

(** ** The operations, one by one *)
Lemma new_cache_ok capacity : cache_ok (new_cache capacity).
Proof.
  split; cbn; [|constructor| |unfold max_order; lia].
  - split; [constructor|]. intros k e. by rewrite lookup_empty.
  - unfold cache_len. cbn. rewrite map_size_empty. lia.
Qed.
Lemma lru_get_recent key c : cache_ok c -> lru_get key (recent c) =
  match cache_values c !! key with Some e => (Some (entry_value e), without_key key (recent c) ++ [(key, entry_value e)]) | None => (None, recent c) end.
Proof. intros Hc. unfold lru_get, recent. rewrite used_map by apply Hc. by destruct (cache_values c !! key). Qed.

Lemma taken_ok c n : cache_ok c -> (next_generation c <= n)%N ->
  cache_ok (mkCache (cache_capacity c) n (cache_order c) (cache_values c)).
Proof. intros [Hl Hn Hs Ho] Hle. split; cbn; try done. eapply Forall_impl; [exact Hn|]. intros s. cbn. lia. Qed.
Lemma cache_get_spec key c : cache_ok c -> (next_generation c + 1 < U64)%N -> let r := cache_get key c in
  cache_ok r.2 /\ (r.1, recent r.2) = lru_get key (recent c) /\ cache_capacity r.2 = cache_capacity c /\ next_generation r.2 = (next_generation c + 1)%N.
Proof.
  intros Hc Hg. rewrite lru_get_recent by done. unfold cache_get. cbn [next_lookup_generation cache_values cache_capacity next_generation cache_order].
  rewrite wrapping_add_small by done. destruct (cache_values c !! key) as [e|] eqn:Em; cbn [fst snd].
  2: { split_and!; [|done..]. apply taken_ok; [done|lia]. }
  destruct Hc as [Hl Hn Hs Ho]. destruct (used_touch _ _ (next_generation c) key (entry_value e) Hl Hn) as [Hl' Hu].
  destruct (compact_spec (mkCache (cache_capacity c) (next_generation c + 1) (cache_order c ++ [(next_generation c, key)])
    (<[key := mkCached (next_generation c) (entry_value e)]> (cache_values c))) Hl') as (H1 & H2 & H3 & H4 & H5 & H6 & H7).
  { unfold cache_len in *. cbn. rewrite map_size_insert_Some by done. done. }
  split_and!; [split; [done| | |]| |done|done].
  - rewrite H5. apply H6, Forall_app. split; [|repeat constructor; cbn; lia]. eapply Forall_impl; [exact Hn|]. intros s. cbn. lia.
  - unfold cache_len. rewrite H3, H4. cbn. rewrite map_size_insert_Some by done. exact Hs.
  - rewrite H4. exact H7.
  - rewrite H2. unfold recent. cbn [cache_order cache_values]. by rewrite Hu.
Qed.
Lemma evict_over_spec c : linked (cache_order c) (cache_values c) -> let c' := evict_over_capacity c in
  linked (cache_order c') (cache_values c') /\ recent c' = drop (length (recent c) - N.to_nat (cache_capacity c)) (recent c) /\
  (cache_len c' <= cache_capacity c)%N /\ (forall P, Forall P (cache_order c) -> Forall P (cache_order c')).
Proof.
  intros Hl. destruct (evict_spec (cache_capacity c) _ _ Hl) as (H1 & H2 & H3 & [q H4]). unfold recent. cbn.
  rewrite used_length by done. split_and!; [done|done|done|]. intros P. rewrite H4 at 1. rewrite Forall_app. naive_solver.
Qed.
Lemma cache_insert_spec key value c : cache_ok c -> (next_generation c + 1 < U64)%N -> let c' := cache_insert key value c in
  cache_ok c' /\ recent c' = lru_insert (N.to_nat (cache_capacity c)) key value (recent c) /\
  cache_capacity c' = cache_capacity c /\ (next_generation c' <= next_generation c + 1)%N.
Proof.
  intros Hc Hg. unfold cache_insert. destruct (decide (cache_capacity c = 0%N)) as [E0|_].
  { split_and!; [done| |done|lia]. unfold lru_insert. rewrite E0. cbn zeta. rewrite drop_ge by lia.
    apply nil_length_inv. unfold recent. rewrite used_length by apply Hc. pose proof (ok_size _ Hc). unfold cache_len in *. lia. }
  cbn [next_lookup_generation cache_values cache_capacity next_generation cache_order].
  rewrite wrapping_add_small by done. destruct Hc as [Hl Hn Hs Ho].
  destruct (used_touch _ _ (next_generation c) key value Hl Hn) as [Hl' Hu].
  edestruct (evict_over_spec (mkCache (cache_capacity c) (next_generation c + 1) (cache_order c ++ [(next_generation c, key)])
    (<[key := mkCached (next_generation c) value]> (cache_values c))) Hl') as (E1 & E2 & E3 & E4).
  destruct (compact_spec _ E1 E3) as (H1 & H2 & H3 & H4 & H5 & H6 & H7).
  split_and!; [split; [done| | |]| |done|rewrite H5; cbn; lia].
  - rewrite H5. apply H6, E4, Forall_app. split; [|repeat constructor; cbn; lia]. eapply Forall_impl; [exact Hn|]. intros s. cbn. lia.
  - unfold cache_len. rewrite H3, H4. exact E3.
  - rewrite H4. exact H7.
  - rewrite H2, E2. unfold lru_insert, recent. cbn [cache_order cache_values cache_capacity]. by rewrite Hu.
Qed.
Lemma cache_clear_spec c : cache_ok c -> cache_ok (cache_clear c) /\ recent (cache_clear c) = [].
Proof.
  intros _. split; [|done]. split; cbn; [|constructor| |unfold max_order; lia].
  - split; [constructor|]. intros k e. by rewrite lookup_empty.
  - unfold cache_len. cbn. rewrite map_size_empty. lia.
Qed.

(** ** What holds of all the values stays so *)
Definition cache_all (R : K -> V -> Prop) (c : LookupCache) : Prop :=
  forall k e, cache_values c !! k = Some e -> R k (entry_value e).
Lemma all_new R capacity : cache_all R (new_cache capacity).
Proof. intros k e. cbn. by rewrite lookup_empty. Qed.
Lemma all_compact R c : cache_all R c -> cache_all R (compact_stale_order_if_needed c).
Proof. unfold compact_stale_order_if_needed. by destruct (_ <=? _)%N. Qed.
Lemma all_evict (R : K -> V -> Prop) capacity q : forall m, (forall k e, m !! k = Some e -> R k (entry_value e)) ->
  forall k e, (evict capacity q m).2 !! k = Some e -> R k (entry_value e).
Proof.
  induction q as [|s q IH]; intros m Hm; cbn [evict]; destruct (_ <=? _)%N; [done..|]. apply IH.
  destruct (stamped m s); [|done]. intros k e [_ He]%lookup_delete_Some. by apply Hm.
Qed.
Lemma all_get R key c : cache_all R c ->
  cache_all R (cache_get key c).2 /\ forall v, (cache_get key c).1 = Some v -> R key v.
Proof.
  intros Hc. unfold cache_get. cbn [next_lookup_generation cache_values cache_capacity next_generation cache_order].
  destruct (cache_values c !! key) as [e|] eqn:Em; [|done]. cbn [fst snd]. split.
  - apply all_compact. intros k e'. cbn. intros [[<- <-]|[_ He]]%lookup_insert_Some; [cbn; by apply Hc|by apply Hc].
  - intros v [= <-]. by apply Hc.
Qed.
Lemma all_insert (R : K -> V -> Prop) key value c : cache_all R c -> R key value -> cache_all R (cache_insert key value c).
Proof.
  intros Hc Hv. unfold cache_insert. destruct (decide _); [done|].
  cbn [next_lookup_generation cache_values cache_capacity next_generation cache_order]. apply all_compact.
  unfold cache_all, evict_over_capacity. cbn. apply all_evict. intros k e [[<- <-]|[_ He]]%lookup_insert_Some; [done|by apply Hc].
Qed.

(** ** Sequences of calls *)
Inductive cache_op : Type := CacheGet (key : K) | CacheInsert (key : K) (value : V) | CacheClear.
Definition cache_step (op : cache_op) (c : LookupCache) : option V * LookupCache :=
  match op with
  | CacheGet key => cache_get key c
  | CacheInsert key value => (None, cache_insert key value c)
  | CacheClear => (None, cache_clear c)
  end.
Definition lru_step (capacity : nat) (op : cache_op) (l : list (K * V)) : option V * list (K * V) :=
  match op with
  | CacheGet key => lru_get key l
  | CacheInsert key value => (None, lru_insert capacity key value l)
  | CacheClear => (None, [])
  end.
Fixpoint run_calls {S} (step : cache_op -> S -> option V * S) (ops : list cache_op) (s : S) : list (option V) * S :=
  match ops with
  | [] => ([], s)
  | op :: ops => let r := step op s in let rs := run_calls step ops r.2 in (r.1 :: rs.1, rs.2)
  end.

Lemma cache_step_spec op c : cache_ok c -> (next_generation c + 1 < U64)%N -> let r := cache_step op c in
  cache_ok r.2 /\ (r.1, recent r.2) = lru_step (N.to_nat (cache_capacity c)) op (recent c) /\
  cache_capacity r.2 = cache_capacity c /\ (next_generation r.2 <= next_generation c + 1)%N.
Proof.
  intros Hc Hg. destruct op as [key|key value|]; cbn [cache_step lru_step fst snd].
  - destruct (cache_get_spec key c Hc Hg) as (? & ? & ? & ->). split_and!; [done..|lia].
  - destruct (cache_insert_spec key value c Hc Hg) as (? & -> & ? & ?). done.
  - destruct (cache_clear_spec c Hc) as (? & ->). split_and!; [done..|cbn; lia].
Qed.
Lemma run_refines ops : forall c, cache_ok c -> (next_generation c + N.of_nat (length ops) < U64)%N ->
  let r := run_calls cache_step ops c in
  cache_ok r.2 /\ (r.1, recent r.2) = run_calls (lru_step (N.to_nat (cache_capacity c))) ops (recent c) /\ cache_capacity r.2 = cache_capacity c.
Proof.
  induction ops as [|op ops IH]; intros c Hc Hg; [done|]. cbn [run_calls length] in *.
  destruct (cache_step_spec op c Hc) as (H1 & H2 & H3 & H4); [lia|].
  destruct (IH _ H1) as (H5 & H6 & H7); [lia|]. cbn [fst snd]. split_and!; [done| |congruence].
  rewrite <- H2. cbn [fst snd]. rewrite H3 in H6. by rewrite <- H6.
Qed.

(** C22: from an empty cache, over any sequence of fewer than 2^64 look-ups, inserts and
    clears, the cache with its stamped queue answers exactly as the cache that drops what was
    used least recently: a list, the last used at the end, cut to the capacity at its front.
    What the queue stands for is that list, it never holds more than [capacity] values, and
    the queue with its stale stamps stays within four times the capacity (or one more than
    it), so the rebuilds lose no value and no order. *)
Theorem lookup_cache_refines (capacity : N) (ops : list cache_op)
  (Hcapacity : (capacity + 1 < U64)%N) (Hops : (N.of_nat (length ops) < U64)%N) :
  let r := run_calls cache_step ops (new_cache capacity) in
  (r.1, recent r.2) = run_calls (lru_step (N.to_nat capacity)) ops [] /\
  (cache_len r.2 <= capacity)%N /\ (N.of_nat (length (cache_order r.2)) <= N.max (4 * capacity) (capacity + 1))%N.
Proof.
  destruct (run_refines ops (new_cache capacity) (new_cache_ok capacity)) as (H1 & H2 & H3); [cbn; lia|].
  split_and!; [exact H2| |].
  - pose proof (ok_size _ H1). rewrite H3 in *. done.
  - pose proof (ok_order _ H1) as H4. rewrite H3 in H4. unfold max_order, saturating_mul in H4. cbn [cache_capacity new_cache] in H4. lia.
Qed.
End LookupCache.
Arguments LookupCacheEntry : clear implicits.
Arguments LookupCache : clear implicits.
Arguments LookupCache K V {_ _}.

(** ** The other caches

    [RecordCache] of the look-ups, and [ContentPostingCache], [ContentRecordCache] and
    [ContentResultCache] of [crates/index/src/session.rs], are written out again for
    their keys and values; the code is the same. *)
Section Caches.
Context {V : Type}.
Definition record_cache_new := new_cache (K := FileId) (V := V).
Definition record_cache_get := cache_get (K := FileId) (V := V).
Definition record_cache_insert := cache_insert (K := FileId) (V := V).
Definition record_cache_evict_over_capacity := evict_over_capacity (K := FileId) (V := V).
Definition record_cache_compact_stale_order_if_needed := compact_stale_order_if_needed (K := FileId) (V := V).
Definition content_posting_cache_new := new_cache (K := str) (V := V).
Definition content_posting_cache_get := cache_get (K := str) (V := V).
Definition content_posting_cache_insert := cache_insert (K := str) (V := V).
Definition content_posting_cache_evict_over_capacity := evict_over_capacity (K := str) (V := V).
Definition content_posting_cache_compact_stale_order_if_needed := compact_stale_order_if_needed (K := str) (V := V).
Definition content_record_cache_new := new_cache (K := FileId) (V := V).
Definition content_record_cache_get := cache_get (K := FileId) (V := V).
Definition content_record_cache_insert := cache_insert (K := FileId) (V := V).
Definition content_record_cache_evict_over_capacity := evict_over_capacity (K := FileId) (V := V).
Definition content_record_cache_compact_stale_order_if_needed := compact_stale_order_if_needed (K := FileId) (V := V).
Definition content_result_cache_new := new_cache (K := str) (V := V).
Definition content_result_cache_get := cache_get (K := str) (V := V).
Definition content_result_cache_insert := cache_insert (K := str) (V := V).
Definition content_result_cache_evict_over_capacity := evict_over_capacity (K := str) (V := V).
Definition content_result_cache_compact_stale_order_if_needed := compact_stale_order_if_needed (K := str) (V := V).
Definition content_result_cache_clear := cache_clear (K := str) (V := V).
Definition content_result_cache_len := cache_len (K := str) (V := V).
End Caches.

#[local] Open Scope N_scope.
(** Two places, three keys: the look-up of 1 makes 2 the one to go; a queue rebuilt on the way. *)
Definition example_calls : list (cache_op (K := N) (V := N)) :=
  [CacheInsert 1 11; CacheInsert 2 12; CacheGet 1; CacheGet 1; CacheGet 1; CacheGet 1; CacheGet 1; CacheGet 1; CacheGet 1;
   CacheInsert 3 13; CacheGet 2; CacheGet 3; CacheGet 1].
Lemma lookup_cache_refines_witness :
  let r := run_calls cache_step example_calls (new_cache 2) in
  (r.1, recent r.2) = ([None; None; Some 11; Some 11; Some 11; Some 11; Some 11; Some 11; Some 11; None; None; Some 13; Some 11],
                       [(3, 13); (1, 11)]) /\
  cache_len r.2 <= 2 /\ N.of_nat (length (cache_order r.2)) <= 8.
Proof.
  intros r. pose proof (lookup_cache_refines (K := N) (V := N) 2 example_calls eq_refl eq_refl) as H.
  change (run_calls cache_step example_calls (new_cache 2)) with r in H. cbv zeta in H.
  replace (run_calls (lru_step (N.to_nat 2)) example_calls []) with
    ([None; None; Some 11; Some 11; Some 11; Some 11; Some 11; Some 11; Some 11; None; None; Some 13; Some 11], [(3, 13); (1, 11)])
    in H by (vm_compute; reflexivity).
  exact H.
Defined.
