(* ===== verification/ArchiveLookup.v ===== *)
(** * The look-ups of an index, cached ([crates/index/src/lookup.rs])

    [SearchArchiveLookup] answers from the three archives of an index (prefixes,
    substrings, fuzzy keys), each behind a cache of its own under a mutex, and counts
    requests, hits and misses.

    A [LookupPart] is what the struct has for one archive: its cache and its three counters;
    an operation on a part is an operation of each of the archives (the source writes it
    out for each).  Between looking into the cache and keeping what was read, the lock is
    free: [others] is what the other threads have done to the part by then. *)
From S2P Require Import Prelude Types Text Order Chars Control Codec StoreIds FileSystem TextFiles Durable PostingStore PrefixStore SubstringStore FuzzyStore LookupCache.
#[local] Open Scope string_scope.
#[local] Open Scope list_scope.

Record LookupPart (W : Type) : Type := mkPart { part_cache : LookupCache str (list W); part_requests : N; part_hits : N; part_misses : N }.
Arguments mkPart {W} _ _ _ _.
Arguments part_cache {W} _.
Arguments part_requests {W} _.
Arguments part_hits {W} _.
Arguments part_misses {W} _.

Definition SEARCH_ARCHIVE_LOOKUP_CACHE_CAPACITY : N := 512.
Definition volume_cache_key (term : str) (volume : N) : str := lit "volume=" ++ dec volume ++ lit ":" ++ term.
Definition canonical_lookup_key `{Unicode} (term : str) : str := str_ascii_lowercase (trim_by is_whitespace term).

Section LookupPart.
Context {W : Type}.
Implicit Types (p : LookupPart W).

Definition new_part (capacity : N) : LookupPart W := mkPart (new_cache capacity) 0 0 0.
Definition count_request : M (LookupPart W) unit :=
  mmodify (fun p => mkPart (part_cache p) (wrapping_add (part_requests p) 1) (part_hits p) (part_misses p)).
Definition count_hit : M (LookupPart W) unit :=
  mmodify (fun p => mkPart (part_cache p) (part_requests p) (wrapping_add (part_hits p) 1) (part_misses p)).
Definition count_miss : M (LookupPart W) unit :=
  mmodify (fun p => mkPart (part_cache p) (part_requests p) (part_hits p) (wrapping_add (part_misses p) 1)).
Definition cached_get (key : str) : M (LookupPart W) (option (list W)) := fun _ k p =>
  let r := cache_get key (part_cache p) in (Ok r.1, k, mkPart r.2 (part_requests p) (part_hits p) (part_misses p)).
Definition cached_insert (key : str) (values : list W) : M (LookupPart W) unit :=
  mmodify (fun p => mkPart (cache_insert key values (part_cache p)) (part_requests p) (part_hits p) (part_misses p)).

(** The first [limit], and whether there is more. *)
Definition truncated_to (limit : N) (values : list W) : list W * bool :=
  (take (N.to_nat limit) values, (limit <? N.of_nat (length values))%N).

Context (others : LookupPart W -> LookupPart W).
Definition from_cache (cache_key : str) (limit : N) (load : M (LookupPart W) (list W * bool)) : M (LookupPart W) (list W * bool) :=
  found <- cached_get cache_key ;
  match found with
  | Some values => count_hit ;; mret (truncated_to limit values)
  | None => mmodify others ;; load
  end.
Definition load_and_keep (cache_key : str) (load : M (LookupPart W) (list W * bool)) : M (LookupPart W) (list W * bool) :=
  count_miss ;;
  r <- load ;
  (if r.2 then mret tt else cached_insert cache_key r.1) ;;
  mret r.

Context (st : Store W) `{Unicode} (a : Archive).

(** [prefix_ids], [substring_ids], [fuzzy_terms]; [.._bounded]; [.._bounded_cancellable]. *)
Definition part_values (key : str) : M (LookupPart W) (list W) :=
  count_request ;;
  found <- cached_get key ;
  match found with
  | Some values => count_hit ;; mret values
  | None =>
      mmodify others ;;
      count_miss ;;
      values <- unpolled (values_for_checked st a key) ;
      cached_insert key values ;;
      mret values
  end.
Definition part_values_bounded (key : str) (limit : N) : M (LookupPart W) (list W * bool) :=
  count_request ;;
  if decide (limit = 0%N) then mret ([], false)
  else from_cache key limit (load_and_keep key (unpolled (values_for_limit_checked st a key limit))).
Definition part_values_bounded_cancellable (key : str) (limit : N) : M (LookupPart W) (list W * bool) :=
  check_control ;;
  count_request ;;
  if decide (limit = 0%N) then mret ([], false)
  else
    from_cache key limit (
      check_control ;;
      r <- load_and_keep key (values_for_limit_checked st a key limit) ;
      check_control ;;
      mret r).

(** [prefix_postings_bounded_cancellable] and [fuzzy_postings_bounded_cancellable]: the
    keys that are in the cache and those that are not, under one lock; then the others
    in one walk of the archive. *)
Definition probe_key (limit : N) (acc : list (Posting W) * list str) (key : str) : M (LookupPart W) (list (Posting W) * list str) :=
  check_control ;;
  count_request ;;
  found <- cached_get key ;
  match found with
  | Some values => count_hit ;; mret (acc.1 ++ [mkPosting key (take (N.to_nat limit) values)], acc.2)
  | None => count_miss ;; mret (acc.1, acc.2 ++ [key])
  end.
Definition loaded_map (loaded : list (LimitedPosting W)) : gmap str (list W * bool) :=
  list_to_map ((fun l => (posting_key (limited_posting l), (posting_values (limited_posting l), posting_truncated l))) <$> loaded).
Definition keep_key (loaded : gmap str (list W * bool)) (postings : list (Posting W)) (key : str) : M (LookupPart W) (list (Posting W)) :=
  check_control ;;
  let r := from_option id ([], false) (loaded !! key) in
  (if r.2 then mret tt else cached_insert key r.1) ;;
  mret (postings ++ [mkPosting key r.1]).
Definition select_nonempty (keys : list str) : M (LookupPart W) (list str) :=
  mfor (fun selected key => check_control ;; mret (if decide (key = []) then selected else btree_insert key selected)) [] keys.
Definition part_postings_bounded_cancellable (keys : list str) (limit : N) : M (LookupPart W) (list (Posting W)) :=
  if decide (limit = 0%N) then mret []
  else
    selected <- select_nonempty keys ;
    probed <- mfor (probe_key limit) ([], []) selected ;
    check_control ;;
    mmodify others ;;
    loaded <- postings_for_sorted_limit_checked st a probed.2 limit ;
    postings <- mfor (keep_key (loaded_map loaded)) probed.1 probed.2 ;
    mret (sort_by posting_key postings).
End LookupPart.

(** The ids of one volume: [.._for_volume], [.._for_volume_bounded] and
    [.._for_volume_bounded_cancellable] of prefixes and substrings. *)
Section Volume.
Context (others : LookupPart FileId -> LookupPart FileId) (st : Store FileId) `{Unicode} (a : Archive).
Definition part_ids_for_volume (key : str) (volume : N) : M (LookupPart FileId) (list FileId) :=
  count_request ;;
  count_miss ;;
  r <- unpolled (ids_for_volume_limit_checked st a key volume (U64 - 1)) ;
  mret r.1.
Definition part_ids_for_volume_bounded (key : str) (volume limit : N) : M (LookupPart FileId) (list FileId * bool) :=
  count_request ;;
  if decide (limit = 0%N) then mret ([], false)
  else
    let cache_key := volume_cache_key key volume in
    from_cache others cache_key limit (load_and_keep cache_key (unpolled (ids_for_volume_limit_checked st a key volume limit))).
Definition part_ids_for_volume_bounded_cancellable (key : str) (volume limit : N) : M (LookupPart FileId) (list FileId * bool) :=
  check_control ;;
  count_request ;;
  if decide (limit = 0%N) then mret ([], false)
  else
    let cache_key := volume_cache_key key volume in
    from_cache others cache_key limit (
      check_control ;;
      load_and_keep cache_key (ids_for_volume_limit_checked st a key volume limit)).
End Volume.

(** Fuzzy terms for a volume: those of the terms that are a prefix of a name on the
    volume, or of no name at all. *)
Section FuzzyVolume.
Context (others : LookupPart str -> LookupPart str) `{Unicode} (prefixes fuzzy : Archive).
Definition scope_term {S} (volume : N) (scoped : list str) (term : str) : M S (list str) :=
  check_control ;;
  volume_ids <- ids_for_volume_limit_checked prefix_store prefixes term volume 1 ;
  if negb (bool_decide (volume_ids.1 = [])) then mret (scoped ++ [term])
  else
    global_ids <- values_for_limit_checked prefix_store prefixes term 1 ;
    mret (if bool_decide (global_ids.1 = []) then scoped ++ [term] else scoped).
Definition fuzzy_terms_for_volume_bounded_cancellable (key : str) (volume limit : N) : M (LookupPart str) (list str * bool) :=
  check_control ;;
  count_request ;;
  if decide (limit = 0%N) then mret ([], false)
  else
    let cache_key := volume_cache_key (canonical_lookup_key key) volume in
    from_cache others cache_key limit (
      check_control ;;
      count_miss ;;
      r <- values_for_limit_checked fuzzy_store fuzzy key limit ;
      scoped <- mfor (scope_term volume) [] r.1 ;
      (if r.2 then mret tt else cached_insert cache_key scoped) ;;
      mret (scoped, r.2)).
End FuzzyVolume.

(** ** The struct *)
Record SearchArchiveLookup : Type := mkLookup {
  lookup_prefixes : Archive; lookup_substrings : Archive; lookup_fuzzy : Archive;
  prefix_part : LookupPart FileId; substring_part : LookupPart FileId; fuzzy_part : LookupPart str
}.
(** What the other threads do to each part. *)
Record Others : Type := mkOthers {
  others_prefix : LookupPart FileId -> LookupPart FileId; others_substring : LookupPart FileId -> LookupPart FileId; others_fuzzy : LookupPart str -> LookupPart str
}.

Section Lookup.
Context `{Unicode}.
Implicit Types (l : SearchArchiveLookup).

Definition open_with_capacity_cancellable {X} `{Platform, Mmap} (prefixes substrings fuzzy : FPath) (cache_capacity : N) : M (World X) SearchArchiveLookup :=
  check_control ;;
  prefixes <- open_checked prefix_store prefixes ;
  check_control ;;
  substrings <- open_checked substring_store substrings ;
  check_control ;;
  fuzzy <- open_checked fuzzy_store fuzzy ;
  check_control ;;
  mret (mkLookup prefixes substrings fuzzy (new_part cache_capacity) (new_part cache_capacity) (new_part cache_capacity)).
Definition open_cancellable {X} `{Platform, Mmap} (prefixes substrings fuzzy : FPath) : M (World X) SearchArchiveLookup :=
  open_with_capacity_cancellable prefixes substrings fuzzy SEARCH_ARCHIVE_LOOKUP_CACHE_CAPACITY.
Definition open_lookup {X} `{Platform, Mmap} (prefixes substrings fuzzy : FPath) : M (World X) SearchArchiveLookup :=
  unpolled (open_cancellable prefixes substrings fuzzy).

Definition indexed_prefixes (l : SearchArchiveLookup) : N := indexed_keys (lookup_prefixes l).
Definition indexed_substring_grams (l : SearchArchiveLookup) : N := indexed_keys (lookup_substrings l).
Definition indexed_fuzzy_keys (l : SearchArchiveLookup) : N := indexed_keys (lookup_fuzzy l).

(** An operation on one part is one on the struct. *)
Definition on_prefix {A} (f : Archive -> M (LookupPart FileId) A) : M SearchArchiveLookup A := fun c k l =>
  let '(r, k', p) := f (lookup_prefixes l) c k (prefix_part l) in
  (r, k', mkLookup (lookup_prefixes l) (lookup_substrings l) (lookup_fuzzy l) p (substring_part l) (fuzzy_part l)).
Definition on_substring {A} (f : Archive -> M (LookupPart FileId) A) : M SearchArchiveLookup A := fun c k l =>
  let '(r, k', p) := f (lookup_substrings l) c k (substring_part l) in
  (r, k', mkLookup (lookup_prefixes l) (lookup_substrings l) (lookup_fuzzy l) (prefix_part l) p (fuzzy_part l)).
Definition on_fuzzy {A} (f : Archive -> Archive -> M (LookupPart str) A) : M SearchArchiveLookup A := fun c k l =>
  let '(r, k', p) := f (lookup_prefixes l) (lookup_fuzzy l) c k (fuzzy_part l) in
  (r, k', mkLookup (lookup_prefixes l) (lookup_substrings l) (lookup_fuzzy l) (prefix_part l) (substring_part l) p).

Context (o : Others).
Definition prefix_ids (prefix : str) := on_prefix (fun a => part_values (others_prefix o) prefix_store a prefix).
Definition prefix_ids_bounded (prefix : str) (limit : N) := on_prefix (fun a => part_values_bounded (others_prefix o) prefix_store a prefix limit).
Definition prefix_ids_bounded_cancellable (prefix : str) (limit : N) :=
  on_prefix (fun a => part_values_bounded_cancellable (others_prefix o) prefix_store a prefix limit).
Definition prefix_ids_for_volume (prefix : str) (volume : N) := on_prefix (fun a => part_ids_for_volume prefix_store a prefix volume).
Definition prefix_ids_for_volume_bounded (prefix : str) (volume limit : N) :=
  on_prefix (fun a => part_ids_for_volume_bounded (others_prefix o) prefix_store a prefix volume limit).
Definition prefix_ids_for_volume_bounded_cancellable (prefix : str) (volume limit : N) :=
  on_prefix (fun a => part_ids_for_volume_bounded_cancellable (others_prefix o) prefix_store a prefix volume limit).
Definition prefix_postings_bounded_cancellable (prefixes : list str) (limit : N) :=
  on_prefix (fun a => part_postings_bounded_cancellable (others_prefix o) prefix_store a prefixes limit).

Definition substring_ids (gram : str) := on_substring (fun a => part_values (others_substring o) substring_store a gram).
Definition substring_ids_bounded (gram : str) (limit : N) := on_substring (fun a => part_values_bounded (others_substring o) substring_store a gram limit).
Definition substring_ids_bounded_cancellable (gram : str) (limit : N) :=
  on_substring (fun a => part_values_bounded_cancellable (others_substring o) substring_store a gram limit).
Definition substring_ids_for_volume (gram : str) (volume : N) := on_substring (fun a => part_ids_for_volume substring_store a gram volume).
Definition substring_ids_for_volume_bounded (gram : str) (volume limit : N) :=
  on_substring (fun a => part_ids_for_volume_bounded (others_substring o) substring_store a gram volume limit).
Definition substring_ids_for_volume_bounded_cancellable (gram : str) (volume limit : N) :=
  on_substring (fun a => part_ids_for_volume_bounded_cancellable (others_substring o) substring_store a gram volume limit).

Definition fuzzy_terms (key : str) := on_fuzzy (fun _ a => part_values (others_fuzzy o) fuzzy_store a key).
Definition fuzzy_terms_bounded (key : str) (limit : N) := on_fuzzy (fun _ a => part_values_bounded (others_fuzzy o) fuzzy_store a key limit).
Definition fuzzy_terms_bounded_cancellable (key : str) (limit : N) :=
  on_fuzzy (fun _ a => part_values_bounded_cancellable (others_fuzzy o) fuzzy_store a key limit).
Definition fuzzy_postings_bounded_cancellable (keys : list str) (limit : N) :=
  on_fuzzy (fun _ a => part_postings_bounded_cancellable (others_fuzzy o) fuzzy_store a keys limit).
Definition fuzzy_terms_on_volume_cancellable (key : str) (volume limit : N) :=
  on_fuzzy (fun prefixes a => fuzzy_terms_for_volume_bounded_cancellable (others_fuzzy o) prefixes a key volume limit).
Definition fuzzy_terms_for_volume_bounded (key : str) (volume limit : N) : M SearchArchiveLookup (list str * bool) :=
  unpolled (fuzzy_terms_on_volume_cancellable key volume limit).

(** The counters of prefixes, substrings and fuzzy keys: requests, hits, misses. *)
Definition part_telemetry {W} (p : LookupPart W) : N * N * N := (part_requests p, part_hits p, part_misses p).
Definition cache_telemetry (l : SearchArchiveLookup) : (N * N * N) * (N * N * N) * (N * N * N) :=
  (part_telemetry (prefix_part l), part_telemetry (substring_part l), part_telemetry (fuzzy_part l)).
End Lookup.
