(* ===== verification/ArchiveLookupSpec.v ===== *)
(** * The cached look-ups: the theorems

    Through the caches, whatever other threads do to them meanwhile, a look-up answers
    what the archive answers; where keys of two kinds meet in one cache it may not. *)
From S2P Require Import Prelude Types Text Order Chars Records Control Fuzzy QueryKey Codec StoreIds StoreIdsSpec FileSystem TextFiles PostingStore PostingStoreSpec PrefixStore SubstringStore FuzzyStore IndexSpec LookupCache ArchiveLookup.
#[local] Open Scope string_scope.
#[local] Open Scope list_scope.

(** ** Readers leave the state alone *)
Ltac reads_auto := repeat first
  [ apply reads_ret | apply reads_fail | apply reads_lift | apply reads_get | apply reads_check | apply reads_cursor
  | progress eauto with reads_db nocore | (apply reads_bind; [|intros]) | (apply reads_for; intros) | case_match | case_decide ].
Create HintDb reads_db.
Section Reads.
Context {W : Type} (st : Store W) `{Unicode} {S : Type}.
Lemma reads_unpolled {A} (m : M S A) : reads m -> reads (unpolled m).
Proof. intros Hm c k s. unfold unpolled. specialize (Hm never k s). by destruct (m never k s) as [[r k'] s']. Qed.
Lemma reads_normalize v : reads (normalize_checked (S := S) v).
Proof.
  unfold normalize_checked. assert (Hc : forall s i n, reads (normalize_chars (S := S) i n s)) by (induction s; intros; cbn [normalize_chars]; reads_auto).
  reads_auto.
Qed.
#[local] Hint Resolve reads_normalize : reads_db.
Lemma reads_values_for a key : reads (values_for_checked (S := S) st a key).
Proof. unfold values_for_checked, posting_for_checked. reads_auto. Qed.
Lemma reads_values_for_limit a key limit : reads (values_for_limit_checked (S := S) st a key limit).
Proof. unfold values_for_limit_checked, limited_posting_for_entry_checked. reads_auto. Qed.
Lemma reads_batch a keys limit : reads (postings_for_sorted_limit_checked (S := S) st a keys limit).
Proof.
  unfold postings_for_sorted_limit_checked.
  assert (Hs : forall k es, reads (skip_entries (S := S) k es)) by (induction es; cbn [skip_entries]; reads_auto).
  assert (Hl : forall ks es q acc, reads (batch_loop (S := S) st a limit es q acc ks)).
  { induction ks as [|k ks IH]; intros; cbn [batch_loop]; unfold limited_posting_for_entry_checked; reads_auto. }
  reads_auto.
Qed.
End Reads.
Lemma reads_ids_volume `{Unicode} (st : Store FileId) {S} a key v limit : reads (ids_for_volume_limit_checked (S := S) st a key v limit).
Proof. pose proof (reads_normalize (S := S)). unfold ids_for_volume_limit_checked. reads_auto. Qed.

(** A reader whose answer is known: under any closure it gives it, or the error of a poll. *)
Record steady {S A} (m : M S A) (v : A) : Prop := {
  steady_cooperative : cooperative m;
  steady_reads : reads m;
  steady_runs s : runs m s (Ok v) s
}.
Lemma steady_unpolled {S A} (m : M S A) v : steady m v -> steady (unpolled m) v.
Proof. intros [H1 H2 H3]. split; [apply cooperative_unpolled|by apply reads_unpolled|]. intros s. by apply runs_unpolled. Qed.
Lemma steady_ext {S A} (m : M S A) v v' : steady m v -> v = v' -> steady m v'.
Proof. by intros ? <-. Qed.

(** What an archive gives: [hits] under the normalised key. *)
Record archive_gives {W} `{Unicode} (st : Store W) (a : Archive) (hits : str -> list W) : Prop := {
  gives_all S key : steady (S := S) (values_for_checked st a key) (hits (normalize key));
  gives_limited S key limit : limit <> 0%N ->
    steady (S := S) (values_for_limit_checked st a key limit) (truncated_to limit (hits (normalize key)));
  gives_batch S keys limit : limit <> 0%N -> StronglySorted lt_of keys -> Forall (fun k => normalize k = k) keys ->
    exists r, steady (S := S) (postings_for_sorted_limit_checked st a keys limit) r /\
      forall key, key ∈ keys -> from_option id ([], false) (loaded_map r !! key) = truncated_to limit (hits key)
}.
Definition volume_gives `{Unicode} (st : Store FileId) (a : Archive) (hits : str -> list FileId) : Prop :=
  forall S key v limit, limit <> 0%N -> steady (S := S) (ids_for_volume_limit_checked st a key v limit)
    (truncated_to limit (filter (fun id => file_volume id = v) (hits (normalize key)))).

Lemma truncated_nil {W} limit : truncated_to (W := W) limit [] = ([], false).
Proof. unfold truncated_to. rewrite take_nil. f_equal. apply N.ltb_ge. cbn. lia. Qed.
Lemma sorted_lt_le {A} `{TotalOrd A} (l : list A) : StronglySorted lt_of l -> StronglySorted le_of l.
Proof. apply sorted_weaken, lt_le. Qed.

Section Held.
Context {W : Type} {st : Store W} {values_ok : list W -> Prop} {canon : list W -> list W} `{!StoreLaws st values_ok canon} `{Unicode}.
Context (a : Archive) (ps : list (Posting W)) (Ha : holds (st := st) (values_ok := values_ok) a ps).
Let hits := fun k => from_option posting_values [] (answer (st := st) (canon := canon) ps k).
Lemma loaded_answers limit keys : NoDup keys -> forall key, key ∈ keys ->
  from_option id ([], false) (loaded_map (omap (limited_answer (st := st) (canon := canon) ps limit) keys) !! key) = truncated_to limit (hits key).
Proof.
  intros Hnd key Hin. unfold loaded_map.
  set (l := (fun l => _) <$> _). assert (Hl : l = omap (fun k => (fun p => (k, truncated_to limit (posting_values p))) <$> answer (st := st) (canon := canon) ps k) keys).
  { unfold l. clear. induction keys as [|k keys IH]; [done|]. cbn [omap list_omap]. unfold limited_answer at 1.
    assert (Hk : forall p, answer (st := st) (canon := canon) ps k = Some p -> posting_key p = k).
    { intros p. unfold answer. destruct (valid_key st k); [|done]. destruct (table ps !! k); [|done]. by intros [= <-]. }
    destruct (answer ps k) as [p|]; [|exact IH]. cbn [fmap option_fmap option_map]. rewrite fmap_cons, IH. cbn. by rewrite (Hk p). }
  rewrite Hl. clear l Hl.
  assert (Hkeys : (omap (fun k => (fun p => (k, truncated_to limit (posting_values p))) <$> answer (st := st) (canon := canon) ps k) keys).*1
    = filter (fun k => is_Some (answer (st := st) (canon := canon) ps k)) keys).
  { clear. induction keys as [|k keys IH]; [done|]. cbn [omap list_omap]. rewrite filter_cons.
    destruct (answer ps k); cbn; [rewrite decide_True by eauto; cbn; by f_equal|rewrite decide_False by (by intros [? ?]); exact IH]. }
  unfold hits. destruct (answer ps key) as [p|] eqn:E.
  - rewrite (elem_of_list_to_map_1 _ key (truncated_to limit (posting_values p))); [done| |].
    + rewrite Hkeys. by apply NoDup_filter.
    + apply list_elem_of_omap. exists key. by rewrite E.
  - rewrite not_elem_of_list_to_map_1; [cbn; by rewrite truncated_nil|].
    rewrite Hkeys. intros [[? ?] _]%list_elem_of_filter. congruence.
Qed.
Lemma held_gives : archive_gives st a hits.
Proof.
  split.
  - intros S key. split; [apply cooperative_values_for|apply reads_values_for|]. intros s. by apply runs_values_for.
  - intros S key limit Hl. split; [apply cooperative_values_for_limit|apply reads_values_for_limit|]. intros s.
    pose proof (runs_values_for_limit a ps Ha key limit s) as Hr. unfold hits.
    destruct (answer ps (normalize key)); [by rewrite decide_False in Hr|]. cbn [from_option]. by rewrite truncated_nil.
  - intros S keys limit Hl Hs Hn. exists (omap (limited_answer (st := st) (canon := canon) ps limit) (filter (fun k => valid_key st k = true) keys)).
    assert (Hlook : looked_up (st := st) keys = filter (fun k => valid_key st k = true) keys).
    { unfold looked_up. f_equal. clear -Hn. induction Hn as [|k keys Hk _ IH]; [done|]. by rewrite fmap_cons, Hk, IH. }
    assert (Hs' : StronglySorted lt_of (filter (fun k => valid_key st k = true) keys)) by by apply sorted_filter.
    split.
    + split; [apply cooperative_batch|apply reads_batch|]. intros s. pose proof (runs_batch a ps Ha limit keys s Hl) as Hr.
      rewrite Hlook, decide_True in Hr by by apply sorted_lt_le. by rewrite dedup_strict in Hr.
    + intros key Hin. destruct (valid_key st key) eqn:Ev.
      * apply loaded_answers; [by apply lt_sorted_NoDup|]. by apply list_elem_of_filter.
      * unfold hits, answer, loaded_map. rewrite Ev. cbn [from_option]. rewrite truncated_nil, not_elem_of_list_to_map_1; [done|].
        intros ([k r] & -> & ([[k' vs] t] & [= -> _] & Hlim)%list_elem_of_fmap)%list_elem_of_fmap.
        apply list_elem_of_omap in Hlim as (k'' & [Hv _]%list_elem_of_filter & Hk). unfold limited_answer, answer in Hk. rewrite Hv in Hk.
        destruct (table ps !! k''); [|done]. injection Hk as -> _ _. cbn in Ev. congruence.
Qed.
End Held.
Lemma held_volume_gives {st : Store FileId} `{!StoreLaws st vec_ok sort_dedup} `{Unicode} a ps :
  (forall ids, write_values st ids = write_blocked_file_ids ids) -> holds (st := st) (values_ok := vec_ok) a ps ->
  volume_gives st a (fun k => from_option posting_values [] (answer (st := st) (canon := sort_dedup) ps k)).
Proof.
  intros Hw Ha S key v limit Hl. split; [eapply cooperative_ids_volume|apply reads_ids_volume|]. intros s.
  pose proof (runs_ids_volume Hw a ps Ha key v limit s) as Hr. destruct (answer ps (normalize key)); cbn [from_option] in *.
  - destruct (N.ltb_spec 0 limit); [exact Hr|lia].
  - by rewrite filter_nil, truncated_nil.
Qed.

(** ** What a computation gives

    From a state with [I], under any closure: a value with [Q], or the error of one of the
    polls made; the state has [I] again in either case. *)
Definition gives {S A} (I : S -> Prop) (m : M S A) (Q : A -> Prop) : Prop := forall c k s, I s ->
  let '(r, k', s') := m c k s in
  k <= k' /\ I s' /\ match r with Ok v => Q v | Err e => exists j, k <= j < k' /\ c j = Some e end.

Section Gives.
Context {S : Type} (I : S -> Prop).
Lemma answers_ret {A} (v : A) (Q : A -> Prop) : Q v -> gives I (mret v) Q.
Proof. intros Hv c k s Hs. done. Qed.
Lemma gives_check : gives I check_control (fun _ => True).
Proof. intros c k s Hs. cbn. split; [lia|]. split; [done|]. destruct (c k) eqn:E; [|done]. exists k. split; [lia|done]. Qed.
Lemma gives_modify (f : S -> S) : (forall s, I s -> I (f s)) -> gives I (mmodify f) (fun _ => True).
Proof. intros Hf c k s Hs. cbn. split; [lia|]. auto. Qed.
Lemma answers_bind {A B} (m : M S A) (f : A -> M S B) (Q : A -> Prop) (R : B -> Prop) :
  gives I m Q -> (forall v, Q v -> gives I (f v) R) -> gives I (mbind m f) R.
Proof.
  intros Hm Hf c k s Hs. unfold mbind. specialize (Hm c k s Hs). destruct (m c k s) as [[[v|e] k1] s1]; [|exact Hm].
  destruct Hm as (Hk & Hs1 & Hv). specialize (Hf v Hv c k1 s1 Hs1). destruct (f v c k1 s1) as [[r k2] s2].
  destruct Hf as (Hk2 & Hs2 & Hr). split_and!; [lia|done|]. destruct r; [done|]. destruct Hr as (j & Hj & He). exists j. split; [lia|done].
Qed.
Lemma gives_steady {A} (m : M S A) v : steady m v -> gives I m (fun r => r = v).
Proof.
  intros [Hc Hr Hv] c k s Hs. specialize (Hc c k s). specialize (Hr c k s). destruct (Hv s k) as [k1 E].
  destruct (m c k s) as [[r k'] s']. cbn in Hr. subst s'. destruct Hc as [Hk [[_ Hn]|(e & -> & Hk' & He & _)]].
  - rewrite E in Hn. injection Hn as <- <-. done.
  - split_and!; [done..|]. exists (k' - 1). split; [lia|done].
Qed.
Lemma gives_impl {A} (m : M S A) (Q R : A -> Prop) : (forall v, Q v -> R v) -> gives I m Q -> gives I m R.
Proof.
  intros HQ Hm c k s Hs. specialize (Hm c k s Hs). destruct (m c k s) as [[r k'] s']. destruct Hm as (? & ? & Hr).
  split_and!; [done..|]. destruct r; [by apply HQ|done].
Qed.
Lemma gives_for {A B} (body : B -> A -> M S B) (P : list A -> B -> Prop) l : forall acc,
  P [] acc -> (forall l1 x b, P l1 b -> l1 ++ [x] `prefix_of` l -> gives I (body b x) (P (l1 ++ [x]))) -> gives I (mfor body acc l) (P l).
Proof.
  enough (Hg : forall l0 acc, P l0 acc -> (forall l1 x b, P l1 b -> l1 ++ [x] `prefix_of` l0 ++ l -> gives I (body b x) (P (l1 ++ [x]))) ->
    gives I (mfor body acc l) (P (l0 ++ l))) by exact (Hg []).
  induction l as [|x l IH]; intros l0 acc Hacc Hb; cbn [mfor]; [rewrite app_nil_r; by apply answers_ret|].
  eapply answers_bind; [apply Hb; [exact Hacc|]|].
  - exists l. by rewrite <- app_assoc.
  - intros b Hb'. specialize (IH (l0 ++ [x]) b Hb'). rewrite <- app_assoc in IH. by apply IH.
Qed.
Lemma gives_unpolled {A} (m : M S A) (Q : A -> Prop) : gives I m Q -> gives I (unpolled m) Q.
Proof.
  intros Hm c k s Hs. unfold unpolled. specialize (Hm never k s Hs). destruct (m never k s) as [[r k'] s'].
  destruct Hm as (_ & ? & Hr). split_and!; [done..|]. destruct r; [done|]. by destruct Hr as (j & _ & ?).
Qed.
End Gives.
Create HintDb gives.
#[local] Hint Resolve gives_check answers_ret : gives.

Lemma sort_by_unique {A K} `{TotalOrd K} (key : A -> K) (l l' : list A) :
  l ≡ₚ l' -> StronglySorted (fun x y => lt_of (key x) (key y)) l' -> sort_by key l = l'.
Proof.
  intros Hp Hs. apply (StronglySorted_unique_strong (key_le_of key)).
  - intros x y Hx%(elem_of_Permutation_proper _ _ _ (sort_by_perm key l)) Hy Hxy Hyx. rewrite Hp in Hx. clear Hp.
    induction Hs as [|z l' Hs IH Hf]; [by apply elem_of_nil in Hx|]. rewrite Forall_forall in Hf.
    apply elem_of_cons in Hx as [->|Hx], Hy as [->|Hy]; [done| | |by apply IH].
    + apply Hf in Hy. unfold key_le_of, le_of, lt_of in *. by rewrite (cmp_opp (key z) (key y)), Hy in Hyx.
    + apply Hf in Hx. unfold key_le_of, le_of, lt_of in *. by rewrite (cmp_opp (key z) (key x)), Hx in Hxy.
  - apply sort_by_sorted.
  - eapply sorted_weaken; [|exact Hs]. intros x y Hxy. unfold key_le_of, le_of, lt_of in *. by rewrite Hxy.
  - by rewrite sort_by_perm.
Qed.
Lemma sublist_sorted {A} (R : A -> A -> Prop) l l' : l `sublist_of` l' -> StronglySorted R l' -> StronglySorted R l.
Proof.
  induction 1 as [|x l l' Hsub IH|x l l' Hsub IH]; intros Hs; [constructor| |apply StronglySorted_inv in Hs as [Hs _]; by apply IH].
  apply StronglySorted_inv in Hs as [Hs Hf]. constructor; [by apply IH|]. apply Forall_forall. intros y Hy.
  apply (proj1 (Forall_forall _ _) Hf). eapply sublist_subseteq; [exact Hsub|done].
Qed.

(** ** One part *)
Section Parts.
Context {W : Type} (R : str -> list W -> Prop).
Definition sound (p : LookupPart W) : Prop := cache_all R (part_cache p).
Context (others : LookupPart W -> LookupPart W) (Hothers : forall p, sound p -> sound (others p)).

Lemma sound_new capacity : sound (new_part capacity).
Proof. apply all_new. Qed.
Lemma gives_request : gives sound count_request (fun _ => True).
Proof. by apply gives_modify. Qed.
Lemma gives_hit : gives sound count_hit (fun _ => True).
Proof. by apply gives_modify. Qed.
Lemma gives_miss : gives sound count_miss (fun _ => True).
Proof. by apply gives_modify. Qed.
Lemma gives_others : gives sound (mmodify others) (fun _ => True).
Proof. by apply gives_modify. Qed.
Lemma gives_get key : gives sound (cached_get key) (fun r => forall vs, r = Some vs -> R key vs).
Proof. intros c k p Hp. destruct (all_get R key (part_cache p) Hp). done. Qed.
Lemma gives_insert key vs : R key vs -> gives sound (cached_insert key vs) (fun _ => True).
Proof. intros Hv. apply gives_modify. intros p Hp. by apply all_insert. Qed.

Lemma gives_from_cache key limit load (Q : list W * bool -> Prop) :
  (forall vs, R key vs -> Q (truncated_to limit vs)) -> gives sound load Q -> gives sound (from_cache others key limit load) Q.
Proof.
  intros HR Hl. unfold from_cache. eapply answers_bind; [apply gives_get|]. intros [vs|] Hv; cbv beta iota.
  - eapply answers_bind; [apply gives_hit|]. intros _ _. apply answers_ret. by apply HR, Hv.
  - eapply answers_bind; [apply gives_others|]. done.
Qed.
Lemma gives_load_and_keep key limit load vs : R key vs ->
  steady load (truncated_to limit vs) -> gives sound (load_and_keep key load) (fun r => r = truncated_to limit vs).
Proof.
  intros Hv Hl. unfold load_and_keep. eapply answers_bind; [apply gives_miss|]. intros _ _.
  eapply answers_bind; [by apply gives_steady|]. intros r ->. cbn [truncated_to fst snd].
  eapply answers_bind with (Q := fun _ => True); [|intros _ _; by apply answers_ret].
  destruct (N.ltb_spec limit (N.of_nat (length vs))); [by apply answers_ret|]. apply gives_insert. by rewrite take_ge by lia.
Qed.

Context (st : Store W) `{Unicode} (a : Archive) (hits : str -> list W) (Ha : archive_gives st a hits).
Lemma gives_values key : (forall vs, R key vs <-> vs = hits (normalize key)) ->
  gives sound (part_values others st a key) (fun r => r = hits (normalize key)).
Proof.
  intros HR. unfold part_values. eapply answers_bind; [apply gives_request|]. intros _ _.
  eapply answers_bind; [apply gives_get|]. intros [vs|] Hv; cbv beta iota.
  - eapply answers_bind; [apply gives_hit|]. intros _ _. apply answers_ret. by apply HR, Hv.
  - eapply answers_bind; [apply gives_others|]. intros _ _. eapply answers_bind; [apply gives_miss|]. intros _ _.
    eapply answers_bind; [apply gives_steady, steady_unpolled; by apply (gives_all _ _ _ Ha)|]. intros r ->.
    eapply answers_bind; [apply gives_insert; by apply HR|]. intros _ _. by apply answers_ret.
Qed.
Definition bounded_answer (limit : N) (vs : list W) : list W * bool := if decide (limit = 0%N) then ([], false) else truncated_to limit vs.
Lemma gives_bounded key limit : (forall vs, R key vs <-> vs = hits (normalize key)) ->
  gives sound (part_values_bounded others st a key limit) (fun r => r = bounded_answer limit (hits (normalize key))).
Proof.
  intros HR. unfold part_values_bounded, bounded_answer. eapply answers_bind; [apply gives_request|]. intros _ _.
  destruct (decide (limit = 0%N)) as [|Hl]; [by apply answers_ret|]. apply gives_from_cache; [by intros vs ->%HR|].
  apply gives_load_and_keep; [by apply HR|]. apply steady_unpolled. by apply (gives_limited _ _ _ Ha).
Qed.
Lemma gives_bounded_cancellable key limit : (forall vs, R key vs <-> vs = hits (normalize key)) ->
  gives sound (part_values_bounded_cancellable others st a key limit) (fun r => r = bounded_answer limit (hits (normalize key))).
Proof.
  intros HR. unfold part_values_bounded_cancellable, bounded_answer. eapply answers_bind; [apply gives_check|]. intros _ _.
  eapply answers_bind; [apply gives_request|]. intros _ _.
  destruct (decide (limit = 0%N)) as [|Hl]; [by apply answers_ret|]. apply gives_from_cache; [by intros vs ->%HR|].
  eapply answers_bind; [apply gives_check|]. intros _ _.
  eapply answers_bind; [apply gives_load_and_keep; [by apply HR|by apply (gives_limited _ _ _ Ha)]|]. intros r ->.
  eapply answers_bind; [apply gives_check|]. intros _ _. by apply answers_ret.
Qed.

(** *** Several keys at once *)
Lemma gives_select keys : gives sound (select_nonempty keys) (fun r => r = sort_dedup (filter (fun k => k <> []) keys)).
Proof.
  apply (gives_impl _ _ (fun r => StronglySorted lt_of r /\ forall k, k ∈ r <-> k <> [] /\ k ∈ keys)).
  { intros r [Hs Hr]. apply lt_sorted_unique; [done|apply sort_dedup_sorted|]. intros k. by rewrite Hr, sort_dedup_elem, list_elem_of_filter. }
  apply (gives_for _ _ (fun l r => StronglySorted lt_of r /\ forall k, k ∈ r <-> k <> [] /\ k ∈ l)).
  { split; [constructor|]. intros k. rewrite elem_of_nil. tauto. }
  intros l x r [Hs Hr] _. eapply answers_bind; [apply gives_check|]. intros _ _. apply answers_ret. case_decide as E.
  - split; [done|]. intros k. rewrite Hr, elem_of_app, list_elem_of_singleton. naive_solver.
  - split; [by apply btree_insert_sorted|]. intros k. rewrite btree_insert_elem, Hr, elem_of_app, list_elem_of_singleton. naive_solver.
Qed.
Definition posting_wanted (limit : N) (key : str) : Posting W := mkPosting key (take (N.to_nat limit) (hits key)).
Lemma gives_probe limit keys : (forall k, k ∈ keys -> forall vs, R k vs -> vs = hits k) ->
  gives sound (mfor (probe_key limit) ([], []) keys)
    (fun r => r.2 `sublist_of` keys /\ r.1 ++ (posting_wanted limit <$> r.2) ≡ₚ posting_wanted limit <$> keys).
Proof.
  intros HR. apply (gives_for _ _ (fun l r => r.2 `sublist_of` l /\ r.1 ++ (posting_wanted limit <$> r.2) ≡ₚ posting_wanted limit <$> l)); [done|].
  intros l x [found misses] [Hs Hp] [rest Hrest]. cbn [fst snd] in *. unfold probe_key.
  eapply answers_bind; [apply gives_check|]. intros _ _. eapply answers_bind; [apply gives_request|]. intros _ _.
  eapply answers_bind; [apply gives_get|]. intros [vs|] Hv; cbv beta iota.
  - eapply answers_bind; [apply gives_hit|]. intros _ _. apply answers_ret. cbn [fst snd].
    rewrite (HR x) with (vs := vs); [|rewrite Hrest; set_solver|by apply Hv]. split; [by apply sublist_inserts_r|].
    rewrite fmap_app, <- Hp, <- !app_assoc. apply Permutation_app_head, Permutation_app_comm.
  - eapply answers_bind; [apply gives_miss|]. intros _ _. apply answers_ret. cbn [fst snd]. split; [by apply sublist_app|].
    rewrite !fmap_app, app_assoc. by apply Permutation_app_tail.
Qed.
Lemma gives_keep limit loaded found keys :
  (forall k, k ∈ keys -> R k (hits k) /\ from_option id ([], false) (loaded !! k) = truncated_to limit (hits k)) ->
  gives sound (mfor (keep_key loaded) found keys) (fun r => r = found ++ (posting_wanted limit <$> keys)).
Proof.
  intros Hk. apply (gives_for _ _ (fun l r => r = found ++ (posting_wanted limit <$> l))); [by rewrite app_nil_r|].
  intros l x r -> [rest Hrest]. unfold keep_key. destruct (Hk x) as [HR E]; [rewrite Hrest; set_solver|]. rewrite E. cbn [truncated_to fst snd].
  eapply answers_bind; [apply gives_check|]. intros _ _. eapply answers_bind with (Q := fun _ => True).
  - destruct (N.ltb_spec limit (N.of_nat (length (hits x)))); [by apply answers_ret|]. apply gives_insert. by rewrite take_ge by lia.
  - intros _ _. apply answers_ret. by rewrite fmap_app, <- app_assoc.
Qed.
Lemma gives_postings keys limit :
  (forall k, k ∈ keys -> normalize k = k /\ forall vs, R k vs <-> vs = hits k) ->
  gives sound (part_postings_bounded_cancellable others st a keys limit)
    (fun r => r = if decide (limit = 0%N) then [] else posting_wanted limit <$> sort_dedup (filter (fun k => k <> []) keys)).
Proof.
  intros Hk. unfold part_postings_bounded_cancellable. destruct (decide (limit = 0%N)) as [|Hl]; [by apply answers_ret|].
  set (selected := sort_dedup (filter (fun k => k <> []) keys)).
  assert (Hsel : forall k, k ∈ selected -> normalize k = k /\ forall vs, R k vs <-> vs = hits k).
  { intros k [_ Hin]%sort_dedup_elem%list_elem_of_filter. by apply Hk. }
  eapply answers_bind; [apply gives_select|]. intros ? ->. fold selected.
  eapply answers_bind; [apply (gives_probe limit selected); by intros k ? vs ?%Hsel|]. intros [found misses] [Hsub Hperm]. cbn [fst snd] in *.
  assert (Hin : forall k, k ∈ misses -> k ∈ selected) by (intros k Hin; eapply sublist_subseteq; [exact Hsub|done]).
  eapply answers_bind; [apply gives_check|]. intros _ _. eapply answers_bind; [apply gives_others|]. intros _ _.
  destruct (gives_batch _ _ _ Ha (LookupPart W) misses limit Hl) as (r & Hr & Hloaded).
  { eapply sublist_sorted; [exact Hsub|apply sort_dedup_sorted]. }
  { apply Forall_forall. intros k Hm. by apply Hsel, Hin. }
  eapply answers_bind; [by apply gives_steady|]. intros ? ->.
  eapply answers_bind; [apply (gives_keep limit)|].
  { intros k Hm. split; [by apply Hsel; [apply Hin|]|]. by apply Hloaded. }
  intros ? ->. apply answers_ret. apply sort_by_unique; [done|]. unfold selected. clear.
  assert (Hs := sort_dedup_sorted (filter (fun k : str => k <> []) keys)). induction Hs as [|x l _ IH Hf]; [constructor|].
  rewrite fmap_cons. constructor; [done|]. apply Forall_fmap. exact Hf.
Qed.
End Parts.

(** ** Ids of one volume *)
Section Volumes.
Context (R : str -> list FileId -> Prop) (others : LookupPart FileId -> LookupPart FileId) (Hothers : forall p, sound R p -> sound R (others p)).
Context (st : Store FileId) `{Unicode} (a : Archive) (hits : str -> list FileId) (Ha : volume_gives st a hits).
Definition on_volume (v : N) (ids : list FileId) : list FileId := filter (fun id => file_volume id = v) ids.

Lemma gives_volume key v : (N.of_nat (length (hits (normalize key))) < U64)%N ->
  gives (sound R) (part_ids_for_volume st a key v) (fun r => r = on_volume v (hits (normalize key))).
Proof.
  intros Hlen. unfold part_ids_for_volume. eapply answers_bind; [apply gives_request|]. intros _ _. eapply answers_bind; [apply gives_miss|]. intros _ _.
  eapply answers_bind; [apply gives_steady, steady_unpolled; by apply Ha|]. intros ? ->. apply answers_ret. cbn [truncated_to fst]. apply take_ge.
  etrans; [apply length_filter|]. unfold U64 in *. lia.
Qed.
Context (key : str) (v limit : N) (HR : forall vs, R (volume_cache_key key v) vs <-> vs = on_volume v (hits (normalize key))).
Lemma gives_volume_bounded :
  gives (sound R) (part_ids_for_volume_bounded others st a key v limit) (fun r => r = bounded_answer limit (on_volume v (hits (normalize key)))).
Proof.
  unfold part_ids_for_volume_bounded, bounded_answer. eapply answers_bind; [apply gives_request|]. intros _ _.
  destruct (decide (limit = 0%N)) as [|Hl]; [by apply answers_ret|]. apply gives_from_cache; [done|by intros vs ->%HR|].
  apply gives_load_and_keep; [by apply HR|]. apply steady_unpolled. by apply Ha.
Qed.
Lemma gives_volume_bounded_cancellable :
  gives (sound R) (part_ids_for_volume_bounded_cancellable others st a key v limit) (fun r => r = bounded_answer limit (on_volume v (hits (normalize key)))).
Proof.
  unfold part_ids_for_volume_bounded_cancellable, bounded_answer. eapply answers_bind; [apply gives_check|]. intros _ _.
  eapply answers_bind; [apply gives_request|]. intros _ _.
  destruct (decide (limit = 0%N)) as [|Hl]; [by apply answers_ret|]. apply gives_from_cache; [done|by intros vs ->%HR|].
  eapply answers_bind; [apply gives_check|]. intros _ _. apply gives_load_and_keep; [by apply HR|]. by apply Ha.
Qed.
End Volumes.

(** ** Fuzzy terms on a volume *)
Section FuzzyVolumes.
Context `{Unicode} (prefixes fuzzy : Archive) (phits : str -> list FileId) (fhits : str -> list str).
Context (Hp : archive_gives prefix_store prefixes phits) (Hv : volume_gives prefix_store prefixes phits) (Hf : archive_gives fuzzy_store fuzzy fhits).
(** On the volume, or nowhere. *)
Definition in_scope (v : N) (term : str) : bool :=
  negb (bool_decide (on_volume v (phits (normalize term)) = [])) || bool_decide (phits (normalize term) = []).
Definition scoped (v : N) (terms : list str) : list str := filter (fun t => in_scope v t = true) terms.

Lemma truncated_one {W} (vs : list W) : bool_decide ((truncated_to 1 vs).1 = []) = bool_decide (vs = []).
Proof. apply bool_decide_ext. by destruct vs. Qed.
Lemma gives_scope {S} (I : S -> Prop) v terms : gives I (mfor (scope_term prefixes v) [] terms) (fun r => r = scoped v terms).
Proof.
  apply (gives_for _ _ (fun l r => r = scoped v l)); [done|]. intros l x r -> _. unfold scope_term, scoped.
  rewrite filter_app, filter_cons, filter_nil. eapply answers_bind; [apply gives_check|]. intros _ _.
  eapply answers_bind; [apply gives_steady; by apply Hv|]. intros ? ->. rewrite truncated_one. fold (on_volume v (phits (normalize x))).
  destruct (bool_decide (on_volume v (phits (normalize x)) = [])) eqn:E; cbn [negb].
  - eapply answers_bind; [apply gives_steady; by apply (gives_limited _ _ _ Hp)|]. intros ? ->. apply answers_ret. rewrite truncated_one.
    unfold in_scope. rewrite E. cbn [negb orb]. destruct (bool_decide (phits (normalize x) = [])); cbn; [done|by rewrite app_nil_r].
  - apply answers_ret. unfold in_scope. rewrite E. cbn. done.
Qed.

Context (R : str -> list str -> Prop) (others : LookupPart str -> LookupPart str) (Hothers : forall p, sound R p -> sound R (others p)).
Context (key : str) (v limit : N) (HR : forall vs, R (volume_cache_key (normalize key) v) vs <-> vs = scoped v (fhits (normalize key))).
(** What the archive is asked for is cut before the terms are scoped; what is in the
    cache was scoped first. *)
Lemma gives_fuzzy_volume :
  gives (sound R) (fuzzy_terms_for_volume_bounded_cancellable others prefixes fuzzy key v limit) (fun r =>
    r = (if decide (limit = 0%N) then ([], false)
         else (scoped v (take (N.to_nat limit) (fhits (normalize key))), (limit <? N.of_nat (length (fhits (normalize key))))%N)) \/
    r = bounded_answer limit (scoped v (fhits (normalize key)))).
Proof.
  unfold fuzzy_terms_for_volume_bounded_cancellable, bounded_answer. eapply answers_bind; [apply gives_check|]. intros _ _.
  eapply answers_bind; [apply gives_request|]. intros _ _.
  destruct (decide (limit = 0%N)) as [|Hl]; [apply answers_ret; by left|].
  apply gives_from_cache; [done|intros vs E; right; by rewrite (proj1 (HR vs) E)|].
  eapply answers_bind; [apply gives_check|]. intros _ _. eapply answers_bind; [apply gives_miss|]. intros _ _.
  eapply answers_bind; [apply gives_steady; by apply (gives_limited _ _ _ Hf)|]. intros ? ->. cbn [truncated_to fst snd].
  eapply answers_bind; [apply gives_scope|]. intros ? ->.
  eapply answers_bind with (Q := fun _ => True); [|intros _ _; apply answers_ret; by left].
  destruct (N.ltb_spec limit (N.of_nat (length (fhits (normalize key))))); [by apply answers_ret|].
  apply gives_insert. apply HR. by rewrite take_ge by lia.
Qed.
End FuzzyVolumes.

(** ** What the caches hold *)

(** No key of a volume: what [volume_cache_key] makes begins with [volume=]. *)
Definition plain_key (key : str) : Prop := forall v term, u64_ok v -> key <> volume_cache_key term v.
(** The two kinds of keys of a cache. *)
Record right {W} `{Unicode} (hits : str -> list W) (scope : N -> str -> list W) (key : str) (vs : list W) : Prop := {
  right_of_plain : plain_key key -> vs = hits (normalize key);
  right_of_volume v term : u64_ok v -> key = volume_cache_key term v -> vs = scope v term
}.
Lemma volume_key_inj t t' v v' : u64_ok v -> u64_ok v' -> volume_cache_key t v = volume_cache_key t' v' -> v = v' /\ t = t'.
Proof.
  intros Hv Hv' E. unfold volume_cache_key in E. apply app_inv_head in E.
  destruct (dec_unique v v' (lit ":" ++ t) (lit ":" ++ t') Hv Hv') as [-> Et]; [done..|]. by injection Et as ->.
Qed.
Lemma right_plain {W} `{Unicode} (hits : str -> list W) scope key : plain_key key -> forall vs, right hits scope key vs <-> vs = hits (normalize key).
Proof. intros Hk vs. split; [intros [Hr _]; by apply Hr|]. intros ->. split; [done|]. intros v term Hv E. by destruct (Hk v term Hv). Qed.
Lemma right_normal {W} `{Unicode} (hits : str -> list W) scope key : normalize key = key -> plain_key key ->
  forall vs, right hits scope key vs <-> vs = hits key.
Proof. intros E Hk vs. rewrite (right_plain hits scope key Hk vs). by rewrite E. Qed.
Lemma right_volume {W} `{Unicode} (hits : str -> list W) scope term v : u64_ok v ->
  forall vs, right hits scope (volume_cache_key term v) vs <-> vs = scope v term.
Proof.
  intros Hv vs. split; [intros [_ Hr]; by apply Hr|]. intros ->. split; [intros Hk; by destruct (Hk v term Hv)|].
  intros v' term' Hv' E. by destruct (volume_key_inj _ _ _ _ Hv Hv' E) as [-> ->].
Qed.

(** ** The struct *)
Section Struct.
Context `{Unicode} (ph sh : str -> list FileId) (fh : str -> list str).
Implicit Types (l : SearchArchiveLookup).
Definition right_ids (hits : str -> list FileId) : str -> list FileId -> Prop := right hits (fun v term => on_volume v (hits (normalize term))).
Definition right_terms : str -> list str -> Prop := right fh (fun v term => scoped ph v (fh term)).

Lemma right_ids_volume hits term v : u64_ok v -> forall vs, right_ids hits (volume_cache_key term v) vs <-> vs = on_volume v (hits (normalize term)).
Proof. exact (right_volume hits (fun v term => on_volume v (hits (normalize term))) term v). Qed.

(** The archives give [ph], [sh] and [fh], and every value in a cache is the full answer
    to its key. *)
Record lookup_ok (l : SearchArchiveLookup) : Prop := {
  lookup_prefix_gives : archive_gives prefix_store (lookup_prefixes l) ph;
  lookup_prefix_volume : volume_gives prefix_store (lookup_prefixes l) ph;
  lookup_substring_gives : archive_gives substring_store (lookup_substrings l) sh;
  lookup_substring_volume : volume_gives substring_store (lookup_substrings l) sh;
  lookup_fuzzy_gives : archive_gives fuzzy_store (lookup_fuzzy l) fh;
  lookup_prefix_sound : sound (right_ids ph) (prefix_part l);
  lookup_substring_sound : sound (right_ids sh) (substring_part l);
  lookup_fuzzy_sound : sound right_terms (fuzzy_part l)
}.
(** The other threads leave the caches so. *)
Record others_ok (o : Others) : Prop := {
  others_prefix_ok p : sound (right_ids ph) p -> sound (right_ids ph) (others_prefix o p);
  others_substring_ok p : sound (right_ids sh) p -> sound (right_ids sh) (others_substring o p);
  others_fuzzy_ok p : sound right_terms p -> sound right_terms (others_fuzzy o p)
}.
Lemma gives_on_prefix {A} (f : Archive -> M (LookupPart FileId) A) Q :
  (forall a, archive_gives prefix_store a ph -> volume_gives prefix_store a ph -> gives (sound (right_ids ph)) (f a) Q) -> gives lookup_ok (on_prefix f) Q.
Proof.
  intros Hf c k l []. unfold on_prefix. specialize (Hf (lookup_prefixes l) ltac:(done) ltac:(done) c k (prefix_part l) ltac:(done)).
  destruct (f _ c k _) as [[r k'] p]. destruct Hf as (? & ? & ?). done.
Qed.
Lemma gives_on_substring {A} (f : Archive -> M (LookupPart FileId) A) Q :
  (forall a, archive_gives substring_store a sh -> volume_gives substring_store a sh -> gives (sound (right_ids sh)) (f a) Q) -> gives lookup_ok (on_substring f) Q.
Proof.
  intros Hf c k l []. unfold on_substring. specialize (Hf (lookup_substrings l) ltac:(done) ltac:(done) c k (substring_part l) ltac:(done)).
  destruct (f _ c k _) as [[r k'] p]. destruct Hf as (? & ? & ?). done.
Qed.
Lemma gives_on_fuzzy {A} (f : Archive -> Archive -> M (LookupPart str) A) Q :
  (forall pa a, archive_gives prefix_store pa ph -> volume_gives prefix_store pa ph -> archive_gives fuzzy_store a fh -> gives (sound right_terms) (f pa a) Q) ->
  gives lookup_ok (on_fuzzy f) Q.
Proof.
  intros Hf c k l []. unfold on_fuzzy. specialize (Hf (lookup_prefixes l) (lookup_fuzzy l) ltac:(done) ltac:(done) ltac:(done) c k (fuzzy_part l) ltac:(done)).
  destruct (f _ _ c k _) as [[r k'] p]. destruct Hf as (? & ? & ?). done.
Qed.

(** An operation of each kind answers as the archive. *)
Definition answers_plain {W} (all : str -> M SearchArchiveLookup (list W)) (bounded cancellable : str -> N -> M SearchArchiveLookup (list W * bool))
    (hits : str -> list W) : Prop := forall key, plain_key key ->
  gives lookup_ok (all key) (fun r => r = hits (normalize key)) /\
  forall limit, gives lookup_ok (bounded key limit) (fun r => r = bounded_answer limit (hits (normalize key))) /\
                gives lookup_ok (cancellable key limit) (fun r => r = bounded_answer limit (hits (normalize key))).
Definition answers_volume (bounded cancellable : str -> N -> N -> M SearchArchiveLookup (list FileId * bool)) (hits : str -> list FileId) : Prop :=
  forall key v limit, u64_ok v ->
  gives lookup_ok (bounded key v limit) (fun r => r = bounded_answer limit (on_volume v (hits (normalize key)))) /\
  gives lookup_ok (cancellable key v limit) (fun r => r = bounded_answer limit (on_volume v (hits (normalize key)))).
End Struct.

(** C16: The caches cannot be seen by look-ups of texts that do not read as a key of the
    volume cache ([volume=<number>:...]); a look-up of a text that does can be answered
    with the ids of one volume (volume_key_collision). Whatever the closure, and
    whatever other threads have put into the caches or dropped from them between looking
    and keeping (as long as they keep full answers), a look-up of any other prefix, gram
    or fuzzy key, bounded or not, and of the ids of one volume under any key, answers
    what the archive has under the normalised key, at most [limit] of it with whether
    there is more, or stops with the error of the closure; and the caches hold full
    answers again. *)
Theorem cached_lookup_transparent `{Unicode} (ph sh : str -> list FileId) (fh : str -> list str) (o : Others) :
  others_ok ph sh fh o ->
  answers_plain ph sh fh (prefix_ids o) (prefix_ids_bounded o) (prefix_ids_bounded_cancellable o) ph /\
  answers_plain ph sh fh (substring_ids o) (substring_ids_bounded o) (substring_ids_bounded_cancellable o) sh /\
  answers_plain ph sh fh (fuzzy_terms o) (fuzzy_terms_bounded o) (fuzzy_terms_bounded_cancellable o) fh /\
  answers_volume ph sh fh (prefix_ids_for_volume_bounded o) (prefix_ids_for_volume_bounded_cancellable o) ph /\
  answers_volume ph sh fh (substring_ids_for_volume_bounded o) (substring_ids_for_volume_bounded_cancellable o) sh.
Proof.
  intros [Hp Hs Hf]. split_and!.
  - intros key Hk. split; [|intros limit; split]; apply gives_on_prefix; intros a Ha _;
      [apply gives_values|apply gives_bounded|apply gives_bounded_cancellable]; done || by apply right_plain.
  - intros key Hk. split; [|intros limit; split]; apply gives_on_substring; intros a Ha _;
      [apply gives_values|apply gives_bounded|apply gives_bounded_cancellable]; done || by apply right_plain.
  - intros key Hk. split; [|intros limit; split]; apply gives_on_fuzzy; intros pa a _ _ Ha;
      [apply gives_values|apply gives_bounded|apply gives_bounded_cancellable]; done || by apply right_plain.
  - intros key v limit Hv. split; apply gives_on_prefix; intros a _ Ha; [apply gives_volume_bounded|apply gives_volume_bounded_cancellable];
      done || by apply right_ids_volume.
  - intros key v limit Hv. split; apply gives_on_substring; intros a _ Ha; [apply gives_volume_bounded|apply gives_volume_bounded_cancellable];
      done || by apply right_ids_volume.
Qed.

(** Many keys at once, and fuzzy terms of a volume.  Normalised keys in any order and
    number are answered each as by a look-up of its own, each key once and in order, from
    the caches or by one walk of the archive.  The fuzzy terms of a volume are those of the
    key that are a prefix of a name on the volume or of no name; where the key has more
    than [limit] terms the answer depends on the cache: terms are dropped before the cut if
    the list is in the cache, after it if the archive is asked. *)
Theorem cached_batch_transparent `{Unicode} (ph sh : str -> list FileId) (fh : str -> list str) (o : Others) :
  others_ok ph sh fh o ->
  (forall keys limit, (forall k, k ∈ keys -> normalize k = k /\ plain_key k) ->
     let asked := sort_dedup (filter (fun k => k <> []) keys) in
     gives (lookup_ok ph sh fh) (prefix_postings_bounded_cancellable o keys limit)
       (fun r => r = if decide (limit = 0%N) then [] else (fun k => mkPosting k (take (N.to_nat limit) (ph k))) <$> asked) /\
     gives (lookup_ok ph sh fh) (fuzzy_postings_bounded_cancellable o keys limit)
       (fun r => r = if decide (limit = 0%N) then [] else (fun k => mkPosting k (take (N.to_nat limit) (fh k))) <$> asked)) /\
  (forall key v limit, u64_ok v -> limit <> 0%N ->
     let terms := fh (normalize key) in
     gives (lookup_ok ph sh fh) (fuzzy_terms_on_volume_cancellable o key v limit) (fun r =>
       if (N.of_nat (length terms) <=? limit)%N then r = (scoped ph v terms, false)
       else r = (scoped ph v (take (N.to_nat limit) terms), true) \/ r = truncated_to limit (scoped ph v terms))).
Proof.
  intros [Hp Hs Hf]. split.
  - intros keys limit Hk asked.
    assert (HR : forall k, k ∈ keys -> normalize k = k /\ plain_key k) by done. clear Hk.
    split; [apply gives_on_prefix; intros a Ha _|apply gives_on_fuzzy; intros pa a _ _ Ha];
      (eapply gives_postings; [done|exact Ha|]; intros k [E Hk]%HR; split; [done|by apply right_normal]).
  - intros key v limit Hv Hl terms. apply gives_on_fuzzy. intros pa a Hpa Hva Ha.
    eapply gives_impl; [|eapply (gives_fuzzy_volume pa a ph fh Hpa Hva Ha (right_terms ph fh) _ Hf key v limit);
      exact (right_volume fh (fun v term => scoped ph v (fh term)) (normalize key) v Hv)].
    cbv beta. unfold bounded_answer. rewrite !decide_False by done. fold terms. intros r Hr.
    destruct (N.leb_spec (N.of_nat (length terms)) limit) as [Hle|Hgt].
    + assert (Hs' : length (scoped ph v terms) <= length terms) by apply length_filter.
      unfold truncated_to in Hr. rewrite !take_ge in Hr by lia. rewrite !(proj2 (N.ltb_ge _ _)) in Hr by lia. by destruct Hr.
    + rewrite (proj2 (N.ltb_lt _ _)) in Hr by lia. exact Hr.
Qed.

(** ** An index just written *)
Definition index_lookup `{Unicode} (records : list FileRecord) (prefixes substrings fuzzy : FPath) (capacity : N) : SearchArchiveLookup :=
  mkLookup (opened (st := prefix_store) (prefix_postings_from_records records) prefixes)
    (opened (st := substring_store) (substring_postings_from_records records) substrings)
    (opened (st := fuzzy_store) (fuzzy_postings_from_records records) fuzzy)
    (new_part capacity) (new_part capacity) (new_part capacity).
Definition fuzzy_hits `{Unicode} (records : list FileRecord) (key : str) : list str :=
  from_option posting_values [] (answer (st := fuzzy_store) (canon := kept_terms) (sort_postings (fuzzy_postings_from_records records)) key).
Record index_fits `{Unicode} (records : list FileRecord) : Prop := {
  fits_records : records_ok records;
  fits_prefixes : (N.of_nat (length (archive_bytes (st := prefix_store) (prefix_postings_from_records records))) < U64)%N;
  fits_substrings : (N.of_nat (length (archive_bytes (st := substring_store) (substring_postings_from_records records))) < U64)%N;
  fits_fuzzy : (N.of_nat (length (archive_bytes (st := fuzzy_store) (fuzzy_postings_from_records records))) < U64)%N;
  fits_terms : (N.of_nat (length (fuzzy_terms_of records)) < U64)%N
}.
Lemma archive_gives_ext {W} `{Unicode} (st : Store W) a h h' : (forall k, h k = h' k) -> archive_gives st a h -> archive_gives st a h'.
Proof.
  intros E [H1 H2 H3]. split; [intros; rewrite <- E; apply H1|intros; rewrite <- E; by apply H2|].
  intros S keys limit Hl Hs Hn. destruct (H3 S keys limit Hl Hs Hn) as (r & Hr & Hk). exists r. split; [done|]. intros key. rewrite <- E. apply Hk.
Qed.
Lemma volume_gives_ext `{Unicode} (st : Store FileId) a h h' : (forall k, h k = h' k) -> volume_gives st a h -> volume_gives st a h'.
Proof. intros E Hv S key v limit Hl. rewrite <- E. by apply Hv. Qed.
Lemma prefix_hits `{Unicode} records k :
  from_option posting_values [] (answer (st := prefix_store) (canon := sort_dedup) (sort_postings (prefix_postings_from_records records)) k) = ids_where (prefixed k) records.
Proof.
  rewrite prefix_records_eq, (ids_hits (st := prefix_store)). cbn [valid_key prefix_store]. case_bool_decide as E; [subst k|done].
  symmetry. apply ids_where_none. by intros r [? _]%prefixed_spec.
Qed.
Lemma substring_hits `{Unicode} records k :
  from_option posting_values [] (answer (st := substring_store) (canon := sort_dedup) (sort_postings (substring_postings_from_records records)) k) = ids_where (containing k) records.
Proof.
  rewrite substring_records_eq, (ids_hits (st := substring_store)). cbn [valid_key substring_store]. unfold is_substring_gram. case_bool_decide as E; [done|].
  symmetry. apply ids_where_none. by intros r [? _]%containing_spec.
Qed.
Lemma index_lookup_ok `{Unicode} records p1 p2 p3 capacity : index_fits records ->
  lookup_ok (fun k => ids_where (prefixed k) records) (fun k => ids_where (containing k) records) (fuzzy_hits records)
    (index_lookup records p1 p2 p3 capacity).
Proof.
  intros [Hr Hp Hs Hf Ht].
  assert (Hpo : postings_ok (st := prefix_store) (values_ok := vec_ok) (prefix_postings_from_records records)).
  { rewrite prefix_records_eq in *. apply ids_postings_ok; [done|by apply prefix_keys_ok|done]. }
  assert (Hso : postings_ok (st := substring_store) (values_ok := vec_ok) (substring_postings_from_records records)).
  { rewrite substring_records_eq in *. apply ids_postings_ok; [done|by apply substring_keys_ok|done]. }
  assert (Hfo : postings_ok (st := fuzzy_store) (values_ok := terms_ok) (fuzzy_postings_from_records records)).
  { apply fuzzy_postings_ok; [|done|done]. eapply Forall_impl; [apply Hr|]. by intros r [? _]. }
  split; cbn [index_lookup lookup_prefixes lookup_substrings lookup_fuzzy prefix_part substring_part fuzzy_part]; try apply sound_new.
  - eapply archive_gives_ext; [apply prefix_hits|]. apply held_gives, opened_holds, Hpo.
  - eapply volume_gives_ext; [apply prefix_hits|]. apply held_volume_gives; [done|]. apply opened_holds, Hpo.
  - eapply archive_gives_ext; [apply substring_hits|]. apply held_gives, opened_holds, Hso.
  - eapply volume_gives_ext; [apply substring_hits|]. apply held_volume_gives; [done|]. apply opened_holds, Hso.
  - apply held_gives, opened_holds, Hfo.
Qed.

(** ** Two kinds of keys in one cache *)
Definition alone : Others := mkOthers id id id.
Definition with_prefix_part (l : SearchArchiveLookup) (p : LookupPart FileId) : SearchArchiveLookup :=
  mkLookup (lookup_prefixes l) (lookup_substrings l) (lookup_fuzzy l) p (substring_part l) (fuzzy_part l).
Lemma runs_on_prefix {A} (f : Archive -> M (LookupPart FileId) A) l r p :
  runs (f (lookup_prefixes l)) (prefix_part l) r p -> runs (on_prefix f) l r (with_prefix_part l p).
Proof. intros Hf k. destruct (Hf k) as [k' E]. exists k'. unfold on_prefix. by rewrite E. Qed.
Lemma cache_insert_get {K V} `{Countable K} capacity (key : K) (value : V) : capacity <> 0%N ->
  (cache_get key (cache_get key (new_cache (K := K) (V := V) capacity)).2).1 = None /\
  (cache_get key (cache_insert key value (cache_get key (new_cache (K := K) (V := V) capacity)).2)).1 = Some value.
Proof.
  intros Hc. destruct (cache_get_spec key (new_cache (K := K) (V := V) capacity) (new_cache_ok _) eq_refl) as (H1 & H2 & H3 & H4).
  set (c := (cache_get key (new_cache (K := K) (V := V) capacity)).2) in *. apply (f_equal snd) in H2. change (recent c = []) in H2.
  destruct (cache_get_spec key c H1) as (_ & Hn & _); [rewrite H4; done|]. rewrite H2 in Hn.
  split; [exact (f_equal fst Hn)|].
  destruct (cache_insert_spec key value c H1) as (H5 & H6 & _ & H7); [rewrite H4; done|].
  destruct (cache_get_spec key _ H5) as (_ & Hg & _); [eapply N.le_lt_trans; [apply N.add_le_mono_r, H7|rewrite H4; done]|].
  rewrite H6, H2, H3 in Hg. unfold lru_insert in Hg. cbn [without_key app length new_cache cache_capacity] in Hg.
  change (without_key key [] ++ [(key, value)]) with [(key, value)] in Hg. cbn [length] in Hg.
  replace (1 - N.to_nat capacity)%nat with 0%nat in Hg by lia. cbn [drop] in Hg. unfold lru_get in Hg. cbn [list_to_map] in Hg.
  cbn in Hg. rewrite lookup_insert_eq in Hg. by injection Hg.
Qed.

Section Collision.
Implicit Types (p : LookupPart FileId).
Context `{Unicode} (a : Archive) (hits : str -> list FileId) (Ha : archive_gives prefix_store a hits) (Hv : volume_gives prefix_store a hits).
Definition missed (key : str) (p : LookupPart FileId) : LookupPart FileId :=
  mkPart (cache_get key (part_cache p)).2 (wrapping_add (part_requests p) 1) (part_hits p) (wrapping_add (part_misses p) 1).
Definition kept (key : str) (vs : list FileId) (p : LookupPart FileId) : LookupPart FileId :=
  mkPart (cache_insert key vs (part_cache p)) (part_requests p) (part_hits p) (part_misses p).
Lemma runs_get_missed key p : (cache_get key (part_cache p)).1 = None ->
  runs (cached_get key) p (Ok None) (mkPart (cache_get key (part_cache p)).2 (part_requests p) (part_hits p) (part_misses p)).
Proof. intros E k. exists k. unfold cached_get. by rewrite E. Qed.
Lemma runs_volume_missed term v limit p : let key := volume_cache_key term v in let ids := on_volume v (hits (normalize term)) in
  limit <> 0%N -> (N.of_nat (length ids) <= limit)%N -> (cache_get key (part_cache p)).1 = None ->
  runs (part_ids_for_volume_bounded id prefix_store a term v limit) p (Ok (ids, false)) (kept key ids (missed key p)).
Proof.
  intros key ids Hl Hlen E. unfold part_ids_for_volume_bounded. eapply runs_bind; [apply runs_modify|]. rewrite decide_False by done.
  fold key. unfold from_cache. eapply runs_bind; [by apply runs_get_missed|]. cbv beta iota.
  eapply runs_bind; [apply runs_modify|]. unfold load_and_keep. eapply runs_bind; [apply runs_modify|].
  eapply runs_bind; [apply steady_runs, steady_unpolled; by apply Hv|]. cbv beta. fold (on_volume v (hits (normalize term))). fold ids.
  unfold truncated_to. rewrite take_ge by lia. rewrite (proj2 (N.ltb_ge _ _)) by done. cbn [fst snd].
  eapply runs_bind; [apply runs_modify|]. apply runs_ret.
Qed.
Lemma runs_values_hit key vs p : (cache_get key (part_cache p)).1 = Some vs -> exists p',
  runs (part_values id prefix_store a key) p (Ok vs) p'.
Proof.
  intros E. eexists. unfold part_values. eapply runs_bind; [apply runs_modify|]. eapply runs_bind.
  { intros k. exists k. unfold cached_get. cbn [part_cache]. rewrite E. reflexivity. }
  cbv beta iota. eapply runs_bind; [apply runs_modify|]. apply runs_ret.
Qed.
Lemma runs_values_missed key p : (cache_get key (part_cache p)).1 = None -> exists p',
  runs (part_values id prefix_store a key) p (Ok (hits (normalize key))) p'.
Proof.
  intros E. eexists. unfold part_values. eapply runs_bind; [apply runs_modify|]. eapply runs_bind; [by apply runs_get_missed|].
  cbv beta iota. eapply runs_bind; [apply runs_modify|]. eapply runs_bind; [apply runs_modify|].
  eapply runs_bind; [apply steady_runs, steady_unpolled; by apply (gives_all _ _ _ Ha)|]. cbv beta.
  eapply runs_bind; [apply runs_modify|]. apply runs_ret.
Qed.
End Collision.

(** Texts and texts on a volume share one cache, under keys that can be the same: once
    the ids of [term] on volume [v] have been looked up, a look-up of the prefix that
    reads [volume=v:term] answers those ids, and not what the archive has under that
    prefix, which it did answer before. *)
Theorem volume_key_collision `{Unicode} records p1 p2 p3 capacity term v limit :
  index_fits records -> capacity <> 0%N -> limit <> 0%N ->
  let l := index_lookup records p1 p2 p3 capacity in
  let key := volume_cache_key term v in
  let ids := on_volume v (ids_where (prefixed (normalize term)) records) in
  (N.of_nat (length ids) <= limit)%N ->
  (run (prefix_ids alone key) never l).1 = Ok (ids_where (prefixed (normalize key)) records) /\
  let '(r, l') := run (prefix_ids_for_volume_bounded alone term v limit) never l in
  r = Ok (ids, false) /\ (run (prefix_ids alone key) never l').1 = Ok ids.
Proof.
  intros Hr Hc Hl l key ids Hlen. pose proof (index_lookup_ok records p1 p2 p3 capacity Hr) as [Hp Hv _ _ _ _ _ _]. fold l in Hp, Hv.
  destruct (cache_insert_get capacity key ids Hc) as [_ Hget].
  assert (Hmiss : (cache_get key (part_cache (prefix_part l))).1 = None) by done. split.
  - destruct (runs_values_missed _ _ Hp key (prefix_part l) Hmiss) as [p' Hx].
    pose proof (runs_run _ _ _ _ (runs_on_prefix (fun a => part_values id prefix_store a key) l _ _ Hx)) as E.
    unfold prefix_ids. cbn [alone others_prefix]. by rewrite E.
  - pose proof (runs_volume_missed _ _ Hv term v limit (prefix_part l) Hl Hlen Hmiss) as Hx.
    pose proof (runs_run _ _ _ _ (runs_on_prefix (fun a => part_ids_for_volume_bounded id prefix_store a term v limit) l _ _ Hx)) as E.
    unfold prefix_ids_for_volume_bounded. cbn [alone others_prefix]. rewrite E. split; [done|].
    set (l' := with_prefix_part _ _). destruct (runs_values_hit (lookup_prefixes l') key ids (prefix_part l') Hget) as [p' Hy].
    pose proof (runs_run _ _ _ _ (runs_on_prefix (fun a => part_values id prefix_store a key) l' _ _ Hy)) as E'.
    unfold prefix_ids. cbn [alone others_prefix]. by rewrite E'.
Qed.
