(* ===== verification/SearchIndex.v ===== *)
(** * The index in memory ([crates/search/src/ingest.rs])

    [SearchIndex]: the records, their columns, and for each kind of key the ids of the
    records under it.  The maps from keys to ids are grouped in [Terms]; [post] and
    [unpost] are the two moves the code makes on them ([entry(..).or_default().insert(..)]
    and [remove_id]). *)
From S2P Require Import Prelude Types Text Order Chars Records Fuzzy Query.
#[local] Open Scope list_scope.

#[export] Instance FileKind_countable : Countable FileKind.
Proof.
  refine (inj_countable' (fun k => match k with Directory => 0 | File => 1 | Symlink => 2 | OtherKind => 3 end)
    (fun n => match n with 0 => Directory | 1 => File | 2 => Symlink | _ => OtherKind end) _). by intros [].
Defined.

(** ** Values under keys *)
Section Postings.
Context {K V : Type} `{Countable K, Countable V}.
Implicit Types (m : gmap K (gset V)).
Definition post (k : K) (v : V) m : gmap K (gset V) := <[k := {[v]} ∪ default ∅ (m !! k)]> m.
Definition unpost (k : K) (v : V) m : gmap K (gset V) :=
  match m !! k with
  | Some vs => if decide (vs ∖ {[v]} = ∅) then delete k m else <[k := vs ∖ {[v]}]> m
  | None => m
  end.
Definition post_all (ks : list K) (v : V) m : gmap K (gset V) := foldl (fun m k => post k v m) m ks.
Definition unpost_all (ks : list K) (v : V) m : gmap K (gset V) := foldl (fun m k => unpost k v m) m ks.
(** [entry(k).or_default().extend(vs)]. *)
Definition post_ids (k : K) (vs : list V) m : gmap K (gset V) := <[k := list_to_set vs ∪ default ∅ (m !! k)]> m.
End Postings.
Definition remove_id (m : gmap str (gset FileId)) (key : str) (id : FileId) : gmap str (gset FileId) := unpost key id m.

(** ** The state *)
Record SearchRecordColumns : Type := mkSearchColumns {
  sc_id : FileId; sc_name : str; sc_path : str; sc_extension : option str; sc_tags : list str; sc_comment : option str
}.
Record Terms : Type := mkTerms {
  name_exact : gmap str (gset FileId);
  name_prefixes : gmap str (gset FileId);
  name_substrings : gmap str (gset FileId);
  name_terms : gmap str (gset FileId);
  path_terms : gmap str (gset FileId);
  metadata_terms : gmap str (gset FileId);
  deletions : gmap str (gset str);  (* [fuzzy_terms] *)
  extensions : gmap str (gset FileId);
  tags : gmap str (gset FileId);
  kinds : gmap FileKind (gset FileId)
}.
Record SearchIndex : Type := mkIndex {
  records : gmap FileId FileRecord;
  columns : gmap FileId RecordColumns;
  paths : gmap str FileId;
  index_terms : Terms;
  content_terms : gmap str (gmap FileId (list N));
  content_record_terms : gmap FileId (gset str);
  pinned : gset FileId
}.
Definition no_terms : Terms := mkTerms ∅ ∅ ∅ ∅ ∅ ∅ ∅ ∅ ∅ ∅.
Definition new_index : SearchIndex := mkIndex ∅ ∅ ∅ no_terms ∅ ∅ ∅.
Definition index_len (ix : SearchIndex) : nat := size (records ix).
Definition index_is_empty (ix : SearchIndex) : bool := bool_decide (records ix = ∅).
Definition indexed_name_prefixes (ix : SearchIndex) : nat := size (name_prefixes (index_terms ix)).
Definition path_key (p : str) : str := p.

Record SidecarPolicy : Type := mkPolicy { build_prefixes : bool; build_substrings : bool; build_fuzzy : bool; build_metadata : bool }.
Definition build_all : SidecarPolicy := mkPolicy true true true true.

Section SearchIndex.
Context `{Unicode}.
Implicit Types (t : Terms) (ix : SearchIndex) (c : RecordColumns) (r : FileRecord) (id : FileId).

Definition from_search_columns (s : SearchRecordColumns) : RecordColumns :=
  let name := normalize (sc_name s) in
  let path := normalize (sc_path s) in
  let comment := normalize <$> sc_comment s in
  mkColumns name path (normalize <$> sc_extension s)
    (sort_dedup (filter (fun tag => tag <> []) (normalize <$> sc_tags s)))
    comment (tokenize name) (tokenize path)
    (match comment with Some c => tokenize c | None => [] end)
    (sort_dedup (filter (fun term => is_fuzzy_term term = true) (tokenize name))).

(** ** Terms of one record *)
Definition add_fuzzy_term (term : str) (m : gmap str (gset str)) : gmap str (gset str) :=
  if negb (is_fuzzy_term term) then m else post_all (deletion_keys term 2) term m.
Definition remove_fuzzy_term (term : str) (m : gmap str (gset str)) : gmap str (gset str) :=
  if negb (is_fuzzy_term term) then m else unpost_all (deletion_keys term 2) term m.

Definition add_name_token (policy : SidecarPolicy) id t (token : str) : Terms :=
  let is_new := bool_decide (name_terms t !! token = None) in
  mkTerms (name_exact t)
    (if build_prefixes policy then post_all (token_prefixes token) id (name_prefixes t) else name_prefixes t)
    (name_substrings t) (post token id (name_terms t)) (path_terms t) (metadata_terms t)
    (if build_fuzzy policy && is_new then add_fuzzy_term token (deletions t) else deletions t)
    (extensions t) (tags t) (kinds t).
Definition add_terms_with_sidecar_policy (policy : SidecarPolicy) r c t : Terms :=
  let id := record_id r in
  let t := mkTerms (post (col_name c) id (name_exact t)) (name_prefixes t) (name_substrings t) (name_terms t) (path_terms t)
             (metadata_terms t) (deletions t) (extensions t) (tags t) (kinds t) in
  let t := foldl (add_name_token policy id) t (name_tokens c) in
  mkTerms (name_exact t) (name_prefixes t)
    (if build_substrings policy then post_all (substring_grams (col_name c)) id (name_substrings t) else name_substrings t)
    (name_terms t)
    (post_all (path_tokens c) id (path_terms t))
    (if build_metadata policy then post_all (metadata_tokens c) id (metadata_terms t) else metadata_terms t)
    (deletions t)
    (match col_extension c with Some ext => post ext id (extensions t) | None => extensions t end)
    (if build_metadata policy then post_all (col_tags c) id (tags t) else tags t)
    (post (record_kind r) id (kinds t)).
Definition add_terms r c t : Terms := add_terms_with_sidecar_policy build_all r c t.

Definition remove_name_token id t (token : str) : Terms :=
  let terms := unpost token id (name_terms t) in
  mkTerms (name_exact t) (unpost_all (token_prefixes token) id (name_prefixes t)) (name_substrings t) terms (path_terms t) (metadata_terms t)
    (if bool_decide (terms !! token = None) then remove_fuzzy_term token (deletions t) else deletions t)
    (extensions t) (tags t) (kinds t).
Definition remove_column_terms r c t : Terms :=
  let id := record_id r in
  let t := mkTerms (unpost (col_name c) id (name_exact t)) (name_prefixes t) (unpost_all (substring_grams (col_name c)) id (name_substrings t))
             (name_terms t) (path_terms t) (metadata_terms t) (deletions t) (extensions t) (tags t) (kinds t) in
  let t := foldl (remove_name_token id) t (name_tokens c) in
  mkTerms (name_exact t) (name_prefixes t) (name_substrings t) (name_terms t)
    (unpost_all (path_tokens c) id (path_terms t))
    (unpost_all (metadata_tokens c) id (metadata_terms t))
    (deletions t)
    (match col_extension c with Some ext => unpost ext id (extensions t) | None => extensions t end)
    (unpost_all (col_tags c) id (tags t))
    (unpost (record_kind r) id (kinds t)).

(** ** Content *)
Definition drop_position id (positions : gmap FileId (list N)) : option (gmap FileId (list N)) :=
  let positions := delete id positions in if decide (positions = ∅) then None else Some positions.
Definition remove_content id ix : SearchIndex :=
  match content_record_terms ix !! id with
  | None =>
      mkIndex (records ix) (columns ix) (paths ix) (index_terms ix) (omap (drop_position id) (content_terms ix))
        (content_record_terms ix) (pinned ix)
  | Some terms =>
      mkIndex (records ix) (columns ix) (paths ix) (index_terms ix)
        (set_fold (fun term m => match m !! term with
                                 | Some positions => match drop_position id positions with Some p => <[term := p]> m | None => delete term m end
                                 | None => m end) (content_terms ix) terms)
        (delete id (content_record_terms ix)) (pinned ix)
  end.
(** A term of the content of [id], with what its positions become. *)
Definition content_entry id (term : str) (f : list N -> list N) ix : SearchIndex :=
  let positions := default ∅ (content_terms ix !! term) in
  mkIndex (records ix) (columns ix) (paths ix) (index_terms ix)
    (<[term := <[id := f (default [] (positions !! id))]> positions]> (content_terms ix))
    (post id term (content_record_terms ix)) (pinned ix).
Definition insert_content id (text : str) ix : SearchIndex :=
  if decide (records ix !! id = None) then ix
  else
    foldl (fun ix p => content_entry id p.2 (fun positions => positions ++ [N.of_nat p.1 mod 2 ^ 32]%N) ix) (remove_content id ix)
      (imap pair (tokenize (normalize text))).
Definition insert_content_terms id (terms : list str) ix : SearchIndex :=
  if decide (records ix !! id = None) then ix
  else foldl (fun ix term => let term := normalize term in if decide (term = []) then ix else content_entry id term (fun positions => positions) ix) ix terms.

Record ContentPositions : Type := mkPositions { cp_id : FileId; cp_positions : list N }.
Record ContentPosting : Type := mkContentPosting { cp_term : str; cp_ids : list FileId; cp_all : list ContentPositions }.
Definition import_content_posting ix (posting : ContentPosting) : SearchIndex :=
  let term := normalize (cp_term posting) in
  if decide (term = []) then ix
  else
    let ix := foldl (fun ix id => if decide (records ix !! id = None) then ix else content_entry id term (fun positions => positions) ix) ix (cp_ids posting) in
    foldl (fun ix p => if decide (records ix !! cp_id p = None) then ix
                       else content_entry (cp_id p) term (fun _ => sort_dedup (cp_positions p)) ix) ix (cp_all posting).
Definition import_content_postings (postings : list ContentPosting) ix : SearchIndex := foldl import_content_posting ix postings.
Definition content_postings ix : list ContentPosting :=
  (fun e => mkContentPosting e.1 (sort (map_to_list e.2).*1)
     ((fun p => mkPositions p.1 p.2) <$> filter (fun p => p.2 <> []) (sort_by fst (map_to_list e.2))))
  <$> sort_by fst (map_to_list (content_terms ix)).

(** ** Records *)
Definition with_terms (t : Terms) ix : SearchIndex :=
  mkIndex (records ix) (columns ix) (paths ix) t (content_terms ix) (content_record_terms ix) (pinned ix).
Definition remove_terms r ix : SearchIndex :=
  let c := default (from_record r) (columns ix !! record_id r) in
  remove_content (record_id r) (with_terms (remove_column_terms r c (index_terms ix)) ix).
(** What both inserts do first with the record that has the id now. *)
Definition displace id ix : SearchIndex :=
  match records ix !! id with
  | None => ix
  | Some old =>
      let ix := mkIndex (delete id (records ix)) (columns ix) (paths ix) (index_terms ix) (content_terms ix) (content_record_terms ix) (pinned ix) in
      let ix := remove_terms old ix in
      mkIndex (records ix) (delete id (columns ix)) (delete (path_key (record_path old)) (paths ix)) (index_terms ix)
        (content_terms ix) (content_record_terms ix) (pinned ix)
  end.
Definition place r c (t : Terms) ix : SearchIndex :=
  mkIndex (<[record_id r := r]> (records ix)) (<[record_id r := c]> (columns ix)) (<[path_key (record_path r) := record_id r]> (paths ix)) t
    (content_terms ix) (content_record_terms ix) (pinned ix).
Definition insert_record r ix : SearchIndex :=
  let ix := displace (record_id r) ix in
  let c := from_record r in
  place r c (add_terms r c (index_terms ix)) ix.
Definition insert_with_columns_inner (policy : SidecarPolicy) r (s : SearchRecordColumns) ix : bool * SearchIndex :=
  if decide (record_id r <> sc_id s) then (false, insert_record r ix)
  else
    let ix := displace (record_id r) ix in
    let c := from_search_columns s in
    (true, place r c (add_terms_with_sidecar_policy policy r c (index_terms ix)) ix).
Definition insert_with_columns := insert_with_columns_inner build_all.
Definition insert_with_columns_deferred_fuzzy := insert_with_columns_inner (mkPolicy true true false true).
Definition insert_with_columns_deferred_sidecars := insert_with_columns_inner (mkPolicy false false false false).
Definition apply_record_columns (s : SearchRecordColumns) ix : bool * SearchIndex :=
  match records ix !! sc_id s with
  | None => (false, ix)
  | Some r =>
      let ix := remove_terms r ix in
      let c := from_search_columns s in
      let t := add_terms r c (index_terms ix) in
      (true, mkIndex (records ix) (<[sc_id s := c]> (columns ix)) (paths ix) t (content_terms ix) (content_record_terms ix) (pinned ix))
  end.
Definition remove id ix : option FileRecord * SearchIndex :=
  match records ix !! id with
  | None => (None, ix)
  | Some r =>
      let ix := mkIndex (delete id (records ix)) (columns ix) (paths ix) (index_terms ix) (content_terms ix) (content_record_terms ix) (pinned ix) in
      let ix := remove_terms r ix in
      (Some r, mkIndex (records ix) (delete id (columns ix)) (delete (path_key (record_path r)) (paths ix)) (index_terms ix)
                 (content_terms ix) (content_record_terms ix) (pinned ix ∖ {[id]}))
  end.
Definition without_path (key : str) ix : SearchIndex :=
  mkIndex (records ix) (columns ix) (delete key (paths ix)) (index_terms ix) (content_terms ix) (content_record_terms ix) (pinned ix).
Definition remove_path (p : str) ix : option FileRecord * SearchIndex :=
  match paths ix !! path_key p with
  | None => (None, ix)
  | Some id => remove id (without_path (path_key p) ix)
  end.
Definition in_subtree (root key : str) : bool := bool_decide (key = root) || has_prefix (root ++ lit "/") key.
Definition remove_subtree (root : str) ix : list FileRecord * SearchIndex :=
  let ids := snd <$> filter (fun e => in_subtree (path_key root) e.1 = true) (sort_by fst (map_to_list (paths ix))) in
  foldl (fun acc id => let r := remove id acc.2 in (acc.1 ++ option_list r.1, r.2)) ([], ix) ids.
Definition get_path (p : str) ix : option FileRecord := id ← paths ix !! path_key p ; records ix !! id.

Definition pin id ix : bool * SearchIndex :=
  if decide (records ix !! id = None) then (false, ix)
  else (bool_decide (id ∉ pinned ix), mkIndex (records ix) (columns ix) (paths ix) (index_terms ix) (content_terms ix) (content_record_terms ix) ({[id]} ∪ pinned ix)).
Definition unpin id ix : bool * SearchIndex :=
  (bool_decide (id ∈ pinned ix), mkIndex (records ix) (columns ix) (paths ix) (index_terms ix) (content_terms ix) (content_record_terms ix) (pinned ix ∖ {[id]})).
Definition is_pinned id ix : bool := bool_decide (id ∈ pinned ix).

(** ** Postings of archives *)
Record SearchPrefixPosting : Type := mkPrefixPosting { spp_prefix : str; spp_ids : list FileId }.
Record SearchSubstringPosting : Type := mkSubstringPosting { ssp_gram : str; ssp_ids : list FileId }.
Record SearchFuzzyPosting : Type := mkFuzzyPosting { sfp_key : str; sfp_terms : list str }.
Inductive SearchMetadataField : Type := TagField | CommentField.
Record SearchMetadataPosting : Type := mkMetadataPosting { smp_field : SearchMetadataField; smp_term : str; smp_ids : list FileId }.

Definition known ix (ids : list FileId) : list FileId := filter (fun id => is_Some (records ix !! id)) ids.
Definition import_prefix_posting ix (posting : SearchPrefixPosting) : SearchIndex :=
  let prefix := normalize (spp_prefix posting) in
  let ids := known ix (spp_ids posting) in
  if negb (is_prefix_term prefix) || bool_decide (ids = []) then ix
  else
    let t := index_terms ix in
    with_terms (mkTerms (name_exact t) (post_ids prefix ids (name_prefixes t)) (name_substrings t) (name_terms t) (path_terms t) (metadata_terms t)
      (deletions t) (extensions t) (tags t) (kinds t)) ix.
Definition import_prefix_postings (postings : list SearchPrefixPosting) ix : nat * SearchIndex :=
  let ix := foldl import_prefix_posting ix postings in (size (name_prefixes (index_terms ix)), ix).
Definition import_substring_posting ix (posting : SearchSubstringPosting) : SearchIndex :=
  let gram := normalize (ssp_gram posting) in
  let ids := known ix (ssp_ids posting) in
  if negb (is_substring_gram gram) || bool_decide (ids = []) then ix
  else
    let t := index_terms ix in
    with_terms (mkTerms (name_exact t) (name_prefixes t) (post_ids gram ids (name_substrings t)) (name_terms t) (path_terms t) (metadata_terms t)
      (deletions t) (extensions t) (tags t) (kinds t)) ix.
Definition import_substring_postings (postings : list SearchSubstringPosting) ix : nat * SearchIndex :=
  let ix := foldl import_substring_posting ix postings in (size (name_substrings (index_terms ix)), ix).
Definition import_fuzzy_posting ix (posting : SearchFuzzyPosting) : SearchIndex :=
  let key := normalize (sfp_key posting) in
  let terms := filter (fun term => is_fuzzy_term term = true) (normalize <$> sfp_terms posting) in
  if bool_decide (key = []) || bool_decide (terms = []) then ix
  else
    let t := index_terms ix in
    with_terms (mkTerms (name_exact t) (name_prefixes t) (name_substrings t) (name_terms t) (path_terms t) (metadata_terms t)
      (post_ids key terms (deletions t)) (extensions t) (tags t) (kinds t)) ix.
Definition import_fuzzy_postings (postings : list SearchFuzzyPosting) ix : nat * SearchIndex :=
  let ix := foldl import_fuzzy_posting ix postings in (size (deletions (index_terms ix)), ix).
Definition import_metadata_posting ix (posting : SearchMetadataPosting) : SearchIndex :=
  let term := normalize (smp_term posting) in
  let ids := known ix (smp_ids posting) in
  if bool_decide (term = []) || bool_decide (ids = []) then ix
  else
    let t := index_terms ix in
    with_terms (match smp_field posting with
      | TagField => mkTerms (name_exact t) (name_prefixes t) (name_substrings t) (name_terms t) (path_terms t) (metadata_terms t)
          (deletions t) (extensions t) (post_ids term ids (tags t)) (kinds t)
      | CommentField => mkTerms (name_exact t) (name_prefixes t) (name_substrings t) (name_terms t) (path_terms t)
          (post_ids term ids (metadata_terms t)) (deletions t) (extensions t) (tags t) (kinds t)
      end) ix.
Definition import_metadata_postings (postings : list SearchMetadataPosting) ix : nat * SearchIndex :=
  let ix := foldl import_metadata_posting ix postings in
  (size (tags (index_terms ix)) + size (metadata_terms (index_terms ix)), ix).
End SearchIndex.
