(* ===== verification/SearchIndexSpec.v ===== *)
(** * The index in memory: its invariant

    Every map of the index has exactly what the records and their columns say, whatever
    is inserted, replaced, imported or removed, in any order. *)
From S2P Require Import Prelude Types Text Order Chars Records Fuzzy Query SearchIndex.
#[local] Open Scope list_scope.

(** ** Maps that mirror a relation *)
Section Mirrors.
Context {K V : Type} `{Countable K, Countable V}.
Implicit Types (m : gmap K (gset V)) (P : K -> V -> Prop).
Definition mirrors m P : Prop := (forall k v, v ∈ default ∅ (m !! k) <-> P k v) /\ forall k, m !! k <> Some ∅.

Lemma mirrors_iff m P Q : (forall k v, P k v <-> Q k v) -> mirrors m P -> mirrors m Q.
Proof. intros E [H1 H2]. split; [|done]. intros k v. by rewrite H1. Qed.
Lemma mirrors_empty P : (forall k v, ~ P k v) -> mirrors ∅ P.
Proof. intros HP. split; [|intros k; by rewrite lookup_empty]. intros k v. rewrite lookup_empty. cbn. set_solver. Qed.
Lemma mirrors_some m P k : mirrors m P -> is_Some (m !! k) <-> exists v, P k v.
Proof.
  intros [H1 H2]. split.
  - intros [vs E]. destruct (set_choose_L vs) as [v Hv]; [intros ->; by apply (H2 k)|]. exists v. apply H1. by rewrite E.
  - intros [v Hv%H1]. destruct (m !! k); [by eexists|]. by apply elem_of_empty in Hv.
Qed.
Lemma mirrors_unique m m' P : mirrors m P -> mirrors m' P -> m = m'.
Proof.
  intros Hm Hm'. apply map_eq. intros k. pose proof (mirrors_some m P k Hm) as Hs. pose proof (mirrors_some m' P k Hm') as Hs'.
  destruct Hm as [H1 _], Hm' as [H1' _].
  destruct (m !! k) as [vs|] eqn:E, (m' !! k) as [vs'|] eqn:E'; [|exfalso|exfalso|done].
  - f_equal. apply set_eq. intros v. specialize (H1 k v). specialize (H1' k v). rewrite E in H1. rewrite E' in H1'. cbn in *. by rewrite H1, H1'.
  - destruct (proj2 Hs' (proj1 Hs ltac:(done))). done.
  - destruct (proj2 Hs (proj1 Hs' ltac:(done))). done.
Qed.
Lemma mirrors_post m P k v : mirrors m P -> mirrors (post k v m) (fun k' v' => P k' v' \/ (k' = k /\ v' = v)).
Proof.
  intros [H1 H2]. unfold post. split.
  - intros k' v'. destruct (decide (k' = k)) as [->|Hne].
    + rewrite lookup_insert_eq. cbn. rewrite elem_of_union, elem_of_singleton, H1. naive_solver.
    + rewrite lookup_insert_ne by done. rewrite H1. naive_solver.
  - intros k'. destruct (decide (k' = k)) as [->|Hne]; [rewrite lookup_insert_eq; intros [= E]; set_solver|by rewrite lookup_insert_ne].
Qed.
Lemma mirrors_unpost m P k v : mirrors m P -> mirrors (unpost k v m) (fun k' v' => P k' v' /\ ~ (k' = k /\ v' = v)).
Proof.
  intros [H1 H2]. unfold unpost. destruct (m !! k) as [vs|] eqn:E.
  - assert (Hv : forall v', v' ∈ vs <-> P k v') by (intros v'; rewrite <- H1, E; done). destruct (decide (vs ∖ {[v]} = ∅)) as [He|Hne].
    + split; intros k'; destruct (decide (k' = k)) as [->|Hk]; rewrite ?lookup_delete_eq, ?lookup_delete_ne by done; cbn; [|naive_solver|done|done].
      intros v'. rewrite <- Hv. split; [set_solver|]. intros [Hin Hn]. assert (v' ∈ vs ∖ {[v]}) by set_solver. set_solver.
    + split; intros k'; destruct (decide (k' = k)) as [->|Hk]; rewrite ?lookup_insert_eq, ?lookup_insert_ne by done; cbn; [|naive_solver|congruence|done].
      intros v'. rewrite elem_of_difference, elem_of_singleton, Hv. naive_solver.
  - split; [|done]. intros k' v'. rewrite H1. split; [|naive_solver]. intros HP. split; [done|]. intros [-> ->]. apply H1 in HP. rewrite E in HP. by apply elem_of_empty in HP.
Qed.
Lemma mirrors_post_all ks v : forall m P, mirrors m P -> mirrors (post_all ks v m) (fun k' v' => P k' v' \/ (k' ∈ ks /\ v' = v)).
Proof.
  induction ks as [|k ks IH]; intros m P Hm; cbn.
  - eapply mirrors_iff; [|exact Hm]. intros k' v'. rewrite elem_of_nil. tauto.
  - eapply mirrors_iff; [|apply IH, mirrors_post, Hm]. intros k' v'. cbv beta. rewrite elem_of_cons. tauto.
Qed.
Lemma mirrors_unpost_all ks v : forall m P, mirrors m P -> mirrors (unpost_all ks v m) (fun k' v' => P k' v' /\ ~ (k' ∈ ks /\ v' = v)).
Proof.
  induction ks as [|k ks IH]; intros m P Hm; cbn.
  - eapply mirrors_iff; [|exact Hm]. intros k' v'. rewrite elem_of_nil. tauto.
  - eapply mirrors_iff; [|apply IH, mirrors_unpost, Hm]. intros k' v'. cbv beta. rewrite elem_of_cons. tauto.
Qed.
Lemma post_all_app ks ks' v m : post_all (ks ++ ks') v m = post_all ks' v (post_all ks v m).
Proof. apply foldl_app. Qed.
Lemma unpost_all_app ks ks' v m : unpost_all (ks ++ ks') v m = unpost_all ks' v (unpost_all ks v m).
Proof. apply foldl_app. Qed.
Lemma post_some k k' v m : is_Some (post k v m !! k') <-> k' = k \/ is_Some (m !! k').
Proof. unfold post. destruct (decide (k' = k)) as [->|]; [rewrite lookup_insert_eq|rewrite lookup_insert_ne by done]; naive_solver. Qed.
Lemma unpost_some k k' v m : k' <> k -> unpost k v m !! k' = m !! k'.
Proof.
  intros Hk. unfold unpost. destruct (m !! k); [|done]. destruct (decide _); [by rewrite lookup_delete_ne|by rewrite lookup_insert_ne].
Qed.
End Mirrors.

(** ** Terms of columns *)
Section TermsSpec.
Context `{Unicode}.
Implicit Types (t : Terms) (c : RecordColumns) (r : FileRecord) (id : FileId) (cols : gmap FileId RecordColumns) (recs : gmap FileId FileRecord).

Definition has (keys : RecordColumns -> list str) cols (k : str) id : Prop := exists c, cols !! id = Some c /\ k ∈ keys c.
Definition of_kind recs (kind : FileKind) id : Prop := exists r, recs !! id = Some r /\ record_kind r = kind.
(** The words that are in names, under what deletions leave of them. *)
Definition fuzzy_key (names : gmap str (gset FileId)) (key term : str) : Prop :=
  is_fuzzy_term term = true /\ key ∈ deletion_keys term 2 /\ is_Some (names !! term).
Definition name_prefixes_of c : list str := mjoin (token_prefixes <$> name_tokens c).

(** With [full], the maps that an archive may fill instead are complete too. *)
Record terms_mirror (full : bool) recs cols t : Prop := {
  tm_exact : mirrors (name_exact t) (has (fun c => [col_name c]) cols);
  tm_names : mirrors (name_terms t) (has name_tokens cols);
  tm_paths : mirrors (path_terms t) (has path_tokens cols);
  tm_extensions : mirrors (extensions t) (has (fun c => option_list (col_extension c)) cols);
  tm_kinds : mirrors (kinds t) (of_kind recs);
  tm_prefixes : full = true -> mirrors (name_prefixes t) (has name_prefixes_of cols);
  tm_substrings : full = true -> mirrors (name_substrings t) (has (fun c => substring_grams (col_name c)) cols);
  tm_metadata : full = true -> mirrors (metadata_terms t) (has metadata_tokens cols);
  tm_tags : full = true -> mirrors (tags t) (has col_tags cols);
  tm_deletions : full = true -> mirrors (deletions t) (fuzzy_key (name_terms t))
}.

Lemma has_add keys cols id c k i : cols !! id = None -> (has keys cols k i \/ (k ∈ keys c /\ i = id)) <-> has keys (<[id := c]> cols) k i.
Proof.
  intros Hn. unfold has. destruct (decide (i = id)) as [->|Hi].
  - rewrite lookup_insert_eq, Hn. naive_solver.
  - rewrite lookup_insert_ne by done. naive_solver.
Qed.
Lemma has_remove keys cols id c k i : cols !! id = Some c -> (has keys cols k i /\ ~ (k ∈ keys c /\ i = id)) <-> has keys (delete id cols) k i.
Proof.
  intros Hc. unfold has. destruct (decide (i = id)) as [->|Hi].
  - rewrite lookup_delete_eq, Hc. naive_solver.
  - rewrite lookup_delete_ne by done. naive_solver.
Qed.
Lemma mirrors_add keys cols id c m : cols !! id = None -> mirrors m (has keys cols) -> mirrors (post_all (keys c) id m) (has keys (<[id := c]> cols)).
Proof. intros Hn Hm. eapply mirrors_iff; [|apply mirrors_post_all, Hm]. intros k i. cbv beta. by apply has_add. Qed.
Lemma mirrors_remove keys cols id c m : cols !! id = Some c -> mirrors m (has keys cols) -> mirrors (unpost_all (keys c) id m) (has keys (delete id cols)).
Proof. intros Hc Hm. eapply mirrors_iff; [|apply mirrors_unpost_all, Hm]. intros k i. cbv beta. by apply has_remove. Qed.

Lemma fuzzy_post token id names d : mirrors d (fuzzy_key names) ->
  mirrors (if bool_decide (names !! token = None) then add_fuzzy_term token d else d) (fuzzy_key (post token id names)).
Proof.
  intros Hd. case_bool_decide as E.
  - unfold add_fuzzy_term. destruct (is_fuzzy_term token) eqn:Ef; cbn [negb].
    + eapply mirrors_iff; [|apply mirrors_post_all, Hd]. intros k v. cbv beta. unfold fuzzy_key. rewrite post_some.
      split; [intros [?|[? ->]]; tauto|]. intros (? & ? & [->|?]); tauto.
    + eapply mirrors_iff; [|exact Hd]. intros k v. unfold fuzzy_key. rewrite post_some. split; [tauto|]. intros (? & ? & [->|?]); [congruence|tauto].
  - eapply mirrors_iff; [|exact Hd]. intros k v. unfold fuzzy_key. rewrite post_some. split; [tauto|]. intros (? & ? & [->|?]); [|tauto].
    split_and!; [done..|]. destruct (names !! token); [done|congruence].
Qed.
Lemma fuzzy_unpost token id names d : mirrors d (fuzzy_key names) ->
  mirrors (if bool_decide (unpost token id names !! token = None) then remove_fuzzy_term token d else d) (fuzzy_key (unpost token id names)).
Proof.
  intros Hd. case_bool_decide as E.
  - unfold remove_fuzzy_term. destruct (is_fuzzy_term token) eqn:Ef; cbn [negb].
    + eapply mirrors_iff; [|apply mirrors_unpost_all, Hd]. intros k v. cbv beta. unfold fuzzy_key. destruct (decide (v = token)) as [->|Hne].
      * rewrite E. split; [naive_solver|]. intros (? & ? & [? ?]). done.
      * rewrite unpost_some by done. naive_solver.
    + eapply mirrors_iff; [|exact Hd]. intros k v. unfold fuzzy_key. destruct (decide (v = token)) as [->|Hne]; [rewrite Ef; naive_solver|].
      by rewrite unpost_some.
  - eapply mirrors_iff; [|exact Hd]. intros k v. unfold fuzzy_key. destruct (decide (v = token)) as [->|Hne]; [|by rewrite unpost_some].
    assert (is_Some (names !! token)). { unfold unpost in E. destruct (names !! token) eqn:En; [done|]. by rewrite En in E. }
    split; intros (? & ? & _); split_and!; try done. by apply not_eq_None_Some.
Qed.

Lemma add_tokens policy id toks : forall t, let t' := foldl (add_name_token policy id) t toks in
  t' = mkTerms (name_exact t) (if build_prefixes policy then post_all (mjoin (token_prefixes <$> toks)) id (name_prefixes t) else name_prefixes t)
         (name_substrings t) (post_all toks id (name_terms t)) (path_terms t) (metadata_terms t) (deletions t') (extensions t) (tags t) (kinds t) /\
  (build_fuzzy policy = true -> mirrors (deletions t) (fuzzy_key (name_terms t)) -> mirrors (deletions t') (fuzzy_key (post_all toks id (name_terms t)))).
Proof.
  induction toks as [|token toks IH]; intros t; cbn [foldl]; [destruct t, (build_prefixes policy); done|].
  destruct (IH (add_name_token policy id t token)) as [E Hf]. split.
  - rewrite E. change (mjoin (token_prefixes <$> token :: toks)) with (token_prefixes token ++ mjoin (token_prefixes <$> toks)).
    rewrite post_all_app. unfold add_name_token. cbn. by destruct (build_prefixes policy).
  - intros Hb Hd. cbn. apply Hf; [done|]. unfold add_name_token. cbn. rewrite Hb. by apply fuzzy_post.
Qed.
Lemma remove_tokens id toks : forall t, let t' := foldl (remove_name_token id) t toks in
  t' = mkTerms (name_exact t) (unpost_all (mjoin (token_prefixes <$> toks)) id (name_prefixes t))
         (name_substrings t) (unpost_all toks id (name_terms t)) (path_terms t) (metadata_terms t) (deletions t') (extensions t) (tags t) (kinds t) /\
  (mirrors (deletions t) (fuzzy_key (name_terms t)) -> mirrors (deletions t') (fuzzy_key (unpost_all toks id (name_terms t)))).
Proof.
  induction toks as [|token toks IH]; intros t; cbn [foldl]; [by destruct t|].
  destruct (IH (remove_name_token id t token)) as [E Hf]. split.
  - rewrite E. change (mjoin (token_prefixes <$> token :: toks)) with (token_prefixes token ++ mjoin (token_prefixes <$> toks)).
    by rewrite unpost_all_app.
  - intros Hd. cbn. apply Hf. unfold remove_name_token. cbn. by apply fuzzy_unpost.
Qed.

Lemma add_terms_mirror full policy recs cols r c t : (full = true -> policy = build_all) ->
  cols !! record_id r = None -> recs !! record_id r = None -> terms_mirror full recs cols t ->
  terms_mirror full (<[record_id r := r]> recs) (<[record_id r := c]> cols) (add_terms_with_sidecar_policy policy r c t).
Proof.
  intros Hp Hc Hr []. unfold add_terms_with_sidecar_policy. cbv zeta. set (t0 := mkTerms (post (col_name c) (record_id r) (name_exact t)) _ _ _ _ _ _ _ _ _).
  destruct (add_tokens policy (record_id r) (name_tokens c) t0) as [E Hf]. rewrite E. clear E.
  split; cbn [name_exact name_terms path_terms extensions kinds name_prefixes name_substrings metadata_terms tags deletions].
  - by apply (mirrors_add (fun c => [col_name c])).
  - by apply (mirrors_add name_tokens).
  - by apply (mirrors_add path_tokens).
  - pose proof (mirrors_add (fun c => option_list (col_extension c)) cols (record_id r) c (extensions t) Hc ltac:(done)) as Hx. cbv beta in Hx.
    by destruct (col_extension c).
  - eapply mirrors_iff; [|apply mirrors_post, tm_kinds0]. intros k i. cbv beta. unfold of_kind. destruct (decide (i = record_id r)) as [->|].
    + rewrite lookup_insert_eq, Hr. naive_solver.
    + rewrite lookup_insert_ne by done. naive_solver.
  - intros Hfull. rewrite (Hp Hfull). apply (mirrors_add name_prefixes_of); auto.
  - intros Hfull. rewrite (Hp Hfull). apply (mirrors_add (fun c => substring_grams (col_name c))); auto.
  - intros Hfull. rewrite (Hp Hfull). apply (mirrors_add metadata_tokens); auto.
  - intros Hfull. rewrite (Hp Hfull). apply (mirrors_add col_tags); auto.
  - intros Hfull. apply Hf; [by rewrite (Hp Hfull)|]. by apply tm_deletions0.
Qed.
Lemma remove_terms_mirror full recs cols r c t :
  cols !! record_id r = Some c -> recs !! record_id r = Some r -> terms_mirror full recs cols t ->
  terms_mirror full (delete (record_id r) recs) (delete (record_id r) cols) (remove_column_terms r c t).
Proof.
  intros Hc Hr []. unfold remove_column_terms. cbv zeta. set (t0 := mkTerms (unpost (col_name c) (record_id r) (name_exact t)) _ _ _ _ _ _ _ _ _).
  destruct (remove_tokens (record_id r) (name_tokens c) t0) as [E Hf]. rewrite E. clear E.
  split; cbn [name_exact name_terms path_terms extensions kinds name_prefixes name_substrings metadata_terms tags deletions].
  - by apply (mirrors_remove (fun c => [col_name c]) cols (record_id r) c).
  - by apply (mirrors_remove name_tokens).
  - by apply (mirrors_remove path_tokens).
  - pose proof (mirrors_remove (fun c => option_list (col_extension c)) cols (record_id r) c (extensions t) Hc ltac:(done)) as Hx. cbv beta in Hx.
    by destruct (col_extension c).
  - eapply mirrors_iff; [|apply mirrors_unpost, tm_kinds0]. intros k i. cbv beta. unfold of_kind. destruct (decide (i = record_id r)) as [->|].
    + rewrite lookup_delete_eq, Hr. naive_solver.
    + rewrite lookup_delete_ne by done. naive_solver.
  - intros Hfull. apply (mirrors_remove name_prefixes_of); auto.
  - intros Hfull. apply (mirrors_remove (fun c => substring_grams (col_name c))); auto.
  - intros Hfull. apply (mirrors_remove metadata_tokens); auto.
  - intros Hfull. apply (mirrors_remove col_tags); auto.
  - intros Hfull. apply Hf. by apply tm_deletions0.
Qed.
Lemma terms_mirror_unique recs cols t t' : terms_mirror true recs cols t -> terms_mirror true recs cols t' -> t = t'.
Proof.
  intros [] []. assert (En : name_terms t = name_terms t') by by eapply mirrors_unique.
  destruct t, t'. cbn in *. f_equal; try (by eapply mirrors_unique); eapply mirrors_unique; eauto. rewrite En. eauto.
Qed.
End TermsSpec.

(** ** Content *)
Section Content.
Implicit Types (ct : gmap str (gmap FileId (list N))) (crt : gmap FileId (gset str)) (id : FileId) (recs : gmap FileId FileRecord).
Definition position_of ct (term : str) id : option (list N) := ct !! term ≫= lookup id.
Record content_ok recs ct crt : Prop := {
  co_terms : mirrors crt (fun id term => is_Some (position_of ct term id));
  co_nonempty term : ct !! term <> Some ∅;
  co_records id : is_Some (crt !! id) -> is_Some (recs !! id)
}.
Lemma position_drop ct id term i :
  position_of (omap (drop_position id) ct) term i = if decide (i = id) then None else position_of ct term i.
Proof.
  unfold position_of. rewrite lookup_omap. destruct (ct !! term) as [ps|]; cbn; [|by destruct (decide _)]. unfold drop_position.
  destruct (decide (delete id ps = ∅)) as [E|]; cbn.
  - destruct (decide (i = id)) as [|Hi]; [done|]. by rewrite <- (lookup_delete_ne ps id i), E, lookup_empty by done.
  - destruct (decide (i = id)) as [->|Hi]; [by rewrite lookup_delete_eq|by rewrite lookup_delete_ne].
Qed.
Lemma drop_absent ct id : (forall term, ct !! term <> Some ∅) -> (forall term, position_of ct term id = None) -> omap (drop_position id) ct = ct.
Proof.
  intros Hne Hn. apply map_eq. intros term. rewrite lookup_omap. specialize (Hn term). specialize (Hne term). unfold position_of in Hn.
  destruct (ct !! term) as [ps|]; [|done]. cbn in *. unfold drop_position. rewrite delete_id by done. by rewrite decide_False by congruence.
Qed.
Lemma content_dropped recs ct crt id : content_ok recs ct crt ->
  content_ok (delete id recs) (omap (drop_position id) ct) (delete id crt).
Proof.
  intros [[H1 H2] H3 H4]. split.
  - split.
    + intros i term. rewrite position_drop. destruct (decide (i = id)) as [->|Hi].
      * rewrite lookup_delete_eq. cbn. split; [intros ?%elem_of_empty|intros [? ?]]; done.
      * by rewrite lookup_delete_ne.
    + intros i. destruct (decide (i = id)) as [->|Hi]; [by rewrite lookup_delete_eq|by rewrite lookup_delete_ne].
  - intros term. rewrite lookup_omap. destruct (ct !! term) as [ps|]; [|done]. cbn. unfold drop_position. destruct (decide _); [done|congruence].
  - intros i. destruct (decide (i = id)) as [->|Hi]; [rewrite lookup_delete_eq; by intros [? ?]|]. rewrite !lookup_delete_ne by done. apply H4.
Qed.
Lemma content_more recs recs' ct crt : (forall id, is_Some (recs !! id) -> is_Some (recs' !! id)) -> content_ok recs ct crt -> content_ok recs' ct crt.
Proof. intros Hr []. split; auto. Qed.
End Content.

Lemma remove_content_eq recs id (ix : SearchIndex) : content_ok recs (content_terms ix) (content_record_terms ix) ->
  remove_content id ix = mkIndex (records ix) (columns ix) (paths ix) (index_terms ix) (omap (drop_position id) (content_terms ix))
    (delete id (content_record_terms ix)) (pinned ix).
Proof.
  intros [[H1 H2] H3 _]. unfold remove_content. destruct (content_record_terms ix !! id) as [terms|] eqn:Et.
  2: { by rewrite (delete_id (content_record_terms ix)). }
  f_equal. set (f := fun term m => _).
  assert (Hfold : forall k, set_fold f (content_terms ix) terms !! k =
    if decide (k ∈ terms) then content_terms ix !! k ≫= drop_position id else content_terms ix !! k).
  { pose (P := fun (m : gmap str (gmap FileId (list N))) (X : gset str) =>
      forall k, m !! k = if decide (k ∈ X) then content_terms ix !! k ≫= drop_position id else content_terms ix !! k).
    change (P (set_fold f (content_terms ix) terms) terms). apply set_fold_ind_L.
    - intros k. by rewrite decide_False by set_solver.
    - intros x X m Hx IH k. unfold f. pose proof (IH x) as Hmx. rewrite decide_False in Hmx by done. rewrite Hmx.
      destruct (decide (k = x)) as [->|Hk].
      + rewrite decide_True by set_solver. destruct (content_terms ix !! x) as [ps|]; cbn; [|by rewrite Hmx].
        destruct (drop_position id ps); [by rewrite lookup_insert_eq|by rewrite lookup_delete_eq].
      + assert (Hm : forall o, match content_terms ix !! x with Some positions => match drop_position id positions with Some p => <[x := p]> m | None => delete x m end | None => m end !! k = o <-> m !! k = o).
        { intros o. destruct (content_terms ix !! x) as [ps|]; [|done]. destruct (drop_position id ps); [by rewrite lookup_insert_ne|by rewrite lookup_delete_ne]. }
        apply Hm. rewrite IH. destruct (decide (k ∈ X)); [by rewrite decide_True by set_solver|by rewrite decide_False by set_solver]. }
  apply map_eq. intros k. rewrite Hfold, lookup_omap. case_decide as Hk; [done|].
  destruct (content_terms ix !! k) as [ps|] eqn:Ek; [|done]. cbn. unfold drop_position.
  assert (Hp : ps !! id = None).
  { apply eq_None_not_Some. intros Hp. apply Hk. specialize (H1 id k). rewrite Et in H1. apply H1. unfold position_of. by rewrite Ek. }
  rewrite delete_id by done. rewrite decide_False; [done|]. intros ->. by apply (H3 k).
Qed.
Lemma content_entry_ok (ix : SearchIndex) id term f :
  content_ok (records ix) (content_terms ix) (content_record_terms ix) -> is_Some (records ix !! id) ->
  let ix' := content_entry id term f ix in content_ok (records ix') (content_terms ix') (content_record_terms ix').
Proof.
  intros [H1 H2 H3] Hid. cbn. split.
  - eapply mirrors_iff; [|apply mirrors_post, H1]. intros i t. cbv beta. unfold position_of.
    destruct (decide (t = term)) as [->|Ht]; [rewrite lookup_insert_eq|rewrite lookup_insert_ne by done; naive_solver]. cbn.
    destruct (decide (i = id)) as [->|Hi]; [rewrite lookup_insert_eq; naive_solver|]. rewrite lookup_insert_ne by done.
    destruct (content_terms ix !! term); cbn; [naive_solver|]. rewrite lookup_empty. naive_solver.
  - intros t. destruct (decide (t = term)) as [->|Ht]; [rewrite lookup_insert_eq|by rewrite lookup_insert_ne].
    intros [= E]. apply (f_equal (lookup id)) in E. by rewrite lookup_insert_eq, lookup_empty in E.
  - intros i. rewrite post_some. intros [->|Hi]; [done|by apply H3].
Qed.

(** ** The invariant *)
Section Invariant.
Context `{Unicode}.
Implicit Types (ix : SearchIndex) (r : FileRecord) (id : FileId) (c : RecordColumns).
Record inner_ok (full : bool) ix : Prop := {
  ok_columns id : is_Some (columns ix !! id) <-> is_Some (records ix !! id);
  ok_ids id r : records ix !! id = Some r -> record_id r = id;
  ok_terms : terms_mirror full (records ix) (columns ix) (index_terms ix);
  ok_paths p id : paths ix !! p = Some id -> exists r, records ix !! id = Some r /\ record_path r = p;
  ok_content : content_ok (records ix) (content_terms ix) (content_record_terms ix)
}.
Record index_ok (full : bool) ix : Prop := {
  ok_inner : inner_ok full ix;
  ok_pinned id : id ∈ pinned ix -> is_Some (records ix !! id)
}.

Lemma new_ok full : index_ok full new_index.
Proof.
  split; [|by intros id ?%elem_of_empty]. split; cbn.
  - intros id. rewrite !lookup_empty. done.
  - intros id r. by rewrite lookup_empty.
  - split; try (intros _); apply mirrors_empty; intros k v;
      first [intros (c & E & _); by rewrite lookup_empty in E|intros (_ & _ & [? E]); cbn in E; by rewrite lookup_empty in E].
  - intros p id. by rewrite lookup_empty.
  - split; [|intros term; by rewrite lookup_empty|intros id; rewrite lookup_empty; by intros [? ?]].
    apply mirrors_empty. intros k v. unfold position_of. rewrite lookup_empty. by intros [? ?].
Qed.
Lemma weaken_ok full ix : index_ok full ix -> index_ok false ix.
Proof. intros [[? ? [] ? ?] ?]. split; [|done]. split; done. Qed.

(** The index with one record gone. *)
Definition vanished r c (pins : gset FileId) ix : SearchIndex :=
  let id := record_id r in
  mkIndex (delete id (records ix)) (delete id (columns ix)) (delete (record_path r) (paths ix)) (remove_column_terms r c (index_terms ix))
    (omap (drop_position id) (content_terms ix)) (delete id (content_record_terms ix)) pins.
Lemma vanished_ok full r c pins ix : inner_ok full ix -> records ix !! record_id r = Some r -> columns ix !! record_id r = Some c ->
  inner_ok full (vanished r c pins ix).
Proof.
  intros [H1 H2 H3 H4 H5] Hr Hc. split; cbn.
  - intros id. destruct (decide (id = record_id r)) as [->|]; [by rewrite !lookup_delete_eq|]. rewrite !lookup_delete_ne by done. apply H1.
  - intros id r' [_ E]%lookup_delete_Some. by apply H2.
  - by apply remove_terms_mirror.
  - intros p id [Hp E]%lookup_delete_Some. destruct (H4 p id E) as (r' & Er & Ep). exists r'. split; [|done].
    rewrite lookup_delete_ne; [done|]. intros <-. rewrite Hr in Er. injection Er as <-. done.
  - by apply content_dropped.
Qed.
Lemma columns_of full ix id r : inner_ok full ix -> records ix !! id = Some r -> exists c, columns ix !! id = Some c.
Proof. intros Hok Hr. destruct (proj2 (ok_columns _ _ Hok id)) as [c Hc]; [by exists r|]. by exists c. Qed.
Lemma displace_eq full id r c ix : inner_ok full ix -> records ix !! id = Some r -> columns ix !! id = Some c ->
  displace id ix = vanished r c (pinned ix) ix.
Proof.
  intros Hok Hr Hc. pose proof (ok_ids _ _ Hok id r Hr) as Eid. unfold displace. rewrite Hr. unfold remove_terms. cbn [columns index_terms]. rewrite Eid, Hc. cbn [default from_option].
  rewrite (remove_content_eq (records ix)) by apply Hok. unfold vanished. cbn. by rewrite Eid.
Qed.
Lemma remove_eq full id r c ix : inner_ok full ix -> records ix !! id = Some r -> columns ix !! id = Some c ->
  remove id ix = (Some r, vanished r c (pinned ix ∖ {[id]}) ix).
Proof.
  intros Hok Hr Hc. pose proof (ok_ids _ _ Hok id r Hr) as Eid. unfold remove. rewrite Hr. unfold remove_terms. cbn [columns index_terms]. rewrite Eid, Hc. cbn [default from_option].
  rewrite (remove_content_eq (records ix)) by apply Hok. unfold vanished. cbn. by rewrite Eid.
Qed.
Lemma displace_ok full id ix : inner_ok full ix -> let ix' := displace id ix in
  inner_ok full ix' /\ records ix' = delete id (records ix) /\ columns ix' = delete id (columns ix) /\ pinned ix' = pinned ix.
Proof.
  intros Hok. destruct (records ix !! id) as [r|] eqn:Hr.
  - destruct (columns_of full ix id r Hok Hr) as [c Hc]. pose proof (ok_ids _ _ Hok id r Hr) as Eid. cbv zeta.
    rewrite (displace_eq full id r c ix) by done. rewrite <- Eid in Hr, Hc |- *. split_and!; [by apply vanished_ok|done..].
  - unfold displace. rewrite Hr. cbn. split_and!; [done| | |done].
    + by rewrite delete_id.
    + rewrite delete_id; [done|]. apply eq_None_not_Some. rewrite (ok_columns _ _ Hok id), Hr. by intros [? ?].
Qed.
Lemma remove_ok full id ix : index_ok full ix -> let r := remove id ix in
  index_ok full r.2 /\ records r.2 = delete id (records ix) /\ columns r.2 = delete id (columns ix) /\ r.1 = records ix !! id.
Proof.
  intros [Hok Hp]. destruct (records ix !! id) as [r|] eqn:Hr.
  - destruct (columns_of full ix id r Hok Hr) as [c Hc]. pose proof (ok_ids _ _ Hok id r Hr) as Eid. cbv zeta.
    rewrite (remove_eq full id r c ix) by done. cbn [fst snd]. split_and!; [|by rewrite <- Eid|by rewrite <- Eid|done]. split.
    + rewrite <- Eid in Hr, Hc |- *. by apply vanished_ok.
    + cbn. intros i [Hi Hne]%elem_of_difference. rewrite Eid, lookup_delete_ne by set_solver. by apply Hp.
  - unfold remove. rewrite Hr. cbn. split_and!; [by split| | |done].
    + by rewrite delete_id.
    + rewrite delete_id; [done|]. apply eq_None_not_Some. rewrite (ok_columns _ _ Hok id), Hr. by intros [? ?].
Qed.
Lemma place_ok full policy r c ix : (full = true -> policy = build_all) -> inner_ok full ix -> records ix !! record_id r = None ->
  (forall id, id ∈ pinned ix -> id = record_id r \/ is_Some (records ix !! id)) ->
  index_ok full (place r c (add_terms_with_sidecar_policy policy r c (index_terms ix)) ix).
Proof.
  intros Hpol [H1 H2 H3 H4 H5] Hr Hp.
  assert (Hc : columns ix !! record_id r = None) by (apply eq_None_not_Some; rewrite H1, Hr; by intros [? ?]).
  split; [split|]; cbn.
  - intros id. destruct (decide (id = record_id r)) as [->|]; [by rewrite !lookup_insert_eq|]. rewrite !lookup_insert_ne by done. apply H1.
  - intros id r' [[<- <-]|[_ E]]%lookup_insert_Some; [done|by apply H2].
  - by apply add_terms_mirror.
  - intros p id [[<- <-]|[_ E]]%lookup_insert_Some; [exists r; by rewrite lookup_insert_eq|].
    destruct (H4 p id E) as (r' & Er & Ep). exists r'. split; [|done]. rewrite lookup_insert_ne; [done|]. intros <-. congruence.
  - eapply content_more; [|exact H5]. intros id Hid. rewrite lookup_insert_is_Some. destruct (decide (record_id r = id)); tauto.
  - intros id Hid. rewrite lookup_insert_is_Some. destruct (Hp id Hid) as [->|]; [by left|]. destruct (decide (record_id r = id)); tauto.
Qed.
Lemma displaced_place_ok full policy r c ix : (full = true -> policy = build_all) -> index_ok full ix ->
  let ix' := displace (record_id r) ix in
  index_ok full (place r c (add_terms_with_sidecar_policy policy r c (index_terms ix')) ix') /\
  records ix' = delete (record_id r) (records ix) /\ columns ix' = delete (record_id r) (columns ix).
Proof.
  intros Hpol [Hok Hp]. destruct (displace_ok full (record_id r) ix Hok) as (H1 & H2 & H3 & H4). split; [|done].
  apply place_ok; [done|done| |].
  - by rewrite H2, lookup_delete_eq.
  - intros id. rewrite H4, H2. intros Hid. destruct (decide (id = record_id r)) as [|Hne]; [by left|right]. rewrite lookup_delete_ne by done. by apply Hp.
Qed.
Lemma insert_ok full r ix : index_ok full ix -> index_ok full (insert_record r ix) /\
  records (insert_record r ix) = <[record_id r := r]> (records ix) /\
  columns (insert_record r ix) = <[record_id r := from_record r]> (columns ix).
Proof.
  intros Hok. destruct (displaced_place_ok full build_all r (from_record r) ix ltac:(done) Hok) as (H1 & H2 & H3).
  unfold insert_record. split; [exact H1|]. cbn [place records columns]. by rewrite H2, H3, !insert_delete_eq.
Qed.
Lemma insert_columns_ok full policy r s ix : (full = true -> policy = build_all) -> index_ok full ix ->
  index_ok full (insert_with_columns_inner policy r s ix).2.
Proof.
  intros Hpol Hok. unfold insert_with_columns_inner. destruct (decide _); [by apply insert_ok|]. by apply displaced_place_ok.
Qed.
Lemma apply_ok full s ix : index_ok full ix -> index_ok full (apply_record_columns s ix).2.
Proof.
  intros [Hok Hp]. unfold apply_record_columns. destruct (records ix !! sc_id s) as [r|] eqn:Hr; [|by split]. cbn [snd].
  destruct (columns_of full ix _ r Hok Hr) as [c Hc]. pose proof (ok_ids _ _ Hok _ r Hr) as Eid.
  unfold remove_terms. rewrite Eid, Hc. cbn [default from_option]. rewrite (remove_content_eq (records ix)) by apply Hok. cbn.
  rewrite <- Eid in *. pose proof (vanished_ok full r c (pinned ix) ix Hok Hr Hc) as Hv.
  pose proof (place_ok full build_all r (from_search_columns s) _ ltac:(done) Hv) as Hx.
  destruct Hx as [[X1 X2 X3 X4 X5] X6]; cbn in *; [by rewrite lookup_delete_eq| |].
  { intros id Hid. destruct (decide (id = record_id r)) as [|Hne]; [by left|right]. rewrite lookup_delete_ne by done. by apply Hp. }
  rewrite !insert_delete_eq in *. rewrite (insert_id (records ix)) in * by done. split; [|done].
  split; cbn; [exact X1|exact X2|exact X3|apply Hok|exact X5].
Qed.
End Invariant.

(** * The index in memory: sequences of operations *)
Section Ops.
Context `{Unicode}.
Implicit Types (ix : SearchIndex) (r : FileRecord) (id : FileId).

(** ** The other operations *)
Lemma content_step_ok full ix ix' : records ix' = records ix -> columns ix' = columns ix -> paths ix' = paths ix ->
  index_terms ix' = index_terms ix -> pinned ix' = pinned ix -> content_ok (records ix') (content_terms ix') (content_record_terms ix') ->
  index_ok full ix -> index_ok full ix'.
Proof. intros E1 E2 E3 E4 E5 Hc [[H1 H2 H3 H4 H5] H6]. split; [split|]; rewrite ?E1, ?E2, ?E3, ?E4, ?E5 in *; done. Qed.
Lemma entry_ok full ix id term f : is_Some (records ix !! id) -> index_ok full ix -> index_ok full (content_entry id term f ix).
Proof. intros Hid Hok. eapply content_step_ok; [..|exact Hok]; try done. apply content_entry_ok; [apply Hok|done]. Qed.
Lemma remove_content_ok full ix id : index_ok full ix -> index_ok full (remove_content id ix) /\ records (remove_content id ix) = records ix.
Proof.
  intros Hok. rewrite (remove_content_eq (records ix)) by apply Hok. split; [|done].
  eapply content_step_ok; [..|exact Hok]; try done. cbn. eapply content_more; [|apply content_dropped, Hok].
  intros i. rewrite lookup_delete_is_Some. tauto.
Qed.
(** A fold whose steps keep the records. *)
Lemma fold_ok {A} full (P : A -> Prop) (f : SearchIndex -> A -> SearchIndex) (l : list A) :
  (forall ix x, index_ok full ix -> index_ok full (f ix x)) -> forall ix, index_ok full ix -> index_ok full (foldl f ix l).
Proof. intros Hf. induction l as [|x l IH]; intros ix Hok; cbn; [done|]. by apply IH, Hf. Qed.
Lemma insert_content_ok full ix id text : index_ok full ix -> index_ok full (insert_content id text ix).
Proof.
  intros Hok. unfold insert_content. destruct (decide _) as [|Hid]; [done|]. destruct (remove_content_ok full ix id Hok) as [Hr E].
  assert (Hg : forall l ix', index_ok full ix' -> records ix' = records ix ->
    index_ok full (foldl (fun ix p => content_entry id p.2 (fun positions => positions ++ [N.of_nat p.1 mod 2 ^ 32]%N) ix) ix' l)).
  { induction l as [|[n w] l IH]; intros ix' Hok' E'; cbn [foldl]; [done|]. apply IH; [|done]. apply entry_ok; [|done].
    rewrite E'. by apply not_eq_None_Some. }
  by apply Hg.
Qed.
Lemma insert_content_terms_ok full ix id ts : index_ok full ix -> index_ok full (insert_content_terms id ts ix).
Proof.
  intros Hok. unfold insert_content_terms. destruct (decide _) as [|Hid]; [done|]. apply not_eq_None_Some in Hid.
  revert ix Hok Hid. induction ts as [|w ts IH]; intros ix Hok Hid; cbn [foldl]; [done|]. cbv zeta. destruct (decide (normalize w = [])); [by apply IH|].
  apply IH; [by apply entry_ok|done].
Qed.
Lemma import_content_ok full ix ps : index_ok full ix -> index_ok full (import_content_postings ps ix).
Proof.
  intros Hok. apply (fold_ok full (fun _ => True)); [|done]. clear ix Hok. intros ix p Hok. unfold import_content_posting. cbv zeta.
  destruct (decide _); [done|]. repeat (apply (fold_ok full (fun _ => True)); [intros ix' x Hok'; destruct (decide _) as [|Hid]; [done|]; apply entry_ok; [by apply not_eq_None_Some|done]|]).
  done.
Qed.
Lemma without_path_ok full ix p : index_ok full ix -> index_ok full (without_path p ix).
Proof. intros [[H1 H2 H3 H4 H5] H6]. split; [split|]; cbn; try done. intros q id [_ E]%lookup_delete_Some. by apply H4. Qed.
Lemma remove_path_ok full ix p : index_ok full ix -> index_ok full (remove_path p ix).2.
Proof.
  intros Hok. unfold remove_path. destruct (paths ix !! path_key p) as [id|]; [|done].
  by apply (remove_ok full id), without_path_ok.
Qed.
Lemma remove_all_ok full ids : forall acc, index_ok full acc.2 ->
  index_ok full (foldl (fun acc id => let r := remove id acc.2 in (acc.1 ++ option_list r.1, r.2)) acc ids).2.
Proof. induction ids as [|id ids IH]; intros acc Hok; cbn [foldl]; [done|]. apply IH. cbn. by apply remove_ok. Qed.
Lemma pin_ok full ix id : index_ok full ix -> index_ok full (pin id ix).2.
Proof.
  intros [[] Hp]. unfold pin. destruct (decide _) as [|Hid]; [done|]. split; [done|]. cbn. intros i [->%elem_of_singleton|Hi]%elem_of_union; [by apply not_eq_None_Some|by apply Hp].
Qed.
Lemma unpin_ok full ix id : index_ok full ix -> index_ok full (unpin id ix).2.
Proof. intros [[] Hp]. split; [done|]. cbn. intros i [Hi _]%elem_of_difference. by apply Hp. Qed.
Lemma terms_step_ok ix t : name_exact t = name_exact (index_terms ix) -> name_terms t = name_terms (index_terms ix) ->
  path_terms t = path_terms (index_terms ix) -> extensions t = extensions (index_terms ix) -> kinds t = kinds (index_terms ix) ->
  index_ok false ix -> index_ok false (with_terms t ix).
Proof. intros E1 E2 E3 E4 E5 [[? ? [] ? ?] ?]. split; [|done]. split; try done. split; cbn; rewrite ?E1, ?E2, ?E3, ?E4, ?E5; done. Qed.

(** ** Any sequence *)
Inductive index_op : Type :=
  | OpInsert (r : FileRecord)
  | OpColumns (policy : SidecarPolicy) (r : FileRecord) (s : SearchRecordColumns)
  | OpApply (s : SearchRecordColumns)
  | OpRemove (id : FileId)
  | OpRemovePath (p : str)
  | OpRemoveSubtree (root : str)
  | OpPin (id : FileId)
  | OpUnpin (id : FileId)
  | OpContent (id : FileId) (text : str)
  | OpContentTerms (id : FileId) (ts : list str)
  | OpImportContent (ps : list ContentPosting)
  | OpRemoveContent (id : FileId)
  | OpImportPrefixes (ps : list SearchPrefixPosting)
  | OpImportSubstrings (ps : list SearchSubstringPosting)
  | OpImportFuzzy (ps : list SearchFuzzyPosting)
  | OpImportMetadata (ps : list SearchMetadataPosting).
Definition apply_op ix (op : index_op) : SearchIndex :=
  match op with
  | OpInsert r => insert_record r ix
  | OpColumns policy r s => (insert_with_columns_inner policy r s ix).2
  | OpApply s => (apply_record_columns s ix).2
  | OpRemove id => (remove id ix).2
  | OpRemovePath p => (remove_path p ix).2
  | OpRemoveSubtree root => (remove_subtree root ix).2
  | OpPin id => (pin id ix).2
  | OpUnpin id => (unpin id ix).2
  | OpContent id text => insert_content id text ix
  | OpContentTerms id ts => insert_content_terms id ts ix
  | OpImportContent ps => import_content_postings ps ix
  | OpRemoveContent id => remove_content id ix
  | OpImportPrefixes ps => (import_prefix_postings ps ix).2
  | OpImportSubstrings ps => (import_substring_postings ps ix).2
  | OpImportFuzzy ps => (import_fuzzy_postings ps ix).2
  | OpImportMetadata ps => (import_metadata_postings ps ix).2
  end.
Definition policy_full (policy : SidecarPolicy) : bool :=
  build_prefixes policy && build_substrings policy && build_fuzzy policy && build_metadata policy.
(** The operations that leave nothing to an archive. *)
Definition op_full (op : index_op) : bool :=
  match op with
  | OpColumns policy _ _ => policy_full policy
  | OpImportPrefixes _ | OpImportSubstrings _ | OpImportFuzzy _ | OpImportMetadata _ => false
  | _ => true
  end.
(** Those whose columns are made of the record. *)
Definition op_plain (op : index_op) : bool :=
  match op with OpColumns _ _ _ | OpApply _ => false | _ => op_full op end.

Lemma apply_op_ok full ix op : (full = true -> op_full op = true) -> index_ok full ix -> index_ok full (apply_op ix op).
Proof.
  intros Hfull Hok. destruct op; cbn [apply_op].
  - by apply insert_ok.
  - apply insert_columns_ok; [|done]. intros E%Hfull. destruct policy as [[] [] [] []]; done.
  - by apply apply_ok.
  - by apply remove_ok.
  - by apply remove_path_ok.
  - by apply remove_all_ok.
  - by apply pin_ok.
  - by apply unpin_ok.
  - by apply insert_content_ok.
  - by apply insert_content_terms_ok.
  - by apply import_content_ok.
  - by apply remove_content_ok.
  - destruct full; [by discriminate Hfull|]. apply (fold_ok false (fun _ => True)); [|done]. intros ix' p Hok'. unfold import_prefix_posting. cbv zeta.
    destruct (negb _ || _); [done|]. by apply terms_step_ok.
  - destruct full; [by discriminate Hfull|]. apply (fold_ok false (fun _ => True)); [|done]. intros ix' p Hok'. unfold import_substring_posting. cbv zeta.
    destruct (negb _ || _); [done|]. by apply terms_step_ok.
  - destruct full; [by discriminate Hfull|]. apply (fold_ok false (fun _ => True)); [|done]. intros ix' p Hok'. unfold import_fuzzy_posting. cbv zeta.
    destruct (bool_decide _ || _); [done|]. by apply terms_step_ok.
  - destruct full; [by discriminate Hfull|]. apply (fold_ok false (fun _ => True)); [|done]. intros ix' p Hok'. unfold import_metadata_posting. cbv zeta.
    destruct (bool_decide _ || _); [done|]. destruct (smp_field p); by apply terms_step_ok.
Qed.
Lemma ops_ok full ops : forall ix, (full = true -> forallb op_full ops = true) -> index_ok full ix -> index_ok full (foldl apply_op ix ops).
Proof.
  induction ops as [|op ops IH]; intros ix Hfull Hok; cbn [foldl]; [done|]. apply IH; [|apply apply_op_ok; [|done]];
    intros E; specialize (Hfull E); cbn in Hfull; apply andb_true_iff in Hfull; tauto.
Qed.
Lemma plain_full ops : forallb op_plain ops = true -> forallb op_full ops = true.
Proof. rewrite !forallb_forall. intros Hp op Hin. specialize (Hp op Hin). by destruct op. Qed.
End Ops.

(** ** Built from scratch *)
Section Rebuild.
Context `{Unicode}.
Implicit Types (ix : SearchIndex) (r : FileRecord) (id : FileId).
Definition derived ix : Prop := columns ix = from_record <$> records ix.

(** The records, their columns and their paths are the same. *)
Definition same_files ix ix' : Prop := records ix' = records ix /\ columns ix' = columns ix /\ paths ix' = paths ix.
Lemma same_files_refl ix : same_files ix ix.
Proof. done. Qed.
Lemma same_files_trans ix1 ix2 ix3 : same_files ix1 ix2 -> same_files ix2 ix3 -> same_files ix1 ix3.
Proof. intros (E1 & E2 & E3) (E4 & E5 & E6). split_and!; congruence. Qed.
Lemma entry_fields id term f ix : same_files ix (content_entry id term f ix).
Proof. done. Qed.
Lemma remove_content_fields id ix : same_files ix (remove_content id ix).
Proof. unfold remove_content. by destruct (content_record_terms ix !! id). Qed.
Lemma fold_fields {A} (f : SearchIndex -> A -> SearchIndex) (l : list A) : (forall ix x, same_files ix (f ix x)) -> forall ix, same_files ix (foldl f ix l).
Proof. intros Hf. induction l as [|x l IH]; intros ix; cbn [foldl]; [done|]. eapply same_files_trans; [apply Hf|apply IH]. Qed.
Lemma if_known_fields id (f : SearchIndex -> SearchIndex) ix : (forall ix, same_files ix (f ix)) -> same_files ix (if decide (records ix !! id = None) then ix else f ix).
Proof. intros Hf. destruct (decide _); [done|apply Hf]. Qed.
Lemma content_fields ix op : match op with OpContent _ _ | OpContentTerms _ _ | OpImportContent _ | OpRemoveContent _ | OpPin _ | OpUnpin _ => true | _ => false end = true ->
  same_files ix (apply_op ix op).
Proof.
  destruct op; try done; intros _; cbn [apply_op].
  - unfold pin. by destruct (decide _).
  - unfold insert_content. destruct (decide _); [done|]. eapply same_files_trans; [apply remove_content_fields|]. apply fold_fields. by intros ? [].
  - unfold insert_content_terms. destruct (decide _); [done|]. apply fold_fields. intros ix' x. cbv zeta. by destruct (decide _).
  - apply fold_fields. clear ix. intros ix p. unfold import_content_posting. cbv zeta. destruct (decide _); [done|].
    match goal with |- same_files ix (foldl _ ?ix1 _) => apply (same_files_trans ix ix1) end; apply fold_fields; intros ix' x;
      [apply (if_known_fields x (content_entry x (normalize (cp_term p)) (fun positions => positions)))
      |apply (if_known_fields (cp_id x) (content_entry (cp_id x) (normalize (cp_term p)) (fun _ => sort_dedup (cp_positions x))))]; intros ix''; apply entry_fields.
  - apply remove_content_fields.
Qed.
Lemma removed_derived ix id : index_ok true ix -> derived ix -> derived (remove id ix).2.
Proof. intros Hok Hd. destruct (remove_ok true id ix Hok) as (_ & Er & Ec & _). unfold derived. by rewrite Er, Ec, Hd, fmap_delete. Qed.
Lemma apply_op_derived ix op : op_plain op = true -> index_ok true ix -> derived ix -> derived (apply_op ix op).
Proof.
  intros Hp Hok Hd. assert (Hkeep : forall ix', same_files ix ix' -> derived ix') by (intros ix' (Er & Ec & _); unfold derived; by rewrite Er, Ec).
  destruct op; try done; try (by apply Hkeep, content_fields); cbn [apply_op].
  - destruct (insert_ok true r ix Hok) as (_ & Er & Ec). unfold derived. by rewrite Er, Ec, Hd, fmap_insert.
  - by apply removed_derived.
  - unfold remove_path. destruct (paths ix !! path_key p) as [id|]; [|done]. apply removed_derived; [by apply without_path_ok|done].
  - unfold remove_subtree. cbv zeta. set (ids := snd <$> _). clearbody ids.
    enough (Hg : forall acc, index_ok true acc.2 -> derived acc.2 ->
      derived (foldl (fun acc id => let r := remove id acc.2 in (acc.1 ++ option_list r.1, r.2)) acc ids).2) by by apply Hg.
    clear. induction ids as [|id ids IH]; intros acc Ha Hda; cbn [foldl]; [done|]. apply IH; cbn; [by apply remove_ok|by apply removed_derived].
Qed.
Lemma run_derived ops : forall ix, forallb op_plain ops = true -> index_ok true ix -> derived ix -> derived (foldl apply_op ix ops).
Proof.
  induction ops as [|op ops IH]; intros ix Hp Hok Hd; cbn [foldl]; [done|]. cbn in Hp. apply andb_true_iff in Hp as [Hop Hp].
  apply IH; [done| |by apply apply_op_derived]. apply apply_op_ok; [|done]. intros _. by destruct op.
Qed.

Definition insert_all (rs : list FileRecord) ix : SearchIndex := foldl (fun ix r => insert_record r ix) ix rs.
Lemma insert_all_records rs : forall ix, index_ok true ix -> NoDup (record_id <$> rs) ->
  index_ok true (insert_all rs ix) /\ forall id r, records (insert_all rs ix) !! id = Some r <->
    (r ∈ rs /\ record_id r = id) \/ (id ∉ record_id <$> rs /\ records ix !! id = Some r).
Proof.
  unfold insert_all. induction rs as [|x rs IH]; intros ix Hok Hnd; cbn [foldl].
  - split; [done|]. intros id r. rewrite !elem_of_nil. tauto.
  - rewrite fmap_cons in Hnd. apply NoDup_cons in Hnd as [Hx Hnd]. destruct (insert_ok true x ix Hok) as (Hok' & Er & _).
    destruct (IH _ Hok' Hnd) as [H1 H2]. split; [done|]. intros id r. rewrite H2, Er, fmap_cons, !elem_of_cons. destruct (decide (id = record_id x)) as [->|Hne].
    + rewrite lookup_insert_eq. naive_solver.
    + rewrite lookup_insert_ne by done. naive_solver.
Qed.
Lemma records_listed ix rs : index_ok true ix -> rs ≡ₚ (map_to_list (records ix)).*2 ->
  NoDup (record_id <$> rs) /\ forall r, r ∈ rs <-> records ix !! record_id r = Some r.
Proof.
  intros Hok Hp. assert (Hids : record_id <$> (map_to_list (records ix)).*2 = (map_to_list (records ix)).*1).
  { rewrite <- list_fmap_compose. apply list_fmap_ext. intros i [id r] Hi. cbn. apply list_elem_of_lookup_2, elem_of_map_to_list in Hi.
    by apply (ok_ids _ _ (ok_inner _ _ Hok)). }
  split.
  - rewrite Hp, Hids. apply NoDup_fst_map_to_list.
  - intros r. rewrite Hp, list_elem_of_fmap. split.
    + intros ([id r'] & -> & Hin%elem_of_map_to_list). cbn. by rewrite (ok_ids _ _ (ok_inner _ _ Hok) id r' Hin).
    + intros E. exists (record_id r, r). split; [done|]. by apply elem_of_map_to_list.
Qed.

(** *** Paths *)
(** Every record is found by its path. *)
Definition placed ix : Prop := forall id r, records ix !! id = Some r -> paths ix !! record_path r = Some id.
(** No other record is found by the path of [r]. *)
Definition own_path r ix : bool := match paths ix !! record_path r with Some id => bool_decide (id = record_id r) | None => true end.
(** Every insert of the sequence is at a path of its own. *)
Fixpoint own_paths ix (ops : list index_op) : bool :=
  match ops with
  | [] => true
  | op :: ops' => (match op with OpInsert r => own_path r ix | _ => true end) && own_paths (apply_op ix op) ops'
  end.
Lemma same_placed ix ix' : same_files ix ix' -> placed ix -> placed ix'.
Proof. intros (E1 & _ & E3). unfold placed. by rewrite E1, E3. Qed.
Lemma placed_new : placed new_index.
Proof. intros id r. cbn. by rewrite lookup_empty. Qed.
Lemma displace_paths full id ix : inner_ok full ix ->
  paths (displace id ix) = match records ix !! id with Some old => delete (record_path old) (paths ix) | None => paths ix end.
Proof.
  intros Hok. destruct (records ix !! id) as [r|] eqn:Hr; [|unfold displace; by rewrite Hr].
  destruct (columns_of full ix id r Hok Hr) as [c Hc]. by rewrite (displace_eq full id r c ix).
Qed.
Lemma insert_paths full r ix : inner_ok full ix -> paths (insert_record r ix) =
  <[record_path r := record_id r]> (match records ix !! record_id r with Some old => delete (record_path old) (paths ix) | None => paths ix end).
Proof. intros Hok. unfold insert_record. cbn [place paths path_key]. by rewrite (displace_paths full). Qed.
Lemma remove_paths full id ix : inner_ok full ix ->
  paths (remove id ix).2 = match records ix !! id with Some r => delete (record_path r) (paths ix) | None => paths ix end.
Proof.
  intros Hok. destruct (records ix !! id) as [r|] eqn:Hr; [|unfold remove; by rewrite Hr].
  destruct (columns_of full ix id r Hok Hr) as [c Hc]. by rewrite (remove_eq full id r c ix).
Qed.
(** A path is no record's but the one it is of. *)
Lemma placed_unique ix id id' r r' : placed ix -> records ix !! id = Some r -> records ix !! id' = Some r' -> record_path r = record_path r' -> id = id'.
Proof. intros Hp H1%Hp H2%Hp E. congruence. Qed.
Lemma insert_placed r ix : index_ok true ix -> own_path r ix = true -> placed ix -> placed (insert_record r ix).
Proof.
  intros Hok Ho Hp id r' Hr'. destruct (insert_ok true r ix Hok) as (_ & Er & _). rewrite Er in Hr'. rewrite (insert_paths true) by apply Hok.
  apply lookup_insert_Some in Hr' as [[<- <-]|[Hne Hr']]; [by rewrite lookup_insert_eq|]. pose proof (Hp id r' Hr') as Hpath.
  rewrite lookup_insert_ne.
  - destruct (records ix !! record_id r) as [old|] eqn:Hold; [|done]. rewrite lookup_delete_ne; [done|]. intros E. apply Hne. by eapply placed_unique.
  - intros E. unfold own_path in Ho. rewrite E, Hpath in Ho. apply bool_decide_eq_true in Ho. congruence.
Qed.
Lemma remove_placed id ix : index_ok true ix -> placed ix -> placed (remove id ix).2.
Proof.
  intros Hok Hp i r' Hr'. destruct (remove_ok true id ix Hok) as (_ & Er & _). rewrite Er in Hr'. apply lookup_delete_Some in Hr' as [Hne Hr'].
  rewrite (remove_paths true) by apply Hok. destruct (records ix !! id) as [r|] eqn:Hr; [|by apply Hp].
  rewrite lookup_delete_ne; [by apply Hp|]. intros E. apply Hne. by eapply placed_unique.
Qed.
Lemma remove_path_placed p ix : index_ok true ix -> placed ix -> placed (remove_path p ix).2.
Proof.
  intros Hok Hp. unfold remove_path, path_key. destruct (paths ix !! p) as [id|] eqn:Hpath; [|done]. pose proof (without_path_ok true ix p Hok) as Hw.
  destruct (ok_paths _ _ (ok_inner _ _ Hok) p id Hpath) as (r & Hr & Ep). pose proof (remove_placed id ix Hok Hp) as Hg.
  destruct (remove_ok true id ix Hok) as (_ & Er & _), (remove_ok true id _ Hw) as (_ & Er' & _).
  assert (E : paths (remove id (without_path p ix)).2 = paths (remove id ix).2).
  { rewrite !(remove_paths true) by (apply Hok || apply Hw). cbn [without_path records paths]. rewrite Hr, Ep. apply delete_delete_eq. }
  intros i x. rewrite E, Er'. cbn [without_path records]. rewrite <- Er. apply Hg.
Qed.
Lemma apply_op_placed ix op : op_plain op = true -> index_ok true ix -> (match op with OpInsert r => own_path r ix | _ => true end) = true ->
  placed ix -> placed (apply_op ix op).
Proof.
  intros Hpl Hok Ho Hp. destruct op; try done; try (by eapply same_placed; [apply content_fields|]); cbn [apply_op].
  - by apply insert_placed.
  - by apply remove_placed.
  - by apply remove_path_placed.
  - unfold remove_subtree. cbv zeta. set (ids := snd <$> _). clearbody ids.
    enough (Hg : forall acc, index_ok true acc.2 -> placed acc.2 ->
      placed (foldl (fun acc id => let r := remove id acc.2 in (acc.1 ++ option_list r.1, r.2)) acc ids).2) by by apply Hg.
    clear. induction ids as [|id ids IH]; intros acc Ha Hda; cbn [foldl]; [done|]. apply IH; cbn; [by apply remove_ok|by apply remove_placed].
Qed.
Lemma run_placed ops : forall ix, forallb op_plain ops = true -> own_paths ix ops = true -> index_ok true ix -> placed ix -> placed (foldl apply_op ix ops).
Proof.
  induction ops as [|op ops IH]; intros ix Hpl Ho Hok Hp; cbn [foldl]; [done|]. cbn in Hpl, Ho. apply andb_true_iff in Hpl as [Hop Hpl], Ho as [Ho1 Ho2].
  apply IH; [done|done| |by apply apply_op_placed]. apply apply_op_ok; [|done]. intros _. by destruct op.
Qed.
Lemma placed_paths ix ix' : index_ok true ix -> index_ok true ix' -> placed ix -> placed ix' -> records ix' = records ix -> paths ix' = paths ix.
Proof.
  intros Hok Hok' Hp Hp' E. apply map_eq. intros p. apply option_eq. intros id. split; intros Hi.
  - destruct (ok_paths _ _ (ok_inner _ _ Hok') p id Hi) as (r & Hr & <-). apply Hp. by rewrite <- E.
  - destruct (ok_paths _ _ (ok_inner _ _ Hok) p id Hi) as (r & Hr & <-). apply Hp'. by rewrite E.
Qed.
Lemma insert_all_ops rs ix : insert_all rs ix = foldl apply_op ix (OpInsert <$> rs).
Proof. unfold insert_all. revert ix. induction rs as [|r rs IH]; intros ix; cbn; [done|]. apply IH. Qed.
(** Records with paths of their own. *)
Lemma insert_all_placed rs : forall ix, index_ok true ix -> placed ix -> NoDup (record_path <$> rs) ->
  (forall r, r ∈ rs -> paths ix !! record_path r = None) -> placed (insert_all rs ix).
Proof.
  unfold insert_all. induction rs as [|x rs IH]; intros ix Hok Hp Hnd Hn; cbn [foldl]; [done|]. rewrite fmap_cons in Hnd. apply NoDup_cons in Hnd as [Hx Hnd].
  destruct (insert_ok true x ix Hok) as (Hok' & _). assert (Hpx : paths ix !! record_path x = None) by (apply Hn; by left). apply IH; [done| |done|].
  - apply insert_placed; [done| |done]. unfold own_path. by rewrite Hpx.
  - intros r Hr. rewrite (insert_paths true) by apply Hok. rewrite lookup_insert_ne; [|intros E; apply Hx; rewrite E; by apply list_elem_of_fmap_2].
    assert (Hpr : paths ix !! record_path r = None) by (apply Hn; by right). destruct (records ix !! record_id x); [|done]. rewrite lookup_delete_None. by right.
Qed.
(** Records with ids of their own: each path of theirs leads somewhere. *)
Lemma insert_all_reach rs : forall ix, index_ok true ix -> NoDup (record_id <$> rs) -> (forall r, r ∈ rs -> records ix !! record_id r = None) ->
  forall p, is_Some (paths ix !! p) \/ (exists r, r ∈ rs /\ record_path r = p) -> is_Some (paths (insert_all rs ix) !! p).
Proof.
  unfold insert_all. induction rs as [|x rs IH]; intros ix Hok Hnd Hn p Hp; cbn [foldl].
  { destruct Hp as [Hp|(r & Hr%elem_of_nil & _)]; done. }
  rewrite fmap_cons in Hnd. apply NoDup_cons in Hnd as [Hx Hnd]. destruct (insert_ok true x ix Hok) as (Hok' & Er & _). apply IH; [done|done| |].
  - intros r Hr. rewrite Er, lookup_insert_ne; [apply Hn; by right|]. intros E. apply Hx. rewrite E. by apply list_elem_of_fmap_2.
  - rewrite (insert_paths true), (Hn x) by (apply Hok || by left). rewrite lookup_insert_is_Some. destruct (decide (record_path x = p)) as [E|E]; [by left; left|].
    destruct Hp as [Hp|(r & [->|Hr]%elem_of_cons & Ep)]; [by left; right|by left; left|right; by exists r].
Qed.
End Rebuild.

(** ** Theorems *)

(** C19: The maps of the index mirror its records, after any sequence of operations from
    the empty index: a key of names, paths, extensions or kinds has exactly the ids of the
    records with that key, and no empty set; every record has columns and is under its own
    id, what is found by a path is at that path, the content of a record is gone with it,
    and what is pinned is there.  Unless some record or posting came from an archive, the
    prefixes, grams, comments, tags and deletion keys mirror the records too. *)
Theorem index_invariant `{Unicode} (ops : list index_op) : index_ok (forallb op_full ops) (foldl apply_op new_index ops).
Proof. apply ops_ok; [done|apply new_ok]. Qed.

(** C20: Keeping the index up to date gives what building it anew would.  After any sequence
    of inserts, replacements, removals (by id, path or subtree), pins and content whose
    columns are made of the records, take an index into which the records that are left
    are inserted, in any order: it has the same records and columns and the same maps of
    names, words, prefixes, grams, paths' words, metadata, tags, extensions, kinds and
    deletion keys.  Its map from paths to ids is the same too when every insert was at a path
    no other record was found by; otherwise the index that was kept up to date may have
    lost paths, and has none that the other has not.  (Contents and pins are not
    rebuilt.) *)
Theorem incremental_is_rebuild `{Unicode} (ops : list index_op) (rs : list FileRecord) : forallb op_plain ops = true ->
  let ix := foldl apply_op new_index ops in
  rs ≡ₚ (map_to_list (records ix)).*2 ->
  let built := insert_all rs new_index in
  records built = records ix /\ columns built = columns ix /\ index_terms built = index_terms ix /\
  (own_paths new_index ops = true -> paths built = paths ix) /\
  forall p, is_Some (paths ix !! p) -> is_Some (paths built !! p).
Proof.
  intros Hp ix Hrs built. assert (Hok : index_ok true ix) by (apply ops_ok; [intros _; by apply plain_full|apply new_ok]).
  assert (Hd : derived ix) by (apply run_derived; [done|apply new_ok|unfold derived; cbn; by rewrite fmap_empty]).
  destruct (records_listed ix rs Hok Hrs) as [Hnd Hin]. destruct (insert_all_records rs new_index (new_ok true) Hnd) as [Hb Hr].
  fold built in Hb, Hr. assert (Er : records built = records ix).
  { apply map_eq. intros id. apply option_eq. intros r. rewrite Hr. cbn. rewrite lookup_empty, Hin.
    split; [intros [[E <-]|[_ ?]]; done|]. intros E. left. by rewrite (ok_ids _ _ (ok_inner _ _ Hok) id r E). }
  assert (Hdb : derived built).
  { change built with (foldl (fun ix r => insert_record r ix) new_index rs). clear. assert (Hg : forall ix, index_ok true ix -> derived ix -> derived (foldl (fun ix r => insert_record r ix) ix rs)).
    { induction rs as [|r rs IH]; intros ix Hok Hd; cbn [foldl]; [done|]. apply IH; [by apply insert_ok|by apply (apply_op_derived ix (OpInsert r))]. }
    apply Hg; [apply new_ok|unfold derived; cbn; by rewrite fmap_empty]. }
  assert (Ec : columns built = columns ix) by by rewrite Hdb, Hd, Er.
  split_and!; [done..| | |].
  - eapply terms_mirror_unique; [|apply (ok_terms _ _ (ok_inner _ _ Hok))]. rewrite <- Er, <- Ec. apply Hb.
  - intros Ho. assert (Hpl : placed ix) by (apply run_placed; [done|done|apply new_ok|apply placed_new]).
    apply placed_paths; [done|done|done| |done]. apply insert_all_placed; [apply new_ok|apply placed_new| |by intros r _].
    apply (NoDup_fmap_2_strong record_path); [|by eapply NoDup_fmap_1]. intros r r' Hr1%Hin Hr2%Hin E. pose proof (placed_unique ix _ _ r r' Hpl Hr1 Hr2 E). congruence.
  - intros p [id Hpath]. destruct (ok_paths _ _ (ok_inner _ _ Hok) p id Hpath) as (r & Hr0 & <-). apply insert_all_reach; [apply new_ok|done|by intros|].
    right. exists r. split; [|done]. apply Hin. by rewrite (ok_ids _ _ (ok_inner _ _ Hok) id r Hr0).
Qed.

(** C21: In an index all of whose records and keys were built here, none taken from an
    archive ([index_ok true]), a record that was not there, at a path that was free, can
    be inserted and taken out again and leaves no trace: the index is the same in every
    map.  (Keys imported for a name before its record is there are dropped with it.) *)
Theorem insert_remove `{Unicode} (ix : SearchIndex) (r : FileRecord) : index_ok true ix ->
  records ix !! record_id r = None -> paths ix !! record_path r = None ->
  remove (record_id r) (insert_record r ix) = (Some r, ix).
Proof.
  intros Hok Hr Hp. destruct (insert_ok true r ix Hok) as (Hi & Er & Ec). set (ix' := insert_record r ix) in *.
  assert (Hr' : records ix' !! record_id r = Some r) by (rewrite Er; apply lookup_insert_eq).
  assert (Hc' : columns ix' !! record_id r = Some (from_record r)) by (rewrite Ec; apply lookup_insert_eq).
  rewrite (remove_eq true (record_id r) r (from_record r)) by (apply Hi || done). f_equal. pose proof Hi as [Hin _].
  pose proof (vanished_ok true r (from_record r) (pinned ix' ∖ {[record_id r]}) ix' Hin Hr' Hc') as Hv.
  assert (Hc : columns ix !! record_id r = None) by (apply eq_None_not_Some; rewrite (ok_columns _ _ (ok_inner _ _ Hok)), Hr; by intros [? ?]).
  assert (Hd : displace (record_id r) ix = ix) by (unfold displace; by rewrite Hr).
  assert (Hterms : index_terms (vanished r (from_record r) (pinned ix' ∖ {[record_id r]}) ix') = index_terms ix).
  { eapply terms_mirror_unique; [apply Hv|]. cbn [vanished records columns]. rewrite Er, Ec, !delete_insert_id by done. apply Hok. }
  destruct (ok_content _ _ (ok_inner _ _ Hok)) as [[Hct Hcn] Hne Hcr].
  assert (Hnr : content_record_terms ix !! record_id r = None).
  { apply eq_None_not_Some. intros Hs%Hcr. rewrite Hr in Hs. by destruct Hs. }
  unfold vanished in *. cbn [index_terms] in Hterms. rewrite Hterms. unfold ix', insert_record. rewrite Hd. cbn [place records columns paths content_terms content_record_terms pinned path_key].
  rewrite !delete_insert_id by done. rewrite drop_absent; [|done|].
  - rewrite (delete_id (content_record_terms ix)) by done. destruct ix; cbn in *. f_equal.
    apply set_eq. intros id. rewrite elem_of_difference, elem_of_singleton. split; [tauto|]. intros Hid. split; [done|]. intros ->.
    pose proof (ok_pinned _ _ Hok (record_id r) Hid) as Hs. cbn in Hs. rewrite Hr in Hs. by destruct Hs.
  - intros term. apply eq_None_not_Some. intros Hs. specialize (Hct (record_id r) term). rewrite Hnr in Hct. cbn in Hct. apply Hct in Hs. by apply elem_of_empty in Hs.
Qed.
