(* ===== verification/ContentSearch.v ===== *)
(** * Searching the content ([crates/search/src/content.rs], [pass.rs])

    The positions of the words of the records' texts answer phrases (the words one
    after another) and proximities (the words near each other).  The loops poll their
    cancellation token every [QUERY_CHECK_STRIDE] turns. *)
From S2P Require Import Prelude Types Order Chars Records Control Fuzzy Query BinarySearch SearchIndex SearchIndexSpec.
#[local] Open Scope list_scope.

(** ** Loops *)
Section Loops.
Context {St A B : Type}.
(** [for (index, x) in l.enumerate() { if index % STRIDE == 0 { check()? } acc = body(acc, x)? }]. *)
Fixpoint strided (body : B -> A -> M St B) (index : nat) (acc : B) (l : list A) : M St B :=
  match l with
  | [] => mret acc
  | x :: l' => stride_check index ;; (acc' <- body acc x ; strided body (S index) acc' l')
  end.
(** The same for a loop that returns [true] at the first element that passes. *)
Fixpoint strided_any (test : A -> bool) (index : nat) (l : list A) : M St bool :=
  match l with
  | [] => mret false
  | x :: l' => stride_check index ;; if test x then mret true else strided_any test (S index) l'
  end.

(** [Iterator::min_by_key]: the first of the least. *)
Fixpoint min_by_key (key : A -> nat) (l : list A) : option A :=
  match l with
  | [] => None
  | x :: l' => match min_by_key key l' with
               | Some y => Some (if key y <? key x then y else x)
               | None => Some x
               end
  end.
(** [Iterator::enumerate]. *)
Definition enumerate (l : list A) : list (nat * A) := imap pair l.
End Loops.

(** ** The rarest of some terms *)
Section Rarest.
Context {V : Type} (len : V -> nat).
Fixpoint rarest_from (postings : gmap str V) (rarest : option (str * V)) (terms : list str) : option (str * V) :=
  match terms with
  | [] => rarest
  | term :: terms' =>
      match postings !! term with
      | None => None
      | Some ids =>
          rarest_from postings
            (match rarest with
             | None => Some (term, ids)
             | Some (_, current) => if len ids <? len current then Some (term, ids) else rarest
             end) terms'
      end
  end.
Definition rarest_of (terms : list str) (postings : gmap str V) : option (str * V) := rarest_from postings None terms.
End Rarest.
Definition rarest_term_postings (terms : list str) (postings : gmap str (gset FileId)) : option (gset FileId) :=
  snd <$> rarest_of size terms postings.
Abbreviation Positions := (gmap FileId (list N)).
Definition rarest_content_term_postings (terms : list str) (postings : gmap str Positions) : option (str * Positions) :=
  rarest_of size terms postings.
Definition rarest_content_postings (terms : list str) (postings : gmap str Positions) : option Positions :=
  snd <$> rarest_content_term_postings terms postings.

(** ** Sorted positions *)
Definition sorted_contains_position (positions : list N) (position : N) : bool :=
  match binary_search_by (fun p => cmp p position) positions with Ok _ => true | Err _ => false end.
(** [slice::partition_point] is a binary search for what never is. *)
Definition partition_point (pred : N -> bool) (positions : list N) : nat :=
  match binary_search_by (fun p => if pred p then Lt else Gt) positions with Ok i | Err i => i end.
Definition saturating_sub_u32 (a b : N) : N := (a - b)%N.
Definition saturating_add_u32 (a b : N) : N := (a + b) `min` U32_MAX.
Definition sorted_has_position_within (positions : list N) (anchor distance : N) : bool :=
  let min := saturating_sub_u32 anchor distance in
  let max := saturating_add_u32 anchor distance in
  let index := partition_point (fun position => (position <? min)%N) positions in
  match positions !! index with Some position => (position <=? max)%N | None => false end.

(** ** The index *)
Section ContentSearch.
Context `{Unicode} {St : Type}.
Implicit Types (ix : SearchIndex) (id : FileId).

Definition content_has ix id (term : str) : bool :=
  match content_terms ix !! term with Some positions => bool_decide (is_Some (positions !! id)) | None => false end.
Definition content_frequency ix id (term : str) : nat :=
  match content_terms ix !! term ≫= lookup id with Some positions => Nat.max (length positions) 1 | None => 0 end.

(** The positions of each term in the content of [id]; [None] when some has none. *)
Definition term_positions ix id (terms : list str) : option (list (list N)) :=
  mapM (fun term => positions ← content_terms ix !! term ≫= lookup id ; if decide (positions = []) then None else Some positions) terms.

Definition as_u32 (n : nat) : N := (N.of_nat n mod 2 ^ 32)%N.
Definition checked_add_u32 (a b : N) : option N := if (a + b <=? U32_MAX)%N then Some (a + b)%N else None.
(** The phrase starts where the word at [anchor_offset] of it stands at [anchor]. *)
Definition phrase_at (positions : list (list N)) (anchor_offset : nat) (anchor : N) : bool :=
  match Query.checked_sub anchor (as_u32 anchor_offset) with
  | None => false
  | Some start =>
      forallb (fun it => match checked_add_u32 start (as_u32 it.1) with
                         | Some position => sorted_contains_position it.2 position
                         | None => false end) (enumerate positions)
  end.
Definition content_matches_phrase_cancellable ix id (phrase : str) : M St bool :=
  check_control ;;
  let terms := tokenize (normalize phrase) in
  match terms with
  | [] => mret false
  | [term] => mret (content_has ix id term)
  | _ =>
      match term_positions ix id terms with
      | None => mret false
      | Some positions =>
          match min_by_key (fun it => length it.2) (enumerate positions) with
          | None => mret false
          | Some (anchor_offset, anchor_positions) => strided_any (phrase_at positions anchor_offset) 0 anchor_positions
          end
      end
  end.

(** A [HashMap] is walked in the order of its [gmap], which is some order. *)
Definition hash_values {V} (m : gmap FileId V) : list V := (map_to_list m).*2.
Definition in_order (ids : gset FileId) : list FileId := sort (elements ids).

Definition record_matches_phrase ix (r : FileRecord) (phrase : str) : bool :=
  match columns ix !! record_id r with Some c => matches_phrase c phrase | None => false end.
Definition add_record_phrase_ids_for_field ix (terms : list str) (phrase : str) (postings : gmap str (gset FileId))
    (matches : RecordColumns -> str -> bool) (ids : gset FileId) : M St (gset FileId) :=
  check_control ;;
  match rarest_term_postings terms postings with
  | None => mret ids
  | Some candidates =>
      strided (fun ids id => mret (match columns ix !! id with
                                   | Some c => if matches c phrase then {[id]} ∪ ids else ids
                                   | None => ids end)) 0 ids (in_order candidates)
  end.
Definition record_phrase_ids_cancellable ix (phrase : str) : M St (list FileId) :=
  check_control ;;
  let terms := tokenize (normalize phrase) in
  if decide (terms = []) then
    strided (fun ids r => mret (if record_matches_phrase ix r phrase then ids ++ [record_id r] else ids)) 0 [] (hash_values (records ix))
  else
    let t := index_terms ix in
    ids <- add_record_phrase_ids_for_field ix terms phrase (name_terms t) matches_name_phrase ∅ ;
    ids <- add_record_phrase_ids_for_field ix terms phrase (path_terms t) matches_path_phrase ids ;
    ids <- add_record_phrase_ids_for_field ix terms phrase (metadata_terms t) matches_comment_phrase ids ;
    mret (in_order ids).

Definition content_phrase_ids_cancellable ix (phrase : str) : M St (list FileId) :=
  check_control ;;
  let terms := tokenize (normalize phrase) in
  match rarest_content_postings terms (content_terms ix) with
  | None => mret []
  | Some candidates =>
      strided (fun ids id => found <- content_matches_phrase_cancellable ix id phrase ; mret (if found : bool then ids ++ [id] else ids))
        0 [] (sort (map_to_list candidates).*1)
  end.

Definition content_matches_proximity_cancellable ix id (proximity : QueryProximity) : M St bool :=
  check_control ;;
  match term_positions ix id (proximity_terms proximity) with
  | None => mret false
  | Some positions =>
      match min_by_key (fun it => length it.2) (enumerate positions) with
      | None => mret false
      | Some (anchor_index, anchor_positions) =>
          strided_any (fun anchor => forallb (fun it => Nat.eqb it.1 anchor_index || sorted_has_position_within it.2 anchor (distance proximity)) (enumerate positions))
            0 anchor_positions
      end
  end.
Definition content_proximity_ids_cancellable ix (proximity : QueryProximity) : M St (list FileId) :=
  check_control ;;
  match rarest_content_term_postings (proximity_terms proximity) (content_terms ix) with
  | None => mret []
  | Some (anchor_term, rarest) =>
      strided (fun ids id =>
          if forallb (fun term => bool_decide (term = anchor_term) || content_has ix id term) (proximity_terms proximity)
          then found <- content_matches_proximity_cancellable ix id proximity ; mret (if found : bool then ids ++ [id] else ids)
          else mret ids) 0 [] (sort (map_to_list rarest).*1)
  end.

(** ** What a deep pass may add *)
Definition may_have_fuzzy_term_delta ix (term : str) : bool :=
  is_fuzzy_term term &&
  existsb (fun key => match deletions (index_terms ix) !! key with
                      | Some terms => existsb (fun candidate => negb (bool_decide (candidate = term))) (elements terms)
                      | None => false end) (deletion_keys term 2).
Definition term_may_have_deep_delta ix (term : str) : bool :=
  bool_decide (is_Some (content_terms ix !! term)) || may_have_fuzzy_term_delta ix term.
Definition phrase_may_have_deep_delta ix (phrase : str) : bool :=
  bool_decide (is_Some (rarest_content_postings (tokenize (normalize phrase)) (content_terms ix))).
Fixpoint expression_may_have_deep_delta ix (expression : QueryExpr) : bool :=
  match expression with
  | ETerm term => term_may_have_deep_delta ix term
  | EPhrase phrase => phrase_may_have_deep_delta ix phrase
  | EProximity _ | ENot _ => true
  | EFilter _ => false
  | EAnd expressions | EOr expressions => existsb (expression_may_have_deep_delta ix) expressions
  end.
(** A loop that returns [true] at the first element that passes, polling before each. *)
Fixpoint polled_any {A} (test : A -> bool) (rest : M St bool) (l : list A) : M St bool :=
  match l with [] => rest | x :: l' => check_control ;; if test x then mret true else polled_any test rest l' end.
Definition query_may_have_deep_delta_cancellable ix (query : SearchQuery) : M St bool :=
  check_control ;;
  if decide (proximities query <> []) then mret true
  else
    polled_any (term_may_have_deep_delta ix)
      (polled_any (phrase_may_have_deep_delta ix)
         (mret (match expression query with Some expression => expression_may_have_deep_delta ix expression | None => false end))
         (phrases query)) (terms query).
End ContentSearch.

(** ** What the loops compute *)
Section LoopSpec.
Context {St A B : Type}.
Lemma computes_stride index : computes (S := St) (stride_check index) tt.
Proof. unfold stride_check. destruct (Nat.eqb _ _); [apply computes_check|apply computes_ret]. Qed.
Lemma computes_strided (body : B -> A -> M St B) (step : B -> A -> B) l : (forall b x, computes (body b x) (step b x)) ->
  forall index acc, computes (strided body index acc l) (foldl step acc l).
Proof.
  intros Hb. induction l as [|x l IH]; intros index acc; cbn; [apply computes_ret|].
  eapply computes_bind; [apply computes_stride|]. eapply computes_bind; [apply Hb|apply IH].
Qed.
Lemma computes_strided_any (test : A -> bool) l : forall index, computes (S := St) (strided_any test index l) (existsb test l).
Proof.
  induction l as [|x l IH]; intros index; cbn; [apply computes_ret|].
  eapply computes_bind; [apply computes_stride|]. destruct (test x); [apply computes_ret|apply IH].
Qed.
Lemma computes_polled_any (test : A -> bool) rest b l : computes rest b -> computes (S := St) (polled_any test rest l) (existsb test l || b).
Proof.
  intros Hr. induction l as [|x l IH]; cbn; [done|]. eapply computes_bind; [apply computes_check|]. destruct (test x); [apply computes_ret|apply IH].
Qed.
Lemma foldl_collect {C} (test : A -> bool) (f : A -> C) l : forall acc,
  foldl (fun acc x => if test x then acc ++ [f x] else acc) acc l = acc ++ (f <$> filter (fun x => test x = true) l).
Proof.
  induction l as [|x l IH]; intros acc; cbn [foldl]; [by rewrite app_nil_r|]. rewrite IH, filter_cons.
  destruct (test x); [rewrite decide_True by done|by rewrite decide_False by done]. by rewrite fmap_cons, <- app_assoc.
Qed.
Lemma min_by_key_some (key : A -> nat) l : l <> [] -> exists x, min_by_key key l = Some x /\ x ∈ l /\ forall y, y ∈ l -> key x <= key y.
Proof.
  induction l as [|x l IH]; [done|]. intros _. destruct (decide (l = [])) as [->|Hne]; [exists x; split_and!; [done|by left|by intros y [->|?%elem_of_nil]%elem_of_cons]|]. cbn [min_by_key].
  destruct IH as (y & E & Hy & Hl); [done|]. rewrite E. destruct (Nat.ltb_spec (key y) (key x)).
  - exists y. split_and!; [done|by right|]. intros w [->|Hw]%elem_of_cons; [lia|by apply Hl].
  - exists x. split_and!; [done|by left|]. intros w [->|Hw]%elem_of_cons; [lia|]. specialize (Hl w Hw). lia.
Qed.
Lemma enumerate_elem (l : list A) i x : (i, x) ∈ enumerate l <-> l !! i = Some x.
Proof.
  unfold enumerate. rewrite list_elem_of_lookup. split.
  - intros [k Hk]. rewrite list_lookup_imap in Hk. destruct (l !! k) as [y|] eqn:E; [|done]. by injection Hk as <- <-.
  - intros Hi. exists i. by rewrite list_lookup_imap, Hi.
Qed.
End LoopSpec.

Section RarestSpec.
Context {V : Type} (len : V -> nat).
Lemma rarest_from_spec postings terms : forall rarest,
  match rarest_from len postings rarest terms with
  | Some (t, ids) => (rarest = Some (t, ids) \/ t ∈ terms /\ postings !! t = Some ids) /\ forall u, u ∈ terms -> is_Some (postings !! u)
  | None => rarest = None /\ terms = [] \/ exists u, u ∈ terms /\ postings !! u = None
  end.
Proof.
  induction terms as [|term terms IH]; intros rarest; cbn [rarest_from].
  - destruct rarest as [[t ids]|]; [|by left]. split; [by left|]. intros u Hu. by apply not_elem_of_nil in Hu.
  - destruct (postings !! term) as [ids|] eqn:E; [|right; exists term; split; [by left|done]].
    set (rarest' := match rarest with None => _ | Some _ => _ end). specialize (IH rarest').
    assert (Hr : rarest' = Some (term, ids) \/ rarest' = rarest /\ is_Some rarest).
    { subst rarest'. destruct rarest as [[t' current]|]; [|by left]. destruct (_ <? _); [by left|right; done]. }
    destruct (rarest_from len postings rarest' terms) as [[t ids']|].
    + destruct IH as [IH1 IH2]. split; [|intros u [->|Hu]%elem_of_cons; [done|by apply IH2]].
      rewrite elem_of_cons. destruct IH1 as [IH1|[? ?]]; [|right; tauto].
      destruct Hr as [Hr|[Hr _]]; rewrite Hr in IH1; [injection IH1 as <- <-; right; tauto|by left].
    + right. destruct IH as [[IH _]|(u & Hu & Hn)]; [exfalso; destruct Hr as [Hr|[Hr [? Hs]]]; congruence|]. exists u. split; [by right|done].
Qed.
Lemma rarest_of_spec terms postings :
  match rarest_of len terms postings with
  | Some (t, ids) => t ∈ terms /\ postings !! t = Some ids /\ forall u, u ∈ terms -> is_Some (postings !! u)
  | None => terms = [] \/ exists u, u ∈ terms /\ postings !! u = None
  end.
Proof.
  pose proof (rarest_from_spec postings terms None) as Hs. unfold rarest_of. destruct (rarest_from _ _ _ _) as [[t ids]|].
  - destruct Hs as [[?|[? ?]] ?]; [done|]. done.
  - destruct Hs as [[_ ?]|?]; [by left|by right].
Qed.
End RarestSpec.

(** ** Sorted positions *)
Lemma sorted_contains_spec l p : StronglySorted lt_of l -> sorted_contains_position l p = bool_decide (p ∈ l).
Proof.
  intros Hs. unfold sorted_contains_position. change (binary_search_by (fun p0 => cmp p0 p) l) with (search_key (fun x : N => x) p l).
  destruct (search_key_cases (fun x : N => x) p l Hs) as [(l1 & x & l2 & -> & -> & E)|(l1 & l2 & -> & H1 & H2 & E)].
  - rewrite E. rewrite bool_decide_eq_true_2; [done|]. set_solver.
  - rewrite E. rewrite bool_decide_eq_false_2; [done|]. rewrite Forall_forall in H1, H2.
    intros [Hp|Hp]%elem_of_app; [exact (lt_irrefl _ (H1 p Hp))|exact (lt_irrefl _ (H2 p Hp))].
Qed.
Lemma partition_point_spec bound l : StronglySorted lt_of l ->
  exists l1 l2, l = l1 ++ l2 /\ Forall (fun p => (p < bound)%N) l1 /\ Forall (fun p => (bound <= p)%N) l2 /\
    partition_point (fun p => (p <? bound)%N) l = length l1.
Proof.
  intros Hs. destruct (sorted_split (fun x : N => x) bound l Hs) as (l1 & l2 & -> & H1 & H2). exists l1, l2.
  assert (H1' : Forall (fun p => (p < bound)%N) l1) by (eapply Forall_impl; [exact H1|]; intros p Hp; by apply N.compare_lt_iff).
  assert (H2' : Forall (fun p => (bound <= p)%N) l2) by (eapply Forall_impl; [exact H2|]; intros p Hp; by apply N.compare_le_iff in Hp || exact Hp).
  split_and!; [done..|]. unfold partition_point. rewrite (binary_search_spec _ _ (length l1)).
  - destruct (length l1) as [|m] eqn:El; [done|]. destruct (lookup_lt_is_Some_2 l1 m ltac:(lia)) as [x Hx].
    rewrite lookup_app_l by lia. rewrite Hx. cbn. rewrite Forall_lookup in H1'. specialize (H1' m x Hx). cbn in H1'.
    destruct (N.ltb_spec x bound); [done|lia].
  - apply cut_at_app.
    + eapply Forall_impl; [exact H1'|]. intros p Hp. cbn in *. destruct (N.ltb_spec p bound); [done|lia].
    + eapply Forall_impl; [exact H2'|]. intros p Hp. cbn in *. destruct (N.ltb_spec p bound); [lia|done].
Qed.
Lemma sorted_within_spec l a d : StronglySorted lt_of l -> Forall (fun p => (p <= U32_MAX)%N) l ->
  sorted_has_position_within l a d = true <-> exists p, p ∈ l /\ (a - d <= p)%N /\ (p <= a + d)%N.
Proof.
  intros Hs Hl. unfold sorted_has_position_within, saturating_sub_u32, saturating_add_u32. cbv zeta.
  destruct (partition_point_spec (a - d) l Hs) as (l1 & l2 & -> & H1 & H2 & ->). rewrite lookup_app_r, Nat.sub_diag by lia.
  rewrite Forall_forall in H1, H2. destruct l2 as [|q l2]; cbn.
  - split; [done|]. intros (p & Hp & H3 & H4). rewrite app_nil_r in Hp. specialize (H1 p Hp). cbn in H1. lia.
  - apply Forall_app in Hl as [_ [Hq _]%Forall_cons]. split.
    + intros Hle%N.leb_le. exists q. split_and!; [set_solver| |lia]. apply H2. by left.
    + intros (p & Hp & H3 & H4). apply N.leb_le. apply elem_of_app in Hp as [Hp|Hp]; [specialize (H1 p Hp); cbn in H1; lia|].
      apply elem_of_cons in Hp as [->|Hp]; [lia|].
      apply StronglySorted_app_1_r, StronglySorted_inv in Hs as [_ Hs]. rewrite Forall_forall in Hs. specialize (Hs p Hp). change (q < p)%N in Hs. lia.
Qed.

(** ** Phrases and proximities over positions *)
Definition positions_fit (positions : list (list N)) : Prop :=
  Forall (fun ps => StronglySorted lt_of ps /\ Forall (fun p => (p <= U32_MAX)%N) ps) positions.
Lemma as_u32_id n : (N.of_nat n <= U32_MAX)%N -> as_u32 n = N.of_nat n.
Proof. intros Hn. unfold as_u32. apply N.mod_small. unfold U32_MAX in Hn. lia. Qed.
Lemma phrase_at_spec positions off anchor : positions_fit positions -> (N.of_nat (length positions) <= U32_MAX)%N -> off < length positions ->
  phrase_at positions off anchor = true <->
  (N.of_nat off <= anchor)%N /\ forall i ps, positions !! i = Some ps -> (anchor - N.of_nat off + N.of_nat i)%N ∈ ps.
Proof.
  intros Hfit Hlen Hoff. unfold phrase_at, Query.checked_sub. rewrite as_u32_id by lia. destruct (N.leb_spec (N.of_nat off) anchor) as [Hle|Hlt]; [|split; [done|lia]].
  rewrite forallb_forall. unfold positions_fit in Hfit. rewrite Forall_lookup in Hfit. split.
  - intros Hall. split; [done|]. intros i ps Hi. specialize (Hall (i, ps)). cbn in Hall. specialize (Hall ltac:(by apply list_elem_of_In, enumerate_elem)).
    unfold checked_add_u32 in Hall. apply lookup_lt_Some in Hi as Hil. rewrite as_u32_id in Hall by lia.
    destruct (_ <=? _)%N; [|done]. rewrite sorted_contains_spec in Hall by by apply (Hfit i ps). by apply bool_decide_eq_true in Hall.
  - intros [_ Hall] [i ps] Hin%list_elem_of_In%enumerate_elem. cbn. specialize (Hall i ps Hin). destruct (Hfit i ps Hin) as [Hs Hb].
    unfold checked_add_u32. apply lookup_lt_Some in Hin as Hil. rewrite as_u32_id by lia. rewrite Forall_forall in Hb. specialize (Hb _ Hall). cbn in Hb.
    destruct (N.leb_spec (anchor - N.of_nat off + N.of_nat i) U32_MAX); [|lia]. rewrite sorted_contains_spec by done. by apply bool_decide_eq_true.
Qed.
(** Whichever word is the anchor. *)
Lemma phrase_any positions off anchors : positions_fit positions -> (N.of_nat (length positions) <= U32_MAX)%N -> positions !! off = Some anchors ->
  existsb (phrase_at positions off) anchors = true <->
  exists start, forall i ps, positions !! i = Some ps -> (start + N.of_nat i)%N ∈ ps.
Proof.
  intros Hfit Hlen Hoff. apply lookup_lt_Some in Hoff as Hl. rewrite existsb_exists. split.
  - intros (a & _ & Ha). apply phrase_at_spec in Ha as [_ Ha]; [|done..]. by exists (a - N.of_nat off)%N.
  - intros [start Hall]. exists (start + N.of_nat off)%N. split; [apply list_elem_of_In; by apply (Hall off)|].
    apply phrase_at_spec; [done..|]. split; [lia|]. intros i ps Hi. replace (start + N.of_nat off - N.of_nat off)%N with start by lia. by apply Hall.
Qed.

(** The positions of a word in a text. *)
Definition occurrences (tokens : list str) (term : str) : list N :=
  (fun p => (N.of_nat p.1 mod 2 ^ 32)%N) <$> filter (fun p => p.2 = term) (imap pair tokens).
Definition short (tokens : list str) : Prop := (N.of_nat (length tokens) <= U32_MAX)%N.
Lemma occurrences_elem tokens term p : short tokens -> p ∈ occurrences tokens term <-> tokens !! N.to_nat p = Some term.
Proof.
  intros Hs. unfold occurrences. rewrite list_elem_of_fmap. split.
  - intros ([i w] & -> & [Hw Hi]%list_elem_of_filter). cbn in *. subst w. apply enumerate_elem in Hi. apply lookup_lt_Some in Hi as Hl.
    rewrite N.mod_small by (unfold short, U32_MAX in Hs; lia). by rewrite Nat2N.id.
  - intros Hi. exists (N.to_nat p, term). apply lookup_lt_Some in Hi as Hl. cbn. split.
    + rewrite N2Nat.id, N.mod_small; [done|]. unfold short, U32_MAX in Hs. lia.
    + apply list_elem_of_filter. split; [done|]. by apply enumerate_elem.
Qed.
Lemma occurrences_fit tokens term : short tokens ->
  StronglySorted lt_of (occurrences tokens term) /\ Forall (fun p => (p <= U32_MAX)%N) (occurrences tokens term).
Proof.
  intros Hs. split.
  - unfold occurrences. assert (Hg : forall l n, (N.of_nat (n + length l) <= U32_MAX)%N ->
      StronglySorted lt_of ((fun p => (N.of_nat p.1 mod 2 ^ 32)%N) <$> filter (fun p => p.2 = term) (imap (fun i (w : str) => (n + i, w)) l)) /\
      Forall (fun p => (N.of_nat n <= p)%N) ((fun p => (N.of_nat p.1 mod 2 ^ 32)%N) <$> filter (fun p => p.2 = term) (imap (fun i (w : str) => (n + i, w)) l))).
    { induction l as [|w l IH]; intros n Hn; [split; constructor|]. cbn [imap]. cbn [length] in Hn.
      assert (E : imap ((fun i (w : str) => (n + i, w)) ∘ S) l = imap (fun i (w : str) => (S n + i, w)) l) by (apply imap_ext; intros; cbn; f_equal; lia).
      rewrite E. destruct (IH (S n) ltac:(lia)) as [IH1 IH2]. rewrite filter_cons. cbn [fst snd].
      assert (IH3 : Forall (fun p => (N.of_nat n <= p)%N) ((fun p => (N.of_nat p.1 mod 2 ^ 32)%N) <$> filter (fun p => p.2 = term) (imap (fun i (w : str) => (S n + i, w)) l))).
      { eapply Forall_impl; [exact IH2|]. intros p Hp. cbn in *. lia. }
      case_decide; [|done]. rewrite fmap_cons. cbn [fst]. rewrite Nat.add_0_r, N.mod_small by (unfold U32_MAX in Hn; lia).
      split; constructor; try done. eapply Forall_impl; [exact IH2|]. intros p Hp. cbn in Hp. change (N.of_nat n < p)%N. lia. }
    apply (Hg tokens 0). unfold short in Hs. lia.
  - apply Forall_forall. intros p Hp%occurrences_elem%lookup_lt_Some; [|done]. unfold short in Hs. lia.
Qed.
(** A text has some words one after another. *)
Definition in_text (words tokens : list str) : Prop := words <> [] /\ exists before after, tokens = before ++ words ++ after.
Lemma in_text_iff ws tokens : short tokens -> ws <> [] ->
  in_text ws tokens <-> exists start, forall i w, ws !! i = Some w -> (start + N.of_nat i)%N ∈ occurrences tokens w.
Proof.
  intros Hs Hne. split.
  - intros (_ & before & after & ->). exists (N.of_nat (length before)). intros i w Hi. apply occurrences_elem; [done|].
    rewrite lookup_app_r by lia. apply lookup_lt_Some in Hi as Hl. rewrite lookup_app_l by lia. rewrite <- Hi. f_equal. lia.
  - intros [start Hall]. split; [done|]. exists (take (N.to_nat start) tokens), (drop (N.to_nat start + length ws) tokens).
    rewrite <- (take_drop (N.to_nat start) tokens) at 1. f_equal. rewrite <- (take_drop (length ws) (drop (N.to_nat start) tokens)), drop_drop. f_equal.
    apply list_eq. intros i. destruct (ws !! i) as [w|] eqn:Hi.
    + apply lookup_lt_Some in Hi as Hl. rewrite lookup_take_lt by done. rewrite lookup_drop. specialize (Hall i w Hi). apply occurrences_elem in Hall; [|done].
      rewrite <- Hall. f_equal. lia.
    + apply lookup_ge_None in Hi. rewrite lookup_take_ge by done. done.
Qed.

(** ** The texts behind the positions *)
Section Texts.
Context `{Unicode}.
Implicit Types (ix : SearchIndex) (id : FileId) (term : str) (texts : gmap FileId (list str)).
Abbreviation position ix term id := (position_of (content_terms ix) term id).

Lemma position_absent full ix id term : index_ok full ix -> records ix !! id = None -> position ix term id = None.
Proof.
  intros Hok Hr. destruct (ok_content _ _ (ok_inner _ _ Hok)) as [[Hct _] _ Hcr]. apply eq_None_not_Some. intros Hs%Hct.
  assert (Hn : content_record_terms ix !! id = None) by (apply eq_None_not_Some; intros Hx%Hcr; rewrite Hr in Hx; by destruct Hx).
  rewrite Hn in Hs. by apply elem_of_empty in Hs.
Qed.
(** From [ix] to [ix'] some records are gone, with their content. *)
Definition thinned full ix ix' : Prop :=
  index_ok full ix' /\ (forall i, is_Some (records ix' !! i) -> is_Some (records ix !! i)) /\
  forall term i, position ix' term i = if decide (is_Some (records ix' !! i)) then position ix term i else None.
Lemma thinned_same full ix ix' : index_ok full ix' -> records ix' = records ix -> content_terms ix' = content_terms ix -> thinned full ix ix'.
Proof.
  intros Hok Er Ec. split_and!; [done|by rewrite Er|]. intros term i. case_decide as Hd; [by rewrite Ec|].
  apply (position_absent full); [done|]. by apply eq_None_not_Some.
Qed.
Lemma thinned_trans full ix1 ix2 ix3 : thinned full ix1 ix2 -> thinned full ix2 ix3 -> thinned full ix1 ix3.
Proof.
  intros (_ & Hr1 & Hp1) (Hok & Hr2 & Hp2). split_and!; [done|by intros i ?%Hr2%Hr1|]. intros term i. rewrite Hp2.
  case_decide as Hd; [|done]. rewrite Hp1. by rewrite decide_True by by apply Hr2.
Qed.
Lemma thinned_remove full ix id : index_ok full ix -> thinned full ix (remove id ix).2.
Proof.
  intros Hok. destruct (remove_ok full id ix Hok) as (Hok' & Er & _ & _). destruct (records ix !! id) as [r|] eqn:Hr.
  - destruct (columns_of full ix id r (ok_inner _ _ Hok) Hr) as [c Hc]. pose proof (ok_ids _ _ (ok_inner _ _ Hok) id r Hr) as Eid. subst id.
    rewrite (remove_eq full _ r c ix (ok_inner _ _ Hok) Hr Hc) in *. cbn [snd] in *. split_and!; [done| |].
    + intros i. rewrite Er, lookup_delete_is_Some. tauto.
    + intros term i. rewrite Er. cbn [vanished content_terms]. rewrite position_drop. destruct (decide (i = record_id r)) as [->|Hi].
      * by rewrite decide_False by (rewrite lookup_delete_eq; by intros [? ?]).
      * case_decide as Hd; [done|]. apply (position_absent full); [done|]. rewrite lookup_delete_ne in Hd by done. by apply eq_None_not_Some.
  - replace (remove id ix).2 with ix by (unfold remove; by rewrite Hr). by apply thinned_same.
Qed.
Lemma thinned_subtree full ids : forall acc, index_ok full acc.2 ->
  thinned full acc.2 (foldl (fun acc id => let r := remove id acc.2 in (acc.1 ++ option_list r.1, r.2)) acc ids).2.
Proof.
  induction ids as [|id ids IH]; intros acc Hok; cbn [foldl]; [by apply thinned_same|].
  eapply thinned_trans; [by apply thinned_remove|]. apply (IH (_, _)). cbn. by apply remove_ok.
Qed.
Lemma displaced_position full ix id term i : inner_ok full ix -> (forall t, records ix !! id = None -> position ix t id = None) ->
  position (displace id ix) term i = if decide (i = id) then None else position ix term i.
Proof.
  intros Hok Hn. destruct (records ix !! id) as [r|] eqn:Hr.
  - destruct (columns_of full ix id r Hok Hr) as [c Hc]. rewrite (displace_eq full id r c ix) by done. pose proof (ok_ids _ _ Hok id r Hr) as <-.
    cbn [vanished content_terms]. apply position_drop.
  - unfold displace. rewrite Hr. case_decide as Hi; [subst; by apply Hn|done].
Qed.
Lemma applied_position full ix s term i : index_ok full ix ->
  position (apply_record_columns s ix).2 term i = if decide (i = sc_id s) then None else position ix term i.
Proof.
  intros Hok. unfold apply_record_columns. destruct (records ix !! sc_id s) as [r|] eqn:Hr; cbn [snd].
  - destruct (columns_of full ix _ r (ok_inner _ _ Hok) Hr) as [c Hc]. pose proof (ok_ids _ _ (ok_inner _ _ Hok) _ r Hr) as Eid.
    unfold remove_terms. rewrite Eid, Hc. cbn [default from_option]. rewrite (remove_content_eq (records ix)) by apply Hok. cbn [content_terms with_terms]. apply position_drop.
  - case_decide as Hi; [subst|done]. by apply (position_absent full).
Qed.

(** The content of a text. *)
Definition text_positions (tokens : list str) term : option (list N) :=
  match occurrences tokens term with [] => None | ps => Some ps end.
Lemma entry_position id w f ix term i : position (content_entry id w f ix) term i =
  if decide (i = id /\ term = w) then Some (f (default [] (position ix term i))) else position ix term i.
Proof.
  unfold position_of. cbn [content_entry content_terms]. destruct (decide (term = w)) as [->|Ht].
  - rewrite lookup_insert_eq. cbn. destruct (decide (i = id)) as [->|Hi].
    + rewrite lookup_insert_eq, decide_True by done. by destruct (content_terms ix !! w).
    + rewrite lookup_insert_ne by done. rewrite decide_False by tauto. destruct (content_terms ix !! w); cbn; [done|apply lookup_empty].
  - rewrite lookup_insert_ne by done. by rewrite decide_False by tauto.
Qed.
Lemma pushed_position id (l : list (nat * str)) : forall ix term i,
  position (foldl (fun ix p => content_entry id p.2 (fun positions => positions ++ [N.of_nat p.1 mod 2 ^ 32]%N) ix) ix l) term i =
  let added := (fun p : nat * str => (N.of_nat p.1 mod 2 ^ 32)%N) <$> filter (fun p => p.2 = term) l in
  if decide (i = id /\ added <> []) then Some (default [] (position ix term i) ++ added) else position ix term i.
Proof.
  induction l as [|[n w] l IH]; intros ix term i; cbn [foldl]; [cbn; by rewrite decide_False by tauto|].
  rewrite IH, entry_position. cbv zeta. rewrite filter_cons. cbn [fst snd]. destruct (decide (w = term)) as [->|Hw].
  - rewrite fmap_cons. cbn [fst]. set (added := _ <$> filter _ l). destruct (decide (i = id)) as [->|Hi].
    + rewrite (decide_True (P := id = id /\ term = term)), (decide_True (P := id = id /\ _ :: added <> [])) by done. cbn [default from_option]. cbv beta.
      destruct (decide (id = id /\ added <> [])) as [[_ Hne]|He]; [unfold Datatypes.id; by rewrite <- app_assoc|]. destruct added; [done|]. by destruct He.
    + by rewrite !decide_False by tauto.
  - by rewrite (decide_False (P := i = id /\ term = w)) by (intros [_ ?]; congruence).
Qed.
Lemma inserted_position full ix id text term i : index_ok full ix -> is_Some (records ix !! id) ->
  position (insert_content id text ix) term i = if decide (i = id) then text_positions (words (normal text)) term else position ix term i.
Proof.
  intros Hok Hid. unfold insert_content. rewrite decide_False by by apply not_eq_None_Some. rewrite pushed_position. cbv zeta.
  rewrite tokenize_eq, normalize_eq, (remove_content_eq (records ix)) by apply Hok. cbn [content_terms]. rewrite position_drop.
  unfold text_positions. fold (occurrences (words (normal text)) term). destruct (decide (i = id)) as [->|Hi].
  - destruct (occurrences _ _) as [|p ps] eqn:E; [by rewrite decide_False by tauto|]. by rewrite decide_True.
  - by rewrite decide_False by tauto.
Qed.

Lemma in_text_occurs ws tokens w : short tokens -> in_text ws tokens -> w ∈ ws -> occurrences tokens w <> [].
Proof.
  intros Hs Hin Hw. apply (in_text_iff ws tokens Hs (proj1 Hin)) in Hin as [start Hall]. apply list_elem_of_lookup in Hw as [i Hi].
  specialize (Hall i w Hi). intros E. rewrite E in Hall. by apply elem_of_nil in Hall.
Qed.

(** *** Texts beside an index *)
Definition texts_op ix texts (op : index_op) : gmap FileId (list str) :=
  match op with
  | OpInsert r | OpColumns _ r _ => delete (record_id r) texts
  | OpApply s => delete (sc_id s) texts
  | OpContent id text => if decide (records ix !! id = None) then texts else <[id := words (normal text)]> texts
  | OpRemoveContent id => delete id texts
  | _ => filter (fun e => is_Some (records (apply_op ix op) !! e.1)) texts
  end.
Definition both_op (s : SearchIndex * gmap FileId (list str)) (op : index_op) : SearchIndex * gmap FileId (list str) :=
  (apply_op s.1 op, texts_op s.1 s.2 op).
Definition run_both (ops : list index_op) : SearchIndex * gmap FileId (list str) := foldl both_op (new_index, ∅) ops.
Definition text_of texts id : list str := default [] (texts !! id).
(** The content comes from texts, of no more words than a position can count. *)
Definition op_texts (op : index_op) : bool :=
  match op with
  | OpContent _ text => (N.of_nat (length (words (normal text))) <=? U32_MAX)%N
  | OpContentTerms _ _ | OpImportContent _ => false
  | _ => true
  end.
Record holds_texts ix texts : Prop := {
  ht_positions term id : position ix term id = text_positions (text_of texts id) term;
  ht_short id : short (text_of texts id)
}.
Lemma text_positions_nil term : text_positions [] term = None.
Proof. done. Qed.
Lemma thinned_texts full ix ix' texts : thinned full ix ix' -> holds_texts ix texts ->
  holds_texts ix' (filter (fun e => is_Some (records ix' !! e.1)) texts).
Proof.
  intros (_ & _ & Hp) [H1 H2].
  assert (Ht : forall id, text_of (filter (fun e => is_Some (records ix' !! e.1)) texts) id = if decide (is_Some (records ix' !! id)) then text_of texts id else []).
  { intros id. unfold text_of. rewrite map_lookup_filter. destruct (texts !! id) as [ws|]; cbn; [|by case_decide].
    unfold guard. by destruct (decide _). }
  split.
  - intros term id. rewrite Hp, Ht. case_decide; [apply H1|done].
  - intros id. rewrite Ht. case_decide; [apply H2|]. unfold short. cbn. done.
Qed.
Lemma dropped_texts ix ix' texts id : (forall term i, position ix' term i = if decide (i = id) then None else position ix term i) ->
  holds_texts ix texts -> holds_texts ix' (delete id texts).
Proof.
  intros Hp [H1 H2].
  assert (Ht : forall i, text_of (delete id texts) i = if decide (i = id) then [] else text_of texts i).
  { intros i. unfold text_of. case_decide as Hi; [subst; by rewrite lookup_delete_eq|by rewrite lookup_delete_ne]. }
  split; [intros term i|intros i]; rewrite Ht; [rewrite Hp|]; by case_decide.
Qed.
Lemma columns_position full policy ix r s term i : index_ok full ix ->
  position (insert_with_columns_inner policy r s ix).2 term i = if decide (i = record_id r) then None else position ix term i.
Proof.
  intros Hok. assert (Hd := displaced_position full ix (record_id r) term i (ok_inner _ _ Hok) (fun t Hr => position_absent full ix _ t Hok Hr)).
  unfold insert_with_columns_inner. destruct (decide (record_id r <> sc_id s)); exact Hd.
Qed.
Lemma foldl_terms {A} (f : SearchIndex -> A -> SearchIndex) l : (forall ix x, exists t, f ix x = with_terms t ix) ->
  forall ix, exists t, foldl f ix l = with_terms t ix.
Proof.
  intros Hf. induction l as [|x l IH]; intros ix; cbn [foldl]; [exists (index_terms ix); by destruct ix|].
  destruct (Hf ix x) as [t ->]. destruct (IH (with_terms t ix)) as [t' ->]. by exists t'.
Qed.
Definition op_imports (op : index_op) : bool :=
  match op with OpImportPrefixes _ | OpImportSubstrings _ | OpImportFuzzy _ | OpImportMetadata _ => true | _ => false end.
Lemma import_terms ix op : op_imports op = true -> exists t, apply_op ix op = with_terms t ix.
Proof.
  assert (Hid : forall ix, exists t, ix = with_terms t ix) by (intros ix'; exists (index_terms ix'); by destruct ix').
  destruct op; try done; intros _; cbn [apply_op]; apply foldl_terms; clear ix; intros ix x;
    unfold import_prefix_posting, import_substring_posting, import_fuzzy_posting, import_metadata_posting; cbv zeta; destruct (_ || _); eauto.
Qed.
Lemma holds_op ix texts op : op_texts op = true -> index_ok false ix -> holds_texts ix texts -> holds_texts (apply_op ix op) (texts_op ix texts op).
Proof.
  intros Hop Hok Ht. assert (Hok' : index_ok false (apply_op ix op)) by by apply apply_op_ok.
  assert (Hsame : records (apply_op ix op) = records ix -> content_terms (apply_op ix op) = content_terms ix -> thinned false ix (apply_op ix op)) by by apply thinned_same.
  destruct (op_imports op) eqn:Hi.
  { destruct (import_terms ix op Hi) as [t E]. assert (Hth : thinned false ix (apply_op ix op)) by (apply Hsame; by rewrite E).
    destruct op; try done; by apply (thinned_texts false ix). }
  destruct op; cbn [texts_op]; try done.
  - apply (dropped_texts ix); [|done]. intros term i. apply (displaced_position false ix (record_id r) term i (ok_inner _ _ Hok)).
    intros t Hr. by apply (position_absent false).
  - apply (dropped_texts ix); [|done]. intros term i. by apply (columns_position false).
  - apply (dropped_texts ix); [|done]. intros term i. by apply (applied_position false).
  - apply (thinned_texts false ix); [by apply thinned_remove|done].
  - apply (thinned_texts false ix); [|done]. cbn [apply_op]. unfold remove_path. destruct (paths ix !! path_key p) as [id|]; [|by apply thinned_same].
    apply (thinned_trans false ix (without_path (path_key p) ix)); [|by apply thinned_remove, without_path_ok]. apply thinned_same; [by apply without_path_ok|done..].
  - apply (thinned_texts false ix); [|done]. by apply (thinned_subtree false _ ([], ix)).
  - apply (thinned_texts false ix); [apply Hsame|done]; cbn [apply_op]; unfold pin; by destruct (decide _).
  - by apply (thinned_texts false ix); [apply Hsame|].
  - cbn [apply_op]. case_decide as Hr; [unfold insert_content; by rewrite decide_True|]. apply not_eq_None_Some in Hr. destruct Ht as [H1 H2].
    assert (Hx : forall i, text_of (<[id := words (normal text)]> texts) i = if decide (i = id) then words (normal text) else text_of texts i).
    { intros i. unfold text_of. case_decide as He; [subst; by rewrite lookup_insert_eq|by rewrite lookup_insert_ne]. }
    split.
    + intros term i. rewrite Hx, (inserted_position false) by done. case_decide; [done|apply H1].
    + intros i. rewrite Hx. case_decide; [by apply N.leb_le|apply H2].
  - apply (dropped_texts ix); [|done]. intros term i. cbn [apply_op]. rewrite (remove_content_eq (records ix)) by apply Hok. apply position_drop.
Qed.
Lemma run_both_fst ops : (run_both ops).1 = foldl apply_op new_index ops.
Proof. unfold run_both. generalize (∅ : gmap FileId (list str)), new_index. induction ops as [|op ops IH]; intros t ix; cbn [foldl]; [done|]. apply (IH (texts_op ix t op) (apply_op ix op)). Qed.
Lemma run_both_holds ops : forallb op_texts ops = true -> holds_texts (run_both ops).1 (run_both ops).2.
Proof.
  unfold run_both. assert (H0 : holds_texts new_index ∅).
  { split; [intros term id|intros id]; unfold text_of; rewrite lookup_empty; [|by unfold short]. unfold position_of. cbn. by rewrite lookup_empty. }
  pose proof (new_ok false) as Hok. revert H0 Hok. generalize (∅ : gmap FileId (list str)), new_index.
  induction ops as [|op ops IH]; intros t ix Ht Hok Hops; cbn [foldl]; [done|]. cbn in Hops. apply andb_true_iff in Hops as [Hop Hops].
  apply IH; [by apply holds_op|by apply apply_op_ok|done].
Qed.
End Texts.

(** ** Answers *)
Section Sorting.
Context {A : Type} `{TotalOrd A} `{EqDecision A}.
Lemma sort_strict (l : list A) : NoDup l -> StronglySorted lt_of (sort l).
Proof.
  intros Hnd. assert (Hs : StronglySorted le_of (sort l)) by exact (sort_by_sorted id l).
  assert (Hn : NoDup (sort l)) by (unfold sort; by rewrite sort_by_perm). induction Hs as [|x k Hs IH Hx]; [constructor|].
  apply NoDup_cons in Hn as [Hni Hn]. constructor; [by apply IH|]. rewrite Forall_forall in Hx |- *. intros y Hy.
  destruct (proj1 (le_lt_or_eq x y) (Hx y Hy)) as [?| ->]; done.
Qed.
Lemma filter_strict (P : A -> Prop) `{forall x, Decision (P x)} l : StronglySorted lt_of l -> StronglySorted lt_of (filter P l).
Proof.
  induction 1 as [|x l Hs IH Hx]; [constructor|]. rewrite filter_cons. case_decide; [|done]. constructor; [done|].
  rewrite Forall_forall in Hx |- *. intros y [_ Hy]%list_elem_of_filter. by apply Hx.
Qed.
End Sorting.
Lemma keys_sorted {V} (m : gmap FileId V) : StronglySorted lt_of (sort (map_to_list m).*1) /\ forall id, id ∈ sort (map_to_list m).*1 <-> is_Some (m !! id).
Proof.
  split; [apply sort_strict, NoDup_fst_map_to_list|]. intros id. rewrite sort_elem, list_elem_of_fmap. split.
  - intros ([i v] & -> & Hin%elem_of_map_to_list). by exists v.
  - intros [v Hv]. exists (id, v). split; [done|]. by apply elem_of_map_to_list.
Qed.

Section Answers.
Context `{Unicode} {St : Type}.
Implicit Types (ix : SearchIndex) (id : FileId) (term : str) (texts : gmap FileId (list str)).

Definition phrase_found ix id (phrase : str) : bool :=
  match tokenize (normalize phrase) with
  | [] => false
  | [term] => content_has ix id term
  | terms =>
      match term_positions ix id terms with
      | None => false
      | Some positions =>
          match min_by_key (fun it => length it.2) (enumerate positions) with
          | None => false
          | Some it => existsb (phrase_at positions it.1) it.2
          end
      end
  end.
Definition proximity_found ix id (proximity : QueryProximity) : bool :=
  match term_positions ix id (proximity_terms proximity) with
  | None => false
  | Some positions =>
      match min_by_key (fun it => length it.2) (enumerate positions) with
      | None => false
      | Some found => existsb (fun anchor => forallb (fun it => Nat.eqb it.1 found.1 || sorted_has_position_within it.2 anchor (distance proximity)) (enumerate positions)) found.2
      end
  end.
Lemma computes_phrase ix id phrase : computes (content_matches_phrase_cancellable (St := St) ix id phrase) (phrase_found ix id phrase).
Proof.
  unfold content_matches_phrase_cancellable, phrase_found. eapply computes_bind; [apply computes_check|]. cbv zeta.
  destruct (tokenize (normalize phrase)) as [|w [|w' ws]]; [apply computes_ret..|]. destruct (term_positions ix id _) as [positions|]; [|apply computes_ret].
  destruct (min_by_key _ _) as [[i ps]|]; [apply computes_strided_any|apply computes_ret].
Qed.
Lemma computes_proximity ix id proximity : computes (content_matches_proximity_cancellable (St := St) ix id proximity) (proximity_found ix id proximity).
Proof.
  unfold content_matches_proximity_cancellable, proximity_found. eapply computes_bind; [apply computes_check|].
  destruct (term_positions ix id _) as [positions|]; [|apply computes_ret].
  destruct (min_by_key _ _) as [[i ps]|]; [apply computes_strided_any|apply computes_ret].
Qed.

Lemma term_positions_eq ix texts id ws : holds_texts ix texts -> term_positions ix id ws = mapM (text_positions (text_of texts id)) ws.
Proof.
  intros [H1 _]. unfold term_positions. apply mapM_ext. intros w. specialize (H1 w id). unfold position_of in H1. rewrite H1.
  unfold text_positions. by destruct (occurrences _ w).
Qed.
Lemma text_positions_some tokens w ps : text_positions tokens w = Some ps <-> ps = occurrences tokens w /\ ps <> [].
Proof. unfold text_positions. destruct (occurrences tokens w); naive_solver. Qed.
Lemma term_positions_some ix texts id ws positions : holds_texts ix texts -> term_positions ix id ws = Some positions <->
  positions = occurrences (text_of texts id) <$> ws /\ Forall (fun w => occurrences (text_of texts id) w <> []) ws.
Proof.
  intros Ht. rewrite (term_positions_eq ix texts) by done. rewrite mapM_Some. revert positions. induction ws as [|w ws IH]; intros positions.
  - split; [intros Hf; inversion Hf; split; [done|constructor]|intros [-> _]; constructor].
  - split.
    + intros Hf. inversion Hf as [|? ps ? rest Hw Hrest]; subst. apply text_positions_some in Hw as [-> Hne]. apply IH in Hrest as [-> Hall]. split; [done|by constructor].
    + intros [-> [Hw Hall]%Forall_cons]. rewrite fmap_cons. constructor; [by apply text_positions_some|by apply IH].
Qed.
Lemma term_positions_none ix texts id ws : holds_texts ix texts -> term_positions ix id ws = None -> exists w, w ∈ ws /\ occurrences (text_of texts id) w = [].
Proof.
  intros Ht. rewrite (term_positions_eq ix texts) by done. rewrite mapM_None, Exists_exists. intros (w & Hw & Hn). exists w. split; [done|].
  unfold text_positions in Hn. by destruct (occurrences _ w).
Qed.
Lemma content_has_iff ix texts id w : holds_texts ix texts -> content_has ix id w = true <-> occurrences (text_of texts id) w <> [].
Proof.
  intros [H1 _]. specialize (H1 w id). unfold position_of in H1. unfold content_has, text_positions in *.
  destruct (content_terms ix !! w) as [ps|]; cbn in H1; [rewrite bool_decide_eq_true, H1|]; destruct (occurrences _ w); split; try done; by intros [? ?].
Qed.
Lemma phrase_found_iff ix texts id phrase : holds_texts ix texts -> short (words (normal phrase)) ->
  phrase_found ix id phrase = true <-> in_text (words (normal phrase)) (text_of texts id).
Proof.
  intros Ht Hs. unfold phrase_found. rewrite tokenize_eq, normalize_eq. set (ws := words (normal phrase)) in *. pose proof (ht_short _ _ Ht id) as Hsh.
  destruct ws as [|w [|w' rest]] eqn:Ews; [split; [done|by intros [? _]]| |].
  - rewrite (content_has_iff ix texts), in_text_iff by done. split.
    + intros Hne. destruct (occurrences _ w) as [|p ps] eqn:Eo; [done|]. exists p. intros [|i] v; [|done]. intros [= <-]. rewrite N.add_0_r, Eo. by left.
    + intros [start Hall] E. specialize (Hall 0 w eq_refl). rewrite E in Hall. by apply elem_of_nil in Hall.
  - rewrite <- Ews in *. assert (Hne : ws <> []) by by rewrite Ews. rewrite in_text_iff by done.
    destruct (term_positions ix id ws) as [positions|] eqn:Ep.
    + apply (term_positions_some ix texts) in Ep as [-> Hall]; [|done].
      assert (Hfit : positions_fit (occurrences (text_of texts id) <$> ws)).
      { apply Forall_fmap, Forall_forall. intros v _. by apply occurrences_fit. }
      destruct (min_by_key_some (fun it : nat * list N => length it.2) (enumerate (occurrences (text_of texts id) <$> ws))) as ([off ps] & E & Hin & _).
      { intros E. apply (f_equal length) in E. unfold enumerate in E. rewrite length_imap, length_fmap in E. by destruct ws. }
      rewrite E. cbn [fst snd]. apply enumerate_elem in Hin. rewrite phrase_any; [|done|by rewrite length_fmap|done].
      apply exist_proper. intros start. split.
      * intros Hx i v Hi. apply (Hx i). by rewrite list_lookup_fmap, Hi.
      * intros Hx i ps' Hi. rewrite list_lookup_fmap in Hi. destruct (ws !! i) as [v|] eqn:Ei; [|done]. injection Hi as <-. by apply Hx.
    + split; [done|]. intros [start Hall]. destruct (term_positions_none ix texts id ws Ht Ep) as (v & [i Hi]%list_elem_of_lookup & Hn).
      specialize (Hall i v Hi). rewrite Hn in Hall. by apply elem_of_nil in Hall.
Qed.
Lemma proximity_found_iff ix texts id proximity : holds_texts ix texts ->
  proximity_found ix id proximity = true <->
  exists i anchor_term, proximity_terms proximity !! i = Some anchor_term /\
    min_by_key (fun it => length it.2) (enumerate (occurrences (text_of texts id) <$> proximity_terms proximity)) = Some (i, occurrences (text_of texts id) anchor_term) /\
    exists anchor, anchor ∈ occurrences (text_of texts id) anchor_term /\
      forall term, term ∈ proximity_terms proximity -> exists p, p ∈ occurrences (text_of texts id) term /\ (anchor - distance proximity <= p <= anchor + distance proximity)%N.
Proof.
  intros Ht. pose proof (ht_short _ _ Ht id) as Hsh. unfold proximity_found. set (ws := proximity_terms proximity). set (occ := occurrences (text_of texts id)).
  assert (Hw : forall (w : str) anchor, sorted_has_position_within (occ w) anchor (distance proximity) = true <->
    exists p, p ∈ occ w /\ (anchor - distance proximity <= p <= anchor + distance proximity)%N).
  { intros w anchor. rewrite sorted_within_spec by by apply occurrences_fit. apply exist_proper. intros p. naive_solver. }
  destruct (term_positions ix id ws) as [positions|] eqn:Ep.
  - apply (term_positions_some ix texts) in Ep as [-> Hall]; [|done]. fold occ in Hall |- *. destruct (decide (ws = [])) as [Hn|Hne].
    { rewrite Hn. cbn. split; [done|]. by intros (i & t & Hi & _). }
    destruct (min_by_key_some (fun it : nat * list N => length it.2) (enumerate (occ <$> ws))) as ([off ps] & E & Hin & _).
    { intros E. apply (f_equal length) in E. unfold enumerate in E. rewrite length_imap, length_fmap in E. by destruct ws. }
    rewrite E. cbn [fst snd]. apply enumerate_elem in Hin. rewrite list_lookup_fmap in Hin. destruct (ws !! off) as [t|] eqn:Eo; [|done]. injection Hin as <-.
    rewrite existsb_exists. split.
    + intros (anchor & Ha%list_elem_of_In & Hf). exists off, t. split_and!; [done..|]. exists anchor. split; [done|]. intros w [i Hi]%list_elem_of_lookup.
      rewrite forallb_forall in Hf. specialize (Hf (i, occ w)). cbn in Hf. rewrite orb_true_iff, Nat.eqb_eq, Hw in Hf.
      destruct Hf as [->|?]; [apply list_elem_of_In, enumerate_elem; by rewrite list_lookup_fmap, Hi| |done].
      rewrite Eo in Hi. injection Hi as ->. exists anchor. split; [done|lia].
    + intros (i & t' & Hi & [= <- _] & anchor & Ha & Hx). exists anchor. rewrite Eo in Hi. injection Hi as <-. split; [by apply list_elem_of_In|].
      apply forallb_forall. intros [k ps] Hin%list_elem_of_In%enumerate_elem. cbn. apply orb_true_iff. right. rewrite list_lookup_fmap in Hin.
      destruct (ws !! k) as [w|] eqn:Ek; [|done]. injection Hin as <-. apply Hw, Hx. by eapply list_elem_of_lookup_2.
  - split; [done|]. intros (_ & _ & _ & _ & anchor & _ & Hall). destruct (term_positions_none ix texts id ws Ht Ep) as (v & Hv & Hn).
    destruct (Hall v Hv) as (p & Hp & _). fold occ in Hn. rewrite Hn in Hp. by apply elem_of_nil in Hp.
Qed.

(** The candidates of a search are the texts with the rarest term. *)
Lemma candidates_spec ix texts ws : holds_texts ix texts ->
  match rarest_content_term_postings ws (content_terms ix) with
  | Some (t, candidates) => t ∈ ws /\ forall id, is_Some (candidates !! id) <-> occurrences (text_of texts id) t <> []
  | None => ws = [] \/ exists w, w ∈ ws /\ forall id, occurrences (text_of texts id) w = []
  end.
Proof.
  intros [H1 _]. pose proof (rarest_of_spec size ws (content_terms ix)) as Hs. unfold rarest_content_term_postings.
  destruct (rarest_of size ws (content_terms ix)) as [[t ids]|].
  - destruct Hs as (Ht & Hp & _). split; [done|]. intros id. specialize (H1 t id). unfold position_of, text_positions in H1. rewrite Hp in H1. cbn in H1. rewrite H1.
    by destruct (occurrences _ t).
  - destruct Hs as [?|(u & Hu & Hn)]; [by left|]. right. exists u. split; [done|]. intros id. specialize (H1 u id). unfold position_of, text_positions in H1.
    rewrite Hn in H1. cbn in H1. by destruct (occurrences _ u).
Qed.
Lemma computes_collected (found : FileId -> bool) (m : FileId -> M St bool) (gate : FileId -> bool) l :
  (forall id, computes (m id) (found id)) ->
  computes (strided (fun ids id => if gate id then (b <- m id ; mret (if b : bool then ids ++ [id] else ids)) else mret ids) 0 [] l)
    (filter (fun id => gate id && found id = true) l).
Proof.
  intros Hm. rewrite <- (list_fmap_id (filter _ l)). change (Datatypes.id <$> filter (fun id => gate id && found id = true) l) with ([] ++ (Datatypes.id <$> filter (fun id => gate id && found id = true) l)).
  rewrite <- (foldl_collect (fun id => gate id && found id) Datatypes.id l []). apply computes_strided. intros ids id. destruct (gate id); [|apply computes_ret].
  eapply computes_bind; [apply Hm|]. cbn. apply computes_ret.
Qed.
End Answers.

(** C12: Phrases are found in the texts. Whatever was inserted, replaced, pinned,
    removed (by id, by path or with a subtree) or given content before, in any order
    (the texts and the phrase of fewer than 2^32 words), a phrase matches the content of
    a record if and only if its words stand one after another in the text that the
    record was last given and has not lost since; and the search for a phrase gives
    exactly those records, in order. *)
Theorem content_phrase_spec `{Unicode} {St} (ops : list index_op) (phrase : str) :
  forallb op_texts ops = true -> short (words (normal phrase)) ->
  let ix := (run_both ops).1 in let texts := (run_both ops).2 in
  (forall id, exists found, computes (S := St) (content_matches_phrase_cancellable ix id phrase) found /\
     (found = true <-> in_text (words (normal phrase)) (text_of texts id))) /\
  exists ids, computes (S := St) (content_phrase_ids_cancellable ix phrase) ids /\ StronglySorted lt_of ids /\
    forall id, id ∈ ids <-> in_text (words (normal phrase)) (text_of texts id).
Proof.
  intros Hops Hs ix texts. pose proof (run_both_holds ops Hops) as Ht. fold ix texts in Ht. split.
  - intros id. exists (phrase_found ix id phrase). split; [apply computes_phrase|by apply phrase_found_iff].
  - unfold content_phrase_ids_cancellable. rewrite tokenize_eq, normalize_eq. set (ws := words (normal phrase)) in *. pose proof (candidates_spec ix texts ws Ht) as Hc.
    unfold rarest_content_postings. destruct (rarest_content_term_postings ws (content_terms ix)) as [[t candidates]|]; cbn [fmap option_fmap option_map snd].
    + destruct Hc as [Hin Hc]. destruct (keys_sorted candidates) as [Hk1 Hk2]. eexists. split; [|split].
      * eapply computes_bind; [apply computes_check|].
        apply (computes_collected (fun id => phrase_found ix id phrase) (fun id => content_matches_phrase_cancellable ix id phrase) (fun _ => true)). intros id. apply computes_phrase.
      * by apply filter_strict.
      * intros id. rewrite list_elem_of_filter, Hk2, Hc. cbn [andb]. rewrite (phrase_found_iff ix texts) by done. split; [tauto|]. intros Hx. split; [done|].
        by apply (in_text_occurs ws); [apply Ht| |].
    + exists []. split; [eapply computes_bind; [apply computes_check|apply computes_ret]|]. split; [constructor|]. intros id. split; [by intros ?%elem_of_nil|].
      intros Hx. destruct Hc as [?|(w & Hw & Hn)]; [by destruct Hx|]. by destruct (in_text_occurs ws (text_of texts id) w (ht_short _ _ Ht id) Hx Hw).
Qed.

(** C18: Terms are near each other.  After any such sequence, a proximity matches a record if
    and only if its text has a position of the term that is rarest in it (the first of those)
    with every other term no further away than the distance; the search gives exactly
    those records, in order, and none when there are no terms. *)
Theorem content_proximity_spec `{Unicode} {St} (ops : list index_op) (proximity : QueryProximity) :
  forallb op_texts ops = true ->
  let ix := (run_both ops).1 in let texts := (run_both ops).2 in let terms := proximity_terms proximity in
  let near id := exists i anchor_term, terms !! i = Some anchor_term /\
    min_by_key (fun it => length it.2) (enumerate (occurrences (text_of texts id) <$> terms)) = Some (i, occurrences (text_of texts id) anchor_term) /\
    exists anchor, anchor ∈ occurrences (text_of texts id) anchor_term /\
      forall term, term ∈ terms -> exists p, p ∈ occurrences (text_of texts id) term /\ (anchor - distance proximity <= p <= anchor + distance proximity)%N in
  (forall id, exists found, computes (S := St) (content_matches_proximity_cancellable ix id proximity) found /\ (found = true <-> near id)) /\
  exists ids, computes (S := St) (content_proximity_ids_cancellable ix proximity) ids /\ StronglySorted lt_of ids /\ forall id, id ∈ ids <-> near id.
Proof.
  intros Hops ix texts terms near. pose proof (run_both_holds ops Hops) as Ht. fold ix texts in Ht.
  assert (Hf : forall id, proximity_found ix id proximity = true <-> near id) by (intros id; by apply proximity_found_iff). split.
  - intros id. exists (proximity_found ix id proximity). split; [apply computes_proximity|done].
  - unfold content_proximity_ids_cancellable. pose proof (candidates_spec ix texts terms Ht) as Hc. fold terms.
    assert (Hoc : forall id w, near id -> w ∈ terms -> occurrences (text_of texts id) w <> []).
    { intros id w (_ & _ & _ & _ & a & _ & Hall) Hw E. destruct (Hall w Hw) as (p & Hp & _). rewrite E in Hp. by apply elem_of_nil in Hp. }
    destruct (rarest_content_term_postings terms (content_terms ix)) as [[t candidates]|].
    + destruct Hc as [Hin Hc]. destruct (keys_sorted candidates) as [Hk1 Hk2]. eexists. split; [|split].
      * eapply computes_bind; [apply computes_check|].
        apply (computes_collected (fun id => proximity_found ix id proximity) (fun id => content_matches_proximity_cancellable ix id proximity)
          (fun id => forallb (fun term => bool_decide (term = t) || content_has ix id term) terms)). intros id. apply computes_proximity.
      * by apply filter_strict.
      * intros id. rewrite list_elem_of_filter, Hk2, Hc, andb_true_iff, Hf. split; [tauto|]. intros Hx. split_and!; [|done|by apply Hoc].
        apply forallb_forall. intros w Hw%list_elem_of_In. apply orb_true_iff. right. apply (content_has_iff ix texts); [done|by apply Hoc].
    + exists []. split; [eapply computes_bind; [apply computes_check|apply computes_ret]|]. split; [constructor|]. intros id. split; [by intros ?%elem_of_nil|].
      intros Hx. destruct Hc as [Hn|(w & Hw & Hn)]; [|by destruct (Hoc id w Hx Hw)]. destruct Hx as (i & a & Hi & _). by rewrite Hn in Hi.
Qed.
