(* ===== verification/SearchMatch.v ===== *)
(** * Matching, candidates and ranks

    What of a query a record matches ([matchers.rs], [intent.rs]), the sets of records
    that may match ([candidates.rs]) and what a match is worth ([ranking.rs],
    [scoring.rs]), of [crates/search]. *)
From Stdlib Require Import Ascii.
From S2P Require Import Prelude Types Order Chars Records Control Fuzzy Query SearchIndex SearchIndexSpec ContentSearch.
#[local] Open Scope list_scope.

(** ** Ranks ([ranking.rs]) *)
Definition EXACT_NAME : Z := 1000.
Definition PREFIX_NAME : Z := 700.
Definition SUBSTRING_NAME : Z := 300.
Definition NAME_TOKEN : Z := 500.
Definition EXTENSION : Z := 350.
Definition TAG : Z := 325.
Definition PATH_COMPONENT : Z := 250.
Definition CONTENT : Z := 150.
Definition FUZZY_NAME : Z := 100.
Definition PHRASE : Z := 450.
Definition PROXIMITY : Z := 375.
Definition USER_PINNED : Z := 650.
Definition KIND_MATCH : Z := 90.
Definition NAME_FREQUENCY : Z := 12.
Definition PATH_FREQUENCY : Z := 6.
Definition CONTENT_FREQUENCY : Z := 8.

Record RankAccumulator : Type := mkRank { rank_score : Z; rank_reason : MatchReason; reason_weight : Z }.
Definition new_rank (score : Z) (reason : MatchReason) : RankAccumulator := mkRank score reason score.
Definition add_rank (score : Z) (reason : MatchReason) (rank : RankAccumulator) : RankAccumulator :=
  if (reason_weight rank <? score)%Z then mkRank (rank_score rank + score) reason score
  else mkRank (rank_score rank + score) (rank_reason rank) (reason_weight rank).
Definition boost (score : Z) (rank : RankAccumulator) : RankAccumulator :=
  mkRank (rank_score rank + score) (rank_reason rank) (reason_weight rank).
Definition finish (rank : RankAccumulator) : Z * MatchReason := (rank_score rank, rank_reason rank).

Definition capped_frequency (count : nat) (points : Z) : Z := (Z.of_nat (Nat.min count 8) * points)%Z.
Definition kind_score (kind : FileKind) : Z :=
  match kind with Directory | File => KIND_MATCH | Symlink => KIND_MATCH - 15 | OtherKind => KIND_MATCH - 30 end%Z.
(** [str::match_indices(needle).count()]. *)
Fixpoint count_matches (fuel : nat) (haystack needle : str) : nat :=
  match fuel with
  | O => 0
  | S fuel' =>
      match strip_prefix needle haystack with
      | Some rest => S (count_matches fuel' rest needle)
      | None => match haystack with [] => 0 | _ :: rest => count_matches fuel' rest needle end
      end
  end.
Definition count_term (haystack needle : str) : nat :=
  if decide (needle = []) then 0 else count_matches (S (length haystack)) haystack needle.
Definition filter_kind_matches (filter : QueryFilter) (kind : FileKind) : bool :=
  match filter with FKind query_kind false => matches_kind query_kind kind | _ => false end.

(** [SystemTime::elapsed] at [now], in nanoseconds. *)
Definition elapsed (now time : SystemTime) : option N := if (time <=? now)%Z then Some (Z.to_N (now - time)) else None.
Definition as_secs (duration : N) : N := (duration / 1000000000)%N.
Definition recency_score (now : SystemTime) (r : FileRecord) : Z :=
  match time ← record_modified r ; elapsed now time with
  | Some age => (100 - Z.of_N (as_secs age / 86400 `min` 100)%N)%Z
  | None => 0
  end.

(** ** What a search can be after ([intent.rs]) *)
Definition APPLICATION_SCORE : Z := 360.
Definition REQUESTED_LOCATION_SCORE : Z := 260.
Definition SCREENSHOT_SCORE : Z := 320.
Definition PROJECT_SCORE : Z := 300.
Definition RECENT_SCORE : Z := 900.

Section Intent.
Context `{Unicode}.
Definition texts_of (l : list string) : list str := lit <$> l.
Record QueryIntent : Type := mkIntent {
  intent_application : bool; intent_downloads : bool; intent_desktop : bool;
  intent_screenshot : bool; intent_project : bool; intent_recent : bool
}.
Definition has_any (terms phrases needles : list str) : bool :=
  existsb (fun needle => bool_decide (needle ∈ terms) || existsb (fun phrase => str_contains phrase needle) phrases) needles.
Definition has_screenshot_intent (terms phrases : list str) : bool :=
  has_any terms phrases (texts_of ["screenshot"; "screenshots"; "capture"]) ||
  (bool_decide (lit "screen" ∈ terms) && bool_decide (lit "shot" ∈ terms)) ||
  existsb (fun phrase => str_contains phrase (lit "screen shot")) phrases.
Definition application_words : list string := ["app"; "apps"; "application"; "applications"].
Definition project_words : list string := ["project"; "projects"; "repo"; "repository"; "workspace"; "code"].
Definition recent_words : list string := ["recent"; "recents"; "recently"; "today"; "latest"; "new"].
Definition from_query (query : SearchQuery) : QueryIntent :=
  let terms := terms query in
  let phrases := phrases query in
  if bool_decide (terms = []) && bool_decide (phrases = []) then mkIntent false false false false false false
  else
    mkIntent (has_any terms phrases (texts_of application_words)) (has_any terms phrases (texts_of ["download"; "downloads"]))
      (has_any terms phrases (texts_of ["desktop"])) (has_screenshot_intent terms phrases)
      (has_any terms phrases (texts_of project_words)) (has_any terms phrases (texts_of recent_words)).
Definition intent_is_empty (i : QueryIntent) : bool :=
  negb (intent_application i) && negb (intent_downloads i) && negb (intent_desktop i) &&
  negb (intent_screenshot i) && negb (intent_project i) && negb (intent_recent i).

Definition has_component (path : str) (components : list str) : bool :=
  existsb (fun token => bool_decide (token ∈ components)) (concat ((fun c => tokenize (normalize c)) <$> component_strs path)).
Definition is_application (r : FileRecord) : bool :=
  match extension r with Some e => eq_ignore_ascii_case e (lit "app") | None => false end ||
  has_component (record_path r) [lit "applications"].
Definition is_screenshot (r : FileRecord) : bool :=
  let name := normalize (record_name r) in
  str_contains name (lit "screenshot") || str_contains name (lit "screen shot") ||
  (str_contains name (lit "screen") && str_contains name (lit "capture")).
Definition is_generic_folder_name (name : str) : bool :=
  bool_decide (normalize name ∈ texts_of ["desktop"; "documents"; "downloads"; "applications"; "library"; "users"; "home"; "work"; "projects"; "repos"; "code"; "src"]).
Definition is_project_folder (r : FileRecord) : bool :=
  bool_decide (record_kind r = Directory) && negb (is_generic_folder_name (record_name r)) &&
  has_component (record_path r) (texts_of ["developer"; "development"; "dev"; "code"; "projects"; "repos"; "workspace"; "work"]).
Definition recent_score (now : SystemTime) (r : FileRecord) : Z :=
  match record_modified r with
  | None => 0
  | Some modified =>
      match elapsed now modified with
      | None => RECENT_SCORE
      | Some age =>
          let day := 86400000000000%N in
          if (age <=? day)%N then RECENT_SCORE else if (age <=? 7 * day)%N then 220 else if (age <=? 30 * day)%N then 150 else 0
      end
  end%Z.
Definition intent_score (now : SystemTime) (i : QueryIntent) (r : FileRecord) : Z :=
  let desktop := has_component (record_path r) [lit "desktop"] in
  ((if intent_application i && is_application r then APPLICATION_SCORE else 0) +
   (if intent_downloads i && has_component (record_path r) [lit "downloads"] then REQUESTED_LOCATION_SCORE else 0) +
   (if intent_desktop i && desktop then REQUESTED_LOCATION_SCORE else 0) +
   (if intent_screenshot i && is_screenshot r then SCREENSHOT_SCORE + (if desktop then 40 else 0) else 0) +
   (if intent_project i && is_project_folder r then PROJECT_SCORE else 0) +
   (if intent_recent i then recent_score now r else 0))%Z.
Definition term_matches_intent (now : SystemTime) (term : str) (r : FileRecord) : bool :=
  let one_of l := bool_decide (term ∈ texts_of l) in
  if one_of application_words then is_application r
  else if one_of ["download"; "downloads"] then has_component (record_path r) [lit "downloads"]
  else if one_of ["desktop"] then has_component (record_path r) [lit "desktop"]
  else if one_of ["screenshot"; "screenshots"; "capture"] then is_screenshot r
  else if one_of project_words then is_project_folder r
  else if one_of recent_words then (0 <? recent_score now r)%Z
  else false.
End Intent.

(** ** Passes ([pass.rs]) *)
Inductive SearchPass : Type := Hot | Full.
Definition includes_deep (pass : SearchPass) : bool := match pass with Full => true | Hot => false end.

(** ** Matching ([matchers.rs]) *)
Section Matching.
Context `{Unicode} {St : Type} (now : SystemTime).
Implicit Types (ix : SearchIndex) (r : FileRecord) (id : FileId).

Definition record_contains_term ix r (term : str) : bool :=
  match columns ix !! record_id r with Some c => contains_term c term | None => false end.
Definition index_filter_matches ix r (filter : QueryFilter) : bool :=
  match columns ix !! record_id r with Some c => filter_matches_columns filter r c | None => false end.
Definition record_fuzzy_matches_term ix r (term : str) : bool :=
  match columns ix !! record_id r with
  | Some c => existsb (fun candidate => bool_decide (is_Some (bounded_levenshtein candidate term 2))) (fuzzy_terms c)
  | None => false
  end.

(** [a || b?], [a && b?]. *)
Definition or_else (a : bool) (b : M St bool) : M St bool := if a then mret true else b.
Definition and_then (a : bool) (b : M St bool) : M St bool := if a then b else mret false.

Fixpoint record_matches_expression_cancellable ix r (pass : SearchPass) (expression : QueryExpr) : M St bool :=
  check_control ;;
  match expression with
  | ETerm term =>
      mret (record_contains_term ix r term || (includes_deep pass && content_has ix (record_id r) term) ||
            (includes_deep pass && record_fuzzy_matches_term ix r term) || term_matches_intent now term r)
  | EPhrase phrase =>
      or_else (record_matches_phrase ix r phrase) (and_then (includes_deep pass) (content_matches_phrase_cancellable ix (record_id r) phrase))
  | EProximity proximity => and_then (includes_deep pass) (content_matches_proximity_cancellable ix (record_id r) proximity)
  | EFilter filter => mret (index_filter_matches ix r filter)
  | ENot expression => matched <- record_matches_expression_cancellable ix r pass expression ; mret (negb matched)
  | EAnd expressions =>
      (fix all (expressions : list QueryExpr) : M St bool :=
         match expressions with
         | [] => mret true
         | e :: expressions' => matched <- record_matches_expression_cancellable ix r pass e ; if matched : bool then all expressions' else mret false
         end) expressions
  | EOr expressions =>
      (fix any (expressions : list QueryExpr) : M St bool :=
         match expressions with
         | [] => mret false
         | e :: expressions' => matched <- record_matches_expression_cancellable ix r pass e ; if matched : bool then mret true else any expressions'
         end) expressions
  end.

(** A loop over [l], polling before each element, that ends with [false] at the first that fails. *)
Fixpoint polled_all {A} (test : A -> M St bool) (l : list A) : M St bool :=
  match l with [] => mret true | x :: l' => check_control ;; (passed <- test x ; if passed : bool then polled_all test l' else mret false) end.
Definition record_matches_query_cancellable ix r (query : SearchQuery) (pass : SearchPass) : M St bool :=
  check_control ;;
  match expression query with
  | Some expression => record_matches_expression_cancellable ix r pass expression
  | None =>
      allowed <- polled_all (fun term => mret (negb (record_contains_term ix r term || (includes_deep pass && content_has ix (record_id r) term)))) (excluded_terms query) ;
      if negb allowed then mret false else
      phrased <- polled_all (fun phrase => or_else (record_matches_phrase ix r phrase) (and_then (includes_deep pass) (content_matches_phrase_cancellable ix (record_id r) phrase))) (phrases query) ;
      if negb phrased then mret false else
      near <- (if includes_deep pass then polled_all (fun proximity => content_matches_proximity_cancellable ix (record_id r) proximity) (proximities query) else mret true) ;
      if negb near then mret false else
      if negb (includes_deep pass) && negb (bool_decide (proximities query = [])) then mret false else
      polled_all (fun filter => mret (index_filter_matches ix r filter)) (filters query)
  end.

(** What these say of a record. *)
Definition phrase_matches ix r (pass : SearchPass) (phrase : str) : bool :=
  record_matches_phrase ix r phrase || (includes_deep pass && phrase_found ix (record_id r) phrase).
Definition proximity_matches ix r (pass : SearchPass) (proximity : QueryProximity) : bool :=
  includes_deep pass && proximity_found ix (record_id r) proximity.
Fixpoint expression_matches ix r (pass : SearchPass) (expression : QueryExpr) : bool :=
  match expression with
  | ETerm term =>
      record_contains_term ix r term || (includes_deep pass && content_has ix (record_id r) term) ||
      (includes_deep pass && record_fuzzy_matches_term ix r term) || term_matches_intent now term r
  | EPhrase phrase => phrase_matches ix r pass phrase
  | EProximity proximity => proximity_matches ix r pass proximity
  | EFilter filter => index_filter_matches ix r filter
  | ENot expression => negb (expression_matches ix r pass expression)
  | EAnd expressions => forallb (expression_matches ix r pass) expressions
  | EOr expressions => existsb (expression_matches ix r pass) expressions
  end.
Definition query_matches ix r (query : SearchQuery) (pass : SearchPass) : bool :=
  match expression query with
  | Some expression => expression_matches ix r pass expression
  | None =>
      forallb (fun term => negb (record_contains_term ix r term || (includes_deep pass && content_has ix (record_id r) term))) (excluded_terms query) &&
      forallb (phrase_matches ix r pass) (phrases query) &&
      forallb (proximity_matches ix r pass) (proximities query) &&
      forallb (index_filter_matches ix r) (filters query)
  end.
End Matching.

(** ** Candidates ([candidates.rs]) *)
Section Candidates.
Context `{Unicode} {St : Type}.
Implicit Types (ix : SearchIndex) (id : FileId) (pass : SearchPass).

Definition extend_ids (ids : list FileId) (collected : gset FileId) : M St (gset FileId) :=
  strided (fun collected id => mret ({[id]} ∪ collected)) 0 collected ids.
Definition collect_ids_cancellable (ids : list FileId) : M St (gset FileId) := extend_ids ids ∅.

(** [ids.retain(..)]: a poll that fails is kept, and the walk goes on. *)
Fixpoint retain_loop (candidates : gset FileId) (index : nat) (error : option GfmError) (kept : gset FileId) (ids : list FileId)
    : M St (option GfmError * gset FileId) :=
  match ids with
  | [] => mret (error, kept)
  | id :: ids' =>
      outcome <- (if Nat.eqb (index mod QUERY_CHECK_STRIDE) 0 then poll else mret (Ok tt)) ;
      match outcome with
      | Err e => retain_loop candidates index (Some e) kept ids'
      | Ok tt => retain_loop candidates (S index) error (if decide (id ∈ candidates) then {[id]} ∪ kept else kept) ids'
      end
  end.
Definition retain_cancellable (ids candidates : gset FileId) : M St (gset FileId) :=
  r <- retain_loop candidates 0 None ∅ (in_order ids) ;
  match r.1 with Some e => mfail e | None => mret r.2 end.
Fixpoint intersect_loop (index : nat) (ids : gset FileId) (sets : list (gset FileId)) : M St (gset FileId) :=
  match sets with
  | [] => mret ids
  | candidates :: sets' =>
      stride_check index ;;
      (ids <- retain_cancellable ids candidates ;
       if decide (ids = ∅) then mret ids else intersect_loop (S index) ids sets')
  end.
Definition intersect_candidate_sets_cancellable (candidate_sets : list (gset FileId)) : M St (option (gset FileId)) :=
  check_control ;;
  match sort_by (fun ids => N.of_nat (size ids)) candidate_sets with
  | [] => mret None
  | ids :: sets => ids <- intersect_loop 0 ids sets ; mret (Some ids)
  end.

Definition phrase_candidate_ids ix pass (phrase : str) : M St (gset FileId) :=
  record_ids <- record_phrase_ids_cancellable ix phrase ;
  ids <- extend_ids record_ids ∅ ;
  if includes_deep pass then
    content_ids <- content_phrase_ids_cancellable ix phrase ; extend_ids content_ids ids
  else mret ids.
Definition proximity_candidate_ids ix pass (proximity : QueryProximity) : M St (option (gset FileId)) :=
  if includes_deep pass then
    found <- content_proximity_ids_cancellable ix proximity ; ids <- collect_ids_cancellable found ; mret (Some ids)
  else mret None.

Definition text_filter_candidate_ids_cancellable ix (value : str) (postings : gmap str (gset FileId)) (matches : RecordColumns -> str -> bool)
    : M St (option (gset FileId)) :=
  check_control ;;
  match rarest_term_postings (tokenize value) postings with
  | None => mret None
  | Some candidates =>
      ids <- strided (fun ids id => mret (match columns ix !! id with
                                          | Some c => if matches c value then {[id]} ∪ ids else ids
                                          | None => ids end)) 0 ∅ (in_order candidates) ;
      mret (Some ids)
  end.
Definition query_kind_file_kind (kind : QueryKind) : FileKind :=
  match kind with KindDirectory => Directory | KindFile => File | KindSymlink => Symlink | KindOther => OtherKind end.
Definition filter_candidate_ids_cancellable ix (filter : QueryFilter) : M St (option (gset FileId)) :=
  check_control ;;
  let t := index_terms ix in
  match filter with
  | FName value false => text_filter_candidate_ids_cancellable ix value (name_terms t) matches_name_phrase
  | FPath value false => text_filter_candidate_ids_cancellable ix value (path_terms t) matches_path_phrase
  | FExtension value false => mret (Some (default ∅ (extensions t !! value)))
  | FTag value false => mret (Some (default ∅ (tags t !! value)))
  | FKind kind false => mret (Some (default ∅ (kinds t !! query_kind_file_kind kind)))
  | _ => mret None
  end.
Definition term_candidate_ids_cancellable ix (term : str) pass : M St (gset FileId) :=
  check_control ;;
  let t := index_terms ix in
  ids <- mfor (fun ids postings => extend_ids (in_order postings) ids) ∅
           (omap (fun postings => postings) [name_terms t !! term; path_terms t !! term; metadata_terms t !! term; extensions t !! term; tags t !! term]) ;
  if includes_deep pass then
    match content_terms ix !! term with Some postings => extend_ids (sort (map_to_list postings).*1) ids | None => mret ids end
  else mret ids.

Fixpoint exact_expression_candidate_ids_cancellable ix pass (expression : QueryExpr) : M St (option (gset FileId)) :=
  check_control ;;
  match expression with
  | EPhrase phrase => ids <- phrase_candidate_ids ix pass phrase ; mret (Some ids)
  | EProximity proximity => proximity_candidate_ids ix pass proximity
  | EFilter filter => filter_candidate_ids_cancellable ix filter
  | EAnd expressions =>
      sets <- (fix collect (sets : list (gset FileId)) (expressions : list QueryExpr) : M St (option (list (gset FileId))) :=
                 match expressions with
                 | [] => mret (Some sets)
                 | e :: expressions' =>
                     check_control ;;
                     (candidates <- exact_expression_candidate_ids_cancellable ix pass e ;
                      match candidates with Some ids => collect (sets ++ [ids]) expressions' | None => mret None end)
                 end) [] expressions ;
      match sets with
      | None => mret None
      | Some sets => ids <- intersect_candidate_sets_cancellable sets ; mret (Some (default ∅ ids))
      end
  | EOr expressions =>
      if decide (expressions = []) then mret (Some ∅)
      else
        (fix collect (ids : gset FileId) (expressions : list QueryExpr) : M St (option (gset FileId)) :=
           match expressions with
           | [] => mret (Some ids)
           | e :: expressions' =>
               candidates <- exact_expression_candidate_ids_cancellable ix pass e ;
               match candidates with Some found => ids <- extend_ids (in_order found) ids ; collect ids expressions' | None => mret None end
           end) ∅ expressions
  | ETerm _ | ENot _ => mret None
  end.
Fixpoint expression_candidate_ids_cancellable ix pass (expression : QueryExpr) : M St (option (gset FileId)) :=
  check_control ;;
  match expression with
  | ETerm term => ids <- term_candidate_ids_cancellable ix term pass ; mret (Some ids)
  | EPhrase phrase => ids <- phrase_candidate_ids ix pass phrase ; mret (Some ids)
  | EProximity proximity => proximity_candidate_ids ix pass proximity
  | EFilter filter => filter_candidate_ids_cancellable ix filter
  | ENot _ => mret None
  | EAnd expressions =>
      exact <- mfor (fun sets e => candidates <- exact_expression_candidate_ids_cancellable ix pass e ; mret (sets ++ option_list candidates)) [] expressions ;
      intersection <- intersect_candidate_sets_cancellable exact ;
      match intersection with
      | Some ids => mret (Some ids)
      | None =>
          (fix smallest (least : option (gset FileId)) (expressions : list QueryExpr) : M St (option (gset FileId)) :=
             match expressions with
             | [] => mret least
             | e :: expressions' =>
                 check_control ;;
                 (candidates <- expression_candidate_ids_cancellable ix pass e ;
                  smallest (match candidates, least with
                            | Some ids, Some current => if size ids <? size current then Some ids else least
                            | Some ids, None => Some ids
                            | None, _ => least
                            end) expressions')
             end) None expressions
      end
  | EOr expressions =>
      if decide (expressions = []) then mret (Some ∅)
      else
        (fix collect (ids : gset FileId) (expressions : list QueryExpr) : M St (option (gset FileId)) :=
           match expressions with
           | [] => mret (Some ids)
           | e :: expressions' =>
               candidates <- expression_candidate_ids_cancellable ix pass e ;
               match candidates with Some found => ids <- extend_ids (in_order found) ids ; collect ids expressions' | None => mret None end
           end) ∅ expressions
  end.

Fixpoint expression_has_positive_anchor (expression : QueryExpr) : bool :=
  match expression with
  | ETerm _ | EPhrase _ | EProximity _ => true
  | EFilter _ | ENot _ => false
  | EAnd expressions => existsb expression_has_positive_anchor expressions
  | EOr expressions => negb (bool_decide (expressions = [])) && forallb expression_has_positive_anchor expressions
  end.
Fixpoint expression_needs_universe (expression : QueryExpr) : bool :=
  match expression with
  | EFilter _ | ENot _ => true
  | EAnd expressions => negb (existsb expression_has_positive_anchor expressions) || forallb expression_needs_universe expressions
  | EOr expressions => existsb expression_needs_universe expressions
  | ETerm _ | EPhrase _ | EProximity _ => false
  end.
End Candidates.

(** ** Scores ([scoring.rs]) *)
Section Scoring.
Context `{Unicode} {St : Type} (now : SystemTime).
Implicit Types (ix : SearchIndex) (id : FileId) (scores : gmap FileId RankAccumulator).

(** [scores.entry(id).and_modify(..).or_insert_with(..)]. *)
Definition score_entry (points : Z) (reason : MatchReason) id scores : gmap FileId RankAccumulator :=
  <[id := match scores !! id with Some score => add_rank points reason score | None => new_rank points reason end]> scores.
Definition seed_entry id scores : gmap FileId RankAccumulator :=
  match scores !! id with Some _ => scores | None => <[id := new_rank 0 PathComponent]> scores end.
Definition add_scores_cancellable (points : Z) (reason : MatchReason) (ids : list FileId) scores : M St (gmap FileId RankAccumulator) :=
  check_control ;; strided (fun scores id => mret (score_entry points reason id scores)) 0 scores ids.
Definition seed_scores_cancellable (ids : list FileId) scores : M St (gmap FileId RankAccumulator) :=
  check_control ;; strided (fun scores id => mret (seed_entry id scores)) 0 scores ids.
(** [if let Some(ids) = postings.get(key) { add_scores(..)? }]. *)
Definition add_posting_scores (points : Z) (reason : MatchReason) (ids : option (gset FileId)) scores : M St (gmap FileId RankAccumulator) :=
  match ids with Some ids => add_scores_cancellable points reason (in_order ids) scores | None => mret scores end.
Definition add_content_scores ix (term : str) scores : M St (gmap FileId RankAccumulator) :=
  check_control ;;
  match content_terms ix !! term with
  | None => mret scores
  | Some positions => strided (fun scores id => mret (score_entry CONTENT Content id scores)) 0 scores (sort (map_to_list positions).*1)
  end.

Definition posted (ids : option (gset FileId)) id : bool := match ids with Some ids => bool_decide (id ∈ ids) | None => false end.
Definition add_if (b : bool) (points : Z) (reason : MatchReason) (rank : RankAccumulator) : RankAccumulator :=
  if b then add_rank points reason rank else rank.
Definition score_plain_term ix (r : FileRecord) (pass : SearchPass) (fuzzy_ids : gset FileId) (score : RankAccumulator) (term : str) : RankAccumulator :=
  let t := index_terms ix in
  let id := record_id r in
  let score := add_if (posted (name_terms t !! term) id) NAME_TOKEN SubstringName score in
  let score := add_if (posted (path_terms t !! term) id) PATH_COMPONENT PathComponent score in
  let score := add_if (posted (metadata_terms t !! term) id) TAG TagMatch score in
  let score := add_if (posted (extensions t !! term) id) EXTENSION ExtensionMatch score in
  let score := add_if (posted (tags t !! term) id) TAG TagMatch score in
  let score := add_if (includes_deep pass && content_has ix id term) CONTENT Content score in
  add_if (includes_deep pass && bool_decide (id ∈ fuzzy_ids) && negb (record_contains_term ix r term) && record_fuzzy_matches_term ix r term)
    FUZZY_NAME FuzzyName score.
Definition score_plain_multi_term_record ix (r : FileRecord) (query : SearchQuery) (text : str) (full_text_prefix_ids : gset FileId)
    (fuzzy_by_term : list (gset FileId)) (pass : SearchPass) : RankAccumulator :=
  let score := new_rank 0 PathComponent in
  let score := add_if (posted (name_exact (index_terms ix) !! text) (record_id r)) EXACT_NAME ExactName score in
  let score := add_if (bool_decide (record_id r ∈ full_text_prefix_ids)) PREFIX_NAME PrefixName score in
  foldl (fun score it => score_plain_term ix r pass (default ∅ (fuzzy_by_term !! it.1)) score it.2) score (enumerate (terms query)).
Definition composite_boosts ix (r : FileRecord) (query : SearchQuery) (pass : SearchPass) : Z :=
  let recency := recency_score now r in
  match columns ix !! record_id r with
  | None => recency
  | Some c =>
      let pinned := if decide (record_id r ∈ pinned ix) then USER_PINNED else 0%Z in
      let filtered := foldr Z.add 0%Z ((fun filter => if filter_kind_matches filter (record_kind r) then kind_score (record_kind r)
                                          else if filter_matches_columns filter r c then (KIND_MATCH / 3)%Z else 0%Z) <$> filters query) in
      let frequent := foldr Z.add 0%Z ((fun term => (capped_frequency (count_term (col_name c) term) NAME_FREQUENCY +
                                          capped_frequency (count_term (col_path c) term) PATH_FREQUENCY +
                                          (if includes_deep pass then capped_frequency (content_frequency ix (record_id r) term) CONTENT_FREQUENCY else 0))%Z) <$> terms query) in
      (recency + pinned + filtered + frequent)%Z
  end.
End Scoring.
