(* ===== verification/SearchMatchSpec.v ===== *)
(** * Matching and candidates: what they compute

    What the loops of [SearchMatch] return, as functions; and the expressions whose
    candidates hold every record that matches. *)
From S2P Require Import Prelude Types Order Chars Records Control Fuzzy Query QueryKey SearchIndex SearchIndexSpec ContentSearch SearchMatch.
#[local] Open Scope list_scope.

(** ** What they compute *)
Section Settles.
Context {St A B : Type}.
Lemma settles_strided (body : B -> A -> M St B) (step : B -> A -> B) l : (forall b x, settles (body b x) (step b x)) ->
  forall index acc, settles (strided body index acc l) (foldl step acc l).
Proof.
  intros Hb. induction l as [|x l IH]; intros index acc; cbn; [apply settles_ret|].
  eapply settles_bind; [apply computes_settles, computes_stride|]. eapply settles_bind; [apply Hb|apply IH].
Qed.
Lemma ensures_strided (body : B -> A -> M St B) (I : B -> Prop) l : (forall b x, I b -> ensures (body b x) I) ->
  forall index acc, I acc -> ensures (strided body index acc l) I.
Proof.
  intros Hb. induction l as [|x l IH]; intros index acc HI; cbn; [by apply ensures_ret|].
  eapply ensures_bind; [apply ensures_true|]. intros _ _. eapply ensures_bind; [by apply Hb|]. intros b HI'. by apply IH.
Qed.
End Settles.

Section MatchSpec.
Context `{Unicode} {St : Type} (now : SystemTime).
Implicit Types (ix : SearchIndex) (r : FileRecord) (id : FileId).
Lemma computes_or (a b : bool) (m : M St bool) : computes m b -> computes (or_else a m) (a || b).
Proof. intros Hm. destruct a; [apply computes_ret|done]. Qed.
Lemma computes_and (a b : bool) (m : M St bool) : computes m b -> computes (and_then a m) (a && b).
Proof. intros Hm. destruct a; [done|apply computes_ret]. Qed.
Lemma computes_phrase_matches ix r pass phrase :
  computes (S := St) (or_else (record_matches_phrase ix r phrase) (and_then (includes_deep pass) (content_matches_phrase_cancellable ix (record_id r) phrase)))
    (phrase_matches ix r pass phrase).
Proof. apply computes_or, computes_and, computes_phrase. Qed.
Lemma computes_expression ix r pass e : computes (S := St) (record_matches_expression_cancellable now ix r pass e) (expression_matches now ix r pass e).
Proof.
  induction e as [v|v|p|f|e IH|es IH|es IH] using expr_ind; cbn [record_matches_expression_cancellable expression_matches];
    (eapply computes_bind; [apply computes_check|]).
  - apply computes_ret.
  - apply computes_phrase_matches.
  - apply computes_and, computes_proximity.
  - apply computes_ret.
  - eapply computes_bind; [apply IH|apply computes_ret].
  - induction IH as [|e es He _ IH]; cbn; [apply computes_ret|]. eapply computes_bind; [apply He|]. destruct (expression_matches now ix r pass e); [apply IH|apply computes_ret].
  - induction IH as [|e es He _ IH]; cbn; [apply computes_ret|]. eapply computes_bind; [apply He|]. destruct (expression_matches now ix r pass e); [apply computes_ret|apply IH].
Qed.
Lemma computes_polled_all {A} (test : A -> M St bool) (b : A -> bool) l : (forall x, computes (test x) (b x)) -> computes (polled_all test l) (forallb b l).
Proof.
  intros Ht. induction l as [|x l IH]; cbn; [apply computes_ret|]. eapply computes_bind; [apply computes_check|]. eapply computes_bind; [apply Ht|].
  destruct (b x); [apply IH|apply computes_ret].
Qed.
Lemma computes_query ix r query pass : computes (S := St) (record_matches_query_cancellable now ix r query pass) (query_matches now ix r query pass).
Proof.
  unfold record_matches_query_cancellable, query_matches. eapply computes_bind; [apply computes_check|].
  destruct (expression query) as [e|]; [apply computes_expression|].
  eapply computes_bind; [apply computes_polled_all; intros x; apply computes_ret|]. destruct (forallb _ (excluded_terms query)); cbn [negb andb]; [|apply computes_ret].
  eapply computes_bind; [apply computes_polled_all; intros x; apply computes_phrase_matches|]. destruct (forallb _ (phrases query)); cbn [negb andb]; [|apply computes_ret].
  destruct pass; cbn [includes_deep].
  - eapply computes_bind; [apply computes_ret|]. cbn [negb andb]. destruct (proximities query) as [|p ps].
    + cbn. apply computes_polled_all. intros x. apply computes_ret.
    + cbn. apply computes_ret.
  - eapply computes_bind; [apply computes_polled_all; intros x; apply computes_proximity|].
    change (forallb (proximity_matches ix r Full) (proximities query)) with (forallb (fun p => proximity_found ix (record_id r) p) (proximities query)).
    destruct (forallb _ (proximities query)); cbn [negb andb]; [|apply computes_ret]. apply computes_polled_all. intros x. apply computes_ret.
Qed.

(** *** Sets *)
Lemma in_order_elem (ids : gset FileId) id : id ∈ in_order ids <-> id ∈ ids.
Proof. unfold in_order. by rewrite sort_elem, elem_of_elements. Qed.
Lemma in_order_set (ids : gset FileId) : list_to_set (in_order ids) = ids.
Proof. apply set_eq. intros id. by rewrite elem_of_list_to_set, in_order_elem. Qed.
Lemma foldl_union (ids : list FileId) : forall collected : gset FileId, foldl (fun collected id => {[id]} ∪ collected) collected ids = list_to_set ids ∪ collected.
Proof. induction ids as [|id ids IH]; intros c; cbn [foldl]; [set_solver|]. rewrite IH. set_solver. Qed.
Lemma computes_extend (ids : list FileId) (collected : gset FileId) : computes (S := St) (extend_ids ids collected) (list_to_set ids ∪ collected).
Proof. rewrite <- foldl_union. apply computes_strided. intros c id. apply computes_ret. Qed.
Lemma retain_loop_value (candidates : gset FileId) ids : forall index error kept c k (s : St) out k' s', retain_loop candidates index error kept ids c k s = (out, k', s') ->
  s' = s /\ exists e x, out = Ok (e, x) /\ (e = None -> error = None /\ x = list_to_set (filter (fun id => id ∈ candidates) ids) ∪ kept) /\ (error <> None -> e <> None).
Proof.
  induction ids as [|id ids IH]; intros index error kept c k s r k' s'; cbn [retain_loop].
  - intros [= <- <- <-]. split; [done|]. exists error, kept. split_and!; [done| |done]. intros ->. split; [done|]. cbn. set_solver.
  - unfold mbind. destruct (Nat.eqb (index mod QUERY_CHECK_STRIDE) 0).
    + unfold poll. destruct (c k) as [e|].
      * intros E. destruct (IH _ _ _ _ _ _ _ _ _ E) as (-> & e' & x & -> & H1 & H2). split; [done|]. exists e', x. split_and!; [done| |].
        -- intros He. destruct (H1 He). done.
        -- intros _. by apply H2.
      * intros E. destruct (IH _ _ _ _ _ _ _ _ _ E) as (-> & e' & x & -> & H1 & H2). split; [done|]. exists e', x. split_and!; [done| |done].
        intros He. destruct (H1 He) as [-> ->]. split; [done|]. rewrite filter_cons. destruct (decide (id ∈ candidates)); set_solver.
    + cbn [mret]. intros E. destruct (IH _ _ _ _ _ _ _ _ _ E) as (-> & e' & x & -> & H1 & H2). split; [done|]. exists e', x. split_and!; [done| |done].
      intros He. destruct (H1 He) as [-> ->]. split; [done|]. rewrite filter_cons. destruct (decide (id ∈ candidates)); set_solver.
Qed.
Lemma retain_loop_runs (candidates : gset FileId) ids : forall index kept (s : St), exists x, runs (retain_loop candidates index None kept ids) s (Ok (None, x)) s.
Proof.
  induction ids as [|id ids IH]; intros index kept s; cbn [retain_loop]; [exists kept; apply runs_ret|].
  destruct (IH (S index) (if decide (id ∈ candidates) then {[id]} ∪ kept else kept) s) as [x Hx]. exists x.
  apply (runs_bind _ _ s (Ok tt) s); [|exact Hx]. destruct (Nat.eqb _ _); [apply runs_poll|apply runs_ret].
Qed.
Lemma settles_retain (ids candidates : gset FileId) : settles (S := St) (retain_cancellable ids candidates) (ids ∩ candidates).
Proof.
  assert (Hx : forall x, x = list_to_set (filter (fun id => id ∈ candidates) (in_order ids)) ∪ ∅ -> x = ids ∩ candidates).
  { intros x ->. apply set_eq. intros id. rewrite elem_of_union, elem_of_list_to_set, list_elem_of_filter, in_order_elem, elem_of_intersection. set_solver. }
  unfold retain_cancellable. split.
  - intros s. destruct (retain_loop_runs candidates (in_order ids) 0 ∅ s) as [x Hr]. pose proof Hr as Hr'. destruct (Hr' 0) as [k' E].
    destruct (retain_loop_value _ _ _ _ _ _ _ _ _ _ _ E) as (_ & e & y & [= <- <-] & H1 & _). rewrite <- (Hx x (proj2 (H1 eq_refl))).
    eapply runs_bind; [exact Hr|apply runs_ret].
  - intros c k s r k' s'. unfold mbind. destruct (retain_loop _ _ _ _ _ c k s) as [[r1 k1] s1] eqn:E.
    destruct (retain_loop_value _ _ _ _ _ _ _ _ _ _ _ E) as (-> & e & x & -> & H1 & _). cbn [fst snd]. destruct e as [e|].
    + intros [= <- <- <-]. done.
    + intros [= <- <- <-]. split; [done|]. intros b [= <-]. by apply Hx, H1.
Qed.
Definition intersection_of (ids : gset FileId) (sets : list (gset FileId)) : gset FileId := foldl (fun a b => a ∩ b) ids sets.
Lemma intersection_of_elem sets id : forall ids, id ∈ intersection_of ids sets <-> id ∈ ids /\ forall s, s ∈ sets -> id ∈ s.
Proof. unfold intersection_of. induction sets as [|s sets IH]; intros ids; cbn [foldl]; [set_solver|]. rewrite IH. set_solver. Qed.
Lemma settles_intersect_loop sets : forall index ids, settles (S := St) (intersect_loop index ids sets) (intersection_of ids sets).
Proof.
  induction sets as [|s sets IH]; intros index ids; cbn [intersect_loop]; [apply settles_ret|].
  eapply settles_bind; [apply computes_settles, computes_stride|]. eapply settles_bind; [apply settles_retain|].
  change (intersection_of ids (s :: sets)) with (intersection_of (ids ∩ s) sets). case_decide as Hn; [|apply IH]. rewrite Hn.
  replace (intersection_of ∅ sets) with (∅ : gset FileId); [apply settles_ret|]. apply set_eq. intros id. rewrite intersection_of_elem. set_solver.
Qed.
(** The ids that are in all of the sets. *)
Definition in_all (sets : list (gset FileId)) : option (gset FileId) :=
  match sort_by (fun ids => N.of_nat (size ids)) sets with [] => None | ids :: sets => Some (intersection_of ids sets) end.
Lemma settles_intersect sets : settles (S := St) (intersect_candidate_sets_cancellable sets) (in_all sets).
Proof.
  unfold intersect_candidate_sets_cancellable, in_all. eapply settles_bind; [apply settles_check|]. destruct (sort_by _ sets) as [|ids l]; [apply settles_ret|].
  eapply settles_bind; [apply settles_intersect_loop|apply settles_ret].
Qed.
Lemma in_all_spec sets : match in_all sets with
  | None => sets = []
  | Some ids => sets <> [] /\ forall id, id ∈ ids <-> forall s, s ∈ sets -> id ∈ s end.
Proof.
  unfold in_all. pose proof (sort_by_perm (fun ids : gset FileId => N.of_nat (size ids)) sets) as Hp.
  destruct (sort_by _ sets) as [|ids l]; [by apply Permutation_nil in Hp|]. split; [intros ->; symmetry in Hp; by apply Permutation_nil_cons in Hp|].
  intros id. rewrite intersection_of_elem. setoid_rewrite <- Hp. set_solver.
Qed.
End MatchSpec.

(** *** The candidates *)
Section CandidateValues.
Context `{Unicode}.
Implicit Types (ix : SearchIndex) (id : FileId) (pass : SearchPass).
Definition column_matches ix (matches : RecordColumns -> str -> bool) (value : str) id : bool :=
  match columns ix !! id with Some c => matches c value | None => false end.
Definition matching_ids ix (matches : RecordColumns -> str -> bool) (value : str) (candidates : gset FileId) : gset FileId :=
  list_to_set (filter (fun id => column_matches ix matches value id = true) (in_order candidates)).
Definition field_phrase_ids ix (ws : list str) (phrase : str) (postings : gmap str (gset FileId)) (matches : RecordColumns -> str -> bool) : gset FileId :=
  match rarest_term_postings ws postings with None => ∅ | Some candidates => matching_ids ix matches phrase candidates end.
Definition record_phrase_set ix (phrase : str) : gset FileId :=
  let ws := tokenize (normalize phrase) in
  let t := index_terms ix in
  if decide (ws = []) then list_to_set (record_id <$> filter (fun r => record_matches_phrase ix r phrase = true) (hash_values (records ix)))
  else field_phrase_ids ix ws phrase (metadata_terms t) matches_comment_phrase ∪
       (field_phrase_ids ix ws phrase (path_terms t) matches_path_phrase ∪ (field_phrase_ids ix ws phrase (name_terms t) matches_name_phrase ∪ ∅)).
Definition content_phrase_list ix (phrase : str) : list FileId :=
  match rarest_content_postings (tokenize (normalize phrase)) (content_terms ix) with
  | None => []
  | Some candidates => filter (fun id => phrase_found ix id phrase = true) (sort (map_to_list candidates).*1)
  end.
Definition content_proximity_list ix (proximity : QueryProximity) : list FileId :=
  match rarest_content_term_postings (proximity_terms proximity) (content_terms ix) with
  | None => []
  | Some (anchor_term, rarest) =>
      filter (fun id => forallb (fun term => bool_decide (term = anchor_term) || content_has ix id term) (proximity_terms proximity) && proximity_found ix id proximity = true)
        (sort (map_to_list rarest).*1)
  end.
Definition phrase_candidates ix pass (phrase : str) : gset FileId :=
  if includes_deep pass then list_to_set (content_phrase_list ix phrase) ∪ record_phrase_set ix phrase else record_phrase_set ix phrase.
Definition proximity_candidates ix pass (proximity : QueryProximity) : option (gset FileId) :=
  if includes_deep pass then Some (list_to_set (content_proximity_list ix proximity)) else None.
Definition text_candidates ix (value : str) (postings : gmap str (gset FileId)) (matches : RecordColumns -> str -> bool) : option (gset FileId) :=
  matching_ids ix matches value <$> rarest_term_postings (tokenize value) postings.
Definition filter_candidates ix (filter : QueryFilter) : option (gset FileId) :=
  let t := index_terms ix in
  match filter with
  | FName value false => text_candidates ix value (name_terms t) matches_name_phrase
  | FPath value false => text_candidates ix value (path_terms t) matches_path_phrase
  | FExtension value false => Some (default ∅ (extensions t !! value))
  | FTag value false => Some (default ∅ (tags t !! value))
  | FKind kind false => Some (default ∅ (kinds t !! query_kind_file_kind kind))
  | _ => None
  end.
Definition term_candidates ix (term : str) pass : gset FileId :=
  let t := index_terms ix in
  let ids := foldl (fun ids postings => postings ∪ ids) ∅
    (omap (fun postings => postings) [name_terms t !! term; path_terms t !! term; metadata_terms t !! term; extensions t !! term; tags t !! term]) in
  if includes_deep pass then match content_terms ix !! term with Some postings => list_to_set (sort (map_to_list postings).*1) ∪ ids | None => ids end else ids.
Definition union_of (sets : list (gset FileId)) : gset FileId := foldl (fun ids found => found ∪ ids) ∅ sets.
Fixpoint exact_candidates ix pass (e : QueryExpr) : option (gset FileId) :=
  match e with
  | EPhrase phrase => Some (phrase_candidates ix pass phrase)
  | EProximity proximity => proximity_candidates ix pass proximity
  | EFilter filter => filter_candidates ix filter
  | EAnd es => (fun sets => default ∅ (in_all sets)) <$> mapM (exact_candidates ix pass) es
  | EOr es => union_of <$> mapM (exact_candidates ix pass) es
  | ETerm _ | ENot _ => None
  end.
Definition smallest_of (sets : list (option (gset FileId))) : option (gset FileId) :=
  foldl (fun least candidates => match candidates, least with
                                 | Some ids, Some current => if size ids <? size current then Some ids else least
                                 | Some ids, None => Some ids
                                 | None, _ => least
                                 end) None sets.
Fixpoint expression_candidates ix pass (e : QueryExpr) : option (gset FileId) :=
  match e with
  | ETerm term => Some (term_candidates ix term pass)
  | EPhrase phrase => Some (phrase_candidates ix pass phrase)
  | EProximity proximity => proximity_candidates ix pass proximity
  | EFilter filter => filter_candidates ix filter
  | ENot _ => None
  | EAnd es =>
      match in_all (omap (exact_candidates ix pass) es) with
      | Some ids => Some ids
      | None => smallest_of (expression_candidates ix pass <$> es)
      end
  | EOr es => union_of <$> mapM (expression_candidates ix pass) es
  end.
End CandidateValues.

Section CandidateRuns.
Context `{Unicode} {St : Type}.
Implicit Types (ix : SearchIndex) (id : FileId) (pass : SearchPass).
Lemma foldl_matching (test : FileId -> bool) l : forall acc : gset FileId,
  foldl (fun acc id => if test id then {[id]} ∪ acc else acc) acc l = list_to_set (filter (fun id => test id = true) l) ∪ acc.
Proof.
  induction l as [|id l IH]; intros acc; cbn [foldl]; [cbn; set_solver|]. rewrite IH, filter_cons.
  destruct (test id); [rewrite decide_True by done|by rewrite decide_False by done]. cbn. set_solver.
Qed.
Lemma computes_matching ix (matches : RecordColumns -> str -> bool) value candidates (acc : gset FileId) :
  computes (S := St) (strided (fun (ids : gset FileId) id => mret (match columns ix !! id with
      | Some c => if matches c value then {[id]} ∪ ids else ids | None => ids end)) 0 acc (in_order candidates))
    (matching_ids ix matches value candidates ∪ acc).
Proof.
  unfold matching_ids. rewrite <- foldl_matching. apply computes_strided. intros ids id. unfold column_matches. destruct (columns ix !! id); apply computes_ret.
Qed.
Lemma computes_field ix ws phrase postings matches ids :
  computes (S := St) (add_record_phrase_ids_for_field ix ws phrase postings matches ids) (field_phrase_ids ix ws phrase postings matches ∪ ids).
Proof.
  unfold add_record_phrase_ids_for_field, field_phrase_ids. eapply computes_bind; [apply computes_check|]. destruct (rarest_term_postings ws postings).
  - apply computes_matching.
  - rewrite (left_id_L ∅ (∪)). apply computes_ret.
Qed.
Lemma computes_record_phrase ix phrase : exists ids, computes (S := St) (record_phrase_ids_cancellable ix phrase) ids /\ list_to_set ids = record_phrase_set ix phrase.
Proof.
  unfold record_phrase_ids_cancellable, record_phrase_set. cbv zeta. case_decide.
  - eexists. split; [eapply computes_bind; [apply computes_check|]|].
    + apply computes_strided with (step := fun ids r => if record_matches_phrase ix r phrase then ids ++ [record_id r] else ids). intros ids r.
      destruct (record_matches_phrase ix r phrase); apply computes_ret.
    + by rewrite (foldl_collect (fun r => record_matches_phrase ix r phrase) record_id).
  - eexists. split.
    + eapply computes_bind; [apply computes_check|]. eapply computes_bind; [apply computes_field|]. eapply computes_bind; [apply computes_field|].
      eapply computes_bind; [apply computes_field|apply computes_ret].
    + by rewrite in_order_set.
Qed.
Lemma computes_content_phrase ix phrase : computes (S := St) (content_phrase_ids_cancellable ix phrase) (content_phrase_list ix phrase).
Proof.
  unfold content_phrase_ids_cancellable, content_phrase_list. eapply computes_bind; [apply computes_check|]. cbv zeta.
  destruct (rarest_content_postings _ _) as [candidates|]; [|apply computes_ret].
  apply (computes_collected (fun id => phrase_found ix id phrase) (fun id => content_matches_phrase_cancellable ix id phrase) (fun _ => true)). intros id. apply computes_phrase.
Qed.
Lemma computes_content_proximity ix proximity : computes (S := St) (content_proximity_ids_cancellable ix proximity) (content_proximity_list ix proximity).
Proof.
  unfold content_proximity_ids_cancellable, content_proximity_list. eapply computes_bind; [apply computes_check|].
  destruct (rarest_content_term_postings _ _) as [[t candidates]|]; [|apply computes_ret].
  apply (computes_collected (fun id => proximity_found ix id proximity) (fun id => content_matches_proximity_cancellable ix id proximity)
    (fun id => forallb (fun term => bool_decide (term = t) || content_has ix id term) (proximity_terms proximity))). intros id. apply computes_proximity.
Qed.
Lemma computes_phrase_candidates ix pass phrase : computes (S := St) (phrase_candidate_ids ix pass phrase) (phrase_candidates ix pass phrase).
Proof.
  unfold phrase_candidate_ids, phrase_candidates. destruct (computes_record_phrase ix phrase) as (ids & Hc & <-).
  eapply computes_bind; [exact Hc|]. eapply computes_bind; [apply computes_extend|]. rewrite (right_id_L ∅ (∪)). destruct (includes_deep pass); [|apply computes_ret].
  eapply computes_bind; [apply computes_content_phrase|apply computes_extend].
Qed.
Lemma computes_proximity_candidates ix pass proximity : computes (S := St) (proximity_candidate_ids ix pass proximity) (proximity_candidates ix pass proximity).
Proof.
  unfold proximity_candidate_ids, proximity_candidates. destruct (includes_deep pass); [|apply computes_ret].
  eapply computes_bind; [apply computes_content_proximity|]. eapply computes_bind; [apply computes_extend|]. rewrite (right_id_L ∅ (∪)). apply computes_ret.
Qed.
Lemma computes_filter_candidates ix f : computes (S := St) (filter_candidate_ids_cancellable ix f) (filter_candidates ix f).
Proof.
  assert (Ht : forall value postings matches, computes (S := St) (text_filter_candidate_ids_cancellable ix value postings matches) (text_candidates ix value postings matches)).
  { intros value postings matches. unfold text_filter_candidate_ids_cancellable, text_candidates. eapply computes_bind; [apply computes_check|].
    destruct (rarest_term_postings _ _); [|apply computes_ret]. eapply computes_bind; [apply computes_matching|]. rewrite (right_id_L ∅ (∪)). apply computes_ret. }
  unfold filter_candidate_ids_cancellable, filter_candidates. eapply computes_bind; [apply computes_check|]. cbv zeta.
  destruct f as [v [|]|v [|]|v [|]|v [|]|s n|k [|]|s n|f d n]; first [apply Ht|apply computes_ret].
Qed.
Lemma computes_term_candidates ix term pass : computes (S := St) (term_candidate_ids_cancellable ix term pass) (term_candidates ix term pass).
Proof.
  unfold term_candidate_ids_cancellable, term_candidates. cbv zeta. eapply computes_bind; [apply computes_check|]. eapply computes_bind.
  - apply computes_for with (step := fun ids postings => postings ∪ ids). intros ids postings. pose proof (computes_extend (St := St) (in_order postings) ids) as Hx.
    by rewrite in_order_set in Hx.
  - destruct (includes_deep pass); [|apply computes_ret]. destruct (content_terms ix !! term); [apply computes_extend|apply computes_ret].
Qed.
Lemma settles_exact ix pass e : settles (S := St) (exact_expression_candidate_ids_cancellable ix pass e) (exact_candidates ix pass e).
Proof.
  induction e as [v|v|p|f|e IH|es IH|es IH] using expr_ind; cbn [exact_expression_candidate_ids_cancellable exact_candidates];
    (eapply settles_bind; [apply settles_check|]).
  - apply settles_ret.
  - eapply settles_bind; [apply computes_settles, computes_phrase_candidates|apply settles_ret].
  - apply computes_settles, computes_proximity_candidates.
  - apply computes_settles, computes_filter_candidates.
  - apply settles_ret.
  - eapply settles_bind with (a := mapM (exact_candidates ix pass) es).
    + assert (Hg : forall sets, settles (S := St) ((fix collect (sets : list (gset FileId)) (expressions : list QueryExpr) : M St (option (list (gset FileId))) :=
                 match expressions with
                 | [] => mret (Some sets)
                 | e :: expressions' =>
                     check_control ;;
                     (candidates <- exact_expression_candidate_ids_cancellable ix pass e ;
                      match candidates with Some ids => collect (sets ++ [ids]) expressions' | None => mret None end)
                 end) sets es) ((fun more => sets ++ more) <$> mapM (exact_candidates ix pass) es)).
      { induction IH as [|e es He _ IH]; intros sets; [cbn; rewrite app_nil_r; apply settles_ret|]. eapply settles_bind; [apply settles_check|].
        eapply settles_bind; [apply He|]. cbn [mapM]. destruct (exact_candidates ix pass e) as [ids|]; cbn; [|apply settles_ret].
        replace ((fun more => sets ++ more) <$> (mapM (exact_candidates ix pass) es ≫= fun k => Some (ids :: k)))
          with ((fun more => (sets ++ [ids]) ++ more) <$> mapM (exact_candidates ix pass) es); [apply IH|].
        destruct (mapM (exact_candidates ix pass) es) as [more|]; cbn; [by rewrite <- app_assoc|done]. }
      specialize (Hg []). destruct (mapM (exact_candidates ix pass) es); exact Hg.
    + destruct (mapM (exact_candidates ix pass) es) as [sets|]; [|apply settles_ret]. eapply settles_bind; [apply settles_intersect|apply settles_ret].
  - case_decide as Hn; [subst es; apply settles_ret|]. clear Hn. unfold union_of. generalize (∅ : gset FileId).
    induction IH as [|e es He _ IH]; intros ids; [apply settles_ret|]. eapply settles_bind; [apply He|]. cbn [mapM].
    destruct (exact_candidates ix pass e) as [found|]; cbn; [|apply settles_ret]. eapply settles_bind; [apply computes_settles, computes_extend|]. rewrite in_order_set.
    specialize (IH (found ∪ ids)). destruct (mapM (exact_candidates ix pass) es); exact IH.
Qed.
Lemma settles_candidates ix pass e : settles (S := St) (expression_candidate_ids_cancellable ix pass e) (expression_candidates ix pass e).
Proof.
  induction e as [v|v|p|f|e IH|es IH|es IH] using expr_ind; cbn [expression_candidate_ids_cancellable expression_candidates];
    (eapply settles_bind; [apply settles_check|]).
  - eapply settles_bind; [apply computes_settles, computes_term_candidates|apply settles_ret].
  - eapply settles_bind; [apply computes_settles, computes_phrase_candidates|apply settles_ret].
  - apply computes_settles, computes_proximity_candidates.
  - apply computes_settles, computes_filter_candidates.
  - apply settles_ret.
  - eapply settles_bind with (a := omap (exact_candidates ix pass) es).
    + assert (Hg : forall sets, settles (S := St) (mfor (fun sets e => candidates <- exact_expression_candidate_ids_cancellable ix pass e ; mret (sets ++ option_list candidates)) sets es)
        (sets ++ omap (exact_candidates ix pass) es)).
      { clear IH. induction es as [|e es IH]; intros sets; cbn [mfor]; [cbn; rewrite app_nil_r; apply settles_ret|].
        eapply settles_bind; [eapply settles_bind; [apply settles_exact|apply settles_ret]|]. specialize (IH (sets ++ option_list (exact_candidates ix pass e))).
        rewrite <- app_assoc in IH. cbn [omap list_omap]. destruct (exact_candidates ix pass e); exact IH. }
      apply (Hg []).
    + eapply settles_bind; [apply settles_intersect|]. destruct (in_all _); [apply settles_ret|]. unfold smallest_of. generalize (None : option (gset FileId)).
      induction IH as [|e es He _ IH]; intros least; [apply settles_ret|]. eapply settles_bind; [apply settles_check|]. eapply settles_bind; [apply He|]. rewrite fmap_cons. cbn [foldl].
      destruct (expression_candidates ix pass e), least; apply IH.
  - case_decide as Hn; [subst es; apply settles_ret|]. clear Hn. unfold union_of. generalize (∅ : gset FileId).
    induction IH as [|e es He _ IH]; intros ids; [apply settles_ret|]. eapply settles_bind; [apply He|]. cbn [mapM].
    destruct (expression_candidates ix pass e) as [found|]; cbn; [|apply settles_ret]. eapply settles_bind; [apply computes_settles, computes_extend|]. rewrite in_order_set.
    specialize (IH (found ∪ ids)). destruct (mapM (expression_candidates ix pass) es); exact IH.
Qed.
End CandidateRuns.

(** *** Expressions whose candidates are complete *)
Fixpoint covered (e : QueryExpr) : bool :=
  match e with
  | EFilter (FName _ false) | EFilter (FPath _ false) => false
  | ETerm _ | EFilter _ | ENot _ => true
  | EAnd es => negb (bool_decide (es = [])) && forallb covered es
  | EOr es => forallb covered es
  | EPhrase _ | EProximity _ => false
  end.
Section Covered.
Context `{Unicode} (now : SystemTime).
Implicit Types (ix : SearchIndex) (id : FileId) (pass : SearchPass) (r : FileRecord).
Lemma posted_spec {K} `{Countable K} (m : gmap K (gset FileId)) P k id : mirrors m P -> id ∈ default ∅ (m !! k) <-> P k id.
Proof. intros [H1 _]. apply H1. Qed.

(** The record has the word as a whole: in its name, path or metadata, as its extension
    or a tag, or in its content. *)
Definition column_words c : list str := name_tokens c ++ path_tokens c ++ metadata_tokens c ++ option_list (col_extension c) ++ col_tags c.
Definition word_in ix pass (term : str) id : bool :=
  match columns ix !! id with Some c => bool_decide (term ∈ column_words c) | None => false end || (includes_deep pass && content_has ix id term).
(** A word counts when the record has it as a whole and matches it; the rest when it matches. *)
Fixpoint meets ix r pass (e : QueryExpr) : bool :=
  match e with
  | ETerm term => word_in ix pass term (record_id r) && expression_matches now ix r pass e
  | EAnd es => forallb (meets ix r pass) es
  | EOr es => existsb (meets ix r pass) es
  | _ => expression_matches now ix r pass e
  end.
Fixpoint wordless (e : QueryExpr) : bool :=
  match e with ETerm _ => false | EAnd es | EOr es => forallb wordless es | _ => true end.
Lemma forallb_weaken {A} (f g : A -> bool) l : Forall (fun x => f x = true -> g x = true) l -> forallb f l = true -> forallb g l = true.
Proof. intros Hl. rewrite !forallb_forall. rewrite Forall_forall in Hl. intros Hf x Hx. apply Hl; [by apply list_elem_of_In|by apply Hf]. Qed.
Lemma existsb_weaken {A} (f g : A -> bool) l : Forall (fun x => f x = true -> g x = true) l -> existsb f l = true -> existsb g l = true.
Proof. intros Hl (x & Hx & Hf)%existsb_exists. rewrite Forall_forall in Hl. apply existsb_exists. exists x. split; [done|]. apply Hl; [by apply list_elem_of_In|done]. Qed.
Lemma meets_matches ix r pass e : meets ix r pass e = true -> expression_matches now ix r pass e = true.
Proof.
  induction e as [v|v|p|f|e IH|es IH|es IH] using expr_ind; cbn [meets]; try done; [by intros [_ ?]%andb_true_iff| |].
  - by apply forallb_weaken.
  - by apply existsb_weaken.
Qed.
Lemma wordless_meets ix r pass e : wordless e = true -> meets ix r pass e = expression_matches now ix r pass e.
Proof.
  induction e as [v|v|p|f|e IH|es IH|es IH] using expr_ind; cbn [meets wordless expression_matches]; try done;
    induction IH as [|e es He _ IH]; cbn [forallb existsb]; try done; intros [H1 H2]%andb_true_iff; by rewrite He, IH.
Qed.
Lemma content_keys ix term : match content_terms ix !! term with Some positions => forall id, id ∈ sort (map_to_list positions).*1 <-> content_has ix id term = true | None => forall id, content_has ix id term = false end.
Proof.
  unfold content_has. destruct (content_terms ix !! term) as [positions|]; [|done]. intros id. destruct (keys_sorted positions) as [_ Hk]. rewrite Hk, bool_decide_eq_true. done.
Qed.
Lemma word_in_key ix pass term id : index_ok true ix -> word_in ix pass term id = true ->
  (exists ids, ids ∈ [name_terms (index_terms ix) !! term; path_terms (index_terms ix) !! term; metadata_terms (index_terms ix) !! term;
                      extensions (index_terms ix) !! term; tags (index_terms ix) !! term] /\ id ∈ default ∅ ids) \/
  (includes_deep pass = true /\ content_has ix id term = true).
Proof.
  intros Hok [Hin|Hd%andb_true_iff]%orb_true_iff; [left|by right]. pose proof (ok_terms _ _ (ok_inner _ _ Hok)) as Ht.
  destruct (columns ix !! id) as [c|] eqn:Hc; [|done]. apply bool_decide_eq_true in Hin. unfold column_words in Hin. rewrite !elem_of_app in Hin.
  assert (Hkey : exists (m : gmap str (gset FileId)) keys, mirrors m (has keys (columns ix)) /\ term ∈ keys c /\ m ∈ [name_terms (index_terms ix); path_terms (index_terms ix);
    metadata_terms (index_terms ix); extensions (index_terms ix); tags (index_terms ix)]).
  { destruct Ht. destruct Hin as [Hin|[Hin|[Hin|[Hin|Hin]]]]; do 2 eexists; (refine (conj _ (conj Hin _)); [solve [eauto]|rewrite !elem_of_cons; tauto]). }
  destruct Hkey as (m & keys & Hm & Hk & Hin'). exists (m !! term). split; [by apply (list_elem_of_fmap_2 (fun m => m !! term)) in Hin'|].
  apply (posted_spec m _ term id Hm). by exists c.
Qed.
Lemma union_of_elem sets id : id ∈ union_of sets <-> exists s, s ∈ sets /\ id ∈ s.
Proof.
  unfold union_of. assert (Hg : forall acc : gset FileId, id ∈ foldl (fun ids found => found ∪ ids) acc sets <-> id ∈ acc \/ exists s, s ∈ sets /\ id ∈ s).
  { induction sets as [|s sets IH]; intros acc; cbn [foldl]; [set_solver|]. rewrite IH. set_solver. }
  rewrite Hg. set_solver.
Qed.
Lemma word_in_candidate ix pass term id : index_ok true ix -> word_in ix pass term id = true -> id ∈ term_candidates ix term pass.
Proof.
  intros Hok Hw. unfold term_candidates. cbv zeta. apply word_in_key in Hw; [|done].
  set (sets := omap (fun postings => postings) _). change (foldl (fun ids postings => postings ∪ ids) ∅ sets) with (union_of sets).
  destruct Hw as [(ids & Hin & Hid)|[Hd Hc]].
  - assert (Hu : id ∈ union_of sets).
    { apply union_of_elem. destruct ids as [s|]; [|by apply elem_of_empty in Hid]. exists s. split; [|done]. apply list_elem_of_omap. by exists (Some s). }
    destruct (includes_deep pass), (content_terms ix !! term); first [done|apply elem_of_union; right; done].
  - rewrite Hd. pose proof (content_keys ix term) as Hk. destruct (content_terms ix !! term) as [ps|]; [|by rewrite Hk in Hc].
    apply elem_of_union. left. by apply elem_of_list_to_set, Hk.
Qed.
Lemma covered_filter ix f ids r : index_ok true ix -> covered (EFilter f) = true -> filter_candidates ix f = Some ids ->
  records ix !! record_id r = Some r -> index_filter_matches ix r f = true <-> record_id r ∈ ids.
Proof.
  intros Hok Hc Hf Hr. destruct (columns_of true ix _ r (ok_inner _ _ Hok) Hr) as [c Ec]. pose proof (ok_terms _ _ (ok_inner _ _ Hok)) as Ht.
  unfold index_filter_matches. rewrite Ec. destruct f as [v [|]|v [|]|v [|]|v [|]|s n|k [|]|s n|f d n]; cbn in Hc, Hf; try done; injection Hf as <-; cbn [filter_matches_columns is_negative].
  - rewrite (posted_spec _ _ _ _ (tm_extensions _ _ _ _ Ht)). unfold has. rewrite Ec. split.
    + destruct (col_extension c) as [e|] eqn:Ee; [|done]. intros ->%bool_decide_eq_true. exists c. split; [done|]. rewrite Ee. cbn. by left.
    + intros (c' & [= <-] & Hin). destruct (col_extension c) as [e|]; cbn in Hin; [|by apply elem_of_nil in Hin]. apply list_elem_of_singleton in Hin as ->. by apply bool_decide_eq_true.
  - rewrite (posted_spec _ _ _ _ (tm_tags _ _ _ _ Ht eq_refl)). unfold has. rewrite Ec, existsb_exists. split.
    + intros (t & Hin%list_elem_of_In & ->%bool_decide_eq_true). by exists c.
    + intros (c' & [= <-] & Hin). exists v. split; [by apply list_elem_of_In|by apply bool_decide_eq_true].
  - rewrite (posted_spec _ _ _ _ (tm_kinds _ _ _ _ Ht)). unfold of_kind. rewrite Hr. split.
    + intros Hk. exists r. split; [done|]. destruct k, (record_kind r); done.
    + intros (r' & [= <-] & ->). by destruct k.
Qed.
Lemma covered_exact ix pass e : index_ok true ix -> covered e = true -> forall ids r, exact_candidates ix pass e = Some ids ->
  records ix !! record_id r = Some r -> meets ix r pass e = true -> record_id r ∈ ids.
Proof.
  intros Hok. induction e as [v|v|p|f|e IH|es IH|es IH] using expr_ind; cbn [covered exact_candidates meets]; try done.
  - intros Hc ids r Hx Hr Hm. by apply (covered_filter ix f ids r).
  - intros [Hne Hc]%andb_true_iff ids r Hx Hr Hm. apply negb_true_iff, bool_decide_eq_false in Hne. rewrite forallb_forall in Hc, Hm. rewrite Forall_forall in IH.
    destruct (mapM (exact_candidates ix pass) es) as [sets|] eqn:Em; [|done]. injection Hx as <-. apply mapM_Some in Em.
    pose proof (in_all_spec sets) as Hin. destruct (in_all sets) as [ids|]; cbn; [|subst sets; by apply Forall2_nil_inv_r in Em].
    apply Hin. intros s [i Hi]%list_elem_of_lookup. destruct (Forall2_lookup_r _ _ _ _ _ Em Hi) as (e & He & Hs). apply list_elem_of_lookup_2 in He.
    apply (IH e He); try done; [apply Hc|apply Hm]; by apply list_elem_of_In.
  - intros Hc ids r Hx Hr Hm. rewrite forallb_forall in Hc. apply existsb_exists in Hm as (e & He%list_elem_of_In & Hm). rewrite Forall_forall in IH.
    destruct (mapM (exact_candidates ix pass) es) as [sets|] eqn:Em; [|done]. injection Hx as <-. apply mapM_Some in Em.
    pose proof He as [i Hi]%list_elem_of_lookup. destruct (Forall2_lookup_l _ _ _ _ _ Em Hi) as (s & Hs & Hx). apply union_of_elem. exists s.
    split; [by eapply list_elem_of_lookup_2|]. apply (IH e He); try done. apply Hc. by apply list_elem_of_In.
Qed.
Lemma smallest_of_some sets ids : smallest_of sets = Some ids -> Some ids ∈ sets.
Proof.
  unfold smallest_of. assert (Hg : forall least, foldl (fun least candidates => match candidates, least with
    | Some ids, Some current => if size ids <? size current then Some ids else least | Some ids, None => Some ids | None, _ => least end) least sets = Some ids ->
    least = Some ids \/ Some ids ∈ sets).
  { induction sets as [|s sets IH]; intros least; cbn [foldl]; [by left|]. intros Hx%IH. rewrite elem_of_cons. destruct Hx as [Hx|?]; [|tauto].
    destruct s as [a|], least as [b|]; try tauto; [|right; left; congruence]. destruct (size a <? size b); [right; left; congruence|tauto]. }
  intros Hx%Hg. by destruct Hx.
Qed.
Lemma covered_candidates ix pass e : index_ok true ix -> covered e = true -> forall ids r, expression_candidates ix pass e = Some ids ->
  records ix !! record_id r = Some r -> meets ix r pass e = true -> record_id r ∈ ids.
Proof.
  intros Hok. induction e as [v|v|p|f|e IH|es IH|es IH] using expr_ind; cbn [covered expression_candidates meets]; try done.
  - intros _ ids r [= <-] Hr [Hw _]%andb_true_iff. by apply word_in_candidate.
  - intros Hc ids r Hx Hr Hm. by apply (covered_filter ix f ids r).
  - intros [Hne Hc]%andb_true_iff ids r Hx Hr Hm. rewrite forallb_forall in Hc, Hm. rewrite Forall_forall in IH.
    pose proof (in_all_spec (omap (exact_candidates ix pass) es)) as Hin. destruct (in_all _) as [ids'|].
    + injection Hx as <-. apply Hin. intros s (e & He & Hs)%list_elem_of_omap. apply (covered_exact ix pass e); try done; [apply Hc|apply Hm]; by apply list_elem_of_In.
    + apply smallest_of_some, list_elem_of_fmap in Hx as (e & Hs & He). apply (IH e He); try done; [apply Hc|apply Hm]; by apply list_elem_of_In.
  - intros Hc ids r Hx Hr Hm. rewrite forallb_forall in Hc. apply existsb_exists in Hm as (e & He%list_elem_of_In & Hm). rewrite Forall_forall in IH.
    destruct (mapM (expression_candidates ix pass) es) as [sets|] eqn:Em; [|done]. injection Hx as <-. apply mapM_Some in Em.
    pose proof He as [i Hi]%list_elem_of_lookup. destruct (Forall2_lookup_l _ _ _ _ _ Em Hi) as (s & Hs & Hx). apply union_of_elem. exists s.
    split; [by eapply list_elem_of_lookup_2|]. apply (IH e He); try done. apply Hc. by apply list_elem_of_In.
Qed.
Lemma smallest_of_none sets : smallest_of sets = None -> forall ids, Some ids ∈ sets -> False.
Proof.
  unfold smallest_of. set (step := fun (least candidates : option (gset FileId)) => _).
  assert (Hg : forall sets ids, foldl step (Some ids) sets <> None).
  { clear sets. induction sets as [|s sets IH]; intros ids; cbn [foldl]; [done|]. unfold step at 2. destruct s as [a|]; [destruct (_ <? _)|]; apply IH. }
  induction sets as [|s sets IH]; cbn [foldl]; [by intros _ ids ?%elem_of_nil|]. destruct s as [a|]; [by intros ?%Hg|]. intros Hn ids [?|Hin]%elem_of_cons; [done|by apply (IH Hn ids)].
Qed.
(** An expression with an anchor has candidates. *)
Lemma anchored_candidates ix pass e : covered e = true -> expression_has_positive_anchor e = true -> is_Some (expression_candidates ix pass e).
Proof.
  induction e as [v|v|p|f|e IH|es IH|es IH] using expr_ind; cbn [covered expression_candidates expression_has_positive_anchor]; try done; rewrite Forall_forall in IH.
  - intros [_ Hc]%andb_true_iff (e & He & Ha)%existsb_exists. rewrite forallb_forall in Hc. destruct (in_all _); [done|].
    destruct (smallest_of _) eqn:Es; [done|]. destruct (IH e (proj2 (list_elem_of_In _ _) He) (Hc e He) Ha) as [ids Hi].
    destruct (smallest_of_none _ Es ids). rewrite <- Hi. by apply list_elem_of_fmap_2, list_elem_of_In.
  - intros Hc [_ Ha]%andb_true_iff. rewrite forallb_forall in Hc, Ha. apply fmap_is_Some, mapM_is_Some, Forall_forall. intros e He.
    apply IH; [done|apply Hc|apply Ha]; by apply list_elem_of_In.
Qed.
(** Without candidates, every record is looked at. *)
Lemma covered_universe ix pass e : covered e = true -> expression_candidates ix pass e = None -> expression_needs_universe e = true.
Proof.
  induction e as [v|v|p|f|e IH|es IH|es IH] using expr_ind; cbn [covered expression_candidates expression_needs_universe]; try done.
  - intros Hc Hn. apply orb_true_iff. left. apply negb_true_iff, not_true_iff_false. intros Ha. destruct (anchored_candidates ix pass (EAnd es) Hc Ha) as [ids Hi].
    cbn [expression_candidates] in Hi. congruence.
  - intros Hc Hn. rewrite forallb_forall in Hc. rewrite Forall_forall in IH. destruct (mapM (expression_candidates ix pass) es) eqn:Em; [done|].
    apply mapM_None, Exists_exists in Em as (e & He & Hne). apply existsb_exists. exists e. apply list_elem_of_In in He as He'. split; [done|]. apply (IH e He); [by apply Hc|done].
Qed.
End Covered.
