(* ===== verification/QueryPass.v ===== *)
(** * Asking the index ([lookup.rs], [simple.rs] and [lib.rs] of [crates/search])

    A query is answered in one pass: from the maps of the index, helped by look-ups in
    archives within a budget, ranked, and cut to the best.  A query of plain words takes
    one of two shorter ways. *)
From S2P Require Import Prelude Types Order Chars Records Control Hits Fuzzy Query QueryParse SearchIndex SearchIndexSpec ContentSearch SearchMatch.
#[local] Open Scope list_scope.

(** ** Look-ups ([lookup.rs]) *)
Record SearchLookupBudget : Type := mkBudget {
  max_prefix_ids_per_term : N; min_archive_prefix_chars : N; max_substring_grams_per_term : N; max_substring_ids_per_gram : N;
  max_fuzzy_keys_per_term : N; max_fuzzy_terms_per_key : N; max_fuzzy_candidates_per_term : N;
  max_metadata_ids_per_term : N; max_content_ids_per_term : N
}.
Definition default_budget : SearchLookupBudget := mkBudget 4096 2 16 4096 96 512 4096 4096 4096.

(** The fields of [SearchLookupTelemetry]. *)
Inductive Counter : Type :=
  | PrefixTerms | PrefixLookupRequests | PrefixLookupIds | PrefixCandidateIds | PrefixCacheHits | PrefixCacheMisses | PrefixCutoffTerms
  | PrefixTruncatedTerms
  | SubstringTerms | SubstringGrams | SubstringLookupRequests | SubstringLookupIds | SubstringCandidateIds | SubstringCacheHits
  | SubstringCacheMisses | SubstringCutoffTerms | SubstringTermTruncatedGrams | SubstringTruncatedGrams
  | FuzzyTerms | FuzzyKeys | FuzzyLookupRequests | FuzzyLookupTerms | FuzzyCandidateTerms | FuzzyVerifiedCandidates | FuzzyCacheHits
  | FuzzyCacheMisses | FuzzyKeyTruncatedTerms | FuzzyTermTruncatedKeys | FuzzyCandidateTruncatedTerms.
#[export] Instance Counter_eq_dec : EqDecision Counter.
Proof. solve_decision. Defined.
Definition SearchLookupTelemetry : Type := Counter -> N.
Definition no_telemetry : SearchLookupTelemetry := fun _ => 0%N.
Definition count (c : Counter) (n : N) (t : SearchLookupTelemetry) : SearchLookupTelemetry :=
  fun c' => if decide (c' = c) then (t c' + n)%N else t c'.
Definition merge_telemetry (t other : SearchLookupTelemetry) : SearchLookupTelemetry := fun c => (t c + other c)%N.
Definition is_cache_counter (c : Counter) : bool :=
  match c with
  | PrefixLookupRequests | PrefixCacheHits | PrefixCacheMisses | SubstringLookupRequests | SubstringCacheHits | SubstringCacheMisses
  | FuzzyLookupRequests | FuzzyCacheHits | FuzzyCacheMisses => true
  | _ => false
  end.
Definition merge_cache_delta (t before after : SearchLookupTelemetry) : SearchLookupTelemetry :=
  fun c => if is_cache_counter c then (t c + (after c - before c))%N else t c.

(** The [.._bounded_cancellable] look-ups of the trait: what was found, and whether there is more. *)
Class SearchLookup (St : Type) : Type := {
  lookup_prefix_ids : str -> N -> M St (list FileId * bool);
  lookup_substring_ids : str -> N -> M St (list FileId * bool);
  lookup_fuzzy_terms : str -> N -> M St (list str * bool);
  lookup_prefix_ids_for_volume : str -> N -> N -> M St (list FileId * bool);
  lookup_substring_ids_for_volume : str -> N -> N -> M St (list FileId * bool);
  lookup_fuzzy_terms_for_volume : str -> N -> N -> M St (list str * bool)
}.
(** What the trait makes of a look-up that does not poll. *)
Definition polled_lookup {St A} (bounded : M St A) : M St A := check_control ;; (r <- bounded ; check_control ;; mret r).
Definition EmptySearchLookup {St} : SearchLookup St := {|
  lookup_prefix_ids _ _ := polled_lookup (mret ([], false));
  lookup_substring_ids _ _ := polled_lookup (mret ([], false));
  lookup_fuzzy_terms _ _ := polled_lookup (mret ([], false));
  lookup_prefix_ids_for_volume _ _ _ := polled_lookup (mret ([], false));
  lookup_substring_ids_for_volume _ _ _ := polled_lookup (mret ([], false));
  lookup_fuzzy_terms_for_volume _ _ _ := polled_lookup (mret ([], false))
|}.

Section Lookups.
Context `{Unicode} {St : Type} `{SearchLookup St} (budget : SearchLookupBudget).
Implicit Types (ix : SearchIndex) (id : FileId) (t : SearchLookupTelemetry).
Definition text_order (texts : gset str) : list str := sort (elements texts).
Definition count_if (b : bool) (c : Counter) t : SearchLookupTelemetry := if b then count c 1 t else t.

(** The candidates of a deletion key: those of the index, then what the look-up adds. *)
Definition fuzzy_candidates ix (key : str) t : M St (gset str * SearchLookupTelemetry) :=
  let most := max_fuzzy_candidates_per_term budget in
  let candidates := default ∅ (deletions (index_terms ix) !! key) in
  let candidate_truncated := (most <? N.of_nat (size candidates))%N in
  let candidates := if candidate_truncated then list_to_set (take (N.to_nat most) (text_order candidates)) else candidates in
  let remaining_candidates := (most - N.of_nat (size candidates))%N in
  r <- (if (0 <? remaining_candidates)%N then
          check_control ;;
          (found <- lookup_fuzzy_terms key (max_fuzzy_terms_per_key budget `min` remaining_candidates)%N ;
           check_control ;;
           let t := count FuzzyLookupTerms (N.of_nat (length found.1)) t in
           mret (list_to_set (filter (fun term => is_fuzzy_term term = true) (normalize <$> found.1)) ∪ candidates,
                 count_if found.2 FuzzyKeyTruncatedTerms t))
        else mret (candidates, t)) ;
  let t := count FuzzyCandidateTerms (N.of_nat (size r.1)) r.2 in
  mret (r.1, count_if candidate_truncated FuzzyCandidateTruncatedTerms t).
Definition verify_candidate ix (term : str) (acc : gset FileId * SearchLookupTelemetry) (candidate : str) : gset FileId * SearchLookupTelemetry :=
  let t := count FuzzyVerifiedCandidates 1 acc.2 in
  match bounded_levenshtein candidate term 2, name_terms (index_terms ix) !! candidate with
  | Some _, Some matches => (matches ∪ acc.1, t)
  | _, _ => (acc.1, t)
  end.
Definition fuzzy_key_step ix (term : str) (acc : gset FileId * SearchLookupTelemetry) (key : str) : M St (gset FileId * SearchLookupTelemetry) :=
  r <- fuzzy_candidates ix key (count FuzzyKeys 1 acc.2) ;
  strided (fun acc candidate => mret (verify_candidate ix term acc candidate)) 0 (acc.1, r.2) (text_order r.1).
Definition fuzzy_ids ix (term : str) t : M St (gset FileId * SearchLookupTelemetry) :=
  check_control ;;
  if negb (is_fuzzy_term term) then mret (∅, t)
  else
    let t := count FuzzyTerms 1 t in
    let keys := deletion_keys term 2 in
    let t := count_if (max_fuzzy_keys_per_term budget <? N.of_nat (length keys))%N FuzzyTermTruncatedKeys t in
    strided (fuzzy_key_step ix term) 0 (∅, t) (take (N.to_nat (max_fuzzy_keys_per_term budget)) keys).

Definition insert_known ix (ids : gset FileId) id : gset FileId := if decide (records ix !! id = None) then ids else {[id]} ∪ ids.
Definition name_prefix_ids ix (term : str) t : M St (gset FileId * SearchLookupTelemetry) :=
  check_control ;;
  if negb (is_prefix_term term) then mret (∅, t)
  else
    let t := count PrefixTerms 1 t in
    let most := max_prefix_ids_per_term budget in
    let ids := default ∅ (name_prefixes (index_terms ix) !! term) in
    let truncated := (most <? N.of_nat (size ids))%N in
    let t := count_if truncated PrefixTruncatedTerms t in
    let ids := if truncated then list_to_set (take (N.to_nat most) (in_order ids)) else ids in
    let remaining := (most - N.of_nat (size ids))%N in
    if (remaining =? 0)%N || (N.of_nat (length term) <? min_archive_prefix_chars budget)%N then
      mret (ids, count PrefixCandidateIds (N.of_nat (size ids)) (count PrefixCutoffTerms 1 t))
    else
      check_control ;;
      (found <- lookup_prefix_ids term remaining ;
       check_control ;;
       let t := count_if found.2 PrefixTruncatedTerms (count PrefixLookupIds (N.of_nat (length found.1)) t) in
       ids <- strided (fun ids id => mret (insert_known ix ids id)) 0 ids found.1 ;
       mret (ids, count PrefixCandidateIds (N.of_nat (size ids)) t)).

(** The ids of one gram. *)
Definition gram_ids ix (gram : str) t : M St (gset FileId * SearchLookupTelemetry) :=
  let most := max_substring_ids_per_gram budget in
  let ids := default ∅ (name_substrings (index_terms ix) !! gram) in
  let truncated := (most <? N.of_nat (size ids))%N in
  let ids := if truncated then list_to_set (take (N.to_nat most) (in_order ids)) else ids in
  let remaining := (most - N.of_nat (size ids))%N in
  r <- (if (0 <? remaining)%N then
          check_control ;;
          (found <- lookup_substring_ids gram remaining ;
           check_control ;;
           ids <- strided (fun ids id => mret (insert_known ix ids id)) 0 ids found.1 ;
           mret (ids, truncated || found.2, count SubstringLookupIds (N.of_nat (length found.1)) t))
        else mret (ids, truncated, t)) ;
  mret (r.1.1, count_if r.1.2 SubstringTruncatedGrams r.2).
(** [None]: some gram has no id, and nothing has all of them. *)
Fixpoint gram_sets ix (index : nat) (sets : list (gset FileId)) t (grams : list str) : M St (option (list (gset FileId)) * SearchLookupTelemetry) :=
  match grams with
  | [] => mret (Some sets, t)
  | gram :: grams' =>
      stride_check index ;;
      (r <- gram_ids ix gram (count SubstringGrams 1 t) ;
       if decide (r.1 = ∅) then mret (None, r.2) else gram_sets ix (S index) (sets ++ [r.1]) r.2 grams')
  end.
Fixpoint retain_all (index : nat) (candidates : gset FileId) (sets : list (gset FileId)) : M St (gset FileId) :=
  match sets with
  | [] => mret candidates
  | ids :: sets' => stride_check index ;; let candidates := candidates ∩ ids in if decide (candidates = ∅) then mret candidates else retain_all (S index) candidates sets'
  end.
Definition name_substring_ids ix (term : str) t : M St (gset FileId * SearchLookupTelemetry) :=
  check_control ;;
  if decide (term = []) then mret (∅, t)
  else if length term <? SUBSTRING_GRAM_CHARS then mret (∅, count SubstringCutoffTerms 1 t)
  else
    let grams := substring_grams term in
    if decide (grams = []) then mret (∅, count SubstringCutoffTerms 1 t)
    else
      let t := count SubstringTerms 1 t in
      let most := max_substring_grams_per_term budget in
      let t := count_if (most <? N.of_nat (length grams))%N SubstringTermTruncatedGrams t in
      r <- gram_sets ix 0 [] t (take (N.to_nat most) grams) ;
      match r.1 with
      | None => mret (∅, r.2)
      | Some sets =>
          candidates <- (match sort_by (fun ids => N.of_nat (size ids)) sets with [] => mret ∅ | ids :: sets => retain_all 0 ids sets end) ;
          mret (candidates, count SubstringCandidateIds (N.of_nat (size candidates)) r.2)
      end.
End Lookups.

(** ** Hits *)
Record SearchQueryReport : Type := mkReport { report_hits : list SearchHit; report_lookup : SearchLookupTelemetry }.
Inductive SearchStreamStage : Type := HotStage | DeepStage.
Record SearchStreamBatch : Type := mkBatch { batch_stage : SearchStreamStage; batch_hits : list SearchHit }.

Section Pass.
Context `{Unicode} {St : Type} (now : SystemTime).
Implicit Types (ix : SearchIndex) (id : FileId) (t : SearchLookupTelemetry) (scores : gmap FileId RankAccumulator).
Definition hit_of (r : FileRecord) (rank : RankAccumulator) : SearchHit := mkHit r (finish rank).1 (finish rank).2 None.
(** [for (id, score) in scores]: records that are there and match are pushed. *)
Definition push_scored ix (query : SearchQuery) (pass : SearchPass) (extra : FileRecord -> Z) (hits : BoundedHitMerge) (it : FileId * RankAccumulator) : M St BoundedHitMerge :=
  check_control ;;
  match records ix !! it.1 with
  | None => mret hits
  | Some r =>
      matched <- record_matches_query_cancellable now ix r query pass ;
      mret (if matched : bool then push_hit (hit_of r (boost (extra r) it.2)) hits else hits)
  end.
(** A record whose name is close to a term and does not have it. *)
Definition score_fuzzy ix (term : str) id scores : gmap FileId RankAccumulator :=
  match records ix !! id with
  | None => scores
  | Some r => if negb (record_contains_term ix r term) && record_fuzzy_matches_term ix r term then score_entry FUZZY_NAME FuzzyName id scores else scores
  end.
Definition add_fuzzy_scores ix (term : str) (ids : gset FileId) scores : M St (gmap FileId RankAccumulator) :=
  mfor (fun scores id => check_control ;; mret (score_fuzzy ix term id scores)) scores (in_order ids).

(** ** Plain words ([simple.rs]) *)
Definition is_simple (query : SearchQuery) : bool :=
  bool_decide (expression query = None) && bool_decide (excluded_terms query = []) && bool_decide (phrases query = []) &&
  bool_decide (proximities query = []) && bool_decide (filters query = []) && intent_is_empty (from_query query).

(** The content of a word: a score more, or a hit of its own. *)
Definition push_content ix (query : SearchQuery) (pass : SearchPass) (acc : gmap FileId RankAccumulator * BoundedHitMerge) id
    : M St (gmap FileId RankAccumulator * BoundedHitMerge) :=
  check_control ;;
  mret (match acc.1 !! id with
        | Some score => (<[id := add_rank CONTENT Content score]> acc.1, acc.2)
        | None =>
            match records ix !! id with
            | None => acc
            | Some r => (acc.1, push_hit (hit_of r (boost (composite_boosts now ix r query pass) (new_rank CONTENT Content))) acc.2)
            end
        end).
Section Simple.
Context `{SearchLookup St} (budget : SearchLookupBudget).
Definition query_simple_single_term_pass ix (query : SearchQuery) (limit : nat) (pass : SearchPass) : M St (option SearchQueryReport) :=
  match terms query with
  | [term] =>
      if negb (is_simple query) then mret None
      else
        let ts := index_terms ix in
        scores <- add_posting_scores EXACT_NAME ExactName (name_exact ts !! term) ∅ ;
        prefixed <- name_prefix_ids budget ix term no_telemetry ;
        scores <- (if decide (prefixed.1 = ∅) then mret scores else add_scores_cancellable PREFIX_NAME PrefixName (in_order prefixed.1) scores) ;
        scores <- mfor (fun scores posting => add_posting_scores posting.1.2 posting.2 (Some posting.1.1) scores) scores
          (omap (fun posting => (fun ids => (ids, posting.1.2, posting.2)) <$> posting.1.1)
             [(name_terms ts !! term, NAME_TOKEN, SubstringName); (path_terms ts !! term, PATH_COMPONENT, PathComponent);
              (metadata_terms ts !! term, TAG, TagMatch); (extensions ts !! term, EXTENSION, ExtensionMatch); (tags ts !! term, TAG, TagMatch)]) ;
        fuzzy <- (if includes_deep pass then
                    found <- fuzzy_ids budget ix term prefixed.2 ;
                    scores <- add_fuzzy_scores ix term found.1 scores ;
                    mret (scores, found.2)
                  else mret (scores, prefixed.2)) ;
        content <- (if includes_deep pass then
                      match content_terms ix !! term with
                      | Some positions => mfor (push_content ix query pass) (fuzzy.1, new_merge limit) (sort (map_to_list positions).*1)
                      | None => mret (fuzzy.1, new_merge limit)
                      end
                    else mret (fuzzy.1, new_merge limit)) ;
        hits <- mfor (push_scored ix query pass (fun r => composite_boosts now ix r query pass)) content.2 (map_to_list content.1) ;
        mret (Some (mkReport (into_sorted_hits hits) fuzzy.2))
  | _ => mret None
  end.

(** The candidates of each term, and its fuzzy ones; [None] when a term has none. *)
Fixpoint term_candidate_sets ix (pass : SearchPass) (fuzzy_by_term candidate_sets : list (gset FileId)) t (ts : list str)
    : M St (option (list (gset FileId) * list (gset FileId)) * SearchLookupTelemetry) :=
  match ts with
  | [] => mret (Some (fuzzy_by_term, candidate_sets), t)
  | term :: ts' =>
      check_control ;;
      (fuzzy <- (if includes_deep pass then fuzzy_ids budget ix term t else mret (∅, t)) ;
       candidates <- term_candidate_ids_cancellable ix term pass ;
       let candidates := fuzzy.1 ∪ candidates in
       if decide (candidates = ∅) then mret (None, fuzzy.2)
       else term_candidate_sets ix pass (fuzzy_by_term ++ [fuzzy.1]) (candidate_sets ++ [candidates]) fuzzy.2 ts')
  end.
Definition push_anchored ix (query : SearchQuery) (pass : SearchPass) (text : str) (prefixed : gset FileId) (fuzzy_by_term : list (gset FileId))
    (hits : BoundedHitMerge) id : M St BoundedHitMerge :=
  check_control ;;
  match records ix !! id with
  | None => mret hits
  | Some r =>
      matched <- record_matches_query_cancellable now ix r query pass ;
      mret (if matched : bool then
              push_hit (hit_of r (boost (composite_boosts now ix r query pass) (score_plain_multi_term_record ix r query text prefixed fuzzy_by_term pass))) hits
            else hits)
  end.
Definition query_simple_multi_term_pass ix (query : SearchQuery) (limit : nat) (pass : SearchPass) : M St (option SearchQueryReport) :=
  if (length (terms query) <? 2) || negb (is_simple query) then mret None
  else
    let text := str_join [32%N] (terms query) in
    prefixed <- name_prefix_ids budget ix text no_telemetry ;
    sets <- term_candidate_sets ix pass [] [] prefixed.2 (terms query) ;
    match sets.1 with
    | None => mret (Some (mkReport [] sets.2))
    | Some (fuzzy_by_term, candidate_sets) =>
        match min_by_key size candidate_sets with
        | None => mret None
        | Some anchor =>
            hits <- mfor (push_anchored ix query pass text prefixed.1 fuzzy_by_term) (new_merge limit) (in_order anchor) ;
            mret (Some (mkReport (into_sorted_hits hits) sets.2))
        end
    end.
End Simple.
End Pass.

(** ** The general pass ([lib.rs]) *)
Section QueryPass.
Context `{Unicode} {St : Type} (now : SystemTime) `{SearchLookup St} (budget : SearchLookupBudget).
Implicit Types (ix : SearchIndex) (id : FileId) (t : SearchLookupTelemetry) (scores : gmap FileId RankAccumulator).
Definition add_term_scores ix (pass : SearchPass) scores (term : str) : M St (gmap FileId RankAccumulator) :=
  check_control ;;
  let ts := index_terms ix in
  scores <- add_posting_scores NAME_TOKEN SubstringName (name_terms ts !! term) scores ;
  scores <- add_posting_scores PATH_COMPONENT PathComponent (path_terms ts !! term) scores ;
  scores <- add_posting_scores TAG TagMatch (metadata_terms ts !! term) scores ;
  scores <- add_posting_scores EXTENSION ExtensionMatch (extensions ts !! term) scores ;
  scores <- add_posting_scores TAG TagMatch (tags ts !! term) scores ;
  if includes_deep pass then add_content_scores ix term scores else mret scores.
Definition add_term_fuzzy_scores ix (acc : gmap FileId RankAccumulator * SearchLookupTelemetry) (term : str) : M St (gmap FileId RankAccumulator * SearchLookupTelemetry) :=
  check_control ;;
  (found <- fuzzy_ids budget ix term acc.2 ;
   scores <- add_fuzzy_scores ix term found.1 acc.1 ;
   mret (scores, found.2)).
(** The reason of a record found in its content wins. *)
Definition add_phrase_scores ix (pass : SearchPass) scores (phrase : str) : M St (gmap FileId RankAccumulator) :=
  check_control ;;
  (found <- record_phrase_ids_cancellable ix phrase ;
   let matches : gmap FileId MatchReason := foldl (fun m id => <[id := PathComponent]> m) ∅ found in
   matches <- (if includes_deep pass then
                 found <- content_phrase_ids_cancellable ix phrase ;
                 mret (foldl (fun m id => <[id := Content]> m) matches found)
               else mret matches) ;
   mfor (fun scores it => check_control ;; mret (score_entry PHRASE it.2 it.1 scores)) scores (map_to_list matches)).
Definition add_proximity_scores ix scores (proximity : QueryProximity) : M St (gmap FileId RankAccumulator) :=
  check_control ;;
  (found <- content_proximity_ids_cancellable ix proximity ;
   mret (foldl (fun scores id => score_entry PROXIMITY Content id scores) scores found)).
Definition score_substring ix (text : str) id scores : gmap FileId RankAccumulator :=
  match records ix !! id with
  | None => scores
  | Some r =>
      if negb (bool_decide (text = [])) && match columns ix !! record_id r with Some c => str_contains (col_name c) text | None => false end
      then score_entry SUBSTRING_NAME SubstringName (record_id r) scores else scores
  end.
Definition score_intent (intent : QueryIntent) scores (r : FileRecord) : gmap FileId RankAccumulator :=
  let score := intent_score now intent r in
  if (0 <? score)%Z then
    <[record_id r := match scores !! record_id r with Some current => boost score current | None => new_rank score PathComponent end]> scores
  else scores.
Definition wants_universe (query : SearchQuery) (candidates : option (gset FileId)) scores : bool :=
  (match expression query with Some e => expression_needs_universe e | None => false end && bool_decide (candidates = None)) ||
  (bool_decide (candidates = None) && bool_decide (scores = ∅) && negb (bool_decide (filters query = [])) && bool_decide (terms query = []) &&
   bool_decide (phrases query = []) && bool_decide (proximities query = [])).
Definition boost_scores ix (query : SearchQuery) (pass : SearchPass) scores : gmap FileId RankAccumulator :=
  map_imap (fun id score => Some (match records ix !! id with Some r => boost (composite_boosts now ix r query pass) score | None => score end)) scores.

(** What the query scores: the table, with the counters. *)
Definition score_query ix (query : SearchQuery) (limit : nat) (pass : SearchPass) : M St (gmap FileId RankAccumulator * SearchLookupTelemetry) :=
  let ts := index_terms ix in
  let text := str_join [32%N] (terms query) in
  let intent := from_query query in
  candidates <- match expression query with Some e => expression_candidate_ids_cancellable ix pass e | None => mret None end ;
  scores <- (if decide (text = []) then mret ∅ else add_posting_scores EXACT_NAME ExactName (name_exact ts !! text) ∅) ;
  prefixed <- (if decide (text = []) then mret (scores, no_telemetry)
               else found <- name_prefix_ids budget ix text no_telemetry ;
                    scores <- (if decide (found.1 = ∅) then mret scores else add_scores_cancellable PREFIX_NAME PrefixName (in_order found.1) scores) ;
                    mret (scores, found.2)) ;
  scores <- mfor (add_term_scores ix pass) prefixed.1 (terms query) ;
  fuzzy <- (if includes_deep pass then mfor (add_term_fuzzy_scores ix) (scores, prefixed.2) (terms query) else mret (scores, prefixed.2)) ;
  scores <- mfor (add_phrase_scores ix pass) fuzzy.1 (phrases query) ;
  scores <- (if includes_deep pass then mfor (add_proximity_scores ix) scores (proximities query) else mret scores) ;
  substring <- (if size scores <? limit then
                  found <- name_substring_ids budget ix text fuzzy.2 ;
                  scores <- mfor (fun scores id => check_control ;; mret (score_substring ix text id scores)) scores (in_order found.1) ;
                  mret (scores, found.2)
                else mret (scores, fuzzy.2)) ;
  scores <- match candidates with Some ids => seed_scores_cancellable (in_order ids) substring.1 | None => mret substring.1 end ;
  scores <- (if intent_is_empty intent then mret scores
             else mfor (fun scores r => check_control ;; mret (score_intent intent scores r)) scores (hash_values (records ix))) ;
  scores <- (if wants_universe query candidates scores
             then mfor (fun scores r => check_control ;; mret (seed_entry (record_id r) scores)) scores (hash_values (records ix))
             else mret scores) ;
  mret (boost_scores ix query pass scores, substring.2).
Definition query_pass ix (query : SearchQuery) (limit : nat) (pass : SearchPass) : M St SearchQueryReport :=
  check_control ;;
  if is_empty query || Nat.eqb limit 0 then mret (mkReport [] no_telemetry)
  else
    single <- query_simple_single_term_pass now budget ix query limit pass ;
    match single with
    | Some report => mret report
    | None =>
        multi <- query_simple_multi_term_pass now budget ix query limit pass ;
        match multi with
        | Some report => mret report
        | None =>
            scored <- score_query ix query limit pass ;
            hits <- mfor (push_scored now ix query pass (fun _ => 0%Z)) (new_merge limit) (map_to_list scored.1) ;
            let hits := into_sorted_hits hits in
            check_control ;;
            mret (mkReport hits scored.2)
        end
    end.
End QueryPass.

(** The methods with fewer arguments. *)
Section Queries.
Context `{Unicode} {St : Type} (now : SystemTime).
Implicit Types (ix : SearchIndex).
Definition query_structured_with_lookup_budget_cancellable ix (query : SearchQuery) (limit : nat) `{SearchLookup St} (budget : SearchLookupBudget) : M St SearchQueryReport :=
  query_pass now budget ix query limit Full.
Definition query_structured_with_lookup_cancellable ix (query : SearchQuery) (limit : nat) `{SearchLookup St} : M St (list SearchHit) :=
  report <- query_structured_with_lookup_budget_cancellable ix query limit default_budget ; mret (report_hits report).
Definition query_structured_cancellable ix (query : SearchQuery) (limit : nat) : M St (list SearchHit) :=
  let _ := EmptySearchLookup (St := St) in query_structured_with_lookup_cancellable ix query limit.
Definition query_cancellable ix (query : str) (limit : nat) : M St (list SearchHit) :=
  parsed <- parse_cancellable query ; query_structured_cancellable ix parsed limit.
Definition query_hot_structured_cancellable ix (query : SearchQuery) (limit : nat) : M St (list SearchHit) :=
  let _ := EmptySearchLookup (St := St) in
  report <- query_pass now default_budget ix query limit Hot ; mret (report_hits report).

(** Hot hits first; then those that the full pass adds or ranks higher. *)
Definition is_news (seen : gmap FileId Z) (hit : SearchHit) : bool :=
  match seen !! record_id (hit_record hit) with Some score => (score <? hit_score hit)%Z | None => true end.
Definition seen_scores (hot : list SearchHit) : gmap FileId Z :=
  foldl (fun seen hit => <[record_id (hit_record hit) := hit_score hit]> seen) ∅ hot.
Definition stream_structured_cancellable ix (query : SearchQuery) (limit : nat) : M St (list SearchStreamBatch) :=
  let _ := EmptySearchLookup (St := St) in
  check_control ;;
  if is_empty query || Nat.eqb limit 0 then mret []
  else
    hot <- query_pass now default_budget ix query limit Hot ;
    check_control ;;
    let hot := report_hits hot in
    let batches := if decide (hot = []) then [] else [mkBatch HotStage hot] in
    (more <- query_may_have_deep_delta_cancellable ix query ;
     if negb more then check_control ;; mret batches
     else
       full <- query_pass now default_budget ix query limit Full ;
       let deep := filter (fun hit => is_news (seen_scores hot) hit = true) (report_hits full) in
       let batches := if decide (deep = []) then batches else batches ++ [mkBatch DeepStage deep] in
       check_control ;;
       mret batches).
Definition stream_cancellable ix (query : str) (limit : nat) : M St (list SearchStreamBatch) :=
  parsed <- parse_cancellable query ; stream_structured_cancellable ix parsed limit.
End Queries.
Section Uncancelled.
Context `{Unicode} (now : SystemTime).
Implicit Types (ix : SearchIndex).
Definition query_structured ix (query : SearchQuery) (limit : nat) : list SearchHit := uncancelled (query_structured_cancellable now ix query limit) [].
Definition query ix (text : str) (limit : nat) : list SearchHit := query_structured ix (parse text) limit.
Definition stream_structured ix (query : SearchQuery) (limit : nat) : list SearchStreamBatch := uncancelled (stream_structured_cancellable now ix query limit) [].
Definition stream ix (text : str) (limit : nat) : list SearchStreamBatch := stream_structured ix (parse text) limit.
End Uncancelled.
