(* ===== verification/QueryPassSpec.v ===== *)
(** * Asking the index: what a query finds

    Whatever the look-ups in the archives answer, a pass returns records of the index
    that match, each once, the best first and no more than the limit; and for the
    expressions and words whose candidates are complete, every record that matches. *)
From S2P Require Import Prelude Types Order Chars Records Control Hits Fuzzy Query QueryParse SearchIndex SearchIndexSpec ContentSearch SearchMatch SearchMatchSpec QueryPass.
#[local] Open Scope list_scope.

(** ** Loops over a list, with what was done of it *)
Section Prefix.
Context {St A B : Type}.
Lemma ensures_for_prefix (body : B -> A -> M St B) (I : list A -> B -> Prop) l : forall pre acc,
  I pre acc -> (forall pre b x, I pre b -> ensures (body b x) (I (pre ++ [x]))) -> ensures (mfor body acc l) (I (pre ++ l)).
Proof.
  induction l as [|x l IH]; intros pre acc HI Hb; cbn; [rewrite app_nil_r; by apply ensures_ret|].
  eapply ensures_bind; [by apply Hb|]. intros b HI'. rewrite (cons_middle x pre l), app_assoc. by apply IH.
Qed.
End Prefix.

(** ** Pushing *)
Section Pushing.
Context `{Unicode} {St : Type} (now : SystemTime).
Implicit Types (ix : SearchIndex) (id : FileId) (query : SearchQuery) (pass : SearchPass) (m : BoundedHitMerge).
Definition hit_id (hit : SearchHit) : FileId := record_id (hit_record hit).
Definition found ix query pass id : bool :=
  match records ix !! id with Some r => query_matches now ix r query pass | None => false end.
(** Of the records [ids], those that match have been pushed. *)
Definition gathered ix query pass (limit : nat) (ids : list FileId) m : Prop :=
  exists pushed, merged limit pushed m /\ hit_id <$> pushed = filter (fun id => found ix query pass id = true) ids /\
    Forall (fun hit => records ix !! hit_id hit = Some (hit_record hit)) pushed.
Lemma gathered_new ix query pass limit : gathered ix query pass limit [] (new_merge limit).
Proof. exists []. split; [constructor|done]. Qed.
Lemma gathered_skip ix query pass limit ids m id : found ix query pass id = false -> gathered ix query pass limit ids m -> gathered ix query pass limit (ids ++ [id]) m.
Proof.
  intros Hf (pushed & Hm & Hi & Hr). exists pushed. split; [done|]. split; [|done]. rewrite filter_app, Hi, filter_cons, decide_False by congruence. cbn. by rewrite app_nil_r.
Qed.
Lemma gathered_push ix query pass limit ids m r rank : found ix query pass (record_id r) = true -> records ix !! record_id r = Some r ->
  gathered ix query pass limit ids m -> gathered ix query pass limit (ids ++ [record_id r]) (push_hit (hit_of r rank) m).
Proof.
  intros Hf Hr (pushed & Hm & Hi & Hall). exists (pushed ++ [hit_of r rank]). split; [by constructor|]. split.
  - rewrite fmap_app, filter_app, Hi, filter_cons, decide_True by done. done.
  - apply Forall_app. split; [done|]. by constructor.
Qed.
Lemma ensures_push_scored full ix query pass limit extra ids m it : index_ok full ix -> gathered ix query pass limit ids m ->
  ensures (push_scored (St := St) now ix query pass extra m it) (gathered ix query pass limit (ids ++ [it.1])).
Proof.
  intros Hok Hg. unfold push_scored. eapply ensures_bind; [apply ensures_true|]. intros _ _. destruct (records ix !! it.1) as [r|] eqn:Hr.
  - pose proof (ok_ids _ _ (ok_inner _ _ Hok) _ r Hr) as Eid. eapply ensures_bind; [eapply settles_ensures with (P := eq (query_matches now ix r query pass)); [apply computes_settles, computes_query|done]|].
    intros b <-. apply ensures_ret. assert (Hf : found ix query pass it.1 = query_matches now ix r query pass) by (unfold found; by rewrite Hr).
    destruct (query_matches now ix r query pass); [|by apply gathered_skip]. rewrite <- Eid in Hf, Hr |- *. by apply gathered_push.
  - apply ensures_ret. apply gathered_skip; [|done]. unfold found. by rewrite Hr.
Qed.

(** What a report promises of its hits. *)
Record answers ix query pass (limit : nat) (hits : list SearchHit) : Prop := {
  ans_limit : length hits <= limit;
  ans_sorted : StronglySorted (key_le_of key_from_hit) hits;
  ans_once : NoDup (hit_id <$> hits);
  ans_records hit : hit ∈ hits -> records ix !! hit_id hit = Some (hit_record hit) /\ query_matches now ix (hit_record hit) query pass = true
}.
Lemma take_sorted {A} (R : A -> A -> Prop) n l : StronglySorted R l -> StronglySorted R (take n l).
Proof. intros Hs. rewrite <- (take_drop n l) in Hs. by apply StronglySorted_app_1_l in Hs. Qed.
Lemma few_found ix query pass ids : NoDup ids -> length (filter (fun id => found ix query pass id = true) ids) <= size (records ix).
Proof.
  intros Hnd. rewrite <- (size_dom (D := gset FileId)). unfold size, set_size. apply submseteq_length, NoDup_submseteq; [by apply NoDup_filter|].
  intros id [Hf _]%list_elem_of_filter. apply elem_of_elements, elem_of_dom. unfold found in Hf. by destruct (records ix !! id).
Qed.
Lemma gathered_answers ix query pass limit ids m : NoDup ids -> gathered ix query pass limit ids m ->
  answers ix query pass limit (into_sorted_hits m) /\
  (size (records ix) <= limit -> forall id, id ∈ hit_id <$> into_sorted_hits m <-> id ∈ ids /\ found ix query pass id = true).
Proof.
  intros Hnd (pushed & Hm & Hi & Hall). destruct (top_hits_spec limit pushed m Hm) as (_ & E & _). rewrite E.
  pose proof (sort_by_perm key_from_hit pushed) as Hp. assert (Hn : NoDup (hit_id <$> sort_by key_from_hit pushed)).
  { rewrite Hp, Hi. by apply NoDup_filter. }
  assert (Hin : forall hit, hit ∈ take limit (sort_by key_from_hit pushed) -> hit ∈ pushed).
  { intros hit Hx. rewrite <- Hp. rewrite <- (take_drop limit (sort_by _ pushed)). apply elem_of_app. by left. }
  split; [split|].
  - rewrite length_take. lia.
  - apply take_sorted, sort_by_sorted.
  - rewrite <- (take_drop limit (sort_by _ pushed)), fmap_app in Hn. by apply NoDup_app in Hn as [? _].
  - intros hit Hx%Hin. rewrite Forall_forall in Hall. pose proof (Hall hit Hx) as Hr. split; [done|].
    assert (Hf : hit_id hit ∈ hit_id <$> pushed) by by apply list_elem_of_fmap_2. rewrite Hi in Hf. apply list_elem_of_filter in Hf as [Hf _].
    unfold found in Hf. by rewrite Hr in Hf.
  - intros Hl id. rewrite take_ge.
    + rewrite Hp, Hi, list_elem_of_filter. tauto.
    + rewrite (sort_by_length key_from_hit). rewrite <- (length_fmap hit_id), Hi. pose proof (few_found ix query pass ids Hnd). lia.
Qed.
Lemma answers_nil ix query pass limit : answers ix query pass limit [].
Proof. split; [cbn; lia|constructor|constructor|]. by intros hit ?%elem_of_nil. Qed.
End Pushing.

(** ** Scores *)
Section ScoresSpec.
Context `{Unicode} {St : Type} (now : SystemTime).
Implicit Types (ix : SearchIndex) (id : FileId) (scores : gmap FileId RankAccumulator).
Definition gains scores scores' : Prop := forall id, is_Some (scores !! id) -> is_Some (scores' !! id).
Lemma gains_refl scores : gains scores scores.
Proof. by intros id. Qed.
Lemma gains_trans s1 s2 s3 : gains s1 s2 -> gains s2 s3 -> gains s1 s3.
Proof. intros H1 H2 id ?%H1. by apply H2. Qed.
Lemma gains_insert id rank scores : gains scores (<[id := rank]> scores).
Proof. intros i Hi. rewrite lookup_insert_is_Some. destruct (decide (id = i)); tauto. Qed.
Lemma gains_entry points reason id scores : gains scores (score_entry points reason id scores).
Proof. apply gains_insert. Qed.
Lemma gains_seed id scores : gains scores (seed_entry id scores) /\ is_Some (seed_entry id scores !! id).
Proof. unfold seed_entry. destruct (scores !! id) eqn:E; [split; [apply gains_refl|by rewrite E]|]. split; [apply gains_insert|]. by rewrite lookup_insert_eq. Qed.
(** Growing steps, each of which adds its element. *)
Lemma gains_fold {A} (step : gmap FileId RankAccumulator -> A -> gmap FileId RankAccumulator) (key : A -> FileId) l :
  (forall scores x, gains scores (step scores x) /\ is_Some (step scores x !! key x)) -> forall scores,
  gains scores (foldl step scores l) /\ forall x, x ∈ l -> is_Some (foldl step scores l !! key x).
Proof.
  intros Hs. induction l as [|x l IH]; intros scores; cbn [foldl]; [split; [apply gains_refl|by intros x ?%elem_of_nil]|].
  destruct (IH (step scores x)) as [H1 H2], (Hs scores x) as [H3 H4]. split; [by eapply gains_trans|].
  intros y [->|Hy]%elem_of_cons; [by apply H1|by apply H2].
Qed.
Definition adds (ids : list FileId) scores scores' : Prop := gains scores scores' /\ forall id, id ∈ ids -> is_Some (scores' !! id).
Lemma ensures_add_scores points reason ids scores : ensures (S := St) (add_scores_cancellable points reason ids scores) (adds ids scores).
Proof.
  unfold add_scores_cancellable. eapply ensures_bind; [apply ensures_true|]. intros _ _.
  eapply settles_ensures; [apply settles_strided with (step := fun scores id => score_entry points reason id scores); intros; apply settles_ret|].
  apply (gains_fold (fun scores id => score_entry points reason id scores) (fun id => id)). intros s id. split; [apply gains_entry|]. unfold score_entry. by rewrite lookup_insert_eq.
Qed.
Lemma ensures_seed_scores ids scores : ensures (S := St) (seed_scores_cancellable ids scores) (adds ids scores).
Proof.
  unfold seed_scores_cancellable. eapply ensures_bind; [apply ensures_true|]. intros _ _.
  eapply settles_ensures; [apply settles_strided with (step := fun scores id => seed_entry id scores); intros; apply settles_ret|].
  apply (gains_fold (fun scores id => seed_entry id scores) (fun id => id)). intros s id. apply gains_seed.
Qed.
Lemma ensures_add_posting points reason ids scores :
  ensures (S := St) (add_posting_scores points reason ids scores) (adds (in_order (default ∅ ids)) scores).
Proof.
  unfold add_posting_scores. destruct ids as [ids|]; [apply ensures_add_scores|]. apply ensures_ret. split; [apply gains_refl|].
  intros id Hid%in_order_elem. by apply elem_of_empty in Hid.
Qed.
Lemma gains_score_fuzzy ix term id scores : gains scores (score_fuzzy ix term id scores).
Proof. unfold score_fuzzy. destruct (records ix !! id); [|apply gains_refl]. destruct (_ && _); [apply gains_entry|apply gains_refl]. Qed.
Lemma ensures_add_fuzzy ix term ids scores : ensures (S := St) (add_fuzzy_scores ix term ids scores) (gains scores).
Proof.
  unfold add_fuzzy_scores. apply (ensures_for _ (gains scores)); [apply gains_refl|]. intros s id Hs. eapply ensures_bind; [apply ensures_true|]. intros _ _.
  apply ensures_ret. eapply gains_trans; [exact Hs|apply gains_score_fuzzy].
Qed.
End ScoresSpec.

(** ** One word *)
Section OneWord.
Context `{Unicode} {St : Type} (now : SystemTime) `{SearchLookup St} (budget : SearchLookupBudget).
Implicit Types (ix : SearchIndex) (id : FileId) (scores : gmap FileId RankAccumulator) (query : SearchQuery) (pass : SearchPass).
Lemma simple_matches ix r query pass : is_simple query = true -> query_matches now ix r query pass = true.
Proof.
  unfold is_simple. rewrite !andb_true_iff, !bool_decide_eq_true. intros (((((E1 & E2) & E3) & E4) & E5) & _).
  unfold query_matches. by rewrite E1, E2, E3, E4, E5.
Qed.
(** The word is under one of the keys of the record, or in its content. *)
Definition word_posted ix pass (term : str) id : Prop :=
  let ts := index_terms ix in
  (exists ids, ids ∈ [name_exact ts !! term; name_terms ts !! term; path_terms ts !! term; metadata_terms ts !! term; extensions ts !! term; tags ts !! term] /\
     id ∈ default ∅ ids) \/ (includes_deep pass = true /\ content_has ix id term = true).
Lemma word_in_posted ix pass term id : index_ok true ix -> word_in ix pass term id = true -> word_posted ix pass term id.
Proof. intros Hok [(ids & Hin & Hid)|Hd]%word_in_key; [left|by right|done]. exists ids. split; [apply elem_of_cons; by right|done]. Qed.
Lemma ensures_push_content ix query pass limit (l : list FileId) scores : is_simple query = true -> NoDup l -> (forall id r, records ix !! id = Some r -> record_id r = id) ->
  ensures (S := St) (mfor (push_content now ix query pass) (scores, new_merge limit) l)
    (fun acc => dom acc.1 = dom scores /\ gathered now ix query pass limit (filter (fun id => scores !! id = None) l) acc.2).
Proof.
  intros Hs Hnd Hids. change (ensures (S := St) (mfor (push_content now ix query pass) (scores, new_merge limit) l)
    ((fun pre (acc : gmap FileId RankAccumulator * BoundedHitMerge) => dom acc.1 = dom scores /\ gathered now ix query pass limit (filter (fun id => scores !! id = None) pre) acc.2) ([] ++ l))).
  apply ensures_for_prefix; [split; [done|apply gathered_new]|]. intros pre [s m] id [Hd Hg]. cbn in Hd, Hg. unfold push_content. eapply ensures_bind; [apply ensures_true|]. intros _ _.
  apply ensures_ret. cbn [fst snd]. assert (Hiff : scores !! id = None <-> s !! id = None) by by rewrite <- !not_elem_of_dom, Hd.
  rewrite filter_app, filter_cons. cbn [filter list_filter]. destruct (s !! id) as [rank|] eqn:E.
  - rewrite decide_False by (rewrite Hiff; congruence). cbn [fst snd]. rewrite app_nil_r. split; [|done]. rewrite dom_insert_L, <- Hd.
    assert (id ∈ dom s) by by apply elem_of_dom. set_solver.
  - rewrite decide_True by by apply Hiff. destruct (records ix !! id) as [r|] eqn:Hr; cbn [fst snd].
    + split; [done|]. pose proof (Hids id r Hr) as <-. apply gathered_push; [unfold found; rewrite Hr; by apply simple_matches|done|done].
    + split; [done|]. apply gathered_skip; [unfold found; by rewrite Hr|done].
Qed.
Lemma one_word_pass full ix query limit pass : index_ok full ix ->
  ensures (query_simple_single_term_pass now budget ix query limit pass) (fun answer =>
    match answer with
    | None => is_simple query = false \/ length (terms query) <> 1
    | Some report => answers now ix query pass limit (report_hits report) /\
        exists term, terms query = [term] /\ (size (records ix) <= limit -> forall id, is_Some (records ix !! id) -> word_posted ix pass term id ->
          id ∈ hit_id <$> report_hits report)
    end).
Proof.
  intros Hok. unfold query_simple_single_term_pass. destruct (terms query) as [|term [|]]; [apply ensures_ret; by right| |apply ensures_ret; by right].
  destruct (is_simple query) eqn:Hs; cbn [negb]; [|apply ensures_ret; by left]. cbv zeta. set (ts := index_terms ix).
  eapply ensures_bind; [apply ensures_add_posting|]. intros s1 [_ H1]. eapply ensures_bind; [apply ensures_true|]. intros prefixed _.
  eapply ensures_bind with (P := gains s1).
  { case_decide; [apply ensures_ret, gains_refl|]. eapply ensures_weaken; [apply ensures_add_scores|]. by intros s [Hg _]. }
  intros s2 H2. set (l := [(name_terms ts !! term, NAME_TOKEN, SubstringName); _; _; _; _]). eapply ensures_bind with (P := fun s3 => gains s2 s3 /\ forall ids, ids ∈ l.*1.*1 -> forall id, id ∈ default ∅ ids -> is_Some (s3 !! id)).
  { clearbody l. clear -l. revert s2. induction l as [|[[ids points] reason] l IH]; intros s2; cbn [omap list_omap mfor fst snd].
    - apply ensures_ret. split; [apply gains_refl|by intros ids ?%elem_of_nil].
    - destruct ids as [ids|]; cbn [fmap option_fmap option_map].
      + cbn [mfor]. eapply ensures_bind; [apply ensures_add_posting|]. intros s [Hg Hin]. cbn [fst snd] in Hin. eapply ensures_weaken; [apply IH|]. intros s' [Hg' Hin'].
        split; [by eapply gains_trans|]. intros ids' Hids id Hid. rewrite !fmap_cons in Hids. apply elem_of_cons in Hids as [->|Hids]; [apply Hg', Hin; by apply in_order_elem|by eapply Hin'].
      + eapply ensures_weaken; [apply IH|]. intros s' [Hg' Hin']. split; [done|]. intros ids' Hids id Hid. rewrite !fmap_cons in Hids.
        apply elem_of_cons in Hids as [->|Hids]; [by apply elem_of_empty in Hid|by eapply Hin']. }
  intros s3 [H3 H3']. eapply ensures_bind with (P := fun r => gains s3 r.1).
  { destruct (includes_deep pass); [|apply ensures_ret, gains_refl]. eapply ensures_bind; [apply ensures_true|]. intros fz _. eapply ensures_bind; [apply ensures_add_fuzzy|].
    intros s Hg. by apply ensures_ret. }
  intros [s4 t4] H4. cbn [fst snd] in H4 |- *. set (ids := if includes_deep pass then match content_terms ix !! term with Some positions => sort (map_to_list positions).*1 | None => [] end else []).
  assert (Hnd : NoDup ids). { subst ids. destruct (includes_deep pass), (content_terms ix !! term); try constructor. apply lt_sorted_NoDup, keys_sorted. }
  eapply ensures_bind with (P := fun acc => dom acc.1 = dom s4 /\ gathered now ix query pass limit (filter (fun id => s4 !! id = None) ids) acc.2).
  { assert (Hids : forall id r, records ix !! id = Some r -> record_id r = id) by apply Hok.
    subst ids. destruct (includes_deep pass); [destruct (content_terms ix !! term)|]; [by apply ensures_push_content|apply ensures_ret; split; [done|apply gathered_new]..]. }
  intros [s5 m5] [Hd Hg]. cbn [fst snd] in Hd, Hg |- *. set (pushed := filter _ ids) in Hg.
  eapply ensures_bind with (P := gathered now ix query pass limit (pushed ++ (map_to_list s5).*1)).
  { eapply ensures_weaken; [apply (ensures_for_prefix _ (fun pre => gathered now ix query pass limit (pushed ++ pre.*1)) _ []); [by rewrite app_nil_r|]|done].
    intros pre m it Hgm. rewrite fmap_app, app_assoc. by eapply ensures_push_scored. }
  intros m6 Hg6. apply ensures_ret. cbn [report_hits]. destruct (gathered_answers now ix query pass limit (pushed ++ (map_to_list s5).*1) m6) as [Ha Hc]; [|done|].
  { apply NoDup_app. split_and!; [by apply NoDup_filter| |apply NoDup_fst_map_to_list]. intros id [Hn _]%list_elem_of_filter ([i rank] & -> & Hin%elem_of_map_to_list)%list_elem_of_fmap.
    cbn in Hn. apply not_elem_of_dom in Hn. rewrite <- Hd in Hn. by apply Hn, elem_of_dom. }
  split; [done|]. exists term. split; [done|]. intros Hl id Hr Hw. apply Hc; [done|]. split.
  - rewrite elem_of_app. assert (Hin : is_Some (s4 !! id) \/ (is_Some (s4 !! id) -> False) /\ id ∈ ids).
    { destruct Hw as [(ps & Hps & Hid)|[Hdeep Hw]].
      - left. apply H4. apply elem_of_cons in Hps as [->|Hps]; [by apply H3, H2, H1, in_order_elem|]. by apply (H3' ps).
      - destruct (s4 !! id) eqn:E; [by left|]. right. split; [by intros [? ?]|]. subst ids. rewrite Hdeep. pose proof (content_keys ix term) as Hk.
        destruct (content_terms ix !! term); [by apply Hk|]. by rewrite Hk in Hw. }
    destruct Hin as [Hin|[Hn Hin]].
    + right. assert (Hx : id ∈ dom s5) by (rewrite Hd; by apply elem_of_dom). apply elem_of_dom in Hx as [rank Hx]. apply list_elem_of_fmap. exists (id, rank). split; [done|]. by apply elem_of_map_to_list.
    + left. apply list_elem_of_filter. split; [|done]. by apply eq_None_not_Some.
  - unfold found. destruct Hr as [r ->]. by apply simple_matches.
Qed.
End OneWord.

(** ** Several words, and the rest *)
Section Passes.
Context `{Unicode} {St : Type} (now : SystemTime) `{SearchLookup St} (budget : SearchLookupBudget).
Implicit Types (ix : SearchIndex) (id : FileId) (scores : gmap FileId RankAccumulator) (query : SearchQuery) (pass : SearchPass).
Lemma ensures_candidate_sets ix pass ts : forall done_ fuzzy sets t, Forall2 (fun term s => term_candidates ix term pass ⊆ s) done_ sets ->
  ensures (term_candidate_sets (St := St) budget ix pass fuzzy sets t ts) (fun r => match r.1 with
    | Some (_, sets) => Forall2 (fun term s => term_candidates ix term pass ⊆ s) (done_ ++ ts) sets
    | None => exists term, term ∈ ts /\ term_candidates ix term pass = ∅ end).
Proof.
  induction ts as [|term ts IH]; intros done_ fuzzy sets t Hs; cbn [term_candidate_sets]; [apply ensures_ret; by rewrite app_nil_r|].
  eapply ensures_bind; [apply ensures_true|]. intros _ _. eapply ensures_bind; [apply ensures_true|]. intros fz _.
  eapply ensures_bind; [eapply settles_ensures with (P := eq (term_candidates ix term pass)); [apply computes_settles, computes_term_candidates|done]|]. intros candidates <-.
  cbv zeta. case_decide as He.
  - apply ensures_ret. cbn [fst]. exists term. split; [by left|]. apply set_eq. intros id. split; [|by intros ?%elem_of_empty]. intros Hid.
    rewrite <- He. apply elem_of_union. by right.
  - rewrite (cons_middle term done_ ts), app_assoc. eapply ensures_weaken; [apply (IH (done_ ++ [term])); apply Forall2_app; [done|constructor; [set_solver|constructor]]|].
    intros [[[fuzzy' sets']|] t']; cbn [fst]; [done|]. intros (w & Hw & Hn). exists w. split; [by right|done].
Qed.
Lemma several_words_pass full ix query limit pass : index_ok full ix ->
  ensures (query_simple_multi_term_pass now budget ix query limit pass) (fun answer =>
    match answer with
    | None => is_simple query = false \/ length (terms query) < 2
    | Some report => answers now ix query pass limit (report_hits report) /\
        (size (records ix) <= limit -> forall id, is_Some (records ix !! id) -> (forall term, term ∈ terms query -> id ∈ term_candidates ix term pass) ->
          id ∈ hit_id <$> report_hits report)
    end).
Proof.
  intros Hok. unfold query_simple_multi_term_pass. destruct (Nat.ltb_spec (length (terms query)) 2) as [Hl|Hl]; [apply ensures_ret; by right|].
  destruct (is_simple query) eqn:Hs; cbn [negb orb]; [|apply ensures_ret; by left]. cbv zeta. eapply ensures_bind; [apply ensures_true|]. intros prefixed _.
  eapply ensures_bind; [apply (ensures_candidate_sets ix pass (terms query) [] [] [] prefixed.2); constructor|]. intros [[[fuzzy sets]|] t]; cbn [fst snd app].
  - intros Hsets. destruct (min_by_key_some (fun s : gset FileId => size s) sets) as (anchor & E & Ha & _).
    { intros ->. apply Forall2_nil_inv_r in Hsets. rewrite Hsets in Hl. cbn in Hl. lia. }
    change (min_by_key size sets) with (min_by_key (fun s : gset FileId => size s) sets). rewrite E. eapply ensures_bind with (P := gathered now ix query pass limit (in_order anchor)).
    + change (in_order anchor) with ([] ++ in_order anchor) at 2. apply (ensures_for_prefix _ (gathered now ix query pass limit)); [apply gathered_new|]. intros pre m id Hg.
      unfold push_anchored. eapply ensures_bind; [apply ensures_true|]. intros _ _. destruct (records ix !! id) as [r|] eqn:Hr.
      * pose proof (ok_ids _ _ (ok_inner _ _ Hok) _ r Hr) as <-. eapply ensures_bind; [eapply settles_ensures with (P := eq (query_matches now ix r query pass)); [apply computes_settles, computes_query|done]|].
        intros b <-. apply ensures_ret. rewrite simple_matches by done. apply gathered_push; [unfold found; rewrite Hr; by apply simple_matches|done|done].
      * apply ensures_ret, gathered_skip; [unfold found; by rewrite Hr|done].
    + intros m Hg. apply ensures_ret. cbn [report_hits].
      assert (Hnd : NoDup (in_order anchor)) by apply lt_sorted_NoDup, sort_strict, NoDup_elements.
      destruct (gathered_answers now ix query pass limit _ m Hnd Hg) as [Hans Hc]. split; [done|]. intros Hsz id [r Hr] Hall. apply Hc; [done|]. split.
      * apply in_order_elem. apply list_elem_of_lookup in Ha as [i Hi]. destruct (Forall2_lookup_r _ _ _ _ _ Hsets Hi) as (term & Ht & Hsub). apply Hsub, Hall. by eapply list_elem_of_lookup_2.
      * unfold found. rewrite Hr. by apply simple_matches.
  - intros (term & Hin & Hn). apply ensures_ret. cbn [report_hits]. split; [apply answers_nil|]. intros _ id _ Hall. specialize (Hall term Hin). rewrite Hn in Hall. by apply elem_of_empty in Hall.
Qed.

(** The table of scores has what the expression asks for. *)
Lemma gains_intent intent scores r : gains scores (score_intent now intent scores r).
Proof. unfold score_intent. destruct (0 <? _)%Z; [apply gains_insert|apply gains_refl]. Qed.
Lemma ensures_scores ix query limit pass :
  ensures (score_query (St := St) now budget ix query limit pass) (fun scored => forall e, expression query = Some e ->
    match expression_candidates ix pass e with
    | Some ids => forall id, id ∈ ids -> is_Some (scored.1 !! id)
    | None => expression_needs_universe e = true -> forall r, r ∈ hash_values (records ix) -> is_Some (scored.1 !! record_id r)
    end).
Proof.
  unfold score_query. cbv zeta. set (value := match expression query with Some e => expression_candidates ix pass e | None => None end).
  eapply ensures_bind with (P := eq value).
  { subst value. destruct (expression query); [|by apply ensures_ret]. eapply settles_ensures; [apply settles_candidates|done]. }
  intros candidates <-. do 6 (eapply ensures_bind; [apply ensures_true|]; intros ? _). eapply ensures_bind; [apply ensures_true|]. intros [s1 t1] _. cbn [fst snd].
  eapply ensures_bind with (P := fun s2 => forall ids, value = Some ids -> forall id, id ∈ ids -> is_Some (s2 !! id)).
  { destruct value as [ids|]; [|by apply ensures_ret]. eapply ensures_weaken; [apply ensures_seed_scores|]. intros s [_ Hin] ids' [= <-] id Hid. by apply Hin, in_order_elem. }
  intros s2 H2. eapply ensures_bind with (P := gains s2).
  { destruct (intent_is_empty _); [apply ensures_ret, gains_refl|]. apply (ensures_for _ (gains s2)); [apply gains_refl|]. intros s r Hs. eapply ensures_bind; [apply ensures_true|]. intros _ _.
    apply ensures_ret. eapply gains_trans; [exact Hs|apply gains_intent]. }
  intros s3 H3. eapply ensures_bind with (P := fun s4 => gains s3 s4 /\ (wants_universe query value s3 = true -> forall r, r ∈ hash_values (records ix) -> is_Some (s4 !! record_id r))).
  { destruct (wants_universe query value s3); [|apply ensures_ret; split; [apply gains_refl|done]].
    eapply settles_ensures; [apply settles_for with (step := fun scores r => seed_entry (record_id r) scores); intros s r; eapply settles_bind; [apply settles_check|apply settles_ret]|].
    destruct (gains_fold (fun scores r => seed_entry (record_id r) scores) record_id (hash_values (records ix))) with (scores := s3) as [Hg Hin]; [intros s r; apply gains_seed|].
    split; [exact Hg|]. intros _. exact Hin. }
  intros s4 [H4 H4']. apply ensures_ret. cbn [fst]. intros e He.
  assert (Hb : forall id, is_Some (s4 !! id) -> is_Some (boost_scores now ix query pass s4 !! id)).
  { intros id [rank Hr]. unfold boost_scores. rewrite map_lookup_imap, Hr. by eexists. }
  subst value. rewrite He in *. destruct (expression_candidates ix pass e) as [ids|].
  - intros id Hid. apply Hb, H4, H3. by eapply H2.
  - intros Hu r Hr. apply Hb, H4'; [|done]. unfold wants_universe. by rewrite He, Hu.
Qed.
Lemma general_pass full ix query limit pass scored : index_ok full ix ->
  ensures (hits <- mfor (push_scored (St := St) now ix query pass (fun _ => 0%Z)) (new_merge limit) (map_to_list (scored : gmap FileId RankAccumulator * SearchLookupTelemetry).1) ;
    let hits := into_sorted_hits hits in check_control ;; mret (mkReport hits scored.2))
  (fun report => answers now ix query pass limit (report_hits report) /\
    (size (records ix) <= limit -> forall id, id ∈ hit_id <$> report_hits report <-> is_Some (scored.1 !! id) /\ found now ix query pass id = true)).
Proof.
  intros Hok. eapply ensures_bind with (P := gathered now ix query pass limit (map_to_list scored.1).*1).
  - eapply ensures_weaken; [apply (ensures_for_prefix _ (fun pre => gathered now ix query pass limit pre.*1) _ []); [apply gathered_new|]|done].
    intros pre m it Hgm. rewrite fmap_app. by eapply ensures_push_scored.
  - intros m Hg. cbv zeta. eapply ensures_bind; [apply ensures_true|]. intros _ _. apply ensures_ret. cbn [report_hits].
    destruct (gathered_answers now ix query pass limit _ m (NoDup_fst_map_to_list _) Hg) as [Ha Hc]. split; [done|]. intros Hl id. rewrite Hc by done.
    apply and_iff_compat_r. rewrite list_elem_of_fmap. split; [intros ([i rank] & -> & Hin%elem_of_map_to_list); by exists rank|].
    intros [rank Hr]. exists (id, rank). split; [done|]. by apply elem_of_map_to_list.
Qed.
End Passes.

(** ** Properties that every pass has

    A property of computations that values and polls have and sequences keep is one of
    every pass, when it is one of the look-ups. *)
Record lawful {St} (P : forall A, M St A -> Prop) : Prop := {
  lawful_settles A (m : M St A) a : settles m a -> P A m;
  lawful_bind A B (m : M St A) (f : A -> M St B) : P A m -> (forall a, P A m -> P B (f a)) -> P B (mbind m f)
}.
Record lawful_lookup {St} `{SearchLookup St} (P : forall A, M St A -> Prop) : Prop := {
  lawful_prefix key limit : P _ (lookup_prefix_ids (St := St) key limit);
  lawful_substring key limit : P _ (lookup_substring_ids (St := St) key limit);
  lawful_fuzzy key limit : P _ (lookup_fuzzy_terms (St := St) key limit)
}.
Section Lawful.
Context `{Unicode} {St : Type} (now : SystemTime) `{SearchLookup St} (budget : SearchLookupBudget).
Context (P : forall A, M St A -> Prop) (laws : lawful P) (lookups : lawful_lookup P).
Implicit Types (ix : SearchIndex) (id : FileId) (scores : gmap FileId RankAccumulator) (query : SearchQuery) (pass : SearchPass).
Lemma has_computes {A} (m : M St A) a : computes m a -> P _ m.
Proof. intros Hm. eapply lawful_settles, computes_settles, Hm. done. Qed.
Lemma has_ret {A} (a : A) : P _ (mret a).
Proof. eapply has_computes, computes_ret. Qed.
Lemma has_check : P _ check_control.
Proof. eapply has_computes, computes_check. Qed.
Lemma has_bind {A B} (m : M St A) (f : A -> M St B) : P _ m -> (forall a, P _ (f a)) -> P _ (mbind m f).
Proof. intros Hm Hf. by apply lawful_bind. Qed.
Lemma has_for {A B} (body : B -> A -> M St B) l : forall acc, (forall b x, P _ (body b x)) -> P _ (mfor body acc l).
Proof. induction l as [|x l IH]; intros acc Hb; cbn [mfor]; [apply has_ret|]. apply has_bind; [apply Hb|]. intros b. by apply IH. Qed.
Lemma has_stride index : P _ (stride_check index).
Proof. eapply has_computes, computes_stride. Qed.
Lemma has_strided {A B} (body : B -> A -> M St B) l : (forall b x, P _ (body b x)) -> forall index acc, P _ (strided body index acc l).
Proof.
  intros Hb. induction l as [|x l IH]; intros index acc; cbn [strided]; [apply has_ret|]. apply has_bind; [apply has_stride|]. intros _. apply has_bind; [apply Hb|]. intros b. apply IH.
Qed.
Lemma has_matches ix r query pass : P _ (record_matches_query_cancellable now ix r query pass).
Proof. eapply has_computes, computes_query. Qed.
Lemma has_term_candidates ix term pass : P _ (term_candidate_ids_cancellable ix term pass).
Proof. eapply has_computes, computes_term_candidates. Qed.
Lemma has_candidates ix pass e : P _ (expression_candidate_ids_cancellable ix pass e).
Proof. eapply lawful_settles, settles_candidates. done. Qed.
Lemma has_record_phrase ix phrase : P _ (record_phrase_ids_cancellable ix phrase).
Proof. destruct (computes_record_phrase (St := St) ix phrase) as (ids & Hc & _). by eapply has_computes. Qed.
Lemma has_content_phrase ix phrase : P _ (content_phrase_ids_cancellable ix phrase).
Proof. eapply has_computes, computes_content_phrase. Qed.
Lemma has_proximity ix proximity : P _ (content_proximity_ids_cancellable ix proximity).
Proof. eapply has_computes, computes_content_proximity. Qed.
(** By the structure of the computation. *)
Ltac succ := repeat match goal with
  | |- forall _, _ => intro
  | |- P _ (let _ := _ in _) => cbv zeta
  | |- P _ (mret _) => apply has_ret
  | |- P _ check_control => apply has_check
  | |- P _ (stride_check _) => apply has_stride
  | |- P _ (mbind _ _) => apply has_bind
  | |- P _ (mfor _ _ _) => apply has_for
  | |- P _ (strided _ _ _ _) => apply has_strided
  | |- P _ (lookup_prefix_ids _ _) => apply (lawful_prefix P lookups)
  | |- P _ (lookup_substring_ids _ _) => apply (lawful_substring P lookups)
  | |- P _ (lookup_fuzzy_terms _ _) => apply (lawful_fuzzy P lookups)
  | |- P _ (record_matches_query_cancellable _ _ _ _ _) => apply has_matches
  | |- P _ (if ?b then _ else _) => destruct b
  | |- P _ (match ?x with _ => _ end) => destruct x
  | |- _ => solve [eauto with ctl nocore]
  end.
Lemma has_fuzzy_ids ix term t : P _ (fuzzy_ids (St := St) budget ix term t).
Proof. unfold fuzzy_ids, fuzzy_key_step, fuzzy_candidates. succ. Qed.
Lemma has_prefix_ids ix term t : P _ (name_prefix_ids (St := St) budget ix term t).
Proof. unfold name_prefix_ids. succ. Qed.
Lemma has_gram_sets ix grams : forall index sets t, P _ (gram_sets (St := St) budget ix index sets t grams).
Proof. induction grams as [|gram grams IH]; intros index sets t; cbn [gram_sets]; unfold gram_ids; succ; apply IH. Qed.
Lemma has_retain_all sets : forall index candidates, P _ (retain_all index candidates sets).
Proof. induction sets as [|s sets IH]; intros index c; cbn [retain_all]; succ; apply IH. Qed.
Lemma has_substring_ids ix term t : P _ (name_substring_ids (St := St) budget ix term t).
Proof. unfold name_substring_ids. succ; [apply has_gram_sets|apply has_retain_all]. Qed.
Lemma has_add_scores points reason ids scores : P _ (add_scores_cancellable points reason ids scores).
Proof. unfold add_scores_cancellable. succ. Qed.
Lemma has_add_posting points reason ids scores : P _ (add_posting_scores points reason ids scores).
Proof. unfold add_posting_scores. destruct ids; [apply has_add_scores|succ]. Qed.
Lemma has_add_fuzzy ix term ids scores : P _ (add_fuzzy_scores ix term ids scores).
Proof. unfold add_fuzzy_scores. succ. Qed.
Lemma has_push_scored ix query pass extra hits it : P _ (push_scored now ix query pass extra hits it).
Proof. unfold push_scored. succ. Qed.
Lemma has_candidate_sets ix pass ts : forall fuzzy sets t, P _ (term_candidate_sets (St := St) budget ix pass fuzzy sets t ts).
Proof.
  induction ts as [|term ts IH]; intros fuzzy sets t; cbn [term_candidate_sets]; succ; first [apply has_fuzzy_ids|apply has_term_candidates|apply IH].
Qed.
#[local] Hint Resolve has_fuzzy_ids has_prefix_ids has_substring_ids has_add_scores has_add_posting has_add_fuzzy has_push_scored
  has_candidate_sets has_candidates has_record_phrase has_content_phrase has_proximity : ctl.
Lemma has_pass ix query limit pass : P _ (query_pass (St := St) now budget ix query limit pass).
Proof.
  unfold query_pass, query_simple_single_term_pass, query_simple_multi_term_pass, score_query, push_content, push_anchored, add_term_scores, add_content_scores,
    add_term_fuzzy_scores, add_phrase_scores, add_proximity_scores, seed_scores_cancellable. succ.
Qed.
End Lawful.
Lemma empty_lawful {St} (P : forall A, M St A -> Prop) : lawful P -> @lawful_lookup St EmptySearchLookup P.
Proof.
  intros laws. assert (Hp : forall A (a : A), P A (polled_lookup (mret a))).
  { intros A a. unfold polled_lookup. apply has_bind; [done|by apply has_check|]. intros _. apply has_bind; [done|by apply has_ret|].
    intros r. apply has_bind; [done|by apply has_check|]. intros _. by apply has_ret. }
  split; intros key limit; apply Hp.
Qed.

(** Nothing fails but polls and look-ups. *)
Class SuccessfulLookup (St : Type) `{SearchLookup St} : Prop := successful : lawful_lookup (St := St) (fun A => completes).
Lemma completes_lawful {St} : lawful (St := St) (fun A => completes).
Proof. split; [intros A m a; apply settles_succeeds|]. intros A B m f Hm Hf. apply completes_bind; [done|]. intros a. by apply Hf. Qed.
#[export] Instance empty_succeeds {St} : @SuccessfulLookup St EmptySearchLookup.
Proof. apply empty_lawful, completes_lawful. Qed.
Lemma completes_pass `{Unicode} {St : Type} (now : SystemTime) `{SuccessfulLookup St} (budget : SearchLookupBudget) ix query limit pass :
  completes (query_pass (St := St) now budget ix query limit pass).
Proof. apply (has_pass now budget (fun A => completes)); [apply completes_lawful|apply successful]. Qed.
(** Without archives a pass has one value. *)
Definition steady {St} (A : Type) (m : M St A) : Prop := exists a, settles m a.
Lemma steady_lawful {St} : lawful (@steady St).
Proof.
  split; [intros A m a Hm; by exists a|]. intros A B m f Hm Hf. destruct Hm as [a Hm]. destruct (Hf a (ex_intro _ a Hm)) as [b Hb]. exists b. by eapply settles_bind.
Qed.
Lemma steady_pass `{Unicode} {St : Type} (now : SystemTime) budget ix query limit pass :
  exists report, settles (query_pass (St := St) (H0 := EmptySearchLookup) now budget ix query limit pass) report.
Proof. apply (has_pass (H0 := EmptySearchLookup) now budget steady); [apply steady_lawful|apply empty_lawful, steady_lawful]. Qed.

(** ** Any pass *)
Lemma pass_answers `{Unicode} {St : Type} (now : SystemTime) `{SearchLookup St} (budget : SearchLookupBudget) (full : bool) (ix : SearchIndex)
  (query : SearchQuery) (limit : nat) (pass : SearchPass) : index_ok full ix ->
  ensures (query_pass (St := St) now budget ix query limit pass) (fun report => answers now ix query pass limit (report_hits report)).
Proof.
  intros Hok. unfold query_pass. eapply ensures_bind; [apply ensures_true|]. intros _ _.
  destruct (is_empty query || Nat.eqb limit 0); [apply ensures_ret, answers_nil|].
  eapply ensures_bind; [by eapply one_word_pass|]. intros [report|] Ha; [apply ensures_ret, Ha|]. clear Ha.
  eapply ensures_bind; [by eapply several_words_pass|]. intros [report|] Ha; [apply ensures_ret, Ha|]. clear Ha.
  eapply ensures_bind; [apply ensures_true|]. intros scored _. eapply ensures_weaken; [by eapply general_pass|]. by intros report [Ha _].
Qed.

(** ** Streams *)
Section Streams.
Context `{Unicode} {St : Type} (now : SystemTime).
Implicit Types (ix : SearchIndex) (query : SearchQuery).
Definition stage_batch (stage : SearchStreamStage) (hits : list SearchHit) : list SearchStreamBatch := if decide (hits = []) then [] else [mkBatch stage hits].
(** The hits of the full pass that a stream shows: for records not yet shown, or with a
    higher score. *)
Definition news (hot full : list SearchHit) : list SearchHit := filter (fun hit => is_news (seen_scores hot) hit = true) full.
Definition may_have_deep_delta ix query : bool :=
  negb (bool_decide (proximities query = [])) || existsb (term_may_have_deep_delta ix) (terms query) || existsb (phrase_may_have_deep_delta ix) (phrases query) ||
  match expression query with Some e => expression_may_have_deep_delta ix e | None => false end.
Lemma settles_polled_any {A} (test : A -> bool) rest b l : settles (S := St) rest b -> settles (polled_any test rest l) (existsb test l || b).
Proof.
  intros Hr. induction l as [|x l IH]; cbn [polled_any existsb]; [done|]. eapply settles_bind; [apply settles_check|]. destruct (test x); [apply settles_ret|exact IH].
Qed.
Lemma settles_delta ix query : settles (S := St) (query_may_have_deep_delta_cancellable ix query) (may_have_deep_delta ix query).
Proof.
  unfold query_may_have_deep_delta_cancellable, may_have_deep_delta. eapply settles_bind; [apply settles_check|]. case_decide as Hp.
  - rewrite bool_decide_false by done. apply settles_ret.
  - rewrite bool_decide_true by (destruct (proximities query); [done|by destruct Hp]). cbn [negb orb]. rewrite <- orb_assoc. apply settles_polled_any, settles_polled_any, settles_ret.
Qed.
Lemma seen_scores_spec hot : NoDup (hit_id <$> hot) -> forall id score, seen_scores hot !! id = Some score <-> exists shown, shown ∈ hot /\ hit_id shown = id /\ hit_score shown = score.
Proof.
  unfold seen_scores. set (step := fun (seen : gmap FileId Z) hit => _).
  assert (Hg : forall seen : gmap FileId Z, NoDup (hit_id <$> hot) -> forall id score, foldl step seen hot !! id = Some score <->
    (exists shown, shown ∈ hot /\ hit_id shown = id /\ hit_score shown = score) \/ ((id ∈ hit_id <$> hot -> False) /\ seen !! id = Some score)).
  { induction hot as [|hit hot IH]; intros seen Hnd id score; cbn [foldl]; [split; [intros Hs; right; split; [by intros ?%elem_of_nil|done]|intros [(? & ?%elem_of_nil & _)|[_ ?]]; done]|].
    rewrite fmap_cons in Hnd. apply NoDup_cons in Hnd as [Hn Hnd]. rewrite IH by done. unfold step. change (record_id (hit_record hit)) with (hit_id hit). rewrite lookup_insert_Some.
    rewrite fmap_cons. setoid_rewrite elem_of_cons. split.
    - intros [(shown & Hin & E)|[Hx [[<- <-]|[Hne Hs]]]]; [left; exists shown; tauto|left; exists hit; tauto|]. right. split; [|done]. intros [->|?]; tauto.
    - intros [(shown & [->|Hin] & <- & <-)|[Hx Hs]].
      + right. split; [done|]. by left.
      + left. by exists shown.
      + right. split; [tauto|]. right. split; [|done]. intros E. apply Hx. by left. }
  intros Hnd id score. rewrite Hg by done. rewrite lookup_empty. split; [by intros [?|[_ ?]]|by left].
Qed.
Lemma is_news_spec hot hit : NoDup (hit_id <$> hot) ->
  if is_news (seen_scores hot) hit then forall shown, shown ∈ hot -> hit_id shown = hit_id hit -> (hit_score shown < hit_score hit)%Z
  else exists shown, shown ∈ hot /\ hit_id shown = hit_id hit /\ (hit_score hit <= hit_score shown)%Z.
Proof.
  intros Hnd. pose proof (seen_scores_spec hot Hnd (hit_id hit)) as Hs. unfold is_news. change (record_id (hit_record hit)) with (hit_id hit).
  destruct (seen_scores hot !! hit_id hit) as [score|].
  - destruct (proj1 (Hs score) eq_refl) as (shown & Hin & Ei & <-). destruct (Z.ltb_spec (hit_score shown) (hit_score hit)); [|exists shown; tauto].
    intros other Ho Eo. assert (E : Some (hit_score shown) = Some (hit_score other)) by (apply Hs; by exists other). congruence.
  - intros shown Hin Ei. exfalso. assert (E : None = Some (hit_score shown)) by (apply Hs; by exists shown). done.
Qed.
End Streams.

(** ** Theorems *)

(** C10: Queries answer with records that match. On an index that keeps its invariant,
    whatever the query, the pass, the budget, and whatever the archives answer (or
    another thread does to their caches), a query that returns has hits for records of
    the index only, each of which matches the query (as
    [record_matches_query_cancellable] decides, which looks at no plain words when the
    query has no expression), each once, no more than the limit, in falling order; and
    it returns unless a poll or a look-up fails. *)
Theorem query_answers `{Unicode} {St : Type} (now : SystemTime) `{SearchLookup St} (budget : SearchLookupBudget) (full : bool) (ix : SearchIndex)
  (query : SearchQuery) (limit : nat) (pass : SearchPass) : index_ok full ix ->
  ensures (query_pass (St := St) now budget ix query limit pass) (fun report => answers now ix query pass limit (report_hits report)) /\
  (SuccessfulLookup St -> completes (query_pass (St := St) now budget ix query limit pass)).
Proof.
  intros Hok. split; [by eapply pass_answers|]. intros Hs. exact (completes_pass now budget ix query limit pass).
Qed.

(** C11: Expressions are complete over an index none of whose records' keys or postings
    is left to an archive or was taken from one (built by ingestion alone, no side-table
    of an opened store joined to it). A query whose expression is made of words,
    filters, negations, conjunctions that are not empty and disjunctions (the filters on
    names and paths, phrases and proximities only negated), with a limit no less than
    the number of records, has a hit for every record that meets it, each word being one
    of its words: the candidates taken from the maps lose none. Without words its hits
    are exactly the records that match. *)
Theorem expressions_complete `{Unicode} {St : Type} (now : SystemTime) `{SearchLookup St} (budget : SearchLookupBudget) (ix : SearchIndex)
  (query : SearchQuery) (e : QueryExpr) (limit : nat) (pass : SearchPass) :
  index_ok true ix -> expression query = Some e -> covered e = true -> size (records ix) <= limit ->
  ensures (query_pass (St := St) now budget ix query limit pass) (fun report =>
    (forall id r, records ix !! id = Some r -> meets now ix r pass e = true -> id ∈ hit_id <$> report_hits report) /\
    (wordless e = true -> forall id, id ∈ hit_id <$> report_hits report <-> exists r, records ix !! id = Some r /\ expression_matches now ix r pass e = true)).
Proof.
  intros Hok He Hc Hl. apply ensures_weaken with (P := fun report =>
    (forall id, id ∈ hit_id <$> report_hits report -> exists r, records ix !! id = Some r /\ expression_matches now ix r pass e = true) /\
    forall id r, records ix !! id = Some r -> meets now ix r pass e = true -> id ∈ hit_id <$> report_hits report).
  2:{ intros report [Hs Hm]. split; [done|]. intros Hw id. split; [apply Hs|]. intros (r & Hr & Hx). apply (Hm id r Hr). by rewrite wordless_meets. }
  unfold query_pass. eapply ensures_bind; [apply ensures_true|]. intros _ _. assert (Hne : is_empty query = false) by (unfold is_empty; by rewrite He, andb_false_r).
  rewrite Hne. cbn [orb]. assert (Hs : is_simple query = false) by (unfold is_simple; by rewrite He). destruct (Nat.eqb_spec limit 0) as [E|_].
  { apply ensures_ret. cbn [report_hits]. split; [by intros id ?%elem_of_nil|]. intros id r Hr. assert (Hn : records ix = ∅) by (apply map_size_empty_inv; lia). by rewrite Hn, lookup_empty in Hr. }
  eapply ensures_bind with (P := eq None).
  { unfold query_simple_single_term_pass. rewrite Hs. cbn [negb]. destruct (terms query) as [|? [|]]; by apply ensures_ret. }
  intros ? <-. eapply ensures_bind with (P := eq None); [unfold query_simple_multi_term_pass; rewrite Hs; cbn [negb]; rewrite orb_true_r; by apply ensures_ret|].
  intros ? <-. eapply ensures_bind; [apply ensures_scores|]. intros scored Hsc. specialize (Hsc e He). eapply ensures_weaken; [by eapply general_pass|]. intros report [_ Hx].
  specialize (Hx Hl). unfold found, query_matches in Hx. rewrite He in Hx. split.
  { intros id [_ Hf]%Hx. destruct (records ix !! id) as [r|]; [by exists r|done]. }
  intros id r Hr Hm. apply Hx. rewrite Hr. split; [|by apply meets_matches]. pose proof (ok_ids _ _ (ok_inner _ _ Hok) _ r Hr) as <-.
  destruct (expression_candidates ix pass e) as [ids|] eqn:Ec.
  - apply Hsc. by eapply (covered_candidates now ix pass e).
  - apply Hsc; [by apply (covered_universe ix pass)|]. unfold hash_values. apply list_elem_of_fmap. exists (record_id r, r). split; [done|]. by apply elem_of_map_to_list.
Qed.

(** The short ways lose no record.  On an index that keeps its invariant and has nothing left to
    an archive or taken from one ([index_ok true]) a query of
    plain words with no expression, with a limit no less than the number of records, has a
    hit for every record that has each of the words: in its name, its path or its metadata, as its extension or a tag,
    or in its content when the pass is deep; whichever of the two short ways answers it. *)
Theorem words_found `{Unicode} {St : Type} (now : SystemTime) `{SearchLookup St} (budget : SearchLookupBudget) (ix : SearchIndex)
  (query : SearchQuery) (limit : nat) (pass : SearchPass) :
  index_ok true ix -> is_simple query = true -> terms query <> [] -> size (records ix) <= limit ->
  ensures (query_pass (St := St) now budget ix query limit pass) (fun report =>
    forall id, is_Some (records ix !! id) -> (forall term, term ∈ terms query -> word_in ix pass term id = true) -> id ∈ hit_id <$> report_hits report).
Proof.
  intros Hok Hs Ht Hl. unfold query_pass. eapply ensures_bind; [apply ensures_true|]. intros _ _.
  assert (He : is_empty query = false) by (unfold is_empty; rewrite bool_decide_false; [done|tauto]).
  rewrite He. cbn [orb]. destruct (Nat.eqb_spec limit 0) as [E|_].
  { apply ensures_ret. intros id [r Hr] _. assert (Hn : records ix = ∅) by (apply map_size_empty_inv; lia). by rewrite Hn, lookup_empty in Hr. }
  eapply ensures_bind; [by eapply one_word_pass|]. intros [report|] Ha.
  - apply ensures_ret. destruct Ha as (_ & term & E & Ha). intros id Hr Hw. rewrite E in Hw. apply Ha; [done|done|].
    apply (word_in_posted ix pass term id Hok), Hw. by left.
  - assert (Hlen : 2 <= length (terms query)).
    { destruct Ha as [Ha|Ha]; [congruence|]. destruct (terms query) as [|? [|]]; cbn in *; [done|lia|lia]. }
    eapply ensures_bind; [by eapply several_words_pass|]. intros [report|] Hb; [|destruct Hb as [Hb|Hb]; [congruence|lia]].
    apply ensures_ret. destruct Hb as [_ Hb]. intros id Hr Hw. apply Hb; [done|done|]. intros term Hin. by apply (word_in_candidate ix pass term id Hok), Hw.
Qed.

(** C17: Streams. Without archives the hot pass, the full pass and the stream each have
    one value, which they return, changing nothing, unless a poll stops them. The stream
    is the hits of the hot pass in a batch, then, if the index may have deep postings
    for the query ([may_have_deep_delta]), the news of the full pass in a second; a
    batch without hits is left out. The news are exactly the hits of the full pass whose
    record the hot pass did not show with as high a score: when there are deep postings
    nothing of the full pass is lost, and no record is shown again without a higher
    score. Both passes answer with records that match. (Where [may_have_deep_delta] is
    false the stream is the hot pass alone, which can be less than the full pass:
    stream_loses.) *)
Theorem stream_answers `{Unicode} {St : Type} (s0 : St) (now : SystemTime) (full : bool) (ix : SearchIndex) (query : SearchQuery) (limit : nat) : index_ok full ix ->
  exists hot all,
    settles (query_pass (St := St) (H0 := EmptySearchLookup) now default_budget ix query limit Hot) hot /\
    settles (query_pass (St := St) (H0 := EmptySearchLookup) now default_budget ix query limit Full) all /\
    settles (stream_structured_cancellable (St := St) now ix query limit)
      (stage_batch HotStage (report_hits hot) ++
       (if may_have_deep_delta ix query then stage_batch DeepStage (news (report_hits hot) (report_hits all)) else [])) /\
    answers now ix query Hot limit (report_hits hot) /\ answers now ix query Full limit (report_hits all) /\
    forall hit, hit ∈ news (report_hits hot) (report_hits all) <->
      hit ∈ report_hits all /\ forall shown, shown ∈ report_hits hot -> hit_id shown = hit_id hit -> (hit_score shown < hit_score hit)%Z.
Proof.
  intros Hok. destruct (steady_pass (St := St) now default_budget ix query limit Hot) as [hot Hhot], (steady_pass (St := St) now default_budget ix query limit Full) as [all Hall].
  exists hot, all. assert (Ha : forall pass report, settles (query_pass (St := St) (H0 := EmptySearchLookup) now default_budget ix query limit pass) report ->
    answers now ix query pass limit (report_hits report)).
  { intros pass report Hs. destruct Hs as [Hr _]. destruct (Hr s0 0) as [k Hk]. by eapply (pass_answers (H0 := EmptySearchLookup) now default_budget full ix query limit pass Hok). }
  assert (Hempty : (is_empty query || Nat.eqb limit 0) = true -> forall pass report,
    settles (query_pass (St := St) (H0 := EmptySearchLookup) now default_budget ix query limit pass) report -> report_hits report = []).
  { intros He pass report [Hr _]. destruct (Hr s0 0) as [k Hk]. unfold query_pass in Hk. rewrite He in Hk. unfold mbind, check_control in Hk. cbn in Hk. by injection Hk as <-. }
  split_and!; [done|done| |by apply Ha|by apply Ha|].
  - unfold stream_structured_cancellable. cbv zeta. eapply settles_bind; [apply settles_check|]. destruct (is_empty query || Nat.eqb limit 0) eqn:E.
    + rewrite (Hempty eq_refl Hot hot Hhot), (Hempty eq_refl Full all Hall). cbn. destruct (may_have_deep_delta ix query); apply settles_ret.
    + eapply settles_bind; [exact Hhot|]. eapply settles_bind; [apply settles_check|]. eapply settles_bind; [apply settles_delta|].
      destruct (may_have_deep_delta ix query); cbn [negb].
      * eapply settles_bind; [exact Hall|]. eapply settles_bind; [apply settles_check|]. fold (news (report_hits hot) (report_hits all)).
        set (deep := news _ _). unfold stage_batch. destruct (decide (deep = [])); [rewrite app_nil_r|]; apply settles_ret.
      * rewrite app_nil_r. eapply settles_bind; [apply settles_check|apply settles_ret].
  - intros hit. unfold news. rewrite list_elem_of_filter. pose proof (is_news_spec (report_hits hot) hit (ans_once _ _ _ _ _ _ (Ha Hot hot Hhot))) as Hn.
    destruct (is_news _ hit); [tauto|]. split; [by intros [? _]|]. intros [_ Hx]. destruct Hn as (shown & Hin & Ei & Hle). specialize (Hx shown Hin Ei). lia.
Qed.
