(* ===== verification/StoreWitness.v ===== *)
(** * Archives, look-ups, the index and its queries: the theorems at concrete inputs *)
From Stdlib Require Import Ascii.
From S2P Require Import Prelude Types Text Order Chars Records Control Fuzzy Query FileSystem FileFacts TextFiles Publish TrashMeta Machine OpWitness Inverted Codec StoreIds StoreIdsSpec Durable Utf8 PostingStore PostingStoreSpec PrefixStore SubstringStore FuzzyStore StoreSpec IndexSpec LookupCache ArchiveLookup ArchiveLookupSpec Hits QueryParse SearchIndex SearchIndexSpec ContentSearch SearchMatch SearchMatchSpec QueryPass QueryPassSpec.
#[local] Open Scope list_scope.
#[local] Existing Instance ascii_unicode.

Definition named (v n : N) (name : string) : FileRecord :=
  mkRecord (mkFileId v n) None (lit "/d") (lit name) File 0 0 0 0 0 None None None false [] None.
Definition some_records : list FileRecord := [named 1 7 "Red Colour.txt"; named 2 3 "colour42"; named 1 2 "red"].
Lemma some_records_ok : records_ok some_records.
Proof. split; [reflexivity|]. apply (bool_decide_unpack _). by vm_compute. Qed.

Abbreviation prefix_rows := (prefix_postings_from_records some_records).
Abbreviation substring_rows := (substring_postings_from_records some_records).
Abbreviation fuzzy_rows := (fuzzy_postings_from_records some_records).
Lemma prefix_rows_small : (N.of_nat (length (archive_bytes (st := prefix_store) prefix_rows)) < U64)%N.
Proof. by vm_compute. Qed.
Lemma substring_rows_small : (N.of_nat (length (archive_bytes (st := substring_store) substring_rows)) < U64)%N.
Proof. by vm_compute. Qed.
Lemma fuzzy_rows_small : (N.of_nat (length (archive_bytes (st := fuzzy_store) fuzzy_rows)) < U64)%N.
Proof. by vm_compute. Qed.

Lemma prefix_index_spec_witness : exists a, written_opens prefix_store prefix_rows ["i"] a /\
  outcome (values_for_checked prefix_store a (lit "RED ")) never tt (Ok [mkFileId 1 2; mkFileId 1 7]) tt.
Proof.
  destruct (proj1 (prefix_index_spec some_records ["i"] some_records_ok prefix_rows_small)) as (a & Ha & Hs). exists a. split; [exact Ha|].
  pose proof (serves_all _ _ _ Hs unit never (lit "RED ") tt) as Hx. cbv beta in Hx.
  replace (ids_where (prefixed (normalize (lit "RED "))) some_records) with [mkFileId 1 2; mkFileId 1 7] in Hx by (vm_compute; reflexivity).
  exact Hx.
Defined.
Lemma substring_index_spec_witness : exists a, written_opens substring_store substring_rows ["i"] a /\
  outcome (values_for_checked substring_store a (lit "Our")) never tt (Ok [mkFileId 1 7; mkFileId 2 3]) tt.
Proof.
  destruct (proj1 (substring_index_spec some_records ["i"] some_records_ok substring_rows_small)) as (a & Ha & Hs). exists a. split; [exact Ha|].
  pose proof (serves_all _ _ _ Hs unit never (lit "Our") tt) as Hx. cbv beta in Hx.
  replace (ids_where (containing (normalize (lit "Our"))) some_records) with [mkFileId 1 7; mkFileId 2 3] in Hx by (vm_compute; reflexivity).
  exact Hx.
Defined.

Lemma fuzzy_index_spec_witness : exists a, written_opens fuzzy_store fuzzy_rows ["i"] a /\
  exists terms, outcome (values_for_checked fuzzy_store a (lit "colr")) never tt (Ok terms) tt /\ lit "colour" ∈ terms.
Proof.
  destruct (fuzzy_index_spec some_records ["i"] ltac:(apply (bool_decide_unpack _); vm_compute; exact I) fuzzy_rows_small ltac:(vm_compute; reflexivity))
    as (a & Ha & Hs). exists a. split; [exact Ha|].
  destruct (Hs unit never (lit "colr") tt) as (terms & Ho & _ & Ht). exists terms. split; [exact Ho|]. apply Ht.
  split; [split; [vm_compute; reflexivity|exists (named 1 7 "Red Colour.txt"); split; apply (bool_decide_unpack _); vm_compute; exact I]|].
  split; [vm_compute; discriminate|]. split; [|vm_compute; lia].
  vm_compute. repeat constructor.
Defined.
Lemma substring_gram_lost_witness :
  (exists ids, mkPosting (lit "ed ") ids ∈ substring_rows /\ mkFileId 1 7 ∈ ids) /\
  exists a, written_opens substring_store substring_rows ["i"] a /\
    outcome (values_for_checked substring_store a (lit "ed ")) never tt (Ok []) tt.
Proof.
  destruct (substring_gram_lost some_records ["i"] (named 1 7 "Red Colour.txt") (lit "ed ") 32 some_records_ok substring_rows_small) as (H1 & a & Ha & Hs).
  - by left.
  - vm_compute. reflexivity.
  - right. reflexivity.
  - reflexivity.
  - split; [exact H1|]. exists a. split; [exact Ha|apply Hs].
Defined.

(** *** Any store *)
Definition some_postings : list (Posting FileId) :=
  [mkPosting (lit "red") [mkFileId 2 1; mkFileId 1 9; mkFileId 2 1]; mkPosting (lit "Ab ") [mkFileId 0 5]; mkPosting (lit "blue") []].
Lemma some_postings_ok : postings_ok (st := prefix_store) (values_ok := vec_ok) some_postings.
Proof.
  split; [apply (bool_decide_unpack _); by vm_compute|]. split; [|by vm_compute].
  repeat constructor; unfold scalar, id_ok, u64_ok, U64; cbn; lia.
Qed.
Lemma archive_round_trip_witness : exists a, written_opens prefix_store some_postings ["i"] a /\
  outcome (postings prefix_store a) never tt
    (Ok [mkPosting (lit "ab") [mkFileId 0 5]; mkPosting (lit "blue") []; mkPosting (lit "red") [mkFileId 1 9; mkFileId 2 1]]) tt.
Proof.
  destruct (archive_round_trip prefix_store vec_ok sort_dedup some_postings ["i"] some_postings_ok) as (a & Ha & Hp & _).
  exists a. split; [exact Ha|]. pose proof (Hp unit never tt) as Hx.
  replace ((fun p => mkPosting (normalize (posting_key p)) (sort_dedup (posting_values p))) <$> sort_postings some_postings)
    with [mkPosting (lit "ab") [mkFileId 0 5]; mkPosting (lit "blue") []; mkPosting (lit "red") [mkFileId 1 9; mkFileId 2 1]] in Hx
    by (vm_compute; reflexivity).
  exact Hx.
Defined.
Abbreviation some_archive := (opened (st := prefix_store) some_postings ["i"]).
Lemma some_archive_holds : holds (st := prefix_store) (values_ok := vec_ok) some_archive (sort_postings some_postings).
Proof. apply opened_holds, some_postings_ok. Qed.
Lemma archive_lookup_spec_witness :
  outcome (values_for_limit_checked prefix_store some_archive (lit " RED") 1) never tt (Ok ([mkFileId 1 9], true)) tt.
Proof.
  destruct (archive_lookup_spec prefix_store vec_ok sort_dedup some_archive _ some_archive_holds unit never tt) as (_ & _ & Hl & _).
  specialize (Hl (lit " RED") 1%N ltac:(discriminate)).
  replace (answer (st := prefix_store) (canon := sort_dedup) (sort_postings some_postings) (normalize (lit " RED")))
    with (Some (mkPosting (lit "red") [mkFileId 1 9; mkFileId 2 1])) in Hl by (vm_compute; reflexivity).
  exact Hl.
Defined.
Lemma batch_lookup_spec_witness :
  outcome (postings_for_sorted_limit_checked prefix_store some_archive [lit "red"; lit "blue"] 5) never tt
    (Err (batch_error (st := prefix_store) some_archive)) tt.
Proof.
  pose proof (batch_lookup_spec prefix_store vec_ok sort_dedup some_archive _ some_archive_holds unit never [lit "red"; lit "blue"] 5 tt) as Hb.
  cbv zeta in Hb. rewrite decide_False in Hb by discriminate. rewrite decide_False in Hb; [exact Hb|].
  intros Hs. apply StronglySorted_inv in Hs as [_ Hs]. apply Forall_inv in Hs. apply Hs. vm_compute. reflexivity.
Defined.

(** *** On disk *)
#[export] Instance plain_mmap : Mmap.
Proof. refine {| mmap_bytes b := Ok b |}. done. Defined.
Definition index_path : FPath := ["db"; "i"].
Definition index_tree : Fs := grove [(["db"], ShDir); (["db"; "i"], ShFile (text_bytes "old"))].
Lemma index_tree_writable : Publish.writable index_path (Durable.temporary_path index_path) index_tree.
Proof.
  split; [apply grove_wf; by vm_compute|]. split; [exists ["db"]; split; [done|by vm_compute]|]. split; [|by vm_compute].
  intros n. apply grove_free; [done|]. cbn [fmap list_fmap fst]. intros Hin.
  repeat (apply elem_of_cons in Hin as [Hin|Hin]; [discriminate|]). by apply elem_of_nil in Hin.
Qed.
Abbreviation index_written := (run (write_postings_checked prefix_store index_path some_postings) never (at_rest index_tree)).
Lemma durable_write_spec_witness :
  index_written.1 = Ok tt /\ shape_at (fsys index_written.2) index_path = Some (ShFile (archive_bytes (st := prefix_store) some_postings)).
Proof.
  assert (E : index_written.1 = Ok tt) by (by vm_compute). split; [exact E|].
  pose proof (durable_write_spec prefix_store never (at_rest index_tree) index_written.2 index_path some_postings index_written.1
    (at_rest_honest _) (at_rest_timely _) index_tree_writable (surjective_pairing _)) as [Hr _].
  rewrite E in Hr. exact (proj1 Hr).
Defined.
Definition stored_tree : Fs := grove [(["db"], ShDir); (["db"; "i"], ShFile (archive_bytes (st := prefix_store) some_postings))].
Abbreviation index_opened := (run (open_checked prefix_store index_path) never (at_rest stored_tree)).
Lemma reopened_spec_witness : exists a, index_opened.1 = Ok a /\ holds (st := prefix_store) (values_ok := vec_ok) a (sort_postings some_postings).
Proof.
  assert (E : exists a, index_opened.1 = Ok a) by (eexists; vm_compute; reflexivity). destruct E as [a E]. exists a. split; [exact E|].
  pose proof (reopened_spec prefix_store vec_ok sort_dedup never (at_rest stored_tree) index_opened.2 index_path some_postings index_opened.1
    (at_rest_honest _) (at_rest_timely _) ltac:(apply grove_wf; by vm_compute) ltac:(by vm_compute) some_postings_ok (surjective_pairing _)) as [_ Hr].
  rewrite E in Hr. exact (proj2 Hr).
Defined.
Lemma opened_typed_witness : archive_ok prefix_store some_archive.
Proof.
  refine (proj1 (proj2 (proj2 (opened_typed prefix_store never ["i"] (archive_bytes (st := prefix_store) some_postings) tt tt some_archive _)))).
  vm_compute. reflexivity.
Defined.

(** * The cached look-ups: the theorems at concrete inputs *)
Lemma some_index_fits : index_fits some_records.
Proof. split; [exact some_records_ok|exact prefix_rows_small|exact substring_rows_small|exact fuzzy_rows_small|by vm_compute]. Qed.
Abbreviation some_lookup := (index_lookup some_records ["p"] ["s"] ["f"] 2).
Abbreviation prefix_hit := (fun k => ids_where (prefixed k) some_records).
Abbreviation substring_hit := (fun k => ids_where (containing k) some_records).
Abbreviation fuzzy_hit := (fuzzy_hits some_records).
Lemma alone_ok ph sh fh : others_ok ph sh fh alone.
Proof. by split. Qed.
Lemma some_lookup_ok : lookup_ok prefix_hit substring_hit fuzzy_hit some_lookup.
Proof. apply index_lookup_ok, some_index_fits. Qed.
Lemma plain_head (key : str) : head key <> head (lit "v") -> plain_key key.
Proof. intros Hh v term _ ->. by apply Hh. Qed.
Lemma gives_never {S A} (I : S -> Prop) (m : M S A) (v : A) s : gives I m (fun r => r = v) -> I s -> exists s', run m never s = (Ok v, s') /\ I s'.
Proof.
  intros Hm Hs. specialize (Hm never 0 s Hs). unfold run. destruct (m never 0 s) as [[r k] s']. destruct Hm as (_ & Hs' & Hr).
  destruct r as [x|e]; [exists s'; by subst|]. by destruct Hr as (j & _ & ?).
Qed.

(** The second look-up finds the list in the cache. *)
Lemma cached_lookup_transparent_witness : exists l l',
  run (prefix_ids alone (lit "RED")) never some_lookup = (Ok [mkFileId 1 2; mkFileId 1 7], l) /\
  run (prefix_ids_bounded alone (lit "RED") 1) never l = (Ok ([mkFileId 1 2], true), l').
Proof.
  destruct (cached_lookup_transparent prefix_hit substring_hit fuzzy_hit alone (alone_ok _ _ _)) as (Hp & _).
  destruct (Hp (lit "RED") (plain_head (lit "RED") ltac:(vm_compute; discriminate))) as [Hall Hb]. destruct (Hb 1%N) as [Hb1 _].
  replace (ids_where (prefixed (normalize (lit "RED"))) some_records) with [mkFileId 1 2; mkFileId 1 7] in * by (vm_compute; reflexivity).
  destruct (gives_never _ _ _ _ Hall some_lookup_ok) as (l & E & Hl). destruct (gives_never _ _ _ _ Hb1 Hl) as (l' & E' & _).
  exists l, l'. split; [exact E|exact E'].
Defined.
Lemma cached_batch_transparent_witness : exists l,
  run (prefix_postings_bounded_cancellable alone [lit "red"; lit "c"; []; lit "red"] 1) never some_lookup =
    (Ok [mkPosting (lit "c") [mkFileId 1 7]; mkPosting (lit "red") [mkFileId 1 2]], l).
Proof.
  destruct (cached_batch_transparent prefix_hit substring_hit fuzzy_hit alone (alone_ok _ _ _)) as (Hb & _).
  destruct (Hb [lit "red"; lit "c"; []; lit "red"] 1%N) as [Hx _].
  { intros k Hk. repeat (apply elem_of_cons in Hk as [->|Hk]; [split; [by vm_compute|apply plain_head; vm_compute; discriminate]|]). by apply elem_of_nil in Hk. }
  cbv zeta in Hx.
  replace (if decide (1%N = 0%N) then [] else _) with [mkPosting (lit "c") [mkFileId 1 7]; mkPosting (lit "red") [mkFileId 1 2]] in Hx
    by (vm_compute; reflexivity).
  destruct (gives_never _ _ _ _ Hx some_lookup_ok) as (l & E & _). exists l. exact E.
Defined.
Lemma volume_key_collision_witness :
  (run (prefix_ids alone (lit "volume=1:red")) never some_lookup).1 = Ok [] /\
  let '(_, l) := run (prefix_ids_for_volume_bounded alone (lit "red") 1 9) never some_lookup in
  (run (prefix_ids alone (lit "volume=1:red")) never l).1 = Ok [mkFileId 1 2; mkFileId 1 7].
Proof.
  destruct (volume_key_collision some_records ["p"] ["s"] ["f"] 2 (lit "red") 1 9 some_index_fits ltac:(discriminate) ltac:(discriminate)) as [H1 H2].
  { vm_compute. discriminate. }
  replace (ids_where (prefixed (normalize (volume_cache_key (lit "red") 1))) some_records) with (@nil FileId) in H1 by (vm_compute; reflexivity).
  replace (on_volume 1 (ids_where (prefixed (normalize (lit "red"))) some_records)) with [mkFileId 1 2; mkFileId 1 7] in H2 by (vm_compute; reflexivity).
  change (volume_cache_key (lit "red") 1) with (lit "volume=1:red") in *. split; [exact H1|].
  destruct (run (prefix_ids_for_volume_bounded alone (lit "red") 1 9) never some_lookup) as [r l]. exact (proj2 H2).
Defined.

(** * The index in memory: witnesses *)
Definition file_at (v n : N) (name : string) : FileRecord :=
  mkRecord (mkFileId v n) None (lit "/d/" ++ lit name) (lit name) File 0 0 0 0 0 None None None false [] None.
Definition busy_day : list index_op :=
  [OpInsert (file_at 1 7 "Red Colour.txt"); OpInsert (file_at 2 3 "colour42"); OpContent (mkFileId 2 3) (lit "a b a"); OpPin (mkFileId 1 7);
   OpInsert (file_at 1 7 "blue.md"); OpInsert (file_at 1 2 "red"); OpRemove (mkFileId 1 2); OpRemovePath (record_path (file_at 2 3 "colour42"))].
Lemma busy_day_own : own_paths new_index busy_day = true.
Proof. vm_compute. reflexivity. Qed.
Lemma incremental_is_rebuild_witness :
  let ix := foldl apply_op new_index busy_day in
  let built := insert_all [file_at 1 7 "blue.md"] new_index in
  records built = records ix /\ columns built = columns ix /\ index_terms built = index_terms ix /\ paths built = paths ix.
Proof.
  destruct (incremental_is_rebuild busy_day [file_at 1 7 "blue.md"]) as (Hr & Hc & Ht & Hp & _); [vm_compute; reflexivity| |].
  { replace ((map_to_list (records (foldl apply_op new_index busy_day))).*2) with [file_at 1 7 "blue.md"] by (vm_compute; reflexivity). reflexivity. }
  exact (conj Hr (conj Hc (conj Ht (Hp busy_day_own)))).
Defined.
(** An insert at the path of another record loses the path when the other goes. *)
Lemma path_lost : let ops := [OpInsert (file_at 1 1 "a"); OpInsert (file_at 1 2 "a"); OpRemove (mkFileId 1 1)] in
  own_paths new_index ops = false /\ paths (foldl apply_op new_index ops) = ∅ /\ paths (insert_all [file_at 1 2 "a"] new_index) <> ∅.
Proof. vm_compute. split_and!; [reflexivity|reflexivity|discriminate]. Qed.

Lemma insert_remove_witness : let ix := foldl apply_op new_index [OpInsert (file_at 2 3 "colour42"); OpPin (mkFileId 2 3)] in
  remove (mkFileId 1 7) (insert_record (file_at 1 7 "Red Colour.txt") ix) = (Some (file_at 1 7 "Red Colour.txt"), ix).
Proof.
  apply (insert_remove _ (file_at 1 7 "Red Colour.txt")); [apply ops_ok; [reflexivity|apply new_ok]|vm_compute; reflexivity..].
Defined.

Definition read_files : list index_op :=
  [OpInsert (file_at 1 7 "a.txt"); OpInsert (file_at 1 2 "b.txt"); OpContent (mkFileId 1 7) (lit "old text");
   OpContent (mkFileId 1 2) (lit "The red house, the blue house"); OpContent (mkFileId 1 7) (lit "A blue red house")].
Lemma read_files_ok : forallb op_texts read_files = true.
Proof. vm_compute. reflexivity. Qed.
Lemma red_house_short : short (words (normal (lit "Red House"))).
Proof. unfold short. apply N.leb_le. vm_compute. reflexivity. Qed.
Lemma content_phrase_spec_witness : let ix := (run_both read_files).1 in
  exists ids, computes (S := unit) (content_phrase_ids_cancellable ix (lit "Red House")) ids /\ mkFileId 1 2 ∈ ids /\ mkFileId 1 7 ∈ ids.
Proof.
  destruct (content_phrase_spec (St := unit) read_files (lit "Red House") read_files_ok red_house_short) as [_ (ids & Hc & _ & Hin)].
  exists ids. split; [exact Hc|]. split; apply Hin; (split; [vm_compute; discriminate|]).
  - exists [lit "the"], [lit "the"; lit "blue"; lit "house"]. vm_compute. reflexivity.
  - exists [lit "a"; lit "blue"], []. vm_compute. reflexivity.
Defined.
Lemma content_proximity_spec_witness : let ix := (run_both read_files).1 in
  exists ids, computes (S := unit) (content_proximity_ids_cancellable ix (mkProximity 2 [lit "red"; lit "blue"])) ids /\ mkFileId 1 7 ∈ ids.
Proof.
  destruct (content_proximity_spec (St := unit) read_files (mkProximity 2 [lit "red"; lit "blue"]) read_files_ok) as [_ (ids & Hc & _ & Hin)].
  exists ids. split; [exact Hc|]. apply Hin. exists 0, (lit "red"). split; [reflexivity|]. split; [vm_compute; reflexivity|]. exists 2%N. split; [vm_compute; left|].
  intros term Ht. cbn [proximity_terms] in Ht. apply elem_of_cons in Ht as [->|Ht%list_elem_of_singleton]; [exists 2%N|subst term; exists 1%N]; (split; [vm_compute; left|vm_compute; split; discriminate]).
Defined.

(** * Queries: the theorems at concrete inputs *)
Definition kept_files : list index_op :=
  [OpInsert (file_at 1 7 "Red House.txt"); OpInsert (file_at 1 2 "house"); OpInsert (file_at 2 3 "red.md"); OpContent (mkFileId 2 3) (lit "a house")].
Abbreviation kept_index := (foldl apply_op new_index kept_files).
Lemma kept_index_ok : index_ok true kept_index.
Proof. apply ops_ok; [reflexivity|apply new_ok]. Qed.
Definition ten_days : SystemTime := 864000000000000%Z.
Definition red_house : SearchQuery := parse (lit "red house").
Definition red_or_text : SearchQuery := parse (lit "red AND (ext:md OR NOT kind:file)").
Definition red_or_text_expr : QueryExpr := EAnd [ETerm (lit "red"); EOr [EFilter (FExtension (lit "md") false); ENot (EFilter (FKind KindFile false))]].
Definition only_words : SearchQuery := mkQuery [lit "red"; lit "house"] [] [] [] [] None.
Abbreviation ask query pass := (query_pass (St := unit) (H0 := EmptySearchLookup) ten_days default_budget kept_index query 5 pass).
(** The words of a text are parsed to an expression: the short ways are not taken. *)
Lemma parsed_words_not_simple : is_simple (parse (lit "red")) = false /\ is_simple red_house = false /\ is_simple only_words = true.
Proof. vm_compute. split_and!; reflexivity. Qed.
Lemma ensured {A} (m : M unit A) (P : A -> Prop) : ensures m P -> completes m -> exists a, (run m never tt).1 = Ok a /\ P a.
Proof.
  intros He Hs. destruct (Hs 0 tt) as (a & k & s & E). exists a. unfold run. rewrite E. split; [done|]. by eapply He.
Qed.
Lemma kept_index_small : size (records kept_index) <= 5.
Proof. apply Nat.leb_le. vm_compute. reflexivity. Qed.
Lemma red_or_text_parsed : expression red_or_text = Some red_or_text_expr.
Proof. vm_compute. reflexivity. Qed.
Lemma red_md_meets : meets ten_days kept_index (file_at 2 3 "red.md") Full red_or_text_expr = true.
Proof. vm_compute. reflexivity. Qed.
Lemma red_md_kept : records kept_index !! mkFileId 2 3 = Some (file_at 2 3 "red.md").
Proof. vm_compute. reflexivity. Qed.
Lemma only_words_simple : is_simple only_words = true.
Proof. vm_compute. reflexivity. Qed.
Lemma red_md_words : Forall (fun term => word_in kept_index Full term (mkFileId 2 3) = true) (terms only_words).
Proof. repeat constructor; vm_compute; reflexivity. Qed.
Lemma red_house_delta : may_have_deep_delta kept_index red_house = true.
Proof. vm_compute. reflexivity. Qed.
Lemma two_batches : exists batches, (run (stream_structured_cancellable (St := unit) ten_days kept_index red_house 5) never tt).1 = Ok batches /\ batch_stage <$> batches = [HotStage; DeepStage].
Proof. eexists. split; vm_compute; reflexivity. Qed.
Lemma ask_succeeds query pass : completes (ask query pass).
Proof. exact (@completes_pass _ unit ten_days EmptySearchLookup empty_succeeds default_budget kept_index query 5 pass). Qed.
Lemma query_answers_witness : exists report, (run (ask red_house Hot) never tt).1 = Ok report /\ answers ten_days kept_index red_house Hot 5 (report_hits report).
Proof.
  destruct (query_answers (St := unit) (H0 := EmptySearchLookup) ten_days default_budget true kept_index red_house 5 Hot kept_index_ok) as [Ha Hs].
  exact (ensured _ _ Ha (Hs empty_succeeds)).
Defined.
Lemma expressions_complete_witness : exists report, (run (ask red_or_text Full) never tt).1 = Ok report /\ mkFileId 2 3 ∈ hit_id <$> report_hits report.
Proof.
  destruct (ensured _ _ (expressions_complete (St := unit) (H0 := EmptySearchLookup) ten_days default_budget kept_index red_or_text red_or_text_expr 5 Full kept_index_ok
    red_or_text_parsed eq_refl kept_index_small) (ask_succeeds _ _)) as (report & E & Hm & _).
  exists report. split; [exact E|]. exact (Hm _ _ red_md_kept red_md_meets).
Defined.
Lemma words_found_witness : exists report, (run (ask only_words Full) never tt).1 = Ok report /\ mkFileId 2 3 ∈ hit_id <$> report_hits report.
Proof.
  destruct (ensured _ _ (words_found (St := unit) (H0 := EmptySearchLookup) ten_days default_budget kept_index only_words 5 Full kept_index_ok
    only_words_simple ltac:(discriminate) kept_index_small) (ask_succeeds _ _)) as (report & E & Hm).
  exists report. split; [exact E|]. apply Hm; [rewrite red_md_kept; by eexists|]. intros term Hin. exact (proj1 (Forall_forall _ _) red_md_words term Hin).
Defined.
Lemma ensured_run {A} (m : M unit A) (P : A -> Prop) a : ensures m P -> (run m never tt).1 = Ok a -> P a.
Proof. intros He. unfold run. destruct (m never 0 tt) as [[r k] s] eqn:E. cbn [fst]. intros ->. by eapply He. Qed.
(** The content is found by the second batch. *)
Lemma stream_answers_witness : exists hot all,
  settles (ask red_house Hot) hot /\ settles (ask red_house Full) all /\
  settles (stream_structured_cancellable (St := unit) ten_days kept_index red_house 5)
    (stage_batch HotStage (report_hits hot) ++ stage_batch DeepStage (news (report_hits hot) (report_hits all))) /\
  exists batches, (run (stream_structured_cancellable (St := unit) ten_days kept_index red_house 5) never tt).1 = Ok batches /\
    batch_stage <$> batches = [HotStage; DeepStage].
Proof.
  destruct (stream_answers tt ten_days true kept_index red_house 5 kept_index_ok) as (hot & all & Hh & Ha & Hs & _).
  exists hot, all. rewrite red_house_delta in Hs. exact (conj Hh (conj Ha (conj Hs two_batches))).
Defined.

(** * Queries that lose records *)
Definition found_in (files : list FileRecord) (query : SearchQuery) : option (list FileId) :=
  match (run (query_pass (St := unit) (H0 := EmptySearchLookup) ten_days default_budget (insert_all files new_index) query 9 Full) never tt).1 with
  | Ok report => Some (hit_id <$> report_hits report)
  | Err _ => None
  end.
(** A part of a name is found until some name has it as a word. *)
Lemma name_filter_depends :
  found_in [file_at 1 1 "abc.txt"] (parse (lit "name:ab")) = Some [mkFileId 1 1] /\
  found_in [file_at 1 1 "abc.txt"; file_at 1 2 "ab.txt"] (parse (lit "name:ab")) = Some [mkFileId 1 2].
Proof. vm_compute. split; reflexivity. Qed.
(** A quoted part of a word matches and is not found. *)
Lemma quoted_part_lost : let ix := insert_all [file_at 1 1 "abc.txt"] new_index in
  found_in [file_at 1 1 "abc.txt"] (mkQuery [] [] [lit "ab"] [] [] (Some (EPhrase (lit "ab")))) = Some [] /\
  query_matches ten_days ix (file_at 1 1 "abc.txt") (mkQuery [] [] [lit "ab"] [] [] (Some (EPhrase (lit "ab")))) Full = true.
Proof. vm_compute. split; reflexivity. Qed.
(** The short way for several words answers with a record that has one of them; a text
    with a parenthesis left open takes it. *)
Lemma one_word_is_enough : found_in [file_at 1 1 "red.txt"; file_at 1 2 "red blue.txt"; file_at 1 3 "blue.txt"; file_at 1 4 "red"] (parse (lit "(red blue")) =
  Some [mkFileId 1 2; mkFileId 1 3].
Proof. vm_compute. reflexivity. Qed.
(** A number has no near words in the index, and the full pass matches it to names of two
    letters all the same; the stream has no full pass for it. *)
Lemma stream_loses : let files := [file_at 1 1 "ab.md"] in let query := parse (lit "12 kind:file") in
  found_in files query = Some [mkFileId 1 1] /\
  (run (stream_structured_cancellable (St := unit) ten_days (insert_all files new_index) query 9) never tt).1 = Ok [].
Proof. vm_compute. split; reflexivity. Qed.
